(* ===== verification/_CoqProject ===== *)
-Q . S2P
Prelude.v
Bytes.v
GoStrings.v
Packer.v
Crdt.v
CrdtWire.v
CrdtEngine.v
KvLease.v
KvState.v
KvCodec.v
KvFsm.v
KvService.v
KvEngine.v
Multiplex.v
Pid.v
NameReg.v
NameFsm.v
NameLog.v
Dissem.v
Cluster.v
Graph.v
RegEntry.v
RegDeps.v
RegOrder.v
RegDelta.v
RegRunner.v
RegHistory.v
RegCore.v
RegSpec.v
Wildcard.v
EventBus.v
Deque.v
RunQueue.v
Processor.v
Radix.v
Policy.v
Varint.v
PolicyPlan.v
PolicyScope.v
PolicyReg.v
Topology.v
PgState.v
PgRetry.v
PgService.v
PgMembers.v
PgEvents.v
PgWire.v
PgCluster.v
