(* ===== verification/Prelude.v ===== *)
(** * Verification of the wippy runtime

    The runtime hosts processes on a cluster of nodes. This development models the parts
    that keep shared state consistent: a registry of configuration entries with versions
    and rollback, a replicated registry of process names, a key-value store with a
    consensus backend, a gossip backend and a standalone backend, the event bus by which
    components tell each other what happened, the scheduler that runs processes, the
    topology that tells them of each other's end, and the security policies that decide what
    they may do. Paths below are relative to [src/].

    ** How code is represented

    Go functions are Rocq functions over records with the source's fields; a method returns
    its results with the new receiver. Machine integers are [Z] with their wrap-around
    written out ([u64], [i64], [wrap64]); a [[]byte] and a Go [string] that is taken apart
    is a list of [ascii]; other strings are [string]. Go maps are [gmap]s and the order of
    an iteration is [map_to_list]'s, an argument, or a permutation, where the result depends
    on it. Errors are sum types or options that keep the code's classes. Objects that the
    code shares by pointer (heap entries of leases, shard maps of snapshots) live in a store
    and are referred to by address. Every operation that holds one lock throughout is one
    transition; what runs concurrently is a step relation (the event bus, the topology), at
    the grain of single atomic accesses where the code is lock-free (the queues and the
    state word of the scheduler). Clock readings are arguments. Loops that are not
    structurally recursive take fuel, which is computed from the arguments and proved to be
    enough; no theorem is conditional on it.

    Code that is not in the repository is a parameter with its documented behaviour as the
    laws of a class: the xxhash digest ([XXHash], no law), [encoding/gob] ([Gob]) and
    msgpack ([Msgpack], both a round trip), the raft library (which proposals it accepts
    and in what order is an argument), the digest of a plan, the listeners and the
    outside of the registry runner ([send], [wait], [prepare] on an arbitrary [World]), and
    what a condition or an expression of a security policy evaluates to. Witnesses
    instantiate each of them.

    ** The files

    - [Prelude]: machine integers, lists, options, maps, sorting, tactics and the hint
      databases. [Bytes]: [encoding/binary]. [GoStrings]: the parts of [strings] in use.
    - [Packer]: the routine by which both gossip planes pack their queues into frames.
    - [Crdt]: one gossip replica ([system/crdt/state.go]). [CrdtWire]: its wire formats and
      queue ([delta.go], [digest.go]). [CrdtEngine]: the gossip key-value engine
      ([system/kv/crdt_engine.go], [crdt_delegate.go]).
    - [KvLease]: the lease heap ([system/kv/lease.go]). [KvState]: entries, leases and
      published snapshots ([state.go]). [KvCodec]: the command encoding
      ([raft_command.go]). [KvFsm]: the replicated state machine ([raft_fsm.go]).
      [KvService]: the standalone service ([service.go]). [KvEngine]: lease expiry on the
      raft leader ([raft_engine.go]).
    - [Multiplex]: one raft log and one snapshot for two state machines
      ([cluster/raft/multiplex/router.go]).
    - [Pid]: process identifiers ([api/pid]). [NameReg], [NameFsm], [NameLog]: the global
      name registry, its state machine and its logs
      ([system/topology/namereg/global/state.go], [fsm.go], [commands.go], [service.go]).
      [Dissem]: its dissemination to other nodes ([dissem.go]).
    - [Cluster]: the node the runtime boots, out of [Multiplex], [NameFsm] and [KvFsm].
    - [Graph]: directed graphs and dependency levels ([internal/graph]).
    - [RegEntry], [RegDeps], [RegOrder], [RegDelta]: entries and references, dependencies,
      the order of a changeset, and deltas ([api/registry], [api/env/placeholder],
      [system/registry/topology]). [RegRunner]: transitions over the event bus
      ([system/registry/runner]). [RegHistory]: versions and the in-memory history
      ([internal/version], [system/registry/history/memory]). [RegCore], [RegSpec]: the
      registry with its plans and overlays ([system/registry/registry.go], [plan.go],
      [overlay.go]) and its invariant.
    - [Wildcard]: event patterns ([internal/wildcard]). [EventBus]: the bus
      ([system/eventbus/bus.go]).
    - [Deque]: the work-stealing deque ([system/scheduler/actor/deque.go]). [RunQueue]: the
      global run queue and the lock-free inject queue ([queue.go], [inject.go]).
      [Processor]: the state word of a process and its event queue under workers, handlers
      and senders ([processor.go], [worker.go], [api/process/queue.go]).
    - [Topology]: monitors and links between processes, their end and the loss of nodes
      ([system/topology/topology.go]).
    - [Radix]: prefix trees ([system/security/radix.go]). [Policy]: policies, filters and
      their validation ([service/security/policy]). [Varint]: the integers of
      [encoding/binary]. [PolicyPlan]: the index and the plans of a set of policies
      ([system/security/action_plan.go]). [PolicyScope]: scopes over shared segments
      ([segment.go], [scope.go]). [PolicyReg]: the policy registry, configurations and
      decisions ([registry.go], [pairs.go], [context.go]).

    Components meet at interfaces: [StateMachine] with [ReplicaLaws] between the router and
    the state machines ([Multiplex], discharged in [Cluster]), [RunnerLaws] between the
    registry and the runner ([RegCore], discharged in [RegSpec]), [DescribedBy] between a
    policy and the plans that rely on its description ([Policy], discharged there for both
    kinds of policy and used by [PolicyPlan]), and the encoder classes above.

    ** What the theorems show

    - The cluster: a node that is restored from any snapshot and applies the rest of the
      log answers as one that applied the whole log, through the framing of both state
      machines and whatever clocks and map orders the two nodes have. Key-value readers are
      current and never torn, transactions are atomic, versions and fence tokens never come
      back, failed commands have no effect, no lease ends early and a leader ends every due
      one. The standalone service refines the replicated machine.
    - Names: every log entry takes every name one step of a small abstract machine; a strong
      name becomes active only by agreement of the nodes its reservation required; removing
      a node terminates and leaves none of its names; caches that heard the gossip in any
      order agree with the registry.
    - Gossip: replicas that saw the same deltas in any order and multiplicity agree; full
      state exchange is a merge; tombstones are dropped only when every peer knows them.
    - The registry: the published state is what the history records for the current version
      with the overlays' claims on top, in every reachable registry; booting from the
      history comes back to it; refused and rolled-back operations leave no trace; a plan is
      applied as planned or not at all; changesets are ordered by dependencies or rejected;
      a delta leads from one state to the other; a transition terminates, restores the state
      when it fails, and succeeds in any order of operations that wait for each other.
    - The event bus: under every interleaving, also across a shutdown, each request is
      answered exactly once and can always come to its answer; deliveries keep the order of
      publication; and after [Unsubscribe] nothing is delivered. A wildcard matches what its
      segments mean.
    - The scheduler: in every interleaving of atomic accesses a process runs on one worker
      at a time, no event is left behind when everything has come to rest, a deque neither
      loses nor duplicates an item when thieves take one at a time (and does when they take
      half), and the queues are first in, first out.
    - The topology: in every interleaving of calls at the locks of the shards, relations
      agree on both sides and outlive no process once the calls have returned; whoever
      monitors a process is told of its end, and of the loss of its node.
    - Security: whatever was asked before and however scopes were built, the indexed and
      cached evaluation answers as asking every policy would, a denial before a permission;
      scopes stay within eight segments; groups follow the policies that name them; a
      configuration takes effect as a whole or not at all.

    Codecs, queues, heaps and indexes have their own theorems in their files (round trips,
    bounds, exactness), which the ones above use.

    ** Not modelled

    Adapters to third-party systems, whose behaviour is that of the system (raft, gossip and
    network transports, SQL, queues, cloud storage, the workflow engine, the Lua and
    WebAssembly engines, HTTP), generated protocol code, interfaces and context accessors
    without behaviour, the command line, telemetry and logging. Of the modelled components:
    directives of the registry and the stored dependency resolutions they produce (they
    consult module sources outside the process), histories in databases, the timers and
    goroutines that drive gossip rounds, metrics, and the object pools; of the scheduler the
    choice of work by a worker, parking, the resizing of pools and upgrades of processes; of
    security the evaluation of conditions (regular expressions and floating-point numbers)
    and of expressions (a third-party language), tokens, and the goroutine that waits for a
    registration. Supervisors and process groups are not reached. *)

From Stdlib Require Export Ascii.
From stdpp Require Export base tactics numbers list list_numbers gmap strings sorting fin_maps.
From Stdlib Require Export ZArith Lia.

Open Scope Z_scope.

(** ** Machine integers

    Go's fixed-width integers are integers of [Z] reduced after every operation
    that can leave the width. *)

Definition u8 (z : Z) : Z := z mod 2 ^ 8.
Definition u16 (z : Z) : Z := z mod 2 ^ 16.
Definition u32 (z : Z) : Z := z mod 2 ^ 32.
Definition u64 (z : Z) : Z := z mod 2 ^ 64.

(** [int64(u)] for an unsigned 64-bit [u]: two's complement. *)
Definition i64 (z : Z) : Z :=
  let u := z mod 2 ^ 64 in if bool_decide (u < 2 ^ 63) then u else u - 2 ^ 64.

Definition is_u64 (z : Z) : Prop := 0 ≤ z < 2 ^ 64.
Definition is_i64 (z : Z) : Prop := - 2 ^ 63 ≤ z < 2 ^ 63.

(** ** Results of fallible code: [(value, nil)] or [(zero, err)] *)

Inductive result (E A : Type) : Type :=
| Ok (a : A)
| Err (e : E).
Arguments Ok {E A} a.
Arguments Err {E A} e.

Definition result_bind {E A B} (r : result E A) (f : A → result E B) : result E B :=
  match r with Ok a => f a | Err e => Err e end.

Declare Scope go_scope.
Delimit Scope go_scope with go.
Notation "'let*' x := c 'in' k" := (result_bind c (λ x, k))
  (at level 10, x pattern, c at level 100, k at level 200) : go_scope.

(** ** Go strings

    A Go string is a sequence of bytes, compared bytewise: [string] with
    [String.compare] is that type and that order. *)

Definition str_ltb (a b : string) : bool := String.ltb a b.
Definition bytes_of (s : string) : list ascii := String.list_ascii_of_string s.
Definition string_of (b : list ascii) : string := String.string_of_list_ascii b.

(** ** Sums over lists and counts over maps *)

Definition zsum {A} (f : A → Z) (l : list A) : Z := foldr (λ a acc, f a + acc) 0 l.

Definition cnt {K} `{Countable K} {V} (p : V → bool) (m : gmap K V) : Z :=
  Z.of_nat (size (filter (λ kv, p (kv.2) = true) m)).

(** ** Tactics *)

(** Case analysis on every [bool_decide] and [if] on a boolean of the goal. *)
Ltac case_bool :=
  repeat match goal with
  | |- context [bool_decide ?P] => destruct (bool_decide_reflect P)
  | H : context [bool_decide ?P] |- _ => destruct (bool_decide_reflect P)
  end.

(** The decision of a boolean conditional by its hypotheses. *)
Ltac by_bool := case_bool; try done; try lia; try congruence.

(** ** Lemmas on integers *)

Lemma u64_small z : is_u64 z → u64 z = z.
Proof. intros H. unfold u64. by apply Z.mod_small. Qed.

Lemma u64_range z : is_u64 (u64 z).
Proof. apply Z.mod_pos_bound. lia. Qed.

Lemma u32_small z : 0 ≤ z < 2 ^ 32 → u32 z = z.
Proof. intros H. by apply Z.mod_small. Qed.

Lemma u16_small z : 0 ≤ z < 2 ^ 16 → u16 z = z.
Proof. intros H. by apply Z.mod_small. Qed.

Lemma u8_small z : 0 ≤ z < 2 ^ 8 → u8 z = z.
Proof. intros H. by apply Z.mod_small. Qed.

(** Writing an int64 as its uint64 bit pattern and reading it back. *)
Lemma i64_small z : is_i64 z → i64 z = z.
Proof.
  unfold is_i64, i64. intros H. case_bool.
  - destruct (decide (0 ≤ z)); [apply Z.mod_small; lia|].
    rewrite <- (Z.mod_add z 1), Z.mod_small in * by lia. lia.
  - destruct (decide (0 ≤ z)); [rewrite Z.mod_small in * by lia; lia|].
    rewrite <- (Z.mod_add z 1), Z.mod_small by lia. lia.
Qed.

Lemma i64_u64 z : is_i64 z → i64 (u64 z) = z.
Proof.
  unfold is_i64, i64, u64. intros H. rewrite Z.mod_mod by lia.
  destruct (decide (0 ≤ z)).
  - rewrite Z.mod_small by lia. by_bool.
  - replace (z mod 2 ^ 64) with (z + 2 ^ 64); [by_bool|].
    symmetry. rewrite <- (Z_mod_plus_full z 1), Z.mod_small; lia.
Qed.

(** ** Lemmas on strings *)

Lemma str_compare_refl a : String.compare a a = Eq.
Proof.
  induction a as [|c a IH]; simpl; [done|].
  unfold Ascii.compare. by rewrite N.compare_refl.
Qed.

Lemma str_ltb_irrefl a : str_ltb a a = false.
Proof. unfold str_ltb, String.ltb. by rewrite str_compare_refl. Qed.

Lemma str_ltb_le a b : str_ltb a b = true ↔ String.le a b ∧ a ≠ b.
Proof.
  unfold str_ltb, String.ltb, String.le, String.leb.
  destruct (String.compare a b) eqn:E; split; try done.
  - apply String.compare_eq_iff in E as ->. by intros [].
  - intros _. split; [done|]. intros ->. by rewrite str_compare_refl in E.
  - by intros [].
Qed.

Lemma str_ltb_trans a b c : str_ltb a b = true → str_ltb b c = true → str_ltb a c = true.
Proof.
  rewrite !str_ltb_le. intros [H1 N1] [H2 N2]. split; [by etrans|].
  intros ->. apply N1. by apply (anti_symm String.le).
Qed.

Lemma str_ltb_total a b : str_ltb a b = true ∨ a = b ∨ str_ltb b a = true.
Proof.
  destruct (decide (a = b)) as [|N]; [tauto|].
  destruct (total String.le a b); [left|right; right]; apply str_ltb_le; auto.
Qed.

Lemma str_ltb_asym a b : str_ltb a b = true → str_ltb b a = false.
Proof.
  intros H. destruct (str_ltb b a) eqn:E; [|done].
  by rewrite <- (str_ltb_irrefl a), (str_ltb_trans _ _ _ H E).
Qed.

Lemma string_of_bytes_of s : string_of (bytes_of s) = s.
Proof. apply String.string_of_list_ascii_of_string. Qed.

Lemma bytes_of_string_of b : bytes_of (string_of b) = b.
Proof. apply String.list_ascii_of_string_of_list_ascii. Qed.

#[global] Instance bytes_of_inj : Inj (=) (=) bytes_of.
Proof. intros a b H. rewrite <- (string_of_bytes_of a), H. apply string_of_bytes_of. Qed.

(** ** Lemmas on sums and counts *)

Lemma zsum_app {A} (f : A → Z) l1 l2 : zsum f (l1 ++ l2) = zsum f l1 + zsum f l2.
Proof. induction l1 as [|a l1 IH]; simpl; [done|]. unfold zsum in *. simpl. lia. Qed.

Lemma zsum_insert {A} (f : A → Z) l i x y :
  l !! i = Some x → zsum f (<[i:=y]> l) = zsum f l - f x + f y.
Proof.
  revert i. induction l as [|a l IH]; intros [|i] H; simplify_eq/=; [lia|].
  unfold zsum in *. simpl. rewrite (IH _ H). lia.
Qed.

Lemma zsum_nonneg {A} (f : A → Z) l : (∀ a, 0 ≤ f a) → 0 ≤ zsum f l.
Proof. intros H. induction l as [|a l IH]; simpl; [done|]. specialize (H a). lia. Qed.

Lemma zsum_ext {A} (f g : A → Z) l : (∀ a, a ∈ l → f a = g a) → zsum f l = zsum g l.
Proof.
  induction l as [|a l IH]; intros H; simpl; [done|].
  rewrite H by set_solver. rewrite IH; [done|]. intros. apply H. set_solver.
Qed.

Section cnt.
Context {K : Type} `{Countable K} {V : Type} (p : V → bool).
Implicit Types (m : gmap K V).

Lemma cnt_empty : cnt p (∅ : gmap K V) = 0.
Proof. unfold cnt. by rewrite map_filter_empty, map_size_empty. Qed.

Lemma cnt_delete m k v :
  m !! k = Some v → cnt p (delete k m) = cnt p m - Z.b2z (p v).
Proof.
  intros Hk. unfold cnt. rewrite map_filter_delete, map_size_delete.
  destruct (p v) eqn:Hp.
  - assert (Hf : filter (λ kv, p kv.2 = true) m !! k = Some v)
      by (by apply map_lookup_filter_Some).
    rewrite Hf.
    assert (size (filter (λ kv : K * V, p kv.2 = true) m) ≠ 0%nat).
    { intros Hz. apply map_size_empty_inv in Hz. rewrite Hz in Hf.
      by rewrite lookup_empty in Hf. }
    simpl. lia.
  - replace (filter (λ kv, p kv.2 = true) m !! k) with (@None V); [simpl; lia|].
    symmetry. apply map_lookup_filter_None. right. intros x Hx. simplify_eq. simpl. congruence.
Qed.

Lemma cnt_insert_new m k v :
  m !! k = None → cnt p (<[k:=v]> m) = cnt p m + Z.b2z (p v).
Proof.
  intros Hk. unfold cnt. rewrite map_filter_insert. case_decide as Hp; simpl in Hp.
  - rewrite map_size_insert_None; [rewrite Hp; simpl; lia|].
    apply map_lookup_filter_None. by left.
  - apply not_true_is_false in Hp. rewrite Hp, delete_id by done. simpl; lia.
Qed.

Lemma cnt_insert m k v :
  cnt p (<[k:=v]> m) =
  cnt p m - (match m !! k with Some o => Z.b2z (p o) | None => 0 end) + Z.b2z (p v).
Proof.
  destruct (m !! k) as [o|] eqn:Hk.
  - rewrite <- insert_delete_eq, cnt_insert_new by apply lookup_delete_eq.
    by rewrite (cnt_delete _ _ _ Hk).
  - rewrite cnt_insert_new by done. lia.
Qed.

Lemma cnt_nonneg m : 0 ≤ cnt p m.
Proof. unfold cnt. lia. Qed.
End cnt.

Create HintDb wippy.
Create Rewrite HintDb wippy.
#[export] Hint Resolve str_ltb_irrefl cnt_nonneg u64_range : wippy.
#[export] Hint Rewrite string_of_bytes_of bytes_of_string_of : wippy.

(** ** Filters *)

Lemma filter_all {A} (P : A → Prop) `{∀ x, Decision (P x)} (l : list A) :
  (∀ x, x ∈ l → P x) → filter P l = l.
Proof.
  induction l as [|x l IH]; intros Hl; [done|]. rewrite filter_cons_True by (apply Hl; by left).
  f_equal. apply IH. intros y Hy. apply Hl. by right.
Qed.

Lemma filter_none {A} (P : A → Prop) `{∀ x, Decision (P x)} (l : list A) :
  (∀ x, x ∈ l → ¬ P x) → filter P l = [].
Proof.
  induction l as [|x l IH]; intros Hl; [done|]. rewrite filter_cons_False by (apply Hl; by left).
  apply IH. intros y Hy. apply Hl. by right.
Qed.

Lemma forallb_agree {A} (f g : A → bool) l : (∀ x, f x = g x) → forallb f l = forallb g l.
Proof. intros Hf. induction l as [|x l IH]; cbn; [done|]. by rewrite Hf, IH. Qed.

Lemma filter_agree {A} (P Q : A → Prop) `{∀ x, Decision (P x), ∀ x, Decision (Q x)} (l : list A) :
  (∀ x, x ∈ l → P x ↔ Q x) → filter P l = filter Q l.
Proof.
  induction l as [|x l IH]; intros Hl; [done|]. rewrite !filter_cons.
  rewrite IH by (intros y Hy; apply Hl; by right). pose proof (Hl x ltac:(by left)).
  by destruct (decide (P x)), (decide (Q x)); try tauto.
Qed.

(** ** Concatenation and folds *)

Lemma elem_of_concat {A} (ls : list (list A)) x : x ∈ concat ls ↔ ∃ l, l ∈ ls ∧ x ∈ l.
Proof. rewrite list_elem_of_In, in_concat. by setoid_rewrite <- list_elem_of_In. Qed.

Lemma elem_of_flat {A B} (f : A → list B) (l : list A) x : x ∈ concat (f <$> l) ↔ ∃ a, a ∈ l ∧ x ∈ f a.
Proof. rewrite elem_of_concat. setoid_rewrite list_elem_of_fmap. naive_solver. Qed.

Lemma foldl_fmap {A B C} (f : A → B → A) (g : C → B) (l : list C) a :
  foldl (λ a c, f a (g c)) a l = foldl f a (g <$> l).
Proof. revert a. induction l as [|c l IH]; intros a; [done|]. apply IH. Qed.

Lemma not_subseteq_elem {A} `{Countable A} (X Y : gset A) : ¬ X ⊆ Y → ∃ a, a ∈ X ∧ a ∉ Y.
Proof.
  intros Hs. destruct (set_choose_L (X ∖ Y)) as [a [? ?]%elem_of_difference]; [|eauto].
  intros He. apply Hs. intros x Hx. destruct (decide (x ∈ Y)); [done|set_solver].
Qed.

(** ** Stable sorting

    [sort.SliceStable]: elements that compare equal keep their order. *)

Section stable_sort.
Context {A : Type} (R : A → A → Prop) `{∀ x y, Decision (R x y)}.

Fixpoint insert_le (x : A) (l : list A) : list A :=
  match l with
  | [] => [x]
  | y :: l => if decide (R x y) then x :: y :: l else y :: insert_le x l
  end.

Definition stable_sort (l : list A) : list A := foldr insert_le [] l.

Lemma insert_le_perm x l : insert_le x l ≡ₚ x :: l.
Proof. induction l as [|y l IH]; cbn; [done|]. destruct (decide (R x y)); [done|]. rewrite IH. constructor. Qed.

Lemma stable_sort_perm l : stable_sort l ≡ₚ l.
Proof. induction l as [|x l IH]; cbn; [done|]. by rewrite insert_le_perm, IH. Qed.

Context `{!Transitive R, !Total R}.

Lemma insert_le_sorted x l : StronglySorted R l → StronglySorted R (insert_le x l).
Proof.
  induction 1 as [|y l Hl IH Hy]; cbn; [repeat constructor|]. destruct (decide (R x y)) as [Hxy|Hxy].
  - constructor; [by constructor|]. constructor; [done|]. eapply Forall_impl; [done|]. intros z. by apply transitivity.
  - constructor; [done|]. rewrite insert_le_perm. constructor; [|done]. destruct (total R x y); [done|done].
Qed.

Lemma stable_sort_sorted l : StronglySorted R (stable_sort l).
Proof. induction l as [|x l IH]; cbn; [constructor|]. by apply insert_le_sorted. Qed.

(** Sorting does not depend on the order of the input when no two elements compare equal. *)
Lemma stable_sort_unique l1 l2 :
  l1 ≡ₚ l2 → (∀ x y, x ∈ l1 → y ∈ l1 → R x y → R y x → x = y) → stable_sort l1 = stable_sort l2.
Proof.
  intros Hp Ha.
  assert (Hgen : ∀ s1 s2, StronglySorted R s1 → StronglySorted R s2 → s1 ≡ₚ s2 →
    (∀ x y, x ∈ s1 → y ∈ s1 → R x y → R y x → x = y) → s1 = s2).
  { clear. intros s1. induction s1 as [|x s1 IH]; intros s2 H1 H2 Hp Ha; [by apply Permutation_nil_l in Hp|].
    destruct s2 as [|y s2]; [by apply Permutation_nil_r in Hp|].
    apply StronglySorted_inv in H1 as [H1 F1], H2 as [H2 F2]. rewrite Forall_forall in F1, F2.
    assert (x = y) as ->.
    { assert (y ∈ x :: s1) as Hy by (rewrite Hp; by left). assert (x ∈ y :: s2) as Hx by (rewrite <- Hp; by left).
      apply elem_of_cons in Hy as [->|Hy]; [done|]. apply elem_of_cons in Hx as [->|Hx]; [done|].
      apply Ha; [by left|by right|by apply F1|by apply F2]. }
    f_equal. apply IH; [done|done|by apply Permutation_cons_inv in Hp|]. intros a b Ha' Hb'. apply Ha; by right. }
  apply Hgen; [apply stable_sort_sorted..| |].
  - by rewrite !stable_sort_perm.
  - intros x y. rewrite !stable_sort_perm. apply Ha.
Qed.
End stable_sort.

Lemma size_remove_elem {A} `{Countable A} (X Y : gset A) x :
  x ∈ X → x ∉ Y → size (X ∖ Y) = S (size (X ∖ ({[x]} ∪ Y))).
Proof.
  intros Hx Hr. replace (X ∖ Y) with ({[x]} ∪ X ∖ ({[x]} ∪ Y)).
  - rewrite size_union by set_solver. by rewrite size_singleton.
  - apply set_eq. intros y. destruct (decide (y = x)); set_solver.
Qed.

Lemma size_diff_zero {A} `{Countable A} (X Y : gset A) : size (X ∖ Y) = 0%nat ↔ X ⊆ Y.
Proof.
  rewrite size_empty_iff. split.
  - intros He x Hx. destruct (decide (x ∈ Y)) as [|Hy]; [done|]. exfalso. apply (not_elem_of_empty (C := gset A) x). set_solver.
  - set_solver.
Qed.

Lemma NoDup_length_incl {A} `{EqDecision A} (l k : list A) : NoDup l → (∀ x, x ∈ l → x ∈ k) → (length l ≤ length k)%nat.
Proof. intros Hl Hs. apply submseteq_length, NoDup_submseteq; [done|]. intros x. apply Hs. Qed.
