(* ===== verification/Bytes.v ===== *)
(** * Byte buffers and fixed-width integer encodings

    The parts of Go's [encoding/binary] that the wire formats use:
    [LittleEndian.AppendUint16/32/64], [BigEndian.AppendUint32/64] and the
    corresponding readers. A [[]byte] is a list of [ascii] (the 8-bit type whose
    sequences are Go strings). *)

From S2P Require Import Prelude.

(** [byte(v)] and the value of a byte. *)
Definition byte_of (z : Z) : ascii := Ascii.ascii_of_N (Z.to_N (u8 z)).
Definition byte_val (b : ascii) : Z := Z.of_N (Ascii.N_of_ascii b).

Definition blen (b : list ascii) : Z := Z.of_nat (length b).

(** Little-endian encoding of the low [n] bytes of [v], and its reader. *)
Fixpoint le_bytes (n : nat) (v : Z) : list ascii :=
  match n with
  | O => []
  | S n => byte_of v :: le_bytes n (Z.shiftr v 8)
  end.

Fixpoint le_val (bs : list ascii) : Z :=
  match bs with
  | [] => 0
  | b :: bs => byte_val b + 256 * le_val bs
  end.

(** Big-endian encoding and reader. *)
Definition be_bytes (n : nat) (v : Z) : list ascii := reverse (le_bytes n v).
Definition be_val (bs : list ascii) : Z := le_val (reverse bs).

(** [data[off:off+n]]. *)
Definition slice (data : list ascii) (off n : nat) : list ascii := take n (drop off data).

(** [hash/fnv]'s 32-bit and 64-bit FNV-1a. *)
Definition fnv32a (bs : list ascii) : Z :=
  foldl (λ h b, u32 (Z.lxor h (byte_val b) * 16777619)) 2166136261 bs.

Definition fnv64a (bs : list ascii) : Z :=
  foldl (λ h b, u64 (Z.lxor h (byte_val b) * 1099511628211)) 14695981039346656037 bs.

(** ** Properties *)

Lemma byte_val_range b : 0 ≤ byte_val b < 256.
Proof. unfold byte_val. pose proof (Ascii.N_ascii_bounded b). lia. Qed.

Lemma byte_val_of z : byte_val (byte_of z) = u8 z.
Proof.
  unfold byte_val, byte_of. pose proof (Z.mod_pos_bound z (2 ^ 8) ltac:(lia)) as Hb.
  fold (u8 z) in Hb. rewrite Ascii.N_ascii_embedding by lia. lia.
Qed.

Lemma byte_of_val b : byte_of (byte_val b) = b.
Proof.
  unfold byte_of. rewrite u8_small by (pose proof (byte_val_range b); lia).
  unfold byte_val. rewrite N2Z.id. apply Ascii.ascii_N_embedding.
Qed.

Lemma length_le_bytes n v : length (le_bytes n v) = n.
Proof. revert v. induction n; intros; simpl; auto. Qed.

Lemma length_be_bytes n v : length (be_bytes n v) = n.
Proof. unfold be_bytes. by rewrite length_reverse, length_le_bytes. Qed.

Lemma le_val_bytes n v : le_val (le_bytes n v) = v mod 2 ^ (8 * Z.of_nat n).
Proof.
  revert v. induction n as [|n IH]; intros v; simpl le_val.
  { by rewrite Z.mod_1_r. }
  rewrite IH, byte_val_of. unfold u8. rewrite Z.shiftr_div_pow2 by lia.
  replace (8 * Z.of_nat (S n)) with (8 + 8 * Z.of_nat n) by lia.
  rewrite Z.pow_add_r by lia.
  rewrite (Z.rem_mul_r v (2 ^ 8) (2 ^ (8 * Z.of_nat n))) by lia. change (2 ^ 8) with 256. lia.
Qed.

Lemma be_val_bytes n v : be_val (be_bytes n v) = v mod 2 ^ (8 * Z.of_nat n).
Proof. unfold be_val, be_bytes. by rewrite reverse_involutive, le_val_bytes. Qed.

Lemma le_val_range bs : 0 ≤ le_val bs < 2 ^ (8 * Z.of_nat (length bs)).
Proof.
  induction bs as [|b bs IH]; simpl le_val; [lia|].
  pose proof (byte_val_range b). simpl length.
  replace (8 * Z.of_nat (S (length bs))) with (8 + 8 * Z.of_nat (length bs)) by lia.
  rewrite Z.pow_add_r by lia. change (2 ^ 8) with 256. lia.
Qed.

Lemma be_val_range bs : 0 ≤ be_val bs < 2 ^ (8 * Z.of_nat (length bs)).
Proof. unfold be_val. rewrite <- (length_reverse bs). apply le_val_range. Qed.

Lemma slice_app_l (a b : list ascii) : slice (a ++ b) 0 (length a) = a.
Proof. unfold slice. by rewrite drop_0, take_app_length. Qed.

Lemma slice_skip (p a b : list ascii) off :
  off = length p → slice (p ++ a ++ b) off (length a) = a.
Proof. intros ->. unfold slice. by rewrite drop_app_length, take_app_length. Qed.

(** A cursor at [pos] with the bytes [post] ahead. *)
Definition at_data (data : list ascii) (pos : nat) (post : list ascii) : Prop :=
  (pos ≤ length data)%nat ∧ drop pos data = post.

Lemma at_data_start data : at_data data 0 data.
Proof. split; [lia|done]. Qed.

Lemma at_data_len data pos post : at_data data pos post → length data = (pos + length post)%nat.
Proof. intros [Hp <-]. rewrite length_drop. lia. Qed.

Lemma at_data_slice data pos x post n : at_data data pos (x ++ post) → n = length x → slice data pos n = x.
Proof. intros [_ Hd] ->. unfold slice. by rewrite Hd, take_app_length. Qed.

Lemma at_data_next data pos x post n : at_data data pos (x ++ post) → n = length x → at_data data (pos + n) post.
Proof.
  intros Ha ->. pose proof (at_data_len _ _ _ Ha) as Hl. rewrite length_app in Hl. destruct Ha as [Hp Hd].
  split; [lia|]. by rewrite <- drop_drop, Hd, drop_app_length.
Qed.

Lemma fnv32a_range bs : 0 ≤ fnv32a bs < 2 ^ 32.
Proof.
  unfold fnv32a. assert (H0 : 0 ≤ 2166136261 < 2 ^ 32) by lia. revert H0.
  generalize 2166136261. induction bs as [|b bs IH]; intros h Hh; [done|].
  apply IH. apply Z.mod_pos_bound. lia.
Qed.

(** ** Bits of a positive number

    A total encoding of countable types, for concrete instances of serializers. *)

Fixpoint bits (p : positive) : list ascii :=
  match p with
  | xH => ["1"%char]
  | xO p => "0"%char :: bits p
  | xI p => "1"%char :: bits p
  end.

Fixpoint unbits (l : list ascii) : option positive :=
  match l with
  | [] => None
  | b :: l =>
      match unbits l with
      | None => Some xH
      | Some p => Some (if Ascii.eqb b "1" then xI p else xO p)
      end
  end.

Lemma unbits_bits p : unbits (bits p) = Some p.
Proof. induction p; cbn [bits unbits]; by rewrite ?IHp. Qed.
