(* ===== verification/GoStrings.v ===== *)
(** * The parts of Go's [strings] package that the runtime uses

    Byte strings are lists of [ascii]. [IndexByte], prefix and suffix tests, [Split] at a
    byte, and [TrimSpace] with the white space of [unicode.IsSpace] in its UTF-8 form. *)

From S2P Require Import Prelude Bytes.

(** [strings.IndexByte]: [None] is -1. *)
Fixpoint IndexByte (s : list ascii) (c : ascii) : option nat :=
  match s with
  | [] => None
  | a :: s => if bool_decide (a = c) then Some 0%nat else S <$> IndexByte s c
  end.

(** [strings.HasPrefix], [strings.HasSuffix], [strings.Contains] of one byte *)
Definition HasPrefix (s p : list ascii) : bool := bool_decide (take (length p) s = p).
Definition HasSuffix (s p : list ascii) : bool := bool_decide (drop (length s - length p) s = p).
Definition ContainsByte (s : list ascii) (c : ascii) : bool := bool_decide (c ∈ s).

(** [strings.TrimPrefix] *)
Definition TrimPrefix (s p : list ascii) : list ascii := if HasPrefix s p then drop (length p) s else s.

(** [strings.Split] at a one-byte separator *)
Fixpoint Split (s : list ascii) (c : ascii) : list (list ascii) :=
  match s with
  | [] => [[]]
  | a :: s =>
      if bool_decide (a = c) then [] :: Split s c
      else match Split s c with p :: ps => (a :: p) :: ps | [] => [[a]] end
  end.

(** White space: the ASCII bytes, and the UTF-8 encodings of U+0085, U+00A0, U+1680,
    U+2000 to U+200A, U+2028, U+2029, U+202F, U+205F and U+3000. *)
Definition space1 (a : ascii) : bool := let z := byte_val a in bool_decide (9 ≤ z ≤ 13) || bool_decide (z = 32).

Definition space2 (a b : ascii) : bool :=
  bool_decide (byte_val a = 194) && (bool_decide (byte_val b = 133) || bool_decide (byte_val b = 160)).

Definition space3 (a b c : ascii) : bool :=
  let '(x, y, z) := (byte_val a, byte_val b, byte_val c) in
  (bool_decide (x = 225) && bool_decide (y = 154) && bool_decide (z = 128))
  || (bool_decide (x = 226) && bool_decide (y = 128)
      && (bool_decide (128 ≤ z ≤ 138) || bool_decide (z = 168) || bool_decide (z = 169) || bool_decide (z = 175)))
  || (bool_decide (x = 226) && bool_decide (y = 129) && bool_decide (z = 159))
  || (bool_decide (x = 227) && bool_decide (y = 128) && bool_decide (z = 128)).

(** The rest after one white space character at the start. *)
Definition skip_space (s : list ascii) : option (list ascii) :=
  match s with
  | a :: s1 =>
      if space1 a then Some s1 else
      match s1 with
      | b :: s2 =>
          if space2 a b then Some s2 else
          match s2 with
          | c :: s3 => if space3 a b c then Some s3 else None
          | [] => None
          end
      | [] => None
      end
  | [] => None
  end.

(** The same at the end, on the reversed string. *)
Definition skip_space_rev (s : list ascii) : option (list ascii) :=
  match s with
  | a :: s1 =>
      if space1 a then Some s1 else
      match s1 with
      | b :: s2 =>
          if space2 b a then Some s2 else
          match s2 with
          | c :: s3 => if space3 c b a then Some s3 else None
          | [] => None
          end
      | [] => None
      end
  | [] => None
  end.

Fixpoint skip_all (f : list ascii → option (list ascii)) (fuel : nat) (s : list ascii) : list ascii :=
  match fuel with
  | O => s
  | S fuel => match f s with Some s => skip_all f fuel s | None => s end
  end.

(** [strings.TrimSpace]: each step removes at least one byte, so the length is enough. *)
Definition TrimSpace (s : list ascii) : list ascii :=
  let s := skip_all skip_space (length s) s in
  reverse (skip_all skip_space_rev (length s) (reverse s)).

(** ** Lemmas *)

Lemma IndexByte_None s c : c ∉ s → IndexByte s c = None.
Proof.
  induction s as [|a s IH]; intros Hn; [done|]. cbn. apply not_elem_of_cons in Hn as [Hne Hn].
  rewrite bool_decide_eq_false_2 by congruence. by rewrite IH.
Qed.

Lemma IndexByte_app s t c : c ∉ s → IndexByte (s ++ c :: t) c = Some (length s).
Proof.
  induction s as [|a s IH]; intros Hn; cbn; [by rewrite bool_decide_eq_true_2|].
  apply not_elem_of_cons in Hn as [Hne Hn]. rewrite bool_decide_eq_false_2 by congruence. by rewrite IH.
Qed.

Lemma take_sep {A} (s t : list A) c : take (length s) (s ++ c :: t) = s.
Proof. apply take_app_length. Qed.

Lemma drop_sep {A} (s t : list A) c : drop (S (length s)) (s ++ c :: t) = t.
Proof. induction s; cbn; [by rewrite drop_0|done]. Qed.

Lemma HasPrefix_app s p : HasPrefix (p ++ s) p = true.
Proof. unfold HasPrefix. apply bool_decide_eq_true_2, take_app_length. Qed.

Lemma HasPrefix_spec s p : HasPrefix s p = true ↔ ∃ t, s = p ++ t.
Proof.
  unfold HasPrefix. rewrite bool_decide_eq_true. split.
  - intros Hp. exists (drop (length p) s). by rewrite <- (take_drop (length p) s) at 1; rewrite Hp.
  - intros [t ->]. apply take_app_length.
Qed.

Lemma TrimPrefix_app s p : TrimPrefix (p ++ s) p = s.
Proof. unfold TrimPrefix. by rewrite HasPrefix_app, drop_app_length. Qed.

Lemma IndexByte_Some s c i : IndexByte s c = Some i → s = take i s ++ c :: drop (S i) s ∧ c ∉ take i s.
Proof.
  revert i. induction s as [|a s IH]; intros i; cbn; [done|].
  destruct (bool_decide_reflect (a = c)) as [->|Hne]; [intros [= <-]; cbn; rewrite drop_0; split; [done|apply not_elem_of_nil]|].
  intros (j & Hj & ->)%fmap_Some. destruct (IH j Hj) as [H1 H2]. cbn. split; [by f_equal|].
  apply not_elem_of_cons. split; [congruence|done].
Qed.

Lemma IndexByte_is_Some s c : is_Some (IndexByte s c) ↔ c ∈ s.
Proof.
  split.
  - intros [i Hi]. destruct (IndexByte_Some s c i Hi) as [-> _]. apply elem_of_app. right. by left.
  - intros Hc. destruct (IndexByte s c) eqn:Ei; [by eauto|]. exfalso. revert Hc Ei. induction s as [|a s IH]; cbn; [by intros Hn%elem_of_nil|].
    intros [->|Hc]%elem_of_cons; [by rewrite bool_decide_eq_true_2|]. destruct (bool_decide (a = c)); [done|].
    destruct (IndexByte s c); [done|]. intros _. by apply IH.
Qed.
