(* ===== verification/Packer.v ===== *)
(** * Packing queued messages into frames

    Both gossip planes of the runtime, the CRDT engine ([system/crdt/delta.go]) and the
    registry dissemination ([system/topology/namereg/global/dissem.go]), send their
    queue with the same routine: encode each message, skip what cannot be encoded or
    exceeds a frame, append the rest to the open frame, and flush frames while the
    byte budget lasts. The local variables and their updates are defined here once;
    the loops, which differ in the order of their checks, are with their component.

    The lemmas state the loop invariant [drain_inv] over any encoder and show that
    every update keeps it. *)

From S2P Require Import Prelude Bytes.

(** The local variables of the routine. *)
Record drain := mkDrain {
  frames : list (list ascii);
  frame : list ascii;
  bytesEmitted : Z;
  commitIdx : list nat;
  pendingIdx : list nat;
  skipIdx : list nat
}.

Definition drain0 : drain := mkDrain [] [] 0 [] [] [].

Section drain.
Context (headerOverhead byteBudget perFrameLimit : Z).

(** The room left in a frame under the byte budget, 0 when there is none. *)
Definition activeFrameCap (d : drain) : Z :=
  let remaining := byteBudget - bytesEmitted d - headerOverhead in
  if bool_decide (remaining ≤ 0) then 0
  else if bool_decide (perFrameLimit < remaining) then perFrameLimit
  else remaining.

Definition flushFrame (d : drain) : bool * drain :=
  if bool_decide (frame d = []) then (true, d) else
  let cost := blen (frame d) + headerOverhead in
  if bool_decide (byteBudget < bytesEmitted d + cost) then (false, d) else
  (true, mkDrain (frames d ++ [frame d]) [] (bytesEmitted d + cost)
           (commitIdx d ++ pendingIdx d) [] (skipIdx d)).

Definition skip (d : drain) (i : nat) : drain :=
  mkDrain (frames d) (frame d) (bytesEmitted d) (commitIdx d) (pendingIdx d) (skipIdx d ++ [i]).

Definition append_frame (d : drain) (buf : list ascii) (i : nat) : drain :=
  mkDrain (frames d) (frame d ++ buf) (bytesEmitted d) (commitIdx d) (pendingIdx d ++ [i]) (skipIdx d).
End drain.

(** [keep]: the messages whose index is not in [remove]. *)
Definition keep_except {A} (remove : list nat) (es : list A) : list A :=
  (filter (λ p, p.1 ∉ remove) (zip (seq 0 (length es)) es)).*2.

Section drain_proofs.
Context (h B L : Z) {A : Type} (enc : A → option (list ascii)) (es0 : list A).
Hypothesis enc_nonempty : ∀ e buf, enc e = Some buf → buf ≠ [].

(** The messages that can travel in a frame of this size. *)
Definition packable (e : A) : bool :=
  match enc e with Some buf => bool_decide (blen buf ≤ L) | None => false end.

Definition idx_packable (i : nat) : bool := match es0 !! i with Some e => packable e | None => false end.

Definition packed (l : list A) : list ascii := concat (omap enc (filter (λ e, packable e = true) l)).

Definition emitted (fs : list (list ascii)) : Z := zsum (λ f, blen f + h) fs.

(** The loop invariant at index [n]. *)
Record drain_inv (n : nat) (d : drain) : Prop := {
  di_le : (n ≤ length es0)%nat;
  di_frames : Forall (λ f, f ≠ [] ∧ blen f ≤ L) (frames d);
  di_emitted : bytesEmitted d = emitted (frames d);
  di_budget : bytesEmitted d ≤ Z.max 0 B;
  di_frame : frame d = [] ∨ (blen (frame d) ≤ L ∧ bytesEmitted d + blen (frame d) + h ≤ B);
  di_sent : concat (frames d) ++ frame d = packed (take n es0);
  di_commit : commitIdx d ++ pendingIdx d = filter (λ i, idx_packable i = true) (seq 0 n);
  di_skip : skipIdx d = filter (λ i, idx_packable i = false) (seq 0 n);
  di_pend : frame d = [] → pendingIdx d = []
}.

Lemma packed_app l1 l2 : packed (l1 ++ l2) = packed l1 ++ packed l2.
Proof. unfold packed. by rewrite filter_app, omap_app, concat_app. Qed.

Lemma packed_snoc n e buf :
  es0 !! n = Some e → enc e = Some buf → packable e = true → packed (take (S n) es0) = packed (take n es0) ++ buf.
Proof.
  intros Hn He Hp. rewrite (take_S_r _ _ _ Hn), packed_app. f_equal. unfold packed.
  rewrite filter_cons_True by done. cbn. rewrite He. cbn. by rewrite app_nil_r.
Qed.

Lemma packed_skip n e : es0 !! n = Some e → packable e = false → packed (take (S n) es0) = packed (take n es0).
Proof.
  intros Hn He. rewrite (take_S_r _ _ _ Hn), packed_app. unfold packed at 2.
  rewrite filter_cons_False by congruence. cbn. by rewrite app_nil_r.
Qed.

Lemma filter_seq_S (p : nat → bool) b n :
  filter (λ i, p i = b) (seq 0 (S n)) =
  filter (λ i, p i = b) (seq 0 n) ++ (if bool_decide (p n = b) then [n] else []).
Proof.
  rewrite seq_S, filter_app. simpl. f_equal. case_bool;
    [by rewrite filter_cons_True|by rewrite filter_cons_False].
Qed.

Lemma flush_inv n d : drain_inv n d → drain_inv n (flushFrame h B d).2 ∧ (flushFrame h B d).1 = true
  ∧ frame (flushFrame h B d).2 = [].
Proof.
  intros Hd. pose proof Hd as [D1 D2 D3 D4 D5 D6 D7 D8 D9]. unfold flushFrame. case_bool.
  - by split_and!.
  - destruct D5 as [?|[? ?]]; [done|]. unfold blen in *. lia.
  - destruct D5 as [?|[? ?]]; [done|]. split_and!; try done. split; simpl; try done.
    + apply Forall_app. split; [done|]. by constructor.
    + rewrite D3. unfold emitted. rewrite zsum_app. simpl. lia.
    + lia.
    + by left.
    + by rewrite concat_app, <- D6; simpl; rewrite !app_nil_r.
    + by rewrite app_nil_r.
Qed.

Lemma skip_inv n d e :
  drain_inv n d → es0 !! n = Some e → packable e = false → drain_inv (S n) (skip d n).
Proof.
  intros [D1 D2 D3 D4 D5 D6 D7 D8 D9] Hn He. apply lookup_lt_Some in Hn as Hlt.
  assert (Hf : idx_packable n = false) by (unfold idx_packable; by rewrite Hn).
  split; cbn -[seq take]; try done; [by rewrite (packed_skip _ _ Hn)|..].
  - by rewrite filter_seq_S, Hf, D7; simpl; rewrite app_nil_r.
  - by rewrite filter_seq_S, Hf, D8.
Qed.

Lemma append_inv n d e buf :
  drain_inv n d → es0 !! n = Some e → enc e = Some buf → packable e = true →
  blen (frame d) + blen buf ≤ L → bytesEmitted d + blen (frame d) + blen buf + h ≤ B →
  drain_inv (S n) (append_frame d buf n).
Proof.
  intros [D1 D2 D3 D4 D5 D6 D7 D8 D9] Hn Hb He H1 H2. apply lookup_lt_Some in Hn as Hlt.
  assert (Hf : idx_packable n = true) by (unfold idx_packable; by rewrite Hn).
  pose proof (enc_nonempty e buf Hb) as Hne.
  split; cbn -[seq take]; try done.
  - right. unfold blen in *. rewrite length_app. lia.
  - by rewrite app_assoc, D6, (packed_snoc _ _ _ Hn Hb).
  - by rewrite filter_seq_S, Hf, app_assoc, D7.
  - by rewrite filter_seq_S, Hf, D8; simpl; rewrite app_nil_r.
  - intros [_ ?]%app_eq_nil. done.
Qed.

Lemma cap_bounds d :
  0 < activeFrameCap h B L d →
  activeFrameCap h B L d ≤ L ∧ bytesEmitted d + activeFrameCap h B L d + h ≤ B.
Proof. unfold activeFrameCap. case_bool; lia. Qed.

Lemma drain_inv_init : drain_inv 0 drain0.
Proof. split; simpl; try done; try lia. by left. Qed.

Lemma drain_inv_unique n m d : drain_inv n d → drain_inv m d → n = m.
Proof.
  assert (Hlen : ∀ n, drain_inv n d →
    n = (length (commitIdx d ++ pendingIdx d) + length (skipIdx d))%nat).
  { intros k Hk. rewrite (di_commit _ _ Hk), (di_skip _ _ Hk).
    assert (Hp : ∀ l, (length (filter (λ i, idx_packable i = true) l)
                       + length (filter (λ i, idx_packable i = false) l))%nat = length l).
    { induction l as [|i l IH]; [done|]. rewrite !filter_cons.
      destruct (idx_packable i); simpl; lia. }
    by rewrite Hp, length_seq. }
  intros Hn Hm. by rewrite (Hlen n Hn), (Hlen m Hm).
Qed.

Lemma drain_removed n d :
  drain_inv n d → frame d = [] → ∀ i, i ∈ commitIdx d ++ skipIdx d ↔ (i < n)%nat.
Proof.
  intros Hd Hf i. pose proof (di_commit _ _ Hd) as Hc. rewrite (di_pend _ _ Hd Hf), app_nil_r in Hc.
  rewrite Hc, (di_skip _ _ Hd), elem_of_app, !list_elem_of_filter, elem_of_seq.
  destruct (idx_packable i); split.
  - intros [[_ ?]|[? _]]; [lia|done].
  - intros ?. left. split; [done|lia].
  - intros [[? _]|[_ ?]]; [done|lia].
  - intros ?. right. split; [done|lia].
Qed.

Lemma keep_except_drop rm n (es : list A) :
  (∀ i, i ∈ rm ↔ (i < n)%nat) → keep_except rm es = drop n es.
Proof.
  intros Hrm. unfold keep_except.
  assert (H : ∀ k, (filter (λ p : nat * A, p.1 ∉ rm) (zip (seq k (length es)) es)).*2
                   = drop (n - k) es); [|by rewrite H, Nat.sub_0_r].
  induction es as [|e es IH]; intros k; [by rewrite drop_nil|]. simpl.
  destruct (decide (k < n)%nat) as [Hk|Hk].
  - rewrite filter_cons_False by (simpl; rewrite Hrm; tauto). rewrite IH.
    by replace (n - k)%nat with (S (n - S k)) by lia.
  - rewrite filter_cons_True by (simpl; by rewrite Hrm). simpl. rewrite IH.
    by replace (n - S k)%nat with 0%nat by lia; replace (n - k)%nat with 0%nat by lia.
Qed.

(** The end of the routine: the last flush, and the messages that leave the queue. *)
Lemma drain_end n d0 :
  drain_inv n d0 → let d := (flushFrame h B d0).2 in
  keep_except (commitIdx d ++ skipIdx d) es0 = drop n es0 ∧
  (commitIdx d = [] → skipIdx d = [] → n = 0%nat) ∧
  Forall (λ f, f ≠ [] ∧ blen f ≤ L) (frames d) ∧
  emitted (frames d) ≤ Z.max 0 B ∧ concat (frames d) = packed (take n es0).
Proof.
  intros Hd0 d. destruct (flush_inv n d0 Hd0) as (Hd & _ & Hfr). fold d in Hd, Hfr.
  pose proof (drain_removed n d Hd Hfr) as Hrm. pose proof (di_sent _ _ Hd) as Hs. rewrite Hfr, app_nil_r in Hs.
  split_and!; [by apply keep_except_drop| |apply Hd| |done].
  - intros H1 H2. destruct n; [done|]. pose proof (proj2 (Hrm 0%nat) ltac:(lia)) as Hx.
    rewrite H1, H2 in Hx. by apply elem_of_nil in Hx.
  - rewrite <- (di_emitted _ _ Hd). apply Hd.
Qed.
End drain_proofs.
