(* ===== verification/Crdt.v ===== *)
(** * The gossip CRDT substrate ([system/crdt/state.go])

    One replica of the keyed last-writer-wins map that [store.kv.crdt] gossips.
    The state is the code's: [ShardCount] hash shards of entries, the intern
    table of origin nodes, the version vector, the local counter and the
    live/tombstone gauges. xxhash is a third-party package: its 64-bit digest is
    the operation of the class [XXHash] and nothing is assumed of it. Every
    operation is one atomic transition (the code runs it under the shard lock).

    Maps are iterated in the order of [map_to_list]; Go leaves that order
    unspecified, and every theorem about an iteration is independent of it. *)

From S2P Require Import Prelude Bytes.

(** [xxhash.Sum64] of a byte stream. *)
Class XXHash := Sum64 : list ascii → Z.

Definition ShardCount : nat := 64.

Inductive MergeOutcome :=
| MergeNoop
| MergeApplied
| MergeWallTiebreak
| MergeDeleteWins.

Record Entry := mkEntry {
  Key : string;
  Value : list ascii;
  Counter : Z; (* uint64 *)
  Wall : Z; (* int64 *)
  Node : Z; (* uint32, interned origin *)
  Deleted : bool
}.

Record State := mkState {
  nodeIDs : gmap string Z;
  stringIDs : list string;
  cv : list Z;
  shards : list (gmap string Entry);
  localCounter : Z;
  live : Z;
  tombstone : Z;
  localNode : Z
}.

#[global] Instance Entry_eq_dec : EqDecision Entry.
Proof. solve_decision. Defined.
#[global] Instance MergeOutcome_eq_dec : EqDecision MergeOutcome.
Proof. solve_decision. Defined.

Definition with_intern (s : State) ids strs v : State :=
  mkState ids strs v (shards s) (localCounter s) (live s) (tombstone s) (localNode s).
Definition with_cv (s : State) v : State :=
  mkState (nodeIDs s) (stringIDs s) v (shards s) (localCounter s) (live s) (tombstone s) (localNode s).
Definition with_shards (s : State) x : State :=
  mkState (nodeIDs s) (stringIDs s) (cv s) x (localCounter s) (live s) (tombstone s) (localNode s).
Definition with_counter (s : State) c : State :=
  mkState (nodeIDs s) (stringIDs s) (cv s) (shards s) c (live s) (tombstone s) (localNode s).
Definition with_local (s : State) n : State :=
  mkState (nodeIDs s) (stringIDs s) (cv s) (shards s) (localCounter s) (live s) (tombstone s) n.

(** [s.live.Add(dl); s.tombstone.Add(dt)]. *)
Definition add_gauges (s : State) (dl dt : Z) : State :=
  mkState (nodeIDs s) (stringIDs s) (cv s) (shards s) (localCounter s)
    (live s + dl) (tombstone s + dt) (localNode s).

(** [make([]uint64, n); copy(grown, v)]. *)
Definition grown (v : list Z) (n : nat) : list Z := take n v ++ replicate (n - length v) 0.

Definition internNodeLocked (s : State) (node : string) : Z * State :=
  match nodeIDs s !! node with
  | Some id => (id, s)
  | None =>
      let id := u32 (Z.of_nat (length (stringIDs s))) in
      let v := if bool_decide (Z.of_nat (length (cv s)) ≤ id)
               then grown (cv s) (Z.to_nat (u32 (id + 8))) else cv s in
      (id, with_intern s (<[node:=id]> (nodeIDs s)) (stringIDs s ++ [node]) v)
  end.

Definition InternNode (s : State) (node : string) : Z * State := internNodeLocked s node.

Definition NewState (localNodeID : string) : State :=
  let s := mkState ∅ [] [] (replicate ShardCount ∅) 0 0 0 0 in
  let '(id, s) := InternNode s localNodeID in with_local s id.

Definition NodeString (s : State) (id : Z) : string := default "" (stringIDs s !! Z.to_nat id).

Definition LocalNode (s : State) : Z := localNode s.

(** [cv[node] = max(cv[node], counter)], growing the vector on demand. *)
Definition bumpCV (s : State) (node counter : Z) : State :=
  let v := if bool_decide (Z.of_nat (length (cv s)) ≤ node)
           then grown (cv s) (Z.to_nat (u32 (node + 8))) else cv s in
  let c := default 0 (v !! Z.to_nat node) in
  with_cv s (if bool_decide (c < counter) then <[Z.to_nat node := counter]> v else v).

Definition CVSnapshot (s : State) : list Z := cv s.
Definition LiveCount (s : State) : Z := live s.
Definition TombstoneCount (s : State) : Z := tombstone s.

(** [>0] when [a] is newer, [<0] when [b] is newer, [0] for the same dot or
    concurrent dots. *)
Definition compareDots (a b : Entry) : Z :=
  if bool_decide (Node a ≠ Node b) then 0
  else if bool_decide (Counter b < Counter a) then 1
  else if bool_decide (Counter a < Counter b) then -1
  else 0.

Section state.
Context `{XXHash}.

Definition ShardFor (key : string) : nat := Z.to_nat (Sum64 (bytes_of key) mod Z.of_nat ShardCount).

(** The entry map of shard [i], and the entry stored under a key. *)
Definition shard (s : State) (i : nat) : gmap string Entry := default ∅ (shards s !! i).
Definition entry_at (s : State) (key : string) : option Entry := shard s (ShardFor key) !! key.

(** [sh.entries[key] = e] *)
Definition put_entry (s : State) (key : string) (e : Entry) : State :=
  let i := ShardFor key in with_shards s (<[i := <[key := e]> (shard s i)]> (shards s)).

Definition Lookup (s : State) (key : string) : option (list ascii) :=
  match entry_at s key with
  | Some e => if Deleted e then None else Some (Value e)
  | None => None
  end.

Definition LookupEntry (s : State) (key : string) : option Entry :=
  match entry_at s key with
  | Some e => if Deleted e then None else Some e
  | None => None
  end.

(** The common tail of [Register] and [Overwrite]: mint a dot, store the entry,
    advance the version vector and the gauges. *)
Definition write_local (s : State) (key : string) (value : list ascii) (wallMs : Z) : Entry * State :=
  let counter := u64 (localCounter s + 1) in
  let e := mkEntry key value counter wallMs (localNode s) false in
  let prev := entry_at s key in
  let s := put_entry (with_counter s counter) key e in
  let s := bumpCV s (localNode s) counter in
  (e, match prev with
      | Some p => if Deleted p then add_gauges s 1 (-1) else s
      | None => add_gauges s 1 0
      end).

Definition Register (s : State) (key : string) (value : list ascii) (wallMs : Z)
    : Entry * bool * State :=
  match entry_at s key with
  | Some cur =>
      if negb (Deleted cur) && bool_decide (Value cur ≠ value) then (cur, false, s)
      else let '(e, s) := write_local s key value wallMs in (e, true, s)
  | None => let '(e, s) := write_local s key value wallMs in (e, true, s)
  end.

Definition Overwrite (s : State) (key : string) (value : list ascii) (wallMs : Z) : Entry * State :=
  write_local s key value wallMs.

Definition Unregister (s : State) (key : string) (wallMs : Z) : option Entry * State :=
  match entry_at s key with
  | None => (None, s)
  | Some cur =>
      if Deleted cur then (None, s) else
      let counter := u64 (localCounter s + 1) in
      let e := mkEntry key [] counter wallMs (localNode s) true in
      let s := put_entry (with_counter s counter) key e in
      let s := bumpCV s (localNode s) counter in
      (Some e, add_gauges s (-1) 1)
  end.

Definition applyNew (s : State) (e : Entry) : State :=
  let s := put_entry s (Key e) e in
  let s := if Deleted e then add_gauges s 0 1 else add_gauges s 1 0 in
  bumpCV s (Node e) (Counter e).

Definition swap (s : State) (cur e : Entry) : State :=
  let s := put_entry s (Key e) e in
  let s := if Deleted cur && negb (Deleted e) then add_gauges s 1 (-1)
           else if negb (Deleted cur) && Deleted e then add_gauges s (-1) 1
           else s in
  bumpCV s (Node e) (Counter e).

Definition Apply (s : State) (e : Entry) : MergeOutcome * Entry * State :=
  match entry_at s (Key e) with
  | None => (MergeApplied, e, applyNew s e)
  | Some cur =>
      let cmp := compareDots cur e in
      if bool_decide (0 < cmp) then (MergeNoop, cur, s)
      else if bool_decide (cmp < 0) then (MergeApplied, e, swap s cur e)
      else if bool_decide (Wall cur < Wall e) then (MergeWallTiebreak, e, swap s cur e)
      else if bool_decide (Wall e < Wall cur) then (MergeNoop, cur, s)
      else if negb (Bool.eqb (Deleted e) (Deleted cur)) then
        if Deleted e then (MergeDeleteWins, e, swap s cur e) else (MergeNoop, cur, s)
      else
        let eOrigin := NodeString s (Node e) in
        let curOrigin := NodeString s (Node cur) in
        if str_ltb curOrigin eOrigin
           || (bool_decide (eOrigin = curOrigin) && bool_decide (Counter cur < Counter e))
        then (MergeWallTiebreak, e, swap s cur e)
        else (MergeNoop, cur, s)
  end.

(** The byte stream [ShardHash] feeds to xxhash for one entry. *)
Definition hash_stream (s : State) (key : string) (e : Entry) : list ascii :=
  bytes_of key ++ [byte_of 0] ++ bytes_of (NodeString s (Node e)) ++ [byte_of 0]
    ++ le_bytes 8 (Counter e) ++ le_bytes 8 (u64 (Wall e))
    ++ [byte_of (if Deleted e then 1 else 0)] ++ Value e.

Definition ShardHash (s : State) (i : Z) : Z :=
  if bool_decide (i < 0 ∨ Z.of_nat ShardCount ≤ i) then 0 else
  let m := shard s (Z.to_nat i) in
  let keys := merge_sort String.le ((map_to_list m).*1) in
  Sum64 (concat (map (λ k, match m !! k with Some e => hash_stream s k e | None => [] end) keys)).

Definition ShardEntries (s : State) (i : Z) : list Entry :=
  if bool_decide (i < 0 ∨ Z.of_nat ShardCount ≤ i) then [] else
  (map_to_list (shard s (Z.to_nat i))).*2.

(** The keys [Range] collects: live, and within [start, end). *)
Definition in_range (start stop : string) (key : string) (e : Entry) : bool :=
  negb (Deleted e)
  && negb (bool_decide (start ≠ "") && str_ltb key start)
  && negb (bool_decide (stop ≠ "") && negb (str_ltb key stop)).

(** The callback loop of [Range]: it stops after the first [false]. *)
Fixpoint range_visit (s : State) (fn : Entry → bool) (keys : list string) : list Entry :=
  match keys with
  | [] => []
  | k :: keys =>
      match entry_at s k with
      | None => range_visit s fn keys
      | Some e => if fn e then e :: range_visit s fn keys else [e]
      end
  end.

(** The entries [Range] passes to its callback, in order. *)
Definition Range (s : State) (start stop : string) (fn : Entry → bool) : list Entry :=
  let all := concat (map (λ m, (map_to_list (filter (λ kv, in_range start stop kv.1 kv.2 = true) m)).*1)
                         (shards s)) in
  range_visit s fn (merge_sort String.le all).

(** One step of the tombstone sweep over a shard. *)
Record reap := mkReap { rsafe : Z; rfloor : Z; reaped : list Entry; rmap : gmap string Entry; rtomb : Z }.

Definition reap_entry (canReap : option (Entry → bool)) (nowMs wallFloorMs : Z)
    (r : reap) (kv : string * Entry) : reap :=
  let '(key, e) := kv in
  if negb (Deleted e) then r
  else if match canReap with Some f => f e | None => false end then
    mkReap (rsafe r + 1) (rfloor r) (reaped r ++ [e]) (delete key (rmap r)) (rtomb r - 1)
  else if bool_decide (0 < wallFloorMs) && bool_decide (wallFloorMs < i64 (nowMs - Wall e)) then
    mkReap (rsafe r) (rfloor r + 1) (reaped r ++ [e]) (delete key (rmap r)) (rtomb r - 1)
  else r.

Definition reap_shard (canReap : option (Entry → bool)) (nowMs wallFloorMs : Z)
    (acc : Z * Z * list Entry * State) (i : nat) : Z * Z * list Entry * State :=
  let '(safe, floor, out, s) := acc in
  let m := shard s i in
  let r := foldl (reap_entry canReap nowMs wallFloorMs)
             (mkReap safe floor out m (tombstone s)) (map_to_list m) in
  (rsafe r, rfloor r, reaped r,
   add_gauges (with_shards s (<[i := rmap r]> (shards s))) 0 (rtomb r - tombstone s)).

Definition ReapTombstonesWhere (s : State) (canReap : option (Entry → bool)) (nowMs wallFloorMs : Z)
    : Z * Z * list Entry * State :=
  foldl (reap_shard canReap nowMs wallFloorMs) (0, 0, [], s) (seq 0 ShardCount).

Definition ReapTombstones (s : State) (safeByNode : list Z) (nowMs wallFloorMs : Z) : Z * Z * State :=
  let canReap e := bool_decide (Node e < Z.of_nat (length safeByNode))
                   && bool_decide (Counter e ≤ default 0 (safeByNode !! Z.to_nat (Node e))) in
  let '(safe, floor, _, s) := ReapTombstonesWhere s (Some canReap) nowMs wallFloorMs in
  (safe, floor, s).
End state.

(** ** Invariant *)

Section invariant.
Context `{XXHash}.

(** The live and tombstoned entries of all shards. *)
Definition count_live (s : State) : Z := zsum (cnt (λ e, negb (Deleted e))) (shards s).
Definition count_tomb (s : State) : Z := zsum (cnt Deleted) (shards s).

(** The intern tables are inverse to each other and the ids fit in a uint32. *)
Record intern_wf (s : State) : Prop := {
  iw_tables : ∀ n id, nodeIDs s !! n = Some id ↔ 0 ≤ id ∧ stringIDs s !! Z.to_nat id = Some n;
  iw_width : Z.of_nat (length (stringIDs s)) < 2 ^ 32 - 8;
  iw_cv : (length (stringIDs s) ≤ length (cv s))%nat;
  iw_local : 0 ≤ localNode s < Z.of_nat (length (stringIDs s))
}.

(** Every key sits in its own shard, under an entry that carries it, whose origin
    is interned and whose counter the version vector covers; the gauges are the
    true counts. *)
Record wf (s : State) : Prop := {
  wf_shards : length (shards s) = ShardCount;
  wf_place : ∀ i m k e, shards s !! i = Some m → m !! k = Some e → ShardFor k = i ∧ Key e = k;
  wf_intern : intern_wf s;
  wf_dots : ∀ k e, entry_at s k = Some e →
    0 ≤ Node e < Z.of_nat (length (stringIDs s)) ∧
    Counter e ≤ default 0 (cv s !! Z.to_nat (Node e));
  wf_live : live s = count_live s;
  wf_tomb : tombstone s = count_tomb s
}.

(** The operations of a replica, as transitions. A remote entry reaches [Apply]
    with its origin already interned, as the callers do. *)
Inductive step : State → State → Prop :=
| step_intern s n :
    Z.of_nat (length (stringIDs s)) < 2 ^ 32 - 9 → step s (InternNode s n).2
| step_register s k v w : step s (Register s k v w).2
| step_overwrite s k v w : step s (Overwrite s k v w).2
| step_unregister s k w : step s (Unregister s k w).2
| step_apply s e :
    0 ≤ Node e < Z.of_nat (length (stringIDs s)) → step s (Apply s e).2
| step_reap s f now floor : step s (ReapTombstonesWhere s f now floor).2.

(** What every write does to the state: store [e], cover its dot, and move the
    gauges by the difference it makes. *)
Definition old_is (p : Entry → bool) (s : State) (k : string) : Z :=
  match entry_at s k with Some o => Z.b2z (p o) | None => 0 end.

Definition install (s : State) (c : Z) (e : Entry) : State :=
  add_gauges (bumpCV (put_entry (with_counter s c) (Key e) e) (Node e) (Counter e))
    (Z.b2z (negb (Deleted e)) - old_is (λ e, negb (Deleted e)) s (Key e))
    (Z.b2z (Deleted e) - old_is Deleted s (Key e)).

(** ** Shards *)

Lemma ShardFor_lt k : (ShardFor k < ShardCount)%nat.
Proof.
  unfold ShardFor. pose proof (Z.mod_pos_bound (Sum64 (bytes_of k)) (Z.of_nat ShardCount)).
  unfold ShardCount in *. lia.
Qed.

Lemma shard_lookup s k :
  length (shards s) = ShardCount → shards s !! ShardFor k = Some (shard s (ShardFor k)).
Proof.
  intros Hl. unfold shard. pose proof (ShardFor_lt k) as Hk. rewrite <- Hl in Hk.
  apply lookup_lt_is_Some in Hk as [m Hm]. by rewrite Hm.
Qed.

Lemma entry_at_put s k e k' :
  length (shards s) = ShardCount →
  entry_at (put_entry s k e) k' = if decide (k = k') then Some e else entry_at s k'.
Proof.
  intros Hl. unfold entry_at, put_entry, shard at 1; simpl.
  pose proof (ShardFor_lt k) as Hk. rewrite <- Hl in Hk.
  destruct (decide (ShardFor k = ShardFor k')) as [Heq|Hne].
  - rewrite <- Heq, list_lookup_insert_eq by done. simpl. by rewrite lookup_insert.
  - rewrite list_lookup_insert_ne by done. fold (shard s (ShardFor k')).
    rewrite decide_False; [done|]. by intros ->.
Qed.

Lemma place_put s k e :
  (∀ i m k e, shards s !! i = Some m → m !! k = Some e → ShardFor k = i ∧ Key e = k) →
  Key e = k →
  ∀ i m k' e', shards (put_entry s k e) !! i = Some m → m !! k' = Some e' →
    ShardFor k' = i ∧ Key e' = k'.
Proof.
  intros Hp He i m k' e' Hi Hm. simpl in Hi.
  apply list_lookup_insert_Some in Hi as [(<- & <- & Hlt)|[Hne Hi]]; [|by eapply Hp].
  apply lookup_insert_Some in Hm as [[<- <-]|[Hk Hm]]; [done|].
  unfold shard in Hm. destruct (shards s !! ShardFor k) as [m|] eqn:Em; simpl in Hm; [|by rewrite lookup_empty in Hm].
  by eapply Hp.
Qed.

Lemma zsum_put s k e (p : Entry → bool) :
  length (shards s) = ShardCount →
  zsum (cnt p) (shards (put_entry s k e)) =
  zsum (cnt p) (shards s)
    - (match entry_at s k with Some o => Z.b2z (p o) | None => 0 end) + Z.b2z (p e).
Proof.
  intros Hl. simpl. rewrite (zsum_insert _ _ _ _ _ (shard_lookup s k Hl)), cnt_insert.
  unfold entry_at. lia.
Qed.

(** ** Intern tables and the version vector *)

Lemma length_grown v n : length (grown v n) = n.
Proof. unfold grown. rewrite length_app, length_take, length_replicate. lia. Qed.

Lemma grown_lookup v n i : (length v ≤ n)%nat → default 0 (grown v n !! i) = default 0 (v !! i).
Proof.
  intros Hn. unfold grown. rewrite take_ge by done.
  destruct (decide (i < length v)%nat) as [Hi|Hi].
  - by rewrite lookup_app_l.
  - rewrite lookup_app_r by lia. rewrite (lookup_ge_None_2 v) by lia.
    destruct (replicate _ 0 !! _) eqn:E; [|done]. by apply lookup_replicate in E as [-> _].
Qed.

Lemma bumpCV_cv s n c i :
  0 ≤ n < 2 ^ 32 - 8 →
  default 0 (cv (bumpCV s n c) !! i) =
  if decide (i = Z.to_nat n) then Z.max (default 0 (cv s !! i)) c else default 0 (cv s !! i).
Proof.
  intros Hn. unfold bumpCV. simpl.
  set (v := if bool_decide (Z.of_nat (length (cv s)) ≤ n) then _ else _).
  assert (Hv : (Z.to_nat n < length v)%nat ∧ ∀ j, default 0 (v !! j) = default 0 (cv s !! j)).
  { unfold v. case_bool; [|split; [lia|done]].
    rewrite length_grown, u32_small by lia. split; [lia|]. intros j. apply grown_lookup. lia. }
  destruct Hv as [Hlen Hv]. rewrite Hv. case_bool; case_decide; subst.
  - rewrite list_lookup_insert_eq by done. simpl. lia.
  - by rewrite list_lookup_insert_ne by done.
  - rewrite Hv. lia.
  - by rewrite Hv.
Qed.

Lemma bumpCV_length s n c :
  0 ≤ n < 2 ^ 32 - 8 → (length (cv s) ≤ length (cv (bumpCV s n c)))%nat.
Proof.
  intros Hn. unfold bumpCV. simpl. repeat case_bool;
    rewrite ?length_insert, ?length_grown, ?u32_small; lia.
Qed.

Lemma intern_wf_bump s n c :
  intern_wf s → 0 ≤ n < Z.of_nat (length (stringIDs s)) → intern_wf (bumpCV s n c).
Proof.
  intros [Ht Hw Hc Hl] Hn. split; simpl; try done.
  pose proof (bumpCV_length s n c ltac:(lia)). simpl in *. lia.
Qed.

Lemma NodeString_inj s a b :
  intern_wf s → 0 ≤ a < Z.of_nat (length (stringIDs s)) → 0 ≤ b < Z.of_nat (length (stringIDs s)) →
  NodeString s a = NodeString s b → a = b.
Proof.
  intros Hw Ha Hb. unfold NodeString.
  destruct (lookup_lt_is_Some_2 (stringIDs s) (Z.to_nat a) ltac:(lia)) as [x Hx].
  destruct (lookup_lt_is_Some_2 (stringIDs s) (Z.to_nat b) ltac:(lia)) as [y Hy].
  rewrite Hx, Hy. simpl. intros ->.
  pose proof (proj2 (iw_tables s Hw y a) (conj (proj1 Ha) Hx)).
  pose proof (proj2 (iw_tables s Hw y b) (conj (proj1 Hb) Hy)). congruence.
Qed.

(** Interning never disturbs the ids already given, and resolves the name. *)
Lemma InternNode_spec s n id s' :
  intern_wf s → Z.of_nat (length (stringIDs s)) < 2 ^ 32 - 9 → InternNode s n = (id, s') →
  intern_wf s' ∧ NodeString s' id = n ∧ 0 ≤ id < Z.of_nat (length (stringIDs s')) ∧
  stringIDs s `prefix_of` stringIDs s' ∧
  (length (stringIDs s') ≤ S (length (stringIDs s)))%nat ∧
  shards s' = shards s ∧ live s' = live s ∧ tombstone s' = tombstone s ∧
  localNode s' = localNode s ∧ localCounter s' = localCounter s ∧
  (∀ i, default 0 (cv s' !! i) = default 0 (cv s !! i)).
Proof.
  intros Hw Hlen. unfold InternNode, internNodeLocked.
  destruct (nodeIDs s !! n) as [id0|] eqn:En; intros ?; simplify_eq/=.
  { apply (iw_tables _ Hw) in En as [Hid Hs]. unfold NodeString. rewrite Hs.
    apply lookup_lt_Some in Hs. split_and!; try done; lia. }
  rewrite u32_small by lia. remember (Z.of_nat (length (stringIDs s))) as id eqn:Hid.
  assert (Hv : ∀ i, default 0 ((if bool_decide (Z.of_nat (length (cv s)) ≤ id)
      then grown (cv s) (Z.to_nat (u32 (id + 8))) else cv s) !! i) = default 0 (cv s !! i)).
  { intros i. case_bool; [|done]. apply grown_lookup. rewrite u32_small; lia. }
  unfold NodeString. simpl. rewrite !length_app. simpl.
  split; [split; simpl|].
  - intros m j. rewrite lookup_insert. destruct (decide (n = m)) as [<-|Hm].
    + split; [intros ?; simplify_eq; split; [lia|]|intros [Hj Hs]].
      * rewrite lookup_app_r by lia. by replace (_ - _)%nat with 0%nat by lia.
      * apply lookup_snoc_Some in Hs as [[Hlt Hs]|[Heq _]]; [|f_equal; lia].
        assert (nodeIDs s !! n = Some j) by (by apply (iw_tables _ Hw)). congruence.
    + rewrite (iw_tables _ Hw m j), lookup_snoc_Some. split; intros [Hj Hs]; [split; [lia|]|].
      * left. split; [by eapply lookup_lt_Some|done].
      * destruct Hs as [[? ?]|[? ?]]; [done|congruence].
  - rewrite length_app. simpl. lia.
  - rewrite length_app. simpl. case_bool; rewrite ?length_grown, ?u32_small; lia.
  - rewrite length_app. simpl. pose proof (iw_local _ Hw). lia.
  - rewrite lookup_app_r by lia. replace (_ - _)%nat with 0%nat by lia.
    split_and!; try done; try lia. by exists [n].
Qed.

(** ** Every write is an [install] *)

Lemma add_gauges_0 s : add_gauges s 0 0 = s.
Proof. destruct s. unfold add_gauges. simpl. by rewrite !Z.add_0_r. Qed.

Lemma write_local_install s k v w :
  write_local s k v w =
  (let c := u64 (localCounter s + 1) in
   let e := mkEntry k v c w (localNode s) false in (e, install s c e)).
Proof.
  unfold write_local, install, old_is. simpl.
  destruct (entry_at s k) as [p|]; [destruct (Deleted p)|]; simpl; try done.
  by rewrite add_gauges_0.
Qed.

Lemma Unregister_install s k w :
  Unregister s k w =
  match entry_at s k with
  | Some cur =>
      if Deleted cur then (None, s) else
      let c := u64 (localCounter s + 1) in
      let e := mkEntry k [] c w (localNode s) true in (Some e, install s c e)
  | None => (None, s)
  end.
Proof.
  unfold Unregister, install, old_is. simpl.
  destruct (entry_at s k) as [p|]; [destruct (Deleted p)|]; done.
Qed.

Lemma with_counter_id s : with_counter s (localCounter s) = s.
Proof. by destruct s. Qed.

Lemma applyNew_install s e :
  entry_at s (Key e) = None → applyNew s e = install s (localCounter s) e.
Proof.
  intros He. unfold applyNew, install, old_is. rewrite He, with_counter_id.
  by destruct (Deleted e).
Qed.

Lemma swap_install s cur e :
  entry_at s (Key e) = Some cur → swap s cur e = install s (localCounter s) e.
Proof.
  intros He. unfold swap, install, old_is. rewrite He, with_counter_id.
  destruct (Deleted cur), (Deleted e); simpl; by rewrite ?add_gauges_0.
Qed.

(** The decision of [Apply] as a predicate on the stored and incoming entry. *)
Definition replaces (s : State) (cur e : Entry) : bool :=
  match compareDots cur e with
  | Zpos _ => false
  | Zneg _ => true
  | Z0 =>
      if bool_decide (Wall cur < Wall e) then true
      else if bool_decide (Wall e < Wall cur) then false
      else if negb (Bool.eqb (Deleted e) (Deleted cur)) then Deleted e
      else str_ltb (NodeString s (Node cur)) (NodeString s (Node e))
           || (bool_decide (NodeString s (Node e) = NodeString s (Node cur))
               && bool_decide (Counter cur < Counter e))
  end.

Lemma Apply_install s e :
  (Apply s e).2 =
  match entry_at s (Key e) with
  | Some cur => if replaces s cur e then install s (localCounter s) e else s
  | None => install s (localCounter s) e
  end.
Proof.
  unfold Apply. destruct (entry_at s (Key e)) as [cur|] eqn:He; [|by apply applyNew_install].
  rewrite <- (swap_install _ _ _ He). unfold replaces.
  destruct (compareDots cur e); simpl; try done.
  repeat case_match; simpl in *; try done.
Qed.

Section install.
Context (s : State) (c : Z) (e : Entry).
Hypothesis Hs : wf s.
Hypothesis He : 0 ≤ Node e < Z.of_nat (length (stringIDs s)).

Lemma install_entry_at k :
  entry_at (install s c e) k = if decide (Key e = k) then Some e else entry_at s k.
Proof. exact (entry_at_put (with_counter s c) (Key e) e k (wf_shards _ Hs)). Qed.

Lemma install_wf : wf (install s c e).
Proof.
  pose proof (wf_intern _ Hs) as Hi. pose proof (iw_width _ Hi) as Hw.
  split.
  - unfold install. simpl. rewrite length_insert. apply Hs.
  - exact (place_put (with_counter s c) (Key e) e (wf_place _ Hs) eq_refl).
  - pose proof (intern_wf_bump (put_entry (with_counter s c) (Key e) e) (Node e) (Counter e)) as Hb.
    destruct Hb as [? ? ? ?]; [|done|split; done]. destruct Hi. by split.
  - intros k e'. rewrite install_entry_at.
    change (cv (install s c e)) with (cv (bumpCV s (Node e) (Counter e))).
    change (stringIDs (install s c e)) with (stringIDs s).
    rewrite bumpCV_cv by lia. case_decide as Hk; intros Hx; simplify_eq.
    + split; [done|]. rewrite decide_True by done. lia.
    + apply (wf_dots _ Hs) in Hx as [Hx1 Hx2]. split; [done|]. case_decide; lia.
  - unfold count_live, install. simpl. rewrite (wf_live _ Hs). unfold count_live.
    pose proof (zsum_put s (Key e) e (λ e, negb (Deleted e)) (wf_shards _ Hs)) as Hz.
    simpl in Hz. unfold old_is. unfold shard in *. simpl in *. lia.
  - unfold count_tomb, install. simpl. rewrite (wf_tomb _ Hs). unfold count_tomb.
    pose proof (zsum_put s (Key e) e Deleted (wf_shards _ Hs)) as Hz.
    simpl in Hz. unfold old_is. unfold shard in *. simpl in *. lia.
Qed.
End install.
End invariant.

(** ** Tombstone collection *)

Section reap.
Context `{XXHash}.
Context (canReap : option (Entry → bool)) (nowMs wallFloorMs : Z).

(** The entries a sweep drops: tombstones accepted by the caller or older than a
    positive wall floor. *)
Definition reapable (e : Entry) : bool :=
  Deleted e &&
  (match canReap with Some f => f e | None => false end
   || bool_decide (0 < wallFloorMs) && bool_decide (wallFloorMs < i64 (nowMs - Wall e))).

Abbreviation sweep := (foldl (reap_entry canReap nowMs wallFloorMs)).

(** One step drops the entry and counts it, or does nothing. *)
Lemma reap_entry_spec r k e :
  let r' := reap_entry canReap nowMs wallFloorMs r (k, e) in
  if reapable e
  then rmap r' = delete k (rmap r) ∧ rtomb r' = rtomb r - 1 ∧ reaped r' = reaped r ++ [e] ∧
       rsafe r' + rfloor r' = rsafe r + rfloor r + 1
  else r' = r.
Proof.
  unfold reapable, reap_entry. destruct (Deleted e); simpl; [|done].
  destruct (match canReap with Some f => f e | None => false end); simpl; [split_and!; done || lia|].
  destruct (_ && _); simpl; [split_and!; done || lia|done].
Qed.

Lemma reap_sweep l r :
  NoDup l.*1 → (∀ k e, (k, e) ∈ l → rmap r !! k = Some e) →
  let r' := sweep r l in
  rtomb r' - cnt Deleted (rmap r') = rtomb r - cnt Deleted (rmap r) ∧
  cnt (λ e, negb (Deleted e)) (rmap r') = cnt (λ e, negb (Deleted e)) (rmap r) ∧
  (∀ k e, (k, e) ∈ l → rmap r' !! k = if reapable e then None else Some e) ∧
  (∀ k, k ∉ l.*1 → rmap r' !! k = rmap r !! k) ∧
  reaped r' = reaped r ++ (filter (λ kv, reapable kv.2 = true) l).*2 ∧
  rsafe r' + rfloor r' =
    rsafe r + rfloor r + Z.of_nat (length (filter (λ kv, reapable kv.2 = true) l)).
Proof.
  revert r. induction l as [|[k e] l IH]; intros r Hnd Hin.
  { simpl. split_and!; try done; try lia; [by intros ?? ?%elem_of_nil|by rewrite app_nil_r]. }
  apply NoDup_cons in Hnd as [Hk Hnd]. simpl in Hk. cbn [foldl].
  pose proof (reap_entry_spec r k e) as Hstep.
  set (r1 := reap_entry canReap nowMs wallFloorMs r (k, e)) in *. cbn zeta in Hstep |- *.
  assert (Hke : rmap r !! k = Some e) by (apply Hin, elem_of_cons; by left).
  assert (Hne : ∀ k' e', (k', e') ∈ l → k ≠ k').
  { intros k' e' Hl ->. apply Hk, list_elem_of_fmap. by exists (k', e'). }
  destruct (IH r1 Hnd) as (H1 & H2 & H3 & H4 & H5 & H6).
  { intros k' e' Hl. specialize (Hin k' e' (proj2 (elem_of_cons _ _ _) (or_intror Hl))). specialize (Hne _ _ Hl).
    destruct (reapable e); [destruct Hstep as (-> & _); by rewrite lookup_delete_ne|by rewrite Hstep]. }
  rewrite H1, H2, H5, H6. clear IH H1 H2 H5 H6.
  destruct (reapable e) eqn:Hr; [destruct Hstep as (Hm & Ht & Hre & Hsf)|rewrite Hstep in *].
  - assert (Hd : Deleted e = true) by (unfold reapable in Hr; by destruct (Deleted e)).
    rewrite filter_cons_True by done. simpl.
    rewrite Hm, !(cnt_delete _ _ _ _ Hke), Ht, Hre, Hsf, Hd. simpl.
    split_and!; try lia.
    + intros k' e' [Heq|Hl]%elem_of_cons; [|by apply H3]. simplify_eq.
      rewrite Hr, H4, Hm by done. apply lookup_delete_eq.
    + intros k' [Hk1 Hk2]%not_elem_of_cons. rewrite H4, Hm by done. by apply lookup_delete_ne.
    + by rewrite <- app_assoc.
  - rewrite filter_cons_False by (simpl; congruence).
    split_and!; try done.
    + intros k' e' [Heq|Hl]%elem_of_cons; [|by apply H3]. simplify_eq. rewrite Hr, H4; auto.
    + intros k' [Hk1 Hk2]%not_elem_of_cons. by apply H4.
Qed.

(** A sweep of one shard: what is stored, what is reported, what is counted. *)
Definition swept (i : nat) (k : string) (e : Entry) : bool :=
  bool_decide (ShardFor k = i) && reapable e.

Lemma sweep_lookup s i a b out t k :
  let r := sweep (mkReap a b out (shard s i) t) (map_to_list (shard s i)) in
  rmap r !! k =
  match shard s i !! k with Some e => if reapable e then None else Some e | None => None end.
Proof.
  destruct (reap_sweep (map_to_list (shard s i)) (mkReap a b out (shard s i) t)
              (NoDup_fst_map_to_list _)) as (_ & _ & H3 & H4 & _).
  { intros k' e. apply elem_of_map_to_list. }
  destruct (shard s i !! k) as [e|] eqn:Ek.
  - apply H3. by apply elem_of_map_to_list.
  - cbn zeta. rewrite H4; [done|]. intros ([k' e] & -> & Hx)%list_elem_of_fmap.
    apply elem_of_map_to_list in Hx. simpl in *. congruence.
Qed.

Lemma reap_shard_entry s i a b out a' b' out' s' k :
  length (shards s) = ShardCount → (i < ShardCount)%nat →
  reap_shard canReap nowMs wallFloorMs (a, b, out, s) i = (a', b', out', s') →
  entry_at s' k =
  match entry_at s k with
  | Some e => if swept i k e then None else Some e
  | None => None
  end.
Proof.
  intros Hl Hi. unfold reap_shard. intros ?; simplify_eq. unfold entry_at, swept, shard at 1. simpl.
  rewrite <- Hl in Hi. case_bool; subst.
  - rewrite list_lookup_insert_eq by done. simpl. rewrite sweep_lookup. by destruct (_ !! k).
  - rewrite list_lookup_insert_ne by done. fold (shard s (ShardFor k)). by destruct (_ !! k).
Qed.

Lemma reap_shard_wf s i a b out a' b' out' s' :
  wf s → (i < ShardCount)%nat →
  reap_shard canReap nowMs wallFloorMs (a, b, out, s) i = (a', b', out', s') → wf s'.
Proof.
  intros Hwf Hi Hr. pose proof Hwf as [Wl Wp Wi Wd Wlv Wt].
  pose proof (λ k, reap_shard_entry _ _ _ _ _ _ _ _ _ k Wl Hi Hr) as Hea.
  pose proof Hi as Hlk. rewrite <- Wl in Hlk. apply lookup_lt_is_Some in Hlk as [m Hlk].
  assert (Hm : shard s i = m) by (unfold shard; by rewrite Hlk). rewrite <- Hm in Hlk.
  destruct (reap_sweep (map_to_list (shard s i)) (mkReap a b out (shard s i) (tombstone s))
              (NoDup_fst_map_to_list _)) as (H1 & H2 & _).
  { intros k e. apply elem_of_map_to_list. }
  unfold reap_shard in Hr. simplify_eq. split; simpl in *.
  - by rewrite length_insert.
  - intros j m k e Hj Hm. apply list_lookup_insert_Some in Hj as [(<- & <- & _)|[_ Hj]]; [|by eapply Wp].
    rewrite sweep_lookup in Hm. destruct (shard s i !! k) as [e'|] eqn:Ek; [|done].
    destruct (reapable e'); simplify_eq. by eapply Wp.
  - destruct Wi. by split.
  - intros k e. rewrite Hea. destruct (entry_at s k) as [e'|] eqn:Ek; [|done].
    destruct (swept _ _ _); intros; simplify_eq. by eapply Wd.
  - unfold count_live. simpl. rewrite (zsum_insert _ _ _ _ _ Hlk), H2, Wlv. unfold count_live. lia.
  - unfold count_tomb. simpl. rewrite (zsum_insert _ _ _ _ _ Hlk). unfold count_tomb in *. lia.
Qed.

Lemma reap_shard_out s i a b out a' b' out' s' :
  wf s → (i < ShardCount)%nat →
  reap_shard canReap nowMs wallFloorMs (a, b, out, s) i = (a', b', out', s') →
  (∀ e, e ∈ out' ↔ e ∈ out ∨ ∃ k, entry_at s k = Some e ∧ swept i k e = true) ∧
  a' + b' - Z.of_nat (length out') = a + b - Z.of_nat (length out).
Proof.
  intros Hwf Hi Hr. pose proof Hi as Hlk. rewrite <- (wf_shards _ Hwf) in Hlk.
  apply lookup_lt_is_Some in Hlk as [m Hlk].
  assert (Hm : shard s i = m) by (unfold shard; by rewrite Hlk). rewrite <- Hm in Hlk.
  destruct (reap_sweep (map_to_list (shard s i)) (mkReap a b out (shard s i) (tombstone s))
              (NoDup_fst_map_to_list _)) as (_ & _ & _ & _ & H5 & H6).
  { intros k e. apply elem_of_map_to_list. }
  unfold reap_shard in Hr. simplify_eq. split.
  - intros e. rewrite H5, elem_of_app, list_elem_of_fmap. apply or_iff_compat_l. unfold swept. split.
    + intros ([k e'] & -> & [Hr Hm%elem_of_map_to_list]%list_elem_of_filter). simpl in *.
      destruct (wf_place _ Hwf _ _ _ _ Hlk Hm) as [Hs _]. exists k. unfold entry_at.
      rewrite Hs, bool_decide_eq_true_2 by done. auto.
    + intros (k & Hk & [Hs%bool_decide_eq_true_1 Hr]%andb_true_iff). subst i. exists (k, e).
      split; [done|]. apply list_elem_of_filter. split; [done|]. by apply elem_of_map_to_list.
  - rewrite H6, H5, length_app, length_fmap. simpl. lia.
Qed.

(** The sweep of a list of shards. *)
Lemma reap_shards_spec idxs s a b out :
  wf s → NoDup idxs → (∀ i, i ∈ idxs → (i < ShardCount)%nat) →
  let '(a', b', out', s') := foldl (reap_shard canReap nowMs wallFloorMs) (a, b, out, s) idxs in
  wf s' ∧
  (∀ k, entry_at s' k =
     match entry_at s k with
     | Some e => if bool_decide (ShardFor k ∈ idxs) && reapable e then None else Some e
     | None => None
     end) ∧
  (∀ e, e ∈ out' ↔ e ∈ out ∨ ∃ k, ShardFor k ∈ idxs ∧ entry_at s k = Some e ∧ reapable e = true) ∧
  a' + b' - Z.of_nat (length out') = a + b - Z.of_nat (length out).
Proof.
  revert s a b out. induction idxs as [|i idxs IH]; intros s a b out Hwf Hnd His; cbn [foldl].
  { split_and!; try done.
    - intros k. by destruct (entry_at s k).
    - intros e. split; [tauto|]. intros [?|(k & Hk & _)]; [done|]. by apply elem_of_nil in Hk. }
  apply NoDup_cons in Hnd as [Hi Hnd]. assert (Hlt : (i < ShardCount)%nat) by (apply His, elem_of_cons; by left).
  destruct (reap_shard canReap nowMs wallFloorMs (a, b, out, s) i) as [[[a1 b1] out1] s1] eqn:E.
  pose proof (λ k, reap_shard_entry _ _ _ _ _ _ _ _ _ k (wf_shards _ Hwf) Hlt E) as Hea.
  destruct (reap_shard_out _ _ _ _ _ _ _ _ _ Hwf Hlt E) as [Hout Hc].
  specialize (IH s1 a1 b1 out1 (reap_shard_wf _ _ _ _ _ _ _ _ _ Hwf Hlt E) Hnd
    (λ j Hj, His j (proj2 (elem_of_cons _ _ _) (or_intror Hj)))).
  destruct (foldl _ _ idxs) as [[[a' b'] out'] s'].
  destruct IH as (J1 & J3 & J4 & J5). split_and!; [done|..].
  - intros k. rewrite J3, Hea. destruct (entry_at s k) as [e|]; [|done]. unfold swept.
    replace (bool_decide (ShardFor k ∈ i :: idxs))
      with (bool_decide (ShardFor k = i) || bool_decide (ShardFor k ∈ idxs)).
    { destruct (bool_decide (_ = i)), (reapable e) eqn:Hre; simpl; rewrite ?Hre, ?andb_false_r; done. }
    rewrite <- bool_decide_or. apply bool_decide_ext. by rewrite elem_of_cons.
  - intros e. rewrite J4, Hout. setoid_rewrite elem_of_cons. unfold swept in *. split.
    + intros [[?|(k & ? & [?%bool_decide_eq_true_1 ?]%andb_true_iff)]|(k & Hk & Hk2 & ?)];
        [by left|right; exists k; auto|]. right. exists k. split_and!; auto. rewrite Hea in Hk2.
      destruct (entry_at s k); [|done]. by destruct (_ && _).
    + intros [?|(k & [Hk|Hk] & Hk2 & Hr)]; [by left; left|left; right; exists k|right; exists k].
      * split; [done|]. by rewrite bool_decide_eq_true_2, Hr by done.
      * split_and!; auto. rewrite Hea, Hk2, bool_decide_eq_false_2; [done|]. by intros <-.
  - lia.
Qed.
End reap.

(** ** Properties *)

Section properties.
Context `{XXHash}.

(** The replica-independent content of an entry: its origin is the node's name,
    not the interned id. *)
Record Canon := mkCanon {
  cKey : string; cValue : list ascii; cOrigin : string; cCounter : Z; cWall : Z; cDeleted : bool
}.

Definition canon (s : State) (e : Entry) : Canon :=
  mkCanon (Key e) (Value e) (NodeString s (Node e)) (Counter e) (Wall e) (Deleted e).

Definition cview (s : State) (k : string) : option Canon := canon s <$> entry_at s k.

(** The prefix of a list up to and including the first element [fn] refuses. *)
Fixpoint until {A} (fn : A → bool) (l : list A) : list A :=
  match l with
  | [] => []
  | a :: l => if fn a then a :: until fn l else [a]
  end.

Lemma NewState_eq n :
  NewState n = mkState (<[n := 0]> ∅) [n] (replicate 8 0) (replicate ShardCount ∅) 0 0 0 0.
Proof.
  unfold NewState, InternNode, internNodeLocked. cbn [nodeIDs]. by rewrite lookup_empty.
Qed.

Lemma entry_at_fresh s k : shards s = replicate ShardCount ∅ → entry_at s k = None.
Proof.
  intros Hs. unfold entry_at, shard. rewrite Hs.
  destruct (replicate _ _ !! _) as [m|] eqn:E; simpl; [|apply lookup_empty].
  apply lookup_replicate in E as [-> _]. apply lookup_empty.
Qed.

Lemma NewState_wf n : wf (NewState n).
Proof.
  rewrite NewState_eq.
  assert (Hsh : ∀ i m, replicate ShardCount (∅ : gmap string Entry) !! i = Some m → m = ∅)
    by (intros i m [-> _]%lookup_replicate; done).
  split; try done.
  - intros i m k e Hi Hm. apply Hsh in Hi as ->. by rewrite lookup_empty in Hm.
  - split; simpl; [|lia|lia|lia]. intros m id. rewrite lookup_insert. case_decide; subst.
    + split; [intros ?; simplify_eq; done|]. intros [Hp Hl].
      apply list_lookup_singleton_Some in Hl as [Hl _]. f_equal. lia.
    + split; [by rewrite lookup_empty|]. intros [_ Hl].
      by apply list_lookup_singleton_Some in Hl as [_ ?].
  - intros k e. by rewrite entry_at_fresh.
Qed.

Lemma write_local_wf s k v w : wf s → wf (write_local s k v w).2.
Proof.
  intros Hs. rewrite write_local_install. apply install_wf; [done|].
  apply (iw_local _ (wf_intern _ Hs)).
Qed.

Lemma InternNode_wf s n :
  wf s → Z.of_nat (length (stringIDs s)) < 2 ^ 32 - 9 → wf (InternNode s n).2.
Proof.
  intros Hs Hn. destruct (InternNode s n) as [id s'] eqn:E.
  destruct (InternNode_spec s n id s' (wf_intern _ Hs) Hn E)
    as (Hi & _ & _ & Hpre & _ & Hsh & Hl & Ht & _ & _ & Hcv).
  destruct Hs as [Wl Wp Wi Wd Wlv Wt]. simpl. apply prefix_length in Hpre.
  assert (Hea : ∀ k, entry_at s' k = entry_at s k) by (intros k; unfold entry_at, shard; by rewrite Hsh).
  split; try done.
  - by rewrite Hsh.
  - by rewrite Hsh.
  - intros k e. rewrite Hea, Hcv. intros He. apply Wd in He as [? ?]. split; [lia|done].
  - unfold count_live. by rewrite Hsh, Hl, Wlv.
  - unfold count_tomb. by rewrite Hsh, Ht, Wt.
Qed.

Lemma Apply_wf s e :
  wf s → 0 ≤ Node e < Z.of_nat (length (stringIDs s)) → wf (Apply s e).2.
Proof.
  intros Hs He. rewrite Apply_install. repeat case_match; auto using install_wf.
Qed.

Lemma Register_cases s k v w :
  Register s k v w =
  match entry_at s k with
  | Some cur => if negb (Deleted cur) && bool_decide (Value cur ≠ v) then (cur, false, s)
                else ((write_local s k v w).1, true, (write_local s k v w).2)
  | None => ((write_local s k v w).1, true, (write_local s k v w).2)
  end.
Proof. unfold Register. destruct (write_local s k v w). by repeat case_match. Qed.

Lemma step_wf s s' : step s s' → wf s → wf s'.
Proof.
  intros Hs H0. destruct Hs as [s n' Hn|s k v w|s k v w|s k w|s e He|s f now floor].
  - by apply InternNode_wf.
  - rewrite Register_cases. repeat case_match; cbn [fst snd]; auto using write_local_wf.
  - by apply write_local_wf.
  - rewrite Unregister_install. repeat case_match; simpl; auto.
    apply install_wf; [done|]. apply (iw_local _ (wf_intern _ H0)).
  - by apply Apply_wf.
  - pose proof (reap_shards_spec f now floor (seq 0 ShardCount) s 0 0 [] H0 (NoDup_seq _ _)) as Hp.
    unfold ReapTombstonesWhere. destruct (foldl _ _ _) as [[[a b] out] s']. simpl.
    apply Hp. intros i Hi. apply elem_of_seq in Hi. lia.
Qed.

(** Every state a replica can reach from [NewState] by interning, local
    writes, deletes, merges of remote entries and tombstone sweeps is
    well-formed: each key is in its hash shard, origins are interned
    consistently, the version vector covers every stored dot, and the
    live/tombstone gauges equal the true counts. *)
Theorem reachable_wf n s : rtc step (NewState n) s → wf s.
Proof.
  intros Hr. remember (NewState n) as s0 eqn:E. assert (wf s0) as H0 by (subst; apply NewState_wf).
  clear E. induction Hr as [|s1 s2 s3 Hs _ IH]; [done|]. eauto using step_wf.
Qed.

Lemma NodeString_install s c e n : NodeString (install s c e) n = NodeString s n.
Proof. done. Qed.

(** A local registration is refused exactly when a live entry with another
    value holds the key, and then nothing changes; otherwise the new live entry
    carries the next local counter and the local origin, reads return it, and no
    other key changes. *)
Theorem Register_spec s k v w :
  wf s →
  match Register s k v w with
  | (cur, false, s') =>
      s' = s ∧ entry_at s k = Some cur ∧ Deleted cur = false ∧ Value cur ≠ v
  | (e, true, s') =>
      e = mkEntry k v (u64 (localCounter s + 1)) w (localNode s) false ∧
      (∀ u, Lookup s k = Some u → u = v) ∧
      Lookup s' k = Some v ∧
      (∀ k', k' ≠ k → entry_at s' k' = entry_at s k')
  end.
Proof.
  intros Hs. rewrite Register_cases, write_local_install. cbn zeta. simpl.
  set (e := mkEntry _ _ _ _ _ _). unfold Lookup.
  assert (Hput : entry_at (install s (u64 (localCounter s + 1)) e) k = Some e)
    by (rewrite install_entry_at by done; by rewrite decide_True).
  assert (Hoth : ∀ k', k' ≠ k →
    entry_at (install s (u64 (localCounter s + 1)) e) k' = entry_at s k')
    by (intros k' Hk; rewrite install_entry_at by done; rewrite decide_False; simpl; congruence).
  destruct (entry_at s k) as [cur|] eqn:Ek; [|rewrite Hput; by split_and!].
  destruct (Deleted cur) eqn:Ed; cbn [negb andb]; [rewrite Hput; by split_and!|].
  case_bool; [by split_and!|]. rewrite Hput. split_and!; auto.
  intros u ?; simplify_eq. by destruct (decide (Value cur = v)).
Qed.

(** Merging is idempotent: delivering the same remote entry a second time
    reports [MergeNoop] and leaves the replica exactly as it was. *)
Theorem Apply_idempotent s e :
  wf s → 0 ≤ Node e < Z.of_nat (length (stringIDs s)) →
  let s1 := (Apply s e).2 in
  (Apply s1 e).1.1 = MergeNoop ∧ (Apply s1 e).2 = s1.
Proof.
  intros Hs He s1.
  assert (Hst : ∃ cur, entry_at s1 (Key e) = Some cur ∧ replaces s1 cur e = false).
  { unfold s1. rewrite Apply_install.
    assert (Hself : ∀ c, entry_at (install s c e) (Key e) = Some e ∧
                         replaces (install s c e) e e = false).
    { intros c. rewrite install_entry_at, decide_True by done. split; [done|].
      unfold replaces, compareDots. rewrite str_ltb_irrefl. case_bool; try done; try lia.
      by rewrite Bool.eqb_reflx. }
    destruct (entry_at s (Key e)) as [cur|] eqn:Ee; [|eexists; apply Hself].
    destruct (replaces s cur e) eqn:Er; [eexists; apply Hself|]. by exists cur. }
  destruct Hst as (cur & Hcur & Hr).
  split; [|by rewrite Apply_install, Hcur, Hr].
  unfold Apply. rewrite Hcur. unfold replaces in Hr.
  destruct (compareDots cur e); simpl; try done. by repeat case_match.
Qed.

(** A tombstone sweep removes exactly the tombstones accepted by the caller's
    predicate or older than a positive wall floor: live entries and other
    tombstones are untouched, the returned entries are precisely the removed
    ones, and the two returned counters add up to their number. *)
Lemma ReapTombstonesWhere_spec s canReap now floor :
  wf s →
  let '(safe, fl, out, s') := ReapTombstonesWhere s canReap now floor in
  wf s' ∧
  (∀ k, entry_at s' k =
        match entry_at s k with
        | Some e => if reapable canReap now floor e then None else Some e
        | None => None
        end) ∧
  (∀ e, e ∈ out ↔ ∃ k, entry_at s k = Some e ∧ reapable canReap now floor e = true) ∧
  safe + fl = Z.of_nat (length out).
Proof.
  intros Hs. unfold ReapTombstonesWhere.
  pose proof (reap_shards_spec canReap now floor (seq 0 ShardCount) s 0 0 [] Hs (NoDup_seq _ _)) as Hp.
  destruct (foldl _ _ _) as [[[a b] out] s'].
  destruct Hp as (H1 & H2 & H3 & H4); [intros i Hi%elem_of_seq; lia|].
  assert (Hall : ∀ k, ShardFor k ∈ seq 0 ShardCount)
    by (intros k; apply elem_of_seq; pose proof (ShardFor_lt k); lia).
  split_and!; [done|..].
  - intros k. rewrite H2. by rewrite bool_decide_eq_true_2 by done.
  - intros e. rewrite H3. split.
    + intros [?%elem_of_nil|(k & _ & ? & ?)]; [done|]. by exists k.
    + intros (k & ? & ?). right. by exists k.
  - simpl in H4. lia.
Qed.

Lemma shard_lookup_entry s i k e :
  wf s → (i < ShardCount)%nat → shard s i !! k = Some e ↔ ShardFor k = i ∧ entry_at s k = Some e.
Proof.
  intros Hs Hi. split; [|by intros [<- ?]]. intros Hk.
  pose proof Hi as Hl. rewrite <- (wf_shards _ Hs) in Hl. apply lookup_lt_is_Some in Hl as [m Hm].
  assert (shard s i = m) by (unfold shard; by rewrite Hm). subst m.
  destruct (wf_place _ Hs _ _ _ _ Hm Hk) as [<- _]. done.
Qed.

(** The anti-entropy hash of a shard depends only on the replica-independent
    content: two replicas that hold the same entries (same keys, values, origin
    names, counters, walls and tombstone flags) hash every shard equally, however
    each interned the origins and whatever the map iteration order. *)
Lemma ShardHash_canonical s1 s2 i :
  wf s1 → wf s2 → (∀ k, cview s1 k = cview s2 k) → ShardHash s1 i = ShardHash s2 i.
Proof.
  intros W1 W2 Hv. unfold ShardHash. case_bool; [done|].
  set (j := Z.to_nat i). assert (Hj : (j < ShardCount)%nat) by (unfold j; lia).
  assert (Hm : ∀ k, canon s1 <$> shard s1 j !! k = canon s2 <$> shard s2 j !! k).
  { intros k. specialize (Hv k). unfold cview in Hv.
    destruct (decide (ShardFor k = j)) as [<-|Hk]; [done|].
    assert (∀ s, wf s → shard s j !! k = None) as Hn.
    { intros s W. destruct (shard s j !! k) eqn:E; [|done].
      by apply shard_lookup_entry in E as [? _]. }
    by rewrite !Hn. }
  f_equal. f_equal.
  assert (Hks : merge_sort String.le ((map_to_list (shard s1 j)).*1) =
                merge_sort String.le ((map_to_list (shard s2 j)).*1)).
  { apply (StronglySorted_unique String.le); try apply (StronglySorted_merge_sort _ _).
    rewrite !merge_sort_Permutation.
    apply NoDup_Permutation; try apply NoDup_fst_map_to_list.
    intros k. rewrite !list_elem_of_fmap. specialize (Hm k).
    split; intros ([k' e] & -> & Hx%elem_of_map_to_list); simpl in *; rewrite Hx in Hm; simpl in Hm.
    - destruct (shard s2 j !! k') as [e2|] eqn:E2; [|done]. exists (k', e2).
      by rewrite elem_of_map_to_list.
    - destruct (shard s1 j !! k') as [e2|] eqn:E2; [|done]. exists (k', e2).
      by rewrite elem_of_map_to_list. }
  rewrite Hks. apply map_ext. intros k. specialize (Hm k).
  destruct (shard s1 j !! k) as [e1|], (shard s2 j !! k) as [e2|]; try done.
  injection Hm as _ Hv' Ho Hc Hw Hd. unfold hash_stream. by rewrite Hv', Ho, Hc, Hw, Hd.
Qed.

Lemma range_visit_until s fn keys :
  range_visit s fn keys = until fn (omap (entry_at s) keys).
Proof.
  induction keys as [|k keys IH]; simpl; [done|].
  destruct (entry_at s k) as [e|]; simpl; [|done]. by rewrite IH.
Qed.

Lemma until_true {A} (l : list A) : until (λ _, true) l = l.
Proof. induction l as [|a l IH]; simpl; [done|]. by rewrite IH. Qed.

(** The keys [Range] collects, before sorting. *)
Definition range_keys (s : State) (start stop : string) : list string :=
  concat (map (λ m, (map_to_list (filter (λ kv, in_range start stop kv.1 kv.2 = true) m)).*1) (shards s)).

Lemma elem_of_range_keys s start stop k :
  wf s → k ∈ range_keys s start stop ↔
  ∃ e, entry_at s k = Some e ∧ in_range start stop k e = true.
Proof.
  intros Hs. unfold range_keys. rewrite list_elem_of_In, in_concat. setoid_rewrite in_map_iff.
  setoid_rewrite <- list_elem_of_In. split.
  - intros (ks & (m & <- & Hm) & ([k' e] & -> & Hx)%list_elem_of_fmap).
    apply elem_of_map_to_list, map_lookup_filter_Some in Hx as [Hx Hr]. simpl in *.
    apply list_elem_of_lookup in Hm as [i Hi]. exists e. split; [|done].
    destruct (wf_place _ Hs _ _ _ _ Hi Hx) as [<- _]. unfold entry_at, shard. by rewrite Hi.
  - intros (e & He & Hr). unfold entry_at in He. eexists. split.
    + exists (shard s (ShardFor k)). split; [done|].
      eapply list_elem_of_lookup_2, shard_lookup, Hs.
    + apply list_elem_of_fmap. exists (k, e). split; [done|].
      apply elem_of_map_to_list, map_lookup_filter_Some. done.
Qed.

Lemma NoDup_range_keys s start stop : wf s → NoDup (range_keys s start stop).
Proof.
  intros Hs. unfold range_keys.
  assert (Hp : ∀ i m k e, shards s !! i = Some m → m !! k = Some e → ShardFor k = (i + 0)%nat)
    by (intros i m k e Hi Hk; rewrite Nat.add_0_r; by destruct (wf_place _ Hs i m k e)).
  revert Hp. generalize 0%nat. induction (shards s) as [|m ms IH]; intros n Hp; simpl; [constructor|].
  apply NoDup_app. split_and!.
  - apply NoDup_fst_map_to_list.
  - intros k ([k' e] & -> & Hx)%list_elem_of_fmap Hin. simpl in *.
    apply elem_of_map_to_list, map_lookup_filter_Some in Hx as [Hx _].
    apply list_elem_of_In, in_concat in Hin as (ks & (m' & <- & Hm')%in_map_iff & Hk).
    apply list_elem_of_In, list_elem_of_fmap in Hk as ([k2 e2] & Heq & Hy). simpl in Heq. subst k2.
    apply elem_of_map_to_list, map_lookup_filter_Some in Hy as [Hy _].
    apply list_elem_of_In, list_elem_of_lookup in Hm' as [i Hi].
    pose proof (Hp 0%nat m _ _ eq_refl Hx). pose proof (Hp (S i) m' _ _ Hi Hy). lia.
  - apply (IH (S n)). intros i m' k e Hi Hk. rewrite (Hp (S i) m' k e Hi Hk). lia.
Qed.

Lemma entry_at_Key s k e : wf s → entry_at s k = Some e → Key e = k.
Proof.
  intros Hs He. by destruct (wf_place _ Hs _ _ _ _ (shard_lookup s k (wf_shards _ Hs)) He).
Qed.

Lemma StronglySorted_keys s keys :
  wf s → NoDup keys → StronglySorted String.le keys →
  StronglySorted (λ a b, str_ltb (Key a) (Key b) = true) (omap (entry_at s) keys).
Proof.
  intros Hs. induction keys as [|k keys IH]; intros Hnd Hss; simpl; [constructor|].
  apply NoDup_cons in Hnd as [Hk Hnd]. apply StronglySorted_inv in Hss as [Hss Hall].
  destruct (entry_at s k) as [e|] eqn:Ek; simpl; [|auto]. constructor; [auto|].
  apply Forall_forall. intros e' (k' & Hk' & He')%list_elem_of_omap.
  rewrite (entry_at_Key _ _ _ Hs Ek), (entry_at_Key _ _ _ Hs He').
  apply str_ltb_le. rewrite Forall_forall in Hall. split; [auto|]. by intros ->.
Qed.

(** [Range] walks the live entries of the half-open key interval in strictly
    increasing key order, each exactly once, and stops right after the first
    entry its callback refuses. *)
Theorem Range_spec s start stop fn :
  wf s →
  let all := Range s start stop (λ _, true) in
  StronglySorted (λ a b, str_ltb (Key a) (Key b) = true) all ∧
  (∀ e, e ∈ all ↔ entry_at s (Key e) = Some e ∧ in_range start stop (Key e) e = true) ∧
  Range s start stop fn = until fn all.
Proof.
  intros Hs. unfold Range. fold (range_keys s start stop).
  rewrite !range_visit_until, until_true. cbn zeta.
  set (ks := merge_sort String.le (range_keys s start stop)).
  assert (Hp : ks ≡ₚ range_keys s start stop) by apply merge_sort_Permutation.
  split_and!; [| |done].
  - apply StronglySorted_keys; [done| |apply (StronglySorted_merge_sort _ _)].
    rewrite Hp. by apply NoDup_range_keys.
  - intros e. rewrite list_elem_of_omap. setoid_rewrite Hp. setoid_rewrite elem_of_range_keys; [|done].
    split.
    + intros (k & (e' & He' & Hr) & He). assert (e' = e) by congruence. subst e'.
      by rewrite (entry_at_Key _ _ _ Hs He).
    + intros [He Hr]. exists (Key e). split; [by exists e|done].
Qed.
End properties.

Section interning.
Context `{XXHash}.

(** Interning a name changes nothing a reader of the replica can see. *)
Lemma InternNode_cview s n k :
  wf s → Z.of_nat (length (stringIDs s)) < 2 ^ 32 - 9 →
  cview (InternNode s n).2 k = cview s k.
Proof.
  intros Hs Hn. destruct (InternNode s n) as [id s'] eqn:E.
  destruct (InternNode_spec s n id s' (wf_intern _ Hs) Hn E)
    as (_ & _ & _ & Hpre & _ & Hsh & _). simpl.
  unfold cview, entry_at, shard. rewrite Hsh. fold (shard s (ShardFor k)) (entry_at s k).
  destruct (entry_at s k) as [e|] eqn:Ee; [|done]. simpl. f_equal.
  destruct (wf_dots s Hs k e Ee) as [Hr _]. unfold canon, NodeString. f_equal.
  destruct Hpre as [t ->]. rewrite lookup_app_l; [done|lia].
Qed.
End interning.

(** ** A concrete replica *)

(** Any digest will do; this one puts every key into shard 0. *)
Definition zero_hash : XXHash := λ _, 0.
#[local] Existing Instance zero_hash.

(** A node that wrote [k] and [m], deleted [m], and learned of a peer. *)
Definition demo : State :=
  let s := (Register (NewState "a") "k" [byte_of 1] 5).2 in
  let s := (Overwrite s "m" [byte_of 2] 6).2 in
  let s := (Unregister s "m" 7).2 in
  (InternNode s "b").2.

Definition demo_remote : Entry := mkEntry "k" [byte_of 9] 4 11 1 false.

Lemma demo_reachable : rtc step (NewState "a") demo.
Proof.
  unfold demo. do 4 (eapply rtc_r; [|constructor; vm_compute; reflexivity]). apply rtc_refl.
Qed.

Lemma demo_wf : wf demo.
Proof.
  pose proof demo_reachable as Hr. revert Hr. generalize demo. intros s.
  remember (NewState "a") as s0 eqn:E. assert (wf s0) as H0 by (subst; apply NewState_wf).
  clear E. induction 1; eauto using step_wf.
Qed.

Lemma reachable_wf_witness :
  rtc step (NewState "a") demo ∧ wf demo ∧ LiveCount demo = 1 ∧ TombstoneCount demo = 1.
Proof. split_and!; [apply demo_reachable|apply (reachable_wf "a"), demo_reachable|done|done]. Defined.

Lemma Register_spec_witness :
  (Register demo "k" [byte_of 3] 8).1.2 = false ∧
  let r := Register demo "n" [byte_of 3] 8 in
  r.1.2 = true ∧ Lookup r.2 "n" = Some [byte_of 3].
Proof.
  split; [done|]. intros r. assert (Hr : r.1.2 = true) by done. split; [done|].
  pose proof (Register_spec demo "n" [byte_of 3] 8 demo_wf) as Hn. fold r in Hn.
  destruct r as [[e b] s']. cbn [fst snd] in *. subst b. apply Hn.
Defined.

Lemma Apply_idempotent_witness :
  (Apply demo demo_remote).1.1 = MergeWallTiebreak ∧
  (Apply (Apply demo demo_remote).2 demo_remote).1.1 = MergeNoop.
Proof.
  split; [done|]. apply (Apply_idempotent demo demo_remote demo_wf). by vm_compute.
Defined.

Lemma Range_spec_witness :
  wf demo ∧ Key <$> Range demo "" "" (λ _, true) = ["k"] ∧
  StronglySorted (λ a b, str_ltb (Key a) (Key b) = true) (Range demo "" "" (λ _, true)).
Proof.
  split_and!; [apply demo_wf|by vm_compute|].
  apply (Range_spec demo "" "" (λ _, true) demo_wf).
Defined.
