(* ===== verification/CrdtWire.v ===== *)
(** * The CRDT wire formats ([system/crdt/delta.go], [system/crdt/digest.go])

    The delta encoding of one entry, the frame decoder, the outbound broadcast
    queue and its packing of deltas into frames, and the anti-entropy digest.
    Errors carry the code's message class; byte offsets are list positions. *)

From S2P Require Import Prelude Bytes Packer Crdt.

Definition MaxFrameBytes : Z := 1400.

Inductive wire_error :=
| ErrKeyTooLong
| ErrOriginTooLong
| ErrValueTooLong
| ErrTruncated.

#[global] Instance wire_error_eq_dec : EqDecision wire_error.
Proof. solve_decision. Defined.

Definition OpPut : Z := 0.
Definition OpTombstone : Z := 1.

(** [op:1 | key_len:2 | key | node_len:1 | node | counter:8 | wall:8 | value_len:4 | value] *)
Definition EncodeDelta (buf : list ascii) (e : Entry) (originNodeStr : string)
    : result wire_error (list ascii) :=
  if bool_decide (65535 < blen (bytes_of (Key e))) then Err ErrKeyTooLong
  else if bool_decide (255 < blen (bytes_of originNodeStr)) then Err ErrOriginTooLong
  else if bool_decide (4294967295 < blen (Value e)) then Err ErrValueTooLong
  else
    let op := if Deleted e then OpTombstone else OpPut in
    let buf := buf ++ [byte_of op] in
    let buf := buf ++ le_bytes 2 (u16 (blen (bytes_of (Key e)))) in
    let buf := buf ++ bytes_of (Key e) in
    let buf := buf ++ [byte_of (blen (bytes_of originNodeStr))] in
    let buf := buf ++ bytes_of originNodeStr in
    let buf := buf ++ le_bytes 8 (Counter e) in
    let buf := buf ++ le_bytes 8 (u64 (Wall e)) in
    Ok (if Deleted e then buf ++ le_bytes 4 0
        else buf ++ le_bytes 4 (u32 (blen (Value e))) ++ Value e).

(** The sticky-error reader: every field read after a failure is zero. *)
Record reader := mkReader { rerr : bool; rb : list ascii; rpos : nat }.

Definition need (r : reader) (n : nat) : bool * reader :=
  if rerr r then (false, r)
  else if bool_decide (length (rb r) < rpos r + n)%nat then (false, mkReader true (rb r) (rpos r))
  else (true, r).

Definition advance (r : reader) (n : nat) : reader := mkReader (rerr r) (rb r) (rpos r + n).

(** [r.bytes(n)]; [r.str] and the integer readers decode the same slice. *)
Definition r_bytes (r : reader) (n : nat) : list ascii * reader :=
  let '(ok, r) := need r n in
  if ok then (slice (rb r) (rpos r) n, advance r n) else ([], r).

Definition r_str (r : reader) (n : nat) : string * reader :=
  let '(ok, r) := need r n in
  if ok then (string_of (slice (rb r) (rpos r) n), advance r n) else (""%string, r).

Definition r_uint (n : nat) (r : reader) : Z * reader :=
  let '(ok, r) := need r n in
  if ok then (le_val (slice (rb r) (rpos r) n), advance r n) else (0, r).

Definition r_byte := r_uint 1.
Definition r_u16 := r_uint 2.
Definition r_u32 := r_uint 4.
Definition r_u64 := r_uint 8.

(** The entry decoded from the front of [data] (its origin not yet interned), the
    origin name and the number of bytes consumed. *)
Definition DecodeDelta (data : list ascii) : result wire_error (Entry * string * nat) :=
  let r := mkReader false data 0 in
  let '(op, r) := r_byte r in
  let '(keyLen, r) := r_u16 r in
  let '(key, r) := r_str r (Z.to_nat keyLen) in
  let '(originLen, r) := r_byte r in
  let '(origin, r) := r_str r (Z.to_nat originLen) in
  let '(counter, r) := r_u64 r in
  let '(wall, r) := r_u64 r in
  let '(valueLen, r) := r_u32 r in
  let '(value, r) := r_bytes r (Z.to_nat valueLen) in
  if rerr r then Err ErrTruncated else
  let deleted := bool_decide (op = OpTombstone) in
  Ok (mkEntry key (if deleted then [] else value) counter (i64 wall) 0 deleted, origin, rpos r).

(** [DecodeFrame]: decode to the end of the buffer or to the first error, keeping
    what was parsed. The fuel is the number of bytes, since every delta consumes
    at least one. *)
Fixpoint decode_frame (fuel : nat) (data : list ascii)
    : list (Entry * string) * option wire_error :=
  match data, fuel with
  | [], _ => ([], None)
  | _, O => ([], None)
  | _, S fuel =>
      match DecodeDelta data with
      | Err e => ([], Some e)
      | Ok (e, origin, n) =>
          let '(es, err) := decode_frame fuel (drop n data) in ((e, origin) :: es, err)
      end
  end.

Definition DecodeFrame (data : list ascii) : list (Entry * string) * option wire_error :=
  decode_frame (length data) data.

(** ** Broadcast queue *)

Record BroadcastQueue := mkQueue {
  originNodeStr : string;
  pending : list Entry;
  qcap : Z;
  dropped : Z
}.

Definition NewBroadcastQueue (origin : string) (capacity : Z) : BroadcastQueue :=
  mkQueue origin [] (if bool_decide (capacity ≤ 0) then 4096 else capacity) 0.

Definition Push (q : BroadcastQueue) (e : Entry) : bool * BroadcastQueue :=
  if bool_decide (qcap q ≤ Z.of_nat (length (pending q)))
  then (false, mkQueue (originNodeStr q) (pending q) (qcap q) (u64 (dropped q + 1)))
  else (true, mkQueue (originNodeStr q) (pending q ++ [e]) (qcap q) (dropped q)).

Definition Dropped (q : BroadcastQueue) : Z := dropped q.
Definition Depth (q : BroadcastQueue) : Z := Z.of_nat (length (pending q)).

Section drain.
Context (headerOverhead byteBudget perFrameLimit : Z).

(** The packing loop over the pending entries; a [break] returns the variables. *)
Fixpoint drain_loop (origin : string) (i : nat) (es : list Entry) (d : drain) : drain :=
  match es with
  | [] => d
  | e :: es =>
      let cap := activeFrameCap headerOverhead byteBudget perFrameLimit d in
      if bool_decide (cap ≤ 0) then d else
      match EncodeDelta [] e origin with
      | Err _ => drain_loop origin (S i) es (skip d i)
      | Ok buf =>
          if bool_decide (perFrameLimit < blen buf) then drain_loop origin (S i) es (skip d i)
          else if bool_decide (cap < blen (frame d) + blen buf) then
            let '(ok, d) := flushFrame headerOverhead byteBudget d in
            if negb ok then d else
            let cap := activeFrameCap headerOverhead byteBudget perFrameLimit d in
            if bool_decide (cap ≤ 0) || bool_decide (cap < blen buf) then d
            else drain_loop origin (S i) es (append_frame d buf i)
          else drain_loop origin (S i) es (append_frame d buf i)
      end
  end.
End drain.

Definition Drain (q : BroadcastQueue) (headerOverhead byteBudget : Z)
    : list (list ascii) * BroadcastQueue :=
  if bool_decide (pending q = []) then ([], q) else
  let perFrameLimit := MaxFrameBytes - headerOverhead in
  let perFrameLimit := if bool_decide (perFrameLimit < 64) then 64 else perFrameLimit in
  let byteBudget := if bool_decide (byteBudget ≤ 0) then MaxFrameBytes else byteBudget in
  let d := drain_loop headerOverhead byteBudget perFrameLimit (originNodeStr q) 0 (pending q)
             drain0 in
  let d := (flushFrame headerOverhead byteBudget d).2 in
  if bool_decide (commitIdx d = []) && bool_decide (skipIdx d = []) then (frames d, q) else
  (frames d, mkQueue (originNodeStr q) (keep_except (commitIdx d ++ skipIdx d) (pending q))
               (qcap q) (dropped q)).

(** ** Digest *)

Definition digestVersion : Z := 1.
Definition DigestSize : nat := 1 + 2 + ShardCount * (2 + 8).

Inductive digest_error :=
| ErrHeaderTruncated
| ErrVersion (v : Z)
| ErrShardCount (n : Z)
| ErrBodyTruncated
| ErrShardRange (id : Z).

(** A digest is the array of shard hashes; [MakeDigest] reads them in order. *)
Definition MakeDigest `{XXHash} (s : State) : list Z :=
  map (λ i, ShardHash s (Z.of_nat i)) (seq 0 ShardCount).

Definition EncodeDigest (hashes : list Z) : list ascii :=
  [byte_of digestVersion] ++ le_bytes 2 (u16 (Z.of_nat ShardCount))
    ++ concat (imap (λ i h, le_bytes 2 (u16 (Z.of_nat i)) ++ le_bytes 8 h) hashes).

Fixpoint decode_shards (n : nat) (data : list ascii) (off : nat) (hashes : list Z)
    : result digest_error (list Z) :=
  match n with
  | O => Ok hashes
  | S n =>
      let shardID := le_val (slice data off 2) in
      let hash := le_val (slice data (off + 2) 8) in
      if bool_decide (Z.of_nat ShardCount ≤ shardID) then Err (ErrShardRange shardID)
      else decode_shards n data (off + 10) (<[Z.to_nat shardID := hash]> hashes)
  end.

Definition DecodeDigest (data : list ascii) : result digest_error (list Z) :=
  if bool_decide (length data < 3)%nat then Err ErrHeaderTruncated else
  let version := le_val (slice data 0 1) in
  if bool_decide (version ≠ digestVersion) then Err (ErrVersion version) else
  let count := le_val (slice data 1 2) in
  if bool_decide (count ≠ Z.of_nat ShardCount) then Err (ErrShardCount count) else
  if bool_decide (length data < DigestSize)%nat then Err ErrBodyTruncated else
  decode_shards ShardCount data 3 (replicate ShardCount 0).

Definition Diff (d remote : list Z) : list Z :=
  map Z.of_nat (filter (λ i, d !! i ≠ remote !! i) (seq 0 ShardCount)).

(** ** The reader on a buffer that holds what is asked of it *)

Definition at_rest (r : reader) (rest : list ascii) : Prop :=
  rerr r = false ∧ (rpos r ≤ length (rb r))%nat ∧ drop (rpos r) (rb r) = rest.

Lemma need_at r x post n :
  at_rest r (x ++ post) → n = length x → need r n = (true, r).
Proof.
  intros (He & Hp & Hd) ->. unfold need. rewrite He.
  apply (f_equal length) in Hd. rewrite length_drop, length_app in Hd. by_bool.
Qed.

Lemma advance_at r x post n :
  at_rest r (x ++ post) → n = length x → at_rest (advance r n) post.
Proof.
  intros (He & Hp & Hd) ->. split_and!; simpl; [done| |].
  - apply (f_equal length) in Hd. rewrite length_drop, length_app in Hd. lia.
  - by rewrite <- drop_drop, Hd, drop_app_length.
Qed.

Lemma slice_at r x post n :
  at_rest r (x ++ post) → n = length x → slice (rb r) (rpos r) n = x.
Proof. intros (_ & _ & Hd) ->. unfold slice. by rewrite Hd, take_app_length. Qed.

Lemma r_bytes_at r x post n :
  at_rest r (x ++ post) → n = length x → r_bytes r n = (x, advance r n).
Proof.
  intros Ha Hn. unfold r_bytes. rewrite (need_at _ _ _ _ Ha Hn). by rewrite (slice_at _ _ _ _ Ha Hn).
Qed.

Lemma r_str_at r x post n :
  at_rest r (bytes_of x ++ post) → n = length (bytes_of x) → r_str r n = (x, advance r n).
Proof.
  intros Ha Hn. unfold r_str. rewrite (need_at _ _ _ _ Ha Hn), (slice_at _ _ _ _ Ha Hn).
  by rewrite string_of_bytes_of.
Qed.

Lemma r_uint_at r v post n :
  at_rest r (le_bytes n v ++ post) →
  r_uint n r = (v mod 2 ^ (8 * Z.of_nat n), advance r n).
Proof.
  intros Ha. pose proof (length_le_bytes n v) as Hn. unfold r_uint.
  rewrite (need_at _ _ _ _ Ha (eq_sym Hn)), (slice_at _ _ _ _ Ha (eq_sym Hn)).
  by rewrite le_val_bytes.
Qed.

(** The body of a delta that encodes without error. *)
Definition delta_bytes (e : Entry) (o : string) : list ascii :=
  le_bytes 1 (if Deleted e then OpTombstone else OpPut) ++ le_bytes 2 (blen (bytes_of (Key e)))
  ++ bytes_of (Key e) ++ le_bytes 1 (blen (bytes_of o)) ++ bytes_of o
  ++ le_bytes 8 (Counter e) ++ le_bytes 8 (u64 (Wall e))
  ++ le_bytes 4 (if Deleted e then 0 else blen (Value e)) ++ (if Deleted e then [] else Value e).

Lemma length_delta_bytes e o :
  length (delta_bytes e o) =
  (24 + length (bytes_of (Key e)) + length (bytes_of o)
   + length (if Deleted e then [] else Value e))%nat.
Proof. unfold delta_bytes. rewrite !length_app, !length_le_bytes. lia. Qed.

Definition encodable (e : Entry) (o : string) : Prop :=
  blen (bytes_of (Key e)) ≤ 65535 ∧ blen (bytes_of o) ≤ 255 ∧ blen (Value e) ≤ 4294967295.

Lemma EncodeDelta_ok buf e o out :
  EncodeDelta buf e o = Ok out ↔ encodable e o ∧ out = buf ++ delta_bytes e o.
Proof.
  unfold EncodeDelta, encodable.
  assert (Hb : ∀ z, [byte_of z] = le_bytes 1 z) by done.
  case_bool; try (split; [done|lia]).
  rewrite !Hb, u16_small, u32_small by (unfold blen in *; lia). unfold delta_bytes.
  split.
  - intros ?; simplify_eq. split; [lia|]. destruct (Deleted e); by rewrite ?app_nil_r, <- !app_assoc.
  - intros [_ ->]. f_equal. destruct (Deleted e); by rewrite ?app_nil_r, <- !app_assoc.
Qed.

(** The entry a receiver decodes: the origin is not interned yet and a tombstone
    carries no value. *)
Definition delivered (e : Entry) : Entry :=
  mkEntry (Key e) (if Deleted e then [] else Value e) (Counter e) (Wall e) 0 (Deleted e).

(** Read an integer field off the front of the buffer. *)
Ltac read_field :=
  match goal with
  | Ha : at_rest ?r (le_bytes ?n ?v ++ ?post) |- _ =>
      rewrite (r_uint_at _ _ _ _ Ha);
      apply (λ H, advance_at _ _ _ _ H (eq_sym (length_le_bytes n v))) in Ha
  end.

Lemma DecodeDelta_bytes e o rest :
  encodable e o → is_u64 (Counter e) → is_i64 (Wall e) →
  DecodeDelta (delta_bytes e o ++ rest) = Ok (delivered e, o, length (delta_bytes e o)).
Proof.
  intros (Hk & Ho & Hv) Hc Hw. unfold DecodeDelta.
  set (data := delta_bytes e o ++ rest).
  assert (Ha : at_rest (mkReader false data 0) (delta_bytes e o ++ rest))
    by (split_and!; [done|simpl; lia|done]).
  unfold delta_bytes in Ha. rewrite <- !app_assoc in Ha.
  unfold r_byte, r_u16, r_u32, r_u64.
  read_field. read_field.
  change (2 ^ (8 * Z.of_nat 2)) with 65536.
  rewrite (Z.mod_small (blen (bytes_of (Key e)))) by (unfold blen in *; lia).
  rewrite (r_str_at _ _ _ _ Ha) by (unfold blen; lia).
  apply (λ H, advance_at _ _ _ (Z.to_nat (blen (bytes_of (Key e)))) H (Nat2Z.id _)) in Ha.
  read_field.
  change (2 ^ (8 * Z.of_nat 1)) with 256.
  rewrite (Z.mod_small (blen (bytes_of o))) by (unfold blen in *; lia).
  rewrite (r_str_at _ _ _ _ Ha) by (unfold blen; lia).
  apply (λ H, advance_at _ _ _ (Z.to_nat (blen (bytes_of o))) H (Nat2Z.id _)) in Ha.
  read_field. read_field. read_field.
  set (vl := if Deleted e then 0 else blen (Value e)) in *.
  change (2 ^ (8 * Z.of_nat 4)) with 4294967296.
  rewrite (Z.mod_small vl) by (unfold vl, blen in *; destruct (Deleted e); lia).
  assert (Hvl : Z.to_nat vl = length (if Deleted e then [] else Value e))
    by (unfold vl, blen; destruct (Deleted e); simpl; lia).
  rewrite (r_bytes_at _ _ _ _ Ha Hvl).
  apply (advance_at _ _ _ _ Ha) in Hvl as (-> & _ & _). simpl.
  change (Counter e mod 2 ^ (8 * Z.of_nat 8)) with (u64 (Counter e)). rewrite u64_small by done.
  change (u64 (Wall e) mod 2 ^ (8 * Z.of_nat 8)) with (u64 (u64 (Wall e))).
  rewrite (u64_small (u64 _)), i64_u64 by (done || apply u64_range).
  match goal with |- Ok (?a, _, ?p) = _ =>
    replace p with (length (delta_bytes e o)); [replace a with (delivered e); [done|]|] end.
  - unfold delivered. by destruct (Deleted e).
  - rewrite length_delta_bytes. unfold vl, blen. destruct (Deleted e); simpl; lia.
Qed.

(** ** A successful decode consumes a whole delta *)

Definition step_reader (r : reader) (n : nat) : reader :=
  let '(ok, r) := need r n in if ok then advance r n else r.

Lemma r_uint_step n r : (r_uint n r).2 = step_reader r n.
Proof. unfold r_uint, step_reader. destruct (need r n) as [[] ?]; done. Qed.
Lemma r_str_step n r : (r_str r n).2 = step_reader r n.
Proof. unfold r_str, step_reader. destruct (need r n) as [[] ?]; done. Qed.
Lemma r_bytes_step n r : (r_bytes r n).2 = step_reader r n.
Proof. unfold r_bytes, step_reader. destruct (need r n) as [[] ?]; done. Qed.

Lemma step_reader_ok r n :
  rerr (step_reader r n) = false →
  rerr r = false ∧ rb (step_reader r n) = rb r ∧ rpos (step_reader r n) = (rpos r + n)%nat ∧
  (rpos r + n ≤ length (rb r))%nat.
Proof.
  unfold step_reader, need. destruct (rerr r) eqn:E; simpl; [congruence|].
  case_bool; simpl; intros; [done|]. split_and!; try done. lia.
Qed.

Lemma DecodeDelta_len data e o n :
  DecodeDelta data = Ok (e, o, n) → (24 ≤ n ≤ length data)%nat.
Proof.
  unfold DecodeDelta, r_byte, r_u16, r_u32, r_u64.
  repeat match goal with
  | |- context [let '(_, _) := ?f in _] =>
      let v := fresh "v" in let r := fresh "r" in let E := fresh "E" in
      destruct f as [v r] eqn:E; apply (f_equal snd) in E;
      rewrite ?r_uint_step, ?r_str_step, ?r_bytes_step in E; cbn [snd] in E
  end.
  destruct (rerr _) eqn:Er; intros ?; simplify_eq.
  repeat match goal with
  | H : rerr (step_reader _ _) = false |- _ => apply step_reader_ok in H as (? & ? & ? & ?)
  end.
  repeat match goal with H : rb _ = rb _ |- _ => rewrite H in * end.
  repeat match goal with H : rpos _ = _ |- _ => rewrite H in * end. simpl in *. lia.
Qed.

(** More fuel than bytes never changes the result of a frame decode. *)
Lemma decode_frame_fuel f1 f2 data :
  (length data ≤ f1)%nat → (length data ≤ f2)%nat → decode_frame f1 data = decode_frame f2 data.
Proof.
  revert f2 data. induction f1 as [|f1 IH]; intros f2 [|b data] H1 H2; simpl in *;
    try (by destruct f2); try lia.
  destruct f2 as [|f2]; [lia|]. simpl.
  destruct (DecodeDelta (b :: data)) as [[[e o] n]|] eqn:E; [|done].
  apply DecodeDelta_len in E. rewrite (IH f2); [done| |]; rewrite length_drop; simpl in *; lia.
Qed.

Definition wire_ok (p : Entry * string) : Prop :=
  encodable p.1 p.2 ∧ is_u64 (Counter p.1) ∧ is_i64 (Wall p.1).

Definition frame_bytes (ps : list (Entry * string)) : list ascii :=
  concat (map (λ p, delta_bytes p.1 p.2) ps).

Lemma DecodeFrame_bytes ps :
  Forall wire_ok ps →
  DecodeFrame (frame_bytes ps) = (map (λ p, (delivered p.1, p.2)) ps, None).
Proof.
  unfold DecodeFrame. intros Hps. induction Hps as [|[e o] ps (He & Hc & Hw) Hps IH]; [done|].
  unfold frame_bytes in *. cbn [map concat fst snd] in *.
  pose proof (length_delta_bytes e o) as Hl.
  rewrite (decode_frame_fuel _ (S (length (concat (map (λ p, delta_bytes p.1 p.2) ps))
    + length (delta_bytes e o)))) by (rewrite ?length_app; lia).
  cbn [decode_frame]. rewrite (DecodeDelta_bytes e o) by done.
  destruct (delta_bytes e o) as [|b bs] eqn:Eb; [simpl in Hl; lia|].
  cbn [app]. rewrite app_comm_cons, drop_app_length, <- Eb.
  rewrite (decode_frame_fuel _ (length (concat (map (λ p, delta_bytes p.1 p.2) ps)))) by lia.
  by rewrite IH.
Qed.

(** The wire round trip: a frame holding any sequence of encodable deltas is
    decoded to exactly those entries and origins, in order and without error (a
    tombstone arrives without its value; the origin arrives as a name). *)
Theorem DecodeFrame_roundtrip ps bufs :
  Forall2 (λ p buf, EncodeDelta [] p.1 p.2 = Ok buf) ps bufs →
  Forall (λ p, is_u64 (Counter p.1) ∧ is_i64 (Wall p.1)) ps →
  DecodeFrame (concat bufs) = (map (λ p, (delivered p.1, p.2)) ps, None).
Proof.
  intros Hb Hr.
  enough (Forall wire_ok ps ∧ concat bufs = frame_bytes ps) as [H1 ->] by (by apply DecodeFrame_bytes).
  induction Hb as [|[e o] buf ps bufs He Hb IH]; [done|].
  apply Forall_cons in Hr as [[Hc Hw] Hr]. destruct (IH Hr) as [H1 H2].
  apply EncodeDelta_ok in He as [He ->]. split; [by constructor|].
  unfold frame_bytes in *. simpl. by rewrite H2.
Qed.

Lemma DecodeFrame_roundtrip_witness :
  let e := mkEntry "k" (bytes_of "v") 3 17 0 false in
  let t := mkEntry "k2" [] 4 (-5) 0 true in
  DecodeFrame (delta_bytes e "n1" ++ delta_bytes t "n2")
  = ([(delivered e, "n1"%string); (delivered t, "n2"%string)], None).
Proof.
  intros e t.
  pose proof (DecodeFrame_roundtrip [(e, "n1"%string); (t, "n2"%string)]
    [delta_bytes e "n1"; delta_bytes t "n2"]) as Hrt.
  cbn [concat] in Hrt. rewrite app_nil_r in Hrt. apply Hrt.
  - repeat constructor; apply EncodeDelta_ok; vm_compute; intuition congruence.
  - repeat constructor; vm_compute; intuition congruence.
Defined.

(** ** Draining the broadcast queue *)

(** The encoder as the packing lemmas see it. *)
Definition enc_entry (origin : string) (e : Entry) : option (list ascii) :=
  match EncodeDelta [] e origin with Ok buf => Some buf | Err _ => None end.

Lemma enc_entry_nonempty origin e buf : enc_entry origin e = Some buf → buf ≠ [].
Proof.
  unfold enc_entry. destruct (EncodeDelta [] e origin) as [b|] eqn:Hb; [|done]. intros [= ->] Hz.
  apply EncodeDelta_ok in Hb as [_ Hb]. rewrite Hb in Hz. apply (f_equal length) in Hz.
  rewrite length_app, length_delta_bytes in Hz. simpl in Hz. lia.
Qed.

Section drain_proofs.
Context (h B L : Z) (origin : string) (es0 : list Entry).
Local Notation inv := (drain_inv h B L (enc_entry origin) es0).

(** The pending entries that can travel in a frame of this size. *)
Definition fits (e : Entry) : bool :=
  match EncodeDelta [] e origin with Ok buf => bool_decide (blen buf ≤ L) | Err _ => false end.

Lemma fits_packable e : packable L (enc_entry origin) e = fits e.
Proof. unfold packable, fits, enc_entry. by destruct (EncodeDelta [] e origin). Qed.

Lemma packed_bytes es :
  packed L (enc_entry origin) es = frame_bytes (map (λ e, (e, origin)) (filter (λ e, fits e = true) es)).
Proof.
  unfold packed. induction es as [|e es IH]; [done|]. rewrite !filter_cons, fits_packable.
  destruct (fits e) eqn:Ef; [rewrite !decide_True by done|by rewrite !decide_False by done].
  unfold frame_bytes in *. cbn. unfold enc_entry at 1. unfold fits in Ef.
  destruct (EncodeDelta [] e origin) as [buf|] eqn:Eb; [|done]. cbn. rewrite IH. f_equal.
  by apply EncodeDelta_ok in Eb as [_ ->].
Qed.

Lemma drain_loop_inv es n d :
  drop n es0 = es → inv n d →
  ∃ m, (n ≤ m)%nat ∧ inv m (drain_loop h B L origin n es d).
Proof.
  revert n d. induction es as [|e es IH]; intros n d Hes Hd; [by exists n|].
  assert (Hn : es0 !! n = Some e) by (by rewrite <- (Nat.add_0_r n), <- lookup_drop, Hes).
  assert (Hes' : drop (S n) es0 = es)
    by (rewrite <- Nat.add_1_r, <- drop_drop, Hes; done).
  assert (Hnext : ∀ d', inv (S n) d' →
     ∃ m, (n ≤ m)%nat ∧ inv m (drain_loop h B L origin (S n) es d')).
  { intros d' Hd'. destruct (IH (S n) d' Hes' Hd') as (m & Hm & ?). exists m. split; [lia|done]. }
  pose proof (fits_packable e) as Hfp. unfold fits in Hfp.
  pose proof (append_inv h B L (enc_entry origin) es0 (enc_entry_nonempty origin) n) as Happ.
  cbn [drain_loop]. destruct (bool_decide_reflect (activeFrameCap h B L d ≤ 0)); [by exists n|].
  pose proof (cap_bounds h B L d ltac:(lia)) as [Hc1 Hc2].
  destruct (EncodeDelta [] e origin) as [buf|] eqn:Eb; [|by apply Hnext; eapply skip_inv].
  assert (He : enc_entry origin e = Some buf) by (unfold enc_entry; by rewrite Eb).
  destruct (bool_decide_reflect (L < blen buf));
    [apply Hnext; eapply skip_inv; [done..|rewrite Hfp; by_bool]|].
  rewrite bool_decide_eq_true_2 in Hfp by lia.
  destruct (bool_decide_reflect (activeFrameCap h B L d < blen (frame d) + blen buf));
    [|apply Hnext; eapply Happ; eauto; lia].
  pose proof (flush_inv h B L (enc_entry origin) es0 n d Hd) as (Hi & Ho & Hfr).
  destruct (flushFrame h B d) as [ok d'] eqn:Ef. simpl in *. rewrite Ho. cbn [negb].
  destruct (bool_decide_reflect (activeFrameCap h B L d' ≤ 0)); [by exists n|]. simpl.
  pose proof (cap_bounds h B L d' ltac:(lia)) as [Hc3 Hc4].
  destruct (bool_decide_reflect (activeFrameCap h B L d' < blen buf)); [by exists n|].
  apply Hnext. eapply Happ; eauto; rewrite Hfr; unfold blen in *; simpl; lia.
Qed.

(** The first entry is committed or skipped whenever the budget admits it. *)
Definition admits (e : Entry) : Prop :=
  if fits e then blen (delta_bytes e origin) + h ≤ B else h < B.

Lemma drain_first e es :
  0 < L → es0 = e :: es → admits e →
  ∃ d, inv 1 d ∧ drain_loop h B L origin 0 es0 drain0 = drain_loop h B L origin 1 es d.
Proof.
  intros HL Hp Hfit. pose proof (drain_inv_init h B L (enc_entry origin) es0) as Hi.
  pose proof (fits_packable e) as Hfp. unfold admits, fits in *.
  assert (Hn : es0 !! 0%nat = Some e) by (by rewrite Hp).
  assert (Hcap : activeFrameCap h B L drain0 = Z.min L (B - h) ∧ 0 < B - h).
  { assert (h < B) by (pose proof (length_delta_bytes e origin); unfold blen in Hfit;
      repeat case_match; lia).
    unfold activeFrameCap. simpl. case_bool; lia. }
  destruct Hcap as [Hcap Hpos]. 
  replace (drain_loop h B L origin 0 es0 drain0) with (drain_loop h B L origin 0 (e :: es) drain0) by (by rewrite Hp).
  cbn [drain_loop].
  rewrite (bool_decide_eq_false_2 (_ ≤ 0)) by lia.
  destruct (EncodeDelta [] e origin) as [buf|] eqn:Eb.
  2:{ eexists. split; [|done]. by eapply skip_inv. }
  assert (He : enc_entry origin e = Some buf) by (unfold enc_entry; by rewrite Eb).
  pose proof Eb as [_ Hbuf]%EncodeDelta_ok. simpl in Hbuf. rewrite <- Hbuf in Hfit.
  destruct (bool_decide_reflect (blen buf ≤ L)) as [Hle|Hle].
  - rewrite (bool_decide_eq_false_2 (L < blen buf)) by lia.
    rewrite bool_decide_eq_false_2 by (simpl; unfold blen in *; simpl; lia).
    eexists. split; [|done].
    eapply (append_inv h B L (enc_entry origin) es0 (enc_entry_nonempty origin) 0); eauto;
      simpl; unfold blen in *; simpl; lia.
  - rewrite (bool_decide_eq_true_2 (L < blen buf)) by lia. eexists. split; [|done]. by eapply skip_inv.
Qed.

Lemma drain_run :
  0 < L → ∃ n, inv n (drain_loop h B L origin 0 es0 drain0) ∧
    (∀ e es, es0 = e :: es → admits e → (1 ≤ n)%nat).
Proof.
  intros HL. destruct (drain_loop_inv es0 0 drain0) as (n & _ & Hn); [by rewrite drop_0|apply drain_inv_init|].
  exists n. split; [done|]. intros e es Hes Ha.
  destruct (drain_first e es HL Hes Ha) as (d & Hd & Heq). rewrite Heq in Hn.
  destruct (drain_loop_inv es 1 d) as (m & Hm & Hm'); [by rewrite Hes|done|].
  by rewrite (drain_inv_unique _ _ _ _ _ _ _ _ Hn Hm').
Qed.
End drain_proofs.

Definition frame_limit (h : Z) : Z := if bool_decide (MaxFrameBytes - h < 64) then 64 else MaxFrameBytes - h.
Definition budget (b : Z) : Z := if bool_decide (b ≤ 0) then MaxFrameBytes else b.

(** Draining the broadcast queue: some prefix of the pending entries leaves the
    queue and the rest stays in order; the emitted frames are non-empty, respect
    the per-frame limit and together (with their headers) the byte budget; their
    bytes are exactly the encodings, under the queue's origin, of the entries of
    that prefix that fit a frame; and the prefix is not empty whenever the first
    entry is admissible, so a small budget cannot stall the queue. *)
Theorem Drain_spec q h b :
  pending q ≠ [] →
  ∃ n, (Drain q h b).2 = mkQueue (originNodeStr q) (drop n (pending q)) (qcap q) (dropped q) ∧
    Forall (λ f, f ≠ [] ∧ blen f ≤ frame_limit h) (Drain q h b).1 ∧
    zsum (λ f, blen f + h) (Drain q h b).1 ≤ budget b ∧
    concat (Drain q h b).1 =
      frame_bytes (map (λ e, (e, originNodeStr q))
        (filter (λ e, fits (frame_limit h) (originNodeStr q) e = true) (take n (pending q)))) ∧
    (∀ e es, pending q = e :: es →
       admits h (budget b) (frame_limit h) (originNodeStr q) e → (1 ≤ n)%nat).
Proof.
  intros Hne. unfold Drain. rewrite (bool_decide_eq_false_2 (pending q = [])) by done.
  fold (frame_limit h). fold (budget b).
  assert (HL : 0 < frame_limit h) by (unfold frame_limit, MaxFrameBytes; case_bool; lia).
  assert (HB : 0 < budget b) by (unfold budget, MaxFrameBytes; case_bool; lia). cbn zeta.
  destruct (drain_run h (budget b) (frame_limit h) (originNodeStr q) (pending q) HL) as (n & Hn & Hp).
  pose proof (drain_end _ _ _ _ _ n _ Hn) as (E1 & E2 & E3 & E4 & E5). rewrite packed_bytes in E5. unfold emitted in E4.
  set (d := (flushFrame h (budget b) _).2) in *.
  exists n. destruct (_ && _) eqn:Ez; cbn [fst snd].
  - apply andb_true_iff in Ez as [H1%bool_decide_eq_true_1 H2%bool_decide_eq_true_1].
    rewrite (E2 H1 H2) in *. split_and!; [by destruct q|done|lia|done|done].
  - split_and!; [by rewrite E1|done|lia|done|done].
Qed.

Lemma Drain_spec_witness :
  let e := mkEntry "k" (bytes_of "v") 1 10 0 false in
  let q := mkQueue "n1" [e; e] 10 0 in
  pending q ≠ [] ∧
  ∃ n, (Drain q 3 100).2 = mkQueue "n1" (drop n [e; e]) 10 0 ∧ (1 ≤ n)%nat.
Proof.
  intros e q. split; [done|].
  destruct (Drain_spec q 3 100 ltac:(done)) as (n & Hq & _ & _ & _ & Hpos).
  exists n. split; [exact Hq|]. apply (Hpos e [e] eq_refl). by vm_compute.
Defined.

(** ** Digest *)

Definition digest_body (k : nat) (hs : list Z) : list ascii :=
  concat (imap (λ i h, le_bytes 2 (u16 (Z.of_nat (k + i))) ++ le_bytes 8 h) hs).

Lemma digest_body_cons k h hs :
  digest_body k (h :: hs) = le_bytes 2 (u16 (Z.of_nat k)) ++ le_bytes 8 h ++ digest_body (S k) hs.
Proof.
  unfold digest_body. cbn [imap concat]. rewrite Nat.add_0_r, <- app_assoc. do 3 f_equal.
  apply imap_ext. intros i x _. simpl. by rewrite Nat.add_succ_r.
Qed.

Lemma length_digest_body k hs : length (digest_body k hs) = (10 * length hs)%nat.
Proof.
  revert k. induction hs as [|h hs IH]; intros k; [done|].
  rewrite digest_body_cons, !length_app, !length_le_bytes, IH. simpl. lia.
Qed.

Lemma decode_shards_body hs k pre acc :
  (k + length hs ≤ ShardCount)%nat → length acc = ShardCount → Forall is_u64 hs →
  decode_shards (length hs) (pre ++ digest_body k hs) (length pre) acc =
  Ok (take k acc ++ hs ++ drop (k + length hs) acc).
Proof.
  revert k pre acc. induction hs as [|h hs IH]; intros k pre acc Hk Hl Hu; cbn [decode_shards length].
  { rewrite Nat.add_0_r. simpl. by rewrite take_drop. }
  apply Forall_cons in Hu as [Hh Hu]. simpl in Hk. rewrite digest_body_cons.
  set (b2 := le_bytes 2 (u16 (Z.of_nat k))). set (b8 := le_bytes 8 h).
  assert (H2 : length b2 = 2%nat) by apply length_le_bytes.
  assert (H8 : length b8 = 8%nat) by apply length_le_bytes.
  assert (Hs1 : slice (pre ++ b2 ++ b8 ++ digest_body (S k) hs) (length pre) 2 = b2)
    by (rewrite <- H2; by apply slice_skip).
  assert (Hs2 : slice (pre ++ b2 ++ b8 ++ digest_body (S k) hs) (length pre + 2) 8 = b8).
  { rewrite <- H8, (app_assoc pre). apply slice_skip. by rewrite length_app, H2. }
  unfold ShardCount in *.
  assert (Hv2 : le_val b2 = Z.of_nat k)
    by (unfold b2; rewrite le_val_bytes; change (2 ^ (8 * Z.of_nat 2)) with 65536;
        rewrite u16_small, Z.mod_small; lia).
  assert (Hv8 : le_val b8 = h) by (unfold b8; rewrite le_val_bytes; by apply Z.mod_small).
  rewrite Hs1, Hs2, Hv2, Hv8.
  rewrite bool_decide_eq_false_2 by lia. rewrite Nat2Z.id.
  assert (Hp : length (pre ++ b2 ++ b8) = (length pre + 10)%nat) by (rewrite !length_app; lia).
  rewrite <- Hp, !app_assoc, <- (app_assoc pre), (IH (S k)) by (rewrite ?length_insert; done || lia).
  f_equal. rewrite (take_S_r _ _ h) by (apply list_lookup_insert_eq; lia).
  rewrite take_insert_ge by lia. rewrite drop_insert_lt by lia.
  rewrite <- app_assoc. simpl. rewrite <- app_assoc. simpl. by rewrite Nat.add_succ_r.
Qed.

Lemma Diff_nil d1 d2 :
  length d1 = ShardCount → length d2 = ShardCount → Diff d1 d2 = [] ↔ d1 = d2.
Proof.
  intros H1 H2. unfold Diff. split; intros Hd.
  - apply list_eq. intros i. destruct (decide (i < ShardCount)%nat) as [Hi|Hi];
      [|by rewrite !lookup_ge_None_2 by lia].
    destruct (decide (d1 !! i = d2 !! i)) as [|Hne]; [done|]. exfalso.
    apply map_eq_nil in Hd.
    assert (Hin : i ∈ filter (λ i, d1 !! i ≠ d2 !! i) (seq 0 ShardCount))
      by (apply list_elem_of_filter; split; [done|]; apply elem_of_seq; lia).
    rewrite Hd in Hin. by apply elem_of_nil in Hin.
  - subst d2. replace (filter _ _) with (@nil nat); [done|]. symmetry.
    induction (seq 0 ShardCount) as [|i l IH]; [done|].
    by rewrite filter_cons_False by tauto.
Qed.

(** The digest frame round-trips: decoding an encoded digest of 64 64-bit
    hashes returns the same hashes, and [Diff] against the decoded digest is
    empty exactly when the two replicas' digests are equal. *)
Theorem Digest_roundtrip hs local :
  length hs = ShardCount → Forall is_u64 hs → length local = ShardCount →
  DecodeDigest (EncodeDigest hs) = Ok hs ∧ (Diff local hs = [] ↔ local = hs).
Proof.
  intros Hl Hu Hloc. split; [|by apply Diff_nil]. unfold DecodeDigest, EncodeDigest.
  set (pre := [byte_of digestVersion] ++ le_bytes 2 (u16 (Z.of_nat ShardCount))).
  change (concat (imap _ hs)) with (digest_body 0 hs).
  assert (Hlen : length (pre ++ digest_body 0 hs) = DigestSize)
    by (rewrite length_app, length_digest_body, Hl; done).
  rewrite (app_assoc _ (le_bytes 2 _)). fold pre. rewrite Hlen.
  change (slice (pre ++ digest_body 0 hs) 0 1) with [byte_of digestVersion].
  change (slice (pre ++ digest_body 0 hs) 1 2) with (le_bytes 2 (u16 (Z.of_nat ShardCount))).
  rewrite (bool_decide_eq_false_2 (DigestSize < 3)%nat) by (unfold DigestSize; lia).
  rewrite (bool_decide_eq_false_2 (DigestSize < DigestSize)%nat) by lia.
  rewrite !bool_decide_eq_false_2 by (intros Hx; by apply Hx).
  change 3%nat with (length pre). rewrite <- Hl.
  rewrite decode_shards_body by (rewrite ?Hl, ?length_replicate; done).
  f_equal. rewrite drop_ge by (rewrite length_replicate; lia). by rewrite app_nil_r.
Qed.

Lemma Digest_roundtrip_witness :
  DecodeDigest (EncodeDigest (replicate ShardCount 7)) = Ok (replicate ShardCount 7).
Proof.
  apply (Digest_roundtrip (replicate ShardCount 7) (replicate ShardCount 7));
    [done| |done]. apply Forall_replicate. by vm_compute.
Defined.
