(* ===== verification/CrdtEngine.v ===== *)
(** * The gossip key-value engine ([system/kv/crdt_engine.go], [system/kv/crdt_delegate.go])

    [CRDTEngine] wraps one replica ([Crdt.State]) with the broadcast queue, the
    watch feed, local leases, delete acknowledgements and the full-state
    exchange. Each exported operation is one transition on the record
    [CRDTEngine]; the clock readings it takes are arguments ([ms], milliseconds
    since the epoch), and the events it publishes are appended to [events] in
    publication order. The file read and written by the durable snapshot is an
    argument and a result. *)

From stdpp Require Import pretty.
From S2P Require Import Prelude Bytes Crdt CrdtWire.

Module Engine.

Definition wallScale : Z := 1000000.

Inductive WatchEventType := WatchPut | WatchDelete | WatchExpired.

(** [kvapi.Entry], as the CRDT backend fills it. *)
Record KVEntry := mkKV { kvKey : string; kvValue : list ascii; kvVersion : Z }.

Record WatchEvent := mkEvent {
  evType : WatchEventType; evPrevious : option KVEntry; evCurrent : option KVEntry
}.

Inductive error := ErrKeyNotFound | ErrLeaseNotFound | ErrUnsupported.

(** [tombstoneDot]: interned origin and counter. *)
Definition tombstoneDot : Type := Z * Z.

Record CRDTEngine := mkEngine {
  state : State;
  queue : BroadcastQueue;
  events : list WatchEvent;
  peerTombAck : gmap string (gset tombstoneDot);
  leaseKeys : gmap string (gset string);
  deadlines : gmap string Z; (* nanoseconds *)
  keyLease : gmap string string;
  localNode : string;
  dataDir : string;
  durableNS : gset string;
  tombstoneFloor : Z; (* nanoseconds *)
  leaseSeq : Z;
  tiebreak : Z
}.

Definition with_state (e : CRDTEngine) st : CRDTEngine :=
  mkEngine st (queue e) (events e) (peerTombAck e) (leaseKeys e) (deadlines e) (keyLease e)
    (localNode e) (dataDir e) (durableNS e) (tombstoneFloor e) (leaseSeq e) (tiebreak e).
Definition with_queue (e : CRDTEngine) q : CRDTEngine :=
  mkEngine (state e) q (events e) (peerTombAck e) (leaseKeys e) (deadlines e) (keyLease e)
    (localNode e) (dataDir e) (durableNS e) (tombstoneFloor e) (leaseSeq e) (tiebreak e).
Definition with_acks (e : CRDTEngine) a : CRDTEngine :=
  mkEngine (state e) (queue e) (events e) a (leaseKeys e) (deadlines e) (keyLease e)
    (localNode e) (dataDir e) (durableNS e) (tombstoneFloor e) (leaseSeq e) (tiebreak e).
Definition with_leases (e : CRDTEngine) lk dl kl : CRDTEngine :=
  mkEngine (state e) (queue e) (events e) (peerTombAck e) lk dl kl
    (localNode e) (dataDir e) (durableNS e) (tombstoneFloor e) (leaseSeq e) (tiebreak e).

Definition NewCRDTEngine (node : string) : CRDTEngine :=
  mkEngine (NewState node) (NewBroadcastQueue node 0) [] ∅ ∅ ∅ ∅ node "" ∅ 0 0
    (fnv32a (bytes_of node) mod wallScale).

Definition wall (e : CRDTEngine) (ms : Z) : Z := i64 (i64 (ms * wallScale) + tiebreak e).

Definition SetDurability (e : CRDTEngine) (dir : string) : CRDTEngine :=
  mkEngine (state e) (queue e) (events e) (peerTombAck e) (leaseKeys e) (deadlines e) (keyLease e)
    (localNode e) dir (durableNS e) (tombstoneFloor e) (leaseSeq e) (tiebreak e).

Definition SetTombstoneRetention (e : CRDTEngine) (retention : Z) : CRDTEngine :=
  mkEngine (state e) (queue e) (events e) (peerTombAck e) (leaseKeys e) (deadlines e) (keyLease e)
    (localNode e) (dataDir e) (durableNS e) retention (leaseSeq e) (tiebreak e).

Definition MarkDurable (e : CRDTEngine) (namespace : string) : CRDTEngine :=
  mkEngine (state e) (queue e) (events e) (peerTombAck e) (leaseKeys e) (deadlines e) (keyLease e)
    (localNode e) (dataDir e) ({[namespace]} ∪ durableNS e) (tombstoneFloor e) (leaseSeq e) (tiebreak e).

Definition isDurableKey (e : CRDTEngine) (key : string) : bool :=
  existsb (λ ns, String.prefix (ns +:+ ":") key) (elements (durableNS e)).

(** [e.queue.Push(en)]: the result is ignored. *)
Definition push (e : CRDTEngine) (en : Entry) : CRDTEngine := with_queue e (Push (queue e) en).2.

Definition emit (e : CRDTEngine) (typ : WatchEventType) (cur : KVEntry) : CRDTEngine :=
  let evt := match typ with
             | WatchPut => mkEvent typ None (Some cur)
             | WatchDelete | WatchExpired => mkEvent typ (Some cur) None
             end in
  mkEngine (state e) (queue e) (events e ++ [evt]) (peerTombAck e) (leaseKeys e) (deadlines e)
    (keyLease e) (localNode e) (dataDir e) (durableNS e) (tombstoneFloor e) (leaseSeq e) (tiebreak e).

Section engine.
Context `{XXHash}.

(** ** Reads *)

Definition Get (e : CRDTEngine) (key : string) : result error KVEntry :=
  match LookupEntry (state e) key with
  | Some en => Ok (mkKV key (Value en) (Counter en))
  | None => Err ErrKeyNotFound
  end.

(** The entries passed to the caller's callback, in order: the callback of
    [Range] skips keys outside the prefix and otherwise answers as [fn] does. *)
Definition Scan (e : CRDTEngine) (prefix : string) (fn : KVEntry → bool) : list KVEntry :=
  let outside en := bool_decide (prefix ≠ "") && negb (String.prefix prefix (Key en)) in
  let kv en := mkKV (Key en) (Value en) (Counter en) in
  kv <$> filter (λ en, outside en = false)
    (Range (state e) prefix "" (λ en, if outside en then true else fn (kv en))).

(** ** Writes *)

Definition detachKey (e : CRDTEngine) (key : string) : CRDTEngine :=
  match keyLease e !! key with
  | Some id =>
      let lk := match leaseKeys e !! id with
                | Some keys => <[id := keys ∖ {[key]}]> (leaseKeys e)
                | None => leaseKeys e
                end in
      with_leases e lk (deadlines e) (delete key (keyLease e))
  | None => e
  end.

(** [en := e.state.Overwrite(...); e.queue.Push(en); e.emit(...)]. *)
Definition overwrite (e : CRDTEngine) (key : string) (value : list ascii) (ms : Z)
    : Z * CRDTEngine :=
  let '(en, st) := Overwrite (state e) key value (wall e ms) in
  let e := push (with_state e st) en in
  (Counter en, emit e WatchPut (mkKV key value (Counter en))).

Definition set (e : CRDTEngine) (key : string) (value : list ascii) (ms : Z) : Z * CRDTEngine :=
  overwrite e key value ms.

Definition Delete (e : CRDTEngine) (key : string) (ms : Z) : result error unit * CRDTEngine :=
  match Unregister (state e) key (wall e ms) with
  | (None, _) => (Err ErrKeyNotFound, e)
  | (Some en, st) =>
      let e := detachKey (push (with_state e st) en) key in
      (Ok tt, emit e WatchDelete (mkKV key [] 0))
  end.

Definition SetIfAbsent (e : CRDTEngine) (key : string) (value : list ascii) (ms : Z)
    : Z * bool * CRDTEngine :=
  match LookupEntry (state e) key with
  | Some cur => (Counter cur, false, e)
  | None => let '(v, e) := overwrite e key value ms in (v, true, e)
  end.

Definition CompareAndSwap (e : CRDTEngine) (key : string) (expect : Z) (value : list ascii) (ms : Z)
    : Z * bool * CRDTEngine :=
  let curVer := match LookupEntry (state e) key with Some cur => Counter cur | None => 0 end in
  if bool_decide (curVer ≠ expect) then (curVer, false, e) else
  let '(v, e) := overwrite e key value ms in (v, true, e).

Definition CompareAndDelete (e : CRDTEngine) (key : string) (expect : Z) (ms : Z)
    : bool * CRDTEngine :=
  match LookupEntry (state e) key with
  | None => (false, e)
  | Some cur =>
      if bool_decide (Counter cur ≠ expect) then (false, e) else
      match Unregister (state e) key (wall e ms) with
      | (None, _) => (false, e)
      | (Some en, st) =>
          let e := detachKey (push (with_state e st) en) key in
          (true, emit e WatchDelete (mkKV key [] 0))
      end
  end.

Definition Txn (e : CRDTEngine) : result error bool := Err ErrUnsupported.

(** ** Leases *)

(** [fmt.Sprintf("%s-clease-%d", node, seq)]. *)
Definition lease_id (node : string) (seq : Z) : string :=
  node +:+ "-clease-" +:+ pretty (Z.to_N seq).

Definition GrantLease (e : CRDTEngine) (ttl now : Z) : string * CRDTEngine :=
  let seq := u64 (leaseSeq e + 1) in
  let id := lease_id (NodeString (state e) (LocalNode (state e))) seq in
  (id, mkEngine (state e) (queue e) (events e) (peerTombAck e) (<[id := ∅]> (leaseKeys e))
         (<[id := now + ttl]> (deadlines e)) (keyLease e) (localNode e) (dataDir e) (durableNS e)
         (tombstoneFloor e) seq (tiebreak e)).

(** The [keepAlive] closure of the handle. *)
Definition KeepAlive (e : CRDTEngine) (id : string) (ttl now : Z) : result error unit * CRDTEngine :=
  match deadlines e !! id with
  | None => (Err ErrLeaseNotFound, e)
  | Some _ => (Ok tt, with_leases e (leaseKeys e) (<[id := now + ttl]> (deadlines e)) (keyLease e))
  end.

(** [keys[key] = struct{}{}; e.keyLease[key] = lease]. *)
Definition attach (e : CRDTEngine) (key lease : string) (keys : gset string) : CRDTEngine :=
  with_leases e (<[lease := {[key]} ∪ keys]> (leaseKeys e)) (deadlines e)
    (<[key := lease]> (keyLease e)).

Definition SetWithLease (e : CRDTEngine) (key : string) (value : list ascii) (lease : string) (ms : Z)
    : result error Z * CRDTEngine :=
  match leaseKeys e !! lease with
  | None => (Err ErrLeaseNotFound, e)
  | Some keys => let '(v, e) := overwrite (attach e key lease keys) key value ms in (Ok v, e)
  end.

Definition SetIfAbsentWithLease (e : CRDTEngine) (key : string) (value : list ascii) (lease : string)
    (ms : Z) : result error (Z * bool) * CRDTEngine :=
  match leaseKeys e !! lease with
  | None => (Err ErrLeaseNotFound, e)
  | Some keys =>
      match LookupEntry (state e) key with
      | Some cur => (Ok (Counter cur, false), e)
      | None => let '(v, e) := overwrite (attach e key lease keys) key value ms in (Ok (v, true), e)
      end
  end.

(** One iteration of [expireLease]'s delete loop; [clock i] is the reading the
    [i]-th call of [e.wall()] takes. *)
Definition expire_key (clock : nat → Z) (acc : nat * CRDTEngine) (k : string) : nat * CRDTEngine :=
  let '(i, e) := acc in
  (S i, match Unregister (state e) k (wall e (clock i)) with
        | (None, _) => e
        | (Some en, st) => emit (push (with_state e st) en) WatchExpired (mkKV k [] 0)
        end).

Definition expireLease (e : CRDTEngine) (id : string) (clock : nat → Z) : CRDTEngine :=
  let keys := elements (default ∅ (leaseKeys e !! id)) in
  let e := with_leases e (delete id (leaseKeys e)) (delete id (deadlines e))
             (foldl (λ m k, delete k m) (keyLease e) keys) in
  (foldl (expire_key clock) (0%nat, e) keys).2.

(** One tick of the lease reaper. *)
Definition reaper (e : CRDTEngine) (now : Z) (clock : nat → Z) : CRDTEngine :=
  let expired := (map_to_list (filter (λ p, p.2 ≤ now) (deadlines e))).*1 in
  foldl (λ e id, expireLease e id clock) e expired.

(** ** Tombstone collection *)

(** The predicate handed to the sweep: [nil] without a peer set, otherwise "every
    peer has acknowledged this dot". [alive] is the answer of [aliveFn], [None]
    when none is wired. *)
Definition tombstoneAckedByPeers (e : CRDTEngine) (alive : option (gset string))
    : option (Entry → bool) :=
  match alive with
  | None => None
  | Some alive =>
      if bool_decide (alive = ∅) then None else
      let peerAck := map (λ peer, default ∅ (peerTombAck e !! peer))
                       (filter (λ peer, peer ≠ localNode e) (elements alive)) in
      Some (λ ent, forallb (λ ack, bool_decide ((Node ent, Counter ent) ∈ ack)) peerAck)
  end.

Definition pruneTombstoneAcks (e : CRDTEngine) (reaped : list Entry) : CRDTEngine :=
  if bool_decide (reaped = []) then e else
  let dots : gset tombstoneDot := list_to_set (map (λ en, (Node en, Counter en)) reaped) in
  with_acks e (omap (λ ack, let ack := ack ∖ dots in if bool_decide (ack = ∅) then None else Some ack)
                 (peerTombAck e)).

(** [retention.Milliseconds()] truncates towards zero. *)
Definition gcTombstones (e : CRDTEngine) (alive : option (gset string)) (ms : Z)
    : Z * Z * CRDTEngine :=
  let nowScaled := i64 (ms * wallScale) in
  let floorScaled := i64 (Z.quot (tombstoneFloor e) 1000000 * wallScale) in
  let '(safe, floor, reaped, st) :=
    ReapTombstonesWhere (state e) (tombstoneAckedByPeers e alive) nowScaled floorScaled in
  (safe, floor, pruneTombstoneAcks (with_state e st) reaped).

(** ** Gossip *)

Definition DrainBroadcasts (e : CRDTEngine) (overhead budget : Z) : list (list ascii) * CRDTEngine :=
  let '(fs, q) := Drain (queue e) overhead budget in (fs, with_queue e q).

Definition recordPeerTombstoneAck (e : CRDTEngine) (peer : string) (ent : Entry) : CRDTEngine :=
  if bool_decide (peer = "") then e else
  let m := default ∅ (peerTombAck e !! peer) in
  with_acks e (<[peer := {[(Node ent, Counter ent)]} ∪ m]> (peerTombAck e)).

Definition with_node (en : Entry) (id : Z) : Entry :=
  mkEntry (Key en) (Value en) (Counter en) (Wall en) id (Deleted en).

(** The body of [onFrame]'s loop. *)
Definition on_entry (ackPeer : string) (e : CRDTEngine) (p : Entry * string) : CRDTEngine :=
  let '(en, origin) := p in
  let '(id, st) := InternNode (state e) origin in
  let e := with_state e st in
  let en := with_node en id in
  let e := if bool_decide (ackPeer ≠ "") && Deleted en
           then recordPeerTombstoneAck e ackPeer en else e in
  let '(outcome, merged, st) := Apply (state e) en in
  let e := with_state e st in
  if bool_decide (outcome = MergeApplied ∨ outcome = MergeDeleteWins) then
    let e := push e merged in
    if Deleted merged then emit e WatchDelete (mkKV (Key merged) [] 0)
    else emit e WatchPut (mkKV (Key merged) (Value merged) (Counter merged))
  else e.

(** A malformed tail is only logged: what decoded before it is applied. *)
Definition onFrame (e : CRDTEngine) (data : list ascii) (ackPeer : string) : CRDTEngine :=
  foldl (on_entry ackPeer) e (DecodeFrame data).1.

Definition kvCRDTFullStateMagic : list ascii := bytes_of "wkvcrdt" ++ [byte_of 1].

(** [false] when the buffer is not a full-state envelope; a truncated envelope is
    consumed without effect. *)
Definition mergeFullState (e : CRDTEngine) (buf : list ascii) : bool * CRDTEngine :=
  let n := length kvCRDTFullStateMagic in
  if bool_decide (length buf < n)%nat || bool_decide (take n buf ≠ kvCRDTFullStateMagic)
  then (false, e)
  else if bool_decide (length buf - n < 2)%nat then (true, e) else
  let nodeLen := Z.to_nat (le_val (slice buf n 2)) in
  let pos := (n + 2)%nat in
  if bool_decide (nodeLen = 0%nat) || bool_decide (length buf - pos < nodeLen)%nat then (true, e) else
  let peer := string_of (slice buf pos nodeLen) in
  let pos := (pos + nodeLen)%nat in
  (true, if bool_decide (pos < length buf)%nat then onFrame e (drop pos buf) peer else e).

Definition OnFrame (e : CRDTEngine) (data : list ascii) : CRDTEngine :=
  let '(merged, e) := mergeFullState e data in
  if merged then e else onFrame e data "".

(** The concatenated deltas of the entries [keep] accepts, shard by shard; an
    entry that cannot be encoded is left out. *)
Definition encode_entries (st : State) (keep : Entry → bool) : list ascii :=
  concat (map (λ i, concat (map (λ en,
    if keep en then
      match EncodeDelta [] en (NodeString st (Node en)) with Ok buf => buf | Err _ => [] end
    else []) (ShardEntries st (Z.of_nat i)))) (seq 0 ShardCount)).

Definition encodeFullState (e : CRDTEngine) (deltas : list ascii) : list ascii :=
  let node := bytes_of (localNode e) in
  if bool_decide (65535 < blen node) then deltas
  else kvCRDTFullStateMagic ++ le_bytes 2 (u16 (blen node)) ++ node ++ deltas.

Definition FullState (e : CRDTEngine) : list ascii :=
  encodeFullState e (encode_entries (state e) (λ _, true)).

(** The snapshot file before and after; the file operations themselves succeed. *)
Definition snapshotDurable (e : CRDTEngine) (disk : option (list ascii)) : option (list ascii) :=
  if bool_decide (dataDir e = "") then disk
  else Some (encode_entries (state e) (λ en, isDurableKey e (Key en))).

Definition loadDurable (e : CRDTEngine) (disk : option (list ascii)) : CRDTEngine :=
  if bool_decide (dataDir e = "") then e
  else match disk with Some data => OnFrame e data | None => e end.

(** [CRDTDelegate.MergeRemoteState]. *)
Definition MergeRemoteState (e : CRDTEngine) (buf : list ascii) : CRDTEngine :=
  if bool_decide (0 < length buf)%nat then
    let '(merged, e) := mergeFullState e buf in
    if merged then e else OnFrame e buf
  else e.
End engine.

(** ** Deltas between replicas *)

Section convergence.
Context `{XXHash}.

(** A delta on the wire, as a replica-independent value. *)
Definition wire_entry (d : Canon) : Entry :=
  mkEntry (cKey d) (cValue d) (cCounter d) (cWall d) 0 (cDeleted d).

Definition deliver (s : State) (d : Canon) : State :=
  let '(id, s) := InternNode s (cOrigin d) in (Apply s (with_node (wire_entry d) id)).2.

(** A delta that survives the wire: it encodes, its integers have the code's
    width, and a tombstone carries no value. *)
Definition sendable (d : Canon) : Prop :=
  wire_ok (wire_entry d, cOrigin d) ∧ (cDeleted d = true → cValue d = []).

Definition frame_of (ds : list Canon) : list ascii :=
  frame_bytes (map (λ d, (wire_entry d, cOrigin d)) ds).

(** [Apply]'s decision in terms of the contents. *)
Definition cwins (cur d : Canon) : bool :=
  if bool_decide (cOrigin cur = cOrigin d) && bool_decide (cCounter d < cCounter cur) then false
  else if bool_decide (cOrigin cur = cOrigin d) && bool_decide (cCounter cur < cCounter d) then true
  else if bool_decide (cWall cur < cWall d) then true
  else if bool_decide (cWall d < cWall cur) then false
  else if negb (Bool.eqb (cDeleted d) (cDeleted cur)) then cDeleted d
  else str_ltb (cOrigin cur) (cOrigin d).

(** The order the deltas of one key are meant to have: wall, then delete over
    put, then origin name, then counter. *)
Definition newer (a b : Canon) : Prop :=
  cWall a < cWall b ∨ cWall a = cWall b ∧
  (cDeleted a = false ∧ cDeleted b = true ∨ cDeleted a = cDeleted b ∧
   (str_ltb (cOrigin a) (cOrigin b) = true ∨ cOrigin a = cOrigin b ∧ cCounter a < cCounter b)).

(** Histories in which an origin uses each counter of a key once, and its walls
    (and, within one wall, delete over put) follow its counters. *)
Definition coherent (ds : list Canon) : Prop :=
  ∀ a b, a ∈ ds → b ∈ ds → cKey a = cKey b → cOrigin a = cOrigin b →
    (cCounter a = cCounter b → a = b) ∧
    (cCounter a < cCounter b →
       cWall a < cWall b ∨ cWall a = cWall b ∧ (cDeleted a = true → cDeleted b = true)).

Definition pick (o : option Canon) (d : Canon) : option Canon :=
  match o with Some c => Some (if cwins c d then d else c) | None => Some d end.

Lemma newer_trans a b c : newer a b → newer b c → newer a c.
Proof.
  unfold newer. intros [Hab|(Ew & Hab)] [Hbc|(Ew' & Hbc)]; [left; lia..|]. right. split; [lia|].
  destruct Hab as [[? ?]|[Ed Hab]], Hbc as [[? ?]|[Ed' Hbc]]; try (left; split; congruence).
  right. split; [congruence|].
  destruct Hab as [Hab|[Eo Hab]], Hbc as [Hbc|[Eo' Hbc]].
  - left. by eapply str_ltb_trans.
  - left. by rewrite <- Eo'.
  - left. by rewrite Eo.
  - right. split; [congruence|lia].
Qed.

Lemma newer_total a b :
  newer a b ∨ newer b a ∨ cOrigin a = cOrigin b ∧ cCounter a = cCounter b.
Proof.
  unfold newer. destruct (Z.lt_trichotomy (cWall a) (cWall b)) as [?|[Ew|?]]; [by auto| |by auto].
  destruct (cDeleted a), (cDeleted b); [|right; left; right; by auto|left; right; by auto|];
    (destruct (str_ltb_total (cOrigin a) (cOrigin b)) as [?|[?|?]];
     [left; right; by auto 6| |right; left; right; by auto 6];
     destruct (Z.lt_trichotomy (cCounter a) (cCounter b)) as [?|[?|?]];
     [left; right; by auto 8|by auto|right; left; right; by auto 8]).
Qed.

(** In a coherent history the decision of [Apply] is that order. *)
Lemma cwins_newer ds a b :
  coherent ds → a ∈ ds → b ∈ ds → cKey a = cKey b → cwins a b = true ↔ newer a b.
Proof.
  intros Hc Ha Hb Hk. pose proof (Hc a b Ha Hb Hk) as Hab. pose proof (Hc b a Hb Ha (eq_sym Hk)) as Hba.
  unfold cwins, newer.
  destruct (decide (cOrigin a = cOrigin b)) as [Eo|Eo].
  - destruct (Hab Eo) as [He Hl], (Hba (eq_sym Eo)) as [_ Hl'].
    rewrite (bool_decide_eq_true_2 (_ = _)) by done. simpl. rewrite <- Eo, str_ltb_irrefl.
    case_bool; simpl; destruct (cDeleted a), (cDeleted b); simpl; intuition (try done; try lia).
  - rewrite (bool_decide_eq_false_2 (_ = _)) by done. simpl.
    case_bool; destruct (cDeleted a), (cDeleted b); simpl; intuition (try done; try lia).
Qed.

Lemma cwins_replaces s cur e :
  intern_wf s → 0 ≤ Node cur < Z.of_nat (length (stringIDs s)) →
  0 ≤ Node e < Z.of_nat (length (stringIDs s)) →
  replaces s cur e = cwins (canon s cur) (canon s e).
Proof.
  intros Hi Hc He. unfold replaces, compareDots, cwins. simpl.
  destruct (decide (Node cur = Node e)) as [En|En].
  - rewrite En, (bool_decide_eq_false_2 (_ ≠ _)) by (by intros ?).
    rewrite (bool_decide_eq_true_2 (NodeString s (Node e) = _)) by done. simpl.
    case_bool; simpl; try done; try lia. rewrite str_ltb_irrefl. simpl. done.
  - rewrite (bool_decide_eq_true_2 (_ ≠ _)) by done.
    assert (Ho : NodeString s (Node cur) ≠ NodeString s (Node e))
      by (intros Ho; by apply En, (NodeString_inj s)).
    rewrite (bool_decide_eq_false_2 (NodeString s (Node cur) = _)) by done.
    rewrite (bool_decide_eq_false_2 (NodeString s (Node e) = _)) by done.
    simpl. by rewrite orb_false_r.
Qed.

Lemma install_cview s c e k :
  wf s → cview (install s c e) k = if decide (Key e = k) then Some (canon s e) else cview s k.
Proof.
  intros Hs. unfold cview. rewrite (install_entry_at s c e Hs). case_decide; [done|].
  by destruct (entry_at s k).
Qed.

(** What one delivery does to a well-formed replica. *)
Lemma deliver_spec s d k :
  wf s → Z.of_nat (length (stringIDs s)) < 2 ^ 32 - 9 →
  wf (deliver s d) ∧
  (length (stringIDs (deliver s d)) ≤ S (length (stringIDs s)))%nat ∧
  cview (deliver s d) k = if decide (cKey d = k) then pick (cview s k) d else cview s k.
Proof.
  intros Hs Hn. unfold deliver. destruct (InternNode s (cOrigin d)) as [id s1] eqn:E.
  pose proof (InternNode_wf s (cOrigin d) Hs Hn) as W1. rewrite E in W1. simpl in W1.
  pose proof (InternNode_cview s (cOrigin d) k Hs Hn) as Hv. rewrite E in Hv. simpl in Hv.
  destruct (InternNode_spec s _ id s1 (wf_intern _ Hs) Hn E) as (_ & Hid & Hr & _ & Hlen & _).
  set (e := with_node (wire_entry d) id).
  assert (He : canon s1 e = d) by (unfold canon; simpl; rewrite Hid; by destruct d).
  split_and!; [by apply Apply_wf| |].
  - rewrite Apply_install. repeat case_match; simpl; lia.
  - rewrite <- Hv, Apply_install. change (cKey d) with (Key e).
    destruct (entry_at s1 (Key e)) as [cur|] eqn:Ec.
    + rewrite (cwins_replaces s1 cur e (wf_intern _ W1)), He by (done || by apply (wf_dots _ W1 _ _ Ec)).
      assert (Hcv : cview s1 (Key e) = Some (canon s1 cur)) by (unfold cview; by rewrite Ec).
      destruct (cwins _ d) eqn:Ew.
      * rewrite install_cview, He by done. case_decide; [subst k|done].
        rewrite Hcv. simpl. by rewrite Ew.
      * case_decide; [subst k|done]. rewrite Hcv. simpl. by rewrite Ew.
    + rewrite install_cview, He by done. case_decide; [subst k|done].
      unfold cview. by rewrite Ec.
Qed.

(** A whole sequence of deliveries folds [pick] over the deltas of the key. *)
Lemma deliver_all s ds k :
  wf s → Z.of_nat (length (stringIDs s)) + Z.of_nat (length ds) < 2 ^ 32 - 9 →
  wf (foldl deliver s ds) ∧
  cview (foldl deliver s ds) k = foldl pick (cview s k) (filter (λ d, cKey d = k) ds).
Proof.
  revert s. induction ds as [|d ds IH]; intros s Hs Hn; [done|]. cbn [foldl length] in *.
  destruct (deliver_spec s d k Hs ltac:(lia)) as (W & Hl & Hv).
  destruct (IH (deliver s d) W ltac:(lia)) as [W' ->]. split; [done|]. rewrite Hv.
  rewrite filter_cons. by case_decide.
Qed.

(** Over a coherent history the fold computes the newest delta. *)
Lemma pick_newest k ds l o :
  coherent ds → (∀ d, d ∈ l → d ∈ ds ∧ cKey d = k) →
  (∀ c, o = Some c → c ∈ ds ∧ cKey c = k) →
  match foldl pick o l with
  | Some m => (m ∈ l ∨ o = Some m) ∧ (∀ d, d ∈ l ∨ o = Some d → ¬ newer m d)
  | None => l = [] ∧ o = None
  end.
Proof.
  intros Hc. revert o. induction l as [|d l IH]; intros o Hl Ho; cbn [foldl].
  { destruct o as [m|]; [|done]. split; [by right|]. intros d [Hd|Hd]; [by apply elem_of_nil in Hd|].
    simplify_eq. unfold newer. rewrite str_ltb_irrefl. intuition (try congruence; try lia). }
  destruct (Hl d ltac:(by left)) as [Hd Hdk].
  assert (Hp : ∀ c, pick o d = Some c → c ∈ ds ∧ cKey c = k).
  { intros c Hp. destruct o as [c0|]; simpl in Hp; simplify_eq; [|done]. case_match; [done|]. by apply Ho. }
  specialize (IH (pick o d) (λ x Hx, Hl x (proj2 (elem_of_cons _ _ _) (or_intror Hx))) Hp).
  destruct (foldl pick (pick o d) l) as [m|]; [|destruct IH as [_ IH]; by destruct o].
  destruct IH as [Hm Hmax]. split.
  - destruct Hm as [Hm|Hm]; [left; by right|]. destruct o as [c0|]; simpl in Hm; simplify_eq.
    + case_match; [left; by left|by right].
    + left. by left.
  - intros x Hx. assert (Hx' : x ∈ l ∨ x = d ∨ o = Some x) by (rewrite elem_of_cons in Hx; tauto).
    destruct Hx' as [Hx'|Hx']; [by apply Hmax; left|]. clear Hx.
    destruct o as [c0|]; simpl in Hmax; [|destruct Hx' as [->|?]; [by apply Hmax; right|done]].
    destruct (Ho c0 eq_refl) as [Hc0 Hk0].
    pose proof (cwins_newer ds c0 d Hc Hc0 Hd ltac:(congruence)) as Hw.
    assert (Hm' : m ∈ ds ∧ cKey m = k) by (destruct Hm as [Hm|Hm]; [apply Hl; by right|by apply Hp]).
    specialize (Hmax _ (or_intror eq_refl)). destruct (cwins c0 d) eqn:Ew.
    + destruct Hx' as [->|Hx']; [done|]. simplify_eq. intros Hmx. apply Hmax.
      eapply newer_trans; [apply Hmx|]. by apply Hw.
    + destruct Hx' as [->|Hx']; [|by simplify_eq]. intros Hmd. apply Hmax.
      destruct (newer_total c0 d) as [Hn|[Hn|[Eo Ec]]].
      * apply Hw in Hn. done.
      * by eapply newer_trans.
      * by rewrite (proj1 (Hc c0 d Hc0 Hd ltac:(congruence) Eo) Ec).
Qed.

Lemma pick_agree k ds l1 l2 :
  coherent ds → (∀ d, d ∈ l1 ↔ d ∈ l2) → (∀ d, d ∈ l1 → d ∈ ds ∧ cKey d = k) →
  foldl pick None l1 = foldl pick None l2.
Proof.
  intros Hc Hl Hd. assert (Hd2 : ∀ d, d ∈ l2 → d ∈ ds ∧ cKey d = k) by (intros d ?%Hl; by apply Hd).
  pose proof (pick_newest k ds l1 None Hc Hd ltac:(done)) as H1.
  pose proof (pick_newest k ds l2 None Hc Hd2 ltac:(done)) as H2.
  destruct (foldl pick None l1) as [m1|], (foldl pick None l2) as [m2|]; [| | |done].
  - destruct H1 as [[H1|?] M1], H2 as [[H2|?] M2]; [|done..]. f_equal.
    destruct (Hd m1 H1) as [? ?], (Hd2 m2 H2) as [? ?].
    destruct (newer_total m1 m2) as [Hn|[Hn|[Eo Ec]]].
    + exfalso. apply (M1 m2); [left; by apply Hl|done].
    + exfalso. apply (M2 m1); [left; by apply Hl|done].
    + by apply (Hc m1 m2); try congruence.
  - destruct H1 as [[H1|?] _], H2 as [-> _]; [|done]. apply Hl in H1. by apply elem_of_nil in H1.
  - destruct H2 as [[H2|?] _], H1 as [-> _]; [|done]. apply Hl in H2. by apply elem_of_nil in H2.
Qed.

(** ** Frames *)

Lemma on_entry_state peer e d :
  state (on_entry peer e (wire_entry d, cOrigin d)) = deliver (state e) d.
Proof.
  unfold on_entry, deliver. destruct (InternNode (state e) (cOrigin d)) as [id st].
  assert (Hst : ∀ b : bool, state (if b then recordPeerTombstoneAck (with_state e st) peer
                    (with_node (wire_entry d) id) else with_state e st) = st).
  { intros []; [|done]. unfold recordPeerTombstoneAck. by case_bool. }
  rewrite Hst. destruct (Apply st _) as [[o m] st']. destruct (bool_decide _); [|done]. by destruct (Deleted m).
Qed.

Lemma on_entries_state peer e ds :
  state (foldl (on_entry peer) e (map (λ d, (wire_entry d, cOrigin d)) ds)) =
  foldl deliver (state e) ds.
Proof.
  revert e. induction ds as [|d ds IH]; intros e; [done|]. cbn [map foldl].
  by rewrite IH, on_entry_state.
Qed.

Lemma DecodeFrame_of ds :
  Forall sendable ds →
  DecodeFrame (frame_of ds) = (map (λ d, (wire_entry d, cOrigin d)) ds, None).
Proof.
  intros Hds. unfold frame_of. rewrite DecodeFrame_bytes.
  - f_equal. rewrite map_map. apply map_ext_in. intros d Hd. cbn [fst snd]. f_equal.
    apply list_elem_of_In in Hd. rewrite Forall_forall in Hds. destruct (Hds d Hd) as [_ Hv].
    unfold delivered, wire_entry. simpl. f_equal. destruct (cDeleted d); [|done]. by rewrite Hv.
  - rewrite Forall_forall. intros p Hp. apply list_elem_of_fmap in Hp as (d & -> & Hd).
    rewrite Forall_forall in Hds. by apply Hds.
Qed.

(** No delta frame is mistaken for a full-state envelope. *)
Lemma mergeFullState_delta e ds : mergeFullState e (frame_of ds) = (false, e).
Proof.
  unfold mergeFullState. destruct ds as [|d ds]; [done|].
  rewrite (bool_decide_eq_true_2 (take _ _ ≠ _)); [by rewrite orb_true_r|].
  unfold frame_of, frame_bytes, delta_bytes. cbn [map concat fst snd].
  intros Hx. apply (f_equal head) in Hx. simpl in Hx. by destruct (cDeleted d).
Qed.

Lemma OnFrame_state e ds :
  Forall sendable ds → state (OnFrame e (frame_of ds)) = foldl deliver (state e) ds.
Proof.
  intros Hds. unfold OnFrame. rewrite mergeFullState_delta. unfold onFrame.
  rewrite DecodeFrame_of by done. apply on_entries_state.
Qed.

Lemma OnFrames_state e fs :
  Forall sendable (concat fs) →
  state (foldl OnFrame e (map frame_of fs)) = foldl deliver (state e) (concat fs).
Proof.
  revert e. induction fs as [|f fs IH]; intros e Hf; [done|]. cbn [map foldl concat] in *.
  apply Forall_app in Hf as [Hf Hfs]. by rewrite IH, OnFrame_state, foldl_app.
Qed.

Lemma stringIDs_NewState n : length (stringIDs (NewState n)) = 1%nat.
Proof. by rewrite NewState_eq. Qed.

(** C5. Convergence of the gossip store. Two engines that receive the same set of
    deltas, each in its own order, grouping into frames and with its own
    duplicates, hold the same entries under every key and the same shard hashes,
    provided the history is coherent (each origin uses a counter of a key once and
    its walls follow its counters). *)
Theorem engine_convergence n1 n2 fs1 fs2 :
  (∀ d, d ∈ concat fs1 ↔ d ∈ concat fs2) →
  Forall sendable (concat fs1) → coherent (concat fs1) →
  Z.of_nat (length (concat fs1)) < 2 ^ 32 - 10 → Z.of_nat (length (concat fs2)) < 2 ^ 32 - 10 →
  let s1 := state (foldl OnFrame (NewCRDTEngine n1) (map frame_of fs1)) in
  let s2 := state (foldl OnFrame (NewCRDTEngine n2) (map frame_of fs2)) in
  (∀ k, cview s1 k = cview s2 k) ∧ (∀ i, ShardHash s1 i = ShardHash s2 i).
Proof.
  intros Hsame Hsend Hc Hl1 Hl2.
  assert (Hsend2 : Forall sendable (concat fs2))
    by (rewrite Forall_forall in *; intros d ?%Hsame; by apply Hsend).
  rewrite !OnFrames_state by done. cbn [NewCRDTEngine state]. cbn zeta.
  assert (Hall : ∀ n fs k, Z.of_nat (length (concat fs)) < 2 ^ 32 - 10 →
    wf (foldl deliver (NewState n) (concat fs)) ∧
    cview (foldl deliver (NewState n) (concat fs)) k =
    foldl pick None (filter (λ d, cKey d = k) (concat fs))).
  { intros n fs k Hl. destruct (deliver_all (NewState n) (concat fs) k (NewState_wf n)) as [W ->].
    { rewrite stringIDs_NewState. lia. }
    split; [done|]. f_equal. unfold cview. by rewrite entry_at_fresh by (by rewrite NewState_eq). }
  assert (Hv : ∀ k, cview (foldl deliver (NewState n1) (concat fs1)) k =
                    cview (foldl deliver (NewState n2) (concat fs2)) k).
  { intros k. rewrite (proj2 (Hall n1 fs1 k Hl1)), (proj2 (Hall n2 fs2 k Hl2)).
    apply (pick_agree k (concat fs1)); [done| |].
    - intros d. rewrite !list_elem_of_filter, Hsame. done.
    - intros d [? ?]%list_elem_of_filter. done. }
  split; [done|]. intros i.
  exact (ShardHash_canonical _ _ i (proj1 (Hall n1 fs1 ""%string Hl1)) (proj1 (Hall n2 fs2 ""%string Hl2)) Hv).
Qed.
End convergence.

(** ** Full-state exchange *)

Section full_state.
Context `{XXHash}.

Definition all_entries (s : State) : list Entry :=
  concat (map (λ i, ShardEntries s (Z.of_nat i)) (seq 0 ShardCount)).

Lemma elem_of_all_entries s e :
  wf s → e ∈ all_entries s ↔ entry_at s (Key e) = Some e.
Proof.
  intros Hs. unfold all_entries. rewrite list_elem_of_In, in_concat. split.
  - intros (l & Hl & He). apply list_elem_of_In in Hl, He.
    apply list_elem_of_fmap in Hl as (i & -> & Hi). apply elem_of_seq in Hi.
    unfold ShardEntries in He. rewrite bool_decide_eq_false_2 in He by lia.
    apply list_elem_of_fmap in He as ([k e'] & -> & Hx). apply elem_of_map_to_list in Hx. simpl in *.
    rewrite Nat2Z.id in Hx. apply shard_lookup_entry in Hx as [_ He]; [|done|lia].
    by rewrite (entry_at_Key _ _ _ Hs He).
  - intros He. pose proof (ShardFor_lt (Key e)) as Hlt.
    exists (ShardEntries s (Z.of_nat (ShardFor (Key e)))). split; apply list_elem_of_In.
    + apply list_elem_of_fmap. exists (ShardFor (Key e)). split; [done|]. apply elem_of_seq. lia.
    + unfold ShardEntries. rewrite bool_decide_eq_false_2 by lia. rewrite Nat2Z.id.
      apply list_elem_of_fmap. exists (Key e, e). split; [done|]. by apply elem_of_map_to_list.
Qed.

Lemma encode_entries_frame s keep :
  (∀ e, e ∈ all_entries s → encodable e (NodeString s (Node e)) ∧ (Deleted e = true → Value e = [])) →
  encode_entries s keep = frame_of (map (canon s) (filter (λ e, keep e = true) (all_entries s))).
Proof.
  unfold encode_entries, all_entries, frame_of, frame_bytes.
  induction (seq 0 ShardCount) as [|i l IH]; intros He; [done|]. cbn [map concat] in *.
  rewrite filter_app, !map_app, concat_app, IH by (intros e Hi; apply He, elem_of_app; by right).
  f_equal. assert (Hi : ∀ e, e ∈ ShardEntries s (Z.of_nat i) →
    encodable e (NodeString s (Node e)) ∧ (Deleted e = true → Value e = []))
    by (intros e ?; apply He, elem_of_app; by left). clear -Hi.
  induction (ShardEntries s (Z.of_nat i)) as [|e es IH]; [done|]. cbn [map concat].
  rewrite IH by (intros; apply Hi; by right). rewrite filter_cons.
  destruct (keep e); [|by rewrite decide_False].
  rewrite decide_True by done. cbn [map concat fst snd]. f_equal.
  destruct (Hi e ltac:(by left)) as [Hok _].
  by rewrite (proj2 (EncodeDelta_ok [] e _ _) (conj Hok eq_refl)).
Qed.

(** An envelope with a non-empty sender name is unpacked to its deltas. *)
Lemma mergeFullState_envelope r e deltas :
  0 < blen (bytes_of (localNode e)) ≤ 65535 →
  mergeFullState r (encodeFullState e deltas) =
  (true, if bool_decide (deltas = []) then r else onFrame r deltas (localNode e)).
Proof.
  intros Hn. unfold encodeFullState. rewrite bool_decide_eq_false_2 by lia.
  rewrite u16_small by lia. unfold mergeFullState.
  set (m := kvCRDTFullStateMagic). set (node := bytes_of (localNode e)) in *.
  set (b2 := le_bytes 2 (blen node)).
  assert (H2 : length b2 = 2%nat) by apply length_le_bytes.
  assert (Hm : take (length m) (m ++ b2 ++ node ++ deltas) = m) by apply take_app_length.
  assert (Hs : slice (m ++ b2 ++ node ++ deltas) (length m) 2 = b2)
    by (rewrite <- H2; by apply slice_skip).
  assert (Hv : Z.to_nat (le_val b2) = length node).
  { unfold b2. rewrite le_val_bytes. change (2 ^ (8 * Z.of_nat 2)) with 65536.
    unfold blen in *. rewrite Z.mod_small; lia. }
  assert (Hp : slice (m ++ b2 ++ node ++ deltas) (length m + 2) (length node) = node).
  { rewrite (app_assoc m). apply slice_skip. by rewrite length_app, H2. }
  assert (Hd : drop (length m + 2 + length node) (m ++ b2 ++ node ++ deltas) = deltas).
  { rewrite (app_assoc m), (app_assoc (m ++ b2)), <- H2, <- !length_app. apply drop_app_length. }
  rewrite Hm, Hs, Hv, Hp, Hd, !length_app, H2. unfold blen in Hn.
  rewrite (bool_decide_eq_false_2 (m ≠ m)) by (by intros ?).
  rewrite !(bool_decide_eq_false_2 (_ < _)%nat) by lia.
  rewrite (bool_decide_eq_false_2 (length node = 0%nat)) by lia. cbn [orb]. f_equal.
  destruct deltas as [|b ds]; simpl.
  - by rewrite bool_decide_eq_false_2 by lia.
  - rewrite bool_decide_eq_true_2 by lia. unfold node. by rewrite string_of_bytes_of.
Qed.

Lemma pick_idem o d l :
  (∀ x, x ∈ l → x = d) → l ≠ [] → foldl pick o l = pick o d.
Proof.
  intros Hl Hne. assert (Hst : ∀ l, (∀ x, x ∈ l → x = d) → foldl pick (pick o d) l = pick o d).
  { clear. induction l as [|x l IH]; intros Hl; [done|]. cbn [foldl].
    rewrite (Hl x) by (by left).
    assert (Hp : pick (pick o d) d = pick o d).
    { destruct o as [c|]; simpl; [destruct (cwins c d) eqn:E; simpl; rewrite ?E; try done|];
        unfold cwins; rewrite str_ltb_irrefl; case_bool; simpl; try done; try lia;
        by rewrite Bool.eqb_reflx. }
    rewrite Hp. apply IH. intros y Hy. apply Hl. by right. }
  destruct l as [|x l]; [done|]. cbn [foldl]. rewrite (Hl x) by (by left). apply Hst.
  intros y Hy. apply Hl. by right.
Qed.

(** Every stored entry can travel. *)
Definition exportable (s : State) : Prop := ∀ k d, cview s k = Some d → sendable d.

Lemma exportable_entry s e :
  wf s → exportable s → e ∈ all_entries s → sendable (canon s e).
Proof.
  intros Hs Hx He%elem_of_all_entries; [|done]. apply (Hx (Key e)). unfold cview. by rewrite He.
Qed.

(** Absorbing a full state is delivering the sender's entries. *)
Lemma FullState_deliver e r :
  wf (state e) → exportable (state e) → 0 < blen (bytes_of (localNode e)) ≤ 65535 →
  state (MergeRemoteState r (FullState e)) =
  foldl deliver (state r) (map (canon (state e)) (all_entries (state e))).
Proof.
  intros We Hx Hn. unfold MergeRemoteState.
  assert (Hb : (0 < length (FullState e))%nat)
    by (unfold FullState, encodeFullState; rewrite bool_decide_eq_false_2 by lia; simpl; lia).
  rewrite bool_decide_eq_true_2 by done. unfold FullState at 1. rewrite mergeFullState_envelope by done.
  rewrite encode_entries_frame.
  2:{ intros x Hi. destruct (exportable_entry _ _ We Hx Hi) as [[[? ?] ?] Hv]. by split. }
  rewrite filter_all by done. set (ds := map (canon (state e)) (all_entries (state e))).
  assert (Hds : Forall sendable ds).
  { rewrite Forall_forall. intros d Hd. apply list_elem_of_fmap in Hd as (x & -> & Hi).
    by apply exportable_entry. }
  case_bool; [|unfold onFrame; rewrite DecodeFrame_of by done; apply on_entries_state].
  destruct ds as [|d ds']; [done|]. exfalso. unfold frame_of, frame_bytes in *. simpl in *. done.
Qed.

(** C27. Full-state push/pull merges replicas: after a node has absorbed a peer's
    full state, each key holds the winner of its own entry and the peer's, and in
    particular a fresh node ends with exactly the peer's entries. *)
Theorem FullState_merge e r k :
  wf (state e) → exportable (state e) → 0 < blen (bytes_of (localNode e)) ≤ 65535 →
  wf (state r) →
  Z.of_nat (length (stringIDs (state r))) + Z.of_nat (length (all_entries (state e))) < 2 ^ 32 - 9 →
  let r' := MergeRemoteState r (FullState e) in
  wf (state r') ∧
  cview (state r') k =
    match cview (state e) k with Some d => pick (cview (state r) k) d | None => cview (state r) k end.
Proof.
  intros We Hx Hn Wr Hlen. cbv zeta. rewrite FullState_deliver by done.
  set (ds := map (canon (state e)) (all_entries (state e))).
  destruct (deliver_all (state r) ds k Wr) as [W ->]; [unfold ds; rewrite length_map; lia|].
  split; [done|]. unfold cview at 2. destruct (entry_at (state e) k) as [x|] eqn:Ek; simpl.
  - assert (Hk : Key x = k) by (by apply entry_at_Key in Ek).
    apply pick_idem.
    + intros d [Hdk Hd]%list_elem_of_filter. apply list_elem_of_fmap in Hd as (y & -> & Hy).
      apply elem_of_all_entries in Hy; [|done]. simpl in Hdk. congruence.
    + assert (canon (state e) x ∈ filter (λ d, cKey d = k) ds) as Hin.
      { apply list_elem_of_filter. split; [done|]. apply list_elem_of_fmap. exists x. split; [done|].
        apply elem_of_all_entries; [done|]. by rewrite Hk. }
      intros Hnil. rewrite Hnil in Hin. by apply elem_of_nil in Hin.
  - assert (filter (λ d, cKey d = k) ds = []) as ->; [|done].
    apply filter_none. intros d Hd Hdk.
    apply list_elem_of_fmap in Hd as (y & -> & Hy). apply elem_of_all_entries in Hy; [|done].
    simpl in Hdk. congruence.
Qed.
End full_state.

(** ** Local operations *)

Section local.
Context `{XXHash}.

Lemma LookupEntry_at e k :
  Get e k = match entry_at (state e) k with
            | Some en => if Deleted en then Err ErrKeyNotFound else Ok (mkKV k (Value en) (Counter en))
            | None => Err ErrKeyNotFound
            end.
Proof. unfold Get, LookupEntry. destruct (entry_at (state e) k) as [en|]; [|done]. by destruct (Deleted en). Qed.

Definition fresh_put (e : CRDTEngine) key value ms : Entry :=
  mkEntry key value (u64 (localCounter (state e) + 1)) (wall e ms) (Crdt.localNode (state e)) false.

Lemma overwrite_spec e key value ms :
  wf (state e) →
  let '(v, e') := overwrite e key value ms in
  v = u64 (localCounter (state e) + 1) ∧ wf (state e') ∧
  (∀ k, entry_at (state e') k =
        if decide (key = k) then Some (fresh_put e key value ms) else entry_at (state e) k) ∧
  queue e' = (Push (queue e) (fresh_put e key value ms)).2 ∧
  events e' = events e ++ [mkEvent WatchPut None (Some (mkKV key value v))] ∧
  leaseKeys e' = leaseKeys e ∧ keyLease e' = keyLease e ∧ deadlines e' = deadlines e.
Proof.
  intros Hs. unfold overwrite, Overwrite.
  rewrite write_local_install. cbv zeta. fold (fresh_put e key value ms).
  split_and!; try done.
  - apply (install_wf (state e) _ (fresh_put e key value ms) Hs). apply (iw_local _ (wf_intern _ Hs)).
  - intros k. apply (install_entry_at (state e) _ (fresh_put e key value ms) Hs).
Qed.

(** Compare-and-swap on the local replica: with an expectation that is not the
    current version (0 for an absent key) it reports the current version and
    changes nothing; otherwise the key reads back as the new value at the returned
    version, no other key changes, the write is queued for gossip and one put event
    is published. *)
Theorem CompareAndSwap_spec e key expect value ms :
  wf (state e) →
  let curVer := match Get e key with Ok kv => kvVersion kv | Err _ => 0 end in
  match CompareAndSwap e key expect value ms with
  | (v, false, e') => curVer ≠ expect ∧ v = curVer ∧ e' = e
  | (v, true, e') =>
      curVer = expect ∧ wf (state e') ∧ Get e' key = Ok (mkKV key value v) ∧
      (∀ k, k ≠ key → Get e' k = Get e k) ∧
      queue e' = (Push (queue e) (fresh_put e key value ms)).2 ∧
      events e' = events e ++ [mkEvent WatchPut None (Some (mkKV key value v))]
  end.
Proof.
  intros Hs curVer. unfold CompareAndSwap.
  assert (Hc : match LookupEntry (state e) key with Some cur => Counter cur | None => 0 end = curVer)
    by (unfold curVer, Get; by destruct (LookupEntry _ _)).
  rewrite Hc. case_bool; [done|].
  pose proof (overwrite_spec e key value ms Hs) as Ho. destruct (overwrite e key value ms) as [v e'].
  destruct Ho as (-> & Hw & He & Hq & Hev & _).
  split; [by destruct (decide (curVer = expect))|]. split_and!; [done| | |done|done].
  - by rewrite LookupEntry_at, He, decide_True by done.
  - intros k Hk. by rewrite !LookupEntry_at, He, decide_False by done.
Qed.

(** ** Leases *)

Definition live_at (st : State) (k : string) : bool :=
  match entry_at st k with Some en => negb (Deleted en) | None => false end.

Lemma Unregister_at st k w :
  wf st →
  let '(o, st') := Unregister st k w in
  wf st' ∧ o = (if live_at st k then Some (mkEntry k [] (u64 (localCounter st + 1)) w (Crdt.localNode st) true)
                else None) ∧
  (o = None → st' = st) ∧
  ∀ k', entry_at st' k' = if decide (k = k') then (match o with Some en => Some en | None => entry_at st k' end)
                          else entry_at st k'.
Proof.
  intros Hs. rewrite Unregister_install. unfold live_at.
  destruct (entry_at st k) as [cur|] eqn:Ek; [destruct (Deleted cur)|]; simpl;
    try (split_and!; try done; intros; by case_decide).
  split_and!; [|done|done|].
  - apply install_wf; [done|]. apply (iw_local _ (wf_intern _ Hs)).
  - intros k'. by rewrite install_entry_at.
Qed.

Lemma Delete_wf e k ms : wf (state e) → wf (state (Delete e k ms).2).
Proof.
  intros Hs. unfold Delete. pose proof (Unregister_at (state e) k (wall e ms) Hs) as Hu.
  destruct (Unregister _ _ _) as [[en|] st]; [|done]. destruct Hu as [Hw _].
  cbn [snd emit state]. unfold detachKey. by case_match.
Qed.

Lemma record_state e p t : state (recordPeerTombstoneAck e p t) = state e.
Proof. unfold recordPeerTombstoneAck. by case_bool. Qed.

Definition expired_event (k : string) : WatchEvent := mkEvent WatchExpired (Some (mkKV k [] 0)) None.

Lemma expire_keys clock ks i e :
  wf (state e) → NoDup ks →
  let e' := (foldl (expire_key clock) (i, e) ks).2 in
  wf (state e') ∧
  (∀ k, Get e' k = if decide (k ∈ ks) then Err ErrKeyNotFound else Get e k) ∧
  events e' = events e ++ map expired_event (filter (λ k, live_at (state e) k = true) ks) ∧
  leaseKeys e' = leaseKeys e ∧ keyLease e' = keyLease e ∧ deadlines e' = deadlines e.
Proof.
  revert i e. induction ks as [|k ks IH]; intros i e Hs Hnd; cbn [foldl].
  { split_and!; try done. by rewrite app_nil_r. }
  apply NoDup_cons in Hnd as [Hk Hnd].
  pose proof (Unregister_at (state e) k (wall e (clock i)) Hs) as Hu.
  destruct (Unregister (state e) k (wall e (clock i))) as [o st] eqn:EU. destruct Hu as (Hw & Ho & Hid & He).
  set (e1 := match o with Some en => emit (push (with_state e st) en) WatchExpired (mkKV k [] 0) | None => e end).
  assert (expire_key clock (i, e) k = (S i, e1)) as -> by (unfold expire_key; rewrite EU; by destruct o).
  assert (H1 : state e1 = st) by (unfold e1; destruct o; [done|symmetry; by apply Hid]).
  rewrite <- H1 in Hw. destruct (IH (S i) e1 Hw Hnd) as (J1 & J2 & J3 & J4 & J5 & J6).
  assert (Hl : ∀ k', k' ≠ k → entry_at (state e1) k' = entry_at (state e) k')
    by (intros k' Hne; rewrite H1, He; by rewrite decide_False).
  assert (Hg : Get e1 k = Err ErrKeyNotFound).
  { rewrite LookupEntry_at, H1, He, decide_True by done. subst o. unfold live_at.
    destruct (entry_at (state e) k) as [en|]; [|done]. by destruct (Deleted en) eqn:Ed; simpl; rewrite ?Ed. }
  split_and!; [done| | |rewrite J4|rewrite J5|rewrite J6]; [..|unfold e1; by destruct o|unfold e1; by destruct o|unfold e1; by destruct o].
  - intros k'. rewrite J2. destruct (decide (k' = k)) as [->|Hne].
    + rewrite decide_False by done. by rewrite decide_True by (by left).
    + rewrite !LookupEntry_at, Hl by done.
      by destruct (decide (k' ∈ ks)) as [Hi|Hi]; [rewrite decide_True by (by right)|
        rewrite decide_False by (rewrite elem_of_cons; tauto)].
  - rewrite J3, filter_cons.
    assert (Hf : filter (λ k, live_at (state e1) k = true) ks = filter (λ k, live_at (state e) k = true) ks).
    { apply filter_agree. intros k' Hi. unfold live_at. rewrite Hl; [done|].
      by intros ->. }
    rewrite Hf. unfold e1. rewrite Ho. destruct (live_at (state e) k); simpl; by rewrite <- ?app_assoc.
Qed.

Lemma delete_keys_lookup {V} (m : gmap string V) ks k :
  foldl (λ m k, delete k m) m ks !! k = if decide (k ∈ ks) then None else m !! k.
Proof.
  revert m. induction ks as [|k' ks IH]; intros m; cbn [foldl]; [done|].
  rewrite IH. destruct (decide (k ∈ ks)) as [Hi|Hi]; [by rewrite decide_True by (by right)|].
  rewrite lookup_delete. destruct (decide (k' = k)) as [->|Hne]; [by rewrite decide_True by (by left)|].
  rewrite (decide_False (P := k ∈ k' :: ks)); [done|]. rewrite elem_of_cons. intros [?|?]; congruence.
Qed.

(** Lease expiry (or revocation): exactly the keys attached to the lease stop
    being readable, one expiry event is published for each that was live, and the
    lease and its attachments are gone. *)
Theorem expireLease_spec e id clock :
  wf (state e) →
  let keys := default ∅ (leaseKeys e !! id) in
  let e' := expireLease e id clock in
  wf (state e') ∧
  (∀ k, Get e' k = if decide (k ∈ keys) then Err ErrKeyNotFound else Get e k) ∧
  events e' = events e ++ map expired_event (filter (λ k, live_at (state e) k = true) (elements keys)) ∧
  leaseKeys e' = delete id (leaseKeys e) ∧ deadlines e' = delete id (deadlines e) ∧
  (∀ k, keyLease e' !! k = if decide (k ∈ keys) then None else keyLease e !! k).
Proof.
  intros Hs keys. unfold expireLease. cbv zeta. fold keys.
  set (e1 := with_leases _ _ _ _).
  destruct (expire_keys clock (elements keys) 0 e1 Hs (NoDup_elements _)) as (J1 & J2 & J3 & J4 & J5 & J6).
  split_and!; [done| |done|done|done|].
  - intros k. rewrite J2. destruct (decide (k ∈ keys)) as [Hk|Hk].
    + by rewrite decide_True by (by apply elem_of_elements).
    + rewrite decide_False by (by rewrite elem_of_elements). done.
  - intros k. rewrite J5. unfold e1. cbn [keyLease with_leases]. rewrite delete_keys_lookup.
    destruct (decide (k ∈ keys)) as [Hk|Hk].
    + by rewrite decide_True by (by apply elem_of_elements).
    + by rewrite decide_False by (by rewrite elem_of_elements).
Qed.

(** ** Tombstone collection *)

(** A peer set is wired and every peer in it but this node has acknowledged the
    delete of [t]. *)
Definition acked_by_all (e : CRDTEngine) (alive : option (gset string)) (t : Entry) : Prop :=
  ∃ a, alive = Some a ∧ a ≠ ∅ ∧
    ∀ peer, peer ∈ a → peer ≠ localNode e →
      (Node t, Counter t) ∈ (default ∅ (peerTombAck e !! peer) : gset tombstoneDot).

Lemma acked_predicate e alive t :
  match tombstoneAckedByPeers e alive with Some f => f t | None => false end = true ↔
  acked_by_all e alive t.
Proof.
  unfold tombstoneAckedByPeers, acked_by_all. destruct alive as [a|]; [|by split; [|intros (? & ? & _)]].
  case_bool; [split; [done|intros (? & ? & ? & _); congruence]|].
  rewrite forallb_forall. split.
  - intros Hf. exists a. split_and!; [done..|]. intros peer Hp Hne.
    specialize (Hf (default ∅ (peerTombAck e !! peer))). rewrite bool_decide_eq_true in Hf. apply Hf.
    apply in_map_iff. exists peer. split; [done|]. apply list_elem_of_In, list_elem_of_filter.
    split; [done|]. by apply elem_of_elements.
  - intros (a' & ? & _ & Hall) ack Hin. simplify_eq. apply in_map_iff in Hin as (peer & <- & Hp).
    apply list_elem_of_In, list_elem_of_filter in Hp as [Hne Hp%elem_of_elements].
    apply bool_decide_eq_true. by apply Hall.
Qed.

Lemma floor_disabled z : is_i64 z → z ≤ 0 → i64 (Z.quot z 1000000 * wallScale) ≤ 0.
Proof.
  unfold is_i64, wallScale. intros Hz Hle.
  pose proof (Z.quot_rem' z 1000000) as Hq. pose proof (Z.rem_nonpos z 1000000 ltac:(lia) Hle) as Hr.
  assert (Hb : - 2 ^ 63 ≤ Z.quot z 1000000 * 1000000 ≤ 0).
  { pose proof (Z.quot_le_mono z 0 1000000 ltac:(lia) Hle). rewrite Z.quot_0_l in * by lia. lia. }
  rewrite i64_small by (unfold is_i64; lia). lia.
Qed.

(** C28. Garbage collection of delete markers is safe: with age-only retention
    disabled, a sweep forgets exactly the tombstones that every configured peer
    has acknowledged; live entries and every other tombstone stay, so no read
    changes. *)
Theorem gcTombstones_safe e alive ms :
  wf (state e) → is_i64 (tombstoneFloor e) → tombstoneFloor e ≤ 0 →
  let '(_, _, e') := gcTombstones e alive ms in
  wf (state e') ∧ (∀ k, Get e' k = Get e k) ∧
  (∀ k t, entry_at (state e) k = Some t →
     (entry_at (state e') k = None ↔ Deleted t = true ∧ acked_by_all e alive t) ∧
     (entry_at (state e') k = None ∨ entry_at (state e') k = Some t)).
Proof.
  intros Hs Hi Hf. unfold gcTombstones. pose proof (floor_disabled _ Hi Hf) as Hfl.
  remember (i64 (Z.quot (tombstoneFloor e) 1000000 * wallScale)) as fl eqn:Efl. clear Efl.
  pose proof (ReapTombstonesWhere_spec (state e) (tombstoneAckedByPeers e alive)
                (i64 (ms * wallScale)) fl Hs) as Hr.
  destruct (ReapTombstonesWhere _ _ _ _) as [[[safe floor] out] st].
  destruct Hr as (Hw & He & _).
  assert (Hst : state (pruneTombstoneAcks (with_state e st) out) = st)
    by (unfold pruneTombstoneAcks; by case_bool).
  rewrite Hst. split_and!; [done| |].
  - intros k. rewrite !LookupEntry_at, Hst, He. destruct (entry_at (state e) k) as [t|]; [|done].
    unfold reapable. destruct (Deleted t) eqn:Ed; simpl; [destruct (_ || _)|]; by rewrite ?Ed.
  - intros k t Hk. rewrite He, Hk. rewrite <- acked_predicate. unfold reapable.
    rewrite (bool_decide_eq_false_2 (0 < _)) by lia. rewrite andb_false_l, orb_false_r.
    generalize (match tombstoneAckedByPeers e alive with Some f => f t | None => false end).
    intros b. clear. destruct (Deleted t), b; simpl; split; auto; by split; intros; destruct_and?.
Qed.
End local.

(** ** Concrete engines *)

Section concrete.
#[local] Existing Instance zero_hash.

Definition dA1 : Canon := mkCanon "k" [byte_of 1] "a" 1 20 false.
Definition dA2 : Canon := mkCanon "k" [byte_of 2] "a" 2 30 false.
Definition dB : Canon := mkCanon "k" [byte_of 3] "b" 1 25 false.

Lemma engine_convergence_witness :
  let s1 := state (foldl OnFrame (NewCRDTEngine "x") (map frame_of [[dA1; dA2]; [dB]])) in
  let s2 := state (foldl OnFrame (NewCRDTEngine "y") (map frame_of [[dB]; [dA2]; [dA1; dB]])) in
  cview s1 "k" = Some dA2 ∧ cview s1 "k" = cview s2 "k".
Proof.
  split; [by vm_compute|].
  apply (engine_convergence "x" "y" [[dA1; dA2]; [dB]] [[dB]; [dA2]; [dA1; dB]]); simpl; try done.
  - intros d. rewrite !elem_of_cons, elem_of_nil. tauto.
  - repeat constructor; by vm_compute.
  - intros a b Ha Hb. rewrite !elem_of_cons, elem_of_nil in Ha, Hb.
    destruct Ha as [->|[->|[->|[]]]], Hb as [->|[->|[->|[]]]]; simpl; intros; try done;
      (split; [done || lia|]); intros; left; lia.
Defined.

(** An engine that holds one written key. *)
Definition demo_engine : CRDTEngine := (set (NewCRDTEngine "a") "k" [byte_of 1] 5).2.

Lemma demo_engine_spec :
  wf (state demo_engine) ∧
  ∀ k, entry_at (state demo_engine) k =
       if decide ("k"%string = k) then Some (fresh_put (NewCRDTEngine "a") "k" [byte_of 1] 5) else None.
Proof.
  unfold demo_engine, set.
  pose proof (overwrite_spec (NewCRDTEngine "a") "k" [byte_of 1] 5 (NewState_wf "a")) as Ho.
  destruct (overwrite _ _ _ _) as [v e']. destruct Ho as (_ & Hw & He & _). split; [done|].
  intros k. rewrite He. case_decide; [done|]. apply entry_at_fresh. simpl. by rewrite NewState_eq.
Qed.

Lemma demo_engine_exportable : exportable (state demo_engine).
Proof.
  intros k d. unfold cview. rewrite (proj2 demo_engine_spec). case_decide; [|done]. intros [= <-].
  split; by vm_compute.
Qed.

Lemma FullState_merge_witness :
  let r := NewCRDTEngine "b" in
  cview (state (MergeRemoteState r (FullState demo_engine))) "k" =
  match cview (state demo_engine) "k" with
  | Some d => pick (cview (state r) "k") d
  | None => cview (state r) "k"
  end ∧ cview (state demo_engine) "k" ≠ None.
Proof.
  intros r. split; [|by vm_compute].
  apply (FullState_merge demo_engine r "k" (proj1 demo_engine_spec) demo_engine_exportable).
  - by vm_compute.
  - apply NewState_wf.
  - by vm_compute.
Defined.

Lemma CompareAndSwap_spec_witness :
  let r := CompareAndSwap demo_engine "k" 1 [byte_of 7] 6 in
  r.1.2 = true ∧ Get r.2 "k" = Ok (mkKV "k" [byte_of 7] r.1.1).
Proof.
  intros r. assert (Hr : r.1.2 = true) by (vm_compute; reflexivity). split; [exact Hr|].
  pose proof (CompareAndSwap_spec demo_engine "k" 1 [byte_of 7] 6 (proj1 demo_engine_spec)) as Hc.
  cbv zeta in Hc. fold r in Hc. destruct r as [[v b] e']. cbn [fst snd] in *. subst b. apply Hc.
Defined.

(** The same engine with a second key under a lease. *)
Definition leased_engine : CRDTEngine :=
  (SetWithLease (GrantLease demo_engine 10 0).2 "l" [byte_of 2] "a-clease-1" 6).2.

Lemma leased_engine_wf : wf (state leased_engine).
Proof.
  unfold leased_engine, SetWithLease.
  set (g := (GrantLease demo_engine 10 0).2).
  assert (leaseKeys g !! "a-clease-1"%string = Some ∅) as -> by (by vm_compute).
  pose proof (overwrite_spec (attach g "l" "a-clease-1" ∅) "l" [byte_of 2] 6 (proj1 demo_engine_spec)) as Ho.
  destruct (overwrite _ _ _ _) as [v e']. apply Ho.
Qed.

Lemma expireLease_spec_witness :
  wf (state leased_engine) ∧ Get leased_engine "l" = Ok (mkKV "l" [byte_of 2] 2) ∧
  Get (expireLease leased_engine "a-clease-1" (λ _, 7)) "l" = Err ErrKeyNotFound ∧
  Get (expireLease leased_engine "a-clease-1" (λ _, 7)) "k" = Get leased_engine "k".
Proof.
  destruct (expireLease_spec leased_engine "a-clease-1" (λ _, 7) leased_engine_wf) as (_ & Hg & _).
  split_and!; [apply leased_engine_wf|by vm_compute|rewrite Hg; by vm_compute|].
  rewrite (Hg "k"%string). by vm_compute.
Defined.

(** A deleted key whose tombstone the peer [b] has acknowledged. *)
Definition acked_engine : CRDTEngine :=
  recordPeerTombstoneAck (Delete demo_engine "k" 6).2 "b" (mkEntry "k" [] 2 0 0 true).

Lemma acked_engine_wf : wf (state acked_engine).
Proof. unfold acked_engine. rewrite record_state. apply Delete_wf, demo_engine_spec. Qed.

Lemma gcTombstones_safe_witness :
  (let '(_, _, e') := gcTombstones acked_engine (Some {["a"; "b"]}) 9 in wf (state e')) ∧
  TombstoneCount (state acked_engine) = 1 ∧
  TombstoneCount (state (gcTombstones acked_engine (Some {["a"; "b"]}) 9).2) = 0.
Proof.
  split; [|split; vm_compute; reflexivity].
  assert (Hf : tombstoneFloor acked_engine = 0) by (vm_compute; reflexivity).
  pose proof (gcTombstones_safe acked_engine (Some {["a"; "b"]}) 9 acked_engine_wf
    ltac:(rewrite Hf; done) ltac:(rewrite Hf; done)) as Hg.
  destruct (gcTombstones acked_engine (Some {["a"; "b"]}) 9) as [[sf fl] e']. apply Hg.
Defined.

(** ** Behaviours the comments do not announce *)

(** When an origin's wall clock steps back between two writes, [Apply] is no longer
    a total order: the surviving value depends on the order of arrival. *)
Theorem Apply_arrival_order :
  let a1 := mkCanon "k" [byte_of 1] "a" 1 20 false in
  let a2 := mkCanon "k" [byte_of 2] "a" 2 10 false in
  let b := mkCanon "k" [byte_of 3] "b" 1 15 false in
  cview (foldl deliver (NewState "r") [a1; b; a2]) "k" = Some a2 ∧
  cview (foldl deliver (NewState "r") [a1; a2; b]) "k" = Some b.
Proof. by vm_compute. Qed.

(** A relayed delta leaves under the relay's name: [b] learns a key written by [a],
    and the frame it rebroadcasts says the origin is [b]. *)
Theorem rebroadcast_origin :
  let e := OnFrame (NewCRDTEngine "b") (frame_of [dA1]) in
  cOrigin <$> cview (state e) "k" = Some "a"%string ∧
  (DecodeFrame (concat (DrainBroadcasts e 0 0).1)).1.*2 = ["b"%string].
Proof. by vm_compute. Qed.

(** A cross-origin winner advances the replica without an event or a rebroadcast. *)
Theorem wall_tiebreak_silent :
  let e := OnFrame (NewCRDTEngine "r") (frame_of [dA1]) in
  let e' := OnFrame e (frame_of [dB]) in
  cview (state e') "k" = Some dB ∧ events e' = events e ∧ pending (queue e') = pending (queue e).
Proof. by vm_compute. Qed.

(** After a restart the local counter restarts at zero below the counters the node
    relearns as its own: its next write is dropped by a peer that holds them. *)
Theorem restart_write_lost :
  let old := mkCanon "k" [byte_of 1] "a" 5 20 false in
  let restarted := OnFrame (NewCRDTEngine "a") (frame_of [old]) in
  let '(v, e) := set restarted "k" [byte_of 2] 9 in
  let peer := OnFrame (NewCRDTEngine "b") (frame_of [old]) in
  let peer' := foldl OnFrame peer (DrainBroadcasts e 0 0).1 in
  v = 1 ∧ cValue <$> cview (state e) "k" = Some [byte_of 2] ∧
  cValue <$> cview (state peer') "k" = Some [byte_of 1].
Proof. by vm_compute. Qed.

(** Rebinding a key to a second lease leaves it in the first lease's set: the first
    lease's expiry deletes it although the second is alive. *)
Theorem rebound_key_expires :
  let e := (GrantLease (GrantLease (NewCRDTEngine "a") 10 0).2 99 0).2 in
  let e := (SetWithLease e "k" [byte_of 1] "a-clease-1" 1).2 in
  let e := (SetWithLease e "k" [byte_of 2] "a-clease-2" 2).2 in
  let e' := reaper e 50 (λ _, 3) in
  keyLease e !! "k"%string = Some "a-clease-2"%string ∧
  deadlines e' !! "a-clease-2"%string = Some 99 ∧ Get e' "k" = Err ErrKeyNotFound.
Proof. by vm_compute. Qed.
End concrete.
End Engine.
