(* ===== verification/KvLease.v ===== *)
(** * The lease manager of the key-value store ([system/kv/lease.go])

    Leases are kept in a binary min-heap of pointers ordered by expiry
    ([container/heap], modelled here as the standard library implements it), with
    an index from lease id to heap entry and to handle. Heap entries are shared:
    the heap slice and the [entries] map point to the same object, whose [index]
    field every swap maintains, so the model keeps them in a store and the slice
    and the map hold addresses. Times are nanoseconds.

    The theorems: the heap order and the back pointers are preserved by every
    operation, and [expired] pops exactly the leases that are due, in order. *)

From S2P Require Import Prelude.

Module Lease.

(** [leaseHeapEntry]. *)
Record leaseHeapEntry := mkHE { expiresAt : Z; heid : string; index : Z }.

(** [lease]: the handle given to callers; [done] is closed at most once. *)
Record lease := mkLease { lid : string; lttl : Z; lclosed : bool }.

(** The objects the heap points to, and the heap slice itself. *)
Record heapst := mkHS { store : list leaseHeapEntry; heap : list nat }.

(** ** [container/heap] over [leaseHeap] *)

Definition deadline (s : heapst) (p : nat) : Z := default 0 (expiresAt <$> store s !! p).

(** The expiry of the entry at slice position [i]. *)
Definition key (s : heapst) (i : nat) : Z := default 0 (deadline s <$> heap s !! i).

Definition Less (s : heapst) (i j : nat) : bool := bool_decide (key s i < key s j).

(** [entry.index = i] *)
Definition set_index (p : nat) (i : Z) (st : list leaseHeapEntry) : list leaseHeapEntry :=
  alter (λ e, mkHE (expiresAt e) (heid e) i) p st.

(** Positions out of range do not occur; the slice access would panic. *)
Definition Swap (s : heapst) (i j : nat) : heapst :=
  match heap s !! i, heap s !! j with
  | Some p, Some q =>
      mkHS (set_index p (Z.of_nat j) (set_index q (Z.of_nat i) (store s)))
           (<[j := p]> (<[i := q]> (heap s)))
  | _, _ => s
  end.

Definition parent (j : nat) : nat := Nat.div2 (j - 1).

Fixpoint up (fuel : nat) (s : heapst) (j : nat) : heapst :=
  match fuel with
  | O => s
  | S fuel =>
      let i := parent j in
      if bool_decide (i = j) || negb (Less s j i) then s
      else up fuel (Swap s i j) i
  end.

(** The state and whether the element moved. *)
Fixpoint down (fuel : nat) (s : heapst) (i n : nat) : bool * heapst :=
  match fuel with
  | O => (false, s)
  | S fuel =>
      let j1 := (2 * i + 1)%nat in
      if bool_decide (n ≤ j1)%nat then (false, s) else
      let j2 := S j1 in
      let j := if bool_decide (j2 < n)%nat && Less s j2 j1 then j2 else j1 in
      if negb (Less s j i) then (false, s)
      else (true, (down fuel (Swap s i j) j n).2)
  end.

(** [h.Push(x)] and [h.Pop()] of [leaseHeap]. *)
Definition heap_append (s : heapst) (p : nat) : heapst :=
  mkHS (set_index p (Z.of_nat (length (heap s))) (store s)) (heap s ++ [p]).

Definition heap_drop_last (s : heapst) : option nat * heapst :=
  let n := length (heap s) in
  match heap s !! (n - 1)%nat with
  | Some p => (Some p, mkHS (set_index p (-1) (store s)) (take (n - 1) (heap s)))
  | None => (None, s)
  end.

Definition Push (s : heapst) (p : nat) : heapst :=
  let s := heap_append s p in up (length (heap s)) s (length (heap s) - 1).

Definition Pop (s : heapst) : option nat * heapst :=
  let n := (length (heap s) - 1)%nat in
  let s := Swap s 0 n in
  heap_drop_last (down (length (heap s)) s 0 n).2.

Definition fix_at (s : heapst) (i n : nat) : heapst :=
  let '(moved, s') := down (length (heap s)) s i n in
  if moved then s' else up (length (heap s')) s' i.

Definition Remove (s : heapst) (i : nat) : option nat * heapst :=
  let n := (length (heap s) - 1)%nat in
  let s := if bool_decide (n ≠ i) then fix_at (Swap s i n) i n else s in
  heap_drop_last s.

Definition Fix (s : heapst) (i : nat) : heapst := fix_at s i (length (heap s)).

(** ** The manager *)

Record leaseManager := mkLM {
  hs : heapst;
  entries : gmap string nat;
  lstore : list lease;
  handles : gmap string nat
}.

Definition newLeaseManager : leaseManager := mkLM (mkHS [] []) ∅ [] ∅.

(** A new heap entry is allocated with index 0, the zero value. *)
Definition grant (m : leaseManager) (id : string) (ttl now : Z) : nat * leaseManager :=
  let p := length (store (hs m)) in
  let s := mkHS (store (hs m) ++ [mkHE (now + ttl) id 0]) (heap (hs m)) in
  let h := length (lstore m) in
  (h, mkLM (Push s p) (<[id := p]> (entries m)) (lstore m ++ [mkLease id ttl false])
        (<[id := h]> (handles m))).

Definition renew (m : leaseManager) (id : string) (now : Z) : bool * leaseManager :=
  match entries m !! id with
  | None => (false, m)
  | Some p =>
      match handles m !! id with
      | None => (false, m)
      | Some h =>
          let ttl := default 0 (lttl <$> lstore m !! h) in
          let s := mkHS (alter (λ e, mkHE (now + ttl) (heid e) (index e)) p (store (hs m)))
                        (heap (hs m)) in
          let i := default 0 (index <$> store s !! p) in
          (true, mkLM (Fix s (Z.to_nat i)) (entries m) (lstore m) (handles m))
      end
  end.

(** [handle.close()]. *)
Definition close (m : leaseManager) (h : nat) : leaseManager :=
  mkLM (hs m) (entries m) (alter (λ l, mkLease (lid l) (lttl l) true) h (lstore m)) (handles m).

Definition revoke (m : leaseManager) (id : string) : bool * leaseManager :=
  match entries m !! id with
  | None => (false, m)
  | Some p =>
      let i := default 0 (index <$> store (hs m) !! p) in
      let m := mkLM (Remove (hs m) (Z.to_nat i)).2 (delete id (entries m)) (lstore m) (handles m) in
      (true, match handles m !! id with
             | Some h => let m := close m h in
                         mkLM (hs m) (entries m) (lstore m) (delete id (handles m))
             | None => m
             end)
  end.

(** The pop loop of [expired]; the fuel is the heap's length. *)
Fixpoint expired_loop (fuel : nat) (m : leaseManager) (now : Z) (acc : list string)
    : list string * leaseManager :=
  match fuel, heap (hs m) with
  | S fuel, p :: _ =>
      if bool_decide (now < deadline (hs m) p) then (acc, m) else
      let id := default "" (heid <$> store (hs m) !! p) in
      expired_loop fuel (mkLM (Pop (hs m)).2 (delete id (entries m)) (lstore m) (handles m)) now
        (acc ++ [id])
  | _, _ => (acc, m)
  end.

Definition expired (m : leaseManager) (now : Z) : list string * leaseManager :=
  expired_loop (length (heap (hs m))) m now [].

Definition nextExpiry (m : leaseManager) : option Z :=
  match heap (hs m) with p :: _ => Some (deadline (hs m) p) | [] => None end.

Definition getHandle (m : leaseManager) (id : string) : option nat := handles m !! id.

(** ** Swaps move pointers, not objects *)

Definition obj (s : heapst) (p : nat) : option (Z * string) :=
  (λ e, (expiresAt e, heid e)) <$> store s !! p.

Definition idx_ok (s : heapst) : Prop :=
  ∀ i p, heap s !! i = Some p → ∃ e, store s !! p = Some e ∧ index e = Z.of_nat i.

(** [s'] rearranges the first [n] slice positions of [s]. *)
Record reorder (n : nat) (s s' : heapst) : Prop := {
  re_obj : ∀ p, obj s' p = obj s p;
  re_perm : heap s' ≡ₚ heap s;
  re_idx : idx_ok s → idx_ok s';
  re_tail : ∀ i, (n ≤ i)%nat → heap s' !! i = heap s !! i;
  re_store : length (store s') = length (store s)
}.

#[export] Instance reorder_refl n : Reflexive (reorder n).
Proof. done. Qed.

#[export] Instance reorder_trans n : Transitive (reorder n).
Proof.
  intros a b c [A1 A2 A3 A4 A5] [B1 B2 B3 B4 B5]. split; [|by rewrite B2|auto| |congruence].
  - intros p. by rewrite B1.
  - intros i Hi. by rewrite B4, A4.
Qed.

Lemma reorder_length n s s' : reorder n s s' → length (heap s') = length (heap s).
Proof. intros [_ Hp _ _ _]. by rewrite Hp. Qed.

Lemma set_index_lookup p i st q :
  set_index p i st !! q =
  if decide (p = q) then (λ e, mkHE (expiresAt e) (heid e) i) <$> st !! q else st !! q.
Proof.
  unfold set_index. case_decide as Hp; [subst; apply list_lookup_alter_eq|].
  by apply list_lookup_alter_ne.
Qed.

Lemma obj_set_index p i s h q : obj (mkHS (set_index p i (store s)) h) q = obj s q.
Proof. unfold obj. cbn [store]. rewrite set_index_lookup. case_decide; [|done]. by destruct (store s !! q). Qed.

Lemma length_set_index p i st : length (set_index p i st) = length st.
Proof. apply length_alter. Qed.

Lemma deadline_obj s p : deadline s p = default 0 (fst <$> obj s p).
Proof. unfold deadline, obj. by destruct (store s !! p). Qed.

Lemma Swap_lookup s i j k :
  (i < length (heap s))%nat → (j < length (heap s))%nat →
  heap (Swap s i j) !! k =
  if decide (k = j) then heap s !! i else if decide (k = i) then heap s !! j else heap s !! k.
Proof.
  intros Hi Hj. unfold Swap.
  destruct (lookup_lt_is_Some_2 _ _ Hi) as [p Hp], (lookup_lt_is_Some_2 _ _ Hj) as [q Hq].
  rewrite Hp, Hq. cbn [heap]. case_decide; [subst; by rewrite list_lookup_insert_eq by (by rewrite length_insert)|].
  rewrite list_lookup_insert_ne by done.
  case_decide; [subst; by rewrite list_lookup_insert_eq|by rewrite list_lookup_insert_ne].
Qed.

Lemma Swap_reorder n s i j :
  (i < n)%nat → (j < n)%nat → (n ≤ length (heap s))%nat → reorder n s (Swap s i j).
Proof.
  intros Hi Hj Hn.
  assert (Hl : ∀ k, heap (Swap s i j) !! k =
    if decide (k = j) then heap s !! i else if decide (k = i) then heap s !! j else heap s !! k)
    by (intros k; apply Swap_lookup; lia).
  revert Hl. unfold Swap.
  destruct (heap s !! i) as [p|] eqn:Hp, (heap s !! j) as [q|] eqn:Hq; [|done..]. intros Hl. split.
  - intros r. etransitivity; [apply (obj_set_index _ _ (mkHS _ []))|apply obj_set_index].
  - by apply Permutation_insert_swap.
  - intros Hok k r. cbn [store]. rewrite Hl. intros Hr.
    destruct (Hok i p Hp) as (ep & Ep & Ip), (Hok j q Hq) as (eq & Eq & Iq).
    rewrite !set_index_lookup. destruct (decide (k = j)) as [->|Hkj].
    + simplify_eq. rewrite decide_True by done.
      destruct (decide (q = r)) as [->|]; rewrite Ep; simpl; eauto.
    + destruct (decide (k = i)) as [->|Hki].
      * simplify_eq. rewrite decide_False by (intros ->; simplify_eq; lia).
        rewrite decide_True by done. rewrite Eq. simpl. eauto.
      * destruct (Hok k r Hr) as (e & E & I).
        rewrite !decide_False by (intros ->; simplify_eq; lia). eauto.
  - intros k Hk. rewrite Hl. rewrite !decide_False by lia. done.
  - cbn [store]. by rewrite !length_set_index.
Qed.

Lemma key_reorder n s s' i j :
  reorder n s s' → heap s' !! i = heap s !! j → key s' i = key s j.
Proof.
  intros Hr He. unfold key. rewrite He. destruct (heap s !! j) as [p|]; [|done]. simpl.
  by rewrite !deadline_obj, (re_obj _ _ _ Hr).
Qed.

Lemma Swap_key n s i j k :
  (i < n)%nat → (j < n)%nat → (n ≤ length (heap s))%nat →
  key (Swap s i j) k =
  if decide (k = j) then key s i else if decide (k = i) then key s j else key s k.
Proof.
  intros Hi Hj Hn. pose proof (Swap_reorder n s i j Hi Hj Hn) as Hr.
  pose proof (Swap_lookup s i j k ltac:(lia) ltac:(lia)) as Hl.
  repeat case_decide; by eapply key_reorder.
Qed.

(** ** The heap order *)

Definition ordered (s : heapst) (n : nat) : Prop :=
  ∀ i, (0 < i < n)%nat → key s (parent i) ≤ key s i.

Lemma parent_spec i : (0 < i)%nat → (i = 2 * parent i + 1 ∨ i = 2 * parent i + 2)%nat.
Proof. unfold parent. intros Hi. pose proof (Nat.div2_odd (i - 1)). destruct (Nat.odd _); simpl in *; lia. Qed.

Lemma parent_lt i : (0 < i)%nat → (parent i < i)%nat.
Proof. intros Hi. pose proof (parent_spec i Hi). lia. Qed.

Lemma parent_child i c : (c = 2 * i + 1 ∨ c = 2 * i + 2)%nat → parent c = i.
Proof. intros Hc. pose proof (parent_spec c ltac:(lia)). lia. Qed.

(** Sifting up repairs a single violation at [j]. *)
Lemma up_ordered n fuel s j :
  (j < n)%nat → (n ≤ length (heap s))%nat → (j < fuel)%nat →
  (∀ i, (0 < i < n)%nat → i ≠ j → key s (parent i) ≤ key s i) →
  ((0 < j)%nat → ∀ i, (0 < i < n)%nat → parent i = j → key s (parent j) ≤ key s i) →
  reorder n s (up fuel s j) ∧ ordered (up fuel s j) n.
Proof.
  revert s j. induction fuel as [|fuel IH]; intros s j Hj Hn Hf Ho Hc; [lia|]. cbn [up].
  destruct (decide (j = 0)%nat) as [->|Hj0].
  { simpl. split; [done|]. intros i Hi. apply Ho; lia. }
  pose proof (parent_lt j ltac:(lia)) as Hp. rewrite bool_decide_eq_false_2 by lia. cbn [orb].
  unfold Less. case_bool; cbn [negb].
  2:{ split; [done|]. intros i Hi. destruct (decide (i = j)) as [->|]; [lia|]. by apply Ho. }
  pose proof (λ k, Swap_key n s (parent j) j k ltac:(lia) Hj Hn) as Hk.
  pose proof (Swap_reorder n s (parent j) j ltac:(lia) Hj Hn) as Hr.
  destruct (IH (Swap s (parent j) j) (parent j)) as [Hr' Ho'].
  - lia.
  - rewrite (reorder_length _ _ _ Hr). lia.
  - lia.
  - intros i Hi Hne. rewrite !Hk.
    destruct (decide (i = j)) as [->|Hij].
    { rewrite (decide_False (P := parent j = j)), decide_True by lia. lia. }
    rewrite (decide_False (P := i = parent j)) by done.
    destruct (decide (parent i = j)) as [Hpi|Hpi]; [by apply Hc; lia|].
    destruct (decide (parent i = parent j)) as [Hpp|Hpp]; [|by apply Ho].
    pose proof (Ho i Hi Hij). rewrite Hpp in *. lia.
  - intros Hp0 i Hi Hpi. rewrite !Hk.
    pose proof (parent_lt (parent j) Hp0) as Hpp.
    rewrite (decide_False (P := parent (parent j) = j)), (decide_False (P := parent (parent j) = parent j)) by lia.
    pose proof (Ho (parent j) ltac:(lia) ltac:(lia)) as H1.
    destruct (decide (i = j)) as [->|Hij]; [done|].
    rewrite decide_False by (intros ->; pose proof (parent_lt (parent j) Hp0); lia).
    pose proof (Ho i Hi Hij) as H2. rewrite Hpi in H2. lia.
  - split; [by etrans|done].
Qed.

(** Sifting down from [i]: either nothing moved and only the edge above [i] may be
    violated, or the order is restored. *)
Lemma down_ordered n fuel s i :
  (i < n)%nat → (n ≤ length (heap s))%nat → (n ≤ i + fuel)%nat →
  (∀ m, (0 < m < n)%nat → parent m ≠ i → m ≠ i → key s (parent m) ≤ key s m) →
  ((0 < i)%nat → ∀ m, (0 < m < n)%nat → parent m = i → key s (parent i) ≤ key s m) →
  let '(moved, s') := down fuel s i n in
  reorder n s s' ∧
  if moved then ordered s' n
  else s' = s ∧ ∀ m, (0 < m < n)%nat → m ≠ i → key s (parent m) ≤ key s m.
Proof.
  revert s i. induction fuel as [|fuel IH]; intros s i Hi Hn Hf Ho Hc; [lia|]. cbn [down].
  destruct (decide (n ≤ 2 * i + 1)%nat) as [Hj1|Hj1].
  { rewrite bool_decide_eq_true_2 by done. split_and!; [done..|]. intros m Hm Hne.
    apply Ho; [done| |done]. pose proof (parent_spec m ltac:(lia)). lia. }
  rewrite bool_decide_eq_false_2 by done.
  set (j := if _ && _ then _ else _).
  assert (Hj : (j = 2 * i + 1 ∨ j = 2 * i + 2)%nat ∧ (j < n)%nat ∧
    ∀ m, (0 < m < n)%nat → parent m = i → key s j ≤ key s m).
  { assert (Hm' : ∀ m, (0 < m < n)%nat → parent m = i → (m = 2 * i + 1 ∨ m = S (2 * i + 1))%nat)
      by (intros m Hm Hp; pose proof (parent_spec m ltac:(lia)); lia).
    unfold j, Less. remember (2 * i + 1)%nat as c eqn:Ec.
    case_bool; cbn [andb]; (split_and!; [lia..|]); intros m Hm Hp;
      destruct (Hm' m Hm Hp) as [-> | ->]; lia. }
  clearbody j. destruct Hj as (Hch & Hjn & Hmin).
  pose proof (parent_child i j Hch) as Hpj. unfold Less. case_bool; cbn [negb].
  2:{ split_and!; [done..|]. intros m Hm Hne. destruct (decide (parent m = i)) as [Hp|Hp]; [|by apply Ho].
      pose proof (Hmin m Hm Hp). rewrite Hp. lia. }
  pose proof (λ k, Swap_key n s i j k Hi Hjn Hn) as Hk.
  pose proof (Swap_reorder n s i j Hi Hjn Hn) as Hr.
  specialize (IH (Swap s i j) j Hjn). rewrite (reorder_length _ _ _ Hr) in IH.
  specialize (IH Hn ltac:(lia)).
  destruct (down fuel (Swap s i j) j n) as [mv s'] eqn:Ed.
  destruct IH as [Hr' Hpost].
  - intros m Hm Hp Hne. rewrite !Hk. rewrite (decide_False (P := parent m = j)), (decide_False (P := m = j)) by done.
    destruct (decide (m = i)) as [->|Hmi].
    { rewrite decide_False by (pose proof (parent_lt i ltac:(lia)); lia). apply Hc; lia. }
    destruct (decide (parent m = i)) as [Hpi|Hpi]; [by apply Hmin|]. by apply Ho.
  - intros _ m Hm Hp. rewrite !Hk, Hpj.
    rewrite (decide_False (P := i = j)), decide_True by lia.
    pose proof (parent_lt m ltac:(lia)). rewrite !decide_False by lia.
    rewrite <- Hp. apply Ho; lia.
  - split; [by etrans|]. cbn [snd]. destruct mv; [done|]. destruct Hpost as [-> Hpost].
    intros m Hm. destruct (decide (m = j)) as [->|Hmj]; [|by apply Hpost].
    rewrite !Hk, Hpj, (decide_False (P := i = j)), !decide_True by lia. lia.
Qed.

Lemma fix_at_ordered n s i :
  (i < n)%nat → (n ≤ length (heap s))%nat →
  (∀ m, (0 < m < n)%nat → parent m ≠ i → m ≠ i → key s (parent m) ≤ key s m) →
  ((0 < i)%nat → ∀ m, (0 < m < n)%nat → parent m = i → key s (parent i) ≤ key s m) →
  reorder n s (fix_at s i n) ∧ ordered (fix_at s i n) n.
Proof.
  intros Hi Hn Ho Hc. unfold fix_at.
  pose proof (down_ordered n (length (heap s)) s i Hi Hn ltac:(lia) Ho Hc) as Hd.
  destruct (down _ s i n) as [[] s']; destruct Hd as [Hr Hpost]; [done|].
  destruct Hpost as [-> Hpost]. apply up_ordered; try done; lia.
Qed.

Lemma idx_NoDup s : idx_ok s → NoDup (heap s).
Proof.
  intros Hok. apply NoDup_alt. intros i j p Hi Hj.
  destruct (Hok i p Hi) as (e & E & I), (Hok j p Hj) as (e' & E' & I'). simplify_eq. lia.
Qed.

(** Dropping the last slice element forgets one pointer. *)
Lemma drop_last_spec s n :
  idx_ok s → length (heap s) = S n → ordered s n →
  ∃ p, heap s !! n = Some p ∧
  let s' := (heap_drop_last s).2 in
  (heap_drop_last s).1 = Some p ∧ heap s = heap s' ++ [p] ∧ (∀ q, obj s' q = obj s q) ∧
  idx_ok s' ∧ ordered s' (length (heap s')) ∧ length (store s') = length (store s).
Proof.
  intros Hok Hl Ho. destruct (lookup_lt_is_Some_2 (heap s) n ltac:(lia)) as [p Hp].
  exists p. split; [done|]. unfold heap_drop_last. rewrite Hl. replace (S n - 1)%nat with n by lia.
  rewrite Hp. cbn [snd fst heap store].
  assert (Hsplit : heap s = take n (heap s) ++ [p])
    by (rewrite <- (take_S_r _ _ _ Hp); rewrite take_ge by lia; done).
  assert (Hobj : ∀ q, obj (mkHS (set_index p (-1) (store s)) (take n (heap s))) q = obj s q)
    by (intros q; apply obj_set_index).
  split_and!; [done|done|done| | |by rewrite length_set_index].
  - intros i q. cbn [heap store]. intros Hq. pose proof Hq as Hq'. apply lookup_take_Some in Hq' as [Hq' Hin].
    destruct (Hok i q Hq') as (e & E & I). exists e. split; [|done].
    rewrite set_index_lookup, decide_False; [done|]. intros ->.
    destruct (Hok n q Hp) as (e' & E' & I'). simplify_eq. lia.
  - rewrite length_take, Hl. replace (n `min` S n)%nat with n by lia.
    intros i Hi. pose proof (parent_lt i ltac:(lia)) as Hpi.
    assert (Hk : ∀ j, (j < n)%nat →
      key (mkHS (set_index p (-1) (store s)) (take n (heap s))) j = key s j).
    { intros j Hj. unfold key. cbn [heap]. rewrite lookup_take_lt by lia.
      destruct (heap s !! j) as [q|]; [|done]. simpl. by rewrite !deadline_obj, Hobj. }
    rewrite !Hk by lia. by apply Ho.
Qed.

Lemma Push_spec s p e :
  idx_ok s → ordered s (length (heap s)) → store s !! p = Some e → p ∉ heap s →
  let s' := Push s p in
  idx_ok s' ∧ ordered s' (length (heap s')) ∧ heap s' ≡ₚ p :: heap s ∧
  (∀ q, obj s' q = obj s q) ∧ length (store s') = length (store s).
Proof.
  intros Hok Ho He Hp. unfold Push. set (s1 := heap_append s p).
  assert (Hl : length (heap s1) = S (length (heap s))) by (unfold s1; simpl; rewrite length_app; simpl; lia).
  assert (Hobj : ∀ q, obj s1 q = obj s q) by (intros q; apply obj_set_index).
  assert (Hok1 : idx_ok s1).
  { intros i q. unfold s1, heap_append. cbn [heap store]. rewrite set_index_lookup. intros Hq.
    apply lookup_snoc_Some in Hq as [[Hi Hq]|[-> <-]].
    - destruct (Hok i q Hq) as (e' & E & I). rewrite decide_False; [eauto|].
      intros ->. apply Hp. by eapply list_elem_of_lookup_2.
    - rewrite decide_True, He by done. simpl. eauto. }
  assert (Hk : ∀ i, (i < length (heap s))%nat → key s1 i = key s i).
  { intros i Hi. unfold key. unfold s1 at 2. cbn [heap heap_append]. rewrite lookup_app_l by done.
    destruct (heap s !! i); [|done]. simpl. by rewrite !deadline_obj, Hobj. }
  destruct (up_ordered (length (heap s1)) (length (heap s1)) s1 (length (heap s1) - 1)) as [Hr Ho'];
    [lia..| | |].
  - intros i Hi Hne. pose proof (parent_lt i ltac:(lia)). rewrite !Hk by lia. apply Ho. lia.
  - intros _ i Hi Hpi. pose proof (parent_lt i ltac:(lia)). lia.
  - cbv zeta. split_and!.
    + by apply (re_idx _ _ _ Hr).
    + by rewrite (reorder_length _ _ _ Hr).
    + rewrite (re_perm _ _ _ Hr). unfold s1. simpl. apply Permutation_app_comm.
    + intros q. by rewrite (re_obj _ _ _ Hr).
    + rewrite (re_store _ _ _ Hr). unfold s1. simpl. apply length_set_index.
Qed.

(** Removing position [i]: its pointer leaves, the rest stays a heap. *)
Lemma Remove_spec s i p :
  idx_ok s → ordered s (length (heap s)) → heap s !! i = Some p →
  let s' := (Remove s i).2 in
  (Remove s i).1 = Some p ∧ idx_ok s' ∧ ordered s' (length (heap s')) ∧ heap s ≡ₚ p :: heap s' ∧
  (∀ q, obj s' q = obj s q) ∧ length (store s') = length (store s).
Proof.
  intros Hok Ho Hp. pose proof (lookup_lt_Some _ _ _ Hp) as Hi. unfold Remove.
  remember (length (heap s) - 1)%nat as n eqn:En.
  set (s1 := if bool_decide (n ≠ i) then fix_at (Swap s i n) i n else s).
  assert (Hs1 : reorder (length (heap s)) s s1 ∧ ordered s1 n ∧ heap s1 !! n = Some p).
  { unfold s1. destruct (decide (n = i)) as [<-|Hne].
    { rewrite bool_decide_eq_false_2 by (by intros ?). split_and!; [done| |done].
      intros k Hk. apply Ho. lia. }
    rewrite bool_decide_eq_true_2 by done.
    pose proof (λ k, Swap_key (length (heap s)) s i n k ltac:(lia) ltac:(lia) ltac:(lia)) as Hk.
    pose proof (Swap_reorder (length (heap s)) s i n ltac:(lia) ltac:(lia) ltac:(lia)) as Hr.
    destruct (fix_at_ordered n (Swap s i n) i) as [Hr' Ho'].
    - lia.
    - rewrite (reorder_length _ _ _ Hr). lia.
    - intros m Hm Hpm Hmi. pose proof (parent_lt m ltac:(lia)).
      rewrite !Hk, !decide_False by lia. apply Ho. lia.
    - intros Hi0 m Hm Hpm. pose proof (parent_lt m ltac:(lia)). pose proof (parent_lt i Hi0).
      rewrite !Hk, !decide_False by lia.
      pose proof (Ho i ltac:(lia)). pose proof (Ho m ltac:(lia)) as Hx. rewrite Hpm in Hx. lia.
    - split_and!; [|done|].
      + etrans; [done|]. destruct Hr' as [R1 R2 R3 R4 R5]. split; try done. intros k Hk'. apply R4. lia.
      + rewrite (re_tail _ _ _ Hr') by lia. rewrite Swap_lookup by lia. by rewrite decide_True. }
  destruct Hs1 as (Hr & Ho1 & Hlast).
  destruct (drop_last_spec s1 n) as (p' & Hp' & D1 & D2 & D3 & D4 & D5 & D6);
    [by apply (re_idx _ _ _ Hr)|rewrite (reorder_length _ _ _ Hr); lia|done|].
  assert (p' = p) as -> by congruence. split_and!; [done|done|done| | |].
  - rewrite <- (re_perm _ _ _ Hr), D2. apply Permutation_app_comm.
  - intros q. by rewrite D3, (re_obj _ _ _ Hr).
  - by rewrite D6, (re_store _ _ _ Hr).
Qed.

Lemma Pop_spec s p l :
  idx_ok s → ordered s (length (heap s)) → heap s = p :: l →
  let s' := (Pop s).2 in
  (Pop s).1 = Some p ∧ idx_ok s' ∧ ordered s' (length (heap s')) ∧ heap s ≡ₚ p :: heap s' ∧
  (∀ q, obj s' q = obj s q).
Proof.
  intros Hok Ho Hl. unfold Pop.
  assert (Hlen : length (heap s) = S (length l)) by (by rewrite Hl).
  rewrite Hlen. replace (S (length l) - 1)%nat with (length l) by lia.
  remember (length l) as n eqn:En. set (s1 := Swap s 0 n).
  pose proof (λ k, Swap_key (S n) s 0 n k ltac:(lia) ltac:(lia) ltac:(lia)) as Hk.
  pose proof (Swap_reorder (S n) s 0 n ltac:(lia) ltac:(lia) ltac:(lia)) as Hr. fold s1 in Hk, Hr.
  set (s2 := (down (length (heap s1)) s1 0 n).2).
  assert (H2 : reorder n s1 s2 ∧ ordered s2 n).
  { destruct (decide (n = 0)%nat) as [Hn0|Hn0].
    { assert (s2 = s1) as ->.
      { unfold s2. destruct (length (heap s1)); [done|]. cbn [down]. by rewrite bool_decide_eq_true_2 by lia. }
      split; [done|]. intros i Hi. lia. }
    pose proof (reorder_length _ _ _ Hr) as Hl1.
    pose proof (down_ordered n (length (heap s1)) s1 0 ltac:(lia) ltac:(lia) ltac:(lia)) as Hd.
    assert (Hpre : ∀ m, (0 < m < n)%nat → parent m ≠ 0%nat → m ≠ 0%nat → key s1 (parent m) ≤ key s1 m).
    { intros m Hm Hpm _. pose proof (parent_lt m ltac:(lia)). rewrite !Hk, !decide_False by lia.
      apply Ho. lia. }
    specialize (Hd Hpre ltac:(lia)). unfold s2.
    destruct (down _ s1 0 n) as [mv s']. destruct Hd as [Hr' Hpost].
    split; [done|]. destruct mv; [done|]. destruct Hpost as [-> Hpost]. intros m Hm. apply Hpost; lia. }
  destruct H2 as [Hr2 Ho2].
  assert (Hlast : heap s2 !! n = Some p).
  { rewrite (re_tail _ _ _ Hr2) by lia. unfold s1. rewrite Swap_lookup by lia.
    rewrite decide_True by done. by rewrite Hl. }
  destruct (drop_last_spec s2 n) as (p' & Hp' & D1 & D2 & D3 & D4 & D5 & _).
  { by apply (re_idx _ _ _ Hr2), (re_idx _ _ _ Hr). }
  { rewrite (reorder_length _ _ _ Hr2), (reorder_length _ _ _ Hr). lia. }
  { done. }
  assert (p' = p) as -> by congruence. split_and!; [done|done|done| |].
  - rewrite <- (re_perm _ _ _ Hr), <- (re_perm _ _ _ Hr2), D2. apply Permutation_app_comm.
  - intros q. by rewrite D3, (re_obj _ _ _ Hr2), (re_obj _ _ _ Hr).
Qed.

(** The root carries the least deadline. *)
Lemma ordered_root s i :
  ordered s (length (heap s)) → (i < length (heap s))%nat → key s 0 ≤ key s i.
Proof.
  intros Ho. induction i as [i IH] using lt_wf_ind. intros Hi.
  destruct (decide (i = 0)%nat) as [->|Hne]; [lia|].
  pose proof (parent_lt i ltac:(lia)) as Hp. pose proof (Ho i ltac:(lia)).
  pose proof (IH (parent i) Hp ltac:(lia)). lia.
Qed.

(** ** The manager as a map from lease id to deadline and ttl *)

(** The heap is ordered, back pointers are exact, [entries] indexes exactly the
    heap, and every indexed lease has an open handle of its own. *)
Record lm_wf (m : leaseManager) : Prop := {
  lw_idx : idx_ok (hs m);
  lw_ord : ordered (hs m) (length (heap (hs m)));
  lw_entries : ∀ id p, entries m !! id = Some p ↔
    p ∈ heap (hs m) ∧ ∃ d, obj (hs m) p = Some (d, id);
  lw_handles : ∀ id p, entries m !! id = Some p → is_Some (handles m !! id);
  lw_objs : ∀ id h, handles m !! id = Some h →
    ∃ l, lstore m !! h = Some l ∧ lid l = id ∧ lclosed l = false
}.

Definition ttl_of (m : leaseManager) (id : string) : Z :=
  default 0 (h ← handles m !! id; lttl <$> lstore m !! h).

Definition view (m : leaseManager) (id : string) : option (Z * Z) :=
  p ← entries m !! id; (λ o, (o.1, ttl_of m id)) <$> obj (hs m) p.

Lemma view_Some m id d t :
  lm_wf m → view m id = Some (d, t) ↔
  t = ttl_of m id ∧ ∃ p, entries m !! id = Some p ∧ p ∈ heap (hs m) ∧ obj (hs m) p = Some (d, id).
Proof.
  intros Hm. unfold view. split.
  - intros Hv. destruct (entries m !! id) as [p|] eqn:Ep; [|done]. simpl in Hv.
    destruct (proj1 (lw_entries m Hm id p) Ep) as [Hp [d' Hd]]. rewrite Hd in Hv. simplify_eq/=. eauto.
  - intros [-> (p & Ep & _ & Hd)]. rewrite Ep. simpl. by rewrite Hd.
Qed.

Lemma view_None m id : lm_wf m → view m id = None ↔ entries m !! id = None.
Proof.
  intros Hm. unfold view. destruct (entries m !! id) as [p|] eqn:Ep; [|done]. simpl.
  destruct (proj1 (lw_entries m Hm id p) Ep) as [_ [d Hd]]. by rewrite Hd.
Qed.

Lemma newLeaseManager_wf : lm_wf newLeaseManager.
Proof.
  split; [done|intros i Hi; simpl in *; lia| |done|done].
  intros id p. simpl. rewrite lookup_empty. split; [done|]. by intros [Hp%elem_of_nil _].
Qed.

Lemma obj_push st e h p :
  obj (mkHS (st ++ [e]) h) p =
  if decide (p = length st) then Some (expiresAt e, heid e) else (λ e, (expiresAt e, heid e)) <$> st !! p.
Proof.
  unfold obj. cbn [store]. case_decide as Hp; [subst; by rewrite list_lookup_middle|].
  destruct (decide (p < length st)%nat); [by rewrite lookup_app_l|].
  rewrite (lookup_ge_None_2 st), lookup_ge_None_2 by (rewrite ?length_app; simpl; lia). done.
Qed.

(** Allocating a heap entry and pushing it. *)
Lemma push_new s d id :
  idx_ok s → ordered s (length (heap s)) →
  let p := length (store s) in
  let s' := Push (mkHS (store s ++ [mkHE d id 0]) (heap s)) p in
  idx_ok s' ∧ ordered s' (length (heap s')) ∧ heap s' ≡ₚ p :: heap s ∧
  (∀ q, obj s' q = if decide (q = p) then Some (d, id) else obj s q) ∧
  (∀ q, q ∈ heap s → q ≠ p).
Proof.
  intros W1 W2. cbv zeta. set (p := length (store s)). set (e := mkHE d id 0).
  set (s0 := mkHS (store s ++ [e]) (heap s)).
  assert (Hlt : ∀ q, q ∈ heap s → q ≠ p).
  { intros q [i Hi]%list_elem_of_lookup. destruct (W1 i q Hi) as (e' & E & _).
    apply lookup_lt_Some in E. lia. }
  assert (Hobj : ∀ q, obj s0 q = if decide (q = p) then Some (d, id) else obj s q)
    by (intros q; apply obj_push).
  assert (Hk : ∀ i, key s0 i = key s i).
  { intros i. unfold key, s0 at 2. cbn [heap]. destruct (heap s !! i) as [q|] eqn:E; [|done]. simpl.
    rewrite !deadline_obj, Hobj, decide_False; [done|]. by apply list_elem_of_lookup_2, Hlt in E. }
  destruct (Push_spec s0 p e) as (P1 & P2 & P3 & P4 & _).
  - intros i q Hq. destruct (W1 i q Hq) as (e' & E & I). exists e'. split; [|done].
    unfold s0. cbn [store]. by apply lookup_app_l_Some.
  - intros i Hi. rewrite !Hk. by apply W2.
  - unfold s0. cbn [store]. by apply list_lookup_middle.
  - by intros Hp%Hlt.
  - split_and!; [done..| |done]. intros q. by rewrite P4.
Qed.

Lemma grant_spec m id ttl now :
  lm_wf m → view m id = None →
  let m' := (grant m id ttl now).2 in
  lm_wf m' ∧ ∀ k, view m' k = if decide (k = id) then Some (now + ttl, ttl) else view m k.
Proof.
  intros Hm Hv%view_None; [|done]. unfold grant. cbn [snd]. destruct Hm as [W1 W2 W3 W4 W5].
  destruct (push_new (hs m) (now + ttl) id W1 W2) as (P1 & P2 & P3 & P4 & Hlt).
  set (p := length (store (hs m))) in *. set (s1 := Push _ p) in *.
  assert (Hh : ∀ k, k ≠ id → ttl_of (mkLM s1 (<[id:=p]> (entries m))
     (lstore m ++ [mkLease id ttl false]) (<[id:=length (lstore m)]> (handles m))) k = ttl_of m k).
  { intros k Hk'. unfold ttl_of. simpl. rewrite lookup_insert_ne by done.
    destruct (handles m !! k) as [h|] eqn:Eh; [|done]. simpl.
    destruct (W5 k h Eh) as (l & Hl & _). by rewrite lookup_app_l, Hl by (by eapply lookup_lt_Some). }
  split; [split; simpl; try done|].
  - intros k q. rewrite lookup_insert, P3, elem_of_cons. setoid_rewrite P4.
    destruct (decide (id = k)) as [<-|Hne].
    + split; [intros [= <-]; split; [by left|]; rewrite decide_True by done; eauto|].
      intros [[->|Hq] [d Hd]]; [done|]. exfalso. rewrite decide_False in Hd by (by apply Hlt).
      assert (entries m !! id = Some q) by (apply W3; eauto). congruence.
    + rewrite W3. split.
      * intros [Hq Hd]. split; [by right|]. by rewrite decide_False by (by apply Hlt).
      * intros [[->|Hq] [d Hd]]; [by rewrite decide_True in Hd by done; simplify_eq|].
        rewrite decide_False in Hd by (by apply Hlt). eauto.
  - intros k q. rewrite !lookup_insert. destruct (decide (id = k)); [eauto|]. apply W4.
  - intros k h. rewrite lookup_insert. destruct (decide (id = k)) as [<-|Hne].
    + intros [= <-]. rewrite list_lookup_middle by done. eauto.
    + intros Hh'%W5. destruct Hh' as (l & Hl & ?). exists l. split; [|done]. by apply lookup_app_l_Some.
  - intros k. unfold view at 1. cbn [entries hs]. rewrite lookup_insert.
    destruct (decide (id = k)) as [<-|Hne].
    + rewrite decide_True by done. simpl. rewrite P4, decide_True by done. simpl.
      unfold ttl_of. simpl. rewrite lookup_insert_eq. simpl. by rewrite list_lookup_middle.
    + rewrite decide_False by done. unfold view. destruct (entries m !! k) as [q|] eqn:Eq; [|done]. simpl.
      rewrite P4, decide_False, Hh by (done || (apply W3 in Eq as [Hq _]; by apply Hlt)). done.
Qed.

(** Changing the deadline of the entry at position [i] and restoring the order. *)
Lemma retime_spec s i p e d :
  idx_ok s → ordered s (length (heap s)) → heap s !! i = Some p → store s !! p = Some e →
  let s' := Fix (mkHS (alter (λ e, mkHE d (heid e) (index e)) p (store s)) (heap s)) i in
  idx_ok s' ∧ ordered s' (length (heap s')) ∧ heap s' ≡ₚ heap s ∧
  ∀ q, obj s' q = if decide (q = p) then Some (d, heid e) else obj s q.
Proof.
  intros W1 W2 Hi E. cbv zeta. set (s0 := mkHS _ _).
  assert (Hst : ∀ q, store s0 !! q =
    if decide (q = p) then Some (mkHE d (heid e) (index e)) else store s !! q).
  { intros q. unfold s0. cbn [store]. case_decide as Hq.
    - subst q. rewrite list_lookup_alter_eq, E. done.
    - by rewrite list_lookup_alter_ne. }
  assert (Hobj : ∀ q, obj s0 q = if decide (q = p) then Some (d, heid e) else obj s q)
    by (intros q; unfold obj; rewrite Hst; by case_decide).
  assert (Hkey : ∀ j, j ≠ i → key s0 j = key s j).
  { intros j Hj. unfold key, s0 at 2. cbn [heap]. destruct (heap s !! j) as [q|] eqn:Eq; [|done]. simpl.
    rewrite !deadline_obj, Hobj, decide_False; [done|]. intros ->.
    apply Hj. exact (NoDup_lookup _ _ _ _ (idx_NoDup _ W1) Eq Hi). }
  pose proof (lookup_lt_Some _ _ _ Hi) as Hlt. change (heap s) with (heap s0) in Hlt at 1.
  destruct (fix_at_ordered (length (heap s0)) s0 i) as [Hr Ho]; [done|done| | |].
  - intros j Hj Hpj Hji. rewrite !Hkey by done. by apply W2.
  - intros Hi0 j Hj Hpj. pose proof (parent_lt i Hi0). pose proof (parent_lt j ltac:(lia)).
    rewrite !Hkey by lia. pose proof (W2 i ltac:(simpl in *; lia)).
    pose proof (W2 j ltac:(simpl in *; lia)) as Hx. rewrite Hpj in Hx. lia.
  - change (fix_at s0 i (length (heap s0))) with (Fix s0 i) in *. split_and!.
    + apply (re_idx _ _ _ Hr). intros j q Hq. destruct (W1 j q Hq) as (e' & E' & I'). rewrite Hst.
      case_decide; [subst; simplify_eq; eauto|eauto].
    + by rewrite (reorder_length _ _ _ Hr).
    + apply (re_perm _ _ _ Hr).
    + intros q. by rewrite (re_obj _ _ _ Hr).
Qed.

Lemma renew_spec m id now :
  lm_wf m →
  let '(ok, m') := renew m id now in
  lm_wf m' ∧ ok = bool_decide (is_Some (view m id)) ∧
  ∀ k, view m' k = if decide (k = id) then (λ v, (now + v.2, v.2)) <$> view m id else view m k.
Proof.
  intros Hm. unfold renew. destruct (entries m !! id) as [p|] eqn:Ep.
  2:{ assert (Hn : view m id = None) by (by apply view_None). rewrite Hn.
      split_and!; [done|by rewrite bool_decide_eq_false_2 by (by intros [? ?])|].
      intros k. case_decide; [by subst|done]. }
  pose proof Hm as [W1 W2 W3 W4 W5]. destruct (W4 id p Ep) as [h Hh]. rewrite Hh.
  destruct (proj1 (W3 id p) Ep) as [Hp [d Hd]]. apply list_elem_of_lookup in Hp as [i Hi].
  destruct (W1 i p Hi) as (e & E & I).
  destruct (W5 id h Hh) as (l & Hl & Hlid & _).
  assert (Ht : ttl_of m id = lttl l) by (unfold ttl_of; rewrite Hh; simpl; by rewrite Hl).
  assert (Hid : heid e = id) by (unfold obj in Hd; rewrite E in Hd; by injection Hd).
  rewrite Hl. simpl. rewrite list_lookup_alter_eq, E. simpl. rewrite I, Nat2Z.id.
  destruct (retime_spec (hs m) i p e (now + lttl l) W1 W2 Hi E) as (R1 & R2 & R3 & R4).
  set (s' := Fix _ i) in *. rewrite Hid in R4. split_and!.
  - split; simpl; try done. intros k q. rewrite R3. setoid_rewrite R4. rewrite W3.
    destruct (decide (q = p)) as [->|]; [|done]. split; intros [? [d' ?]]; simplify_eq; eauto.
  - rewrite bool_decide_eq_true_2; [done|]. unfold view. rewrite Ep. simpl. rewrite Hd. simpl. eauto.
  - intros k. unfold view. cbn [entries hs]. change (ttl_of (mkLM _ _ _ _) k) with (ttl_of m k).
    destruct (decide (k = id)) as [->|Hk].
    + rewrite Ep. simpl. rewrite R4, decide_True, Hd by done. simpl. by rewrite Ht.
    + destruct (entries m !! k) as [q|] eqn:Eq; [|done]. simpl. rewrite R4, decide_False; [done|].
      intros ->. apply W3 in Eq as [_ [d' Hd']]. congruence.
Qed.

(** A pointer that leaves the heap takes its lease out of the view. *)
Lemma drop_lease m s' id p :
  lm_wf m → entries m !! id = Some p → idx_ok s' → ordered s' (length (heap s')) →
  heap (hs m) ≡ₚ p :: heap s' → (∀ q, obj s' q = obj (hs m) q) →
  let m' := mkLM s' (delete id (entries m)) (lstore m) (handles m) in
  lm_wf m' ∧ ∀ k, view m' k = if decide (k = id) then None else view m k.
Proof.
  intros Hm Ep S1 S2 S3 S4. pose proof Hm as [W1 W2 W3 W4 W5].
  assert (Hnd : (p ∉ heap s') ∧ NoDup (heap s'))
    by (apply NoDup_cons; rewrite <- S3; by apply idx_NoDup).
  destruct (proj1 (W3 id p) Ep) as [_ [d Hd]].
  split; [split; simpl; try done|].
  - intros k q. rewrite lookup_delete. setoid_rewrite S4. destruct (decide (id = k)) as [<-|Hk].
    + split; [done|]. intros [Hq Hd']. exfalso.
      assert (Hq' : entries m !! id = Some q) by (apply W3; split; [rewrite S3; by right|done]).
      simplify_eq. by apply Hnd.
    + rewrite W3, S3, elem_of_cons. split; [|by intros [? ?]; eauto].
      intros [[->|Hq] [d' Hd']]; [congruence|eauto].
  - intros k q. rewrite lookup_delete. case_decide; [done|]. apply W4.
  - intros k. unfold view. cbn [entries hs]. change (ttl_of (mkLM _ _ _ _) k) with (ttl_of m k).
    rewrite lookup_delete. destruct (decide (id = k)) as [<-|Hk]; [by rewrite decide_True|].
    rewrite decide_False by done. destruct (entries m !! k); [|done]. simpl. by rewrite S4.
Qed.

(** Closing and forgetting the handle of a lease that is not indexed. *)
Lemma forget_handle m id h :
  lm_wf m → entries m !! id = None → handles m !! id = Some h →
  let m' := mkLM (hs m) (entries m) (lstore (close m h)) (delete id (handles m)) in
  lm_wf m' ∧ ∀ k, view m' k = view m k.
Proof.
  intros Hm Hn Hh. pose proof Hm as [W1 W2 W3 W4 W5]. destruct (W5 id h Hh) as (l & Hl & Hid & _).
  assert (Hother : ∀ k h', k ≠ id → handles m !! k = Some h' →
    alter (λ l, mkLease (lid l) (lttl l) true) h (lstore m) !! h' = lstore m !! h').
  { intros k h' Hk Hh'. apply list_lookup_alter_ne. intros ->.
    destruct (W5 k h' Hh') as (l' & Hl' & Hid' & _). congruence. }
  split; [split; simpl; try done|].
  - intros k q Hq. rewrite lookup_delete_ne by (intros <-; congruence). by eapply W4.
  - intros k h'. rewrite lookup_delete. case_decide; [done|]. intros Hk.
    rewrite (Hother k h') by done. by apply W5.
  - intros k. unfold view. cbn [entries hs]. destruct (entries m !! k) as [q|] eqn:Eq; [|done]. simpl.
    assert (k ≠ id) by (intros ->; congruence).
    unfold ttl_of. simpl. rewrite lookup_delete_ne by done.
    destruct (handles m !! k) as [h'|] eqn:Eh; [|done]. simpl. by rewrite (Hother k h').
Qed.

Lemma revoke_spec m id :
  lm_wf m →
  let '(ok, m') := revoke m id in
  lm_wf m' ∧ ok = bool_decide (is_Some (view m id)) ∧
  ∀ k, view m' k = if decide (k = id) then None else view m k.
Proof.
  intros Hm. unfold revoke. destruct (entries m !! id) as [p|] eqn:Ep.
  2:{ assert (Hn : view m id = None) by (by apply view_None). rewrite Hn.
      split_and!; [done|by rewrite bool_decide_eq_false_2 by (by intros [? ?])|].
      intros k. case_decide; [by subst|done]. }
  pose proof Hm as [W1 W2 W3 W4 W5]. destruct (proj1 (W3 id p) Ep) as [Hp [d Hd]].
  apply list_elem_of_lookup in Hp as [i Hi]. destruct (W1 i p Hi) as (e & E & I).
  rewrite E. simpl. rewrite I, Nat2Z.id.
  destruct (Remove_spec (hs m) i p W1 W2 Hi) as (_ & R1 & R2 & R3 & R4 & _).
  destruct (drop_lease m _ id p Hm Ep R1 R2 R3 R4) as [Hw Hv].
  destruct (W4 id p Ep) as [h Hh]. rewrite Hh.
  destruct (forget_handle _ id h Hw (lookup_delete_eq _ _) Hh) as [Hw' Hv'].
  split_and!; [exact Hw'| |].
  - rewrite bool_decide_eq_true_2; [done|]. unfold view. rewrite Ep. simpl. rewrite Hd. simpl. eauto.
  - intros k. etransitivity; [apply Hv'|apply Hv].
Qed.

(** The root of the heap is a lease with the least deadline. *)
Lemma root_view m p l :
  lm_wf m → heap (hs m) = p :: l →
  ∃ id t, entries m !! id = Some p ∧ obj (hs m) p = Some (deadline (hs m) p, id) ∧
    view m id = Some (deadline (hs m) p, t) ∧
    ∀ k d t', view m k = Some (d, t') → deadline (hs m) p ≤ d.
Proof.
  intros Hm Hl. pose proof Hm as [W1 W2 W3 W4 W5].
  assert (H0 : heap (hs m) !! 0%nat = Some p) by (by rewrite Hl).
  destruct (W1 0%nat p H0) as (e & E & _).
  assert (Hobj : obj (hs m) p = Some (deadline (hs m) p, heid e)) by (unfold obj, deadline; by rewrite E).
  assert (Ep : entries m !! heid e = Some p)
    by (apply W3; split; [by eapply list_elem_of_lookup_2|eauto]).
  exists (heid e), (ttl_of m (heid e)). split_and!; [done|done| |].
  - apply view_Some; [done|]. split; [done|]. exists p. split_and!; [done| |done].
    by eapply list_elem_of_lookup_2.
  - intros k d t' Hv. apply view_Some in Hv as (_ & q & _ & Hq & Hd); [|done].
    apply list_elem_of_lookup in Hq as [i Hi].
    pose proof (ordered_root (hs m) i W2 (lookup_lt_Some _ _ _ Hi)) as Hk.
    unfold key in Hk. rewrite H0, Hi in Hk. simpl in Hk. rewrite (deadline_obj _ q), Hd in Hk. done.
Qed.

(** The due leases of [m], in the order they are popped. *)
Definition due (m : leaseManager) (now : Z) (ids : list string) : Prop :=
  NoDup ids ∧ (∀ id, id ∈ ids ↔ ∃ d t, view m id = Some (d, t) ∧ d ≤ now) ∧
  StronglySorted (λ a b, ∀ da ta db tb,
    view m a = Some (da, ta) → view m b = Some (db, tb) → da ≤ db) ids.

Lemma due_cons m m' now id ids d t :
  view m id = Some (d, t) → d ≤ now → (∀ k d' t', view m k = Some (d', t') → d ≤ d') →
  (∀ k, view m' k = if decide (k = id) then None else view m k) →
  due m' now ids → due m now (id :: ids).
Proof.
  intros Hid Hd Hmin Hv (Hnd & Hin & Hs).
  assert (Hne : ∀ k, k ∈ ids → k ≠ id).
  { intros k Hk ->. apply Hin in Hk as (? & ? & Hk & _). by rewrite Hv, decide_True in Hk. }
  split_and!.
  - apply NoDup_cons. split; [by intros ?%Hne|done].
  - intros k. rewrite elem_of_cons, Hin. setoid_rewrite Hv. destruct (decide (k = id)) as [->|Hk].
    + split; [eauto|by left].
    + split; [by intros [?|?]|by right].
  - constructor.
    + clear -Hs Hv Hne. induction Hs as [|a l Hs IH Hf]; constructor.
      { apply IH. intros k Hk. apply Hne. by right. }
      rewrite Forall_forall in *. intros b Hb da ta db tb Ha Hb'. apply (Hf b Hb da ta db tb).
      * rewrite Hv, decide_False; [done|]. apply Hne. by left.
      * rewrite Hv, decide_False; [done|]. apply Hne. by right.
    + rewrite Forall_forall. intros b Hb da ta db tb Ha Hb'. simplify_eq. by eapply Hmin.
Qed.

Lemma expired_loop_spec fuel m now acc :
  lm_wf m → (length (heap (hs m)) ≤ fuel)%nat →
  ∃ ids m', expired_loop fuel m now acc = (acc ++ ids, m') ∧ lm_wf m' ∧ due m now ids ∧
    handles m' = handles m ∧ lstore m' = lstore m ∧
    ∀ k, view m' k = if decide (k ∈ ids) then None else view m k.
Proof.
  revert m acc. induction fuel as [|fuel IH]; intros m acc Hm Hf.
  all: destruct (heap (hs m)) as [|p l] eqn:Hl; simpl in Hf; try lia; cbn [expired_loop]; rewrite ?Hl.
  1,2: exists [], m; rewrite app_nil_r; split_and!; try done;
    split_and!; [apply NoDup_nil_2| |constructor]; intros id; rewrite elem_of_nil; split; [done|];
    intros (d & t & Hv%view_Some & _); [|done]; destruct Hv as (_ & q & _ & Hq & _);
    rewrite Hl in Hq; by apply elem_of_nil in Hq.
  destruct (root_view m p l Hm Hl) as (id & t & Ep & Hobj & Hv & Hmin).
  case_bool.
  { exists [], m. rewrite app_nil_r. split_and!; try done.
    split_and!; [apply NoDup_nil_2| |constructor]. intros k. rewrite elem_of_nil. split; [done|].
    intros (d & t' & Hk & Hd). apply Hmin in Hk. lia. }
  assert (Hid : default "" (heid <$> store (hs m) !! p) = id)
    by (unfold obj in Hobj; destruct (store (hs m) !! p); simpl in *; congruence).
  rewrite Hid.
  destruct (Pop_spec (hs m) p l (lw_idx _ Hm) (lw_ord _ Hm) Hl) as (_ & P1 & P2 & P3 & P4).
  destruct (drop_lease m _ id p Hm Ep P1 P2 P3 P4) as [Hw Hv'].
  destruct (IH _ (acc ++ [id]) Hw) as (ids & m' & -> & Hm' & Hdue & Hh & Hls & Hk).
  { apply Permutation_length in P3. rewrite Hl in P3. simpl in *. lia. }
  exists (id :: ids), m'. rewrite <- app_assoc. split_and!; try done.
  - eapply due_cons; [exact Hv|lia|exact Hmin|exact Hv'|done].
  - intros k. rewrite Hk, Hv'. destruct (decide (k ∈ ids)) as [Hi|Hi]; [by rewrite decide_True by (by right)|].
    destruct (decide (k = id)) as [->|Hne]; [by rewrite decide_True by (by left)|].
    rewrite decide_False; [done|]. rewrite elem_of_cons. tauto.
Qed.

(** [expired] returns exactly the leases whose deadline has passed, each once and
    in order of deadline, and the manager keeps exactly the others; the fuel it is
    given always lets the loop run to the first lease that is not due. *)
Theorem expired_spec m now :
  lm_wf m →
  let '(ids, m') := expired m now in
  lm_wf m' ∧ due m now ids ∧ (∀ k, view m' k = if decide (k ∈ ids) then None else view m k) ∧
  (∀ d, nextExpiry m' = Some d → now < d).
Proof.
  intros Hm. unfold expired.
  destruct (expired_loop_spec _ m now [] Hm (le_n _)) as (ids & m' & -> & Hm' & Hd & _ & _ & Hv).
  cbn [app]. split_and!; [done..|]. unfold nextExpiry. intros d Hn.
  destruct (heap (hs m')) as [|p l] eqn:Hl; [done|]. simplify_eq.
  destruct (root_view m' p l Hm' Hl) as (id & t & _ & _ & Hid & _).
  rewrite Hv in Hid. destruct (decide (id ∈ ids)) as [|Hi]; [done|].
  apply Z.nle_gt. intros Hle. apply Hi, (proj1 (proj2 Hd)). eauto.
Qed.

(** The lease table behaves as a map from lease id to deadline and ttl: granting a
    new id adds it, renewing moves its deadline to now plus its ttl, revoking
    removes it, renewing or revoking an unknown id reports failure and changes
    nothing, and the heap, its back pointers and the handles stay consistent. *)
Theorem leases_refine_map m id ttl now :
  lm_wf m →
  (view m id = None →
     lm_wf (grant m id ttl now).2 ∧
     ∀ k, view (grant m id ttl now).2 k = if decide (k = id) then Some (now + ttl, ttl) else view m k) ∧
  (lm_wf (renew m id now).2 ∧ (renew m id now).1 = bool_decide (is_Some (view m id)) ∧
     ∀ k, view (renew m id now).2 k =
          if decide (k = id) then (λ v, (now + v.2, v.2)) <$> view m id else view m k) ∧
  (lm_wf (revoke m id).2 ∧ (revoke m id).1 = bool_decide (is_Some (view m id)) ∧
     ∀ k, view (revoke m id).2 k = if decide (k = id) then None else view m k).
Proof.
  intros Hm. split; [by apply grant_spec|]. split.
  - pose proof (renew_spec m id now Hm) as Hr. by destruct (renew m id now).
  - pose proof (revoke_spec m id Hm) as Hr. by destruct (revoke m id).
Qed.

(** Two leases granted out of deadline order. *)
Definition demo_leases : leaseManager :=
  (grant (grant newLeaseManager "a" 50 0).2 "b" 20 0).2.

Lemma demo_leases_wf : lm_wf demo_leases.
Proof.
  unfold demo_leases. apply grant_spec; [apply grant_spec; [apply newLeaseManager_wf|done]|].
  by vm_compute.
Qed.

Lemma expired_spec_witness :
  lm_wf (expired demo_leases 30).2 ∧ (expired demo_leases 30).1 = ["b"%string].
Proof.
  pose proof (expired_spec demo_leases 30 demo_leases_wf) as He.
  split; [|by vm_compute]. destruct (expired demo_leases 30). apply He.
Defined.

Lemma leases_refine_map_witness :
  lm_wf demo_leases ∧ view (renew demo_leases "b" 100).2 "b" = Some (120, 20).
Proof.
  split; [apply demo_leases_wf|].
  destruct (leases_refine_map demo_leases "b" 0 100 demo_leases_wf) as (_ & (_ & _ & Hr) & _).
  rewrite Hr. by vm_compute.
Defined.

(** ** Behaviour the comment does not announce *)

(** [expired] has already removed what it returns: a [revoke] that follows reports
    an unknown lease and leaves the handle open. *)
Theorem revoke_after_expired :
  let m := (expired demo_leases 30).2 in
  (revoke m "b").1 = false ∧ getHandle (revoke m "b").2 "b" = getHandle demo_leases "b".
Proof. by vm_compute. Qed.
End Lease.
