(* ===== verification/KvState.v ===== *)
(** * The key-value state and its published snapshots ([system/kv/state.go])

    The mutable state behind the raft and the standalone backends: entries,
    leases, the version and revision allocators, and the incremental publication
    of immutable snapshots. A snapshot is an array of 256 map references: a
    publication copies the array, clones the shards that hold a changed key and
    mutates only the clones, so the model keeps the shard maps in a store
    ([maps]) and snapshots hold addresses. xxhash is the parameter [XXHash].

    The theorems: a publication makes every reader of the new snapshot see
    exactly the current entries, and no reader of an earlier snapshot sees a
    change, whatever happens later. *)

From S2P Require Import Prelude Bytes Crdt.

Module Kv.

(** [entry]; [kvapi.Entry] has the same fields and [snapshot] copies them. *)
Record entry := mkEnt {
  key : string; leaseID : string; value : list ascii; version : Z; epoch : Z
}.

Record leaseState := mkLS { lkeys : gset string; lid : string; ttl : Z; expiresAtMs : Z }.

(** [stateSnapshot]: shard references ([None] is the nil map). *)
Record stateSnapshot := mkSnap { shards : list (option nat); sversion : Z; sindex : Z }.

Record state := mkState {
  maps : list (gmap string entry); (* the shard maps ever allocated *)
  published : option stateSnapshot;
  dirty : gset string;
  entries : gmap string entry;
  leases : gmap string leaseState;
  sver : Z; (* version *)
  revision : Z;
  applyIndex : Z
}.

#[export] Instance entry_eq_dec : EqDecision entry.
Proof. solve_decision. Defined.
#[export] Instance leaseState_eq_dec : EqDecision leaseState.
Proof. solve_decision. Defined.

Definition newState : state := mkState [] None ∅ ∅ ∅ 0 0 0.

Definition with_applyIndex (s : state) (i : Z) : state :=
  mkState (maps s) (published s) (dirty s) (entries s) (leases s) (sver s) (revision s) i.
Definition with_leases (s : state) l : state :=
  mkState (maps s) (published s) (dirty s) (entries s) l (sver s) (revision s) (applyIndex s).
Definition with_entries (s : state) e : state :=
  mkState (maps s) (published s) (dirty s) e (leases s) (sver s) (revision s) (applyIndex s).

(** [s.revision++] *)
Definition bump_revision (s : state) : state :=
  mkState (maps s) (published s) (dirty s) (entries s) (leases s) (sver s) (u64 (revision s + 1))
    (applyIndex s).

Definition nextVersion (s : state) : Z * state :=
  let v := u64 (sver s + 1) in
  (v, mkState (maps s) (published s) (dirty s) (entries s) (leases s) v (u64 (revision s + 1))
        (applyIndex s)).

Definition get (s : state) (k : string) : option entry := entries s !! k.

Definition markDirty (s : state) (k : string) : state :=
  mkState (maps s) (published s) ({[k]} ∪ dirty s) (entries s) (leases s) (sver s) (revision s)
    (applyIndex s).

(** [if ls, ok := s.leases[id]; ok { delete(ls.keys, key) }] and its converse. *)
Definition detach (s : state) (id k : string) : state :=
  with_leases s (alter (λ ls, mkLS (lkeys ls ∖ {[k]}) (lid ls) (ttl ls) (expiresAtMs ls)) id (leases s)).
Definition attach (s : state) (id k : string) : state :=
  with_leases s (alter (λ ls, mkLS ({[k]} ∪ lkeys ls) (lid ls) (ttl ls) (expiresAtMs ls)) id (leases s)).

Definition set (s : state) (k : string) (v : list ascii) (id : string) : option entry * Z * state :=
  let '(ver, s) := nextVersion s in
  let prev := entries s !! k in
  let s := match prev with
           | Some p => if bool_decide (leaseID p ≠ "" ∧ leaseID p ≠ id) then detach s (leaseID p) k else s
           | None => s
           end in
  let s := markDirty (with_entries s (<[k := mkEnt k id v ver (applyIndex s)]> (entries s))) k in
  let s := if bool_decide (id ≠ "") then attach s id k else s in
  (prev, ver, s).

Definition del (s : state) (k : string) : option entry * state :=
  match entries s !! k with
  | None => (None, s)
  | Some e =>
      let s := markDirty (bump_revision (with_entries s (delete k (entries s)))) k in
      (Some e, if bool_decide (leaseID e ≠ "") then detach s (leaseID e) k else s)
  end.

Definition setIfAbsent (s : state) (k : string) (v : list ascii) (id : string) : Z * bool * state :=
  match entries s !! k with
  | Some e => (version e, false, s)
  | None => let '(_, ver, s) := set s k v id in (ver, true, s)
  end.

Definition cas (s : state) (k : string) (expect : Z) (v : list ascii) : Z * bool * state :=
  let existing := entries s !! k in
  let actual := default 0 (version <$> existing) in
  if bool_decide (actual ≠ expect) then (actual, false, s) else
  let '(_, ver, s) := set s k v (default "" (leaseID <$> existing)) in (ver, true, s).

Definition compareAndDelete (s : state) (k : string) (expect : Z) : bool * bool * state :=
  match entries s !! k with
  | None => (false, false, s)
  | Some e => if bool_decide (version e ≠ expect) then (false, true, s) else (true, true, (del s k).2)
  end.

(** [kvapi.TxnCond] by its numeric value; an unknown condition never holds. *)
Definition CondAny : Z := 0.
Definition CondAbsent : Z := 1.
Definition CondExists : Z := 2.
Definition CondVersion : Z := 3.

Definition condHolds (cond expect : Z) (e : option entry) : bool :=
  if bool_decide (cond = CondAny) then true
  else if bool_decide (cond = CondAbsent) then bool_decide (e = None)
  else if bool_decide (cond = CondExists) then bool_decide (e ≠ None)
  else if bool_decide (cond = CondVersion) then
    match e with Some e => bool_decide (version e = expect) | None => false end
  else false.

Definition addLease (s : state) (id : string) (ttlMs expMs : Z) : state :=
  with_leases s (<[id := mkLS ∅ id ttlMs expMs]> (leases s)).

Definition removeLease (s : state) (id : string) : list string * state :=
  match leases s !! id with
  | None => ([], s)
  | Some ls => (elements (lkeys ls), with_leases s (delete id (leases s)))
  end.

(** ** Publication *)

Definition snapshotShards : nat := 256.

Section snapshot.
Context `{XXHash}.

Definition snapshotShard (k : string) : nat :=
  Z.to_nat (Sum64 (bytes_of k) mod Z.of_nat snapshotShards).

(** The local variables of the loop in [snapshot]: the store, the new shard array
    and the set of shards cloned so far. *)
Record publish := mkPub { pmaps : list (gmap string entry); pshards : list (option nat); cloned : gset nat }.

Definition map_at (ms : list (gmap string entry)) (r : option nat) : gmap string entry :=
  default ∅ (i ← r; ms !! i).

(** Clone the shard of [k] unless this publication already owns it, then write or
    delete [k] in the clone. *)
Definition publish_key (ents : gmap string entry) (p : publish) (k : string) : publish :=
  let sh := snapshotShard k in
  let p := if bool_decide (sh ∈ cloned p) then p else
           let r := length (pmaps p) in
           mkPub (pmaps p ++ [map_at (pmaps p) (default None (pshards p !! sh))])
                 (<[sh := Some r]> (pshards p)) ({[sh]} ∪ cloned p) in
  match default None (pshards p !! sh) with
  | Some r =>
      mkPub (alter (λ m, match ents !! k with Some e => <[k := e]> m | None => delete k m end) r (pmaps p))
            (pshards p) (cloned p)
  | None => p
  end.

Definition snapshot (s : state) : stateSnapshot * state :=
  let '(base, dirty) :=
    match published s with
    | Some snap => (shards snap, dirty s)
    | None => (replicate snapshotShards None, dom (entries s) ∪ dirty s)
    end in
  let p := foldl (publish_key (entries s)) (mkPub (maps s) base ∅) (elements dirty) in
  let snap := mkSnap (pshards p) (revision s) (applyIndex s) in
  (snap, mkState (pmaps p) (Some snap) ∅ (entries s) (leases s) (sver s) (revision s) (applyIndex s)).

(** Readers dereference the snapshot's shard maps. *)
Definition snap_get (ms : list (gmap string entry)) (snap : stateSnapshot) (k : string) : option entry :=
  map_at ms (default None (shards snap !! snapshotShard k)) !! k.

Definition getMany (ms : list (gmap string entry)) (snap : stateSnapshot) (keys : list string)
    : gmap string entry :=
  foldl (λ out k, match snap_get ms snap k with Some e => <[k := e]> out | None => out end) ∅ keys.

(** The entries [scan] offers to its callback, up to the first refusal. *)
Definition scan (ms : list (gmap string entry)) (snap : stateSnapshot) (prefix : string)
    (fn : entry → bool) : list entry :=
  until fn (concat (map (λ r,
    (filter (λ kv, bool_decide (prefix ≠ "") && negb (String.prefix prefix kv.1) = false)
       (map_to_list (map_at ms r))).*2) (shards snap))).
End snapshot.

(** ** Snapshot isolation *)

Section publication.
Context `{XXHash}.

(** A snapshot whose shard references are allocated, with each key in its shard. *)
Record snap_ok (ms : list (gmap string entry)) (sh : list (option nat)) : Prop := {
  so_len : length sh = snapshotShards;
  so_refs : ∀ i r, sh !! i = Some (Some r) → (r < length ms)%nat;
  so_place : ∀ i k e, map_at ms (default None (sh !! i)) !! k = Some e → snapshotShard k = i
}.

(** [ms'] extends [ms]: allocated maps keep their contents. *)
Definition extends (ms ms' : list (gmap string entry)) : Prop :=
  ∀ i m, ms !! i = Some m → ms' !! i = Some m.

#[export] Instance extends_preorder : PreOrder extends.
Proof. split; [by intros ? ? ?|]. intros a b c Hab Hbc i m Hi. by apply Hbc, Hab. Qed.

Lemma extends_length ms ms' : extends ms ms' → (length ms ≤ length ms')%nat.
Proof.
  intros He. destruct (decide (length ms = 0)%nat); [lia|].
  destruct (lookup_lt_is_Some_2 ms (length ms - 1) ltac:(lia)) as [m Hm].
  apply He, lookup_lt_Some in Hm. lia.
Qed.

Lemma extends_map_at ms ms' r :
  extends ms ms' → (∀ i, r = Some i → (i < length ms)%nat) → map_at ms' r = map_at ms r.
Proof.
  intros He Hr. unfold map_at. destruct r as [i|]; [|done]. simpl.
  destruct (lookup_lt_is_Some_2 ms i (Hr i eq_refl)) as [m Hm]. by rewrite Hm, (He _ _ Hm).
Qed.

Lemma snapshotShard_lt k : (snapshotShard k < snapshotShards)%nat.
Proof.
  unfold snapshotShard. pose proof (Z.mod_pos_bound (Sum64 (bytes_of k)) (Z.of_nat snapshotShards)).
  unfold snapshotShards in *. lia.
Qed.

(** The loop invariant of [snapshot] after the keys [done]. *)
Record pub_inv (ents : gmap string entry) (ms0 : list (gmap string entry)) (base : list (option nat))
    (done : list string) (p : publish) : Prop := {
  pi_ext : extends ms0 (pmaps p);
  pi_len : length (pshards p) = snapshotShards;
  pi_old : ∀ i, i ∉ cloned p → pshards p !! i = base !! i;
  pi_new : ∀ i, i ∈ cloned p → ∃ r, pshards p !! i = Some (Some r) ∧ (length ms0 ≤ r < length (pmaps p))%nat;
  pi_inj : ∀ i j r, i ∈ cloned p → j ∈ cloned p →
    pshards p !! i = Some (Some r) → pshards p !! j = Some (Some r) → i = j;
  pi_done : ∀ k, k ∈ done → snapshotShard k ∈ cloned p;
  pi_get : ∀ i k, map_at (pmaps p) (default None (pshards p !! i)) !! k =
    if decide (k ∈ done ∧ snapshotShard k = i) then ents !! k
    else map_at ms0 (default None (base !! i)) !! k
}.

(** Cloning the shard of [k] keeps the invariant and gives this publication a
    private reference to it. *)
Lemma clone_inv ents ms0 base done p sh :
  snap_ok ms0 base → pub_inv ents ms0 base done p → (sh < snapshotShards)%nat → sh ∉ cloned p →
  pub_inv ents ms0 base done
    (mkPub (pmaps p ++ [map_at (pmaps p) (default None (pshards p !! sh))])
       (<[sh := Some (length (pmaps p))]> (pshards p)) ({[sh]} ∪ cloned p)).
Proof.
  intros Hb [I1 I2 I3 I4 I5 I6 I7] Hsh Hc.
  pose proof (extends_length _ _ I1) as Hle.
  assert (Hex : extends (pmaps p) (pmaps p ++ [map_at (pmaps p) (default None (pshards p !! sh))]))
    by (intros i m Hi; by apply lookup_app_l_Some).
  assert (Href : ∀ i r, pshards p !! i = Some (Some r) → (r < length (pmaps p))%nat).
  { intros i r Hi. destruct (decide (i ∈ cloned p)) as [Hic|Hic].
    - destruct (I4 i Hic) as (r' & Hr' & ?). simplify_eq. lia.
    - rewrite I3 in Hi by done. apply (so_refs _ _ Hb) in Hi. lia. }
  split; cbn [pmaps pshards cloned].
  - by etrans.
  - by rewrite length_insert.
  - intros i Hi. rewrite list_lookup_insert_ne by set_solver. apply I3. set_solver.
  - intros i Hi. destruct (decide (i = sh)) as [->|Hne].
    + exists (length (pmaps p)). rewrite list_lookup_insert_eq, length_app by lia. simpl. split; [done|lia].
    + rewrite list_lookup_insert_ne by done. destruct (I4 i) as (r & ? & ?); [set_solver|].
      exists r. rewrite length_app. split; [done|lia].
  - intros i j r Hi Hj Hri Hrj.
    apply list_lookup_insert_Some in Hri as [(Ei & Hri & _)|[Hni Hri]];
      apply list_lookup_insert_Some in Hrj as [(Ej & Hrj & _)|[Hnj Hrj]]; simplify_eq; try done.
    + apply Href in Hrj. lia.
    + apply Href in Hri. lia.
    + apply (I5 i j r); set_solver.
  - intros k Hk. apply I6 in Hk. set_solver.
  - intros i k. rewrite <- I7. destruct (decide (i = sh)) as [->|Hne].
    + rewrite list_lookup_insert_eq by lia. simpl. unfold map_at at 1. simpl. by rewrite list_lookup_middle.
    + rewrite list_lookup_insert_ne by done. f_equal. apply extends_map_at; [done|].
      intros r Hr. destruct (pshards p !! i) as [o|] eqn:Eo; [|done]. simpl in Hr. subst o. by eapply Href.
Qed.

Lemma write_inv ents ms0 base done p k r :
  snap_ok ms0 base → pub_inv ents ms0 base done p → snapshotShard k ∈ cloned p →
  pshards p !! snapshotShard k = Some (Some r) →
  pub_inv ents ms0 base (done ++ [k])
    (mkPub (alter (λ m, match ents !! k with Some e => <[k := e]> m | None => delete k m end) r (pmaps p))
       (pshards p) (cloned p)).
Proof.
  intros Hb [I1 I2 I3 I4 I5 I6 I7] Hc Hr.
  destruct (I4 _ Hc) as (r' & Hr' & Hlt). assert (r' = r) as -> by congruence.
  split; cbn [pmaps pshards cloned]; try done.
  - intros i m Hi. rewrite list_lookup_alter_ne; [by apply I1|]. apply lookup_lt_Some in Hi. lia.
  - intros i Hi. destruct (I4 i Hi) as (r' & ? & ?). exists r'. rewrite length_alter. done.
  - intros k' [Hk|Hk%list_elem_of_singleton]%elem_of_app; [by apply I6|by subst].
  - intros i k'. specialize (I7 i k').
    assert (Hm : map_at (alter (λ m, match ents !! k with Some e => <[k := e]> m | None => delete k m end) r
        (pmaps p)) (default None (pshards p !! i)) !! k' =
      if decide (i = snapshotShard k ∧ k' = k) then ents !! k
      else map_at (pmaps p) (default None (pshards p !! i)) !! k').
    { destruct (decide (i = snapshotShard k)) as [->|Hne].
      - rewrite Hr. simpl. unfold map_at. simpl. rewrite list_lookup_alter_eq.
        destruct (lookup_lt_is_Some_2 (pmaps p) r ltac:(lia)) as [m Hm]. rewrite Hm. simpl.
        destruct (ents !! k) as [e|] eqn:Ek; [rewrite lookup_insert|rewrite lookup_delete];
          (destruct (decide (k = k')) as [->|Hkk]; [by rewrite decide_True|by rewrite decide_False by naive_solver]).
      - rewrite decide_False by tauto. f_equal. unfold map_at.
        destruct (pshards p !! i) as [[j|]|] eqn:Ei; [|done..]. simpl. rewrite list_lookup_alter_ne; [done|].
        intros <-. destruct (decide (i ∈ cloned p)) as [Hi|Hi]; [by apply Hne, (I5 _ _ r)|].
        rewrite I3 in Ei by done. apply (so_refs _ _ Hb) in Ei. lia. }
    rewrite Hm, I7. clear.
    assert (Hiff : k' ∈ done ++ [k] ↔ k' ∈ done ∨ k' = k) by (by rewrite elem_of_app, list_elem_of_singleton).
    destruct (decide (i = snapshotShard k ∧ k' = k)) as [[-> ->]|Hn].
    { rewrite decide_True; [done|]. split; [apply Hiff; by right|done]. }
    destruct (decide (k' ∈ done ∧ snapshotShard k' = i)) as [[? ?]|Hn'].
    { rewrite decide_True; [done|]. split; [apply Hiff; by left|done]. }
    rewrite decide_False; [done|]. intros [[?| ->]%Hiff <-]; tauto.
Qed.

Lemma publish_key_inv ents ms0 base done p k :
  snap_ok ms0 base → pub_inv ents ms0 base done p →
  pub_inv ents ms0 base (done ++ [k]) (publish_key ents p k).
Proof.
  intros Hb Hp. unfold publish_key. pose proof (snapshotShard_lt k) as Hlt.
  set (p1 := if bool_decide (snapshotShard k ∈ cloned p) then p else _).
  assert (H1 : pub_inv ents ms0 base done p1 ∧ snapshotShard k ∈ cloned p1).
  { unfold p1. destruct (decide (snapshotShard k ∈ cloned p)) as [Hc|Hc].
    - by rewrite bool_decide_eq_true_2.
    - rewrite bool_decide_eq_false_2 by done. split; [by apply clone_inv|].
      cbn [cloned]. apply elem_of_union. left. by apply elem_of_singleton. }
  destruct H1 as [H1 Hc]. destruct (pi_new _ _ _ _ _ H1 _ Hc) as (r & Hr & _).
  rewrite Hr. by apply write_inv.
Qed.

Lemma publish_keys_inv ents ms0 base ks done p :
  snap_ok ms0 base → pub_inv ents ms0 base done p →
  pub_inv ents ms0 base (done ++ ks) (foldl (publish_key ents) p ks).
Proof.
  intros Hb. revert done p. induction ks as [|k ks IH]; intros done p Hp; cbn [foldl].
  { by rewrite app_nil_r. }
  rewrite cons_middle, app_assoc. by apply IH, publish_key_inv.
Qed.

Lemma pub_inv_init ents ms0 base : snap_ok ms0 base → pub_inv ents ms0 base [] (mkPub ms0 base ∅).
Proof.
  intros [Hl _ _]. split; cbn [pmaps pshards cloned]; try done.
  intros k Hk. by apply elem_of_nil in Hk.
Qed.

Lemma pub_inv_ok ents ms0 base done p :
  snap_ok ms0 base → pub_inv ents ms0 base done p → snap_ok (pmaps p) (pshards p).
Proof.
  intros Hb [I1 I2 I3 I4 I5 I6 I7]. split; [done| |].
  - intros i r Hi. destruct (decide (i ∈ cloned p)) as [Hc|Hc].
    + destruct (I4 i Hc) as (r' & ? & ?). simplify_eq. lia.
    + rewrite I3 in Hi by done. apply (so_refs _ _ Hb) in Hi. pose proof (extends_length _ _ I1). lia.
  - intros i k e. rewrite I7. case_decide; [tauto|]. by apply (so_place _ _ Hb).
Qed.

(** The published snapshot is current except on the dirty keys. *)
Definition pub_wf (s : state) : Prop :=
  match published s with
  | None => True
  | Some snap => snap_ok (maps s) (shards snap) ∧
      ∀ k, k ∉ dirty s → snap_get (maps s) snap k = entries s !! k
  end.

Lemma empty_snap_ok ms : snap_ok ms (replicate snapshotShards None).
Proof.
  assert (Hn : ∀ i, default None (replicate snapshotShards (None : option nat) !! i) = None).
  { intros i. destruct (replicate _ _ !! i) eqn:E; [|done]. by apply lookup_replicate in E as [-> _]. }
  split; [by rewrite length_replicate| |].
  - intros i r [? _]%lookup_replicate. done.
  - intros i k e. rewrite Hn. unfold map_at. simpl. by rewrite lookup_empty.
Qed.

(** A publication shows every reader of the new snapshot exactly the current
    entries, leaves every earlier snapshot as it was, and is ready for the next. *)
Lemma snapshot_spec s :
  pub_wf s →
  let '(snap, s') := snapshot s in
  pub_wf s' ∧ snap_ok (maps s') (shards snap) ∧ extends (maps s) (maps s') ∧
  (∀ k, snap_get (maps s') snap k = entries s !! k) ∧ published s' = Some snap ∧
  sindex snap = applyIndex s ∧ sversion snap = revision s ∧
  entries s' = entries s ∧ leases s' = leases s ∧ sver s' = sver s ∧
  revision s' = revision s ∧ applyIndex s' = applyIndex s.
Proof.
  intros Hs. unfold snapshot.
  destruct (match published s with Some snap => _ | None => _ end) as [base d] eqn:Eb.
  assert (Hb : snap_ok (maps s) base ∧
    ∀ k, k ∉ d → map_at (maps s) (default None (base !! snapshotShard k)) !! k = entries s !! k).
  { unfold pub_wf in Hs. destruct (published s) as [snap|]; simplify_eq; [exact Hs|].
    split; [apply empty_snap_ok|]. intros k Hk.
    rewrite not_elem_of_union, not_elem_of_dom in Hk. destruct Hk as [-> _].
    destruct (replicate _ _ !! _) as [o|] eqn:E; simpl; [apply lookup_replicate in E as [-> _]|];
      apply lookup_empty. }
  destruct Hb as [Hb Hcur].
  pose proof (publish_keys_inv (entries s) _ _ (elements d) _ _ Hb (pub_inv_init (entries s) _ _ Hb)) as Hp.
  cbn [app] in Hp. set (p := foldl _ _ _) in *. pose proof (pub_inv_ok _ _ _ _ _ Hb Hp) as Hok.
  assert (Hget : ∀ k, snap_get (pmaps p) (mkSnap (pshards p) (revision s) (applyIndex s)) k = entries s !! k).
  { intros k. unfold snap_get. cbn [shards]. rewrite (pi_get _ _ _ _ _ Hp). case_decide as Hk; [done|].
    apply Hcur. intros Hd. apply Hk. split; [by apply elem_of_elements|done]. }
  split_and!; try done. apply (pi_ext _ _ _ _ _ Hp).
Qed.
End publication.

(** ** Effect of the operations *)

(** [s'] differs from [s] only in entries marked dirty, leases and counters. *)
Record edits (s s' : state) : Prop := {
  ed_maps : maps s' = maps s;
  ed_pub : published s' = published s;
  ed_dirty : dirty s ⊆ dirty s';
  ed_entries : ∀ k, k ∉ dirty s' → entries s' !! k = entries s !! k;
  ed_index : applyIndex s' = applyIndex s
}.

#[export] Instance edits_preorder : PreOrder edits.
Proof.
  split; [by intros s; split|]. intros a b c [A1 A2 A3 A4 A5] [B1 B2 B3 B4 B5]. split; try congruence.
  - by etrans.
  - intros k Hk. rewrite B4, A4; [done| |done]. intros Hd. by apply Hk, B3.
Qed.

Lemma edits_pub_wf `{XXHash} s s' : edits s s' → pub_wf s → pub_wf s'.
Proof.
  intros [E1 E2 E3 E4 E5]. unfold pub_wf. rewrite E1, E2. destruct (published s) as [snap|]; [|done].
  intros [Hok Hg]. split; [done|]. intros k Hk. rewrite E4 by done. apply Hg. intros Hd. by apply Hk, E3.
Qed.

(** What [set] does to the lease table. *)
Definition rebind (prev : option entry) (id k : string) (i : string) (ls : leaseState) : leaseState :=
  let ks := match prev with
            | Some p => if decide (leaseID p ≠ "" ∧ leaseID p ≠ id ∧ i = leaseID p) then lkeys ls ∖ {[k]}
                        else lkeys ls
            | None => lkeys ls
            end in
  mkLS (if decide (id ≠ "" ∧ i = id) then {[k]} ∪ ks else ks) (lid ls) (ttl ls) (expiresAtMs ls).

Lemma marked_ne (k k' : string) (d : gset string) : k' ∉ {[k]} ∪ d → k ≠ k'.
Proof. intros Hk <-. apply Hk, elem_of_union. left. by apply elem_of_singleton. Qed.

Lemma set_spec s k v id :
  let '(prev, ver, s') := set s k v id in
  prev = entries s !! k ∧ ver = u64 (sver s + 1) ∧ edits s s' ∧
  entries s' = <[k := mkEnt k id v ver (applyIndex s)]> (entries s) ∧
  sver s' = ver ∧ revision s' = u64 (revision s + 1) ∧
  ∀ i, leases s' !! i = rebind (entries s !! k) id k i <$> leases s !! i.
Proof.
  unfold set, nextVersion. cbn -[u64]. set (s1 := match entries s !! k with Some p => _ | None => _ end).
  assert (Hs1 : maps s1 = maps s ∧ published s1 = published s ∧ dirty s1 = dirty s ∧
    entries s1 = entries s ∧ applyIndex s1 = applyIndex s ∧ sver s1 = u64 (sver s + 1) ∧
    revision s1 = u64 (revision s + 1) ∧
    ∀ i, leases s1 !! i = (λ ls, mkLS (match entries s !! k with
            | Some p => if decide (leaseID p ≠ "" ∧ leaseID p ≠ id ∧ i = leaseID p) then lkeys ls ∖ {[k]}
                        else lkeys ls
            | None => lkeys ls
            end) (lid ls) (ttl ls) (expiresAtMs ls)) <$> leases s !! i).
  { unfold s1. destruct (entries s !! k) as [p|].
    - case_bool; cbn -[u64]; split_and!; try done; intros i.
      + unfold detach. rewrite lookup_alter. case_decide as Hi.
        * subst i. destruct (leases s !! leaseID p) as [ls|]; [|done]. simpl. by rewrite decide_True by tauto.
        * destruct (leases s !! i) as [[]|]; [|done]. simpl. rewrite decide_False; [done|]. naive_solver.
      + destruct (leases s !! i) as [[]|]; [|done]. simpl. rewrite decide_False; [done|]. naive_solver.
    - cbn -[u64]. split_and!; try done. intros i. by destruct (leases s !! i) as [[]|]. }
  clearbody s1. destruct Hs1 as (M & P & D & E & A & V & R & L).
  split_and!; [done|done| | | | |].
  - split; case_bool; cbn; rewrite ?M, ?P, ?D, ?A, ?E; try done; try apply union_subseteq_r.
    all: intros k' Hk'; rewrite lookup_insert_ne; [done|]; by apply (marked_ne k k' (dirty s)).
  - case_bool; cbn; by rewrite E, A.
  - by case_bool.
  - by case_bool.
  - intros i. unfold rebind. case_bool; cbn.
    + rewrite lookup_alter. case_decide as Hi.
      * subst i. rewrite L. destruct (leases s !! id); [|done]. simpl. by rewrite decide_True.
      * rewrite L. destruct (leases s !! i); [|done]. simpl. rewrite (decide_False (P := id ≠ "" ∧ i = id)); [done|].
        naive_solver.
    + rewrite L. destruct (leases s !! i); [|done]. simpl.
      rewrite (decide_False (P := id ≠ "" ∧ i = id)); [done|]. tauto.
Qed.

Lemma del_spec s k :
  let '(prev, s') := del s k in
  prev = entries s !! k ∧ edits s s' ∧ entries s' = delete k (entries s) ∧ sver s' = sver s ∧
  ∀ i, leases s' !! i =
    (λ ls, mkLS (match prev with
                 | Some p => if decide (leaseID p ≠ "" ∧ i = leaseID p) then lkeys ls ∖ {[k]} else lkeys ls
                 | None => lkeys ls end) (lid ls) (ttl ls) (expiresAtMs ls)) <$> leases s !! i.
Proof.
  unfold del. destruct (entries s !! k) as [e|] eqn:Ek.
  2:{ split_and!; [done|done|by rewrite delete_id|done|]. intros i. by destruct (leases s !! i) as [[]|]. }
  split_and!; [done| | | |].
  - split; case_bool; cbn; try done; try apply union_subseteq_r.
    all: intros k' Hk'; rewrite lookup_delete_ne; [done|]; by apply (marked_ne k k' (dirty s)).
  - by case_bool.
  - by case_bool.
  - intros i. case_bool; cbn.
    + rewrite lookup_alter. case_decide as Hi.
      * subst i. destruct (leases s !! leaseID e); [|done]. simpl. by rewrite decide_True.
      * destruct (leases s !! i) as [[]|]; [|done]. simpl. rewrite decide_False; [done|]. naive_solver.
    + destruct (leases s !! i) as [[]|]; [|done]. simpl. rewrite decide_False; [done|]. tauto.
Qed.

(** ** Invariant *)

(** Entries sit under their own key, carry distinct versions up to the allocator
    and epochs up to the applied index; the lease table and the entries agree on
    which keys each lease holds. *)
Record kv_wf (s : state) : Prop := {
  kw_key : ∀ k e, entries s !! k = Some e → key e = k;
  kw_ver : ∀ k e, entries s !! k = Some e → 0 < version e ≤ sver s;
  kw_inj : ∀ k1 k2 e1 e2, entries s !! k1 = Some e1 → entries s !! k2 = Some e2 →
    version e1 = version e2 → k1 = k2;
  kw_epoch : ∀ k e, entries s !! k = Some e → epoch e ≤ applyIndex s;
  kw_lease : ∀ i ls, leases s !! i = Some ls →
    i ≠ "" ∧ lid ls = i ∧ ∀ k, k ∈ lkeys ls ↔ ∃ e, entries s !! k = Some e ∧ leaseID e = i;
  kw_bound : ∀ k e, entries s !! k = Some e → leaseID e ≠ "" → is_Some (leases s !! leaseID e);
  kw_pos : 0 ≤ sver s
}.

Lemma newState_wf : kv_wf newState.
Proof. by split; simpl; try (intros *; rewrite lookup_empty). Qed.

(** The keys of a lease after [k] has been rebound to [id]. *)
Lemma rebind_keys prev id k i ls k' :
  i ≠ "" → (k ∈ lkeys ls ↔ ∃ p, prev = Some p ∧ leaseID p = i) →
  k' ∈ lkeys (rebind prev id k i ls) ↔ (k' = k ∧ i = id) ∨ (k' ≠ k ∧ k' ∈ lkeys ls).
Proof.
  intros Hi Hk. unfold rebind. cbn [lkeys].
  destruct (decide (k' = k)) as [->|Hne].
  - destruct (decide (id ≠ "" ∧ i = id)) as [[? ->]|Hid].
    { rewrite elem_of_union, elem_of_singleton. tauto. }
    assert (Hii : i ≠ id) by (intros ->; tauto).
    split; [|intros [[_ ?]|[? _]]; done]. intros Hx. exfalso.
    destruct prev as [p|].
    + case_decide as Hp; [apply elem_of_difference in Hx as [_ Hx]; by apply Hx, elem_of_singleton|].
      apply Hk in Hx as (p' & [= <-] & Hp'). apply Hp. split_and!; congruence.
    + by apply Hk in Hx as (p' & ? & _).
  - assert (Hks : k' ∈ (match prev with
        | Some p => if decide (leaseID p ≠ "" ∧ leaseID p ≠ id ∧ i = leaseID p) then lkeys ls ∖ {[k]} else lkeys ls
        | None => lkeys ls end) ↔ k' ∈ lkeys ls).
    { destruct prev as [p|]; [|done]. case_decide; [|done]. rewrite elem_of_difference, elem_of_singleton. tauto. }
    case_decide; [rewrite elem_of_union, elem_of_singleton|]; rewrite Hks; tauto.
Qed.

Lemma set_wf s k v id :
  kv_wf s → sver s + 1 < 2 ^ 64 → (id = "" ∨ is_Some (leases s !! id)) → kv_wf (set s k v id).2.
Proof.
  intros Hs Hv Hid. pose proof (set_spec s k v id) as Hp. destruct (set s k v id) as [[prev ver] s'].
  destruct Hp as (-> & Hver & Hed & He & Hsv & _ & Hl). simpl.
  rewrite u64_small in Hver by (unfold is_u64; pose proof (kw_pos _ Hs); lia).
  destruct Hs as [K1 K2 K3 K4 K5 K6 K7]. split; rewrite ?He.
  - intros k' e [[<- <-]|[_ H']]%lookup_insert_Some; [done|by apply K1].
  - intros k' e [[<- <-]|[_ H']]%lookup_insert_Some; cbn; [lia|]. apply K2 in H'. lia.
  - intros k1 k2 e1 e2 H1 H2. apply lookup_insert_Some in H1 as [[<- <-]|[N1 H1]];
      apply lookup_insert_Some in H2 as [[<- <-]|[N2 H2]]; cbn; try done.
    + apply K2 in H2. lia.
    + apply K2 in H1. lia.
    + by apply (K3 k1 k2 e1 e2).
  - intros k' e [[<- <-]|[_ H']]%lookup_insert_Some; cbn; rewrite (ed_index _ _ Hed); [done|by eapply K4].
  - intros i ls. rewrite Hl. intros Hi. apply fmap_Some in Hi as (ls0 & Hi & ->).
    destruct (K5 i ls0 Hi) as (Hne & Hlid & Hk). split_and!; [done|done|]. intros k'.
    rewrite rebind_keys by (done || apply Hk). rewrite Hk. split.
    + intros [[-> ->]|[Hkk (e & He' & Hle)]].
      * exists (mkEnt k id v ver (applyIndex s)). by rewrite lookup_insert_eq.
      * exists e. by rewrite lookup_insert_ne.
    + intros (e & [[<- <-]|[Hkk He']]%lookup_insert_Some & Hle); [by left|]. right. eauto.
  - intros k' e [[<- <-]|[_ H']]%lookup_insert_Some; cbn; intros Hne; rewrite Hl; apply fmap_is_Some.
    + by destruct Hid.
    + by eapply K6.
  - lia.
Qed.

Lemma del_wf s k : kv_wf s → kv_wf (del s k).2.
Proof.
  intros Hs. pose proof (del_spec s k) as Hp. destruct (del s k) as [prev s'].
  destruct Hp as (-> & Hed & He & Hsv & Hl). simpl.
  destruct Hs as [K1 K2 K3 K4 K5 K6 K7]. split; rewrite ?He, ?Hsv, ?(ed_index _ _ Hed); try done.
  - intros k' e [_ H']%lookup_delete_Some. by apply K1.
  - intros k' e [_ H']%lookup_delete_Some. by eapply K2.
  - intros k1 k2 e1 e2 [_ H1]%lookup_delete_Some [_ H2]%lookup_delete_Some. by apply K3.
  - intros k' e [_ H']%lookup_delete_Some. by eapply K4.
  - intros i ls. rewrite Hl. intros Hi. apply fmap_Some in Hi as (ls0 & Hi & ->).
    destruct (K5 i ls0 Hi) as (Hne & Hlid & Hk). split_and!; [done|done|]. intros k'. cbn [lkeys].
    assert (Hrk : k' ∈ (match entries s !! k with
      | Some p => if decide (leaseID p ≠ "" ∧ i = leaseID p) then lkeys ls0 ∖ {[k]} else lkeys ls0
      | None => lkeys ls0 end) ↔ k' ≠ k ∧ k' ∈ lkeys ls0).
    { destruct (decide (k' = k)) as [->|Hkk].
      - split; [|by intros [? _]]. intros Hx. exfalso. destruct (entries s !! k) as [p|] eqn:Ep.
        + case_decide as Hd; [apply elem_of_difference in Hx as [_ Hx]; by apply Hx, elem_of_singleton|].
          apply Hk in Hx as (p' & Ep' & Hp'). apply Hd. split; congruence.
        + apply Hk in Hx as (p' & Ep' & _). congruence.
      - destruct (entries s !! k) as [p|]; [|tauto].
        destruct (decide (leaseID p ≠ "" ∧ i = leaseID p));
          [rewrite elem_of_difference, elem_of_singleton|]; tauto. }
    rewrite Hrk, Hk. split.
    + intros [Hkk (e & He' & ?)]. exists e. by rewrite lookup_delete_ne.
    + intros (e & [Hkk He']%lookup_delete_Some & ?). split; [done|eauto].
  - intros k' e [_ H']%lookup_delete_Some Hne. rewrite Hl. apply fmap_is_Some. by eapply K6.
Qed.

Lemma addLease_wf s id t x :
  kv_wf s → id ≠ "" → leases s !! id = None → kv_wf (addLease s id t x).
Proof.
  intros Hs Hne Hn. destruct Hs as [K1 K2 K3 K4 K5 K6 K7]. split; cbn; try done.
  - intros i ls [[<- <-]|[_ Hi]]%lookup_insert_Some; [|by apply K5]. split_and!; [done|done|].
    intros k. cbn. rewrite elem_of_empty. split; [done|]. intros (e & He & Hl).
    destruct (K6 k e He) as [ls Hls]; [by rewrite Hl|]. rewrite Hl in Hls. congruence.
  - intros k e He Hl. rewrite lookup_insert. case_decide; [eauto|by eapply K6].
Qed.

(** ** Dropping a lease with its keys *)

Definition del_keys (s : state) (ks : list string) : state := foldl (λ s k, (del s k).2) s ks.

Lemma del_keys_spec s ks :
  (∀ k e, k ∈ ks → entries s !! k = Some e → leases s !! leaseID e = None) →
  let s' := del_keys s ks in
  edits s s' ∧ (∀ k, entries s' !! k = if decide (k ∈ ks) then None else entries s !! k) ∧
  leases s' = leases s ∧ sver s' = sver s.
Proof.
  revert s. induction ks as [|k ks IH]; intros s Hks; [done|]. cbn [del_keys foldl].
  pose proof (del_spec s k) as Hd. destruct (del s k) as [prev s1]. cbn [snd].
  destruct Hd as (-> & Hed & He & Hv & Hl).
  assert (Hl1 : leases s1 = leases s).
  { apply map_eq. intros i. rewrite Hl. destruct (leases s !! i) as [ls|] eqn:Ei; [|done]. simpl.
    destruct (entries s !! k) as [e|] eqn:Ek; [|by destruct ls].
    rewrite decide_False; [by destruct ls|]. intros [_ ->].
    rewrite (Hks k e ltac:(by left) Ek) in Ei. done. }
  destruct (IH s1) as (J1 & J2 & J3 & J4).
  { intros k' e Hk'. rewrite He, Hl1. intros [_ H']%lookup_delete_Some. apply (Hks k'); [by right|done]. }
  fold (del_keys s1 ks). split_and!; [by etrans| |congruence|congruence].
  intros k'. rewrite J2, He, lookup_delete. destruct (decide (k' ∈ ks)) as [Hi|Hi].
  { by rewrite decide_True by (by right). }
  destruct (decide (k = k')) as [->|Hne]; [by rewrite decide_True by (by left)|].
  rewrite decide_False; [done|]. rewrite elem_of_cons. intros [?|?]; congruence.
Qed.

(** Removing a lease and deleting its keys: the other leases and entries stay, and
    the invariant holds again. *)
Lemma removeLease_spec s id :
  kv_wf s →
  let '(ks, s1) := removeLease s id in
  let s' := del_keys s1 ks in
  kv_wf s' ∧ edits s s' ∧ leases s' = delete id (leases s) ∧ sver s' = sver s ∧
  (∀ k, entries s' !! k =
     match entries s !! k with
     | Some e => if decide (leaseID e = id ∧ id ≠ "") then None else Some e
     | None => None
     end).
Proof.
  intros Hs. unfold removeLease. destruct (leases s !! id) as [ls|] eqn:Ei.
  2:{ cbn [del_keys foldl]. split_and!; [done|done|by rewrite delete_id|done|]. intros k.
      destruct (entries s !! k) as [e|] eqn:Ek; [|done]. rewrite decide_False; [done|].
      intros [<- Hne]. destruct (kw_bound _ Hs k e Ek Hne) as [? ?]. congruence. }
  destruct (kw_lease _ Hs id ls Ei) as (Hne & Hlid & Hk).
  set (s1 := with_leases s _).
  destruct (del_keys_spec s1 (elements (lkeys ls))) as (J1 & J2 & J3 & J4).
  { intros k e Hin%elem_of_elements He. apply Hk in Hin as (e' & He' & <-). cbn in *. simplify_eq.
    by rewrite lookup_delete_eq. }
  assert (He : ∀ k, entries (del_keys s1 (elements (lkeys ls))) !! k =
     match entries s !! k with
     | Some e => if decide (leaseID e = id ∧ id ≠ "") then None else Some e
     | None => None
     end).
  { intros k. rewrite J2. change (entries s1) with (entries s).
    destruct (entries s !! k) as [e|] eqn:Ek; [|by case_decide].
    destruct (decide (leaseID e = id ∧ id ≠ "")) as [[Hl _]|Hl].
    - rewrite decide_True; [done|]. apply elem_of_elements, Hk. eauto.
    - rewrite decide_False; [done|]. intros Hin%elem_of_elements. apply Hk in Hin as (e' & ? & ?).
      simplify_eq. tauto. }
  set (s' := del_keys s1 _) in *.
  assert (Hed : edits s s') by (etrans; [|exact J1]; by split).
  assert (Hsub : ∀ k e, entries s' !! k = Some e → entries s !! k = Some e ∧ leaseID e ≠ id).
  { intros k e. rewrite He. destruct (entries s !! k) as [e'|] eqn:Ek; [|done].
    destruct (decide (leaseID e' = id ∧ id ≠ "")) as [|Hd]; [done|]. intros [= <-]. split; [done|]. tauto. }
  split_and!; [|done|done|done|done]. destruct Hs as [K1 K2 K3 K4 K5 K6 K7].
  split; rewrite ?J4, ?(ed_index _ _ Hed).
  - intros k e [H' _]%Hsub. by apply K1.
  - intros k e [H' _]%Hsub. by eapply K2.
  - intros k1 k2 e1 e2 [H1 _]%Hsub [H2 _]%Hsub. by apply K3.
  - intros k e [H' _]%Hsub. by eapply K4.
  - intros i ls' Hi. rewrite J3 in Hi. cbn in Hi. apply lookup_delete_Some in Hi as [Hni Hi].
    destruct (K5 i ls' Hi) as (? & ? & Hk'). split_and!; [done|done|]. intros k. rewrite Hk'. split.
    + intros (e & H' & Hl). exists e. split; [|done]. rewrite He, H', decide_False; [done|].
      intros [Hx _]. congruence.
    + intros (e & [H' _]%Hsub & Hl). eauto.
  - intros k e [H' Hl]%Hsub Hle. rewrite J3. cbn. rewrite lookup_delete_ne by congruence. by eapply K6.
  - done.
Qed.
End Kv.
