(* ===== verification/KvCodec.v ===== *)
(** * The replicated command codec ([system/kv/raft_command.go])

    The big-endian, length-prefixed encoding of the commands and transactions
    that the raft log carries. Decoders work on the whole buffer with an offset,
    as the code does; their errors name the field that was cut. *)

From S2P Require Import Prelude Bytes.

Module Codec.

(** [opcode], by numeric value. *)
Definition opSet : Z := 1.
Definition opDelete : Z := 2.
Definition opCAS : Z := 3.
Definition opSetIfAbsent : Z := 4.
Definition opSetWithLease : Z := 5.
Definition opSetIfAbsentWithLease : Z := 6.
Definition opLeaseGrant : Z := 7.
Definition opLeaseRenew : Z := 8.
Definition opLeaseRevoke : Z := 9.
Definition opCompareAndDelete : Z := 10.
Definition opTxn : Z := 11.

Record command := mkCmd {
  cKey : string; cLeaseID : string; cValue : list ascii;
  cExpect : Z; cTTLms : Z; cExpiresAtMs : Z; cOp : Z
}.

(** [kvapi.TxnOp]. *)
Record TxnOp := mkOp { oKey : string; oValue : list ascii; oExpect : Z; oKind : Z; oCond : Z }.

Inductive codec_error :=
| ErrEmpty
| ErrTruncatedLength
| ErrTruncatedPayload
| ErrTruncatedExpect
| ErrTruncatedTTL
| ErrBadHeader
| ErrTruncatedOp.

#[export] Instance codec_error_eq_dec : EqDecision codec_error.
Proof. solve_decision. Defined.

Definition blen (b : list ascii) : Z := Z.of_nat (length b).

Definition appendBytes (buf b : list ascii) : list ascii :=
  buf ++ be_bytes 4 (u32 (blen b)) ++ b.

Definition readBytes (data : list ascii) (off : nat) : result codec_error (list ascii * nat) :=
  if bool_decide (length data < off + 4)%nat then Err ErrTruncatedLength else
  let n := Z.to_nat (be_val (slice data off 4)) in
  let off := (off + 4)%nat in
  if bool_decide (length data < off + n)%nat then Err ErrTruncatedPayload
  else Ok (slice data off n, (off + n)%nat).

(** [binary.BigEndian.Uint64(data[off:off+8])] behind the bounds check. *)
Definition readU64 (err : codec_error) (data : list ascii) (off : nat) : result codec_error (Z * nat) :=
  if bool_decide (length data < off + 8)%nat then Err err
  else Ok (be_val (slice data off 8), (off + 8)%nat).

Definition encodeCommand (c : command) : list ascii :=
  let buf := [byte_of (cOp c)] in
  let buf := appendBytes buf (bytes_of (cKey c)) in
  let buf := appendBytes buf (cValue c) in
  let buf := buf ++ be_bytes 8 (cExpect c) in
  let buf := appendBytes buf (bytes_of (cLeaseID c)) in
  let buf := buf ++ be_bytes 8 (u64 (cTTLms c)) in
  buf ++ be_bytes 8 (u64 (cExpiresAtMs c)).

Open Scope go_scope.

(** A missing deadline (an older log entry) decodes as zero. *)
Definition decodeCommand (data : list ascii) : result codec_error command :=
  match data with
  | [] => Err ErrEmpty
  | op :: _ =>
      let* (key, off) := readBytes data 1 in
      let* (val, off) := readBytes data off in
      let* (expect, off) := readU64 ErrTruncatedExpect data off in
      let* (lease, off) := readBytes data off in
      let* (ttl, off) := readU64 ErrTruncatedTTL data off in
      let expires := if bool_decide (off + 8 ≤ length data)%nat
                     then i64 (be_val (slice data off 8)) else 0 in
      Ok (mkCmd (string_of key) (string_of lease) val expect (i64 ttl) expires (byte_val op))
  end.

Definition encode_op (buf : list ascii) (op : TxnOp) : list ascii :=
  let buf := buf ++ [byte_of (oKind op); byte_of (oCond op)] in
  let buf := appendBytes buf (bytes_of (oKey op)) in
  let buf := appendBytes buf (oValue op) in
  buf ++ be_bytes 8 (oExpect op).

Definition encodeTxn (ops : list TxnOp) : list ascii :=
  foldl encode_op ([byte_of opTxn] ++ be_bytes 4 (u32 (Z.of_nat (length ops)))) ops.

(** The loop of [decodeTxn] over the announced count. *)
Fixpoint decode_ops (n : nat) (data : list ascii) (off : nat) (ops : list TxnOp)
    : result codec_error (list TxnOp) :=
  match n with
  | O => Ok ops
  | S n =>
      if bool_decide (length data < off + 2)%nat then Err ErrTruncatedOp else
      let kind := be_val (slice data off 1) in
      let cond := be_val (slice data (off + 1) 1) in
      let* (key, off) := readBytes data (off + 2) in
      let* (val, off) := readBytes data off in
      let* (expect, off) := readU64 ErrTruncatedExpect data off in
      decode_ops n data off (ops ++ [mkOp (string_of key) val expect kind cond])
  end.

Definition decodeTxn (data : list ascii) : result codec_error (list TxnOp) :=
  if bool_decide (length data < 5)%nat || bool_decide (be_val (slice data 0 1) ≠ opTxn)
  then Err ErrBadHeader
  else decode_ops (Z.to_nat (be_val (slice data 1 4))) data 5 [].

(** ** Round trips *)

Definition enc_bytes (b : list ascii) : list ascii := be_bytes 4 (blen b) ++ b.

Lemma length_enc_bytes b : length (enc_bytes b) = (4 + length b)%nat.
Proof. unfold enc_bytes. by rewrite length_app, length_be_bytes. Qed.

(** What is left at [off] determines what is read there. *)
Lemma readBytes_at data off b post :
  blen b < 2 ^ 32 → drop off data = enc_bytes b ++ post →
  readBytes data off = Ok (b, (off + (4 + length b))%nat) ∧ drop (off + (4 + length b)) data = post.
Proof.
  intros Hb Hd. pose proof (f_equal length Hd) as Hl. rewrite length_drop, length_app, length_enc_bytes in Hl.
  unfold readBytes, slice. rewrite <- !drop_drop, Hd. unfold enc_bytes.
  set (h := be_bytes 4 (blen b)). assert (Hh : length h = 4%nat) by apply length_be_bytes.
  rewrite <- app_assoc. rewrite <- Hh, take_app_length, drop_app_length.
  assert (Hn : Z.to_nat (be_val h) = length b).
  { unfold h. rewrite be_val_bytes. change (2 ^ (8 * Z.of_nat 4)) with (2 ^ 32). unfold blen in *.
    rewrite Z.mod_small; lia. }
  rewrite Hn, take_app_length, Hh. rewrite !bool_decide_eq_false_2 by lia.
  split; [do 2 f_equal; lia|]. apply drop_app_length.
Qed.

Lemma readU64_at err data off v post :
  is_u64 v → drop off data = be_bytes 8 v ++ post →
  readU64 err data off = Ok (v, (off + 8)%nat) ∧ drop (off + 8) data = post.
Proof.
  intros Hv Hd. pose proof (f_equal length Hd) as Hl. rewrite length_drop, length_app, length_be_bytes in Hl.
  unfold readU64, slice. rewrite <- drop_drop, Hd.
  set (h := be_bytes 8 v). assert (Hh : length h = 8%nat) by apply length_be_bytes.
  rewrite bool_decide_eq_false_2 by lia.
  assert (Ht : take 8 (h ++ post) = h) by (rewrite <- Hh; apply take_app_length).
  assert (Hd' : drop 8 (h ++ post) = post) by (rewrite <- Hh; apply drop_app_length).
  rewrite Ht, Hd'. split; [|done]. unfold h. rewrite be_val_bytes.
  change (2 ^ (8 * Z.of_nat 8)) with (2 ^ 64). by rewrite Z.mod_small.
Qed.

Lemma appendBytes_enc buf b : blen b < 2 ^ 32 → appendBytes buf b = buf ++ enc_bytes b.
Proof. intros Hb. unfold appendBytes, enc_bytes. rewrite u32_small; [done|]. unfold blen in *. lia. Qed.

(** The commands the engine builds: 32-bit lengths, fields in range. *)
Definition cmd_ok (c : command) : Prop :=
  blen (bytes_of (cKey c)) < 2 ^ 32 ∧ blen (cValue c) < 2 ^ 32 ∧ blen (bytes_of (cLeaseID c)) < 2 ^ 32 ∧
  is_u64 (cExpect c) ∧ is_i64 (cTTLms c) ∧ is_i64 (cExpiresAtMs c) ∧ 0 ≤ cOp c < 256.

Definition op_ok (o : TxnOp) : Prop :=
  blen (bytes_of (oKey o)) < 2 ^ 32 ∧ blen (oValue o) < 2 ^ 32 ∧ is_u64 (oExpect o) ∧
  0 ≤ oKind o < 256 ∧ 0 ≤ oCond o < 256.

(** The encoding up to the ttl, which older log entries end with. *)
Definition cmd_head (c : command) : list ascii :=
  [byte_of (cOp c)] ++ enc_bytes (bytes_of (cKey c)) ++ enc_bytes (cValue c) ++ be_bytes 8 (cExpect c)
  ++ enc_bytes (bytes_of (cLeaseID c)) ++ be_bytes 8 (u64 (cTTLms c)).

Lemma encodeCommand_eq c :
  cmd_ok c → encodeCommand c = cmd_head c ++ be_bytes 8 (u64 (cExpiresAtMs c)).
Proof.
  intros (Hk & Hv & Hl & _). unfold encodeCommand, cmd_head. rewrite !appendBytes_enc by done.
  by rewrite <- !app_assoc.
Qed.

(** Reading the head leaves the tail that follows it. *)
Lemma decode_head c tail :
  cmd_ok c →
  decodeCommand (cmd_head c ++ tail) =
  Ok (mkCmd (cKey c) (cLeaseID c) (cValue c) (cExpect c) (cTTLms c)
        (if bool_decide (8 ≤ length tail)%nat then i64 (be_val (take 8 tail)) else 0) (cOp c)).
Proof.
  intros (Hk & Hv & Hl & He & Ht & Hx & Ho).
  remember (cmd_head c ++ tail) as data eqn:Ed.
  assert (H0 : drop 1 data = enc_bytes (bytes_of (cKey c)) ++ enc_bytes (cValue c) ++ be_bytes 8 (cExpect c)
    ++ enc_bytes (bytes_of (cLeaseID c)) ++ be_bytes 8 (u64 (cTTLms c)) ++ tail)
    by (subst data; unfold cmd_head; by rewrite <- !app_assoc).
  apply readBytes_at in H0 as [H1 H0]; [|done]. apply readBytes_at in H0 as [H2 H0]; [|done].
  apply (readU64_at ErrTruncatedExpect) in H0 as [H3 H0]; [|done]. apply readBytes_at in H0 as [H4 H0]; [|done].
  apply (readU64_at ErrTruncatedTTL) in H0 as [H5 H0]; [|apply u64_range].
  unfold decodeCommand. rewrite Ed at 1. cbn [cmd_head app].
  rewrite H1. cbn [result_bind]. rewrite H2. cbn [result_bind]. rewrite H3. cbn [result_bind].
  rewrite H4. cbn [result_bind]. rewrite H5. cbn [result_bind]. unfold slice. rewrite H0.
  rewrite byte_val_of, u8_small by lia. rewrite i64_u64 by done. rewrite !string_of_bytes_of.
  apply (f_equal length) in H0. rewrite length_drop in H0.
  match goal with |- context [bool_decide (?a ≤ length data)%nat] =>
    replace (bool_decide (a ≤ length data)%nat) with (bool_decide (8 ≤ length tail)%nat)
      by (apply bool_decide_ext; lia) end.
  done.
Qed.

Lemma decodeCommand_enc c :
  cmd_ok c →
  decodeCommand (encodeCommand c) = Ok c ∧
  decodeCommand (take (length (encodeCommand c) - 8) (encodeCommand c)) =
    Ok (mkCmd (cKey c) (cLeaseID c) (cValue c) (cExpect c) (cTTLms c) 0 (cOp c)).
Proof.
  intros Hc. rewrite encodeCommand_eq by done. split.
  - rewrite decode_head by done. rewrite length_be_bytes.
    rewrite bool_decide_eq_true_2, take_ge by (rewrite ?length_be_bytes; lia).
    rewrite be_val_bytes. change (2 ^ (8 * Z.of_nat 8)) with (2 ^ 64).
    destruct Hc as (_ & _ & _ & _ & _ & Hx & _).
    rewrite Z.mod_small by apply u64_range. rewrite i64_u64 by done. by destruct c.
  - rewrite length_app, length_be_bytes, Nat.add_sub, take_app_length.
    pose proof (decode_head c [] Hc) as Hd. by rewrite app_nil_r in Hd.
Qed.

(** ** Transactions *)

Definition enc_op (o : TxnOp) : list ascii :=
  [byte_of (oKind o); byte_of (oCond o)] ++ enc_bytes (bytes_of (oKey o)) ++ enc_bytes (oValue o)
  ++ be_bytes 8 (oExpect o).

Lemma encode_ops_eq ops buf :
  Forall op_ok ops → foldl encode_op buf ops = buf ++ concat (map enc_op ops).
Proof.
  intros Ho. revert buf. induction Ho as [|o ops (Hk & Hv & _) _ IH]; intros buf; cbn [foldl map concat].
  { by rewrite app_nil_r. }
  rewrite IH. unfold encode_op, enc_op. rewrite !appendBytes_enc by done. by rewrite <- !app_assoc.
Qed.

Lemma be_val_one b : be_val [b] = byte_val b.
Proof. unfold be_val. cbn. lia. Qed.

Lemma decode_ops_enc ops data off acc post :
  Forall op_ok ops → drop off data = concat (map enc_op ops) ++ post →
  decode_ops (length ops) data off acc = Ok (acc ++ ops).
Proof.
  intros Ho. revert off acc. induction Ho as [|o ops (Hk & Hv & He & Hkd & Hcd) _ IH]; intros off acc Hd;
    cbn [decode_ops length].
  { by rewrite app_nil_r. }
  cbn [map concat] in Hd. unfold enc_op in Hd. rewrite <- !app_assoc in Hd.
  pose proof (f_equal length Hd) as Hl. rewrite length_drop, !length_app in Hl. cbn [length] in Hl.
  rewrite bool_decide_eq_false_2 by lia.
  assert (Hb : slice data off 1 = [byte_of (oKind o)] ∧ slice data (off + 1) 1 = [byte_of (oCond o)])
    by (unfold slice; rewrite <- drop_drop, Hd; done).
  destruct Hb as [-> ->]. rewrite !be_val_one, !byte_val_of, !u8_small by lia.
  assert (H0 := f_equal (drop 2) Hd). rewrite drop_drop in H0. cbn [app drop] in H0.
  apply readBytes_at in H0 as [H1 H0]; [|done]. apply readBytes_at in H0 as [H2 H0]; [|done].
  apply (readU64_at ErrTruncatedExpect) in H0 as [H3 H0]; [|done].
  rewrite H1. cbn [result_bind]. rewrite H2. cbn [result_bind]. rewrite H3. cbn [result_bind].
  rewrite (IH _ _ H0), string_of_bytes_of, <- app_assoc. by destruct o.
Qed.

Lemma decodeTxn_enc ops rest :
  Forall op_ok ops → Z.of_nat (length ops) < 2 ^ 32 →
  decodeTxn (encodeTxn ops ++ rest) = Ok ops.
Proof.
  intros Ho Hn. unfold encodeTxn. rewrite encode_ops_eq by done. rewrite u32_small by lia.
  set (h := be_bytes 4 (Z.of_nat (length ops))).
  assert (Hh : length h = 4%nat) by apply length_be_bytes.
  remember ((([byte_of opTxn] ++ h) ++ concat (map enc_op ops)) ++ rest) as data eqn:Ed.
  assert (Hl : (5 ≤ length data)%nat) by (subst data; rewrite !length_app, Hh; simpl; lia).
  assert (Ho1 : slice data 0 1 = [byte_of opTxn]) by (by subst data).
  assert (Hd1 : drop 1 data = h ++ concat (map enc_op ops) ++ rest)
    by (subst data; by rewrite <- !app_assoc).
  assert (Hs : slice data 1 4 = h) by (unfold slice; rewrite Hd1, <- Hh; apply take_app_length).
  assert (Hd : drop 5 data = concat (map enc_op ops) ++ rest).
  { change 5%nat with (1 + 4)%nat. rewrite <- drop_drop, Hd1, <- Hh. apply drop_app_length. }
  unfold decodeTxn. rewrite Ho1, Hs. rewrite (bool_decide_eq_false_2 (length data < 5)%nat) by lia.
  rewrite bool_decide_eq_false_2 by (intros Hx; by apply Hx). cbn [orb].
  assert (Hc : Z.to_nat (be_val h) = length ops).
  { unfold h. rewrite be_val_bytes. change (2 ^ (8 * Z.of_nat 4)) with (2 ^ 32). rewrite Z.mod_small; lia. }
  rewrite Hc. exact (decode_ops_enc ops data 5 [] rest Ho Hd).
Qed.

Lemma encodeTxn_shape ops :
  Forall op_ok ops → Z.of_nat (length ops) < 2 ^ 32 →
  (0 < length (encodeTxn ops))%nat ∧ be_val (slice (encodeTxn ops) 0 1) = opTxn.
Proof.
  intros Ho Hn. unfold encodeTxn. rewrite encode_ops_eq by done. rewrite <- app_assoc.
  split; [cbn; lia|]. by vm_compute.
Qed.

Lemma encodeCommand_shape c :
  cmd_ok c → (0 < length (encodeCommand c))%nat ∧ be_val (slice (encodeCommand c) 0 1) = cOp c.
Proof.
  intros Hc. rewrite encodeCommand_eq by done. destruct Hc as (_ & _ & _ & _ & _ & _ & Ho).
  unfold cmd_head. rewrite <- !app_assoc. split; [rewrite length_app; simpl length; lia|].
  change (slice _ 0 1) with [byte_of (cOp c)]. rewrite be_val_one, byte_val_of. by apply u8_small.
Qed.

(** C38. Log-entry round trips: every encodable command decodes to itself, and an entry
    written before the lease deadline was added to the format decodes to the same
    command with deadline 0; every list of encodable transaction operations decodes
    to itself, whatever bytes follow it. *)
Theorem codec_roundtrip c ops rest :
  cmd_ok c → Forall op_ok ops → Z.of_nat (length ops) < 2 ^ 32 →
  decodeCommand (encodeCommand c) = Ok c ∧
  decodeCommand (take (length (encodeCommand c) - 8) (encodeCommand c)) =
    Ok (mkCmd (cKey c) (cLeaseID c) (cValue c) (cExpect c) (cTTLms c) 0 (cOp c)) ∧
  decodeTxn (encodeTxn ops ++ rest) = Ok ops.
Proof.
  intros Hc Ho Hn. destruct (decodeCommand_enc c Hc) as [H1 H2].
  split_and!; [done|done|by apply decodeTxn_enc].
Qed.

Lemma codec_roundtrip_witness :
  let c := mkCmd "k" "l" (bytes_of "v") 3 (-1) 7 opCAS in
  let o := mkOp "k" (bytes_of "v") 3 1 2 in
  decodeCommand (encodeCommand c) = Ok c ∧ decodeTxn (encodeTxn [o; o] ++ bytes_of "x") = Ok [o; o].
Proof.
  intros c o. destruct (codec_roundtrip c [o; o] (bytes_of "x")) as (H1 & _ & H2).
  - by vm_compute.
  - repeat constructor; by vm_compute.
  - by vm_compute.
  - by split.
Defined.
End Codec.
