(* ===== verification/KvFsm.v ===== *)
(** * The replicated key-value state machine ([system/kv/raft_fsm.go])

    [RaftFSM] applies committed log entries to the key-value state, publishes a
    snapshot with the events of each entry, and captures and restores its state
    for raft. Readers use the published snapshot only. The clock readings that
    [Apply] and [Restore] take for the lease manager are arguments. Go's
    [encoding/gob] transports a value of the exported structure: the class [Gob]
    is its encoder and decoder with the documented round trip.

    The theorems: readers are current and never torn, a restored replica and a
    replica with another clock behave alike, transactions are atomic, failed
    entries have no effect, and versions are fencing tokens. *)

From S2P Require Import Prelude Bytes Crdt KvLease KvState KvCodec.

Module Fsm.
Import Kv Codec.

Inductive WatchEventType := WatchPut | WatchDelete | WatchExpired.

Record watchRecord := mkRec {
  rtyp : WatchEventType; rcurrent : option entry; rprevious : option entry; rindex : Z; rrevision : Z
}.

(** What watchers see: publications in order, and a reset at every restore. *)
Inductive feed_event :=
| Published (rs : list watchRecord)
| FeedReset.

Inductive apply_error :=
| ErrKeyNotFound
| ErrLeaseNotFound
| ErrUnknownOp (op : Z)
| ErrDecode (e : codec_error).

Record applyResult := mkRes { rErr : option apply_error; rVersion : Z; rOK : bool }.

Record RaftFSM := mkFSM {
  st : state;
  lm : Lease.leaseManager;
  snap : stateSnapshot;
  outbox : list watchRecord;
  feed : list feed_event
}.

Definition with_st (f : RaftFSM) s : RaftFSM := mkFSM s (lm f) (snap f) (outbox f) (feed f).
Definition with_lm (f : RaftFSM) m : RaftFSM := mkFSM (st f) m (snap f) (outbox f) (feed f).

Definition msToDuration (ms : Z) : Z := i64 (ms * 1000000).

Definition emitEvent (f : RaftFSM) (typ : WatchEventType) (current prev : option entry) : RaftFSM :=
  mkFSM (st f) (lm f) (snap f) (outbox f ++ [mkRec typ current prev (applyIndex (st f)) 0]) (feed f).

Definition emitPut (f : RaftFSM) (k : string) (prev : option entry) : RaftFSM :=
  match get (st f) k with
  | None => f
  | Some current => emitEvent f WatchPut (Some current) prev
  end.

Definition TxnCheck : Z := 0.
Definition TxnPut : Z := 1.
Definition TxnDelete : Z := 2.

(** The mutation of one operation of a transaction. *)
Definition apply_op (f : RaftFSM) (op : TxnOp) : RaftFSM :=
  if bool_decide (oKind op = TxnPut) then
    let prev := get (st f) (oKey op) in
    let '(_, _, s) := set (st f) (oKey op) (oValue op) "" in
    emitPut (with_st f s) (oKey op) prev
  else if bool_decide (oKind op = TxnDelete) then
    match del (st f) (oKey op) with
    | (Some prev, s) => emitEvent (with_st f s) WatchDelete None (Some prev)
    | (None, s) => with_st f s
    end
  else f.

Definition applyTxn (f : RaftFSM) (ops : list TxnOp) : applyResult * RaftFSM :=
  if forallb (λ op, condHolds (oCond op) (oExpect op) (get (st f) (oKey op))) ops
  then (mkRes None 0 true, foldl apply_op f ops)
  else (mkRes None 0 false, f).

(** The delete loop of a lease revocation. *)
Definition expire_key (f : RaftFSM) (k : string) : RaftFSM :=
  match del (st f) k with
  | (Some prev, s) => emitEvent (with_st f s) WatchExpired None (Some prev)
  | (None, s) => with_st f s
  end.

(** The bodies shared by the commands with and without a lease. *)
Definition apply_set (f : RaftFSM) (k : string) (v : list ascii) (id : string) : applyResult * RaftFSM :=
  let '(prev, ver, s) := set (st f) k v id in
  (mkRes None ver true, emitPut (with_st f s) k prev).

Definition apply_setIfAbsent (f : RaftFSM) (k : string) (v : list ascii) (id : string)
    : applyResult * RaftFSM :=
  let '(ver, ok, s) := setIfAbsent (st f) k v id in
  (mkRes None ver ok, if ok then emitPut (with_st f s) k None else with_st f s).

Definition applyCommand (f : RaftFSM) (now : Z) (c : command) : applyResult * RaftFSM :=
  let k := cKey c in
  let id := cLeaseID c in
  if bool_decide (cOp c = opSet) then
    apply_set f k (cValue c) ""
  else if bool_decide (cOp c = opDelete) then
    match del (st f) k with
    | (None, s) => (mkRes (Some ErrKeyNotFound) 0 false, with_st f s)
    | (Some prev, s) => (mkRes None 0 true, emitEvent (with_st f s) WatchDelete None (Some prev))
    end
  else if bool_decide (cOp c = opCAS) then
    let prev := get (st f) k in
    let '(ver, ok, s) := cas (st f) k (cExpect c) (cValue c) in
    (mkRes None ver ok, if ok then emitPut (with_st f s) k prev else with_st f s)
  else if bool_decide (cOp c = opSetIfAbsent) then
    apply_setIfAbsent f k (cValue c) ""
  else if bool_decide (cOp c = opCompareAndDelete) then
    let prev := get (st f) k in
    let '(deleted, _, s) := compareAndDelete (st f) k (cExpect c) in
    (mkRes None 0 deleted, if deleted then emitEvent (with_st f s) WatchDelete None prev else with_st f s)
  else if bool_decide (cOp c = opSetWithLease) then
    match Lease.getHandle (lm f) id with
    | None => (mkRes (Some ErrLeaseNotFound) 0 false, f)
    | Some _ => apply_set f k (cValue c) id
    end
  else if bool_decide (cOp c = opSetIfAbsentWithLease) then
    match Lease.getHandle (lm f) id with
    | None => (mkRes (Some ErrLeaseNotFound) 0 false, f)
    | Some _ => apply_setIfAbsent f k (cValue c) id
    end
  else if bool_decide (cOp c = opLeaseGrant) then
    let f := with_st f (addLease (st f) id (cTTLms c) (cExpiresAtMs c)) in
    (mkRes None 0 true, with_lm f (Lease.grant (lm f) id (msToDuration (cTTLms c)) now).2)
  else if bool_decide (cOp c = opLeaseRenew) then
    match Lease.renew (lm f) id now with
    | (false, m) => (mkRes (Some ErrLeaseNotFound) 0 false, with_lm f m)
    | (true, m) =>
        let s := with_leases (st f)
                   (alter (λ ls, mkLS (lkeys ls) (lid ls) (ttl ls) (cExpiresAtMs c)) id (leases (st f))) in
        (mkRes None 0 true, with_st (with_lm f m) s)
    end
  else if bool_decide (cOp c = opLeaseRevoke) then
    let '(keys, s) := removeLease (st f) id in
    let f := foldl expire_key (with_st f s) keys in
    (mkRes None 0 true, with_lm f (Lease.revoke (lm f) id).2)
  else (mkRes (Some (ErrUnknownOp (cOp c))) 0 false, f).

(** [leaseSnapshot]: the replicated deadlines. *)
Definition leaseSnapshot (f : RaftFSM) : gmap string Z := expiresAtMs <$> leases (st f).

Section fsm.
Context `{XXHash}.

Definition flush (f : RaftFSM) : RaftFSM :=
  let '(published, s) := snapshot (st f) in
  let rs := map (λ r, mkRec (rtyp r) (rcurrent r) (rprevious r) (rindex r) (sindex published)) (outbox f) in
  mkFSM s (lm f) published [] (feed f ++ [Published rs]).

Definition NewRaftFSM : RaftFSM :=
  let '(published, s) := snapshot newState in
  mkFSM s Lease.newLeaseManager published [] [].

(** [Apply] of the log entry [data] at [index]. *)
Definition Apply (f : RaftFSM) (index : Z) (data : list ascii) (now : Z) : applyResult * RaftFSM :=
  let f := with_st f (with_applyIndex (st f) index) in
  if bool_decide (0 < length data)%nat && bool_decide (be_val (slice data 0 1) = opTxn) then
    match decodeTxn data with
    | Err e => (mkRes (Some (ErrDecode e)) 0 false, f)
    | Ok ops => let '(res, f) := applyTxn f ops in (res, flush f)
    end
  else
    match decodeCommand data with
    | Err e => (mkRes (Some (ErrDecode e)) 0 false, f)
    | Ok c => let '(res, f) := applyCommand f now c in (res, flush f)
    end.

(** Readers: [get] on the published snapshot. *)
Definition read (f : RaftFSM) (k : string) : option entry := snap_get (maps (st f)) (snap f) k.

(** ** Snapshot and restore *)

Record snapLease := mkSL { ID : string; Keys : list string; TTLms : Z; ExpiresAtMs : Z }.

(** [snapEntry] has the fields of [entry]. *)
Record fsmState := mkFS { Entries : list entry; Leases : list snapLease; ApplyIndex : Z; Version : Z }.

(** The state captured for raft, before encoding. *)
Definition capture (f : RaftFSM) : fsmState :=
  mkFS (map_to_list (entries (st f))).*2
       (map (λ p, mkSL p.1 (elements (lkeys p.2)) (ttl p.2) (expiresAtMs p.2)) (map_to_list (leases (st f))))
       (applyIndex (st f)) (sver (st f)).

(** [encoding/gob] on the captured structure. *)
Class Gob := {
  gob_encode : fsmState → list ascii;
  gob_decode : list ascii → option fsmState;
  gob_roundtrip : ∀ x, gob_decode (gob_encode x) = Some x;
  gob_nonempty : ∀ x, gob_encode x ≠ []
}.

Definition Snapshot `{Gob} (f : RaftFSM) : list ascii := gob_encode (capture f).

Definition restore_lease (now : Z) (acc : state * Lease.leaseManager) (l : snapLease)
    : state * Lease.leaseManager :=
  (addLease acc.1 (ID l) (TTLms l) (ExpiresAtMs l),
   (Lease.grant acc.2 (ID l) (msToDuration (TTLms l)) now).2).

Definition restore_entry (s : state) (e : entry) : state :=
  let s := if bool_decide (applyIndex s < epoch e) then with_applyIndex s (epoch e) else s in
  let s := with_entries s (<[key e := e]> (entries s)) in
  if bool_decide (leaseID e ≠ "") then attach s (leaseID e) (key e) else s.

(** The rebuilt state replaces the old one; maps already allocated stay reachable
    for their readers. [false] reports a stream that does not decode. *)
Definition Restore `{Gob} (f : RaftFSM) (data : list ascii) (now : Z) : bool * RaftFSM :=
  match (if bool_decide (0 < length data)%nat then gob_decode data else Some (mkFS [] [] 0 0)) with
  | None => (false, f)
  | Some x =>
      let fresh := mkState (maps (st f)) None ∅ ∅ ∅ (Version x) (Version x) (ApplyIndex x) in
      let '(fresh, m) := foldl (restore_lease now) (fresh, Lease.newLeaseManager) (Leases x) in
      let fresh := foldl restore_entry fresh (Entries x) in
      let '(published, fresh) := snapshot fresh in
      (true, mkFSM fresh m published (outbox f) (feed f ++ [FeedReset]))
  end.
End fsm.

(** ** Replica equivalence

    Two replicas are equivalent when they agree on everything a later log entry
    can depend on: entries, leases, version allocator, applied index, and which
    leases the manager knows. Shard maps, publications, revisions and lease
    clocks may differ. *)

Record core_eq (s t : state) : Prop := {
  ce_entries : entries s = entries t;
  ce_leases : leases s = leases t;
  ce_ver : sver s = sver t;
  ce_index : applyIndex s = applyIndex t
}.

Definition lm_eq (m n : Lease.leaseManager) : Prop :=
  ∀ id, (is_Some (Lease.entries m !! id) ↔ is_Some (Lease.entries n !! id)) ∧
        (is_Some (Lease.handles m !! id) ↔ is_Some (Lease.handles n !! id)).

Record fsm_equiv (f g : RaftFSM) : Prop := {
  fe_core : core_eq (st f) (st g);
  fe_lm : lm_eq (lm f) (lm g);
  fe_outbox : outbox f = outbox g
}.

#[export] Instance core_eq_equiv : Equivalence core_eq.
Proof.
  split.
  - by intros s.
  - intros s t [A B C D]. by split.
  - intros s t u [A B C D] [A' B' C' D']. split; congruence.
Qed.

Lemma set_core s t k v id :
  core_eq s t → (set s k v id).1 = (set t k v id).1 ∧ core_eq (set s k v id).2 (set t k v id).2.
Proof.
  intros [A B C D]. pose proof (set_spec s k v id) as Hs. pose proof (set_spec t k v id) as Ht.
  destruct (set s k v id) as [[p ver] s'], (set t k v id) as [[p' ver'] t'].
  destruct Hs as (-> & -> & Hed & He & Hv & _ & Hl), Ht as (-> & -> & Hed' & He' & Hv' & _ & Hl').
  rewrite A, C. split; [done|]. split; cbn [snd].
  - by rewrite He, He', A, C, D.
  - apply map_eq. intros i. by rewrite Hl, Hl', A, B.
  - by rewrite Hv, Hv', C.
  - by rewrite (ed_index _ _ Hed), (ed_index _ _ Hed').
Qed.

Lemma del_core s t k :
  core_eq s t → (del s k).1 = (del t k).1 ∧ core_eq (del s k).2 (del t k).2.
Proof.
  intros [A B C D]. pose proof (del_spec s k) as Hs. pose proof (del_spec t k) as Ht.
  destruct (del s k) as [p s'], (del t k) as [p' t'].
  destruct Hs as (-> & Hed & He & Hv & Hl), Ht as (-> & Hed' & He' & Hv' & Hl').
  split; [cbn; by rewrite A|]. split; cbn [snd].
  - by rewrite He, He', A.
  - apply map_eq. intros i. by rewrite Hl, Hl', A, B.
  - by rewrite Hv, Hv', C.
  - by rewrite (ed_index _ _ Hed), (ed_index _ _ Hed').
Qed.

Lemma setIfAbsent_core s t k v id :
  core_eq s t →
  (setIfAbsent s k v id).1 = (setIfAbsent t k v id).1 ∧
  core_eq (setIfAbsent s k v id).2 (setIfAbsent t k v id).2.
Proof.
  intros Hc. unfold setIfAbsent. rewrite (ce_entries _ _ Hc). destruct (entries t !! k); [done|].
  destruct (set_core s t k v id Hc) as [H1 H2].
  destruct (set s k v id) as [[? ?] ?], (set t k v id) as [[? ?] ?]. cbn in *. by simplify_eq.
Qed.

Lemma cas_core s t k x v :
  core_eq s t → (cas s k x v).1 = (cas t k x v).1 ∧ core_eq (cas s k x v).2 (cas t k x v).2.
Proof.
  intros Hc. unfold cas. rewrite (ce_entries _ _ Hc). case_bool; [done|].
  destruct (set_core s t k v (default "" (leaseID <$> entries t !! k)) Hc) as [H1 H2].
  destruct (set s k v _) as [[? ?] ?], (set t k v _) as [[? ?] ?]. cbn in *. by simplify_eq.
Qed.

Lemma compareAndDelete_core s t k x :
  core_eq s t →
  (compareAndDelete s k x).1 = (compareAndDelete t k x).1 ∧
  core_eq (compareAndDelete s k x).2 (compareAndDelete t k x).2.
Proof.
  intros Hc. unfold compareAndDelete. rewrite (ce_entries _ _ Hc). destruct (entries t !! k); [|done].
  case_bool; [done|]. split; [done|]. by apply del_core.
Qed.

Lemma removeLease_core s t id :
  core_eq s t → (removeLease s id).1 = (removeLease t id).1 ∧
  core_eq (removeLease s id).2 (removeLease t id).2.
Proof.
  intros [A B C D]. unfold removeLease. rewrite B. destruct (leases t !! id); [|done].
  split; [done|]. split; cbn; congruence.
Qed.

Lemma emitEvent_equiv f g typ c p : fsm_equiv f g → fsm_equiv (emitEvent f typ c p) (emitEvent g typ c p).
Proof. intros [A B C]. split; [done|done|]. cbn. by rewrite C, (ce_index _ _ A). Qed.

Lemma emitPut_equiv f g k p : fsm_equiv f g → fsm_equiv (emitPut f k p) (emitPut g k p).
Proof.
  intros Hf. unfold emitPut, get. rewrite (ce_entries _ _ (fe_core _ _ Hf)).
  destruct (entries (st g) !! k); [by apply emitEvent_equiv|done].
Qed.

Lemma with_st_equiv f g s t : fsm_equiv f g → core_eq s t → fsm_equiv (with_st f s) (with_st g t).
Proof. intros [A B C] Hc. by split. Qed.

Lemma apply_op_equiv f g op : fsm_equiv f g → fsm_equiv (apply_op f op) (apply_op g op).
Proof.
  intros Hf. pose proof (fe_core _ _ Hf) as Hc. unfold apply_op. case_bool.
  - destruct (set_core _ _ (oKey op) (oValue op) "" Hc) as [_ H2]. unfold get.
    rewrite (ce_entries _ _ Hc).
    destruct (set (st f) _ _ _) as [[? ?] ?], (set (st g) _ _ _) as [[? ?] ?].
    by apply emitPut_equiv, with_st_equiv.
  - destruct (del_core _ _ (oKey op) Hc) as [H1 H2].
    destruct (del (st f) _) as [p s], (del (st g) _) as [p' t]. cbn in *. subst p'.
    destruct p; [apply emitEvent_equiv|]; by apply with_st_equiv.
  - done.
Qed.

Lemma expire_key_equiv f g k : fsm_equiv f g → fsm_equiv (expire_key f k) (expire_key g k).
Proof.
  intros Hf. pose proof (fe_core _ _ Hf) as Hc. unfold expire_key.
  destruct (del_core _ _ k Hc) as [H1 H2].
  destruct (del (st f) _) as [p s], (del (st g) _) as [p' t]. cbn in *. subst p'.
  destruct p; [apply emitEvent_equiv|]; by apply with_st_equiv.
Qed.

Lemma foldl_equiv {A} (h : RaftFSM → A → RaftFSM) (l : list A) f g :
  (∀ f g a, fsm_equiv f g → fsm_equiv (h f a) (h g a)) →
  fsm_equiv f g → fsm_equiv (foldl h f l) (foldl h g l).
Proof. intros Hh. revert f g. induction l; intros f g Hf; cbn; auto. Qed.

Lemma applyTxn_equiv f g ops :
  fsm_equiv f g →
  (applyTxn f ops).1 = (applyTxn g ops).1 ∧ fsm_equiv (applyTxn f ops).2 (applyTxn g ops).2.
Proof.
  intros Hf. unfold applyTxn, get. rewrite (ce_entries _ _ (fe_core _ _ Hf)).
  destruct (forallb _ _); [|done]. split; [done|]. apply foldl_equiv; auto using apply_op_equiv.
Qed.

(** The lease manager's answers depend only on which leases it knows. *)
Lemma lm_grant m n id t1 n1 t2 n2 :
  lm_eq m n → lm_eq (Lease.grant m id t1 n1).2 (Lease.grant n id t2 n2).2.
Proof.
  intros Hm i. cbn. rewrite !lookup_insert. destruct (decide (id = i)); [|apply Hm].
  split; split; eauto.
Qed.

Lemma lm_renew m n id n1 n2 :
  lm_eq m n → (Lease.renew m id n1).1 = (Lease.renew n id n2).1 ∧
  lm_eq (Lease.renew m id n1).2 (Lease.renew n id n2).2.
Proof.
  intros Hm. destruct (Hm id) as [[A A'] [B B']]. unfold Lease.renew.
  destruct (Lease.entries m !! id) eqn:E1, (Lease.entries n !! id) eqn:E2; try done;
    try (by destruct A; eauto); try (by destruct A'; eauto).
  destruct (Lease.handles m !! id) eqn:E3, (Lease.handles n !! id) eqn:E4; try done;
    try (by destruct B; eauto); try (by destruct B'; eauto).
Qed.

Lemma lm_revoke m n id :
  lm_eq m n → lm_eq (Lease.revoke m id).2 (Lease.revoke n id).2.
Proof.
  intros Hm i. destruct (Hm id) as [[A A'] [B B']], (Hm i) as [I J]. unfold Lease.revoke.
  destruct (Lease.entries m !! id) eqn:E1, (Lease.entries n !! id) eqn:E2; try done;
    try (by destruct A; eauto); try (by destruct A'; eauto). cbn.
  assert (Hd : ∀ A B : option nat, (is_Some A ↔ is_Some B) →
    is_Some (if decide (id = i) then None else A) ↔ is_Some (if decide (id = i) then None else B))
    by (intros ? ? ?; by destruct (decide (id = i))).
  destruct (Lease.handles m !! id) eqn:E3, (Lease.handles n !! id) eqn:E4;
    try (by destruct B; eauto); try (by destruct B'; eauto); cbn; rewrite !lookup_delete; auto.
Qed.

(** Two computations that return equal results and equivalent replicas. *)
Definition agree {R} (a b : R * RaftFSM) : Prop := a.1 = b.1 ∧ fsm_equiv a.2 b.2.

Lemma apply_set_equiv f g k v id :
  fsm_equiv f g → agree (apply_set f k v id) (apply_set g k v id).
Proof.
  intros Hf. destruct (set_core _ _ k v id (fe_core _ _ Hf)) as [H1 H2]. unfold apply_set.
  destruct (set (st f) _ _ _) as [[? ?] ?], (set (st g) _ _ _) as [[? ?] ?]. cbn in *. simplify_eq.
  split; [done|]. by apply emitPut_equiv, with_st_equiv.
Qed.

Lemma apply_setIfAbsent_equiv f g k v id :
  fsm_equiv f g → agree (apply_setIfAbsent f k v id) (apply_setIfAbsent g k v id).
Proof.
  intros Hf. destruct (setIfAbsent_core _ _ k v id (fe_core _ _ Hf)) as [H1 H2]. unfold apply_setIfAbsent.
  destruct (setIfAbsent (st f) _ _ _) as [[? ok] ?], (setIfAbsent (st g) _ _ _) as [[? ok'] ?].
  cbn in *. simplify_eq. split; [done|]. destruct ok'; [apply emitPut_equiv|]; by apply with_st_equiv.
Qed.

(** A guard on a known lease answers alike. *)
Lemma handle_guard f g id (a b : applyResult * RaftFSM) :
  fsm_equiv f g → agree a b →
  agree match Lease.getHandle (lm f) id with None => (mkRes (Some ErrLeaseNotFound) 0 false, f) | Some _ => a end
        match Lease.getHandle (lm g) id with None => (mkRes (Some ErrLeaseNotFound) 0 false, g) | Some _ => b end.
Proof.
  intros Hf Hab. destruct (fe_lm _ _ Hf id) as [_ [A B]]. unfold Lease.getHandle.
  destruct (Lease.handles (lm f) !! id), (Lease.handles (lm g) !! id);
    [done|by destruct A; eauto|by destruct B; eauto|done].
Qed.

(** The result of a command and the replica after it do not depend on the clock. *)
Lemma applyCommand_equiv f g n1 n2 c :
  fsm_equiv f g → agree (applyCommand f n1 c) (applyCommand g n2 c).
Proof.
  intros Hf. pose proof (fe_core _ _ Hf) as Hc. pose proof (fe_lm _ _ Hf) as Hm.
  assert (Hg : get (st f) (cKey c) = get (st g) (cKey c)) by (unfold get; by rewrite (ce_entries _ _ Hc)).
  unfold applyCommand. rewrite Hg.
  destruct (bool_decide (cOp c = opSet)); [by apply apply_set_equiv|].
  destruct (bool_decide (cOp c = opDelete)).
  { destruct (del_core _ _ (cKey c) Hc) as [H1 H2].
    destruct (del (st f) _) as [p s], (del (st g) _) as [p' t]. cbn in *. subst p'.
    destruct p; (split; [done|]); [apply emitEvent_equiv|]; by apply with_st_equiv. }
  destruct (bool_decide (cOp c = opCAS)).
  { destruct (cas_core _ _ (cKey c) (cExpect c) (cValue c) Hc) as [H1 H2].
    destruct (cas (st f) _ _ _) as [[? ok] ?], (cas (st g) _ _ _) as [[? ok'] ?]. cbn in *. simplify_eq.
    split; [done|]. destruct ok'; [apply emitPut_equiv|]; by apply with_st_equiv. }
  destruct (bool_decide (cOp c = opSetIfAbsent)); [by apply apply_setIfAbsent_equiv|].
  destruct (bool_decide (cOp c = opCompareAndDelete)).
  { destruct (compareAndDelete_core _ _ (cKey c) (cExpect c) Hc) as [H1 H2].
    destruct (compareAndDelete (st f) _ _) as [[d ?] ?], (compareAndDelete (st g) _ _) as [[d' ?] ?].
    cbn in *. simplify_eq. split; [done|]. destruct d'; [apply emitEvent_equiv|]; by apply with_st_equiv. }
  destruct (bool_decide (cOp c = opSetWithLease)); [by apply handle_guard, apply_set_equiv|].
  destruct (bool_decide (cOp c = opSetIfAbsentWithLease)); [by apply handle_guard, apply_setIfAbsent_equiv|].
  destruct Hf as [_ _ Ho], Hc as [C1 C2 C3 C4].
  destruct (bool_decide (cOp c = opLeaseGrant)).
  { split; [done|]. split; cbn [snd st lm outbox with_lm with_st]; [|by apply lm_grant|done].
    split; cbn; congruence. }
  destruct (bool_decide (cOp c = opLeaseRenew)).
  { destruct (lm_renew _ _ (cLeaseID c) n1 n2 Hm) as [H1 H2].
    destruct (Lease.renew (lm f) _ _) as [ok m], (Lease.renew (lm g) _ _) as [ok' m']. cbn in *. subst ok'.
    destruct ok; (split; [done|]); split; try done. split; cbn; congruence. }
  destruct (bool_decide (cOp c = opLeaseRevoke)); [|done].
  destruct (removeLease_core (st f) (st g) (cLeaseID c)) as [H1 H2]; [done|].
  destruct (removeLease (st f) _) as [ks s], (removeLease (st g) _) as [ks' t]. cbn in *. subst ks'.
  destruct (foldl_equiv expire_key ks (with_st f s) (with_st g t) expire_key_equiv) as [F1 F2 F3]; [done|].
  split; [done|]. split; [done|by apply lm_revoke|done].
Qed.

Section replicas.
Context `{XXHash}.

Lemma flush_core f : fsm_equiv (flush f) (with_st (mkFSM (st f) (lm f) (snap f) [] (feed f)) (st f)).
Proof.
  unfold flush. destruct (snapshot (st f)) as [p s] eqn:E. unfold snapshot in E.
  destruct (match published (st f) with Some _ => _ | None => _ end) as [base d].
  injection E as <- <-. by split.
Qed.

Lemma flush_equiv f g : fsm_equiv f g → fsm_equiv (flush f) (flush g).
Proof.
  intros [A B C]. destruct (flush_core f) as [F1 F2 F3], (flush_core g) as [G1 G2 G3].
  split.
  - rewrite F1, G1. done.
  - intros id. destruct (F2 id), (G2 id), (B id). cbn in *. tauto.
  - by rewrite F3, G3.
Qed.

Lemma Apply_equiv f g i data n1 n2 :
  fsm_equiv f g → agree (Apply f i data n1) (Apply g i data n2).
Proof.
  intros Hf. assert (Hi : fsm_equiv (with_st f (with_applyIndex (st f) i)) (with_st g (with_applyIndex (st g) i))).
  { apply with_st_equiv; [done|]. by destruct (fe_core _ _ Hf) as [A B C D]. }
  unfold Apply. destruct (_ && _).
  - destruct (decodeTxn data) as [ops|]; [|done]. destruct (applyTxn_equiv _ _ ops Hi) as [H1 H2].
    destruct (applyTxn _ ops) as [r1 f1], (applyTxn _ ops) as [r2 g1]. cbn in *.
    split; [done|]. by apply flush_equiv.
  - destruct (decodeCommand data) as [c|]; [|done]. destruct (applyCommand_equiv _ _ n1 n2 c Hi) as [H1 H2].
    destruct (applyCommand _ n1 c) as [r1 f1], (applyCommand _ n2 c) as [r2 g1]. cbn in *.
    split; [done|]. by apply flush_equiv.
Qed.
End replicas.

(** ** Invariant of the state machine *)

Section invariant.
Context `{XXHash}.

(** The state between the command and its publication. *)
Record mid_wf (f : RaftFSM) : Prop := {
  mw_pub : pub_wf (st f);
  mw_kv : kv_wf (st f);
  mw_lm : Lease.lm_wf (lm f);
  mw_known : ∀ id, is_Some (leases (st f) !! id) ↔ is_Some (Lease.entries (lm f) !! id);
  mw_handles : ∀ id, is_Some (Lease.handles (lm f) !! id) → is_Some (Lease.entries (lm f) !! id)
}.

(** Between commands the published snapshot is current and nothing is pending. *)
Record fsm_wf (f : RaftFSM) : Prop := {
  fw_mid : mid_wf f;
  fw_cur : published (st f) = Some (snap f);
  fw_read : ∀ k, read f k = entries (st f) !! k;
  fw_out : outbox f = []
}.

(** Versions only grow: an entry is the old one or carries a version minted since. *)
Record evolves (s s' : state) : Prop := {
  ev_ver : sver s ≤ sver s';
  ev_entries : ∀ k e, entries s' !! k = Some e → entries s !! k = Some e ∨ sver s < version e
}.

#[export] Instance evolves_preorder : PreOrder evolves.
Proof.
  split; [by intros s; split; auto; lia|]. intros a b c [A1 A2] [B1 B2]. split; [lia|].
  intros k e He. apply B2 in He as [He|?]; [by apply A2|right; lia].
Qed.

(** What a command may do to the state machine before its publication. *)
Definition good (f g : RaftFSM) : Prop :=
  mid_wf g ∧ maps (st g) = maps (st f) ∧ evolves (st f) (st g).

Lemma good_refl f : mid_wf f → good f f.
Proof. done. Qed.

Lemma good_trans f g h : good f g → good g h → good f h.
Proof. intros (A & B & C) (A' & B' & C'). split_and!; [done|congruence|by etrans]. Qed.

Lemma good_emit f g typ c p : good f g → good f (emitEvent g typ c p).
Proof. intros ([M1 M2 M3 M4 M5] & Hm & He). done. Qed.

Lemma good_emitPut f g k p : good f g → good f (emitPut g k p).
Proof. unfold emitPut. intros Hf. destruct (get _ _); [by apply good_emit|done]. Qed.

(** A step that edits the state and keeps the domain of the lease table. *)
Lemma good_edit f s :
  mid_wf f → edits (st f) s → kv_wf s → evolves (st f) s →
  (∀ id, is_Some (leases s !! id) ↔ is_Some (leases (st f) !! id)) → good f (with_st f s).
Proof.
  intros [M1 M2 M3 M4 M5] He Hk Hev Hl. split_and!; [|apply He|done].
  split; cbn; try done; [by eapply edits_pub_wf|]. intros id. by rewrite Hl.
Qed.

Lemma good_set f k v id :
  mid_wf f → sver (st f) + 1 < 2 ^ 64 → (id = "" ∨ is_Some (leases (st f) !! id)) →
  good f (with_st f (set (st f) k v id).2) ∧ sver (set (st f) k v id).2 ≤ sver (st f) + 1.
Proof.
  intros Hf Hv Hid. pose proof (set_wf (st f) k v id (mw_kv _ Hf) Hv Hid) as Hw.
  pose proof (set_spec (st f) k v id) as Hs. destruct (set (st f) k v id) as [[p ver] s].
  destruct Hs as (_ & Hver & Hed & He & Hsv & _ & Hl). cbn in *.
  rewrite u64_small in Hver by (pose proof (kw_pos _ (mw_kv _ Hf)); unfold is_u64; lia).
  split; [|lia]. apply good_edit; [done..| |].
  - split; [lia|]. intros k' e. rewrite He. intros [[<- <-]|[_ ?]]%lookup_insert_Some; [right; cbn; lia|by left].
  - intros i. rewrite Hl. apply fmap_is_Some.
Qed.

Lemma good_del f k :
  mid_wf f → good f (with_st f (del (st f) k).2) ∧ sver (del (st f) k).2 = sver (st f).
Proof.
  intros Hf. pose proof (del_wf (st f) k (mw_kv _ Hf)) as Hw.
  pose proof (del_spec (st f) k) as Hs. destruct (del (st f) k) as [p s].
  destruct Hs as (_ & Hed & He & Hsv & Hl). cbn in *. split; [|done]. apply good_edit; [done..| |].
  - split; [lia|]. intros k' e. rewrite He. intros [_ ?]%lookup_delete_Some. by left.
  - intros i. rewrite Hl. apply fmap_is_Some.
Qed.

Lemma good_apply_set f k v id :
  mid_wf f → sver (st f) + 1 < 2 ^ 64 → (id = "" ∨ is_Some (leases (st f) !! id)) →
  good f (apply_set f k v id).2.
Proof.
  intros Hf Hv Hid. destruct (good_set f k v id Hf Hv Hid) as [Hm _]. unfold apply_set.
  destruct (set _ _ _ _) as [[p ver] s]. by apply good_emitPut.
Qed.

Lemma good_apply_setIfAbsent f k v id :
  mid_wf f → sver (st f) + 1 < 2 ^ 64 → (id = "" ∨ is_Some (leases (st f) !! id)) →
  good f (apply_setIfAbsent f k v id).2.
Proof.
  intros Hf Hv Hid. unfold apply_setIfAbsent, setIfAbsent.
  destruct (entries (st f) !! k) as [e|]; [by destruct f|].
  destruct (good_set f k v id Hf Hv Hid) as [Hm _].
  destruct (set _ _ _ _) as [[p ver] s]. by apply good_emitPut.
Qed.

Lemma good_apply_op f op :
  mid_wf f → sver (st f) + 1 < 2 ^ 64 →
  good f (apply_op f op) ∧ sver (st (apply_op f op)) ≤ sver (st f) + 1.
Proof.
  intros Hf Hv. unfold apply_op. destruct (bool_decide (oKind op = TxnPut)).
  - destruct (good_set f (oKey op) (oValue op) "" Hf Hv ltac:(by left)) as [Hm Hs].
    destruct (set _ _ _ _) as [[p ver] s]. cbn in *. split; [by apply good_emitPut|].
    unfold emitPut. destruct (get _ _); cbn; lia.
  - destruct (bool_decide (oKind op = TxnDelete)); [|split; [done|lia]].
    destruct (good_del f (oKey op) Hf) as [Hm Hs]. destruct (del _ _) as [[p|] s]; cbn in *;
      (split; [|lia]); [by apply good_emit|done].
Qed.

Lemma good_apply_ops ops f :
  mid_wf f → sver (st f) + Z.of_nat (length ops) < 2 ^ 64 → good f (foldl apply_op f ops).
Proof.
  revert f. induction ops as [|op ops IH]; intros f Hf Hv; [done|]. cbn [foldl length] in *.
  destruct (good_apply_op f op Hf ltac:(lia)) as [Hm Hs].
  eapply good_trans; [exact Hm|]. apply IH; [apply Hm|lia].
Qed.

(** The delete loop of a revocation acts on the state as [del_keys]. *)
Lemma expire_keys_st ks f :
  st (foldl expire_key f ks) = del_keys (st f) ks ∧ lm (foldl expire_key f ks) = lm f.
Proof.
  revert f. induction ks as [|k ks IH]; intros f; [done|]. cbn [foldl del_keys].
  destruct (IH (expire_key f k)) as [-> ->]. unfold expire_key.
  by destruct (del (st f) k) as [[p|] s].
Qed.

(** The commands the engine proposes: a granted lease id is new and not empty. *)
Definition admissible (f : RaftFSM) (c : command) : Prop :=
  cOp c = opLeaseGrant → cLeaseID c ≠ "" ∧ leases (st f) !! cLeaseID c = None.

Lemma known_handle f id :
  mid_wf f → Lease.getHandle (lm f) id ≠ None → id = "" ∨ is_Some (leases (st f) !! id).
Proof.
  intros Hf Hh. right. apply (mw_known _ Hf), (mw_handles _ Hf).
  unfold Lease.getHandle in Hh. by destruct (Lease.handles (lm f) !! id); [eauto|].
Qed.

Lemma good_grant f id t x d now :
  mid_wf f → id ≠ "" → leases (st f) !! id = None →
  good f (with_lm (with_st f (addLease (st f) id t x)) (Lease.grant (lm f) id d now).2).
Proof.
  intros Hf Hne Hn. pose proof Hf as [M1 M2 M3 M4 M5].
  assert (Hl : Lease.view (lm f) id = None).
  { apply Lease.view_None; [done|]. apply eq_None_not_Some. rewrite <- M4. by rewrite Hn; intros [? ?]. }
  destruct (Lease.grant_spec (lm f) id d now M3 Hl) as [Hw _].
  split_and!; [|done|by split; [cbn; lia|by left]].
  split; [done|by apply addLease_wf|done| |].
  - intros i. cbn. rewrite !lookup_insert. case_decide; [split; eauto|apply M4].
  - intros i. cbn. rewrite !lookup_insert. case_decide; [eauto|apply M5].
Qed.

Lemma renew_domains m id now i :
  Lease.entries (Lease.renew m id now).2 !! i = Lease.entries m !! i ∧
  Lease.handles (Lease.renew m id now).2 !! i = Lease.handles m !! i.
Proof. unfold Lease.renew. by destruct (Lease.entries m !! id), (Lease.handles m !! id). Qed.

Lemma renew_id m id now : (Lease.renew m id now).1 = false → (Lease.renew m id now).2 = m.
Proof. unfold Lease.renew. by destruct (Lease.entries m !! id), (Lease.handles m !! id). Qed.

Lemma good_renew f id now x :
  mid_wf f →
  good f (with_st (with_lm f (Lease.renew (lm f) id now).2)
    (with_leases (st f) (alter (λ ls, mkLS (lkeys ls) (lid ls) (ttl ls) x) id (leases (st f))))).
Proof.
  intros Hf. pose proof Hf as [M1 M2 M3 M4 M5].
  pose proof (Lease.renew_spec (lm f) id now M3) as Hr.
  pose proof (renew_domains (lm f) id now) as Hd. destruct (Lease.renew (lm f) id now) as [ok m]. cbn in *.
  assert (Hl : ∀ i, is_Some (alter (λ ls, mkLS (lkeys ls) (lid ls) (ttl ls) x) id (leases (st f)) !! i) ↔
                    is_Some (leases (st f) !! i)).
  { intros i. rewrite lookup_alter. case_decide; [|done]. subst i. apply fmap_is_Some. }
  split_and!; [|done|by split; [cbn; lia|by left]].
  split; cbn; [done| |by apply Hr| |].
  - destruct M2 as [K1 K2 K3 K4 K5 K6 K7]. split; cbn; try done.
    + intros i ls. rewrite lookup_alter. case_decide; [|apply K5]. subst i.
      intros (ls0 & Hi & ->)%fmap_Some. by destruct (K5 id ls0 Hi).
    + intros k e He Hne. apply Hl. by eapply K6.
  - intros i. rewrite Hl, (proj1 (Hd i)). apply M4.
  - intros i. rewrite (proj1 (Hd i)), (proj2 (Hd i)). apply M5.
Qed.

Lemma revoke_domains m id i :
  Lease.lm_wf m →
  (is_Some (Lease.entries (Lease.revoke m id).2 !! i) ↔ i ≠ id ∧ is_Some (Lease.entries m !! i)) ∧
  (is_Some (Lease.entries m !! id) → Lease.handles (Lease.revoke m id).2 !! i =
     if decide (i = id) then None else Lease.handles m !! i) ∧
  (Lease.entries m !! id = None → Lease.handles (Lease.revoke m id).2 = Lease.handles m).
Proof.
  intros Hm. unfold Lease.revoke. destruct (Lease.entries m !! id) as [p|] eqn:Ep.
  - destruct (Lease.lw_handles _ Hm id p Ep) as [h Hh]. cbn. rewrite Hh. cbn. rewrite !lookup_delete.
    split_and!; [|intros _|done]; destruct (decide (id = i)) as [->|Hne].
    + split; [by intros [? ?]|]. by intros [? _].
    + split; [done|by intros [_ ?]].
    + by rewrite decide_True.
    + by rewrite decide_False by done.
  - split_and!; [|by intros [? ?]|done]. split; [|by intros [_ ?]]. intros Hi. split; [|done].
    intros ->. cbn in Hi. rewrite Ep in Hi. by destruct Hi.
Qed.

Lemma good_revoke f id :
  mid_wf f →
  let '(ks, s) := removeLease (st f) id in
  let g := foldl expire_key (with_st f s) ks in
  good f (with_lm g (Lease.revoke (lm g) id).2).
Proof.
  intros Hf. pose proof Hf as [M1 M2 M3 M4 M5].
  pose proof (removeLease_spec (st f) id M2) as Hr. destruct (removeLease (st f) id) as [ks s].
  destruct Hr as (Hk & Hed & Hl & Hsv & Hent). destruct (expire_keys_st ks (with_st f s)) as [E1 E2].
  pose proof (Lease.revoke_spec (lm f) id M3) as Hrev.
  pose proof (λ i, revoke_domains (lm f) id i M3) as Hd. cbn [st with_st lm] in *. cbv zeta. rewrite E2.
  destruct (Lease.revoke (lm f) id) as [ok m]. cbn [snd] in *.
  split_and!; cbn [with_lm st lm]; rewrite ?E1; [|apply Hed|].
  2:{ split; [by rewrite Hsv|]. intros k e. rewrite Hent. destruct (entries (st f) !! k) as [e'|]; [|done].
      destruct (decide (leaseID e' = id ∧ id ≠ "")); [done|by left]. }
  split; cbn [with_lm st lm]; rewrite ?E1; [by eapply edits_pub_wf|done|by apply Hrev| |].
  - intros i. rewrite Hl, lookup_delete, (proj1 (Hd i)). destruct (decide (id = i)) as [->|Hne].
    + split; [by intros [? ?]|by intros [? _]].
    + rewrite M4. split; [by split|by intros [_ ?]].
  - intros i Hi. apply (proj1 (Hd i)). destruct (Lease.entries (lm f) !! id) as [p|] eqn:Ep.
    + rewrite (proj1 (proj2 (Hd i)) ltac:(eauto)) in Hi.
      destruct (decide (i = id)) as [->|Hne]; [by destruct Hi|]. split; [done|by apply M5].
    + rewrite (proj2 (proj2 (Hd i)) eq_refl) in Hi. split; [|by apply M5]. intros ->.
      apply M5 in Hi. rewrite Ep in Hi. by destruct Hi.
Qed.

Lemma good_command f now c :
  mid_wf f → sver (st f) + 1 < 2 ^ 64 → admissible f c → good f (applyCommand f now c).2.
Proof.
  intros Hf Hv Ha. unfold applyCommand.
  destruct (bool_decide (cOp c = opSet)); [by apply good_apply_set; auto|].
  destruct (bool_decide (cOp c = opDelete)).
  { destruct (good_del f (cKey c) Hf) as [Hm _]. destruct (del _ _) as [[p|] s]; [by apply good_emit|done]. }
  destruct (bool_decide (cOp c = opCAS)).
  { unfold cas. case_bool; [by destruct f|].
    destruct (good_set f (cKey c) (cValue c) (default "" (leaseID <$> entries (st f) !! cKey c)) Hf Hv) as [Hm _].
    { destruct (entries (st f) !! cKey c) as [e|] eqn:Ee; [|by left]. simpl.
      destruct (decide (leaseID e = "")) as [|Hne]; [by left|right]. by eapply (kw_bound _ (mw_kv _ Hf)). }
    destruct (set _ _ _ _) as [[p ver] s]. by apply good_emitPut. }
  destruct (bool_decide (cOp c = opSetIfAbsent)); [by apply good_apply_setIfAbsent; auto|].
  destruct (bool_decide (cOp c = opCompareAndDelete)).
  { unfold compareAndDelete. destruct (entries (st f) !! cKey c); [|by destruct f].
    case_bool; [by destruct f|]. apply good_emit. by apply good_del. }
  destruct (bool_decide (cOp c = opSetWithLease)).
  { destruct (Lease.getHandle _ _) eqn:Eh; [|done].
    apply good_apply_set; [done..|]. apply known_handle; [done|]. by rewrite Eh. }
  destruct (bool_decide (cOp c = opSetIfAbsentWithLease)).
  { destruct (Lease.getHandle _ _) eqn:Eh; [|done].
    apply good_apply_setIfAbsent; [done..|]. apply known_handle; [done|]. by rewrite Eh. }
  destruct (bool_decide_reflect (cOp c = opLeaseGrant)) as [Hop|_].
  { destruct (Ha Hop) as [Hne Hn]. exact (good_grant f (cLeaseID c) _ _ _ _ Hf Hne Hn). }
  destruct (bool_decide (cOp c = opLeaseRenew)).
  { pose proof (good_renew f (cLeaseID c) now (cExpiresAtMs c) Hf) as Hm.
    pose proof (renew_id (lm f) (cLeaseID c) now) as Hid.
    destruct (Lease.renew _ _ _) as [[] m]; [done|]. cbn in Hid. rewrite (Hid eq_refl). by destruct f. }
  destruct (bool_decide (cOp c = opLeaseRevoke)); [|done].
  pose proof (good_revoke f (cLeaseID c) Hf) as Hm. by destruct (removeLease _ _).
Qed.

(** Publishing makes the readers current. *)
Lemma flush_wf f :
  mid_wf f → fsm_wf (flush f) ∧ extends (maps (st f)) (maps (st (flush f))).
Proof.
  intros Hf. unfold flush. pose proof (snapshot_spec (st f) (mw_pub _ Hf)) as Hs.
  destruct (snapshot (st f)) as [p s]. destruct Hs as (S1 & _ & S3 & S4 & S5 & _ & _ & S8 & S9 & S10 & _ & S12).
  split; [|done]. destruct Hf as [M1 [K1 K2 K3 K4 K5 K6 K7] M3 M4 M5].
  split; cbn [st snap outbox]; [|done|intros k; rewrite S8; apply S4|done].
  split; cbn [st lm]; rewrite ?S9; try done.
  split; rewrite ?S8, ?S9, ?S10, ?S12; done.
Qed.
End invariant.

(** ** Log application *)

Section log.
Context `{XXHash}.

(** A log entry the engine may have proposed: grants use new lease ids, and the
    version allocator does not overflow. *)
Definition log_ok (f : RaftFSM) (data : list ascii) : Prop :=
  match decodeCommand data, decodeTxn data with
  | Ok c, Err _ => admissible f c ∧ sver (st f) + 1 < 2 ^ 64
  | Ok c, Ok ops => admissible f c ∧ sver (st f) + 1 + Z.of_nat (length ops) < 2 ^ 64
  | Err _, Ok ops => sver (st f) + Z.of_nat (length ops) < 2 ^ 64
  | Err _, Err _ => True
  end.

Lemma index_mid f i :
  mid_wf f → applyIndex (st f) ≤ i → mid_wf (with_st f (with_applyIndex (st f) i)).
Proof.
  intros [M1 [K1 K2 K3 K4 K5 K6 K7] M3 M4 M5] Hi. split; cbn; try done. split; cbn; try done.
  intros k e He. apply K4 in He. lia.
Qed.

(** What applying one log entry may do: readers are current afterwards, published
    maps are never touched, versions only grow. *)
Definition advances (f g : RaftFSM) : Prop :=
  fsm_wf g ∧ extends (maps (st f)) (maps (st g)) ∧ evolves (st f) (st g).

Lemma flush_advances f g : good f g → advances f (flush g).
Proof.
  intros (Hg & Hm & Hev). destruct (flush_wf g Hg) as [Hw Hx]. split_and!; [done|by rewrite <- Hm|].
  destruct (flush_core g) as [[E _ V _] _ _]. cbn in E, V.
  destruct Hev as [V1 V2]. split; [lia|]. intros k e. rewrite E. apply V2.
Qed.

Lemma Apply_advances f i data now :
  fsm_wf f → applyIndex (st f) ≤ i → log_ok f data → advances f (Apply f i data now).2.
Proof.
  intros Hf Hi Hl. set (f' := with_st f (with_applyIndex (st f) i)).
  pose proof (index_mid f i (fw_mid _ Hf) Hi : mid_wf f') as Hm.
  assert (Hn : advances f f')
    by (destruct Hf as [? ? ? ?]; split_and!; [by split|done|by split; [cbn; lia|by left]]).
  assert (Hfl : ∀ g, good f' g → advances f (flush g)) 
    by (intros g (A & B & [C1 C2]); apply flush_advances; by split_and!; [| |split]).
  unfold log_ok in Hl. unfold Apply. fold f'. destruct (_ && _).
  - destruct (decodeTxn data) as [ops|] eqn:Ed; [|done].
    assert (Hb : sver (st f) + Z.of_nat (length ops) < 2 ^ 64) by (destruct (decodeCommand data); lia).
    assert (Ht : good f' (applyTxn f' ops).2)
      by (unfold applyTxn; destruct (forallb _ _); [by apply good_apply_ops|by apply good_refl]).
    destruct (applyTxn f' ops) as [r g]. by apply Hfl.
  - destruct (decodeCommand data) as [c|] eqn:Ed; [|done].
    assert (Hb : admissible f c ∧ sver (st f) + 1 < 2 ^ 64)
      by (destruct (decodeTxn data); destruct Hl; split; [done|lia|done|lia]).
    pose proof (good_command f' now c Hm (proj2 Hb) (proj1 Hb)) as Ht.
    destruct (applyCommand f' now c) as [r g]. by apply Hfl.
Qed.
End log.

(** ** Restore rebuilds the captured state *)

Section restore.
Context `{XXHash}.

Lemma core_kv_wf s t : kv_wf s → core_eq t s → kv_wf t.
Proof. intros [K1 K2 K3 K4 K5 K6 K7] [A B C D]. split; rewrite ?A, ?B, ?C, ?D; done. Qed.

(** The replicated parts other than the lease table. *)
Definition rest (s : state) := (maps s, published s, entries s, sver s, applyIndex s).

Lemma restore_leases now l s m :
  Lease.lm_wf m → (∀ id, is_Some (leases s !! id) ↔ is_Some (Lease.entries m !! id)) →
  (∀ id, is_Some (Lease.handles m !! id) → is_Some (Lease.entries m !! id)) →
  NoDup (ID <$> l) → (∀ x, x ∈ l → leases s !! ID x = None) →
  let '(s', m') := foldl (restore_lease now) (s, m) l in
  rest s' = rest s ∧ Lease.lm_wf m' ∧
  (∀ id, is_Some (leases s' !! id) ↔ is_Some (Lease.entries m' !! id)) ∧
  (∀ id, is_Some (Lease.handles m' !! id) → is_Some (Lease.entries m' !! id)) ∧
  (∀ i ls, leases s' !! i = Some ls ↔
     leases s !! i = Some ls ∨ ∃ x, x ∈ l ∧ ID x = i ∧ ls = mkLS ∅ i (TTLms x) (ExpiresAtMs x)).
Proof.
  revert s m. induction l as [|x l IH]; intros s m Hm Hk Hh Hnd Hn; cbn [foldl].
  { split_and!; try done. intros i ls. split; [by left|]. intros [?|(x & Hx & _)]; [done|].
    by apply elem_of_nil in Hx. }
  cbn [fmap list_fmap] in Hnd. apply NoDup_cons in Hnd as [Hx Hnd].
  assert (Hv : Lease.view m (ID x) = None).
  { apply Lease.view_None; [done|]. apply eq_None_not_Some. rewrite <- Hk, Hn by (by left). by intros [? ?]. }
  destruct (Lease.grant_spec m (ID x) (msToDuration (TTLms x)) now Hm Hv) as [Hm' _].
  unfold restore_lease at 2. cbn [fst snd].
  specialize (IH (addLease s (ID x) (TTLms x) (ExpiresAtMs x)) (Lease.grant m (ID x) (msToDuration (TTLms x)) now).2 Hm').
  destruct (foldl (restore_lease now) _ l) as [s' m'].
  destruct IH as (J1 & J2 & J3 & J4 & J5).
  - intros id. cbn. rewrite !lookup_insert. case_decide; [split; eauto|apply Hk].
  - intros id. cbn. rewrite !lookup_insert. case_decide; [eauto|apply Hh].
  - done.
  - intros y Hy. cbn. rewrite lookup_insert_ne; [apply Hn; by right|]. intros He. apply Hx.
    rewrite He. by apply list_elem_of_fmap_2.
  - split_and!; try done. intros i ls. rewrite J5. cbn. split.
    + intros [[[<- <-]|[_ ?]]%lookup_insert_Some|(y & Hy & Hi)]; [right; exists x| |right; exists y].
      * split; [by left|done].
      * by left.
      * split; [by right|done].
    + intros [Hi|(y & Hy & Hi & ->)].
      * left. rewrite lookup_insert_ne; [done|]. intros <-. rewrite Hn in Hi by (by left). done.
      * apply elem_of_cons in Hy as [->|Hy]; [left|right; eauto]. by rewrite Hi, lookup_insert_eq.
Qed.

(** The entries are put back under their keys and re-attached to their leases. *)
Lemma restore_entries l s :
  (∀ e, e ∈ l → epoch e ≤ applyIndex s) → NoDup (key <$> l) →
  let s' := foldl restore_entry s l in
  (maps s', published s', sver s', applyIndex s') = (maps s, published s, sver s, applyIndex s) ∧
  (∀ k e, (∀ x, x ∈ l → entries s !! key x = None) →
     entries s' !! k = Some e ↔ entries s !! k = Some e ∨ (e ∈ l ∧ key e = k)) ∧
  (∀ i ls', leases s' !! i = Some ls' ↔ ∃ ls, leases s !! i = Some ls ∧
     lid ls' = lid ls ∧ ttl ls' = ttl ls ∧ expiresAtMs ls' = expiresAtMs ls ∧
     lkeys ls' = lkeys ls ∪ list_to_set (key <$> filter (λ e, leaseID e = i ∧ i ≠ "") l)).
Proof.
  revert s. induction l as [|e l IH]; intros s Hep Hnd; cbn [foldl].
  { split_and!; try done.
    - intros k e _. rewrite elem_of_nil. tauto.
    - intros i ls'. rewrite filter_nil. cbn. split.
      + intros Hi. exists ls'. by rewrite union_empty_r_L.
      + intros (ls & Hi & A & B & C & D). rewrite union_empty_r_L in D. rewrite Hi.
        destruct ls, ls'. cbn in *. by subst. }
  cbn [fmap list_fmap] in Hnd. apply NoDup_cons in Hnd as [Hx Hnd].
  set (s1 := restore_entry s e).
  assert (Hs1 : maps s1 = maps s ∧ published s1 = published s ∧ sver s1 = sver s ∧
    applyIndex s1 = applyIndex s ∧ entries s1 = <[key e := e]> (entries s) ∧
    ∀ i, leases s1 !! i = (λ ls, mkLS (if decide (leaseID e = i ∧ i ≠ "") then {[key e]} ∪ lkeys ls else lkeys ls)
      (lid ls) (ttl ls) (expiresAtMs ls)) <$> leases s !! i).
  { unfold s1, restore_entry. rewrite (bool_decide_eq_false_2 (_ < _)) by (pose proof (Hep e ltac:(by left)); lia).
    case_bool; cbn; split_and!; try done; intros i.
    - rewrite lookup_alter. destruct (decide (leaseID e = i)) as [<-|Hne].
      + destruct (leases s !! leaseID e); [|done]. cbn. by rewrite decide_True.
      + destruct (leases s !! i) as [[]|]; [|done]. cbn. rewrite decide_False; [done|]. tauto.
    - destruct (leases s !! i) as [[]|]; [|done]. cbn. rewrite decide_False; [done|]. intros [<- ?]. tauto. }
  destruct Hs1 as (A1 & A2 & A3 & A4 & A5 & A6).
  destruct (IH s1) as (J1 & J2 & J3); [intros x Hi; rewrite A4; apply Hep; by right|done|].
  cbv zeta. fold s1 in J1, J2, J3 |- *. split_and!.
  - rewrite J1. by rewrite A1, A2, A3, A4.
  - intros k x Hfree. rewrite J2, A5.
    2:{ intros y Hy. rewrite A5, lookup_insert_ne; [apply Hfree; by right|]. intros He. apply Hx.
        rewrite He. by apply list_elem_of_fmap_2. }
    rewrite lookup_insert_Some, elem_of_cons. split.
    + intros [[[<- <-]|[_ ?]]|[? ?]]; auto.
    + intros [Hk|[[->|?] Hk]]; [|by left; left|by right].
      left. right. split; [|done]. intros He. rewrite <- He, Hfree in Hk by (by left). done.
  - intros i ls'. rewrite J3. setoid_rewrite A6. split.
    + intros (ls & Hi & B1 & B2 & B3 & B4). apply fmap_Some in Hi as (ls0 & Hi & ->). exists ls0.
      split_and!; try done. rewrite B4, filter_cons. cbn [lkeys].
      destruct (decide (leaseID e = i ∧ i ≠ "")); [|done]. cbn.
      by rewrite (union_comm_L {[key e]} (lkeys ls0)), <- union_assoc_L.
    + intros (ls0 & Hi & B1 & B2 & B3 & B4). eexists. rewrite Hi. cbn [fmap option_fmap option_map].
      split; [done|]. split_and!; try done. rewrite B4, filter_cons. cbn [lkeys].
      destruct (decide (leaseID e = i ∧ i ≠ "")); [|done]. cbn.
      by rewrite (union_comm_L {[key e]} (lkeys ls0)), <- union_assoc_L.
Qed.

Lemma keys_of_entries s :
  kv_wf s → key <$> (map_to_list (entries s)).*2 = (map_to_list (entries s)).*1.
Proof.
  intros Hs. rewrite <- list_fmap_compose. apply list_fmap_ext. intros i [k e] Hi.
  apply list_elem_of_lookup_2, elem_of_map_to_list in Hi. by apply (kw_key _ Hs).
Qed.

Lemma IDs_of_leases s :
  ID <$> map (λ p, mkSL p.1 (elements (lkeys p.2)) (ttl p.2) (expiresAtMs p.2)) (map_to_list (leases s))
  = (map_to_list (leases s)).*1.
Proof. change (map ?f ?l) with (f <$> l). by rewrite <- list_fmap_compose. Qed.

(** A lease's keys are those of the entries that name it. *)
Lemma attached_keys s i ls :
  kv_wf s → leases s !! i = Some ls →
  lkeys ls = ∅ ∪ list_to_set (key <$> filter (λ e, leaseID e = i ∧ i ≠ "") (map_to_list (entries s)).*2).
Proof.
  intros Hs Hi. destruct (kw_lease _ Hs i ls Hi) as (Hne & _ & Hk).
  apply set_eq. intros k. rewrite union_empty_l_L, Hk, elem_of_list_to_set, list_elem_of_fmap. split.
  - intros (e & He & Hl). exists e. split; [by rewrite (kw_key _ Hs k e He)|].
    apply list_elem_of_filter. split; [done|]. apply list_elem_of_fmap. exists (k, e). split; [done|].
    by apply elem_of_map_to_list.
  - intros (e & -> & [[Hl _] He]%list_elem_of_filter). exists e. split; [|done].
    apply list_elem_of_fmap in He as ([k e'] & -> & He). apply elem_of_map_to_list in He. cbn.
    by rewrite (kw_key _ Hs k e' He).
Qed.

Lemma restored_leases s0 s (g : state) (l : list snapLease) :
  kv_wf g →
  (∀ i ls, leases s0 !! i = Some ls ↔
     ∃ x, x ∈ l ∧ ID x = i ∧ ls = mkLS ∅ i (TTLms x) (ExpiresAtMs x)) →
  l = map (λ p, mkSL p.1 (elements (lkeys p.2)) (ttl p.2) (expiresAtMs p.2)) (map_to_list (leases g)) →
  (∀ i ls', leases s !! i = Some ls' ↔ ∃ ls, leases s0 !! i = Some ls ∧
     lid ls' = lid ls ∧ ttl ls' = ttl ls ∧ expiresAtMs ls' = expiresAtMs ls ∧
     lkeys ls' = lkeys ls ∪ list_to_set (key <$> filter (λ e, leaseID e = i ∧ i ≠ "") (map_to_list (entries g)).*2)) →
  leases s = leases g.
Proof.
  intros Hg H0 Hl H1. apply map_eq. intros i. apply option_eq. intros ls. rewrite H1. split.
  - intros (ls1 & (x & Hx & Hi & ->)%H0 & B1 & B2 & B3 & B4). subst l.
    apply list_elem_of_fmap in Hx as ([i' ls0] & -> & Hx). apply elem_of_map_to_list in Hx. cbn in *. subst i'.
    destruct (kw_lease _ Hg i ls0 Hx) as (_ & Hid & _).
    rewrite <- (attached_keys g i ls0 Hg Hx) in B4. rewrite Hx.
    destruct ls, ls0. cbn in *. by subst.
  - intros Hi. destruct (kw_lease _ Hg i ls Hi) as (_ & Hid & _).
    exists (mkLS ∅ i (ttl ls) (expiresAtMs ls)). cbn. split_and!; [|done..|by apply attached_keys].
    apply H0. exists (mkSL i (elements (lkeys ls)) (ttl ls) (expiresAtMs ls)). subst l. split_and!; [|done|done].
    apply list_elem_of_fmap. exists (i, ls). split; [done|]. by apply elem_of_map_to_list.
Qed.

(** Rebuilding from the captured value of [g] gives back its replicated state. *)
Lemma rebuild_spec g now ms :
  kv_wf (st g) →
  let x := capture g in
  let '(s1, m) := foldl (restore_lease now)
    (mkState ms None ∅ ∅ ∅ (Version x) (Version x) (ApplyIndex x), Lease.newLeaseManager) (Leases x) in
  let s := foldl restore_entry s1 (Entries x) in
  maps s = ms ∧ published s = None ∧ core_eq s (st g) ∧ Lease.lm_wf m ∧
  (∀ id, is_Some (leases s !! id) ↔ is_Some (Lease.entries m !! id)) ∧
  (∀ id, is_Some (Lease.handles m !! id) → is_Some (Lease.entries m !! id)).
Proof.
  intros Hk x. set (s0 := mkState ms None ∅ ∅ ∅ _ _ _).
  pose proof (restore_leases now (Leases x) s0 Lease.newLeaseManager Lease.newLeaseManager_wf) as Hl.
  destruct (foldl (restore_lease now) (s0, _) (Leases x)) as [s1 m].
  destruct Hl as (L1 & L2 & L3 & L4 & L5).
  { intros id. cbn. rewrite !lookup_empty. done. }
  { intros id. cbn. rewrite lookup_empty. by intros [? ?]. }
  { unfold x, capture. cbn [Leases]. rewrite IDs_of_leases. apply NoDup_fst_map_to_list. }
  { intros y _. apply lookup_empty. }
  injection L1 as M1 P1 E1 V1 A1. cbn in M1, P1, E1, V1, A1.
  destruct (restore_entries (Entries x) s1) as (R1 & R2 & R3).
  { intros e He. apply list_elem_of_fmap in He as ([k e'] & -> & Hi). apply elem_of_map_to_list in Hi.
    rewrite A1. by eapply (kw_epoch _ Hk). }
  { unfold x, capture. cbn [Entries]. rewrite (keys_of_entries _ Hk). apply NoDup_fst_map_to_list. }
  cbv zeta. set (s := foldl restore_entry s1 (Entries x)) in *. injection R1 as M2 P2 V2 A2.
  assert (He : entries s = entries (st g)).
  { apply map_eq. intros k. apply option_eq. intros e. rewrite R2, E1, lookup_empty.
    2:{ intros y _. rewrite E1. apply lookup_empty. }
    unfold x, capture. cbn [Entries]. rewrite list_elem_of_fmap. split.
    - intros [?|[([k' e'] & -> & Hi) <-]]; [done|]. apply elem_of_map_to_list in Hi. cbn.
      by rewrite (kw_key _ Hk k' e' Hi).
    - intros He. right. split; [|by apply (kw_key _ Hk)]. exists (k, e). split; [done|].
      by apply elem_of_map_to_list. }
  assert (Hls : leases s = leases (st g)).
  { apply (restored_leases s1 s (st g) (Leases x) Hk); [|done|done].
    intros i ls. rewrite L5. cbn. rewrite lookup_empty. split; [by intros [?|?]|by right]. }
  assert (Hdom : ∀ i, is_Some (leases s !! i) ↔ is_Some (leases s1 !! i)).
  { intros i. split; intros [ls Hi].
    - apply R3 in Hi as (ls1 & Hi & _). eauto.
    - eexists (mkLS _ (lid ls) (ttl ls) (expiresAtMs ls)). apply R3. exists ls. split_and!; try done. }
  split_and!; [congruence|congruence| |done| |done].
  - split; [done|done|by rewrite V2, V1|by rewrite A2, A1].
  - intros id. rewrite Hdom. apply L3.
Qed.

Lemma Restore_spec `{!Gob} f g now :
  fsm_wf g → outbox f = [] →
  let '(ok, r) := Restore f (Snapshot g) now in
  ok = true ∧ fsm_wf r ∧ fsm_equiv r g ∧ extends (maps (st f)) (maps (st r)).
Proof.
  intros Hg Ho. unfold Restore, Snapshot. pose proof (mw_kv _ (fw_mid _ Hg)) as Hk.
  rewrite bool_decide_eq_true_2.
  2:{ pose proof (gob_nonempty (capture g)) as Hne. destruct (gob_encode (capture g)); [done|cbn; lia]. }
  rewrite gob_roundtrip. pose proof (rebuild_spec g now (maps (st f)) Hk) as Hr. cbv zeta in Hr.
  destruct (foldl (restore_lease now) _ _) as [s1 m].
  set (s := foldl restore_entry s1 _) in *. destruct Hr as (R1 & R2 & R3 & R4 & R5 & R6).
  assert (Hp : pub_wf s) by (unfold pub_wf; by rewrite R2).
  pose proof (snapshot_spec s Hp) as Hs. destruct (snapshot s) as [p s'].
  destruct Hs as (S1 & _ & S3 & S4 & S5 & _ & _ & S8 & S9 & S10 & _ & S12).
  assert (Hc : core_eq s' (st g)) by (destruct R3; split; congruence).
  assert (Hkw : kv_wf s') by (by apply (core_kv_wf (st g))).
  split_and!; [done| | |by rewrite <- R1].
  - split; cbn; try done; [|intros k; rewrite S8; apply S4].
    split; cbn; try done. intros id. rewrite S9. apply R5.
  - split; cbn; [done| |by rewrite (fw_out _ Hg)]. intros id.
    destruct (fw_mid _ Hg) as [_ _ G3 G4 G5]. destruct Hc as [_ Hl _ _].
    assert (He : is_Some (Lease.entries m !! id) ↔ is_Some (Lease.entries (lm g) !! id))
      by (rewrite <- R5, <- G4, <- Hl, S9; done).
    split; [done|]. split; intros Hh.
    + apply R6, He in Hh as [q Hq]. by eapply (Lease.lw_handles _ G3).
    + apply G5, He in Hh as [q Hq]. by eapply (Lease.lw_handles _ R4).
Qed.
End restore.

(** ** Theorems *)

Section theorems.
Context `{XXHash}.

(** Log entries applied in index order, and restores from other replicas'
    snapshots. *)
Inductive fsm_step `{!Gob} : RaftFSM → RaftFSM → Prop :=
| step_apply f i data now :
    applyIndex (st f) ≤ i → log_ok f data → fsm_step f (Apply f i data now).2
| step_restore f g now : fsm_wf g → fsm_step f (Restore f (Snapshot g) now).2.

Lemma NewRaftFSM_wf : fsm_wf NewRaftFSM.
Proof.
  unfold NewRaftFSM. assert (Hp : pub_wf newState) by done.
  pose proof (snapshot_spec newState Hp) as Hs. destruct (snapshot newState) as [p s].
  destruct Hs as (S1 & _ & _ & S4 & S5 & _ & _ & S8 & S9 & S10 & _ & S12).
  assert (Hk : kv_wf s) by (apply (core_kv_wf newState); [apply newState_wf|by split]).
  split; cbn; [|done|intros k; rewrite S8; apply S4|done].
  split; cbn; [done|done|apply Lease.newLeaseManager_wf| |].
  - intros id. rewrite S9. cbn. by rewrite !lookup_empty.
  - intros id. rewrite lookup_empty. by intros [? ?].
Qed.

Lemma fsm_step_wf `{!Gob} f g :
  fsm_step f g → fsm_wf f → fsm_wf g ∧ extends (maps (st f)) (maps (st g)).
Proof.
  intros [f1 i data now Hi Hl|f1 g1 now Hg] Hf.
  - destruct (Apply_advances f1 i data now Hf Hi Hl) as (A & B & _). done.
  - pose proof (Restore_spec f1 g1 now Hg (fw_out _ Hf)) as Hr.
    destruct (Restore f1 (Snapshot g1) now) as [ok r]. by destruct Hr as (_ & A & _ & B).
Qed.

Lemma steps_wf `{!Gob} f g :
  rtc fsm_step f g → fsm_wf f → fsm_wf g ∧ extends (maps (st f)) (maps (st g)).
Proof.
  intros Hr. induction Hr as [f|f g h Hs _ IH]; intros Hf; [done|].
  destruct (fsm_step_wf f g Hs Hf) as [Hg Hx]. destruct (IH Hg) as [Hh Hx']. split; [done|by etrans].
Qed.

(** C22. Readers are never stale or torn: in every reachable state of the replicated
    store, a lock-free read of the published snapshot returns exactly the entry the
    applied log has left under that key, entries carry distinct positive versions,
    and the lease table and the entries agree; and a reader that still holds an
    earlier snapshot keeps seeing the entries of the moment it was published,
    whatever is applied or restored afterwards. *)
Theorem reads_are_current `{!Gob} f g :
  rtc fsm_step NewRaftFSM f → rtc fsm_step f g →
  (∀ k, read f k = entries (st f) !! k) ∧ kv_wf (st f) ∧
  (∀ k, snap_get (maps (st g)) (snap f) k = read f k).
Proof.
  intros Hf Hg. destruct (steps_wf _ _ Hf NewRaftFSM_wf) as [Wf _].
  destruct (steps_wf _ _ Hg Wf) as [_ Hx].
  split_and!; [apply Wf|apply Wf|]. intros k. unfold read, snap_get. f_equal.
  pose proof (mw_pub _ (fw_mid _ Wf)) as Hp. unfold pub_wf in Hp. rewrite (fw_cur _ Wf) in Hp.
  destruct Hp as [Hok _]. apply extends_map_at; [done|]. intros i Hi.
  destruct (shards (snap f) !! snapshotShard k) as [o|] eqn:Eo; [|done]. cbn in Hi. subst o.
  by eapply (so_refs _ _ Hok).
Qed.

(** Replay of a list of (index, entry, clock reading). *)
Fixpoint replay (f : RaftFSM) (log : list (Z * list ascii * Z)) : list applyResult * RaftFSM :=
  match log with
  | [] => ([], f)
  | (i, data, now) :: log =>
      let '(r, f) := Apply f i data now in
      let '(rs, f) := replay f log in (r :: rs, f)
  end.

Lemma replay_equiv f g log1 log2 :
  fsm_equiv f g → Forall2 (λ a b, a.1 = b.1) log1 log2 → agree (replay f log1) (replay g log2).
Proof.
  intros Hf Hl. revert f g Hf.
  induction Hl as [|[[i d] n1] [[i' d'] n2] log1 log2 He _ IH]; intros f g Hf; [done|].
  cbn in He. simplify_eq. cbn [replay]. destruct (Apply_equiv f g i' d' n1 n2 Hf) as [H1 H2].
  destruct (Apply f i' d' n1) as [r1 f1], (Apply g i' d' n2) as [r2 g1]. cbn in *. subst r2.
  destruct (IH f1 g1 H2) as [H3 H4].
  destruct (replay f1 log1) as [rs f2], (replay g1 log2) as [rs' g2]. cbn in *. by subst rs'.
Qed.

(** A replica restored from a snapshot is indistinguishable: it answers every
    read as the replica the snapshot was taken from, and replaying any further log
    entries on both (each with its own clock) gives the same results and the same
    entries, leases and versions. *)
Theorem restored_replica_agrees `{!Gob} f g now log1 log2 :
  fsm_wf g → outbox f = [] → Forall2 (λ a b, a.1 = b.1) log1 log2 →
  let '(ok, r) := Restore f (Snapshot g) now in
  ok = true ∧ fsm_wf r ∧ (∀ k, read r k = read g k) ∧
  (replay r log1).1 = (replay g log2).1 ∧
  core_eq (st (replay r log1).2) (st (replay g log2).2).
Proof.
  intros Hg Ho Hl. pose proof (Restore_spec f g now Hg Ho) as Hr.
  destruct (Restore f (Snapshot g) now) as [ok r]. destruct Hr as (-> & Hw & He & _).
  destruct (replay_equiv r g log1 log2 He Hl) as [H1 H2]. split_and!; [done|done| |done|apply H2].
  intros k. rewrite (fw_read _ Hw), (fw_read _ Hg). by rewrite (ce_entries _ _ (fe_core _ _ He)).
Qed.

(** The outcome of a log does not depend on the replicas' clocks: two replicas in
    the same replicated state that apply the same log, reading their clocks at
    different times, return the same results and end in the same state. *)
Theorem replay_deterministic f log1 log2 :
  Forall2 (λ a b, a.1 = b.1) log1 log2 →
  (replay f log1).1 = (replay f log2).1 ∧
  core_eq (st (replay f log1).2) (st (replay f log2).2).
Proof.
  intros Hl. destruct (replay_equiv f f log1 log2) as [H1 H2]; [by split|done|]. split; [done|apply H2].
Qed.

(** ** Transactions *)

(** The last mutation of [k] in a transaction. *)
Definition last_op (ops : list TxnOp) (k : string) : option TxnOp :=
  last (filter (λ op, oKey op = k ∧ (oKind op = TxnPut ∨ oKind op = TxnDelete)) ops).

(** The entry a mutation leaves, given the counters the transaction started from. *)
Definition op_effect (op : TxnOp) (ver idx : Z) (e : option entry) : Prop :=
  if decide (oKind op = TxnPut) then
    ∃ v, ver < v ∧ e = Some (mkEnt (oKey op) "" (oValue op) v idx)
  else e = None.

Lemma last_op_snoc ops op k :
  last_op (ops ++ [op]) k =
  if decide (oKey op = k ∧ (oKind op = TxnPut ∨ oKind op = TxnDelete)) then Some op else last_op ops k.
Proof.
  unfold last_op. rewrite filter_app, filter_cons. destruct (decide _) as [Hd|Hd].
  - by rewrite filter_nil, last_snoc.
  - by rewrite filter_nil, app_nil_r.
Qed.

Lemma emitPut_st f k p : st (emitPut f k p) = st f.
Proof. unfold emitPut. by destruct (get _ _). Qed.

Lemma apply_op_effect f op k :
  mid_wf f → sver (st f) + 1 < 2 ^ 64 →
  applyIndex (st (apply_op f op)) = applyIndex (st f) ∧
  if decide (oKey op = k ∧ (oKind op = TxnPut ∨ oKind op = TxnDelete))
  then op_effect op (sver (st f)) (applyIndex (st f)) (entries (st (apply_op f op)) !! k)
  else entries (st (apply_op f op)) !! k = entries (st f) !! k.
Proof.
  intros Hf Hv. unfold apply_op, op_effect.
  destruct (decide (oKind op = TxnPut)) as [Hp|Hp].
  - rewrite bool_decide_eq_true_2 by done. pose proof (set_spec (st f) (oKey op) (oValue op) "") as Hs.
    destruct (set _ _ _ _) as [[p ver] s]. destruct Hs as (_ & Hver & Hed & He & _).
    rewrite emitPut_st. cbn [st with_st]. rewrite He. split; [apply Hed|].
    destruct (decide (oKey op = k ∧ _)) as [[<- _]|Hd].
    + rewrite lookup_insert_eq. exists ver. split; [|done]. pose proof (kw_pos _ (mw_kv _ Hf)).
      rewrite u64_small in Hver by (unfold is_u64; lia). lia.
    + rewrite lookup_insert_ne; [done|]. intros He'. apply Hd. auto.
  - rewrite bool_decide_eq_false_2 by done. destruct (decide (oKind op = TxnDelete)) as [Hdel|Hdel].
    + rewrite bool_decide_eq_true_2 by done. pose proof (del_spec (st f) (oKey op)) as Hs.
      destruct (del _ _) as [p s]. destruct Hs as (_ & Hed & He & _).
      assert (Hst : st (match p with Some prev => emitEvent (with_st f s) WatchDelete None (Some prev)
                        | None => with_st f s end) = s) by (by destruct p).
      rewrite Hst, He. split; [apply Hed|]. destruct (decide (oKey op = k ∧ _)) as [[<- _]|Hd].
      * by rewrite lookup_delete_eq.
      * rewrite lookup_delete_ne; [done|]. intros He'. apply Hd. auto.
    + rewrite bool_decide_eq_false_2 by done. split; [done|]. rewrite decide_False by tauto. done.
Qed.

Lemma apply_ops_effect ops f :
  mid_wf f → sver (st f) + Z.of_nat (length ops) < 2 ^ 64 →
  let g := foldl apply_op f ops in
  good f g ∧ sver (st g) ≤ sver (st f) + Z.of_nat (length ops) ∧ applyIndex (st g) = applyIndex (st f) ∧
  ∀ k, match last_op ops k with
       | Some op => op_effect op (sver (st f)) (applyIndex (st f)) (entries (st g) !! k)
       | None => entries (st g) !! k = entries (st f) !! k
       end.
Proof.
  intros Hf. induction ops as [|op ops IH] using rev_ind; intros Hv; cbn zeta.
  { cbn [foldl length last_op]. split_and!; [done|lia|done|]. intros k. done. }
  rewrite length_app in Hv. cbn [length] in Hv. rewrite foldl_snoc, length_app.
  destruct IH as (Hg & Hs & Hi & He); [lia|]. set (g := foldl apply_op f ops) in *.
  destruct (good_apply_op g op (proj1 Hg) ltac:(lia)) as [Hg' Hs'].
  split_and!; [by eapply good_trans|cbn [length]; lia| |].
  - rewrite <- Hi. apply (apply_op_effect g op ""); [apply Hg|lia].
  - intros k. rewrite last_op_snoc.
    destruct (apply_op_effect g op k (proj1 Hg) ltac:(lia)) as [_ Hk].
    destruct (decide _) as [Hd|Hd]; [|rewrite Hk; apply He].
    unfold op_effect in *. rewrite Hi in Hk. destruct (decide (oKind op = TxnPut)); [|done].
    destruct Hk as (v & Hlt & ->). exists v. split; [|done]. destruct Hg as (_ & _ & [Hge _]). lia.
Qed.

Lemma read_flush f g k : good f g → read (flush g) k = entries (st g) !! k.
Proof.
  intros (Hg & _). destruct (flush_wf g Hg) as [Hw _]. rewrite (fw_read _ Hw).
  by destruct (flush_core g) as [[-> _ _ _] _ _].
Qed.

Lemma Apply_txn_eq f i ops now :
  Forall op_ok ops → Z.of_nat (length ops) < 2 ^ 32 →
  Apply f i (encodeTxn ops) now =
  let '(res, f) := applyTxn (with_st f (with_applyIndex (st f) i)) ops in (res, flush f).
Proof.
  intros Ho Hn. unfold Apply. pose proof (encodeTxn_shape ops Ho Hn) as [Hl Hop].
  rewrite !bool_decide_eq_true_2 by done. cbn [andb].
  rewrite <- (app_nil_r (encodeTxn ops)), (decodeTxn_enc ops [] Ho Hn). done.
Qed.

(** C29. A transaction is atomic. If every condition holds of the entries before it,
    the log entry reports success and a read afterwards sees, under each key, the
    effect of that key's last mutation in the transaction (a put with a version newer
    than every earlier one, or a deletion) and under every other key what it saw
    before; if some condition fails, the entry reports failure and every read is
    unchanged. *)
Theorem Txn_atomic f i ops now :
  fsm_wf f → applyIndex (st f) ≤ i → Forall op_ok ops → Z.of_nat (length ops) < 2 ^ 32 →
  sver (st f) + Z.of_nat (length ops) < 2 ^ 64 →
  let '(r, g) := Apply f i (encodeTxn ops) now in
  rErr r = None ∧
  if forallb (λ op, condHolds (oCond op) (oExpect op) (read f (oKey op))) ops
  then rOK r = true ∧ ∀ k,
    match last_op ops k with
    | Some op => op_effect op (sver (st f)) i (read g k)
    | None => read g k = read f k
    end
  else rOK r = false ∧ ∀ k, read g k = read f k.
Proof.
  intros Hf Hi Ho Hn Hv. rewrite (Apply_txn_eq f i ops now Ho Hn).
  set (f' := with_st f (with_applyIndex (st f) i)).
  pose proof (index_mid f i (fw_mid _ Hf) Hi : mid_wf f') as Hm. unfold applyTxn.
  assert (Hc : forallb (λ op, condHolds (oCond op) (oExpect op) (get (st f') (oKey op))) ops =
               forallb (λ op, condHolds (oCond op) (oExpect op) (read f (oKey op))) ops)
    by (apply forallb_agree; intros op; by rewrite (fw_read _ Hf)).
  rewrite Hc. clear Hc. destruct (forallb _ _); cbn [rErr rOK].
  - destruct (apply_ops_effect ops f' Hm Hv) as (Hg & _ & _ & He). split_and!; [done..|].
    intros k. rewrite (read_flush f'), (fw_read _ Hf) by done. exact (He k).
  - split_and!; [done..|]. intros k. rewrite (read_flush f'), (fw_read _ Hf) by done. done.
Qed.

(** ** Errors *)

(** The error of a command, from the published entries and the lease table. *)
Definition command_error (f : RaftFSM) (c : command) : option apply_error :=
  if bool_decide (cOp c = opDelete) then
    match read f (cKey c) with None => Some ErrKeyNotFound | Some _ => None end
  else if bool_decide (cOp c ∈ [opSetWithLease; opSetIfAbsentWithLease; opLeaseRenew]) then
    match leases (st f) !! cLeaseID c with None => Some ErrLeaseNotFound | Some _ => None end
  else if bool_decide (cOp c ∈ [opSet; opCAS; opSetIfAbsent; opCompareAndDelete; opLeaseGrant; opLeaseRevoke])
  then None
  else Some (ErrUnknownOp (cOp c)).

(** The error of a log entry. *)
Definition entry_error (f : RaftFSM) (data : list ascii) : option apply_error :=
  if bool_decide (0 < length data)%nat && bool_decide (be_val (slice data 0 1) = opTxn) then
    match decodeTxn data with Err e => Some (ErrDecode e) | Ok _ => None end
  else
    match decodeCommand data with Err e => Some (ErrDecode e) | Ok c => command_error f c end.

(** A lease has a handle exactly when it is in the replicated table. *)
Lemma handle_known f id :
  mid_wf f → Lease.getHandle (lm f) id = None ↔ leases (st f) !! id = None.
Proof.
  intros [_ _ M3 M4 M5]. specialize (M4 id). specialize (M5 id). unfold Lease.getHandle.
  rewrite !eq_None_not_Some, M4. split; intros Hn Hs; apply Hn; [|by apply M5].
  destruct Hs as [p Hp]. by eapply (Lease.lw_handles _ M3).
Qed.

Lemma renew_known f id now :
  mid_wf f → (Lease.renew (lm f) id now).1 = bool_decide (is_Some (leases (st f) !! id)).
Proof.
  intros Hf. pose proof (mw_known _ Hf id) as Hk. unfold Lease.renew.
  destruct (Lease.entries (lm f) !! id) as [p|] eqn:Ep.
  - destruct (Lease.lw_handles _ (mw_lm _ Hf) id p Ep) as [h Hh]. rewrite Hh.
    rewrite bool_decide_eq_true_2; [done|]. apply Hk. eauto.
  - rewrite bool_decide_eq_false_2; [done|]. rewrite Hk. by intros [? ?].
Qed.

Ltac ev := cbn -[set cas setIfAbsent compareAndDelete Lease.renew Lease.getHandle Lease.grant removeLease
                 apply_set apply_setIfAbsent foldl].

Lemma applyCommand_error f now c :
  mid_wf f → (∀ k, read f k = entries (st f) !! k) →
  rErr (applyCommand f now c).1 = command_error f c ∧
  (command_error f c ≠ None → (applyCommand f now c).2 = f).
Proof.
  intros Hf Hr. unfold applyCommand, command_error. rewrite Hr.
  pose proof (handle_known f (cLeaseID c) Hf) as Hh.
  assert (Hnone : ∀ (x : option leaseState) (e : apply_error), x ≠ None →
    match x with None => Some e | Some _ => None end = None) by (by intros [] ?).
  destruct (bool_decide_reflect (cOp c = opSet)) as [->|?].
  { ev. unfold apply_set. by destruct (set _ _ _ _) as [[? ?] ?]. }
  destruct (bool_decide_reflect (cOp c = opDelete)) as [?|?].
  { unfold del. destruct (entries (st f) !! cKey c); [done|]. by destruct f. }
  destruct (bool_decide_reflect (cOp c = opCAS)) as [->|?].
  { ev. by destruct (cas _ _ _ _) as [[? ok] ?]. }
  destruct (bool_decide_reflect (cOp c = opSetIfAbsent)) as [->|?].
  { ev. unfold apply_setIfAbsent. by destruct (setIfAbsent _ _ _ _) as [[? ok] ?]. }
  destruct (bool_decide_reflect (cOp c = opCompareAndDelete)) as [->|?].
  { ev. by destruct (compareAndDelete _ _ _) as [[? ?] ?]. }
  destruct (bool_decide_reflect (cOp c = opSetWithLease)) as [->|?].
  { ev. destruct (Lease.getHandle _ _) eqn:Eh.
    - rewrite Hnone by (intros Hx; apply Hh in Hx; congruence).
      unfold apply_set. by destruct (set _ _ _ _) as [[? ?] ?].
    - by rewrite (proj1 Hh eq_refl). }
  destruct (bool_decide_reflect (cOp c = opSetIfAbsentWithLease)) as [->|?].
  { ev. destruct (Lease.getHandle _ _) eqn:Eh.
    - rewrite Hnone by (intros Hx; apply Hh in Hx; congruence).
      unfold apply_setIfAbsent. by destruct (setIfAbsent _ _ _ _) as [[? ok] ?].
    - by rewrite (proj1 Hh eq_refl). }
  destruct (bool_decide_reflect (cOp c = opLeaseGrant)) as [->|?]; [by ev|].
  destruct (bool_decide_reflect (cOp c = opLeaseRenew)) as [->|?].
  { ev. pose proof (renew_known f (cLeaseID c) now Hf) as Hk. pose proof (renew_id (lm f) (cLeaseID c) now) as Hi.
    destruct (Lease.renew _ _ _) as [[] m]; cbn in *; destruct (leases (st f) !! cLeaseID c); try done.
    rewrite (Hi eq_refl). by destruct f. }
  destruct (bool_decide_reflect (cOp c = opLeaseRevoke)) as [->|?].
  { ev. by destruct (removeLease _ _). }
  do 2 (rewrite bool_decide_eq_false_2; [|rewrite !elem_of_cons, elem_of_nil; tauto]). done.
Qed.

(** Failed log entries have no effect. The error of a log entry is exactly the one
    its bytes and the current state call for (undecodable bytes, an unknown
    operation, deleting a missing key, using or renewing a missing lease), and an
    entry that fails leaves every read, every lease, the version allocator and the
    lease manager as they were. *)
Theorem errors_have_no_effect f i data now :
  fsm_wf f → applyIndex (st f) ≤ i →
  let '(r, g) := Apply f i data now in
  rErr r = entry_error f data ∧
  (rErr r ≠ None →
    (∀ k, read g k = read f k) ∧ leases (st g) = leases (st f) ∧ sver (st g) = sver (st f) ∧ lm g = lm f).
Proof.
  intros Hf Hi. set (f' := with_st f (with_applyIndex (st f) i)).
  pose proof (index_mid f i (fw_mid _ Hf) Hi : mid_wf f') as Hm.
  unfold Apply, entry_error. fold f'. destruct (_ && _).
  - destruct (decodeTxn data) as [ops|e]; [|done]. unfold applyTxn. by destruct (forallb _ _).
  - destruct (decodeCommand data) as [c|e]; [|done].
    destruct (applyCommand_error f' now c Hm (fw_read _ Hf)) as [He Hn].
    destruct (applyCommand f' now c) as [r g]. cbn [fst snd] in *. split; [done|].
    rewrite He. intros Hne. specialize (Hn Hne). subst g.
    destruct (flush_core f') as [[_ L V _] _ _]. cbn in L, V.
    split_and!; [intros k|done|done|unfold flush; by destruct (snapshot _)].
    rewrite (read_flush f') by done. by rewrite (fw_read _ Hf).
Qed.

(** ** Versions as fencing tokens *)

(** One log entry applied, with the result it returned. *)
Definition applied (f g : RaftFSM) : Prop :=
  ∃ i data now, applyIndex (st f) ≤ i ∧ log_ok f data ∧ g = (Apply f i data now).2.

Lemma applied_evolves f g : rtc applied f g → fsm_wf f → fsm_wf g ∧ evolves (st f) (st g).
Proof.
  intros Hr. induction Hr as [f|f g h (i & data & now & Hi & Hl & ->) _ IH]; intros Hf; [done|].
  destruct (Apply_advances f i data now Hf Hi Hl) as (Hg & _ & He). destruct (IH Hg) as [Hh He'].
  split; [done|by etrans].
Qed.

Lemma Apply_command_eq f i c now :
  cmd_ok c → cOp c ≠ opTxn →
  Apply f i (encodeCommand c) now =
  let '(res, f) := applyCommand (with_st f (with_applyIndex (st f) i)) now c in (res, flush f).
Proof.
  intros Hc Hop. unfold Apply. pose proof (encodeCommand_shape c Hc) as [Hl Ho].
  rewrite Ho, (bool_decide_eq_false_2 (cOp c = opTxn)), andb_false_r by done.
  by rewrite (proj1 (decodeCommand_enc c Hc)).
Qed.

Lemma applyCommand_CAS f now c :
  cOp c = opCAS →
  applyCommand f now c =
  let '(ver, ok, s) := cas (st f) (cKey c) (cExpect c) (cValue c) in
  (mkRes None ver ok, if ok then emitPut (with_st f s) (cKey c) (get (st f) (cKey c)) else with_st f s).
Proof. unfold applyCommand. by intros ->. Qed.

Lemma applyCommand_CAD f now c :
  cOp c = opCompareAndDelete →
  applyCommand f now c =
  let '(deleted, _, s) := compareAndDelete (st f) (cKey c) (cExpect c) in
  (mkRes None 0 deleted,
   if deleted then emitEvent (with_st f s) WatchDelete None (get (st f) (cKey c)) else with_st f s).
Proof. unfold applyCommand. by intros ->. Qed.

(** C8. A version is a fencing token: once the entry a client read under a key has been
    replaced or deleted, its version never comes back under that key, so a
    compare-and-swap or compare-and-delete that still expects it fails, at any later
    point of the log, and leaves every read unchanged. *)
Theorem stale_version_rejected f g h i now k e c :
  fsm_wf f → read f k = Some e → rtc applied f g → read g k ≠ Some e → rtc applied g h →
  applyIndex (st h) ≤ i → cmd_ok c → cOp c = opCAS ∨ cOp c = opCompareAndDelete →
  cKey c = k → cExpect c = version e →
  let '(r, h') := Apply h i (encodeCommand c) now in
  rErr r = None ∧ rOK r = false ∧ ∀ k', read h' k' = read h k'.
Proof.
  intros Hf He Hfg Hne Hgh Hi Hc Hop Hk Hx.
  destruct (applied_evolves f g Hfg Hf) as [Hg [Vg Eg]].
  destruct (applied_evolves g h Hgh Hg) as [Hh [Vh Eh]].
  rewrite (fw_read _ Hf) in He. rewrite (fw_read _ Hg) in Hne.
  pose proof (kw_ver _ (mw_kv _ (fw_mid _ Hf)) k e He) as Hv.
  assert (Hstale : default 0 (version <$> entries (st h) !! k) ≠ version e).
  { destruct (entries (st h) !! k) as [e'|] eqn:Ee; cbn; [|lia].
    apply Eh in Ee as [Ee|?]; [|lia]. destruct (Eg k e' Ee) as [?|?]; [congruence|lia]. }
  rewrite Apply_command_eq by (try done; by destruct Hop as [-> | ->]).
  set (h0 := with_st h (with_applyIndex (st h) i)).
  pose proof (index_mid h i (fw_mid _ Hh) Hi : mid_wf h0) as Hm.
  assert (Hid : ∃ v, applyCommand h0 now c = (mkRes None v false, h0)).
  { subst k. destruct Hop as [Hop|Hop].
    - rewrite (applyCommand_CAS _ _ _ Hop). unfold cas. cbn [entries st h0 with_st with_applyIndex].
      rewrite bool_decide_eq_true_2 by (by rewrite Hx). by eexists.
    - rewrite (applyCommand_CAD _ _ _ Hop). unfold compareAndDelete. cbn [entries st h0 with_st with_applyIndex].
      destruct (entries (st h) !! cKey c) as [e'|] eqn:Ee; [|by eexists].
      rewrite bool_decide_eq_true_2 by (by rewrite Hx). by eexists. }
  destruct Hid as [v ->]. split_and!; [done|done|]. intros k'.
  rewrite (read_flush h0) by done. by rewrite (fw_read _ Hh).
Qed.
End theorems.

(** ** Concrete runs *)

#[local] Instance entry_countable : Countable entry.
Proof.
  refine (inj_countable' (λ e, (key e, leaseID e, value e, version e, epoch e))
            (λ '(a, b, c, d, e), mkEnt a b c d e) _). by intros [].
Defined.

#[local] Instance snapLease_eq_dec : EqDecision snapLease.
Proof. solve_decision. Defined.
#[local] Instance snapLease_countable : Countable snapLease.
Proof.
  refine (inj_countable' (λ l, (ID l, Keys l, TTLms l, ExpiresAtMs l))
            (λ '(a, b, c, d), mkSL a b c d) _). by intros [].
Defined.

#[local] Instance fsmState_eq_dec : EqDecision fsmState.
Proof. solve_decision. Defined.
#[local] Instance fsmState_countable : Countable fsmState.
Proof.
  refine (inj_countable' (λ x, (Entries x, Leases x, ApplyIndex x, Version x))
            (λ '(a, b, c, d), mkFS a b c d) _). by intros [].
Defined.

(** A serializer with the properties of [Gob]: the bits of the structure's code. *)
#[local] Instance bit_gob : Gob.
Proof.
  refine {| gob_encode x := bits (encode x); gob_decode l := p ← unbits l; decode p |}.
  - intros x. rewrite unbits_bits. apply decode_encode.
  - intros x. by destruct (encode x).
Defined.

#[local] Existing Instance zero_hash.

Definition cmd (op : Z) (k : string) (v : string) (expect : Z) (id : string) : list ascii :=
  encodeCommand (mkCmd k id (bytes_of v) expect 1000 5000 op).

Definition demo : RaftFSM := (Apply NewRaftFSM 1 (cmd opSet "k" "v" 0 "") 0).2.
Definition demo2 : RaftFSM := (Apply demo 2 (cmd opSet "k" "w" 0 "") 0).2.

Lemma set_log_ok f k v :
  (∃ c, decodeCommand (cmd opSet k v 0 "") = Ok c ∧ cOp c = opSet) →
  (∃ e, decodeTxn (cmd opSet k v 0 "") = Err e) → sver (st f) + 1 < 2 ^ 64 →
  log_ok f (cmd opSet k v 0 "").
Proof.
  intros (c & Hc & Ho) [e He] Hv. unfold log_ok. rewrite Hc, He. split; [|done].
  intros Hx. rewrite Ho in Hx. discriminate.
Qed.

Ltac log_ok_set := apply set_log_ok; [eexists; split; vm_compute; reflexivity|
                                      eexists; vm_compute; reflexivity|vm_compute; reflexivity].

Lemma demo_ok : log_ok NewRaftFSM (cmd opSet "k" "v" 0 "").
Proof. log_ok_set. Qed.

Lemma demo2_ok : log_ok demo (cmd opSet "k" "w" 0 "").
Proof. log_ok_set. Qed.

Lemma demo_fsm_wf : fsm_wf demo.
Proof. refine (proj1 (Apply_advances NewRaftFSM 1 _ 0 NewRaftFSM_wf _ demo_ok)). by vm_compute. Qed.

Lemma demo_step : applied demo demo2.
Proof. exists 2, (cmd opSet "k" "w" 0 ""), 0. split_and!; [by vm_compute|apply demo2_ok|done]. Qed.

Lemma reads_are_current_witness :
  (∀ k, read demo k = entries (st demo) !! k) ∧ (∀ k, snap_get (maps (st demo2)) (snap demo) k = read demo k).
Proof.
  destruct (reads_are_current demo demo2) as (H1 & _ & H3).
  - eapply rtc_l; [|apply rtc_refl]. apply (step_apply NewRaftFSM 1 _ 0); [by vm_compute|apply demo_ok].
  - eapply rtc_l; [|apply rtc_refl]. apply (step_apply demo 2 _ 0); [by vm_compute|apply demo2_ok].
  - exact (conj H1 H3).
Defined.

Lemma restored_replica_agrees_witness :
  let '(ok, r) := Restore NewRaftFSM (Snapshot demo) 7 in
  ok = true ∧ (∀ k, read r k = read demo k) ∧
  (replay r [(2, cmd opSet "k" "w" 0 "", 8)]).1 = (replay demo [(2, cmd opSet "k" "w" 0 "", 0)]).1.
Proof.
  pose proof (restored_replica_agrees NewRaftFSM demo 7
    [(2, cmd opSet "k" "w" 0 "", 8)] [(2, cmd opSet "k" "w" 0 "", 0)] demo_fsm_wf eq_refl
    ltac:(by repeat constructor)) as Hr.
  destruct (Restore NewRaftFSM (Snapshot demo) 7) as [ok r].
  destruct Hr as (H1 & _ & H3 & H4 & _). exact (conj H1 (conj H3 H4)).
Defined.

Lemma replay_deterministic_witness :
  (replay demo [(2, cmd opSet "k" "w" 0 "", 8)]).1 = (replay demo [(2, cmd opSet "k" "w" 0 "", 0)]).1.
Proof.
  exact (proj1 (replay_deterministic demo
    [(2, cmd opSet "k" "w" 0 "", 8)] [(2, cmd opSet "k" "w" 0 "", 0)] ltac:(by repeat constructor))).
Defined.

Definition demo_ops : list TxnOp :=
  [mkOp "k" (bytes_of "x") 0 TxnPut CondExists; mkOp "j" [] 0 TxnCheck CondAbsent;
   mkOp "k" [] 0 TxnDelete CondAny].

Lemma Txn_atomic_witness :
  let '(r, g) := Apply demo 2 (encodeTxn demo_ops) 0 in rOK r = true ∧ read g "k" = None.
Proof.
  pose proof (Txn_atomic demo 2 demo_ops 0 demo_fsm_wf ltac:(by vm_compute)) as Ht.
  destruct (Apply demo 2 (encodeTxn demo_ops) 0) as [r g].
  destruct Ht as (_ & Hb); [repeat constructor; by vm_compute|by vm_compute|by vm_compute|].
  assert (Hc : forallb (λ op, condHolds (oCond op) (oExpect op) (read demo (oKey op))) demo_ops = true)
    by (vm_compute; reflexivity).
  rewrite Hc in Hb. destruct Hb as [H1 H2]. exact (conj H1 (H2 "k")).
Defined.

Lemma errors_have_no_effect_witness :
  let '(r, g) := Apply demo 2 (cmd opDelete "j" "" 0 "") 0 in
  rErr r = Some ErrKeyNotFound ∧ ∀ k, read g k = read demo k.
Proof.
  pose proof (errors_have_no_effect demo 2 (cmd opDelete "j" "" 0 "") 0 demo_fsm_wf ltac:(by vm_compute)) as He.
  destruct (Apply demo 2 (cmd opDelete "j" "" 0 "") 0) as [r g]. destruct He as [H1 H2].
  assert (Hx : entry_error demo (cmd opDelete "j" "" 0 "") = Some ErrKeyNotFound)
    by (vm_compute; reflexivity).
  rewrite Hx in H1. split; [done|]. apply H2. by rewrite H1.
Defined.

Lemma stale_version_rejected_witness :
  let '(r, _) := Apply demo2 3 (cmd opCAS "k" "z" 1 "") 0 in rOK r = false.
Proof.
  pose proof (stale_version_rejected demo demo2 demo2 3 0 "k" (mkEnt "k" "" (bytes_of "v") 1 1)
    (mkCmd "k" "" (bytes_of "z") 1 1000 5000 opCAS) demo_fsm_wf) as Hs.
  change (encodeCommand _) with (cmd opCAS "k" "z" 1 "") in Hs.
  assert (Hr : read demo "k" = Some (mkEnt "k" "" (bytes_of "v") 1 1)) by (vm_compute; reflexivity).
  assert (Hr2 : read demo2 "k" = Some (mkEnt "k" "" (bytes_of "w") 2 2)) by (vm_compute; reflexivity).
  specialize (Hs Hr (rtc_once _ _ demo_step)). rewrite Hr2 in Hs.
  specialize (Hs ltac:(discriminate) (rtc_refl _ _)).
  destruct (Apply demo2 3 (cmd opCAS "k" "z" 1 "") 0) as [r g].
  assert (Hi : applyIndex (st demo2) ≤ 3) by (vm_compute; discriminate).
  assert (Hc : cmd_ok (mkCmd "k" "" (bytes_of "z") 1 1000 5000 opCAS)) by (repeat split; vm_compute; congruence).
  specialize (Hs Hi). specialize (Hs Hc). specialize (Hs (or_introl eq_refl)). specialize (Hs eq_refl).
  specialize (Hs eq_refl). exact (proj1 (proj2 Hs)).
Defined.

(** Why [log_ok] asks for new lease ids. A node numbers its leases from a counter in
    memory, so a restarted node grants ids that are still in the table; granting
    such an id replaces the lease and forgets the keys it held. A replica restored
    from a snapshot rebuilds the keys from the entries, so the two replicas disagree
    after the lease is revoked. *)
Theorem regrant_diverges :
  let f := (replay NewRaftFSM [(1, cmd opLeaseGrant "" "" 0 "n-lease-1", 0);
                               (2, cmd opSetWithLease "k" "v" 0 "n-lease-1", 0);
                               (3, cmd opLeaseGrant "" "" 0 "n-lease-1", 0)]).2 in
  let r := (Restore NewRaftFSM (Snapshot f) 0).2 in
  let revoked g := (Apply g 4 (cmd opLeaseRevoke "" "" 0 "n-lease-1") 0).2 in
  read f "k" = read r "k" ∧
  leaseID <$> read (revoked f) "k" = Some "n-lease-1" ∧ read (revoked r) "k" = None.
Proof. vm_compute. split_and!; reflexivity. Qed.
End Fsm.
