(* ===== verification/KvService.v ===== *)
(** * The standalone key-value service ([system/kv/service.go])

    [Service] runs one event loop over the key-value state: every write is an action
    that the loop runs to completion, after which it publishes a snapshot if the
    action marked the service dirty; a timer expires leases. Readers load the
    published snapshot. Cancellation and the channel of actions are not modelled:
    an event below is one turn of the loop, and clock readings are arguments.

    The theorems: after every turn readers see exactly the current entries, although
    some actions publish nothing; the timer removes exactly the leases that are due,
    with their keys; and each write behaves as the same command of the replicated
    state machine. *)

From stdpp Require Import pretty.
From S2P Require Import Prelude Bytes Crdt KvLease KvState KvCodec KvFsm.

Module Svc.
Import Kv Codec Fsm.

Record Service := mkSvc {
  sstate : state;
  sleases : Lease.leaseManager;
  ssnap : option stateSnapshot;
  sname : string;
  soutbox : list watchRecord;
  leaseSeq : Z;
  sdirty : bool;
  sfeed : list feed_event
}.

Definition with_state (s : Service) st : Service :=
  mkSvc st (sleases s) (ssnap s) (sname s) (soutbox s) (leaseSeq s) (sdirty s) (sfeed s).
Definition with_manager (s : Service) m : Service :=
  mkSvc (sstate s) m (ssnap s) (sname s) (soutbox s) (leaseSeq s) (sdirty s) (sfeed s).

Definition publishSnapshot (s : Service) : Service :=
  mkSvc (sstate s) (sleases s) (ssnap s) (sname s) (soutbox s) (leaseSeq s) true (sfeed s).

Definition emitEvent (s : Service) (typ : WatchEventType) (current prev : option entry) : Service :=
  mkSvc (sstate s) (sleases s) (ssnap s) (sname s) (soutbox s ++ [mkRec typ current prev 0 0])
    (leaseSeq s) (sdirty s) (sfeed s).

Definition emitPut (s : Service) (k : string) (prev : option entry) : Service :=
  match get (sstate s) k with
  | None => s
  | Some current => emitEvent s WatchPut (Some current) prev
  end.

(** ** The actions *)

Definition Set_ (s : Service) (k : string) (v : list ascii) : Z * Service :=
  let '(prev, ver, st) := set (sstate s) k v "" in
  (ver, emitPut (publishSnapshot (with_state s st)) k prev).

(** [false] is [ErrKeyNotFound]. *)
Definition Delete (s : Service) (k : string) : bool * Service :=
  match del (sstate s) k with
  | (None, st) => (false, with_state s st)
  | (Some prev, st) => (true, emitEvent (publishSnapshot (with_state s st)) WatchDelete None (Some prev))
  end.

Definition SetIfAbsent (s : Service) (k : string) (v : list ascii) : Z * bool * Service :=
  let '(ver, ok, st) := setIfAbsent (sstate s) k v "" in
  (ver, ok, if ok then emitPut (publishSnapshot (with_state s st)) k None else with_state s st).

Definition CompareAndSwap (s : Service) (k : string) (expect : Z) (v : list ascii) : Z * bool * Service :=
  let prev := get (sstate s) k in
  let '(ver, ok, st) := cas (sstate s) k expect v in
  (ver, ok, if ok then emitPut (publishSnapshot (with_state s st)) k prev else with_state s st).

Definition CompareAndDelete (s : Service) (k : string) (expect : Z) : bool * Service :=
  let prev := get (sstate s) k in
  let '(deleted, _, st) := compareAndDelete (sstate s) k expect in
  (deleted,
   if deleted then emitEvent (publishSnapshot (with_state s st)) WatchDelete None prev else with_state s st).

Definition txn_op (s : Service) (op : TxnOp) : Service :=
  if bool_decide (oKind op = TxnPut) then
    let prev := get (sstate s) (oKey op) in
    let '(_, _, st) := set (sstate s) (oKey op) (oValue op) "" in
    emitPut (with_state s st) (oKey op) prev
  else if bool_decide (oKind op = TxnDelete) then
    match del (sstate s) (oKey op) with
    | (Some prev, st) => emitEvent (with_state s st) WatchDelete None (Some prev)
    | (None, st) => with_state s st
    end
  else s.

Definition Txn (s : Service) (ops : list TxnOp) : bool * Service :=
  if forallb (λ op, condHolds (oCond op) (oExpect op) (get (sstate s) (oKey op))) ops
  then (true, publishSnapshot (foldl txn_op s ops))
  else (false, s).

(** [None] is [ErrLeaseNotFound]. *)
Definition SetWithLease (s : Service) (k : string) (v : list ascii) (id : string) : option Z * Service :=
  match Lease.getHandle (sleases s) id with
  | None => (None, s)
  | Some _ =>
      let '(prev, ver, st) := set (sstate s) k v id in
      (Some ver, emitPut (publishSnapshot (with_state s st)) k prev)
  end.

Definition SetIfAbsentWithLease (s : Service) (k : string) (v : list ascii) (id : string)
    : option (Z * bool) * Service :=
  match Lease.getHandle (sleases s) id with
  | None => (None, s)
  | Some _ =>
      let '(ver, ok, st) := setIfAbsent (sstate s) k v id in
      (Some (ver, ok), if ok then emitPut (publishSnapshot (with_state s st)) k None else with_state s st)
  end.

(** [fmt.Sprintf("%s-lease-%d", s.name, s.leaseSeq)] *)
Definition lease_name (name : string) (seq : Z) : string :=
  String.append name (String.append "-lease-" (pretty (Z.to_N seq))).

(** [ttl] in nanoseconds, the two clock readings in nanoseconds since the epoch. *)
Definition GrantLease (s : Service) (ttl now now' : Z) : string * Service :=
  let seq := u64 (leaseSeq s + 1) in
  let id := lease_name (sname s) seq in
  let st := addLease (sstate s) id (Z.quot ttl 1000000) ((now + ttl) / 1000000) in
  (id, mkSvc st (Lease.grant (sleases s) id ttl now').2 (ssnap s) (sname s) (soutbox s) seq (sdirty s)
         (sfeed s)).

(** [handle.keepAlive] *)
Definition keepAlive (s : Service) (id : string) (now : Z) : bool * Service :=
  let '(ok, m) := Lease.renew (sleases s) id now in (ok, with_manager s m).

(** The key loop of [handle.revoke] and of [processExpiredLeases]. *)
Definition expire_key (s : Service) (k : string) : Service :=
  match del (sstate s) k with
  | (Some prev, st) => emitEvent (with_state s st) WatchExpired None (Some prev)
  | (None, st) => with_state s st
  end.

(** [handle.revoke] *)
Definition revoke (s : Service) (id : string) : Service :=
  let '(keys, st) := removeLease (sstate s) id in
  let s := foldl expire_key (with_state s st) keys in
  publishSnapshot (with_manager s (Lease.revoke (sleases s) id).2).

(** The body of the loop of [processExpiredLeases]. *)
Definition expire_lease (s : Service) (id : string) : Service :=
  let '(keys, st) := removeLease (sstate s) id in
  let s := foldl expire_key (with_state s st) keys in
  match Lease.handles (sleases s) !! id with
  | Some h =>
      let m := Lease.close (sleases s) h in
      with_manager s (Lease.mkLM (Lease.hs m) (Lease.entries m) (Lease.lstore m)
                        (delete id (Lease.handles m)))
  | None => s
  end.

Definition processExpiredLeases (s : Service) (now : Z) : Service :=
  let '(expired, m) := Lease.expired (sleases s) now in
  let s := with_manager s m in
  match expired with
  | [] => s
  | _ => publishSnapshot (foldl expire_lease s expired)
  end.

Section service.
Context `{XXHash}.

Definition flush (s : Service) : Service :=
  if negb (sdirty s) then s else
  let '(published, st) := snapshot (sstate s) in
  let rs := map (λ r, mkRec (rtyp r) (rcurrent r) (rprevious r) (rindex r) (sversion published)) (soutbox s) in
  mkSvc st (sleases s) (Some published) (sname s) [] (leaseSeq s) false (sfeed s ++ [Published rs]).

(** [NewService] followed by [Start]. *)
Definition Start (name : string) : Service :=
  let '(published, st) := snapshot newState in
  mkSvc st Lease.newLeaseManager (Some published) name [] 0 false [].

Inductive read_error := ErrKVClosed | ErrNotFound.

Definition Get (s : Service) (k : string) : result read_error entry :=
  match ssnap s with
  | None => Err ErrKVClosed
  | Some sn => match snap_get (maps (sstate s)) sn k with None => Err ErrNotFound | Some e => Ok e end
  end.

(** One turn of the event loop. *)
Inductive event :=
| ESet (k : string) (v : list ascii)
| EDelete (k : string)
| ESetIfAbsent (k : string) (v : list ascii)
| ECompareAndSwap (k : string) (expect : Z) (v : list ascii)
| ECompareAndDelete (k : string) (expect : Z)
| ETxn (ops : list TxnOp)
| ESetWithLease (k : string) (v : list ascii) (id : string)
| ESetIfAbsentWithLease (k : string) (v : list ascii) (id : string)
| EGrantLease (ttl now now' : Z)
| EKeepAlive (id : string) (now : Z)
| ERevoke (id : string)
| ETimer (now : Z).

Definition act (s : Service) (e : event) : Service :=
  match e with
  | ESet k v => (Set_ s k v).2
  | EDelete k => (Delete s k).2
  | ESetIfAbsent k v => (SetIfAbsent s k v).2
  | ECompareAndSwap k x v => (CompareAndSwap s k x v).2
  | ECompareAndDelete k x => (CompareAndDelete s k x).2
  | ETxn ops => (Txn s ops).2
  | ESetWithLease k v id => (SetWithLease s k v id).2
  | ESetIfAbsentWithLease k v id => (SetIfAbsentWithLease s k v id).2
  | EGrantLease ttl now now' => (GrantLease s ttl now now').2
  | EKeepAlive id now => (keepAlive s id now).2
  | ERevoke id => revoke s id
  | ETimer now => processExpiredLeases s now
  end.

Definition turn (s : Service) (e : event) : Service := flush (act s e).
End service.

(** ** The service as the state machine of the replicated store *)

(** The replicated state machine in the same state. *)
Definition as_fsm (s : Service) : RaftFSM :=
  mkFSM (sstate s) (sleases s) (default (mkSnap [] 0 0) (ssnap s)) (soutbox s) (sfeed s).

Definition command_of (e : event) : option command :=
  match e with
  | ESet k v => Some (mkCmd k "" v 0 0 0 opSet)
  | EDelete k => Some (mkCmd k "" [] 0 0 0 opDelete)
  | ESetIfAbsent k v => Some (mkCmd k "" v 0 0 0 opSetIfAbsent)
  | ECompareAndSwap k x v => Some (mkCmd k "" v x 0 0 opCAS)
  | ECompareAndDelete k x => Some (mkCmd k "" [] x 0 0 opCompareAndDelete)
  | ESetWithLease k v id => Some (mkCmd k id v 0 0 0 opSetWithLease)
  | ESetIfAbsentWithLease k v id => Some (mkCmd k id v 0 0 0 opSetIfAbsentWithLease)
  | ERevoke id => Some (mkCmd "" id [] 0 0 0 opLeaseRevoke)
  | _ => None
  end.

(** What the caller of a write is told. *)
Definition reply (s : Service) (e : event) : applyResult :=
  match e with
  | ESet k v => mkRes None (Set_ s k v).1 true
  | EDelete k => if (Delete s k).1 then mkRes None 0 true else mkRes (Some ErrKeyNotFound) 0 false
  | ESetIfAbsent k v => let '(ver, ok, _) := SetIfAbsent s k v in mkRes None ver ok
  | ECompareAndSwap k x v => let '(ver, ok, _) := CompareAndSwap s k x v in mkRes None ver ok
  | ECompareAndDelete k x => mkRes None 0 (CompareAndDelete s k x).1
  | ETxn ops => mkRes None 0 (Txn s ops).1
  | ESetWithLease k v id =>
      match (SetWithLease s k v id).1 with
      | Some ver => mkRes None ver true
      | None => mkRes (Some ErrLeaseNotFound) 0 false
      end
  | ESetIfAbsentWithLease k v id =>
      match (SetIfAbsentWithLease s k v id).1 with
      | Some (ver, ok) => mkRes None ver ok
      | None => mkRes (Some ErrLeaseNotFound) 0 false
      end
  | _ => mkRes None 0 true
  end.

Lemma as_fsm_emit s typ c p :
  applyIndex (sstate s) = 0 → as_fsm (emitEvent s typ c p) = Fsm.emitEvent (as_fsm s) typ c p.
Proof. intros Hi. unfold Fsm.emitEvent. cbn. by rewrite Hi. Qed.

Lemma as_fsm_put s k p :
  applyIndex (sstate s) = 0 → as_fsm (emitPut s k p) = Fsm.emitPut (as_fsm s) k p.
Proof.
  intros Hi. unfold emitPut, Fsm.emitPut. cbn [st as_fsm]. destruct (get (sstate s) k); [|done].
  by apply as_fsm_emit.
Qed.

Lemma set_index s k v id : applyIndex (set s k v id).2 = applyIndex s.
Proof. pose proof (set_spec s k v id) as Hs. destruct (set s k v id) as [[? ?] ?]. apply Hs. Qed.

Lemma del_index s k : applyIndex (del s k).2 = applyIndex s.
Proof. pose proof (del_spec s k) as Hs. destruct (del s k) as [? ?]. apply Hs. Qed.

Lemma as_fsm_txn_op s op :
  applyIndex (sstate s) = 0 →
  as_fsm (txn_op s op) = apply_op (as_fsm s) op ∧ applyIndex (sstate (txn_op s op)) = 0 ∧
  sdirty (txn_op s op) = sdirty s.
Proof.
  intros Hi. unfold txn_op, apply_op. cbn [st as_fsm]. destruct (bool_decide (oKind op = TxnPut)).
  - pose proof (set_index (sstate s) (oKey op) (oValue op) "") as Hs.
    destruct (set _ _ _ _) as [[? ?] st']. cbn in Hs. rewrite as_fsm_put by (cbn; congruence).
    split_and!; [done| |]; unfold emitPut; destruct (get _ _); cbn; congruence.
  - destruct (bool_decide (oKind op = TxnDelete)); [|done].
    pose proof (del_index (sstate s) (oKey op)) as Hs. destruct (del _ _) as [[?|] st']; cbn in Hs.
    + rewrite as_fsm_emit by (cbn; congruence). split_and!; [done|cbn; congruence|done].
    + split_and!; [done|cbn; congruence|done].
Qed.

Lemma as_fsm_txn ops s :
  applyIndex (sstate s) = 0 → as_fsm (foldl txn_op s ops) = foldl apply_op (as_fsm s) ops.
Proof.
  revert s. induction ops as [|op ops IH]; intros s Hi; [done|]. cbn [foldl].
  destruct (as_fsm_txn_op s op Hi) as (<- & H2 & _). by apply IH.
Qed.

Lemma as_fsm_expire_keys ks s :
  applyIndex (sstate s) = 0 → as_fsm (foldl expire_key s ks) = foldl Fsm.expire_key (as_fsm s) ks.
Proof.
  revert s. induction ks as [|k ks IH]; intros s Hi; [done|]. cbn [foldl].
  assert (He : as_fsm (expire_key s k) = Fsm.expire_key (as_fsm s) k ∧ applyIndex (sstate (expire_key s k)) = 0).
  { unfold expire_key, Fsm.expire_key. cbn [st as_fsm]. pose proof (del_index (sstate s) k) as Hs.
    destruct (del _ _) as [[?|] st']; cbn in Hs; [rewrite as_fsm_emit by (cbn; congruence)|];
      (split; [done|cbn; congruence]). }
  destruct He as [<- Hi']. by apply IH.
Qed.

Lemma as_fsm_publish_put s st' k p :
  applyIndex st' = 0 →
  as_fsm (emitPut (publishSnapshot (with_state s st')) k p) = Fsm.emitPut (with_st (as_fsm s) st') k p.
Proof. intros Hi. by rewrite as_fsm_put. Qed.

Lemma as_fsm_publish_emit s st' typ c p :
  applyIndex st' = 0 →
  as_fsm (emitEvent (publishSnapshot (with_state s st')) typ c p) =
  Fsm.emitEvent (with_st (as_fsm s) st') typ c p.
Proof. intros Hi. by rewrite as_fsm_emit. Qed.

Lemma setIfAbsent_index s k v id : applyIndex (setIfAbsent s k v id).2 = applyIndex s.
Proof.
  unfold setIfAbsent. destruct (entries s !! k); [done|]. pose proof (set_index s k v id) as Hs.
  by destruct (set s k v id) as [[? ?] ?].
Qed.

Lemma cas_index s k x v : applyIndex (cas s k x v).2 = applyIndex s.
Proof.
  unfold cas. case_bool; [done|].
  pose proof (set_index s k v (default "" (leaseID <$> entries s !! k))) as Hs.
  by destruct (set s k v _) as [[? ?] ?].
Qed.

Lemma compareAndDelete_index s k x : applyIndex (compareAndDelete s k x).2 = applyIndex s.
Proof.
  unfold compareAndDelete. destruct (entries s !! k); [|done]. case_bool; [done|]. apply del_index.
Qed.

Lemma removeLease_index s id : applyIndex (removeLease s id).2 = applyIndex s.
Proof. unfold removeLease. by destruct (leases s !! id). Qed.

(** Each write turns the state and the lease manager as its command does, and tells
    the caller the same. *)
Lemma act_command s e c now :
  applyIndex (sstate s) = 0 → command_of e = Some c →
  (reply s e, as_fsm (act s e)) = applyCommand (as_fsm s) now c.
Proof.
  intros Hi Hc. destruct e; try done; cbn in Hc; injection Hc as <-;
    unfold applyCommand; cbn [cOp cKey cLeaseID cValue cExpect];
    repeat (rewrite bool_decide_eq_false_2 by discriminate); rewrite ?bool_decide_eq_true_2 by done;
    cbn [reply act].
  - unfold Set_, apply_set. cbn [st as_fsm]. pose proof (set_index (sstate s) k v "") as Hs.
    destruct (set _ _ _ _) as [[? ?] st']. cbn [fst snd] in *. by rewrite as_fsm_publish_put by congruence.
  - unfold Delete. cbn [st as_fsm]. pose proof (del_index (sstate s) k) as Hs.
    destruct (del _ _) as [[?|] st']; cbn [fst snd] in *; [|done].
    by rewrite as_fsm_publish_emit by congruence.
  - unfold SetIfAbsent, apply_setIfAbsent. cbn [st as_fsm]. pose proof (setIfAbsent_index (sstate s) k v "") as Hs.
    destruct (setIfAbsent _ _ _ _) as [[? []] st']; cbn [fst snd] in *; [|done].
    by rewrite as_fsm_publish_put by congruence.
  - unfold CompareAndSwap. cbn [st as_fsm]. pose proof (cas_index (sstate s) k expect v) as Hs.
    destruct (cas _ _ _ _) as [[? []] st']; cbn [fst snd] in *; [|done].
    by rewrite as_fsm_publish_put by congruence.
  - unfold CompareAndDelete. cbn [st as_fsm]. pose proof (compareAndDelete_index (sstate s) k expect) as Hs.
    destruct (compareAndDelete _ _ _) as [[[] ?] st']; cbn [fst snd] in *; [|done].
    by rewrite as_fsm_publish_emit by congruence.
  - unfold SetWithLease, apply_set. cbn [lm st as_fsm]. destruct (Lease.getHandle _ _); [|done].
    pose proof (set_index (sstate s) k v id) as Hs.
    destruct (set _ _ _ _) as [[? ?] st']. cbn [fst snd] in *. by rewrite as_fsm_publish_put by congruence.
  - unfold SetIfAbsentWithLease, apply_setIfAbsent. cbn [lm st as_fsm]. destruct (Lease.getHandle _ _); [|done].
    pose proof (setIfAbsent_index (sstate s) k v id) as Hs.
    destruct (setIfAbsent _ _ _ _) as [[? []] st']; cbn [fst snd] in *; [|done].
    by rewrite as_fsm_publish_put by congruence.
  - unfold revoke. cbn [st as_fsm]. pose proof (removeLease_index (sstate s) id) as Hs.
    destruct (removeLease _ _) as [ks st']. cbn [snd] in Hs.
    pose proof (as_fsm_expire_keys ks (with_state s st') ltac:(cbn; congruence)) as He.
    change (with_st (as_fsm s) st') with (as_fsm (with_state s st')). by rewrite <- He.
Qed.

(** ** Expiring leases *)

Section invariant.
Context `{XXHash}.

(** Between the pop of the due leases and the removal of the last of them; [rem] are
    the leases still to be removed from the state. *)
Record expiring (rem : list string) (s : Service) : Prop := {
  ex_pub : pub_wf (sstate s);
  ex_kv : kv_wf (sstate s);
  ex_lm : Lease.lm_wf (sleases s);
  ex_known : ∀ id, is_Some (leases (sstate s) !! id) ↔
    is_Some (Lease.entries (sleases s) !! id) ∨ id ∈ rem;
  ex_handles : ∀ id, is_Some (Lease.handles (sleases s) !! id) →
    is_Some (Lease.entries (sleases s) !! id) ∨ id ∈ rem;
  ex_gone : ∀ id, id ∈ rem → Lease.entries (sleases s) !! id = None
}.

(** The parts of the service that expiry leaves alone. *)
Definition untouched (s : Service) := (maps (sstate s), published (sstate s), ssnap s, sname s, leaseSeq s).

Lemma expire_keys_state ks s :
  applyIndex (sstate s) = 0 →
  let s' := foldl expire_key s ks in
  sstate s' = del_keys (sstate s) ks ∧ sleases s' = sleases s ∧ ssnap s' = ssnap s ∧ sname s' = sname s ∧
  leaseSeq s' = leaseSeq s.
Proof.
  intros Hi. pose proof (as_fsm_expire_keys ks s Hi) as He.
  pose proof (Fsm.expire_keys_st ks (as_fsm s)) as [H1 H2]. rewrite <- He in H1, H2. cbn in H1, H2.
  cbv zeta. split_and!; [done|done|..]; clear; revert s; induction ks as [|k ks IH]; intros s; try done;
    cbn [foldl]; rewrite IH; unfold expire_key; by destruct (del _ _) as [[?|] ?].
Qed.

Lemma expire_lease_spec id rem s :
  expiring (id :: rem) s → id ∉ rem → applyIndex (sstate s) = 0 →
  let s' := expire_lease s id in
  expiring rem s' ∧ untouched s' = untouched s ∧ applyIndex (sstate s') = 0 ∧ sver (sstate s') = sver (sstate s) ∧
  (∀ i, Lease.view (sleases s') i = Lease.view (sleases s) i) ∧
  (∀ k, entries (sstate s') !! k =
     match entries (sstate s) !! k with
     | Some e => if decide (leaseID e = id) then None else Some e
     | None => None
     end).
Proof.
  intros [E1 E2 E3 E4 E5 E6] Hnr Hi. unfold expire_lease.
  pose proof (removeLease_spec (sstate s) id E2) as Hr. pose proof (removeLease_index (sstate s) id) as Hri.
  destruct (removeLease (sstate s) id) as [ks st1]. destruct Hr as (K1 & K2 & K3 & K4 & K5). cbn [snd] in Hri.
  destruct (expire_keys_state ks (with_state s st1)) as (S1 & S2 & S3 & S4 & S5); [cbn; congruence|].
  set (s1 := foldl expire_key (with_state s st1) ks) in *. cbn [sstate sleases ssnap sname leaseSeq with_state] in *.
  assert (Hid : id ≠ "").
  { destruct (proj2 (E4 id) ltac:(right; by left)) as [ls Hls]. by destruct (kw_lease _ E2 id ls Hls). }
  assert (Hl1 : ∀ i, is_Some (delete id (leases (sstate s)) !! i) ↔ is_Some (Lease.entries (sleases s) !! i) ∨ i ∈ rem).
  { intros i. rewrite lookup_delete. destruct (decide (id = i)) as [<-|Hne].
    - split; [by intros [? ?]|]. rewrite (E6 id ltac:(by left)). by intros [[? ?]|?].
    - rewrite E4, elem_of_cons. split; [intros [?|[?|?]]; [by left|congruence|by right]|intros [?|?]; tauto]. }
  assert (Hent : ∀ k, entries (sstate s1) !! k =
     match entries (sstate s) !! k with
     | Some e => if decide (leaseID e = id) then None else Some e
     | None => None
     end).
  { intros k. rewrite S1, K5. destruct (entries (sstate s) !! k) as [e|]; [|done].
    destruct (decide (leaseID e = id)) as [Hx|Hx]; [by rewrite decide_True|].
    rewrite decide_False by tauto. done. }
  rewrite S2. destruct (Lease.handles (sleases s) !! id) as [h|] eqn:Eh.
  - destruct (Lease.forget_handle (sleases s) id h E3 (E6 id ltac:(by left)) Eh) as [W V].
    split_and!; cbn [sstate with_manager sleases].
    + split; cbn [sstate with_manager sleases]; rewrite ?S1; try done.
      * by eapply edits_pub_wf.
      * intros i. cbn. rewrite K3. apply Hl1.
      * intros i. cbn. rewrite lookup_delete. destruct (decide (id = i)) as [<-|Hne]; [by intros [? ?]|].
        intros Hx. apply E5 in Hx as [?|[?|?]%elem_of_cons]; [by left|congruence|by right].
      * intros i Hi'. cbn. apply E6. by right.
    + unfold untouched. cbn. rewrite S1, S3, S4, S5. by rewrite (ed_maps _ _ K2), (ed_pub _ _ K2).
    + rewrite S1, (ed_index _ _ K2). done.
    + by rewrite S1.
    + intros i. apply V.
    + done.
  - split_and!.
    + split; rewrite ?S1, ?S2; try done.
      * by eapply edits_pub_wf.
      * intros i. rewrite K3. apply Hl1.
      * intros i Hx. destruct (decide (i = id)) as [->|Hne]; [rewrite Eh in Hx; by destruct Hx|].
        apply E5 in Hx as [?|[?|?]%elem_of_cons]; [by left|congruence|by right].
      * intros i Hi'. apply E6. by right.
    + unfold untouched. rewrite S1, S3, S4, S5. by rewrite (ed_maps _ _ K2), (ed_pub _ _ K2).
    + rewrite S1, (ed_index _ _ K2). done.
    + by rewrite S1.
    + intros i. by rewrite S2.
    + done.
Qed.

Lemma expire_leases_spec ids s :
  NoDup ids → expiring ids s → applyIndex (sstate s) = 0 →
  let s' := foldl expire_lease s ids in
  expiring [] s' ∧ untouched s' = untouched s ∧ applyIndex (sstate s') = 0 ∧ sver (sstate s') = sver (sstate s) ∧
  (∀ i, Lease.view (sleases s') i = Lease.view (sleases s) i) ∧
  (∀ k, entries (sstate s') !! k =
     match entries (sstate s) !! k with
     | Some e => if decide (leaseID e ∈ ids) then None else Some e
     | None => None
     end).
Proof.
  revert s. induction ids as [|id ids IH]; intros s Hnd He Hi; cbn [foldl].
  { split_and!; try done. intros k. by destruct (entries (sstate s) !! k). }
  apply NoDup_cons in Hnd as [Hn Hnd].
  destruct (expire_lease_spec id ids s He Hn Hi) as (A1 & A2 & A3 & A4 & A5 & A6).
  destruct (IH _ Hnd A1 A3) as (B1 & B2 & B3 & B4 & B5 & B6).
  split_and!; [done|congruence|done|congruence| |].
  - intros i. by rewrite B5, A5.
  - intros k. rewrite B6, A6. destruct (entries (sstate s) !! k) as [e|]; [|done].
    destruct (decide (leaseID e = id)) as [Hx|Hx].
    + rewrite decide_True; [done|]. rewrite Hx. by left.
    + destruct (decide (leaseID e ∈ ids)) as [Hy|Hy]; [by rewrite decide_True by (by right)|].
      rewrite decide_False; [done|]. intros [?|?]%elem_of_cons; tauto.
Qed.

(** ** The invariant between turns *)

Record svc_wf (s : Service) : Prop := {
  sw_mid : mid_wf (as_fsm s);
  sw_dirty : sdirty s = false;
  sw_out : soutbox s = [];
  sw_snap : ∃ sn, ssnap s = Some sn ∧ published (sstate s) = Some sn;
  sw_get : ∀ k, Get s k = match entries (sstate s) !! k with Some e => Ok e | None => Err ErrNotFound end;
  sw_index : applyIndex (sstate s) = 0;
  sw_ids : ∀ id, is_Some (leases (sstate s) !! id) → ∃ n, id = lease_name (sname s) n ∧ 0 < n ≤ leaseSeq s;
  sw_seq : 0 ≤ leaseSeq s
}.

(** [s'] shows readers what [s] shows them. *)
Definition quiet (s s' : Service) : Prop :=
  maps (sstate s') = maps (sstate s) ∧ published (sstate s') = published (sstate s) ∧
  entries (sstate s') = entries (sstate s) ∧ soutbox s' = soutbox s ∧ sdirty s' = sdirty s.

(** What an action may do before the flush. *)
Record acts (s s' : Service) : Prop := {
  ac_mid : mid_wf (as_fsm s');
  ac_pub : sdirty s' = true ∨ quiet s s';
  ac_snap : ssnap s' = ssnap s;
  ac_name : sname s' = sname s;
  ac_index : applyIndex (sstate s') = 0;
  ac_ids : ∀ id, is_Some (leases (sstate s') !! id) → ∃ n, id = lease_name (sname s) n ∧ 0 < n ≤ leaseSeq s';
  ac_seq : 0 ≤ leaseSeq s'
}.

(** The flush makes readers current, whether or not the action marked the service. *)
Lemma flush_svc s s' : svc_wf s → acts s s' → svc_wf (flush s').
Proof.
  intros Hs [A1 A2 A3 A4 A5 A6 A7]. unfold flush. destruct (sdirty s') eqn:Ed; cbn [negb].
  - pose proof (snapshot_spec (sstate s') (mw_pub _ A1)) as Hp.
    destruct (snapshot (sstate s')) as [p st']. destruct Hp as (S1 & _ & _ & S4 & S5 & _ & _ & S8 & S9 & S10 & _ & S12).
    destruct A1 as [M1 M2 M3 M4 M5]. cbn in M1, M2, M3, M4, M5.
    split; cbn [sstate sleases sdirty soutbox ssnap sname leaseSeq].
    + split; cbn; rewrite ?S9; try done. by apply (core_kv_wf (sstate s')); [|split].
    + done.
    + done.
    + eauto.
    + intros k. unfold Get. cbn [sstate ssnap]. rewrite S4, S8. done.
    + congruence.
    + intros id. rewrite S9, A4. apply A6.
    + done.
  - destruct A2 as [?|(Q1 & Q2 & Q3 & Q4 & Q5)]; [congruence|].
    destruct Hs as [W1 W2 W3 (sn & W4 & W4') W5 W6 W7 W8]. split; try done; try congruence.
    + exists sn. split; congruence.
    + intros k. unfold Get in *. rewrite A3, Q1, Q3. apply W5.
    + intros id. rewrite A4. apply A6.
Qed.

(** Lease ids do not repeat. *)
Lemma lease_name_inj name n m : 0 ≤ n → 0 ≤ m → lease_name name n = lease_name name m → n = m.
Proof.
  unfold lease_name. intros Hn Hm He. apply (inj (String.append name)) in He.
  apply (inj (String.append "-lease-")) in He. apply (inj pretty) in He. lia.
Qed.

Lemma lease_name_ne name n : lease_name name n ≠ "".
Proof. unfold lease_name. by destruct name. Qed.

(** The fields no write touches. *)
Definition static (s s' : Service) : Prop :=
  ssnap s' = ssnap s ∧ sname s' = sname s ∧ leaseSeq s' = leaseSeq s ∧
  (sdirty s' = true ∨ quiet s s').

Lemma emitPut_fields s k p :
  let s' := emitPut s k p in
  ssnap s' = ssnap s ∧ sname s' = sname s ∧ leaseSeq s' = leaseSeq s ∧ sdirty s' = sdirty s ∧
  sleases s' = sleases s.
Proof. unfold emitPut. by destruct (get _ _). Qed.

Lemma published_put s st' k p :
  let s' := emitPut (publishSnapshot (with_state s st')) k p in
  static s s' ∧ sleases s' = sleases s.
Proof.
  destruct (emitPut_fields (publishSnapshot (with_state s st')) k p) as (A & B & C & D & E).
  cbn in *. split; [|done]. split_and!; [done..|]. by left.
Qed.

Lemma txn_ops_fields ops s :
  let s' := foldl txn_op s ops in
  ssnap s' = ssnap s ∧ sname s' = sname s ∧ leaseSeq s' = leaseSeq s ∧ sleases s' = sleases s.
Proof.
  revert s. induction ops as [|op ops IH]; intros s; [done|]. cbn [foldl].
  assert (Ho : let s' := txn_op s op in
    ssnap s' = ssnap s ∧ sname s' = sname s ∧ leaseSeq s' = leaseSeq s ∧ sleases s' = sleases s).
  { unfold txn_op. destruct (bool_decide (oKind op = TxnPut)).
    - destruct (set _ _ _ _) as [[? ?] st']. unfold emitPut. by destruct (get _ _).
    - destruct (bool_decide _); [|done]. by destruct (del _ _) as [[?|] ?]. }
  destruct Ho as (A & B & C & D), (IH (txn_op s op)) as (A' & B' & C' & D'). cbv zeta.
  split_and!; congruence.
Qed.

Lemma quiet_same s : static s (with_state s (sstate s)) ∧ sleases (with_state s (sstate s)) = sleases s.
Proof. split; [|done]. split_and!; [done..|]. by right. Qed.

Lemma act_static s e c :
  command_of e = Some c →
  applyIndex (sstate s) = 0 →
  static s (act s e) ∧
  (sleases (act s e) = sleases s ∨ ∃ id, sleases (act s e) = (Lease.revoke (sleases s) id).2).
Proof.
  intros Hc Hi. destruct e; try done; cbn [act]; clear Hc.
  - unfold Set_. destruct (set _ _ _ _) as [[? ?] st']. destruct (published_put s st' k o). tauto.
  - unfold Delete, del. destruct (entries (sstate s) !! k); [|destruct (quiet_same s); tauto].
    cbn [snd]. split; [|by left]. split_and!; [done..|by left].
  - unfold SetIfAbsent, setIfAbsent. destruct (entries (sstate s) !! k); [destruct (quiet_same s); tauto|].
    destruct (set _ _ _ _) as [[? ?] st']. destruct (published_put s st' k None). tauto.
  - unfold CompareAndSwap, cas. destruct (bool_decide _); [destruct (quiet_same s); tauto|].
    destruct (set _ _ _ _) as [[? ?] st']. destruct (published_put s st' k (get (sstate s) k)). tauto.
  - unfold CompareAndDelete, compareAndDelete.
    destruct (entries (sstate s) !! k); [|destruct (quiet_same s); tauto].
    destruct (bool_decide _); [destruct (quiet_same s); tauto|]. cbn [snd].
    split; [|by left]. split_and!; [done..|by left].
  - unfold SetWithLease. destruct (Lease.getHandle _ _); [|split; [|by left]; split_and!; [done..|by right]].
    destruct (set _ _ _ _) as [[? ?] st']. destruct (published_put s st' k o). tauto.
  - unfold SetIfAbsentWithLease, setIfAbsent.
    destruct (Lease.getHandle _ _); [|split; [|by left]; split_and!; [done..|by right]].
    destruct (entries (sstate s) !! k); [destruct (quiet_same s); tauto|].
    destruct (set _ _ _ _) as [[? ?] st']. destruct (published_put s st' k None). tauto.
  - unfold revoke. pose proof (removeLease_index (sstate s) id) as Hs.
    destruct (removeLease _ _) as [ks st']. cbn [snd] in Hs.
    destruct (expire_keys_state ks (with_state s st') ltac:(cbn; congruence)) as (S1 & S2 & S3 & S4 & S5).
    split; [split_and!; [done..|by left]|]. right. exists id. cbn [sleases publishSnapshot with_manager].
    by rewrite S2.
Qed.

(** The bounds under which a turn does not overflow a counter. *)
Definition event_ok (s : Service) (e : event) : Prop :=
  match e with
  | ETxn ops => sver (sstate s) + Z.of_nat (length ops) < 2 ^ 64
  | EGrantLease _ _ _ => leaseSeq s + 1 < 2 ^ 64
  | _ => sver (sstate s) + 1 < 2 ^ 64
  end.

(** A mutation that adds no lease keeps the lease ids in range. *)
Lemma acts_intro s s' :
  svc_wf s → good (as_fsm s) (as_fsm s') → static s s' → applyIndex (sstate s') = 0 →
  (∀ id, is_Some (Lease.entries (sleases s') !! id) → is_Some (Lease.entries (sleases s) !! id)) →
  acts s s'.
Proof.
  intros Hs (Hm & _ & _) (A & B & C & D) Hi Hd. split; try done; [|rewrite C; apply Hs].
  intros id Hid. rewrite C. apply (sw_ids _ Hs). apply (mw_known _ (sw_mid _ Hs) id), Hd, (mw_known _ Hm id), Hid.
Qed.

Lemma del_keys_index ks s : applyIndex (del_keys s ks) = applyIndex s.
Proof.
  revert s. induction ks as [|k ks IH]; intros s; [done|]. cbn [del_keys foldl].
  etransitivity; [apply IH|apply del_index].
Qed.

Lemma applyCommand_index f now c : applyIndex (st (applyCommand f now c).2) = applyIndex (st f).
Proof.
  assert (Hset : ∀ v id, applyIndex (st (apply_set f (cKey c) v id).2) = applyIndex (st f)).
  { intros v id. unfold apply_set. pose proof (set_index (st f) (cKey c) v id).
    destruct (set _ _ _ _) as [[? ?] ?]. cbn [snd] in *. by rewrite emitPut_st. }
  assert (Hsia : ∀ v id, applyIndex (st (apply_setIfAbsent f (cKey c) v id).2) = applyIndex (st f)).
  { intros v id. unfold apply_setIfAbsent. pose proof (setIfAbsent_index (st f) (cKey c) v id).
    destruct (setIfAbsent _ _ _ _) as [[? []] ?]; cbn [snd] in *; by rewrite ?emitPut_st. }
  unfold applyCommand.
  destruct (bool_decide (cOp c = opSet)); [apply Hset|].
  destruct (bool_decide (cOp c = opDelete)).
  { pose proof (del_index (st f) (cKey c)). by destruct (del _ _) as [[?|] ?]. }
  destruct (bool_decide (cOp c = opCAS)).
  { pose proof (cas_index (st f) (cKey c) (cExpect c) (cValue c)).
    destruct (cas _ _ _ _) as [[? []] ?]; cbn [snd] in *; by rewrite ?emitPut_st. }
  destruct (bool_decide (cOp c = opSetIfAbsent)); [apply Hsia|].
  destruct (bool_decide (cOp c = opCompareAndDelete)).
  { pose proof (compareAndDelete_index (st f) (cKey c) (cExpect c)).
    by destruct (compareAndDelete _ _ _) as [[[] ?] ?]. }
  destruct (bool_decide (cOp c = opSetWithLease)); [by destruct (Lease.getHandle _ _); [apply Hset|]|].
  destruct (bool_decide (cOp c = opSetIfAbsentWithLease)); [by destruct (Lease.getHandle _ _); [apply Hsia|]|].
  destruct (bool_decide (cOp c = opLeaseGrant)); [done|].
  destruct (bool_decide (cOp c = opLeaseRenew)); [by destruct (Lease.renew _ _ _) as [[] ?]|].
  destruct (bool_decide (cOp c = opLeaseRevoke)); [|done].
  pose proof (removeLease_index (st f) (cLeaseID c)) as Hr. destruct (removeLease _ _) as [ks st']. cbn [snd] in *.
  destruct (Fsm.expire_keys_st ks (with_st f st')) as [E _]. cbn [st with_lm]. rewrite E.
  cbn [st with_st]. by rewrite del_keys_index.
Qed.

(** Commands, transactions, grants, renewals and expiry. *)
Lemma acts_command s e c :
  svc_wf s → command_of e = Some c → sver (sstate s) + 1 < 2 ^ 64 → acts s (act s e).
Proof.
  intros Hs Hc Hv. pose proof (sw_index _ Hs) as Hi.
  pose proof (act_command s e c 0 Hi Hc) as He. destruct (act_static s e c Hc Hi) as [H1 H2].
  apply acts_intro; [done| |done| |].
  - replace (as_fsm (act s e)) with (applyCommand (as_fsm s) 0 c).2 by (by rewrite <- He).
    apply good_command; [apply Hs|done|]. intros Hop. exfalso. destruct e; cbn in Hc; simplify_eq; discriminate.
  - change (applyIndex (st (as_fsm (act s e))) = 0).
    replace (as_fsm (act s e)) with (applyCommand (as_fsm s) 0 c).2 by (by rewrite <- He).
    by rewrite applyCommand_index.
  - intros id. destruct H2 as [->|[i ->]]; [done|].
    rewrite (proj1 (revoke_domains (sleases s) i id (mw_lm _ (sw_mid _ Hs)))). by intros [_ ?].
Qed.

Lemma acts_txn s ops :
  svc_wf s → sver (sstate s) + Z.of_nat (length ops) < 2 ^ 64 → acts s (Txn s ops).2.
Proof.
  intros Hs Hv. pose proof (sw_index _ Hs) as Hi. unfold Txn. destruct (forallb _ _); cbn [snd].
  - pose proof (as_fsm_txn ops s Hi) as He. destruct (txn_ops_fields ops s) as (A & B & C & D).
    destruct (apply_ops_effect ops (as_fsm s) (sw_mid _ Hs) Hv) as (Hg & _ & Hx & _).
    rewrite <- He in Hg, Hx. cbn in Hx. apply acts_intro; [done|done| |cbn; congruence|cbn; by rewrite D].
    split_and!; [done..|by left].
  - apply acts_intro; [done|by apply good_refl, Hs|by split_and!; [..|right]|done|done].
Qed.

Lemma acts_grant s ttl now now' :
  svc_wf s → leaseSeq s + 1 < 2 ^ 64 → acts s (GrantLease s ttl now now').2.
Proof.
  intros Hs Hv. pose proof (sw_seq _ Hs) as Hq. unfold GrantLease. rewrite u64_small by (unfold is_u64; lia).
  set (id := lease_name _ _).
  assert (Hn : leases (st (as_fsm s)) !! id = None).
  { apply eq_None_not_Some. intros Hx. apply (sw_ids _ Hs) in Hx as (n & Hn & Hr).
    apply lease_name_inj in Hn; lia. }
  pose proof (good_grant (as_fsm s) id (Z.quot ttl 1000000) ((now + ttl) / 1000000) ttl now'
    (sw_mid _ Hs) (lease_name_ne _ _) Hn) as (Hm & _).
  split; cbn; try done; [by right|apply Hs| |lia].
  intros i Hx. destruct (decide (i = id)) as [->|Hne]; [exists (leaseSeq s + 1); split; [done|lia]|].
  rewrite lookup_insert_ne in Hx by done. destruct (sw_ids _ Hs i Hx) as (n & ? & ?). exists n. split; [done|lia].
Qed.

Lemma acts_keepAlive s id now : svc_wf s → acts s (keepAlive s id now).2.
Proof.
  intros Hs. unfold keepAlive. pose proof (sw_mid _ Hs) as [M1 M2 M3 M4 M5].
  pose proof (Lease.renew_spec (sleases s) id now M3) as Hr.
  pose proof (renew_domains (sleases s) id now) as Hd. destruct (Lease.renew _ _ _) as [ok m]. cbn [snd] in *.
  assert (Hm : mid_wf (as_fsm (with_manager s m))).
  { split; cbn in *; try done; [apply Hr|intros i; by rewrite (proj1 (Hd i))|].
    intros i. rewrite (proj1 (Hd i)), (proj2 (Hd i)). apply M5. }
  apply acts_intro; [done|split_and!; [done|done|by apply evolves_preorder]| |apply Hs|].
  - split_and!; [done..|by right].
  - intros i. cbn. by rewrite (proj1 (Hd i)).
Qed.

Lemma view_indexed m id : Lease.lm_wf m → is_Some (Lease.view m id) ↔ is_Some (Lease.entries m !! id).
Proof.
  intros Hm. pose proof (Lease.view_None m id Hm) as Hv. rewrite <- !not_eq_None_Some. tauto.
Qed.

(** A lease is due at [now]. *)
Definition due_at (s : Service) (now : Z) (id : string) : Prop :=
  ∃ d t, Lease.view (sleases s) id = Some (d, t) ∧ d ≤ now.

#[export] Instance due_at_dec s now id : Decision (due_at s now id).
Proof.
  destruct (Lease.view (sleases s) id) as [[d t]|] eqn:E.
  - destruct (decide (d ≤ now)); [left; by exists d, t|right]. intros (d' & t' & Hv & ?). by simplify_eq.
  - right. intros (d' & t' & Hv & ?). congruence.
Defined.

Lemma processExpired_spec s now :
  svc_wf s →
  let s' := processExpiredLeases s now in
  acts s s' ∧
  (∀ k, entries (sstate s') !! k =
     match entries (sstate s) !! k with
     | Some e => if decide (due_at s now (leaseID e)) then None else Some e
     | None => None
     end) ∧
  (∀ id, Lease.view (sleases s') id =
     if decide (due_at s now id) then None else Lease.view (sleases s) id).
Proof.
  intros Hs. pose proof Hs as [[M1 M2 M3 M4 M5] _ _ _ _ Hi Hids Hseq]. cbn in M1, M2, M3, M4, M5.
  unfold processExpiredLeases, Lease.expired.
  destruct (Lease.expired_loop_spec _ (sleases s) now [] M3 (le_n _)) as (ids & m' & -> & Hm' & Hd & Hh & _ & Hv).
  cbn [app]. destruct Hd as (Hnd & Hin & _).
  assert (Hdue : ∀ id, id ∈ ids ↔ due_at s now id) by (intros id; rewrite Hin; done).
  assert (He : expiring ids (with_manager s m')).
  { assert (Hm : ∀ id, is_Some (leases (sstate s) !! id) ↔ is_Some (Lease.entries m' !! id) ∨ id ∈ ids).
    { intros id. rewrite M4, <- (view_indexed _ id M3), <- (view_indexed _ id Hm'), Hv.
      destruct (decide (id ∈ ids)) as [Hx|Hx].
      - split; [by right|]. intros _. apply Hin in Hx as (d & t & -> & _). by eexists.
      - split; [by left|]. by intros [?|?]. }
    split; cbn; try done.
    - intros id Hx. rewrite Hh in Hx. apply Hm, M4, M5, Hx.
    - intros id Hx. apply Lease.view_None; [done|]. rewrite Hv. by rewrite decide_True. }
  destruct (expire_leases_spec ids (with_manager s m') Hnd He Hi) as (A1 & A2 & A3 & A4 & A5 & A6).
  set (s1 := foldl expire_lease (with_manager s m') ids) in *.
  assert (Hs' : match ids with [] => with_manager s m' | _ => publishSnapshot s1 end =
                if decide (ids = []) then with_manager s m' else publishSnapshot s1) by (by destruct ids).
  rewrite Hs'. unfold untouched in A2. cbn in A2. injection A2 as F1 F2 F3 F4 F5.
  assert (Hmid : mid_wf (as_fsm s1)).
  { destruct A1 as [E1 E2 E3 E4 E5 E6]. split; cbn; try done.
    - intros id. rewrite E4, elem_of_nil. tauto.
    - intros id Hx. apply E5 in Hx as [?|?%elem_of_nil]; done. }
  assert (Hld : ∀ id, is_Some (leases (sstate s1) !! id) → is_Some (leases (sstate s) !! id)).
  { intros id Hx. apply (mw_known _ Hmid id), (view_indexed _ id (mw_lm _ Hmid)) in Hx. cbn in Hx.
    rewrite A5 in Hx. cbn in Hx. rewrite Hv in Hx. apply M4, (view_indexed _ id M3).
    by destruct (decide (id ∈ ids)); [destruct Hx|]. }
  assert (Hacts : acts s (if decide (ids = []) then with_manager s m' else publishSnapshot s1)).
  { destruct (decide (ids = [])) as [->|Hne].
    - split; cbn; try done. by right.
    - split; cbn; try done; [by left|intros id Hx; rewrite F5; by apply Hids, Hld|by rewrite F5]. }
  split_and!; [done| |].
  - intros k. transitivity (entries (sstate s1) !! k); [by destruct (decide (ids = [])) as [->|]|].
    rewrite A6. cbn. destruct (entries (sstate s) !! k) as [e|]; [|done].
    destruct (decide (leaseID e ∈ ids)) as [Hx|Hx].
    + by rewrite decide_True by (by apply Hdue).
    + by rewrite decide_False by (by rewrite <- Hdue).
  - intros id. transitivity (Lease.view (sleases s1) id); [by destruct (decide (ids = [])) as [->|]|].
    rewrite A5. cbn. rewrite Hv. destruct (decide (id ∈ ids)) as [Hx|Hx].
    + by rewrite decide_True by (by apply Hdue).
    + by rewrite decide_False by (by rewrite <- Hdue).
Qed.

Lemma Start_wf name : svc_wf (Start name).
Proof.
  unfold Start. assert (Hp : pub_wf newState) by done.
  pose proof (snapshot_spec newState Hp) as Hs. destruct (snapshot newState) as [p st'].
  destruct Hs as (S1 & _ & _ & S4 & S5 & _ & _ & S8 & S9 & S10 & _ & S12).
  split; cbn; try done; [|eauto| |].
  - split; cbn; [done|by apply (core_kv_wf newState); [apply newState_wf|split]|
                 apply Lease.newLeaseManager_wf| |].
    + intros id. rewrite S9. cbn. by rewrite !lookup_empty.
    + intros id. rewrite lookup_empty. by intros [? ?].
  - intros k. unfold Get. cbn. rewrite S4, S8. done.
  - intros id. rewrite S9. cbn. rewrite lookup_empty. by intros [? ?].
Qed.

Lemma turn_acts s e : svc_wf s → event_ok s e → acts s (act s e).
Proof.
  intros Hs He. destruct (command_of e) as [c|] eqn:Ec.
  - apply (acts_command s e c); [done|done|]. by destruct e.
  - destruct e; try done; cbn [act].
    + by apply acts_txn.
    + by apply acts_grant.
    + by apply acts_keepAlive.
    + by apply processExpired_spec.
Qed.

(** A run of the event loop. *)
Inductive svc_run : Service → Service → Prop :=
| run_start s : svc_run s s
| run_turn s s' e : svc_run s s' → event_ok s' e → svc_run s (turn s' e).

Lemma run_wf s s' : svc_run s s' → svc_wf s → svc_wf s'.
Proof.
  intros Hr Hs. induction Hr as [|s s' e Hr IH He]; [done|].
  apply (flush_svc s'); [by apply IH|]. apply turn_acts; [by apply IH|done].
Qed.

(** The service never shows stale or torn data: after every turn of its event
    loop (any interleaving of writes, transactions, lease grants, renewals,
    revocations and timer ticks) a lock-free read returns exactly the current entry,
    although an action that changes no entry publishes nothing; nothing is left
    pending, every entry's lease is live, and lease ids never repeat. *)
Theorem service_reads_current name s :
  svc_run (Start name) s →
  (∀ k, Get s k = match entries (sstate s) !! k with Some e => Ok e | None => Err ErrNotFound end) ∧
  kv_wf (sstate s) ∧ soutbox s = [] ∧
  (∀ k e, Get s k = Ok e → leaseID e ≠ "" → is_Some (Lease.view (sleases s) (leaseID e))) ∧
  (∀ ttl now now', leaseSeq s + 1 < 2 ^ 64 →
     leases (sstate s) !! (GrantLease s ttl now now').1 = None).
Proof.
  intros Hr. pose proof (run_wf _ _ Hr (Start_wf name)) as Hs. pose proof (sw_mid _ Hs) as [M1 M2 M3 M4 M5].
  cbn in M2, M3, M4. split_and!; [apply Hs|done|apply Hs| |].
  - intros k e. rewrite (sw_get _ Hs). destruct (entries (sstate s) !! k) as [e'|] eqn:Ek; [|done].
    intros [= ->] Hne. apply (view_indexed _ _ M3), M4. by eapply (kw_bound _ M2).
  - intros ttl now now' Hv. pose proof (sw_seq _ Hs). unfold GrantLease. cbn [fst].
    rewrite u64_small by (unfold is_u64; lia). apply eq_None_not_Some. intros Hx.
    apply (sw_ids _ Hs) in Hx as (n & Hn & Hr'). apply lease_name_inj in Hn; lia.
Qed.

(** A timer turn expires leases precisely: afterwards every key bound to a lease
    whose deadline has passed is gone, every other read is unchanged, the due leases
    are gone from the lease manager and the others keep their deadlines. *)
Theorem timer_expires_due name s now :
  svc_run (Start name) s →
  let s' := turn s (ETimer now) in
  (∀ k, Get s' k =
     match Get s k with
     | Ok e => if decide (due_at s now (leaseID e)) then Err ErrNotFound else Ok e
     | Err x => Err x
     end) ∧
  (∀ id, Lease.view (sleases s') id =
     if decide (due_at s now id) then None else Lease.view (sleases s) id).
Proof.
  intros Hr. pose proof (run_wf _ _ Hr (Start_wf name)) as Hs.
  destruct (processExpired_spec s now Hs) as (Ha & He & Hv). cbv zeta in *.
  pose proof (flush_svc s _ Hs Ha) as Hs'. unfold turn. cbn [act].
  assert (Hent : entries (sstate (flush (processExpiredLeases s now))) = entries (sstate (processExpiredLeases s now))
     ∧ sleases (flush (processExpiredLeases s now)) = sleases (processExpiredLeases s now)).
  { unfold flush. destruct (sdirty _); [|done]. cbn [negb].
    pose proof (snapshot_spec _ (mw_pub _ (ac_mid _ _ Ha))) as Hp. cbn [st as_fsm] in Hp.
    destruct (snapshot _) as [p st']. split; [apply Hp|done]. }
  destruct Hent as [E1 E2]. split.
  - intros k. rewrite (sw_get _ Hs'), (sw_get _ Hs), E1, He. destruct (entries (sstate s) !! k) as [e|]; [|done].
    by destruct (decide _).
  - intros id. by rewrite E2, Hv.
Qed.

(** The standalone service refines the replicated state machine: every write the
    two backends share turns the entries, the leases, the lease manager and the
    pending watch events exactly as the corresponding command does, and reports the
    same version, success flag or error to its caller; transactions likewise. *)
Theorem service_refines_fsm name s e c ops now :
  svc_run (Start name) s → command_of e = Some c →
  (reply s e, as_fsm (act s e)) = applyCommand (as_fsm s) now c ∧
  (reply s (ETxn ops), as_fsm (act s (ETxn ops))) = applyTxn (as_fsm s) ops.
Proof.
  intros Hr Hc. pose proof (run_wf _ _ Hr (Start_wf name)) as Hs. pose proof (sw_index _ Hs) as Hi.
  split; [by apply act_command|]. cbn [reply act]. unfold Txn, applyTxn. cbn [st as_fsm].
  destruct (forallb _ _); [|done]. cbn [fst snd]. f_equal. by rewrite <- as_fsm_txn.
Qed.
End invariant.

#[local] Existing Instance zero_hash.

(** A lease of 1000 ns and a key bound to it. *)
Definition demo_svc : Service :=
  turn (turn (Start "n") (EGrantLease 1000 0 0)) (ESetWithLease "k" (bytes_of "v") "n-lease-1").

Lemma demo_svc_run : svc_run (Start "n") demo_svc.
Proof. apply run_turn; [apply run_turn; [apply run_start|]|]; vm_compute; reflexivity. Qed.

Lemma service_reads_current_witness :
  kv_wf (sstate demo_svc) ∧ Get demo_svc "k" = Ok (mkEnt "k" "n-lease-1" (bytes_of "v") 1 0).
Proof.
  destruct (service_reads_current "n" demo_svc demo_svc_run) as (H1 & H2 & _).
  split; [exact H2|]. rewrite H1. vm_compute. reflexivity.
Defined.

Lemma timer_expires_due_witness : Get (turn demo_svc (ETimer 1000)) "k" = Err ErrNotFound.
Proof.
  destruct (timer_expires_due "n" demo_svc 1000 demo_svc_run) as [H1 _]. rewrite H1. vm_compute. reflexivity.
Defined.

Lemma service_refines_fsm_witness :
  reply demo_svc (ECompareAndSwap "k" 1 (bytes_of "w")) = mkRes None 2 true.
Proof.
  pose proof (proj1 (service_refines_fsm "n" demo_svc (ECompareAndSwap "k" 1 (bytes_of "w"))
    (mkCmd "k" "" (bytes_of "w") 1 0 0 opCAS) [] 0 demo_svc_run eq_refl)) as Hr.
  apply (f_equal fst) in Hr. cbn [fst] in Hr. rewrite Hr. vm_compute. reflexivity.
Defined.
End Svc.
