(* ===== verification/KvEngine.v ===== *)
(** * Leases of the raft engine ([system/kv/raft_engine.go])

    [RaftEngine] proposes writes through raft and, on the leader, expires leases: it
    keeps a table of deadlines, fills it from the replicated leases at every tick and
    proposes a revocation for each deadline that has passed. A proposal that raft
    accepts is applied to the leader's state machine at the next index; which
    proposals are accepted is the argument [accept] (leadership can be lost at any
    time). Times are nanoseconds since the epoch; the replicated deadline of a lease
    is in milliseconds.

    The theorems: a tick of the leader removes exactly the leases whose scheduled
    deadline has passed, with their keys; and no lease is revoked before its
    replicated deadline as long as every grant and renewal went through this node. *)

From stdpp Require Import pretty.
From S2P Require Import Prelude Bytes Crdt KvLease KvState KvCodec KvFsm KvService.

Module Raft.
Import Kv Codec Fsm.

Record RaftEngine := mkEng {
  fsm : RaftFSM; (* the local replica *)
  deadlines : gmap string Z;
  leaseSeq : Z;
  localNode : string
}.

Definition with_fsm (e : RaftEngine) f : RaftEngine := mkEng f (deadlines e) (leaseSeq e) (localNode e).

Definition unixMilli (t : Z) : Z := t / 1000000.
Definition fromMilli (ms : Z) : Z := ms * 1000000.

Section engine.
Context `{XXHash}.
(** Whether raft commits a proposal. *)
Variable accept : command → bool.

(** [propose]: [None] is a proposal raft did not accept. *)
Definition propose (e : RaftEngine) (c : command) (now : Z) : option applyResult * RaftEngine :=
  if accept c then
    let '(r, f) := Apply (fsm e) (applyIndex (st (fsm e)) + 1) (encodeCommand c) now in
    (Some r, with_fsm e f)
  else (None, e).

(** The caller's error: not accepted, or the error of the state machine. *)
Definition failed (r : option applyResult) : bool :=
  match r with Some r => bool_decide (is_Some (rErr r)) | None => true end.

Definition trackLease (e : RaftEngine) (id : string) (deadline : Z) : RaftEngine :=
  mkEng (fsm e) (<[id := deadline]> (deadlines e)) (leaseSeq e) (localNode e).

Definition forgetLease (e : RaftEngine) (id : string) : RaftEngine :=
  mkEng (fsm e) (delete id (deadlines e)) (leaseSeq e) (localNode e).

Definition GrantLease (e : RaftEngine) (ttl now : Z) : option string * RaftEngine :=
  let seq := u64 (leaseSeq e + 1) in
  let e := mkEng (fsm e) (deadlines e) seq (localNode e) in
  let id := Svc.lease_name (localNode e) seq in
  let '(r, e) := propose e (mkCmd "" id [] 0 (Z.quot ttl 1000000) (unixMilli (now + ttl)) opLeaseGrant) now in
  if failed r then (None, e) else (Some id, trackLease e id (now + ttl)).

(** The handle's [KeepAlive] and [Revoke]. *)
Definition keepAlive (e : RaftEngine) (id : string) (ttl now : Z) : bool * RaftEngine :=
  let '(r, e) := propose e (mkCmd "" id [] 0 (Z.quot ttl 1000000) (unixMilli (now + ttl)) opLeaseRenew) now in
  if failed r then (false, e) else (true, trackLease e id (now + ttl)).

Definition revoke_cmd (id : string) : command := mkCmd "" id [] 0 0 0 opLeaseRevoke.

Definition revoke (e : RaftEngine) (id : string) (now : Z) : bool * RaftEngine :=
  let '(r, e) := propose e (revoke_cmd id) now in (negb (failed r), forgetLease e id).

Definition rearmFromState (e : RaftEngine) : RaftEngine :=
  mkEng (fsm e) (deadlines e ∪ (fromMilli <$> leaseSnapshot (fsm e))) (leaseSeq e) (localNode e).

Definition sweep_one (now : Z) (e : RaftEngine) (id : string) : RaftEngine :=
  let '(r, e) := propose e (revoke_cmd id) now in
  if failed r then e else forgetLease e id.

Definition sweepExpired (e : RaftEngine) (now : Z) : RaftEngine :=
  let expired := (filter (λ p, p.2 ≤ now) (map_to_list (deadlines e))).*1 in
  foldl (sweep_one now) e expired.

(** One tick of [leaseSweeper]. *)
Definition tick (isLeader : bool) (e : RaftEngine) (now : Z) : RaftEngine :=
  if isLeader then sweepExpired (rearmFromState e) now else e.
End engine.

(** ** Replicated deadlines *)

Lemma snapshot_set s k v id i : expiresAtMs <$> leases (set s k v id).2 !! i = expiresAtMs <$> leases s !! i.
Proof.
  pose proof (set_spec s k v id) as Hs. destruct (set s k v id) as [[? ?] s'].
  destruct Hs as (_ & _ & _ & _ & _ & _ & Hl). cbn [snd]. rewrite Hl. by destruct (leases s !! i).
Qed.

Lemma snapshot_del s k i : expiresAtMs <$> leases (del s k).2 !! i = expiresAtMs <$> leases s !! i.
Proof.
  pose proof (del_spec s k) as Hs. destruct (del s k) as [? s'].
  destruct Hs as (_ & _ & _ & _ & Hl). cbn [snd]. rewrite Hl. by destruct (leases s !! i).
Qed.

Lemma snapshot_del_keys ks s i :
  expiresAtMs <$> leases (del_keys s ks) !! i = expiresAtMs <$> leases s !! i.
Proof.
  revert s. induction ks as [|k ks IH]; intros s; [done|]. cbn [del_keys foldl].
  etransitivity; [apply IH|apply snapshot_del].
Qed.

Lemma snapshot_setIfAbsent s k v id i :
  expiresAtMs <$> leases (setIfAbsent s k v id).2 !! i = expiresAtMs <$> leases s !! i.
Proof.
  unfold setIfAbsent. destruct (entries s !! k); [done|]. pose proof (snapshot_set s k v id i) as Hs.
  by destruct (set s k v id) as [[? ?] ?].
Qed.

(** The effect of a command on the replicated deadline of lease [i]. *)
Definition next_deadline (c : command) (i : string) (d : option Z) : option Z :=
  if decide (cOp c = opLeaseGrant ∧ i = cLeaseID c) then Some (cExpiresAtMs c)
  else if decide (cOp c = opLeaseRenew ∧ i = cLeaseID c) then (λ _, cExpiresAtMs c) <$> d
  else if decide (cOp c = opLeaseRevoke ∧ i = cLeaseID c) then None
  else d.

Ltac other_op := unfold next_deadline;
  repeat (rewrite decide_False; [|intros [Hx _]; vm_compute in Hx; discriminate]).

Lemma command_deadlines `{XXHash} f now c i :
  mid_wf f →
  leaseSnapshot (applyCommand f now c).2 !! i = next_deadline c i (leaseSnapshot f !! i).
Proof.
  intros Hf. unfold leaseSnapshot. rewrite !lookup_fmap.
  assert (Hset : ∀ v id, expiresAtMs <$> leases (st (apply_set f (cKey c) v id).2) !! i =
                         expiresAtMs <$> leases (st f) !! i).
  { intros v id. unfold apply_set. pose proof (snapshot_set (st f) (cKey c) v id i).
    destruct (set _ _ _ _) as [[? ?] ?]. cbn [snd] in *. by rewrite emitPut_st. }
  assert (Hsia : ∀ v id, expiresAtMs <$> leases (st (apply_setIfAbsent f (cKey c) v id).2) !! i =
                         expiresAtMs <$> leases (st f) !! i).
  { intros v id. unfold apply_setIfAbsent. pose proof (snapshot_setIfAbsent (st f) (cKey c) v id i).
    destruct (setIfAbsent _ _ _ _) as [[? []] ?]; cbn [snd] in *; by rewrite ?emitPut_st. }
  unfold applyCommand, next_deadline.
  destruct (bool_decide_reflect (cOp c = opSet)) as [->|?]; [other_op; apply Hset|].
  destruct (bool_decide_reflect (cOp c = opDelete)) as [->|?].
  { other_op. pose proof (snapshot_del (st f) (cKey c) i). by destruct (del _ _) as [[?|] ?]. }
  destruct (bool_decide_reflect (cOp c = opCAS)) as [->|?].
  { other_op. unfold cas. case_bool; [done|].
    pose proof (snapshot_set (st f) (cKey c) (cValue c) (default "" (leaseID <$> entries (st f) !! cKey c)) i).
    destruct (set _ _ _ _) as [[? ?] ?]. cbn [snd] in *. by rewrite emitPut_st. }
  destruct (bool_decide_reflect (cOp c = opSetIfAbsent)) as [->|?]; [other_op; apply Hsia|].
  destruct (bool_decide_reflect (cOp c = opCompareAndDelete)) as [->|?].
  { other_op. unfold compareAndDelete. destruct (entries (st f) !! cKey c); [|done].
    case_bool; [done|]. apply snapshot_del. }
  destruct (bool_decide_reflect (cOp c = opSetWithLease)) as [->|?].
  { other_op. by destruct (Lease.getHandle _ _); [apply Hset|]. }
  destruct (bool_decide_reflect (cOp c = opSetIfAbsentWithLease)) as [->|?].
  { other_op. by destruct (Lease.getHandle _ _); [apply Hsia|]. }
  destruct (bool_decide_reflect (cOp c = opLeaseGrant)) as [->|?].
  { cbn. rewrite lookup_insert. destruct (decide (cLeaseID c = i)) as [<-|Hne].
    - by rewrite decide_True.
    - rewrite decide_False by naive_solver. other_op. done. }
  rewrite decide_False by tauto.
  destruct (bool_decide_reflect (cOp c = opLeaseRenew)) as [Ho|?].
  { pose proof (renew_known f (cLeaseID c) now Hf) as Hk. destruct (Lease.renew _ _ _) as [ok m]. cbn [fst] in Hk.
    destruct (decide (cOp c = opLeaseRenew ∧ i = cLeaseID c)) as [[_ ->]|Hne].
    - destruct ok; cbn; [rewrite lookup_alter_eq; by destruct (leases (st f) !! cLeaseID c)|].
      destruct (leases (st f) !! cLeaseID c); [|done]. symmetry in Hk. apply bool_decide_eq_false in Hk. by destruct Hk.
    - rewrite decide_False by (rewrite Ho; intros [Hx _]; vm_compute in Hx; discriminate).
      destruct ok; [|done]. cbn. rewrite lookup_alter_ne; [done|]. intros <-. by apply Hne. }
  rewrite decide_False by tauto.
  destruct (bool_decide_reflect (cOp c = opLeaseRevoke)) as [Ho|?].
  2:{ by rewrite decide_False by tauto. }
  pose proof (removeLease_spec (st f) (cLeaseID c) (mw_kv _ Hf)) as Hr.
  destruct (removeLease _ _) as [ks st']. destruct Hr as (_ & _ & Hl & _ & _).
  destruct (Fsm.expire_keys_st ks (with_st f st')) as [E _]. cbn [st with_lm snd]. rewrite E.
  cbn [st with_st]. rewrite Hl, lookup_delete.
  destruct (decide (cLeaseID c = i)) as [<-|Hne]; [by rewrite decide_True|by rewrite decide_False by naive_solver].
Qed.

(** ** The sweep *)

Section sweep.
Context `{XXHash} (accept : command → bool).

Lemma applyCommand_revoke f now id :
  applyCommand f now (revoke_cmd id) =
  let '(keys, s) := removeLease (st f) id in
  let f := foldl expire_key (with_st f s) keys in
  (mkRes None 0 true, with_lm f (Lease.revoke (lm f) id).2).
Proof. done. Qed.

(** The entries without those of lease [id]. *)
Definition without (id : string) (e : option entry) : option entry :=
  match e with
  | Some en => if decide (leaseID en = id ∧ id ≠ "") then None else Some en
  | None => None
  end.

Lemma Apply_revoke f id now :
  fsm_wf f → blen (bytes_of id) < 2 ^ 32 →
  let '(r, g) := Apply f (applyIndex (st f) + 1) (encodeCommand (revoke_cmd id)) now in
  rErr r = None ∧ fsm_wf g ∧ leases (st g) = delete id (leases (st f)) ∧
  ∀ k, read g k = without id (read f k).
Proof.
  intros Hf Hid. rewrite Apply_command_eq; [|by split_and!|done].
  set (f' := with_st f (with_applyIndex (st f) (applyIndex (st f) + 1))).
  pose proof (index_mid f (applyIndex (st f) + 1) (fw_mid _ Hf) ltac:(lia) : mid_wf f') as Hm.
  rewrite applyCommand_revoke. pose proof (good_revoke f' id Hm) as Hg.
  pose proof (removeLease_spec (st f') id (mw_kv _ Hm)) as Hr.
  destruct (removeLease (st f') id) as [ks s]. destruct Hr as (_ & _ & Hl & _ & He).
  destruct (Fsm.expire_keys_st ks (with_st f' s)) as [E1 E2]. cbv zeta in *.
  set (g := with_lm _ _) in *. assert (Eg : st g = del_keys s ks) by (unfold g; cbn; by rewrite E1).
  destruct (flush_wf g (proj1 Hg)) as [Hw _]. destruct (flush_core g) as [[F1 F2 _ _] _ _].
  split_and!; [done|done| |].
  - rewrite F2. cbn [st with_st]. by rewrite Eg.
  - intros k. rewrite (read_flush f'), (fw_read _ Hf), Eg, He by done. done.
Qed.

(** Whether the sweep removes lease [id]. *)
Definition swept (ids : list string) (id : string) : Prop := id ∈ ids ∧ accept (revoke_cmd id) = true.

#[export] Instance swept_dec ids id : Decision (swept ids id) := _.

Lemma swept_nil i : ¬ swept [] i.
Proof. intros [Hx _]. by apply elem_of_nil in Hx. Qed.

Lemma swept_cons id ids i :
  swept (id :: ids) i ↔ swept ids i ∨ (i = id ∧ accept (revoke_cmd id) = true).
Proof. unfold swept. rewrite elem_of_cons. split; [intros [[->|?] ?]|intros [[? ?]|[-> ?]]]; tauto. Qed.

Lemma swept_if {A} id ids i (x : option A) :
  (if decide (swept ids i) then None
   else if decide (i = id ∧ accept (revoke_cmd id) = true) then None else x) =
  if decide (swept (id :: ids) i) then None else x.
Proof.
  pose proof (swept_cons id ids i) as Hs. destruct (decide (swept ids i)), (decide (i = id ∧ accept (revoke_cmd id) = true));
    [rewrite decide_True by tauto|rewrite decide_True by tauto|rewrite decide_True by tauto|
     rewrite decide_False by tauto]; done.
Qed.

(** What one accepted or refused revocation does. *)
Definition sweeps (P : string → Prop) `{∀ i, Decision (P i)} (e e' : RaftEngine) : Prop :=
  fsm_wf (fsm e') ∧
  (∀ i, leases (st (fsm e')) !! i = if decide (P i) then None else leases (st (fsm e)) !! i) ∧
  (∀ k, read (fsm e') k =
     match read (fsm e) k with
     | Some en => if decide (P (leaseID en)) then None else Some en
     | None => None
     end) ∧
  (∀ i, deadlines e' !! i = if decide (P i) then None else deadlines e !! i).

Lemma sweeps_none (P : string → Prop) `{∀ i, Decision (P i)} e :
  fsm_wf (fsm e) → (∀ i, ¬ P i) → sweeps P e e.
Proof.
  intros Hf Hn. split_and!; [done|..]; intros i; rewrite ?decide_False by done; [done| |done].
  destruct (read (fsm e) i); [|done]. by rewrite decide_False.
Qed.

Lemma sweep_one_spec now id e :
  fsm_wf (fsm e) → blen (bytes_of id) < 2 ^ 32 → id ≠ "" →
  sweeps (λ i, i = id ∧ accept (revoke_cmd id) = true) e (sweep_one accept now e id).
Proof.
  intros Hf Hlen Hne. unfold sweep_one, propose. destruct (accept (revoke_cmd id)).
  2:{ cbn [failed]. apply sweeps_none; [done|]. by intros i [_ ?]. }
  pose proof (Apply_revoke (fsm e) id now Hf Hlen) as Hr.
  destruct (Apply _ _ _ _) as [r g]. destruct Hr as (Hr & Hg & Hl & Hk).
  unfold failed. rewrite Hr, bool_decide_eq_false_2 by (by intros [? ?]). unfold sweeps.
  cbn [fsm deadlines forgetLease with_fsm]. split_and!; [done|..].
  - intros i. rewrite Hl, lookup_delete. destruct (decide (id = i)) as [->|Hx];
      [by rewrite decide_True|by rewrite decide_False by naive_solver].
  - intros k. rewrite Hk. unfold without. destruct (read (fsm e) k) as [en|]; [|done].
    destruct (decide (leaseID en = id)) as [Hx|Hx];
      [by rewrite !decide_True by done|by rewrite !decide_False by tauto].
  - intros i. rewrite lookup_delete. destruct (decide (id = i)) as [->|Hx];
      [by rewrite decide_True|by rewrite decide_False by naive_solver].
Qed.

Lemma sweep_ids now ids e :
  fsm_wf (fsm e) → Forall (λ id, blen (bytes_of id) < 2 ^ 32 ∧ id ≠ "") ids →
  sweeps (swept ids) e (foldl (sweep_one accept now) e ids).
Proof.
  revert e. induction ids as [|id ids IH]; intros e Hf Hb; cbn [foldl].
  { apply sweeps_none; [done|apply swept_nil]. }
  apply Forall_cons in Hb as [[Hlen Hne] Hb].
  destruct (sweep_one_spec now id e Hf Hlen Hne) as (O1 & O2 & O3 & O4).
  destruct (IH _ O1 Hb) as (I1 & I2 & I3 & I4). split_and!; [done|..].
  - intros i. rewrite I2, O2. apply swept_if.
  - intros k. rewrite I3, O3. destruct (read (fsm e) k) as [en|]; [|done].
    rewrite <- (swept_if id ids). destruct (decide (leaseID en = id ∧ accept (revoke_cmd id) = true)); [|done]. by destruct (decide (swept ids _)).
  - intros i. rewrite I4, O4. apply swept_if.
Qed.

(** The deadline the leader goes by: its own, or the replicated one. *)
Definition scheduled (e : RaftEngine) (id : string) : option Z :=
  match deadlines e !! id with
  | Some d => Some d
  | None => fromMilli <$> leaseSnapshot (fsm e) !! id
  end.

Definition expires (e : RaftEngine) (now : Z) (id : string) : Prop :=
  match scheduled e id with Some d => d ≤ now | None => False end ∧ accept (revoke_cmd id) = true.

#[export] Instance expires_dec e now id : Decision (expires e now id).
Proof. unfold expires. destruct (scheduled e id); apply _. Defined.

(** Lease ids are shorter than the length prefix of the codec allows. *)
Definition ids_ok (e : RaftEngine) : Prop :=
  ∀ id, is_Some (scheduled e id) → blen (bytes_of id) < 2 ^ 32 ∧ id ≠ "".

Lemma rearm_scheduled e id : deadlines (rearmFromState e) !! id = scheduled e id.
Proof.
  unfold rearmFromState, scheduled. cbn [deadlines]. rewrite lookup_union, lookup_fmap.
  destruct (deadlines e !! id), (leaseSnapshot (fsm e) !! id); done.
Qed.

Lemma tick_sweeps e now :
  fsm_wf (fsm e) → ids_ok e → sweeps (expires e now) (rearmFromState e) (tick accept true e now).
Proof.
  intros Hf Hi. unfold tick, sweepExpired. set (ids := (filter _ _).*1).
  assert (Hin : ∀ i, i ∈ ids ↔ match scheduled e i with Some d => d ≤ now | None => False end).
  { intros i. unfold ids. rewrite list_elem_of_fmap. split.
    - intros ([i' d] & -> & [Hd Hx]%list_elem_of_filter). apply elem_of_map_to_list in Hx.
      rewrite rearm_scheduled in Hx. cbn. by rewrite Hx.
    - intros Hx. destruct (scheduled e i) as [d|] eqn:Es; [|done]. exists (i, d). split; [done|].
      apply list_elem_of_filter. split; [done|]. apply elem_of_map_to_list. by rewrite rearm_scheduled. }
  assert (Hb : Forall (λ id, blen (bytes_of id) < 2 ^ 32 ∧ id ≠ "") ids).
  { apply Forall_forall. intros i Hx. apply Hi. apply Hin in Hx. by destruct (scheduled e i); [eexists|]. }
  destruct (sweep_ids now ids (rearmFromState e) Hf Hb) as (A & B & C & D).
  assert (He : ∀ i {A} (x y : A), (if decide (swept ids i) then x else y) = if decide (expires e now i) then x else y).
  { intros i A0 x y. assert (Hx : swept ids i ↔ expires e now i) by (unfold swept, expires; by rewrite Hin).
    destruct (decide (swept ids i)); [by rewrite decide_True by tauto|by rewrite decide_False by tauto]. }
  split_and!; [done|..].
  - intros i. by rewrite B, He.
  - intros k. rewrite C. destruct (read _ k) as [en|]; [|done]. by rewrite He.
  - intros i. by rewrite D, He.
Qed.

(** C33. Leases expire on the leader: a tick at or after the deadline the leader has
    scheduled for a lease removes the lease and every key bound to it, provided raft
    accepts the revocation; a lease that is not due, or whose revocation was refused,
    keeps all its keys; and readers are current afterwards. *)
Theorem tick_expires_leases e now :
  fsm_wf (fsm e) → ids_ok e →
  let e' := tick accept true e now in
  (∀ id d, scheduled e id = Some d → d ≤ now → accept (revoke_cmd id) = true →
     leases (st (fsm e')) !! id = None ∧
     ∀ k en, read (fsm e) k = Some en → leaseID en = id → read (fsm e') k = None) ∧
  (∀ k en, read (fsm e) k = Some en → ¬ expires e now (leaseID en) → read (fsm e') k = Some en) ∧
  fsm_wf (fsm e').
Proof.
  intros Hf Hi. destruct (tick_sweeps e now Hf Hi) as (A & B & C & _). cbv zeta. split_and!; [..|done].
  - intros id d Hs Hd Ha. assert (He : expires e now id) by (unfold expires; by rewrite Hs).
    split; [by rewrite B, decide_True|]. intros k en Hk <-. rewrite C.
    change (fsm (rearmFromState e)) with (fsm e). by rewrite Hk, decide_True.
  - intros k en Hk Hn. rewrite C. change (fsm (rearmFromState e)) with (fsm e).
    by rewrite Hk, decide_False.
Qed.

(** ** Deadlines are never early *)

(** Every tracked deadline is at least the replicated one. *)
Record ontime (e : RaftEngine) : Prop := {
  ot_wf : fsm_wf (fsm e);
  ot_late : ∀ id d x, deadlines e !! id = Some d → leaseSnapshot (fsm e) !! id = Some x → fromMilli x ≤ d
}.

Lemma fromMilli_unix t : fromMilli (unixMilli t) ≤ t.
Proof. unfold fromMilli, unixMilli. pose proof (Z.mul_div_le t 1000000 ltac:(lia)). lia. Qed.

(** A proposal of the engine: encodable, not a transaction, without overflow. *)
Definition proposal_ok (e : RaftEngine) (c : command) : Prop :=
  cmd_ok c ∧ cOp c ≠ opTxn ∧ sver (st (fsm e)) + 1 < 2 ^ 64 ∧ admissible (fsm e) c.

Lemma propose_spec e c now :
  fsm_wf (fsm e) → proposal_ok e c →
  let '(r, e') := propose accept e c now in
  deadlines e' = deadlines e ∧ fsm_wf (fsm e') ∧
  (∀ i, leaseSnapshot (fsm e') !! i =
     if accept c then next_deadline c i (leaseSnapshot (fsm e) !! i) else leaseSnapshot (fsm e) !! i) ∧
  failed r = (if accept c then bool_decide (is_Some (command_error (fsm e) c)) else true).
Proof.
  intros Hf (Hc & Hop & Hv & Ha). unfold propose. destruct (accept c); [|done].
  rewrite Apply_command_eq by done.
  set (f' := with_st (fsm e) (with_applyIndex (st (fsm e)) (applyIndex (st (fsm e)) + 1))).
  pose proof (index_mid (fsm e) (applyIndex (st (fsm e)) + 1) (fw_mid _ Hf) ltac:(lia) : mid_wf f') as Hm.
  destruct (good_command f' now c Hm Hv Ha) as [Hg _]. pose proof (command_deadlines f' now c) as Hd.
  destruct (applyCommand_error f' now c Hm (fw_read _ Hf)) as [He _].
  destruct (applyCommand f' now c) as [r g]. cbn [fst snd] in *.
  destruct (flush_wf g Hg) as [Hw _]. destruct (flush_core g) as [[_ F2 _ _] _ _].
  cbn [deadlines fsm with_fsm]. split_and!; [done|done| |by cbn; rewrite He].
  intros i. unfold leaseSnapshot at 1. rewrite F2. exact (Hd i Hm).
Qed.

(** The steps of a node: its own grants, renewals, revocations and ticks, and entries
    that other nodes proposed, except renewals; a remote grant is of a lease this node
    does not track. *)
Inductive eng_step (e : RaftEngine) : RaftEngine → Prop :=
| step_grant ttl now :
    let c := mkCmd "" (Svc.lease_name (localNode e) (u64 (leaseSeq e + 1))) [] 0 (Z.quot ttl 1000000)
               (unixMilli (now + ttl)) opLeaseGrant in
    proposal_ok e c → eng_step e (GrantLease accept e ttl now).2
| step_keepAlive id ttl now :
    proposal_ok e (mkCmd "" id [] 0 (Z.quot ttl 1000000) (unixMilli (now + ttl)) opLeaseRenew) →
    eng_step e (keepAlive accept e id ttl now).2
| step_revoke id now : proposal_ok e (revoke_cmd id) → eng_step e (revoke accept e id now).2
| step_tick leader now : ids_ok e → eng_step e (tick accept leader e now)
| step_remote c now :
    proposal_ok e c → cOp c ≠ opLeaseRenew → (cOp c = opLeaseGrant → deadlines e !! cLeaseID c = None) →
    eng_step e (propose accept e c now).2.

(** Deadlines that a command does not extend stay on time. *)
Lemma ontime_same e e' :
  ontime e → fsm_wf (fsm e') → deadlines e' ⊆ deadlines e →
  (∀ i x, leaseSnapshot (fsm e') !! i = Some x → is_Some (deadlines e' !! i) →
     leaseSnapshot (fsm e) !! i = Some x) → ontime e'.
Proof.
  intros [_ Hl] Hw Hsub Hs. split; [done|]. intros i d x Hd Hx.
  apply (Hl i); [by eapply lookup_weaken|]. by eapply Hs.
Qed.

Lemma ontime_tick leader e now : ontime e → ids_ok e → ontime (tick accept leader e now).
Proof.
  intros [Hf Hl] Hi. destruct leader; [|by split].
  destruct (tick_sweeps e now Hf Hi) as (A & B & _ & D). split; [done|].
  intros id d x Hd Hx. rewrite D in Hd. destruct (decide (expires e now id)) as [|Hn]; [done|].
  rewrite rearm_scheduled in Hd. unfold leaseSnapshot in Hx. rewrite lookup_fmap, B, decide_False in Hx by done.
  change (fsm (rearmFromState e)) with (fsm e) in Hx. rewrite <- lookup_fmap in Hx.
  unfold scheduled, leaseSnapshot in Hd. destruct (deadlines e !! id) as [d'|] eqn:Ed.
  - simplify_eq. by eapply Hl.
  - rewrite Hx in Hd. cbn in Hd. simplify_eq. done.
Qed.

Lemma ontime_track e c id d :
  ontime e → cLeaseID c = id → fromMilli (cExpiresAtMs c) ≤ d →
  cOp c = opLeaseGrant ∨ cOp c = opLeaseRenew →
  ∀ e', deadlines e' = deadlines e → fsm_wf (fsm e') →
  (∀ i, leaseSnapshot (fsm e') !! i = next_deadline c i (leaseSnapshot (fsm e) !! i)) →
  ontime (trackLease e' id d).
Proof.
  intros [_ Hl] Hid Hd Hop e' Hde Hw Hs. split; [done|]. intros i d' x. cbn [deadlines trackLease fsm].
  rewrite Hde, Hs. unfold next_deadline. rewrite lookup_insert, Hid.
  destruct (decide (id = i)) as [<-|Hne].
  - intros [= <-]. destruct (decide (cOp c = opLeaseGrant ∧ id = id)) as [_|Hg]; [intros [= <-]; done|].
    rewrite decide_True by (destruct Hop; tauto).
    destruct (leaseSnapshot (fsm e) !! id); [intros [= <-]; done|done].
  - rewrite !decide_False by naive_solver. apply Hl.
Qed.

Lemma ontime_step e e' : eng_step e e' → ontime e → ontime e'.
Proof.
  intros Hs He. pose proof (ot_wf _ He) as Hf.
  destruct Hs as [ttl now c Hp|id ttl now Hp|id now Hp|leader now Hi|c now Hp Hop Hg].
  - unfold GrantLease. fold c. set (e0 := mkEng _ _ _ _).
    assert (He0 : ontime e0) by (destruct He; by split).
    pose proof (propose_spec e0 c now (ot_wf _ He0) Hp) as Hq. cbn [localNode e0]. fold c.
    destruct (propose accept e0 c now) as [r e1]. destruct Hq as (D & W & S & F).
    destruct (accept c).
    + rewrite F, bool_decide_eq_false_2 by (by intros [? ?]). cbn [snd].
      eapply (ontime_track e0 c); [done|done|apply fromMilli_unix|by left|done|done|done].
    + rewrite F. cbn [snd]. apply (ontime_same e0); [done|done|by rewrite D|].
      intros i x. by rewrite S.
  - unfold keepAlive. set (c := mkCmd _ _ _ _ _ _ _) in *.
    pose proof (propose_spec e c now Hf Hp) as Hq.
    destruct (propose accept e c now) as [r e1]. destruct Hq as (D & W & S & F).
    destruct (failed r) eqn:Ef; cbn [snd].
    + apply (ontime_same e); [done|done|by rewrite D|]. intros i x. rewrite S. destruct (accept c); [|done].
      assert (Hn : leaseSnapshot (fsm e) !! id = None).
      { symmetry in F. apply bool_decide_eq_true in F as [er F]. unfold command_error in F. cbn in F.
        unfold leaseSnapshot. rewrite lookup_fmap. by destruct (leases (st (fsm e)) !! id). }
      unfold next_deadline. cbn [cOp cLeaseID c]. rewrite decide_False by (intros [Hx _]; discriminate).
      destruct (decide (opLeaseRenew = opLeaseRenew ∧ i = id)) as [[_ ->]|Hx]; [by rewrite Hn|].
      by rewrite decide_False by (intros [Hy _]; discriminate).
    + eapply (ontime_track e c); [done|done|apply fromMilli_unix|by right|done|done|].
      intros i. rewrite S. by destruct (accept c).
  - unfold revoke. pose proof (propose_spec e (revoke_cmd id) now Hf Hp) as Hq.
    destruct (propose accept e (revoke_cmd id) now) as [r e1]. destruct Hq as (D & W & S & _).
    apply (ontime_same e); [done|done|cbn; rewrite D; apply delete_subseteq|]. intros i x. cbn [fsm forgetLease snd].
    rewrite S. destruct (accept _); [|done]. unfold next_deadline. cbn [cOp cLeaseID revoke_cmd].
    do 2 rewrite decide_False by (intros [Hx _]; discriminate). by destruct (decide _).
  - by apply ontime_tick.
  - pose proof (propose_spec e c now Hf Hp) as Hq.
    destruct (propose accept e c now) as [r e1]. destruct Hq as (D & W & S & _). cbn [snd].
    apply (ontime_same e); [done|done|by rewrite D|]. intros i x. rewrite S, D. destruct (accept c); [|done].
    unfold next_deadline. destruct (decide (cOp c = opLeaseGrant ∧ i = cLeaseID c)) as [[Ho ->]|Hn].
    { rewrite (Hg Ho). by intros _ [? ?]. }
    rewrite decide_False by tauto. by destruct (decide (cOp c = opLeaseRevoke ∧ i = cLeaseID c)).
Qed.

(** No lease dies early: from an empty node, after any sequence of this node's
    grants, renewals, revocations and ticks and of other nodes' entries, as long as
    leases are renewed through the node that tracks them, a tick never removes a
    lease before its replicated deadline. *)
Theorem no_early_expiry name e now id ls :
  rtc eng_step (mkEng NewRaftFSM ∅ 0 name) e → ids_ok e →
  leases (st (fsm e)) !! id = Some ls →
  leases (st (fsm (tick accept true e now))) !! id = None →
  fromMilli (expiresAtMs ls) ≤ now.
Proof.
  intros Hr Hi Hl Hn.
  assert (He : ontime e).
  { assert (H0 : ontime (mkEng NewRaftFSM ∅ 0 name)).
    { split; [apply NewRaftFSM_wf|]. intros i d x. cbn [deadlines]. by rewrite lookup_empty. }
    clear -Hr H0. induction Hr as [|a b c Hs _ IH]; [done|]. by apply IH, (ontime_step a). }
  destruct (tick_sweeps e now (ot_wf _ He) Hi) as (_ & B & _ & _).
  rewrite B in Hn. change (fsm (rearmFromState e)) with (fsm e) in Hn.
  destruct (decide (expires e now id)) as [[Hx _]|]; [|congruence].
  unfold scheduled, leaseSnapshot in Hx. rewrite lookup_fmap, Hl in Hx.
  destruct (deadlines e !! id) as [d|] eqn:Ed; [|done].
  pose proof (ot_late _ He id d (expiresAtMs ls) Ed) as Hlate. unfold leaseSnapshot in Hlate.
  rewrite lookup_fmap, Hl in Hlate. specialize (Hlate eq_refl). lia.
Qed.
End sweep.

#[local] Existing Instance zero_hash.

Definition always : command → bool := λ _, true.
Definition start : RaftEngine := mkEng NewRaftFSM ∅ 0 "n".

(** A node that has granted itself a lease of one second. *)
Definition granted : RaftEngine := (GrantLease always start 1000000000 0).2.

Lemma granted_step : eng_step always start granted.
Proof.
  apply (step_grant always start 1000000000 0). split_and!; try (vm_compute; congruence).
  { by vm_compute. }
  intros _. split; [vm_compute; congruence|vm_compute; reflexivity].
Qed.

Lemma granted_wf : fsm_wf (fsm granted).
Proof.
  apply ot_wf, (ontime_step always start); [apply granted_step|]. split; [apply NewRaftFSM_wf|].
  intros i d x. cbn [deadlines start]. by rewrite lookup_empty.
Qed.

Lemma granted_ids : ids_ok granted.
Proof.
  intros id Hs. assert (Hid : id = "n-lease-1").
  { unfold scheduled in Hs.
    assert (Hd : deadlines granted = {["n-lease-1" := 1000000000]}) by (vm_compute; reflexivity).
    assert (Hl : leaseSnapshot (fsm granted) = {["n-lease-1" := 1000]}) by (vm_compute; reflexivity).
    rewrite Hd, Hl in Hs. destruct (decide (id = "n-lease-1")) as [|Hne]; [done|].
    rewrite !lookup_singleton_ne in Hs by done. destruct Hs as [? Hs]. discriminate Hs. }
  subst id. split; [vm_compute; reflexivity|discriminate].
Qed.

Lemma tick_expires_leases_witness :
  leases (st (fsm (tick always true granted 1000000000))) !! "n-lease-1" = None.
Proof.
  destruct (tick_expires_leases always granted 1000000000 granted_wf granted_ids) as [He _].
  refine (proj1 (He "n-lease-1" 1000000000 _ _ _)); [vm_compute; reflexivity|vm_compute; congruence|reflexivity].
Defined.

Lemma no_early_expiry_witness : fromMilli 1000 ≤ 1000000000.
Proof.
  assert (Hl : leases (st (fsm granted)) !! "n-lease-1" = Some (mkLS ∅ "n-lease-1" 1000 1000))
    by (vm_compute; reflexivity).
  exact (no_early_expiry always "n" granted 1000000000 "n-lease-1" _
    (rtc_once _ _ granted_step) granted_ids Hl ltac:(vm_compute; reflexivity)).
Defined.

(** Why renewals must go through the tracking node: the leader schedules a lease the
    first time it sees it and never looks at its replicated deadline again, so a lease
    that another node has renewed until 10 s is revoked at 2 s. *)
Theorem remote_renewal_ignored :
  let grant := mkCmd "" "m-lease-1" [] 0 1000 1000 opLeaseGrant in
  let renew := mkCmd "" "m-lease-1" [] 0 1000 10000 opLeaseRenew in
  let e := tick always true (propose always start grant 0).2 500000000 in
  let e := (propose always e renew 900000000).2 in
  (expiresAtMs <$> leases (st (fsm e)) !! "m-lease-1" = Some 10000) ∧
  leases (st (fsm (tick always true e 2000000000))) !! "m-lease-1" = None.
Proof. vm_compute. split; reflexivity. Qed.
End Raft.
