(* ===== verification/Multiplex.v ===== *)
(** * One raft log for two state machines ([cluster/raft/multiplex/router.go])

    The cluster runs one raft instance. The router dispatches each committed log
    entry by its leading byte to the primary state machine (the global name
    registry) or to the key-value state machine, and frames one snapshot of both.

    [StateMachine] is the part of [hraft.FSM] the router uses: apply an entry,
    persist a snapshot into a buffer, restore from a stream. [ReplicaLaws] states
    what a state machine promises for replication; the router's theorems are proved
    against it, and [Cluster] provides it for the two state machines of the runtime. The snapshot sink is modelled
    with a bounded capacity, so writes can fail at any point. *)

From S2P Require Import Prelude Bytes.

Module Multiplex.

(** [hraft.FSM]: the last argument of [sm_apply] and [sm_restore] is the clock the
    state machine may read; [sm_persist] returns [None] when the child fails. *)
Class StateMachine (S R : Type) := {
  sm_apply : S → Z → list ascii → Z → R * S;
  sm_persist : S → option (list ascii);
  sm_restore : S → list ascii → Z → bool * S
}.

(** [sm_ok] are the entries on which replicas must agree: those the log may contain. *)
Class ReplicaLaws (S R : Type) `{!StateMachine S R} := {
  sm_wf : S → Prop;
  sm_equiv : S → S → Prop;
  sm_ok : Z → list ascii → Prop;
  law_apply s t i d n1 n2 : sm_equiv s t → sm_ok i d →
    (sm_apply s i d n1).1 = (sm_apply t i d n2).1 ∧ sm_equiv (sm_apply s i d n1).2 (sm_apply t i d n2).2;
  law_restore s0 s d now : sm_wf s0 → sm_wf s → sm_persist s = Some d →
    (sm_restore s0 d now).1 = true ∧ sm_wf (sm_restore s0 d now).2 ∧ sm_equiv (sm_restore s0 d now).2 s
}.

(** A state machine that an empty stream resets; the router relies on it for the
    key-value machine only. *)
Class ResetLaws (S R : Type) `{!StateMachine S R, !ReplicaLaws S R} := {
  sm_init : S;
  law_reset s0 now : sm_wf s0 →
    (sm_restore s0 [] now).1 = true ∧ sm_wf (sm_restore s0 [] now).2 ∧
    sm_equiv (sm_restore s0 [] now).2 sm_init
}.

Definition KVDomain : ascii := byte_of 0xB2.
Definition primaryDomain : ascii := byte_of 1.
Definition kvDomain : ascii := byte_of 2.
Definition snapshotMagic : list ascii := bytes_of "WKVR".
Definition snapshotVersion : ascii := byte_of 1.

Inductive sink_status := Open | Closed | Cancelled.

(** [hraft.SnapshotSink] over a store with [room] bytes left. *)
Record sink := mkSink { written : list ascii; room : nat; status : sink_status }.

Definition Write (s : sink) (bs : list ascii) : bool * sink :=
  if bool_decide (length bs ≤ room s)%nat
  then (true, mkSink (written s ++ bs) (room s - length bs) (status s))
  else (false, mkSink (written s ++ take (room s) bs) 0 (status s)).

Definition Close (s : sink) : sink := mkSink (written s) (room s) Closed.
Definition Cancel (s : sink) : sink := mkSink (written s) (room s) Cancelled.

Inductive restore_error :=
| ErrReadVersion
| ErrUnsupportedVersion (v : Z)
| ErrReadHeader
| ErrReadSection (domain : Z)
| ErrRestoreSection (domain : Z)
| ErrRestoreLegacy
| ErrResetKV
| ErrFuel.

Section router.
Context {P RP K RK : Type} `{!StateMachine P RP, !StateMachine K RK}.

Record FSM := mkFSM { primary : P; kv : option K }.

Definition Apply (f : FSM) (index : Z) (data : list ascii) (now : Z) : (RP + RK) * FSM :=
  let fallthrough :=
    let '(r, p) := sm_apply (primary f) index data now in (inl r, mkFSM p (kv f)) in
  match kv f, data with
  | Some k, b :: rest =>
      if bool_decide (b = KVDomain) then
        let '(r, k) := sm_apply k index rest now in (inr r, mkFSM (primary f) (Some k))
      else fallthrough
  | _, _ => fallthrough
  end.

(** ** Snapshot *)

(** [writeSection]: the child's snapshot is buffered, then written with its header. *)
Definition writeSection (s : sink) (domain : ascii) (child : option (list ascii)) : bool * sink :=
  match child with
  | None => (false, s)
  | Some buf =>
      let '(ok, s) := Write s (domain :: be_bytes 8 (Z.of_nat (length buf))) in
      if ok then Write s buf else (false, s)
  end.

Definition fail (s : sink) : bool * sink := (false, Cancel s).

Definition Persist (f : FSM) (s : sink) : bool * sink :=
  let '(ok, s) := Write s snapshotMagic in
  if negb ok then fail s else
  let '(ok, s) := Write s [snapshotVersion] in
  if negb ok then fail s else
  let '(ok, s) := writeSection s primaryDomain (sm_persist (primary f)) in
  if negb ok then fail s else
  match kv f with
  | None => (true, Close s)
  | Some k =>
      let '(ok, s) := writeSection s kvDomain (sm_persist k) in
      if negb ok then fail s else (true, Close s)
  end.

(** ** Restore *)

Definition resetUnseenKV (f : FSM) (seenKV : bool) (now : Z) : option restore_error * FSM :=
  match kv f with
  | None => (None, f)
  | Some k =>
      if seenKV then (None, f) else
      let '(ok, k) := sm_restore k [] now in
      (if ok then None else Some ErrResetKV, mkFSM (primary f) (Some k))
  end.

(** The section loop. Each round consumes a header of nine bytes. *)
Fixpoint restore_sections (fuel : nat) (f : FSM) (seenKV : bool) (data : list ascii) (now : Z)
    : option restore_error * FSM :=
  match fuel with
  | O => (Some ErrFuel, f)
  | S fuel =>
      match data with
      | [] => resetUnseenKV f seenKV now
      | domain :: _ =>
          if bool_decide (length data < 9)%nat then (Some ErrReadHeader, f) else
          let len := be_val (slice data 1 8) in
          let rest := drop 9 data in
          if bool_decide (Z.of_nat (length rest) < len) then (Some (ErrReadSection (byte_val domain)), f) else
          let section := take (Z.to_nat len) rest in
          let rest := drop (Z.to_nat len) rest in
          if bool_decide (domain = primaryDomain) then
            let '(ok, p) := sm_restore (primary f) section now in
            let f := mkFSM p (kv f) in
            if ok then restore_sections fuel f seenKV rest now else (Some (ErrRestoreSection 1), f)
          else if bool_decide (domain = kvDomain) then
            match kv f with
            | None => restore_sections fuel f true rest now
            | Some k =>
                let '(ok, k) := sm_restore k section now in
                let f := mkFSM (primary f) (Some k) in
                if ok then restore_sections fuel f true rest now else (Some (ErrRestoreSection 2), f)
            end
          else restore_sections fuel f seenKV rest now
      end
  end.

Definition Restore (f : FSM) (data : list ascii) (now : Z) : option restore_error * FSM :=
  let magic := take 4 data in
  if bool_decide (length magic < 4)%nat || bool_decide (magic ≠ snapshotMagic) then
    let '(ok, p) := sm_restore (primary f) data now in
    let f := mkFSM p (kv f) in
    if ok then resetUnseenKV f false now else (Some ErrRestoreLegacy, f)
  else
    match drop 4 data with
    | [] => (Some ErrReadVersion, f)
    | v :: data =>
        if bool_decide (v ≠ snapshotVersion) then (Some (ErrUnsupportedVersion (byte_val v)), f)
        else restore_sections (S (length data)) f false data now
    end.

(** ** Correctness *)

Definition section (domain : ascii) (buf : list ascii) : list ascii :=
  domain :: be_bytes 8 (Z.of_nat (length buf)) ++ buf.

(** The complete stream of a snapshot. *)
Definition frame (f : FSM) : option (list ascii) :=
  p ← sm_persist (primary f);
  match kv f with
  | None => Some (snapshotMagic ++ [snapshotVersion] ++ section primaryDomain p)
  | Some k =>
      b ← sm_persist k;
      Some (snapshotMagic ++ [snapshotVersion] ++ section primaryDomain p ++ section kvDomain b)
  end.

Lemma Write_spec s bs :
  let '(ok, s') := Write s bs in
  status s' = status s ∧ (room s' ≤ room s)%nat ∧
  (ok = true → written s' = written s ++ bs ∧ room s' = (room s - length bs)%nat ∧ (length bs ≤ room s)%nat) ∧
  (ok = false → (room s < length bs)%nat).
Proof. unfold Write. case_bool; cbn; split_and!; try done; try lia; intros _; split_and!; try done; lia. Qed.

Lemma writeSection_spec s d child :
  let '(ok, s') := writeSection s d child in
  status s' = status s ∧ (ok = true → ∃ buf, child = Some buf ∧ written s' = written s ++ section d buf).
Proof.
  unfold writeSection. destruct child as [buf|]; [|done].
  pose proof (Write_spec s (d :: be_bytes 8 (Z.of_nat (length buf)))) as H1.
  destruct (Write s _) as [ok s1]. destruct H1 as (S1 & _ & W1 & _). destruct ok; [|done].
  destruct (W1 eq_refl) as (E1 & _). pose proof (Write_spec s1 buf) as H2.
  destruct (Write s1 buf) as [ok s2]. destruct H2 as (S2 & _ & W2 & _). split; [congruence|].
  intros ->. exists buf. split; [done|]. destruct (W2 eq_refl) as (-> & _). rewrite E1.
  unfold section. rewrite <- app_assoc. done.
Qed.

Lemma Persist_spec f s :
  let '(ok, s') := Persist f s in
  if ok then ∃ d, frame f = Some d ∧ written s' = written s ++ d ∧ status s' = Closed
  else status s' = Cancelled.
Proof.
  unfold Persist. pose proof (Write_spec s snapshotMagic) as H1.
  destruct (Write s snapshotMagic) as [[] s1]; cbn [negb]; [|done]. destruct H1 as (_ & _ & H1 & _).
  destruct (H1 eq_refl) as [W1 _].
  pose proof (Write_spec s1 [snapshotVersion]) as H2.
  destruct (Write s1 _) as [[] s2]; cbn [negb]; [|done]. destruct H2 as (_ & _ & H2 & _).
  destruct (H2 eq_refl) as [W2 _].
  pose proof (writeSection_spec s2 primaryDomain (sm_persist (primary f))) as H3.
  destruct (writeSection s2 _ _) as [[] s3]; cbn [negb]; [|done].
  destruct H3 as [_ (p & Ep & W3)]; [done|]. unfold frame. rewrite Ep. cbn [mbind option_bind].
  destruct (kv f) as [k|].
  - pose proof (writeSection_spec s3 kvDomain (sm_persist k)) as H4.
    destruct (writeSection s3 _ _) as [[] s4]; cbn [negb]; [|done].
    destruct H4 as [_ (b & Eb & W4)]; [done|]. rewrite Eb. eexists. split_and!; [done| |done].
    cbn [written Close]. rewrite W4, W3, W2, W1, <- !app_assoc. done.
  - eexists. split_and!; [done| |done]. cbn [written Close]. rewrite W3, W2, W1, <- !app_assoc. done.
Qed.

(** The loop on a well-formed section. *)
Lemma sections_cons fuel f seen d buf rest now :
  Z.of_nat (length buf) < 2 ^ 64 →
  restore_sections (S fuel) f seen (section d buf ++ rest) now =
  if bool_decide (d = primaryDomain) then
    let '(ok, p) := sm_restore (primary f) buf now in
    if ok then restore_sections fuel (mkFSM p (kv f)) seen rest now
    else (Some (ErrRestoreSection 1), mkFSM p (kv f))
  else if bool_decide (d = kvDomain) then
    match kv f with
    | None => restore_sections fuel f true rest now
    | Some k =>
        let '(ok, k) := sm_restore k buf now in
        if ok then restore_sections fuel (mkFSM (primary f) (Some k)) true rest now
        else (Some (ErrRestoreSection 2), mkFSM (primary f) (Some k))
    end
  else restore_sections fuel f seen rest now.
Proof.
  intros Hl. set (h := be_bytes 8 (Z.of_nat (length buf))).
  assert (Hh : length h = 8%nat) by apply length_be_bytes.
  assert (Hs : slice (section d buf ++ rest) 1 8 = h).
  { unfold slice, section. cbn [app drop]. fold h. rewrite <- app_assoc, <- Hh. apply take_app_length. }
  assert (Hd : drop 9 (section d buf ++ rest) = buf ++ rest).
  { unfold section. cbn [app drop]. fold h. rewrite <- app_assoc, <- Hh. apply drop_app_length. }
  assert (Hv : be_val h = Z.of_nat (length buf)).
  { unfold h. rewrite be_val_bytes. change (2 ^ (8 * Z.of_nat 8)) with (2 ^ 64). rewrite Z.mod_small; lia. }
  assert (H9 : (9 ≤ length (section d buf ++ rest))%nat)
    by (unfold section; fold h; cbn [app length]; rewrite !length_app, Hh; lia).
  cbn [restore_sections]. rewrite Hs, Hd, Hv, Nat2Z.id, take_app_length, drop_app_length.
  rewrite (bool_decide_eq_false_2 (_ < 9)%nat) by lia.
  rewrite (bool_decide_eq_false_2 (_ < _)) by (rewrite length_app; lia).
  unfold section. cbn [app].
  destruct (bool_decide (d = primaryDomain)); [by destruct (sm_restore (primary f) buf now) as [[] ?]|].
  destruct (bool_decide (d = kvDomain)); [|done]. destruct (kv f) as [k|]; [|done].
  by destruct (sm_restore k buf now) as [[] ?].
Qed.

(** The fuel of [Restore] is never exhausted. *)
Lemma sections_fuel fuel f seen data now :
  (length data < fuel)%nat → (restore_sections fuel f seen data now).1 ≠ Some ErrFuel.
Proof.
  revert f seen data. induction fuel as [|fuel IH]; intros f seen data Hl; [lia|].
  cbn [restore_sections]. destruct data as [|d data].
  { unfold resetUnseenKV. destruct (kv f); [|done]. destruct seen; [done|].
    by destruct (sm_restore _ _ _) as [[] ?]. }
  destruct (bool_decide (_ < 9)%nat); [done|]. destruct (bool_decide (Z.of_nat _ < _)); [done|].
  set (rest := drop _ (drop 9 (d :: data))).
  assert (Hr : (length rest < fuel)%nat) by (unfold rest; rewrite !length_drop; cbn in *; lia).
  repeat case_match; auto; done.
Qed.

Lemma kv_not_primary : kvDomain ≠ primaryDomain.
Proof. vm_compute. discriminate. Qed.
End router.
Arguments FSM : clear implicits.

(** The router against the interface. *)
Section laws.
Context {P RP K RK : Type} `{!StateMachine P RP, !StateMachine K RK}.
Context `{!ReplicaLaws P RP, !ReplicaLaws K RK, !ResetLaws K RK}.

(** A child snapshot fits the 64-bit length prefix of its section. *)
Definition fits (child : option (list ascii)) : Prop :=
  ∀ buf, child = Some buf → Z.of_nat (length buf) < 2 ^ 64.

Record router_wf (f : FSM P K) : Prop := {
  rw_primary : sm_wf (primary f) ∧ fits (sm_persist (primary f));
  rw_kv : ∀ k, kv f = Some k → sm_wf k ∧ fits (sm_persist k)
}.

(** Replicas agree on the primary, and on the key-value state of the nodes that run
    it; a node without the key-value machine has nothing to agree on. *)
Record router_equiv (f g : FSM P K) : Prop := {
  re_primary : sm_equiv (primary f) (primary g);
  re_kv : match kv f, kv g with
          | Some k, Some k' => sm_equiv k k'
          | Some k, None => sm_equiv k sm_init
          | None, _ => True
          end
}.

Lemma restore_kv_tail fuel (f g : FSM P K) now rest :
  (∀ k, kv f = Some k → sm_wf k) → (∀ k, kv g = Some k → sm_wf k ∧ fits (sm_persist k)) →
  (match kv g with None => Some [] | Some k => b ← sm_persist k; Some (section kvDomain b) end) = Some rest →
  (length rest < fuel)%nat →
  let '(e, f') := restore_sections fuel f false rest now in
  e = None ∧ primary f' = primary f ∧
  match kv f' with
  | Some k' => is_Some (kv f) ∧ sm_wf k' ∧ sm_equiv k' (default sm_init (kv g))
  | None => kv f = None
  end.
Proof.
  intros Hf Hg Hr Hfuel. destruct fuel as [|fuel]; [lia|].
  destruct (kv g) as [k'|] eqn:Eg.
  - destruct (Hg k' eq_refl) as [Hw Hb]. destruct (sm_persist k') as [b|] eqn:Ep; [|done].
    injection Hr as <-. rewrite <- (app_nil_r (section kvDomain b)).
    rewrite sections_cons by (by apply Hb).
    rewrite bool_decide_eq_false_2 by apply kv_not_primary. rewrite bool_decide_eq_true_2 by done.
    destruct fuel as [|fuel]; [unfold section in Hfuel; cbn in Hfuel; lia|].
    destruct (kv f) as [k|] eqn:Ef.
    + destruct (law_restore k k' b now (Hf k eq_refl) Hw Ep) as (H1 & H2 & H3).
      destruct (sm_restore k b now) as [ok k2]. cbn in H1. subst ok.
      cbn. by split_and!.
    + cbn. unfold resetUnseenKV. rewrite Ef. split_and!; [done|done|by rewrite Ef].
  - injection Hr as <-. cbn. unfold resetUnseenKV. destruct (kv f) as [k|] eqn:Ef.
    + destruct (law_reset k now (Hf k eq_refl)) as (H1 & H2 & H3).
      destruct (sm_restore k [] now) as [ok k2]. cbn in *. subst ok. by split_and!.
    + rewrite Ef. done.
Qed.

Lemma restore_persist (f g : FSM P K) s now :
  router_wf f → router_wf g → written s = [] →
  let '(ok, s') := Persist g s in
  ok = true →
  let '(e, f') := Restore f (written s') now in
  status s' = Closed ∧ e = None ∧ router_equiv f' g ∧ (is_Some (kv f') ↔ is_Some (kv f)).
Proof.
  intros Hf Hg Hs. pose proof (Persist_spec g s) as Hp. destruct (Persist g s) as [ok s']. intros ->.
  destruct Hp as (d & Hd & Hw & Hst). rewrite Hs in Hw. cbn in Hw. rewrite Hw. clear Hw.
  unfold frame in Hd. destruct (sm_persist (primary g)) as [p|] eqn:Ep; [|done]. cbn [mbind option_bind] in Hd.
  set (tail := match kv g with None => Some [] | Some k => b ← sm_persist k; Some (section kvDomain b) end).
  assert (Ht : ∃ t, tail = Some t ∧ d = snapshotMagic ++ [snapshotVersion] ++ section primaryDomain p ++ t).
  { unfold tail. destruct (kv g) as [k|]; [destruct (sm_persist k) as [b|]; [|done]|];
      cbn in Hd; injection Hd as <-; eexists; split; try done; by rewrite app_nil_r. }
  destruct Ht as (t & Ht & ->). destruct Hf as [[Hf1 _] Hf2], Hg as [[Hg1 Hg1'] Hg2].
  unfold Restore. rewrite take_app_length' by done. rewrite drop_app_length' by done.
  rewrite !bool_decide_eq_false_2 by (try (intros Hx; by apply Hx); cbn; lia). cbn [orb app].
  rewrite bool_decide_eq_false_2 by (intros Hx; by apply Hx).
  rewrite sections_cons by (by apply Hg1'). rewrite bool_decide_eq_true_2 by done.
  destruct (law_restore (primary f) (primary g) p now Hf1 Hg1 Ep) as (H1 & H2 & H3).
  destruct (sm_restore (primary f) p now) as [ok p']. cbn in H1, H2, H3. subst ok.
  pose proof (restore_kv_tail (length (section primaryDomain p ++ t)) (mkFSM p' (kv f)) g now t) as Hk.
  destruct (restore_sections _ _ _ _ _) as [e f'].
  destruct Hk as (-> & E1 & E2); [intros k Hk; by apply Hf2|done|done| |].
  { unfold section. cbn [app length]. rewrite !length_app. lia. }
  cbn [primary kv] in *. split_and!; [done|done| |].
  - split; [by rewrite E1|]. destruct (kv f') as [k'|]; [|done]. destruct E2 as (_ & _ & E2).
    by destruct (kv g).
  - destruct (kv f') as [k'|]; [|rewrite E2; done]. destruct E2 as (E2 & _). split; [done|by eexists].
Qed.

(** C35. A snapshot of the cluster state survives the wire: whatever state a node is in,
    restoring a snapshot that another node persisted succeeds and leaves the node
    equivalent to that other node, in the primary and in the key-value state machine;
    if the writing node ran no key-value machine, the reader's is reset to empty. *)
Theorem Restore_Persist (f g : FSM P K) s now :
  router_wf f → router_wf g → written s = [] →
  let '(ok, s') := Persist g s in
  ok = true →
  let '(e, f') := Restore f (written s') now in
  status s' = Closed ∧ e = None ∧ router_equiv f' g ∧ (is_Some (kv f') ↔ is_Some (kv f)).
Proof. apply restore_persist. Qed.

(** Nodes that both run the key-value machine. *)
Definition same_shape (f g : FSM P K) : Prop := is_Some (kv f) ↔ is_Some (kv g).

(** An entry that the machine it is dispatched to admits. *)
Definition router_ok (f : FSM P K) (i : Z) (data : list ascii) : Prop :=
  match kv f, data with
  | Some _, b :: rest => if bool_decide (b = KVDomain) then sm_ok (S := K) i rest else sm_ok (S := P) i data
  | _, _ => sm_ok (S := P) i data
  end.

Lemma router_apply_equiv (f g : FSM P K) i data n1 n2 :
  router_equiv f g → same_shape f g → router_ok f i data →
  (Apply f i data n1).1 = (Apply g i data n2).1 ∧
  router_equiv (Apply f i data n1).2 (Apply g i data n2).2 ∧
  same_shape (Apply f i data n1).2 (Apply g i data n2).2.
Proof.
  intros [Hp Hk] Hs. unfold Apply, router_ok, same_shape in *.
  assert (Hprim : sm_ok (S := P) i data → ∀ a b, kv f = a → kv g = b →
    let x := let '(r, p) := sm_apply (primary f) i data n1 in (inl r : RP + RK, mkFSM p a) in
    let y := let '(r, p) := sm_apply (primary g) i data n2 in (inl r : RP + RK, mkFSM p b) in
    x.1 = y.1 ∧ router_equiv x.2 y.2 ∧ (is_Some (kv x.2) ↔ is_Some (kv y.2))).
  { intros Hok a b <- <-. destruct (law_apply _ _ i data n1 n2 Hp Hok) as [P1 P2].
    destruct (sm_apply (primary f) i data n1) as [r1 p1], (sm_apply (primary g) i data n2) as [r2 p2].
    cbn in P1, P2 |- *. subst r2. split_and!; [done|by split|done]. }
  destruct (kv f) as [k|] eqn:Ef, (kv g) as [k'|] eqn:Eg;
    try (by destruct Hs as [Hs _]; destruct Hs; eauto); try (by destruct Hs as [_ Hs]; destruct Hs; eauto);
    [|intros Hok; by apply Hprim].
  destruct data as [|b data]; [intros Hok; by apply Hprim|].
  destruct (bool_decide (b = KVDomain)); [|intros Hok; by apply Hprim]. intros Hok.
  destruct (law_apply _ _ i data n1 n2 Hk Hok) as [K1 K2].
  destruct (sm_apply k i data n1) as [q1 k1], (sm_apply k' i data n2) as [q2 k2].
  cbn in K1, K2. subst q2. split_and!; [done|by split|done].
Qed.

(** A log with the clock readings of a replica. *)
Fixpoint replay (f : FSM P K) (log : list (Z * list ascii * Z)) : list (RP + RK) * FSM P K :=
  match log with
  | [] => ([], f)
  | (i, data, now) :: log =>
      let '(r, f) := Apply f i data now in
      let '(rs, f) := replay f log in (r :: rs, f)
  end.

Lemma Apply_shape (f : FSM P K) i data now : is_Some (kv (Apply f i data now).2) ↔ is_Some (kv f).
Proof.
  unfold Apply. destruct (sm_apply (primary f) i data now) as [r p]. destruct (kv f) as [k|]; [|done].
  destruct data as [|b data]; [done|]. destruct (bool_decide _); [|done]. by destruct (sm_apply k i data now).
Qed.

Lemma replay_shape (f : FSM P K) log : is_Some (kv (replay f log).2) ↔ is_Some (kv f).
Proof.
  revert f. induction log as [|[[i data] now] log IH]; intros f; [done|]. cbn [replay].
  pose proof (Apply_shape f i data now) as Ha. destruct (Apply f i data now) as [r f1]. specialize (IH f1).
  destruct (replay f1 log) as [rs f2]. cbn [fst snd] in *. by rewrite IH.
Qed.

(** Entries admitted by a node stay admitted: dispatch depends on the shape only. *)
Lemma router_ok_shape (f g : FSM P K) i data : same_shape f g → router_ok f i data → router_ok g i data.
Proof.
  unfold same_shape, router_ok. intros Hs.
  destruct (kv f) as [k|], (kv g) as [k'|]; [done|..|done].
  - destruct Hs as [Hs _]. by destruct Hs; eauto.
  - destruct Hs as [_ Hs]. by destruct Hs; eauto.
Qed.

Lemma router_replay_equiv log1 log2 (f g : FSM P K) :
  router_equiv f g → same_shape f g → Forall2 (λ a b, a.1 = b.1 ∧ router_ok f a.1.1 a.1.2) log1 log2 →
  (replay f log1).1 = (replay g log2).1 ∧ router_equiv (replay f log1).2 (replay g log2).2.
Proof.
  revert log2 f g. induction log1 as [|[[i data] n1] log1 IH]; intros log2 f g Hq Hs Hl; inversion Hl as [|? b ? log2' [Hb Hok] Hl']; subst; [done|].
  destruct b as [[i' data'] n2]. cbn in Hb. injection Hb as <- <-. cbn in Hok. cbn [replay].
  destruct (router_apply_equiv f g i data n1 n2 Hq Hs Hok) as (H1 & H2 & H3).
  pose proof (Apply_shape f i data n1) as Hsh.
  destruct (Apply f i data n1) as [r1 f1], (Apply g i data n2) as [r2 g1]. cbn [fst snd] in *. subst r2.
  assert (Hl1 : Forall2 (λ a b, a.1 = b.1 ∧ router_ok f1 a.1.1 a.1.2) log1 log2').
  { eapply Forall2_impl; [exact Hl'|]. intros a b [Ha Hb]. split; [done|]. eapply router_ok_shape; [|exact Hb].
    unfold same_shape. by rewrite Hsh. }
  destruct (IH log2' f1 g1 H2 H3 Hl1) as [R1 R2].
  destruct (replay f1 log1) as [rs1 f2], (replay g1 log2') as [rs2 g2]. cbn [fst snd] in *. by rewrite R1.
Qed.
End laws.

Section streams.
Context {P RP K RK : Type} `{!StateMachine P RP, !StateMachine K RK}.

(** [Wr s bs ok s']: writing [bs] to [s] in one or several calls. *)
Definition Wr (s : sink) (bs : list ascii) (ok : bool) (s' : sink) : Prop :=
  if ok then (length bs ≤ room s ∧ room s' = room s - length bs)%nat else (room s < length bs)%nat.

Lemma Write_Wr s bs : let '(ok, s') := Write s bs in Wr s bs ok s'.
Proof.
  pose proof (Write_spec s bs) as Hw. destruct (Write s bs) as [[] s']; destruct Hw as (_ & _ & H1 & H2).
  - destruct (H1 eq_refl) as (_ & ? & ?). done.
  - by apply H2.
Qed.

Lemma Wr_app s a s1 b ok s2 : Wr s a true s1 → Wr s1 b ok s2 → Wr s (a ++ b) ok s2.
Proof. unfold Wr. rewrite length_app. destruct ok; lia. Qed.

Lemma Wr_fail s a b s' : Wr s a false s' → Wr s (a ++ b) false s'.
Proof. unfold Wr. rewrite length_app. lia. Qed.

Lemma writeSection_Wr s d buf : let '(ok, s') := writeSection s d (Some buf) in Wr s (section d buf) ok s'.
Proof.
  unfold writeSection, section. rewrite app_comm_cons. set (h := d :: be_bytes 8 _).
  pose proof (Write_Wr s h) as H1. destruct (Write s h) as [[] s1]; [|by apply Wr_fail].
  pose proof (Write_Wr s1 buf) as H2. destruct (Write s1 buf) as [ok s2]. by eapply Wr_app.
Qed.

Lemma Wr_iff s d ok s' : Wr s d ok s' → ok = true ↔ (length d ≤ room s)%nat.
Proof. unfold Wr. destruct ok; split; intros; try done; lia. Qed.

(** Whether a snapshot fits does not depend on how far the writing got. *)
Lemma Persist_room (f : FSM P K) s d :
  frame f = Some d → (Persist f s).1 = true ↔ (length d ≤ room s)%nat.
Proof.
  unfold Persist, frame. intros Hd. pose proof (Write_Wr s snapshotMagic) as H1.
  destruct (sm_persist (primary f)) as [p|]; [|done]. cbn [mbind option_bind] in Hd.
  set (t := match kv f with None => [] | Some k => default [] (section kvDomain <$> sm_persist k) end).
  assert (d = snapshotMagic ++ [snapshotVersion] ++ section primaryDomain p ++ t) as ->.
  { unfold t. destruct (kv f) as [k|]; [destruct (sm_persist k); [|done]|]; cbn in Hd; simplify_eq; [done|].
    by rewrite app_nil_r. }
  destruct (Write s snapshotMagic) as [[] s1]; cbn [negb]; [|eapply Wr_iff, Wr_fail, H1].
  pose proof (Write_Wr s1 [snapshotVersion]) as H2.
  destruct (Write s1 _) as [[] s2]; cbn [negb]; [|eapply Wr_iff, Wr_app, Wr_fail; done].
  pose proof (writeSection_Wr s2 primaryDomain p) as H3.
  destruct (writeSection s2 _ _) as [[] s3]; cbn [negb];
    [|eapply Wr_iff, Wr_app, Wr_app, Wr_fail; done].
  unfold t. destruct (kv f) as [k|].
  2:{ eapply Wr_iff, Wr_app, Wr_app, Wr_app; try done. instantiate (1 := s3). unfold Wr. cbn. lia. }
  destruct (sm_persist k) as [b|]; [|done]. pose proof (writeSection_Wr s3 kvDomain b) as H4.
  destruct (writeSection s3 _ _) as [[] s4]; cbn [negb fmap option_fmap default];
    eapply Wr_iff, Wr_app, Wr_app, Wr_app; done.
Qed.

(** A snapshot is all or nothing. Persisting succeeds exactly when every child
    state machine produced its snapshot and the store has room for the whole framed
    stream, and then the sink is closed on precisely that stream; in every other case
    the sink is cancelled, so no truncated snapshot is ever kept. *)
Theorem Persist_all_or_nothing (f : FSM P K) s :
  let '(ok, s') := Persist f s in
  (ok = true ↔ ∃ d, frame f = Some d ∧ (length d ≤ room s)%nat) ∧
  (ok = true → status s' = Closed ∧ Some (written s') = (λ d, written s ++ d) <$> frame f) ∧
  (ok = false → status s' = Cancelled).
Proof.
  pose proof (Persist_spec f s) as Hs. pose proof (Persist_room f s) as Hr.
  destruct (Persist f s) as [ok s']. cbn [fst] in Hr. split_and!.
  - split.
    + intros ->. destruct Hs as (d & Hd & _). exists d. split; [done|]. by apply Hr.
    + intros (d & Hd & Hl). by apply (Hr d).
  - intros ->. destruct Hs as (d & -> & -> & ->). done.
  - by intros ->.
Qed.

(** Restoring terminates on every stream, however malformed: each round of the
    section loop consumes a header, so a stream of [n] bytes takes at most [n] rounds
    and the loop ends with success or with an error that names the malformed part. *)
Theorem Restore_terminates (f : FSM P K) data now : (Restore f data now).1 ≠ Some ErrFuel.
Proof.
  unfold Restore. destruct (_ || _).
  - destruct (sm_restore _ _ _) as [[] p]; [|done]. unfold resetUnseenKV. destruct (kv _); [|done].
    by destruct (sm_restore _ _ _) as [[] ?].
  - destruct (drop 4 data) as [|v rest]; [done|]. destruct (bool_decide _); [done|].
    apply sections_fuel. lia.
Qed.
End streams.

(** ** A small state machine: the concatenation of the entries applied *)

#[local] Instance concat_machine : StateMachine (list ascii) nat := {
  sm_apply s _ d _ := (length d, s ++ d);
  sm_persist s := Some s;
  sm_restore _ d _ := (true, d)
}.

#[local] Instance concat_laws : ReplicaLaws (list ascii) nat.
Proof.
  refine {| sm_wf := λ _, True; sm_equiv := eq; sm_ok := λ _ _, True |}.
  - by intros s t i d n1 n2 ->.
  - by intros s0 s d now _ _ [= ->].
Defined.

#[local] Instance concat_reset : ResetLaws (list ascii) nat.
Proof. by refine {| sm_init := [] |}. Defined.

Lemma Restore_Persist_witness :
  let g := mkFSM (bytes_of "p") (Some (bytes_of "q")) in
  let f := mkFSM (bytes_of "x") (Some (bytes_of "y")) in
  let '(e, f') := Restore f (written (Persist g (mkSink [] 100 Open)).2) 0 in e = None ∧ router_equiv f' g.
Proof.
  intros g f. pose proof (Restore_Persist f g (mkSink [] 100 Open) 0) as Hr.
  assert (Hok : (Persist g (mkSink [] 100 Open)).1 = true) by (vm_compute; reflexivity).
  destruct (Persist g (mkSink [] 100 Open)) as [ok s']. cbn [fst snd] in *. subst ok.
  destruct (Restore f (written s') 0) as [e f'].
  destruct Hr as (_ & He & Hq & _); [| |done|done|exact (conj He Hq)].
  all: split; [split; [done|]|intros k [= <-]; split; [done|]]; intros buf [= <-]; vm_compute; reflexivity.
Defined.
End Multiplex.
