(* ===== verification/Pid.v ===== *)
(** * Process identifiers ([api/pid/pid.go])

    A PID names a process by node, host and unique id, and is printed as
    ["{node@host|uniq}"] or ["{host|uniq}"]. The registry keys its reverse index by
    the printed form, so the printed form must identify the PID. [cachedString] is
    a memo of [toString] filled by [Precomputed]; the model computes the string.

    The theorems: parsing inverts printing, in text and in JSON, for PIDs whose
    parts avoid the separators, so on those the printed form is injective. *)

From S2P Require Import Prelude Bytes GoStrings.

Module Pid.

Record PID := mkPID { Node : string; Host : string; UniqID : string }.

#[export] Instance PID_eq_dec : EqDecision PID.
Proof. solve_decision. Defined.

#[export] Instance PID_countable : Countable PID.
Proof.
  refine (inj_countable' (λ p, (Node p, Host p, UniqID p)) (λ '(a, b, c), mkPID a b c) _). by intros [].
Defined.

Definition Zero : PID := mkPID "" "" "".

(** [Equal] *)
Definition Equal (p q : PID) : bool := bool_decide (p = q).

Definition lbrace : ascii := "{"%char.
Definition rbrace : ascii := "}"%char.
Definition at_sign : ascii := "@"%char.
Definition pipe : ascii := "|"%char.
Definition quote : ascii := Ascii.ascii_of_N 34.

Definition toString_bytes (p : PID) : list ascii :=
  [lbrace] ++ (if bool_decide (Node p = "") then [] else bytes_of (Node p) ++ [at_sign])
  ++ bytes_of (Host p) ++ [pipe] ++ bytes_of (UniqID p) ++ [rbrace].

Definition toString (p : PID) : string := string_of (toString_bytes p).

Inductive pid_error := ErrMissingBraces | ErrMissingPipe | ErrTooShort | ErrMissingQuotes.

Definition parse_bytes (s : list ascii) : result pid_error PID :=
  if bool_decide (length s < 3)%nat || bool_decide (head s ≠ Some lbrace) || bool_decide (last s ≠ Some rbrace)
  then Err ErrMissingBraces else
  let s := take (length s - 2) (drop 1 s) in
  match IndexByte s pipe with
  | None => Err ErrMissingPipe
  | Some i =>
      let hostPart := take i s in
      let '(node, host) :=
        match IndexByte hostPart at_sign with
        | Some j => (take j hostPart, drop (S j) hostPart)
        | None => ([], hostPart)
        end in
      let uniqPart := drop (S i) s in
      let uniq := match IndexByte uniqPart pipe with Some j => drop (S j) uniqPart | None => uniqPart end in
      Ok (mkPID (string_of node) (string_of host) (string_of uniq))
  end.

Definition ParsePID (s : string) : result pid_error PID := parse_bytes (bytes_of s).

Definition MarshalJSON (p : PID) : list ascii := [quote] ++ bytes_of (toString p) ++ [quote].

Definition UnmarshalJSON (data : list ascii) : result pid_error PID :=
  if bool_decide (length data < 4)%nat then Err ErrTooShort
  else if bool_decide (head data ≠ Some quote) || bool_decide (last data ≠ Some quote)
  then Err ErrMissingQuotes
  else parse_bytes (take (length data - 2) (drop 1 data)).

(** ** Round trips *)

(** The parts avoid the separators that the parser looks for. *)
Definition pid_ok (p : PID) : Prop :=
  at_sign ∉ bytes_of (Node p) ∧ pipe ∉ bytes_of (Node p) ∧ pipe ∉ bytes_of (Host p) ∧
  pipe ∉ bytes_of (UniqID p) ∧ (Node p = "" → at_sign ∉ bytes_of (Host p)).

#[export] Instance pid_ok_dec p : Decision (pid_ok p).
Proof. unfold pid_ok. apply _. Defined.

Lemma unwrap {A} (s : list A) a b : take (length (a :: s ++ [b]) - 2) (drop 1 (a :: s ++ [b])) = s.
Proof.
  change (drop 1 (a :: s ++ [b])) with (s ++ [b]). cbn [length]. rewrite length_app. cbn [length].
  replace (S (length s + 1) - 2)%nat with (length s) by lia. apply take_app_length.
Qed.

Lemma bytes_of_empty : bytes_of "" = [].
Proof. done. Qed.

Lemma parse_print p : pid_ok p → parse_bytes (toString_bytes p) = Ok p.
Proof.
  intros (H1 & H2 & H3 & H4 & H5). unfold parse_bytes, toString_bytes.
  set (pre := if bool_decide (Node p = "") then [] else bytes_of (Node p) ++ [at_sign]).
  set (body := pre ++ bytes_of (Host p) ++ [pipe] ++ bytes_of (UniqID p)).
  replace ([lbrace] ++ pre ++ bytes_of (Host p) ++ [pipe] ++ bytes_of (UniqID p) ++ [rbrace])
    with (lbrace :: body ++ [rbrace]) by (unfold body; by rewrite <- !app_assoc).
  assert (Hl : (1 ≤ length body)%nat) by (unfold body; rewrite !length_app; cbn; lia).
  rewrite (bool_decide_eq_false_2 (length _ < 3)%nat) by (cbn; rewrite length_app; cbn; lia).
  rewrite (bool_decide_eq_false_2 (head _ ≠ _)) by (intros Hx; by apply Hx).
  rewrite (bool_decide_eq_false_2 (last _ ≠ _)) by (rewrite app_comm_cons, last_snoc; intros Hx; by apply Hx).
  cbn [orb]. rewrite unwrap.
  assert (Hpre : pipe ∉ pre ++ bytes_of (Host p)).
  { unfold pre. rewrite not_elem_of_app. split; [|done]. case_bool; [apply not_elem_of_nil|].
    rewrite not_elem_of_app, not_elem_of_cons. split_and!; [done|done|apply not_elem_of_nil]. }
  replace body with ((pre ++ bytes_of (Host p)) ++ pipe :: bytes_of (UniqID p))
    by (unfold body; by rewrite <- app_assoc).
  rewrite (IndexByte_app _ _ pipe Hpre), take_sep, drop_sep, (IndexByte_None _ _ H4). unfold pre.
  destruct (bool_decide_reflect (Node p = "")) as [Hn|Hn].
  - rewrite app_nil_l, (IndexByte_None _ _ (H5 Hn)). rewrite !string_of_bytes_of. destruct p. cbn in *. by subst.
  - rewrite <- app_assoc. cbn [app]. rewrite (IndexByte_app _ _ at_sign H1), take_sep, drop_sep.
    rewrite !string_of_bytes_of. by destruct p.
Qed.

Lemma toString_length p : (3 ≤ length (toString_bytes p))%nat.
Proof. unfold toString_bytes. rewrite !length_app. cbn. lia. Qed.

(** Printed PIDs identify their process. *)
Lemma toString_inj p q : pid_ok p → pid_ok q → toString p = toString q → p = q.
Proof.
  intros Hp Hq He. unfold toString in He. apply (f_equal bytes_of) in He. rewrite !bytes_of_string_of in He.
  pose proof (parse_print p Hp) as H1. rewrite He, (parse_print q Hq) in H1. congruence.
Qed.

(** PIDs round-trip: printing a PID whose parts avoid the separators and parsing
    the result gives it back, as plain text and through JSON, and two such PIDs with
    the same printed form are equal. *)
Theorem ParsePID_roundtrip p q :
  pid_ok p → pid_ok q →
  ParsePID (toString p) = Ok p ∧ UnmarshalJSON (MarshalJSON p) = Ok p ∧
  (toString p = toString q ↔ Equal p q = true).
Proof.
  intros Hp Hq. split_and!.
  - unfold ParsePID, toString. rewrite bytes_of_string_of. by apply parse_print.
  - unfold UnmarshalJSON, MarshalJSON, toString. rewrite bytes_of_string_of.
    pose proof (toString_length p) as Hl. set (b := toString_bytes p) in *.
    change ([quote] ++ b ++ [quote]) with (quote :: b ++ [quote]).
    rewrite (bool_decide_eq_false_2 (length _ < 4)%nat) by (cbn [length]; rewrite length_app; lia).
    rewrite (bool_decide_eq_false_2 (head _ ≠ _)) by (intros Hx; by apply Hx).
    rewrite (bool_decide_eq_false_2 (last _ ≠ _)) by (rewrite app_comm_cons, last_snoc; intros Hx; by apply Hx).
    cbn [orb]. rewrite unwrap. by apply parse_print.
  - unfold Equal. rewrite bool_decide_eq_true. split; [by apply toString_inj|by intros ->].
Qed.

Lemma ParsePID_roundtrip_witness :
  let p := mkPID "n1" "host" "42" in ParsePID (toString p) = Ok p.
Proof.
  intros p. destruct (ParsePID_roundtrip p p) as [H1 _]; [by apply (bool_decide_unpack _); vm_compute..|]. exact H1.
Defined.

(** Outside [pid_ok] the printed form is ambiguous: two PIDs with one printed form, and
    an accepted text whose PID prints to a text of another PID. *)
Theorem toString_ambiguous :
  toString (mkPID "" "a@b" "1") = toString (mkPID "a" "b" "1") ∧
  ParsePID "{h|a|b|c}" = Ok (mkPID "" "h" "b|c") ∧
  ParsePID (toString (mkPID "" "h" "b|c")) = Ok (mkPID "" "h" "c").
Proof. split_and!; vm_compute; reflexivity. Qed.
End Pid.
