(* ===== verification/NameReg.v ===== *)
(** * State of the global name registry ([system/topology/namereg/global/state.go])

    The replicated registry maps names to processes. Active names live in sixteen
    shards selected by FNV-1a, each with a reverse index from printed PID to names; a
    node index lists the PIDs of each node; Strong reservations are pending until
    every required node has acknowledged them; released reservations are kept in a
    bounded history.

    Locks are not modelled: every operation runs inside the serialized [Apply] of the
    state machine. Go iterates maps in an arbitrary order: where the order matters
    ([removeNodeWithNames]) it is an argument. Slices that the code re-slices or
    appends in place are not shared with anything that outlives the operation.

    The lemmas give each operation's effect on the flat view (name to entry), and its
    preservation of the invariant [reg_wf]. *)

From S2P Require Import Prelude Bytes Pid.

Module Reg.
Import Pid.

Definition shardCount : nat := 16.

Record nameEntry := mkName {
  nPID : PID; nNode : string; nRequired : list string; nApplied : Z; nEpoch : Z
}.

Record shard := mkShard { names : gmap string nameEntry; pidNames : gmap string (list string) }.

Record pendingEntry := mkPend {
  AckSet : gset string; pPID : PID; pName : string; pNode : string; pRequired : list string;
  pEpoch : Z; pDeadline : Z; pCreated : Z
}.

Record ExpiredRecord := mkExp {
  xPID : PID; xName : string; xReason : string; xRejectedBy : string; xMissing : list string;
  xEpoch : Z; xAt : Z
}.

Record shardedState := mkReg {
  pending : gmap string pendingEntry;
  nodeIndex : gmap string (gset string);
  expired : list ExpiredRecord;
  shards : list shard
}.

Definition expiredRingCap : nat := 64.

Definition newShardedState : shardedState := mkReg ∅ ∅ [] (replicate shardCount (mkShard ∅ ∅)).

Definition shardFor (name : string) : nat :=
  Z.to_nat (fnv32a (bytes_of name) mod Z.of_nat shardCount).

Definition get_shard (s : shardedState) (i : nat) : shard := default (mkShard ∅ ∅) (shards s !! i).

Definition with_shard (s : shardedState) (i : nat) (sh : shard) : shardedState :=
  mkReg (pending s) (nodeIndex s) (expired s) (<[i := sh]> (shards s)).
Definition with_pending (s : shardedState) p : shardedState :=
  mkReg p (nodeIndex s) (expired s) (shards s).

(** ** Reads *)

Definition lookup_entry (s : shardedState) (name : string) : option nameEntry :=
  names (get_shard s (shardFor name)) !! name.

Definition Lookup (s : shardedState) (name : string) : option PID := nPID <$> lookup_entry s name.

Definition LookupWithIndex (s : shardedState) (name : string) : option (PID * Z) :=
  (λ e, (nPID e, nApplied e)) <$> lookup_entry s name.

Definition Len (s : shardedState) : nat := sum_list ((λ sh, size (names sh)) <$> shards s).

Definition LookupByPID (s : shardedState) (p : PID) : list string :=
  concat ((λ sh, default [] (pidNames sh !! toString p)) <$> shards s).

(** ** Writes *)

Inductive registerOutcome := registerInserted | registerDedupe | registerConflict.

Definition addToNodeIndex (s : shardedState) (node pidKey : string) : shardedState :=
  mkReg (pending s) (<[node := {[pidKey]} ∪ default ∅ (nodeIndex s !! node)]> (nodeIndex s)) (expired s) (shards s).

(** [sh.names[name] = e] with the entry's reverse index. *)
Definition add_name (s : shardedState) (name : string) (e : nameEntry) : shardedState :=
  let i := shardFor name in
  let sh := get_shard s i in
  let pk := toString (nPID e) in
  let sh := mkShard (<[name := e]> (names sh))
                    (<[pk := default [] (pidNames sh !! pk) ++ [name]]> (pidNames sh)) in
  addToNodeIndex (with_shard s i sh) (nNode e) pk.

Definition register (s : shardedState) (name : string) (p : PID) (node : string) (index : Z)
    : PID * Z * registerOutcome * shardedState :=
  match pending s !! name with
  | Some e =>
      if Equal (pPID e) p then (p, pEpoch e, registerDedupe, s)
      else (pPID e, pEpoch e, registerConflict, s)
  | None =>
      match names (get_shard s (shardFor name)) !! name with
      | Some existing =>
          if Equal (nPID existing) p then (p, nApplied existing, registerDedupe, s)
          else (nPID existing, nApplied existing, registerConflict, s)
      | None => (p, index, registerInserted, add_name s name (mkName p node [] index 0))
      end
  end.

Inductive pendingOutcome := pendingInserted | pendingDedupe | pendingConflictActive | pendingConflictPending.

Definition registerPending (s : shardedState) (name : string) (p : PID) (node : string) (epoch : Z)
    (required : list string) (deadline createdAt : Z) : PID * pendingOutcome * shardedState :=
  match names (get_shard s (shardFor name)) !! name with
  | Some existing =>
      if Equal (nPID existing) p then (p, pendingDedupe, s) else (nPID existing, pendingConflictActive, s)
  | None =>
      match pending s !! name with
      | Some e =>
          if Equal (pPID e) p && bool_decide (pEpoch e = epoch) then (p, pendingDedupe, s)
          else (pPID e, pendingConflictPending, s)
      | None =>
          (p, pendingInserted,
           with_pending s (<[name := mkPend ∅ p name node required epoch deadline createdAt]> (pending s)))
      end
  end.

Definition ackComplete (e : pendingEntry) : bool := forallb (λ n, bool_decide (n ∈ AckSet e)) (pRequired e).

(** [None]: no such reservation. Otherwise the entry after the update, whether the ack
    is new, and whether the set is complete. *)
Definition recordAck (s : shardedState) (name : string) (epoch : Z) (acker : string)
    : option (pendingEntry * bool * bool) * shardedState :=
  match pending s !! name with
  | Some e =>
      if bool_decide (pEpoch e ≠ epoch) then (None, s) else
      if bool_decide (acker ∈ AckSet e) then (Some (e, false, ackComplete e), s) else
      let e := mkPend ({[acker]} ∪ AckSet e) (pPID e) (pName e) (pNode e) (pRequired e) (pEpoch e)
                 (pDeadline e) (pCreated e) in
      (Some (e, true, ackComplete e), with_pending s (<[name := e]> (pending s)))
  | None => (None, s)
  end.

(** Remove the first occurrence. *)
Fixpoint remove_first (x : string) (l : list string) : option (list string) :=
  match l with
  | [] => None
  | y :: l => if bool_decide (y = x) then Some l else (y ::.) <$> remove_first x l
  end.

Definition dropRequired (s : shardedState) (name : string) (epoch : Z) (node : string)
    : option (pendingEntry * bool * bool) * shardedState :=
  match pending s !! name with
  | Some e =>
      if bool_decide (pEpoch e ≠ epoch) then (None, s) else
      match remove_first node (pRequired e) with
      | None => (Some (e, false, ackComplete e), s)
      | Some req =>
          let e := mkPend (AckSet e) (pPID e) (pName e) (pNode e) req (pEpoch e) (pDeadline e) (pCreated e) in
          (Some (e, true, ackComplete e), with_pending s (<[name := e]> (pending s)))
      end
  | None => (None, s)
  end.

Definition missing (e : pendingEntry) : list string := filter (λ n, n ∉ AckSet e) (pRequired e).

(** The bounded history: append, or drop the oldest. *)
Definition push_expired (l : list ExpiredRecord) (r : ExpiredRecord) : list ExpiredRecord :=
  if bool_decide (length l < expiredRingCap)%nat then l ++ [r] else drop 1 l ++ [r].

Definition with_expired (s : shardedState) (r : ExpiredRecord) : shardedState :=
  mkReg (pending s) (nodeIndex s) (push_expired (expired s) r) (shards s).

Definition rejectPending (s : shardedState) (name : string) (epoch : Z) (rejecter reason : string) (at_ : Z)
    : option pendingEntry * shardedState :=
  match pending s !! name with
  | Some e =>
      if bool_decide (pEpoch e ≠ epoch) then (None, s) else
      (Some e, with_expired (with_pending s (delete name (pending s)))
                 (mkExp (pPID e) name reason rejecter (missing e) epoch at_))
  | None => (None, s)
  end.

Definition promotePending (s : shardedState) (name : string) (epoch activationIndex : Z)
    : option pendingEntry * shardedState :=
  match pending s !! name with
  | Some e =>
      if bool_decide (pEpoch e ≠ epoch) then (None, s) else
      (Some e, add_name (with_pending s (delete name (pending s))) name
                 (mkName (pPID e) (pNode e) (pRequired e) activationIndex (pEpoch e)))
  | None => (None, s)
  end.

Definition expirePending (s : shardedState) (name : string) (epoch : Z) (reason : string) (at_ : Z)
    : option (pendingEntry * list string) * shardedState :=
  match pending s !! name with
  | Some e =>
      if bool_decide (pEpoch e ≠ epoch) then (None, s) else
      (Some (e, missing e), with_expired (with_pending s (delete name (pending s)))
                              (mkExp (pPID e) name reason "" (missing e) epoch at_))
  | None => (None, s)
  end.

(** [Some e] is a dropped reservation; [None] covers both a missing one and one of
    another PID. *)
Definition unreservePending (s : shardedState) (name : string) (p : PID) : option pendingEntry * shardedState :=
  match pending s !! name with
  | Some e =>
      if negb (Equal p Zero) && negb (Equal (pPID e) p) then (None, s)
      else (Some e, with_pending s (delete name (pending s)))
  | None => (None, s)
  end.

Definition removePIDName (sh : shard) (pidKey name : string) : shard :=
  let pn := match remove_first name (default [] (pidNames sh !! pidKey)) with
            | Some l => <[pidKey := l]> (pidNames sh)
            | None => pidNames sh
            end in
  mkShard (names sh)
    (if bool_decide (default [] (pn !! pidKey) = []) then delete pidKey pn else pn).

Definition unregisterEntry (s : shardedState) (name : string) : option nameEntry * shardedState :=
  let i := shardFor name in
  let sh := get_shard s i in
  match names sh !! name with
  | None => (None, s)
  | Some e =>
      let sh := mkShard (delete name (names sh)) (pidNames sh) in
      (Some e, with_shard s i (removePIDName sh (toString (nPID e)) name))
  end.

Definition lookupPendingByPID (s : shardedState) (p : PID) : list string :=
  (filter (λ kv, pPID kv.2 = p) (map_to_list (pending s))).*1.

Record strongTerminal := mkTerm { tName : string; tPID : PID; tRequired : list string; tEpoch : Z }.

Definition dropNameLocked (sh : shard) (name : string)
    : option (nameEntry * option strongTerminal) * shard :=
  match names sh !! name with
  | None => (None, sh)
  | Some e =>
      let st := if bool_decide (0 < length (nRequired e))%nat
                then Some (mkTerm name (nPID e) (nRequired e) (nEpoch e)) else None in
      (Some (e, st), mkShard (delete name (names sh)) (pidNames sh))
  end.

(** The accumulators of the removal loops. *)
Record removal := mkRem {
  r_shard : shard; r_count : Z; r_names : list (string * PID); r_strongs : list strongTerminal
}.

(** The name loop: stops when [cap] names have been removed (a negative [cap] is no
    limit) and returns the names not reached. *)
Fixpoint drop_names (cap : Z) (r : removal) (ns : list string) : removal * list string :=
  match ns with
  | [] => (r, [])
  | n :: rest =>
      if bool_decide (0 ≤ cap) && bool_decide (cap ≤ r_count r) then (r, ns) else
      match dropNameLocked (r_shard r) n with
      | (None, _) => drop_names cap r rest
      | (Some (e, st), sh) =>
          drop_names cap
            (mkRem sh (r_count r + 1) (r_names r ++ [(n, nPID e)])
               (r_strongs r ++ match st with Some st => [st] | None => [] end)) rest
      end
  end.

(** One PID of one shard; the flag says the limit was hit. *)
Definition drop_pid (cap : Z) (acc : removal * bool) (pidKey : string) : removal * bool :=
  let '(r, hit) := acc in
  if hit then acc else
  match pidNames (r_shard r) !! pidKey with
  | None => acc
  | Some ns =>
      let '(r, rest) := drop_names cap r ns in
      let sh := r_shard r in
      match rest with
      | [] => (mkRem (mkShard (names sh) (delete pidKey (pidNames sh))) (r_count r) (r_names r) (r_strongs r), false)
      | _ => (mkRem (mkShard (names sh) (<[pidKey := rest]> (pidNames sh))) (r_count r) (r_names r) (r_strongs r), true)
      end
  end.

(** One shard; shards after the limit was hit are left alone. *)
Definition drop_shard (cap : Z) (pidKeys : list string) (acc : list shard * removal * bool) (sh : shard)
    : list shard * removal * bool :=
  let '(done, r, hit) := acc in
  if hit then (done ++ [sh], r, true) else
  let '(r, hit) := foldl (drop_pid cap) (mkRem sh (r_count r) (r_names r) (r_strongs r), false) pidKeys in
  (done ++ [r_shard r], r, hit).

Definition drop_shards (cap : Z) (pidKeys : list string) (shs : list shard) : list shard * removal * bool :=
  foldl (drop_shard cap pidKeys) ([], mkRem (mkShard ∅ ∅) 0 [] [], false) shs.

(** [delete(ps.pids, k)] for each of [ks], dropping the set when it is empty. *)
Definition prune (ks : gset string) (ps : gset string) : option (gset string) :=
  let ps := ps ∖ ks in if bool_decide (ps = ∅) then None else Some ps.

Definition removePIDWithNames (s : shardedState) (p : PID) : list string * Z * list strongTerminal * shardedState :=
  let pk := toString p in
  let '(shs, r, _) := drop_shards (-1) [pk] (shards s) in
  ((r_names r).*1, r_count r, r_strongs r,
   mkReg (pending s) (omap (prune {[pk]}) (nodeIndex s)) (expired s) shs).

(** [order] lists the keys of a set in the order Go's map iteration produced. *)
Definition removeNodeWithNames (order : gset string → list string) (s : shardedState) (node : string) (limit : Z)
    : list (string * PID) * Z * bool * list strongTerminal * shardedState :=
  match nodeIndex s !! node with
  | None => ([], 0, false, [], s)
  | Some ps =>
      let pidKeys := order ps in
      let cap := if bool_decide (limit ≤ 0) then -1 else limit in
      let '(shs, r, hit) := drop_shards cap pidKeys (shards s) in
      let ni := if hit then nodeIndex s else
                match prune (list_to_set pidKeys) ps with
                | None => delete node (nodeIndex s)
                | Some ps => <[node := ps]> (nodeIndex s)
                end in
      (r_names r, r_count r, hit, r_strongs r, mkReg (pending s) ni (expired s) shs)
  end.

(** ** Views *)

Record PendingView := mkView {
  vPID : PID; vName : string; vRequired : list string; vAcks : list string; vMissing : list string;
  vEpoch : Z; vDeadline : Z; vCreated : Z
}.

Definition view (e : pendingEntry) : PendingView :=
  mkView (pPID e) (pName e) (pRequired e) (elements (AckSet e)) (missing e) (pEpoch e) (pDeadline e) (pCreated e).

Definition pendingByName (s : shardedState) (name : string) : option PendingView := view <$> pending s !! name.
Definition listPending (s : shardedState) : list PendingView := view <$> (map_to_list (pending s)).*2.
Definition PendingLen (s : shardedState) : nat := size (pending s).
Definition expiredSnapshot (s : shardedState) : list ExpiredRecord := expired s.

(** All active names with their entries, shard by shard. *)
Definition all_entries (s : shardedState) : list (string * nameEntry) :=
  concat ((λ sh, map_to_list (names sh)) <$> shards s).

Definition allActiveNames (s : shardedState) : list string := (all_entries s).*1.

Definition listActiveConsistent (s : shardedState) : list (string * PID * Z) :=
  (λ kv, (kv.1, nPID kv.2, nApplied kv.2)) <$> filter (λ kv, nRequired kv.2 = []) (all_entries s).

Definition listActiveStrong (s : shardedState) : list (string * PID * Z) :=
  (λ kv, (kv.1, nPID kv.2, nEpoch kv.2)) <$> filter (λ kv, nRequired kv.2 ≠ []) (all_entries s).

(** ** Snapshot and restore *)

Record snapshotEntry := mkSE {
  sePID : PID; seName : string; seNode : string; seRequired : list string; seEpoch : Z; seApplied : Z
}.

Record pendingSnapshotEntry := mkPSE {
  psPID : PID; psName : string; psNode : string; psRequired : list string; psAcks : list string;
  psEpoch : Z; psDeadline : Z; psCreated : Z
}.

Record fsmSnapshotPayload := mkPayload { Entries : list snapshotEntry; Pending : list pendingSnapshotEntry }.

Definition snapshot (s : shardedState) : list snapshotEntry :=
  (λ kv, mkSE (nPID kv.2) kv.1 (nNode kv.2) (nRequired kv.2) (nEpoch kv.2) (nApplied kv.2)) <$> all_entries s.

(** [snapshotAbove]: only the entries newer than [threshold], without the Strong
    fields, and the highest index seen. *)
Definition snapshotAbove (s : shardedState) (threshold : Z) : list snapshotEntry * Z :=
  let l := filter (λ kv, threshold < nApplied kv.2) (all_entries s) in
  ((λ kv, mkSE (nPID kv.2) kv.1 (nNode kv.2) [] 0 (nApplied kv.2)) <$> l,
   foldl (λ m kv, if bool_decide (m < nApplied kv.2) then nApplied kv.2 else m) 0 l).

Definition pendingSnapshot (s : shardedState) : list pendingSnapshotEntry :=
  (λ e, mkPSE (pPID e) (pName e) (pNode e) (pRequired e) (elements (AckSet e)) (pEpoch e) (pDeadline e)
          (pCreated e)) <$> (map_to_list (pending s)).*2.

Definition restore_name (s : shardedState) (e : snapshotEntry) : shardedState :=
  add_name s (seName e) (mkName (sePID e) (seNode e) (seRequired e) (seApplied e) (seEpoch e)).

Definition restore_pending (m : gmap string pendingEntry) (p : pendingSnapshotEntry) : gmap string pendingEntry :=
  <[psName p := mkPend (list_to_set (psAcks p)) (psPID p) (psName p) (psNode p) (psRequired p) (psEpoch p)
                  (psDeadline p) (psCreated p)]> m.

(** The history of released reservations is not part of the snapshot. *)
Definition restore (s : shardedState) (entries : list snapshotEntry) (pend : list pendingSnapshotEntry)
    : shardedState :=
  let fresh := mkReg (pending s) ∅ (expired s) (replicate shardCount (mkShard ∅ ∅)) in
  with_pending (foldl restore_name fresh entries) (foldl restore_pending ∅ pend).

(** ** Invariant *)

Section invariant.
(** Every printed PID registers from one node. *)
Variable node_of : string → string.

Record shard_wf (i : nat) (sh : shard) : Prop := {
  sw_place : ∀ n e, names sh !! n = Some e → shardFor n = i;
  sw_pids : ∀ pk n, n ∈ default [] (pidNames sh !! pk) ↔
    ∃ e, names sh !! n = Some e ∧ toString (nPID e) = pk;
  sw_nodup : ∀ pk, NoDup (default [] (pidNames sh !! pk))
}.

(** Names sit in their shard, the reverse index and the node index are exact, a
    reserved name is not active, and the history is bounded. *)
Record reg_wf (s : shardedState) : Prop := {
  rw_len : length (shards s) = shardCount;
  rw_shards : ∀ i sh, shards s !! i = Some sh → shard_wf i sh;
  rw_index : ∀ n e, lookup_entry s n = Some e → toString (nPID e) ∈ default ∅ (nodeIndex s !! nNode e);
  rw_node : ∀ node pk, pk ∈ default ∅ (nodeIndex s !! node) → node_of pk = node;
  rw_disj : ∀ n p, pending s !! n = Some p → lookup_entry s n = None;
  rw_pend : ∀ n p, pending s !! n = Some p → pName p = n ∧ pNode p = node_of (toString (pPID p));
  rw_ring : (length (expired s) ≤ expiredRingCap)%nat
}.

Lemma shardFor_lt n : (shardFor n < shardCount)%nat.
Proof.
  unfold shardFor. pose proof (Z.mod_pos_bound (fnv32a (bytes_of n)) (Z.of_nat shardCount)).
  unfold shardCount in *. lia.
Qed.

Lemma get_shard_wf s i : reg_wf s → (i < shardCount)%nat → shard_wf i (get_shard s i) ∧ shards s !! i = Some (get_shard s i).
Proof.
  intros Hs Hi. unfold get_shard. destruct (lookup_lt_is_Some_2 (shards s) i) as [sh Hsh].
  { by rewrite (rw_len _ Hs). }
  rewrite Hsh. split; [by apply (rw_shards _ Hs)|done].
Qed.

Lemma lookup_with_shard s i sh n :
  (i < length (shards s))%nat →
  lookup_entry (with_shard s i sh) n = if decide (shardFor n = i) then names sh !! n else lookup_entry s n.
Proof.
  intros Hi. unfold lookup_entry, get_shard, with_shard. cbn [shards].
  destruct (decide (shardFor n = i)) as [->|Hne].
  - by rewrite list_lookup_insert_eq.
  - by rewrite list_lookup_insert_ne.
Qed.

Lemma empty_shards_lookup p ni x n :
  lookup_entry (mkReg p ni x (replicate shardCount (mkShard ∅ ∅))) n = None.
Proof.
  unfold lookup_entry, get_shard. cbn [shards].
  rewrite lookup_replicate_2 by apply shardFor_lt. apply lookup_empty.
Qed.

Lemma empty_shards_wf p x :
  (∀ n e, p !! n = Some e → pName e = n ∧ pNode e = node_of (toString (pPID e))) →
  (length x ≤ expiredRingCap)%nat →
  reg_wf (mkReg p ∅ x (replicate shardCount (mkShard ∅ ∅))).
Proof.
  intros Hp Hx. split; cbn [shards pending nodeIndex expired].
  - by rewrite length_replicate.
  - intros i sh Hi. apply lookup_replicate in Hi as [-> _]. split; cbn [names pidNames].
    + intros n e. by rewrite lookup_empty.
    + intros pk n. rewrite lookup_empty. cbn. rewrite elem_of_nil. split; [done|].
      intros (e & He & _). by rewrite lookup_empty in He.
    + intros pk. rewrite lookup_empty. apply NoDup_nil_2.
  - intros n e. by rewrite empty_shards_lookup.
  - intros node pk. rewrite lookup_empty. cbn. by rewrite elem_of_empty.
  - intros n e _. apply empty_shards_lookup.
  - done.
  - done.
Qed.

Lemma newShardedState_wf : reg_wf newShardedState.
Proof. apply empty_shards_wf; [intros n e; by rewrite lookup_empty|cbn; lia]. Qed.

(** A shard replaced by a well-formed one. *)
Lemma with_shard_wf s i sh :
  reg_wf s → (i < shardCount)%nat → shard_wf i sh →
  (∀ n e, names sh !! n = Some e → toString (nPID e) ∈ default ∅ (nodeIndex s !! nNode e) ∧ pending s !! n = None) →
  reg_wf (with_shard s i sh).
Proof.
  intros Hs Hi Hsh He. assert (Hl : (i < length (shards s))%nat) by (by rewrite (rw_len _ Hs)).
  split; cbn [shards with_shard pending nodeIndex expired]; try apply Hs.
  - rewrite length_insert. apply Hs.
  - intros j sh' Hj. apply list_lookup_insert_Some in Hj as [(<- & <- & _)|[_ Hj]]; [done|by apply (rw_shards _ Hs)].
  - intros n e. rewrite lookup_with_shard by done. destruct (decide _); [by intros Hn; apply (He n)|apply Hs].
  - intros n p Hp. rewrite lookup_with_shard by done. destruct (decide _); [|by eapply (rw_disj _ Hs)].
    destruct (names sh !! n) as [en|] eqn:En; [|done]. apply He in En as [_ En]. congruence.
Qed.

Lemma addToNodeIndex_wf s node pk :
  reg_wf s → node_of pk = node → reg_wf (addToNodeIndex s node pk).
Proof.
  intros [W1 W2 W3 W4 W5 W6 W7] Hn.
  assert (Hi : ∀ nd x, x ∈ default ∅ (nodeIndex (addToNodeIndex s node pk) !! nd) ↔
    x ∈ default ∅ (nodeIndex s !! nd) ∨ (nd = node ∧ x = pk)).
  { intros nd x. cbn. rewrite lookup_insert. destruct (decide (node = nd)) as [<-|Hne].
    - cbn. rewrite elem_of_union, elem_of_singleton. tauto.
    - split; [by left|]. intros [?|[? _]]; congruence. }
  split; try done.
  - intros n e He. apply Hi. left. by apply (W3 n).
  - intros nd x Hx. apply Hi in Hx as [Hx|[-> ->]]; [by apply W4|done].
Qed.

(** Effect and preservation for adding a name. *)
Lemma add_name_lookup s name e n :
  reg_wf s → lookup_entry (add_name s name e) n = if decide (n = name) then Some e else lookup_entry s n.
Proof.
  intros Hs. unfold add_name.
  change (lookup_entry (addToNodeIndex ?x _ _) n) with (lookup_entry x n).
  rewrite lookup_with_shard by (rewrite (rw_len _ Hs); apply shardFor_lt). cbn [names].
  destruct (decide (n = name)) as [->|Hne].
  - rewrite decide_True by done. by rewrite lookup_insert_eq.
  - destruct (decide (shardFor n = shardFor name)) as [Heq|?]; [|done].
    rewrite lookup_insert_ne by done. unfold lookup_entry. by rewrite Heq.
Qed.

Lemma add_name_wf s name e :
  reg_wf s → lookup_entry s name = None → pending s !! name = None →
  nNode e = node_of (toString (nPID e)) → reg_wf (add_name s name e).
Proof.
  intros Hs Hn Hp Hnode. unfold add_name. set (i := shardFor name). set (pk := toString (nPID e)).
  pose proof (shardFor_lt name) as Hi. destruct (get_shard_wf s i Hs Hi) as [[S1 S2 S3] Hsh].
  set (s1 := addToNodeIndex s (nNode e) pk).
  assert (Hs1 : reg_wf s1) by (apply addToNodeIndex_wf; done).
  change (addToNodeIndex (with_shard s i ?sh) ?a ?b) with (with_shard (addToNodeIndex s a b) i sh).
  apply with_shard_wf; [done|done| |].
  - split; cbn [names pidNames].
    + intros n e'. rewrite lookup_insert_Some. intros [[<- _]|[_ He']]; [done|by eapply S1].
    + intros pk' n. rewrite !lookup_insert. destruct (decide (pk = pk')) as [<-|Hpk].
      * cbn. rewrite elem_of_app, S2, list_elem_of_singleton.
        destruct (decide (name = n)) as [<-|Hne]; [split; eauto|].
        split; [by intros [?|?]; [|congruence]|by left].
      * rewrite S2. destruct (decide (name = n)) as [<-|Hne]; [|done].
        split; [|by intros (e' & [= <-] & He'); destruct (Hpk He')].
        intros (e' & He' & _). unfold lookup_entry in Hn. fold i in Hn. congruence.
    + intros pk'. rewrite lookup_insert. destruct (decide (pk = pk')) as [<-|Hpk]; [|apply S3].
      cbn. apply NoDup_app. split_and!; [apply S3| |apply NoDup_singleton].
      intros n Hx Hy%list_elem_of_singleton. subst n. apply S2 in Hx as (e' & He' & _).
      unfold lookup_entry in Hn. fold i in Hn. congruence.
  - cbn [names]. intros n e'. rewrite lookup_insert_Some. intros [[<- <-]|[Hne He']].
    + split; [|done]. cbn. rewrite lookup_insert_eq. cbn. apply elem_of_union. left. by apply elem_of_singleton.
    + assert (Hl : lookup_entry s n = Some e') by (unfold lookup_entry; by rewrite (S1 n e' He')).
      split; [by apply (rw_index _ Hs1 n)|]. cbn. destruct (pending s !! n) as [p|] eqn:Ep; [|done].
      apply (rw_disj _ Hs) in Ep. congruence.
Qed.

Lemma remove_first_spec x l :
  match remove_first x l with
  | Some l' => ∃ a b, l = a ++ x :: b ∧ l' = a ++ b
  | None => x ∉ l
  end.
Proof.
  induction l as [|y l IH]; cbn; [apply not_elem_of_nil|].
  destruct (bool_decide_reflect (y = x)) as [->|Hne]; [by exists [], l|].
  destruct (remove_first x l) as [l'|]; cbn.
  - destruct IH as (a & b & -> & ->). by exists (y :: a), b.
  - apply not_elem_of_cons. split; [congruence|done].
Qed.

Lemma remove_first_nodup x l :
  NoDup l → x ∈ l →
  ∃ l', remove_first x l = Some l' ∧ NoDup l' ∧ ∀ y, y ∈ l' ↔ y ∈ l ∧ y ≠ x.
Proof.
  intros Hnd Hx. pose proof (remove_first_spec x l) as Hr. destruct (remove_first x l) as [l'|]; [|done].
  destruct Hr as (a & b & -> & ->). exists (a ++ b). split; [done|].
  rewrite <- Permutation_middle in Hnd. apply NoDup_cons in Hnd as [Hn Hnd]. split; [done|].
  intros y. rewrite !elem_of_app, elem_of_cons. rewrite elem_of_app in Hn. split.
  - intros Hy. split; [tauto|]. intros ->. tauto.
  - intros [[?|[?|?]] ?]; tauto.
Qed.

(** Forgetting a name in the shard that holds it. *)
Lemma removePIDName_wf i sh name e :
  shard_wf i sh → names sh !! name = Some e →
  shard_wf i (removePIDName (mkShard (delete name (names sh)) (pidNames sh)) (toString (nPID e)) name).
Proof.
  intros [S1 S2 S3] He. set (pk := toString (nPID e)).
  destruct (remove_first_nodup name (default [] (pidNames sh !! pk)) (S3 pk)) as (l & Hl & Hnd & Hel).
  { apply S2. eauto. }
  unfold removePIDName. cbn [names pidNames]. rewrite Hl.
  assert (Hpn : ∀ pk', default [] ((if bool_decide (default [] (<[pk:=l]> (pidNames sh) !! pk) = [])
      then delete pk (<[pk:=l]> (pidNames sh)) else <[pk:=l]> (pidNames sh)) !! pk') =
      if decide (pk = pk') then l else default [] (pidNames sh !! pk')).
  { intros pk'. rewrite lookup_insert_eq. change (default [] (Some l)) with l.
    destruct (bool_decide_reflect (l = [])) as [->|Hne]; [rewrite lookup_delete|];
      rewrite lookup_insert; by destruct (decide (pk = pk')). }
  split; cbn [names pidNames].
  - intros n e'. rewrite lookup_delete_Some. intros [_ He']. by eapply S1.
  - intros pk' n. rewrite Hpn. destruct (decide (pk = pk')) as [<-|Hne].
    + rewrite Hel, S2. split.
      * intros [(e' & He' & Hpk) Hn]. exists e'. by rewrite lookup_delete_ne.
      * intros (e' & [Hn He']%lookup_delete_Some & Hpk). split; [eauto|done].
    + rewrite S2. split; intros (e' & He' & Hpk).
      * exists e'. split; [|done]. rewrite lookup_delete_ne; [done|]. intros ->. apply Hne. unfold pk. congruence.
      * apply lookup_delete_Some in He' as [_ He']. eauto.
  - intros pk'. rewrite Hpn. destruct (decide (pk = pk')); [done|apply S3].
Qed.

Lemma unregisterEntry_spec s name :
  reg_wf s →
  let '(r, s') := unregisterEntry s name in
  r = lookup_entry s name ∧ reg_wf s' ∧ pending s' = pending s ∧ expired s' = expired s ∧
  ∀ n, lookup_entry s' n = if decide (n = name) then None else lookup_entry s n.
Proof.
  intros Hs. unfold unregisterEntry. set (i := shardFor name). pose proof (shardFor_lt name) as Hi. fold i in Hi.
  destruct (get_shard_wf s i Hs Hi) as [Hsh Hget].
  assert (Hln : lookup_entry s name = names (get_shard s i) !! name) by done. rewrite <- Hln.
  destruct (lookup_entry s name) as [e|] eqn:He.
  2:{ split_and!; try done. intros n. destruct (decide (n = name)) as [->|]; [done|done]. }
  assert (Hlk : ∀ n, lookup_entry (with_shard s i (removePIDName (mkShard (delete name (names (get_shard s i)))
      (pidNames (get_shard s i))) (toString (nPID e)) name)) n = if decide (n = name) then None else lookup_entry s n).
  { intros n. rewrite lookup_with_shard by (by rewrite (rw_len _ Hs)). cbn [names removePIDName].
    destruct (decide (n = name)) as [->|Hne].
    - rewrite decide_True by done. apply lookup_delete_eq.
    - destruct (decide (shardFor n = i)) as [Heq|?]; [|done]. rewrite lookup_delete_ne by done.
      unfold lookup_entry. by rewrite Heq. }
  split_and!; [done| |done|done|done]. apply with_shard_wf; [done|done| |].
  - apply removePIDName_wf; [done|by rewrite <- Hln].
  - cbn [names removePIDName]. intros n e' [_ He']%lookup_delete_Some.
    assert (Hl : lookup_entry s n = Some e') by (unfold lookup_entry; by rewrite (sw_place _ _ Hsh n e' He')).
    split; [by apply (rw_index _ Hs n)|]. destruct (pending s !! n) as [p|] eqn:Ep; [|done].
    apply (rw_disj _ Hs) in Ep. congruence.
Qed.

(** Changes to the pending table only. *)
Lemma with_pending_wf s p :
  reg_wf s → (∀ n e, p !! n = Some e →
    lookup_entry s n = None ∧ pName e = n ∧ pNode e = node_of (toString (pPID e))) →
  reg_wf (with_pending s p).
Proof.
  intros [W1 W2 W3 W4 W5 W6 W7] Hp. split; try done; intros n e He; apply Hp in He; by destruct He as (? & ? & ?).
Qed.

Lemma delete_pending_wf s name : reg_wf s → reg_wf (with_pending s (delete name (pending s))).
Proof.
  intros Hs. apply with_pending_wf; [done|]. intros n e [_ He]%lookup_delete_Some.
  destruct (rw_pend _ Hs n e He). split_and!; [by eapply (rw_disj _ Hs)|done|done].
Qed.

Lemma update_pending_wf s name e e' :
  reg_wf s → pending s !! name = Some e → pName e' = pName e → pNode e' = pNode e → pPID e' = pPID e →
  reg_wf (with_pending s (<[name := e']> (pending s))).
Proof.
  intros Hs He E1 E2 E3. apply with_pending_wf; [done|]. intros n x [[<- <-]|[_ Hx]]%lookup_insert_Some.
  - destruct (rw_pend _ Hs name e He). split_and!; [by eapply (rw_disj _ Hs)|congruence|congruence].
  - destruct (rw_pend _ Hs n x Hx). split_and!; [by eapply (rw_disj _ Hs)|done|done].
Qed.

Lemma push_expired_cap l r : (length l ≤ expiredRingCap)%nat → (length (push_expired l r) ≤ expiredRingCap)%nat.
Proof.
  unfold push_expired. intros Hl. case_bool; rewrite length_app; cbn [length]; [lia|].
  rewrite length_drop. unfold expiredRingCap in *. lia.
Qed.

Lemma with_expired_wf s r : reg_wf s → reg_wf (with_expired s r).
Proof. intros [W1 W2 W3 W4 W5 W6 W7]. split; try done. by apply push_expired_cap. Qed.

(** ** Bulk removal *)

Definition terminal_of (n : string) (e : nameEntry) : strongTerminal :=
  mkTerm n (nPID e) (nRequired e) (nEpoch e).

(** Between [r] and [r'] exactly the names [T] were removed, all of PIDs in [K], and
    reported with their PIDs and, for Strong names, their terminals. [L] is the name
    table before. *)
Record removes (K : list string) (L : string → option nameEntry) (r r' : removal) (T : list string) : Prop := {
  rm_nodup : NoDup T;
  rm_in : ∀ n, n ∈ T → ∃ e, L n = Some e ∧ toString (nPID e) ∈ K;
  rm_count : r_count r' = r_count r + Z.of_nat (length T);
  rm_names : ∃ P, r_names r' = r_names r ++ P ∧ P.*1 = T ∧ ∀ n p, (n, p) ∈ P → nPID <$> L n = Some p;
  rm_strongs : ∃ S, r_strongs r' = r_strongs r ++ S ∧ ∀ st, st ∈ S ↔
    ∃ n e, n ∈ T ∧ L n = Some e ∧ nRequired e ≠ [] ∧ st = terminal_of n e
}.

Lemma removes_nil K L r r' :
  r_count r' = r_count r → r_names r' = r_names r → r_strongs r' = r_strongs r → removes K L r r' [].
Proof.
  intros E1 E2 E3. split.
  - apply NoDup_nil_2.
  - intros n Hn. by apply elem_of_nil in Hn.
  - rewrite E1. cbn. lia.
  - exists []. rewrite E2, app_nil_r. split_and!; try done. intros n p Hx. by apply elem_of_nil in Hx.
  - exists []. rewrite E3, app_nil_r. split; [done|]. intros st. rewrite elem_of_nil. split; [done|].
    intros (n & e & Hx & _). by apply elem_of_nil in Hx.
Qed.

Lemma removes_app K L L' r r1 r2 T1 T2 :
  removes K L r r1 T1 → removes K L' r1 r2 T2 → (∀ n, n ∈ T2 → L' n = L n ∧ n ∉ T1) →
  removes K L r r2 (T1 ++ T2).
Proof.
  intros [A1 A2 A3 (P1 & A4 & A4' & A4'') (S1 & A5 & A5')] [B1 B2 B3 (P2 & B4 & B4' & B4'') (S2 & B5 & B5')] Hd.
  split.
  - apply NoDup_app. split_and!; [done| |done]. intros n H1 H2. by destruct (Hd n H2).
  - intros n [Hn|Hn]%elem_of_app; [by apply A2|]. destruct (Hd n Hn) as [<- _]. by apply B2.
  - rewrite B3, A3, length_app. lia.
  - exists (P1 ++ P2). split_and!; [by rewrite B4, A4, app_assoc|by rewrite fmap_app, A4', B4'|].
    intros n p [Hx|Hx]%elem_of_app; [by apply A4''|].
    assert (Hn : n ∈ T2) by (rewrite <- B4'; apply list_elem_of_fmap; by exists (n, p)).
    destruct (Hd n Hn) as [<- _]. by apply B4''.
  - exists (S1 ++ S2). split; [by rewrite B5, A5, app_assoc|]. intros st. rewrite elem_of_app, A5', B5'.
    split.
    + intros [(n & e & Hn & Hx)|(n & e & Hn & He & Hx)]; exists n, e; rewrite elem_of_app; [tauto|].
      destruct (Hd n Hn) as [Hl _]. rewrite <- Hl. tauto.
    + intros (n & e & [Hn|Hn]%elem_of_app & He & Hx); [left; by exists n, e|right]. exists n, e.
      destruct (Hd n Hn) as [-> _]. done.
Qed.

Lemma removes_ext K K' L L' r r' T :
  removes K L r r' T → (∀ n, n ∈ T → L n = L' n) → (∀ pk, pk ∈ K → pk ∈ K') → removes K' L' r r' T.
Proof.
  intros [A1 A2 A3 (P1 & A4 & A4' & A4'') (S1 & A5 & A5')] He HK. split; try done.
  - intros n Hn. destruct (A2 n Hn) as (e & Hl & Hk). exists e. rewrite <- He by done. auto.
  - exists P1. split_and!; try done. intros n p Hx. rewrite <- He; [by apply A4''|].
    rewrite <- A4'. apply list_elem_of_fmap. by exists (n, p).
  - exists S1. split; [done|]. intros st. rewrite A5'. split; intros (n & e & Hn & Hl & Hx); exists n, e;
      [rewrite <- He by done|rewrite He by done]; done.
Qed.

(** The limit: none when [cap] is negative. *)
Definition capped (cap : Z) (c : Z) : Prop := 0 ≤ cap → c ≤ cap.

Lemma drop_names_spec cap pk ns r :
  NoDup ns → (∀ n, n ∈ ns → ∃ e, names (r_shard r) !! n = Some e ∧ toString (nPID e) = pk) →
  capped cap (r_count r) →
  let '(r', rest) := drop_names cap r ns in
  ∃ T, ns = T ++ rest ∧ removes [pk] (λ n, names (r_shard r) !! n) r r' T ∧
    pidNames (r_shard r') = pidNames (r_shard r) ∧
    (∀ n, names (r_shard r') !! n = if decide (n ∈ T) then None else names (r_shard r) !! n) ∧
    capped cap (r_count r') ∧ (rest ≠ [] → 0 ≤ cap ∧ r_count r' = cap).
Proof.
  revert r. induction ns as [|n ns IH]; intros r Hnd Hin Hcap; cbn [drop_names].
  { exists []. split_and!; try done. by apply removes_nil. }
  destruct (bool_decide (0 ≤ cap) && bool_decide (cap ≤ r_count r)) eqn:Eb.
  { apply andb_prop in Eb as [Hc0%bool_decide_eq_true Hc1%bool_decide_eq_true]. exists [].
    split_and!; try done; [by apply removes_nil|]. specialize (Hcap Hc0). lia. }
  apply NoDup_cons in Hnd as [Hn Hnd]. destruct (Hin n ltac:(by left)) as (e & He & Hpk).
  unfold dropNameLocked. rewrite He.
  set (st := if bool_decide (0 < length (nRequired e))%nat then _ else _).
  set (r1 := mkRem _ _ _ _).
  assert (H1 : removes [pk] (λ n, names (r_shard r) !! n) r r1 [n]).
  { split.
    - apply NoDup_singleton.
    - intros m Hm%list_elem_of_singleton. subst m. exists e. split; [done|]. by apply list_elem_of_singleton.
    - cbn. lia.
    - exists [(n, nPID e)]. split_and!; [done|done|]. intros m p Hm%list_elem_of_singleton.
      simplify_eq. by rewrite He.
    - exists (match st with Some st => [st] | None => [] end). split; [done|]. intros x. unfold st.
      destruct (bool_decide_reflect (0 < length (nRequired e))%nat) as [Hl|Hl].
      + rewrite list_elem_of_singleton. split.
        * intros ->. exists n, e. split_and!; [by apply list_elem_of_singleton|done| |done].
          by destruct (nRequired e); [cbn in Hl; lia|].
        * intros (m & e' & Hm%list_elem_of_singleton & He' & _ & ->). subst m. cbn in He'. rewrite He in He'. by injection He' as <-.
      + rewrite elem_of_nil. split; [done|]. intros (m & e' & Hm%list_elem_of_singleton & He' & Hr & _).
        subst m. cbn in He'. rewrite He in He'. injection He' as <-. destruct (nRequired e); [done|cbn in Hl; lia]. }
  assert (Hcap1 : capped cap (r_count r1)).
  { intros Hc0. cbn. apply andb_false_iff in Eb as [Eb%bool_decide_eq_false|Eb%bool_decide_eq_false]; [done|lia]. }
  assert (Hlk : ∀ m, names (r_shard r1) !! m = if decide (m ∈ [n]) then None else names (r_shard r) !! m).
  { intros m. cbn. rewrite lookup_delete. destruct (decide (n = m)) as [->|Hne].
    - by rewrite decide_True by (by apply list_elem_of_singleton).
    - rewrite decide_False; [done|]. rewrite list_elem_of_singleton. congruence. }
  specialize (IH r1 Hnd). destruct (drop_names cap r1 ns) as [r' rest].
  destruct IH as (T & -> & HT & Hp & Hl & Hc & Hr); [|done|].
  { intros m Hm. rewrite Hlk, decide_False; [by apply Hin; right|]. rewrite list_elem_of_singleton. by intros ->. }
  exists (n :: T). split_and!; try done.
  - apply (removes_app _ _ (λ n, names (r_shard r1) !! n) r r1 r' [n] T); [done|done|].
    intros m Hm. rewrite Hlk. assert (m ∉ [n]).
    { rewrite list_elem_of_singleton. intros ->. apply Hn. apply elem_of_app. by left. }
    by rewrite decide_False.
  - intros m. rewrite Hl, Hlk.
    destruct (decide (m ∈ T)) as [Hm|Hm]; [by rewrite decide_True by (by right)|].
    destruct (decide (m ∈ [n])) as [Hx|Hx].
    + rewrite decide_True; [done|]. apply list_elem_of_singleton in Hx as ->. by left.
    + rewrite decide_False; [done|]. rewrite list_elem_of_singleton in Hx. rewrite elem_of_cons. tauto.
Qed.

(** A prefix [T] of the names of [pk] leaves the shard. *)
Lemma shard_drop_wf i sh sh' pk T rest :
  shard_wf i sh → default [] (pidNames sh !! pk) = T ++ rest →
  (∀ n, names sh' !! n = if decide (n ∈ T) then None else names sh !! n) →
  (∀ pk', default [] (pidNames sh' !! pk') = if decide (pk' = pk) then rest else default [] (pidNames sh !! pk')) →
  shard_wf i sh'.
Proof.
  intros [S1 S2 S3] Hns Hn Hp. pose proof (S3 pk) as Hnd. rewrite Hns in Hnd. apply NoDup_app in Hnd as (_ & Hd & Hnd).
  assert (HT : ∀ n, n ∈ T → ∃ e, names sh !! n = Some e ∧ toString (nPID e) = pk).
  { intros n Hx. apply S2. rewrite Hns. apply elem_of_app. by left. }
  split.
  - intros n e. rewrite Hn. destruct (decide (n ∈ T)); [done|]. apply S1.
  - intros pk' n. rewrite Hp. setoid_rewrite Hn. destruct (decide (pk' = pk)) as [->|Hne].
    + split.
      * intros Hr. rewrite decide_False by (intros Hx; by apply (Hd n)). apply S2. rewrite Hns. apply elem_of_app. by right.
      * intros (e & He & Hpk). destruct (decide (n ∈ T)) as [|Hx]; [done|].
        assert (Hr : n ∈ T ++ rest) by (rewrite <- Hns; apply S2; eauto).
        apply elem_of_app in Hr as [?|?]; done.
    + rewrite S2. split; intros (e & He & Hpk).
      * exists e. rewrite decide_False; [done|]. intros Hx. destruct (HT n Hx) as (e' & He' & Hpk'). congruence.
      * destruct (decide (n ∈ T)); [done|]. eauto.
  - intros pk'. rewrite Hp. destruct (decide (pk' = pk)); [done|apply S3].
Qed.

(** What a removal over the PIDs [K] guarantees about a shard. *)
Definition shard_removal (cap : Z) (i : nat) (K : list string) (r r' : removal) (hit : bool) : Prop :=
  ∃ T, removes K (λ n, names (r_shard r) !! n) r r' T ∧ shard_wf i (r_shard r') ∧
    (∀ n, names (r_shard r') !! n = if decide (n ∈ T) then None else names (r_shard r) !! n) ∧
    capped cap (r_count r') ∧
    if hit then 0 ≤ cap ∧ r_count r' = cap ∧ ∃ n e, names (r_shard r') !! n = Some e ∧ toString (nPID e) ∈ K
    else ∀ n e, names (r_shard r') !! n = Some e → toString (nPID e) ∉ K.

Lemma drop_pid_spec cap i pk r :
  shard_wf i (r_shard r) → capped cap (r_count r) →
  let '(r', hit) := drop_pid cap (r, false) pk in shard_removal cap i [pk] r r' hit.
Proof.
  intros Hw Hcap. pose proof Hw as [S1 S2 S3]. unfold drop_pid.
  destruct (pidNames (r_shard r) !! pk) as [ns|] eqn:Ens.
  2:{ exists []. split_and!; [by apply removes_nil|done|done|done|]. intros n e He Hx%list_elem_of_singleton.
      assert (Hn : n ∈ default [] (pidNames (r_shard r) !! pk)) by (apply S2; eauto).
      rewrite Ens in Hn. by apply elem_of_nil in Hn. }
  assert (Hnd : NoDup ns) by (specialize (S3 pk); by rewrite Ens in S3).
  assert (Hin : ∀ n, n ∈ ns → ∃ e, names (r_shard r) !! n = Some e ∧ toString (nPID e) = pk).
  { intros n Hn. apply S2. by rewrite Ens. }
  pose proof (drop_names_spec cap pk ns r Hnd Hin Hcap) as Hd.
  destruct (drop_names cap r ns) as [r' rest]. destruct Hd as (T & Hns & HT & Hp & Hl & Hc & Hr).
  set (sh' := mkShard (names (r_shard r')) (match rest with [] => delete pk (pidNames (r_shard r'))
                                            | _ => <[pk := rest]> (pidNames (r_shard r')) end)).
  assert (Hw' : shard_wf i sh').
  { apply (shard_drop_wf i (r_shard r) sh' pk T rest); [done|by rewrite Ens|exact Hl|]. intros pk'.
    unfold sh'. cbn [pidNames]. rewrite Hp. destruct (decide (pk' = pk)) as [->|Hne].
    - destruct rest; [by rewrite lookup_delete_eq|by rewrite lookup_insert_eq].
    - destruct rest; [by rewrite lookup_delete_ne|by rewrite lookup_insert_ne]. }
  assert (Hrem : ∀ c, removes [pk] (λ n, names (r_shard r) !! n) r (mkRem c (r_count r') (r_names r') (r_strongs r')) T)
    by (intros c; by destruct HT).
  destruct rest as [|m rest].
  - exists T. split_and!; [apply Hrem|done|exact Hl|done|]. cbn. intros n e He Hx%list_elem_of_singleton.
    rewrite Hl in He. destruct (decide (n ∈ T)) as [|Hn]; [done|]. apply Hn.
    rewrite app_nil_r in Hns. rewrite <- Hns. assert (Hm : n ∈ default [] (pidNames (r_shard r) !! pk)) by (apply S2; eauto).
    by rewrite Ens in Hm.
  - destruct (Hr ltac:(done)) as [Hc0 Hc1].
    exists T. split_and!; [apply Hrem|done|exact Hl|done|done|done|].
    assert (Hm : m ∈ ns) by (rewrite Hns; apply elem_of_app; right; by left).
    destruct (Hin m Hm) as (e & He & Hpk). exists m, e. split; [|by apply list_elem_of_singleton].
    rewrite Hl, decide_False; [done|]. rewrite Hns in Hnd. apply NoDup_app in Hnd as (_ & Hd & _).
    intros Hx. apply (Hd m Hx). by left.
Qed.

Lemma drop_pid_hit cap K r : foldl (drop_pid cap) (r, true) K = (r, true).
Proof. induction K; [done|]. done. Qed.

Lemma drop_pids_spec cap i K r :
  shard_wf i (r_shard r) → capped cap (r_count r) →
  let '(r', hit) := foldl (drop_pid cap) (r, false) K in shard_removal cap i K r r' hit.
Proof.
  revert r. induction K as [|pk K IH]; intros r Hw Hc.
  { cbn. exists []. split_and!; [by apply removes_nil|done|done|done|]. intros n e _ Hx. by apply elem_of_nil in Hx. }
  cbn [foldl]. pose proof (drop_pid_spec cap i pk r Hw Hc) as Hd.
  destruct (drop_pid cap (r, false) pk) as [r1 hit]. destruct Hd as (T1 & A1 & A2 & A3 & A4 & A5).
  destruct hit.
  - rewrite drop_pid_hit. destruct A5 as (B1 & B2 & n & e & He & Hx%list_elem_of_singleton).
    exists T1. split_and!; [|done..|].
    + eapply removes_ext; [exact A1|done|]. intros x Hy%list_elem_of_singleton. subst x. by left.
    + exists n, e. split; [done|]. rewrite Hx. by left.
  - specialize (IH r1 A2 A4). destruct (foldl (drop_pid cap) (r1, false) K) as [r2 hit].
    destruct IH as (T2 & B1 & B2 & B3 & B4 & B5).
    assert (HT : ∀ n, n ∈ T2 → names (r_shard r1) !! n = names (r_shard r) !! n ∧ n ∉ T1).
    { intros n Hn. destruct (rm_in _ _ _ _ _ B1 n Hn) as (e & He & _). rewrite A3 in He |- *.
      by destruct (decide (n ∈ T1)). }
    assert (Hh : if hit then 0 ≤ cap ∧ r_count r2 = cap ∧
        ∃ n e, names (r_shard r2) !! n = Some e ∧ toString (nPID e) ∈ pk :: K
      else ∀ n e, names (r_shard r2) !! n = Some e → toString (nPID e) ∉ pk :: K).
    { destruct hit.
      - destruct B5 as (C1 & C2 & n & e & He & Hx). split_and!; [done|done|]. exists n, e. split; [done|by right].
      - intros n e He [Hx|Hx]%elem_of_cons; [|by eapply B5]. pose proof He as He'. rewrite B3 in He'.
        destruct (decide (n ∈ T2)); [done|]. apply (A5 n e He'). by apply list_elem_of_singleton. }
    exists (T1 ++ T2). refine (conj _ (conj B2 (conj _ (conj B4 Hh)))).
    + apply (removes_app _ _ (λ n, names (r_shard r1) !! n) r r1); [| |done].
      * eapply removes_ext; [exact A1|done|]. intros x Hx%list_elem_of_singleton. subst x. by left.
      * eapply removes_ext; [exact B1|done|]. intros x Hx. by right.
    + intros n. rewrite B3, A3. destruct (decide (n ∈ T2)) as [H2|H2].
      * by rewrite decide_True by (apply elem_of_app; by right).
      * destruct (decide (n ∈ T1)) as [H1|H1]; [by rewrite decide_True by (apply elem_of_app; by left)|].
        rewrite decide_False; [done|]. rewrite elem_of_app. tauto.
Qed.

(** The name table of a run of shards that starts at shard [k]. *)
Definition look (k : nat) (shs : list shard) (n : string) : option nameEntry :=
  if decide (k ≤ shardFor n)%nat then sh ← shs !! (shardFor n - k)%nat; names sh !! n else None.

Lemma look_cons k sh shs n :
  look k (sh :: shs) n = if decide (shardFor n = k) then names sh !! n else look (S k) shs n.
Proof.
  unfold look. destruct (decide (shardFor n = k)) as [->|Hne].
  - rewrite decide_True by lia. by rewrite Nat.sub_diag.
  - destruct (decide (k ≤ shardFor n)%nat) as [Hle|Hle].
    + rewrite decide_True by lia. by replace (shardFor n - k)%nat with (S (shardFor n - S k)) by lia.
    + by rewrite decide_False by lia.
Qed.

Lemma look_entry s n : look 0 (shards s) n = lookup_entry s n.
Proof.
  unfold look, lookup_entry, get_shard. rewrite decide_True by lia. rewrite Nat.sub_0_r.
  destruct (shards s !! shardFor n); cbn; [done|]. by rewrite lookup_empty.
Qed.

Definition run_wf (k : nat) (shs : list shard) : Prop := ∀ j sh, shs !! j = Some sh → shard_wf (k + j) sh.

Lemma run_wf_cons k sh shs : run_wf k (sh :: shs) ↔ shard_wf k sh ∧ run_wf (S k) shs.
Proof.
  unfold run_wf. split.
  - intros Hw. split; [by rewrite <- (Nat.add_0_r k); apply (Hw 0%nat)|]. intros j x Hx.
    replace (S k + j)%nat with (k + S j)%nat by lia. by apply Hw.
  - intros [H0 Hw] [|j] x Hx; [cbn in Hx; simplify_eq; by rewrite Nat.add_0_r|].
    replace (k + S j)%nat with (S k + j)%nat by lia. by apply Hw.
Qed.

(** What a removal over the PIDs [K] guarantees about a run of shards. *)
Definition run_removal (cap : Z) (k : nat) (K : list string) (shs : list shard) (r : removal)
    (shs' : list shard) (r' : removal) (hit : bool) : Prop :=
  ∃ T, length shs' = length shs ∧ run_wf k shs' ∧ removes K (look k shs) r r' T ∧
    (∀ n, look k shs' n = if decide (n ∈ T) then None else look k shs n) ∧ capped cap (r_count r') ∧
    if hit then 0 ≤ cap ∧ r_count r' = cap ∧ ∃ n e, look k shs' n = Some e ∧ toString (nPID e) ∈ K
    else ∀ n e, look k shs' n = Some e → toString (nPID e) ∉ K.

Lemma drop_shard_hit cap K shs done r : foldl (drop_shard cap K) (done, r, true) shs = (done ++ shs, r, true).
Proof.
  revert done. induction shs as [|sh shs IH]; intros done; [by rewrite app_nil_r|]. cbn [foldl drop_shard].
  rewrite IH. by rewrite <- app_assoc.
Qed.

Lemma drop_shards_from cap K shs k done r :
  run_wf k shs → capped cap (r_count r) →
  ∃ shs' r' hit, foldl (drop_shard cap K) (done, r, false) shs = (done ++ shs', r', hit) ∧
    run_removal cap k K shs r shs' r' hit.
Proof.
  revert k done r. induction shs as [|sh shs IH]; intros k done r Hw Hc.
  { exists [], r, false. rewrite app_nil_r. split; [done|]. exists [].
    assert (Hn : ∀ n, look k [] n = None) by (intros n; unfold look; by destruct (decide _)).
    refine (conj eq_refl (conj Hw (conj _ (conj _ (conj Hc _))))).
    - by apply removes_nil.
    - done.
    - intros n e. by rewrite Hn. }
  apply run_wf_cons in Hw as [Hsh Hw]. cbn [foldl drop_shard].
  pose proof (drop_pids_spec cap k K (mkRem sh (r_count r) (r_names r) (r_strongs r)) Hsh Hc) as Hd.
  destruct (foldl (drop_pid cap) _ K) as [r1 hit]. destruct Hd as (T1 & A1 & A2 & A3 & A4 & A5).
  cbn [r_shard] in A1, A3.
  assert (Hr1 : removes K (look k (sh :: shs)) r r1 T1).
  { assert (Hx : removes K (λ n, names sh !! n) r r1 T1) by (by destruct A1).
    eapply removes_ext; [exact Hx| |done]. intros n Hn. destruct (rm_in _ _ _ _ _ A1 n Hn) as (e & He & _).
    rewrite look_cons, decide_True; [done|]. by eapply (sw_place _ _ Hsh). }
  assert (Hfar : ∀ n, n ∈ T1 → shardFor n = k).
  { intros n Hn. destruct (rm_in _ _ _ _ _ A1 n Hn) as (e & He & _). by eapply (sw_place _ _ Hsh). }
  destruct hit.
  - rewrite drop_shard_hit. exists (r_shard r1 :: shs), r1, true. split; [by rewrite <- app_assoc|].
    destruct A5 as (B1 & B2 & n & e & He & Hk). exists T1. split_and!; try done.
    + apply run_wf_cons. done.
    + intros m. rewrite !look_cons. destruct (decide (shardFor m = k)) as [Hm|Hm]; [apply A3|].
      rewrite decide_False; [done|]. intros Hx. by apply Hm, Hfar.
    + exists n, e. split; [|done]. rewrite look_cons, decide_True; [done|]. by eapply (sw_place _ _ A2).
  - destruct (IH (S k) (done ++ [r_shard r1]) r1 Hw A4) as (shs' & r2 & hit & -> & T2 & B1 & B2 & B3 & B4 & B5 & B6).
    exists (r_shard r1 :: shs'), r2, hit. split; [by rewrite <- app_assoc|]. exists (T1 ++ T2).
    assert (Hnear : ∀ n, n ∈ T2 → shardFor n ≠ k).
    { intros n Hn. destruct (rm_in _ _ _ _ _ B3 n Hn) as (e & He & _). unfold look in He.
      destruct (decide (S k ≤ shardFor n)%nat); [lia|done]. }
    assert (Hlook : ∀ n, look k (r_shard r1 :: shs') n = if decide (n ∈ T1 ++ T2) then None else look k (sh :: shs) n).
    { intros n. rewrite !look_cons. destruct (decide (shardFor n = k)) as [Hn|Hn].
      - rewrite A3. destruct (decide (n ∈ T1)) as [H1|H1]; [by rewrite decide_True by (apply elem_of_app; by left)|].
        rewrite decide_False; [done|]. rewrite elem_of_app. intros [?|H2]; [done|]. by apply (Hnear n H2).
      - rewrite B4. destruct (decide (n ∈ T2)) as [H2|H2]; [by rewrite decide_True by (apply elem_of_app; by right)|].
        rewrite decide_False; [done|]. rewrite elem_of_app. intros [H1|?]; [|done]. by apply Hn, Hfar. }
    refine (conj _ (conj _ (conj _ (conj Hlook (conj B5 _))))).
    + cbn. by rewrite B1.
    + apply run_wf_cons. done.
    + apply (removes_app _ _ (look (S k) shs) r r1); [done|done|]. intros n Hn.
      rewrite look_cons, decide_False by (by apply Hnear). split; [done|]. intros H1. by apply (Hnear n Hn), Hfar.
    + destruct hit.
      * destruct B6 as (C1 & C2 & n & e & He & Hk). split_and!; [done|done|]. exists n, e. split; [|done].
        rewrite look_cons, decide_False; [done|]. unfold look in He.
        destruct (decide (S k ≤ shardFor n)%nat); [lia|done].
      * intros n e. rewrite look_cons. destruct (decide (shardFor n = k)); [apply A5|apply B6].
Qed.

Definition no_removal : removal := mkRem (mkShard ∅ ∅) 0 [] [].

Lemma drop_shards_spec cap K s :
  reg_wf s →
  ∃ shs' r hit T, drop_shards cap K (shards s) = (shs', r, hit) ∧ length shs' = shardCount ∧ run_wf 0 shs' ∧
    removes K (lookup_entry s) no_removal r T ∧
    (∀ n, look 0 shs' n = if decide (n ∈ T) then None else lookup_entry s n) ∧ capped cap (r_count r) ∧
    if hit then 0 ≤ cap ∧ r_count r = cap ∧ ∃ n e, look 0 shs' n = Some e ∧ toString (nPID e) ∈ K
    else ∀ n e, look 0 shs' n = Some e → toString (nPID e) ∉ K.
Proof.
  intros Hs. destruct (drop_shards_from cap K (shards s) 0 [] no_removal) as (shs' & r & hit & E & T & H1 & H2 & H3 & H4 & H5).
  - intros j sh Hj. by apply (rw_shards _ Hs).
  - by intros Hc.
  - exists shs', r, hit, T. split_and!; [exact E|rewrite H1; apply Hs|done| | |apply H5|apply H5].
    + eapply removes_ext; [exact H3| |done]. intros n _. apply look_entry.
    + intros n. rewrite H4. by rewrite look_entry.
Qed.

(** The shards replaced by ones that lack some names, with a smaller node index that
    still covers what is left. *)
Lemma shrink_wf s ni shs' :
  reg_wf s → length shs' = shardCount → run_wf 0 shs' →
  (∀ n e, look 0 shs' n = Some e → lookup_entry s n = Some e ∧ toString (nPID e) ∈ default ∅ (ni !! nNode e)) →
  (∀ node pk, pk ∈ default ∅ (ni !! node) → pk ∈ default ∅ (nodeIndex s !! node)) →
  reg_wf (mkReg (pending s) ni (expired s) shs').
Proof.
  intros Hs Hl Hw Hlook Hni.
  assert (Hle : ∀ n, lookup_entry (mkReg (pending s) ni (expired s) shs') n = look 0 shs' n)
    by (intros n; by rewrite <- look_entry).
  split; cbn [shards pending nodeIndex expired]; try apply Hs; try done.
  - intros n e. rewrite Hle. apply Hlook.
  - intros node pk Hpk. apply (rw_node _ Hs). by apply Hni.
  - intros n p Hp. rewrite Hle. apply (rw_disj _ Hs) in Hp. destruct (look 0 shs' n) eqn:E; [|done].
    apply Hlook in E as [E _]. congruence.
Qed.

Lemma prune_default ks ps : default ∅ (prune ks ps) = ps ∖ ks.
Proof. unfold prune. by destruct (bool_decide_reflect (ps ∖ ks = ∅)) as [->|]. Qed.

(** Removing a process drops exactly its names, from both indexes, and reports them. *)
Lemma removePIDWithNames_spec s p :
  reg_wf s →
  let '(ns, c, sts, s') := removePIDWithNames s p in
  reg_wf s' ∧ pending s' = pending s ∧ expired s' = expired s ∧
  (∀ n, lookup_entry s' n = e ← lookup_entry s n; if decide (toString (nPID e) = toString p) then None else Some e) ∧
  NoDup ns ∧ (∀ n, n ∈ ns ↔ ∃ e, lookup_entry s n = Some e ∧ toString (nPID e) = toString p) ∧
  c = Z.of_nat (length ns) ∧
  (∀ t, t ∈ sts ↔ ∃ n e, lookup_entry s n = Some e ∧ toString (nPID e) = toString p ∧ nRequired e ≠ [] ∧
                         t = terminal_of n e).
Proof.
  intros Hs. unfold removePIDWithNames.
  destruct (drop_shards_spec (-1) [toString p] s Hs) as (shs' & r & hit & T & -> & H1 & H2 & H3 & H4 & _ & H6).
  destruct hit; [lia|]. destruct H3 as [A1 A2 A3 (P & A4 & A4' & _) (S & A5 & A5')]. cbn in A3, A4, A5.
  assert (HT : ∀ n, n ∈ T ↔ ∃ e, lookup_entry s n = Some e ∧ toString (nPID e) = toString p).
  { intros n. split.
    - intros Hn. destruct (A2 n Hn) as (e & He & Hk%list_elem_of_singleton). eauto.
    - intros (e & He & Hk). destruct (decide (n ∈ T)) as [|Hn]; [done|]. exfalso. apply (H6 n e).
      + by rewrite H4, decide_False.
      + by apply list_elem_of_singleton. }
  rewrite A4, A4'. assert (Hlook : ∀ n, look 0 shs' n = e ← lookup_entry s n;
      if decide (toString (nPID e) = toString p) then None else Some e).
  { intros n. rewrite H4. destruct (decide (n ∈ T)) as [Hn|Hn].
    - apply HT in Hn as (e & -> & Hk). cbn. by rewrite decide_True.
    - destruct (lookup_entry s n) as [e|] eqn:He; [|done]. cbn. rewrite decide_False; [done|].
      intros Hk. apply Hn, HT. eauto. }
  split_and!; [|done|done| |done|done|lia|].
  - apply shrink_wf; [done..| |].
    + intros n e. rewrite Hlook. destruct (lookup_entry s n) as [e'|] eqn:He; [|done]. cbn.
      destruct (decide _) as [|Hne]; [done|]. intros [= <-]. split; [done|]. pose proof (rw_index _ Hs n e' He) as Hi.
      rewrite lookup_omap. destruct (nodeIndex s !! nNode e') as [ps|]; cbn in *; [|set_solver].
      rewrite prune_default. set_solver.
    + intros node pk. rewrite lookup_omap. destruct (nodeIndex s !! node) as [ps|]; cbn; [|done].
      rewrite prune_default. set_solver.
  - intros n. rewrite <- Hlook. by rewrite <- look_entry.
  - intros t. rewrite A5. cbn. rewrite A5'. split.
    + intros (n & e & Hn & He & Hx). apply HT in Hn as (e' & He' & Hk). exists n, e. split; [done|].
      split; [|done]. rewrite He in He'. by injection He' as ->.
    + intros (n & e & He & Hk & Hx). exists n, e. split; [|done]. apply HT. eauto.
Qed.

(** Removing a node. Under a limit at most [limit] names go, and the call asks to be
    repeated only when it removed [limit] names and some are left; otherwise none is. *)
Lemma removeNodeWithNames_spec order s node limit :
  reg_wf s → (∀ ps x, x ∈ order ps ↔ x ∈ ps) →
  let '(ns, c, more, sts, s') := removeNodeWithNames order s node limit in
  ∃ T, removes (elements (default ∅ (nodeIndex s !! node))) (lookup_entry s) no_removal
         (mkRem (mkShard ∅ ∅) c ns sts) T ∧
  reg_wf s' ∧ pending s' = pending s ∧ expired s' = expired s ∧
  (∀ n, lookup_entry s' n = if decide (n ∈ T) then None else lookup_entry s n) ∧
  (0 < limit → c ≤ limit) ∧
  (if more then 0 < limit ∧ c = limit ∧ nodeIndex s' = nodeIndex s ∧
     ∃ n e, lookup_entry s' n = Some e ∧ nNode e = node
   else ∀ n e, lookup_entry s' n = Some e → nNode e ≠ node).
Proof.
  intros Hs Hord. unfold removeNodeWithNames. destruct (nodeIndex s !! node) as [ps|] eqn:Eni.
  2:{ exists []. split_and!; try done; [by apply removes_nil|lia|]. intros n e He <-.
      pose proof (rw_index _ Hs n e He) as Hi. rewrite Eni in Hi. cbn in Hi. by apply elem_of_empty in Hi. }
  set (cap := if bool_decide (limit ≤ 0) then -1 else limit).
  assert (Hcap : 0 ≤ cap ↔ 0 < limit) by (unfold cap; destruct (bool_decide_reflect (limit ≤ 0)); lia).
  assert (Hcapl : 0 < limit → cap = limit) by (unfold cap; destruct (bool_decide_reflect (limit ≤ 0)); lia).
  destruct (drop_shards_spec cap (order ps) s Hs) as (shs' & r & hit & T & -> & H1 & H2 & H3 & H4 & H5 & H6).
  assert (Hnode : ∀ n e, lookup_entry s n = Some e → toString (nPID e) ∈ order ps ↔ nNode e = node).
  { intros n e He. rewrite Hord. pose proof (rw_index _ Hs n e He) as Hi. split.
    - intros Hk. pose proof (rw_node _ Hs _ _ Hi). pose proof (rw_node _ Hs node (toString (nPID e))) as Hx.
      rewrite Eni in Hx. specialize (Hx Hk). congruence.
    - intros <-. by rewrite Eni in Hi. }
  assert (Hsub : ∀ n e, look 0 shs' n = Some e → lookup_entry s n = Some e).
  { intros n e. rewrite H4. by destruct (decide (n ∈ T)). }
  exists T. cbn [default]. split_and!.
  - eapply removes_ext; [|done|intros pk Hpk; apply elem_of_elements; by apply Hord]. by destruct H3.
  - apply shrink_wf; [done..| |].
    + intros n e He. pose proof (Hsub n e He) as He'. split; [done|]. pose proof (rw_index _ Hs n e He') as Hi.
      destruct hit; [done|]. destruct (decide (nNode e = node)) as [Hx|Hx].
      { exfalso. apply (H6 n e He). by apply (Hnode n e He'). }
      destruct (prune _ ps) as [ps'|]; [by rewrite lookup_insert_ne|by rewrite lookup_delete_ne].
    + intros nd pk. destruct hit; [done|]. destruct (decide (nd = node)) as [->|Hx].
      * rewrite Eni. cbn. pose proof (prune_default (list_to_set (order ps)) ps) as Hp. destruct (prune _ ps) as [ps'|].
        -- rewrite lookup_insert_eq. cbn in *. set_solver.
        -- rewrite lookup_delete_eq. cbn. set_solver.
      * destruct (prune _ ps) as [ps'|]; [by rewrite lookup_insert_ne|by rewrite lookup_delete_ne].
  - done.
  - done.
  - intros n. rewrite <- H4. by rewrite <- look_entry.
  - intros Hl. rewrite <- Hcapl by done. apply H5. by apply Hcap.
  - destruct hit.
    + destruct H6 as (B1 & B2 & n & e & He & Hk). apply Hcap in B1. split_and!; [done|rewrite B2; by apply Hcapl|done|].
      exists n, e. split; [by rewrite <- look_entry|]. apply (Hnode n e); [by apply Hsub|done].
    + intros n e He Hx. rewrite <- look_entry in He. apply (H6 n e He). apply (Hnode n e); [by apply Hsub|done].
Qed.

(** ** Snapshots *)

Definition run_entries (shs : list shard) : list (string * nameEntry) :=
  concat ((λ sh, map_to_list (names sh)) <$> shs).

Lemma run_entries_spec k shs :
  run_wf k shs →
  NoDup (run_entries shs).*1 ∧ ∀ n e, (n, e) ∈ run_entries shs ↔ look k shs n = Some e.
Proof.
  revert k. induction shs as [|sh shs IH]; intros k Hw.
  { split; [apply NoDup_nil_2|]. intros n e. rewrite elem_of_nil. unfold look. by destruct (decide _). }
  apply run_wf_cons in Hw as [Hsh Hw]. destruct (IH (S k) Hw) as [Hnd Hel].
  change (run_entries (sh :: shs)) with (map_to_list (names sh) ++ run_entries shs).
  assert (Hfar : ∀ n e, (n, e) ∈ run_entries shs → shardFor n ≠ k).
  { intros n e Hx Hk. apply Hel in Hx. unfold look in Hx. by rewrite decide_False in Hx by lia. }
  split.
  - rewrite fmap_app. apply NoDup_app. split_and!; [apply NoDup_fst_map_to_list| |done].
    intros n ([n1 e1] & -> & H1%elem_of_map_to_list)%list_elem_of_fmap ([n2 e2] & Hx & H2)%list_elem_of_fmap.
    cbn in *. subst n2. apply (Hfar n1 e2 H2). by eapply (sw_place _ _ Hsh).
  - intros n e. rewrite elem_of_app, elem_of_map_to_list, look_cons, Hel. split.
    + intros [He|He]; [by rewrite decide_True by (by eapply (sw_place _ _ Hsh))|].
      rewrite decide_False; [done|]. apply (Hfar n e). by apply Hel.
    + destruct (decide _); auto.
Qed.

Lemma all_entries_spec s :
  reg_wf s → NoDup (all_entries s).*1 ∧ ∀ n e, (n, e) ∈ all_entries s ↔ lookup_entry s n = Some e.
Proof.
  intros Hs. destruct (run_entries_spec 0 (shards s)) as [H1 H2].
  - intros j sh Hj. by apply (rw_shards _ Hs).
  - split; [done|]. intros n e. rewrite <- look_entry. apply H2.
Qed.

Lemma entry_node s n e : reg_wf s → lookup_entry s n = Some e → nNode e = node_of (toString (nPID e)).
Proof. intros Hs He. symmetry. apply (rw_node _ Hs), (rw_index _ Hs n e He). Qed.

Definition entry_of (e : snapshotEntry) : nameEntry :=
  mkName (sePID e) (seNode e) (seRequired e) (seApplied e) (seEpoch e).

(** Inserting entries of distinct names into a table that has none of them. *)
Lemma restore_names_spec l s :
  reg_wf s → NoDup (seName <$> l) →
  (∀ e, e ∈ l → lookup_entry s (seName e) = None ∧ pending s !! seName e = None ∧
     seNode e = node_of (toString (sePID e))) →
  let s' := foldl restore_name s l in
  reg_wf s' ∧ pending s' = pending s ∧ expired s' = expired s ∧
  ∀ n e, lookup_entry s' n = Some e ↔ lookup_entry s n = Some e ∨ ∃ x, x ∈ l ∧ seName x = n ∧ entry_of x = e.
Proof.
  revert s. induction l as [|x l IH]; intros s Hs Hnd Hl; cbn [foldl].
  { split_and!; try done. intros n e. split; [by left|]. intros [?|(x & Hx & _)]; [done|]. by apply elem_of_nil in Hx. }
  cbn [fmap list_fmap] in Hnd. apply NoDup_cons in Hnd as [Hx Hnd]. destruct (Hl x ltac:(by left)) as (L1 & L2 & L3).
  assert (Hw : reg_wf (restore_name s x)) by (by apply add_name_wf).
  assert (Hlk : ∀ n, lookup_entry (restore_name s x) n = if decide (n = seName x) then Some (entry_of x) else lookup_entry s n)
    by (intros n; by apply add_name_lookup).
  destruct (IH (restore_name s x) Hw Hnd) as (I1 & I2 & I3 & I4).
  { intros y Hy. destruct (Hl y ltac:(by right)) as (M1 & M2 & M3). split_and!; [|done|done].
    rewrite Hlk, decide_False; [done|]. intros Heq. apply Hx. rewrite <- Heq. by apply list_elem_of_fmap_2. }
  split_and!; [done|done|done|]. intros n e. rewrite I4, Hlk. setoid_rewrite elem_of_cons.
  destruct (decide (n = seName x)) as [->|Hne].
  - rewrite L1. split.
    + intros [[= <-]|(y & Hy & H1)]; right; [exists x; auto|exists y; tauto].
    + intros [?|(y & [->|Hy] & H1 & H2)]; [done|left; by rewrite H2|right; eauto].
  - split.
    + intros [?|(y & Hy & H1)]; [by left|right; exists y; tauto].
    + intros [?|(y & [->|Hy] & H1 & H2)]; [by left|congruence|right; eauto].
Qed.

Definition pending_of (p : pendingSnapshotEntry) : pendingEntry :=
  mkPend (list_to_set (psAcks p)) (psPID p) (psName p) (psNode p) (psRequired p) (psEpoch p) (psDeadline p) (psCreated p).

Lemma restore_pending_eq l m :
  foldl restore_pending m l = foldl (λ m kv, <[kv.1 := kv.2]> m) m ((λ p, (psName p, pending_of p)) <$> l).
Proof. revert m. induction l as [|p l IH]; intros m; [done|]. cbn. apply IH. Qed.

Lemma foldl_insert_map {A} (l : list (string * A)) :
  NoDup l.*1 → foldl (λ (m : gmap string A) kv, <[kv.1 := kv.2]> m) ∅ l = list_to_map l.
Proof.
  intros Hnd. transitivity (list_to_map (reverse l) : gmap string A).
  - clear Hnd. induction l as [|[k v] l IH] using rev_ind; [done|].
    rewrite foldl_app, reverse_app. cbn. by rewrite IH.
  - apply list_to_map_proper; [|apply reverse_Permutation]. by rewrite fmap_reverse, reverse_Permutation.
Qed.

Definition snap_name (kv : string * nameEntry) : snapshotEntry :=
  mkSE (nPID kv.2) kv.1 (nNode kv.2) (nRequired kv.2) (nEpoch kv.2) (nApplied kv.2).

Definition snap_pending (e : pendingEntry) : pendingSnapshotEntry :=
  mkPSE (pPID e) (pName e) (pNode e) (pRequired e) (elements (AckSet e)) (pEpoch e) (pDeadline e) (pCreated e).

Lemma pending_of_snap e : pending_of (snap_pending e) = e.
Proof. destruct e. unfold pending_of, snap_pending. cbn. by rewrite list_to_set_elements_L. Qed.

Lemma restore_pending_snapshot s l :
  reg_wf s → l ≡ₚ pendingSnapshot s → foldl restore_pending ∅ l = pending s.
Proof.
  intros Hs Hl. rewrite restore_pending_eq.
  assert (Hp : (λ p, (psName p, pending_of p)) <$> l ≡ₚ map_to_list (pending s)).
  { rewrite Hl. change (pendingSnapshot s) with (snap_pending <$> (map_to_list (pending s)).*2).
    rewrite <- !list_fmap_compose. apply Permutation_refl'.
    transitivity (id <$> map_to_list (pending s)); [|apply list_fmap_id].
    apply list_fmap_ext. intros i [n p] Hi%list_elem_of_lookup_2%elem_of_map_to_list. cbn.
    rewrite pending_of_snap. f_equal. by apply (rw_pend _ Hs). }
  assert (Hnd : NoDup ((λ p, (psName p, pending_of p)) <$> l).*1).
  { rewrite Hp. apply NoDup_fst_map_to_list. }
  rewrite foldl_insert_map by done. rewrite (list_to_map_proper _ _ Hnd Hp). apply list_to_map_to_list.
Qed.

(** Restoring a snapshot written by [s], into any state and in any order, gives the
    names and reservations of [s]. *)
Lemma restore_spec s0 s entries pend :
  reg_wf s → (length (expired s0) ≤ expiredRingCap)%nat →
  entries ≡ₚ snapshot s → pend ≡ₚ pendingSnapshot s →
  let s' := restore s0 entries pend in
  reg_wf s' ∧ pending s' = pending s ∧ expired s' = expired s0 ∧ ∀ n, lookup_entry s' n = lookup_entry s n.
Proof.
  intros Hs Hx He Hp. unfold restore. destruct (all_entries_spec s Hs) as [Hnd Hel].
  set (fresh := mkReg ∅ ∅ (expired s0) (replicate shardCount (mkShard ∅ ∅))).
  assert (Hf : reg_wf fresh) by (apply empty_shards_wf; [intros n e; by rewrite lookup_empty|done]).
  assert (Hin : ∀ x, x ∈ entries ↔ ∃ n e, lookup_entry s n = Some e ∧ x = snap_name (n, e)).
  { intros x. rewrite He. change (snapshot s) with (snap_name <$> all_entries s). rewrite list_elem_of_fmap. split.
    - intros ([n e] & -> & Hne). exists n, e. by rewrite <- Hel.
    - intros (n & e & Hne & ->). exists (n, e). by rewrite Hel. }
  destruct (restore_names_spec entries fresh Hf) as (R1 & R2 & R3 & R4).
  { rewrite He. change (snapshot s) with (snap_name <$> all_entries s). by rewrite <- list_fmap_compose. }
  { intros x (n & e & Hne & ->)%Hin. split_and!; [apply empty_shards_lookup|apply lookup_empty|].
    exact (entry_node s n e Hs Hne). }
  assert (Hpend : ∀ l a b, with_pending (foldl restore_name (mkReg a ∅ (expired s0) (replicate shardCount (mkShard ∅ ∅))) l) b
      = with_pending (foldl restore_name fresh l) b).
  { intros l a b. unfold fresh.
    enough (Hg : ∀ l s1 s2, with_pending s1 b = with_pending s2 b →
      with_pending (foldl restore_name s1 l) b = with_pending (foldl restore_name s2 l) b) by (by apply Hg).
    clear. induction l as [|x l IH]; intros s1 s2 E; [done|]. cbn [foldl]. apply IH.
    destruct s1, s2. unfold with_pending in E. cbn in E. by simplify_eq. }
  rewrite Hpend, (restore_pending_snapshot s pend Hs Hp).
  assert (Hlk : ∀ n, lookup_entry (foldl restore_name fresh entries) n = lookup_entry s n).
  { intros n. apply option_eq. intros e. rewrite R4. setoid_rewrite Hin. split.
    - intros [Hn|(x & (m & e' & Hm & ->) & Hn & Heq)]; [by unfold fresh in Hn; rewrite empty_shards_lookup in Hn|].
      cbn in Hn, Heq. subst m. rewrite Hm. f_equal. rewrite <- Heq. by destruct e'.
    - intros Hn. right. exists (snap_name (n, e)). split_and!; [by exists n, e|done|by destruct e]. }
  split_and!; [|done|done|done]. apply with_pending_wf; [done|].
  intros n p Hn. rewrite Hlk. destruct (rw_pend _ Hs n p Hn). split_and!; [by eapply (rw_disj _ Hs)|done|done].
Qed.

End invariant.
End Reg.
