(* ===== verification/NameFsm.v ===== *)
(** * The replicated name registry state machine ([global/fsm.go], [global/commands.go])

    [Apply] decodes a committed log entry and runs one of ten commands against the
    sharded state of [NameReg]. What it hands to the installed hooks (pending,
    active, expired, binding) is an output list; a hook that is not installed drops
    its events. Metrics are not modelled. The clock that [Apply] reads, the order in
    which Go iterates a map, and the conflict resolver are arguments. The msgpack
    encoding is a third-party library: the class [Msgpack] holds its encoder and
    decoder with the documented round trip.

    The abstract specification gives each name its own state machine ([Free],
    [Reserved], [Active]) with the transition [name_next] and the response
    [name_result]; the lemmas show that every handler implements it. The theorems
    about logs are in [NameLog]. *)

From S2P Require Import Prelude Bytes Pid NameReg.

Module RegFsm.
Import Pid Reg.

Definition CmdRegister : Z := 1.
Definition CmdUnregister : Z := 2.
Definition CmdRemovePID : Z := 3.
Definition CmdRemoveNode : Z := 4.
Definition CmdRegisterPending : Z := 5.
Definition CmdRegisterAck : Z := 6.
Definition CmdRegisterExpired : Z := 7.
Definition CmdRegisterUnreserve : Z := 8.
Definition CmdDropRequired : Z := 9.
Definition CmdRegisterReject : Z := 10.

Record Command := mkCmd {
  cPID : PID; cName : string; cNodeID : string; cAcker : string; cReason : string;
  cRequired : list string; cEpoch : Z; cDeadline : Z; cLimit : Z; cType : Z
}.

(** ** Events handed to the hooks *)

Record BindingEvent := mkBind { bName : string; bPID : PID; bIndex : Z; bDeleted : bool }.

Inductive event :=
| PendingEvent (name : string) (p : PID) (epoch : Z) (required : list string) (deadline : Z)
| ActiveEvent (name : string) (p : PID) (epoch idx time : Z)
| ExpiredEvent (name : string) (p : PID) (epoch : Z) (reason rejectedBy : string)
    (missing required : list string) (time : Z)
| Binding (ev : BindingEvent).

(** ** Results *)

Inductive RegisterState := RegisterStateUnknown | RegisterStateActive | RegisterStateExpired.

Inductive register_error :=
| ErrAlreadyRegisteredTo (name : string) (owner : PID)
| ErrNameAlreadyRegistered
| ErrPendingConflict.

Record RegisterResult := mkRR {
  rrErr : option register_error; rrPID : PID; rrExisting : PID; rrResolved : PID; rrFence : Z; rrState : RegisterState
}.

Inductive fsm_result :=
| ResRegister (r : RegisterResult)
| ResUnregister (removed : bool)
| ResRemove (count : Z) (hasMore : bool)
| ResAck (recognized complete activated : bool)
| ResExpire (missing : list string) (removed : bool)
| ResDrop (dropped activated : bool)
| ResReject (rejectedBy : string) (rejected : bool)
| ResDecodeError
| ResUnknownCommand (t : Z).

Definition strongRejectReason : string := "rejected".

(** [global.DefaultResolve]: first write wins. *)
Definition DefaultResolve (name : string) (existing incoming : PID) : PID := existing.

Section handlers.
Variable resolve : string → PID → PID → PID.
Variable order : gset string → list string.

Definition effective_node (cmd : Command) : string :=
  if bool_decide (cNodeID cmd = "") then Node (cPID cmd) else cNodeID cmd.

Definition applyRegister (s : shardedState) (cmd : Command) (index : Z) : fsm_result * list event * shardedState :=
  let nodeID := effective_node cmd in
  let '(existing, established, outcome, s1) := register s (cName cmd) (cPID cmd) nodeID index in
  match outcome with
  | registerInserted =>
      (ResRegister (mkRR None existing Zero Zero index RegisterStateUnknown),
       [Binding (mkBind (cName cmd) (cPID cmd) index false)], s1)
  | registerDedupe => (ResRegister (mkRR None existing Zero Zero established RegisterStateUnknown), [], s1)
  | registerConflict =>
      let winner := resolve (cName cmd) existing (cPID cmd) in
      if Equal winner (cPID cmd) then
        let s2 := (unregisterEntry s1 (cName cmd)).2 in
        let s3 := (register s2 (cName cmd) (cPID cmd) nodeID index).2 in
        (ResRegister (mkRR None (cPID cmd) Zero existing index RegisterStateUnknown),
         [Binding (mkBind (cName cmd) (cPID cmd) index false)], s3)
      else (ResRegister (mkRR (Some (ErrAlreadyRegisteredTo (cName cmd) existing)) Zero existing Zero 0
                           RegisterStateUnknown), [], s1)
  end.

(** The release of a Strong name that was active, and the tombstone of any name. *)
Definition active_release (name : string) (e : nameEntry) (reason : string) (now : Z) : list event :=
  if bool_decide (0 < length (nRequired e))%nat
  then [ExpiredEvent name (nPID e) (nEpoch e) reason "" [] (nRequired e) now] else [].

Definition tombstone (index : Z) (np : string * PID) : event := Binding (mkBind np.1 np.2 index true).

Definition applyUnregister (s : shardedState) (cmd : Command) (index now : Z)
    : fsm_result * list event * shardedState :=
  match unregisterEntry s (cName cmd) with
  | (Some e, s1) =>
      (ResUnregister true,
       active_release (cName cmd) e "unregister" now ++ [tombstone index (cName cmd, nPID e)], s1)
  | (None, s1) => (ResUnregister false, [], s1)
  end.

(** The loop over the reservations of an exiting process. *)
Definition release_pending (p : PID) (now : Z) (acc : list event * shardedState) (n : string)
    : list event * shardedState :=
  let '(evs, s) := acc in
  match unreservePending s n p with
  | (Some e, s1) => (evs ++ [ExpiredEvent n (pPID e) (pEpoch e) "pid_exit" "" [] (pRequired e) now], s1)
  | (None, s1) => (evs, s1)
  end.

Definition terminal_release (reason : string) (now : Z) (t : strongTerminal) : event :=
  ExpiredEvent (tName t) (tPID t) (tEpoch t) reason "" [] (tRequired t) now.

Definition applyRemovePID (s : shardedState) (cmd : Command) (index now : Z)
    : fsm_result * list event * shardedState :=
  let pendingNames := lookupPendingByPID s (cPID cmd) in
  let '(evs, s1) := foldl (release_pending (cPID cmd) now) ([], s) pendingNames in
  let '(ns, count, strongs, s2) := removePIDWithNames s1 (cPID cmd) in
  (ResRemove (count + Z.of_nat (length pendingNames)) false,
   evs ++ (terminal_release "pid_exit" now <$> strongs) ++ ((λ n, tombstone index (n, cPID cmd)) <$> ns), s2).

Definition applyRemoveNode (s : shardedState) (cmd : Command) (index now : Z)
    : fsm_result * list event * shardedState :=
  let '(ns, count, hasMore, strongs, s1) := removeNodeWithNames order s (cNodeID cmd) (cLimit cmd) in
  (ResRemove count hasMore, (terminal_release "node_removed" now <$> strongs) ++ (tombstone index <$> ns), s1).

Definition pending_epoch (cmd : Command) (index : Z) : Z :=
  if bool_decide (cEpoch cmd = 0) then index else cEpoch cmd.

Definition applyRegisterPending (s : shardedState) (cmd : Command) (index : Z)
    : fsm_result * list event * shardedState :=
  let epoch := pending_epoch cmd index in
  let '(existing, outcome, s1) := registerPending s (cName cmd) (cPID cmd) (effective_node cmd) epoch
                                    (cRequired cmd) (cDeadline cmd) (i64 index) in
  match outcome with
  | pendingInserted =>
      (ResRegister (mkRR None (cPID cmd) Zero Zero epoch RegisterStateUnknown),
       [PendingEvent (cName cmd) (cPID cmd) epoch (cRequired cmd) (cDeadline cmd)], s1)
  | pendingDedupe => (ResRegister (mkRR None existing Zero Zero epoch RegisterStateUnknown), [], s1)
  | pendingConflictActive =>
      (ResRegister (mkRR (Some ErrNameAlreadyRegistered) Zero existing Zero 0 RegisterStateUnknown), [], s1)
  | pendingConflictPending =>
      (ResRegister (mkRR (Some ErrPendingConflict) Zero existing Zero 0 RegisterStateUnknown), [], s1)
  end.

(** What follows the promotion of a reservation. *)
Definition activation (cmd : Command) (e : pendingEntry) (index now : Z) : list event :=
  [ActiveEvent (cName cmd) (pPID e) (cEpoch cmd) index now; Binding (mkBind (cName cmd) (pPID e) index false)].

Definition applyRegisterAck (s : shardedState) (cmd : Command) (index now : Z)
    : fsm_result * list event * shardedState :=
  match recordAck s (cName cmd) (cEpoch cmd) (cAcker cmd) with
  | (None, s1) => (ResAck false false false, [], s1)
  | (Some (_, _, complete), s1) =>
      if negb complete then (ResAck true false false, [], s1) else
      match promotePending s1 (cName cmd) (cEpoch cmd) index with
      | (None, s2) => (ResAck true true false, [], s2)
      | (Some e, s2) => (ResAck true true true, activation cmd e index now, s2)
      end
  end.

Definition applyRegisterExpired (s : shardedState) (cmd : Command) (now : Z)
    : fsm_result * list event * shardedState :=
  match expirePending s (cName cmd) (cEpoch cmd) (cReason cmd) now with
  | (None, s1) => (ResExpire [] false, [], s1)
  | (Some (e, missing), s1) =>
      (ResExpire missing true,
       [ExpiredEvent (cName cmd) (pPID e) (cEpoch cmd) (cReason cmd) "" missing (pRequired e) now], s1)
  end.

Definition applyRegisterUnreserve (s : shardedState) (cmd : Command) (index now : Z)
    : fsm_result * list event * shardedState :=
  match unreservePending s (cName cmd) (cPID cmd) with
  | (None, s1) =>
      match unregisterEntry s1 (cName cmd) with
      | (Some e, s2) =>
          (ResUnregister true,
           active_release (cName cmd) e "unreserve" now ++ [tombstone index (cName cmd, nPID e)], s2)
      | (None, s2) => (ResUnregister false, [], s2)
      end
  | (Some e, s1) =>
      (ResUnregister true, [ExpiredEvent (cName cmd) (pPID e) (pEpoch e) "unreserve" "" [] (pRequired e) now], s1)
  end.

Definition applyDropRequired (s : shardedState) (cmd : Command) (index now : Z)
    : fsm_result * list event * shardedState :=
  match dropRequired s (cName cmd) (cEpoch cmd) (cNodeID cmd) with
  | (None, s1) => (ResDrop false false, [], s1)
  | (Some (_, dropped, complete), s1) =>
      if negb complete then (ResDrop dropped false, [], s1) else
      match promotePending s1 (cName cmd) (cEpoch cmd) index with
      | (None, s2) => (ResDrop dropped false, [], s2)
      | (Some e, s2) => (ResDrop dropped true, activation cmd e index now, s2)
      end
  end.

Definition applyRegisterReject (s : shardedState) (cmd : Command) (now : Z)
    : fsm_result * list event * shardedState :=
  let reason := if bool_decide (cReason cmd = "") then strongRejectReason else cReason cmd in
  match rejectPending s (cName cmd) (cEpoch cmd) (cAcker cmd) reason now with
  | (None, s1) => (ResReject "" false, [], s1)
  | (Some e, s1) =>
      (ResReject (cAcker cmd) true,
       [ExpiredEvent (cName cmd) (pPID e) (cEpoch cmd) reason (cAcker cmd) (missing e) (pRequired e) now], s1)
  end.

(** The switch of [Apply]. *)
Definition apply_cmd (s : shardedState) (index : Z) (cmd : Command) (now : Z)
    : fsm_result * list event * shardedState :=
  if bool_decide (cType cmd = CmdRegister) then applyRegister s cmd index
  else if bool_decide (cType cmd = CmdUnregister) then applyUnregister s cmd index now
  else if bool_decide (cType cmd = CmdRemovePID) then applyRemovePID s cmd index now
  else if bool_decide (cType cmd = CmdRemoveNode) then applyRemoveNode s cmd index now
  else if bool_decide (cType cmd = CmdRegisterPending) then applyRegisterPending s cmd index
  else if bool_decide (cType cmd = CmdRegisterAck) then applyRegisterAck s cmd index now
  else if bool_decide (cType cmd = CmdRegisterExpired) then applyRegisterExpired s cmd now
  else if bool_decide (cType cmd = CmdRegisterUnreserve) then applyRegisterUnreserve s cmd index now
  else if bool_decide (cType cmd = CmdDropRequired) then applyDropRequired s cmd index now
  else if bool_decide (cType cmd = CmdRegisterReject) then applyRegisterReject s cmd now
  else (ResUnknownCommand (cType cmd), [], s).
End handlers.

(** ** Encoding *)

(** [codec.MsgpackHandle] on the two types the registry encodes. *)
Class Msgpack := {
  EncodeCommand : Command → list ascii;
  DecodeCommand : list ascii → option Command;
  encode_payload : fsmSnapshotPayload → list ascii;
  decode_payload : list ascii → option fsmSnapshotPayload;
  decode_encode c : DecodeCommand (EncodeCommand c) = Some c;
  decode_encode_payload p : decode_payload (encode_payload p) = Some p
}.

Section fsm.
Context `{Mp : Msgpack}.
Variable resolve : string → PID → PID → PID.

Definition Apply (order : gset string → list string) (s : shardedState) (index : Z) (data : list ascii) (now : Z)
    : fsm_result * list event * shardedState :=
  match DecodeCommand data with
  | None => (ResDecodeError, [], s)
  | Some cmd => apply_cmd resolve order s index cmd now
  end.

(** [Snapshot] and [Persist]. *)
Definition Snapshot (s : shardedState) : fsmSnapshotPayload := mkPayload (snapshot s) (pendingSnapshot s).
Definition Persist (p : fsmSnapshotPayload) : list ascii := encode_payload p.

(** The flag is [true] for a nil error. *)
Definition Restore (s : shardedState) (data : list ascii) : bool * shardedState :=
  match decode_payload data with
  | None => (false, s)
  | Some p => (true, restore s (Entries p) (Pending p))
  end.
End fsm.

(** ** Abstract specification: one state machine per name *)

Inductive name_state :=
| Free
| Reserved (e : pendingEntry)
| Active (e : nameEntry).

Definition abs (s : shardedState) (n : string) : name_state :=
  match lookup_entry s n with
  | Some e => Active e
  | None => match pending s !! n with Some p => Reserved p | None => Free end
  end.

Definition with_ack (e : pendingEntry) (acker : string) : pendingEntry :=
  mkPend ({[acker]} ∪ AckSet e) (pPID e) (pName e) (pNode e) (pRequired e) (pEpoch e) (pDeadline e) (pCreated e).

Definition without_required (e : pendingEntry) (node : string) : pendingEntry :=
  mkPend (AckSet e) (pPID e) (pName e) (pNode e) (default (pRequired e) (remove_first node (pRequired e)))
    (pEpoch e) (pDeadline e) (pCreated e).

(** A reservation becomes active as soon as it is complete. *)
Definition settle (e : pendingEntry) (index : Z) : name_state :=
  if ackComplete e then Active (mkName (pPID e) (pNode e) (pRequired e) index (pEpoch e)) else Reserved e.

(** What a command means for the name [n]. *)
Definition name_next (resolve : string → PID → PID → PID) (index : Z) (cmd : Command) (n : string) (st : name_state)
    : name_state :=
  let mine := bool_decide (cName cmd = n) in
  let t := cType cmd in
  let claim := Active (mkName (cPID cmd) (effective_node cmd) [] index 0) in
  match st with
  | Free =>
      if bool_decide (t = CmdRegister) && mine then claim
      else if bool_decide (t = CmdRegisterPending) && mine
      then Reserved (mkPend ∅ (cPID cmd) n (effective_node cmd) (cRequired cmd) (pending_epoch cmd index)
                       (cDeadline cmd) (i64 index))
      else Free
  | Reserved e =>
      let current := mine && bool_decide (pEpoch e = cEpoch cmd) in
      if bool_decide (t = CmdRemovePID) && bool_decide (pPID e = cPID cmd) then Free
      else if bool_decide (t = CmdRegisterAck) && current then settle (with_ack e (cAcker cmd)) index
      else if bool_decide (t = CmdDropRequired) && current then settle (without_required e (cNodeID cmd)) index
      else if (bool_decide (t = CmdRegisterExpired) || bool_decide (t = CmdRegisterReject)) && current then Free
      else if bool_decide (t = CmdRegisterUnreserve) && mine && (Equal (cPID cmd) Zero || Equal (pPID e) (cPID cmd))
      then Free else Reserved e
  | Active e =>
      if bool_decide (t = CmdRegister) && mine && negb (Equal (nPID e) (cPID cmd))
         && Equal (resolve n (nPID e) (cPID cmd)) (cPID cmd) then claim
      else if (bool_decide (t = CmdUnregister) || bool_decide (t = CmdRegisterUnreserve)) && mine then Free
      else if bool_decide (t = CmdRemovePID) && bool_decide (toString (nPID e) = toString (cPID cmd)) then Free
      else if bool_decide (t = CmdRemoveNode) && bool_decide (nNode e = cNodeID cmd) then Free
      else Active e
  end.

(** A removal of a node under a limit may leave a name for a later entry. *)
Definition chunked (cmd : Command) : bool := bool_decide (cType cmd = CmdRemoveNode) && bool_decide (0 < cLimit cmd).

Definition name_step resolve (index : Z) (cmd : Command) (n : string) (st st' : name_state) : Prop :=
  st' = name_next resolve index cmd n st ∨ (chunked cmd = true ∧ st' = st).

Lemma abs_active s n e : abs s n = Active e ↔ lookup_entry s n = Some e.
Proof. unfold abs. destruct (lookup_entry s n), (pending s !! n); naive_solver. Qed.

Lemma abs_free s n : abs s n = Free ↔ lookup_entry s n = None ∧ pending s !! n = None.
Proof. unfold abs. destruct (lookup_entry s n), (pending s !! n); naive_solver. Qed.

Section refinement.
Variable node_of : string → string.
Local Notation wf := (reg_wf node_of).

(** A claim names the node its PID registers from. *)
Definition cmd_ok (cmd : Command) : Prop :=
  cType cmd = CmdRegister ∨ cType cmd = CmdRegisterPending → effective_node cmd = node_of (toString (cPID cmd)).

(** *** Reading the abstract state *)

Lemma abs_reserved s n p : wf s → abs s n = Reserved p ↔ pending s !! n = Some p.
Proof.
  intros Hs. unfold abs. pose proof (rw_disj _ _ Hs n) as Hd. destruct (lookup_entry s n) as [e|].
  - split; [done|]. intros Hp. by specialize (Hd _ Hp).
  - destruct (pending s !! n); naive_solver.
Qed.

(** *** The effect of the primitive updates *)

Lemma abs_add_name s name e n :
  wf s → pending s !! name = None → abs (add_name s name e) n = if decide (n = name) then Active e else abs s n.
Proof.
  intros Hs Hp. unfold abs. rewrite (add_name_lookup node_of) by done. by destruct (decide (n = name)) as [->|].
Qed.

Lemma abs_set_pending s name e n :
  lookup_entry s name = None →
  abs (with_pending s (<[name := e]> (pending s))) n = if decide (n = name) then Reserved e else abs s n.
Proof.
  intros Hn. unfold abs. change (lookup_entry (with_pending s _) n) with (lookup_entry s n). cbn [pending with_pending].
  destruct (decide (n = name)) as [->|Hne]; [by rewrite Hn, lookup_insert_eq|by rewrite lookup_insert_ne].
Qed.

Lemma abs_delete_pending s name n :
  lookup_entry s name = None →
  abs (with_pending s (delete name (pending s))) n = if decide (n = name) then Free else abs s n.
Proof.
  intros Hn. unfold abs. change (lookup_entry (with_pending s _) n) with (lookup_entry s n). cbn [pending with_pending].
  destruct (decide (n = name)) as [->|Hne]; [by rewrite Hn, lookup_delete_eq|by rewrite lookup_delete_ne].
Qed.

Lemma abs_unregisterEntry s name n :
  wf s → pending s !! name = None →
  abs (unregisterEntry s name).2 n = if decide (n = name) then Free else abs s n.
Proof.
  intros Hs Hp. pose proof (unregisterEntry_spec node_of s name Hs) as Hu.
  destruct (unregisterEntry s name) as [r s']. destruct Hu as (_ & _ & Hp' & _ & Hl). cbn [snd].
  unfold abs. rewrite Hl, Hp'. by destruct (decide (n = name)) as [->|]; [rewrite Hp|].
Qed.

(** The state after the updates of [s] at [name]. *)
Definition set_at (f : string → name_state) (name : string) (v : name_state) (n : string) : name_state :=
  if decide (n = name) then v else f n.

(** [s'] is well formed and has, at every name, the state [f]. *)
Definition lands (s' : shardedState) (f : string → name_state) : Prop := wf s' ∧ ∀ n, abs s' n = f n.

Lemma set_at_id (f : string → name_state) name v n : f name = v → set_at f name v n = f n.
Proof. intros Hf. unfold set_at. by destruct (decide (n = name)) as [->|]. Qed.

(** *** The operations on the abstract state *)

Lemma register_lands s name p node index :
  wf s → node = node_of (toString p) →
  lands (register s name p node index).2
    (set_at (abs s) name match abs s name with Free => Active (mkName p node [] index 0) | x => x end).
Proof.
  intros Hs Hn. unfold register. destruct (abs s name) as [|e|e] eqn:E.
  - apply abs_free in E as [E1 E2]. change (names (get_shard s (shardFor name)) !! name) with (lookup_entry s name).
    rewrite E1, E2. split; cbn [snd]; [by apply add_name_wf|]. intros n. by rewrite abs_add_name.
  - pose proof E as E'. apply abs_reserved in E' as ->; [|done].
    destruct (Equal (pPID e) p); (split; [done|]; intros n; by rewrite set_at_id).
  - pose proof E as E'. apply abs_active in E'. change (names (get_shard s (shardFor name)) !! name) with (lookup_entry s name).
    destruct (pending s !! name) as [q|] eqn:Eq; [by rewrite (rw_disj _ _ Hs _ _ Eq) in E'|]. rewrite E'.
    destruct (Equal (nPID e) p); (split; [done|]; intros n; by rewrite set_at_id).
Qed.

Lemma registerPending_lands s name p node epoch required deadline createdAt :
  wf s → node = node_of (toString p) →
  lands (registerPending s name p node epoch required deadline createdAt).2
    (set_at (abs s) name match abs s name with
                         | Free => Reserved (mkPend ∅ p name node required epoch deadline createdAt) | x => x end).
Proof.
  intros Hs Hn. unfold registerPending. change (names (get_shard s (shardFor name)) !! name) with (lookup_entry s name).
  destruct (abs s name) as [|e|e] eqn:E.
  - apply abs_free in E as [E1 E2]. rewrite E1, E2. split; cbn [snd].
    + apply with_pending_wf; [done|]. intros n e [[<- <-]|[Hne He]]%lookup_insert_Some; [done|].
      destruct (rw_pend _ _ Hs n e He). split_and!; [by eapply (rw_disj _ _ Hs)|done|done].
    + intros n. by rewrite abs_set_pending.
  - pose proof E as E'. apply abs_reserved in E'; [|done]. rewrite (rw_disj _ _ Hs _ _ E'), E'.
    destruct (Equal (pPID e) p && bool_decide (pEpoch e = epoch)); (split; [done|]; intros n; by rewrite set_at_id).
  - pose proof E as E'. apply abs_active in E'. rewrite E'.
    destruct (Equal (nPID e) p); (split; [done|]; intros n; by rewrite set_at_id).
Qed.

Lemma unregisterEntry_lands s name :
  wf s → lands (unregisterEntry s name).2
           (set_at (abs s) name match abs s name with Active _ => Free | x => x end) ∧
         (unregisterEntry s name).1 = lookup_entry s name.
Proof.
  intros Hs. pose proof (unregisterEntry_spec node_of s name Hs) as Hu.
  destruct (unregisterEntry s name) as [r s']. destruct Hu as (-> & Hw & Hp' & _ & Hl). split; [|done].
  split; [done|]. cbn [snd]. intros n. unfold set_at. unfold abs at 1. rewrite Hl, Hp'.
  destruct (decide (n = name)) as [->|]; [|done]. unfold abs.
  destruct (pending s !! name) as [q|] eqn:Eq; [by rewrite (rw_disj _ _ Hs _ _ Eq)|].
  by destruct (lookup_entry s name).
Qed.

(** The entry under [name] with epoch [epoch], if it is reserved. *)
Lemma update_pending_lands s name e e' :
  wf s → abs s name = Reserved e → pName e' = pName e → pNode e' = pNode e → pPID e' = pPID e →
  lands (with_pending s (<[name := e']> (pending s))) (set_at (abs s) name (Reserved e')).
Proof.
  intros Hs E H1 H2 H3. pose proof E as E'. apply abs_reserved in E'; [|done]. split.
  - by apply (update_pending_wf node_of s name e e').
  - intros n. apply abs_set_pending. by eapply (rw_disj _ _ Hs).
Qed.

Lemma delete_pending_lands s name e :
  wf s → abs s name = Reserved e → lands (with_pending s (delete name (pending s))) (set_at (abs s) name Free).
Proof.
  intros Hs E. apply abs_reserved in E; [|done]. split; [by apply delete_pending_wf|].
  intros n. apply abs_delete_pending. by eapply (rw_disj _ _ Hs).
Qed.

Lemma with_expired_lands s r f : lands s f → lands (with_expired s r) f.
Proof. intros [H1 H2]. split; [by apply with_expired_wf|done]. Qed.

Lemma promotePending_lands s name e index :
  wf s → abs s name = Reserved e →
  promotePending s name (pEpoch e) index = (Some e, (promotePending s name (pEpoch e) index).2) ∧
  lands (promotePending s name (pEpoch e) index).2
    (set_at (abs s) name (Active (mkName (pPID e) (pNode e) (pRequired e) index (pEpoch e)))).
Proof.
  intros Hs E. pose proof E as E'. apply abs_reserved in E'; [|done]. unfold promotePending. rewrite E'.
  rewrite bool_decide_eq_false_2 by (by intros Hx). split; [done|]. cbn [snd].
  destruct (delete_pending_lands s name e Hs E) as [W A]. destruct (rw_pend _ _ Hs name e E') as [_ Hnode].
  assert (Hd : pending (with_pending s (delete name (pending s))) !! name = None) by apply lookup_delete_eq.
  split.
  - apply add_name_wf; [done| |done|done]. change (lookup_entry s name = None). by eapply (rw_disj _ _ Hs).
  - intros n. rewrite abs_add_name by done. rewrite A. unfold set_at. by destruct (decide (n = name)).
Qed.

(** *** Handlers *)

Variable resolve : string → PID → PID → PID.
Variable order : gset string → list string.
Hypothesis order_elem : ∀ ps x, x ∈ order ps ↔ x ∈ ps.

(** The response of a command on one name in the state [st]. *)
Definition name_result (index : Z) (cmd : Command) (st : name_state) : fsm_result :=
  let t := cType cmd in
  let ok p resolved fence := ResRegister (mkRR None p Zero resolved fence RegisterStateUnknown) in
  let failed err existing := ResRegister (mkRR (Some err) Zero existing Zero 0 RegisterStateUnknown) in
  let current e := bool_decide (pEpoch e = cEpoch cmd) in
  let conflict owner :=
    if Equal (resolve (cName cmd) owner (cPID cmd)) (cPID cmd) then ok (cPID cmd) owner index
    else failed (ErrAlreadyRegisteredTo (cName cmd) owner) owner in
  if bool_decide (t = CmdRegister) then
    match st with
    | Free => ok (cPID cmd) Zero index
    | Reserved e => if Equal (pPID e) (cPID cmd) then ok (cPID cmd) Zero (pEpoch e) else conflict (pPID e)
    | Active e => if Equal (nPID e) (cPID cmd) then ok (cPID cmd) Zero (nApplied e) else conflict (nPID e)
    end
  else if bool_decide (t = CmdUnregister) then ResUnregister match st with Active _ => true | _ => false end
  else if bool_decide (t = CmdRegisterPending) then
    match st with
    | Free => ok (cPID cmd) Zero (pending_epoch cmd index)
    | Reserved e => if Equal (pPID e) (cPID cmd) && bool_decide (pEpoch e = pending_epoch cmd index)
                    then ok (cPID cmd) Zero (pending_epoch cmd index) else failed ErrPendingConflict (pPID e)
    | Active e => if Equal (nPID e) (cPID cmd) then ok (cPID cmd) Zero (pending_epoch cmd index)
                  else failed ErrNameAlreadyRegistered (nPID e)
    end
  else if bool_decide (t = CmdRegisterAck) then
    match st with
    | Reserved e => if current e then let c := ackComplete (with_ack e (cAcker cmd)) in ResAck true c c
                    else ResAck false false false
    | _ => ResAck false false false
    end
  else if bool_decide (t = CmdRegisterExpired) then
    match st with
    | Reserved e => if current e then ResExpire (missing e) true else ResExpire [] false
    | _ => ResExpire [] false
    end
  else if bool_decide (t = CmdRegisterUnreserve) then
    ResUnregister match st with
                  | Free => false
                  | Reserved e => Equal (cPID cmd) Zero || Equal (pPID e) (cPID cmd)
                  | Active _ => true
                  end
  else if bool_decide (t = CmdDropRequired) then
    match st with
    | Reserved e => if current e then ResDrop (bool_decide (cNodeID cmd ∈ pRequired e))
                                        (ackComplete (without_required e (cNodeID cmd)))
                    else ResDrop false false
    | _ => ResDrop false false
    end
  else if bool_decide (t = CmdRegisterReject) then
    match st with
    | Reserved e => if current e then ResReject (cAcker cmd) true else ResReject "" false
    | _ => ResReject "" false
    end
  else ResUnknownCommand t.

Definition bulk (cmd : Command) : Prop := cType cmd = CmdRemovePID ∨ cType cmd = CmdRemoveNode.

Definition single_ok (s : shardedState) (index : Z) (cmd : Command) (out : fsm_result * list event * shardedState) : Prop :=
  out.1.1 = name_result index cmd (abs s (cName cmd)) ∧
  lands out.2 (λ n, name_next resolve index cmd n (abs s n)).

(** Decide the comparisons of the command type with the constants. *)
Ltac types Ht :=
  rewrite ?Ht;
  repeat match goal with
  | |- context [bool_decide (?a = ?a)] => rewrite (bool_decide_eq_true_2 (a = a)) by reflexivity
  | |- context [bool_decide (?a = ?b)] =>
      is_const a; is_const b; rewrite (bool_decide_eq_false_2 (a = b)) by (unfold a, b; discriminate)
  end; cbn [andb orb negb].

Lemma name_next_other index cmd n st : ¬ bulk cmd → n ≠ cName cmd → name_next resolve index cmd n st = st.
Proof.
  intros Hb Hn. unfold bulk in Hb. unfold name_next. rewrite (bool_decide_eq_false_2 (cName cmd = n)) by congruence.
  rewrite (bool_decide_eq_false_2 (cType cmd = CmdRemovePID)) by tauto.
  rewrite (bool_decide_eq_false_2 (cType cmd = CmdRemoveNode)) by tauto.
  rewrite !andb_false_r. destruct st; cbn; by rewrite ?andb_false_r.
Qed.

(** A command on one name: its response and the state of that name. *)
Lemma single_intro s index cmd r evs s' v :
  ¬ bulk cmd → lands s' (set_at (abs s) (cName cmd) v) →
  v = name_next resolve index cmd (cName cmd) (abs s (cName cmd)) →
  r = name_result index cmd (abs s (cName cmd)) → single_ok s index cmd (r, evs, s').
Proof.
  intros Hb [H1 H2] -> ->. split; [done|]. split; [done|]. intros n. cbn [snd]. rewrite H2. unfold set_at.
  destruct (decide (n = cName cmd)) as [->|Hne]; [done|]. by rewrite name_next_other.
Qed.

Lemma lands_refl s name : wf s → lands s (set_at (abs s) name (abs s name)).
Proof. intros Hs. split; [done|]. intros n. by rewrite set_at_id. Qed.

Lemma lands_at s f name v : lands s (set_at f name v) → abs s name = v.
Proof. intros [_ H]. rewrite H. unfold set_at. by rewrite decide_True. Qed.

Lemma lands_trans s1 s2 f name v1 v2 :
  lands s1 (set_at f name v1) → lands s2 (set_at (abs s1) name v2) → lands s2 (set_at f name v2).
Proof.
  intros [_ H1] [W H2]. split; [done|]. intros n. rewrite H2. unfold set_at in *.
  specialize (H1 n). by destruct (decide (n = name)).
Qed.

Lemma not_bulk cmd t : cType cmd = t → t ≠ CmdRemovePID → t ≠ CmdRemoveNode → ¬ bulk cmd.
Proof. unfold bulk. intros ->. tauto. Qed.

Ltac single Ht := eapply single_intro; [by eapply not_bulk; [exact Ht|..]| | |].

Lemma pending_none_active s n e : wf s → abs s n = Active e → pending s !! n = None.
Proof.
  intros Hs E. apply abs_active in E. destruct (pending s !! n) as [q|] eqn:Eq; [|done].
  by rewrite (rw_disj _ _ Hs _ _ Eq) in E.
Qed.

Lemma applyRegister_ok s cmd index :
  wf s → cmd_ok cmd → cType cmd = CmdRegister → single_ok s index cmd (applyRegister resolve s cmd index).
Proof.
  intros Hs Hc Ht. assert (Hn : effective_node cmd = node_of (toString (cPID cmd))) by (by apply Hc; left).
  set (name := cName cmd). unfold applyRegister. fold name.
  pose proof (register_lands s name (cPID cmd) _ index Hs Hn) as Hl. unfold register in *.
  change (names (get_shard s (shardFor name)) !! name) with (lookup_entry s name) in *.
  destruct (abs s name) as [|e|e] eqn:E.
  - apply abs_free in E as [E1 E2]. rewrite E1, E2 in *. single Ht; [exact Hl| |];
      unfold name_next, name_result; fold name; unfold abs; rewrite E1, E2; by types Ht.
  - pose proof E as E'. apply abs_reserved in E'; [|done]. rewrite E' in *.
    destruct (Equal (pPID e) (cPID cmd)) eqn:Ep.
    { single Ht; [exact Hl| |]; unfold name_next, name_result; fold name; rewrite E; types Ht; [done|by rewrite Ep]. }
    destruct (Equal (resolve name (pPID e) (cPID cmd)) (cPID cmd)) eqn:Ew.
    + destruct (unregisterEntry_lands s name Hs) as [HU _]. rewrite E in HU.
      pose proof (register_lands _ name (cPID cmd) _ index (proj1 HU) Hn) as HR.
      rewrite (lands_at _ _ _ _ HU) in HR. single Ht.
      * exact (lands_trans _ _ _ _ _ _ HU HR).
      * unfold name_next; fold name; rewrite E; by types Ht.
      * unfold name_result; fold name; rewrite E; types Ht. by rewrite Ep, Ew.
    + single Ht; [exact Hl| |]; unfold name_next, name_result; fold name; rewrite E; types Ht; [done|by rewrite Ep, Ew].
  - pose proof E as E'. apply abs_active in E'. rewrite (pending_none_active s name e Hs E), E' in *.
    destruct (Equal (nPID e) (cPID cmd)) eqn:Ep.
    { single Ht; [exact Hl| |]; unfold name_next, name_result; fold name; rewrite E; types Ht; by rewrite Ep. }
    destruct (Equal (resolve name (nPID e) (cPID cmd)) (cPID cmd)) eqn:Ew.
    + destruct (unregisterEntry_lands s name Hs) as [HU _]. rewrite E in HU.
      pose proof (register_lands _ name (cPID cmd) _ index (proj1 HU) Hn) as HR.
      rewrite (lands_at _ _ _ _ HU) in HR. single Ht.
      * exact (lands_trans _ _ _ _ _ _ HU HR).
      * unfold name_next; fold name; rewrite E; types Ht. by rewrite Ep, Ew.
      * unfold name_result; fold name; rewrite E; types Ht. by rewrite Ep, Ew.
    + single Ht; [exact Hl| |]; unfold name_next, name_result; fold name; rewrite E; types Ht; by rewrite Ep, Ew.
Qed.

(** Evaluate the specification on a name in a known state. *)
Ltac calc Ht E := unfold name_next, name_result; rewrite ?E; types Ht.

Lemma applyUnregister_ok s cmd index now :
  wf s → cType cmd = CmdUnregister → single_ok s index cmd (applyUnregister s cmd index now).
Proof.
  intros Hs Ht. unfold applyUnregister. destruct (unregisterEntry_lands s (cName cmd) Hs) as [HU HE].
  destruct (unregisterEntry s (cName cmd)) as [r s1]. cbn [fst snd] in *. subst r.
  destruct (abs s (cName cmd)) as [|e|e] eqn:E.
  - pose proof E as [E1 _]%abs_free. rewrite E1. single Ht; [exact HU|by calc Ht E|by calc Ht E].
  - pose proof E as E1. apply abs_reserved in E1; [|done]. rewrite (rw_disj _ _ Hs _ _ E1).
    single Ht; [exact HU|by calc Ht E|by calc Ht E].
  - pose proof E as E1%abs_active. rewrite E1. single Ht; [exact HU|by calc Ht E|by calc Ht E].
Qed.

Lemma applyRegisterPending_ok s cmd index :
  wf s → cmd_ok cmd → cType cmd = CmdRegisterPending → single_ok s index cmd (applyRegisterPending s cmd index).
Proof.
  intros Hs Hc Ht. assert (Hn : effective_node cmd = node_of (toString (cPID cmd))) by (by apply Hc; right).
  unfold applyRegisterPending.
  pose proof (registerPending_lands s (cName cmd) (cPID cmd) _ (pending_epoch cmd index) (cRequired cmd) (cDeadline cmd)
    (i64 index) Hs Hn) as Hl. unfold registerPending in *.
  change (names (get_shard s (shardFor (cName cmd))) !! cName cmd) with (lookup_entry s (cName cmd)) in *.
  destruct (abs s (cName cmd)) as [|e|e] eqn:E.
  - pose proof E as [E1 E2]%abs_free. rewrite E1, E2 in *. single Ht; [exact Hl|by calc Ht E|by calc Ht E].
  - pose proof E as E'. apply abs_reserved in E'; [|done]. rewrite (rw_disj _ _ Hs _ _ E'), E' in *.
    destruct (Equal (pPID e) (cPID cmd) && bool_decide (pEpoch e = pending_epoch cmd index)) eqn:Ep;
      (single Ht; [exact Hl|by calc Ht E|calc Ht E; by rewrite Ep]).
  - pose proof E as E'%abs_active. rewrite E' in *.
    destruct (Equal (nPID e) (cPID cmd)) eqn:Ep; (single Ht; [exact Hl|by calc Ht E|calc Ht E; by rewrite Ep]).
Qed.

(** A name without a reservation of the command's epoch. *)
Lemma no_reservation s cmd :
  wf s → (∀ e, abs s (cName cmd) = Reserved e → pEpoch e ≠ cEpoch cmd) →
  ∀ e, pending s !! cName cmd = Some e → pEpoch e ≠ cEpoch cmd.
Proof. intros Hs He e Hp. apply He. by apply abs_reserved. Qed.

(** The commands that only look at a reservation of their epoch: acks, drops,
    expiries and rejections. *)
Definition on_reservation (cmd : Command) : Prop :=
  cType cmd = CmdRegisterAck ∨ cType cmd = CmdDropRequired ∨ cType cmd = CmdRegisterExpired ∨
  cType cmd = CmdRegisterReject.

Lemma stale_next index cmd st :
  on_reservation cmd → (∀ e, st = Reserved e → pEpoch e ≠ cEpoch cmd) →
  name_next resolve index cmd (cName cmd) st = st.
Proof.
  intros Ht Hst. unfold name_next.
  destruct st as [|e|e]; [..|]; destruct Ht as [Ht|[Ht|[Ht|Ht]]]; types Ht; try done;
    by rewrite (bool_decide_eq_false_2 (pEpoch e = cEpoch cmd)) by (by apply Hst).
Qed.

Lemma stale_result index cmd st st' :
  on_reservation cmd → (∀ e, st = Reserved e → pEpoch e ≠ cEpoch cmd) →
  (∀ e, st' = Reserved e → pEpoch e ≠ cEpoch cmd) → name_result index cmd st = name_result index cmd st'.
Proof.
  intros Ht Hst Hst'. unfold name_result.
  assert (Hx : ∀ st, (∀ e, st = Reserved e → pEpoch e ≠ cEpoch cmd) → ∀ (A : Type) (f : pendingEntry → A) (d : A),
    match st with Reserved e => if bool_decide (pEpoch e = cEpoch cmd) then f e else d | _ => d end = d).
  { intros x Hx A f d. destruct x as [|e|e]; [done| |done]. by rewrite bool_decide_eq_false_2 by (by apply Hx). }
  destruct Ht as [Ht|[Ht|[Ht|Ht]]]; types Ht; rewrite !Hx by done; done.
Qed.

(** A stale command changes nothing. *)
Lemma stale_ok s cmd index r :
  wf s → on_reservation cmd → (∀ e, abs s (cName cmd) = Reserved e → pEpoch e ≠ cEpoch cmd) →
  r = name_result index cmd Free → single_ok s index cmd (r, [], s).
Proof.
  intros Hs Ht Hst ->. eapply single_intro.
  - intros [Hx|Hx]; destruct Ht as [Ht|[Ht|[Ht|Ht]]]; rewrite Ht in Hx; discriminate.
  - by apply lands_refl.
  - by rewrite stale_next.
  - by apply stale_result.
Qed.

Lemma current_next index cmd e :
  pEpoch e = cEpoch cmd →
  name_next resolve index cmd (cName cmd) (Reserved e) =
    if bool_decide (cType cmd = CmdRemovePID) && bool_decide (pPID e = cPID cmd) then Free
    else if bool_decide (cType cmd = CmdRegisterAck) then settle (with_ack e (cAcker cmd)) index
    else if bool_decide (cType cmd = CmdDropRequired) then settle (without_required e (cNodeID cmd)) index
    else if bool_decide (cType cmd = CmdRegisterExpired) || bool_decide (cType cmd = CmdRegisterReject) then Free
    else if bool_decide (cType cmd = CmdRegisterUnreserve) && (Equal (cPID cmd) Zero || Equal (pPID e) (cPID cmd))
    then Free else Reserved e.
Proof.
  intros He. unfold name_next. rewrite (bool_decide_eq_true_2 (cName cmd = cName cmd)) by done.
  rewrite (bool_decide_eq_true_2 (pEpoch e = cEpoch cmd)) by done. cbn [andb]. by rewrite !andb_true_r.
Qed.

(** A reservation is updated to [e'] and promoted when that completes it. *)
Lemma settle_lands s name e e' index :
  wf s → abs s name = Reserved e → pName e' = pName e → pNode e' = pNode e → pPID e' = pPID e →
  pEpoch e' = pEpoch e →
  let s1 := with_pending s (<[name := e']> (pending s)) in
  (ackComplete e' = false → lands s1 (set_at (abs s) name (settle e' index))) ∧
  (ackComplete e' = true →
    promotePending s1 name (pEpoch e) index = (Some e', (promotePending s1 name (pEpoch e) index).2) ∧
    lands (promotePending s1 name (pEpoch e) index).2 (set_at (abs s) name (settle e' index))).
Proof.
  intros Hs E H1 H2 H3 H4 s1. pose proof (update_pending_lands s name e e' Hs E H1 H2 H3) as HL. fold s1 in HL.
  unfold settle. split; intros ->; [done|]. rewrite <- H4.
  destruct (promotePending_lands s1 name e' index (proj1 HL) (lands_at _ _ _ _ HL)) as [P1 P2].
  split; [done|]. exact (lands_trans _ _ _ _ _ _ HL P2).
Qed.

Lemma pending_insert_same s name e : pending s !! name = Some e → with_pending s (<[name := e]> (pending s)) = s.
Proof. intros He. destruct s. unfold with_pending. cbn in *. by rewrite insert_id. Qed.

Lemma applyRegisterAck_ok s cmd index now :
  wf s → cType cmd = CmdRegisterAck → single_ok s index cmd (applyRegisterAck s cmd index now).
Proof.
  intros Hs Ht. unfold applyRegisterAck, recordAck.
  destruct (pending s !! cName cmd) as [e|] eqn:Ep.
  2:{ apply stale_ok; [done|by left| |by calc Ht Ht]. intros e He. apply abs_reserved in He; [congruence|done]. }
  assert (E : abs s (cName cmd) = Reserved e) by (by apply abs_reserved).
  destruct (bool_decide_reflect (pEpoch e ≠ cEpoch cmd)) as [Hne|He].
  { apply stale_ok; [done|by left| |by calc Ht Ht]. intros e' He'. congruence. }
  apply dec_stable in He.
  assert (Hcase : ∃ b, (if bool_decide (cAcker cmd ∈ AckSet e) then (Some (e, false, ackComplete e), s)
      else (Some (with_ack e (cAcker cmd), true, ackComplete (with_ack e (cAcker cmd))),
            with_pending s (<[cName cmd := with_ack e (cAcker cmd)]> (pending s)))) =
      (Some (with_ack e (cAcker cmd), b, ackComplete (with_ack e (cAcker cmd))),
       with_pending s (<[cName cmd := with_ack e (cAcker cmd)]> (pending s)))).
  { destruct (bool_decide_reflect (cAcker cmd ∈ AckSet e)) as [Hin|Hin]; [|by exists true]. exists false.
    assert (Hw : with_ack e (cAcker cmd) = e).
    { destruct e. unfold with_ack. cbn in *. f_equal. set_solver. }
    rewrite Hw. by rewrite pending_insert_same. }
  destruct Hcase as [b Hcase]. unfold with_ack in Hcase at 1 2 3. rewrite Hcase.
  destruct (settle_lands s (cName cmd) e (with_ack e (cAcker cmd)) index Hs E) as [S1 S2]; [done..|].
  destruct (ackComplete (with_ack e (cAcker cmd))) eqn:Ec; cbn [negb].
  - destruct (S2 eq_refl) as [P1 P2]. rewrite <- He. rewrite P1. single Ht; [exact P2| |].
    + rewrite E, current_next by done. by types Ht.
    + calc Ht E. rewrite bool_decide_eq_true_2 by done. by rewrite Ec.
  - single Ht; [exact (S1 eq_refl)| |].
    + rewrite E, current_next by done. by types Ht.
    + calc Ht E. rewrite bool_decide_eq_true_2 by done. by rewrite Ec.
Qed.

Lemma remove_first_default x l :
  default l (remove_first x l) = match remove_first x l with Some l' => l' | None => l end ∧
  bool_decide (x ∈ l) = match remove_first x l with Some _ => true | None => false end.
Proof.
  pose proof (remove_first_spec x l) as Hr. destruct (remove_first x l) as [l'|]; split; try done.
  - destruct Hr as (a & b & -> & _). apply bool_decide_eq_true_2, elem_of_app. right. by left.
  - by apply bool_decide_eq_false_2.
Qed.

Lemma applyDropRequired_ok s cmd index now :
  wf s → cType cmd = CmdDropRequired → single_ok s index cmd (applyDropRequired s cmd index now).
Proof.
  intros Hs Ht. unfold applyDropRequired, dropRequired.
  destruct (pending s !! cName cmd) as [e|] eqn:Ep.
  2:{ apply stale_ok; [done|by right; left| |by calc Ht Ht]. intros e He. apply abs_reserved in He; [congruence|done]. }
  assert (E : abs s (cName cmd) = Reserved e) by (by apply abs_reserved).
  destruct (bool_decide_reflect (pEpoch e ≠ cEpoch cmd)) as [Hne|He].
  { apply stale_ok; [done|by right; left| |by calc Ht Ht]. intros e' He'. congruence. }
  apply dec_stable in He. set (e1 := without_required e (cNodeID cmd)).
  set (d := bool_decide (cNodeID cmd ∈ pRequired e)).
  pose (upd := λ req, mkPend (AckSet e) (pPID e) (pName e) (pNode e) req (pEpoch e) (pDeadline e) (pCreated e)).
  assert (Hcase : match remove_first (cNodeID cmd) (pRequired e) with
      | Some req =>
          (Some (upd req, true, ackComplete (upd req)), with_pending s (<[cName cmd := upd req]> (pending s)))
      | None => (Some (e, false, ackComplete e), s)
      end = (Some (e1, d, ackComplete e1), with_pending s (<[cName cmd := e1]> (pending s)))).
  { unfold e1, d, without_required. destruct (remove_first_default (cNodeID cmd) (pRequired e)) as [-> ->].
    destruct (remove_first (cNodeID cmd) (pRequired e)); [done|]. destruct e. cbn in *. by rewrite pending_insert_same. }
  unfold upd in Hcase. rewrite Hcase. destruct (settle_lands s (cName cmd) e e1 index Hs E) as [S1 S2]; [done..|].
  destruct (ackComplete e1) eqn:Ec; cbn [negb].
  - destruct (S2 eq_refl) as [P1 P2]. rewrite <- He. rewrite P1. single Ht; [exact P2| |].
    + rewrite E, current_next by done. by types Ht.
    + calc Ht E. rewrite bool_decide_eq_true_2 by done. fold e1. by rewrite Ec.
  - single Ht; [exact (S1 eq_refl)| |].
    + rewrite E, current_next by done. by types Ht.
    + calc Ht E. rewrite bool_decide_eq_true_2 by done. fold e1. by rewrite Ec.
Qed.

Lemma applyRegisterExpired_ok s cmd index now :
  wf s → cType cmd = CmdRegisterExpired → single_ok s index cmd (applyRegisterExpired s cmd now).
Proof.
  intros Hs Ht. unfold applyRegisterExpired, expirePending.
  destruct (pending s !! cName cmd) as [e|] eqn:Ep.
  2:{ apply stale_ok; [done|by right; right; left| |by calc Ht Ht]. intros e He. apply abs_reserved in He; [congruence|done]. }
  assert (E : abs s (cName cmd) = Reserved e) by (by apply abs_reserved).
  destruct (bool_decide_reflect (pEpoch e ≠ cEpoch cmd)) as [Hne|He].
  { apply stale_ok; [done|by right; right; left| |by calc Ht Ht]. intros e' He'. congruence. }
  apply dec_stable in He. single Ht.
  - apply with_expired_lands. by eapply delete_pending_lands.
  - rewrite E, current_next by done. by types Ht.
  - calc Ht E. by rewrite bool_decide_eq_true_2.
Qed.

Lemma applyRegisterReject_ok s cmd index now :
  wf s → cType cmd = CmdRegisterReject → single_ok s index cmd (applyRegisterReject s cmd now).
Proof.
  intros Hs Ht. unfold applyRegisterReject, rejectPending.
  destruct (pending s !! cName cmd) as [e|] eqn:Ep.
  2:{ apply stale_ok; [done|by right; right; right| |by calc Ht Ht]. intros e He. apply abs_reserved in He; [congruence|done]. }
  assert (E : abs s (cName cmd) = Reserved e) by (by apply abs_reserved).
  destruct (bool_decide_reflect (pEpoch e ≠ cEpoch cmd)) as [Hne|He].
  { apply stale_ok; [done|by right; right; right| |by calc Ht Ht]. intros e' He'. congruence. }
  apply dec_stable in He. single Ht.
  - apply with_expired_lands. by eapply delete_pending_lands.
  - rewrite E, current_next by done. by types Ht.
  - calc Ht E. by rewrite bool_decide_eq_true_2.
Qed.

Lemma applyRegisterUnreserve_ok s cmd index now :
  wf s → cType cmd = CmdRegisterUnreserve → single_ok s index cmd (applyRegisterUnreserve s cmd index now).
Proof.
  intros Hs Ht. unfold applyRegisterUnreserve, unreservePending.
  destruct (unregisterEntry_lands s (cName cmd) Hs) as [HU HE].
  destruct (unregisterEntry s (cName cmd)) as [r s1] eqn:Eu. cbn [fst snd] in HU, HE. subst r.
  destruct (pending s !! cName cmd) as [e|] eqn:Ep.
  - assert (E : abs s (cName cmd) = Reserved e) by (by apply abs_reserved). rewrite E in HU.
    assert (Hb : negb (Equal (cPID cmd) Zero) && negb (Equal (pPID e) (cPID cmd)) =
                 negb (Equal (cPID cmd) Zero || Equal (pPID e) (cPID cmd))) by (by rewrite negb_orb).
    rewrite Hb. destruct (Equal (cPID cmd) Zero || Equal (pPID e) (cPID cmd)) eqn:Eb; cbn [negb].
    + single Ht; [by eapply delete_pending_lands|calc Ht E; by rewrite Eb|calc Ht E; by rewrite Eb].
    + rewrite Eu, (rw_disj _ _ Hs _ _ Ep). single Ht; [exact HU|calc Ht E; by rewrite Eb|calc Ht E; by rewrite Eb].
  - rewrite Eu. unfold abs in HU. rewrite Ep in HU. destruct (lookup_entry s (cName cmd)) as [e|] eqn:El.
    + assert (E : abs s (cName cmd) = Active e) by (by apply abs_active).
      single Ht; [exact HU|by calc Ht E|by calc Ht E].
    + assert (E : abs s (cName cmd) = Free) by (by apply abs_free).
      single Ht; [exact HU|by calc Ht E|by calc Ht E].
Qed.

(** *** Bulk removals *)

(** The names [ns] are freed and counted, nothing else changes; when no more are
    announced, every name the command is about is free. *)
Definition bulk_ok (s : shardedState) (index : Z) (cmd : Command) (out : fsm_result * list event * shardedState) : Prop :=
  ∃ ns more, out.1.1 = ResRemove (Z.of_nat (length ns)) more ∧ NoDup ns ∧ wf out.2 ∧
    (∀ n, n ∈ ns → abs s n ≠ Free ∧ name_next resolve index cmd n (abs s n) = Free) ∧
    (∀ n, abs out.2 n = if decide (n ∈ ns) then Free else abs s n) ∧
    (chunked cmd = true → Z.of_nat (length ns) ≤ cLimit cmd) ∧
    if more then chunked cmd = true ∧ Z.of_nat (length ns) = cLimit cmd ∧
                 ∃ n, n ∉ ns ∧ abs s n ≠ Free ∧ name_next resolve index cmd n (abs s n) = Free
    else ∀ n, abs s n ≠ Free → n ∉ ns → name_next resolve index cmd n (abs s n) = abs s n.

Lemma release_pending_spec p now l evs s :
  wf s → (∀ n e, n ∈ l → pending s !! n = Some e → pPID e = p) →
  let '(evs', s') := foldl (release_pending p now) (evs, s) l in
  wf s' ∧ (∀ n, lookup_entry s' n = lookup_entry s n) ∧
  (∀ n, pending s' !! n = if decide (n ∈ l) then None else pending s !! n) ∧
  ∃ new, evs' = evs ++ new ∧ ∀ ev b, ev ∈ new → ev ≠ Binding b.
Proof.
  revert evs s. induction l as [|x l IH]; intros evs s Hs Hl; cbn [foldl].
  { split_and!; try done. exists []. rewrite app_nil_r. split; [done|]. intros ev b Hx. by apply elem_of_nil in Hx. }
  unfold release_pending at 2, unreservePending. destruct (pending s !! x) as [e|] eqn:Ex.
  - assert (Hp : pPID e = p) by (eapply Hl; [by left|done]).
    assert (Hg : negb (Equal p Zero) && negb (Equal (pPID e) p) = false).
    { unfold Equal. rewrite (bool_decide_eq_true_2 (pPID e = p)) by done. by rewrite andb_false_r. }
    rewrite Hg. set (ev := ExpiredEvent _ _ _ _ _ _ _ _).
    assert (Hs1 : wf (with_pending s (delete x (pending s)))) by (by apply delete_pending_wf).
    specialize (IH (evs ++ [ev]) _ Hs1). destruct (foldl (release_pending p now) _ l) as [evs' s'].
    destruct IH as (I1 & I2 & I3 & new & I4 & I5).
    { intros n e' Hn. cbn. rewrite lookup_delete_Some. intros [_ Hx]. eapply Hl; [by right|done]. }
    split_and!; [done|intros n; by rewrite I2| |].
    + intros n. rewrite I3. cbn [pending with_pending]. destruct (decide (n ∈ l)) as [Hn|Hn].
      * by rewrite decide_True by (by right).
      * rewrite lookup_delete. destruct (decide (x = n)) as [->|Hne]; [by rewrite decide_True by (by left)|].
        rewrite decide_False; [done|]. rewrite elem_of_cons. intros [?|?]; congruence.
    + exists (ev :: new). split; [by rewrite I4, <- app_assoc|]. intros y b [->|Hy]%elem_of_cons; [done|by apply I5].
  - specialize (IH evs s Hs). destruct (foldl (release_pending p now) _ l) as [evs' s'].
    destruct IH as (I1 & I2 & I3 & new & I4 & I5); [intros n e' Hn; eapply Hl; by right|].
    split_and!; [done|done| |by exists new]. intros n. rewrite I3. destruct (decide (n ∈ l)) as [Hn|Hn].
    + by rewrite decide_True by (by right).
    + destruct (decide (n ∈ x :: l)) as [Hx|]; [|done]. apply elem_of_cons in Hx as [->|?]; [done|done].
Qed.

Lemma lookupPendingByPID_spec s p :
  NoDup (lookupPendingByPID s p) ∧
  ∀ n, n ∈ lookupPendingByPID s p ↔ ∃ e, pending s !! n = Some e ∧ pPID e = p.
Proof.
  unfold lookupPendingByPID. split.
  - eapply sublist_NoDup; [apply (NoDup_fst_map_to_list (pending s))|]. apply fmap_sublist, sublist_filter.
  - intros n. rewrite list_elem_of_fmap. split.
    + intros ([m e] & -> & Hx). apply list_elem_of_filter in Hx as [Hp Hm%elem_of_map_to_list]. by exists e.
    + intros (e & He & Hp). exists (n, e). split; [done|]. apply list_elem_of_filter. split; [done|].
      by apply elem_of_map_to_list.
Qed.

Lemma applyRemovePID_ok s cmd index now :
  wf s → cType cmd = CmdRemovePID → bulk_ok s index cmd (applyRemovePID s cmd index now).
Proof.
  intros Hs Ht. unfold applyRemovePID. set (p := cPID cmd).
  destruct (lookupPendingByPID_spec s p) as [Pnd Pel].
  pose proof (release_pending_spec p now (lookupPendingByPID s p) [] s Hs) as Hr.
  destruct (foldl (release_pending p now) _ _) as [evs s1].
  destruct Hr as (R1 & R2 & R3 & _).
  { intros n e Hn He. apply Pel in Hn as (e' & He' & Hp). congruence. }
  pose proof (removePIDWithNames_spec node_of s1 p R1) as Hd.
  destruct (removePIDWithNames s1 p) as [[[ns c] sts] s2].
  destruct Hd as (D1 & D2 & _ & D4 & D5 & D6 & -> & _). setoid_rewrite R2 in D6. setoid_rewrite R2 in D4.
  assert (Hact : ∀ n, n ∈ ns ↔ ∃ e, abs s n = Active e ∧ toString (nPID e) = toString p).
  { intros n. rewrite D6. by setoid_rewrite abs_active. }
  assert (Hres : ∀ n, n ∈ lookupPendingByPID s p ↔ ∃ e, abs s n = Reserved e ∧ pPID e = p).
  { intros n. rewrite Pel. split; intros (e & He & Hx); exists e; (split; [|done]); by apply (abs_reserved s n e Hs). }
  exists (lookupPendingByPID s p ++ ns), false. cbn [fst snd]. split_and!.
  - rewrite length_app, Nat2Z.inj_add. f_equal. lia.
  - apply NoDup_app. split_and!; [done| |done]. intros n (e & He & _)%Hres (e' & He' & _)%Hact. congruence.
  - done.
  - intros n [(e & -> & He)%Hres|(e & -> & He)%Hact]%elem_of_app; (split; [done|]); unfold name_next; types Ht;
      by rewrite bool_decide_eq_true_2.
  - intros n. unfold abs at 1. rewrite D4, D2, R3. destruct (decide (n ∈ lookupPendingByPID s p ++ ns)) as [Hn|Hn].
    + apply elem_of_app in Hn as [Hn|(e & He%abs_active & Hx)%Hact].
      * rewrite decide_True by done. apply Hres in Hn as (e & He & _). apply abs_reserved in He; [|done].
        by rewrite (rw_disj _ _ Hs _ _ He).
      * rewrite He. cbn. rewrite decide_True by done. destruct (decide (n ∈ lookupPendingByPID s p)); [done|].
        by rewrite (pending_none_active s n e Hs) by (by apply abs_active).
    + rewrite elem_of_app in Hn. rewrite (decide_False (P := n ∈ lookupPendingByPID s p)) by tauto. unfold abs.
      destruct (lookup_entry s n) as [e|] eqn:El; cbn; [|done]. rewrite decide_False; [done|].
      intros Hx. apply Hn. right. apply Hact. exists e. split; [by apply abs_active|done].
  - unfold chunked. by rewrite Ht.
  - intros n Hf Hn. rewrite elem_of_app in Hn. unfold name_next. destruct (abs s n) as [|e|e] eqn:E; [done|..]; types Ht.
    + rewrite bool_decide_eq_false_2; [done|]. intros Hx. apply Hn. left. apply Hres. by exists e.
    + rewrite bool_decide_eq_false_2; [done|]. intros Hx. apply Hn. right. apply Hact. by exists e.
Qed.

Lemma applyRemoveNode_ok s cmd index now :
  wf s → cType cmd = CmdRemoveNode → bulk_ok s index cmd (applyRemoveNode order s cmd index now).
Proof.
  intros Hs Ht. unfold applyRemoveNode.
  pose proof (removeNodeWithNames_spec node_of order s (cNodeID cmd) (cLimit cmd) Hs order_elem) as Hd.
  destruct (removeNodeWithNames order s (cNodeID cmd) (cLimit cmd)) as [[[[ns c] more] sts] s1].
  destruct Hd as (T & [D1 D2 D3 _ _] & W & E1 & _ & E3 & E4 & E5). cbn in D3.
  assert (Habs : ∀ n, abs s1 n = if decide (n ∈ T) then Free else abs s n).
  { intros n. unfold abs. rewrite E3, E1. destruct (decide (n ∈ T)) as [Hn|Hn]; [|done].
    destruct (D2 n Hn) as (e & He & _). by rewrite (pending_none_active s n e Hs) by (by apply abs_active). }
  assert (Hnext : ∀ n e, abs s n = Active e → name_next resolve index cmd n (Active e) =
                         if bool_decide (nNode e = cNodeID cmd) then Free else Active e).
  { intros n e _. unfold name_next. by types Ht. }
  assert (HT : ∀ n, n ∈ T → ∃ e, abs s n = Active e ∧ nNode e = cNodeID cmd).
  { intros n Hn. destruct (D2 n Hn) as (e & He & Hx%elem_of_elements). exists e. split; [by apply abs_active|].
    rewrite (entry_node node_of s n e Hs He). by apply (rw_node _ _ Hs). }
  exists T, more. cbn [fst snd]. split_and!; [by rewrite D3, Z.add_0_l|done|done| |done| |].
  - intros n Hn. destruct (HT n Hn) as (e & He & Hx). rewrite He. split; [done|]. rewrite (Hnext n e He).
    by rewrite bool_decide_eq_true_2.
  - unfold chunked. intros [_ Hl%bool_decide_eq_true]%andb_prop. specialize (E4 Hl). lia.
  - destruct more.
    + destruct E5 as (F1 & F2 & _ & n & e & He & Hx). unfold chunked. rewrite Ht.
      rewrite (bool_decide_eq_true_2 (0 < cLimit cmd)) by done. split_and!; [done|by rewrite <- F2, D3, Z.add_0_l|].
      assert (Hn : n ∉ T).
      { intros Hn. apply abs_active in He. rewrite Habs, decide_True in He by done. done. }
      apply abs_active in He. rewrite Habs, decide_False in He by done. exists n. rewrite He. split_and!; [done|done|].
      rewrite (Hnext n e He). by rewrite bool_decide_eq_true_2.
    + intros n Hf Hn. destruct (abs s n) as [|e|e] eqn:E; [done| |].
      * unfold name_next. by types Ht.
      * rewrite (Hnext n e E). rewrite bool_decide_eq_false_2; [done|]. apply (E5 n e). apply abs_active.
        by rewrite Habs, decide_False.
Qed.

(** *** The switch *)

Definition known (cmd : Command) : Prop :=
  cType cmd = CmdRegister ∨ cType cmd = CmdUnregister ∨ cType cmd = CmdRegisterPending ∨ cType cmd = CmdRegisterUnreserve ∨
  bulk cmd ∨ on_reservation cmd.

Lemma unknown_next index cmd n st : ¬ known cmd → name_next resolve index cmd n st = st.
Proof.
  unfold known, bulk, on_reservation. intros Hk. unfold name_next.
  repeat match goal with
  | |- context [bool_decide (cType cmd = ?b)] => rewrite (bool_decide_eq_false_2 (cType cmd = b)) by tauto
  end. by destruct st.
Qed.

Lemma apply_cmd_ok s index cmd now :
  wf s → cmd_ok cmd →
  (bulk cmd → bulk_ok s index cmd (apply_cmd resolve order s index cmd now)) ∧
  (¬ bulk cmd → single_ok s index cmd (apply_cmd resolve order s index cmd now)).
Proof.
  intros Hs Hc. unfold apply_cmd.
  repeat match goal with
  | |- context [if bool_decide (cType cmd = ?b) then _ else _] =>
      destruct (bool_decide_reflect (cType cmd = b)) as [Ht|];
      [split; intros Hb;
       first [by apply applyRemovePID_ok | by apply applyRemoveNode_ok | by exfalso; revert Hb; eapply not_bulk
             | by exfalso; apply Hb; unfold bulk; tauto
             | by apply applyRegister_ok | by apply applyUnregister_ok | by apply applyRegisterPending_ok
             | by apply applyRegisterAck_ok | by apply applyRegisterExpired_ok | by apply applyRegisterUnreserve_ok
             | by apply applyDropRequired_ok | by apply applyRegisterReject_ok]|]
  end.
  assert (Hk : ¬ known cmd) by (unfold known, bulk, on_reservation; tauto).
  split; intros Hb; [by exfalso; apply Hk; unfold known; tauto|].
  eapply single_intro; [done|by apply lands_refl|by rewrite unknown_next|].
  unfold name_result. by repeat (rewrite bool_decide_eq_false_2 by done).
Qed.

Lemma apply_cmd_step s index cmd now :
  wf s → cmd_ok cmd →
  let s' := (apply_cmd resolve order s index cmd now).2 in
  wf s' ∧ ∀ n, name_step resolve index cmd n (abs s n) (abs s' n).
Proof.
  intros Hs Hc. destruct (apply_cmd_ok s index cmd now Hs Hc) as [Hb Hsg].
  destruct (decide (cType cmd = CmdRemovePID ∨ cType cmd = CmdRemoveNode)) as [H|H].
  - destruct (Hb H) as (ns & more & _ & _ & W & B1 & B2 & _ & B3). split; [done|]. intros n. rewrite B2.
    destruct (decide (n ∈ ns)) as [Hn|Hn]; [left; by destruct (B1 n Hn)|].
    destruct more; [right; split; [apply B3|done]|]. left. destruct (abs s n) as [|e|e] eqn:E.
    + unfold name_next. destruct H as [Ht|Ht]; by types Ht.
    + symmetry. rewrite <- E. by apply B3; rewrite ?E.
    + symmetry. rewrite <- E. by apply B3; rewrite ?E.
  - destruct (Hsg H) as [_ [W A]]. split; [done|]. intros n. by left.
Qed.

End refinement.
End RegFsm.
