(* ===== verification/Dissem.v ===== *)
(** * Dissemination of active bindings ([system/topology/namereg/global/dissem.go])

    Nodes that do not replicate the registry keep a cache of its active bindings. The
    leader turns the binding events of the state machine into deltas, packs them into
    gossip frames, and every node folds the deltas it receives into its cache, the
    larger raft index winning. Locks are not modelled: each operation runs under one.
    Wall-clock readings are arguments. The queue's capacity and the frame limits are
    the code's.

    The theorems: a cache that received the deltas of a log in any order and with
    any repetition, as long as the latest of each name is among them, answers every
    lookup as the replicated registry; frames survive the wire; a broadcast round
    respects frame and byte limits, loses nothing but what cannot travel, and makes
    progress; the queue never exceeds its capacity. *)

From S2P Require Import Prelude Bytes Packer Pid NameReg NameFsm NameLog.

Module Dissem.
Import Pid.

Definition dissemQueueCap : nat := 4096.
Definition dissemMaxFrameBytes : Z := 1400.

Record bindingEntry := mkBE { bePID : PID; beIndex : Z; beWall : Z; beDeleted : bool }.

Record bindingDelta := mkBD { bdPID : PID; bdName : string; bdIndex : Z; bdWall : Z; bdDeleted : bool }.

Record Dissem := mkDissem {
  cache : gmap string bindingEntry;
  queue : list bindingDelta;
  tombstoneRetention : Z;
  qDropped : Z
}.

Definition with_cache (d : Dissem) c : Dissem := mkDissem c (queue d) (tombstoneRetention d) (qDropped d).

(** The option of [NewDissem]: a non-positive retention keeps the default, 0. *)
Definition NewDissem (retention : Z) : Dissem :=
  mkDissem ∅ [] (if bool_decide (0 < retention) then retention else 0) 0.

(** ** The cache *)

Definition Lookup (d : Dissem) (name : string) : option PID :=
  match cache d !! name with
  | Some e => if beDeleted e then None else Some (bePID e)
  | None => None
  end.

Definition CachedIndex (d : Dissem) (name : string) : Z :=
  match cache d !! name with Some e => beIndex e | None => 0 end.

Definition CacheSize (d : Dissem) : nat := size (cache d).

Definition merge (d : Dissem) (x : bindingDelta) : bool * Dissem :=
  let install := with_cache d (<[bdName x := mkBE (bdPID x) (bdIndex x) (bdWall x) (bdDeleted x)]> (cache d)) in
  match cache d !! bdName x with
  | Some existing =>
      if bool_decide (bdIndex x < beIndex existing) then (false, d) else
      if bool_decide (bdIndex x = beIndex existing) && (negb (beDeleted existing) || bdDeleted x) then (false, d)
      else (true, install)
  | None => (true, install)
  end.

Definition delta_of (ev : RegFsm.BindingEvent) (wall : Z) : bindingDelta :=
  mkBD (RegFsm.bPID ev) (RegFsm.bName ev) (RegFsm.bIndex ev) wall (RegFsm.bDeleted ev).

Definition enqueue (d : Dissem) (x : bindingDelta) : Dissem :=
  if bool_decide (dissemQueueCap ≤ length (queue d))%nat
  then mkDissem (cache d) (drop 1 (queue d) ++ [x]) (tombstoneRetention d) (u64 (qDropped d + 1))
  else mkDissem (cache d) (queue d ++ [x]) (tombstoneRetention d) (qDropped d).

Definition LeaderBroadcast (d : Dissem) (ev : RegFsm.BindingEvent) (now : Z) : Dissem :=
  enqueue (merge d (delta_of ev now)).2 (delta_of ev now).

Definition LocalApply (d : Dissem) (ev : RegFsm.BindingEvent) (now : Z) : Dissem := (merge d (delta_of ev now)).2.

Definition SeedFromSnapshot (d : Dissem) (name : string) (p : PID) (raftIndex now : Z) : Dissem :=
  (merge d (mkBD p name raftIndex now false)).2.

Definition sweepTombstones (d : Dissem) (nowNano : Z) : nat * Dissem :=
  if bool_decide (tombstoneRetention d ≤ 0) then (0%nat, d) else
  let floor := i64 (nowNano - tombstoneRetention d) in
  let gone e := beDeleted e && bool_decide (beWall e < floor) in
  (size (filter (λ kv, gone kv.2 = true) (cache d)),
   with_cache d (filter (λ kv, gone kv.2 = false) (cache d))).

Record DigestEntry := mkDE { deName : string; deIndex : Z; deDeleted : bool }.

Definition DigestSnapshot (d : Dissem) : list DigestEntry :=
  (λ kv, mkDE kv.1 (beIndex kv.2) (beDeleted kv.2)) <$> map_to_list (cache d).

(** ** Wire format *)

Inductive dissem_error := ErrNameTooLong | ErrPidTooLong | ErrShortHeader | ErrShortName | ErrShortNode | ErrShortHost | ErrShortUniq.

Definition encodeBindingDelta (buf : list ascii) (d : bindingDelta) : result dissem_error (list ascii) :=
  if bool_decide (65535 < blen (bytes_of (bdName d))) then Err ErrNameTooLong
  else if bool_decide (255 < blen (bytes_of (Node (bdPID d)))) || bool_decide (255 < blen (bytes_of (Host (bdPID d))))
          || bool_decide (65535 < blen (bytes_of (UniqID (bdPID d)))) then Err ErrPidTooLong
  else
    let buf := buf ++ [byte_of (if bdDeleted d then 1 else 0)] in
    let buf := buf ++ le_bytes 8 (bdIndex d) in
    let buf := buf ++ le_bytes 8 (u64 (bdWall d)) in
    let buf := buf ++ le_bytes 2 (u16 (blen (bytes_of (bdName d)))) in
    let buf := buf ++ bytes_of (bdName d) in
    let buf := buf ++ [byte_of (blen (bytes_of (Node (bdPID d))))] in
    let buf := buf ++ bytes_of (Node (bdPID d)) in
    let buf := buf ++ [byte_of (blen (bytes_of (Host (bdPID d))))] in
    let buf := buf ++ bytes_of (Host (bdPID d)) in
    let buf := buf ++ le_bytes 2 (u16 (blen (bytes_of (UniqID (bdPID d))))) in
    Ok (buf ++ bytes_of (UniqID (bdPID d))).

(** The byte at [pos]; the guards of the callers keep it in range. *)
Definition byte_at (data : list ascii) (pos : nat) : Z := le_val (slice data pos 1).

Definition decodeBindingDelta (data : list ascii) : result dissem_error (bindingDelta * nat) :=
  if bool_decide (length data < 19)%nat then Err ErrShortHeader else
  let flags := byte_at data 0 in
  let raftIndex := le_val (slice data 1 8) in
  let wall := i64 (le_val (slice data 9 8)) in
  let nameLen := Z.to_nat (le_val (slice data 17 2)) in
  let pos := 19%nat in
  if bool_decide (length data < pos + nameLen + 1)%nat then Err ErrShortName else
  let name := string_of (slice data pos nameLen) in
  let pos := (pos + nameLen)%nat in
  let nodeLen := Z.to_nat (byte_at data pos) in
  let pos := (pos + 1)%nat in
  if bool_decide (length data < pos + nodeLen + 1)%nat then Err ErrShortNode else
  let node := string_of (slice data pos nodeLen) in
  let pos := (pos + nodeLen)%nat in
  let hostLen := Z.to_nat (byte_at data pos) in
  let pos := (pos + 1)%nat in
  if bool_decide (length data < pos + hostLen + 2)%nat then Err ErrShortHost else
  let host := string_of (slice data pos hostLen) in
  let pos := (pos + hostLen)%nat in
  let uniqLen := Z.to_nat (le_val (slice data pos 2)) in
  let pos := (pos + 2)%nat in
  if bool_decide (length data < pos + uniqLen)%nat then Err ErrShortUniq else
  let uniq := string_of (slice data pos uniqLen) in
  let pos := (pos + uniqLen)%nat in
  Ok (mkBD (mkPID node host uniq) name raftIndex wall (bool_decide (Z.land flags 1 ≠ 0)), pos).

(** The loop, with the deltas read before an error. Every delta has at least 19 bytes,
    so [length data] rounds are enough. *)
Fixpoint decode_loop (fuel : nat) (data : list ascii) : list bindingDelta * option dissem_error :=
  match fuel with
  | O => ([], None)
  | S fuel =>
      if bool_decide (data = []) then ([], None) else
      match decodeBindingDelta data with
      | Err e => ([], Some e)
      | Ok (d, n) => let '(ds, err) := decode_loop fuel (drop n data) in (d :: ds, err)
      end
  end.

Definition decodeBindingFrame (data : list ascii) : list bindingDelta * option dissem_error :=
  decode_loop (S (length data)) data.

(** A malformed frame is logged; the deltas before the error are merged. *)
Definition NotifyMsg (d : Dissem) (payload : list ascii) : Dissem :=
  foldl (λ d x, (merge d x).2) d (decodeBindingFrame payload).1.

(** ** Broadcasts *)

Section pack.
Context (headerOverhead byteBudget perFrameLimit : Z).

(** The packing loop; a [break] returns the variables. *)
Fixpoint pack_loop (i : nat) (ds : list bindingDelta) (v : drain) : drain :=
  match ds with
  | [] => v
  | x :: ds =>
      match encodeBindingDelta [] x with
      | Err _ => pack_loop (S i) ds (skip v i)
      | Ok buf =>
          if bool_decide (perFrameLimit < blen buf) then pack_loop (S i) ds (skip v i) else
          let room := byteBudget - bytesEmitted v - headerOverhead in
          if bool_decide (room ≤ 0) then v else
          let room := if bool_decide (perFrameLimit < room) then perFrameLimit else room in
          if bool_decide (room < blen (frame v) + blen buf) then
            let '(ok, v) := flushFrame headerOverhead byteBudget v in
            if negb ok then v else
            let room := byteBudget - bytesEmitted v - headerOverhead in
            if bool_decide (room ≤ 0) || bool_decide (room < blen buf) then v
            else pack_loop (S i) ds (append_frame v buf i)
          else pack_loop (S i) ds (append_frame v buf i)
      end
  end.
End pack.

Definition GetBroadcasts (d : Dissem) (headerOverhead byteBudget : Z) : list (list ascii) * Dissem :=
  if bool_decide (queue d = []) then ([], d) else
  let perFrameLimit := dissemMaxFrameBytes - headerOverhead in
  let perFrameLimit := if bool_decide (perFrameLimit < 64) then 64 else perFrameLimit in
  let byteBudget := if bool_decide (byteBudget ≤ 0) then dissemMaxFrameBytes else byteBudget in
  let v := pack_loop headerOverhead byteBudget perFrameLimit 0 (queue d) drain0 in
  let v := (flushFrame headerOverhead byteBudget v).2 in
  if bool_decide (commitIdx v = []) && bool_decide (skipIdx v = []) then (frames v, d) else
  (frames v, mkDissem (cache d) (keep_except (commitIdx v ++ skipIdx v) (queue d)) (tombstoneRetention d) (qDropped d)).

(** ** The wire round trip *)

Definition delta_bytes (d : bindingDelta) : list ascii :=
  le_bytes 1 (if bdDeleted d then 1 else 0) ++ le_bytes 8 (bdIndex d) ++ le_bytes 8 (u64 (bdWall d))
  ++ le_bytes 2 (blen (bytes_of (bdName d))) ++ bytes_of (bdName d)
  ++ le_bytes 1 (blen (bytes_of (Node (bdPID d)))) ++ bytes_of (Node (bdPID d))
  ++ le_bytes 1 (blen (bytes_of (Host (bdPID d)))) ++ bytes_of (Host (bdPID d))
  ++ le_bytes 2 (blen (bytes_of (UniqID (bdPID d)))) ++ bytes_of (UniqID (bdPID d)).

Definition encodable (d : bindingDelta) : Prop :=
  blen (bytes_of (bdName d)) ≤ 65535 ∧ blen (bytes_of (Node (bdPID d))) ≤ 255 ∧
  blen (bytes_of (Host (bdPID d))) ≤ 255 ∧ blen (bytes_of (UniqID (bdPID d))) ≤ 65535.

Lemma length_binding_bytes d :
  length (delta_bytes d) =
  (23 + length (bytes_of (bdName d)) + length (bytes_of (Node (bdPID d))) + length (bytes_of (Host (bdPID d)))
   + length (bytes_of (UniqID (bdPID d))))%nat.
Proof. unfold delta_bytes. rewrite !length_app, !length_le_bytes. lia. Qed.

Lemma encodeBindingDelta_ok buf d out :
  encodeBindingDelta buf d = Ok out ↔ encodable d ∧ out = buf ++ delta_bytes d.
Proof.
  unfold encodeBindingDelta, encodable. assert (Hb : ∀ z, [byte_of z] = le_bytes 1 z) by done.
  destruct (bool_decide_reflect (65535 < blen (bytes_of (bdName d)))); [split; [done|lia]|].
  destruct (_ || _ || _) eqn:E.
  - split; [done|]. rewrite !orb_true_iff, !bool_decide_eq_true in E. lia.
  - rewrite !orb_false_iff, !bool_decide_eq_false in E. rewrite !Hb, !u16_small by (unfold blen in *; lia).
    unfold delta_bytes. split.
    + intros ?; simplify_eq. split; [lia|]. by rewrite <- !app_assoc.
    + intros [_ ->]. by rewrite <- !app_assoc.
Qed.

(** Read a field off the front of the cursor [Ha]. *)
Ltac take_field Ha Hlen :=
  match type of Ha with
  | at_data _ ?pos (?x ++ ?post) =>
      rewrite ?(at_data_slice _ _ _ _ _ Ha Hlen);
      apply (λ H, at_data_next _ _ _ _ _ H Hlen) in Ha
  end.

Ltac enough_left Ha :=
  match goal with
  | |- context [bool_decide (length ?data < ?k)%nat] =>
      rewrite (bool_decide_eq_false_2 (length data < k)%nat)
        by (rewrite (at_data_len _ _ _ Ha), ?length_app, ?length_le_bytes; unfold blen; lia)
  end.

Lemma decode_delta_bytes d rest :
  encodable d → is_u64 (bdIndex d) → is_i64 (bdWall d) →
  decodeBindingDelta (delta_bytes d ++ rest) = Ok (d, length (delta_bytes d)).
Proof.
  intros (Hn & Hnd & Hh & Hu) Hi Hw. unfold decodeBindingDelta, byte_at. cbv zeta.
  pose proof (length_binding_bytes d) as Hl. set (data := delta_bytes d ++ rest) in *.
  assert (Hlen : length data = (length (delta_bytes d) + length rest)%nat) by apply length_app.
  assert (Ha : at_data data 0 data) by apply at_data_start. unfold data at 2 in Ha. unfold delta_bytes in Ha.
  rewrite <- !app_assoc in Ha. rewrite (bool_decide_eq_false_2 (length data < 19)%nat) by lia.
  take_field Ha (eq_sym (length_le_bytes 1 (if bdDeleted d then 1 else 0))). change (0 + 1)%nat with 1%nat in Ha.
  take_field Ha (eq_sym (length_le_bytes 8 (bdIndex d))). change (1 + 8)%nat with 9%nat in Ha.
  take_field Ha (eq_sym (length_le_bytes 8 (u64 (bdWall d)))). change (9 + 8)%nat with 17%nat in Ha.
  take_field Ha (eq_sym (length_le_bytes 2 (blen (bytes_of (bdName d))))). change (17 + 2)%nat with 19%nat in Ha.
  assert (H1 : ∀ z, 0 ≤ z ≤ 255 → le_val (le_bytes 1 z) = z) by (intros z Hz; rewrite le_val_bytes; apply Z.mod_small; cbn; lia).
  assert (H2 : ∀ z, 0 ≤ z ≤ 65535 → le_val (le_bytes 2 z) = z) by (intros z Hz; rewrite le_val_bytes; apply Z.mod_small; cbn; lia).
  rewrite (H2 (blen (bytes_of (bdName d)))) by (unfold blen in *; lia).
  assert (Hid : ∀ b, Z.to_nat (blen b) = length b) by (intros b; apply Nat2Z.id).
  enough_left Ha. take_field Ha (Hid (bytes_of (bdName d))).
  take_field Ha (eq_sym (length_le_bytes 1 (blen (bytes_of (Node (bdPID d)))))). rewrite (H1 (blen _)) by (unfold blen in *; lia).
  enough_left Ha. take_field Ha (Hid (bytes_of (Node (bdPID d)))).
  take_field Ha (eq_sym (length_le_bytes 1 (blen (bytes_of (Host (bdPID d)))))). rewrite (H1 (blen _)) by (unfold blen in *; lia).
  enough_left Ha. take_field Ha (Hid (bytes_of (Host (bdPID d)))).
  take_field Ha (eq_sym (length_le_bytes 2 (blen (bytes_of (UniqID (bdPID d)))))). rewrite (H2 (blen _)) by (unfold blen in *; lia).
  enough_left Ha. take_field Ha (Hid (bytes_of (UniqID (bdPID d)))).
  rewrite !string_of_bytes_of, (H1 (if bdDeleted d then 1 else 0)) by (destruct (bdDeleted d); lia).
  rewrite !le_val_bytes. change (bdIndex d mod 2 ^ (8 * Z.of_nat 8)) with (u64 (bdIndex d)).
  change (u64 (bdWall d) mod 2 ^ (8 * Z.of_nat 8)) with (u64 (u64 (bdWall d))).
  rewrite (u64_small (bdIndex d)), (u64_small (u64 _)), i64_u64 by (done || apply u64_range).
  rewrite Hl, !Hid. f_equal. f_equal; [|lia]. destruct d as [[] ? ? ? []]; reflexivity.
Qed.

Definition wire_ok (d : bindingDelta) : Prop := encodable d ∧ is_u64 (bdIndex d) ∧ is_i64 (bdWall d).

Definition frame_bytes (ds : list bindingDelta) : list ascii := concat (delta_bytes <$> ds).

Lemma decode_loop_bytes ds fuel :
  Forall wire_ok ds → (length (frame_bytes ds) < fuel)%nat → decode_loop fuel (frame_bytes ds) = (ds, None).
Proof.
  intros Hds. revert fuel. induction Hds as [|d ds (He & Hi & Hw) Hds IH]; intros fuel Hf.
  { destruct fuel; [cbn in Hf; lia|]. done. }
  unfold frame_bytes in *. cbn [fmap list_fmap concat] in *. rewrite length_app in Hf.
  pose proof (length_binding_bytes d) as Hl. destruct fuel as [|fuel]; [lia|]. cbn [decode_loop].
  rewrite bool_decide_eq_false_2 by (intros [Hz _]%app_eq_nil; rewrite Hz in Hl; cbn in Hl; lia).
  rewrite decode_delta_bytes by done. rewrite drop_app_length, IH by lia. done.
Qed.

(** A decoded delta consumes bytes of the frame, so a frame is read in as many rounds as
    it has bytes. *)
Lemma decodeBindingDelta_len data d n : decodeBindingDelta data = Ok (d, n) → (19 < n ≤ length data)%nat.
Proof.
  unfold decodeBindingDelta. cbv zeta.
  repeat match goal with
  | |- context [bool_decide (?a < ?b)%nat] => destruct (bool_decide_reflect (a < b)%nat); [done|]
  end.
  intros E. apply (f_equal (λ r, match r with Ok p => p.2 | Err _ => 0%nat end)) in E. cbv beta iota delta [snd] in E. lia.
Qed.

Lemma decode_loop_fuel f1 f2 data :
  (length data < f1)%nat → (length data < f2)%nat → decode_loop f1 data = decode_loop f2 data.
Proof.
  revert f2 data. induction f1 as [|f1 IH]; intros f2 data H1 H2; [lia|]. destruct f2 as [|f2]; [lia|]. cbn [decode_loop].
  destruct (bool_decide_reflect (data = [])) as [|_]; [done|]. destruct (decodeBindingDelta data) as [[d n]|] eqn:E; [|done].
  apply decodeBindingDelta_len in E. rewrite (IH f2); [done| |]; rewrite length_drop; lia.
Qed.

(** The wire round trip: a gossip frame that concatenates the encodings of any
    deltas is decoded to exactly those deltas, in order and without error; and any
    further bytes of a damaged frame cost none of them. *)
Theorem binding_frame_roundtrip ds bufs junk :
  Forall2 (λ d buf, encodeBindingDelta [] d = Ok buf) ds bufs →
  Forall (λ d, is_u64 (bdIndex d) ∧ is_i64 (bdWall d)) ds →
  decodeBindingFrame (concat bufs) = (ds, None) ∧ take (length ds) (decodeBindingFrame (concat bufs ++ junk)).1 = ds.
Proof.
  intros Hb Hr. assert (H : Forall wire_ok ds ∧ concat bufs = frame_bytes ds).
  { induction Hb as [|d buf ds bufs He Hb IH]; [done|]. apply Forall_cons in Hr as [[Hc Hw] Hr].
    destruct (IH Hr) as [H1 H2]. apply encodeBindingDelta_ok in He as [He ->]. split; [by constructor|].
    unfold frame_bytes in *. cbn. by rewrite H2. }
  destruct H as [Hok ->]. split; [apply decode_loop_bytes; [done|lia]|]. clear Hb Hr bufs.
  unfold decodeBindingFrame. induction Hok as [|d ds (He & Hi & Hw) Hok IH]; [done|].
  unfold frame_bytes in *. cbn [fmap list_fmap concat length]. rewrite <- app_assoc.
  pose proof (length_binding_bytes d) as Hl. cbn [decode_loop].
  rewrite bool_decide_eq_false_2 by (intros [Hz _]%app_eq_nil; rewrite Hz in Hl; cbn in Hl; lia).
  rewrite decode_delta_bytes by done. rewrite drop_app_length.
  rewrite (decode_loop_fuel _ (S (length (concat (delta_bytes <$> ds) ++ junk))))
    by (rewrite !length_app in *; lia).
  destruct (decode_loop _ _) as [xs err]. cbn in IH |- *. by rewrite IH.
Qed.

(** ** Broadcasts *)

Definition enc_delta (d : bindingDelta) : option (list ascii) :=
  match encodeBindingDelta [] d with Ok buf => Some buf | Err _ => None end.

Lemma enc_delta_nonempty d buf : enc_delta d = Some buf → buf ≠ [].
Proof.
  unfold enc_delta. destruct (encodeBindingDelta [] d) as [b|] eqn:Hb; [|done]. intros [= ->] Hz.
  apply encodeBindingDelta_ok in Hb as [_ Hb]. rewrite Hb in Hz. apply (f_equal length) in Hz.
  rewrite length_app, length_binding_bytes in Hz. cbn in Hz. lia.
Qed.

(** The deltas that can travel in a frame of [L] bytes. *)
Definition travels (L : Z) (d : bindingDelta) : bool :=
  match encodeBindingDelta [] d with Ok buf => bool_decide (blen buf ≤ L) | Err _ => false end.

Lemma travels_packable L d : packable L enc_delta d = travels L d.
Proof. unfold packable, travels, enc_delta. by destruct (encodeBindingDelta [] d). Qed.

Lemma packed_frame L ds : packed L enc_delta ds = frame_bytes (filter (λ d, travels L d = true) ds).
Proof.
  unfold packed. induction ds as [|d ds IH]; [done|]. rewrite !filter_cons, travels_packable.
  destruct (travels L d) eqn:Ef; [rewrite !decide_True by done|by rewrite !decide_False by done].
  unfold frame_bytes in *. cbn. unfold enc_delta at 1. unfold travels in Ef.
  destruct (encodeBindingDelta [] d) as [buf|] eqn:Eb; [|done]. cbn. rewrite IH. f_equal.
  by apply encodeBindingDelta_ok in Eb as [_ ->].
Qed.

Section pack_proofs.
Context (h B L : Z) (ds0 : list bindingDelta).
Local Notation inv := (drain_inv h B L enc_delta ds0).

(** One delta of the queue: it is appended, skipped, or ends the round. *)
Lemma pack_loop_inv ds n v :
  drop n ds0 = ds → inv n v → ∃ m, (n ≤ m)%nat ∧ inv m (pack_loop h B L n ds v).
Proof.
  revert n v. induction ds as [|x ds IH]; intros n v Hds Hv; [by exists n|].
  assert (Hn : ds0 !! n = Some x) by (by rewrite <- (Nat.add_0_r n), <- lookup_drop, Hds).
  assert (Hds' : drop (S n) ds0 = ds) by (rewrite <- Nat.add_1_r, <- drop_drop, Hds; done).
  assert (Hnext : ∀ v', inv (S n) v' → ∃ m, (n ≤ m)%nat ∧ inv m (pack_loop h B L (S n) ds v')).
  { intros v' Hv'. destruct (IH (S n) v' Hds' Hv') as (m & Hm & ?). exists m. split; [lia|done]. }
  pose proof (travels_packable L x) as Hfp. unfold travels in Hfp.
  pose proof (append_inv h B L enc_delta ds0 enc_delta_nonempty n) as Happ. cbn [pack_loop].
  destruct (encodeBindingDelta [] x) as [buf|] eqn:Eb; [|by apply Hnext; eapply skip_inv].
  assert (He : enc_delta x = Some buf) by (unfold enc_delta; by rewrite Eb).
  destruct (bool_decide_reflect (L < blen buf)); [apply Hnext; eapply skip_inv; [done..|rewrite Hfp; by_bool]|].
  rewrite bool_decide_eq_true_2 in Hfp by lia.
  destruct (bool_decide_reflect (B - bytesEmitted v - h ≤ 0)); [by exists n|].
  set (room := if bool_decide (L < B - bytesEmitted v - h) then L else B - bytesEmitted v - h).
  assert (Hroom : room ≤ L ∧ bytesEmitted v + room + h ≤ B) by (unfold room; case_bool; lia).
  destruct (bool_decide_reflect (room < blen (frame v) + blen buf)); [|apply Hnext; eapply Happ; eauto; lia].
  pose proof (flush_inv h B L enc_delta ds0 n v Hv) as (Hi & Ho & Hfr).
  destruct (flushFrame h B v) as [ok v'] eqn:Ef. cbn [fst snd] in *. rewrite Ho. cbn [negb].
  destruct (_ || _) eqn:Ec; [by exists n|]. rewrite orb_false_iff, !bool_decide_eq_false in Ec.
  apply Hnext. eapply Happ; eauto; rewrite Hfr; unfold blen in *; cbn; lia.
Qed.

(** Whether the first delta fits this round, alone in its frame. *)
Definition fits_round (d : bindingDelta) : Prop := travels L d = false ∨ blen (delta_bytes d) + h ≤ B.

Lemma pack_first x ds :
  ds0 = x :: ds → fits_round x → ∃ v, inv 1 v ∧ pack_loop h B L 0 ds0 drain0 = pack_loop h B L 1 ds v.
Proof.
  intros Hp Hfit. pose proof (drain_inv_init h B L enc_delta ds0) as Hi.
  pose proof (travels_packable L x) as Hfp. unfold fits_round, travels in *.
  assert (Hn : ds0 !! 0%nat = Some x) by (by rewrite Hp).
  replace (pack_loop h B L 0 ds0 drain0) with (pack_loop h B L 0 (x :: ds) drain0) by (by rewrite Hp).
  cbn [pack_loop]. destruct (encodeBindingDelta [] x) as [buf|] eqn:Eb.
  2:{ eexists. split; [|done]. by eapply skip_inv. }
  assert (He : enc_delta x = Some buf) by (unfold enc_delta; by rewrite Eb).
  pose proof Eb as [_ Hbuf]%encodeBindingDelta_ok. change ([] ++ delta_bytes x) with (delta_bytes x) in Hbuf. rewrite <- Hbuf in Hfit.
  assert (Hpos : 0 < blen buf) by (pose proof (length_binding_bytes x); unfold blen; rewrite Hbuf; lia).
  destruct (bool_decide_reflect (blen buf ≤ L)) as [Hle|Hle].
  - destruct Hfit as [?|Hfit]; [done|]. rewrite (bool_decide_eq_false_2 (L < blen buf)) by lia. cbn [bytesEmitted drain0 frame].
    rewrite (bool_decide_eq_false_2 (B - 0 - h ≤ 0)) by lia.
    rewrite bool_decide_eq_false_2 by (change (blen []) with 0; case_bool; lia).
    eexists. split; [|done]. eapply (append_inv h B L enc_delta ds0 enc_delta_nonempty 0); eauto; cbn; lia.
  - rewrite (bool_decide_eq_true_2 (L < blen buf)) by lia. eexists. split; [|done]. by eapply skip_inv.
Qed.

Lemma pack_run :
  ∃ n, inv n (pack_loop h B L 0 ds0 drain0) ∧ (∀ x ds, ds0 = x :: ds → fits_round x → (1 ≤ n)%nat).
Proof.
  destruct (pack_loop_inv ds0 0 drain0) as (n & _ & Hn); [by rewrite drop_0|apply drain_inv_init|].
  exists n. split; [done|]. intros x ds Hds Ha.
  destruct (pack_first x ds Hds Ha) as (v & Hv & Heq). rewrite Heq in Hn.
  destruct (pack_loop_inv ds 1 v) as (m & Hm & Hm'); [by rewrite Hds|done|].
  by rewrite (drain_inv_unique _ _ _ _ _ _ _ _ Hn Hm').
Qed.
End pack_proofs.

Definition frame_limit (h : Z) : Z := if bool_decide (dissemMaxFrameBytes - h < 64) then 64 else dissemMaxFrameBytes - h.
Definition round_budget (b : Z) : Z := if bool_decide (b ≤ 0) then dissemMaxFrameBytes else b.

(** One broadcast round: the deltas that leave the queue are a prefix of it, and the
    frames are exactly their encodings, in order, without those that cannot travel;
    every frame is non-empty and within the packet limit, the round stays within its
    byte budget, and the prefix is not empty when its first delta fits the round. *)
Theorem GetBroadcasts_spec d h b :
  ∃ n, let '(fs, d') := GetBroadcasts d h b in
    d' = mkDissem (cache d) (drop n (queue d)) (tombstoneRetention d) (qDropped d) ∧
    Forall (λ f, f ≠ [] ∧ blen f ≤ frame_limit h) fs ∧
    zsum (λ f, blen f + h) fs ≤ round_budget b ∧
    concat fs = frame_bytes (filter (λ x, travels (frame_limit h) x = true) (take n (queue d))) ∧
    (∀ x ds, queue d = x :: ds → fits_round h (round_budget b) (frame_limit h) x → (1 ≤ n)%nat).
Proof.
  assert (HB : 0 < round_budget b) by (unfold round_budget, dissemMaxFrameBytes; case_bool; lia).
  unfold GetBroadcasts. destruct (bool_decide_reflect (queue d = [])) as [Hq|Hq].
  { exists 0%nat. rewrite Hq. split_and!; [by destruct d; cbn in *; subst|done|cbn; lia|done|done]. }
  fold (frame_limit h). fold (round_budget b). cbv zeta.
  destruct (pack_run h (round_budget b) (frame_limit h) (queue d)) as (n & Hn & Hp).
  pose proof (drain_end _ _ _ _ _ n _ Hn) as (E1 & E2 & E3 & E4 & E5). rewrite packed_frame in E5. unfold emitted in E4.
  set (v := (flushFrame h (round_budget b) _).2) in *. exists n. destruct (_ && _) eqn:Ez.
  - apply andb_true_iff in Ez as [H1%bool_decide_eq_true_1 H2%bool_decide_eq_true_1].
    rewrite (E2 H1 H2) in *. split_and!; [by destruct d|done|lia|done|done].
  - split_and!; [by rewrite E1|done|lia|done|done].
Qed.

(** ** Merging *)

Definition merge_all (d : Dissem) (xs : list bindingDelta) : Dissem := foldl (λ d x, (merge d x).2) d xs.

Lemma merge_lookup d x n :
  cache (merge d x).2 !! n = cache d !! n ∨
  (n = bdName x ∧ cache (merge d x).2 !! n = Some (mkBE (bdPID x) (bdIndex x) (bdWall x) (bdDeleted x))).
Proof.
  unfold merge. set (c := <[bdName x := _]> (cache d)).
  assert (Hc : c !! n = cache d !! n ∨ (n = bdName x ∧ c !! n = Some (mkBE (bdPID x) (bdIndex x) (bdWall x) (bdDeleted x)))).
  { unfold c. destruct (decide (n = bdName x)) as [->|Hne]; [right; by rewrite lookup_insert_eq|left; by rewrite lookup_insert_ne]. }
  destruct (cache d !! bdName x) as [e|]; [|done]. destruct (bool_decide _); [by left|]. by destruct (_ && _); [left|].
Qed.

Lemma merge_index d x : ∃ e, cache (merge d x).2 !! bdName x = Some e ∧ bdIndex x ≤ beIndex e ∧
  ∀ e0, cache d !! bdName x = Some e0 → beIndex e0 ≤ beIndex e.
Proof.
  unfold merge. set (c := <[bdName x := _]> (cache d)).
  assert (Hc : c !! bdName x = Some (mkBE (bdPID x) (bdIndex x) (bdWall x) (bdDeleted x))) by apply lookup_insert_eq.
  destruct (cache d !! bdName x) as [e|] eqn:Ec.
  - destruct (bool_decide_reflect (bdIndex x < beIndex e)).
    { exists e. split_and!; [done|lia|]. by intros e0 [= ->]. }
    destruct (_ && _) eqn:Et.
    { apply andb_true_iff in Et as [Et%bool_decide_eq_true _]. exists e. split_and!; [done|lia|]. by intros e0 [= ->]. }
    eexists. split; [exact Hc|]. cbn. split; [lia|]. intros e0 [= <-]. lia.
  - eexists. split; [exact Hc|]. cbn. split; [lia|done].
Qed.

(** The cache holds, for each name, a received delta with the largest index. *)
Lemma merge_all_spec r xs n :
  match cache (merge_all (NewDissem r) xs) !! n with
  | None => ∀ x, x ∈ xs → bdName x ≠ n
  | Some e => (∃ x, x ∈ xs ∧ bdName x = n ∧ e = mkBE (bdPID x) (bdIndex x) (bdWall x) (bdDeleted x)) ∧
              ∀ x, x ∈ xs → bdName x = n → bdIndex x ≤ beIndex e
  end.
Proof.
  unfold merge_all. induction xs as [|x xs IH] using rev_ind.
  { cbn. rewrite lookup_empty. intros x Hx. by apply elem_of_nil in Hx. }
  rewrite foldl_app. cbn [foldl]. set (d := foldl _ _ xs) in *.
  destruct (merge_index d x) as (e & He & Hge & Hold). destruct (decide (n = bdName x)) as [->|Hne].
  - rewrite He. split.
    + destruct (merge_lookup d x (bdName x)) as [Hs|[_ Hs]]; rewrite He in Hs.
      * rewrite <- Hs in IH. destruct IH as [(y & Hy & H) _]. exists y. rewrite elem_of_app. auto.
      * injection Hs as ->. exists x. split; [|done]. apply elem_of_app. right. by left.
    + intros y [Hy|Hy%list_elem_of_singleton]%elem_of_app Hn; [|by subst].
      destruct (cache d !! bdName x) as [e0|]; [|by destruct (IH y Hy)]. specialize (Hold e0 eq_refl).
      destruct IH as [_ IH]. specialize (IH y Hy Hn). lia.
  - destruct (merge_lookup d x n) as [Hs|[? _]]; [|done]. rewrite Hs.
    destruct (cache d !! n) as [e0|].
    + destruct IH as [(y & Hy & H) IH]. split; [exists y; rewrite elem_of_app; auto|].
      intros z [Hz|Hz%list_elem_of_singleton]%elem_of_app Hn; [by apply IH|congruence].
    + intros z [Hz|Hz%list_elem_of_singleton]%elem_of_app; [by apply IH|congruence].
Qed.

Lemma sweep_cached d now n : Lookup (sweepTombstones d now).2 n = Lookup d n.
Proof.
  unfold sweepTombstones. destruct (bool_decide _); [done|]. unfold Lookup. cbn [snd with_cache cache].
  rewrite map_lookup_filter. destruct (cache d !! n) as [e|]; [|done]. cbn.
  destruct (beDeleted e) eqn:Ed; cbn.
  - case_guard; cbn; [by rewrite Ed|done].
  - rewrite option_guard_True by done. cbn. by rewrite Ed.
Qed.

Local Notation cached := Lookup.

(** ** Binding events of the registry *)

Section registry.
Import Reg RegFsm RegLog.
Context `{Mp : Msgpack}.
Variable node_of : string → string.
Variable resolve : string → PID → PID → PID.
Hypothesis first_write_wins : ∀ n p q, resolve n p q = p.
Local Notation wf := (reg_wf node_of).

Definition binding (ev : event) : option BindingEvent := match ev with Binding b => Some b | _ => None end.

(** What a change of the entry of a name is announced as. *)
Definition announce (n : string) (index : Z) (old new : option nameEntry) (bs : list BindingEvent) : Prop :=
  (bs = [] ∧ new = old) ∨
  (∃ x, new = Some x ∧ nApplied x = index ∧ bs = [mkBind n (nPID x) index false]) ∨
  (∃ x p, old = Some x ∧ new = None ∧ bs = [mkBind n p index true]).

Lemma omap_binding_none evs : (∀ ev b, ev ∈ evs → ev ≠ Binding b) → omap binding evs = [].
Proof.
  induction evs as [|ev evs IH]; intros H; [done|]. cbn. destruct ev as [| | |b]; cbn; try (apply IH; intros; apply H; by right).
  by destruct (H (Binding b) b ltac:(by left)).
Qed.

Lemma promote_lookup s name epoch index e s' :
  length (shards s) = shardCount → promotePending s name epoch index = (Some e, s') →
  lookup_entry s' name = Some (mkName (pPID e) (pNode e) (pRequired e) index (pEpoch e)).
Proof.
  intros Hl. unfold promotePending. destruct (pending s !! name) as [p|]; [|done]. destruct (bool_decide _); [done|].
  intros [= -> <-]. unfold add_name. change (lookup_entry (addToNodeIndex ?x _ _) name) with (lookup_entry x name).
  rewrite lookup_with_shard by (cbn; rewrite Hl; apply shardFor_lt). rewrite decide_True by done. cbn [names].
  by rewrite lookup_insert_eq.
Qed.

Lemma promote_announce s s1 name epoch index cmd now e s' :
  wf s → cName cmd = name → promotePending s1 name epoch index = (Some e, s') → length (shards s1) = shardCount →
  announce name index (lookup_entry s name) (lookup_entry s' name) (omap binding (activation cmd e index now)).
Proof.
  intros Hs <- Hp Hl. rewrite (promote_lookup _ _ _ _ _ _ Hl Hp). right. left. by eexists.
Qed.

Lemma unregister_announce s name index now reason :
  wf s →
  let '(r, s') := unregisterEntry s name in
  announce name index (lookup_entry s name) (lookup_entry s' name)
    match r with
    | Some e => omap binding (active_release name e reason now ++ [tombstone index (name, nPID e)])
    | None => []
    end.
Proof.
  intros Hs. pose proof (unregisterEntry_spec node_of s name Hs) as Hu. destruct (unregisterEntry s name) as [r s'].
  destruct Hu as (-> & _ & _ & _ & Hl). rewrite Hl, decide_True by done.
  destruct (lookup_entry s name) as [e|]; [|by left]. right. right. exists e, (nPID e). split_and!; [done|done|].
  unfold active_release. by destruct (bool_decide _).
Qed.

(** A failed promotion changes nothing that a lookup sees. *)
Lemma promote_none s name epoch index s' : promotePending s name epoch index = (None, s') → s' = s.
Proof. unfold promotePending. destruct (pending s !! name); [destruct (bool_decide _)|]; by intros [=]. Qed.

Ltac unchanged := left; split; reflexivity.

Lemma ack_announce s cmd index now :
  wf s →
  announce (cName cmd) index (lookup_entry s (cName cmd)) (lookup_entry (applyRegisterAck s cmd index now).2 (cName cmd))
    (omap binding (applyRegisterAck s cmd index now).1.2).
Proof.
  intros Hs. unfold applyRegisterAck, recordAck. destruct (pending s !! cName cmd) as [p|]; [|unchanged].
  destruct (bool_decide _); [unchanged|]. pose proof (rw_len _ _ Hs) as Hl.
  destruct (bool_decide _); (destruct (negb _); [unchanged|
    match goal with |- context [promotePending ?a ?b ?c ?d] =>
      destruct (promotePending a b c d) as [[e|] s'] eqn:Ep end; [exact (promote_announce s _ _ _ _ cmd now e s' Hs eq_refl Ep Hl)|apply promote_none in Ep; subst; unchanged]]).
Qed.

Lemma drop_announce s cmd index now :
  wf s →
  announce (cName cmd) index (lookup_entry s (cName cmd)) (lookup_entry (applyDropRequired s cmd index now).2 (cName cmd))
    (omap binding (applyDropRequired s cmd index now).1.2).
Proof.
  intros Hs. unfold applyDropRequired, dropRequired. destruct (pending s !! cName cmd) as [p|]; [|unchanged].
  destruct (bool_decide _); [unchanged|]. pose proof (rw_len _ _ Hs) as Hl.
  destruct (remove_first _ _); (destruct (negb _); [unchanged|
    match goal with |- context [promotePending ?a ?b ?c ?d] =>
      destruct (promotePending a b c d) as [[e|] s'] eqn:Ep end; [exact (promote_announce s _ _ _ _ cmd now e s' Hs eq_refl Ep Hl)|apply promote_none in Ep; subst; unchanged]]).
Qed.

Lemma register_announce s cmd index :
  wf s → 
  announce (cName cmd) index (lookup_entry s (cName cmd)) (lookup_entry (applyRegister resolve s cmd index).2 (cName cmd))
    (omap binding (applyRegister resolve s cmd index).1.2).
Proof.
  intros Hs. unfold applyRegister, register.
  change (names (get_shard s (shardFor (cName cmd))) !! cName cmd) with (lookup_entry s (cName cmd)).
  destruct (pending s !! cName cmd) as [p|]; [|destruct (lookup_entry s (cName cmd)) as [e|] eqn:El].
  - destruct (Equal (pPID p) (cPID cmd)) eqn:Ep; [unchanged|]. rewrite first_write_wins, Ep. unchanged.
  - destruct (Equal (nPID e) (cPID cmd)) eqn:Ep; [left; split; [done|exact El]|].
    rewrite first_write_wins, Ep. left. split; [done|exact El].
  - cbn [snd fst]. rewrite (add_name_lookup node_of), decide_True by done. right. left. by eexists.
Qed.

(** A command on one name announces the change of its entry and nothing else. *)
Lemma single_announce order s index cmd now :
  wf s → (∀ ps x, x ∈ order ps ↔ x ∈ ps) → cmd_ok node_of cmd → ¬ bulk cmd →
  let out := apply_cmd resolve order s index cmd now in
  announce (cName cmd) index (lookup_entry s (cName cmd)) (lookup_entry out.2 (cName cmd)) (omap binding out.1.2) ∧
  ∀ n, n ≠ cName cmd → lookup_entry out.2 n = lookup_entry s n.
Proof.
  intros Hs Ho Hc Hb out. split.
  2:{ intros n Hn. destruct (proj2 (apply_cmd_ok node_of resolve order Ho s index cmd now Hs Hc) Hb) as [_ [W A]].
      apply option_eq. intros x. rewrite <- !abs_active. fold out in A. by rewrite A, (name_next_other node_of). }
  unfold out, apply_cmd, bulk in *.
  repeat match goal with
  | |- context [if bool_decide (cType cmd = ?b) then _ else _] => destruct (bool_decide_reflect (cType cmd = b))
  end; try tauto.
  - by apply register_announce.
  - unfold applyUnregister. pose proof (unregister_announce s (cName cmd) index now "unregister" Hs) as Hu.
    by destruct (unregisterEntry s (cName cmd)) as [[] ?].
  - unfold applyRegisterPending, registerPending. change (names (get_shard s (shardFor ?x)) !! ?x) with (lookup_entry s x).
    destruct (lookup_entry s (cName cmd)) eqn:El; [destruct (Equal _ _); (left; split; [done|exact El])|].
    destruct (pending s !! cName cmd); [destruct (_ && _)|]; (left; split; [done|exact El]).
  - by apply ack_announce.
  - unfold applyRegisterExpired, expirePending. destruct (pending s !! cName cmd); [destruct (bool_decide _)|]; unchanged.
  - unfold applyRegisterUnreserve, unreservePending.
    pose proof (unregister_announce s (cName cmd) index now "unreserve" Hs) as Hu.
    destruct (pending s !! cName cmd); [destruct (_ && _)|]; try unchanged; by destruct (unregisterEntry s (cName cmd)) as [[]].
  - by apply drop_announce.
  - unfold applyRegisterReject, rejectPending. destruct (pending s !! cName cmd); [destruct (bool_decide _)|]; unchanged.
  - unchanged.
Qed.

Lemma omap_tombstones index (l : list (string * PID)) : omap binding (tombstone index <$> l) = (λ np, mkBind np.1 np.2 index true) <$> l.
Proof. induction l as [|np l IH]; [done|]. cbn. by rewrite IH. Qed.

Lemma filter_tombstones index (l : list (string * PID)) n :
  NoDup l.*1 →
  let bs := filter (λ b, bName b = n) ((λ np, mkBind np.1 np.2 index true) <$> l) in
  (n ∉ l.*1 ∧ bs = []) ∨ (n ∈ l.*1 ∧ ∃ p, bs = [mkBind n p index true]).
Proof.
  induction l as [|[m p] l IH]; cbn [fmap list_fmap fst snd]; intros Hnd; [left; split; [apply not_elem_of_nil|done]|].
  apply NoDup_cons in Hnd as [Hm Hnd]. rewrite filter_cons. cbn [bName]. rewrite elem_of_cons.
  destruct (IH Hnd) as [[Hn ->]|[Hn (q & ->)]]; destruct (decide (m = n)) as [->|Hne].
  - right. split; [by left|]. by exists p.
  - left. split; [|done]. intros [?|?]; congruence.
  - done.
  - right. split; [by right|]. by exists q.
Qed.

(** Bulk removals announce one tombstone per removed name. *)
Lemma bulk_announce order s index cmd now n :
  wf s → (∀ ps x, x ∈ order ps ↔ x ∈ ps) → cmd_ok node_of cmd → bulk cmd →
  let out := apply_cmd resolve order s index cmd now in
  announce n index (lookup_entry s n) (lookup_entry out.2 n) (filter (λ b, bName b = n) (omap binding out.1.2)).
Proof.
  intros Hs Ho Hc Hb. assert (Hterm : ∀ r sts, omap binding (terminal_release r now <$> sts) = []).
  { intros r sts. apply omap_binding_none. intros ev b (t & -> & _)%list_elem_of_fmap. done. }
  destruct (decide (cType cmd = CmdRemovePID)) as [Ht|Ht].
  - unfold apply_cmd. rewrite Ht. cbv zeta.
    rewrite (bool_decide_eq_false_2 (CmdRemovePID = CmdRegister)), (bool_decide_eq_false_2 (CmdRemovePID = CmdUnregister)),
      (bool_decide_eq_true_2 (CmdRemovePID = CmdRemovePID)) by done.
    unfold applyRemovePID. destruct (lookupPendingByPID_spec s (cPID cmd)) as [_ Pel].
    pose proof (release_pending_spec node_of (cPID cmd) now (lookupPendingByPID s (cPID cmd)) [] s Hs) as Hr.
    destruct (foldl _ _ _) as [evs s1]. destruct Hr as (R1 & R2 & _ & new & -> & R5).
    { intros m e Hm He. apply Pel in Hm as (e' & He' & Hp). congruence. }
    pose proof (removePIDWithNames_spec node_of s1 (cPID cmd) R1) as Hd.
    destruct (removePIDWithNames s1 (cPID cmd)) as [[[ns c] sts] s2]. destruct Hd as (_ & _ & _ & D4 & D5 & D6 & _ & _).
    cbn [fst snd]. rewrite !omap_app, Hterm, (omap_binding_none new R5). cbn [app omap list_omap].
    change ((λ m, tombstone index (m, cPID cmd)) <$> ns) with (tombstone index ∘ (λ m, (m, cPID cmd)) <$> ns).
    rewrite list_fmap_compose, omap_tombstones. rewrite D4, R2. setoid_rewrite R2 in D6.
    assert (Hfst : ((λ m, (m, cPID cmd)) <$> ns).*1 = ns) by (rewrite <- list_fmap_compose; apply list_fmap_id).
    destruct (filter_tombstones index ((λ m, (m, cPID cmd)) <$> ns) n) as [[Hn ->]|[Hn (p & ->)]]; rewrite ?Hfst in *; [done|..].
    + left. split; [done|]. destruct (lookup_entry s n) as [e|] eqn:El; [|done]. cbn. rewrite decide_False; [done|].
      intros Hx. apply Hn, D6. eauto.
    + right. right. apply D6 in Hn as (e & He & Hx). exists e, p. rewrite He. cbn. by rewrite decide_True.
  - destruct Hb as [?|Ht2]; [done|]. unfold apply_cmd. rewrite Ht2. cbv zeta.
    rewrite (bool_decide_eq_false_2 (CmdRemoveNode = CmdRegister)), (bool_decide_eq_false_2 (CmdRemoveNode = CmdUnregister)),
      (bool_decide_eq_false_2 (CmdRemoveNode = CmdRemovePID)), (bool_decide_eq_true_2 (CmdRemoveNode = CmdRemoveNode)) by done.
    unfold applyRemoveNode. pose proof (removeNodeWithNames_spec node_of order s (cNodeID cmd) (cLimit cmd) Hs Ho) as Hd.
    destruct (removeNodeWithNames order s _ _) as [[[[ns c] more] sts] s1].
    destruct Hd as (T & [D1 D2 _ (P & D4 & D5 & _) _] & _ & _ & _ & D6 & _). cbn in D4. subst P.
    cbn [fst snd]. rewrite omap_app, Hterm, omap_tombstones. cbn [app]. rewrite D6.
    destruct (filter_tombstones index ns n) as [[Hn ->]|[Hn (p & ->)]]; rewrite ?D5 in *; [done|..].
    + left. by rewrite decide_False.
    + right. right. destruct (D2 n Hn) as (e & He & _). exists e, p. by rewrite decide_True.
Qed.

(** The binding events of one entry, and of a log. *)
Definition bindings (s : shardedState) (e : ent) : list BindingEvent :=
  omap binding (Apply resolve (eOrd e) s (eIdx e) (eData e) (eNow e)).1.2.

Fixpoint run_bindings (s : shardedState) (l : list ent) : list BindingEvent :=
  match l with
  | [] => []
  | e :: l => bindings s e ++ run_bindings (step resolve s e) l
  end.

Lemma run_bindings_snoc s l e : run_bindings s (l ++ [e]) = run_bindings s l ++ bindings (run resolve s l) e.
Proof.
  revert s. induction l as [|x l IH]; intros s; cbn; [by rewrite app_nil_r|]. by rewrite IH, app_assoc.
Qed.

Lemma step_announce s e n :
  wf s → ent_ok node_of e →
  announce n (eIdx e) (lookup_entry s n) (lookup_entry (step resolve s e) n) (filter (λ b, bName b = n) (bindings s e)).
Proof.
  intros Hs [Ho Hc]. unfold bindings, step, Apply. destruct (DecodeCommand (eData e)) as [cmd|] eqn:Ed; [|by left].
  specialize (Hc cmd eq_refl). destruct (decide (cType cmd = CmdRemovePID ∨ cType cmd = CmdRemoveNode)) as [Hb|Hb].
  { by apply bulk_announce. }
  destruct (single_announce (eOrd e) s (eIdx e) cmd (eNow e) Hs Ho Hc Hb) as [Ha Hother].
  set (out := apply_cmd _ _ _ _ _ _) in *.
  assert (Hnames : ∀ b, b ∈ omap binding out.1.2 → bName b = cName cmd).
  { intros b Hx. destruct Ha as [[E _]|[(x & _ & _ & E)|(x & p & _ & _ & E)]]; rewrite E in Hx;
      [by apply elem_of_nil in Hx|apply list_elem_of_singleton in Hx; by subst..]. }
  destruct (decide (n = cName cmd)) as [->|Hne].
  - rewrite filter_all; [done|]. intros b Hx. by apply Hnames.
  - rewrite filter_none, Hother by done || (intros b Hx Hy; apply Hne; rewrite <- Hy; by apply Hnames). by left.
Qed.

(** The events of a name so far, and its entry. *)
Definition announced (n : string) (l : list ent) : list BindingEvent :=
  filter (λ b, bName b = n) (run_bindings newShardedState l).

Record follows (n : string) (l : list ent) : Prop := {
  fo_idx : ∀ b, b ∈ announced n l → bIndex b ∈ eIdx <$> l;
  fo_sorted : StronglySorted Z.lt (bIndex <$> announced n l);
  fo_last : match last (announced n l) with
            | None => lookup_entry (run resolve newShardedState l) n = None
            | Some b => if bDeleted b then lookup_entry (run resolve newShardedState l) n = None
                        else nPID <$> lookup_entry (run resolve newShardedState l) n = Some (bPID b)
            end
}.

Lemma log_follows n l : Forall (ent_ok node_of) l → StronglySorted Z.lt (eIdx <$> l) → follows n l.
Proof.
  induction l as [|e l IH] using rev_ind; intros Hl Hsort.
  { split; [intros b Hb; by apply elem_of_nil in Hb|constructor|]. cbn. apply empty_shards_lookup. }
  apply Forall_app in Hl as [Hl He]. apply Forall_cons in He as [He _]. rewrite fmap_app in Hsort.
  destruct (IH Hl (StronglySorted_app_1_l _ _ _ Hsort)) as [F1 F2 F3].
  destruct (run_path node_of resolve newShardedState l (newShardedState_wf node_of) Hl) as [W _].
  pose proof (step_announce _ e n W He) as Ha. rewrite <- run_snoc in Ha.
  assert (Happ : announced n (l ++ [e]) = announced n l ++ filter (λ b, bName b = n) (bindings (run resolve newShardedState l) e)).
  { unfold announced. by rewrite run_bindings_snoc, filter_app. }
  assert (Hlt : ∀ i, i ∈ eIdx <$> l → i < eIdx e).
  { intros i Hi. eapply (StronglySorted_app_1_elem_of Z.lt); [exact Hsort|done|by left]. }
  assert (Hnew : ∀ b, filter (λ b, bName b = n) (bindings (run resolve newShardedState l) e) = [b] → bIndex b = eIdx e →
    (∀ b', b' ∈ announced n (l ++ [e]) → bIndex b' ∈ eIdx <$> l ++ [e]) ∧
    StronglySorted Z.lt (bIndex <$> announced n (l ++ [e])) ∧ last (announced n (l ++ [e])) = Some b).
  { intros b E Hb. rewrite Happ, E, last_snoc. split_and!; [|rewrite fmap_app; apply StronglySorted_app; split_and!|done].
    - intros b' [Hx|Hx%list_elem_of_singleton]%elem_of_app; rewrite fmap_app, elem_of_app; [left; by apply F1|right].
      subst. rewrite Hb. by left.
    - intros i j (b1 & -> & Hb1)%list_elem_of_fmap Hj%list_elem_of_singleton. subst j. rewrite Hb. by apply Hlt, F1.
    - done.
    - cbn. repeat constructor. }
  destruct Ha as [[E1 E2]|[(x & E1 & E2 & E3)|(x & p & _ & E2 & E3)]].
  - rewrite E1, app_nil_r in Happ. split; rewrite Happ; [|done|by rewrite E2].
    intros b Hb. rewrite fmap_app, elem_of_app. left. by apply F1.
  - destruct (Hnew _ E3 eq_refl) as (N1 & N2 & N3). split; [done|done|]. rewrite N3, E1. done.
  - destruct (Hnew _ E3 eq_refl) as (N1 & N2 & N3). split; [done|done|]. rewrite N3. done.
Qed.

End registry.

(** The queue keeps its newest deltas and never exceeds its capacity. *)
Lemma LeaderBroadcast_queue d ev now :
  (length (queue d) ≤ dissemQueueCap)%nat →
  (length (queue (LeaderBroadcast d ev now)) ≤ dissemQueueCap)%nat ∧
  last (queue (LeaderBroadcast d ev now)) = Some (delta_of ev now).
Proof.
  assert (Hq : queue (merge d (delta_of ev now)).2 = queue d).
  { unfold merge. destruct (cache d !! _); [destruct (bool_decide _); [done|destruct (_ && _)]|]; done. }
  unfold LeaderBroadcast, enqueue. rewrite Hq. intros Hl.
  destruct (bool_decide_reflect (dissemQueueCap ≤ length (queue d))%nat); cbn [queue];
    (split; [rewrite length_app, ?length_drop; cbn [length]; unfold dissemQueueCap in *; lia|by rewrite last_snoc]).
Qed.

(** ** A concrete log *)

#[local] Existing Instance RegLog.bit_msgpack.

Definition demo_deltas : list bindingDelta :=
  [mkBD RegLog.bob "a" 6 70 false; mkBD RegLog.bob "s" 4 20 false; mkBD RegLog.alice "a" 1 30 false;
   mkBD RegLog.alice "a" 5 10 true; mkBD RegLog.bob "a" 6 90 false].

Lemma demo_bindings :
  run_bindings RegFsm.DefaultResolve Reg.newShardedState (RegLog.demo ++ RegLog.demo2) =
  [RegFsm.mkBind "a" RegLog.alice 1 false; RegFsm.mkBind "s" RegLog.bob 4 false;
   RegFsm.mkBind "a" RegLog.alice 5 true; RegFsm.mkBind "a" RegLog.bob 6 false].
Proof. vm_compute. reflexivity. Qed.

Lemma demo_deltas_sent x :
  x ∈ demo_deltas →
  ∃ b, b ∈ run_bindings RegFsm.DefaultResolve Reg.newShardedState (RegLog.demo ++ RegLog.demo2) ∧ x = delta_of b (bdWall x).
Proof.
  rewrite demo_bindings. unfold demo_deltas. rewrite !elem_of_cons.
  intros [->|[->|[->|[->|[->|Hx]]]]]; [..|by apply elem_of_nil in Hx].
  - exists (RegFsm.mkBind "a" RegLog.bob 6 false). split; [repeat (first [by left|right])|done].
  - exists (RegFsm.mkBind "s" RegLog.bob 4 false). split; [repeat (first [by left|right])|done].
  - exists (RegFsm.mkBind "a" RegLog.alice 1 false). split; [repeat (first [by left|right])|done].
  - exists (RegFsm.mkBind "a" RegLog.alice 5 true). split; [repeat (first [by left|right])|done].
  - exists (RegFsm.mkBind "a" RegLog.bob 6 false). split; [repeat (first [by left|right])|done].
Qed.

Lemma demo_deltas_latest m b :
  last (announced RegFsm.DefaultResolve m (RegLog.demo ++ RegLog.demo2)) = Some b → ∃ w, delta_of b w ∈ demo_deltas.
Proof.
  unfold announced. rewrite demo_bindings, !filter_cons. cbn [RegFsm.bName].
  destruct (decide ("a"%string = m)), (decide ("s"%string = m)); cbn; try congruence; intros [= <-].
  - exists 70. unfold demo_deltas. by left.
  - exists 20. unfold demo_deltas. right. by left.
Qed.


Lemma binding_frame_roundtrip_witness :
  let d := mkBD RegLog.alice "a" 7 (-3) false in
  let t := mkBD RegLog.bob "b" 8 4 true in
  decodeBindingFrame (concat [delta_bytes d; delta_bytes t]) = ([d; t], None) ∧
  take 2 (decodeBindingFrame (concat [delta_bytes d; delta_bytes t] ++ bytes_of "x")).1 = [d; t].
Proof.
  intros d t. apply (binding_frame_roundtrip [d; t] [delta_bytes d; delta_bytes t] (bytes_of "x")).
  - repeat constructor.
  - repeat constructor; vm_compute; intuition congruence.
Defined.

(** ** Limits *)

(** Where a resolver prefers newcomers, the registry announces a takeover of a reserved
    name that did not happen, and the cache then disagrees with it. *)
Theorem false_takeover_cached :
  let latest (n : string) (old new : PID) := new in
  let l := [RegLog.at_ 1 (RegLog.reserve RegLog.alice "s" ["n2"]); RegLog.at_ 2 (RegLog.claim RegLog.bob "s")] in
  let d := merge_all (NewDissem 0) ((λ b, delta_of b 0) <$> run_bindings latest Reg.newShardedState l) in
  Lookup d "s" = Some RegLog.bob ∧ Reg.Lookup (RegLog.run latest Reg.newShardedState l) "s" = None.
Proof. vm_compute. split; reflexivity. Qed.

(** With a finite retention a delayed delta brings a removed binding back once its
    tombstone was swept; with the default retention it does not. *)
Theorem swept_tombstone_forgets :
  let late := mkBD RegLog.alice "a" 1 0 false in
  let gone := mkBD RegLog.alice "a" 2 0 true in
  let after r := (merge (sweepTombstones (merge_all (NewDissem r) [late; gone]) 100).2 late).2 in
  Lookup (after 10) "a" = Some RegLog.alice ∧ Lookup (after 0) "a" = None.
Proof. vm_compute. split; reflexivity. Qed.
End Dissem.
