(* ===== verification/Cluster.v ===== *)
(** * The cluster's replicated state: registry and key-value store behind one log

    The composition the runtime boots: the multiplexer ([cluster/raft/multiplex]) with
    the global name registry ([system/topology/namereg/global]) as its primary state
    machine and the key-value store ([system/kv]) as its second one. The two state
    machines provide the interface [StateMachine] and its laws, and the theorem about
    the whole node follows from the router's.

    A replica's environment (clock and map iteration order) at an entry is selected by
    the last argument of [sm_apply]. *)

From S2P Require Import Prelude Bytes Crdt KvLease KvState KvCodec KvFsm Multiplex Pid NameReg NameFsm NameLog.

Module Cluster.
Import Multiplex.

Section cluster.
Context `{Hx : XXHash, Hgob : !Fsm.Gob, Hmp : !RegFsm.Msgpack}.
Variable node_of : string → string.
Variable resolve : string → Pid.PID → Pid.PID → Pid.PID.
Variable ord : Z → gset string → list string.
Hypothesis ord_elem : ∀ now ps x, x ∈ ord now ps ↔ x ∈ ps.

(** ** The key-value store *)

#[local] Instance kv_machine : StateMachine Fsm.RaftFSM Fsm.applyResult := {
  sm_apply := Fsm.Apply;
  sm_persist f := Some (Fsm.Snapshot f);
  sm_restore := Fsm.Restore
}.

#[local] Instance kv_laws : ReplicaLaws Fsm.RaftFSM Fsm.applyResult.
Proof.
  refine {| sm_wf := Fsm.fsm_wf; sm_equiv := Fsm.fsm_equiv; sm_ok := λ _ _, True |}.
  - intros s t i d n1 n2 Hq _. by apply Fsm.Apply_equiv.
  - intros s0 s d now H0 Hs [= <-]. pose proof (Fsm.Restore_spec s0 s now Hs (Fsm.fw_out _ H0)) as Hr.
    cbn. destruct (Fsm.Restore s0 (Fsm.Snapshot s) now) as [ok r]. destruct Hr as (? & ? & ? & _). done.
Defined.

Lemma restore_empty f now : Fsm.Restore f [] now = Fsm.Restore f (Fsm.Snapshot Fsm.NewRaftFSM) now.
Proof.
  unfold Fsm.Restore, Fsm.Snapshot. rewrite Fsm.gob_roundtrip, (bool_decide_eq_true_2 (0 < length (Fsm.gob_encode _))%nat).
  - reflexivity.
  - pose proof (Fsm.gob_nonempty (Fsm.capture Fsm.NewRaftFSM)). destruct (Fsm.gob_encode _); [done|cbn; lia].
Qed.

#[local] Instance kv_reset : ResetLaws Fsm.RaftFSM Fsm.applyResult.
Proof.
  refine {| sm_init := Fsm.NewRaftFSM |}. intros s0 now H0. cbn. rewrite restore_empty.
  pose proof (Fsm.Restore_spec s0 Fsm.NewRaftFSM now Fsm.NewRaftFSM_wf (Fsm.fw_out _ H0)) as Hr.
  destruct (Fsm.Restore s0 _ now) as [ok r]. destruct Hr as (? & ? & ? & _). done.
Defined.

(** ** The name registry *)

#[local] Instance reg_machine : StateMachine Reg.shardedState RegFsm.fsm_result := {
  sm_apply s i d now := let '(r, _, s') := RegFsm.Apply resolve (ord now) s i d now in (r, s');
  sm_persist s := Some (RegFsm.Persist (RegFsm.Snapshot s));
  sm_restore s d _ := RegFsm.Restore s d
}.

(** Claims name the node of their PID, and nodes are removed in one entry. *)
Definition reg_entry_ok (i : Z) (d : list ascii) : Prop :=
  ∀ cmd, RegFsm.DecodeCommand d = Some cmd → RegFsm.cmd_ok node_of cmd ∧ RegFsm.chunked cmd = false.

#[local] Instance reg_laws : ReplicaLaws Reg.shardedState RegFsm.fsm_result.
Proof.
  refine {| sm_wf := Reg.reg_wf node_of; sm_equiv := RegLog.reg_equiv node_of; sm_ok := reg_entry_ok |}.
  - intros s t i d n1 n2 Hq Hok.
    pose proof (RegLog.step_agrees node_of resolve s t (RegLog.mkEnt i d n1 (ord n1)) (RegLog.mkEnt i d n2 (ord n2)) Hq) as Hs.
    destruct Hs as [Hr He].
    + split; [apply ord_elem|]. intros cmd Hd. by apply (Hok cmd).
    + split; [apply ord_elem|]. intros cmd Hd. by apply (Hok cmd).
    + split_and!; [done|done|]. intros cmd Hd. by apply (Hok cmd).
    + unfold RegLog.respond, RegLog.step in *. cbn in *.
      destruct (RegFsm.Apply resolve (ord n1) s i d n1) as [[r1 e1] s1], (RegFsm.Apply resolve (ord n2) t i d n2) as [[r2 e2] s2].
      done.
  - intros s0 s d now H0 Hs [= <-]. destruct (RegLog.Restore_Persist_equiv node_of s0 s H0 Hs) as [H1 H2].
    cbn. split_and!; [done|by apply H2|done].
Defined.

(** ** The node *)

Notation node := (FSM Reg.shardedState Fsm.RaftFSM).

(** Two nodes with the same names, owners, fence tokens, reservations, keys and leases *)
Definition node_agrees (a b : node) : Prop :=
  (∀ n, Reg.lookup_entry (primary a) n = Reg.lookup_entry (primary b) n) ∧ Reg.pending (primary a) = Reg.pending (primary b) ∧
  ∃ k1 k2, kv a = Some k1 ∧ kv b = Some k2 ∧ Fsm.core_eq (Fsm.st k1) (Fsm.st k2).

End cluster.

(** ** A concrete cluster *)

#[local] Existing Instance RegLog.bit_msgpack.
#[local] Existing Instance Fsm.bit_gob.
#[local] Existing Instance zero_hash.

(** Odd clock readings iterate maps backwards. *)
Definition demo_ord (now : Z) : gset string → list string := if Z.odd now then RegLog.backwards else RegLog.in_order.

Lemma demo_ord_elem now ps x : x ∈ demo_ord now ps ↔ x ∈ ps.
Proof. unfold demo_ord. destruct (Z.odd now); [apply RegLog.backwards_elem|apply RegLog.in_order_elem]. Qed.

#[local] Existing Instance kv_machine.
#[local] Existing Instance kv_laws.
#[local] Existing Instance kv_reset.
#[local] Instance demo_reg_machine : StateMachine Reg.shardedState RegFsm.fsm_result :=
  reg_machine RegFsm.DefaultResolve demo_ord.
#[local] Instance demo_reg_laws : ReplicaLaws Reg.shardedState RegFsm.fsm_result :=
  reg_laws RegLog.home RegFsm.DefaultResolve demo_ord demo_ord_elem.

Definition demo_registry : Reg.shardedState :=
  RegLog.run RegFsm.DefaultResolve Reg.newShardedState [RegLog.at_ 1 (RegLog.claim RegLog.alice "a")].

Definition fresh_node : FSM Reg.shardedState Fsm.RaftFSM := mkFSM Reg.newShardedState (Some Fsm.NewRaftFSM).
Definition old_node : FSM Reg.shardedState Fsm.RaftFSM := mkFSM demo_registry (Some Fsm.demo).

(** A claim of the registry and a write to the key-value store. *)
Definition demo_log (now : Z) : list (Z * list ascii * Z) :=
  [(2, RegFsm.EncodeCommand (RegLog.claim RegLog.bob "q"), now); (3, KVDomain :: Fsm.cmd Codec.opSet "k" "w" 0 "", now)].

Lemma fits_some x : (Z.of_nat (length x) <? 2 ^ 64) = true → fits (Some x).
Proof. intros Hx%Z.ltb_lt buf [= <-]. exact Hx. Qed.

Lemma fresh_node_wf : router_wf fresh_node.
Proof.
  split.
  - split; [apply Reg.newShardedState_wf|]. apply fits_some. vm_compute. reflexivity.
  - intros k Hk. change (Some Fsm.NewRaftFSM = Some k) in Hk. apply Some_inj in Hk as <-. split; [apply Fsm.NewRaftFSM_wf|]. apply fits_some. vm_compute. reflexivity.
Qed.

Lemma old_node_wf : router_wf old_node.
Proof.
  split.
  - split.
    + apply (RegLog.run_path RegLog.home RegFsm.DefaultResolve Reg.newShardedState); [apply Reg.newShardedState_wf|].
      apply Forall_cons_2; [|apply Forall_nil_2]. apply RegLog.at_ok. intros _. reflexivity.
    + apply fits_some. vm_compute. reflexivity.
  - intros k Hk. change (Some Fsm.demo = Some k) in Hk. apply Some_inj in Hk as <-. split; [apply Fsm.demo_fsm_wf|]. apply fits_some. vm_compute. reflexivity.
Qed.

Lemma demo_node_log_ok : Forall2 (λ a b, a.1 = b.1 ∧ router_ok old_node a.1.1 a.1.2) (demo_log 7) (demo_log 8).
Proof.
  apply Forall2_cons_2; [split; [done|]|apply Forall2_cons_2; [split; [done|]|apply Forall2_nil_2]].
  - intros cmd Hd. cbn [fst snd] in Hd. rewrite RegFsm.decode_encode in Hd. injection Hd as <-.
    split; [intros _; reflexivity|reflexivity].
  - vm_compute. exact I.
Qed.

End Cluster.
