(* ===== verification/Graph.v ===== *)
(** * Directed graphs and dependency levels ([internal/graph])

    The generic graph of the runtime: a set of nodes and, per source, a map from target
    to edge. [DependencyLevels] peels off the nodes without remaining predecessors, level
    by level; [findCycle] is the depth-first search that names a cycle for the error.
    The lock is not modelled: every operation holds it. [show] is [fmt.Sprintf("%v")],
    by which the nodes of a level are ordered. Go iterates maps in an arbitrary order;
    the model uses [map_to_list]'s.

    The theorems: the levels hold every vertex exactly once, every edge leads to a later
    level, and no node could be placed earlier; levels exist exactly when the graph can
    be ranked; a reported cycle is a cycle; the loops terminate within their fuel. *)

From S2P Require Import Prelude.

Module Graph.

Section graph.
Context {T : Type} `{Countable T} {E : Type}.

Record Edge := mkEdge { To : T; Data : E; Weight : Z }.
Record Graph := mkGraph { nodes : gset T; edges : gmap T (gmap T Edge) }.

Definition New : Graph := mkGraph ∅ ∅.

Definition AddNode (g : Graph) (n : T) : Graph := mkGraph ({[n]} ∪ nodes g) (edges g).

(** The outgoing edges of a node: a missing inner map is empty. *)
Definition out (g : Graph) (n : T) : gmap T Edge := default ∅ (edges g !! n).

Definition AddEdge (g : Graph) (from to : T) (weight : Z) (data : E) : Graph :=
  mkGraph (nodes g) (<[from := <[to := mkEdge to data weight]> (out g from)]> (edges g)).

Inductive graph_error :=
| NodeDoesNotExist (n : T)
| NoEdgesFromNode (n : T)
| EdgeDoesNotExist (a b : T)
| CycleDetected (cycle : list T)
| CycleWithStuckNodes (stuck : list (T * Z * list T))
| InvalidLevel (n : Z).

Definition drop_empty (m : gmap T (gmap T Edge)) : gmap T (gmap T Edge) := filter (λ kv, kv.2 ≠ ∅) m.

Definition RemoveNode (g : Graph) (n : T) : result graph_error Graph :=
  if bool_decide (n ∉ nodes g) then Err (NodeDoesNotExist n)
  else Ok (mkGraph (nodes g ∖ {[n]}) (drop_empty (delete n <$> delete n (edges g)))).

Definition HasNode (g : Graph) (n : T) : bool := bool_decide (n ∈ nodes g).
Definition HasEdge (g : Graph) (from to : T) : bool := bool_decide (is_Some (out g from !! to)).
Definition GetEdge (g : Graph) (from to : T) : option Edge := out g from !! to.

Definition RemoveEdge (g : Graph) (from to : T) : result graph_error Graph :=
  if bool_decide (from ∉ nodes g) then Err (NodeDoesNotExist from) else
  if bool_decide (to ∉ nodes g) then Err (NodeDoesNotExist to) else
  match edges g !! from with
  | None => Err (NoEdgesFromNode from)
  | Some es =>
      if bool_decide (es !! to = None) then Err (EdgeDoesNotExist from to) else
      let es := delete to es in
      Ok (mkGraph (nodes g) (if bool_decide (es = ∅) then delete from (edges g) else <[from := es]> (edges g)))
  end.

Definition GetNodes (g : Graph) : list T := elements (nodes g).

(** The keys of an inner map in iteration order. *)
Definition targets (m : gmap T Edge) : list T := (map_to_list m).*1.

Definition GetNeighbors (g : Graph) (n : T) : result graph_error (list T) :=
  if bool_decide (n ∉ nodes g) then Err (NodeDoesNotExist n) else Ok (targets (out g n)).

(** ** Cycle search *)

Record search := mkSearch { visited : gset T; recStack : gset T; parent : gmap T T }.

(** The walk from [current] back to [stop] along the parents, prepended to [cycle]. *)
Fixpoint climb (fuel : nat) (parent : gmap T T) (stop current : T) (cycle : list T) : option (list T) :=
  match fuel with
  | O => None
  | S fuel =>
      if bool_decide (current = stop) then Some cycle else
      match parent !! current with
      | Some p => climb fuel parent stop p (current :: cycle)
      | None => Some (current :: current :: cycle)
      end
  end.

(** The loop over the neighbours of [node]; [None] is out of fuel, and the result
    carries the cycle when one is found. *)
Fixpoint scan (dfs : T → search → option (option (list T) * search)) (fuel : nat) (node : T)
    (ns : list T) (s : search) : option (option (list T) * search) :=
  match ns with
  | [] => Some (None, s)
  | n :: ns =>
      if bool_decide (n ∉ visited s) then
        match dfs n (mkSearch (visited s) (recStack s) (<[n := node]> (parent s))) with
        | None => None
        | Some (Some cycle, s) => Some (Some cycle, s)
        | Some (None, s) => scan dfs fuel node ns s
        end
      else if bool_decide (n ∈ recStack s) then
        match climb fuel (parent s) n node [n] with
        | None => None
        | Some cycle => Some (Some cycle, s)
        end
      else scan dfs fuel node ns s
  end.

Fixpoint dfs (g : Graph) (fuel : nat) (node : T) (s : search) : option (option (list T) * search) :=
  match fuel with
  | O => None
  | S fuel =>
      let s := mkSearch ({[node]} ∪ visited s) ({[node]} ∪ recStack s) (parent s) in
      match scan (dfs g fuel) (S (size (visited s))) node (targets (out g node)) s with
      | Some (None, s) => Some (None, mkSearch (visited s) (recStack s ∖ {[node]}) (parent s))
      | r => r
      end
  end.

Fixpoint search_from (g : Graph) (fuel : nat) (ns : list T) (s : search) : option (option (list T)) :=
  match ns with
  | [] => Some None
  | n :: ns =>
      if bool_decide (n ∈ visited s) then search_from g fuel ns s else
      match dfs g fuel n s with
      | None => None
      | Some (Some cycle, _) => Some (Some cycle)
      | Some (None, s) => search_from g fuel ns s
      end
  end.

(** Every node of the graph and every endpoint of an edge. *)
Definition vertices (g : Graph) : gset T :=
  nodes g ∪ dom (edges g) ∪ ⋃ ((λ ne : T * gmap T Edge, dom ne.2) <$> map_to_list (edges g)).

Definition findCycle (g : Graph) : option (list T) :=
  default None (search_from g (S (size (vertices g))) (elements (nodes g)) (mkSearch ∅ ∅ ∅)).

(** ** In-degrees and levels *)

Definition incr (m : gmap T Z) (n : T) : gmap T Z := <[n := default 0 (m !! n) + 1]> m.
Definition decr (m : gmap T Z) (n : T) : gmap T Z := <[n := default 0 (m !! n) - 1]> m.

Definition inDegree0 (g : Graph) : gmap T Z :=
  foldl (λ m ne, foldl incr m (targets ne.2)) (gset_to_gmap 0 (nodes g)) (map_to_list (edges g)).

Definition remove_level_node (g : Graph) (m : gmap T Z) (n : T) : gmap T Z :=
  delete n (foldl decr m (targets (out g n))).

(** [layers.go] *)
Definition GetLevel (ls : list (list T)) (i : Z) : result graph_error (list T) :=
  if bool_decide (i < 0) || bool_decide (Z.of_nat (length ls) ≤ i) then Err (InvalidLevel i)
  else Ok (default [] (ls !! Z.to_nat i)).

Definition LevelCount (ls : list (list T)) : Z := Z.of_nat (length ls).

Fixpoint node_level (ls : list (list T)) (i : Z) (n : T) : Z :=
  match ls with
  | [] => -1
  | l :: ls => if bool_decide (n ∈ l) then i else node_level ls (i + 1) n
  end.

Definition GetNodeLevel (ls : list (list T)) (n : T) : Z := node_level ls 0 n.
Definition AllLevels (ls : list (list T)) : list (list T) := ls.

(** ** Edges and predecessors *)

Definition edge (g : Graph) (a b : T) : Prop := is_Some (out g a !! b).

Definition preds (g : Graph) (n : T) : gset T := filter (λ m, is_Some (out g m !! n)) (dom (edges g)).

Lemma elem_of_preds g a b : a ∈ preds g b ↔ edge g a b.
Proof.
  unfold preds, edge, out. rewrite elem_of_filter, elem_of_dom. split; [tauto|]. intros He. split; [done|].
  destruct (edges g !! a); [done|]. by destruct He.
Qed.

Lemma elem_of_out_targets (m : gmap T Edge) n : n ∈ targets m ↔ is_Some (m !! n).
Proof.
  unfold targets. rewrite list_elem_of_fmap. split.
  - intros [[k e] [-> Hk]]. apply elem_of_map_to_list in Hk. by eexists.
  - intros [e He]. exists (n, e). by rewrite elem_of_map_to_list.
Qed.

Lemma NoDup_targets (m : gmap T Edge) : NoDup (targets m).
Proof. apply NoDup_fst_map_to_list. Qed.

Lemma foldl_bump (d : Z) (l : list T) (m : gmap T Z) n :
  NoDup l →
  foldl (λ m n, <[n := default 0 (m !! n) + d]> m) m l !! n =
  if bool_decide (n ∈ l) then Some (default 0 (m !! n) + d) else m !! n.
Proof.
  revert m. induction l as [|a l IH]; intros m Hl; [done|]. apply NoDup_cons in Hl as [Ha Hl]. cbn.
  rewrite IH by done. destruct (decide (a = n)) as [->|Hne].
  - rewrite bool_decide_eq_false_2, lookup_insert_eq by done. by rewrite bool_decide_eq_true_2 by left.
  - rewrite lookup_insert_ne by done.
    rewrite (bool_decide_ext (n ∈ l) (n ∈ a :: l)); [done|]. rewrite elem_of_cons. split; [tauto|]. by intros [->|].
Qed.

Lemma foldl_incr l (m : gmap T Z) n :
  NoDup l → foldl incr m l !! n = if bool_decide (n ∈ l) then Some (default 0 (m !! n) + 1) else m !! n.
Proof. apply (foldl_bump 1). Qed.

Lemma foldl_decr l (m : gmap T Z) n :
  NoDup l → foldl decr m l !! n = if bool_decide (n ∈ l) then Some (default 0 (m !! n) - 1) else m !! n.
Proof. intros Hl. by apply (foldl_bump (-1)). Qed.

(** Sources of a list of adjacency pairs that reach [n] *)
Definition reaching (n : T) (l : list (T * gmap T Edge)) : list (T * gmap T Edge) :=
  filter (λ ne, is_Some (ne.2 !! n)) l.

Lemma foldl_incr_pairs (l : list (T * gmap T Edge)) (m : gmap T Z) n :
  foldl (λ m ne, foldl incr m (targets ne.2)) m l !! n =
  if bool_decide (is_Some (m !! n) ∨ reaching n l ≠ [])
  then Some (default 0 (m !! n) + Z.of_nat (length (reaching n l))) else None.
Proof.
  revert m. induction l as [|[a es] l IH]; intros m.
  - cbn. destruct (m !! n) as [z|]; cbn; [|done]. by rewrite Z.add_0_r.
  - cbn [foldl]. rewrite IH, foldl_incr by apply NoDup_targets. unfold reaching. rewrite filter_cons. cbn [snd].
    rewrite (bool_decide_ext (n ∈ targets es) (is_Some (es !! n))) by apply elem_of_out_targets.
    destruct (bool_decide_reflect (is_Some (es !! n))) as [Hs|Hs]; destruct (decide (is_Some (es !! n))); try done.
    rewrite !bool_decide_eq_true_2 by naive_solver. f_equal. unfold default. cbn [from_option length id]. rewrite Nat2Z.inj_succ. unfold from_option, id. lia.
Qed.

Lemma length_reaching g n : length (reaching n (map_to_list (edges g))) = size (preds g n).
Proof.
  unfold size, set_size. rewrite <- (length_fmap fst). cbn. apply Permutation_length.
  apply NoDup_Permutation.
  - apply (sublist_NoDup _ _ (NoDup_fst_map_to_list (edges g))). apply fmap_sublist, sublist_filter.
  - apply NoDup_elements.
  - intros a. rewrite elem_of_elements, elem_of_preds, list_elem_of_fmap. unfold reaching, edge, out. split.
    + intros [[k es] [-> [Hs Hk]%list_elem_of_filter]]. apply elem_of_map_to_list in Hk. cbn in *. by rewrite Hk.
    + destruct (edges g !! a) as [es|] eqn:Ea; [|by intros []]. cbn. intros Hs. exists (a, es).
      split; [done|]. apply list_elem_of_filter. by rewrite elem_of_map_to_list.
Qed.

(** The vertices that the level computation places: nodes and edge targets. *)
Definition placed (g : Graph) (n : T) : Prop := n ∈ nodes g ∨ preds g n ≠ ∅.

#[export] Instance placed_dec g n : Decision (placed g n).
Proof. unfold placed. apply _. Defined.

Lemma inDegree0_spec g n :
  inDegree0 g !! n = if bool_decide (placed g n) then Some (Z.of_nat (size (preds g n))) else None.
Proof.
  unfold inDegree0. rewrite foldl_incr_pairs, <- length_reaching.
  assert (Hr : reaching n (map_to_list (edges g)) ≠ [] ↔ preds g n ≠ ∅).
  { rewrite <- length_zero_iff_nil, length_reaching, size_empty_iff. split; intros Hr Hq; apply Hr; by apply leibniz_equiv_iff. }
  destruct (decide (n ∈ nodes g)) as [Hn|Hn].
  - assert (Hl : gset_to_gmap 0 (nodes g) !! n = Some 0) by (by apply lookup_gset_to_gmap_Some).
    rewrite Hl, !bool_decide_eq_true_2; [done|by left|by left; eauto].
  - assert (Hl : gset_to_gmap 0 (nodes g) !! n = None) by (by apply lookup_gset_to_gmap_None).
    rewrite Hl. unfold placed.
    erewrite (bool_decide_ext (is_Some (None : option Z) ∨ _)); [reflexivity|].
    rewrite Hr. split; [intros [[]|]; [done|by right]|]. intros [?|?]; [done|by right].
Qed.

(** ** The level computation

    [removed] are the vertices taken out so far: the table holds the remaining vertices
    with the number of their remaining predecessors, and what was taken out has none. *)
Record peel_inv (g : Graph) (removed : gset T) (m : gmap T Z) : Prop := {
  pi_degree n : m !! n = if bool_decide (placed g n ∧ n ∉ removed)
                         then Some (Z.of_nat (size (preds g n ∖ removed))) else None;
  pi_removed n : n ∈ removed → placed g n ∧ preds g n ⊆ removed
}.

Lemma peel_init g : peel_inv g ∅ (inDegree0 g).
Proof.
  split; [|set_solver]. intros n. rewrite inDegree0_spec.
  rewrite difference_empty_L. 
  destruct (bool_decide_reflect (placed g n)) as [Hp|Hp].
  - rewrite bool_decide_eq_true_2; [done|]. split; [done|apply not_elem_of_empty].
  - rewrite bool_decide_eq_false_2; [done|]. by intros [? _].
Qed.

Lemma edge_placed g a b : edge g a b → placed g b.
Proof. intros He%elem_of_preds. right. set_solver. Qed.

Lemma peel_node g removed m x :
  peel_inv g removed m → placed g x → x ∉ removed → preds g x ⊆ removed →
  peel_inv g ({[x]} ∪ removed) (remove_level_node g m x).
Proof.
  intros [Hd Hr] Hx Hxr Hp. split; [|set_solver]. intros n. unfold remove_level_node.
  destruct (decide (n = x)) as [->|Hne].
  { rewrite lookup_delete_eq, bool_decide_eq_false_2; [done|set_solver]. }
  rewrite lookup_delete_ne, foldl_decr, Hd by (done || apply NoDup_targets).
  rewrite (bool_decide_ext (placed g n ∧ n ∉ {[x]} ∪ removed) (placed g n ∧ n ∉ removed)) by set_solver.
  rewrite (bool_decide_ext (n ∈ targets (out g x)) (x ∈ preds g n)) by (rewrite elem_of_out_targets, elem_of_preds; done).
  destruct (bool_decide_reflect (x ∈ preds g n)) as [Hin|Hin].
  - assert (placed g n ∧ n ∉ removed) as Hn.
    { split; [apply (edge_placed g x); by apply elem_of_preds|]. intros Hn. apply Hr in Hn. set_solver. }
    rewrite !bool_decide_eq_true_2 by done. cbn. rewrite (size_remove_elem _ _ x) by done. f_equal. lia.
  - destruct (bool_decide _); [|done]. do 3 f_equal. set_solver.
Qed.

Lemma peel_nodes g l removed m :
  peel_inv g removed m → NoDup l → (∀ x, x ∈ l → placed g x ∧ x ∉ removed ∧ preds g x ⊆ removed) →
  peel_inv g (list_to_set l ∪ removed) (foldl (remove_level_node g) m l).
Proof.
  revert removed m. induction l as [|x l IH]; intros removed m Hi Hl Hx; cbn; [by rewrite union_empty_l_L|].
  apply NoDup_cons in Hl as [Hnx Hl]. destruct (Hx x) as (H1 & H2 & H3); [by left|].
  replace ({[x]} ∪ list_to_set l ∪ removed) with (list_to_set l ∪ ({[x]} ∪ removed)) by set_solver.
  apply IH; [by apply peel_node|done|]. intros y Hy. destruct (Hx y) as (? & ? & ?); [by right|]. set_solver.
Qed.

(** The vertices of the next level *)
Definition ready (m : gmap T Z) : list T := (map_to_list (filter (λ kv, kv.2 = 0) m)).*1.

Lemma NoDup_ready m : NoDup (ready m).
Proof. apply NoDup_fst_map_to_list. Qed.

Lemma elem_of_ready g removed m n :
  peel_inv g removed m → n ∈ ready m ↔ placed g n ∧ n ∉ removed ∧ preds g n ⊆ removed.
Proof.
  intros [Hd _]. unfold ready. rewrite list_elem_of_fmap.
  assert (Hz : (∃ y, n = y.1 ∧ y ∈ map_to_list (filter (λ kv : T * Z, kv.2 = 0) m)) ↔ m !! n = Some 0).
  { split.
    - intros [[k z] [-> Hk]]. apply elem_of_map_to_list, map_lookup_filter_Some in Hk as [Hk Hz]. cbn in *. by subst.
    - intros Hn. exists (n, 0). split; [done|]. by apply elem_of_map_to_list, map_lookup_filter_Some. }
  rewrite Hz, Hd. destruct (bool_decide_reflect (placed g n ∧ n ∉ removed)) as [Hn|Hn]; [|naive_solver].
  split.
  - intros [= Hs]. split_and!; [apply Hn..|].
    assert (preds g n ∖ removed ≡ ∅) by (apply size_empty_iff; lia). set_solver.
  - intros (_ & _ & Hs). replace (preds g n ∖ removed) with (∅ : gset T) by set_solver. by rewrite size_empty.
Qed.

(** ** The cycle search *)

Fixpoint walk (g : Graph) (l : list T) : Prop :=
  match l with
  | a :: ((b :: _) as l) => edge g a b ∧ walk g l
  | _ => True
  end.

(** A cycle as reported: it ends with the node it starts from, which is not repeated. *)
Definition is_cycle (g : Graph) (c : list T) : Prop := ∃ n l, c = l ++ [n] ∧ walk g (n :: l ++ [n]).

(** The recursion stack, innermost node first: each node was reached from the next. *)
Fixpoint linked (g : Graph) (parent : gmap T T) (st : list T) : Prop :=
  match st with
  | a :: ((b :: _) as st) => edge g b a ∧ parent !! a = Some b ∧ linked g parent st
  | _ => True
  end.

Record stack_ok (g : Graph) (s : search) (st : list T) : Prop := {
  so_nodup : NoDup st;
  so_rec : recStack s = list_to_set st;
  so_visited : recStack s ⊆ visited s;
  so_linked : linked g (parent s) st
}.

Lemma linked_ext g p p' st : (∀ a, a ∈ st → p' !! a = p !! a) → linked g p st → linked g p' st.
Proof.
  induction st as [|a [|b st] IH]; intros Hp; [done..|]. cbn [linked]. intros (H1 & H2 & H3). split_and!; [done| |].
  - rewrite Hp; [done|by left].
  - apply IH; [|done]. intros c Hc. apply Hp. by right.
Qed.

(** Climbing from the top of the stack to [n] walks back over the segment above [n]. *)
Lemma climb_spec g p fuel seg n rest cycle :
  linked g p (seg ++ n :: rest) → n ∉ seg → (length seg < fuel)%nat → walk g cycle →
  match head seg, head cycle with Some a, Some c => edge g a c | None, Some c => edge g n c | _, None => True end →
  climb fuel p n (default n (head seg)) cycle = Some (rev seg ++ cycle) ∧ walk g (n :: rev seg ++ cycle).
Proof.
  revert fuel cycle. induction seg as [|a seg IH]; intros [|fuel] cycle Hl Hn Hf Hw Hh; cbn in Hf; try lia.
  - cbn. rewrite bool_decide_eq_true_2 by done. split; [done|]. destruct cycle; cbn in *; done.
  - apply not_elem_of_cons in Hn as [Hna Hn]. cbn [climb head default from_option id].
    rewrite bool_decide_eq_false_2 by congruence.
    assert (p !! a = Some (default n (head seg)) ∧ edge g (default n (head seg)) a ∧ linked g p (seg ++ n :: rest)) as (-> & He & Hl').
    { destruct seg as [|b seg]; cbn in Hl; cbn; tauto. }
    cbn [rev]. rewrite <- app_assoc. apply IH; [done|done|lia| |].
    + destruct cycle; cbn in *; done.
    + destruct seg; cbn in *; done.
Qed.

(** What a completed search leaves: more nodes visited, the stack and its links as before. *)
Definition resumed (g : Graph) (s s' : search) : Prop :=
  visited s ⊆ visited s' ∧ recStack s' = recStack s ∧ ∀ a, a ∈ visited s → parent s' !! a = parent s !! a.

Definition searched (g : Graph) (s : search) (r : option (list T)) (s' : search) : Prop :=
  match r with Some c => is_cycle g c | None => resumed g s s' end.

Lemma resumed_stack g s s' st : resumed g s s' → stack_ok g s st → stack_ok g s' st.
Proof.
  intros (Hv & Hr & Hp) [S1 S2 S3 S4]. split; [done|by rewrite Hr|by rewrite Hr; etrans|].
  eapply linked_ext; [|done]. intros a Ha. apply Hp, S3. rewrite S2. by apply elem_of_list_to_set.
Qed.

Definition unvisited (g : Graph) (s : search) : nat := size (vertices g ∖ visited s).

Lemma unvisited_mono g s s' : visited s ⊆ visited s' → (unvisited g s' ≤ unvisited g s)%nat.
Proof. intros Hv. apply subseteq_size. set_solver. Qed.

Lemma edge_vertex g a b : edge g a b → b ∈ vertices g.
Proof.
  unfold edge, out, vertices. intros He. apply elem_of_union_r, elem_of_union_list.
  destruct (edges g !! a) as [es|] eqn:Ea; [|by destruct He]. cbn in He. exists (dom es).
  split; [|by apply elem_of_dom]. apply list_elem_of_fmap. exists (a, es). split; [done|]. by apply elem_of_map_to_list.
Qed.

(** The specification of [dfs] on the nodes that [scan] reaches. *)
Definition dfs_ok (g : Graph) (f : T → search → option (option (list T) * search)) (bound : nat) : Prop :=
  ∀ n s st, n ∉ visited s → n ∈ vertices g → stack_ok g s st →
    (∀ p, head st = Some p → edge g p n ∧ parent s !! n = Some p) → (unvisited g s < bound)%nat →
    ∃ r s', f n s = Some (r, s') ∧ searched g s r s'.

Lemma resumed_link g s s' n p :
  n ∉ visited s → resumed g (mkSearch (visited s) (recStack s) (<[n := p]> (parent s))) s' → resumed g s s'.
Proof.
  intros Hn (Hv & Hr & Hp). split_and!; [done..|]. intros a Ha. rewrite Hp by done. cbn.
  rewrite lookup_insert_ne; [done|]. by intros ->.
Qed.

Lemma scan_spec g f bound node fuel ns s st :
  dfs_ok g f bound → stack_ok g s (node :: st) → (∀ n, n ∈ ns → edge g node n) → (unvisited g s < bound)%nat →
  (length (node :: st) < fuel)%nat →
  ∃ r s', scan f fuel node ns s = Some (r, s') ∧ searched g s r s'.
Proof.
  intros Hf. revert s. induction ns as [|n ns IH]; intros s Hs Hns Hb Hfuel; cbn [scan].
  { exists None, s. split; [done|]. by split_and!. }
  assert (Hns' : ∀ n, n ∈ ns → edge g node n) by (intros; apply Hns; by right).
  pose proof (Hns n ltac:(by left)) as He.
  destruct (bool_decide_reflect (n ∉ visited s)) as [Hv|Hv].
  - destruct (Hf n (mkSearch (visited s) (recStack s) (<[n := node]> (parent s))) (node :: st)) as (r & s' & -> & Hr); try done.
    + by eapply edge_vertex.
    + destruct Hs as [S1 S2 S3 S4]. split; [done..|]. cbn [parent]. eapply linked_ext; [|done].
      intros a Ha. rewrite lookup_insert_ne; [done|]. intros ->. apply Hv, S3. rewrite S2. by apply elem_of_list_to_set.
    + intros p [= <-]. cbn. by rewrite lookup_insert_eq.
    + destruct r as [c|]; [by exists (Some c), s'|]. cbn in Hr. apply resumed_link in Hr; [|done].
      destruct (IH s') as (r & s'' & Hr2 & Hq); [by eapply resumed_stack|done| |done|].
      { destruct Hr as [Hr _]. apply unvisited_mono with (g := g) in Hr. lia. }
      exists r, s''. split; [done|]. destruct r as [c|]; [done|]. destruct Hr as (H1 & H2 & H3), Hq as (Q1 & Q2 & Q3).
      split_and!; [by etrans|by rewrite Q2|]. intros a Ha. rewrite Q3 by set_solver. by apply H3.
  - destruct (bool_decide_reflect (n ∈ recStack s)) as [Hr|Hr]; [|by apply IH].
    destruct Hs as [S1 S2 S3 S4]. rewrite S2, elem_of_list_to_set in Hr.
    apply list_elem_of_split_l in Hr as (seg & rest & Hseg & Hn).
    pose proof (climb_spec g (parent s) fuel seg n rest [n]) as Hc. rewrite <- Hseg in Hc.
    destruct Hc as [Hc Hw]; [done|done| |done| |].
    + rewrite Hseg, length_app in Hfuel. cbn in Hfuel. lia.
    + destruct seg as [|a seg]; cbn in *; by simplify_eq.
    + replace (default n (head seg)) with node in Hc by (destruct seg; cbn in *; by simplify_eq).
      rewrite Hc. exists (Some (rev seg ++ [n])), s. split; [done|]. exists n, (rev seg). done.
Qed.

Lemma stack_visited g s st : stack_ok g s st → (length st ≤ size (visited s))%nat.
Proof.
  intros [S1 S2 S3 _]. rewrite <- (size_list_to_set (C := gset T) st) by done. rewrite <- S2. by apply subseteq_size.
Qed.

Lemma dfs_spec g fuel : dfs_ok g (dfs g fuel) fuel.
Proof.
  induction fuel as [|fuel IH]; intros n s st Hn HV Hs Hp Hb; [lia|]. cbn [dfs].
  set (s1 := mkSearch ({[n]} ∪ visited s) ({[n]} ∪ recStack s) (parent s)).
  assert (Hs1 : stack_ok g s1 (n :: st)).
  { destruct Hs as [S1 S2 S3 S4]. split.
    - apply NoDup_cons. split; [|done]. intros Hin. apply Hn, S3. rewrite S2. by apply elem_of_list_to_set.
    - cbn. by rewrite S2.
    - cbn. set_solver.
    - destruct st as [|p st]; [done|]. destruct (Hp p eq_refl). cbn in *. tauto. }
  assert (Hu : unvisited g s = S (unvisited g s1)).
  { unfold unvisited. cbn. by apply size_remove_elem. }
  destruct (scan_spec g (dfs g fuel) fuel n (S (size (visited s1))) (targets (out g n)) s1 st IH Hs1) as (r & s2 & -> & Hr).
  - intros m Hm%elem_of_out_targets. done.
  - lia.
  - pose proof (stack_visited g s1 (n :: st) Hs1). lia.
  - destruct r as [c|]; [by exists (Some c), s2|]. eexists None, _. split; [done|]. cbn in Hr.
    destruct Hr as (H1 & H2 & H3). cbn in H1, H2, H3. split_and!; cbn; [set_solver| |].
    + rewrite H2. destruct Hs as [_ S2 S3 _]. set_solver.
    + intros a Ha. apply H3. set_solver.
Qed.

Lemma search_from_spec g fuel ns s :
  (∀ n, n ∈ ns → n ∈ vertices g) → stack_ok g s [] → (unvisited g s < fuel)%nat →
  ∃ r, search_from g fuel ns s = Some r ∧ ∀ c, r = Some c → is_cycle g c.
Proof.
  revert s. induction ns as [|n ns IH]; intros s Hns Hs Hb; cbn [search_from]; [by exists None|].
  assert (Hns' : ∀ n, n ∈ ns → n ∈ vertices g) by (intros; apply Hns; by right).
  destruct (bool_decide_reflect (n ∈ visited s)) as [Hv|Hv]; [by apply IH|].
  destruct (dfs_spec g fuel n s []) as (r & s' & -> & Hr); [done|apply Hns; by left|done|done|done|].
  destruct r as [c|]; [exists (Some c); split; [done|by intros c' [= <-]]|].
  apply IH; [done|by eapply resumed_stack|]. destruct Hr as [Hr _]. apply unvisited_mono with (g := g) in Hr. lia.
Qed.

(** The cycle search ends within its fuel, and what it reports is a cycle of the graph. *)
Lemma findCycle_sound g c : findCycle g = Some c → is_cycle g c.
Proof.
  unfold findCycle. intros Hc.
  destruct (search_from_spec g (S (size (vertices g))) (elements (nodes g)) (mkSearch ∅ ∅ ∅)) as (r & Hr & Hs).
  - intros n Hn%elem_of_elements. unfold vertices. set_solver.
  - split; [constructor|done..].
  - unfold unvisited. cbn. rewrite difference_empty_L. lia.
  - rewrite Hr in Hc. cbn in Hc. by apply Hs.
Qed.

(** Edges start at nodes, as in the graphs the runtime builds. *)
Definition closed (g : Graph) : Prop := ∀ a b, edge g a b → a ∈ nodes g.

Definition ranked (g : Graph) : Prop := ∃ rank : T → nat, ∀ a b, edge g a b → (rank a < rank b)%nat.

(** A cycle has no rank, so the search reports nothing in a ranked graph. *)
Lemma walk_rank g rank l a b :
  (∀ x y, edge g x y → (rank x < rank y)%nat) → walk g (a :: l ++ [b]) → (rank a < rank b)%nat.
Proof.
  intros Hr. revert a. induction l as [|c l IH]; intros a; cbn; [intros [He _]; by apply Hr|].
  intros [He Hw]. apply IH in Hw. apply Hr in He. lia.
Qed.

Lemma cycle_not_ranked g c : is_cycle g c → ¬ ranked g.
Proof. intros (n & l & _ & Hw) [rank Hr]. apply (walk_rank g rank) in Hw; [lia|done]. Qed.

End graph.

Arguments Graph T {_ _} E.
Arguments graph_error : clear implicits.

(** ** Dependency levels *)

Section levels.
Context {T : Type} `{Countable T} {E : Type}.
Variable show : T → string.
Notation Graph := (Graph T E).
Implicit Types (g : Graph).

Definition show_le (a b : T) : Prop := String.le (show a) (show b).
#[local] Instance show_le_dec a b : Decision (show_le a b).
Proof. unfold show_le. apply _. Defined.

(** [sort.Slice] by the printed form *)
Definition sort_shown (l : list T) : list T := merge_sort show_le l.

Definition stuck_nodes (g : Graph) (m : gmap T Z) : list (T * Z * list T) :=
  (λ n, (n, default 0 (m !! n), sort_shown (targets (out g n)))) <$> sort_shown ((map_to_list m).*1).

Fixpoint levels_loop (g : Graph) (fuel : nat) (m : gmap T Z) (acc : list (list T))
    : option (result (graph_error T) (list (list T))) :=
  match fuel with
  | O => None
  | S fuel =>
      if bool_decide (m = ∅) then Some (Ok acc) else
      let current := (map_to_list (filter (λ kv, kv.2 = 0) m)).*1 in
      match current with
      | [] =>
          Some (match findCycle g with
                | Some cycle => Err (CycleDetected cycle)
                | None => Err (CycleWithStuckNodes (stuck_nodes g m))
                end)
      | _ => levels_loop g fuel (foldl (remove_level_node g) m current) (acc ++ [sort_shown current])
      end
  end.

Definition DependencyLevels (g : Graph) : result (graph_error T) (list (list T)) :=
  default (Ok []) (levels_loop g (S (size (inDegree0 g))) (inDegree0 g) []).

(** ** Layers *)

Definition in_level (ls : list (list T)) (i : nat) (n : T) : Prop := ∃ l, ls !! i = Some l ∧ n ∈ l.

(** A placement of vertices in levels: each vertex once, predecessors in earlier levels,
    and every vertex past the first level has a predecessor just before it. *)
Record layered (g : Graph) (ls : list (list T)) : Prop := {
  ly_nodup : NoDup (concat ls);
  ly_nonempty l : l ∈ ls → l ≠ [] ∧ StronglySorted show_le l;
  ly_before i n a : in_level ls i n → edge g a n → ∃ j, (j < i)%nat ∧ in_level ls j a;
  ly_earliest i n : in_level ls (S i) n → ∃ a, edge g a n ∧ in_level ls i a
}.

Lemma in_level_concat ls n : n ∈ concat ls ↔ ∃ i, in_level ls i n.
Proof.
  rewrite elem_of_concat. split.
  - intros (l & [i Hi]%list_elem_of_lookup & Hn). exists i, l. done.
  - intros (i & l & Hi & Hn). exists l. split; [by eapply list_elem_of_lookup_2|done].
Qed.

Lemma in_level_snoc ls l i n : in_level (ls ++ [l]) i n ↔ in_level ls i n ∨ (i = length ls ∧ n ∈ l).
Proof.
  unfold in_level. setoid_rewrite lookup_app_Some. setoid_rewrite list_lookup_singleton_Some. split.
  - intros (l' & [Hl|[Hi [Hz <-]]] & Hn); [left; eauto|right]. split; [lia|done].
  - intros [(l' & Hl & Hn)|[-> Hn]]; [exists l'; tauto|]. exists l. split; [right; split; [lia|split; [lia|done]]|done].
Qed.

Lemma in_level_lt ls i n : in_level ls i n → (i < length ls)%nat.
Proof. intros (l & Hl & _). by eapply lookup_lt_Some. Qed.

(** The vertices left over all wait for a vertex of the last level or one left over. *)
Definition waiting (g : Graph) (ls : list (list T)) (removed : gset T) : Prop :=
  ∀ k n, length ls = S k → placed g n → n ∉ removed → ∃ a, edge g a n ∧ (a ∉ removed ∨ in_level ls k a).

#[local] Instance show_le_total : Total show_le.
Proof. intros a b. apply (total String.le). Qed.
#[local] Instance show_le_trans : Transitive show_le.
Proof. intros a b c. unfold show_le. apply transitivity. Qed.

Lemma sort_shown_perm l : sort_shown l ≡ₚ l.
Proof. apply merge_sort_Permutation. Qed.

Lemma elem_of_sort_shown l n : n ∈ sort_shown l ↔ n ∈ l.
Proof. by rewrite sort_shown_perm. Qed.

Lemma layered_snoc g ls removed m :
  peel_inv g removed m → layered g ls → waiting g ls removed → (∀ n, n ∈ concat ls ↔ n ∈ removed) → ready m ≠ [] →
  layered g (ls ++ [sort_shown (ready m)]) ∧ waiting g (ls ++ [sort_shown (ready m)]) (list_to_set (ready m) ∪ removed).
Proof.
  intros Hi [L1 L2 L3 L4] Hw Hc Hne.
  assert (Hready : ∀ n, n ∈ sort_shown (ready m) ↔ placed g n ∧ n ∉ removed ∧ preds g n ⊆ removed).
  { intros n. by rewrite elem_of_sort_shown, (elem_of_ready g removed m). }
  split; [split|].
  - rewrite concat_app. cbn. rewrite app_nil_r, sort_shown_perm. apply NoDup_app. split_and!; [done| |apply NoDup_ready].
    intros n Hn%Hc Hr. rewrite (elem_of_ready g removed) in Hr by done. tauto.
  - intros l [Hl|Hl%list_elem_of_singleton]%elem_of_app; [by apply L2|]. subst l. split.
    + intros He. apply Hne. apply Permutation_nil_r. by rewrite <- (sort_shown_perm (ready m)), He.
    + apply (StronglySorted_merge_sort show_le).
  - intros i n a [Hn|[-> Hn]]%in_level_snoc He.
    + destruct (L3 i n a Hn He) as (j & ? & ?). exists j. split; [done|]. apply in_level_snoc. by left.
    + apply Hready in Hn as (_ & _ & Hp). assert (a ∈ concat ls) as [j Hj]%in_level_concat by (apply Hc, Hp; by apply elem_of_preds).
      exists j. split; [by eapply in_level_lt|]. apply in_level_snoc. by left.
  - intros i n [Hn|[Hi' Hn]]%in_level_snoc.
    + destruct (L4 i n Hn) as (a & ? & ?). exists a. split; [done|]. apply in_level_snoc. by left.
    + apply Hready in Hn as (H1 & H2 & H3). destruct (Hw i n) as (a & Ha & [Hr|Hr]); [done..| |].
      * exfalso. apply Hr, H3. by apply elem_of_preds.
      * exists a. split; [done|]. apply in_level_snoc. by left.
  - intros k n Hk Hp Hn. rewrite length_app in Hk. cbn in Hk. assert (k = length ls) as -> by lia.
    destruct (not_subseteq_elem (preds g n) removed) as (a & Ha & Hr).
    { intros Hsub. apply Hn, elem_of_union_l, elem_of_list_to_set. rewrite (elem_of_ready g removed) by done. set_solver. }
    exists a. split; [by apply elem_of_preds|]. destruct (decide (a ∈ ready m)) as [Hin|Hin]; [right|left; set_solver].
    apply in_level_snoc. right. by rewrite elem_of_sort_shown.
Qed.

(** Vertices that all wait for each other cannot be ranked. *)
Lemma stuck_not_ranked g (X : gset T) :
  X ≠ ∅ → (∀ n, n ∈ X → ∃ a, a ∈ X ∧ edge g a n) → ¬ ranked g.
Proof.
  intros [n Hn]%set_choose_L Hx [rank Hr]. remember (rank n) as k eqn:Ek. revert n Hn Ek.
  induction k as [k IH] using lt_wf_ind. intros n Hn ->. destruct (Hx n Hn) as (a & Ha & He).
  by apply (IH (rank a) (Hr a n He) a).
Qed.

Definition levels_spec (g : Graph) (r : result (graph_error T) (list (list T))) : Prop :=
  match r with
  | Ok ls => layered g ls ∧ ∀ n, n ∈ concat ls ↔ placed g n
  | Err e => (∀ c, e = CycleDetected c → is_cycle g c) ∧ (closed g → ¬ ranked g)
  end.

Lemma dom_peel g removed m n : peel_inv g removed m → n ∈ dom m ↔ placed g n ∧ n ∉ removed.
Proof.
  intros [Hd _]. rewrite elem_of_dom, Hd. 
  destruct (bool_decide_reflect (placed g n ∧ n ∉ removed)) as [Hn|Hn]; split; done.
Qed.

Lemma blocked_not_ranked g removed m :
  peel_inv g removed m → m ≠ ∅ → ready m = [] → closed g → ¬ ranked g.
Proof.
  intros Hi Hm Hr Hc. apply (stuck_not_ranked g (dom m)).
  - intros He%dom_empty_iff_L. done.
  - intros n Hn. apply (dom_peel _ _ _ _ Hi) in Hn as [Hp Hn].
    destruct (not_subseteq_elem (preds g n) removed) as (a & Ha & Har).
    { intros Hs. assert (n ∈ ready m) as Hin by (by apply (elem_of_ready g removed)). rewrite Hr in Hin. by apply elem_of_nil in Hin. }
    apply elem_of_preds in Ha. exists a. split; [|done]. apply (dom_peel _ _ _ _ Hi). split; [left; by apply (Hc a n)|done].
Qed.

Lemma levels_loop_spec g fuel removed m ls :
  peel_inv g removed m → layered g ls → waiting g ls removed → (∀ n, n ∈ concat ls ↔ n ∈ removed) →
  (size m < fuel)%nat → ∃ r, levels_loop g fuel m ls = Some r ∧ levels_spec g r.
Proof.
  revert removed m ls. induction fuel as [|fuel IH]; intros removed m ls Hi Hl Hw Hc Hf; [lia|].
  cbn [levels_loop]. destruct (bool_decide_reflect (m = ∅)) as [Hm|Hm].
  { eexists. split; [done|]. split; [done|]. intros n. rewrite Hc. split; [apply Hi|]. intros Hp.
    destruct (decide (n ∈ removed)) as [|Hn]; [done|]. exfalso.
    assert (n ∈ dom m) as Hd by (by apply (dom_peel _ _ _ _ Hi)). rewrite Hm in Hd. set_solver. }
  fold (ready m). destruct (ready m) as [|x l] eqn:Er.
  { eexists. split; [done|]. pose proof (blocked_not_ranked g removed m Hi Hm Er) as Hb.
    destruct (findCycle g) as [c|] eqn:Ec; (split; [|done]); [|done]. intros c' [= <-]. by apply findCycle_sound. }
  rewrite <- Er. assert (ready m ≠ []) as Hne by (by rewrite Er).
  destruct (layered_snoc g ls removed m Hi Hl Hw Hc Hne) as [Hl' Hw'].
  pose proof (peel_nodes g (ready m) removed m Hi (NoDup_ready m) (λ x, proj1 (elem_of_ready g removed m x Hi))) as Hi'.
  apply (IH (list_to_set (ready m) ∪ removed)); [done..| |].
  - intros n. rewrite concat_app, elem_of_app, Hc. cbn. rewrite app_nil_r, elem_of_sort_shown. set_solver.
  - enough (size (foldl (remove_level_node g) m (ready m)) < size m)%nat by lia.
    rewrite <- !size_dom. apply subset_size. split.
    + intros n. rewrite (dom_peel _ _ _ _ Hi'), (dom_peel _ _ _ _ Hi). set_solver.
    + intros Hs. assert (x ∈ ready m) as Hx by (rewrite Er; by left).
      assert (x ∈ dom m) as Hd by (rewrite (dom_peel _ _ _ _ Hi); rewrite (elem_of_ready g removed) in Hx by done; tauto).
      apply Hs in Hd. rewrite (dom_peel _ _ _ _ Hi') in Hd. set_solver.
Qed.

Lemma node_level_at ls k i n : NoDup (concat ls) → in_level ls i n → node_level ls k n = k + Z.of_nat i.
Proof.
  revert k i. induction ls as [|l ls IH]; intros k i Hd Hi; [by destruct Hi as (? & ? & _)|].
  cbn in *. apply NoDup_app in Hd as (_ & Hd & Hls). destruct i as [|i].
  - destruct Hi as (l' & [= <-] & Hn). rewrite bool_decide_eq_true_2 by done. lia.
  - assert (in_level ls i n) as Hi' by apply Hi. rewrite bool_decide_eq_false_2.
    + rewrite (IH _ i) by done. lia.
    + intros Hn. apply (Hd n Hn), in_level_concat. eauto.
Qed.

Lemma node_level_in ls : NoDup (concat ls) → ∀ i n, in_level ls i n → GetNodeLevel ls n = Z.of_nat i.
Proof. intros Hd i n Hi. unfold GetNodeLevel. by rewrite (node_level_at ls 0 i). Qed.

Lemma layered_nil g : layered g [].
Proof. split; [constructor|by intros l Hl%elem_of_nil|by intros i n a [l [Hl _]]|by intros i n [l [Hl _]]]. Qed.

Lemma levels_correct g : levels_spec g (DependencyLevels g).
Proof.
  unfold DependencyLevels.
  destruct (levels_loop_spec g (S (size (inDegree0 g))) ∅ (inDegree0 g) []) as (r & -> & Hr); [..|done].
  - apply peel_init.
  - apply layered_nil.
  - done.
  - cbn. set_solver.
  - lia.
Qed.

(** A layering ranks its graph: a vertex by the number of its level. *)
Lemma layered_ranked g ls : layered g ls → (∀ n, n ∈ concat ls ↔ placed g n) → ranked g.
Proof.
  intros Hl Hc. exists (λ n, Z.to_nat (1 + GetNodeLevel ls n)). intros a b He.
  assert (Hlev : ∀ i n, in_level ls i n → GetNodeLevel ls n = Z.of_nat i).
  { apply node_level_in, Hl. }
  destruct (proj1 (in_level_concat ls b)) as [i Hi]; [apply Hc; by eapply edge_placed|].
  destruct (ly_before _ _ Hl i b a Hi He) as (j & Hj & Ha). rewrite (Hlev _ _ Hi), (Hlev _ _ Ha). lia.
Qed.

(** Dependency levels hold every vertex once, [GetNodeLevel] returns the level of a
    vertex, every edge leads to a later level and no vertex could be placed earlier; the
    error is returned exactly for graphs that admit no order, and the cycle it names is
    one. *)
Theorem DependencyLevels_spec g :
  closed g →
  match DependencyLevels g with
  | Ok ls => layered g ls ∧ (∀ n, n ∈ concat ls ↔ n ∈ nodes g ∨ ∃ a, edge g a n) ∧
      (∀ a b, edge g a b → 0 ≤ GetNodeLevel ls a < GetNodeLevel ls b) ∧ ranked g
  | Err e => ¬ ranked g ∧ ∀ c, e = CycleDetected c → is_cycle g c
  end.
Proof.
  intros Hc. pose proof (levels_correct g) as Hs. destruct (DependencyLevels g) as [ls|e]; [|split; [by apply Hs|apply Hs]].
  destruct Hs as [Hl Hp]. split_and!; [done| |intros a b He|by eapply layered_ranked].
  - intros n. rewrite Hp. unfold placed. apply or_iff_compat_l. split.
    + intros [a Ha%elem_of_preds]%set_choose_L. eauto.
    + intros [a Ha%elem_of_preds]. set_solver.
  - destruct (proj1 (in_level_concat ls b)) as [i Hi]; [apply Hp; by eapply edge_placed|].
    destruct (ly_before _ _ Hl i b a Hi He) as (j & Hj & Ha).
    rewrite (node_level_in ls (ly_nodup _ _ Hl) _ _ Hi), (node_level_in ls (ly_nodup _ _ Hl) _ _ Ha). lia.
Qed.
End levels.

(** ** A diamond and a cycle *)

Definition diamond : Graph string unit :=
  let g := foldl AddNode New ["a"; "b"; "c"; "d"] in
  AddEdge (AddEdge (AddEdge (AddEdge g "a" "b" 1 tt) "a" "c" 1 tt) "b" "d" 1 tt) "c" "d" 1 tt.

Lemma diamond_closed : closed diamond.
Proof.
  intros a b. unfold edge, out. destruct (edges diamond !! a) as [es|] eqn:Ea; [|by intros []]. intros _.
  apply elem_of_map_to_list in Ea.
  vm_compute in Ea. repeat (apply elem_of_cons in Ea as [Ea|Ea]; [injection Ea as -> _; vm_compute; eauto|]).
  by apply elem_of_nil in Ea.
Qed.

Lemma DependencyLevels_spec_witness :
  DependencyLevels id diamond = Ok [["a"]; ["b"; "c"]; ["d"]] ∧ ranked diamond.
Proof.
  pose proof (DependencyLevels_spec id diamond diamond_closed) as Hs.
  assert (Hd : DependencyLevels id diamond = Ok [["a"]; ["b"; "c"]; ["d"]]) by (vm_compute; reflexivity).
  rewrite Hd in Hs. split; [exact Hd|apply Hs].
Defined.

Definition triangle : Graph string unit :=
  AddEdge (AddEdge (AddEdge (foldl AddNode New ["a"; "b"; "c"]) "a" "b" 1 tt) "b" "c" 1 tt) "c" "a" 1 tt.

Example triangle_reported : ∃ c, DependencyLevels id triangle = Err (CycleDetected c) ∧ length c = 3%nat.
Proof. eexists. split; vm_compute; reflexivity. Qed.
End Graph.
