(* ===== verification/RegEntry.v ===== *)
(** * Registry entries and the references they declare

    Entry identifiers ([api/registry/id.go]), entries, operations and changesets
    ([api/registry/registry.go]), the [${...}] grammar of entry values
    ([api/env/placeholder]), and the resolver that extracts dependency references from
    an entry by registered paths ([system/registry/topology/resolver.go]).

    A Go [any] is a value of [value]: a [map[string]any] is the list of its pairs in
    iteration order, and a value of a type that no reader inspects is [VOther]. The
    cached string of an identifier is a field: Go compares it with the others when the
    identifier is a map key. Interning does not change a value.

    The theorems: a rendered template parses back to its segments, identifiers survive
    printing and parsing, and a state kept as a map has the entries of its slice. *)

From S2P Require Import Prelude Bytes GoStrings.

Module Entries.

Definition colon : ascii := ":"%char.
Definition contains (s : string) (c : ascii) : bool := ContainsByte (bytes_of s) c.
Definition has_prefix (s p : string) : bool := HasPrefix (bytes_of s) (bytes_of p).
Definition has_suffix (s p : string) : bool := HasSuffix (bytes_of s) (bytes_of p).
Definition trim_prefix (s p : string) : string := string_of (TrimPrefix (bytes_of s) (bytes_of p)).

(** ** Identifiers *)

Record ID := mkID { NS : string; Name : string; str : string }.

#[export] Instance ID_eq_dec : EqDecision ID.
Proof. solve_decision. Defined.

#[export] Instance ID_countable : Countable ID.
Proof.
  refine (inj_countable' (λ i, (NS i, Name i, str i)) (λ '(a, b, c), mkID a b c) _). by intros [].
Defined.

Definition NewID (ns name : string) : ID := mkID ns name (ns +:+ ":" +:+ name).

Definition parseIDString (s : string) : ID :=
  match IndexByte (bytes_of s) colon with
  | Some i => mkID (string_of (take i (bytes_of s))) (string_of (drop (S i) (bytes_of s))) s
  | None => mkID "" s (":" +:+ s)
  end.

Definition ParseID (s : string) : ID := parseIDString s.

Definition canonicalIDParts (id : ID) : string * string :=
  if bool_decide (NS id = "") && contains (Name id) colon
  then let p := parseIDString (Name id) in (NS p, Name p)
  else (NS id, Name id).

Definition isJoinedID (s ns name : string) : bool := bool_decide (s = ns +:+ ":" +:+ name).

Definition Canonical (t : ID) : ID :=
  let '(ns, name) := canonicalIDParts t in
  if bool_decide (NS t = ns) && bool_decide (Name t = name) && isJoinedID (str t) ns name then t
  else NewID ns name.

Definition idString (t : ID) : string :=
  if bool_decide (str t ≠ "") then str t else NS t +:+ ":" +:+ Name t.

Definition Equal (t other : ID) : bool := bool_decide (canonicalIDParts t = canonicalIDParts other).

Definition WithDefaultNS (t : ID) (defaultNS : string) : ID :=
  if bool_decide (NS t ≠ "") then t else mkID defaultNS (Name t) (defaultNS +:+ ":" +:+ Name t).

(** [fmt.Sprintf("%v")] of an identifier: [String] has a pointer receiver, so the struct
    is printed. *)
Definition showID (t : ID) : string := "{" +:+ NS t +:+ " " +:+ Name t +:+ " " +:+ str t +:+ "}".

(** ** Values, entries and operations *)

Inductive value :=
| VNil
| VStr (s : string)
| VMap (m : list (string * value))
| VList (l : list value)
| VStrs (l : list string)
| VVariable (name : string)
| VVariablePtr (name : option string)
| VOther (tag : string).

(** A lookup in a map of values *)
Fixpoint assoc (k : string) (m : list (string * value)) : option value :=
  match m with
  | [] => None
  | (k', v) :: m => if bool_decide (k' = k) then Some v else assoc k m
  end.

Record Entry := mkEntry {
  Data : option value; Meta : list (string * value); eID : ID; Kind : string; Owner : string; Root : bool
}.

#[export] Instance value_eq_dec : EqDecision value.
Proof.
  refine (fix go a b := let _ : EqDecision value := @go in
    match a, b with
    | VNil, VNil => left _
    | VStr s, VStr t => cast_if (decide (s = t))
    | VMap m, VMap n => cast_if (decide (m = n))
    | VList l, VList k => cast_if (decide (l = k))
    | VStrs l, VStrs k => cast_if (decide (l = k))
    | VVariable s, VVariable t => cast_if (decide (s = t))
    | VVariablePtr s, VVariablePtr t => cast_if (decide (s = t))
    | VOther s, VOther t => cast_if (decide (s = t))
    | _, _ => right _
    end); congruence.
Defined.

#[export] Instance Entry_eq_dec : EqDecision Entry.
Proof. solve_decision. Defined.

Record Operation := mkOp { OriginalEntry : option Entry; oKind : string; oEntry : Entry }.

Definition EntryCreate : string := "entry.create".
Definition EntryUpdate : string := "entry.update".
Definition EntryDelete : string := "entry.delete".
Definition TagDependsOn : string := "depends_on".
Definition TagGroups : string := "groups".

Notation State := (list Entry).
Notation ChangeSet := (list Operation).
Notation StateMap := (gmap ID Entry).

(** [topology/state_map.go] *)
Definition NewStateMap (state : State) : StateMap := foldl (λ m e, <[eID e := e]> m) ∅ state.

(** The order of [StateMapToSlice]: by namespace, then by name *)
Definition entry_le (a b : Entry) : Prop :=
  if bool_decide (NS (eID a) = NS (eID b)) then String.le (Name (eID a)) (Name (eID b))
  else String.le (NS (eID a)) (NS (eID b)).
#[export] Instance entry_le_dec a b : Decision (entry_le a b).
Proof. unfold entry_le. destruct (bool_decide _); apply _. Defined.

Definition StateMapToSlice (sm : StateMap) : State := merge_sort entry_le (map_to_list sm).*2.

(** [attrs.Bag.GetSlice] *)
Definition as_string (v : value) : string := match v with VStr s => s | _ => "" end.

Definition GetSlice (b : list (string * value)) (key : string) : list string :=
  match assoc key b with
  | Some (VStrs s) => s
  | Some (VStr s) => [s]
  | Some (VList arr) => as_string <$> arr
  | _ => []
  end.

(** ** The placeholder grammar *)

Definition dollar : ascii := "$"%char.
Definition obrace : ascii := "{"%char.
Definition cbrace : ascii := "}"%char.
Definition bar : ascii := "|"%char.

Definition in_range (lo hi : Z) (a : ascii) : bool := bool_decide (lo ≤ byte_val a ≤ hi).
Definition is_upper : ascii → bool := in_range 65 90.
Definition is_lower : ascii → bool := in_range 97 122.
Definition is_digit : ascii → bool := in_range 48 57.
Definition is_underscore (a : ascii) : bool := bool_decide (a = "_"%char).

(** [^[A-Za-z_][A-Za-z0-9_.:-]*$] *)
Definition envNameRe (s : list ascii) : bool :=
  match s with
  | [] => false
  | a :: s =>
      (is_upper a || is_lower a || is_underscore a) &&
      forallb (λ b, is_upper b || is_lower b || is_digit b || is_underscore b
                    || bool_decide (b = "."%char) || bool_decide (b = ":"%char) || bool_decide (b = "-"%char)) s
  end.

(** [^[A-Z][A-Z0-9_]*$] *)
Definition shorthandRe (s : list ascii) : bool :=
  match s with
  | [] => false
  | a :: s => is_upper a && forallb (λ b, is_upper b || is_digit b || is_underscore b) s
  end.

Record Segment := mkSeg { Literal : list ascii; SName : list ascii; Default : list ascii; HasDefault : bool; IsRef : bool }.

Definition literal (l : list ascii) : Segment := mkSeg l [] [] false false.

Definition parseBody (inner : list ascii) : option (list ascii * list ascii * bool) :=
  let '(body, def, hasDefault) :=
    match IndexByte inner bar with
    | Some i => (take i inner, drop (S i) inner, true)
    | None => (inner, [], false)
    end in
  if HasPrefix body (bytes_of "env:") then
    let rest := drop 4 body in
    if envNameRe rest then Some (rest, def, hasDefault) else None
  else if hasDefault && shorthandRe body then Some (body, def, hasDefault) else None.

Definition flush (lit : list ascii) : list Segment := if bool_decide (lit = []) then [] else [literal lit].

(** The placeholder at the start of [s], which follows [${]: its segment and the rest. *)
Definition parse_ref (s : list ascii) : option (Segment * list ascii) :=
  match IndexByte s cbrace with
  | Some closing =>
      match parseBody (take closing s) with
      | Some (name, def, hasDefault) => Some (mkSeg [] name def hasDefault true, drop (S closing) s)
      | None => None
      end
  | None => None
  end.

Fixpoint parse_loop (fuel : nat) (s lit : list ascii) : list Segment :=
  match fuel with
  | O => flush lit
  | S fuel =>
      match s with
      | [] => flush lit
      | c :: s1 =>
          let plain := parse_loop fuel s1 (lit ++ [c]) in
          if bool_decide (c = dollar) then
            match s1 with
            | d :: s2 =>
                if bool_decide (d = dollar) && bool_decide (head s2 = Some obrace)
                then parse_loop fuel (drop 1 s2) (lit ++ [dollar; obrace])
                else if bool_decide (d = obrace) then
                  match parse_ref s2 with
                  | Some (seg, rest) => flush lit ++ seg :: parse_loop fuel rest []
                  | None => plain
                  end
                else plain
            | [] => plain
            end
          else plain
      end
  end.

Definition Parse (s : list ascii) : list Segment := parse_loop (S (length s)) s [].

(** Elements in order of first appearance. *)
Fixpoint dedup {A} `{EqDecision A} (seen : list A) (l : list A) : list A :=
  match l with
  | [] => []
  | x :: l => if bool_decide (x ∈ seen) then dedup seen l else x :: dedup (x :: seen) l
  end.

(** [strings.Contains(s, "${")] *)
Fixpoint has_ref_mark (s : list ascii) : bool :=
  match s with
  | a :: ((b :: _) as s) => (bool_decide (a = dollar) && bool_decide (b = obrace)) || has_ref_mark s
  | _ => false
  end.

Definition ExtractNames (s : string) : list string :=
  if negb (has_ref_mark (bytes_of s)) then []
  else dedup [] ((λ seg, string_of (SName seg)) <$> filter (λ seg, IsRef seg = true) (Parse (bytes_of s))).

(** ** The resolver *)

Record PathConfig := mkPath { Path : string; Description : string; segments : list string; AllowWildcard : bool }.

Inductive topology_error := ErrEmptyPatternPath.

Definition RegisterPattern (patterns : list PathConfig) (path description : string) (wild : bool)
    : result topology_error (list PathConfig) :=
  if bool_decide (path = "") then Err ErrEmptyPatternPath
  else Ok (patterns ++ [mkPath path description (string_of <$> Split (bytes_of path) "."%char) wild]).

Definition star : ascii := "*"%char.

Definition resolverMatchPattern (key pattern : string) : bool :=
  let k := bytes_of key in
  let p := bytes_of pattern in
  if negb (ContainsByte p star) then bool_decide (key = pattern) else
  if HasPrefix p [star] && negb (ContainsByte (drop 1 p) star) then HasSuffix k (drop 1 p) else
  if HasSuffix p [star] && negb (ContainsByte (take (length p - 1) p) star) then HasPrefix k (take (length p - 1) p) else
  match IndexByte p star with
  | Some i =>
      let '(prefix, suffix) := (take i p, drop (S i) p) in
      HasPrefix k prefix && HasSuffix k suffix && bool_decide (length prefix + length suffix ≤ length k)%nat
  | None => false
  end.

Definition nonempty (l : list string) : list string := filter (λ s, s ≠ "") l.

(** The strings among some values *)
Definition strings_of (l : list value) : list string := nonempty (as_string <$> l).

Definition resolverProcessLeafValue (v : value) : list string :=
  match v with
  | VStr s => nonempty [s]
  | VList l => strings_of l
  | VStrs l => nonempty l
  | VMap m => strings_of m.*2
  | _ => []
  end.

Fixpoint resolverNavigatePath (segs : list string) (wild : bool) (v : value) : list string :=
  match segs with
  | [] => resolverProcessLeafValue v
  | seg :: segs =>
      if wild && (bool_decide (seg = "*") || contains seg star) then
        match v with
        | VMap m =>
            concat ((λ kv, resolverNavigatePath segs wild kv.2) <$>
                    filter (λ kv, (bool_decide (seg = "*") || resolverMatchPattern kv.1 seg) = true) m)
        | VList l => concat (resolverNavigatePath segs wild <$> l)
        | _ => []
        end
      else
        match v with
        | VMap m => match assoc seg m with Some v => resolverNavigatePath segs wild v | None => [] end
        | _ => []
        end
  end.

Definition resolverExtractFromPath (data : value) (p : PathConfig) : list string :=
  match segments p with [] => [] | segs => resolverNavigatePath segs (AllowWildcard p) data end.

(** The names that [resolverExtractEnvReferences] hands to its callback, in order. *)
Fixpoint resolverExtractEnvReferences (companions : bool) (v : value) : list string :=
  match v with
  | VStr s => ExtractNames s
  | VMap m =>
      (fix go (m : list (string * value)) : list string :=
         match m with
         | [] => []
         | (key, item) :: m =>
             (if companions && has_suffix key "_env" then match item with VStr s => nonempty [s] | _ => [] end else [])
             ++ resolverExtractEnvReferences companions item ++ go m
         end) m
  | VList l =>
      (fix go (l : list value) : list string :=
         match l with [] => [] | item :: l => resolverExtractEnvReferences companions item ++ go l end) l
  | VStrs l => concat (ExtractNames <$> l)
  | _ => []
  end.

(** [sort.Strings] *)
Definition sort_strings (l : list string) : list string := merge_sort String.le l.

Definition is_nil (v : option value) : bool := match v with None | Some VNil => true | _ => false end.

(** The references a pattern path declares, tagged: environment names or registry ids. *)
Definition env_path (p : PathConfig) : bool := has_suffix (Path p) "_env" || bool_decide (Path p = "data.env").

Definition fetchDeps (patterns : list PathConfig) (entry : Entry) (classify : bool) : list string * list string :=
  if bool_decide (Meta entry = []) && is_nil (Data entry) then ([], []) else
  let data := if is_nil (Data entry) then [] else match Data entry with Some d => [("data", d)] | None => [] end in
  let combined := VMap ((if bool_decide (Meta entry = []) then [] else [("meta", VMap (Meta entry))]) ++ data) in
  let found := concat ((λ p, (λ d, (classify && env_path p, d)) <$> resolverExtractFromPath combined p) <$> patterns)
               ++ concat ((λ kv, (λ d, (classify, d)) <$> resolverExtractEnvReferences classify kv.2) <$> data) in
  let pick b := sort_strings (dedup [] (nonempty ((filter (λ x : bool * string, x.1 = b) found).*2))) in
  (pick false, pick true).

(** [Resolver.Extract] *)
Definition Extract (patterns : list PathConfig) (entry : Entry) : list string := (fetchDeps patterns entry false).1.
Definition extractForTopology (patterns : list PathConfig) (entry : Entry) : list string * list string :=
  fetchDeps patterns entry true.

(** [registry.DependencyResolver]: none, the built-in one, or another implementation. *)
Inductive resolver :=
| NoResolver
| BuiltIn (patterns : list PathConfig)
| Custom (extract : Entry → list string).

(** ** State maps *)

(** Entries are stored under their identifiers. *)
Definition keyed (st : StateMap) : Prop := ∀ id e, st !! id = Some e → eID e = id.

Lemma foldl_state state (st : StateMap) :
  foldl (λ m e, <[eID e := e]> m) st state = list_to_map (reverse ((λ e, (eID e, e)) <$> state)) ∪ st.
Proof.
  revert st. induction state as [|e state IH]; intros st; [cbn; by rewrite map_empty_union|].
  cbn [foldl]. rewrite IH, fmap_cons, reverse_cons, list_to_map_app, <- (assoc_L (∪)). f_equal. cbn.
  by rewrite insert_empty, <- insert_union_singleton_l.
Qed.

Lemma NewStateMap_Some state id e :
  NoDup (eID <$> state) → NewStateMap state !! id = Some e ↔ e ∈ state ∧ eID e = id.
Proof.
  intros Hd. unfold NewStateMap. rewrite foldl_state, map_union_empty.
  assert (Hp : reverse ((λ e, (eID e, e)) <$> state) ≡ₚ (λ e, (eID e, e)) <$> state) by apply reverse_Permutation.
  assert (Hd' : NoDup (reverse ((λ e, (eID e, e)) <$> state)).*1).
  { rewrite Hp, <- list_fmap_compose. done. }
  rewrite <- elem_of_list_to_map by done. rewrite Hp, list_elem_of_fmap. naive_solver.
Qed.

Lemma NewStateMap_keyed state : keyed (NewStateMap state).
Proof.
  unfold NewStateMap. assert (keyed ∅) as H0 by (intros ? ? Hl; by rewrite lookup_empty in Hl). revert H0.
  generalize (∅ : StateMap). induction state as [|a state IH]; intros st Hk; cbn; [done|]. apply IH.
  intros id e. rewrite lookup_insert_Some. intros [[<- <-]|[_ He]]; [done|by apply Hk].
Qed.

Lemma elem_of_StateMapToSlice sm e : e ∈ StateMapToSlice sm ↔ ∃ id, sm !! id = Some e.
Proof.
  unfold StateMapToSlice. rewrite (merge_sort_Permutation entry_le), list_elem_of_fmap. split.
  - intros [[id x] [-> Hx%elem_of_map_to_list]]. by exists id.
  - intros [id He]. exists (id, e). by rewrite elem_of_map_to_list.
Qed.

Lemma StateMapToSlice_ids sm : keyed sm → (eID <$> StateMapToSlice sm) ≡ₚ (map_to_list sm).*1.
Proof.
  intros Hk. unfold StateMapToSlice. rewrite (merge_sort_Permutation entry_le), <- list_fmap_compose.
  erewrite list_fmap_ext; [done|]. intros i [id e] Hi%list_elem_of_lookup_2%elem_of_map_to_list. by apply Hk.
Qed.

Lemma StateMapToSlice_NoDup sm : keyed sm → NoDup (eID <$> StateMapToSlice sm).
Proof. intros Hk. rewrite StateMapToSlice_ids by done. apply NoDup_fst_map_to_list. Qed.

(** Listing a state map and reading it back *)
Lemma NewStateMap_Slice sm : keyed sm → NewStateMap (StateMapToSlice sm) = sm.
Proof.
  intros Hk. apply map_eq. intros id. apply option_eq. intros e.
  rewrite NewStateMap_Some by (by apply StateMapToSlice_NoDup). rewrite elem_of_StateMapToSlice. split.
  - intros [[id' He] <-]. by rewrite (Hk id' e He).
  - intros He. split; [by exists id|by apply Hk].
Qed.

(** ** Identifiers *)

(** A canonical identifier whose namespace has no separator: what [ParseID] and
    [NewID] build from well-formed parts. *)
Definition joined (t : ID) : Prop := str t = NS t +:+ ":" +:+ Name t ∧ colon ∉ bytes_of (NS t).
Definition id_ok (t : ID) : Prop := joined t ∧ (NS t = "" → colon ∉ bytes_of (Name t)).

#[export] Instance id_ok_dec t : Decision (id_ok t).
Proof. unfold id_ok, joined. apply _. Defined.

Lemma bytes_of_app a b : bytes_of (a +:+ b) = bytes_of a ++ bytes_of b.
Proof.
  unfold bytes_of. induction a as [|c a IH]; [done|]. change (String c a +:+ b) with (String c (a +:+ b)). cbn. by rewrite IH.
Qed.

Lemma string_of_app a b : string_of (a ++ b) = string_of a +:+ string_of b.
Proof. apply (inj bytes_of). by rewrite bytes_of_app, !bytes_of_string_of. Qed.

Lemma split_unique (a b c d : list ascii) : colon ∉ a → colon ∉ c → a ++ colon :: b = c ++ colon :: d → a = c ∧ b = d.
Proof.
  intros Ha Hc He. assert (Hi : length a = length c).
  { pose proof (IndexByte_app a b colon Ha) as H1. rewrite He, IndexByte_app in H1 by done. congruence. }
  apply app_inj_1 in He as [-> He]; [|done]. by injection He.
Qed.

Lemma joined_inj a b : joined a → joined b → str a = str b → a = b.
Proof.
  intros [Ha Na] [Hb Nb] He. rewrite Ha, Hb in He. apply (f_equal bytes_of) in He. rewrite !bytes_of_app in He.
  apply split_unique in He as [H1%(inj bytes_of) H2%(inj bytes_of)]; [|done..].
  destruct a, b; cbn in *. subst. done.
Qed.

Lemma joined_string t : joined t → idString t = str t.
Proof.
  intros [Hs _]. unfold idString. rewrite bool_decide_eq_true_2; [done|]. rewrite Hs. destruct (NS t); done.
Qed.

Lemma NewID_joined n m : colon ∉ bytes_of n → joined (NewID n m).
Proof. done. Qed.

Lemma ParseID_joined s : contains s colon = true → joined (ParseID s).
Proof.
  unfold contains, ContainsByte, ParseID, parseIDString. rewrite bool_decide_eq_true. intros Hc.
  apply IndexByte_is_Some in Hc as [i Hi]. rewrite Hi. destruct (IndexByte_Some _ _ _ Hi) as [Hs Hn].
  unfold joined. cbn. rewrite bytes_of_string_of. split; [|done].
  rewrite <- (string_of_bytes_of s) at 1. rewrite Hs at 1. rewrite string_of_app. cbn. done.
Qed.

Lemma canonical_parts t : id_ok t → canonicalIDParts t = (NS t, Name t).
Proof.
  intros [_ Hn]. unfold canonicalIDParts, contains, ContainsByte. destruct (bool_decide_reflect (NS t = "")) as [H0|H0]; [|done].
  by rewrite bool_decide_eq_false_2 by auto.
Qed.

Lemma Equal_sym a b : Equal a b = Equal b a.
Proof. unfold Equal. apply bool_decide_ext. split; congruence. Qed.

Lemma Equal_spec a b : id_ok a → id_ok b → Equal a b = true ↔ a = b.
Proof.
  intros Ha Hb. unfold Equal. rewrite bool_decide_eq_true, !canonical_parts by done. split; [|by intros ->].
  intros [= H1 H2]. destruct Ha as [[Ha _] _], Hb as [[Hb _] _]. destruct a, b; cbn in *. by subst.
Qed.

(** Printing an identifier and parsing it back *)
Lemma ParseID_String t : id_ok t → ParseID (idString t) = t.
Proof.
  intros [[Hs Hn] _]. rewrite joined_string by done. unfold ParseID, parseIDString.
  assert (Hb : bytes_of (str t) = bytes_of (NS t) ++ colon :: bytes_of (Name t)) by (rewrite Hs, !bytes_of_app; done).
  rewrite Hb, IndexByte_app by done. rewrite take_sep, drop_sep, !string_of_bytes_of. by destruct t.
Qed.

Lemma Canonical_ok t : id_ok t → Canonical t = t.
Proof.
  intros Ht. unfold Canonical. rewrite canonical_parts by done. destruct Ht as [[Hs _] _]. unfold isJoinedID.
  by rewrite !bool_decide_eq_true_2.
Qed.

(** ** Small facts about reference lists *)

Lemma elem_of_dedup {A} `{EqDecision A} (l seen : list A) x : x ∈ dedup seen l ↔ x ∈ l ∧ x ∉ seen.
Proof.
  revert seen. induction l as [|a l IH]; intros seen; cbn; [set_solver|].
  destruct (bool_decide_reflect (a ∈ seen)); rewrite ?elem_of_cons, IH; [set_solver|].
  destruct (decide (x = a)); set_solver.
Qed.

Lemma NoDup_dedup {A} `{EqDecision A} (l seen : list A) : NoDup (dedup seen l).
Proof.
  revert seen. induction l as [|a l IH]; intros seen; cbn; [constructor|]. destruct (bool_decide _); [done|].
  apply NoDup_cons. split; [|done]. rewrite elem_of_dedup. set_solver.
Qed.

Lemma elem_of_nonempty l s : s ∈ nonempty l ↔ s ∈ l ∧ s ≠ "".
Proof. unfold nonempty. rewrite list_elem_of_filter. tauto. Qed.

(** Recognized references have a name. *)
Lemma parseBody_named inner name def h : parseBody inner = Some (name, def, h) → name ≠ [].
Proof.
  unfold parseBody. destruct (match IndexByte inner bar with Some i => _ | None => _ end) as [[body d] hd].
  destruct (HasPrefix body _).
  - destruct (envNameRe (drop 4 body)) eqn:E; [|done]. intros [= <- _ _] Hn. by rewrite Hn in E.
  - destruct (hd && shorthandRe body) eqn:E; [|done]. intros [= <- _ _] Hn. rewrite Hn in E. by destruct hd.
Qed.

Lemma parse_loop_named fuel s lit seg : seg ∈ parse_loop fuel s lit → IsRef seg = true → SName seg ≠ [].
Proof.
  assert (Hf : ∀ lit, seg ∈ flush lit → IsRef seg = true → SName seg ≠ []).
  { intros l. unfold flush. destruct (bool_decide _); [by intros Hn%elem_of_nil|]. by intros ->%list_elem_of_singleton. }
  revert s lit. induction fuel as [|fuel IH]; intros s lit; cbn; [apply Hf|].
  destruct s as [|c s1]; [apply Hf|]. destruct (bool_decide (c = dollar)); [|apply IH].
  destruct s1 as [|d s2]; [apply IH|]. destruct (_ && _); [apply IH|]. destruct (bool_decide (d = obrace)); [|apply IH].
  unfold parse_ref. destruct (IndexByte s2 cbrace) as [i|]; [|apply IH].
  destruct (parseBody (take i s2)) as [[[name def] h]|] eqn:Ep; [|apply IH].
  intros [Hs|[->|Hs]%elem_of_cons]%elem_of_app; [by eapply Hf| |by eapply IH].
  intros _. by eapply parseBody_named.
Qed.

Lemma ExtractNames_nonempty s : "" ∉ ExtractNames s.
Proof.
  unfold ExtractNames. destruct (negb _); [apply not_elem_of_nil|]. rewrite elem_of_dedup, list_elem_of_fmap.
  intros [(seg & He & [Hr Hs]%list_elem_of_filter) _]. apply (parse_loop_named _ _ _ _ Hs Hr).
  apply (f_equal bytes_of) in He. by rewrite bytes_of_string_of in He.
Qed.

Lemma EnvReferences_nonempty c v : "" ∉ resolverExtractEnvReferences c v.
Proof.
  revert v. fix IH 1. intros [|s|m|l|l| | |]; cbn; try apply not_elem_of_nil.
  - apply ExtractNames_nonempty.
  - revert m. fix IHm 1. intros [|[k i] m]; [apply not_elem_of_nil|]. rewrite !elem_of_app. intros [H1|[H1|H1]].
    + destruct (c && has_suffix k "_env"); [|by apply elem_of_nil in H1]. destruct i; try by apply elem_of_nil in H1.
      destruct (decide (s ≠ "")) as [Hd|_]; [apply list_elem_of_singleton in H1; congruence|by apply elem_of_nil in H1].
    + by apply IH in H1.
    + by apply IHm in H1.
  - revert l. fix IHl 1. intros [|i l]; [apply not_elem_of_nil|]. rewrite elem_of_app. intros [H1|H1]; [by apply IH in H1|by apply IHl in H1].
  - rewrite elem_of_flat. intros (a & _ & Ha). by apply ExtractNames_nonempty in Ha.
Qed.

(** ** The grammar reads what it is given *)

(** A literal with each [${] escaped, and a placeholder in its long form *)
Fixpoint escape (l : list ascii) : list ascii :=
  match l with
  | a :: ((b :: l') as l1) =>
      if bool_decide (a = dollar) && bool_decide (b = obrace) then dollar :: dollar :: obrace :: escape l' else a :: escape l1
  | _ => l
  end.

Definition render_ref (seg : Segment) : list ascii :=
  bytes_of "env:" ++ SName seg ++ (if HasDefault seg then bar :: Default seg else []).

Fixpoint render (segs : list Segment) : list ascii :=
  match segs with
  | [] => []
  | seg :: segs =>
      (if IsRef seg then dollar :: obrace :: render_ref seg ++ [cbrace] else escape (Literal seg)) ++ render segs
  end.

(** What [Parse] can return: literals are not empty, not adjacent, and a literal before a
    placeholder does not end in a dollar sign *)
Definition segment_ok (seg : Segment) : Prop :=
  if IsRef seg then Literal seg = [] ∧ envNameRe (SName seg) = true ∧ cbrace ∉ Default seg ∧ (HasDefault seg = false → Default seg = [])
  else seg = literal (Literal seg) ∧ Literal seg ≠ [].

Fixpoint segments_ok (segs : list Segment) : Prop :=
  match segs with
  | [] => True
  | seg :: segs =>
      segment_ok seg ∧ segments_ok segs ∧
      (IsRef seg = false → match segs with [] => True | next :: _ => IsRef next = true ∧ last (Literal seg) ≠ Some dollar end)
  end.

Lemma parse_ref_shorter s seg rest : parse_ref s = Some (seg, rest) → (length rest < length s)%nat.
Proof.
  unfold parse_ref. destruct (IndexByte s cbrace) as [i|] eqn:Ei; [|done].
  destruct (parseBody _) as [[[n d] h]|]; [|done]. intros [= _ <-]. apply IndexByte_Some in Ei as [He _].
  rewrite He at 2. rewrite length_app. cbn. lia.
Qed.

Lemma parse_fuel n m s lit : (length s < n)%nat → (length s < m)%nat → parse_loop n s lit = parse_loop m s lit.
Proof.
  revert m s lit. induction n as [|n IH]; intros [|m] s lit Hn Hm; try lia. cbn. destruct s as [|c s1]; [done|]. cbn in *.
  destruct (bool_decide (c = dollar)); [|apply IH; lia]. destruct s1 as [|d s2]; [apply IH; cbn in *; lia|]. cbn in *.
  destruct (_ && _); [apply IH; rewrite length_drop; lia|]. destruct (bool_decide (d = obrace)); [|apply IH; cbn; lia].
  destruct (parse_ref s2) as [[seg rest]|] eqn:Er; [|apply IH; cbn; lia]. apply parse_ref_shorter in Er.
  do 2 f_equal. apply IH; lia.
Qed.

(** The scanner at a position, with the literal collected so far *)
Definition scan (s lit : list ascii) : list Segment := parse_loop (S (length s)) s lit.

Lemma scan_cons c s1 lit :
  scan (c :: s1) lit =
  if bool_decide (c = dollar) then
    match s1 with
    | d :: s2 =>
        if bool_decide (d = dollar) && bool_decide (head s2 = Some obrace) then scan (drop 1 s2) (lit ++ [dollar; obrace])
        else if bool_decide (d = obrace) then
          match parse_ref s2 with
          | Some (seg, rest) => flush lit ++ seg :: scan rest []
          | None => scan s1 (lit ++ [c])
          end
        else scan s1 (lit ++ [c])
    | [] => scan s1 (lit ++ [c])
    end
  else scan s1 (lit ++ [c]).
Proof.
  unfold scan at 1. cbn [length]. assert (length s1 < S (length s1))%nat as Hn by lia. remember (S (length s1)) as n. clear Heqn.
  cbn [parse_loop]. assert (∀ l, parse_loop n s1 l = scan s1 l) as Hs by (intros l; apply parse_fuel; lia).
  destruct (bool_decide (c = dollar)); [|done]. destruct s1 as [|d s2]; [done|]. cbn [length] in Hn.
  destruct (_ && _); [apply parse_fuel; rewrite ?length_drop; lia|]. destruct (bool_decide (d = obrace)); [|done].
  destruct (parse_ref s2) as [[seg rest]|] eqn:Er; [|done]. apply parse_ref_shorter in Er. do 2 f_equal. apply parse_fuel; lia.
Qed.

Lemma scan_plain c s lit : c ≠ dollar → scan (c :: s) lit = scan s (lit ++ [c]).
Proof. intros Hc. rewrite scan_cons. by rewrite bool_decide_eq_false_2. Qed.

Lemma scan_escape s lit : scan (dollar :: dollar :: obrace :: s) lit = scan s (lit ++ [dollar; obrace]).
Proof. by rewrite scan_cons. Qed.

Lemma scan_dollar s lit :
  head s ≠ Some obrace → (head s = Some dollar → head (tail s) ≠ Some obrace) →
  scan (dollar :: s) lit = scan s (lit ++ [dollar]).
Proof.
  intros H1 H2. rewrite scan_cons, bool_decide_eq_true_2 by done. destruct s as [|d s]; [done|]. cbn [head tail] in *.
  rewrite (bool_decide_eq_false_2 (d = obrace)) by congruence.
  destruct (bool_decide_reflect (d = dollar)) as [->|]; [|done]. by rewrite (bool_decide_eq_false_2 (head s = _)) by auto.
Qed.

Lemma scan_ref s lit seg rest :
  parse_ref s = Some (seg, rest) → scan (dollar :: obrace :: s) lit = flush lit ++ seg :: scan rest [].
Proof. intros Hr. rewrite scan_cons. rewrite Hr. done. Qed.

Lemma escape_cons a b l :
  escape (a :: b :: l) = if bool_decide (a = dollar) && bool_decide (b = obrace) then dollar :: dollar :: obrace :: escape l else a :: escape (b :: l).
Proof. done. Qed.

(** An escaped text never starts with [${], nor with the rest of an escape. *)
Lemma escape_head l rest :
  l ≠ [] → (last l = Some dollar → rest = []) → head (escape l ++ rest) = head l ∧
  (head l = Some dollar → head (tail (escape l ++ rest)) ≠ Some obrace).
Proof.
  destruct l as [|a [|b l]]; [done|cbn; intros _ Hr; split; [done|]; intros [= ->]; by rewrite Hr|].
  intros _ _. rewrite escape_cons. destruct (bool_decide_reflect (a = dollar)) as [->|Ha]; cbn [andb].
  - destruct (bool_decide_reflect (b = obrace)) as [->|Hb]; [done|]. split; [done|]. intros _.
    destruct l as [|c l]; cbn; [congruence|]. destruct (_ && _) eqn:E; cbn; [|congruence]. done.
  - split; [done|]. cbn. congruence.
Qed.

Lemma scan_literal l rest lit :
  (last l = Some dollar → rest = []) → scan (escape l ++ rest) lit = scan rest (lit ++ l).
Proof.
  remember (length l) as n eqn:Hn. revert l lit Hn. induction (lt_wf n) as [n _ IH]. intros l lit -> Hl.
  destruct l as [|a [|b l]]; [by rewrite app_nil_r| |].
  - cbn [escape app]. destruct (decide (a = dollar)) as [->|Ha]; [|by apply scan_plain]. rewrite Hl by done. by apply scan_dollar.
  - rewrite escape_cons. destruct (bool_decide_reflect (a = dollar)) as [->|Ha]; cbn [andb].
    2:{ cbn [app]. rewrite scan_plain by done. rewrite (IH (length (b :: l))) by (done || cbn; lia). by rewrite <- app_assoc. }
    destruct (bool_decide_reflect (b = obrace)) as [->|Hb].
    + cbn [app]. rewrite scan_escape. rewrite (IH (length l)); [by rewrite <- app_assoc|cbn; lia|done|].
      destruct l; [done|]. exact Hl.
    + cbn [app]. destruct (escape_head (b :: l) rest) as [H1 H2]; [done|exact Hl|].
      rewrite scan_dollar; [|rewrite H1; cbn; congruence|rewrite H1; exact H2].
      rewrite (IH (length (b :: l))) by (done || cbn; lia). by rewrite <- app_assoc.
Qed.

Lemma drop_past {A} (l k : list A) x : drop (S (length l)) (l ++ x :: k) = k.
Proof. induction l as [|a l IH]; [done|exact IH]. Qed.

Lemma envName_chars s c : envNameRe s = true → c ∈ s → c ≠ bar ∧ c ≠ cbrace.
Proof.
  destruct s as [|a s]; [done|]. cbn. intros [Ha Hs]%andb_prop Hc.
  assert (forall b, (is_upper b || is_lower b || is_digit b || is_underscore b || bool_decide (b = "."%char)
    || bool_decide (b = ":"%char) || bool_decide (b = "-"%char)) = true → b ≠ bar ∧ b ≠ cbrace) as Hb.
  { intros b Hb. by split; intros ->; vm_compute in Hb. }
  apply elem_of_cons in Hc as [->|Hc]; apply Hb.
  - rewrite !orb_true_iff in *. tauto.
  - rewrite forallb_forall in Hs. apply Hs. by apply list_elem_of_In.
Qed.

Lemma parseBody_render seg :
  IsRef seg = true → segment_ok seg → parseBody (render_ref seg) = Some (SName seg, Default seg, HasDefault seg).
Proof.
  intros Hr. unfold segment_ok. rewrite Hr. intros (_ & Hn & _ & Hd). unfold parseBody, render_ref.
  assert (bar ∉ bytes_of "env:" ++ SName seg) as Hbar.
  { rewrite not_elem_of_app. split; [vm_compute; set_solver|]. intros Hb. by apply (envName_chars _ _ Hn) in Hb as [? _]. }
  destruct (HasDefault seg).
  - rewrite app_assoc, IndexByte_app by done. rewrite take_app_length, drop_past.
    rewrite HasPrefix_app. change (drop 4 (bytes_of "env:" ++ SName seg)) with (SName seg). by rewrite Hn.
  - rewrite app_nil_r, IndexByte_None by done. rewrite HasPrefix_app.
    change (drop 4 (bytes_of "env:" ++ SName seg)) with (SName seg). by rewrite Hn, Hd.
Qed.

Lemma parse_ref_render seg rest :
  IsRef seg = true → segment_ok seg → parse_ref (render_ref seg ++ cbrace :: rest) = Some (seg, rest).
Proof.
  intros Hr Hok. unfold parse_ref. assert (cbrace ∉ render_ref seg) as Hc.
  { pose proof Hok as Hok'. unfold segment_ok in Hok'. rewrite Hr in Hok'. destruct Hok' as (_ & Hn & Hd & _). unfold render_ref.
    rewrite !not_elem_of_app. split_and!; [vm_compute; set_solver|intros Hb; by apply (envName_chars _ _ Hn) in Hb as [_ ?]|].
    destruct (HasDefault seg); [|apply not_elem_of_nil]. rewrite not_elem_of_cons. done. }
  rewrite IndexByte_app, take_app_length, drop_past, parseBody_render by done. do 2 f_equal.
  unfold segment_ok in Hok. rewrite Hr in Hok. destruct seg, Hok as (Hl & _). cbn in *. congruence.
Qed.

(** Reading a rendered template gives the template back: literal text in which every
    [${] is escaped as [$${] comes back as it was, and every placeholder with its name and
    its default. A literal cannot end in a dollar sign directly before a placeholder. *)
Theorem Parse_render segs : segments_ok segs → Parse (render segs) = segs.
Proof.
  change (Parse (render segs)) with (scan (render segs) []). induction segs as [|seg segs IH]; [done|].
  cbn [segments_ok render]. intros (Hok & Hrest & Hnext). specialize (IH Hrest). destruct (IsRef seg) eqn:Er.
  - cbn [app]. rewrite <- app_assoc. cbn [app]. rewrite (scan_ref _ _ seg (render segs)) by (by apply parse_ref_render).
    by rewrite IH.
  - unfold segment_ok in Hok. rewrite Er in Hok. destruct Hok as [Hs Hl]. specialize (Hnext eq_refl).
    rewrite scan_literal by (intros Hd; destruct segs as [|next segs]; [done|]; by destruct Hnext).
    assert (flush (Literal seg) = [seg]) as Hf by (unfold flush; rewrite bool_decide_eq_false_2 by done; by rewrite <- Hs).
    cbn [app]. destruct segs as [|next segs]; [exact Hf|]. destruct Hnext as [Hn _]. cbn [segments_ok] in Hrest.
    destruct Hrest as [Hno _]. cbn [render] in *. rewrite Hn in *. cbn [app] in *. rewrite <- app_assoc in *. cbn [app] in *.
    pose proof (parse_ref_render next (render segs) Hn Hno) as Hp. rewrite (scan_ref _ _ _ _ Hp) in IH.
    rewrite (scan_ref _ _ _ _ Hp), Hf. cbn [app]. f_equal. exact IH.
Qed.

(** [url: $${x} ${env:DB|pg}] *)
Definition demo_segments : list Segment :=
  [literal (bytes_of "url: ${x} "); mkSeg [] (bytes_of "DB") (bytes_of "pg") true true].

Lemma Parse_render_witness :
  Parse (render demo_segments) = demo_segments ∧ string_of (render demo_segments) = "url: $${x} ${env:DB|pg}".
Proof.
  split; [|vm_compute; reflexivity]. apply Parse_render. unfold demo_segments. cbn [segments_ok].
  split_and!; try done; vm_compute; set_solver.
Defined.
End Entries.
