(* ===== verification/RegDeps.v ===== *)
(** * Dependencies between registry entries

    The resolved dependency view of a state ([topology/dependencies.go],
    [topology/environment.go], the parsing half of [topology/sort.go]) and the inverse
    index that the registry maintains incrementally ([topology/dep_index.go]).

    An entry depends on another directly, through a group, through a namespace, or
    through an environment reference, which a variable of that name satisfies and which
    otherwise falls back to one of the first three. Go maps of sets are [gmap]s of
    [gset]s; a map that the code allocates lazily is empty. The [seen] marks of the
    visitor are the set of targets already visited for the current source.

    The theorems: the index built from a state stays exact under every valid changeset,
    and its [Dependents] are exactly the entries whose resolved dependencies contain the
    given entry. *)

From S2P Require Import Prelude Bytes GoStrings RegEntry.

Module Deps.
Import Entries.

(** ** Dependency syntax *)

Definition groupPrefix : string := "group:".
Definition nsPrefix : string := "ns:".

Inductive dep_type := Direct | Group | Namespace.

Definition parseDependency (dep : string) : dep_type * string :=
  if has_prefix dep groupPrefix then (Group, trim_prefix dep groupPrefix) else
  if has_prefix dep nsPrefix then (Namespace, trim_prefix dep nsPrefix) else (Direct, dep).

Definition resolveDependencyID (sourceNS depStr : string) : ID :=
  if contains depStr colon then ParseID depStr else NewID sourceNS depStr.

(** ** Environment variables *)

Definition data_name (d : value) : string :=
  match d with
  | VMap m => match assoc "variable" m with Some (VStr s) => s | _ => "" end
  | VVariable name => name
  | VVariablePtr (Some name) => name
  | _ => ""
  end.

Definition envVariableName (entry : Entry) : string :=
  if bool_decide (Kind entry ≠ "env.variable") then "" else
  let name := match Data entry with Some d => data_name d | None => "" end in
  if bool_decide (name ≠ "") then name else idString (eID entry).

Definition environmentFallbackKey (namespace name : string) : string :=
  match parseDependency name with
  | (Group, value) => groupPrefix +:+ value
  | (Namespace, value) => nsPrefix +:+ value
  | (Direct, value) => "id:" +:+ idString (resolveDependencyID namespace value)
  end.

(** ** Declared keys *)

Record entryDepKeys := mkKeys { direct : list ID; groups : list string; ns : list string; env : list string }.

Definition add_declaration (id : ID) (keys : entryDepKeys) (dep : string) : entryDepKeys :=
  match parseDependency dep with
  | (Direct, value) =>
      let target := resolveDependencyID (NS id) value in
      if Equal target id then keys else mkKeys (direct keys ++ [target]) (groups keys) (ns keys) (env keys)
  | (Group, value) => mkKeys (direct keys) (groups keys ++ [value]) (ns keys) (env keys)
  | (Namespace, value) => mkKeys (direct keys) (groups keys) (ns keys ++ [value]) (env keys)
  end.

Definition extractDepKeys (entry : Entry) (r : resolver) : entryDepKeys :=
  let declared := GetSlice (Meta entry) TagDependsOn in
  let '(references, environment) :=
    match r with
    | BuiltIn patterns => extractForTopology patterns entry
    | _ =>
        (match r with Custom extract => extract entry | _ => [] end,
         match Data entry with Some d => dedup [] (resolverExtractEnvReferences true d) | None => [] end)
    end in
  foldl (add_declaration (eID entry)) (mkKeys [] [] [] environment) (declared ++ references).

Definition no_keys (k : entryDepKeys) : bool :=
  bool_decide (length (direct k) + length (groups k) + length (ns k) + length (env k) = 0)%nat.

Definition dependencyKeys (state : StateMap) (r : resolver) : gmap ID entryDepKeys :=
  omap (λ e, let keys := extractDepKeys e r in if no_keys keys then None else Some keys) state.

(** ** The visitor *)

(** The identifiers of the entries that satisfy [p], in iteration order: the groups,
    namespaces and variables that the visitor indexes are read through it. *)
Definition ids_where (state : StateMap) (p : ID → Entry → bool) : list ID :=
  (filter (λ ie, p ie.1 ie.2 = true) (map_to_list state)).*1.

Definition in_group (g : string) (_ : ID) (e : Entry) : bool := bool_decide (g ∈ GetSlice (Meta e) TagGroups).
Definition in_namespace (n : string) (id : ID) (_ : Entry) : bool := bool_decide (NS id ≠ "") && bool_decide (NS id = n).
Definition declares (name : string) (_ : ID) (e : Entry) : bool :=
  bool_decide (envVariableName e ≠ "") && bool_decide (envVariableName e = name).

(** The providers of a variable: an index of the caller, or the state's variables. *)
Definition providers (state : StateMap) (variables : option (gmap string (list ID))) (name : string) : list ID :=
  match variables with
  | Some m => default [] (m !! name)
  | None => ids_where state (declares name)
  end.

(** What a parsed reference names, with repetitions. *)
Definition named (state : StateMap) (source : ID) (ref : dep_type * string) : list ID :=
  match ref with
  | (Group, value) => ids_where state (in_group value)
  | (Namespace, value) => ids_where state (in_namespace value)
  | (Direct, value) => [resolveDependencyID (NS source) value]
  end.

Definition env_targets (state : StateMap) (variables : option (gmap string (list ID))) (source : ID) (name : string)
    : list ID :=
  match providers state variables name with
  | [] => named state source (parseDependency name)
  | targets => targets
  end.

(** The candidate targets of a source, in visiting order. *)
Definition candidates (state : StateMap) (variables : option (gmap string (list ID))) (source : ID) (keys : entryDepKeys)
    : list ID :=
  concat (env_targets state variables source <$> env keys) ++ direct keys
  ++ concat ((λ g, ids_where state (in_group g)) <$> groups keys)
  ++ concat ((λ n, ids_where state (in_namespace n)) <$> ns keys).

(** The targets that [add] lets through: other than the source, present, and not seen. *)
Definition targets (state : StateMap) (variables : option (gmap string (list ID))) (source : ID) (keys : entryDepKeys)
    : list ID :=
  dedup [] (filter (λ t, Equal t source = false ∧ is_Some (state !! t)) (candidates state variables source keys)).

(** [visitDependencyKeys] with a visitor that can stop with an error. *)
Fixpoint visit_pairs {A Err} (visit : ID → ID → A → Err + A) (l : list (ID * ID)) (a : A) : Err + A :=
  match l with
  | [] => inr a
  | (s, t) :: l => match visit s t a with inl e => inl e | inr a => visit_pairs visit l a end
  end.

Definition pairs (state : StateMap) (variables : option (gmap string (list ID))) (keys : gmap ID entryDepKeys)
    : list (ID * ID) :=
  concat ((λ sk, (λ t, (sk.1, t)) <$> targets state variables sk.1 sk.2) <$> map_to_list keys).

Definition visitDependencyKeys {A Err} (state : StateMap) (keys : gmap ID entryDepKeys)
    (variables : option (gmap string (list ID))) (visit : ID → ID → A → Err + A) (a : A) : Err + A :=
  visit_pairs visit (pairs state variables keys) a.

Definition VisitDependencies {A Err} (state : StateMap) (r : resolver) (visit : ID → ID → A → Err + A) (a : A) : Err + A :=
  visitDependencyKeys state (dependencyKeys state r) None visit a.

(** [sort.Slice] by the printed identifier *)
Definition id_le (a b : ID) : Prop := String.le (idString a) (idString b).
#[export] Instance id_le_dec a b : Decision (id_le a b).
Proof. unfold id_le. apply _. Defined.
Definition sort_ids (l : list ID) : list ID := merge_sort id_le l.

(** The visitor of [ResolveDependencies] and [dependencyUniverse] *)
Definition collect (s t : ID) (m : gmap ID (list ID)) : Empty_set + gmap ID (list ID) :=
  inr (<[s := default [] (m !! s) ++ [t]]> m).

Definition collected (r : Empty_set + gmap ID (list ID)) : gmap ID (list ID) :=
  match r with inr m => sort_ids <$> m | inl e => match e with end end.

Definition ResolveDependencies (state : StateMap) (r : resolver) : gmap ID (list ID) :=
  collected (VisitDependencies state r collect ∅).

(** ** The inverse index *)

Record DepIndex := mkIndex {
  xdirect : gmap ID (gset ID); xgroup : gmap string (gset ID); xns : gmap string (gset ID); xenv : gmap string (gset ID);
  xfallback : gmap string (gset ID); variables : gmap ID string; variableNames : gmap string (gset ID);
  ownDeps : gmap ID entryDepKeys
}.

Definition NewDepIndex : DepIndex := mkIndex ∅ ∅ ∅ ∅ ∅ ∅ ∅ ∅.

Section setmap.
Context {K : Type} `{Countable K}.

(** [addIDToSetMap], [addIDToStringMap] *)
Definition addID (m : gmap K (gset ID)) (key : K) (v : ID) : gmap K (gset ID) :=
  <[key := {[v]} ∪ default ∅ (m !! key)]> m.

(** [delIDFromSetMap], [delIDFromStringMap] *)
Definition delID (m : gmap K (gset ID)) (key : K) (v : ID) : gmap K (gset ID) :=
  match m !! key with
  | None => m
  | Some set => let set := set ∖ {[v]} in if bool_decide (set = ∅) then delete key m else <[key := set]> m
  end.
End setmap.

Definition add (d : DepIndex) (entry : Entry) (r : resolver) : DepIndex :=
  let keys := extractDepKeys entry r in
  let id := eID entry in
  let name := envVariableName entry in
  mkIndex (foldl (λ m k, addID m k id) (xdirect d) (direct keys))
          (foldl (λ m k, addID m k id) (xgroup d) (groups keys))
          (foldl (λ m k, addID m k id) (xns d) (ns keys))
          (foldl (λ m k, addID m k id) (xenv d) (env keys))
          (foldl (λ m k, addID m (environmentFallbackKey (NS id) k) id) (xfallback d) (env keys))
          (if bool_decide (name ≠ "") then <[id := name]> (variables d) else variables d)
          (if bool_decide (name ≠ "") then addID (variableNames d) name id else variableNames d)
          (<[id := keys]> (ownDeps d)).

Definition remove (d : DepIndex) (id : ID) : DepIndex :=
  match ownDeps d !! id with
  | None => d
  | Some keys =>
      mkIndex (foldl (λ m k, delID m k id) (xdirect d) (direct keys))
              (foldl (λ m k, delID m k id) (xgroup d) (groups keys))
              (foldl (λ m k, delID m k id) (xns d) (ns keys))
              (foldl (λ m k, delID m k id) (xenv d) (env keys))
              (foldl (λ m k, delID m (environmentFallbackKey (NS id) k) id) (xfallback d) (env keys))
              (delete id (variables d))
              (match variables d !! id with Some name => delID (variableNames d) name id | None => variableNames d end)
              (delete id (ownDeps d))
  end.

Definition BuildDepIndex (state : State) (r : resolver) : DepIndex := foldl (λ d e, add d e r) NewDepIndex state.

Definition OnCreate (d : DepIndex) (entry : Entry) (r : resolver) : DepIndex := add d entry r.
Definition OnUpdate (d : DepIndex) (prev next : Entry) (r : resolver) : DepIndex := add (remove d (eID prev)) next r.
Definition OnDelete (d : DepIndex) (entry : Entry) : DepIndex := remove d (eID entry).

Definition patch_op (r : resolver) (d : DepIndex) (op : Operation) : DepIndex :=
  if bool_decide (oKind op = EntryCreate) then OnCreate d (oEntry op) r else
  if bool_decide (oKind op = EntryUpdate) then
    match OriginalEntry op with
    | Some prev => OnUpdate d prev (oEntry op) r
    | None => add (remove d (eID (oEntry op))) (oEntry op) r
    end else
  if bool_decide (oKind op = EntryDelete) then OnDelete d (oEntry op) else d.

Definition Patch (d : DepIndex) (changeSet : ChangeSet) (r : resolver) : DepIndex := foldl (patch_op r) d changeSet.

(** [environmentFallbackDependents] *)
Definition fallback_dependents (d : DepIndex) (key : string) (target : ID) : gset ID :=
  filter (λ id, Equal id target = false ∧
    Exists (λ name, default ∅ (variableNames d !! name) = ∅ ∧ environmentFallbackKey (NS id) name = key)
           (default [] (env <$> ownDeps d !! id)))
    (default ∅ (xfallback d !! key)).

Definition others (target : ID) (s : option (gset ID)) : gset ID := filter (λ id, Equal id target = false) (default ∅ s).

Definition Dependents (d : DepIndex) (entry : Entry) (acc : gset ID) : gset ID :=
  let id := eID entry in
  let fallback key := if bool_decide (xfallback d ≠ ∅) then fallback_dependents d key id else ∅ in
  acc ∪ others id (xenv d !! envVariableName entry) ∪ fallback ("id:" +:+ idString id) ∪ others id (xdirect d !! id)
  ∪ ⋃ ((λ g, fallback (groupPrefix +:+ g) ∪ others id (xgroup d !! g)) <$> GetSlice (Meta entry) TagGroups)
  ∪ (if bool_decide (NS id ≠ "") then fallback (nsPrefix +:+ NS id) ∪ others id (xns d !! NS id) else ∅).

(** The index's own visitor: declarations of the index, replaced for changed entries. *)
Definition candidate_keys (d : DepIndex) (state : StateMap) (changes : ChangeSet) (r : resolver) : gmap ID entryDepKeys :=
  foldl (λ keys op, match state !! eID (oEntry op) with
                    | Some entry => <[eID entry := extractDepKeys entry r]> keys
                    | None => delete (eID (oEntry op)) keys
                    end)
        (filter (λ ik, is_Some (state !! ik.1)) (ownDeps d)) changes.

Definition IndexVisitDependencies {A Err} (d : DepIndex) (state : StateMap) (changes : ChangeSet) (r : resolver)
    (visit : ID → ID → A → Err + A) (a : A) : Err + A :=
  visitDependencyKeys state (candidate_keys d state changes r) None visit a.

(** [environmentVariablesForChanges] *)
Definition referenced (keys : gmap ID entryDepKeys) : gset string :=
  list_to_set (concat ((λ ik : ID * entryDepKeys, env ik.2) <$> map_to_list keys)).

Definition environmentVariablesForChanges (from : State) (changes : ChangeSet) (index : option DepIndex)
    (keys : gmap ID entryDepKeys) : option (gmap string (list ID)) :=
  let names := referenced keys in
  if bool_decide (names = ∅) then None else
  let byID0 : gmap ID string :=
    match index with
    | Some d => foldl (λ m name, set_fold (λ id m, <[id := name]> m) m (default ∅ (variableNames d !! name))) ∅ (elements names)
    | None => foldl (λ m e, let name := envVariableName e in
                            if bool_decide (name ≠ "") && bool_decide (name ∈ names) then <[eID e := name]> m else m) ∅ from
    end in
  let byID1 := foldl (λ m op, if bool_decide (oKind op = EntryDelete) then delete (eID (oEntry op)) m else m) byID0 changes in
  let byID2 := foldl (λ m op, if bool_decide (oKind op = EntryDelete) then m else
                              let name := envVariableName (oEntry op) in
                              if bool_decide (name ∈ names) then <[eID (oEntry op) := name]> m
                              else delete (eID (oEntry op)) m) byID1 changes in
  Some (foldl (λ m ie, <[ie.2 := default [] (m !! ie.2) ++ [ie.1]]> m) (gset_to_gmap [] names) (map_to_list byID2)).

(** ** Tables of sets

    [indexes f m st]: the table [m] maps each key to the entries of [st] that have it. *)

Section tables.
Context {K : Type} `{Countable K}.
Implicit Types (m : gmap K (gset ID)) (st : StateMap) (f : ID → Entry → list K).

Definition at_key (m : gmap K (gset ID)) (k : K) : gset ID := default ∅ (m !! k).

Definition indexes (f : ID → Entry → list K) (m : gmap K (gset ID)) (st : StateMap) : Prop :=
  ∀ k id, id ∈ at_key m k ↔ ∃ e, st !! id = Some e ∧ k ∈ f id e.

Lemma at_key_addID m k v k' : at_key (addID m k v) k' = if bool_decide (k' = k) then {[v]} ∪ at_key m k' else at_key m k'.
Proof.
  unfold at_key, addID. destruct (bool_decide_reflect (k' = k)) as [->|Hk]; [by rewrite lookup_insert_eq|].
  by rewrite lookup_insert_ne.
Qed.

Lemma at_key_delID m k v k' : at_key (delID m k v) k' = if bool_decide (k' = k) then at_key m k' ∖ {[v]} else at_key m k'.
Proof.
  unfold at_key, delID. destruct (m !! k) as [s|] eqn:Em.
  - destruct (bool_decide_reflect (s ∖ {[v]} = ∅)) as [Hs|Hs]; destruct (bool_decide_reflect (k' = k)) as [->|Hk].
    + rewrite lookup_delete_eq, Em. cbn. by rewrite Hs.
    + by rewrite lookup_delete_ne.
    + by rewrite lookup_insert_eq, Em.
    + by rewrite lookup_insert_ne.
  - destruct (bool_decide_reflect (k' = k)) as [->|Hk]; [|done]. rewrite Em. cbn. set_solver.
Qed.

Lemma at_key_add_all l m v k : at_key (foldl (λ m k, addID m k v) m l) k = if bool_decide (k ∈ l) then {[v]} ∪ at_key m k else at_key m k.
Proof.
  revert m. induction l as [|a l IH]; intros m; [done|]. cbn. rewrite IH, at_key_addID.
  destruct (bool_decide_reflect (k ∈ l)), (bool_decide_reflect (k = a)), (bool_decide_reflect (k ∈ a :: l)); set_solver.
Qed.

Lemma at_key_del_all l m v k : at_key (foldl (λ m k, delID m k v) m l) k = if bool_decide (k ∈ l) then at_key m k ∖ {[v]} else at_key m k.
Proof.
  revert m. induction l as [|a l IH]; intros m; [done|]. cbn. rewrite IH, at_key_delID.
  destruct (bool_decide_reflect (k ∈ l)), (bool_decide_reflect (k = a)), (bool_decide_reflect (k ∈ a :: l)); set_solver.
Qed.

Lemma indexes_add f m st id e :
  st !! id = None → indexes f m st → indexes f (foldl (λ m k, addID m k id) m (f id e)) (<[id := e]> st).
Proof.
  intros Hn Hi k x. rewrite at_key_add_all. destruct (decide (x = id)) as [->|Hx].
  - rewrite lookup_insert_eq. specialize (Hi k id). rewrite Hn in Hi.
    destruct (bool_decide_reflect (k ∈ f id e)); [set_solver|]. rewrite Hi. naive_solver.
  - rewrite lookup_insert_ne by done. rewrite <- (Hi k x). destruct (bool_decide _); set_solver.
Qed.

Lemma indexes_del f m st id e :
  st !! id = Some e → indexes f m st → indexes f (foldl (λ m k, delID m k id) m (f id e)) (delete id st).
Proof.
  intros He Hi k x. rewrite at_key_del_all. destruct (decide (x = id)) as [->|Hx].
  - rewrite lookup_delete_eq. specialize (Hi k id). rewrite He in Hi.
    destruct (bool_decide_reflect (k ∈ f id e)) as [Hk|Hk]; [set_solver|]. rewrite Hi. naive_solver.
  - rewrite lookup_delete_ne by done. rewrite <- (Hi k x). destruct (bool_decide _); set_solver.
Qed.

Lemma indexes_empty f : indexes f ∅ ∅.
Proof. intros k id. unfold at_key. rewrite lookup_empty. cbn. rewrite lookup_empty. set_solver. Qed.
End tables.

(** ** The index of a state *)

Section index.
Variable r : resolver.

Definition keys_of (e : Entry) : entryDepKeys := extractDepKeys e r.

Definition own_name (_ : ID) (e : Entry) : list string :=
  if bool_decide (envVariableName e ≠ "") then [envVariableName e] else [].

Record index_of (d : DepIndex) (st : StateMap) : Prop := {
  ix_own : ownDeps d = keys_of <$> st;
  ix_variables : variables d = omap (λ e, head (own_name (eID e) e)) st;
  ix_direct : indexes (λ _ e, direct (keys_of e)) (xdirect d) st;
  ix_group : indexes (λ _ e, groups (keys_of e)) (xgroup d) st;
  ix_ns : indexes (λ _ e, ns (keys_of e)) (xns d) st;
  ix_env : indexes (λ _ e, env (keys_of e)) (xenv d) st;
  ix_fallback : indexes (λ id e, environmentFallbackKey (NS id) <$> env (keys_of e)) (xfallback d) st;
  ix_names : indexes own_name (variableNames d) st
}.

Lemma new_index : index_of NewDepIndex ∅.
Proof. split; cbn; try apply indexes_empty; [by rewrite fmap_empty|by rewrite omap_empty]. Qed.

Lemma add_index d st e :
  index_of d st → st !! eID e = None → index_of (add d e r) (<[eID e := e]> st).
Proof.
  intros [I1 I2 I3 I4 I5 I6 I7 I8] Hn. split; cbn [add ownDeps variables xdirect xgroup xns xenv xfallback variableNames].
  - rewrite fmap_insert, I1. done.
  - rewrite I2. unfold own_name. case_bool; cbn.
    + rewrite (omap_insert_Some _ _ _ _ (envVariableName e)); [done|]. by rewrite bool_decide_eq_true_2.
    + rewrite omap_insert_None, delete_id; [done|..]; [by rewrite lookup_omap, Hn|by rewrite bool_decide_eq_false_2].
  - by apply (indexes_add (λ _ e, direct (keys_of e))).
  - by apply (indexes_add (λ _ e, groups (keys_of e))).
  - by apply (indexes_add (λ _ e, ns (keys_of e))).
  - by apply (indexes_add (λ _ e, env (keys_of e))).
  - rewrite (foldl_fmap (λ m k, addID m k (eID e)) (environmentFallbackKey (NS (eID e)))).
    by apply (indexes_add (λ id e, environmentFallbackKey (NS id) <$> env (keys_of e))).
  - pose proof (indexes_add own_name _ _ _ e Hn I8) as Hi. unfold own_name in Hi at 2. by destruct (bool_decide _).
Qed.

Lemma remove_index d st id e :
  index_of d st → keyed st → st !! id = Some e → index_of (remove d id) (delete id st).
Proof.
  intros [I1 I2 I3 I4 I5 I6 I7 I8] Hk He. unfold remove. rewrite I1, lookup_fmap, He. cbn [fmap option_fmap option_map].
  pose proof (Hk id e He) as Hid.
  split; cbn [ownDeps variables xdirect xgroup xns xenv xfallback variableNames].
  - by rewrite fmap_delete.
  - by rewrite I2, omap_delete.
  - by apply (indexes_del (λ _ e, direct (keys_of e))).
  - by apply (indexes_del (λ _ e, groups (keys_of e))).
  - by apply (indexes_del (λ _ e, ns (keys_of e))).
  - by apply (indexes_del (λ _ e, env (keys_of e))).
  - rewrite (foldl_fmap (λ m k, delID m k id) (environmentFallbackKey (NS id))).
    by apply (indexes_del (λ id e, environmentFallbackKey (NS id) <$> env (keys_of e))).
  - pose proof (indexes_del own_name _ _ _ e He I8) as Hi. rewrite I2, lookup_omap, He. cbn.
    unfold own_name in *. by destruct (bool_decide _).
Qed.

Lemma build_index state st d :
  index_of d st → NoDup (eID <$> state) → (∀ e, e ∈ state → st !! eID e = None) →
  index_of (foldl (λ d e, add d e r) d state) (foldl (λ m e, <[eID e := e]> m) st state).
Proof.
  revert st d. induction state as [|e state IH]; intros st d Hd Hn Hs; cbn; [done|].
  apply NoDup_cons in Hn as [He Hn]. apply IH; [|done|].
  - apply add_index; [done|]. apply Hs. by left.
  - intros x Hx. rewrite lookup_insert_ne; [apply Hs; by right|]. intros Hq. apply He. rewrite Hq. by apply list_elem_of_fmap_2.
Qed.

Lemma BuildDepIndex_index state : NoDup (eID <$> state) → index_of (BuildDepIndex state r) (NewStateMap state).
Proof. intros Hn. apply build_index; [apply new_index|done|]. intros e _. apply lookup_empty. Qed.

(** ** The resolved view *)

Lemma elem_of_ids_where st p id : id ∈ ids_where st p ↔ ∃ e, st !! id = Some e ∧ p id e = true.
Proof.
  unfold ids_where. rewrite list_elem_of_fmap. split.
  - intros [[k e] [-> [Hp He%elem_of_map_to_list]%list_elem_of_filter]]. by exists e.
  - intros (e & He & Hp). exists (id, e). split; [done|]. apply list_elem_of_filter. by rewrite elem_of_map_to_list.
Qed.

Lemma visit_collect l m s t :
  ∃ m', visit_pairs collect l m = inr m' ∧ (t ∈ default [] (m' !! s) ↔ t ∈ default [] (m !! s) ∨ (s, t) ∈ l).
Proof.
  revert m. induction l as [|[a b] l IH]; intros m; cbn; [exists m; split; [done|set_solver]|].
  destruct (IH (<[a := default [] (m !! a) ++ [b]]> m)) as (m' & -> & Hm). exists m'. split; [done|]. rewrite Hm.
  destruct (decide (a = s)) as [->|Hne].
  - rewrite lookup_insert_eq. cbn. set_solver.
  - rewrite lookup_insert_ne by done. set_solver.
Qed.

Lemma elem_of_collected st vars keys s t :
  t ∈ default [] (collected (visitDependencyKeys st keys vars collect ∅) !! s) ↔
  ∃ k, keys !! s = Some k ∧ t ∈ targets st vars s k.
Proof.
  unfold visitDependencyKeys. destruct (visit_collect (pairs st vars keys) ∅ s t) as (m & -> & Hm). cbn.
  rewrite lookup_fmap. assert (Hs : t ∈ default [] (sort_ids <$> m !! s) ↔ t ∈ default [] (m !! s)).
  { destruct (m !! s); [|done]. cbn. unfold sort_ids. by rewrite (merge_sort_Permutation id_le). }
  rewrite Hs, Hm, lookup_empty. cbn. unfold pairs. rewrite elem_of_flat. split.
  - intros [H0%elem_of_nil|([s' k] & Hk%elem_of_map_to_list & (t' & [= -> ->] & Ht)%list_elem_of_fmap)]; [done|].
    by exists k.
  - intros (k & Hk & Ht). right. exists (s, k). split; [by apply elem_of_map_to_list|].
    apply list_elem_of_fmap. by exists t.
Qed.

Lemma elem_of_targets st vars s k t :
  t ∈ targets st vars s k ↔ t ∈ candidates st vars s k ∧ Equal t s = false ∧ is_Some (st !! t).
Proof. unfold targets. rewrite elem_of_dedup, list_elem_of_filter. set_solver. Qed.

Lemma no_keys_candidates st vars s k : no_keys k = true → candidates st vars s k = [].
Proof.
  unfold no_keys, candidates. rewrite bool_decide_eq_true. intros Hz.
  assert (length (direct k) = 0 ∧ length (groups k) = 0 ∧ length (ns k) = 0 ∧ length (env k) = 0)%nat as (H1 & H2 & H3 & H4) by lia.
  apply length_zero_iff_nil in H1, H2, H3, H4. by rewrite H1, H2, H3, H4.
Qed.

(** The dependencies of an entry in the resolved view. *)
Lemma elem_of_ResolveDependencies st s t :
  t ∈ default [] (ResolveDependencies st r !! s) ↔
  ∃ e, st !! s = Some e ∧ t ∈ candidates st None s (keys_of e) ∧ Equal t s = false ∧ is_Some (st !! t).
Proof.
  unfold ResolveDependencies, VisitDependencies. rewrite elem_of_collected. unfold dependencyKeys. split.
  - intros (k & Hk & Ht). apply lookup_omap_Some in Hk as (e & Hk & He). exists e. split; [done|].
    destruct (no_keys (extractDepKeys e r)); [done|]. injection Hk as <-. by apply elem_of_targets.
  - intros (e & He & Ht). exists (keys_of e). split; [|by apply elem_of_targets].
    apply lookup_omap_Some. exists e. split; [|done]. unfold keys_of in *.
    destruct (no_keys (extractDepKeys e r)) eqn:Ek; [|done].
    destruct Ht as [Ht _]. rewrite no_keys_candidates in Ht by done. by apply elem_of_nil in Ht.
Qed.

(** ** Environment names *)

Lemma dedup_nonempty l : "" ∉ dedup [] (nonempty l).
Proof. rewrite elem_of_dedup, elem_of_nonempty. tauto. Qed.

Lemma add_declarations_env id l k : env (foldl (add_declaration id) k l) = env k.
Proof.
  revert k. induction l as [|d l IH]; intros k; cbn; [done|]. rewrite IH. unfold add_declaration.
  destruct (parseDependency d) as [[] v]; cbn; [by destruct (Equal _ _)|done..].
Qed.

Lemma env_nonempty e : "" ∉ env (keys_of e).
Proof.
  unfold keys_of, extractDepKeys. destruct r as [|patterns|extract]; cbn.
  - rewrite add_declarations_env. cbn. destruct (Data e) as [d|]; [|apply not_elem_of_nil].
    rewrite elem_of_dedup. intros [H1 _]. by apply EnvReferences_nonempty in H1.
  - unfold extractForTopology, fetchDeps. destruct (_ && _); rewrite add_declarations_env; [apply not_elem_of_nil|].
    unfold sort_strings. cbn [env]. rewrite (merge_sort_Permutation String.le). apply dedup_nonempty.
  - rewrite add_declarations_env. cbn. destruct (Data e) as [d|]; [|apply not_elem_of_nil].
    rewrite elem_of_dedup. intros [H1 _]. by apply EnvReferences_nonempty in H1.
Qed.

(** ** Fallback keys identify what they name *)

Definition dep_key (source : ID) (ref : dep_type * string) : string :=
  match ref with
  | (Group, value) => groupPrefix +:+ value
  | (Namespace, value) => nsPrefix +:+ value
  | (Direct, value) => "id:" +:+ idString (resolveDependencyID (NS source) value)
  end.

Lemma append_inj a b c : a +:+ b = a +:+ c → b = c.
Proof. intros He. apply (f_equal bytes_of) in He. rewrite !bytes_of_app in He. by apply app_inv_head, (inj bytes_of) in He. Qed.

Lemma resolve_joined n dep : colon ∉ bytes_of n → joined (resolveDependencyID n dep).
Proof.
  intros Hn. unfold resolveDependencyID. destruct (contains dep colon) eqn:Hc; [by apply ParseID_joined|by apply NewID_joined].
Qed.

(** The identifiers of a state that the registry accepted. *)
Definition ids_ok (st : StateMap) : Prop := keyed st ∧ ∀ id, is_Some (st !! id) → id_ok id.

Lemma key_id n dep t : colon ∉ bytes_of n → id_ok t → "id:" +:+ idString (resolveDependencyID n dep) = "id:" +:+ idString t ↔ resolveDependencyID n dep = t.
Proof.
  intros Hn [Ht _]. split; [|by intros ->]. intros He%append_inj. pose proof (resolve_joined n dep Hn) as Hj.
  rewrite !joined_string in He by done. by apply joined_inj.
Qed.

Lemma key_neq_group (a b : string) : "id:" +:+ a ≠ groupPrefix +:+ b.
Proof. done. Qed.
Lemma key_neq_ns (a b : string) : "id:" +:+ a ≠ nsPrefix +:+ b.
Proof. done. Qed.
Lemma group_neq_ns (a b : string) : groupPrefix +:+ a ≠ nsPrefix +:+ b.
Proof. done. Qed.

Lemma providers_names d st name : index_of d st → at_key (variableNames d) name = ∅ ↔ providers st None name = [].
Proof.
  intros Hi. assert (Hp : ∀ id, id ∈ providers st None name ↔ id ∈ at_key (variableNames d) name).
  { intros id. cbn. rewrite (ix_names _ _ Hi name id), elem_of_ids_where. unfold declares, own_name.
    split; intros (e & He & Hn); exists e; (split; [done|]).
    - destruct (bool_decide (envVariableName e ≠ "")); [|done]. apply bool_decide_eq_true in Hn as <-. by left.
    - destruct (bool_decide (envVariableName e ≠ "")); [|by apply elem_of_nil in Hn].
      apply list_elem_of_singleton in Hn as ->. by apply bool_decide_eq_true. }
  split.
  - intros He. destruct (providers st None name) as [|id l]; [done|]. exfalso.
    assert (id ∈ at_key (variableNames d) name) as Hin by (apply Hp; by left). rewrite He in Hin. set_solver.
  - intros He. apply set_eq. intros id. rewrite <- Hp, He. set_solver.
Qed.

(** The sources whose reference [name] falls back to [key]. *)
Definition falls_back (st : StateMap) (id : ID) (key : string) : Prop :=
  ∃ e name, st !! id = Some e ∧ name ∈ env (keys_of e) ∧ providers st None name = [] ∧ dep_key id (parseDependency name) = key.

Lemma fallback_spec d st key t id :
  index_of d st →
  id ∈ (if bool_decide (xfallback d ≠ ∅) then fallback_dependents d key t else ∅) ↔
  Equal id t = false ∧ falls_back st id key.
Proof.
  intros Hi. transitivity (id ∈ fallback_dependents d key t).
  { destruct (bool_decide_reflect (xfallback d ≠ ∅)) as [Hx|Hx]; [done|]. apply dec_stable in Hx.
    unfold fallback_dependents. rewrite Hx, lookup_empty. set_solver. }
  unfold fallback_dependents. rewrite elem_of_filter, Exists_exists, (ix_own _ _ Hi), lookup_fmap.
  fold (at_key (xfallback d) key). rewrite (ix_fallback _ _ Hi key id). unfold falls_back. split.
  - intros [[Hn (name & Hin & Hv & Hk)] (e & He & _)]. rewrite He in Hin. split; [done|]. exists e, name.
    split_and!; [done|done| |exact Hk]. by apply (providers_names d).
  - intros [Hn (e & name & He & Hin & Hv & Hk)]. rewrite He. split; [split; [done|]|].
    + exists name. split; [done|]. split; [by apply (providers_names d st name Hi)|exact Hk].
    + exists e. split; [done|]. apply list_elem_of_fmap. by exists name.
Qed.

Lemma others_spec {K} `{Countable K} (f : ID → Entry → list K) m st k t id :
  indexes f m st → id ∈ others t (m !! k) ↔ Equal id t = false ∧ ∃ e, st !! id = Some e ∧ k ∈ f id e.
Proof. intros Hi. unfold others. rewrite elem_of_filter. fold (at_key m k). by rewrite (Hi k id). Qed.

(** Who depends on [e], read off the declarations. *)
Definition depends_on (st : StateMap) (id : ID) (e : Entry) : Prop :=
  (∃ s, st !! id = Some s ∧ envVariableName e ∈ env (keys_of s)) ∨
  falls_back st id ("id:" +:+ idString (eID e)) ∨
  (∃ s, st !! id = Some s ∧ eID e ∈ direct (keys_of s)) ∨
  (∃ g, g ∈ GetSlice (Meta e) TagGroups ∧ (falls_back st id (groupPrefix +:+ g) ∨ ∃ s, st !! id = Some s ∧ g ∈ groups (keys_of s))) ∨
  (NS (eID e) ≠ "" ∧ (falls_back st id (nsPrefix +:+ NS (eID e)) ∨ ∃ s, st !! id = Some s ∧ NS (eID e) ∈ ns (keys_of s))).

Lemma elem_of_Dependents d st e acc id :
  index_of d st → id ∈ Dependents d e acc ↔ id ∈ acc ∨ (Equal id (eID e) = false ∧ depends_on st id e).
Proof.
  intros Hi. unfold Dependents, depends_on. rewrite !elem_of_union, elem_of_union_list.
  rewrite (fallback_spec d st) by done.
  rewrite (others_spec (λ _ e, env (keys_of e)) _ st) by apply Hi.
  rewrite (others_spec (λ _ e, direct (keys_of e)) _ st) by apply Hi.
  assert (Hg : (∃ X, X ∈ ((λ g, (if bool_decide (xfallback d ≠ ∅) then fallback_dependents d (groupPrefix +:+ g) (eID e) else ∅)
                               ∪ others (eID e) (xgroup d !! g)) <$> GetSlice (Meta e) TagGroups) ∧ id ∈ X) ↔
    Equal id (eID e) = false ∧ ∃ g, g ∈ GetSlice (Meta e) TagGroups ∧
      (falls_back st id (groupPrefix +:+ g) ∨ ∃ s, st !! id = Some s ∧ g ∈ groups (keys_of s))).
  { setoid_rewrite list_elem_of_fmap. split.
    - intros (X & (g & -> & Hg) & Hx). rewrite elem_of_union, (fallback_spec d st), (others_spec (λ _ e, groups (keys_of e)) _ st) in Hx by (done || apply Hi).
      naive_solver.
    - intros (Hn & g & Hg & Hx). eexists. split; [by exists g|].
      rewrite elem_of_union, (fallback_spec d st), (others_spec (λ _ e, groups (keys_of e)) _ st) by (done || apply Hi). naive_solver. }
  rewrite Hg. destruct (bool_decide_reflect (NS (eID e) ≠ "")) as [Hs|Hs].
  - rewrite elem_of_union, (fallback_spec d st), (others_spec (λ _ e, ns (keys_of e)) _ st) by (done || apply Hi). tauto.
  - rewrite elem_of_empty. tauto.
Qed.

(** The targets a reference names, seen from a present target. *)
Definition names_entry (source : ID) (ref : dep_type * string) (e : Entry) : Prop :=
  match ref with
  | (Group, value) => value ∈ GetSlice (Meta e) TagGroups
  | (Namespace, value) => NS (eID e) ≠ "" ∧ NS (eID e) = value
  | (Direct, value) => resolveDependencyID (NS source) value = eID e
  end.

Lemma elem_of_named st source ref e : st !! eID e = Some e → eID e ∈ named st source ref ↔ names_entry source ref e.
Proof.
  intros He. destruct ref as [[] v]; cbn.
  - rewrite list_elem_of_singleton. split; congruence.
  - rewrite elem_of_ids_where. unfold in_group. split.
    + intros (e' & He' & Hg). rewrite He in He'. injection He' as <-. by apply bool_decide_eq_true in Hg.
    + intros Hg. exists e. split; [done|]. by apply bool_decide_eq_true.
  - rewrite elem_of_ids_where. unfold in_namespace. split.
    + intros (e' & _ & Hg). by rewrite andb_true_iff, !bool_decide_eq_true in Hg.
    + intros Hg. exists e. split; [done|]. by rewrite andb_true_iff, !bool_decide_eq_true.
Qed.

Lemma elem_of_providers st e name :
  st !! eID e = Some e → eID e ∈ providers st None name ↔ envVariableName e ≠ "" ∧ envVariableName e = name.
Proof.
  intros He. cbn. rewrite elem_of_ids_where. unfold declares. split.
  - intros (e' & He' & Hn). rewrite He in He'. injection He' as <-. by rewrite andb_true_iff, !bool_decide_eq_true in Hn.
  - intros Hn. exists e. split; [done|]. by rewrite andb_true_iff, !bool_decide_eq_true.
Qed.

Lemma elem_of_env_targets st source e name :
  st !! eID e = Some e →
  eID e ∈ env_targets st None source name ↔
  (envVariableName e ≠ "" ∧ envVariableName e = name) ∨
  (providers st None name = [] ∧ names_entry source (parseDependency name) e).
Proof.
  intros He. pose proof (elem_of_providers st e name He) as Hp. pose proof (elem_of_named st source (parseDependency name) e He) as Hn.
  unfold env_targets. destruct (providers st None name) as [|p ps]; [rewrite Hn|rewrite Hp].
  - split; [tauto|]. intros [Hv%Hp|[_ Hv]]; [by apply elem_of_nil in Hv|done].
  - naive_solver.
Qed.

(** A fallback key names the entry exactly when the reference does. *)
Lemma key_names source e ref :
  colon ∉ bytes_of (NS source) → id_ok (eID e) →
  names_entry source ref e ↔
  dep_key source ref = "id:" +:+ idString (eID e) ∨
  (∃ g, g ∈ GetSlice (Meta e) TagGroups ∧ dep_key source ref = groupPrefix +:+ g) ∨
  (NS (eID e) ≠ "" ∧ dep_key source ref = nsPrefix +:+ NS (eID e)).
Proof.
  intros Hn Hok. destruct ref as [[] v]; cbn.
  - rewrite key_id by done. split; [by left|]. intros [?|[(g & _ & Hk)|[_ Hk]]]; [done| |].
    + by apply key_neq_group in Hk.
    + by apply key_neq_ns in Hk.
  - split; [intros Hg; right; left; by exists v|]. intros [Hk|[(g & Hg & Hk)|[_ Hk]]].
    + symmetry in Hk. by apply key_neq_group in Hk.
    + apply append_inj in Hk. by subst.
    + by apply group_neq_ns in Hk.
  - split; [intros [Hs <-]; right; right; done|]. intros [Hk|[(g & Hg & Hk)|[Hs Hk]]].
    + symmetry in Hk. by apply key_neq_ns in Hk.
    + symmetry in Hk. by apply group_neq_ns in Hk.
    + apply append_inj in Hk. by subst.
Qed.

Lemma elem_of_candidates st s source e :
  st !! eID e = Some e →
  eID e ∈ candidates st None source (keys_of s) ↔
  (∃ name, name ∈ env (keys_of s) ∧ ((envVariableName e ≠ "" ∧ envVariableName e = name) ∨
     (providers st None name = [] ∧ names_entry source (parseDependency name) e))) ∨
  eID e ∈ direct (keys_of s) ∨
  (∃ g, g ∈ groups (keys_of s) ∧ g ∈ GetSlice (Meta e) TagGroups) ∨
  (NS (eID e) ≠ "" ∧ NS (eID e) ∈ ns (keys_of s)).
Proof.
  intros He. unfold candidates. rewrite !elem_of_app, !elem_of_flat.
  setoid_rewrite (λ name, elem_of_env_targets st source e name He).
  setoid_rewrite (λ g, elem_of_named st source (Group, g) e He : eID e ∈ ids_where st (in_group g) ↔ _).
  setoid_rewrite (λ n, elem_of_named st source (Namespace, n) e He : eID e ∈ ids_where st (in_namespace n) ↔ _).
  cbn. naive_solver.
Qed.

Lemma depends_on_present st id e : depends_on st id e → is_Some (st !! id).
Proof. unfold depends_on, falls_back. naive_solver. Qed.

Lemma depends_on_candidates st id s e :
  st !! id = Some s → st !! eID e = Some e → colon ∉ bytes_of (NS id) → id_ok (eID e) →
  depends_on st id e ↔ eID e ∈ candidates st None id (keys_of s).
Proof.
  intros Hs He Hn Hok. rewrite elem_of_candidates by done. unfold depends_on.
  assert (Hfb : ∀ key, falls_back st id key ↔ ∃ name, name ∈ env (keys_of s) ∧ providers st None name = [] ∧ dep_key id (parseDependency name) = key).
  { intros key. unfold falls_back. rewrite Hs. naive_solver. }
  assert (Hsome : ∀ P : Entry → Prop, (∃ x, st !! id = Some x ∧ P x) ↔ P s) by (intros P; rewrite Hs; naive_solver).
  rewrite (Hsome (λ x, envVariableName e ∈ env (keys_of x))), (Hsome (λ x, eID e ∈ direct (keys_of x))),
    (Hsome (λ x, NS (eID e) ∈ ns (keys_of x))).
  setoid_rewrite (λ g, Hsome (λ x, g ∈ groups (keys_of x))). setoid_rewrite Hfb. clear Hfb Hsome.
  setoid_rewrite (λ name, key_names id e (parseDependency name) Hn Hok). split.
  - intros [H1|[(n & H1)|[H1|[(g & Hg & [(n & H1)|H1])|(H0 & [(n & H1)|H1])]]]].
    + left. exists (envVariableName e). split; [done|]. left. split; [|done]. intros Hz. rewrite Hz in H1. by apply env_nonempty in H1.
    + left. exists n. tauto.
    + tauto.
    + left. exists n. split; [tauto|]. right. split; [tauto|]. right. left. exists g. tauto.
    + right. right. left. exists g. tauto.
    + left. exists n. tauto.
    + tauto.
  - intros [(n & H1 & [[_ <-]|(H2 & [H3|[(g & Hg & H3)|H3]])])|[H1|[(g & H1 & H2)|H1]]].
    + by left.
    + right. left. exists n. tauto.
    + right. right. right. left. exists g. split; [done|]. left. exists n. tauto.
    + right. right. right. right. split; [tauto|]. left. exists n. tauto.
    + tauto.
    + right. right. right. left. exists g. tauto.
    + tauto.
Qed.

(** The inverse index answers "who depends on this entry" exactly as the resolved
    dependency view: for an index of a state whose identifiers are canonical, and an entry
    of that state, [Dependents] adds precisely the entries whose resolved dependencies
    contain it, through direct references, groups, namespaces, environment variables and
    the fallbacks of undeclared variables alike. *)
Theorem Dependents_inverse d st e acc id :
  index_of d st → ids_ok st → st !! eID e = Some e →
  id ∈ Dependents d e acc ↔ id ∈ acc ∨ eID e ∈ default [] (ResolveDependencies st r !! id).
Proof.
  intros Hi [Hkeyed Hids] He. rewrite (elem_of_Dependents d st), elem_of_ResolveDependencies by done.
  apply or_iff_compat_l. rewrite (Equal_sym id). pose proof (Hids (eID e) ltac:(by eauto)) as Hok. split.
  - intros [Hne Hd]. destruct (depends_on_present _ _ _ Hd) as [s Hs]. exists s.
    destruct (Hids id ltac:(by eauto)) as [[_ Hn] _]. rewrite (depends_on_candidates st id s) in Hd by done. eauto.
  - intros (s & Hs & Hc & Hne & _). destruct (Hids id ltac:(by eauto)) as [[_ Hn] _].
    by rewrite (depends_on_candidates st id s).
Qed.
End index.

(** ** A small registry *)

(** A variable, a service that reads it, a worker of the group the service waits for. *)
Definition db_url : Entry := mkEntry (Some (VMap [("variable", VStr "DB")])) [] (NewID "app" "db_url") "env.variable" "" false.
Definition svc : Entry :=
  mkEntry (Some (VMap [("url", VStr "${env:DB}")])) [(TagDependsOn, VStrs ["group:workers"])] (NewID "app" "svc") "service" "" false.
Definition worker : Entry := mkEntry None [(TagGroups, VStr "workers")] (NewID "jobs" "worker") "process" "" false.
Definition demo_state : list Entry := [db_url; svc; worker].

Lemma NoDup_demo : NoDup (eID <$> demo_state).
Proof. apply (bool_decide_unpack (NoDup _)). vm_compute. exact I. Qed.

Lemma demo_ids_ok : ids_ok (NewStateMap demo_state).
Proof.
  split; [apply NewStateMap_keyed|]. intros id [e He]. apply NewStateMap_Some in He as [He <-]; [|apply NoDup_demo].
  assert (Forall (λ e, id_ok (eID e)) demo_state) as Hf by (apply (bool_decide_unpack (Forall _ _)); vm_compute; exact I).
  rewrite Forall_forall in Hf. by apply Hf.
Qed.

Lemma Dependents_inverse_witness :
  eID svc ∈ Dependents (BuildDepIndex demo_state NoResolver) db_url ∅ ∧
  eID svc ∈ Dependents (BuildDepIndex demo_state NoResolver) worker ∅ ∧
  eID worker ∉ Dependents (BuildDepIndex demo_state NoResolver) svc ∅.
Proof.
  pose proof (BuildDepIndex_index NoResolver demo_state NoDup_demo) as Hi.
  split; [|split].
  - apply (Dependents_inverse NoResolver _ (NewStateMap demo_state) db_url ∅ (eID svc) Hi demo_ids_ok eq_refl).
    right. vm_compute. left.
  - apply (Dependents_inverse NoResolver _ (NewStateMap demo_state) worker ∅ (eID svc) Hi demo_ids_ok eq_refl).
    right. vm_compute. right. left.
  - intros H. apply (Dependents_inverse NoResolver _ (NewStateMap demo_state) svc ∅ (eID worker) Hi demo_ids_ok eq_refl) in H.
    destruct H as [H|H]; [set_solver|]. vm_compute in H. inversion H.
Defined.
End Deps.
