(* ===== verification/RegOrder.v ===== *)
(** * Ordering a changeset ([topology/sort_changeset.go], [topology/sort.go])

    [SortChangeSet] orders the operations of a changeset so that an entry is created
    after what it depends on and deleted only after its dependents were updated or
    deleted. The constraints are pairs of positions in the normalized changeset;
    [stableTopologicalOrder] is Kahn's algorithm that always takes the smallest ready
    position. When the constraints are cyclic the code rejects impossible replacements
    and otherwise falls back to ordering creations before deletions.

    The index maps that the code builds ([opIndexesByID] and the like) are read as lists
    of positions. Logging is not modelled.

    The theorems: the topological order is complete and respects every constraint
    exactly when the constraints can be ranked; a sorted changeset is a rearrangement of
    its input in which every required precedence holds; and it does not depend on the
    order of the input. *)

From S2P Require Import Prelude Bytes GoStrings Graph RegEntry RegDeps.

Module Order.
Import Entries Deps.

(** ** The stable topological order *)

Notation constraints := (gmap nat (gset nat)).

Definition addConstraint (c : constraints) (ba : nat * nat) : constraints :=
  let '(before, after) := ba in
  if bool_decide (before = after) then c else <[before := {[after]} ∪ default ∅ (c !! before)]> c.

Definition indegree0 (count : nat) (c : constraints) : list Z :=
  foldl (λ deg ba, foldl (λ deg a, alter (λ z, z + 1) a deg) deg (elements (ba.2 : gset nat)))
        (replicate count 0) (map_to_list c).

(** [sort.Ints] *)
Definition dependents (c : constraints) (b : nat) : list nat := merge_sort (≤)%nat (elements (default ∅ (c !! b))).

(** [sort.SearchInts] finds the first value that is not smaller. *)
Fixpoint appendSortedInt (values : list nat) (value : nat) : list nat :=
  match values with
  | [] => [value]
  | v :: values => if bool_decide (v < value)%nat then v :: appendSortedInt values value else value :: v :: values
  end.

Definition release (s : list nat * list Z) (dependent : nat) : list nat * list Z :=
  let '(ready, deg) := s in
  let deg := alter (λ z, z - 1) dependent deg in
  if bool_decide (deg !! dependent = Some 0) then (appendSortedInt ready dependent, deg) else (ready, deg).

Fixpoint topo_loop (fuel : nat) (c : constraints) (ready : list nat) (deg : list Z) (order : list nat) : list nat :=
  match fuel with
  | O => order
  | S fuel =>
      match ready with
      | [] => order
      | i :: ready =>
          let '(ready, deg) := foldl release (ready, deg) (dependents c i) in
          topo_loop fuel c ready deg (order ++ [i])
      end
  end.

Definition ready0 (count : nat) (deg : list Z) : list nat := filter (λ i, deg !! i = Some 0) (seq 0 count).

Definition stableTopologicalOrder (count : nat) (c : constraints) : list nat * bool :=
  let deg := indegree0 count c in
  let order := topo_loop (S count) c (ready0 count deg) deg [] in
  (order, bool_decide (length order = count)).

(** [hasConstraintPath]: the set of visited positions is shared by the whole search. *)
Fixpoint any_path (f : nat → gset nat → bool * gset nat) (l : list nat) (seen : gset nat) : bool * gset nat :=
  match l with
  | [] => (false, seen)
  | n :: l => let '(found, seen) := f n seen in if found then (true, seen) else any_path f l seen
  end.

Fixpoint path_search (fuel : nat) (c : constraints) (target from : nat) (seen : gset nat) : bool * gset nat :=
  match fuel with
  | O => (false, seen)
  | S fuel =>
      if bool_decide (from = target) then (true, seen) else
      if bool_decide (from ∈ seen) then (false, seen) else
      any_path (path_search fuel c target) (elements (default ∅ (c !! from))) ({[from]} ∪ seen)
  end.

Definition hasConstraintPath (count : nat) (c : constraints) (from target : nat) : bool :=
  (path_search (S (S count)) c target from ∅).1.

(** ** Ordering entries ([topology/sort.go]) *)

Section builder.
Variable r : resolver.

Definition dep_graph (entries : State) : Graph.Graph ID unit :=
  let g := foldl (λ g e, Graph.AddNode g (eID e)) Graph.New entries in
  foldl (λ g sd, foldl (λ g t, Graph.AddEdge g t sd.1 1 tt) g sd.2) g (map_to_list (ResolveDependencies (NewStateMap entries) r)).

(** [sort.Slice] by the printed identifier *)
Definition by_id (l : State) : State := stable_sort (λ a b, id_le (eID a) (eID b)) l.

(** The entries of a level, in the order of their printed identifiers *)
Definition level_entries (m : StateMap) (level : list ID) : State := omap (λ n, m !! n) (sort_ids level).

Definition SortEntriesByDependency (entries : State) : State * option (Graph.graph_error ID) :=
  if bool_decide (length entries = 0)%nat then ([], None) else
  match Graph.DependencyLevels showID (dep_graph entries) with
  | Err e => (by_id entries, Some e)
  | Ok levels => (concat (level_entries (NewStateMap entries) <$> Graph.AllLevels levels), None)
  end.

Definition LevelSortEntriesByDependency (entries : State) : list State * option (Graph.graph_error ID) :=
  if bool_decide (length entries = 0)%nat then ([], None) else
  match Graph.DependencyLevels showID (dep_graph entries) with
  | Err e => ([by_id entries], Some e)
  | Ok levels =>
      (filter (λ l, 0 < length l)%nat (level_entries (NewStateMap entries) <$> Graph.AllLevels levels), None)
  end.

Definition CreateChangeSetFromEntries (entries : State) : result (Graph.graph_error ID) ChangeSet :=
  match SortEntriesByDependency entries with
  | (_, Some e) => Err e
  | (sorted, None) => Ok (mkOp None EntryCreate <$> sorted)
  end.

Definition sortEntriesWithFallback (entries : State) : State :=
  match SortEntriesByDependency entries with
  | (_, Some _) => by_id entries
  | (sorted, None) => sorted
  end.

(** ** Ordering operations *)

Definition is_delete (op : Operation) : bool := bool_decide (oKind op = EntryDelete).
Definition is_create (op : Operation) : bool := bool_decide (oKind op = EntryCreate).
Definition mutates (op : Operation) : bool := bool_decide (oKind op = EntryUpdate) || bool_decide (oKind op = EntryDelete).
Definition opID (op : Operation) : ID := eID (oEntry op).

(** The order of [sortChangeSetInputForStableOrder]: namespace, name, kind *)
Definition op_le (a b : Operation) : Prop :=
  if bool_decide (NS (opID a) = NS (opID b)) then
    if bool_decide (Name (opID a) = Name (opID b)) then String.le (oKind a) (oKind b)
    else String.le (Name (opID a)) (Name (opID b))
  else String.le (NS (opID a)) (NS (opID b)).
#[local] Instance op_le_dec a b : Decision (op_le a b).
Proof. unfold op_le. repeat destruct (bool_decide _); apply _. Defined.

Definition sortChangeSetInputForStableOrder (changeSet : ChangeSet) : ChangeSet := stable_sort op_le changeSet.

Definition hasDeleteOp (changeSet : ChangeSet) : bool := existsb is_delete changeSet.

(** The positions of the operations that satisfy [p] *)
Definition positions (cs : ChangeSet) (p : Operation → bool) : list nat :=
  filter (λ i, p <$> cs !! i = Some true) (seq 0 (length cs)).

Definition op_indexes (cs : ChangeSet) (id : ID) : list nat := positions cs (λ op, bool_decide (opID op = id)).
Definition delete_indexes (cs : ChangeSet) (id : ID) : list nat := positions cs (λ op, bool_decide (opID op = id) && is_delete op).
Definition write_indexes (cs : ChangeSet) (id : ID) : list nat := positions cs (λ op, bool_decide (opID op = id) && negb (is_delete op)).
Definition create_indexes (cs : ChangeSet) (id : ID) : list nat := positions cs (λ op, bool_decide (opID op = id) && is_create op).
Definition delete_ids (cs : ChangeSet) : list ID := dedup [] (opID <$> filter (λ op, is_delete op = true) cs).

Definition dependencyUniverse (from : State) (changes : ChangeSet) (index : option DepIndex) : gmap ID (list ID) :=
  let entries := oEntry <$> filter (λ op, is_delete op = false) changes in
  if bool_decide (length entries = 0)%nat then ∅ else
  let state := NewStateMap entries in
  let keys := dependencyKeys state r in
  let variables := environmentVariablesForChanges from changes index keys in
  collected (visitDependencyKeys state keys variables collect ∅).

(** Same-ID replacement: the old entry is deleted before the new one is created. *)
Definition replacement_pairs (cs : ChangeSet) : list (nat * nat) :=
  id ← delete_ids cs; d ← delete_indexes cs id; c ← create_indexes cs id; [(d, c)].

(** Dependencies are created or updated before their dependents. *)
Definition target_pairs (cs : ChangeSet) (universe : gmap ID (list ID)) : list (nat * nat) :=
  i ← positions cs (λ op, negb (is_delete op));
  dep ← default [] (cs !! i ≫= λ op, universe !! opID op); d ← write_indexes cs dep; [(d, i)].

(** The live dependents of a deleted entry *)
Definition live_dependents (from : State) (index : option DepIndex) (id : ID) : list ID :=
  match index, NewStateMap from !! id with
  | Some d, Some entry => elements (Dependents d entry ∅)
  | _, _ => []
  end.

Definition mutation_indexes (cs : ChangeSet) (id : ID) : list nat := positions cs (λ op, bool_decide (opID op = id) && mutates op).

(** Live dependents are updated or deleted before a dependency is deleted. *)
Definition source_pairs (cs : ChangeSet) (from : State) (index : option DepIndex) : list (nat * nat) :=
  id ← delete_ids cs; dep ← live_dependents from index id; m ← mutation_indexes cs dep; d ← delete_indexes cs id; [(m, d)].

(** Replacements of entries with a live dependent that the changeset does not touch *)
Definition blockedReplacementIDs (cs : ChangeSet) (from : State) (index : option DepIndex) : list ID :=
  filter (λ id, create_indexes cs id ≠ [] ∧ Exists (λ dep, mutation_indexes cs dep = []) (live_dependents from index id))
         (delete_ids cs).

Definition unsatisfiableReplacementCycleIDs (cs : ChangeSet) (c : constraints) : list ID :=
  filter (λ id, Exists (λ cr, Exists (λ d, hasConstraintPath (length cs) c cr d = true) (delete_indexes cs id)) (create_indexes cs id))
         (delete_ids cs).

Inductive sort_error := ReplacementDependencyCycle (ids : list ID).

(** The operations of the sorted entries: the first operation with each identifier *)
Definition ops_of (ops : list Operation) (entries : State) : list Operation :=
  omap (λ e, snd <$> list_find (λ op, Equal (opID op) (eID e) = true) ops) entries.

Definition sortCreateUpdateOperations (ops : list Operation) : list Operation :=
  ops_of ops (sortEntriesWithFallback (oEntry <$> ops)).

Definition sortDeleteOperations (from : State) (ops : list Operation) : list Operation :=
  let m := NewStateMap from in
  ops_of ops (reverse (sortEntriesWithFallback ((λ op, default (oEntry op) (m !! opID op)) <$> ops))).

Definition fallbackSortChangeSet (from : State) (cs : ChangeSet) : ChangeSet :=
  sortCreateUpdateOperations (filter (λ op, is_delete op = false) cs)
  ++ sortDeleteOperations from (filter (λ op, is_delete op = true) cs).

Definition all_constraints (from : State) (cs : ChangeSet) (index : option DepIndex) : constraints :=
  foldl addConstraint ∅ (replacement_pairs cs ++ target_pairs cs (dependencyUniverse from cs index) ++ source_pairs cs from index).

Definition SortChangeSetWithIndex (from : State) (changeSet : ChangeSet) (index : option DepIndex) : result sort_error ChangeSet :=
  if bool_decide (length changeSet = 0)%nat then Ok changeSet else
  let cs := sortChangeSetInputForStableOrder changeSet in
  let c := all_constraints from cs index in
  let blocked := blockedReplacementIDs cs from index in
  if bool_decide (0 < length blocked)%nat then Err (ReplacementDependencyCycle (sort_ids blocked)) else
  let '(order, ok) := stableTopologicalOrder (length cs) c in
  if negb ok then
    let ids := unsatisfiableReplacementCycleIDs cs c in
    if bool_decide (0 < length ids)%nat then Err (ReplacementDependencyCycle (sort_ids ids))
    else Ok (fallbackSortChangeSet from cs)
  else Ok (omap (λ i, cs !! i) order).

Definition SortChangeSet (from : State) (changeSet : ChangeSet) : result sort_error ChangeSet :=
  if bool_decide (length changeSet = 0)%nat then Ok changeSet else
  if negb (hasDeleteOp changeSet) then SortChangeSetWithIndex from changeSet None
  else SortChangeSetWithIndex from changeSet (Some (BuildDepIndex from r)).
End builder.

(** ** The stable topological order *)

Section topo.
Variable (count : nat) (c : constraints).

Definition succs (b : nat) : gset nat := default ∅ (c !! b).
Definition cpreds (n : nat) : gset nat := filter (λ b, n ∈ succs b) (dom c).

(** Both ends of every constraint are positions. *)
Definition in_count : Prop := ∀ b a, a ∈ succs b → (a < count)%nat ∧ (b < count)%nat.

Lemma elem_of_cpreds b n : b ∈ cpreds n ↔ n ∈ succs b.
Proof.
  unfold cpreds. rewrite elem_of_filter, elem_of_dom. split; [tauto|]. intros Hn. split; [done|].
  unfold succs in Hn. destruct (c !! b); [done|]. set_solver.
Qed.

Lemma elem_of_dependents b n : n ∈ dependents c b ↔ n ∈ succs b.
Proof. unfold dependents. rewrite (merge_sort_Permutation (≤)%nat), elem_of_elements. done. Qed.

Lemma NoDup_dependents b : NoDup (dependents c b).
Proof. unfold dependents. rewrite (merge_sort_Permutation (≤)%nat). apply NoDup_elements. Qed.

Lemma lookup_bump (f : Z → Z) (l : list nat) (deg : list Z) n :
  NoDup l → foldl (λ deg a, alter f a deg) deg l !! n = (if bool_decide (n ∈ l) then f else id) <$> (deg !! n : option Z).
Proof.
  revert deg. induction l as [|a l IH]; intros deg Hl; [cbn; by destruct (deg !! n)|]. apply NoDup_cons in Hl as [Ha Hl].
  cbn [foldl]. rewrite IH by done. destruct (decide (a = n)) as [->|Hne].
  - rewrite list_lookup_alter_eq, bool_decide_eq_false_2, bool_decide_eq_true_2 by (done || by left). by destruct (deg !! n).
  - rewrite list_lookup_alter_ne by done. rewrite (bool_decide_ext (n ∈ a :: l) (n ∈ l)) by set_solver. done.
Qed.

Lemma indegree_pairs (l : list (nat * gset nat)) (deg : list Z) n :
  foldl (λ deg ba, foldl (λ deg a, alter (λ z, z + 1) a deg) deg (elements (ba.2 : gset nat))) deg l !! n =
  (λ z, z + Z.of_nat (length (filter (λ ba : nat * gset nat, n ∈ ba.2) l))) <$> (deg !! n : option Z).
Proof.
  revert deg. induction l as [|[b s] l IH]; intros deg; [cbn; destruct (deg !! n); cbn; [f_equal; lia|done]|].
  cbn [foldl]. rewrite IH, lookup_bump by apply NoDup_elements. rewrite filter_cons. cbn [snd].
  destruct (deg !! n) as [z|]; [|by destruct (bool_decide _)].
  destruct (bool_decide_reflect (n ∈ elements s)) as [Hn|Hn]; rewrite elem_of_elements in Hn;
    destruct (decide (n ∈ s)); try done; cbn; f_equal; lia.
Qed.

Lemma length_cpreds n : length (filter (λ ba : nat * gset nat, n ∈ ba.2) (map_to_list c)) = size (cpreds n).
Proof.
  unfold size, set_size. rewrite <- (length_fmap fst). cbn. apply Permutation_length. apply NoDup_Permutation.
  - apply (sublist_NoDup _ _ (NoDup_fst_map_to_list c)). apply fmap_sublist, sublist_filter.
  - apply NoDup_elements.
  - intros b. rewrite elem_of_elements, elem_of_cpreds, list_elem_of_fmap. unfold succs. split.
    + intros [[k s] [-> [Hs Hk%elem_of_map_to_list]%list_elem_of_filter]]. cbn in *. by rewrite Hk.
    + destruct (c !! b) as [s|] eqn:Eb; [|set_solver]. intros Hs. exists (b, s). split; [done|].
      apply list_elem_of_filter. by rewrite elem_of_map_to_list.
Qed.

Lemma lookup_indegree0 n : (n < count)%nat → indegree0 count c !! n = Some (Z.of_nat (size (cpreds n))).
Proof.
  intros Hn. unfold indegree0. rewrite indegree_pairs, lookup_replicate_2, length_cpreds by done. cbn. f_equal; lia.
Qed.

Lemma length_indegree0 : length (indegree0 count c) = count.
Proof.
  unfold indegree0. generalize (map_to_list c) as l. intros l.
  transitivity (length (replicate count 0)); [|apply length_replicate]. generalize (replicate count 0) as deg.
  induction l as [|[b s] l IH]; intros deg; [done|]. cbn [foldl snd]. rewrite IH.
  generalize (elements s) as xs. intros xs. revert deg. induction xs as [|x xs IHx]; intros deg; [done|]. cbn [foldl]. by rewrite IHx, length_alter.
Qed.

(** [taken] was taken out in that order; [ready] waits for nothing else. *)
Record kahn (taken : list nat) (ready : list nat) (deg : list Z) : Prop := {
  kh_deg n : (n < count)%nat → deg !! n = Some (Z.of_nat (size (cpreds n ∖ list_to_set taken)));
  kh_ready n : n ∈ taken ∨ n ∈ ready ↔ (n < count)%nat ∧ cpreds n ⊆ list_to_set taken;
  kh_nodup : NoDup (taken ++ ready);
  kh_before k n b : taken !! k = Some n → b ∈ cpreds n → ∃ j, (j < k)%nat ∧ taken !! j = Some b
}.

Lemma kahn_init : kahn [] (ready0 count (indegree0 count c)) (indegree0 count c).
Proof.
  split.
  - intros n Hn. rewrite lookup_indegree0 by done. cbn. by rewrite difference_empty_L.
  - intros n. unfold ready0. rewrite list_elem_of_filter, elem_of_seq. cbn. split.
    + intros [Hn%elem_of_nil|[Hz Hn]]; [done|]. rewrite lookup_indegree0 in Hz by lia. injection Hz as Hz.
      assert (cpreds n ≡ ∅) as -> by (apply size_empty_iff; lia). split; [lia|done].
    + intros [Hn Hp]. right. rewrite lookup_indegree0 by done. replace (cpreds n) with (∅ : gset nat) by set_solver.
      rewrite size_empty. split; [done|lia].
  - cbn. apply NoDup_filter, NoDup_seq.
  - intros k n b Hk. by rewrite lookup_nil in Hk.
Qed.

Lemma appendSortedInt_perm l v : appendSortedInt l v ≡ₚ v :: l.
Proof. induction l as [|a l IH]; cbn; [done|]. destruct (bool_decide _); [|done]. rewrite IH. constructor. Qed.

Lemma release_all l ready deg :
  NoDup l →
  (∀ n, (foldl release (ready, deg) l).2 !! n = (if bool_decide (n ∈ l) then (λ z, z - 1) else id) <$> deg !! n) ∧
  (foldl release (ready, deg) l).1 ≡ₚ ready ++ filter (λ n, deg !! n = Some 1) l.
Proof.
  revert ready deg. induction l as [|a l IH]; intros ready deg Hl; [split; [intros n; cbn; by destruct (deg !! n)|cbn; by rewrite app_nil_r]|].
  apply NoDup_cons in Hl as [Ha Hl]. cbn [foldl]. set (deg1 := alter (λ z, z - 1) a deg).
  assert (Hr : release (ready, deg) a = ((if bool_decide (deg1 !! a = Some 0) then appendSortedInt ready a else ready), deg1)).
  { unfold release. fold deg1. by destruct (bool_decide _). }
  rewrite Hr. destruct (IH (if bool_decide (deg1 !! a = Some 0) then appendSortedInt ready a else ready) deg1 Hl) as [H1 H2].
  assert (Hne : ∀ n, n ≠ a → deg1 !! n = deg !! n) by (intros n Hn; by apply list_lookup_alter_ne).
  assert (Heq : deg1 !! a = (λ z, z - 1) <$> deg !! a) by apply list_lookup_alter_eq. split.
  - intros n. rewrite H1. destruct (decide (n = a)) as [->|Hn].
    + rewrite Heq, bool_decide_eq_false_2, bool_decide_eq_true_2 by (done || by left). by destruct (deg !! a).
    + rewrite Hne by done. by rewrite (bool_decide_ext (n ∈ a :: l) (n ∈ l)) by set_solver.
  - rewrite H2. rewrite (filter_agree (λ n, deg1 !! n = Some 1) (λ n, deg !! n = Some 1)).
    2:{ intros n Hn. rewrite Hne; [done|]. by intros ->. }
    rewrite filter_cons. destruct (bool_decide_reflect (deg1 !! a = Some 0)) as [H0|H0]; rewrite Heq in H0;
      destruct (decide (deg !! a = Some 1)) as [Hd|Hd]; try done.
    + rewrite appendSortedInt_perm. apply (Permutation_middle ready).
    + exfalso. apply fmap_Some in H0 as (z & Hz & Hz'). apply Hd. rewrite Hz. f_equal. lia.
    + rewrite Hd in H0. done.
Qed.

Hypothesis Hc : in_count.

(** What taking out [i] makes ready *)
Lemma kahn_fresh taken i ready deg n :
  kahn taken (i :: ready) deg → i ∉ taken →
  n ∈ filter (λ n, deg !! n = Some 1) (dependents c i) ↔
  (n < count)%nat ∧ i ∈ cpreds n ∧ cpreds n ⊆ {[i]} ∪ list_to_set taken.
Proof.
  intros [K1 _ _ _] Hi. rewrite <- (elem_of_list_to_set (C := gset nat)) in Hi.
  rewrite list_elem_of_filter, elem_of_dependents, elem_of_cpreds, <- size_diff_zero.
  split.
  - intros [Hd Hn]. destruct (Hc i n Hn) as [Hlt _]. rewrite K1, (size_remove_elem _ _ i) in Hd by (done || by apply elem_of_cpreds).
    injection Hd as Hd. split_and!; [done|done|lia].
  - intros (Hlt & Hn & Hs). split; [|done]. rewrite K1, (size_remove_elem _ _ i) by (done || by apply elem_of_cpreds). f_equal. lia.
Qed.

Lemma kahn_step taken i ready deg :
  kahn taken (i :: ready) deg →
  kahn (taken ++ [i]) (foldl release (ready, deg) (dependents c i)).1 (foldl release (ready, deg) (dependents c i)).2.
Proof.
  intros K. pose proof K as [K1 K2 K3 K4]. destruct (release_all (dependents c i) ready deg (NoDup_dependents i)) as [H1 H2].
  assert (Hi : i ∉ taken) by (apply NoDup_app in K3 as (_ & K3 & _); intros Hi; by apply (K3 i Hi); left).
  destruct (proj1 (K2 i)) as [Hic Hip]; [right; by left|].
  pose proof (λ n, kahn_fresh taken i ready deg n K Hi) as Hfresh.
  assert (HX : (list_to_set (taken ++ [i]) : gset nat) = {[i]} ∪ list_to_set taken) by (rewrite list_to_set_app_L; set_solver).
  split; rewrite ?HX.
  - intros n Hn. rewrite H1, K1 by done. rewrite (bool_decide_ext (n ∈ dependents c i) (i ∈ cpreds n)) by (by rewrite elem_of_dependents, elem_of_cpreds).
    destruct (bool_decide_reflect (i ∈ cpreds n)) as [Hin|Hin]; cbn.
    + rewrite (size_remove_elem _ _ i) by (done || by rewrite elem_of_list_to_set). f_equal. lia.
    + do 3 f_equal. clear -Hin. set_solver.
  - intros n. rewrite H2, !elem_of_app, Hfresh, list_elem_of_singleton. split.
    + assert (Hold : n ∈ taken ∨ n ∈ i :: ready → (n < count)%nat ∧ cpreds n ⊆ {[i]} ∪ list_to_set taken).
      { intros Hn. destruct (proj1 (K2 n) Hn). split; [done|]. by apply union_subseteq_r'. }
      intros [[Hn| ->]|[Hn|Hn]]; [apply Hold; by left|apply Hold; right; by left|apply Hold; right; by right|tauto].
    + intros [Hlt Hs]. destruct (decide (i ∈ cpreds n)) as [Hin|Hin]; [tauto|].
      destruct (proj2 (K2 n)) as [Hn|[->|Hn]%elem_of_cons]; [split; [done|]|tauto..]. clear -Hs Hin. set_solver.
  - rewrite H2, app_assoc. apply NoDup_app. split_and!.
    + by rewrite <- (app_assoc taken [i] ready).
    + intros n Hn Hf. apply Hfresh in Hf as (_ & Hf & _). rewrite <- app_assoc, elem_of_app in Hn.
      destruct (proj1 (K2 n) Hn) as [_ Hs]. apply Hs, elem_of_list_to_set in Hf. done.
    + apply NoDup_filter, NoDup_dependents.
  - intros k n b. rewrite lookup_app_Some, list_lookup_singleton_Some. intros [Hk|(Hk & Hz & <-)] Hb.
    + destruct (K4 k n b Hk Hb) as (j & Hj & Hjb). exists j. split; [done|]. rewrite lookup_app_l; [done|by eapply lookup_lt_Some].
    + assert (b ∈ taken) as [j Hj]%list_elem_of_lookup by (by apply Hip, elem_of_list_to_set in Hb).
      exists j. pose proof (lookup_lt_Some _ _ _ Hj). split; [lia|]. by rewrite lookup_app_l.
Qed.

Lemma kahn_bound taken ready deg : kahn taken ready deg → (length (taken ++ ready) ≤ count)%nat.
Proof.
  intros [_ K2 K3 _]. rewrite <- (length_seq count 0). apply NoDup_length_incl; [done|].
  intros n Hn. apply elem_of_seq. apply elem_of_app, K2 in Hn. lia.
Qed.

Lemma topo_loop_spec fuel taken ready deg :
  kahn taken ready deg → (count < length taken + fuel)%nat → ∃ deg', kahn (topo_loop fuel c ready deg taken) [] deg'.
Proof.
  revert taken ready deg. induction fuel as [|fuel IH]; intros taken ready deg K Hf.
  { apply kahn_bound in K. rewrite length_app in K. lia. }
  cbn [topo_loop]. destruct ready as [|i ready]; [by exists deg|].
  pose proof (kahn_step taken i ready deg K) as K'. destruct (foldl release (ready, deg) (dependents c i)) as [ready' deg'].
  apply (IH (taken ++ [i]) ready' deg' K'). rewrite length_app. cbn. lia.
Qed.

(** The constraints can be ranked. *)
Definition cranked : Prop := ∃ rank : nat → nat, ∀ b a, a ∈ succs b → (rank b < rank a)%nat.

Lemma cstuck (X : gset nat) : X ≠ ∅ → (∀ n, n ∈ X → ∃ b, b ∈ X ∧ n ∈ succs b) → ¬ cranked.
Proof.
  intros [n Hn]%set_choose_L Hx [rank Hr]. remember (rank n) as k eqn:Ek. revert n Hn Ek.
  induction k as [k IH] using lt_wf_ind. intros n Hn ->. destruct (Hx n Hn) as (b & Hb & He).
  by apply (IH (rank b) (Hr b n He) b).
Qed.

(** What the loop returns: positions in an order that respects the constraints, all of
    them exactly when the constraints can be ranked. *)
Lemma topo_spec order ok :
  stableTopologicalOrder count c = (order, ok) →
  (∀ k n b, order !! k = Some n → n ∈ succs b → ∃ j, (j < k)%nat ∧ order !! j = Some b) ∧
  (ok = true → order ≡ₚ seq 0 count) ∧ (ok = true ↔ cranked).
Proof.
  unfold stableTopologicalOrder. intros [= <- <-].
  destruct (topo_loop_spec (S count) [] _ _ kahn_init) as [deg [_ K2 K3 K4]]; [cbn; lia|].
  set (order := topo_loop _ _ _ _ _) in *. rewrite app_nil_r in K3. rewrite bool_decide_eq_true.
  assert (Hperm : length order = count → order ≡ₚ seq 0 count).
  { intros Hl. apply submseteq_length_Permutation; [|by rewrite length_seq, Hl].
    apply NoDup_submseteq; [done|]. intros n Hn. apply elem_of_seq. destruct (proj1 (K2 n)); [by left|lia]. }
  assert (Hbefore : ∀ k n b, order !! k = Some n → n ∈ succs b → ∃ j, (j < k)%nat ∧ order !! j = Some b).
  { intros k n b Hk Hb. apply (K4 k n b Hk). by apply elem_of_cpreds. }
  split; [done|]. split; [done|]. split.
  - intros Hl%Hperm. exists (λ n, default 0%nat (fst <$> list_find (λ x, x = n) order)). intros b a Ha.
    destruct (Hc b a Ha) as [Hac Hbc].
    assert (Hpos : ∀ n, (n < count)%nat → ∃ k, list_find (λ x, x = n) order = Some (k, n) ∧ order !! k = Some n).
    { intros n Hn. destruct (list_find_elem_of (λ x, x = n) order n) as [[k x] Hk]; [rewrite Hl; apply elem_of_seq; lia|done|].
      exists k. pose proof Hk as (Hx & -> & _)%list_find_Some. done. }
    destruct (Hpos a Hac) as (ka & Fa & La), (Hpos b Hbc) as (kb & Fb & Lb). rewrite Fa, Fb. cbn.
    destruct (Hbefore ka a b La Ha) as (j & Hj & Lj). by rewrite (NoDup_lookup order kb j b K3 Lb Lj).
  - intros Hr. destruct (decide (length order = count)) as [|Hl]; [done|]. exfalso. revert Hr.
    apply (cstuck (list_to_set (seq 0 count) ∖ list_to_set order)).
    + intros He. apply Hl. apply Nat.le_antisymm.
      * rewrite <- (length_seq count 0). apply NoDup_length_incl; [done|]. intros n Hn. apply elem_of_seq. destruct (proj1 (K2 n)); [by left|lia].
      * rewrite <- (length_seq count 0) at 1. apply NoDup_length_incl; [apply NoDup_seq|]. intros n Hn.
        destruct (decide (n ∈ order)) as [|Hno]; [done|]. exfalso. apply (not_elem_of_empty (C := gset nat) n). rewrite <- He.
        apply elem_of_difference. by rewrite !elem_of_list_to_set.
    + intros n. rewrite elem_of_difference, !elem_of_list_to_set, elem_of_seq. intros [Hn Hno].
      destruct (not_subseteq_elem (cpreds n) (list_to_set order)) as (b & Hb & Hbo).
      { intros Hs. destruct (proj2 (K2 n)) as [?|Hx]; [split; [lia|done]|done|by apply elem_of_nil in Hx]. }
      apply elem_of_cpreds in Hb. rewrite elem_of_list_to_set in Hbo. exists b. destruct (Hc b n Hb).
      rewrite elem_of_difference, !elem_of_list_to_set, elem_of_seq. split; [split; [lia|done]|done].
Qed.

(** ** Constraint paths *)

Definition reaches : nat → nat → Prop := rtc (λ b a, a ∈ succs b).

(** A failed search visited a set that is closed under constraints and misses the target. *)
Definition searched (target : nat) (seen seen' : gset nat) : Prop :=
  seen ⊆ seen' ∧ ∀ n, n ∈ seen' → n ∉ seen → n ≠ target ∧ succs n ⊆ seen'.

Definition room (seen : gset nat) : nat := size ((list_to_set (seq 0 count) : gset nat) ∖ seen).

Definition search_ok (target : nat) (f : nat → gset nat → bool * gset nat) (bound : nat) : Prop :=
  ∀ from seen, (from < count)%nat → (room seen < bound)%nat →
    let '(found, seen') := f from seen in
    if found then reaches from target else from ∈ seen' ∧ searched target seen seen'.

Lemma searched_trans target s1 s2 s3 : searched target s1 s2 → searched target s2 s3 → searched target s1 s3.
Proof.
  intros [A1 A2] [B1 B2]. split; [by etrans|]. intros n Hn Hn1. destruct (decide (n ∈ s2)) as [H2|H2]; [|by apply B2].
  destruct (A2 n H2 Hn1). split; [done|]. by etrans.
Qed.

Lemma room_mono s s' : s ⊆ s' → (room s' ≤ room s)%nat.
Proof. intros Hs. unfold room. apply subseteq_size. set_solver. Qed.

Lemma any_path_spec target f bound l seen :
  search_ok target f bound → (∀ n, n ∈ l → (n < count)%nat) → (room seen < bound)%nat →
  let '(found, seen') := any_path f l seen in
  if found then ∃ n, n ∈ l ∧ reaches n target else (∀ n, n ∈ l → n ∈ seen') ∧ searched target seen seen'.
Proof.
  intros Hf. revert seen. induction l as [|n l IH]; intros seen Hl Hb; cbn [any_path].
  { split; [by intros n Hn%elem_of_nil|]. split; [done|]. tauto. }
  specialize (Hf n seen (Hl n ltac:(by left)) Hb). destruct (f n seen) as [[] s1]; [exists n; split; [by left|done]|].
  destruct Hf as [Hn Hs]. specialize (IH s1). destruct (any_path f l s1) as [found s2].
  assert (Hl' : ∀ n, n ∈ l → (n < count)%nat) by (intros; apply Hl; by right).
  pose proof (room_mono _ _ (proj1 Hs)). specialize (IH Hl' ltac:(lia)). destruct found.
  - destruct IH as (m & Hm & Hr). exists m. split; [by right|done].
  - destruct IH as [I1 I2]. split; [|by eapply searched_trans].
    intros m [->|Hm]%elem_of_cons; [by apply (proj1 I2)|by apply I1].
Qed.

Lemma path_search_spec target fuel : search_ok target (path_search fuel c target) fuel.
Proof.
  induction fuel as [|fuel IH]; intros from seen Hlt Hb; [lia|]. cbn [path_search].
  destruct (bool_decide_reflect (from = target)) as [->|Hne]; [apply rtc_refl|].
  destruct (bool_decide_reflect (from ∈ seen)) as [Hin|Hin]; [split; [done|]; split; [done|]; tauto|].
  pose proof (any_path_spec target (path_search fuel c target) fuel (elements (default ∅ (c !! from))) ({[from]} ∪ seen) IH) as Hs.
  destruct (any_path _ _ _) as [found seen'].
  assert (Hr : room seen = S (room ({[from]} ∪ seen))).
  { unfold room. apply size_remove_elem; [|done]. rewrite elem_of_list_to_set, elem_of_seq. lia. }
  specialize (Hs ltac:(intros n Hn%elem_of_elements; by apply (Hc from n)) ltac:(lia)). destruct found.
  - destruct Hs as (n & Hn%elem_of_elements & Hn'). by eapply rtc_l.
  - destruct Hs as [H1 [H2 H3]]. split; [set_solver|]. split; [set_solver|]. intros n Hn Hns.
    destruct (decide (n = from)) as [->|Hnf]; [|apply H3; [done|set_solver]]. split; [done|].
    intros m Hm. apply H1. by apply elem_of_elements.
Qed.

Lemma hasConstraintPath_spec from target :
  (from < count)%nat → hasConstraintPath count c from target = true ↔ reaches from target.
Proof.
  intros Hlt. unfold hasConstraintPath. pose proof (path_search_spec target (S (S count)) from ∅ Hlt) as Hs.
  destruct (path_search _ c target from ∅) as [found seen]. cbn [fst].
  assert (Hr : (room ∅ ≤ count)%nat).
  { unfold room. rewrite difference_empty_L, size_list_to_set by apply NoDup_seq. by rewrite length_seq. }
  specialize (Hs ltac:(lia)). destruct found; [done|]. split; [done|]. intros Hreach. exfalso.
  destruct Hs as [Hf [_ Hs]]. assert (Hcl : ∀ a b, reaches a b → a ∈ seen → b ∈ seen).
  { intros a b Hab. induction Hab as [|a b d Hab _ IH]; [done|]. intros Ha. apply IH, (Hs a); [done|set_solver|done]. }
  destruct (Hs target); [by apply (Hcl from)|set_solver|done].
Qed.
End topo.

(** ** Sorting entries *)

Section entries.
Variable r : resolver.

Lemma add_nodes entries (g : Graph.Graph ID unit) :
  let g' := foldl (λ g e, Graph.AddNode g (eID e)) g entries in
  Graph.nodes g' = list_to_set (eID <$> entries) ∪ Graph.nodes g ∧ Graph.edges g' = Graph.edges g.
Proof.
  revert g. induction entries as [|e entries IH]; intros g; cbn; [split; [set_solver|done]|].
  destruct (IH (Graph.AddNode g (eID e))) as [-> ->]. cbn. split; [set_solver|done].
Qed.

Lemma edge_AddEdge (g : Graph.Graph ID unit) a b w x y :
  Graph.edge (Graph.AddEdge g a b w tt) x y ↔ (x = a ∧ y = b) ∨ Graph.edge g x y.
Proof.
  unfold Graph.edge, Graph.out, Graph.AddEdge. cbn. destruct (decide (x = a)) as [->|Hx].
  - rewrite lookup_insert_eq. cbn. destruct (decide (y = b)) as [->|Hy].
    + rewrite lookup_insert_eq. split; [tauto|eauto].
    + rewrite lookup_insert_ne by done. naive_solver.
  - rewrite lookup_insert_ne by done. naive_solver.
Qed.

Lemma add_targets l s (g : Graph.Graph ID unit) :
  let g' := foldl (λ g t, Graph.AddEdge g t s 1 tt) g l in
  Graph.nodes g' = Graph.nodes g ∧ ∀ x y, Graph.edge g' x y ↔ (y = s ∧ x ∈ l) ∨ Graph.edge g x y.
Proof.
  revert g. induction l as [|t l IH]; intros g; cbn; [split; [done|]; intros x y; rewrite elem_of_nil; tauto|].
  destruct (IH (Graph.AddEdge g t s 1 tt)) as [-> He]. split; [done|]. intros x y. rewrite He, edge_AddEdge, elem_of_cons. naive_solver.
Qed.

Lemma add_all_targets (l : list (ID * list ID)) (g : Graph.Graph ID unit) :
  let g' := foldl (λ g sd, foldl (λ g t, Graph.AddEdge g t sd.1 1 tt) g sd.2) g l in
  Graph.nodes g' = Graph.nodes g ∧ ∀ x y, Graph.edge g' x y ↔ (∃ d, (y, d) ∈ l ∧ x ∈ d) ∨ Graph.edge g x y.
Proof.
  revert g. induction l as [|[s d] l IH]; intros g; cbn; [split; [done|]; intros x y; set_solver|].
  destruct (add_targets d s g) as [Hn He]. destruct (IH (foldl (λ g t, Graph.AddEdge g t s 1 tt) g d)) as [-> He'].
  split; [done|]. intros x y. rewrite He', He. setoid_rewrite elem_of_cons. naive_solver.
Qed.

Lemma dep_graph_spec entries :
  Graph.nodes (dep_graph r entries) = list_to_set (eID <$> entries) ∧
  ∀ x y, Graph.edge (dep_graph r entries) x y ↔ x ∈ default [] (ResolveDependencies (NewStateMap entries) r !! y).
Proof.
  unfold dep_graph. destruct (add_nodes entries Graph.New) as [Hn He].
  destruct (add_all_targets (map_to_list (ResolveDependencies (NewStateMap entries) r)) (foldl (λ g e, Graph.AddNode g (eID e)) Graph.New entries)) as [-> Hx].
  split; [rewrite Hn; cbn; set_solver|]. intros x y. rewrite Hx. unfold Graph.edge at 1, Graph.out. rewrite He. cbn.
  rewrite lookup_empty. cbn. rewrite lookup_empty. setoid_rewrite elem_of_map_to_list. split.
  - intros [(d & -> & Hd)|[]]; [done|done].
  - destruct (ResolveDependencies (NewStateMap entries) r !! y) as [d|]; [|by intros H0%elem_of_nil]. left. by exists d.
Qed.

Lemma elem_of_NewStateMap entries id : is_Some (NewStateMap entries !! id) ↔ id ∈ eID <$> entries.
Proof.
  unfold NewStateMap. rewrite foldl_state, map_union_empty, <- elem_of_dom, dom_list_to_map_L, elem_of_list_to_set.
  rewrite fmap_reverse, <- list_fmap_compose. by rewrite elem_of_reverse.
Qed.

Lemma dep_graph_closed entries : Graph.closed (dep_graph r entries).
Proof.
  destruct (dep_graph_spec entries) as [Hn He]. intros a b Hab%He. rewrite Hn.
  apply elem_of_ResolveDependencies in Hab as (e & _ & _ & _ & Ha). apply elem_of_list_to_set. by apply elem_of_NewStateMap.
Qed.

Lemma by_id_perm l : by_id l ≡ₚ l.
Proof. apply stable_sort_perm. Qed.

Lemma sort_ids_perm l : sort_ids l ≡ₚ l.
Proof. apply (merge_sort_Permutation id_le). Qed.

Lemma level_entries_perm (m : StateMap) l : level_entries m l ≡ₚ omap (λ n, m !! n) l.
Proof. unfold level_entries. by rewrite sort_ids_perm. Qed.

Lemma levels_entries_perm (m : StateMap) ls : concat (level_entries m <$> ls) ≡ₚ omap (λ n, m !! n) (concat ls).
Proof. induction ls as [|l ls IH]; cbn; [done|]. by rewrite omap_app, level_entries_perm, IH. Qed.

(** Looking up the identifiers of distinct entries gives the entries. *)
Lemma lookup_ids entries (l : list ID) :
  NoDup (eID <$> entries) → l ≡ₚ eID <$> entries → omap (λ n, NewStateMap entries !! n) l ≡ₚ entries.
Proof.
  intros Hd ->. assert (Hall : ∀ es, (∀ e, e ∈ es → NewStateMap entries !! eID e = Some e) → omap (λ n, NewStateMap entries !! n) (eID <$> es : list ID) = es).
  { induction es as [|e es IH]; intros He; cbn; [done|]. rewrite He by left. f_equal. apply IH. intros x Hx. apply He. by right. }
  rewrite Hall; [done|]. intros e He. by apply NewStateMap_Some.
Qed.

Lemma levels_perm entries levels :
  NoDup (eID <$> entries) → Graph.DependencyLevels showID (dep_graph r entries) = Ok levels → concat levels ≡ₚ eID <$> entries.
Proof.
  intros Hd Hl. pose proof (Graph.levels_correct showID (dep_graph r entries)) as Hs. rewrite Hl in Hs. destruct Hs as [[Hn _ _ _] Hp].
  apply NoDup_Permutation; [done|done|]. intros n. rewrite Hp. destruct (dep_graph_spec entries) as [Hnodes He]. unfold Graph.placed. rewrite Hnodes, elem_of_list_to_set. split; [|by left].
  intros [?|Hq]; [done|]. apply set_choose_L in Hq as [a Ha]. apply Graph.elem_of_preds in Ha. apply He, elem_of_ResolveDependencies in Ha as (e & He' & _).
  apply elem_of_NewStateMap. eauto.
Qed.

(** Sorted entries are the entries, and without a cycle every entry follows its
    dependencies. *)
Lemma SortEntries_perm entries : NoDup (eID <$> entries) → (SortEntriesByDependency r entries).1 ≡ₚ entries.
Proof.
  intros Hd. unfold SortEntriesByDependency. destruct (bool_decide_reflect (length entries = 0)%nat) as [Hz|_].
  { apply length_zero_iff_nil in Hz as ->. done. }
  destruct (Graph.DependencyLevels showID (dep_graph r entries)) as [levels|e] eqn:El; [|apply by_id_perm]. cbn [fst].
  unfold Graph.AllLevels. transitivity (omap (λ n, NewStateMap entries !! n) (concat levels)).
  - apply levels_entries_perm.
  - apply lookup_ids; [done|]. by apply levels_perm.
Qed.

Lemma sortEntriesWithFallback_perm entries : NoDup (eID <$> entries) → sortEntriesWithFallback r entries ≡ₚ entries.
Proof.
  intros Hd. unfold sortEntriesWithFallback. pose proof (SortEntries_perm entries Hd) as Hp.
  destruct (SortEntriesByDependency r entries) as [sorted [e|]]; [apply by_id_perm|done].
Qed.

(** ** Constraints of a changeset *)

Lemma succs_foldl l c a b :
  a ∈ succs (foldl addConstraint c l) b ↔ a ∈ succs c b ∨ ((b, a) ∈ l ∧ b ≠ a).
Proof.
  revert c. induction l as [|[x y] l IH]; intros c; cbn [foldl]; [set_solver|]. rewrite IH, elem_of_cons.
  assert (Hadd : a ∈ succs (addConstraint c (x, y)) b ↔ a ∈ succs c b ∨ ((b, a) = (x, y) ∧ b ≠ a)).
  { unfold addConstraint, succs. destruct (bool_decide_reflect (x = y)) as [->|Hne]; [naive_solver|].
    destruct (decide (x = b)) as [->|Hx]; [rewrite lookup_insert_eq; cbn; set_solver|]. rewrite lookup_insert_ne by done. naive_solver. }
  rewrite Hadd. tauto.
Qed.

Lemma elem_of_positions cs p i : i ∈ positions cs p ↔ ∃ op, cs !! i = Some op ∧ p op = true.
Proof.
  unfold positions. rewrite list_elem_of_filter, elem_of_seq. split.
  - intros [Hp _]. destruct (cs !! i) as [op|] eqn:Ei; [|done]. exists op. cbn in Hp. by injection Hp.
  - intros (op & Hi & Hp). rewrite Hi. cbn. rewrite Hp. split; [done|]. apply lookup_lt_Some in Hi. lia.
Qed.

Lemma elem_of_delete_ids cs id : id ∈ delete_ids cs ↔ ∃ i op, cs !! i = Some op ∧ opID op = id ∧ is_delete op = true.
Proof.
  unfold delete_ids. rewrite elem_of_dedup, list_elem_of_fmap. split.
  - intros [(op & -> & [Hd [i Hi]%list_elem_of_lookup]%list_elem_of_filter) _]. by exists i, op.
  - intros (i & op & Hi & <- & Hd). split; [|apply not_elem_of_nil]. exists op. split; [done|].
    apply list_elem_of_filter. split; [done|]. by eapply list_elem_of_lookup_2.
Qed.

Section precedence.
Variables (from : State) (cs : ChangeSet) (index : option DepIndex).

(** [a] must come before [b]: the old entry goes before its replacement is created, a
    dependency is written before its dependent, a live dependent is updated or deleted
    before its dependency is deleted. *)
Definition precedes (a b : Operation) : Prop :=
  (is_delete a = true ∧ is_create b = true ∧ opID a = opID b) ∨
  (is_delete a = false ∧ is_delete b = false ∧ opID a ∈ default [] (dependencyUniverse r from cs index !! opID b)) ∨
  (mutates a = true ∧ is_delete b = true ∧ opID a ∈ live_dependents from index (opID b)).

Lemma create_not_delete op : is_create op = true → is_delete op = false.
Proof. unfold is_create, is_delete. rewrite bool_decide_eq_true. intros ->. done. Qed.

Lemma elem_of_positions_id p id i :
  i ∈ positions cs (λ op, bool_decide (opID op = id) && p op) ↔ ∃ op, cs !! i = Some op ∧ opID op = id ∧ p op = true.
Proof.
  rewrite elem_of_positions. split; intros (op & H1 & H2); exists op.
  - by rewrite andb_true_iff, bool_decide_eq_true in H2.
  - by rewrite andb_true_iff, bool_decide_eq_true.
Qed.

Lemma elem_of_replacement i j :
  (i, j) ∈ replacement_pairs cs ↔
  ∃ a b, cs !! i = Some a ∧ cs !! j = Some b ∧ is_delete a = true ∧ is_create b = true ∧ opID a = opID b.
Proof.
  unfold replacement_pairs, delete_indexes, create_indexes. rewrite list_elem_of_bind. split.
  - intros (id & (d & (x & Hx & Hc)%list_elem_of_bind & Hd)%list_elem_of_bind & _).
    apply list_elem_of_singleton in Hx. injection Hx as -> ->. apply elem_of_positions_id in Hd as (a & Ha & <- & Hd), Hc as (b & Hb & Hid & Hc).
    exists a, b. done.
  - intros (a & b & Ha & Hb & Hd & Hc & He). exists (opID a). split.
    + apply list_elem_of_bind. exists i. split.
      * apply list_elem_of_bind. exists j. split; [by left|]. apply elem_of_positions_id. by exists b.
      * apply elem_of_positions_id. by exists a.
    + apply elem_of_delete_ids. by exists i, a.
Qed.

Lemma elem_of_target u i j :
  (i, j) ∈ target_pairs cs u ↔
  ∃ a b, cs !! i = Some a ∧ cs !! j = Some b ∧ is_delete a = false ∧ is_delete b = false ∧ opID a ∈ default [] (u !! opID b).
Proof.
  unfold target_pairs, write_indexes. rewrite list_elem_of_bind. split.
  - intros (k & (d & (x & Hx & Hc)%list_elem_of_bind & Hd)%list_elem_of_bind & Hk).
    apply list_elem_of_singleton in Hx. injection Hx as -> ->. apply elem_of_positions in Hk as (b & Hb & Hbd%negb_true_iff).
    apply elem_of_positions_id in Hc as (a & Ha & <- & Had%negb_true_iff). rewrite Hb in Hd. cbn in Hd. exists a, b. done.
  - intros (a & b & Ha & Hb & Hd & Hc & He). exists j. split.
    + apply list_elem_of_bind. exists (opID a). split.
      * apply list_elem_of_bind. exists i. split; [by left|]. apply elem_of_positions_id. exists a. by rewrite Hd.
      * by rewrite Hb.
    + apply elem_of_positions. exists b. by rewrite Hc.
Qed.

Lemma elem_of_source i j :
  (i, j) ∈ source_pairs cs from index ↔
  ∃ a b, cs !! i = Some a ∧ cs !! j = Some b ∧ mutates a = true ∧ is_delete b = true ∧ opID a ∈ live_dependents from index (opID b).
Proof.
  unfold source_pairs, mutation_indexes, delete_indexes. rewrite list_elem_of_bind. split.
  - intros (id & (dep & (m & (x & Hx & Hd)%list_elem_of_bind & Hm)%list_elem_of_bind & Hdep)%list_elem_of_bind & _).
    apply list_elem_of_singleton in Hx. injection Hx as -> ->. apply elem_of_positions_id in Hm as (a & Ha & <- & Hm), Hd as (b & Hb & <- & Hd).
    exists a, b. done.
  - intros (a & b & Ha & Hb & Hm & Hd & He). exists (opID b). split.
    + apply list_elem_of_bind. exists (opID a). split; [|done]. apply list_elem_of_bind. exists i. split.
      * apply list_elem_of_bind. exists j. split; [by left|]. apply elem_of_positions_id. by exists b.
      * apply elem_of_positions_id. by exists a.
    + apply elem_of_delete_ids. by exists j, b.
Qed.

(** The constraints are exactly the precedences between distinct positions. *)
Lemma succs_constraints i j :
  j ∈ succs (all_constraints r from cs index) i ↔
  i ≠ j ∧ ∃ a b, cs !! i = Some a ∧ cs !! j = Some b ∧ precedes a b.
Proof.
  unfold all_constraints. rewrite succs_foldl, !elem_of_app, elem_of_replacement, elem_of_target, elem_of_source.
  unfold succs at 1. rewrite lookup_empty. cbn. unfold precedes. split.
  - intros [H0%elem_of_empty|[[(a & b & H1)|[(a & b & H1)|(a & b & H1)]] Hne]]; [done|..]; (split; [done|]); exists a, b; tauto.
  - intros (Hne & a & b & Ha & Hb & Hp). right. split; [|done].
    destruct Hp as [Hp|[Hp|Hp]]; [left|right; left|right; right]; by exists a, b.
Qed.

Lemma constraints_in_count : in_count (length cs) (all_constraints r from cs index).
Proof.
  intros b a (_ & x & y & Hb & Ha & _)%succs_constraints. split; by eapply lookup_lt_Some.
Qed.
End precedence.

(** The precedences of a changeset admit an order. *)
Definition orderable (from : State) (cs : ChangeSet) (index : option DepIndex) : Prop :=
  ∃ rank : nat → nat, ∀ i j a b, cs !! i = Some a → cs !! j = Some b → i ≠ j → precedes from cs index a b → (rank i < rank j)%nat.

Lemma orderable_cranked from cs index : orderable from cs index ↔ cranked (all_constraints r from cs index).
Proof.
  unfold orderable, cranked. setoid_rewrite succs_constraints. split; intros [rank Hr]; exists rank.
  - intros b a (Hne & x & y & Hb & Ha & Hp). by eapply Hr.
  - intros i j a b Hi Hj Hne Hp. apply Hr. split; [done|]. by exists a, b.
Qed.

Lemma omap_positions (cs : ChangeSet) order :
  (∀ i, i ∈ order → (i < length cs)%nat) →
  length (omap (λ i, cs !! i) order) = length order ∧ ∀ p, omap (λ i, cs !! i) order !! p = order !! p ≫= λ i, cs !! i.
Proof.
  induction order as [|i order IH]; intros Hi; [done|].
  destruct (lookup_lt_is_Some_2 cs i) as [op Hop]; [apply Hi; by left|].
  destruct IH as [H1 H2]; [intros; apply Hi; by right|]. cbn. rewrite Hop. split; [cbn; by rewrite H1|].
  intros [|p]; cbn; [done|apply H2].
Qed.

Lemma omap_seq (cs : ChangeSet) : omap (λ i, cs !! i) (seq 0 (length cs)) = cs.
Proof.
  apply list_eq. intros p. destruct (omap_positions cs (seq 0 (length cs))) as [_ ->]; [intros i; rewrite elem_of_seq; lia|].
  destruct (decide (p < length cs)%nat) as [Hp|Hp].
  - by rewrite lookup_seq_lt by lia.
  - rewrite lookup_seq_ge, lookup_ge_None_2 by lia. done.
Qed.

(** Sorting a changeset whose precedences admit an order succeeds with a rearrangement
    that respects all of them. *)
Lemma sorted_order from cs index order :
  stableTopologicalOrder (length cs) (all_constraints r from cs index) = (order, true) →
  omap (λ i, cs !! i) order ≡ₚ cs ∧
  ∀ p q a b, omap (λ i, cs !! i) order !! p = Some a → omap (λ i, cs !! i) order !! q = Some b → p ≠ q →
    precedes from cs index a b → (p < q)%nat.
Proof.
  intros Ht. destruct (topo_spec _ _ (constraints_in_count from cs index) _ _ Ht) as (Hb & Hp & _). specialize (Hp eq_refl).
  assert (Hnd : NoDup order) by (rewrite Hp; apply NoDup_seq).
  destruct (omap_positions cs order) as [_ Hl]; [intros i; rewrite Hp, elem_of_seq; lia|]. split.
  - rewrite Hp. by rewrite omap_seq.
  - intros p q a b. rewrite !Hl. intros (i & Hi & Ha)%bind_Some (j & Hj & Hb')%bind_Some Hne Hpre.
    destruct (Hb q j i Hj) as (p' & Hlt & Hp').
    + apply succs_constraints. split; [|by exists a, b]. intros ->. apply Hne. by eapply NoDup_lookup.
    + by rewrite (NoDup_lookup order p p' i Hnd Hi Hp').
Qed.

Lemma normalize_perm cs : sortChangeSetInputForStableOrder cs ≡ₚ cs.
Proof. apply stable_sort_perm. Qed.

Lemma normalize_length cs : length (sortChangeSetInputForStableOrder cs) = length cs.
Proof. by rewrite normalize_perm. Qed.

(** C20. A changeset whose required precedences admit an order, and in which no replaced
    entry keeps a live dependent that the changeset does not touch, is sorted
    successfully: the result is a rearrangement of it in which every operation follows
    what must precede it. Old entries are deleted before their replacements are created,
    dependencies are written before their dependents, and live dependents are updated or
    deleted before what they depend on is deleted. *)
Theorem SortChangeSet_order from changeSet index :
  let cs := sortChangeSetInputForStableOrder changeSet in
  blockedReplacementIDs cs from index = [] → orderable from cs index →
  ∃ out, SortChangeSetWithIndex r from changeSet index = Ok out ∧ out ≡ₚ changeSet ∧
    ∀ p q a b, out !! p = Some a → out !! q = Some b → p ≠ q → precedes from cs index a b → (p < q)%nat.
Proof.
  intros cs Hblocked Ho. unfold SortChangeSetWithIndex. fold cs. rewrite Hblocked.
  destruct (bool_decide_reflect (length changeSet = 0)%nat) as [Hz|Hz].
  { exists changeSet. split_and!; [done..|]. intros p q a b Hp. apply length_zero_iff_nil in Hz. by rewrite Hz, lookup_nil in Hp. }
  cbn [length bool_decide]. rewrite (bool_decide_eq_false_2 (0 < 0)%nat) by lia.
  destruct (stableTopologicalOrder _ _) as [order ok] eqn:Ht.
  destruct (topo_spec _ _ (constraints_in_count from cs index) _ _ Ht) as (_ & _ & Hok).
  assert (ok = true) as -> by (by apply Hok, orderable_cranked). cbn [negb].
  destruct (sorted_order from cs index order Ht) as [Hp Hord]. eexists. split; [done|]. split; [|done].
  rewrite Hp. apply normalize_perm.
Qed.

Lemma rejected from changeSet index ids :
  let cs := sortChangeSetInputForStableOrder changeSet in
  SortChangeSetWithIndex r from changeSet index = Err (ReplacementDependencyCycle ids) →
  ids ≠ [] ∧ ∀ id, id ∈ ids →
    ∃ i j d c, cs !! i = Some d ∧ is_delete d = true ∧ opID d = id ∧ cs !! j = Some c ∧ is_create c = true ∧ opID c = id ∧
      ((∃ dep, dep ∈ live_dependents from index id ∧ ∀ k op, cs !! k = Some op → opID op = dep → mutates op = false) ∨
       reaches (all_constraints r from cs index) j i).
Proof.
  intros cs. unfold SortChangeSetWithIndex. fold cs. destruct (bool_decide (length changeSet = 0)%nat); [done|].
  assert (Hsort : ∀ l : list ID, (0 < length l)%nat → sort_ids l ≠ []).
  { intros l Hl He. pose proof (sort_ids_perm l) as Hp. rewrite He in Hp. apply Permutation_nil_l in Hp. subst l. cbn in Hl. lia. }
  destruct (bool_decide_reflect (0 < length (blockedReplacementIDs cs from index))%nat) as [Hb|_].
  - intros [= <-]. split; [by apply Hsort|]. intros id. rewrite sort_ids_perm. intros [[Hc Hx] Hd]%list_elem_of_filter.
    apply elem_of_delete_ids in Hd as (i & d & Hi & Hid & Hd). destruct (create_indexes cs id) as [|j l] eqn:Ec; [done|].
    assert (j ∈ create_indexes cs id) as Hj by (rewrite Ec; by left). apply elem_of_positions_id in Hj as (c & Hj & Hcid & Hcr).
    exists i, j, d, c. split_and!; try done. left. apply Exists_exists in Hx as (dep & Hdep & Hm). exists dep. split; [done|].
    intros k op Hk Ho. apply not_true_is_false. intros Hmut.
    assert (k ∈ mutation_indexes cs dep) as Hin by (apply elem_of_positions_id; by exists op). rewrite Hm in Hin. by apply elem_of_nil in Hin.
  - destruct (stableTopologicalOrder _ _) as [order ok] eqn:Ht. destruct ok; [done|]. cbn [negb].
    destruct (bool_decide_reflect (0 < length (unsatisfiableReplacementCycleIDs cs (all_constraints r from cs index)))%nat) as [Hb|_]; [|done].
    intros [= <-]. split; [by apply Hsort|]. intros id. rewrite sort_ids_perm. intros [Hx _]%list_elem_of_filter.
    apply Exists_exists in Hx as (j & Hj & Hx). apply Exists_exists in Hx as (i & Hi & Hx).
    apply elem_of_positions_id in Hj as (c & Hj & Hcid & Hcr), Hi as (d & Hi & Hid & Hd).
    exists i, j, d, c. split_and!; try done. right.
    apply (hasConstraintPath_spec (length cs) _ (constraints_in_count from cs index)); [by eapply lookup_lt_Some|done].
Qed.

(** [SortChangeSet] rejects a changeset only for a replacement that no order can
    serve: an entry that is deleted and created again while a live dependent is left
    untouched, or whose deletion must wait for its own creation. *)
Theorem SortChangeSet_rejects from changeSet index ids :
  let cs := sortChangeSetInputForStableOrder changeSet in
  SortChangeSetWithIndex r from changeSet index = Err (ReplacementDependencyCycle ids) →
  ids ≠ [] ∧ ∀ id, id ∈ ids →
    ∃ i j d c, cs !! i = Some d ∧ is_delete d = true ∧ opID d = id ∧ cs !! j = Some c ∧ is_create c = true ∧ opID c = id ∧
      ((∃ dep, dep ∈ live_dependents from index id ∧ ∀ k op, cs !! k = Some op → opID op = dep → mutates op = false) ∨
       reaches (all_constraints r from cs index) j i).
Proof. apply rejected. Qed.

(** ** The normalized order *)

#[local] Instance op_le_total : Total op_le.
Proof.
  intros a b. unfold op_le. repeat case_bool; try congruence; apply (total String.le).
Qed.

#[local] Instance op_le_trans : Transitive op_le.
Proof.
  intros a b d. unfold op_le.
  destruct (bool_decide_reflect (NS (opID a) = NS (opID b))) as [E1|E1], (bool_decide_reflect (NS (opID b) = NS (opID d))) as [E2|E2].
  - rewrite (bool_decide_eq_true_2 (NS (opID a) = NS (opID d))) by congruence.
    destruct (bool_decide_reflect (Name (opID a) = Name (opID b))) as [F1|F1], (bool_decide_reflect (Name (opID b) = Name (opID d))) as [F2|F2].
    + rewrite bool_decide_eq_true_2 by congruence. apply transitivity.
    + rewrite bool_decide_eq_false_2 by congruence. by rewrite F1.
    + rewrite bool_decide_eq_false_2 by congruence. by rewrite F2.
    + intros H1 H2. destruct (bool_decide_reflect (Name (opID a) = Name (opID d))) as [F3|F3]; [|by etrans].
      exfalso. apply F1. apply (anti_symm String.le); [done|]. by rewrite F3.
  - rewrite (bool_decide_eq_false_2 (NS (opID a) = NS (opID d))) by congruence. by rewrite E1.
  - rewrite (bool_decide_eq_false_2 (NS (opID a) = NS (opID d))) by congruence. by rewrite E2.
  - intros H1 H2. destruct (bool_decide_reflect (NS (opID a) = NS (opID d))) as [E3|E3]; [|by etrans].
    exfalso. apply E1. apply (anti_symm String.le); [done|]. by rewrite E3.
Qed.

Lemma op_le_antisym a b :
  op_le a b → op_le b a → NS (opID a) = NS (opID b) ∧ Name (opID a) = Name (opID b) ∧ oKind a = oKind b.
Proof.
  unfold op_le. destruct (bool_decide_reflect (NS (opID a) = NS (opID b))) as [E1|E1].
  - rewrite (bool_decide_eq_true_2 (NS (opID b) = NS (opID a))) by done.
    destruct (bool_decide_reflect (Name (opID a) = Name (opID b))) as [F1|F1].
    + rewrite (bool_decide_eq_true_2 (Name (opID b) = Name (opID a))) by done. intros. split_and!; [done..|by apply (anti_symm String.le)].
    + rewrite (bool_decide_eq_false_2 (Name (opID b) = Name (opID a))) by congruence. intros H1 H2. exfalso. apply F1. by apply (anti_symm String.le).
  - rewrite (bool_decide_eq_false_2 (NS (opID b) = NS (opID a))) by congruence. intros H1 H2. exfalso. apply E1. by apply (anti_symm String.le).
Qed.

(** The sorted changeset does not depend on the order in which the caller listed the
    operations, as long as no two of them agree on namespace, name and kind. *)
Theorem SortChangeSet_deterministic from cs1 cs2 index :
  cs1 ≡ₚ cs2 →
  (∀ a b, a ∈ cs1 → b ∈ cs1 → NS (opID a) = NS (opID b) → Name (opID a) = Name (opID b) → oKind a = oKind b → a = b) →
  SortChangeSetWithIndex r from cs1 index = SortChangeSetWithIndex r from cs2 index.
Proof.
  intros Hp Hu. unfold SortChangeSetWithIndex. rewrite <- (Permutation_length Hp).
  destruct (bool_decide_reflect (length cs1 = 0)%nat) as [Hz|_].
  { apply length_zero_iff_nil in Hz. subst. by apply Permutation_nil_l in Hp as ->. }
  assert (sortChangeSetInputForStableOrder cs1 = sortChangeSetInputForStableOrder cs2) as ->; [|done].
  apply stable_sort_unique; [apply _..|done|]. intros a b Ha Hb H1 H2. destruct (op_le_antisym a b H1 H2) as (? & ? & ?). by apply Hu.
Qed.

(** ** The fallback order *)

Definition find_op (ops : list Operation) (id : ID) : option Operation :=
  snd <$> list_find (λ op, Equal (opID op) id = true) ops.

Lemma find_op_elem ops op :
  NoDup (opID <$> ops) → (∀ x, x ∈ ops → id_ok (opID x)) → op ∈ ops → find_op ops (opID op) = Some op.
Proof.
  intros Hn Hok Hin. unfold find_op.
  destruct (list_find_elem_of (λ x, Equal (opID x) (opID op) = true) ops op) as [[i x] Hf]; [done|by apply Equal_spec; auto|].
  rewrite Hf. cbn. f_equal. apply list_find_Some in Hf as (Hx & He & _).
  apply Equal_spec in He; [|by apply Hok, (list_elem_of_lookup_2 _ i)|by apply Hok].
  apply list_elem_of_lookup in Hin as [j Hj].
  assert (i = j) as -> by (eapply (NoDup_lookup _ i j (opID op) Hn); rewrite list_lookup_fmap, ?Hx, ?Hj; cbn; congruence). congruence.
Qed.

Lemma ops_of_perm ops entries :
  NoDup (opID <$> ops) → (∀ x, x ∈ ops → id_ok (opID x)) → eID <$> entries ≡ₚ opID <$> ops → ops_of ops entries ≡ₚ ops.
Proof.
  intros Hn Hok Hp. assert (He : ops_of ops entries = omap (find_op ops) (eID <$> entries)).
  { unfold ops_of, find_op. clear. induction entries as [|e es IH]; cbn; [done|]. by destruct (list_find _ ops); cbn; rewrite IH. }
  rewrite He, Hp. assert (Hall : ∀ l : list Operation, (∀ x, x ∈ l → x ∈ ops) → omap (find_op ops) (opID <$> l) = l).
  { induction l as [|x l IH]; intros Hl; cbn; [done|]. rewrite find_op_elem by (done || apply Hl; by left). f_equal. apply IH. intros y Hy. apply Hl. by right. }
  by rewrite Hall.
Qed.

(** At most one write and one deletion per identifier, all canonical *)
Definition ops_ok (cs : ChangeSet) : Prop :=
  NoDup (opID <$> filter (λ op, is_delete op = false) cs) ∧ NoDup (opID <$> filter (λ op, is_delete op = true) cs) ∧
  ∀ op, op ∈ cs → id_ok (opID op).

Lemma ops_ok_perm cs1 cs2 : cs1 ≡ₚ cs2 → ops_ok cs1 → ops_ok cs2.
Proof. intros Hp (H1 & H2 & H3). split_and!; [by rewrite <- Hp..|]. intros op. rewrite <- Hp. apply H3. Qed.

Lemma fallback_perm from cs : ops_ok cs → fallbackSortChangeSet r from cs ≡ₚ cs.
Proof.
  intros (H1 & H2 & H3). unfold fallbackSortChangeSet.
  assert (Hin : ∀ P `{∀ x, Decision (P x)} x, x ∈ filter P cs → id_ok (opID x)) by (intros P ? x [_ Hx]%list_elem_of_filter; by apply H3).
  assert (Hsplit : filter (λ op, is_delete op = false) cs ++ filter (λ op, is_delete op = true) cs ≡ₚ cs).
  { clear. induction cs as [|op cs IH]; [done|]. destruct (is_delete op) eqn:Ed.
    - rewrite filter_cons_False, filter_cons_True by congruence. by rewrite <- Permutation_middle, IH.
    - rewrite filter_cons_True, filter_cons_False by congruence. cbn. by rewrite IH. }
  rewrite <- Hsplit at 3. apply Permutation_app.
  - apply ops_of_perm; [done|by apply Hin|]. rewrite sortEntriesWithFallback_perm; [by rewrite <- list_fmap_compose|]. by rewrite <- list_fmap_compose.
  - unfold sortDeleteOperations. set (ops := filter (λ op, is_delete op = true) cs) in *.
    assert (Hid : eID <$> ((λ op, default (oEntry op) (NewStateMap from !! opID op)) <$> ops) = opID <$> ops).
    { rewrite <- list_fmap_compose. apply list_fmap_ext. intros i op _. cbn.
      destruct (NewStateMap from !! opID op) as [e|] eqn:Ee; [|done]. by apply (NewStateMap_keyed from). }
    apply ops_of_perm; [done|by apply Hin|]. rewrite reverse_Permutation, sortEntriesWithFallback_perm; by rewrite Hid.
Qed.

(** Sorting never loses or invents an operation. *)
Lemma SortWithIndex_perm from changeSet index out :
  ops_ok changeSet → SortChangeSetWithIndex r from changeSet index = Ok out → out ≡ₚ changeSet.
Proof.
  intros Hok. unfold SortChangeSetWithIndex. destruct (bool_decide (length changeSet = 0)%nat); [by intros [= ->]|].
  set (cs := sortChangeSetInputForStableOrder changeSet). pose proof (normalize_perm changeSet : cs ≡ₚ changeSet) as Hp.
  destruct (bool_decide _); [done|]. destruct (stableTopologicalOrder _ _) as [order ok] eqn:Ht. destruct ok; cbn [negb].
  - intros [= <-]. destruct (sorted_order from cs index order Ht) as [-> _]. done.
  - destruct (bool_decide _); [done|]. intros [= <-]. rewrite fallback_perm; [done|]. by eapply ops_ok_perm.
Qed.

Lemma SortChangeSet_perm from changeSet out :
  ops_ok changeSet → SortChangeSet r from changeSet = Ok out → out ≡ₚ changeSet.
Proof.
  intros Hok. unfold SortChangeSet. destruct (bool_decide _); [by intros [= ->]|].
  destruct (negb _); by apply SortWithIndex_perm.
Qed.

(** Without a replacement there is nothing to reject. *)
Lemma SortChangeSet_total from changeSet :
  (∀ d c, d ∈ changeSet → c ∈ changeSet → is_delete d = true → is_create c = true → opID d ≠ opID c) →
  ∃ out, SortChangeSet r from changeSet = Ok out.
Proof.
  intros Hno. assert (Hidx : ∀ index, ∃ out, SortChangeSetWithIndex r from changeSet index = Ok out).
  { intros index. destruct (SortChangeSetWithIndex r from changeSet index) as [out|[ids]] eqn:Es; [by eexists|]. exfalso.
    destruct (rejected from changeSet index ids Es) as [Hne Hall]. destruct ids as [|id ids]; [done|].
    destruct (Hall id ltac:(by left)) as (i & j & d & c & Hi & Hd & Hid & Hj & Hc & Hcid & _).
    apply list_elem_of_lookup_2 in Hi, Hj. rewrite normalize_perm in Hi, Hj. by apply (Hno d c Hi Hj Hd Hc); congruence. }
  unfold SortChangeSet. destruct (bool_decide _); [by eexists|]. destruct (negb _); apply Hidx.
Qed.

Lemma orderable_computed from cs index :
  (stableTopologicalOrder (length cs) (all_constraints r from cs index)).2 = true → orderable from cs index.
Proof.
  destruct (stableTopologicalOrder _ _) as [order ok] eqn:Ht. cbn. intros ->. apply orderable_cranked.
  by apply (topo_spec _ _ (constraints_in_count from cs index) _ _ Ht).
Qed.
End entries.

(** ** Deleting and replacing in the small registry *)

Definition demo_index : option DepIndex := Some (BuildDepIndex demo_state NoResolver).

(** The variable and its reader are deleted: the reader goes first. *)
Definition demo_deletes : ChangeSet := [mkOp None EntryDelete db_url; mkOp None EntryDelete svc].

Lemma SortChangeSet_order_witness :
  SortChangeSetWithIndex NoResolver demo_state demo_deletes demo_index = Ok (reverse demo_deletes).
Proof.
  destruct (SortChangeSet_order NoResolver demo_state demo_deletes demo_index) as (out & Ho & _ & _).
  - vm_compute. reflexivity.
  - apply orderable_computed. vm_compute. reflexivity.
  - assert (Hr : SortChangeSetWithIndex NoResolver demo_state demo_deletes demo_index = Ok (reverse demo_deletes))
      by (vm_compute; reflexivity).
    rewrite Hr in Ho. rewrite Hr. exact eq_refl.
Defined.

(** The variable is replaced while its reader stays. *)
Definition demo_replace : ChangeSet := [mkOp None EntryDelete db_url; mkOp None EntryCreate db_url].

Lemma SortChangeSet_rejects_witness : eID svc ∈ live_dependents demo_state demo_index (eID db_url).
Proof.
  assert (He : SortChangeSetWithIndex NoResolver demo_state demo_replace demo_index = Err (ReplacementDependencyCycle [eID db_url]))
    by (vm_compute; reflexivity).
  destruct (SortChangeSet_rejects NoResolver demo_state demo_replace demo_index _ He) as [_ Hall].
  destruct (Hall (eID db_url) ltac:(by left)) as (_ & _ & _ & _ & _).
  vm_compute. left.
Defined.

Lemma SortChangeSet_deterministic_witness :
  SortChangeSetWithIndex NoResolver demo_state (reverse demo_deletes) demo_index = Ok (reverse demo_deletes).
Proof.
  rewrite <- (SortChangeSet_deterministic NoResolver demo_state demo_deletes (reverse demo_deletes) demo_index).
  - vm_compute. reflexivity.
  - symmetry. apply reverse_Permutation.
  - intros a b Ha Hb _ Hn _. unfold demo_deletes in *. rewrite !elem_of_cons, elem_of_nil in Ha, Hb.
    destruct Ha as [->|[->|[]]], Hb as [->|[->|[]]]; try reflexivity; vm_compute in Hn; discriminate Hn.
Defined.
End Order.
