(* ===== verification/RegDelta.v ===== *)
(** * State transitions of the registry ([topology/state_builder.go])

    Validation and application of operations, replay of a history, the delta between two
    states, squashing of changesets into one, and reversal. [compare] is the builder's
    comparison of entries ([reflect.DeepEqual] unless configured). Maps are iterated in
    an arbitrary order and the code sorts what it collects; logging is not modelled.

    The theorems: the delta between two states, applied in its sorted order, leads from
    one to the other; a squashed history has the effect of the history; reversing a
    changeset undoes it; and the dependency index patched with a changeset is the index of
    the state the changeset leads to. *)

From S2P Require Import Prelude Bytes GoStrings Graph RegEntry RegDeps RegOrder.

Module Delta.
Import Entries Deps Order.

Inductive builder_error :=
| EntryExists (id : ID)
| EntryNotExists (id : ID)
| KindChange (id : ID) (fromKind toKind : string)
| DeleteNonExistent (id : ID)
| UnknownOperationKind (kind : string)
| OriginalEntryNotFound (id : ID)
| DuplicateEntryID (side : string) (ns name : string)
| SortFailed (e : sort_error).

(** ** Operations *)

Definition ValidateOperation (state : StateMap) (op : Operation) : option builder_error :=
  let id := opID op in
  if bool_decide (oKind op = EntryCreate) then
    if bool_decide (is_Some (state !! id)) then Some (EntryExists id) else None
  else if bool_decide (oKind op = EntryUpdate) then
    match state !! id with
    | None => Some (EntryNotExists id)
    | Some existing =>
        if bool_decide (Kind existing ≠ Kind (oEntry op)) then Some (KindChange id (Kind existing) (Kind (oEntry op))) else None
    end
  else if bool_decide (oKind op = EntryDelete) then
    if bool_decide (state !! id = None) then Some (DeleteNonExistent id) else None
  else Some (UnknownOperationKind (oKind op)).

Definition applyValidatedOperation (state : StateMap) (op : Operation) : StateMap :=
  if bool_decide (oKind op = EntryCreate) || bool_decide (oKind op = EntryUpdate) then <[opID op := oEntry op]> state
  else if bool_decide (oKind op = EntryDelete) then delete (opID op) state
  else state.

(** [ApplyOperation] and its in-place variants: the state is unchanged on an error. *)
Definition ApplyOperation (state : StateMap) (op : Operation) : result builder_error StateMap :=
  match ValidateOperation state op with
  | Some e => Err e
  | None => Ok (applyValidatedOperation state op)
  end.

(** A changeset applied operation by operation: the replay loops of [BuildState]. *)
Fixpoint apply_all (state : StateMap) (ops : ChangeSet) : result builder_error StateMap :=
  match ops with
  | [] => Ok state
  | op :: ops => match ApplyOperation state op with Err e => Err e | Ok state => apply_all state ops end
  end.

(** [BuildState] on a history that streams its changesets in order. *)
Definition BuildState (changes : list ChangeSet) : result builder_error State :=
  match apply_all ∅ (concat changes) with
  | Err e => Err e
  | Ok state => Ok (StateMapToSlice state)
  end.

Definition GetInverseOperation (op : Operation) : result builder_error Operation :=
  if bool_decide (oKind op = EntryCreate) then Ok (mkOp None EntryDelete (oEntry op))
  else if bool_decide (oKind op = EntryUpdate) then
    match OriginalEntry op with
    | None => Err (OriginalEntryNotFound (opID op))
    | Some e => Ok (mkOp None EntryUpdate e)
    end
  else if bool_decide (oKind op = EntryDelete) then
    match OriginalEntry op with
    | None => Err (OriginalEntryNotFound (opID op))
    | Some e => Ok (mkOp None EntryCreate e)
    end
  else Err (UnknownOperationKind (oKind op)).

(** Operations without an inverse are skipped with a warning. *)
Definition ReverseChangeset (cs : ChangeSet) : ChangeSet :=
  omap (λ op, match GetInverseOperation op with Ok inv => Some inv | Err _ => None end) (reverse cs).

Section builder.
Variable r : resolver.
Variable compare : Entry → Entry → bool.

(** ** Squashing *)

Definition squash_op (operations : gmap ID Operation) (op : Operation) : gmap ID Operation :=
  let id := opID op in
  match operations !! id with
  | None => <[id := op]> operations
  | Some existing =>
      if bool_decide (oKind existing = EntryCreate) then
        if bool_decide (oKind op = EntryUpdate) then <[id := mkOp None EntryCreate (oEntry op)]> operations
        else if bool_decide (oKind op = EntryDelete) then delete id operations
        else if bool_decide (oKind op = EntryCreate) then <[id := op]> operations
        else operations
      else if bool_decide (oKind existing = EntryUpdate) then
        if bool_decide (oKind op = EntryUpdate) || bool_decide (oKind op = EntryDelete) || bool_decide (oKind op = EntryCreate)
        then <[id := op]> operations else operations
      else if bool_decide (oKind existing = EntryDelete) then
        if bool_decide (oKind op = EntryCreate) then
          if bool_decide (Kind (oEntry existing) = Kind (oEntry op)) then <[id := mkOp None EntryUpdate (oEntry op)]> operations
          else <[id := op]> operations
        else if bool_decide (oKind op = EntryUpdate) then <[id := mkOp None EntryCreate (oEntry op)]> operations
        else operations
      else operations
  end.

Definition SquashChangesets (changesets : list ChangeSet) : ChangeSet :=
  let operations := foldl squash_op ∅ (concat changesets) in
  let result := sortChangeSetInputForStableOrder (map_to_list operations).*2 in
  if bool_decide (length result = 0)%nat then result else
  match SortChangeSet r (oEntry <$> result) result with
  | Ok sorted => sorted
  | Err _ => result
  end.

(** ** Duplicates and deltas *)

Definition normalID (id : ID) : ID :=
  let trim s := string_of (TrimSpace (bytes_of s)) in
  let '(n, m) :=
    if bool_decide (trim (NS id) = "") && contains (Name id) colon then
      let parsed := ParseID (Name id) in
      if bool_decide (NS parsed ≠ "") || bool_decide (Name parsed ≠ "") then (NS parsed, Name parsed) else (NS id, Name id)
    else (NS id, Name id) in
  NewID (trim n) (trim m).

Fixpoint first_duplicate (seen : gset ID) (state : State) : option ID :=
  match state with
  | [] => None
  | e :: state =>
      let id := normalID (eID e) in
      if bool_decide (id ∈ seen) then Some id else first_duplicate ({[id]} ∪ seen) state
  end.

Definition firstDuplicateID (state : State) : option ID := first_duplicate ∅ state.

Definition ValidateUniqueEntryIDs (side : string) (state : State) : option builder_error :=
  match firstDuplicateID state with Some dup => Some (DuplicateEntryID side (NS dup) (Name dup)) | None => None end.

Definition deletions (from : State) (toState : StateMap) : ChangeSet :=
  mkOp None EntryDelete <$> filter (λ e, toState !! eID e = None) from.

Definition writes (fromState : StateMap) (to : State) : ChangeSet :=
  omap (λ e, match fromState !! eID e with
             | None => Some (mkOp None EntryCreate e)
             | Some old => if negb (compare old e) then Some (mkOp None EntryUpdate e) else None
             end) to.

Definition BuildDelta (from to : State) : result builder_error ChangeSet :=
  match firstDuplicateID to with
  | Some dup => Err (DuplicateEntryID "target" (NS dup) (Name dup))
  | None =>
      match firstDuplicateID from with
      | Some dup => Err (DuplicateEntryID "source" (NS dup) (Name dup))
      | None =>
          match SortChangeSet r from (deletions from (NewStateMap to) ++ writes (NewStateMap from) to) with
          | Ok sorted => Ok sorted
          | Err e => Err (SortFailed e)
          end
      end
  end.

(** ** Applying operations on distinct identifiers *)

(** The effect of an operation on its identifier *)
Definition effect (op : Operation) : option Entry := if is_delete op then None else Some (oEntry op).

Lemma kinds_distinct :
  EntryCreate ≠ EntryUpdate ∧ EntryCreate ≠ EntryDelete ∧ EntryUpdate ≠ EntryDelete.
Proof. done. Qed.

Lemma valid_kind st op :
  ValidateOperation st op = None → oKind op = EntryCreate ∨ oKind op = EntryUpdate ∨ oKind op = EntryDelete.
Proof.
  unfold ValidateOperation. destruct (bool_decide_reflect (oKind op = EntryCreate)); [tauto|].
  destruct (bool_decide_reflect (oKind op = EntryUpdate)); [tauto|].
  destruct (bool_decide_reflect (oKind op = EntryDelete)); [tauto|done].
Qed.

Lemma apply_valid st op :
  ValidateOperation st op = None → ApplyOperation st op = Ok (partial_alter (λ _, effect op) (opID op) st).
Proof.
  intros Hv. unfold ApplyOperation. rewrite Hv. f_equal. unfold applyValidatedOperation, effect, is_delete.
  destruct (valid_kind st op Hv) as [Hk|[Hk|Hk]]; rewrite Hk; done.
Qed.

(** Validity depends on the entry under the operation's identifier only. *)
Lemma validate_local st st' op : st !! opID op = st' !! opID op → ValidateOperation st op = ValidateOperation st' op.
Proof. intros He. unfold ValidateOperation. by rewrite He. Qed.

Lemma apply_distinct ops st :
  NoDup (opID <$> ops) → (∀ op, op ∈ ops → ValidateOperation st op = None) →
  ∃ st', apply_all st ops = Ok st' ∧ (∀ op, op ∈ ops → st' !! opID op = effect op) ∧
         ∀ id, id ∉ opID <$> ops → st' !! id = st !! id.
Proof.
  revert st. induction ops as [|op ops IH]; intros st Hn Hv; [exists st; split_and!; [done| |done]; by intros op Ho%elem_of_nil|].
  apply NoDup_cons in Hn as [Ho Hn]. cbn [apply_all]. rewrite apply_valid by (apply Hv; by left).
  destruct (IH (partial_alter (λ _, effect op) (opID op) st) Hn) as (st' & H1 & H2 & H3).
  { intros x Hx. rewrite (validate_local _ st); [apply Hv; by right|]. rewrite lookup_partial_alter_ne; [done|].
    intros He. apply Ho. rewrite He. by apply list_elem_of_fmap_2. }
  exists st'. split; [done|]. split.
  - intros x [->|Hx]%elem_of_cons; [|by apply H2]. rewrite H3 by done. by rewrite lookup_partial_alter_eq.
  - intros id Hid. rewrite fmap_cons, not_elem_of_cons in Hid. destruct Hid as [Hne Hid]. rewrite H3 by done.
    by rewrite lookup_partial_alter_ne.
Qed.

(** The effect of such a changeset does not depend on its order. *)
Lemma apply_perm ops1 ops2 st st' :
  ops1 ≡ₚ ops2 → NoDup (opID <$> ops1) → apply_all st ops1 = Ok st' →
  (∀ op, op ∈ ops1 → ValidateOperation st op = None) → apply_all st ops2 = Ok st'.
Proof.
  intros Hp Hn Ha Hv. destruct (apply_distinct ops1 st Hn Hv) as (s1 & H1 & H2 & H3). rewrite Ha in H1. injection H1 as <-.
  destruct (apply_distinct ops2 st) as (s2 & -> & G2 & G3); [by rewrite <- Hp|intros op; rewrite <- Hp; apply Hv|].
  f_equal. apply map_eq. intros id. destruct (decide (id ∈ opID <$> ops2)) as [Hin|Hin].
  - apply list_elem_of_fmap in Hin as (op & -> & Hop). rewrite G2 by done. symmetry. apply H2. by rewrite Hp.
  - rewrite G3 by done. symmetry. apply H3. by rewrite Hp.
Qed.

Lemma apply_app st ops1 ops2 :
  apply_all st (ops1 ++ ops2) = match apply_all st ops1 with Ok st' => apply_all st' ops2 | Err e => Err e end.
Proof.
  revert st. induction ops1 as [|op ops1 IH]; intros st; cbn; [done|]. by destruct (ApplyOperation st op).
Qed.

(** ** Duplicates *)

Lemma no_duplicate state seen :
  first_duplicate seen state = None → NoDup (normalID <$> (eID <$> state)) ∧ ∀ e, e ∈ state → normalID (eID e) ∉ seen.
Proof using.
  clear r compare.
  revert seen. induction state as [|e state IH]; intros seen; cbn; [split; [constructor|by intros e He%elem_of_nil]|].
  destruct (bool_decide_reflect (normalID (eID e) ∈ seen)) as [|Hs]; [done|]. intros [H1 H2]%IH. split.
  - apply NoDup_cons. split; [|done]. intros Hin. apply list_elem_of_fmap in Hin as (id & He & Hin).
    apply list_elem_of_fmap in Hin as (x & -> & Hx). apply (H2 x Hx). rewrite <- He. set_solver.
  - intros x [->|Hx]%elem_of_cons; [done|]. specialize (H2 x Hx). set_solver.
Qed.

Lemma unique_ids state : firstDuplicateID state = None → NoDup (eID <$> state).
Proof. intros [H1 _]%no_duplicate. by eapply NoDup_fmap_1. Qed.

(** ** The delta *)

Section delta.
Variables (from to : State).
Hypothesis Hfrom : NoDup (eID <$> from).
Hypothesis Hto : NoDup (eID <$> to).

Definition delta_ops : ChangeSet := deletions from (NewStateMap to) ++ writes (NewStateMap from) to.

Lemma elem_of_deletions op :
  op ∈ deletions from (NewStateMap to) ↔ ∃ e, e ∈ from ∧ NewStateMap to !! eID e = None ∧ op = mkOp None EntryDelete e.
Proof.
  unfold deletions. rewrite list_elem_of_fmap. setoid_rewrite list_elem_of_filter. naive_solver.
Qed.

Lemma elem_of_writes op :
  op ∈ writes (NewStateMap from) to ↔
  ∃ e, e ∈ to ∧ ((NewStateMap from !! eID e = None ∧ op = mkOp None EntryCreate e) ∨
    ∃ old, NewStateMap from !! eID e = Some old ∧ compare old e = false ∧ op = mkOp None EntryUpdate e).
Proof.
  unfold writes. rewrite list_elem_of_omap. split.
  - intros (e & He & Ho). exists e. split; [done|]. destruct (NewStateMap from !! eID e) as [old|]; [|left; naive_solver].
    right. exists old. destruct (compare old e); naive_solver.
  - intros (e & He & [[Hn ->]|(old & Hn & Hc & ->)]); exists e; (split; [done|]); rewrite Hn; [done|]. by rewrite Hc.
Qed.

Lemma NoDup_writes : NoDup (opID <$> writes (NewStateMap from) to).
Proof.
  unfold writes. clear Hfrom. generalize (NewStateMap from) as st. intros st. induction to as [|e es IH]; [constructor|].
  apply NoDup_cons in Hto as [He Hes]. assert (Hsub : ∀ id, id ∈ opID <$> omap (λ e, match st !! eID e with
    | None => Some (mkOp None EntryCreate e) | Some old => if negb (compare old e) then Some (mkOp None EntryUpdate e) else None end) es → id ∈ eID <$> es).
  { intros id (op & -> & (x & Hx & Ho)%list_elem_of_omap)%list_elem_of_fmap. apply list_elem_of_fmap. exists x. split; [|done].
    destruct (st !! eID x) as [old|]; [destruct (negb _)|]; naive_solver. }
  cbn. destruct (match st !! eID e with None => _ | Some _ => _ end) as [op|] eqn:Eo; [|by apply IH].
  rewrite fmap_cons. apply NoDup_cons. split; [|by apply IH]. intros Hin%Hsub. apply He.
  assert (opID op = eID e) as <-; [|done]. destruct (st !! eID e) as [old|]; [destruct (negb _)|]; naive_solver.
Qed.

Lemma write_id op : op ∈ writes (NewStateMap from) to → ∃ e, e ∈ to ∧ opID op = eID e ∧ oEntry op = e ∧ is_delete op = false.
Proof. intros (e & He & [[_ ->]|(old & _ & _ & ->)])%elem_of_writes; by exists e. Qed.

Lemma NoDup_delta : NoDup (opID <$> delta_ops).
Proof.
  unfold delta_ops. rewrite fmap_app. apply NoDup_app. split_and!; [| |apply NoDup_writes].
  - unfold deletions. rewrite <- list_fmap_compose. apply (sublist_NoDup _ _ Hfrom). apply fmap_sublist, sublist_filter.
  - intros id (d & -> & (e & _ & Hn & ->)%elem_of_deletions)%list_elem_of_fmap (w & Hw & (x & Hx & Hwx & _)%write_id)%list_elem_of_fmap.
    assert (NewStateMap to !! eID x = Some x) as Hs by (by apply NewStateMap_Some). unfold opID in *. cbn in *. congruence.
Qed.

Lemma delta_valid :
  (∀ a b, a ∈ from → b ∈ to → eID a = eID b → compare a b = false → Kind a = Kind b) →
  ∀ op, op ∈ delta_ops → ValidateOperation (NewStateMap from) op = None.
Proof.
  intros Hk op. unfold delta_ops. rewrite elem_of_app, elem_of_deletions, elem_of_writes. unfold ValidateOperation, opID.
  intros [(e & He & _ & ->)|(e & He & [[Hn ->]|(old & Hn & Hc & ->)])]; cbn.
  - assert (NewStateMap from !! eID e = Some e) as -> by (by apply NewStateMap_Some). done.
  - rewrite Hn. done.
  - rewrite Hn. pose proof Hn as [Hold Hid]%NewStateMap_Some; [|done]. rewrite (bool_decide_eq_false_2 (Kind old ≠ Kind e)); [done|].
    intros Hne. apply Hne. by apply Hk.
Qed.

(** What the operations of the delta make of the source *)
Lemma delta_effect (st' : StateMap) :
  (∀ op, op ∈ delta_ops → st' !! opID op = effect op) → (∀ id, id ∉ opID <$> delta_ops → st' !! id = NewStateMap from !! id) →
  ∀ id, option_Forall2 (λ a b, a = b ∨ compare a b = true) (st' !! id) (NewStateMap to !! id).
Proof.
  intros Hin Hout id. destruct (decide (id ∈ opID <$> delta_ops)) as [Hid|Hid].
  - apply list_elem_of_fmap in Hid as (op & -> & Hop). rewrite Hin by done. unfold delta_ops in Hop.
    apply elem_of_app in Hop as [(e & He & Hn & ->)%elem_of_deletions|(e & He & Hid & Hent & Hd)%write_id].
    + unfold opID. cbn. rewrite Hn. constructor.
    + rewrite Hid. assert (NewStateMap to !! eID e = Some e) as -> by (by apply NewStateMap_Some).
      unfold effect. rewrite Hd, Hent. constructor. by left.
  - rewrite Hout by done. destruct (NewStateMap from !! id) as [a|] eqn:Ea, (NewStateMap to !! id) as [b|] eqn:Eb; [..|constructor].
    + constructor. apply NewStateMap_Some in Eb as [Hb <-]; [|done]. destruct (compare a b) eqn:Ec; [by right|]. exfalso. apply Hid.
      apply list_elem_of_fmap. exists (mkOp None EntryUpdate b). split; [done|]. apply elem_of_app. right. apply elem_of_writes. exists b. split; [done|]. right. by exists a.
    + exfalso. apply Hid. apply NewStateMap_Some in Ea as [Ha <-]; [|done]. apply list_elem_of_fmap. exists (mkOp None EntryDelete a). split; [done|].
      apply elem_of_app. left. apply elem_of_deletions. by exists a.
    + exfalso. apply Hid. apply NewStateMap_Some in Eb as [Hb <-]; [|done]. apply list_elem_of_fmap. exists (mkOp None EntryCreate b). split; [done|].
      apply elem_of_app. right. apply elem_of_writes. exists b. split; [done|]. by left.
Qed.
End delta.

Lemma ops_ok_distinct ops : NoDup (opID <$> ops) → (∀ op, op ∈ ops → id_ok (opID op)) → ops_ok ops.
Proof.
  intros Hn Hok. split_and!; [..|done]; apply (sublist_NoDup _ _ Hn); apply fmap_sublist, sublist_filter.
Qed.

Lemma BuildDelta_run from to :
  firstDuplicateID from = None → firstDuplicateID to = None →
  (∀ e, e ∈ from ++ to → id_ok (eID e)) →
  (∀ a b, a ∈ from → b ∈ to → eID a = eID b → compare a b = false → Kind a = Kind b) →
  ∃ ops st', BuildDelta from to = Ok ops ∧ ops ≡ₚ delta_ops from to ∧ apply_all (NewStateMap from) ops = Ok st' ∧
    ∀ id, option_Forall2 (λ a b, a = b ∨ compare a b = true) (st' !! id) (NewStateMap to !! id).
Proof.
  intros Hf Ht Hok Hk. pose proof (unique_ids _ Hf) as Nf. pose proof (unique_ids _ Ht) as Nt.
  pose proof (NoDup_delta from to Nf Nt) as Nd. pose proof (delta_valid from to Nf Hk) as Hv.
  unfold BuildDelta. rewrite Ht, Hf. fold (delta_ops from to).
  assert (Hids : ∀ op, op ∈ delta_ops from to → id_ok (opID op)).
  { intros op [(e & He & _ & ->)%elem_of_deletions|(e & He & -> & _)%write_id]%elem_of_app; apply Hok, elem_of_app; tauto. }
  destruct (SortChangeSet_total r from (delta_ops from to)) as [ops Hs].
  { intros d c Hd Hc Hdel Hcr He. apply list_elem_of_lookup in Hd as [i Hi], Hc as [j Hj].
    assert (i = j) as -> by (eapply (NoDup_lookup _ i j (opID c) Nd); rewrite list_lookup_fmap, ?Hi, ?Hj; cbn; congruence).
    assert (d = c) as -> by congruence. apply create_not_delete in Hcr. congruence. }
  rewrite Hs. pose proof (SortChangeSet_perm r from _ _ (ops_ok_distinct _ Nd Hids) Hs) as Hp.
  destruct (apply_distinct (delta_ops from to) (NewStateMap from) Nd Hv) as (st' & Ha & H1 & H2).
  exists ops, st'. split_and!; [done|done|by apply (apply_perm (delta_ops from to))|by apply (delta_effect from to Nf Nt)].
Qed.


(** ** Squashing *)

(** Each identifier keeps one kind throughout. *)
Definition kind_stable (k : ID → string) (st : StateMap) (ops : ChangeSet) : Prop :=
  (∀ id e, st !! id = Some e → Kind e = k id) ∧ ∀ op, op ∈ ops → Kind (oEntry op) = k (opID op).

(** The collected operations take the first state to the current one. *)
Definition squashed (st cur : StateMap) (m : gmap ID Operation) : Prop :=
  ∀ id, match m !! id with
        | None => cur !! id = st !! id
        | Some op => opID op = id ∧ ValidateOperation st op = None ∧ cur !! id = effect op
        end.

Lemma validate_create st op : oKind op = EntryCreate → ValidateOperation st op = None ↔ st !! opID op = None.
Proof.
  intros Hk. unfold ValidateOperation. rewrite Hk. cbn. destruct (st !! opID op) as [e|] eqn:Ee; cbn; [|done].
  rewrite bool_decide_eq_true_2 by (by eexists). done.
Qed.

Lemma validate_update st op :
  oKind op = EntryUpdate → ValidateOperation st op = None ↔ ∃ e, st !! opID op = Some e ∧ Kind e = Kind (oEntry op).
Proof using.
  clear r compare. intros Hk. unfold ValidateOperation. rewrite Hk. cbn. destruct (st !! opID op) as [e|]; [|naive_solver].
  destruct (bool_decide_reflect (Kind e ≠ Kind (oEntry op))) as [Hn|Hn]; [naive_solver|]. apply dec_stable in Hn. naive_solver.
Qed.

Lemma validate_delete st op : oKind op = EntryDelete → ValidateOperation st op = None ↔ is_Some (st !! opID op).
Proof using.
  clear r compare.
  intros Hk. unfold ValidateOperation. rewrite Hk. cbn. destruct (st !! opID op); cbn; [|by split; [|intros []]].
  rewrite bool_decide_eq_false_2 by done. naive_solver.
Qed.

Definition kinds_of (k : ID → string) (m : gmap ID Operation) : Prop := ∀ id x, m !! id = Some x → Kind (oEntry x) = k id.

(** Replacing the operation collected for an identifier *)
Lemma squash_set k st cur m op x :
  squashed st cur m → kinds_of k m → opID x = opID op → ValidateOperation st x = None → effect x = effect op →
  Kind (oEntry x) = k (opID op) →
  squashed st (partial_alter (λ _, effect op) (opID op) cur) (<[opID op := x]> m) ∧ kinds_of k (<[opID op := x]> m).
Proof.
  intros Hs Km Hx Hvx Hex Hkx. split.
  - intros j. specialize (Hs j). destruct (decide (j = opID op)) as [->|Hj].
    + by rewrite lookup_insert_eq, lookup_partial_alter_eq.
    + by rewrite lookup_insert_ne, lookup_partial_alter_ne.
  - intros j y. rewrite lookup_insert_Some. intros [[<- <-]|[_ Hy]]; [done|by apply Km].
Qed.

(** Forgetting a creation that is undone *)
Lemma squash_forget k st cur m op x :
  squashed st cur m → kinds_of k m → m !! opID op = Some x → oKind x = EntryCreate → oKind op = EntryDelete →
  squashed st (partial_alter (λ _, effect op) (opID op) cur) (delete (opID op) m) ∧ kinds_of k (delete (opID op) m).
Proof.
  intros Hs Km Em Hx Ho. split; [|intros j y [_ Hy]%lookup_delete_Some; by apply Km]. intros j. pose proof (Hs j) as Hj.
  destruct (decide (j = opID op)) as [->|Hne]; [|by rewrite lookup_delete_ne, lookup_partial_alter_ne].
  rewrite lookup_delete_eq, lookup_partial_alter_eq. rewrite Em in Hj. destruct Hj as (Hxid & Hvx & _).
  apply (validate_create st x Hx) in Hvx. rewrite Hxid in Hvx. unfold effect, is_delete. by rewrite Ho, Hvx.
Qed.

Lemma squash_step k st cur m op cur' :
  kind_stable k st [op] → kinds_of k m → squashed st cur m → ApplyOperation cur op = Ok cur' →
  squashed st cur' (squash_op m op) ∧ kinds_of k (squash_op m op).
Proof.
  intros [K1 K2] Km Hs Ha. pose proof (K2 op ltac:(by left)) as Kop.
  assert (ValidateOperation cur op = None) as Hv by (unfold ApplyOperation in Ha; by destruct (ValidateOperation cur op)).
  rewrite apply_valid in Ha by done. injection Ha as <-.
  pose proof (Hs (opID op)) as Hid. unfold squash_op. destruct (m !! opID op) as [x|] eqn:Em.
  2:{ apply squash_set; try done. rewrite <- Hv. by apply validate_local. }
  destruct Hid as (Hxid & Hvx & Hcx). pose proof (Km _ x Em) as Hkx.
  assert (Heff : ∀ e, effect (mkOp None EntryUpdate e) = Some e ∧ effect (mkOp None EntryCreate e) = Some e) by done.
  destruct (valid_kind cur op Hv) as [Ho|[Ho|Ho]].
  - apply (validate_create cur op Ho) in Hv. rewrite Hcx in Hv. unfold effect, is_delete in Hv.
    destruct (bool_decide_reflect (oKind x = EntryDelete)) as [Hxd|]; [|done]. rewrite Hxd, Ho. cbn -[insert].
    apply (validate_delete st x Hxd) in Hvx as [e He]. rewrite Hxid in He.
    rewrite (bool_decide_eq_true_2 (Kind (oEntry x) = Kind (oEntry op))) by congruence.
    apply squash_set; try done; [|by unfold effect, is_delete; rewrite Ho].
    apply validate_update; [done|]. exists e. split; [done|]. cbn. rewrite Kop. by apply K1.
  - apply (validate_update cur op Ho) in Hv as (e & He & Hke). rewrite Hcx in He. unfold effect, is_delete in He.
    destruct (bool_decide_reflect (oKind x = EntryDelete)) as [|Hxd]; [done|]. rewrite Ho.
    destruct (valid_kind st x Hvx) as [Hx|[Hx|Hx]]; [| |done]; rewrite Hx; cbn -[insert].
    + apply squash_set; try done; [|by unfold effect, is_delete; rewrite Ho].
      apply validate_create; [done|]. apply (validate_create st x Hx) in Hvx. by rewrite Hxid in Hvx.
    + apply squash_set; try done. apply (validate_update st x Hx) in Hvx as (o & Hso & Hko). rewrite Hxid in Hso.
      apply validate_update; [done|]. exists o. split; [done|]. congruence.
  - apply (validate_delete cur op Ho) in Hv as [e He]. rewrite Hcx in He. unfold effect, is_delete in He.
    destruct (bool_decide_reflect (oKind x = EntryDelete)) as [|Hxd]; [done|]. rewrite Ho.
    destruct (valid_kind st x Hvx) as [Hx|[Hx|Hx]]; [| |done]; rewrite Hx; cbn -[insert delete].
    + by eapply squash_forget.
    + apply squash_set; try done. apply (validate_update st x Hx) in Hvx as (o & Hso & _). rewrite Hxid in Hso.
      apply validate_delete; [done|]. by exists o.
Qed.

Lemma squash_all k st cur m ops cur' :
  kind_stable k st ops → kinds_of k m → squashed st cur m → apply_all cur ops = Ok cur' →
  squashed st cur' (foldl squash_op m ops).
Proof.
  revert cur m. induction ops as [|op ops IH]; intros cur m [K1 K2] Km Hs; cbn; [by intros [= <-]|].
  destruct (ApplyOperation cur op) as [c1|] eqn:Ea; [|done]. intros Hall.
  destruct (squash_step k st cur m op c1) as [H1 H2]; [|done..|].
  - split; [done|]. intros x ->%list_elem_of_singleton. apply K2. by left.
  - eapply IH; [|done..]. split; [done|]. intros x Hx. apply K2. by right.
Qed.

(** Every operation of a squashed list comes from the list. *)
Lemma squash_ids m ops id : is_Some (foldl squash_op m ops !! id) → is_Some (m !! id) ∨ id ∈ opID <$> ops.
Proof using.
  clear r compare.
  revert m. induction ops as [|op ops IH]; intros m; cbn; [by left|]. intros [Hm|Hm]%IH; [|right; set_solver].
  destruct (decide (id = opID op)) as [->|Hne]; [right; set_solver|]. left. revert Hm. unfold squash_op.
  repeat case_match; rewrite ?lookup_insert_ne, ?lookup_delete_ne by done; done.
Qed.

(** The collected operations, in the order Go iterates the map *)
Section collected.
Variables (st cur : StateMap) (m : gmap ID Operation).
Hypothesis Hs : squashed st cur m.
Notation ops := (map_to_list m).*2.

Lemma collected_lookup op : op ∈ ops → m !! opID op = Some op.
Proof using Hs.
  intros ([id x] & -> & Hx%elem_of_map_to_list)%list_elem_of_fmap. cbn. specialize (Hs id). rewrite Hx in Hs.
  by destruct Hs as [-> _].
Qed.

Lemma collected_ids : opID <$> ops = (map_to_list m).*1.
Proof using Hs.
  rewrite <- list_fmap_compose. apply list_fmap_ext. intros i [id x] Hi%list_elem_of_lookup_2%elem_of_map_to_list. cbn.
  specialize (Hs id). rewrite Hi in Hs. by destruct Hs as [-> _].
Qed.

Lemma NoDup_collected : NoDup (opID <$> ops).
Proof using Hs. rewrite collected_ids. apply NoDup_fst_map_to_list. Qed.

Lemma collected_valid op : op ∈ ops → ValidateOperation st op = None.
Proof using Hs. intros Hop%collected_lookup. pose proof (Hs (opID op)) as Hid. rewrite Hop in Hid. tauto. Qed.

Lemma collected_effect : apply_all st ops = Ok cur.
Proof using Hs.
  destruct (apply_distinct ops st NoDup_collected collected_valid) as (s & -> & H1 & H2). f_equal. apply map_eq.
  intros id. pose proof (Hs id) as Hid. destruct (m !! id) as [op|] eqn:Em.
  - destruct Hid as (Hid & _ & ->). rewrite <- Hid. apply H1. apply list_elem_of_fmap. exists (id, op).
    by rewrite elem_of_map_to_list.
  - rewrite Hid. apply H2. rewrite collected_ids. intros ([x y] & -> & Hx%elem_of_map_to_list)%list_elem_of_fmap.
    cbn in Em. congruence.
Qed.
End collected.

Lemma squash_all_from k st css st' :
  kind_stable k st (concat css) → apply_all st (concat css) = Ok st' → squashed st st' (foldl squash_op ∅ (concat css)).
Proof.
  intros Hk Ha. eapply squash_all; [done| | |done]; [intros id x Hx; by rewrite lookup_empty in Hx|]. intros id.
  by rewrite lookup_empty.
Qed.

Lemma SquashChangesets_perm st cur css :
  squashed st cur (foldl squash_op ∅ (concat css)) → (∀ op, op ∈ concat css → id_ok (opID op)) →
  SquashChangesets css ≡ₚ (map_to_list (foldl squash_op ∅ (concat css))).*2.
Proof.
  intros Hs Hok. unfold SquashChangesets. set (ops := (map_to_list _).*2).
  set (res := sortChangeSetInputForStableOrder ops). pose proof (normalize_perm ops : res ≡ₚ ops) as Hres.
  assert (ops_ok res) as Hrok.
  { eapply ops_ok_perm; [by symmetry|]. apply ops_ok_distinct; [by eapply NoDup_collected|].
    intros op Hop%(collected_lookup _ _ _ Hs).
    destruct (squash_ids ∅ (concat css) (opID op)) as [Hx|Hx]; [by eexists|by rewrite lookup_empty in Hx; destruct Hx|].
    apply list_elem_of_fmap in Hx as (x & -> & Hx). by apply Hok. }
  destruct (bool_decide _); [done|]. destruct (SortChangeSet r (oEntry <$> res) res) as [sorted|] eqn:Es; [|done].
  by rewrite (SortChangeSet_perm r _ _ _ Hrok Es).
Qed.

(** Squashing a history keeps its effect: when a sequence of changesets can be applied
    to a state, each identifier keeping its kind, the squashed changeset can be applied to
    that state too and leads to the same state, with one operation per identifier. *)
Theorem SquashChangesets_effect k st css st' :
  kind_stable k st (concat css) → (∀ op, op ∈ concat css → id_ok (opID op)) → apply_all st (concat css) = Ok st' →
  apply_all st (SquashChangesets css) = Ok st' ∧ NoDup (opID <$> SquashChangesets css).
Proof.
  intros Hk Hok Ha. pose proof (squash_all_from k st css st' Hk Ha) as Hs.
  pose proof (SquashChangesets_perm st st' css Hs Hok) as Hp. pose proof (NoDup_collected _ _ _ Hs) as Hnd.
  split; [|by rewrite Hp]. apply (apply_perm (map_to_list (foldl squash_op ∅ (concat css))).*2); [done|done| |].
  - by apply collected_effect.
  - by apply (collected_valid _ st').
Qed.

(** ** Reversal *)

(** The body of the loop of [Reg.enrichChangeset]: the entry an operation replaces or removes *)
Definition enrich_op (state : StateMap) (op : Operation) : Operation :=
  if bool_decide (oKind op = EntryUpdate) || bool_decide (oKind op = EntryDelete) then
    match state !! opID op with
    | Some original => mkOp (Some original) (oKind op) (oEntry op)
    | None => op
    end
  else op.

Definition enrichChangeset (state : StateMap) (changes : ChangeSet) : ChangeSet := enrich_op state <$> changes.

(** An applied changeset on distinct identifiers was valid throughout on the state it started from. *)
Lemma applied_valid ops st st' :
  NoDup (opID <$> ops) → apply_all st ops = Ok st' → ∀ op, op ∈ ops → ValidateOperation st op = None.
Proof.
  revert st. induction ops as [|x ops IH]; intros st Hn Ha op Hop; [by apply elem_of_nil in Hop|].
  apply NoDup_cons in Hn as [Hx Hn]. cbn [apply_all] in Ha.
  destruct (ApplyOperation st x) as [s|] eqn:Ex; [|done].
  assert (ValidateOperation st x = None) as Hv by (unfold ApplyOperation in Ex; by destruct (ValidateOperation st x)).
  apply elem_of_cons in Hop as [->|Hop]; [done|].
  rewrite apply_valid in Ex by done. injection Ex as <-. rewrite <- (IH _ Hn Ha op Hop). apply validate_local.
  rewrite lookup_partial_alter_ne; [done|]. intros He. apply Hx. rewrite He. by apply list_elem_of_fmap_2.
Qed.

Lemma applied_effect ops st st' :
  NoDup (opID <$> ops) → apply_all st ops = Ok st' →
  (∀ op, op ∈ ops → st' !! opID op = effect op) ∧ ∀ id, id ∉ opID <$> ops → st' !! id = st !! id.
Proof.
  intros Hn Ha. destruct (apply_distinct ops st Hn (applied_valid ops st st' Hn Ha)) as (s & Hs & H).
  assert (s = st') as -> by congruence. done.
Qed.

(** The inverse of an enriched operation *)
Definition inverse_of (st : StateMap) (op : Operation) : Operation :=
  match st !! opID op with
  | None => mkOp None EntryDelete (oEntry op)
  | Some o => mkOp None (if is_delete op then EntryCreate else EntryUpdate) o
  end.

Lemma inverse_enriched st op :
  ValidateOperation st op = None → GetInverseOperation (enrich_op st op) = Ok (inverse_of st op).
Proof.
  intros Hv. unfold enrich_op, inverse_of, GetInverseOperation, is_delete. destruct (valid_kind st op Hv) as [Hk|[Hk|Hk]].
  - apply (validate_create st op Hk) in Hv. rewrite Hv. destruct op. cbn in Hk. by subst.
  - apply (validate_update st op Hk) in Hv as (e & He & _). by rewrite Hk, He.
  - apply (validate_delete st op Hk) in Hv as [e He]. by rewrite Hk, He.
Qed.

Lemma ReverseChangeset_enriched st ops :
  (∀ op, op ∈ ops → ValidateOperation st op = None) →
  ReverseChangeset (enrichChangeset st ops) = reverse (inverse_of st <$> ops).
Proof.
  intros Hv. unfold ReverseChangeset, enrichChangeset. rewrite <- !fmap_reverse.
  assert (∀ op, op ∈ reverse ops → ValidateOperation st op = None) as Hr by (intros op; rewrite elem_of_reverse; apply Hv).
  clear Hv. induction (reverse ops) as [|op l IH]; [done|].
  rewrite !fmap_cons. cbn. rewrite inverse_enriched by (apply Hr; by left). f_equal. apply IH. intros x Hx. apply Hr. by right.
Qed.

Lemma inverse_id st op : keyed st → opID (inverse_of st op) = opID op.
Proof. intros Hk. unfold inverse_of. destruct (st !! opID op) as [o|] eqn:Eo; [|done]. by apply Hk in Eo. Qed.

Lemma inverse_effect st op : effect (inverse_of st op) = st !! opID op.
Proof.
  unfold inverse_of, effect. destruct (st !! opID op) as [o|]; [|done]. unfold is_delete. cbn.
  by destruct (bool_decide (oKind op = EntryDelete)).
Qed.

Lemma inverse_valid st st' op :
  keyed st → ValidateOperation st op = None → st' !! opID op = effect op → ValidateOperation st' (inverse_of st op) = None.
Proof.
  intros Hkey Hv He. pose proof (inverse_id st op Hkey) as Hid. unfold inverse_of in *. unfold effect, is_delete in *.
  destruct (valid_kind st op Hv) as [Hk|[Hk|Hk]]; rewrite Hk in *.
  - apply (validate_create st op Hk) in Hv. rewrite Hv in *. apply validate_delete; [done|]. by rewrite Hid, He.
  - apply (validate_update st op Hk) in Hv as (e & Hst & Hke). rewrite Hst in *. apply validate_update; [done|].
    rewrite Hid, He. by exists (oEntry op).
  - apply (validate_delete st op Hk) in Hv as [e Hst]. rewrite Hst in *. apply validate_create; [done|]. by rewrite Hid, He.
Qed.

(** Reversal undoes: when a changeset with one operation per identifier is recorded
    with the entries it replaces and applied, its reversed changeset is applicable to the
    resulting state and leads back to exactly the state before. *)
Theorem ReverseChangeset_undoes st cs st' :
  keyed st → NoDup (opID <$> cs) → apply_all st cs = Ok st' →
  apply_all st' (ReverseChangeset (enrichChangeset st cs)) = Ok st.
Proof.
  intros Hk Hn Ha. pose proof (applied_valid cs st st' Hn Ha) as Hv. destruct (applied_effect cs st st' Hn Ha) as [H1 H2].
  rewrite (ReverseChangeset_enriched st cs Hv).
  assert (opID <$> reverse (inverse_of st <$> cs) ≡ₚ opID <$> cs) as Hp.
  { rewrite reverse_Permutation, <- list_fmap_compose. erewrite list_fmap_ext; [done|]. intros i op _. by apply inverse_id. }
  destruct (apply_distinct (reverse (inverse_of st <$> cs)) st') as (s & -> & G1 & G2); [by rewrite Hp| |].
  - intros op (x & -> & Hx)%elem_of_reverse%list_elem_of_fmap. apply inverse_valid; auto.
  - f_equal. apply map_eq. intros id. destruct (decide (id ∈ opID <$> cs)) as [Hin|Hout].
    + apply list_elem_of_fmap in Hin as (op & -> & Hop). rewrite <- (inverse_id st op Hk), G1, inverse_effect; [by rewrite inverse_id|].
      by apply elem_of_reverse, list_elem_of_fmap_2.
    + rewrite G2 by (by rewrite Hp). by apply H2.
Qed.

(** ** The dependency index after a changeset *)

Lemma keyed_apply st op : keyed st → keyed (partial_alter (λ _, effect op) (opID op) st).
Proof.
  intros Hk id e. destruct (decide (id = opID op)) as [->|Hne]; [|rewrite lookup_partial_alter_ne by done; apply Hk].
  rewrite lookup_partial_alter_eq. unfold effect. destruct (is_delete op); [done|]. by intros [= <-].
Qed.

Lemma keyed_apply_all ops st st' : keyed st → apply_all st ops = Ok st' → keyed st'.
Proof.
  revert st. induction ops as [|op ops IH]; intros st Hk; cbn [apply_all]; [by intros [= <-]|].
  destruct (ApplyOperation st op) as [s|] eqn:Ea; [|done]. apply IH. revert Ea. unfold ApplyOperation at 1.
  destruct (ValidateOperation st op) eqn:Ev; [done|]. intros [= <-].
  pose proof (apply_valid st op Ev) as Hv. unfold ApplyOperation in Hv. rewrite Ev in Hv. injection Hv as ->. by apply keyed_apply.
Qed.

Lemma patch_op_index d st op :
  index_of r d st → keyed st → ValidateOperation st op = None → from_option eID (opID op) (OriginalEntry op) = opID op →
  index_of r (patch_op r d op) (partial_alter (λ _, effect op) (opID op) st).
Proof.
  intros Hd Hk Hv Ho. unfold patch_op, effect, is_delete. destruct (valid_kind st op Hv) as [E|[E|E]]; rewrite E; cbn -[add remove partial_alter].
  - apply (validate_create st op E) in Hv. by apply add_index.
  - apply (validate_update st op E) in Hv as (e & He & _).
    assert (index_of r (add (remove d (opID op)) (oEntry op) r) (partial_alter (λ _, Some (oEntry op)) (opID op) st)) as Hi.
    { change (partial_alter (λ _, Some (oEntry op)) (opID op) st) with (<[opID op := oEntry op]> st).
      rewrite <- insert_delete_eq. apply add_index; [by eapply remove_index|apply lookup_delete_eq]. }
    destruct (OriginalEntry op) as [prev|]; [|done]. unfold OnUpdate. cbn in Ho. by rewrite Ho.
  - apply (validate_delete st op E) in Hv as [e He]. by eapply remove_index.
Qed.

Lemma Patch_index_of d cs st st' :
  index_of r d st → keyed st → apply_all st cs = Ok st' →
  (∀ op, op ∈ cs → from_option eID (opID op) (OriginalEntry op) = opID op) →
  index_of r (Patch d cs r) st'.
Proof.
  revert d st. unfold Patch. induction cs as [|op cs IH]; intros d st Hd Hk Ha Ho; [by injection Ha as <-|].
  cbn [apply_all foldl] in *. destruct (ApplyOperation st op) as [s|] eqn:Es; [|done].
  assert (ValidateOperation st op = None) as Hv by (unfold ApplyOperation in Es; by destruct (ValidateOperation st op)).
  rewrite apply_valid in Es by done. injection Es as <-. eapply IH; [|by apply keyed_apply|exact Ha|intros x Hx; apply Ho; by right].
  apply patch_op_index; [done..|]. apply Ho. by left.
Qed.

(** Folding a committed changeset into the dependency index gives the index of the
    state the changeset leads to, so that every table of the index (declared, group,
    namespace and environment dependencies, their fallbacks and the declared variables)
    again describes exactly the entries present. *)
Theorem Patch_index d cs st st' :
  index_of r d st → keyed st → apply_all st cs = Ok st' →
  (∀ op, op ∈ cs → from_option eID (opID op) (OriginalEntry op) = opID op) →
  index_of r (Patch d cs r) st'.
Proof. apply Patch_index_of. Qed.
End builder.

(** ** Worked examples *)

(** [reflect.DeepEqual] on entries *)
Definition DeepEqual (a b : Entry) : bool := bool_decide (a = b).

(** The service reads another variable; the worker is gone. *)
Definition svc2 : Entry := mkEntry (Some (VMap [("url", VStr "${env:OTHER}")])) [] (eID svc) (Kind svc) "" false.
Definition demo_target : State := [db_url; svc2].

Definition demo_delta : ChangeSet := [mkOp None EntryUpdate svc2; mkOp None EntryDelete worker].


(** Three versions squashed into one changeset *)
Definition demo_history : list ChangeSet :=
  [[mkOp None EntryCreate worker]; [mkOp None EntryUpdate svc2]; [mkOp None EntryUpdate svc; mkOp None EntryDelete worker]].

Definition demo_kinds (id : ID) : string := default "process" (Kind <$> NewStateMap demo_state !! id).

Lemma SquashChangesets_effect_witness :
  apply_all (NewStateMap [db_url; svc]) (SquashChangesets NoResolver demo_history) = Ok (NewStateMap [db_url; svc]) ∧
  SquashChangesets NoResolver demo_history = [mkOp None EntryUpdate svc].
Proof.
  split; [|vm_compute; reflexivity].
  apply (SquashChangesets_effect NoResolver demo_kinds (NewStateMap [db_url; svc]) demo_history (NewStateMap [db_url; svc])).
  - split.
    + assert (Forall (λ p, Kind p.2 = demo_kinds p.1) (map_to_list (NewStateMap [db_url; svc]))) as Hk
        by (apply (bool_decide_unpack (Forall _ _)); vm_compute; exact I).
      intros id e He%elem_of_map_to_list. rewrite Forall_forall in Hk. exact (Hk _ He).
    + apply Forall_forall, (bool_decide_unpack (Forall _ _)). vm_compute. exact I.
  - apply Forall_forall, (bool_decide_unpack (Forall _ _)). vm_compute. exact I.
  - vm_cast_no_check (@eq_refl (result builder_error StateMap) (Ok (NewStateMap [db_url; svc]))).
Defined.

Lemma ReverseChangeset_undoes_witness :
  apply_all (NewStateMap demo_target) (ReverseChangeset (enrichChangeset (NewStateMap demo_state) demo_delta)) =
  Ok (NewStateMap demo_state).
Proof.
  apply (ReverseChangeset_undoes (NewStateMap demo_state) demo_delta (NewStateMap demo_target)).
  - apply NewStateMap_keyed.
  - apply (bool_decide_unpack (NoDup _)). vm_compute. exact I.
  - vm_cast_no_check (@eq_refl (result builder_error StateMap) (Ok (NewStateMap demo_target))).
Defined.

Lemma Patch_index_witness :
  index_of NoResolver (Patch (BuildDepIndex demo_state NoResolver) demo_delta NoResolver) (NewStateMap demo_target).
Proof.
  apply (Patch_index NoResolver _ demo_delta (NewStateMap demo_state)).
  - apply BuildDepIndex_index, NoDup_demo.
  - apply NewStateMap_keyed.
  - vm_cast_no_check (@eq_refl (result builder_error StateMap) (Ok (NewStateMap demo_target))).
  - apply Forall_forall, (bool_decide_unpack (Forall _ _)). vm_compute. exact I.
Defined.

(** ** Changes of kind *)

(** An entry whose kind changes is in the delta as an update, which is always refused. *)
Definition svc_process : Entry := mkEntry (Data svc) (Meta svc) (eID svc) "process" "" false.

Lemma kind_change_not_reached :
  BuildDelta NoResolver DeepEqual [svc] [svc_process] = Ok [mkOp None EntryUpdate svc_process] ∧
  apply_all (NewStateMap [svc]) [mkOp None EntryUpdate svc_process] = Err (KindChange (eID svc) "service" "process").
Proof. split; vm_compute; reflexivity. Qed.

(** A replacement by an entry of another kind is squashed to a creation, which is refused
    while the replaced entry is present. *)
Lemma kind_change_squashed :
  apply_all (NewStateMap [svc]) [mkOp None EntryDelete svc; mkOp None EntryCreate svc_process] = Ok (NewStateMap [svc_process]) ∧
  apply_all (NewStateMap [svc]) (SquashChangesets NoResolver [[mkOp None EntryDelete svc]; [mkOp None EntryCreate svc_process]]) =
    Err (EntryExists (eID svc)).
Proof. split; [vm_cast_no_check (@eq_refl (result builder_error StateMap) (Ok (NewStateMap [svc_process])))|vm_compute; reflexivity]. Qed.
End Delta.
