(* ===== verification/RegRunner.v ===== *)
(** * Transitions of the registry ([system/registry/runner])

    The runner takes a changeset to the listeners of the event bus, one operation at a
    time, and keeps the state of the accepted ones. An operation that is rejected because
    something was not found is tried again after the rest of the pass; any other
    rejection aborts the transition, withdraws the prepared effects, and rolls the
    accepted operations back.

    What is not the runner is a parameter: [send] and [wait] are the event bus with its
    listeners and the await service, [prepare] the registration of a waiter, [ctxErr] the
    context's error and [cleanup] the detached context of the cleanup. They act on a
    [World] and may answer as they like; the theorems say what they assume of it. The
    trace records what the runner does to the outside. Logging is not modelled. Passes
    are bounded by the length of the changeset, which is shown to be enough.

    The theorems: a transition always returns; when it succeeds the state is the changeset
    applied; when it fails and the listeners accept the reverse operations the state is
    the one before, and the prepared effects are withdrawn exactly once, before anything
    is reversed; and operations that only wait for each other succeed in any order. *)

From stdpp Require Import pretty.
From S2P Require Import Prelude Bytes GoStrings Graph RegEntry RegDeps RegOrder RegDelta.

Module Runner.
Import Entries Deps Order Delta.

(** ** Errors *)

Inductive label :=
| InvalidOperation
| Builder (e : builder_error)
| EntryKindNotFound (id : ID)
| ApplyChange
| OperationRejected (id : ID)
| OperationCanceled (id : ID) (kind : string)
| NoListener (id : ID) (kind : string)
| HandlerTimeout (id : ID) (kind : string)
| TransactionTimeout (kind : string) (expected accepted : nat)
| DuplicateParticipant (id : string)
| AwaitServiceMissing
| TransactionRejected (kind : string)
| UnresolvedDependencies (unresolved : list ID)
| Message (text : string).

(** An error of [api/error] with its kind and cause, another error with the one it
    wraps, or a join *)
Inductive err :=
| ErrApi (kind : string) (what : label) (cause : option err)
| ErrPlain (what : string) (cause : option err)
| ErrJoin (errs : list err).

Definition Invalid : string := "Invalid".
Definition NotFound : string := "NotFound".
Definition Conflict : string := "Conflict".
Definition Internal : string := "Internal".
Definition Canceled : string := "Canceled".
Definition Unavailable : string := "Unavailable".
Definition Timeout : string := "Timeout".

Definition builder_kind (e : builder_error) : string :=
  match e with
  | EntryExists _ => Conflict
  | EntryNotExists _ | DeleteNonExistent _ | OriginalEntryNotFound _ => NotFound
  | KindChange _ _ _ | UnknownOperationKind _ | DuplicateEntryID _ _ _ => Invalid
  | SortFailed _ => Conflict
  end.

Definition builder_err (e : builder_error) : err := ErrApi (builder_kind e) (Builder e) None.

(** [errors.As] into the interface of [api/error]: the first such error, in depth *)
Fixpoint as_api (e : err) : option (string * option err) :=
  match e with
  | ErrApi kind _ cause => Some (kind, cause)
  | ErrPlain _ (Some cause) => as_api cause
  | ErrPlain _ None => None
  | ErrJoin errs =>
      (fix first (l : list err) : option (string * option err) :=
         match l with
         | [] => None
         | e :: l => match as_api e with Some x => Some x | None => first l end
         end) errs
  end.

(** [errors.Unwrap] *)
Definition unwrap (e : err) : option err :=
  match e with
  | ErrApi _ _ cause | ErrPlain _ cause => cause
  | ErrJoin _ => None
  end.

Fixpoint err_size (e : err) : nat :=
  match e with
  | ErrApi _ _ (Some c) | ErrPlain _ (Some c) => S (err_size c)
  | ErrApi _ _ None | ErrPlain _ None => 1
  | ErrJoin errs => S (list_sum (err_size <$> errs))
  end.

Fixpoint deferrable (fuel : nat) (cur : option err) : bool :=
  match fuel, cur with
  | S fuel, Some e =>
      match as_api e with
      | Some (kind, cause) => if bool_decide (kind = NotFound) then true else deferrable fuel cause
      | None => deferrable fuel (unwrap e)
      end
  | _, _ => false
  end.

Definition isDeferrable (e : err) : bool := deferrable (S (err_size e)) (Some e).

(** ** The outside *)

(** What a waiter returns: an accept event, a reject event with its error, or no event *)
Inductive reply := Accepted | Rejected (e : option err) | Silent.

Inductive bus_event :=
| OpEvent (kind path : string) (entry : Entry)
| TxEvent (kind path : string) (data : option err).

Definition TxBegin : string := "registry.begin".
Definition TxCommit : string := "registry.commit".
Definition TxDiscard : string := "registry.discard".

(** [KindDispatchPolicy]: entries of these kinds are applied without events. *)
Definition NewKindDispatchPolicy (internalKinds : list string) : gset string :=
  list_to_set (filter (λ k, k ≠ "") internalKinds).

Definition dispatch_internal (policy : option (gset string)) (op : Operation) : bool :=
  match policy with None => false | Some internal => bool_decide (Kind (oEntry op) ∈ internal) end.

Section runner.
Context {World Ctx : Type}.
Variables (send : Ctx → World → bus_event → World) (wait : Ctx → World → string → World * reply)
          (prepare : Ctx → World → string → option err).
Variables (ctxErr : Ctx → World → option err) (cleanup : Ctx → Ctx).
Variables (HasSubscribers : World → string → bool) (kindHandled : option (string → bool)).
Variables (transactionParticipants : option (World → list string)) (policy : option (gset string)).
Variables (r : resolver) (compare : Entry → Entry → bool).

Inductive step := DidSend (e : bus_event) | DidAbort.

(** The world with what the runner did to it *)
Record run := mkRun { world : World; trace : list step }.

Definition do_send (ctx : Ctx) (s : run) (e : bus_event) : run := mkRun (send ctx (world s) e) (trace s ++ [DidSend e]).

Definition do_wait (ctx : Ctx) (s : run) (path : string) : run * reply :=
  let '(w, a) := wait ctx (world s) path in (mkRun w (trace s), a).

Definition runAbort (ctx : Ctx) (abort : option (Ctx → World → World)) (s : run) : run :=
  match abort with
  | None => s
  | Some f => mkRun (f ctx (world s)) (trace s ++ [DidAbort])
  end.

(** ** One operation *)

Definition hasListener (s : run) (op : Operation) : bool :=
  if negb (HasSubscribers (world s) (oKind op)) then false else
  match kindHandled with None => true | Some handled => handled (Kind (oEntry op)) end.

Definition set_kind (op : Operation) (kind : string) : Operation :=
  let e := oEntry op in mkOp (OriginalEntry op) (oKind op) (mkEntry (Data e) (Meta e) (eID e) kind (Owner e) (Root e)).

(** The kind of an operation that names none is the present entry's. *)
Definition resolve_kind (state : StateMap) (op : Operation) : option Operation :=
  if bool_decide (Kind (oEntry op) = "") then
    match state !! opID op with
    | None => None
    | Some entry => Some (set_kind op (Kind entry))
    end
  else Some op.

Definition applyPrivateStateOperation (s : run) (state : StateMap) (op : Operation) : run * StateMap * option err :=
  match ApplyOperation state op with
  | Ok state' => (s, state', None)
  | Err e => (s, state, Some (ErrApi Internal ApplyChange (Some (ErrApi Invalid InvalidOperation (Some (builder_err e))))))
  end.

Definition applyOperation (ctx : Ctx) (s : run) (state : StateMap) (op : Operation) : run * StateMap * option err :=
  match ValidateOperation state op with
  | Some e => (s, state, Some (ErrApi Invalid InvalidOperation (Some (builder_err e))))
  | None =>
      match resolve_kind state op with
      | None => (s, state, Some (ErrApi NotFound (EntryKindNotFound (opID op)) None))
      | Some op =>
          if dispatch_internal policy op then applyPrivateStateOperation s state op
          else if negb (hasListener s op) then (s, state, Some (ErrApi Unavailable (NoListener (opID op) (Kind (oEntry op))) None))
          else
            match prepare ctx (world s) (idString (opID op)) with
            | Some e => (s, state, Some e)
            | None =>
                let '(s, a) := do_wait ctx (do_send ctx s (OpEvent (oKind op) (idString (opID op)) (oEntry op))) (idString (opID op)) in
                match a with
                | Accepted => applyPrivateStateOperation s state op
                | Rejected e => (s, state, Some (ErrApi Invalid (OperationRejected (opID op)) e))
                | Silent =>
                    match ctxErr ctx (world s) with
                    | Some e => (s, state, Some (ErrApi Canceled (OperationCanceled (opID op) (Kind (oEntry op))) (Some e)))
                    | None => (s, state, Some (ErrApi Timeout (HandlerTimeout (opID op) (Kind (oEntry op))) None))
                    end
                end
            end
      end
  end.

(** ** Transactions *)

Definition nextTransactionPath (txSeq : Z) : string * Z :=
  let seq := (txSeq + 1) mod 2 ^ 64 in ("registry.tx/" +:+ pretty (Z.to_N seq), seq).

Fixpoint unique_participants (seen : gset string) (raw : list string) : err + list string :=
  match raw with
  | [] => inr []
  | id :: raw =>
      if bool_decide (id = "") then unique_participants seen raw
      else if bool_decide (id ∈ seen) then inl (ErrApi Invalid (DuplicateParticipant id) None)
      else match unique_participants ({[id]} ∪ seen) raw with inl e => inl e | inr l => inr (id :: l) end
  end.

Definition registryTransactionParticipants (s : run) : err + list string :=
  match transactionParticipants with
  | None => inr []
  | Some f => match unique_participants ∅ (f (world s)) with inl e => inl e | inr l => inr (sort_strings l) end
  end.

Definition transactionEventPath (txPath kind : string) : string := txPath +:+ "/" +:+ kind.
Definition participantReplyPath (path participantID : string) : string := path +:+ "/" +:+ participantID.

Fixpoint prepareTransactionWaiters (ctx : Ctx) (s : run) (participants : list string) (path : string) : option err :=
  match participants with
  | [] => None
  | id :: participants =>
      match prepare ctx (world s) (participantReplyPath path id) with
      | Some e => Some e
      | None => prepareTransactionWaiters ctx s participants path
      end
  end.

Definition join_err (a b : option err) : option err :=
  match a, b with
  | None, b => b
  | Some a, Some b => Some (ErrJoin [a; b])
  | Some a, None => Some a
  end.

Fixpoint await_all (ctx : Ctx) (s : run) (kind path : string) (expected : nat) (participants : list string)
    (accepted : nat) (rejected : option (option err)) : run * option err :=
  match participants with
  | [] => (s, match rejected with Some e => Some (ErrApi Invalid (TransactionRejected kind) e) | None => None end)
  | id :: participants =>
      let '(s, a) := do_wait ctx s (participantReplyPath path id) in
      match a with
      | Accepted => await_all ctx s kind path expected participants (S accepted) rejected
      | Silent =>
          match ctxErr ctx (world s) with
          | Some e => (s, Some (ErrApi Invalid (TransactionRejected kind) (Some e)))
          | None => (s, Some (ErrApi Timeout (TransactionTimeout kind expected accepted) None))
          end
      | Rejected e => await_all ctx s kind path expected participants accepted (Some (join_err (default None rejected) e))
      end
  end.

Definition dispatchTransaction (ctx : Ctx) (s : run) (participants : list string) (kind txPath : string) (data : option err)
    : run * option err :=
  let path := transactionEventPath txPath kind in
  match prepareTransactionWaiters ctx s participants path with
  | Some e => (s, Some e)
  | None => await_all ctx (do_send ctx s (TxEvent kind path data)) kind path (length participants) participants 0 None
  end.

(** ** Rollback *)

(** [stateMapToSlice]: the entries in the order Go iterates the map *)
Definition stateMapToSlice (sm : StateMap) : State := (map_to_list sm).*2.

Definition rollback_op (ctx : Ctx) (acc : run * StateMap) (op : Operation) : run * StateMap :=
  let '(s, state) := acc in
  let '(s, newState, e) := applyOperation ctx s state op in
  (s, match e with Some _ => state | None => newState end).

Definition rollback (ctx : Ctx) (s : run) (original current : StateMap) : run * StateMap :=
  match BuildDelta r compare (stateMapToSlice current) (stateMapToSlice original) with
  | Err _ => (s, current)
  | Ok delta => foldl (rollback_op ctx) (s, current) delta
  end.

(** The end of a failed transition: withdraw the effects, reverse, discard. *)
Definition undo (ctx : Ctx) (s : run) (participants : list string) (txPath : string) (original current : StateMap)
    (abort : option (Ctx → World → World)) (cause : err) : run * StateMap :=
  let s := runAbort ctx abort s in
  let '(s, rolled) := rollback ctx s original current in
  let '(s, _) := dispatchTransaction ctx s participants TxDiscard txPath (Some cause) in
  (s, rolled).

Definition cancelTransition (ctx : Ctx) := undo (cleanup ctx).

(** ** Passes *)

Inductive pass_result :=
| PassDone (s : run) (state : StateMap) (deferred : ChangeSet) (lastDeferErr : option err) (progressed : bool)
| PassFatal (s : run) (state : StateMap) (e : err)
| PassCancelled (s : run) (state : StateMap) (e : err).

Fixpoint pass (ctx : Ctx) (remaining : ChangeSet) (s : run) (state : StateMap) (deferred : ChangeSet)
    (lastDeferErr : option err) (progressed : bool) : pass_result :=
  match remaining with
  | [] => PassDone s state deferred lastDeferErr progressed
  | op :: remaining =>
      let '(s, newState, e) := applyOperation ctx s state op in
      match e with
      | None =>
          match ctxErr ctx (world s) with
          | Some ce => PassCancelled s newState ce
          | None => pass ctx remaining s newState deferred lastDeferErr true
          end
      | Some e =>
          match ctxErr ctx (world s) with
          | Some _ => PassCancelled s state e
          | None =>
              if isDeferrable e then pass ctx remaining s state (deferred ++ [op]) (Some e) progressed
              else PassFatal s newState e
          end
      end
  end.

(** The end of the loop: every operation was accepted, or the transition failed. *)
Inductive passes_result :=
| AllAccepted (s : run) (state : StateMap)
| Failed (s : run) (state : StateMap) (e : err)
| CancelledBy (s : run) (state : StateMap) (e : err)
| OutOfFuel.

Fixpoint passes (fuel : nat) (ctx : Ctx) (remaining : ChangeSet) (s : run) (state : StateMap) : passes_result :=
  match fuel with
  | O => OutOfFuel
  | S fuel =>
      if bool_decide (remaining = []) then AllAccepted s state else
      match pass ctx remaining s state [] None false with
      | PassFatal s state e => Failed s state e
      | PassCancelled s state e => CancelledBy s state e
      | PassDone s state deferred lastDeferErr progressed =>
          if bool_decide (deferred = []) then AllAccepted s state
          else if negb progressed then Failed s state (ErrApi NotFound (UnresolvedDependencies (opID <$> deferred)) lastDeferErr)
          else passes fuel ctx deferred s state
      end
  end.

Definition Transition (ctx : Ctx) (txSeq : Z) (w : World) (initialState : State) (cs : ChangeSet)
    (abort : option (Ctx → World → World)) : option (run * StateMap * option err) :=
  let s := mkRun w [] in
  let original := NewStateMap initialState in
  let '(txPath, _) := nextTransactionPath txSeq in
  match registryTransactionParticipants s with
  | inl e => Some (runAbort ctx abort s, original, Some e)
  | inr participants =>
      let '(s, e) := dispatchTransaction ctx s participants TxBegin txPath None in
      match e with
      | Some e => Some (runAbort ctx abort s, original, Some e)
      | None =>
          match passes (S (length cs)) ctx cs s original with
          | OutOfFuel => None
          | Failed s state e => let '(s, rolled) := undo ctx s participants txPath original state abort e in Some (s, rolled, Some e)
          | CancelledBy s state e =>
              let '(s, rolled) := cancelTransition ctx s participants txPath original state abort e in Some (s, rolled, Some e)
          | AllAccepted s state =>
              match ctxErr ctx (world s) with
              | Some e => let '(s, rolled) := cancelTransition ctx s participants txPath original state abort e in Some (s, rolled, Some e)
              | None =>
                  let '(s, e) := dispatchTransaction ctx s participants TxCommit txPath None in
                  match e with
                  | None => Some (s, state, None)
                  | Some e =>
                      let '(s, rolled) :=
                        match ctxErr ctx (world s) with
                        | Some _ => cancelTransition ctx s participants txPath original state abort e
                        | None => undo ctx s participants txPath original state abort e
                        end in
                      Some (s, rolled, Some e)
                  end
              end
          end
      end
  end.

(** ** One operation: what the runner keeps *)

Lemma apply_ok_valid st op st' :
  ApplyOperation st op = Ok st' → ValidateOperation st op = None ∧ st' = applyValidatedOperation st op.
Proof using. unfold ApplyOperation. destruct (ValidateOperation st op); [done|]. by intros [= <-]. Qed.

Lemma set_kind_same op : set_kind op (Kind (oEntry op)) = op.
Proof using. by destruct op as [o k []]. Qed.

(** Filling in the kind changes nothing: only a deletion may leave it out. *)
Lemma resolve_kind_apply st op op' :
  ValidateOperation st op = None → resolve_kind st op = Some op' → ApplyOperation st op' = ApplyOperation st op.
Proof using.
  intros Hv. unfold resolve_kind. destruct (bool_decide_reflect (Kind (oEntry op) = "")) as [Hk|Hk]; [|by intros [= <-]].
  destruct (st !! opID op) as [e|] eqn:Ee; [|done]. intros [= <-]. destruct (valid_kind st op Hv) as [E|[E|E]].
  - apply (validate_create st op E) in Hv. congruence.
  - apply (validate_update st op E) in Hv as (x & Hx & Hkx). assert (Kind e = Kind (oEntry op)) as -> by congruence.
    by rewrite set_kind_same.
  - unfold ApplyOperation, ValidateOperation, applyValidatedOperation, opID, set_kind. cbn. by rewrite E.
Qed.

Lemma applyPrivate_ok s st op s' st' e :
  applyPrivateStateOperation s st op = (s', st', e) →
  s' = s ∧ match e with None => ApplyOperation st op = Ok st' | Some _ => st' = st end.
Proof using.
  unfold applyPrivateStateOperation. destruct (ApplyOperation st op) as [x|x] eqn:Ea; intros [= <- <- <-]; done.
Qed.

(** An accepted operation is applied to the state, a refused one leaves it alone. *)
Lemma applyOperation_state ctx s st op s' st' e :
  applyOperation ctx s st op = (s', st', e) → match e with None => ApplyOperation st op = Ok st' | Some _ => st' = st end.
Proof using.
  unfold applyOperation. destruct (ValidateOperation st op) eqn:Ev; [by intros [= <- <- <-]|].
  destruct (resolve_kind st op) as [op'|] eqn:Er; [|by intros [= <- <- <-]]. rewrite <- (resolve_kind_apply st op op' Ev Er).
  destruct (dispatch_internal policy op'); [by intros [_ H]%applyPrivate_ok|]. destruct (negb _); [by intros [= <- <- <-]|].
  destruct (prepare _ _ _); [by intros [= <- <- <-]|]. destruct (do_wait _ _ _) as [s1 [|re|]].
  - by intros [_ H]%applyPrivate_ok.
  - by intros [= <- <- <-].
  - destruct (ctxErr _ _); by intros [= <- <- <-].
Qed.

(** ** What a transition does to the outside *)

(** The events a transition may send before it is given up *)
Definition forward (cs : ChangeSet) (e : bus_event) : Prop :=
  match e with
  | OpEvent kind path _ => ∃ op, op ∈ cs ∧ oKind op = kind ∧ idString (opID op) = path
  | TxEvent kind _ _ => kind ≠ TxDiscard
  end.

(** Only events were sent between two runs, each of them as [P] says. *)
Definition sends (P : bus_event → Prop) (s s' : run) : Prop :=
  ∃ es, trace s' = trace s ++ (DidSend <$> es) ∧ Forall P es.

Lemma sends_refl P s s' : trace s' = trace s → sends P s s'.
Proof using. exists []. by rewrite app_nil_r. Qed.

Lemma sends_trans P s1 s2 s3 : sends P s1 s2 → sends P s2 s3 → sends P s1 s3.
Proof using.
  intros (a & Ha & Pa) (b & Hb & Pb). exists (a ++ b). split; [|by apply Forall_app].
  by rewrite Hb, Ha, fmap_app, app_assoc.
Qed.

Lemma sends_mono (P Q : bus_event → Prop) s s' : (∀ e, P e → Q e) → sends P s s' → sends Q s s'.
Proof using. intros HPQ (a & Ha & Pa). exists a. split; [done|]. by eapply Forall_impl. Qed.

Lemma do_send_sends P ctx s e : P e → sends P s (do_send ctx s e).
Proof using. intros Hp. exists [e]. split; [done|]. by apply Forall_singleton. Qed.

Lemma do_wait_trace ctx s path s' a : do_wait ctx s path = (s', a) → trace s' = trace s.
Proof using. unfold do_wait. destruct (wait _ _ _). by intros [= <- _]. Qed.

Lemma resolve_kind_op st op op' : resolve_kind st op = Some op' → oKind op' = oKind op ∧ opID op' = opID op.
Proof using.
  unfold resolve_kind. destruct (bool_decide _); [|by intros [= <-]]. destruct (st !! opID op); [|done]. by intros [= <-].
Qed.

Lemma applyOperation_sends ctx s st op s' st' e : applyOperation ctx s st op = (s', st', e) → sends (forward [op]) s s'.
Proof using.
  unfold applyOperation. destruct (ValidateOperation st op) eqn:Ev; [intros [= <- _ _]; by apply sends_refl|].
  destruct (resolve_kind st op) as [op'|] eqn:Er; [|intros [= <- _ _]; by apply sends_refl].
  destruct (resolve_kind_op st op op' Er) as [Hk Hid].
  destruct (dispatch_internal policy op'); [intros [-> _]%applyPrivate_ok; by apply sends_refl|].
  destruct (negb _); [intros [= <- _ _]; by apply sends_refl|].
  destruct (prepare _ _ _); [intros [= <- _ _]; by apply sends_refl|]. destruct (do_wait _ _ _) as [s1 a] eqn:Ew.
  assert (sends (forward [op]) s s1) as Hs.
  { eapply sends_trans; [apply do_send_sends|apply sends_refl; by eapply do_wait_trace]. exists op. split; [by left|]. by rewrite Hk, Hid. }
  destruct a as [|re|]; [by intros [-> _]%applyPrivate_ok|by intros [= <- _ _]|].
  destruct (ctxErr _ _); by intros [= <- _ _].
Qed.

Lemma await_all_trace ctx kind path n ps s acc rej s' e :
  await_all ctx s kind path n ps acc rej = (s', e) → trace s' = trace s.
Proof using.
  revert s acc rej. induction ps as [|p ps IH]; intros s acc rej; cbn; [by intros [= <- _]|].
  destruct (do_wait _ _ _) as [s1 a] eqn:Ew. apply do_wait_trace in Ew. rewrite <- Ew.
  destruct a; [apply IH|apply IH|]. destruct (ctxErr _ _); by intros [= <- _].
Qed.

Lemma dispatchTransaction_sends (P : bus_event → Prop) ctx s ps kind path data s' e :
  P (TxEvent kind (transactionEventPath path kind) data) → dispatchTransaction ctx s ps kind path data = (s', e) → sends P s s'.
Proof using.
  intros Hp. unfold dispatchTransaction. destruct (prepareTransactionWaiters _ _ _ _); [intros [= <- _]; by apply sends_refl|].
  intros Ha%await_all_trace. eapply sends_trans; [by apply do_send_sends|by apply sends_refl].
Qed.

Lemma rollback_sends ctx s o c s' c' : rollback ctx s o c = (s', c') → sends (λ _, True) s s'.
Proof using.
  unfold rollback. destruct (BuildDelta _ _ _ _) as [delta|]; [|intros [= <- _]; by apply sends_refl].
  revert s c. induction delta as [|op delta IH]; intros s c; cbn [foldl]; [intros [= <- _]; by apply sends_refl|].
  unfold rollback_op at 2. destruct (applyOperation ctx s c op) as [[s1 c1] e] eqn:Ea. intros Hf.
  eapply sends_trans; [|by eapply IH]. eapply sends_mono; [|by eapply applyOperation_sends]. done.
Qed.

(** A failed transition withdraws the effects once, before it sends any reverse operation. *)
Definition gave_up (cs : ChangeSet) (abort : option (Ctx → World → World)) (t : list step) : Prop :=
  ∃ pre post, Forall (forward cs) pre ∧
    t = (DidSend <$> pre) ++ (match abort with Some _ => [DidAbort] | None => [] end) ++ (DidSend <$> post).

Lemma undo_gave_up cs ctx s ps path o c abort cause s' c' :
  (∃ pre, trace s = DidSend <$> pre ∧ Forall (forward cs) pre) → undo ctx s ps path o c abort cause = (s', c') →
  gave_up cs abort (trace s').
Proof using.
  intros (pre & Hs & Hpre). unfold undo. destruct (rollback _ _ _ _) as [s1 c1] eqn:Er.
  destruct (dispatchTransaction _ _ _ _ _ _) as [s2 e2] eqn:Ed. intros [= <- _].
  apply rollback_sends in Er as (a & Ha & _). apply (dispatchTransaction_sends (λ _, True)) in Ed as (b & Hb & _); [|done].
  exists pre, (a ++ b). split; [done|]. rewrite Hb, Ha, fmap_app. unfold runAbort. rewrite !app_assoc. do 2 f_equal.
  destruct abort; cbn; rewrite Hs; [done|by rewrite app_nil_r].
Qed.

Lemma abort_gave_up cs ctx abort s :
  (∃ pre, trace s = DidSend <$> pre ∧ Forall (forward cs) pre) → gave_up cs abort (trace (runAbort ctx abort s)).
Proof using.
  intros (pre & Hs & Hpre). exists pre, []. split; [done|]. unfold runAbort. destruct abort; cbn; rewrite Hs; by rewrite ?app_nil_r.
Qed.

(** ** Passes *)

(** [acc] was accepted, in this order, on the way from one state to another. *)
Definition progress (cs : ChangeSet) (s s' : run) (st st' : StateMap) (acc : ChangeSet) : Prop :=
  sends (forward cs) s s' ∧ apply_all st acc = Ok st'.

Lemma progress_step cs op s s1 s' st st1 st' acc e :
  op ∈ cs → applyOperation e s st op = (s1, st1, None) → progress cs s1 s' st1 st' acc → progress cs s s' st st' (op :: acc).
Proof using.
  intros Hop Ha [Hs Hacc]. split.
  - eapply sends_trans; [|done]. eapply sends_mono; [|by eapply applyOperation_sends]. intros [k p en|] Hf; [|done].
    destruct Hf as (x & ->%list_elem_of_singleton & Hx). by exists op.
  - cbn [apply_all]. apply applyOperation_state in Ha. cbn in Ha. by rewrite Ha.
Qed.

Lemma progress_skip cs op s s1 s' st st1 st' acc e x :
  op ∈ cs → applyOperation e s st op = (s1, st1, Some x) → progress cs s1 s' st st' acc → progress cs s s' st st' acc.
Proof using.
  intros Hop Ha [Hs Hacc]. split; [|done]. eapply sends_trans; [|done]. eapply sends_mono; [|by eapply applyOperation_sends].
  intros [k p en|] Hf; [|done]. destruct Hf as (y & ->%list_elem_of_singleton & Hy). by exists op.
Qed.

Lemma progress_nil cs s st : progress cs s s st st [].
Proof using. split; [by apply sends_refl|done]. Qed.

Definition pass_spec (cs rem : ChangeSet) (s : run) (st : StateMap) (deferred : ChangeSet) (progressed : bool) (res : pass_result) : Prop :=
  match res with
  | PassDone s' st' deferred' _ progressed' =>
      ∃ acc rest, deferred' = deferred ++ rest ∧ acc ++ rest ≡ₚ rem ∧ progress cs s s' st st' acc ∧
        progressed' = progressed || bool_decide (acc ≠ [])
  | PassFatal s' st' _ | PassCancelled s' st' _ =>
      ∃ acc rest, acc ++ rest ≡ₚ rem ∧ progress cs s s' st st' acc
  end.

Lemma pass_ok ctx cs rem s st deferred le progressed :
  (∀ op, op ∈ rem → op ∈ cs) → pass_spec cs rem s st deferred progressed (pass ctx rem s st deferred le progressed).
Proof using.
  revert s st deferred le progressed. induction rem as [|op rem IH]; intros s st deferred le progressed Hin; cbn [pass].
  { exists [], []. rewrite app_nil_r. split_and!; [done..|apply progress_nil|]. by rewrite orb_false_r. }
  assert (op ∈ cs) as Hop by (apply Hin; by left). assert (∀ x, x ∈ rem → x ∈ cs) as Hrem by (intros x Hx; apply Hin; by right).
  destruct (applyOperation ctx s st op) as [[s1 st1] [e|]] eqn:Ea.
  - pose proof (applyOperation_state _ _ _ _ _ _ _ Ea) as ->.
    assert (progress cs s s1 st st []) as Hstop by (eapply progress_skip; [done|done|apply progress_nil]).
    destruct (ctxErr ctx (world s1)); [by exists [], (op :: rem)|]. destruct (isDeferrable e); [|by exists [], (op :: rem)].
    specialize (IH s1 st (deferred ++ [op]) (Some e) progressed Hrem). destruct (pass _ _ _ _ _ _ _) as [s' st' d' l' p'| |]; cbn in *.
    + destruct IH as (acc & rest & -> & Hp & Hpr & ->). exists acc, (op :: rest).
      split_and!; [by rewrite <- app_assoc|rewrite <- Hp; symmetry; apply Permutation_middle|by eapply progress_skip|done].
    + destruct IH as (acc & rest & Hp & Hpr). exists acc, (op :: rest). split; [rewrite <- Hp; symmetry; apply Permutation_middle|by eapply progress_skip].
    + destruct IH as (acc & rest & Hp & Hpr). exists acc, (op :: rest). split; [rewrite <- Hp; symmetry; apply Permutation_middle|by eapply progress_skip].
  - destruct (ctxErr ctx (world s1)).
    { exists [op], rem. split; [done|]. eapply progress_step; [done|done|apply progress_nil]. }
    specialize (IH s1 st1 deferred le true Hrem). destruct (pass _ _ _ _ _ _ _) as [s' st' d' l' p'| |]; cbn in *.
    + destruct IH as (acc & rest & -> & Hp & Hpr & ->). exists (op :: acc), rest.
      split_and!; [done|cbn; by rewrite Hp|by eapply progress_step|]. by rewrite orb_true_r.
    + destruct IH as (acc & rest & Hp & Hpr). exists (op :: acc), rest. split; [cbn; by rewrite Hp|by eapply progress_step].
    + destruct IH as (acc & rest & Hp & Hpr). exists (op :: acc), rest. split; [cbn; by rewrite Hp|by eapply progress_step].
Qed.

Definition passes_spec (cs rem : ChangeSet) (s : run) (st : StateMap) (res : passes_result) : Prop :=
  match res with
  | AllAccepted s' st' => ∃ acc, acc ≡ₚ rem ∧ progress cs s s' st st' acc
  | Failed s' st' _ | CancelledBy s' st' _ => ∃ acc rest, acc ++ rest ≡ₚ rem ∧ progress cs s s' st st' acc
  | OutOfFuel => False
  end.

Lemma progress_app cs s1 s2 s3 st1 st2 st3 a b :
  progress cs s1 s2 st1 st2 a → progress cs s2 s3 st2 st3 b → progress cs s1 s3 st1 st3 (a ++ b).
Proof using. intros [Ha Hsa] [Hb Hsb]. split; [by eapply sends_trans|]. by rewrite apply_app, Hsa. Qed.

(** Every pass accepts something or ends the loop, so the fuel is enough. *)
Lemma passes_ok fuel ctx cs rem s st :
  (length rem < fuel)%nat → (∀ op, op ∈ rem → op ∈ cs) → passes_spec cs rem s st (passes fuel ctx rem s st).
Proof using.
  revert rem s st. induction fuel as [|fuel IH]; intros rem s st Hf Hin; [lia|]. cbn [passes].
  destruct (bool_decide_reflect (rem = [])) as [->|Hne]; [exists []; split; [done|apply progress_nil]|].
  pose proof (pass_ok ctx cs rem s st [] None false Hin) as Hp. destruct (pass _ _ _ _ _ _ _) as [s' st' d l p| |]; [|exact Hp..].
  destruct Hp as (acc & rest & -> & Hperm & Hpr & ->). cbn [app orb].
  destruct (bool_decide_reflect (rest = [])) as [->|Hrest]; [exists acc; rewrite app_nil_r in Hperm; done|].
  destruct (bool_decide_reflect (acc ≠ [])) as [Hacc|Hacc]; cbn [negb]; [|by exists acc, rest].
  assert (∀ op, op ∈ rest → op ∈ cs) as Hrin.
  { intros op Hop. apply Hin. rewrite <- Hperm. apply elem_of_app. by right. }
  assert (length rest < fuel)%nat as Hlen.
  { apply Permutation_length in Hperm. rewrite length_app in Hperm. destruct acc; [done|cbn in Hperm; lia]. }
  specialize (IH rest s' st' Hlen Hrin). destruct (passes _ _ _ _ _) as [s2 st2|s2 st2 e|s2 st2 e|]; cbn in *; [| | |done].
  - destruct IH as (acc2 & Hp2 & Hpr2). exists (acc ++ acc2). split; [by rewrite Hp2|by eapply progress_app].
  - destruct IH as (acc2 & rest2 & Hp2 & Hpr2). exists (acc ++ acc2), rest2. split; [by rewrite <- app_assoc, Hp2|by eapply progress_app].
  - destruct IH as (acc2 & rest2 & Hp2 & Hpr2). exists (acc ++ acc2), rest2. split; [by rewrite <- app_assoc, Hp2|by eapply progress_app].
Qed.

(** ** The transition *)

Definition forwards (cs : ChangeSet) (s : run) : Prop := ∃ pre, trace s = DidSend <$> pre ∧ Forall (forward cs) pre.

Lemma forwards_sends cs s s' : forwards cs s → sends (forward cs) s s' → forwards cs s'.
Proof using.
  intros (pre & Hs & Hp) (es & He & Pe). exists (pre ++ es). split; [by rewrite He, Hs, fmap_app|by apply Forall_app].
Qed.

(** The state a failed transition returns: the original one, or what undoing [current] left *)
Definition failed (ctx : Ctx) (cs : ChangeSet) (original : StateMap) (abort : option (Ctx → World → World)) (e : err) (s : run) (st : StateMap) : Prop :=
  (st = original ∧ gave_up cs abort (trace s)) ∨
  ∃ ctx' s0 ps path acc rest current, (ctx' = ctx ∨ ctx' = cleanup ctx) ∧ acc ++ rest ≡ₚ cs ∧
    apply_all original acc = Ok current ∧ forwards cs s0 ∧ undo ctx' s0 ps path original current abort e = (s, st).

Lemma after_passes ctx cs original abort ps path s res :
  forwards cs s → passes_spec cs cs s original res →
  ∃ s' st e, match res with
    | OutOfFuel => None
    | Failed s state e => let '(s, rolled) := undo ctx s ps path original state abort e in Some (s, rolled, Some e)
    | CancelledBy s state e => let '(s, rolled) := cancelTransition ctx s ps path original state abort e in Some (s, rolled, Some e)
    | AllAccepted s state =>
        match ctxErr ctx (world s) with
        | Some e => let '(s, rolled) := cancelTransition ctx s ps path original state abort e in Some (s, rolled, Some e)
        | None =>
            let '(s, e) := dispatchTransaction ctx s ps TxCommit path None in
            match e with
            | None => Some (s, state, None)
            | Some e =>
                let '(s, rolled) :=
                  match ctxErr ctx (world s) with
                  | Some _ => cancelTransition ctx s ps path original state abort e
                  | None => undo ctx s ps path original state abort e
                  end in Some (s, rolled, Some e)
            end
        end
    end = Some (s', st, e) ∧
    match e with
    | None => forwards cs s' ∧ ∃ acc, acc ≡ₚ cs ∧ apply_all original acc = Ok st
    | Some e => failed ctx cs original abort e s' st
    end.
Proof using.
  intros Hf. destruct res as [s1 st1|s1 st1 e|s1 st1 e|]; cbn [passes_spec]; [| | |done].
  - intros (acc & Hp & Hs & Ha). pose proof (forwards_sends _ _ _ Hf Hs) as Hf1.
    assert (acc ++ [] ≡ₚ cs) as Hp' by (by rewrite app_nil_r).
    destruct (ctxErr ctx (world s1)) as [ce|].
    { unfold cancelTransition. destruct (undo _ _ _ _ _ _ _ _) as [s2 st2] eqn:Eu. eexists _, _, _. split; [done|]. right.
      exists (cleanup ctx), s1, ps, path, acc, [], st1. tauto. }
    destruct (dispatchTransaction _ _ _ _ _ _) as [s2 [e|]] eqn:Ed.
    + apply (dispatchTransaction_sends (forward cs)) in Ed; [|done]. pose proof (forwards_sends _ _ _ Hf1 Ed) as Hf2.
      destruct (ctxErr ctx (world s2)); [unfold cancelTransition|]; destruct (undo _ _ _ _ _ _ _ _) as [s3 st3] eqn:Eu;
        (eexists _, _, _; split; [done|]; right); [exists (cleanup ctx), s2, ps, path, acc, [], st1; tauto|exists ctx, s2, ps, path, acc, [], st1; tauto].
    + apply (dispatchTransaction_sends (forward cs)) in Ed; [|done]. eexists _, _, _. split; [done|]. cbn.
      split; [by eapply forwards_sends|]. by exists acc.
  - intros (acc & rest & Hp & Hs & Ha). pose proof (forwards_sends _ _ _ Hf Hs) as Hf1.
    destruct (undo _ _ _ _ _ _ _ _) as [s2 st2] eqn:Eu. eexists _, _, _. split; [done|]. right. exists ctx, s1, ps, path, acc, rest, st1. tauto.
  - intros (acc & rest & Hp & Hs & Ha). pose proof (forwards_sends _ _ _ Hf Hs) as Hf1. unfold cancelTransition.
    destruct (undo _ _ _ _ _ _ _ _) as [s2 st2] eqn:Eu. eexists _, _, _. split; [done|]. right. exists (cleanup ctx), s1, ps, path, acc, rest, st1. tauto.
Qed.

Lemma Transition_shape ctx seq w initial cs abort :
  ∃ s st e, Transition ctx seq w initial cs abort = Some (s, st, e) ∧
    match e with
    | None => forwards cs s ∧ ∃ acc, acc ≡ₚ cs ∧ apply_all (NewStateMap initial) acc = Ok st
    | Some e => failed ctx cs (NewStateMap initial) abort e s st
    end.
Proof using.
  unfold Transition. destruct (nextTransactionPath seq) as [path seq']. assert (forwards cs (mkRun w [])) as H0 by (by exists []).
  destruct (registryTransactionParticipants _) as [e|ps].
  { eexists _, _, _. split; [done|]. left. split; [done|]. by apply abort_gave_up. }
  destruct (dispatchTransaction _ _ _ _ _ _) as [s1 [e|]] eqn:Ed; (apply (dispatchTransaction_sends (forward cs)) in Ed; [|done]).
  - eexists _, _, _. split; [done|]. left. split; [done|]. apply abort_gave_up. exact (forwards_sends _ _ _ H0 Ed).
  - apply (after_passes ctx cs (NewStateMap initial) abort ps path s1 (passes (S (length cs)) ctx cs s1 (NewStateMap initial)));
      [exact (forwards_sends _ _ _ H0 Ed)|]. apply passes_ok; [lia|done].
Qed.

(** C21. A transition always returns. When it succeeds, the state is the initial one with
    every operation of the changeset applied in the order of acceptance, and nothing but
    the changeset was sent. When it fails, the prepared effects are withdrawn exactly once,
    after the operations of the changeset and before any reverse operation or discard. *)
Theorem Transition_returns ctx seq w initial cs abort :
  ∃ s st e, Transition ctx seq w initial cs abort = Some (s, st, e) ∧
    match e with
    | None => (∃ sent, trace s = DidSend <$> sent ∧ Forall (forward cs) sent) ∧
              ∃ accepted, accepted ≡ₚ cs ∧ apply_all (NewStateMap initial) accepted = Ok st
    | Some _ => gave_up cs abort (trace s)
    end.
Proof using.
  destruct (Transition_shape ctx seq w initial cs abort) as (s & st & e & Ht & He). exists s, st, e. split; [done|].
  destruct e as [e|]; [|done]. destruct He as [[_ Hg]|(ctx' & s0 & ps & path & acc & rest & cur & _ & _ & _ & Hf & Hu)]; [done|].
  by eapply undo_gave_up.
Qed.

(** ** Rolling back *)

Lemma stateMapToSlice_perm sm : stateMapToSlice sm ≡ₚ StateMapToSlice sm.
Proof using. unfold StateMapToSlice. by rewrite (merge_sort_Permutation entry_le). Qed.

Lemma elem_of_slice sm e : e ∈ stateMapToSlice sm ↔ ∃ id, sm !! id = Some e.
Proof using. by rewrite stateMapToSlice_perm, elem_of_StateMapToSlice. Qed.

Lemma slice_NoDup sm : keyed sm → NoDup (eID <$> stateMapToSlice sm).
Proof using. intros Hk. rewrite stateMapToSlice_perm. by apply StateMapToSlice_NoDup. Qed.

Lemma NewStateMap_slice sm : keyed sm → NewStateMap (stateMapToSlice sm) = sm.
Proof using.
  intros Hk. apply map_eq. intros id. apply option_eq. intros e.
  rewrite NewStateMap_Some, elem_of_slice by (by apply slice_NoDup). split; [|intros He; split; [by exists id|by apply Hk]].
  intros [(i & He) Hid]. pose proof (Hk i e He). congruence.
Qed.

(** Identifiers in their canonical spelling *)
Definition id_clean (id : ID) : Prop := id_ok id ∧ normalID id = id.

Lemma first_duplicate_clean l seen :
  NoDup (eID <$> l) → (∀ e, e ∈ l → normalID (eID e) = eID e ∧ eID e ∉ seen) → first_duplicate seen l = None.
Proof using.
  clear. revert seen. induction l as [|e l IH]; intros seen Hn Hc; cbn; [done|]. apply NoDup_cons in Hn as [He Hn].
  destruct (Hc e ltac:(by left)) as [Hid Hs]. rewrite Hid, bool_decide_eq_false_2 by done. apply IH; [done|].
  intros x Hx. destruct (Hc x ltac:(by right)) as [Hx1 Hx2]. split; [done|]. intros [Heq%elem_of_singleton|Hin]%elem_of_union; [|done].
  apply He. rewrite <- Heq. by apply list_elem_of_fmap_2.
Qed.

Lemma slice_unique sm : keyed sm → (∀ id, is_Some (sm !! id) → id_clean id) → firstDuplicateID (stateMapToSlice sm) = None.
Proof using.
  intros Hk Hc. apply first_duplicate_clean; [by apply slice_NoDup|]. intros e (id & He)%elem_of_slice.
  pose proof (Hk id e He) as ->. split; [|apply not_elem_of_empty]. by apply Hc.
Qed.

Section restoring.
Variables (Calm : World → Prop) (cs : ChangeSet) (original : StateMap).
Hypothesis compare_spec : ∀ a b, compare a b = true ↔ a = b.
Hypothesis calm : ∀ ctx s op, Calm (world s) → opID op ∈ opID <$> cs → dispatch_internal policy op = false →
  hasListener s op = true ∧ prepare ctx (world s) (idString (opID op)) = None ∧
  ∃ s', do_wait ctx (do_send ctx s (OpEvent (oKind op) (idString (opID op)) (oEntry op))) (idString (opID op)) = (s', Accepted) ∧ Calm (world s').
Hypothesis Hkeyed : keyed original.
Hypothesis Hdistinct : NoDup (opID <$> cs).
Hypothesis Hkinds : ∀ id e, original !! id = Some e → Kind e ≠ "".
Hypothesis Hclean : ∀ id, is_Some (original !! id) ∨ id ∈ opID <$> cs → id_clean id.

Lemma applyOperation_calm ctx s st op st' :
  Calm (world s) → opID op ∈ opID <$> cs → (oKind op = EntryCreate → Kind (oEntry op) ≠ "") → ApplyOperation st op = Ok st' →
  ∃ s', applyOperation ctx s st op = (s', st', None) ∧ Calm (world s').
Proof using calm.
  intros Hc Hid Hk Ha. destruct (apply_ok_valid _ _ _ Ha) as [Hv _]. unfold applyOperation. rewrite Hv.
  assert (∃ op', resolve_kind st op = Some op') as [op' Hr].
  { unfold resolve_kind. destruct (bool_decide_reflect (Kind (oEntry op) = "")) as [He|]; [|by eexists].
    destruct (st !! opID op) eqn:Es; [by eexists|]. exfalso. destruct (valid_kind st op Hv) as [E|[E|E]]; [by apply Hk| |].
    - apply (validate_update st op E) in Hv as (x & Hx & _). congruence.
    - apply (validate_delete st op E) in Hv as [x Hx]. congruence. }
  rewrite Hr. destruct (resolve_kind_op st op op' Hr) as [_ Hid']. rewrite <- (resolve_kind_apply st op op' Hv Hr) in Ha.
  assert (∀ s, applyPrivateStateOperation s st op' = (s, st', None)) as Hp.
  { intros x. unfold applyPrivateStateOperation. by rewrite Ha. }
  destruct (dispatch_internal policy op') eqn:Ed; [by exists s; rewrite Hp|].
  destruct (calm ctx s op' Hc) as (Hl & Hpr & s1 & Hw & Hc1); [by rewrite Hid'|done|].
  rewrite Hl, Hpr, Hw. cbn [negb]. exists s1. by rewrite Hp.
Qed.

Lemma rollback_ops ctx ops s st st' :
  Calm (world s) → (∀ op, op ∈ ops → opID op ∈ opID <$> cs ∧ (oKind op = EntryCreate → Kind (oEntry op) ≠ "")) →
  apply_all st ops = Ok st' → ∃ s', foldl (rollback_op ctx) (s, st) ops = (s', st').
Proof using calm.
  revert s st. induction ops as [|op ops IH]; intros s st Hc Hops; cbn [apply_all foldl]; [intros [= <-]; by eexists|].
  destruct (ApplyOperation st op) as [st1|] eqn:Ea; [|done]. intros Hall. destruct (Hops op ltac:(by left)) as [H1 H2].
  destruct (applyOperation_calm ctx s st op st1 Hc H1 H2 Ea) as (s1 & Hs & Hc1). unfold rollback_op at 2. rewrite Hs.
  apply IH; [done| |done]. intros x Hx. apply Hops. by right.
Qed.

Section partial.
Variables (acc rest : ChangeSet) (current : StateMap).
Hypothesis Hacc : acc ++ rest ≡ₚ cs.
Hypothesis Happly : apply_all original acc = Ok current.

Lemma acc_distinct : NoDup (opID <$> acc).
Proof using Hacc Hdistinct. rewrite <- Hacc, fmap_app in Hdistinct. by apply NoDup_app in Hdistinct as [? _]. Qed.

Lemma acc_in id : id ∈ opID <$> acc → id ∈ opID <$> cs.
Proof using Hacc. intros Hi. rewrite <- Hacc, fmap_app, elem_of_app. by left. Qed.

Lemma current_keyed : keyed current.
Proof using Happly Hkeyed. by eapply keyed_apply_all. Qed.

(** An entry that differs was touched by one accepted operation. *)
Lemma touched id : current !! id ≠ original !! id → id ∈ opID <$> acc.
Proof using Hacc Happly Hdistinct.
  intros Hne. destruct (applied_effect acc original current acc_distinct Happly) as [_ H2].
  destruct (decide (id ∈ opID <$> acc)) as [Hin|Hout]; [done|]. by rewrite H2 in Hne.
Qed.

Lemma kinds_kept id a b : current !! id = Some a → original !! id = Some b → Kind a = Kind b.
Proof using Hacc Happly Hdistinct.
  intros Ha Hb. destruct (applied_effect acc original current acc_distinct Happly) as [H1 H2].
  destruct (decide (id ∈ opID <$> acc)) as [Hin|Hout]; [|rewrite H2 in Ha by done; congruence].
  apply list_elem_of_fmap in Hin as (op & -> & Hop). rewrite (H1 op Hop) in Ha.
  pose proof (applied_valid acc original current acc_distinct Happly op Hop) as Hv.
  destruct (valid_kind original op Hv) as [E|[E|E]].
  - apply (validate_create original op E) in Hv. congruence.
  - apply (validate_update original op E) in Hv as (x & Hx & Hk).
    assert (effect op = Some (oEntry op)) as He by (unfold effect, is_delete; by rewrite E). congruence.
  - assert (effect op = None) as He by (unfold effect, is_delete; by rewrite E). congruence.
Qed.

Lemma current_clean id : is_Some (current !! id) → id_clean id.
Proof using Hacc Happly Hclean Hdistinct.
  intros Hs. destruct (decide (current !! id = original !! id)) as [He|Hne]; [apply Hclean; left; by rewrite <- He|].
  apply Hclean. right. by apply acc_in, touched.
Qed.

Lemma delta_ids op : op ∈ delta_ops compare (stateMapToSlice current) (stateMapToSlice original) →
  opID op ∈ opID <$> cs ∧ (oKind op = EntryCreate → Kind (oEntry op) ≠ "").
Proof using Type*.
  unfold delta_ops. rewrite elem_of_app, elem_of_deletions, elem_of_writes, !NewStateMap_slice by (done || apply current_keyed).
  intros [(e & (id & He)%elem_of_slice & Hn & ->)|(e & (id & He)%elem_of_slice & Hw)].
  - split; [|done]. pose proof (current_keyed id e He) as Hid. unfold opID. cbn. rewrite Hid in *. apply acc_in, touched. congruence.
  - pose proof (Hkeyed id e He) as Hid. rewrite Hid in Hw. destruct Hw as [[Hn ->]|(old & Ho & Hc & ->)]; unfold opID; cbn; rewrite Hid.
    + split; [apply acc_in, touched; congruence|]. intros _. by eapply Hkinds.
    + split; [|done]. apply acc_in, touched. rewrite Ho, He. intros [= ->]. assert (compare e e = true) by (by apply compare_spec). congruence.
Qed.

Lemma rollback_restores ctx s : Calm (world s) → ∃ s', rollback ctx s original current = (s', original).
Proof using Type*.
  intros Hc. unfold rollback.
  destruct (BuildDelta_run r compare (stateMapToSlice current) (stateMapToSlice original)) as (ops & st' & -> & Hp & Ha & Hsame).
  - apply slice_unique; [apply current_keyed|apply current_clean].
  - apply slice_unique; [done|]. intros id Hi. apply Hclean. by left.
  - intros e [(id & He)%elem_of_slice|(id & He)%elem_of_slice]%elem_of_app.
    + pose proof (current_keyed id e He) as ->. apply current_clean. by eexists.
    + pose proof (Hkeyed id e He) as ->. apply Hclean. left. by eexists.
  - intros a b (i & Hi)%elem_of_slice (j & Hj)%elem_of_slice Hij _. pose proof (current_keyed i a Hi). pose proof (Hkeyed j b Hj).
    eapply kinds_kept; [done|]. congruence.
  - rewrite NewStateMap_slice in Ha by apply current_keyed.
    destruct (rollback_ops ctx ops s current st' Hc) as [s' Hs]; [intros op; rewrite Hp; apply delta_ids|done|].
    exists s'. rewrite Hs. f_equal. apply map_eq. intros id. specialize (Hsame id). rewrite NewStateMap_slice in Hsame by done.
    destruct Hsame as [a b [->|Hab%compare_spec]|]; by subst.
Qed.
End partial.
End restoring.


(** ** Deferral *)

Lemma sum_elem (l : list err) e : e ∈ l → (err_size e ≤ list_sum (err_size <$> l))%nat.
Proof using. clear. induction 1 as [x l|x y l _ IH]; rewrite fmap_cons; cbn [list_sum foldr]; unfold list_sum in *; cbn [foldr]; lia. Qed.

Lemma as_api_smaller n e k c : (err_size e ≤ n)%nat → as_api e = Some (k, Some c) → (err_size c < err_size e)%nat.
Proof using.
  revert e. induction n as [|n IH]; intros [k' l [c'|]|m [c'|]|errs] Hn; cbn [err_size] in Hn; try lia; try done.
  - cbn. intros [= _ ->]. lia.
  - cbn. intros Ha. apply IH in Ha; lia.
  - intros Ha. assert (∃ x, x ∈ errs ∧ as_api x = Some (k, Some c)) as (x & Hx & Hax).
    { clear IH Hn. cbn in Ha. induction errs as [|y errs IHl]; [done|]. destruct (as_api y) as [z|] eqn:Ey.
      - exists y. split; [by left|]. congruence.
      - destruct IHl as (x & Hx & ?); [done|]. exists x. split; [by right|done]. }
    pose proof (sum_elem errs x Hx). apply IH in Hax; cbn [err_size]; lia.
Qed.

Lemma unwrap_smaller e c : unwrap e = Some c → (err_size c < err_size e)%nat.
Proof using. destruct e as [k l [c'|]|m [c'|]|errs]; cbn; try done; intros [= ->]; lia. Qed.

Lemma deferrable_fuel n m e : (err_size e < n)%nat → (err_size e < m)%nat → deferrable n (Some e) = deferrable m (Some e).
Proof using.
  revert m e. induction n as [|n IH]; intros [|m] e Hn Hm; try lia. cbn [deferrable].
  destruct (as_api e) as [[k [c|]]|] eqn:Ea.
  - apply (as_api_smaller _ _ _ _ (reflexivity _)) in Ea. destruct (bool_decide _); [done|]. apply IH; lia.
  - destruct (bool_decide _); [done|]. by destruct n, m.
  - destruct (unwrap e) as [c|] eqn:Eu; [|by destruct n, m]. apply unwrap_smaller in Eu. apply IH; lia.
Qed.

(** The runner's own wrapping of a listener's error does not hide it. *)
Lemma rejected_deferrable id e : isDeferrable (ErrApi Invalid (OperationRejected id) (Some e)) = isDeferrable e.
Proof using. reflexivity. Qed.

(** Kinds along a chain of wrapped errors *)
Fixpoint chain (e : err) : list string :=
  match e with
  | ErrApi kind _ (Some c) => kind :: chain c
  | ErrApi kind _ None => [kind]
  | ErrPlain _ (Some c) => chain c
  | ErrPlain _ None | ErrJoin _ => []
  end.

Fixpoint join_free (e : err) : Prop :=
  match e with
  | ErrApi _ _ (Some c) | ErrPlain _ (Some c) => join_free c
  | ErrApi _ _ None | ErrPlain _ None => True
  | ErrJoin _ => False
  end.

Lemma as_api_chain e :
  join_free e →
  match as_api e with
  | Some (k, Some c) => chain e = k :: chain c ∧ join_free c
  | Some (k, None) => chain e = [k]
  | None => chain e = []
  end.
Proof using. revert e. fix IH 1. intros [k l [c|]|m [c|]|errs]; cbn; try done. apply IH. Qed.

(** Without joined errors, an operation is deferred exactly when some error along the
    chain of causes has the kind NotFound. *)
Theorem isDeferrable_chain e : join_free e → isDeferrable e = bool_decide (NotFound ∈ chain e).
Proof using.
  unfold isDeferrable. remember (S (err_size e)) as n eqn:Hn. assert (err_size e < n)%nat as Hlt by lia. clear Hn. revert e Hlt.
  induction n as [|n IH]; intros e Hlt Hj; [lia|]. cbn [deferrable]. pose proof (as_api_chain e Hj) as Hc.
  destruct (as_api e) as [[k [c|]]|] eqn:Ea.
  - destruct Hc as [-> Hjc]. apply (as_api_smaller _ _ _ _ (reflexivity _)) in Ea.
    destruct (bool_decide_reflect (k = NotFound)) as [->|Hk]; [by rewrite bool_decide_eq_true_2 by left|].
    rewrite IH by (done || lia). apply bool_decide_ext. rewrite elem_of_cons. naive_solver.
  - rewrite Hc. destruct (bool_decide_reflect (k = NotFound)) as [->|Hk]; [by rewrite bool_decide_eq_true_2 by left|].
    rewrite bool_decide_eq_false_2 by (rewrite list_elem_of_singleton; naive_solver). by destruct n.
  - rewrite Hc, bool_decide_eq_false_2 by apply not_elem_of_nil. destruct (unwrap e) as [c|] eqn:Eu; [|by destruct n].
    pose proof (unwrap_smaller _ _ Eu). assert (join_free c ∧ chain c = []) as [Hjc Hcc].
    { destruct e as [k l [x|]|m [x|]|errs]; cbn in *; try done. injection Eu as ->. done. }
    rewrite IH, Hcc by (done || lia). by rewrite bool_decide_eq_false_2 by apply not_elem_of_nil.
Qed.

(** ** Operations that wait for each other *)

Section convergence.
Variables (ctx : Ctx) (known : World → gset ID) (needs : Operation → gset ID).
Hypothesis alive : ∀ w, ctxErr ctx w = None.
Hypothesis heard : ∀ s op, hasListener s op = true ∧ prepare ctx (world s) (idString (opID op)) = None.
(** Listeners accept a creation when they know what it needs, and otherwise reject it as
    not found; they know what they accepted. *)
Hypothesis listeners : ∀ s op s' a,
  do_wait ctx (do_send ctx s (OpEvent (oKind op) (idString (opID op)) (oEntry op))) (idString (opID op)) = (s', a) →
  if bool_decide (needs op ⊆ known (world s))
  then a = Accepted ∧ known (world s') = {[opID op]} ∪ known (world s)
  else (∃ e, a = Rejected (Some e) ∧ isDeferrable e = true) ∧ known (world s') = known (world s).

Definition creations (cs : ChangeSet) (st : StateMap) : Prop :=
  NoDup (opID <$> cs) ∧
  ∀ op, op ∈ cs → oKind op = EntryCreate ∧ Kind (oEntry op) ≠ "" ∧ dispatch_internal policy op = false ∧ st !! opID op = None.

Lemma applyOperation_creation s st op :
  oKind op = EntryCreate → Kind (oEntry op) ≠ "" → dispatch_internal policy op = false → st !! opID op = None →
  ∃ s', if bool_decide (needs op ⊆ known (world s))
        then applyOperation ctx s st op = (s', <[opID op := oEntry op]> st, None) ∧ known (world s') = {[opID op]} ∪ known (world s)
        else ∃ e, applyOperation ctx s st op = (s', st, Some e) ∧ isDeferrable e = true ∧ known (world s') = known (world s).
Proof using heard listeners.
  intros Hk Hn Hd Hs. assert (ValidateOperation st op = None) as Hv by (by apply validate_create).
  unfold applyOperation. rewrite Hv. unfold resolve_kind. rewrite (bool_decide_eq_false_2 (Kind (oEntry op) = "")) by done. rewrite Hd.
  destruct (heard s op) as [-> ->]. cbn [negb].
  destruct (do_wait _ _ _) as [s' a] eqn:Ew. specialize (listeners s op s' a Ew). exists s'. destruct (bool_decide _).
  - destruct listeners as [-> Hkn]. split; [|done]. unfold applyPrivateStateOperation, ApplyOperation. rewrite Hv.
    unfold applyValidatedOperation. by rewrite Hk.
  - destruct listeners as [(e & -> & He) Hkn]. eexists. split; [done|]. by rewrite rejected_deferrable.
Qed.

Lemma creations_accept cs st op : creations (op :: cs) st → creations cs (<[opID op := oEntry op]> st).
Proof using.
  intros [Hn Hc]. apply NoDup_cons in Hn as [Ho Hn]. split; [done|]. intros x Hx. destruct (Hc x ltac:(by right)) as (H1 & H2 & H3 & H4).
  split_and!; [done..|]. rewrite lookup_insert_ne; [done|]. intros He. apply Ho. rewrite He. by apply list_elem_of_fmap_2.
Qed.

Lemma creations_defer cs st op : creations (op :: cs) st → creations cs st.
Proof using. intros [Hn Hc]. apply NoDup_cons in Hn as [_ Hn]. split; [done|]. intros x Hx. apply Hc. by right. Qed.

(** A pass over creations neither fails nor forgets, and accepts what was ready. *)
Lemma pass_creations rem s st deferred le progressed :
  creations rem st →
  ∃ s' st' acc rest le', pass ctx rem s st deferred le progressed = PassDone s' st' (deferred ++ rest) le' (progressed || bool_decide (acc ≠ [])) ∧
    acc ++ rest ≡ₚ rem ∧ apply_all st acc = Ok st' ∧ known (world s') = list_to_set (opID <$> acc) ∪ known (world s) ∧
    (∀ op, op ∈ rest → ¬ needs op ⊆ known (world s)).
Proof using alive heard listeners.
  clear cleanup transactionParticipants r compare. revert s st deferred le progressed. induction rem as [|op rem IH]; intros s st deferred le progressed Hc; cbn [pass].
  { exists s, st, [], [], le. rewrite app_nil_r, orb_false_r. split_and!; [done..|cbn; set_solver|]. by intros op Hop%elem_of_nil. }
  destruct (proj2 Hc op ltac:(by left)) as (H1 & H2 & H3 & H4). destruct (applyOperation_creation s st op H1 H2 H3 H4) as [s1 Hs].
  destruct (bool_decide_reflect (needs op ⊆ known (world s))) as [Hneed|Hneed].
  - destruct Hs as [Ha Hkn]. rewrite Ha, alive.
    destruct (IH s1 (<[opID op := oEntry op]> st) deferred le true (creations_accept _ _ _ Hc)) as (s' & st' & acc & rest & le' & Hp & Hperm & Hall & Hk & Hr).
    exists s', st', (op :: acc), rest, le'. rewrite Hp. split_and!; [by rewrite orb_true_r|cbn; by rewrite Hperm| | |].
    + cbn [apply_all]. pose proof (applyOperation_state _ _ _ _ _ _ _ Ha) as Ho. cbn in Ho. by rewrite Ho.
    + rewrite Hk, Hkn. cbn. set_solver.
    + intros x Hx Hsub. apply (Hr x Hx). rewrite Hkn. set_solver.
  - destruct Hs as (e & Ha & Hd & Hkn). rewrite Ha, alive, Hd.
    destruct (IH s1 st (deferred ++ [op]) (Some e) progressed (creations_defer _ _ _ Hc)) as (s' & st' & acc & rest & le' & Hp & Hperm & Hall & Hk & Hr).
    exists s', st', acc, (op :: rest), le'. rewrite Hp, <- app_assoc. split_and!; [done| |done|by rewrite Hk, Hkn|].
    + rewrite <- Hperm. symmetry. apply Permutation_middle.
    + intros x [->|Hx]%elem_of_cons; [done|]. rewrite <- Hkn. by apply Hr.
Qed.

Lemma apply_creations st acc st' id : apply_all st acc = Ok st' → is_Some (st' !! id) → is_Some (st !! id) ∨ id ∈ opID <$> acc.
Proof using.
  revert st. induction acc as [|op acc IH]; intros st; cbn [apply_all]; [intros [= <-]; by left|].
  destruct (ApplyOperation st op) as [st1|] eqn:Ea; [|done]. intros Hall Hs. destruct (IH st1 Hall Hs) as [H1|H1]; [|right; by right].
  destruct (apply_ok_valid _ _ _ Ea) as [Hv ->]. destruct (decide (id = opID op)) as [->|Hne]; [right; by left|]. left.
  pose proof (apply_valid st op Hv) as Hav. rewrite Ea in Hav. injection Hav as Hav. rewrite Hav, lookup_partial_alter_ne in H1; done.
Qed.

(** [rank] orders the changeset by need. *)
Definition ranked_by (rank : ID → nat) (cs : ChangeSet) (have : gset ID) : Prop :=
  ∀ op id, op ∈ cs → id ∈ needs op → id ∈ have ∨ ∃ x, x ∈ cs ∧ opID x = id ∧ (rank id < rank (opID op))%nat.

Lemma lowest (rank : ID → nat) (cs : ChangeSet) : cs ≠ [] → ∃ op, op ∈ cs ∧ ∀ x, x ∈ cs → (rank (opID op) ≤ rank (opID x))%nat.
Proof using.
  induction cs as [|op cs IH]; [done|]. intros _. destruct (decide (cs = [])) as [->|Hne].
  - exists op. split; [by left|]. by intros x ->%list_elem_of_singleton.
  - destruct (IH Hne) as (m & Hm & Hmin). destruct (decide (rank (opID op) ≤ rank (opID m))%nat) as [Hle|Hgt].
    + exists op. split; [by left|]. intros x [->|Hx]%elem_of_cons; [done|]. specialize (Hmin x Hx). lia.
    + exists m. split; [by right|]. intros x [->|Hx]%elem_of_cons; [lia|]. by apply Hmin.
Qed.

Lemma passes_creations rank fuel rem s st :
  (length rem < fuel)%nat → creations rem st → ranked_by rank rem (known (world s)) →
  ∃ s' st', passes fuel ctx rem s st = AllAccepted s' st'.
Proof using alive heard listeners.
  clear cleanup transactionParticipants r compare. revert rem s st. induction fuel as [|fuel IH]; intros rem s st Hf Hc Hrank; [lia|]. cbn [passes].
  destruct (bool_decide_reflect (rem = [])) as [->|Hne]; [by eauto|].
  destruct (pass_creations rem s st [] None false Hc) as (s' & st' & acc & rest & le & -> & Hp & Ha & Hk & Hr). cbn [app orb].
  destruct (bool_decide_reflect (rest = [])) as [->|Hrest]; [by eauto|].
  assert (acc ≠ []) as Hacc.
  { intros ->. cbn in Hp. destruct (lowest rank rem Hne) as (m & Hm & Hmin). apply (Hr m); [by rewrite Hp|].
    intros id Hid. destruct (Hrank m id Hm Hid) as [|(x & Hx & <- & Hlt)]; [done|]. specialize (Hmin x Hx). lia. }
  rewrite bool_decide_eq_true_2 by done. cbn [negb]. apply (IH rest s' st').
  - apply Permutation_length in Hp. rewrite length_app in Hp. destruct acc; [done|cbn in Hp; lia].
  - destruct Hc as [Hn Hc]. rewrite <- Hp, fmap_app in Hn. apply NoDup_app in Hn as (_ & Hdis & Hn). split; [done|]. intros x Hx.
    destruct (Hc x) as (H1 & H2 & H3 & H4); [rewrite <- Hp; apply elem_of_app; by right|]. split_and!; [done..|].
    destruct (st' !! opID x) as [y|] eqn:Ey; [|done]. exfalso. destruct (apply_creations st acc st' (opID x) Ha) as [[z Hz]|Hin]; [by eexists|congruence|].
    apply (Hdis _ Hin). by apply list_elem_of_fmap_2.
  - intros x id Hx Hid. destruct (Hrank x id) as [Hkn|(y & Hy & <- & Hlt)]; [rewrite <- Hp; apply elem_of_app; by right|done|left; rewrite Hk; set_solver|].
    rewrite <- Hp in Hy. apply elem_of_app in Hy as [Hy|Hy]; [|right; by exists y]. left. rewrite Hk. apply elem_of_union. left.
    apply elem_of_list_to_set. by apply list_elem_of_fmap_2.
Qed.

End convergence.
End runner.

(** ** Worked examples *)

(** Listeners that refuse one entry until the effects are withdrawn *)
Definition broken : Entry := mkEntry None [] (NewID "app" "broken") "service" "" false.
Definition demo_changes : ChangeSet := [mkOp None EntryUpdate svc2; mkOp None EntryCreate broken].

Definition demo_send (_ : unit) (w : bool * option bus_event) (e : bus_event) : bool * option bus_event := (w.1, Some e).

Definition demo_wait (_ : unit) (w : bool * option bus_event) (_ : string) : bool * option bus_event * reply :=
  (w, match w.2 with
      | Some (OpEvent _ path _) =>
          if bool_decide (path = idString (eID broken)) && negb w.1 then Rejected (Some (ErrApi Invalid (Message "no such image") None))
          else Accepted
      | _ => Accepted
      end).

Definition demo_abort (_ : unit) (w : bool * option bus_event) : bool * option bus_event := (true, w.2).

Definition demo_transition : option (run * StateMap * option err) :=
  Transition demo_send demo_wait (λ _ _ _, None) (λ _ _, None) id (λ _ _, true) None None None NoResolver DeepEqual
    tt 0 (false, None) demo_state demo_changes (Some demo_abort).


(** A reader listed before the variable it needs *)
Definition demo_needs (e : Entry) : gset ID := if bool_decide (eID e = eID svc) then {[eID db_url]} else ∅.

Definition need_send (_ : unit) (w : gset ID * option bus_event) (e : bus_event) : gset ID * option bus_event := (w.1, Some e).

Definition need_wait (_ : unit) (w : gset ID * option bus_event) (_ : string) : gset ID * option bus_event * reply :=
  match w.2 with
  | Some (OpEvent _ _ entry) =>
      if bool_decide (demo_needs entry ⊆ w.1) then (({[eID entry]} ∪ w.1, w.2), Accepted)
      else (w, Rejected (Some (ErrApi NotFound (Message "entry not found") None)))
  | _ => (w, Accepted)
  end.

Definition demo_creations : ChangeSet := [mkOp None EntryCreate svc; mkOp None EntryCreate db_url].


Lemma isDeferrable_chain_witness :
  isDeferrable (ErrApi Invalid (OperationRejected (eID svc)) (Some (ErrPlain "start" (Some (ErrApi NotFound (Message "db") None))))) = true.
Proof. rewrite isDeferrable_chain by exact I. vm_compute. reflexivity. Defined.

(** Of joined errors only the first categorized one is looked at. *)
Lemma join_hides_not_found :
  isDeferrable (ErrJoin [ErrApi Invalid (Message "a") None; ErrApi NotFound (Message "b") None]) = false ∧
  isDeferrable (ErrJoin [ErrApi NotFound (Message "b") None; ErrApi Invalid (Message "a") None]) = true.
Proof. split; vm_compute; reflexivity. Qed.

(** A replacement by an entry of another kind is not undone: the rollback wants to update
    the entry back to its old kind, which every validation refuses. *)
Lemma replaced_kind_not_restored :
  match Transition demo_send demo_wait (λ _ _ _, None) (λ _ _, None) id (λ _ _, true) None None None NoResolver DeepEqual
      tt 0 (false, None) [svc] [mkOp None EntryDelete svc; mkOp None EntryCreate svc_process; mkOp None EntryCreate broken] (Some demo_abort) with
  | Some (_, st, Some _) => st !! eID svc = Some svc_process
  | _ => False
  end.
Proof. vm_compute. reflexivity. Qed.
End Runner.
