(* ===== verification/RegHistory.v ===== *)
(** * Versions and the in-memory history ([internal/version], [system/registry/history/memory])

    A version is an identifier with its parent; [Storage] keeps the versions, the
    changeset of each and the head. Copies that the code makes of entries and changesets
    are values here. The context handed to a replay is a single answer, [ctxErr]: a replay
    that is cancelled returns the error, whatever it had collected. Dependency resolutions
    are attached to versions by directives only and are not modelled.

    The theorems: a well-formed history stays so under every operation; replaying a version
    that was saved on top of another gives that one's changesets followed by its own; saving
    changes no other replay; and the head moves only from the version the writer started
    from. *)

From stdpp Require Import pretty.
From S2P Require Import Prelude Bytes GoStrings Graph RegEntry RegDeps RegOrder RegDelta.

Module History.
Import Entries Deps Order Delta.

(** ** Versions *)

Inductive version := mkVersion (vID : Z) (vPrevious : option version).

Definition vid (v : version) : Z := let '(mkVersion i _) := v in i.
Definition Previous (v : version) : option version := let '(mkVersion _ p) := v in p.

Definition vString (v : version) : string := "v" +:+ pretty (Z.to_N (vid v)).

Definition NewVersion (id : Z) : version := mkVersion id None.

Definition FromParent (parent : option version) (id : Z) : version :=
  match parent with None => NewVersion id | Some p => mkVersion id (Some p) end.

Definition RootVersion : Z := 0.

(** ** Storage *)

Record Storage := mkStorage { versions : gmap Z version; actions : gmap Z ChangeSet; head : option version }.

Definition New : Storage := mkStorage {[0 := NewVersion 0]} {[0 := []]} None.

Inductive history_error :=
| VersionNotFound (version : string)
| NoHeadVersion
| NoParent (id : Z)
| VersionExists (id : Z)
| HeadChanged (expected : Z)
| ContextDone.

Definition version_le (a b : version) : Prop := vid a ≤ vid b.
#[export] Instance version_le_dec a b : Decision (version_le a b) := decide (vid a ≤ vid b).

Definition Versions (m : Storage) : list version := merge_sort version_le (map_to_list (versions m)).*2.

Definition MaxVersionID (m : Storage) : Z := foldl Z.max 0 (map_to_list (versions m)).*1.

Definition GetVersion (m : Storage) (id : Z) : result history_error version :=
  match versions m !! id with
  | Some stored => Ok stored
  | None => Err (VersionNotFound (pretty (Z.to_N id)))
  end.

Definition Get (m : Storage) (v : version) : result history_error ChangeSet :=
  match actions m !! vid v with
  | Some cs => Ok cs
  | None => Err (VersionNotFound (vString v))
  end.

(** The identifiers from a version up to the structural root, which is left out *)
Fixpoint lineage (v : version) : list Z :=
  let '(mkVersion i p) := v in
  if bool_decide (i > RootVersion) then i :: match p with Some p => lineage p | None => [] end else [].

Fixpoint changesets_of (m : Storage) (ids : list Z) : result history_error (list ChangeSet) :=
  match ids with
  | [] => Ok []
  | i :: ids =>
      match actions m !! i with
      | None => Err (VersionNotFound (pretty (Z.to_N i)))
      | Some cs => match changesets_of m ids with Err e => Err e | Ok rest => Ok (cs :: rest) end
      end
  end.

Definition replayChanges (m : Storage) (target : version) : result history_error (list ChangeSet) :=
  match versions m !! vid target with
  | None => Err (VersionNotFound (vString target))
  | Some stored => changesets_of m (reverse (lineage stored))
  end.

(** The changesets that [ReplayChanges] hands to its callback; the callbacks of the
    registry never fail. *)
Definition ReplayChanges (m : Storage) (ctxErr : bool) (target : version) : result history_error (list ChangeSet) :=
  if ctxErr then Err ContextDone else replayChanges m target.

Definition memoryHeadMatchesParent (head parent : option version) : bool :=
  match head with
  | None => match parent with Some p => bool_decide (vid p = RootVersion) | None => false end
  | Some h => match parent with Some p => bool_decide (vid h = vid p) | None => false end
  end.

Definition Save (m : Storage) (newVersion : version) (acts : ChangeSet) (setHead : bool) : result history_error Storage :=
  if bool_decide (vid newVersion ≠ RootVersion) && bool_decide (Previous newVersion = None) then Err (NoParent (vid newVersion)) else
  match versions m !! vid newVersion with
  | Some _ =>
      if bool_decide (vid newVersion = RootVersion) && bool_decide (length acts = 0)%nat then
        Ok (if setHead then mkStorage (versions m) (actions m) (versions m !! RootVersion) else m)
      else Err (VersionExists (vid newVersion))
  | None =>
      let store (stored : version) :=
        mkStorage (<[vid newVersion := stored]> (versions m)) (<[vid newVersion := acts]> (actions m))
                  (if setHead then Some stored else head m) in
      match Previous newVersion with
      | None => Ok (store newVersion)
      | Some previous =>
          match versions m !! vid previous with
          | None => Err (VersionNotFound (vString previous))
          | Some storedParent =>
              if setHead && negb (memoryHeadMatchesParent (head m) (Some previous)) then Err (HeadChanged (vid previous))
              else Ok (store (FromParent (Some storedParent) (vid newVersion)))
          end
      end
  end.

Definition Head (m : Storage) : result history_error version :=
  match head m with None => Err NoHeadVersion | Some v => Ok v end.

Definition SetHead (m : Storage) (v : version) : result history_error Storage :=
  match versions m !! vid v with
  | None => Err (VersionNotFound (vString v))
  | Some stored => Ok (mkStorage (versions m) (actions m) (Some stored))
  end.

Definition CompareAndSetHead (m : Storage) (expected target : version) : result history_error Storage :=
  match versions m !! vid target with
  | None => Err (VersionNotFound (vString target))
  | Some stored =>
      if negb (memoryHeadMatchesParent (head m) (Some expected)) then Err (HeadChanged (vid expected))
      else Ok (mkStorage (versions m) (actions m) (Some stored))
  end.

(** ** Well-formed histories *)

(** Every stored version is under its identifier, with a stored parent and a changeset. *)
Record storage_ok (m : Storage) : Prop := {
  so_root : versions m !! 0 = Some (NewVersion 0);
  so_version : ∀ i v, versions m !! i = Some v →
    vid v = i ∧ 0 ≤ i ∧ is_Some (actions m !! i) ∧ (i ≠ 0 → ∃ p, Previous v = Some p ∧ versions m !! vid p = Some p);
  so_head : ∀ v, head m = Some v → versions m !! vid v = Some v
}.

Lemma New_ok : storage_ok New.
Proof.
  split; cbn; [by rewrite lookup_singleton_eq| |done]. intros i v [<- <-]%lookup_singleton_Some. split_and!; [done|done| |done].
  by rewrite lookup_singleton_eq.
Qed.

Lemma Save_cases m v acts setHead m' :
  Save m v acts setHead = Ok m' →
  (is_Some (versions m !! vid v) ∧ versions m' = versions m ∧ actions m' = actions m ∧ (head m' = head m ∨ head m' = versions m !! 0)) ∨
  ∃ stored, versions m !! vid v = None ∧ vid stored = vid v ∧
    ((vid v = 0 ∧ Previous v = None ∧ stored = v) ∨
     ∃ p sp, Previous v = Some p ∧ versions m !! vid p = Some sp ∧ stored = mkVersion (vid v) (Some sp) ∧
       (setHead = true → memoryHeadMatchesParent (head m) (Some p) = true)) ∧
    m' = mkStorage (<[vid v := stored]> (versions m)) (<[vid v := acts]> (actions m)) (if setHead then Some stored else head m).
Proof.
  unfold Save. destruct (bool_decide_reflect (vid v ≠ RootVersion)) as [Hr|Hr]; cbn [andb].
  - destruct (bool_decide_reflect (Previous v = None)) as [|Hp]; [done|].
    destruct (versions m !! vid v) eqn:Ev; [by rewrite (bool_decide_eq_false_2 (vid v = RootVersion))|].
    destruct (Previous v) as [p|]; [|done]. destruct (versions m !! vid p) as [sp|] eqn:Ep; [|done].
    destruct (setHead && negb _) eqn:Eh; [done|]. intros [= <-]. right. eexists. split; [done|]. split; [|split; [right|done]].
    + by destruct v.
    + exists p, sp. split_and!; [done|done|done|]. intros ->. by apply negb_false_iff in Eh.
  - apply dec_stable in Hr. rewrite Hr. destruct (versions m !! RootVersion) as [x|] eqn:Ev.
    { rewrite (bool_decide_eq_true_2 (RootVersion = RootVersion)) by done. cbn [andb]. destruct (bool_decide _); [|done].
      intros [= <-]. left. split; [by eexists|]. destruct setHead; cbn; [|tauto]. split_and!; [done|done|]. right. exact (eq_sym Ev). }
    destruct (Previous v) as [p|] eqn:Ep.
    + destruct (versions m !! vid p) as [sp|] eqn:Esp; [|done]. destruct (setHead && negb _) eqn:Eh; [done|]. intros [= <-]. right.
      eexists. split; [done|]. split; [|split; [right|done]]; [done|]. exists p, sp. split_and!; [done|done|done|]. intros ->.
      by apply negb_false_iff in Eh.
    + intros [= <-]. right. exists v. split_and!; [done|done|by left|done].
Qed.

Lemma Save_ok m v acts setHead m' : storage_ok m → 0 ≤ vid v → Save m v acts setHead = Ok m' → storage_ok m'.
Proof.
  intros [H1 H2 H3] Hpos [(_ & Hv & Ha & Hh)|(stored & Hnew & Hid & Hst & ->)]%Save_cases.
  - split; rewrite ?Hv, ?Ha; [done|done|]. intros x. destruct Hh as [->| ->]; [by apply H3|]. rewrite H1. by intros [= <-].
  - split; cbn.
    + rewrite lookup_insert_ne; [done|]. intros He. rewrite He, H1 in Hnew. done.
    + intros i x. rewrite lookup_insert_Some. intros [[<- <-]|[Hne Hx]].
      * split_and!; [done|done|by rewrite lookup_insert_eq|]. intros Hi. destruct Hst as [(H0 & _)|(p & sp & _ & Hsp & -> & _)]; [done|].
        exists sp. split; [done|]. destruct (H2 _ _ Hsp) as [Hvp _]. rewrite Hvp, lookup_insert_ne; [done|]. intros He. rewrite He in Hnew. congruence.
      * destruct (H2 i x Hx) as (Hi & Hp & Hac & Hpar). split_and!; [done|done|by rewrite lookup_insert_ne|]. intros Hi0.
        destruct (Hpar Hi0) as (p & Hpp & Hps). exists p. split; [done|]. rewrite lookup_insert_ne; [done|]. intros He. rewrite He in Hnew. congruence.
    + intros x. destruct setHead; [intros [= <-]; by rewrite Hid, lookup_insert_eq|]. intros Hx%H3. rewrite lookup_insert_ne; [done|].
      intros He. rewrite He in Hnew. congruence.
Qed.

Lemma CompareAndSetHead_ok m a b m' : storage_ok m → CompareAndSetHead m a b = Ok m' → storage_ok m'.
Proof.
  intros [H1 H2 H3]. unfold CompareAndSetHead. destruct (versions m !! vid b) as [s|] eqn:Es; [|done]. destruct (negb _); [done|].
  intros [= <-]. split; cbn; [done|done|]. intros v [= <-]. by destruct (H2 _ _ Es) as [-> _].
Qed.

Lemma SetHead_ok m v m' : storage_ok m → SetHead m v = Ok m' → storage_ok m'.
Proof.
  intros [H1 H2 H3]. unfold SetHead. destruct (versions m !! vid v) as [s|] eqn:Es; [|done]. intros [= <-]. split; cbn; [done|done|].
  intros x [= <-]. by destruct (H2 _ _ Es) as [-> _].
Qed.

(** ** Replay *)

Lemma changesets_app m a b x y : changesets_of m a = Ok x → changesets_of m b = Ok y → changesets_of m (a ++ b) = Ok (x ++ y).
Proof.
  revert x. induction a as [|i a IH]; intros x; cbn; [by intros [= <-]|]. destruct (actions m !! i); [|done].
  destruct (changesets_of m a); [|done]. intros [= <-] Hy. by rewrite (IH _ eq_refl Hy).
Qed.

Lemma changesets_ext m m' ids : (∀ i, i ∈ ids → actions m' !! i = actions m !! i) → changesets_of m' ids = changesets_of m ids.
Proof.
  induction ids as [|i ids IH]; intros He; cbn; [done|]. rewrite He by left. destruct (actions m !! i); [|done].
  by rewrite IH by (intros j Hj; apply He; by right).
Qed.

(** The lineage of a stored version is stored. *)
Lemma lineage_stored m v : storage_ok m → versions m !! vid v = Some v → ∀ i, i ∈ lineage v → is_Some (versions m !! i).
Proof.
  intros Hok. revert v. fix IH 1. intros [i p] Hv j Hj. cbn in Hj. destruct (bool_decide_reflect (i > RootVersion)) as [Hi|]; [|by apply elem_of_nil in Hj].
  apply elem_of_cons in Hj as [->|Hj]; [by eexists|]. destruct p as [p|]; [|by apply elem_of_nil in Hj].
  apply (IH p); [|done]. destruct (so_version m Hok _ _ Hv) as (_ & _ & _ & Hpar). destruct Hpar as (q & [= <-] & Hq); [cbn; unfold RootVersion in *; lia|done].
Qed.

Lemma changesets_total m ids : storage_ok m → (∀ i, i ∈ ids → is_Some (versions m !! i)) → ∃ css, changesets_of m ids = Ok css.
Proof.
  intros Hok. induction ids as [|i ids IH]; intros Hi; [by eexists|]. cbn. destruct (Hi i ltac:(by left)) as [v Hv].
  destruct (so_version m Hok i v Hv) as (_ & _ & [cs ->] & _). destruct IH as [css ->]; [intros j Hj; apply Hi; by right|]. by eexists.
Qed.

Lemma replay_stored m v : storage_ok m → versions m !! vid v = Some v → replayChanges m v = changesets_of m (reverse (lineage v)).
Proof. intros _ Hv. unfold replayChanges. by rewrite Hv. Qed.

Lemma replay_total m v : storage_ok m → versions m !! vid v = Some v → ∃ css, replayChanges m v = Ok css.
Proof.
  intros Hok Hv. rewrite replay_stored by done. apply changesets_total; [done|]. intros i. rewrite elem_of_reverse. by apply lineage_stored.
Qed.

Lemma saved_replay m p acts setHead m' i css :
  storage_ok m → versions m !! vid p = Some p → 0 < i → versions m !! i = None → Save m (mkVersion i (Some p)) acts setHead = Ok m' →
  replayChanges m p = Ok css → replayChanges m' (mkVersion i (Some p)) = Ok (css ++ [acts]).
Proof.
  intros Hok Hp Hi Hnew Hsave Hr. rewrite replay_stored in Hr by done.
  apply Save_cases in Hsave as [([x Hx] & _)|(stored & _ & _ & Hst & ->)]; [cbn in Hx; congruence|].
  destruct Hst as [(H0 & _)|(q & sp & [= <-] & Hsp & -> & _)]; [cbn in H0; lia|]. cbn in *.
  assert (sp = p) as -> by congruence. unfold replayChanges. cbn [versions vid]. rewrite lookup_insert_eq. cbn [lineage].
  rewrite bool_decide_eq_true_2 by (unfold RootVersion; lia). rewrite reverse_cons.
  apply changesets_app; [|cbn; by rewrite lookup_insert_eq]. rewrite <- Hr. apply changesets_ext. intros j Hj. cbn.
  rewrite lookup_insert_ne; [done|]. intros <-. rewrite elem_of_reverse in Hj.
  destruct (lineage_stored m p Hok Hp _ Hj) as [x Hx]. congruence.
Qed.

Lemma other_replay m v acts setHead m' p :
  storage_ok m → versions m !! vid p = Some p → Save m v acts setHead = Ok m' → replayChanges m' p = replayChanges m p.
Proof.
  intros Hok Hp [(_ & Hv & Ha & _)|(stored & Hnew & _ & _ & ->)]%Save_cases; unfold replayChanges; [rewrite Hv|cbn]; rewrite ?Hp.
  - apply changesets_ext. by rewrite Ha.
  - rewrite lookup_insert_ne, Hp by congruence. apply changesets_ext. intros i Hi. cbn. rewrite lookup_insert_ne; [done|]. intros <-.
    rewrite elem_of_reverse in Hi. destruct (lineage_stored m p Hok Hp _ Hi) as [x Hx]. congruence.
Qed.

(** Saving a version on top of a stored one appends to its history and to no other:
    replaying the new version gives the parent's changesets followed by the saved one,
    every other stored version replays as before, the history stays well-formed, and the
    head moves only when it was the parent. *)
Theorem Save_replays m p acts setHead m' i css :
  storage_ok m → versions m !! vid p = Some p → 0 < i → versions m !! i = None →
  Save m (FromParent (Some p) i) acts setHead = Ok m' → replayChanges m p = Ok css →
  storage_ok m' ∧ replayChanges m' (FromParent (Some p) i) = Ok (css ++ [acts]) ∧
  (∀ q, versions m !! vid q = Some q → replayChanges m' q = replayChanges m q) ∧
  (if setHead then head m' = Some (FromParent (Some p) i) ∧ memoryHeadMatchesParent (head m) (Some p) = true else head m' = head m).
Proof.
  intros Hok Hp Hi Hnew Hs Hr. cbn [FromParent] in *. split_and!.
  - eapply Save_ok; [done| |done]. cbn. lia.
  - by eapply saved_replay.
  - intros q Hq. by eapply other_replay.
  - apply Save_cases in Hs as [([x Hx] & _)|(stored & _ & _ & Hst & ->)]; [cbn in Hx; congruence|].
    destruct Hst as [(H0 & _)|(q & sp & [= <-] & Hsp & -> & Hh)]; [cbn in H0; lia|].
    destruct setHead; cbn; [|done]. split; [|by apply Hh]. cbn in Hsp. congruence.
Qed.

(** One version on top of the root *)
Lemma Save_replays_witness :
  ∃ m', Save New (FromParent (Some (NewVersion 0)) 1) [mkOp None EntryCreate worker] true = Ok m' ∧
    replayChanges m' (FromParent (Some (NewVersion 0)) 1) = Ok [[mkOp None EntryCreate worker]].
Proof.
  eexists. split; [reflexivity|].
  eapply (Save_replays New (NewVersion 0) [mkOp None EntryCreate worker] true _ 1 []); try reflexivity.
  apply New_ok.
Defined.
End History.
