(* ===== verification/RegCore.v ===== *)
(** * The registry ([system/registry/registry.go], [plan.go], [overlay.go])

    The registry owns the effective state, its version and history, the indexes over the
    state, and the process-local overlays. [Apply] takes a changeset through the runner and
    records it; [ApplyVersion] moves to a recorded version; [LoadState] boots from a
    baseline and the history; [ApplyOverlay] changes entries of this process only.

    The registry is modelled without directives, so changesets are not expanded and have no
    effects to prepare, commit or withdraw, and with the in-memory history. The runner is an
    interface: what it promises is [RunnerLaws], discharged by [Runner.Transition]. The
    digest of a plan is a parameter. Locks are not modelled: every writer holds the apply
    lock throughout. Copies of entries are values.

    Lemmas of this file: what replaying recorded operations does to a state, the claims of
    overlays ([claims_ok]) and how the changes of an overlay keep them. The invariant of the
    registry and the theorems are in [RegSpec.v]. *)

From S2P Require Import Prelude Bytes GoStrings Graph RegEntry RegDeps RegOrder RegDelta RegRunner RegHistory.

Module Registry.
Import Entries Deps Order Delta Runner History.

(** ** The runner as the registry sees it *)

Class RunnerOps (World Ctx : Type) := {
  transition : Ctx → World → State → ChangeSet → World * State * option err;
  ctxDone : Ctx → World → bool
}.

(** A successful transition applied the changeset, in some order. *)
Class RunnerLaws (World Ctx : Type) `{RunnerOps World Ctx} := {
  transition_ok ctx w from cs w' st : NoDup (eID <$> from) → transition ctx w from cs = (w', st, None) →
    NoDup (eID <$> st) ∧ ∃ accepted, accepted ≡ₚ cs ∧ apply_all (NewStateMap from) accepted = Ok (NewStateMap st)
}.

(** ** Data *)

Record overlayShadow := mkShadow { sOwner : string; original : Entry; removed : bool }.

Record Overlays := mkOverlays {
  overlays : gmap string State;
  overlayOwners : gmap ID string;
  overlayShadows : gmap ID overlayShadow;
  overlayGeneration : gmap string Z;
  overlayEpoch : Z;
  overlayFloor : Z
}.

Record Reg := mkReg {
  currentVersion : version;
  history : Storage;
  depIndex : option DepIndex;
  stateIndex : gmap ID nat;
  snapshot : version * State;
  state : State;
  baseline : State;
  stateRevision : Z;
  versionNum : Z;
  stateLoaded : bool;
  ov : Overlays
}.

Inductive reg_error :=
| EntryNotFoundErr (id : ID)
| SortChangesErr (e : sort_error)
| OverlayValidationErr (message : string)
| OverlayConflictErr (message : string) (id : ID)
| OverlayGenerationErr (owner : string) (expected actual : Z)
| OverlayOwnerRequired
| PlanBaseRequired
| PlanBaseConflictErr (expected actual : Z)
| PlanDriftErr (expected actual : string)
| PlanDigestErr
| ConcurrentApplyErr (expected actual : Z)
| TransitionErr (e : err)
| ComputeTransitionErr (e : builder_error + reg_error)
| ApplyChangesErr (e : err) (rollbackErr : option reg_error)
| ApplyVersionErr (e : err + reg_error) (rollbackErr : option reg_error)
| SaveVersionErr (e : history_error) (rollbackErr : option reg_error)
| SetHeadErr (id : Z) (e : history_error)
| GetVersionsErr (e : history_error)
| GetChangesetErr (id : Z) (e : history_error)
| LoadStateErr (e : reg_error) (rollbackErr : option reg_error)
| InvalidStateErr (e : builder_error).

Definition wrap64 (z : Z) : Z := z mod 2 ^ 64.

(** ** Reading *)

Definition indexed (l : State) : list (nat * Entry) := imap pair l.

Definition rebuildIndex (l : State) : gmap ID nat := foldl (λ m p, <[eID p.2 := p.1]> m) ∅ (indexed l).

Definition GetAllEntries (reg : Reg) : State := state reg.

Definition GetEntry (reg : Reg) (path : ID) : result reg_error Entry :=
  let path := Canonical path in
  match stateIndex reg !! path with
  | Some i => match state reg !! i with Some e => Ok e | None => Err (EntryNotFoundErr path) end
  | None => Err (EntryNotFoundErr path)
  end.

Definition Snapshot (reg : Reg) : version * State := snapshot reg.
Definition StateRevision (reg : Reg) : Z := stateRevision reg.
Definition Current (reg : Reg) : version := currentVersion reg.

(** ** Publishing *)

Definition no_overlays : Overlays := mkOverlays ∅ ∅ ∅ ∅ 0 0.

(** A new state with its indexes, published as a snapshot *)
Definition publish (reg : Reg) (v : version) (h : Storage) (st : State) (d : option DepIndex) (o : Overlays) : Reg :=
  mkReg v h d (rebuildIndex st) (v, st) st (baseline reg) (wrap64 (stateRevision reg + 1)) (versionNum reg) (stateLoaded reg) o.

Definition NewRegistry (h : Storage) : Reg :=
  mkReg (FromParent None 0) h None ∅ (FromParent None 0, []) [] [] 1 0 false no_overlays.

Definition with_depIndex (reg : Reg) (d : option DepIndex) : Reg :=
  mkReg (currentVersion reg) (history reg) d (stateIndex reg) (snapshot reg) (state reg) (baseline reg) (stateRevision reg)
        (versionNum reg) (stateLoaded reg) (ov reg).

Definition with_versionNum (reg : Reg) (n : Z) : Reg :=
  mkReg (currentVersion reg) (history reg) (depIndex reg) (stateIndex reg) (snapshot reg) (state reg) (baseline reg) (stateRevision reg)
        n (stateLoaded reg) (ov reg).

(** ** Changesets on their way in *)

Definition set_id (e : Entry) (id : ID) : Entry := mkEntry (Data e) (Meta e) id (Kind e) (Owner e) (Root e).

Definition canonicalizeChangeSetIDs (changes : ChangeSet) : ChangeSet :=
  (λ op, mkOp ((λ o, set_id o (Canonical (eID o))) <$> OriginalEntry op) (oKind op) (set_id (oEntry op) (Canonical (opID op)))) <$> changes.

Definition set_metadata (e : Entry) (owner : string) (root : bool) : Entry := mkEntry (Data e) (Meta e) (eID e) (Kind e) owner root.

Definition normalize_op (st : StateMap) (op : Operation) : StateMap * Operation :=
  let id := opID op in
  if bool_decide (oKind op = EntryCreate) then
    let e := set_metadata (oEntry op) "" (Root (oEntry op)) in (<[id := e]> st, mkOp (OriginalEntry op) (oKind op) e)
  else if bool_decide (oKind op = EntryUpdate) then
    let e := match st !! id with
             | Some existing => set_metadata (oEntry op) (Owner existing) (Root existing)
             | None => oEntry op
             end in (<[id := e]> st, mkOp (OriginalEntry op) (oKind op) e)
  else if bool_decide (oKind op = EntryDelete) then
    let e := match st !! id with Some existing => existing | None => oEntry op end in
    (delete (eID e) st, mkOp (OriginalEntry op) (oKind op) e)
  else (st, op).

Fixpoint normalize_loop (st : StateMap) (changes : ChangeSet) : ChangeSet :=
  match changes with
  | [] => []
  | op :: changes => let '(st, op) := normalize_op st op in op :: normalize_loop st changes
  end.

Definition normalizeRegistryMetadata (changes : ChangeSet) (snapshot : State) : ChangeSet :=
  normalize_loop (NewStateMap snapshot) changes.

Definition applyStateOperation (st : StateMap) (op : Operation) : StateMap :=
  let id := Canonical (opID op) in
  if bool_decide (oKind op = EntryCreate) || bool_decide (oKind op = EntryUpdate) then <[id := set_id (oEntry op) id]> st
  else if bool_decide (oKind op = EntryDelete) then delete id st
  else st.

Definition applyStateOperations (st : StateMap) (ops : ChangeSet) : StateMap := foldl applyStateOperation st ops.

Section registry.
Context {World Ctx : Type} `{RunnerOps World Ctx}.
Variables (r : resolver) (compare : Entry → Entry → bool) (digest : ChangeSet → ChangeSet → option string).

(** ** Sorting with the long-lived index *)

Definition rebuildDepIndex (l : State) : option DepIndex := Some (BuildDepIndex l r).

Definition sortWithIndex (reg : Reg) (fromState : State) (cs : ChangeSet) : Reg * result sort_error ChangeSet :=
  let reg := match depIndex reg with None => with_depIndex reg (rebuildDepIndex (state reg)) | Some _ => reg end in
  (reg, SortChangeSetWithIndex r fromState cs (depIndex reg)).

Definition patchDepIndex (d : option DepIndex) (ops : ChangeSet) : option DepIndex := (λ d, Patch d ops r) <$> d.

(** ** Overlay indexes *)

Definition bumpOverlayGeneration (o : Overlays) (owner : string) : Overlays :=
  let epoch := wrap64 (overlayEpoch o + 1) in
  mkOverlays (overlays o) (overlayOwners o) (overlayShadows o) (<[owner := epoch]> (overlayGeneration o)) epoch (overlayFloor o).

(** The claims that resident entries carry *)
Definition keep_resident (knownOwners : gmap ID string) (knownShadows : gmap ID overlayShadow)
    (acc : gmap ID string * gmap ID overlayShadow * gmap string StateMap) (entry : Entry)
    : gmap ID string * gmap ID overlayShadow * gmap string StateMap :=
  let '(owners, shadows, byOwner) := acc in
  let id := eID entry in
  match knownOwners !! id with
  | None => acc
  | Some owner =>
      let keep shadows := (<[id := owner]> owners, shadows, <[owner := <[id := entry]> (default ∅ (byOwner !! owner))]> byOwner) in
      match knownShadows !! id with
      | Some sh => if removed sh then acc else keep (<[id := sh]> shadows)
      | None => keep shadows
      end
  end.

(** The claims that removed a durable entry which is still absent *)
Definition keep_removed (knownOwners : gmap ID string) (resident : gset ID)
    (acc : gmap ID string * gmap ID overlayShadow) (p : ID * overlayShadow) : gmap ID string * gmap ID overlayShadow :=
  let '(owners, shadows) := acc in
  let '(id, sh) := p in
  if negb (removed sh) then acc
  else if bool_decide (id ∈ resident) then acc
  else match knownOwners !! id with
       | None => acc
       | Some _ => (<[id := sOwner sh]> owners, <[id := sh]> shadows)
       end.

Definition rebuildOverlayIndexes (o : Overlays) (knownOwners : gmap ID string) (knownShadows : gmap ID overlayShadow)
    (effective : State) : Overlays :=
  let '(owners, shadows, byOwner) := foldl (keep_resident knownOwners knownShadows) (∅, ∅, ∅) effective in
  let '(owners, shadows) := foldl (keep_removed knownOwners (list_to_set (eID <$> effective))) (owners, shadows) (map_to_list knownShadows) in
  mkOverlays (StateMapToSlice <$> byOwner) owners shadows (overlayGeneration o) (overlayEpoch o) (overlayFloor o).

Definition reconcileKnownOverlaysAfterFailedRollback (o : Overlays) (st : State) : Overlays :=
  foldl bumpOverlayGeneration (rebuildOverlayIndexes o (overlayOwners o) (overlayShadows o) st)
        (elements (map_to_set (λ _ owner, owner) (overlayOwners o) : gset string)).

Definition reconcileOverlayIndexesAfterFailedRollback (o : Overlays) (st : State) (owner : string)
    (previousOwners candidateOwners : gmap ID string) (previousShadows candidateShadows : gmap ID overlayShadow) : Overlays :=
  let o := rebuildOverlayIndexes o (candidateOwners ∪ previousOwners) (candidateShadows ∪ previousShadows) st in
  if bool_decide (map_Exists (λ _ w, w = owner) previousOwners) then o else bumpOverlayGeneration o owner.

(** ** Transitions and rollback *)

Definition transitionState (ctx : Ctx) (w : World) (from to : State) : World * option State * option reg_error :=
  match BuildDelta r compare from to with
  | Err e => (w, None, Some (ComputeTransitionErr (inl e)))
  | Ok cs =>
      if bool_decide (length cs = 0)%nat then (w, Some from, None) else
      let '(w, st, e) := transition ctx w from cs in (w, Some st, TransitionErr <$> e)
  end.

(** The registry after a rollback, which is unchanged unless the rollback failed *)
Definition rollback (ctx : Ctx) (reg : Reg) (w : World) (from to : State) : Reg * World * option reg_error :=
  let '(w, partial, e) := transitionState ctx w from to in
  match e with
  | None => (reg, w, None)
  | Some e =>
      let st := default [] partial in
      (publish reg (currentVersion reg) (history reg) st (rebuildDepIndex st) (reconcileKnownOverlaysAfterFailedRollback (ov reg) st), w, Some e)
  end.

(** After a failed transition: roll back unless the context is gone *)
Definition after_failure (ctx : Ctx) (reg : Reg) (w : World) (newState : State) : Reg * World * option reg_error :=
  if ctxDone ctx w then (reg, w, None) else rollback ctx reg w newState (state reg).

(** ** Durable changes against overlays *)

Definition composition_visit (owners : gmap ID string) (shadows : gmap ID overlayShadow) (source target : ID) (_ : unit)
    : reg_error + unit :=
  match owners !! source, owners !! target with
  | Some so, Some to => if bool_decide (so ≠ to) then inl (OverlayConflictErr "registry overlay dependency crosses owner boundary" source) else inr tt
  | None, Some _ =>
      if bool_decide (shadows !! target = None) then inl (OverlayConflictErr "durable registry entry depends on process-local overlay" source) else inr tt
  | _, None => inr tt
  end.

(** [None] stands for no changes to take the index's declarations with. *)
Definition visitOverlayDependencies (reg : Reg) (st : StateMap) (changes : option ChangeSet)
    (visit : ID → ID → unit → reg_error + unit) : reg_error + unit :=
  match changes, depIndex reg with
  | Some changes, Some d => IndexVisitDependencies d st changes r visit tt
  | _, _ => VisitDependencies st r visit tt
  end.

Definition validateOverlayCompositionWithChanges (reg : Reg) (effective : StateMap) (owners : gmap ID string)
    (shadows : gmap ID overlayShadow) (changes : option ChangeSet) : reg_error + unit :=
  if bool_decide (owners = ∅) then inr tt else visitOverlayDependencies reg effective changes (composition_visit owners shadows).

Definition validateOverlayComposition (reg : Reg) (effective : StateMap) (owners : gmap ID string) (shadows : gmap ID overlayShadow)
    : reg_error + unit :=
  validateOverlayCompositionWithChanges reg effective owners shadows None.

Fixpoint first_owned (owners : gmap ID string) (ops : ChangeSet) : option ID :=
  match ops with
  | [] => None
  | op :: ops => match owners !! Canonical (opID op) with Some _ => Some (opID op) | None => first_owned owners ops end
  end.

Definition deleted_ids (ops : ChangeSet) : gset ID :=
  list_to_set ((λ op, Canonical (opID op)) <$> filter (λ op, oKind op = EntryDelete) ops).

Definition removal_visit (owners : gmap ID string) (deleted : gset ID) (source target : ID) (_ : unit) : reg_error + unit :=
  if bool_decide (is_Some (owners !! source)) && bool_decide (target ∈ deleted)
  then inl (OverlayConflictErr "durable transition removes an overlay dependency" source) else inr tt.

Definition validateDurableTransitionAgainstOverlays (reg : Reg) (allOps : ChangeSet) : reg_error + unit :=
  let owners := overlayOwners (ov reg) in
  if bool_decide (owners = ∅) then inr tt else
  match first_owned owners allOps with
  | Some id => inl (OverlayConflictErr "durable transition targets a process-local overlay entry" id)
  | None =>
      let current := NewStateMap (state reg) in
      match VisitDependencies current r (removal_visit owners (deleted_ids allOps)) tt with
      | inl e => inl e
      | inr _ => validateOverlayComposition reg (applyStateOperations current allOps) owners (overlayShadows (ov reg))
      end
  end.

(** ** Applying a changeset *)

(** What an apply is held to: the version it was decided against and, for a plan, its digest *)
Record planExpectation := mkExpectation { pBase : version; pDigest : option string }.

Definition verify (e : planExpectation) (base : version) (all hist : ChangeSet) : option reg_error :=
  if bool_decide (vid base ≠ vid (pBase e)) then Some (PlanBaseConflictErr (vid (pBase e)) (vid base)) else
  match pDigest e with
  | None => None
  | Some d =>
      match digest all hist with
      | None => Some PlanDigestErr
      | Some d' => if bool_decide (d' ≠ d) then Some (PlanDriftErr d d') else None
      end
  end.

Definition nextVersionID (reg : Reg) : Reg * Z :=
  let n := wrap64 (versionNum reg + 1) in (with_versionNum reg n, n).

(** Sorting, twice, and the checks before anything is dispatched *)
Definition prepare_apply (reg : Reg) (changes : ChangeSet) : Reg * (reg_error + (ChangeSet * ChangeSet)) :=
  let snapshot := state reg in
  let changes := normalizeRegistryMetadata (canonicalizeChangeSetIDs changes) snapshot in
  let '(reg, sorted) := sortWithIndex reg snapshot changes in
  match sorted with
  | Err e => (reg, inl (SortChangesErr e))
  | Ok historyOps =>
      let '(reg, sorted) := sortWithIndex reg snapshot historyOps in
      match sorted with
      | Err e => (reg, inl (SortChangesErr e))
      | Ok allOps =>
          match validateDurableTransitionAgainstOverlays reg allOps with
          | inl e => (reg, inl e)
          | inr _ => (reg, inr (allOps, historyOps))
          end
      end
  end.

Definition applyLocked (ctx : Ctx) (reg : Reg) (w : World) (changes : ChangeSet) (expect : option planExpectation)
    : Reg * World * (reg_error + version) :=
  let baseVersion := currentVersion reg in
  let '(reg, prepared) := prepare_apply reg changes in
  match prepared with
  | inl e => (reg, w, inl e)
  | inr (allOps, historyOps) =>
      match match expect with Some e => verify e baseVersion allOps historyOps | None => None end with
      | Some e => (reg, w, inl e)
      | None =>
          if bool_decide (vid (currentVersion reg) ≠ vid baseVersion)
          then (reg, w, inl (ConcurrentApplyErr (vid baseVersion) (vid (currentVersion reg))))
          else
            let '(reg, newVersion) :=
              if bool_decide (0 < length historyOps)%nat then
                let '(reg, id) := nextVersionID reg in (reg, Some (FromParent (Some (currentVersion reg)) id))
              else (reg, None) in
            let '(w, newState, e) := transition ctx w (state reg) allOps in
            match e with
            | Some e => let '(reg, w, re) := after_failure ctx reg w newState in (reg, w, inl (ApplyChangesErr e re))
            | None =>
                match newVersion with
                | Some newVersion =>
                    match Save (history reg) newVersion (enrichChangeset (NewStateMap (state reg)) historyOps) true with
                    | Err e => let '(reg, w, re) := rollback ctx reg w newState (state reg) in (reg, w, inl (SaveVersionErr e re))
                    | Ok h => (publish reg newVersion h newState (patchDepIndex (depIndex reg) allOps) (ov reg), w, inr newVersion)
                    end
                | None =>
                    (publish reg (currentVersion reg) (history reg) newState (patchDepIndex (depIndex reg) allOps) (ov reg), w, inr (currentVersion reg))
                end
            end
      end
  end.

Definition Apply (ctx : Ctx) (reg : Reg) (w : World) (changes : ChangeSet) := applyLocked ctx reg w changes None.

Definition ApplyAt (ctx : Ctx) (reg : Reg) (w : World) (base : option version) (changes : ChangeSet) : Reg * World * (reg_error + version) :=
  match base with
  | None => (reg, w, inl PlanBaseRequired)
  | Some base => applyLocked ctx reg w changes (Some (mkExpectation base None))
  end.

(** ** Plans *)

Record Plan := mkPlan { planBase : version; Requested : ChangeSet; Changes : ChangeSet; PlanHistory : ChangeSet; Digest : string }.

Definition MakePlan (reg : Reg) (base : option version) (changes : ChangeSet) : Reg * (reg_error + Plan) :=
  match base with
  | None => (reg, inl PlanBaseRequired)
  | Some base =>
      if bool_decide (vid (currentVersion reg) ≠ vid base) then (reg, inl (PlanBaseConflictErr (vid base) (vid (currentVersion reg)))) else
      let '(reg, prepared) := prepare_apply reg changes in
      match prepared with
      | inl e => (reg, inl e)
      | inr (allOps, historyOps) =>
          match digest allOps historyOps with
          | None => (reg, inl PlanDigestErr)
          | Some d => (reg, inr (mkPlan base changes allOps historyOps d))
          end
      end
  end.

Definition ApplyPlan (ctx : Ctx) (reg : Reg) (w : World) (plan : Plan) : Reg * World * (reg_error + version) :=
  applyLocked ctx reg w (Requested plan) (Some (mkExpectation (planBase plan) (Some (Digest plan)))).


(** ** Versions *)

(** [stateAtVersion]: the baseline with the recorded changesets up to a version *)
Definition replay_onto (base : State) (changesets : list ChangeSet) : StateMap :=
  foldl (λ st cs, applyStateOperations st (canonicalizeChangeSetIDs cs)) (NewStateMap base) changesets.

Definition stateAtVersion (reg : Reg) (done : bool) (target : version) : reg_error + State :=
  if bool_decide (vid target = RootVersion) then inr (StateMapToSlice (NewStateMap (baseline reg))) else
  match ReplayChanges (history reg) done target with
  | Err e => inl (GetChangesetErr (vid target) e)
  | Ok css => inr (StateMapToSlice (replay_onto (baseline reg) css))
  end.

(** The keys of a durable state in canonical form *)
Fixpoint canonical_keys (l : list (ID * Entry)) (st : StateMap) : reg_error + StateMap :=
  match l with
  | [] => inr st
  | (id, entry) :: l =>
      let canonicalID := Canonical id in
      let entry := set_id entry (Canonical (eID entry)) in
      if negb (Equal canonicalID (eID entry)) then inl (OverlayValidationErr "durable state key does not match its entry")
      else if bool_decide (canonicalID ≠ id) then
        let st := delete id st in
        if bool_decide (is_Some (st !! canonicalID)) then inl (OverlayValidationErr "selected durable version contains a duplicate entry")
        else canonical_keys l (<[canonicalID := entry]> st)
      else canonical_keys l st
  end.

(** The claims rebased on a durable version *)
Fixpoint rebase_shadows (l : list (ID * overlayShadow)) (st : StateMap) (shadows : gmap ID overlayShadow)
    : reg_error + (StateMap * gmap ID overlayShadow) :=
  match l with
  | [] => inr (st, shadows)
  | (id, sh) :: l =>
      match st !! id with
      | None => inl (OverlayConflictErr "selected durable version removes a shadowed registry entry" id)
      | Some durable =>
          rebase_shadows l (if removed sh then delete id st else st) (<[id := mkShadow (sOwner sh) durable (removed sh)]> shadows)
      end
  end.

Fixpoint fold_overlay (entries : State) (shadows : gmap ID overlayShadow) (st : StateMap) : reg_error + StateMap :=
  match entries with
  | [] => inr st
  | entry :: entries =>
      let entry := set_id entry (Canonical (eID entry)) in
      match shadows !! eID entry with
      | Some sh => fold_overlay entries shadows (<[eID entry := set_metadata entry (Owner (original sh)) (Root (original sh))]> st)
      | None =>
          if bool_decide (is_Some (st !! eID entry))
          then inl (OverlayConflictErr "overlay entry conflicts with the selected durable version" (eID entry))
          else fold_overlay entries shadows (<[eID entry := entry]> st)
      end
  end.

Definition composeOverlays (reg : Reg) (st : StateMap) : reg_error + (StateMap * gmap ID overlayShadow) :=
  match canonical_keys (map_to_list st) st with
  | inl e => inl e
  | inr st =>
      match rebase_shadows (map_to_list (overlayShadows (ov reg))) st ∅ with
      | inl e => inl e
      | inr (st, shadows) =>
          match fold_overlay (concat (map_to_list (overlays (ov reg))).*2) shadows st with
          | inl e => inl e
          | inr st =>
              match validateOverlayComposition reg st (overlayOwners (ov reg)) shadows with
              | inl e => inl e
              | inr _ => inr (st, shadows)
              end
          end
      end
  end.

Definition findStoredVersion (reg : Reg) (v : version) : reg_error + version :=
  match GetVersion (history reg) (vid v) with Ok stored => inr stored | Err e => inl (GetVersionsErr e) end.

Definition with_shadows (o : Overlays) (shadows : gmap ID overlayShadow) : Overlays :=
  mkOverlays (overlays o) (overlayOwners o) shadows (overlayGeneration o) (overlayEpoch o) (overlayFloor o).

(** The operations that lead to a version, with its claims *)
Definition version_operations (reg : Reg) (targetState : State) : reg_error + (ChangeSet * gmap ID overlayShadow) :=
  match composeOverlays reg (NewStateMap targetState) with
  | inl e => inl (ComputeTransitionErr (inr e))
  | inr (st, targetShadows) =>
      match BuildDelta r compare (state reg) (StateMapToSlice st) with
      | Err e => inl (ComputeTransitionErr (inl e))
      | Ok allOps =>
          match SortChangeSet r (state reg) allOps with
          | Err e => inl (SortChangesErr e)
          | Ok allOps =>
              match validateDurableTransitionAgainstOverlays reg allOps with
              | inl e => inl e
              | inr _ => inr (allOps, targetShadows)
              end
          end
      end
  end.

Definition with_history (reg : Reg) (h : Storage) : Reg :=
  mkReg (currentVersion reg) h (depIndex reg) (stateIndex reg) (snapshot reg) (state reg) (baseline reg) (stateRevision reg)
        (versionNum reg) (stateLoaded reg) (ov reg).

Definition ApplyVersion (ctx : Ctx) (reg : Reg) (w : World) (v : version) : Reg * World * option reg_error :=
  let baseVersion := currentVersion reg in
  if bool_decide (vid baseVersion = vid v) then
    match CompareAndSetHead (history reg) baseVersion baseVersion with
    | Err e => (reg, w, Some (SetHeadErr (vid baseVersion) e))
    | Ok h => (with_history reg h, w, None)
    end
  else
    match findStoredVersion reg v with
    | inl e => (reg, w, Some e)
    | inr targetVersion =>
        match stateAtVersion reg (ctxDone ctx w) targetVersion with
        | inl e => (reg, w, Some e)
        | inr targetState =>
            match version_operations reg targetState with
            | inl e => (reg, w, Some e)
            | inr (allOps, targetShadows) =>
                if bool_decide (vid (currentVersion reg) ≠ vid baseVersion)
                then (reg, w, Some (ConcurrentApplyErr (vid baseVersion) (vid (currentVersion reg)))) else
                let '(w, newState, e) := transition ctx w (state reg) allOps in
                match e with
                | Some e => let '(reg, w, re) := after_failure ctx reg w newState in (reg, w, Some (ApplyVersionErr (inl e) re))
                | None =>
                    match CompareAndSetHead (history reg) baseVersion targetVersion with
                    | Err e =>
                        let headErr := SetHeadErr (vid targetVersion) e in
                        let '(reg, w, re) := rollback ctx reg w newState (state reg) in
                        (reg, w, Some (match re with Some _ => ApplyVersionErr (inr headErr) re | None => headErr end))
                    | Ok h => (publish reg targetVersion h newState (rebuildDepIndex newState) (with_shadows (ov reg) targetShadows), w, None)
                    end
                end
            end
        end
    end.

(** ** Boot *)

(** The state that the baseline and the history up to a version describe *)
Definition boot_state (reg : Reg) (done : bool) (base : State) (target : version) : reg_error + State :=
  if bool_decide (vid target > 0) then
    match ReplayChanges (history reg) done target with
    | Err e => inl (GetChangesetErr (vid target) e)
    | Ok css => inr (StateMapToSlice (replay_onto base css))
    end
  else inr (StateMapToSlice (NewStateMap base)).

Definition loaded (reg : Reg) (h : Storage) (base st : State) (target : version) (allocator : Z) : Reg :=
  let o := ov reg in
  let epoch := if stateLoaded reg || bool_decide (overlayEpoch o > 0) then wrap64 (overlayEpoch o + 1) else overlayEpoch o in
  mkReg target h (rebuildDepIndex st) (rebuildIndex st) (target, st) st base (wrap64 (stateRevision reg + 1)) allocator true
        (mkOverlays ∅ ∅ ∅ ∅ epoch epoch).

Definition LoadState (ctx : Ctx) (reg : Reg) (w : World) (base : State) (target : version) : Reg * World * option reg_error :=
  let allocator := Z.max (vid target) (MaxVersionID (history reg)) in
  let base := (λ e, set_id e (Canonical (eID e))) <$> base in
  match ValidateUniqueEntryIDs "baseline" base with
  | Some e => (reg, w, Some (InvalidStateErr e))
  | None =>
      match boot_state reg (ctxDone ctx w) base target with
      | inl e => (reg, w, Some e)
      | inr finalState =>
          let '(w, newState, e) := transitionState ctx w (state reg) finalState in
          match e with
          | Some e =>
              match newState with
              | Some newState => let '(reg, w, re) := after_failure ctx reg w newState in (reg, w, Some (LoadStateErr e re))
              | None => (reg, w, Some (LoadStateErr e None))
              end
          | None =>
              let newState := default [] newState in
              match CompareAndSetHead (history reg) target target with
              | Err e => let '(reg, w, re) := rollback ctx reg w newState (state reg) in (reg, w, Some (SaveVersionErr e re))
              | Ok h => (loaded reg h base newState target allocator, w, None)
              end
          end
      end
  end.

(** ** Overlays *)

Definition CanonicalOverlayOwner (owner : string) : reg_error + string :=
  let owner := string_of (TrimSpace (bytes_of owner)) in
  if bool_decide (owner = "") then inl OverlayOwnerRequired else inr owner.

Definition generation (o : Overlays) (owner : string) : Z := default (overlayFloor o) (overlayGeneration o !! owner).

Definition GetOverlay (reg : Reg) (owner : string) : reg_error + (State * Z) :=
  match CanonicalOverlayOwner owner with
  | inl e => inl e
  | inr owner => inr (default [] (overlays (ov reg) !! owner), generation (ov reg) owner)
  end.

(** The candidate that an overlay's changes build up *)
Record candidate := mkCandidate {
  effective : StateMap; cOwners : gmap ID string; cShadows : gmap ID overlayShadow; transitionOps : ChangeSet;
  seen : gset ID; deleted : gset ID
}.

(** Who may change an entry, and how *)
Definition check_owner (owner : string) (c : candidate) (op : Operation) : option reg_error :=
  let id := opID op in
  if bool_decide (oKind op = EntryCreate) then
    match cOwners c !! id with
    | Some _ => Some (OverlayConflictErr "registry overlay entry is already owned" id)
    | None =>
        if bool_decide (is_Some (effective c !! id)) then Some (OverlayConflictErr "registry overlay entry conflicts with durable state" id)
        else None
    end
  else if bool_decide (oKind op = EntryUpdate) || bool_decide (oKind op = EntryDelete) then
    match cOwners c !! id with
    | Some entryOwner => if bool_decide (entryOwner ≠ owner) then Some (OverlayConflictErr "registry overlay owner cannot mutate entry" id) else None
    | None => if bool_decide (effective c !! id = None) then Some (OverlayConflictErr "registry overlay owner cannot mutate entry" id) else None
    end
  else Some (OverlayValidationErr "unknown registry overlay operation").

(** The durable content that a claim displaces: the zero entry when there is none *)
Definition zero_entry : Entry := mkEntry None [] (mkID "" "" "") "" "" false.

Definition claimed (c : candidate) (id : ID) : option Entry :=
  match cShadows c !! id with
  | Some sh => Some (original sh)
  | None => match cOwners c !! id with Some _ => None | None => Some (default zero_entry (effective c !! id)) end
  end.

Definition validateOverlayEntryMetadata (e : Entry) (claimed : option Entry) : option reg_error :=
  if bool_decide (Owner e = "" ∧ Root e = false) then None else
  match claimed with
  | Some c => if bool_decide (Owner e = Owner c ∧ Root e = Root c) then None
              else Some (OverlayValidationErr "registry overlay entry cannot set registry metadata")
  | None => Some (OverlayValidationErr "registry overlay entry cannot set registry metadata")
  end.

Definition put (c : candidate) (eff : StateMap) (owners : gmap ID string) (shadows : gmap ID overlayShadow) (op : Operation) : candidate :=
  mkCandidate eff owners shadows (transitionOps c ++ [op]) (seen c) (deleted c).

Definition put_deleted (c : candidate) (id : ID) (owners : gmap ID string) (shadows : gmap ID overlayShadow) (op : Operation) : candidate :=
  mkCandidate (delete id (effective c)) owners shadows (transitionOps c ++ [op]) (seen c) ({[id]} ∪ deleted c).

(** The effect of one checked change *)
Definition overlay_op (owner : string) (c : candidate) (op : Operation) : candidate :=
  let id := opID op in
  if bool_decide (oKind op = EntryCreate) then
    put c (<[id := oEntry op]> (effective c)) (<[id := owner]> (cOwners c)) (cShadows c) (mkOp None EntryCreate (oEntry op))
  else if bool_decide (oKind op = EntryUpdate) then
    match claimed c id with
    | Some cl =>
        let entry := set_metadata (oEntry op) (Owner cl) (Root cl) in
        let wasRemoved := match cShadows c !! id with Some sh => removed sh | None => false end in
        put c (<[id := entry]> (effective c)) (<[id := owner]> (cOwners c)) (<[id := mkShadow owner cl false]> (cShadows c))
            (mkOp None (if wasRemoved then EntryCreate else EntryUpdate) entry)
    | None =>
        put c (<[id := oEntry op]> (effective c)) (<[id := owner]> (cOwners c)) (cShadows c) (mkOp None EntryUpdate (oEntry op))
    end
  else
    match cShadows c !! id with
    | Some sh =>
        put c (<[id := original sh]> (effective c)) (delete id (cOwners c)) (delete id (cShadows c))
            (mkOp None (if removed sh then EntryCreate else EntryUpdate) (original sh))
    | None =>
        match cOwners c !! id with
        | Some _ => put_deleted c id (delete id (cOwners c)) (cShadows c) (mkOp None EntryDelete (oEntry op))
        | None =>
            let cl := default zero_entry (effective c !! id) in
            put_deleted c id (<[id := owner]> (cOwners c)) (<[id := mkShadow owner cl true]> (cShadows c)) (mkOp None EntryDelete cl)
        end
    end.

Fixpoint overlay_loop (owner : string) (changes : ChangeSet) (c : candidate) : reg_error + candidate :=
  match changes with
  | [] => inr c
  | op :: changes =>
      let id := opID op in
      if bool_decide (id ∈ seen c) then inl (OverlayValidationErr "registry overlay changes contain a duplicate entry") else
      let c := mkCandidate (effective c) (cOwners c) (cShadows c) (transitionOps c) ({[id]} ∪ seen c) (deleted c) in
      match check_owner owner c op with
      | Some e => inl e
      | None =>
          match (if bool_decide (oKind op ≠ EntryDelete) then validateOverlayEntryMetadata (oEntry op) (claimed c id) else None) with
          | Some e => inl e
          | None => overlay_loop owner changes (overlay_op owner c op)
          end
      end
  end.

Definition live_dependency_visit (after : StateMap) (deleted : gset ID) (source target : ID) (_ : unit) : reg_error + unit :=
  if bool_decide (after !! source = None) then inr tt
  else if bool_decide (target ∈ deleted) then inl (OverlayConflictErr "registry overlay deletion removes a live dependency" source)
  else inr tt.

Definition validateRemovedOverlayDependencies (reg : Reg) (before after : StateMap) (deleted : gset ID) : reg_error + unit :=
  if bool_decide (deleted = ∅) then inr tt else visitOverlayDependencies reg before (Some []) (live_dependency_visit after deleted).

(** The candidate of an overlay's changes, checked against the dependencies *)
Definition prepare_overlay (reg : Reg) (owner : string) (changes : ChangeSet) : reg_error + candidate :=
  let st := NewStateMap (state reg) in
  match overlay_loop owner (canonicalizeChangeSetIDs changes) (mkCandidate st (overlayOwners (ov reg)) (overlayShadows (ov reg)) [] ∅ ∅) with
  | inl e => inl e
  | inr c =>
      match validateRemovedOverlayDependencies reg st (effective c) (deleted c) with
      | inl e => inl e
      | inr _ =>
          match validateOverlayCompositionWithChanges reg (effective c) (cOwners c) (cShadows c) (Some (transitionOps c)) with
          | inl e => inl e
          | inr _ => inr c
          end
      end
  end.

Definition with_overlays (reg : Reg) (o : Overlays) : Reg :=
  mkReg (currentVersion reg) (history reg) (depIndex reg) (stateIndex reg) (snapshot reg) (state reg) (baseline reg) (stateRevision reg)
        (versionNum reg) (stateLoaded reg) o.

Definition ApplyOverlay (ctx : Ctx) (reg : Reg) (w : World) (owner : string) (expectedGeneration : Z) (changes : ChangeSet)
    : Reg * World * (reg_error + Z) :=
  match CanonicalOverlayOwner owner with
  | inl e => (reg, w, inl e)
  | inr owner =>
      if bool_decide (length changes = 0)%nat then (reg, w, inl (OverlayValidationErr "registry overlay changes are required")) else
      if bool_decide (generation (ov reg) owner ≠ expectedGeneration)
      then (reg, w, inl (OverlayGenerationErr owner expectedGeneration (generation (ov reg) owner))) else
      match prepare_overlay reg owner changes with
      | inl e => (reg, w, inl e)
      | inr c =>
          let '(reg, sorted) := sortWithIndex reg (state reg) (transitionOps c) in
          match sorted with
          | Err e => (reg, w, inl (SortChangesErr e))
          | Ok sorted =>
              let '(w, newState, e) := transition ctx w (state reg) sorted in
              match e with
              | Some e =>
                  let o := ov reg in
                  let '(reg, w, re) := after_failure ctx reg w newState in
                  (match re with
                   | Some _ => with_overlays reg (reconcileOverlayIndexesAfterFailedRollback (ov reg) (state reg) owner
                                                    (overlayOwners o) (cOwners c) (overlayShadows o) (cShadows c))
                   | None => reg
                   end, w, inl (ApplyChangesErr e re))
              | None =>
                  let o := bumpOverlayGeneration (rebuildOverlayIndexes (ov reg) (cOwners c) (cShadows c) newState) owner in
                  (publish reg (currentVersion reg) (history reg) newState (patchDepIndex (depIndex reg) sorted) o, w, inr (generation o owner))
              end
          end
      end
  end.

End registry.

(** ** Reading an entry *)

Lemma rebuildIndex_lookup l id i :
  NoDup (eID <$> l) → rebuildIndex l !! id = Some i ↔ ∃ e, l !! i = Some e ∧ eID e = id.
Proof.
  intros Hn. unfold rebuildIndex, indexed. rewrite <- (reverse_involutive l) in *. induction (reverse l) as [|e k IH] in Hn |- *.
  { rewrite reverse_nil. cbn. rewrite lookup_empty. split; [done|]. by intros (e & He & _). }
  rewrite reverse_cons in *. rewrite imap_app, foldl_app. cbn. rewrite fmap_app in Hn. apply NoDup_app in Hn as (Hn & Hdis & _).
  rewrite Nat.add_0_r. destruct (decide (id = eID e)) as [->|Hne].
  - rewrite lookup_insert_eq. split.
    + intros [= <-]. exists e. split; [|done]. by rewrite lookup_app_r, Nat.sub_diag by done.
    + intros (x & Hx & Hid). f_equal. apply lookup_app_Some in Hx as [Hx|[Hle Hx]].
      * exfalso. apply (Hdis (eID x)); [apply list_elem_of_fmap_2; by eapply list_elem_of_lookup_2|]. rewrite Hid. by left.
      * destruct (i - length (reverse k))%nat as [|j] eqn:Ej; [lia|done].
  - rewrite lookup_insert_ne by done. rewrite (IH Hn). split; intros (x & Hx & Hid); exists x; (split; [|done]).
    + apply lookup_app_Some. by left.
    + apply lookup_app_Some in Hx as [Hx|[Hle Hx]]; [done|]. destruct (i - length (reverse k))%nat as [|j]; [|done].
      injection Hx as ->. done.
Qed.

(** ** Replaying changesets onto a state *)

Lemma set_id_same e : set_id e (eID e) = e.
Proof. by destruct e. Qed.

(** An operation as the history replays it *)
Definition recorded (st : StateMap) (op : Operation) : Operation :=
  let op := enrich_op st op in
  mkOp ((λ o, set_id o (Canonical (eID o))) <$> OriginalEntry op) (oKind op) (set_id (oEntry op) (Canonical (opID op))).

Lemma recorded_same st op : id_ok (opID op) → oKind (recorded st op) = oKind op ∧ oEntry (recorded st op) = oEntry op.
Proof.
  intros Hok. unfold recorded. assert (oKind (enrich_op st op) = oKind op ∧ oEntry (enrich_op st op) = oEntry op) as [Hk He].
  { unfold enrich_op. destruct (_ || _); [|done]. by destruct (st !! opID op). }
  cbn. split; [done|]. unfold opID. rewrite He, Canonical_ok by done. apply set_id_same.
Qed.

Lemma applyStateOperation_same st op op' :
  oKind op' = oKind op → oEntry op' = oEntry op → applyStateOperation st op' = applyStateOperation st op.
Proof. intros Hk He. unfold applyStateOperation, opID. by rewrite Hk, He. Qed.

Lemma replay_recorded st D ops :
  (∀ op, op ∈ ops → id_ok (opID op)) →
  applyStateOperations D (canonicalizeChangeSetIDs (enrichChangeset st ops)) = applyStateOperations D ops.
Proof.
  unfold applyStateOperations, canonicalizeChangeSetIDs, enrichChangeset. rewrite <- list_fmap_compose. revert D.
  induction ops as [|op ops IH]; intros D Hok; [done|]. cbn [fmap list_fmap foldl]. rewrite IH by (intros x Hx; apply Hok; by right).
  f_equal. destruct (recorded_same st op (Hok op ltac:(by left))) as [Hk He]. by apply applyStateOperation_same.
Qed.

Lemma applyStateOperation_effect D op :
  id_ok (opID op) → (oKind op = EntryCreate ∨ oKind op = EntryUpdate ∨ oKind op = EntryDelete) →
  applyStateOperation D op = partial_alter (λ _, effect op) (opID op) D.
Proof.
  intros Hok Hk. unfold applyStateOperation, effect, is_delete. rewrite Canonical_ok by done. unfold opID at 2. rewrite set_id_same.
  destruct Hk as [->|[->| ->]]; done.
Qed.

Lemma applyStateOperations_distinct ops D :
  NoDup (opID <$> ops) →
  (∀ op, op ∈ ops → id_ok (opID op) ∧ (oKind op = EntryCreate ∨ oKind op = EntryUpdate ∨ oKind op = EntryDelete)) →
  (∀ op, op ∈ ops → applyStateOperations D ops !! opID op = effect op) ∧
  ∀ id, id ∉ opID <$> ops → applyStateOperations D ops !! id = D !! id.
Proof.
  unfold applyStateOperations. revert D. induction ops as [|op ops IH]; intros D Hn Hok; [split; [by intros op Hop%elem_of_nil|done]|].
  apply NoDup_cons in Hn as [Ho Hn]. cbn [foldl]. destruct (Hok op ltac:(by left)) as [Hid Hk].
  destruct (IH (applyStateOperation D op) Hn ltac:(intros x Hx; apply Hok; by right)) as [H1 H2].
  rewrite applyStateOperation_effect in * by done. split.
  - intros x [->|Hx]%elem_of_cons; [|by apply H1]. rewrite H2 by done. by rewrite lookup_partial_alter_eq.
  - intros id Hid'. rewrite fmap_cons, not_elem_of_cons in Hid'. destruct Hid' as [Hne Hid']. rewrite H2 by done. by rewrite lookup_partial_alter_ne.
Qed.

(** Operations only bring in canonical identifiers. *)
Definition ids_canonical (st : StateMap) : Prop := keyed st ∧ ∀ id, is_Some (st !! id) → id_ok id.

Lemma applyStateOperation_canonical st op : id_ok (Canonical (opID op)) → ids_canonical st → ids_canonical (applyStateOperation st op).
Proof.
  intros Hok [Hk Hi]. unfold applyStateOperation. destruct (_ || _); [|destruct (bool_decide _); [|done]].
  - split; [intros id e|intros id Hs].
    + rewrite lookup_insert_Some. intros [[<- <-]|[_ He]]; [done|by apply Hk].
    + destruct (decide (id = Canonical (opID op))) as [->|Hne]; [done|]. rewrite lookup_insert_ne in Hs by done. by apply Hi.
  - split; [intros id e [_ He]%lookup_delete_Some; by apply Hk|]. intros id [e [_ He]%lookup_delete_Some]. apply Hi. by eexists.
Qed.


(** ** Claims of overlays *)

(** The effective state [st] is the durable state [D] except where an overlay claims an
    identifier: an entry of its own, other content for a durable entry, or its removal. *)
Definition claims_ok (D st : StateMap) (owners : gmap ID string) (shadows : gmap ID overlayShadow) : Prop :=
  ∀ id, match owners !! id with
        | None => shadows !! id = None ∧ st !! id = D !! id
        | Some o =>
            match shadows !! id with
            | None => D !! id = None ∧ is_Some (st !! id)
            | Some sh => D !! id = Some (original sh) ∧ sOwner sh = o ∧ (if removed sh then st !! id = None else is_Some (st !! id))
            end
        end.

(** The overlays list the resident entries of their owners. *)
Definition overlays_ok (st : StateMap) (owners : gmap ID string) (ovs : gmap string State) : Prop :=
  ∀ o e, e ∈ default [] (ovs !! o) ↔ owners !! eID e = Some o ∧ st !! eID e = Some e.

(** *** Rebuilding the indexes *)

Definition carried (shadows : gmap ID overlayShadow) (id : ID) : Prop :=
  match shadows !! id with Some sh => removed sh = false | None => True end.

#[local] Instance carried_dec shadows id : Decision (carried shadows id).
Proof. unfold carried. destruct (shadows !! id); apply _. Defined.

Definition rebuilt (owners : gmap ID string) (shadows : gmap ID overlayShadow) (l : State)
    (acc : gmap ID string * gmap ID overlayShadow * gmap string StateMap) : Prop :=
  let '(Ow, Sh, B) := acc in
  (∀ id, Ow !! id = if decide (id ∈ eID <$> l ∧ carried shadows id) then owners !! id else None) ∧
  (∀ id, Sh !! id = if decide (id ∈ eID <$> l ∧ carried shadows id ∧ is_Some (owners !! id)) then shadows !! id else None) ∧
  (∀ o id e, default ∅ (B !! o) !! id = Some e ↔ e ∈ l ∧ eID e = id ∧ owners !! id = Some o ∧ carried shadows id).

Lemma not_in_snoc (l : State) (e : Entry) id : id ≠ eID e → id ∈ eID <$> l ++ [e] ↔ id ∈ eID <$> l.
Proof. intros Hne. rewrite fmap_app, elem_of_app. cbn. rewrite list_elem_of_singleton. naive_solver. Qed.

Lemma rebuilt_skip owners shadows l e acc :
  (owners !! eID e = None ∨ ¬ carried shadows (eID e)) → rebuilt owners shadows l acc → rebuilt owners shadows (l ++ [e]) acc.
Proof.
  destruct acc as [[Ow Sh] B]. intros Hskip (H1 & H2 & H3). split_and!.
  - intros id. rewrite H1. destruct (decide (id = eID e)) as [->|Hne].
    + destruct Hskip as [Hs|Hs]; [rewrite Hs; by repeat case_decide|]. rewrite !decide_False by tauto. done.
    + apply decide_ext. by rewrite not_in_snoc.
  - intros id. rewrite H2. destruct (decide (id = eID e)) as [->|Hne].
    + assert (¬ (carried shadows (eID e) ∧ is_Some (owners !! eID e))) as Hno.
      { destruct Hskip as [Hs|Hs]; [|tauto]. rewrite Hs. by intros [_ [? ?]]. }
      by rewrite !decide_False by tauto.
    + apply decide_ext. by rewrite not_in_snoc.
  - intros o id x. rewrite H3, elem_of_app, list_elem_of_singleton. split; [tauto|]. intros ([Hx| ->] & <- & Ho & Hc); [tauto|].
    destruct Hskip as [Hs|Hs]; [congruence|done].
Qed.

Lemma rebuilt_keep owners shadows l e o Ow Sh B Sh' :
  owners !! eID e = Some o → carried shadows (eID e) → eID e ∉ eID <$> l →
  (∀ id, Sh' !! id = if decide (id = eID e) then shadows !! id else Sh !! id) →
  rebuilt owners shadows l (Ow, Sh, B) →
  rebuilt owners shadows (l ++ [e]) (<[eID e := o]> Ow, Sh', <[o := <[eID e := e]> (default ∅ (B !! o))]> B).
Proof.
  intros Ho Hc Hn HS' (H1 & H2 & H3). assert (eID e ∈ eID <$> l ++ [e]) as Hin by (rewrite fmap_app; set_solver). split_and!.
  - intros id. destruct (decide (id = eID e)) as [->|Hne]; [by rewrite lookup_insert_eq, decide_True by done|].
    rewrite lookup_insert_ne, H1 by done. apply decide_ext. by rewrite not_in_snoc.
  - intros id. rewrite HS'. destruct (decide (id = eID e)) as [->|Hne].
    + rewrite decide_True; [done|]. split_and!; [done|done|by eexists].
    + rewrite H2. apply decide_ext. by rewrite not_in_snoc.
  - intros o' id x. rewrite elem_of_app, list_elem_of_singleton. destruct (decide (o' = o)) as [->|Hne].
    + rewrite lookup_insert_eq. change (default ∅ (Some (<[eID e:=e]> (default ∅ (B !! o))))) with (<[eID e:=e]> (default ∅ (B !! o))). destruct (decide (id = eID e)) as [->|Hid].
      * rewrite lookup_insert_eq. split; [intros [= <-]; tauto|]. intros ([Hx| ->] & Hx' & _); [|done]. exfalso. apply Hn.
        rewrite <- Hx'. by apply list_elem_of_fmap_2.
      * rewrite lookup_insert_ne by done. rewrite H3. split; [tauto|]. intros ([Hx| ->] & Hx' & ?); [tauto|congruence].
    + rewrite lookup_insert_ne by done. rewrite H3. split; [tauto|]. intros ([Hx| ->] & Hx' & Hown & Hca); [tauto|congruence].
Qed.

Lemma rebuilt_fold owners shadows l :
  NoDup (eID <$> l) → rebuilt owners shadows l (foldl (keep_resident owners shadows) (∅, ∅, ∅) l).
Proof.
  intros Hn. rewrite <- (reverse_involutive l) in *. induction (reverse l) as [|e k IH] in Hn |- *.
  { rewrite reverse_nil. cbn. split_and!; intros; rewrite ?lookup_empty; [by rewrite decide_False by set_solver..|].
    cbn. rewrite lookup_empty. split; [done|]. by intros [He%elem_of_nil _]. }
  rewrite reverse_cons in *. rewrite fmap_app in Hn. apply NoDup_app in Hn as (Hn & Hdis & _). rewrite foldl_app. cbn [foldl].
  specialize (IH Hn). destruct (foldl _ _ _) as [[Ow Sh] B]. unfold keep_resident. destruct (owners !! eID e) as [o|] eqn:Eo; [|apply rebuilt_skip; auto].
  assert (eID e ∉ eID <$> reverse k) as He by (intros Hin; apply (Hdis _ Hin); by left).
  destruct (shadows !! eID e) as [sh|] eqn:Es.
  - destruct (removed sh) eqn:Er.
    + apply rebuilt_skip; [|done]. right. unfold carried. rewrite Es. congruence.
    + apply (rebuilt_keep owners shadows (reverse k) e o Ow Sh B); [done|unfold carried; by rewrite Es|done| |done].
      intros id. destruct (decide (id = eID e)) as [->|Hne]; [by rewrite lookup_insert_eq|by rewrite lookup_insert_ne].
  - apply (rebuilt_keep owners shadows (reverse k) e o Ow Sh B); [done|unfold carried; by rewrite Es|done| |done].
    intros id. destruct (decide (id = eID e)) as [->|Hne]; [|done]. destruct IH as (_ & H2 & _). rewrite Es, H2. rewrite decide_False; [done|tauto].
Qed.

(** A claim that removed its entry, which is absent *)
Definition removing (owners : gmap ID string) (resident : gset ID) (id : ID) (sh : overlayShadow) : Prop :=
  removed sh = true ∧ id ∉ resident ∧ is_Some (owners !! id).

#[local] Instance removing_dec owners resident id sh : Decision (removing owners resident id sh).
Proof. unfold removing. apply _. Defined.

Lemma removed_fold owners resident l Ow Sh Ow' Sh' :
  NoDup l.*1 → foldl (keep_removed owners resident) (Ow, Sh) l = (Ow', Sh') →
  (∀ id sh, (id, sh) ∈ l → removing owners resident id sh → Ow' !! id = Some (sOwner sh) ∧ Sh' !! id = Some sh) ∧
  (∀ id, (∀ sh, (id, sh) ∈ l → ¬ removing owners resident id sh) → Ow' !! id = Ow !! id ∧ Sh' !! id = Sh !! id).
Proof.
  revert Ow Sh. induction l as [|[i s] l IH]; intros Ow Sh Hn; cbn [foldl].
  { intros [= <- <-]. split; [by intros id sh H%elem_of_nil|done]. }
  apply NoDup_cons in Hn as [Hi Hn].
  assert (∀ sh, (i, sh) ∉ l) as Hfresh by (intros sh Hin; apply Hi; by apply (list_elem_of_fmap_2 fst) in Hin).
  unfold keep_removed at 2. intros Hf. destruct (decide (removing owners resident i s)) as [Hr|Hr].
  - pose proof Hr as (R1 & R2 & [o Ho]). rewrite R1, bool_decide_eq_false_2, Ho in Hf by done. cbn [negb] in Hf.
    destruct (IH _ _ Hn Hf) as [H1 H2]. split.
    + intros id sh [[= -> ->]|Hin]%elem_of_cons Hrm; [|by apply H1].
      destruct (H2 i) as [-> ->]; [intros sh' Hin; by apply Hfresh in Hin|]. by rewrite !lookup_insert_eq.
    + intros id Hno. assert (id ≠ i) as Hne by (intros ->; by apply (Hno s); [left|]).
      destruct (H2 id) as [-> ->]; [intros sh Hin; apply Hno; by right|]. by rewrite !lookup_insert_ne.
  - assert (foldl (keep_removed owners resident) (Ow, Sh) l = (Ow', Sh')) as Hf'.
    { rewrite <- Hf. f_equal. destruct (removed s) eqn:E1; cbn [negb]; [|done]. destruct (bool_decide_reflect (i ∈ resident)) as [|E2]; [done|].
      destruct (owners !! i) eqn:E3; [|done]. exfalso. apply Hr. split_and!; [done|done|by eexists]. }
    destruct (IH _ _ Hn Hf') as [H1 H2]. split.
    + intros id sh [[= -> ->]|Hin]%elem_of_cons Hrm; [done|by apply H1].
    + intros id Hno. apply H2. intros sh Hin. apply Hno. by right.
Qed.


Lemma NewStateMap_is_Some l id : NoDup (eID <$> l) → is_Some (NewStateMap l !! id) ↔ id ∈ eID <$> l.
Proof.
  intros Hn. split.
  - intros [e [He <-]%NewStateMap_Some]; [|done]. by apply list_elem_of_fmap_2.
  - intros (e & -> & He)%list_elem_of_fmap. exists e. by apply NewStateMap_Some.
Qed.

(** Claims that the state carries survive a rebuild of the indexes. *)
Lemma rebuild_same o D owners shadows l :
  NoDup (eID <$> l) → claims_ok D (NewStateMap l) owners shadows →
  let o' := rebuildOverlayIndexes o owners shadows l in
  overlayOwners o' = owners ∧ overlayShadows o' = shadows ∧ overlays_ok (NewStateMap l) owners (overlays o') ∧
  overlayGeneration o' = overlayGeneration o ∧ overlayEpoch o' = overlayEpoch o ∧ overlayFloor o' = overlayFloor o.
Proof.
  intros Hn Hc. unfold rebuildOverlayIndexes. pose proof (rebuilt_fold owners shadows l Hn) as Hr.
  destruct (foldl (keep_resident owners shadows) _ l) as [[Ow Sh] B]. destruct (foldl (keep_removed _ _) _ _) as [Ow' Sh'] eqn:Ef.
  apply removed_fold in Ef as [F1 F2]; [|apply NoDup_fst_map_to_list]. destruct Hr as (R1 & R2 & R3). cbn.
  assert (∀ id, Ow' !! id = owners !! id ∧ Sh' !! id = shadows !! id) as Heq.
  { intros id. specialize (Hc id). specialize (F1 id). specialize (F2 id). unfold removing in *.
    setoid_rewrite elem_of_map_to_list in F1. setoid_rewrite elem_of_map_to_list in F2.
    pose proof (NewStateMap_is_Some l id Hn) as Hin. destruct (owners !! id) as [ow|] eqn:Eo.
    - destruct (shadows !! id) as [sh|] eqn:Es.
      + destruct Hc as (_ & Hso & Hrm). destruct (removed sh) eqn:Er.
        * destruct (F1 sh eq_refl) as [-> ->]; [|by rewrite Hso]. split_and!; [done| |by eexists].
          rewrite elem_of_list_to_set, <- Hin, Hrm. by intros [? ?].
        * assert (carried shadows id) as Hca by (unfold carried; by rewrite Es).
          destruct F2 as [-> ->]; [intros x [= <-] [Hx _]; congruence|]. rewrite R1, R2, Eo, Es, !decide_True; [done|..]; split_and!; try done; by apply Hin.
      + assert (carried shadows id) as Hca by (unfold carried; by rewrite Es). destruct Hc as [_ Hs].
        destruct F2 as [-> ->]; [done|]. rewrite R1, R2, Eo, Es, !decide_True; [done|..]; split_and!; try done; by apply Hin.
    - destruct Hc as [Hs _]. rewrite Hs in *. destruct F2 as [-> ->]; [done|]. rewrite R1, R2, Eo, Hs. split; by case_decide. }
  split_and!; [apply map_eq; intros id; apply Heq|apply map_eq; intros id; apply Heq| |done..].
  intros ow e. rewrite lookup_fmap, NewStateMap_Some by done. specialize (R3 ow). specialize (Hc (eID e)).
  destruct (B !! ow) as [m|]; cbn [fmap option_fmap option_map default from_option] in *.
  - unfold id. rewrite elem_of_StateMapToSlice. split.
    + intros (i & Hi). apply R3 in Hi as (H1 & <- & H2 & _). tauto.
    + intros (H1 & H2 & _). exists (eID e). apply R3. split_and!; [done..|]. unfold carried. rewrite H1 in Hc.
      destruct (shadows !! eID e) as [sh|]; [|done]. destruct Hc as (_ & _ & Hrm). destruct (removed sh); [|done].
      assert (NewStateMap l !! eID e = Some e) by (by apply NewStateMap_Some). congruence.
  - split; [by intros ?%elem_of_nil|]. intros (H1 & H2 & _). exfalso. assert ((∅ : StateMap) !! eID e = Some e) as Hx; [|by rewrite lookup_empty in Hx].
    apply R3. split_and!; [done..|]. unfold carried. rewrite H1 in Hc. destruct (shadows !! eID e) as [sh|]; [|done].
    destruct Hc as (_ & _ & Hrm). destruct (removed sh); [|done].
    assert (NewStateMap l !! eID e = Some e) by (by apply NewStateMap_Some). congruence.
Qed.

(** *** The changes of an overlay *)

(** What a candidate has become of the state [st0] *)
Record candidate_ok (D st0 : StateMap) (c : candidate) : Prop := {
  co_keyed : keyed (effective c);
  co_claims : claims_ok D (effective c) (cOwners c) (cShadows c);
  co_ops : ∀ op, op ∈ transitionOps c → effective c !! opID op = effect op ∧ opID op ∈ seen c;
  co_other : ∀ id, id ∉ opID <$> transitionOps c → effective c !! id = st0 !! id;
  co_distinct : NoDup (opID <$> transitionOps c)
}.

(** Changing one identifier *)
Lemma candidate_put D st0 c id x eff owners shadows op sn dl :
  candidate_ok D st0 c → opID op = id → id ∉ seen c → id ∈ sn → seen c ⊆ sn → effect op = x → eff = partial_alter (λ _, x) id (effective c) →
  (∀ j, j ≠ id → owners !! j = cOwners c !! j ∧ shadows !! j = cShadows c !! j) →
  match owners !! id with
  | None => shadows !! id = None ∧ x = D !! id
  | Some o => match shadows !! id with
              | None => D !! id = None ∧ is_Some x
              | Some sh => D !! id = Some (original sh) ∧ sOwner sh = o ∧ (if removed sh then x = None else is_Some x)
              end
  end →
  candidate_ok D st0 (mkCandidate eff owners shadows (transitionOps c ++ [op]) sn dl).
Proof.
  intros [K C P T N] Hid Hs Hsn Hsub He -> Hother Hcl. split; cbn.
  - intros j e. destruct (decide (j = id)) as [->|Hne]; [|rewrite lookup_partial_alter_ne by done; apply K].
    rewrite lookup_partial_alter_eq, <- He. unfold effect. destruct (is_delete op); [done|]. by intros [= <-].
  - intros j. destruct (decide (j = id)) as [->|Hne]; [by rewrite lookup_partial_alter_eq|].
    destruct (Hother j Hne) as [-> ->]. rewrite lookup_partial_alter_ne by done. apply C.
  - intros y [Hy| ->%list_elem_of_singleton]%elem_of_app; [|split; [by rewrite Hid, lookup_partial_alter_eq|by rewrite Hid]].
    destruct (P y Hy) as [H1 H2]. split; [|by apply Hsub]. rewrite lookup_partial_alter_ne; [done|]. congruence.
  - intros j. rewrite fmap_app, not_elem_of_app. cbn. rewrite not_elem_of_cons, Hid. intros [H1 [H2 _]].
    rewrite lookup_partial_alter_ne by done. by apply T.
  - rewrite fmap_app. apply NoDup_app. split_and!; [done| |apply NoDup_singleton]. intros j (y & -> & Hy)%list_elem_of_fmap.
    cbn. rewrite list_elem_of_singleton, Hid. intros Heq. apply Hs. rewrite <- Heq. by apply P.
Qed.

Lemma check_owner_kind owner c op : check_owner owner c op = None → oKind op = EntryCreate ∨ oKind op = EntryUpdate ∨ oKind op = EntryDelete.
Proof.
  unfold check_owner. destruct (bool_decide_reflect (oKind op = EntryCreate)); [tauto|].
  destruct (bool_decide_reflect (oKind op = EntryUpdate)); [tauto|]. destruct (bool_decide_reflect (oKind op = EntryDelete)); [tauto|]. done.
Qed.

Lemma overlay_create_ok D st0 owner c op sn :
  candidate_ok D st0 c → opID op ∉ seen c → opID op ∈ sn → seen c ⊆ sn → oKind op = EntryCreate → check_owner owner c op = None →
  candidate_ok D st0 (overlay_op owner (mkCandidate (effective c) (cOwners c) (cShadows c) (transitionOps c) sn (deleted c)) op).
Proof.
  intros Hc Hs Hsn Hsub Hk. unfold check_owner, overlay_op. rewrite Hk. cbn -[insert]. pose proof (co_claims _ _ _ Hc (opID op)) as Hcl.
  destruct (cOwners c !! opID op); [done|]. destruct (bool_decide_reflect (is_Some (effective c !! opID op))) as [|Hno]; [done|]. intros _.
  destruct Hcl as [Hsh Heff]. eapply (candidate_put D st0 c (opID op) (Some (oEntry op))); try done.
  - intros j Hj. by rewrite lookup_insert_ne.
  - rewrite lookup_insert_eq, Hsh. split; [|done]. rewrite <- Heff. by apply eq_None_not_Some.
Qed.

Lemma overlay_update_ok D st0 owner c op sn :
  candidate_ok D st0 c → opID op ∉ seen c → opID op ∈ sn → seen c ⊆ sn → oKind op = EntryUpdate → check_owner owner c op = None →
  candidate_ok D st0 (overlay_op owner (mkCandidate (effective c) (cOwners c) (cShadows c) (transitionOps c) sn (deleted c)) op).
Proof.
  intros Hc Hs Hsn Hsub Hk. unfold check_owner, overlay_op, claimed. rewrite Hk. cbn -[insert]. pose proof (co_claims _ _ _ Hc (opID op)) as Hcl.
  assert (∀ k e, k ≠ EntryDelete → effect (mkOp None k e) = Some e) as Heff.
  { intros k e Hne. unfold effect, is_delete. cbn. by rewrite bool_decide_eq_false_2. }
  destruct (cShadows c !! opID op) as [sh|] eqn:Esh.
  - destruct (cOwners c !! opID op) as [o|] eqn:Eo; [|by destruct Hcl]. intros _. destruct Hcl as (HD & _).
    eapply (candidate_put D st0 c (opID op) (Some (set_metadata (oEntry op) (Owner (original sh)) (Root (original sh))))); try done.
    + apply Heff. by destruct (removed sh).
    + intros j Hj. by rewrite !lookup_insert_ne.
    + rewrite !lookup_insert_eq. cbn. split_and!; (done || by eexists).
  - destruct (cOwners c !! opID op) as [o|] eqn:Eo; intros Hchk.
    + eapply (candidate_put D st0 c (opID op) (Some (oEntry op))); try done; [intros j Hj; by rewrite lookup_insert_ne|].
      rewrite lookup_insert_eq, Esh. by destruct Hcl as [-> _].
    + destruct (effective c !! opID op) as [e|] eqn:Ee; [|done]. destruct Hcl as [_ HD].
      eapply (candidate_put D st0 c (opID op) (Some (set_metadata (oEntry op) (Owner e) (Root e)))); try done.
      * intros j Hj. by rewrite !lookup_insert_ne.
      * rewrite !lookup_insert_eq. cbn. split_and!; (done || by eexists).
Qed.

Lemma overlay_delete_ok D st0 owner c op sn :
  keyed D → candidate_ok D st0 c → opID op ∉ seen c → opID op ∈ sn → seen c ⊆ sn → oKind op = EntryDelete → check_owner owner c op = None →
  candidate_ok D st0 (overlay_op owner (mkCandidate (effective c) (cOwners c) (cShadows c) (transitionOps c) sn (deleted c)) op).
Proof.
  intros HkD Hc Hs Hsn Hsub Hk. unfold check_owner, overlay_op. rewrite Hk. cbn -[insert delete]. pose proof (co_claims _ _ _ Hc (opID op)) as Hcl.
  destruct (cShadows c !! opID op) as [sh|] eqn:Esh.
  - destruct (cOwners c !! opID op) as [o|] eqn:Eo; [|by destruct Hcl]. intros _. destruct Hcl as (HD & _).
    eapply (candidate_put D st0 c (opID op) (Some (original sh))); try done.
    + by apply (HkD _ _ HD).
    + unfold effect, is_delete. cbn. by rewrite bool_decide_eq_false_2 by (by destruct (removed sh)).
    + intros j Hj. by rewrite !lookup_delete_ne.
    + rewrite !lookup_delete_eq. done.
  - destruct (cOwners c !! opID op) as [o|] eqn:Eo; intros Hchk.
    + eapply (candidate_put D st0 c (opID op) None); try done; [intros j Hj; by rewrite lookup_delete_ne|].
      rewrite lookup_delete_eq, Esh. by destruct Hcl as [-> _].
    + destruct (effective c !! opID op) as [e|] eqn:Ee; [|done]. destruct Hcl as [_ HD].
      eapply (candidate_put D st0 c (opID op) None); try done; [by apply (co_keyed _ _ _ Hc)|intros j Hj; by rewrite !lookup_insert_ne|].
      rewrite !lookup_insert_eq. cbn. split_and!; (done || by eexists).
Qed.

Lemma overlay_loop_ok D st0 owner changes c c' :
  keyed D → candidate_ok D st0 c → overlay_loop owner changes c = inr c' → candidate_ok D st0 c'.
Proof.
  intros HkD. revert c. induction changes as [|op changes IH]; intros c Hc; cbn [overlay_loop]; [by intros [= <-]|].
  destruct (bool_decide_reflect (opID op ∈ seen c)) as [|Hs]; [done|].
  destruct (check_owner owner _ op) eqn:Eo; [done|]. destruct (if bool_decide (oKind op ≠ EntryDelete) then _ else _); [done|].
  apply IH. assert (opID op ∈ {[opID op]} ∪ seen c) as Hin by set_solver. assert (seen c ⊆ {[opID op]} ∪ seen c) as Hsub by set_solver.
  destruct (check_owner_kind _ _ _ Eo) as [Hk|[Hk|Hk]].
  - by apply overlay_create_ok.
  - by apply overlay_update_ok.
  - by apply overlay_delete_ok.
Qed.

Lemma candidate_start D st owners shadows :
  keyed st → claims_ok D st owners shadows → candidate_ok D st (mkCandidate st owners shadows [] ∅ ∅).
Proof. intros Hk Hc. split; cbn; [done|done|by intros op Hop%elem_of_nil|done|constructor]. Qed.

End Registry.
