(* ===== verification/RegSpec.v ===== *)
(** * The registry's invariant ([RegCore.v])

    What the registry keeps true of its state, its indexes, its history and its overlays,
    and that every operation keeps it so. The effective state is the state that the history
    records for the current version, with the claims of the overlays on top ([claims_ok]);
    the indexes describe the effective state; the current version is stored. The operations
    are the steps of [reg_step]; a step whose rollback failed is left out, since the
    registry then publishes whatever the runner was left with. *)

From S2P Require Import Prelude Bytes GoStrings Graph RegEntry RegDeps RegOrder RegDelta RegRunner RegHistory RegCore.

Module RegistrySpec.
Import Entries Deps Order Delta Runner History Registry.

Section spec.
Context {World Ctx : Type} `{HL : RunnerLaws World Ctx}.
Variables (r : resolver) (compare : Entry → Entry → bool) (digest : ChangeSet → ChangeSet → option string).

(** ** Transitions *)

(** Changesets with one operation per identifier, in canonical form *)
Definition settled (cs : ChangeSet) : Prop :=
  NoDup (opID <$> cs) ∧ ∀ op, op ∈ cs → id_ok (opID op) ∧ from_option eID (opID op) (OriginalEntry op) = opID op.

Lemma settled_perm cs cs' : cs ≡ₚ cs' → settled cs → settled cs'.
Proof using. intros Hp [Hn Ho]. split; [by rewrite <- Hp|]. intros op. rewrite <- Hp. apply Ho. Qed.

Lemma settled_ops_ok cs : settled cs → ops_ok cs.
Proof using. intros [Hn Ho]. apply ops_ok_distinct; [done|]. intros op Hop. by apply Ho. Qed.

Record transitioned (from : StateMap) (cs : ChangeSet) (st : State) : Prop := {
  tr_ids : NoDup (eID <$> st);
  tr_applied : apply_all from cs = Ok (NewStateMap st);
  tr_valid : ∀ op, op ∈ cs → ValidateOperation from op = None;
  tr_effect : ∀ op, op ∈ cs → NewStateMap st !! opID op = effect op;
  tr_other : ∀ id, id ∉ opID <$> cs → NewStateMap st !! id = from !! id
}.

Lemma transition_done ctx w from cs w' st :
  NoDup (eID <$> from) → NoDup (opID <$> cs) → transition ctx w from cs = (w', st, None) → transitioned (NewStateMap from) cs st.
Proof using HL.
  intros Hf Hn (Hs & acc & Hp & Ha)%transition_ok; [|done]. assert (NoDup (opID <$> acc)) as Hna by (by rewrite Hp).
  pose proof (applied_valid acc _ _ Hna Ha) as Hv. destruct (applied_effect acc _ _ Hna Ha) as [H1 H2]. split; [done| |..].
  - by apply (apply_perm acc).
  - intros op. rewrite <- Hp. apply Hv.
  - intros op. rewrite <- Hp. apply H1.
  - intros id. rewrite <- Hp. apply H2.
Qed.

Lemma transitioned_nil from st : NoDup (eID <$> st) → NewStateMap st = from → transitioned from [] st.
Proof using. intros Hn <-. split; [done|done|by intros op Hop%elem_of_nil..|done]. Qed.

Lemma delta_settled from to :
  NoDup (eID <$> from) → NoDup (eID <$> to) → (∀ e, e ∈ from ++ to → id_ok (eID e)) → settled (delta_ops compare from to).
Proof using.
  intros Hf Ht Hok. split; [by apply NoDup_delta|]. intros op. unfold delta_ops.
  rewrite elem_of_app, elem_of_deletions, elem_of_writes by done. intros [(e & He & _ & ->)|(e & He & [[_ ->]|(old & _ & _ & ->)])].
  - split; [|done]. apply Hok, elem_of_app. by left.
  - split; [|done]. apply Hok, elem_of_app. by right.
  - split; [|done]. apply Hok, elem_of_app. by right.
Qed.

Lemma BuildDelta_perm from to ops :
  BuildDelta r compare from to = Ok ops → (∀ e, e ∈ from ++ to → id_ok (eID e)) →
  NoDup (eID <$> from) ∧ NoDup (eID <$> to) ∧ ops ≡ₚ delta_ops compare from to ∧ settled ops.
Proof using.
  intros Hb Hok. unfold BuildDelta in Hb. destruct (firstDuplicateID to) eqn:Et; [done|]. destruct (firstDuplicateID from) eqn:Ef; [done|].
  apply unique_ids in Et, Ef. fold (delta_ops compare from to) in Hb. pose proof (delta_settled from to Ef Et Hok) as Hs.
  destruct (SortChangeSet r from (delta_ops compare from to)) as [o|] eqn:Eo; [|done]. injection Hb as ->.
  pose proof (SortChangeSet_perm r from _ _ (settled_ops_ok _ Hs) Eo) as Hp. split_and!; [done..|]. by apply (settled_perm (delta_ops compare from to)).
Qed.

Hypothesis Hcompare : ∀ a b, compare a b = true → a = b.

(** A transition along a delta reaches the delta's target. *)
Lemma delta_reached from to cs st :
  NoDup (eID <$> from) → NoDup (eID <$> to) → cs ≡ₚ delta_ops compare from to → transitioned (NewStateMap from) cs st →
  NewStateMap st = NewStateMap to.
Proof using Hcompare.
  intros Hf Ht Hp [_ _ _ He Ho]. apply map_eq. intros id.
  assert (option_Forall2 (λ a b, a = b ∨ compare a b = true) (NewStateMap st !! id) (NewStateMap to !! id)) as Hd.
  { apply (delta_effect compare from to Hf Ht).
    - intros op. rewrite <- Hp. apply He.
    - intros j. rewrite <- Hp. apply Ho. }
  destruct Hd as [a b [->|Hab]|]; [done| |done]. by rewrite (Hcompare a b Hab).
Qed.

Lemma transitionState_done ctx w from to w' st :
  NoDup (eID <$> from) → (∀ e, e ∈ from ++ to → id_ok (eID e)) → transitionState r compare ctx w from to = (w', st, None) →
  ∃ l, st = Some l ∧ NoDup (eID <$> l) ∧ NewStateMap l = NewStateMap to.
Proof using HL Hcompare.
  intros Hf Hok. unfold transitionState. destruct (BuildDelta r compare from to) as [cs|] eqn:Eb; [|done].
  destruct (BuildDelta_perm _ _ _ Eb Hok) as (_ & Ht & Hp & Hs). destruct (bool_decide_reflect (length cs = 0)%nat) as [Hz|_].
  - intros [= _ <-]. exists from. split_and!; [done|done|]. apply (delta_reached from to cs); [done..|].
    destruct cs; [|done]. by apply transitioned_nil.
  - destruct (transition ctx w from cs) as [[w1 s] [e|]] eqn:Et; [done|]. intros [= _ <-]. exists s.
    pose proof (transition_done _ _ _ _ _ _ Hf (proj1 Hs) Et) as Htr. split_and!; [done|by apply Htr|]. by apply (delta_reached from to cs).
Qed.

(** ** The invariant *)

(** The state that the baseline and the history describe for the current version *)
Definition durable (reg : Reg) : StateMap :=
  match replayChanges (history reg) (currentVersion reg) with
  | Ok css => replay_onto (baseline reg) css
  | Err _ => NewStateMap (baseline reg)
  end.

Definition recorded_ok (h : Storage) : Prop := ∀ i cs op, actions h !! i = Some cs → op ∈ cs → id_ok (Canonical (opID op)).

Record reg_ok (reg : Reg) : Prop := {
  ro_ids : NoDup (eID <$> state reg);
  ro_index : stateIndex reg = rebuildIndex (state reg);
  ro_snapshot : snapshot reg = (currentVersion reg, state reg);
  ro_dep : ∀ d, depIndex reg = Some d → index_of r d (NewStateMap (state reg));
  ro_storage : storage_ok (history reg);
  ro_current : versions (history reg) !! vid (currentVersion reg) = Some (currentVersion reg);
  ro_recorded : recorded_ok (history reg);
  ro_baseline : ∀ e, e ∈ baseline reg → id_ok (eID e);
  ro_claims : claims_ok (durable reg) (NewStateMap (state reg)) (overlayOwners (ov reg)) (overlayShadows (ov reg));
  ro_overlays : overlays_ok (NewStateMap (state reg)) (overlayOwners (ov reg)) (overlays (ov reg));
  ro_owned : ∀ id, is_Some (overlayOwners (ov reg) !! id) → id_ok id
}.

(** What a refused operation may change: the dependency index and the version counter *)
Record same (reg reg' : Reg) : Prop := {
  sm_version : currentVersion reg' = currentVersion reg;
  sm_history : history reg' = history reg;
  sm_index : stateIndex reg' = stateIndex reg;
  sm_snapshot : snapshot reg' = snapshot reg;
  sm_state : state reg' = state reg;
  sm_baseline : baseline reg' = baseline reg;
  sm_revision : stateRevision reg' = stateRevision reg;
  sm_loaded : stateLoaded reg' = stateLoaded reg;
  sm_overlays : ov reg' = ov reg
}.

#[local] Instance same_refl : Reflexive same.
Proof. by intros reg. Qed.

#[local] Instance same_trans : Transitive same.
Proof. intros a b c [] []. split; by etrans. Qed.

Lemma reg_ok_same reg reg' :
  same reg reg' → (∀ d, depIndex reg' = Some d → index_of r d (NewStateMap (state reg))) → reg_ok reg → reg_ok reg'.
Proof using.
  intros [] Hd []. split; unfold durable in *; repeat match goal with H : _ reg' = _ reg |- _ => rewrite H in *; clear H end; done.
Qed.

Lemma sortWithIndex_same reg from cs reg' res :
  sortWithIndex r reg from cs = (reg', res) → same reg reg' ∧ (reg_ok reg → reg_ok reg') ∧ res = SortChangeSetWithIndex r from cs (depIndex reg').
Proof using.
  unfold sortWithIndex. destruct (depIndex reg) eqn:Ed.
  - intros [= <- <-]. done.
  - intros [= <- <-]. split_and!; [done| |done]. intros Hok. apply (reg_ok_same reg); [done| |done]. cbn. intros d [= <-].
    by apply BuildDepIndex_index, ro_ids.
Qed.

Lemma replay_canonical base css :
  (∀ e, e ∈ base → id_ok (eID e)) → (∀ cs op, cs ∈ css → op ∈ cs → id_ok (Canonical (opID op))) → ids_canonical (replay_onto base css).
Proof using.
  intros Hb. unfold replay_onto. assert (ids_canonical (NewStateMap base)) as H0.
  { split; [apply NewStateMap_keyed|]. unfold NewStateMap. assert (∀ id, is_Some ((∅ : StateMap) !! id) → id_ok id) as He.
    { intros id [x Hx]. by rewrite lookup_empty in Hx. }
    revert He. generalize (∅ : StateMap) as m. induction base as [|e base IH]; intros m He; cbn [foldl]; [done|].
    apply IH; [intros x Hx; apply Hb; by right|]. intros id. destruct (decide (id = eID e)) as [->|Hne]; [intros _; apply Hb; by left|].
    rewrite lookup_insert_ne by done. apply He. }
  revert H0. generalize (NewStateMap base) as m. induction css as [|cs css IH]; intros m Hm Hcs; cbn [foldl]; [done|].
  apply IH; [|intros x op Hx; apply Hcs; by right]. unfold applyStateOperations, canonicalizeChangeSetIDs.
  specialize (Hcs cs). specialize (λ op, Hcs op ltac:(by left)). clear IH. revert m Hm.
  induction cs as [|op cs IH]; intros m Hm; cbn [fmap list_fmap foldl]; [done|].
  apply IH; [intros x Hx; apply Hcs; by right|]. apply applyStateOperation_canonical; [|done]. cbn.
  pose proof (Hcs op ltac:(by left)) as Hok. by rewrite (Canonical_ok _ Hok).
Qed.

Lemma changesets_elem h ids css cs : changesets_of h ids = Ok css → cs ∈ css → ∃ i, actions h !! i = Some cs.
Proof using.
  revert css. induction ids as [|i ids IH]; intros css; cbn; [intros [= <-]; by intros ?%elem_of_nil|].
  destruct (actions h !! i) as [a|] eqn:Ea; [|done]. destruct (changesets_of h ids) as [rest|]; [|done].
  intros [= <-] [->|Hin]%elem_of_cons; [by exists i|]. by apply (IH rest).
Qed.

Lemma replay_elem h v css cs : replayChanges h v = Ok css → cs ∈ css → ∃ i, actions h !! i = Some cs.
Proof using. unfold replayChanges. destruct (versions h !! vid v); [|done]. apply changesets_elem. Qed.

Lemma history_canonical h v base css :
  recorded_ok h → (∀ e, e ∈ base → id_ok (eID e)) → replayChanges h v = Ok css → ids_canonical (replay_onto base css).
Proof using.
  intros Hr Hb Hv. apply replay_canonical; [done|]. intros cs op Hcs Hop. destruct (replay_elem _ _ _ _ Hv Hcs) as [i Hi]. by eapply Hr.
Qed.

Lemma durable_canonical reg : reg_ok reg → ids_canonical (durable reg).
Proof using.
  intros Hok. unfold durable. destruct (replayChanges _ _) eqn:Er.
  - eapply history_canonical; [by apply ro_recorded|by apply ro_baseline|done].
  - apply (replay_canonical _ []); [by apply ro_baseline|]. by intros cs op Hcs%elem_of_nil.
Qed.

Lemma state_canonical reg e : reg_ok reg → e ∈ state reg → id_ok (eID e).
Proof using.
  intros Hok He. pose proof (ro_claims reg Hok (eID e)) as Hc.
  assert (NewStateMap (state reg) !! eID e = Some e) as Hs by (apply NewStateMap_Some; [by apply ro_ids|done]).
  destruct (overlayOwners (ov reg) !! eID e) eqn:Eo; [apply (ro_owned reg Hok); by eexists|].
  destruct Hc as [_ Hd]. apply (durable_canonical reg Hok). rewrite <- Hd. by eexists.
Qed.

(** ** Applying a changeset *)

(** One operation per identifier; the recorded original, if any, is of that identifier. *)
Definition request_ok (cs : ChangeSet) : Prop :=
  NoDup ((λ op, Canonical (opID op)) <$> cs) ∧
  ∀ op, op ∈ cs → id_ok (Canonical (opID op)) ∧
                  from_option (λ o, Canonical (eID o)) (Canonical (opID op)) (OriginalEntry op) = Canonical (opID op).

Lemma canonicalize_settled cs : request_ok cs → settled (canonicalizeChangeSetIDs cs).
Proof using.
  intros [Hn Ho]. unfold canonicalizeChangeSetIDs. split; [by rewrite <- list_fmap_compose|].
  intros op (x & -> & Hx)%list_elem_of_fmap. destruct (Ho x Hx) as [Hok Hor]. unfold opID at 1 2 3. cbn. split; [done|].
  destruct (OriginalEntry x) as [o|]; [|done]. done.
Qed.

Lemma normalize_same st cs :
  keyed st → Forall2 (λ a b, opID a = opID b ∧ OriginalEntry a = OriginalEntry b) (normalize_loop st cs) cs.
Proof using.
  revert st. induction cs as [|op cs IH]; intros st Hk; cbn [normalize_loop]; [constructor|].
  assert (∀ e, eID e = opID op → keyed (<[opID op := e]> st)) as Hins.
  { intros e He id x. rewrite lookup_insert_Some. intros [[<- <-]|[_ Hx]]; [done|by apply Hk]. }
  assert (∀ i, keyed (delete i st)) as Hdel by (intros i id x [_ Hx]%lookup_delete_Some; by apply Hk).
  unfold normalize_op. destruct (bool_decide _); [constructor; [done|by apply IH, Hins]|].
  destruct (bool_decide _); [destruct (st !! opID op) as [e|]; (constructor; [done|by apply IH, Hins])|].
  destruct (bool_decide _); [|constructor; [done|by apply IH]].
  destruct (st !! opID op) as [e|] eqn:Ee; (constructor; [|by apply IH]); [|done]. split; [|done]. by apply (Hk _ _ Ee).
Qed.

Lemma normalize_ids l cs : opID <$> normalizeRegistryMetadata cs l = opID <$> cs.
Proof using.
  unfold normalizeRegistryMetadata. pose proof (normalize_same (NewStateMap l) cs (NewStateMap_keyed l)) as Hf.
  induction Hf as [|a b x y [He _] Hf IH]; [done|]. rewrite !fmap_cons. by rewrite He, IH.
Qed.

Lemma normalize_settled l cs : settled cs → settled (normalizeRegistryMetadata cs l).
Proof using.
  intros [Hn Ho]. split; [by rewrite normalize_ids|]. intros op (i & Hi)%list_elem_of_lookup.
  destruct (Forall2_lookup_l _ _ _ _ _ (normalize_same _ cs (NewStateMap_keyed l)) Hi) as (x & Hx & -> & ->).
  apply Ho. by eapply list_elem_of_lookup_2.
Qed.

Lemma first_owned_none owners ops op :
  (∀ op, op ∈ ops → id_ok (opID op)) → first_owned owners ops = None → op ∈ ops → owners !! opID op = None.
Proof using.
  induction ops as [|x ops IH]; intros Hok; cbn; [by intros _ ?%elem_of_nil|].
  destruct (owners !! Canonical (opID x)) eqn:Eo; [done|]. rewrite Canonical_ok in Eo by (apply Hok; by left).
  intros Hf [->|Hop]%elem_of_cons; [done|]. apply IH; [intros y Hy; apply Hok; by right|done|done].
Qed.

Lemma durable_unowned reg ops op :
  (∀ op, op ∈ ops → id_ok (opID op)) → validateDurableTransitionAgainstOverlays r reg ops = inr tt → op ∈ ops →
  overlayOwners (ov reg) !! opID op = None.
Proof using.
  intros Hok. unfold validateDurableTransitionAgainstOverlays. destruct (bool_decide_reflect (overlayOwners (ov reg) = ∅)) as [->|_].
  - intros _ _. apply lookup_empty.
  - destruct (first_owned _ ops) eqn:Ef; [done|]. intros _. by apply first_owned_none.
Qed.

Lemma prepare_apply_same reg changes reg' res :
  prepare_apply r reg changes = (reg', res) → same reg reg' ∧ (reg_ok reg → reg_ok reg').
Proof using.
  unfold prepare_apply. destruct (sortWithIndex r reg _ _) as [r1 s1] eqn:E1. apply sortWithIndex_same in E1 as (S1 & O1 & _).
  destruct s1 as [hist|]; [|by intros [= <- <-]]. destruct (sortWithIndex r r1 _ _) as [r2 s2] eqn:E2.
  apply sortWithIndex_same in E2 as (S2 & O2 & _). destruct s2 as [all|]; [|by intros [= <- <-]; split; [etrans|auto]].
  destruct (validateDurableTransitionAgainstOverlays _ _ _); intros [= <- <-]; (split; [by etrans|auto]).
Qed.

Lemma prepare_apply_ops reg changes reg' all hist :
  request_ok changes → prepare_apply r reg changes = (reg', inr (all, hist)) →
  settled all ∧ all ≡ₚ hist ∧ (∀ op, op ∈ all → overlayOwners (ov reg) !! opID op = None) ∧
  opID <$> all ≡ₚ (λ op, Canonical (opID op)) <$> changes.
Proof using.
  intros Hreq%canonicalize_settled%(normalize_settled (state reg)). unfold prepare_apply.
  destruct (sortWithIndex r reg _ _) as [r1 s1] eqn:E1. apply sortWithIndex_same in E1 as (S1 & _ & E1).
  destruct s1 as [hist'|]; [|done]. destruct (sortWithIndex r r1 _ _) as [r2 s2] eqn:E2. apply sortWithIndex_same in E2 as (S2 & _ & E2).
  destruct s2 as [all'|]; [|done]. destruct (validateDurableTransitionAgainstOverlays _ _ _) as [|[]] eqn:Ev; [done|]. intros [= <- <- <-].
  symmetry in E1, E2. apply SortWithIndex_perm in E1; [|by apply settled_ops_ok].
  assert (settled hist') as Hh by (by eapply settled_perm).
  apply SortWithIndex_perm in E2; [|by apply settled_ops_ok]. assert (settled all') as Ha by (by eapply settled_perm).
  split_and!; [done|done| |].
  - intros op Hop. rewrite <- (sm_overlays _ _ S1), <- (sm_overlays _ _ S2). eapply durable_unowned; [|done|done]. intros x Hx. by apply Ha.
  - rewrite E2, E1, normalize_ids. unfold canonicalizeChangeSetIDs. by rewrite <- list_fmap_compose.
Qed.

(** Operations that leave the owned identifiers alone leave the claims alone. *)
Lemma claims_durable D D' st st' owners shadows (ops : ChangeSet) :
  claims_ok D st owners shadows → (∀ op, op ∈ ops → owners !! opID op = None) →
  (∀ op, op ∈ ops → D' !! opID op = effect op ∧ st' !! opID op = effect op) →
  (∀ id, id ∉ opID <$> ops → D' !! id = D !! id ∧ st' !! id = st !! id) →
  claims_ok D' st' owners shadows.
Proof using.
  intros Hc Ho Hin Hout id. specialize (Hc id). destruct (decide (id ∈ opID <$> ops)) as [(op & -> & Hop)%list_elem_of_fmap|Hid].
  - rewrite (Ho op Hop) in *. destruct (Hin op Hop) as [-> ->]. by destruct Hc.
  - by destruct (Hout id Hid) as [-> ->].
Qed.

Lemma overlays_same st st' owners ovs :
  (∀ id, is_Some (owners !! id) → st' !! id = st !! id) → overlays_ok st owners ovs → overlays_ok st' owners ovs.
Proof using.
  intros Hs Ho o e. rewrite (Ho o e). split; intros [H1 H2]; (split; [done|]); rewrite <- H2; [|symmetry]; apply Hs; by eexists.
Qed.

Lemma transitioned_owned from (ops : ChangeSet) st (owners : gmap ID string) id :
  transitioned from ops st → (∀ op, op ∈ ops → owners !! opID op = None) → is_Some (owners !! id) → NewStateMap st !! id = from !! id.
Proof using.
  intros Ht Hu [o Ho]. apply (tr_other _ _ _ Ht). intros (op & -> & Hop)%list_elem_of_fmap. rewrite (Hu op Hop) in Ho. done.
Qed.

Lemma patched_index d from cs st :
  keyed from → settled cs → transitioned from cs st → index_of r d from → index_of r (Patch d cs r) (NewStateMap st).
Proof using. intros Hk Hs Ht Hd. eapply Patch_index_of; [done|done|by apply Ht|]. intros op Hop. by apply Hs. Qed.

(** A failure whose rollback failed too *)
Definition torn (e : reg_error) : bool :=
  match e with
  | ApplyChangesErr _ (Some _) | ApplyVersionErr _ (Some _) | SaveVersionErr _ (Some _) | LoadStateErr _ (Some _) => true
  | _ => false
  end.

Lemma rollback_kept ctx reg w from to reg' w' : rollback r compare ctx reg w from to = (reg', w', None) → reg' = reg.
Proof using. unfold rollback. destruct (transitionState _ _ _ _ _ _) as [[w1 p] [e|]]; [done|]. by intros [= <- <-]. Qed.

Lemma after_failure_kept ctx reg w l reg' w' : after_failure r compare ctx reg w l = (reg', w', None) → reg' = reg.
Proof using. unfold after_failure. destruct (ctxDone ctx w); [by intros [= <- <-]|]. apply rollback_kept. Qed.

Lemma next_version_same reg n : same reg (with_versionNum reg n) ∧ (reg_ok reg → reg_ok (with_versionNum reg n)).
Proof using. split; [done|]. intros Hok. apply (reg_ok_same reg); [done|exact (ro_dep reg Hok)|done]. Qed.

Lemma applyLocked_refused ctx reg w changes expect reg' w' e :
  applyLocked r compare digest ctx reg w changes expect = (reg', w', inl e) → torn e = false → same reg reg' ∧ (reg_ok reg → reg_ok reg').
Proof using.
  unfold applyLocked. destruct (prepare_apply r reg changes) as [r1 [e1|[all hist]]] eqn:Ep; apply prepare_apply_same in Ep as [S1 O1].
  { by intros [= <- <- <-] _. }
  destruct (match expect with Some _ => _ | None => _ end); [by intros [= <- <- <-] _|]. destruct (bool_decide _); [by intros [= <- <- <-] _|].
  set (p := if bool_decide _ then _ else _). assert (same reg p.1 ∧ (reg_ok reg → reg_ok p.1)) as [S2 O2].
  { unfold p. destruct (bool_decide _); [|done]. cbn. destruct (next_version_same r1 (wrap64 (versionNum r1 + 1))). split; [by etrans|auto]. }
  destruct p as [r2 nv]. cbn in S2, O2. destruct (transition ctx w (state r2) all) as [[w2 st] [te|]].
  - destruct (after_failure _ _ _ _ _ _) as [[r3 w3] re] eqn:Ea. intros [= <- <- <-]. destruct re; [done|]. intros _.
    apply after_failure_kept in Ea as ->. done.
  - destruct nv as [nv|]; [|done]. destruct (Save _ _ _ _) as [h|se]; [done|].
    destruct (rollback _ _ _ _ _ _ _) as [[r3 w3] re] eqn:Ea. intros [= <- <- <-]. destruct re; [done|]. intros _.
    apply rollback_kept in Ea as ->. done.
Qed.

(** The two ways an apply succeeds *)
Lemma applyLocked_applied ctx reg w changes expect reg' w' v :
  applyLocked r compare digest ctx reg w changes expect = (reg', w', inr v) →
  ∃ r1 all hist st, prepare_apply r reg changes = (r1, inr (all, hist)) ∧
    match expect with Some e => verify digest e (currentVersion reg) all hist | None => None end = None ∧
    transition ctx w (state reg) all = (w', st, None) ∧
    let d := patchDepIndex r (depIndex r1) all in
    ((hist = [] ∧ v = currentVersion reg ∧ reg' = publish r1 v (history reg) st d (ov reg)) ∨
     ∃ n h, v = FromParent (Some (currentVersion reg)) n ∧ 0 ≤ n ∧ hist ≠ [] ∧
       Save (history reg) v (enrichChangeset (NewStateMap (state reg)) hist) true = Ok h ∧
       reg' = publish (with_versionNum r1 n) v h st d (ov reg)).
Proof using.
  unfold applyLocked. destruct (prepare_apply r reg changes) as [r1 [e1|[all hist]]] eqn:Ep; [done|]. apply prepare_apply_same in Ep as [S1 _].
  destruct (match expect with Some _ => _ | None => _ end) eqn:Ex; [done|]. destruct (bool_decide (vid _ ≠ _)); [done|].
  destruct (bool_decide_reflect (0 < length hist)%nat) as [Hl|Hl]; cbn -[Save publish patchDepIndex FromParent];
    rewrite (sm_state _ _ S1), ?(sm_history _ _ S1), ?(sm_overlays _ _ S1), (sm_version _ _ S1);
    (destruct (transition ctx w (state reg) all) as [[w2 st] [te|]] eqn:Et; [by destruct (after_failure _ _ _ _ _ _) as [[? ?] ?]|]).
  - destruct (Save _ _ _ _) as [h|se] eqn:Es; [|by destruct (rollback _ _ _ _ _ _ _) as [[? ?] ?]]. intros [= <- <- <-].
    exists r1, all, hist, st. split_and!; [done..|]. right. eexists _, h. split_and!; [done| |by destruct hist; [cbn in Hl; lia|]|done|done].
    unfold wrap64. apply Z.mod_pos_bound. lia.
  - intros [= <- <- <-]. exists r1, all, hist, st. split_and!; [done..|]. left. destruct hist; [done|cbn in Hl; lia].
Qed.

Lemma replay_snoc base css cs :
  replay_onto base (css ++ [cs]) = applyStateOperations (replay_onto base css) (canonicalizeChangeSetIDs cs).
Proof using. unfold replay_onto. by rewrite foldl_app. Qed.

(** Saving a changeset records its effect. *)
Lemma durable_saved reg v n ops h st reg' :
  reg_ok reg → settled ops → v = FromParent (Some (currentVersion reg)) n → 0 ≤ n → ops ≠ [] →
  Save (history reg) v (enrichChangeset st ops) true = Ok h → currentVersion reg' = v → history reg' = h → baseline reg' = baseline reg →
  durable reg' = applyStateOperations (durable reg) ops ∧ storage_ok h ∧ versions h !! vid v = Some v ∧ recorded_ok h.
Proof using.
  intros Hok [Hn Hs] -> Hpos Hne Hsave Ev Eh Eb. pose proof (ro_storage reg Hok) as Hst. pose proof (ro_current reg Hok) as Hcur.
  assert (versions (history reg) !! n = None ∧ 0 < n) as [Hnew Hgt].
  { pose proof Hsave as Hc. unfold Save in Hc. cbn -[RootVersion enrichChangeset] in Hc. rewrite andb_false_r in Hc.
    destruct (versions (history reg) !! n) as [x|] eqn:Ex.
    - destruct (bool_decide (n = RootVersion)); cbn in Hc; [|done]. rewrite bool_decide_eq_false_2 in Hc; [done|].
      unfold enrichChangeset. rewrite length_fmap. by destruct ops.
    - split; [done|]. destruct (decide (n = 0)) as [->|]; [|lia]. rewrite (so_root _ Hst) in Ex. done. }
  destruct (replay_total _ _ Hst Hcur) as [css Hcss]. split_and!.
  - unfold durable. rewrite Ev, Eh, Eb, Hcss. cbn [FromParent].
    rewrite (saved_replay (history reg) (currentVersion reg) (enrichChangeset st ops) true h n css Hst Hcur Hgt Hnew Hsave Hcss), replay_snoc.
    apply replay_recorded. intros op Hop. by apply Hs.
  - by apply (Save_ok _ _ _ _ _ Hst) in Hsave.
  - apply Save_cases in Hsave as [([x Hx] & _)|(stored & _ & _ & Hstd & ->)]; [cbn in Hx; congruence|].
    destruct Hstd as [(H0 & _)|(q & sp & [= <-] & Hsp & -> & _)]; [cbn in H0; lia|]. cbn. rewrite lookup_insert_eq. congruence.
  - apply Save_cases in Hsave as [(_ & _ & Ha & _)|(stored & _ & _ & _ & ->)].
    + unfold recorded_ok. rewrite Ha. by apply ro_recorded.
    + intros i cs op. cbn. rewrite lookup_insert_Some. intros [[_ <-]|[_ Hi]] Hop; [|by apply (ro_recorded reg Hok i cs)].
      unfold enrichChangeset in Hop. apply list_elem_of_fmap in Hop as (x & -> & Hx). destruct (Hs x Hx) as [Hid _].
      assert (opID (enrich_op st x) = opID x) as ->; [|by rewrite Canonical_ok].
      unfold opID, enrich_op. destruct (_ || _); [|done]. by destruct (st !! _).
Qed.

(** The effect of recorded operations on the recorded state *)
Lemma recorded_effect D (from : StateMap) all hist st :
  settled all → all ≡ₚ hist → transitioned from all st →
  (∀ op, op ∈ all → applyStateOperations D hist !! opID op = effect op) ∧
  ∀ id, id ∉ opID <$> all → applyStateOperations D hist !! id = D !! id.
Proof using.
  intros [Hn Hs] Hp Ht. destruct (applyStateOperations_distinct hist D) as [H1 H2].
  - by rewrite <- Hp.
  - intros op. rewrite <- Hp. intros Hop. split; [by apply Hs|]. eapply valid_kind. by apply (tr_valid _ _ _ Ht).
  - split; [intros op|intros id]; rewrite Hp; auto.
Qed.

Lemma applied_ok reg all st v h d reg' :
  reg_ok reg → settled all → transitioned (NewStateMap (state reg)) all st →
  (∀ op, op ∈ all → overlayOwners (ov reg) !! opID op = None) →
  reg' = publish reg v h st d (ov reg) →
  (∀ d', d = Some d' → index_of r d' (NewStateMap st)) → storage_ok h → versions h !! vid v = Some v → recorded_ok h →
  (∀ op, op ∈ all → durable reg' !! opID op = effect op) → (∀ id, id ∉ opID <$> all → durable reg' !! id = durable reg !! id) →
  reg_ok reg'.
Proof using.
  intros Hok Hs Ht Hu -> Hd Hst Hv Hr Hin Hout. split; cbn; [by apply Ht|done|done|done|done|done|done|exact (ro_baseline reg Hok)| |..].
  - apply (claims_durable (durable reg) _ (NewStateMap (state reg)) _ _ _ all); [by apply ro_claims|done| |].
    + intros op Hop. split; [exact (Hin op Hop)|exact (tr_effect _ _ _ Ht op Hop)].
    + intros id Hid. split; [exact (Hout id Hid)|exact (tr_other _ _ _ Ht id Hid)].
  - apply (overlays_same (NewStateMap (state reg))); [|by apply ro_overlays]. intros id. by apply (transitioned_owned _ all).
  - exact (ro_owned reg Hok).
Qed.

Lemma patched_all reg all st d' :
  reg_ok reg → settled all → transitioned (NewStateMap (state reg)) all st →
  patchDepIndex r (depIndex reg) all = Some d' → index_of r d' (NewStateMap st).
Proof using.
  intros Hok Hs Ht. unfold patchDepIndex. destruct (depIndex reg) as [d|] eqn:Ed; [|done]. intros [= <-].
  eapply patched_index; [apply NewStateMap_keyed|done|done|by apply ro_dep].
Qed.

Lemma applyLocked_ok ctx reg w changes expect reg' w' v :
  request_ok changes → reg_ok reg → applyLocked r compare digest ctx reg w changes expect = (reg', w', inr v) → reg_ok reg'.
Proof using HL.
  intros Hreq Hok (r1 & all & hist & st & Hp & _ & Ht & Hcase)%applyLocked_applied.
  destruct (prepare_apply_same _ _ _ _ Hp) as [S1 O1]. specialize (O1 Hok). destruct (prepare_apply_ops _ _ _ _ _ Hreq Hp) as (Hs & Hperm & Hu & _).
  apply transition_done in Ht; [|by apply ro_ids|by apply Hs]. rewrite <- (sm_state _ _ S1) in Ht. rewrite <- (sm_overlays _ _ S1) in Hu.
  pose proof (λ d', patched_all r1 all st d' O1 Hs Ht) as Hd. destruct Hcase as [(-> & -> & ->)|(n & h & Hv & Hn & Hne & Hsave & ->)].
  - rewrite <- (sm_history _ _ S1), <- (sm_overlays _ _ S1), <- (sm_version _ _ S1) in *.
    assert (all = []) as -> by (by apply Permutation_nil_r).
    eapply (applied_ok r1 [] st); [done|done|done|done|done|done|by apply ro_storage|by apply ro_current|by apply ro_recorded|by intros op Hop%elem_of_nil|done].
  - rewrite <- (sm_history _ _ S1), <- (sm_overlays _ _ S1), <- (sm_version _ _ S1) in *.
    set (reg' := publish _ _ _ _ _ _). destruct (durable_saved r1 v n hist h _ reg' O1 (settled_perm _ _ Hperm Hs) Hv Hn Hne Hsave eq_refl eq_refl eq_refl) as (HD & Hst & Hvv & Hr).
    destruct (recorded_effect (durable r1) _ all hist st Hs Hperm Ht) as [H1 H2].
    destruct (next_version_same r1 n) as [_ O2]. specialize (O2 O1).
    apply (applied_ok (with_versionNum r1 n) all st v h (patchDepIndex r (depIndex r1) all)); [done..| |].
    + intros op Hop. rewrite HD. by apply H1.
    + intros id Hid. rewrite HD. by apply H2.
Qed.

(** ** Moving between versions *)

Lemma canonical_keys_same l st : (∀ id e, (id, e) ∈ l → eID e = id ∧ id_ok id) → canonical_keys l st = inr st.
Proof using.
  induction l as [|[id e] l IH]; intros Hl; cbn [canonical_keys]; [done|]. destruct (Hl id e ltac:(by left)) as [He Hok].
  rewrite Canonical_ok by done. rewrite He, Canonical_ok by done. cbn [set_id eID]. rewrite (proj2 (Equal_spec _ _ Hok Hok)) by done. cbn [negb].
  rewrite bool_decide_eq_false_2 by (by intros ?). apply IH. intros i x Hx. apply Hl. by right.
Qed.

Lemma rebase_shadows_done l st acc st' acc' :
  NoDup l.*1 → rebase_shadows l st acc = inr (st', acc') →
  (∀ id sh, (id, sh) ∈ l → ∃ d, st !! id = Some d ∧ acc' !! id = Some (mkShadow (sOwner sh) d (removed sh))) ∧
  (∀ id, id ∉ l.*1 → st' !! id = st !! id ∧ acc' !! id = acc !! id) ∧ (keyed st → keyed st').
Proof using.
  revert st acc. induction l as [|[i s] l IH]; intros st acc Hn; cbn [rebase_shadows].
  { intros [= <- <-]. split_and!; [by intros id sh Hid%elem_of_nil|done|done]. }
  apply NoDup_cons in Hn as [Hi Hn]. destruct (st !! i) as [d|] eqn:Ed; [|done]. intros Hl.
  destruct (IH _ _ Hn Hl) as (H1 & H2 & H3). split_and!.
  - intros id sh [[= -> ->]|Hin]%elem_of_cons.
    + exists d. split; [done|]. destruct (H2 i Hi) as [_ ->]. by rewrite lookup_insert_eq.
    + destruct (H1 id sh Hin) as (x & Hx & Ha). exists x. split; [|done]. destruct (removed s); [|done]. by apply lookup_delete_Some in Hx as [_ ?].
  - intros id. cbn. rewrite not_elem_of_cons. intros [Hne Hid]. destruct (H2 id Hid) as [-> ->]. rewrite lookup_insert_ne by done.
    split; [|done]. destruct (removed s); [|done]. by rewrite lookup_delete_ne.
  - intros Hk. apply H3. destruct (removed s); [|done]. intros id x [_ Hx]%lookup_delete_Some. by apply Hk.
Qed.

Lemma fold_overlay_done es shadows st st' :
  (∀ e, e ∈ es → id_ok (eID e)) → fold_overlay es shadows st = inr st' →
  (∀ id, id ∉ eID <$> es → st' !! id = st !! id) ∧ (∀ id, id ∈ eID <$> es → shadows !! id = None → st !! id = None) ∧ (keyed st → keyed st').
Proof using.
  revert st. induction es as [|e es IH]; intros st Hok; cbn [fold_overlay].
  { intros [= <-]. split_and!; [done|by intros id Hid%elem_of_nil|done]. }
  rewrite Canonical_ok, set_id_same by (apply Hok; by left).
  assert (∀ x, eID x = eID e → fold_overlay es shadows (<[eID e := x]> st) = inr st' → (shadows !! eID e = None → st !! eID e = None) →
    (∀ id, id ∉ eID <$> e :: es → st' !! id = st !! id) ∧ (∀ id, id ∈ eID <$> e :: es → shadows !! id = None → st !! id = None) ∧ (keyed st → keyed st')) as Hgo.
  { intros x Hx Hf Hnone. destruct (IH _ ltac:(intros y Hy; apply Hok; by right) Hf) as (H1 & H2 & H3). split_and!.
    - intros id. rewrite fmap_cons, not_elem_of_cons. intros [Hne Hid]. rewrite H1 by done. by rewrite lookup_insert_ne.
    - intros id. rewrite fmap_cons, elem_of_cons. intros [->|Hid] Hs; [by apply Hnone|]. specialize (H2 id Hid Hs).
      by apply lookup_insert_None in H2 as [? _].
    - intros Hk. apply H3. intros id y. rewrite lookup_insert_Some. intros [[<- <-]|[_ Hy]]; [done|by apply Hk]. }
  destruct (shadows !! eID e) as [sh|] eqn:Es; intros Hf; [by apply (Hgo (set_metadata e (Owner (original sh)) (Root (original sh))))|].
  destruct (bool_decide_reflect (is_Some (st !! eID e))) as [|Hno]; [done|]. apply (Hgo e); [done|done|]. intros _. by apply eq_None_not_Some.
Qed.

Definition overlay_entries (ovs : gmap string State) : State := concat (map_to_list ovs).*2.

Lemma elem_of_overlay_entries ovs e : e ∈ overlay_entries ovs ↔ ∃ o, e ∈ default [] (ovs !! o).
Proof using.
  unfold overlay_entries. rewrite elem_of_flat. split.
  - intros ([o l] & Hl%elem_of_map_to_list & He). exists o. by rewrite Hl.
  - intros [o He]. destruct (ovs !! o) as [l|] eqn:El; [|by apply elem_of_nil in He]. exists (o, l).
    by rewrite elem_of_map_to_list.
Qed.

(** A composition keeps what no overlay claims, and rebases the claims on the new durable state. *)

Lemma composeOverlays_claims reg T st shadows :
  reg_ok reg → ids_canonical T → composeOverlays r reg T = inr (st, shadows) →
  keyed st ∧ (∀ id, overlayOwners (ov reg) !! id = None → st !! id = T !! id) ∧
  ∀ st', (∀ id, is_Some (overlayOwners (ov reg) !! id) → st' !! id = NewStateMap (state reg) !! id) →
         (∀ id, overlayOwners (ov reg) !! id = None → st' !! id = st !! id) → claims_ok T st' (overlayOwners (ov reg)) shadows.
Proof using.
  intros Hok [Hk Hc] Hcomp. unfold composeOverlays in Hcomp.
  rewrite canonical_keys_same in Hcomp by (intros id e He%elem_of_map_to_list; split; [by apply Hk|apply Hc; by eexists]).
  destruct (rebase_shadows _ T ∅) as [|[s1 sh]] eqn:Er; [done|]. destruct (fold_overlay _ sh s1) as [|s2] eqn:Ef; [done|].
  destruct (validateOverlayComposition _ _ _ _ _); [done|]. injection Hcomp as -> ->. fold (overlay_entries (overlays (ov reg))) in Ef.
  apply rebase_shadows_done in Er as (R1 & R2 & R3); [|apply NoDup_fst_map_to_list].
  pose proof (ro_overlays reg Hok) as Hov. apply fold_overlay_done in Ef as (F1 & F2 & F3).
  2: { intros e [o He%Hov]%elem_of_overlay_entries. apply (ro_owned reg Hok). destruct He as [-> _]. by eexists. }
  assert (∀ id, overlayShadows (ov reg) !! id = None → s1 !! id = T !! id ∧ shadows !! id = None) as Hnot.
  { intros id Hn. destruct (R2 id) as [-> ->]; [|split; [done|apply lookup_empty]].
    intros ([j sh] & -> & Hj%elem_of_map_to_list)%list_elem_of_fmap. cbn in *. congruence. }
  assert (∀ id, overlayOwners (ov reg) !! id = None → st !! id = T !! id ∧ shadows !! id = None) as Hfree.
  { intros id Eo. pose proof (ro_claims reg Hok id) as Hcl. rewrite Eo in Hcl. destruct Hcl as [Es _]. destruct (Hnot id Es) as [Ht Hs].
    split; [|done]. rewrite F1; [done|]. intros (e & -> & [o [He _]%Hov]%elem_of_overlay_entries)%list_elem_of_fmap. congruence. }
  split_and!; [by auto|by apply Hfree|]. intros st' Hin Hout id. pose proof (ro_claims reg Hok id) as Hcl. specialize (Hin id).
  destruct (overlayOwners (ov reg) !! id) as [o|] eqn:Eo; [|rewrite Hout by done; destruct (Hfree id Eo); done].
  rewrite Hin by (by eexists). destruct (overlayShadows (ov reg) !! id) as [sh|] eqn:Es.
  - destruct (R1 id sh) as (d & Hd & ->); [by rewrite elem_of_map_to_list|]. by destruct Hcl as (_ & ? & ?).
  - destruct (Hnot id Es) as [Ht Hs]. rewrite Hs. destruct Hcl as [_ [e He]]. split; [|by eexists].
    rewrite <- Ht. apply F2; [|done]. pose proof (NewStateMap_keyed _ _ _ He) as <-.
    apply list_elem_of_fmap_2. apply elem_of_overlay_entries. exists o. by apply Hov.
Qed.

Lemma stored_replay_same h h' v : versions h' = versions h → actions h' = actions h → replayChanges h' v = replayChanges h v.
Proof using. intros Hv Ha. unfold replayChanges. rewrite Hv. destruct (versions h !! vid v); [|done]. apply changesets_ext. by rewrite Ha. Qed.

Lemma head_moved h a b h' : CompareAndSetHead h a b = Ok h' → versions h' = versions h ∧ actions h' = actions h ∧ is_Some (versions h !! vid b).
Proof using.
  unfold CompareAndSetHead. destruct (versions h !! vid b); [|done]. destruct (negb _); [done|]. intros [= <-]. split_and!; [done|done|by eexists].
Qed.

Lemma with_history_ok reg h :
  reg_ok reg → storage_ok h → versions h = versions (history reg) → actions h = actions (history reg) → reg_ok (with_history reg h).
Proof using.
  intros [] Hst Hv Ha. split; cbn; try done; [by rewrite Hv|unfold recorded_ok; by rewrite Ha|].
  unfold durable in *. cbn. by rewrite (stored_replay_same (history reg)).
Qed.

Lemma stateAtVersion_done reg done target l :
  reg_ok reg → versions (history reg) !! vid target = Some target → stateAtVersion reg done target = inr l →
  ∃ css, replayChanges (history reg) target = Ok css ∧ l = StateMapToSlice (replay_onto (baseline reg) css).
Proof using.
  intros Hok Hv. unfold stateAtVersion. destruct (bool_decide_reflect (vid target = RootVersion)) as [Hz|_].
  - intros [= <-]. exists []. split; [|done]. unfold replayChanges. rewrite Hv. destruct target as [i p]. cbn in Hz. by subst.
  - unfold ReplayChanges. destruct done; [done|]. destruct (replayChanges _ _) as [css|]; [|done]. intros [= <-]. by exists css.
Qed.

Lemma settled_ids cs : settled cs → ∀ op, op ∈ cs → id_ok (opID op).
Proof using. intros Hs op Hop. by apply Hs. Qed.

Lemma version_operations_done reg l all shadows :
  reg_ok reg → ids_canonical (NewStateMap l) → version_operations r compare reg l = inr (all, shadows) →
  settled all ∧ (∀ op, op ∈ all → overlayOwners (ov reg) !! opID op = None) ∧
  ∀ st, transitioned (NewStateMap (state reg)) all st → claims_ok (NewStateMap l) (NewStateMap st) (overlayOwners (ov reg)) shadows.
Proof using Hcompare.
  intros Hok HT. unfold version_operations. destruct (composeOverlays r reg _) as [|[st sh]] eqn:Ec; [done|].
  destruct (composeOverlays_claims reg _ st sh Hok HT Ec) as (Hk & Hun & Hcl).
  assert (∀ e, e ∈ state reg ++ StateMapToSlice st → id_ok (eID e)) as Hids.
  { intros e [He|[id He]%elem_of_StateMapToSlice]%elem_of_app; [by apply (state_canonical reg)|]. rewrite (Hk id e He).
    destruct (overlayOwners (ov reg) !! id) eqn:Eo; [apply (ro_owned reg Hok); by eexists|]. apply HT. rewrite <- Hun by done. by eexists. }
  destruct (BuildDelta _ _ _ _) as [ops|] eqn:Eb; [|done]. destruct (BuildDelta_perm _ _ _ Eb Hids) as (Nf & Nt & Hp & Hs).
  destruct (SortChangeSet r (state reg) ops) as [sorted|] eqn:Es; [|done]. destruct (validateDurableTransitionAgainstOverlays _ _ _) as [|[]] eqn:Ev; [done|].
  intros [= -> ->]. apply SortChangeSet_perm in Es; [|by apply settled_ops_ok]. assert (settled all) as Ha by (by eapply settled_perm).
  assert (∀ op, op ∈ all → overlayOwners (ov reg) !! opID op = None) as Hu by (intros op; apply durable_unowned; [by apply settled_ids|done]).
  split_and!; [done..|]. intros new Ht. apply Hcl.
  - intros id. by apply (transitioned_owned _ all).
  - intros id _. rewrite (delta_reached (state reg) (StateMapToSlice st) all new); [|done|done|by rewrite Es|done].
    by rewrite NewStateMap_Slice.
Qed.

Lemma ApplyVersion_refused ctx reg w v reg' w' e :
  ApplyVersion r compare ctx reg w v = (reg', w', Some e) → torn e = false → reg' = reg.
Proof using.
  unfold ApplyVersion. destruct (bool_decide _); [destruct (CompareAndSetHead _ _ _); [done|by intros [= <- <- <-]]|].
  destruct (findStoredVersion _ _); [by intros [= <- <- <-]|]. destruct (stateAtVersion _ _ _); [by intros [= <- <- <-]|].
  destruct (version_operations _ _ _ _) as [|[all sh]]; [by intros [= <- <- <-]|]. destruct (bool_decide _); [by intros [= <- <- <-]|].
  destruct (transition _ _ _ _) as [[w1 st] [te|]].
  - destruct (after_failure _ _ _ _ _ _) as [[r3 w3] re] eqn:Ea. intros [= <- <- <-]. destruct re; [done|]. by apply after_failure_kept in Ea as ->.
  - destruct (CompareAndSetHead _ _ _); [done|]. destruct (rollback _ _ _ _ _ _ _) as [[r3 w3] re] eqn:Ea. intros [= <- <- <-].
    destruct re; [done|]. by apply rollback_kept in Ea as ->.
Qed.

Lemma ApplyVersion_ok ctx reg w v reg' w' :
  reg_ok reg → ApplyVersion r compare ctx reg w v = (reg', w', None) → reg_ok reg' ∧ vid (currentVersion reg') = vid v.
Proof using HL Hcompare.
  intros Hok. unfold ApplyVersion. destruct (bool_decide_reflect (vid (currentVersion reg) = vid v)) as [Hsame|_].
  { destruct (CompareAndSetHead _ _ _) as [h|] eqn:Eh; [|done]. intros [= <- <-]. destruct (head_moved _ _ _ _ Eh) as (Hv & Ha & _).
    split; [|done]. apply with_history_ok; try done. by eapply CompareAndSetHead_ok, Eh; apply ro_storage. }
  unfold findStoredVersion, GetVersion. destruct (versions (history reg) !! vid v) as [target|] eqn:Ev; [|done].
  assert (vid target = vid v) as Hid by (by destruct (so_version _ (ro_storage reg Hok) _ _ Ev)). rewrite <- Hid in Ev.
  destruct (stateAtVersion _ _ _) as [|l] eqn:El; [done|]. destruct (stateAtVersion_done _ _ _ _ Hok Ev El) as (css & Hcss & ->).
  pose proof (history_canonical _ _ _ _ (ro_recorded reg Hok) (ro_baseline reg Hok) Hcss) as Hcan. pose proof (NewStateMap_Slice _ (proj1 Hcan)) as Hsl.
  destruct (version_operations _ _ _ _) as [|[all sh]] eqn:Eo; [done|]. rewrite <- Hsl in Hcan.
  destruct (version_operations_done _ _ _ _ Hok Hcan Eo) as (Hs & Hu & Hcl). destruct (bool_decide _); [done|].
  destruct (transition _ _ _ _) as [[w1 st] [te|]] eqn:Et; [by destruct (after_failure _ _ _ _ _ _) as [[? ?] ?]|].
  apply transition_done in Et; [|by apply ro_ids|by apply Hs]. destruct (CompareAndSetHead _ _ _) as [h|] eqn:Eh; [|by destruct (rollback _ _ _ _ _ _ _) as [[? ?] ?]].
  intros [= <- <-]. split; [|done]. destruct (head_moved _ _ _ _ Eh) as (Hv & Ha & _).
  split; cbn; [by apply Et|done|done|intros d [= <-]; by apply BuildDepIndex_index, Et|by eapply CompareAndSetHead_ok, Eh; apply ro_storage|
    by rewrite Hv|unfold recorded_ok; rewrite Ha; by apply ro_recorded|exact (ro_baseline reg Hok)| | |exact (ro_owned reg Hok)].
  - unfold durable. cbn. rewrite (stored_replay_same (history reg)), Hcss, <- Hsl by done. by apply Hcl.
  - apply (overlays_same (NewStateMap (state reg))); [|by apply ro_overlays]. intros id. by apply (transitioned_owned _ all).
Qed.

(** ** Booting *)

Lemma LoadState_refused ctx reg w base target reg' w' e :
  LoadState r compare ctx reg w base target = (reg', w', Some e) → torn e = false → reg' = reg.
Proof using.
  unfold LoadState. destruct (ValidateUniqueEntryIDs _ _); [by intros [= <- <- <-]|]. destruct (boot_state _ _ _ _); [by intros [= <- <- <-]|].
  destruct (transitionState _ _ _ _ _ _) as [[w1 st] [te|]].
  - destruct st as [pl|]; [|by intros [= <- <- <-]]. destruct (after_failure _ _ _ _ _ _) as [[r3 w3] re] eqn:Ea. intros [= <- <- <-].
    destruct re; [done|]. by apply after_failure_kept in Ea as ->.
  - destruct (CompareAndSetHead _ _ _); [done|]. destruct (rollback _ _ _ _ _ _ _) as [[r3 w3] re] eqn:Ea. intros [= <- <- <-].
    destruct re; [done|]. by apply rollback_kept in Ea as ->.
Qed.

Lemma boot_state_done reg done base target l :
  storage_ok (history reg) → versions (history reg) !! vid target = Some target → boot_state reg done base target = inr l →
  ∃ css, replayChanges (history reg) target = Ok css ∧ l = StateMapToSlice (replay_onto base css).
Proof using.
  intros Hst Hv. unfold boot_state. destruct (bool_decide_reflect (vid target > 0)) as [Hp|Hp].
  - unfold ReplayChanges. destruct done; [done|]. destruct (replayChanges _ _) as [css|]; [|done]. intros [= <-]. by exists css.
  - intros [= <-]. exists []. split; [|done]. unfold replayChanges. rewrite Hv. destruct target as [i p]. cbn in Hp |- *.
    rewrite bool_decide_eq_false_2; [done|]. unfold RootVersion. lia.
Qed.

(** A boot publishes the state that the baseline and the history describe, without overlays. *)
Lemma LoadState_done ctx reg w base target reg' w' :
  NoDup (eID <$> state reg) → (∀ e, e ∈ state reg → id_ok (eID e)) → storage_ok (history reg) → recorded_ok (history reg) →
  (∀ e, e ∈ base → id_ok (Canonical (eID e))) → versions (history reg) !! vid target = Some target →
  LoadState r compare ctx reg w base target = (reg', w', None) →
  reg_ok reg' ∧ currentVersion reg' = target ∧ versions (history reg') = versions (history reg) ∧ actions (history reg') = actions (history reg) ∧
  baseline reg' = ((λ e, set_id e (Canonical (eID e))) <$> base) ∧ overlayOwners (ov reg') = ∅.
Proof using HL Hcompare.
  intros Hn Hids Hst Hrec Hbase Hv. unfold LoadState. set (base' := _ <$> base). destruct (ValidateUniqueEntryIDs _ _); [done|].
  destruct (boot_state _ _ _ _) as [|l] eqn:El; [done|]. destruct (boot_state_done _ _ _ _ _ Hst Hv El) as (css & Hcss & ->).
  assert (∀ e, e ∈ base' → id_ok (eID e)) as Hb by (intros e (x & -> & Hx)%list_elem_of_fmap; by apply Hbase).
  pose proof (history_canonical _ _ _ _ Hrec Hb Hcss) as Hcan. pose proof (NewStateMap_Slice _ (proj1 Hcan)) as Hsl.
  destruct (transitionState _ _ _ _ _ _) as [[w1 st] [te|]] eqn:Et; [by destruct st; [destruct (after_failure _ _ _ _ _ _) as [[? ?] ?]|]|].
  apply transitionState_done in Et as (new & -> & Nn & Hnew); [|done|].
  2: { intros e [He|[id He]%elem_of_StateMapToSlice]%elem_of_app; [by apply Hids|]. rewrite (proj1 Hcan id e He). apply Hcan. by eexists. }
  destruct (CompareAndSetHead _ _ _) as [h|] eqn:Eh; [|by destruct (rollback _ _ _ _ _ _ _) as [[? ?] ?]]. destruct (head_moved _ _ _ _ Eh) as (Hvv & Ha & _).
  change (default [] (Some new)) with new. intros [= <- <-]. split_and!; [|done..]. split; cbn; [done|done|done|intros d [= <-]; by apply BuildDepIndex_index|by eapply CompareAndSetHead_ok, Eh|
    by rewrite Hvv|unfold recorded_ok; by rewrite Ha|done| | |intros id [x Hx]; by rewrite lookup_empty in Hx].
  - intros id. rewrite !lookup_empty. split; [done|]. unfold durable. cbn. rewrite (stored_replay_same (history reg)), Hcss by done. fold (NewStateMap new). by rewrite Hnew, Hsl.
  - intros o e. rewrite !lookup_empty. split; [by intros ?%elem_of_nil|by intros [? _]].
Qed.

(** ** Overlays *)

(** The changes of an overlay stay within their identifiers. *)
Lemma overlay_op_scope owner c op :
  (∀ x, x ∈ transitionOps (overlay_op owner c op) → OriginalEntry x = None ∨ x ∈ transitionOps c) ∧
  seen (overlay_op owner c op) = seen c ∧
  ∀ id, is_Some (cOwners (overlay_op owner c op) !! id) → is_Some (cOwners c !! id) ∨ id = opID op.
Proof using.
  assert (∀ (m : gmap ID string) id, is_Some (<[opID op := owner]> m !! id) → is_Some (m !! id) ∨ id = opID op) as Hi.
  { intros m id. destruct (decide (id = opID op)) as [->|Hne]; [by right|]. rewrite lookup_insert_ne by done. by left. }
  assert (∀ (m : gmap ID string) id, is_Some (delete (opID op) m !! id) → is_Some (m !! id) ∨ id = opID op) as Hd.
  { intros m id. rewrite lookup_delete_is_Some. tauto. }
  assert (∀ y x, OriginalEntry y = None → x ∈ transitionOps c ++ [y] → OriginalEntry x = None ∨ x ∈ transitionOps c) as Ho.
  { intros y x Hy. rewrite elem_of_app, list_elem_of_singleton. intros [?| ->]; tauto. }
  unfold overlay_op, put, put_deleted. destruct (bool_decide _); [split_and!; cbn -[insert]; auto; intros x; by apply Ho|].
  destruct (bool_decide _); [destruct (claimed c _); (split_and!; cbn -[insert]; auto; intros x; by apply Ho)|].
  destruct (cShadows c !! opID op); [split_and!; cbn -[delete]; auto; intros x; by apply Ho|].
  destruct (cOwners c !! opID op); (split_and!; cbn -[delete insert]; auto; intros x; by apply Ho).
Qed.

Lemma overlay_loop_scope owner changes c c' :
  overlay_loop owner changes c = inr c' →
  (∀ x, x ∈ transitionOps c' → OriginalEntry x = None ∨ x ∈ transitionOps c) ∧
  (∀ id, id ∈ seen c' → id ∈ seen c ∨ id ∈ opID <$> changes) ∧
  ∀ id, is_Some (cOwners c' !! id) → is_Some (cOwners c !! id) ∨ id ∈ opID <$> changes.
Proof using.
  clear Hcompare r compare digest.
  revert c. induction changes as [|op changes IH]; intros c; cbn [overlay_loop]; [intros [= <-]; split_and!; by auto|].
  destruct (bool_decide _); [done|]. set (c1 := mkCandidate _ _ _ _ _ _). destruct (check_owner _ _ _); [done|].
  destruct (if bool_decide _ then _ else _); [done|]. intros (H1 & H2 & H3)%IH. destruct (overlay_op_scope owner c1 op) as (G1 & G2 & G3).
  rewrite fmap_cons. setoid_rewrite elem_of_cons. split_and!.
  - intros x [Hx|Hx]%H1; [by left|]. by apply G1.
  - intros id [Hid|Hid]%H2; [|tauto]. rewrite G2 in Hid. cbn in Hid. apply elem_of_union in Hid as [->%elem_of_singleton|Hid]; tauto.
  - intros id [Hid|Hid]%H3; [|tauto]. apply G3 in Hid as [Hid|Hid]; tauto.
Qed.

Lemma ApplyOverlay_refused ctx reg w owner gen changes reg' w' e :
  ApplyOverlay r compare ctx reg w owner gen changes = (reg', w', inl e) → torn e = false → same reg reg' ∧ (reg_ok reg → reg_ok reg').
Proof using.
  unfold ApplyOverlay. destruct (CanonicalOverlayOwner owner); [by intros [= <- <- <-]|]. destruct (bool_decide _); [by intros [= <- <- <-]|].
  destruct (bool_decide _); [by intros [= <- <- <-]|]. destruct (prepare_overlay _ _ _ _); [by intros [= <- <- <-]|].
  destruct (sortWithIndex _ _ _ _) as [r1 s1] eqn:E1. apply sortWithIndex_same in E1 as (S1 & O1 & _). destruct s1; [|by intros [= <- <- <-]].
  destruct (transition _ _ _ _) as [[w1 st] [te|]]; [|done]. destruct (after_failure _ _ _ _ _ _) as [[r3 w3] re] eqn:Ea. intros [= <- <- <-].
  destruct re; [done|]. intros _. by apply after_failure_kept in Ea as ->.
Qed.

Lemma candidate_reached D st0 c st : candidate_ok D st0 c → transitioned st0 (transitionOps c) st → NewStateMap st = effective c.
Proof using.
  intros Hc Ht. apply map_eq. intros id. destruct (decide (id ∈ opID <$> transitionOps c)) as [(op & -> & Hop)%list_elem_of_fmap|Hid].
  - rewrite (tr_effect _ _ _ Ht op Hop). by destruct (co_ops _ _ _ Hc op Hop) as [-> _].
  - rewrite (tr_other _ _ _ Ht id Hid). by rewrite (co_other _ _ _ Hc id Hid).
Qed.

Lemma transitioned_perm from cs cs' st : cs ≡ₚ cs' → NoDup (opID <$> cs) → transitioned from cs st → transitioned from cs' st.
Proof using.
  intros Hp Hn [H1 H2 H3 H4 H5]. split; [done|by apply (apply_perm cs)|..].
  - intros op. rewrite <- Hp. apply H3.
  - intros op. rewrite <- Hp. apply H4.
  - intros id. rewrite <- Hp. apply H5.
Qed.

Definition overlay_request_ok (changes : ChangeSet) : Prop := ∀ op, op ∈ changes → id_ok (Canonical (opID op)).

Lemma prepare_overlay_done reg owner changes c :
  reg_ok reg → overlay_request_ok changes → prepare_overlay r reg owner changes = inr c →
  candidate_ok (durable reg) (NewStateMap (state reg)) c ∧ settled (transitionOps c) ∧ ∀ id, is_Some (cOwners c !! id) → id_ok id.
Proof using.
  intros Hok Hreq. unfold prepare_overlay. destruct (overlay_loop _ _ _) as [|c'] eqn:El; [done|].
  destruct (validateRemovedOverlayDependencies _ _ _ _ _); [done|]. destruct (validateOverlayCompositionWithChanges _ _ _ _ _ _); [done|].
  intros [= ->]. pose proof (overlay_loop_scope _ _ _ _ El) as (H1 & H2 & H3). cbn in H1, H2, H3.
  assert (∀ id, id ∈ opID <$> canonicalizeChangeSetIDs changes → id_ok id) as Hids.
  { intros id (x & -> & Hx)%list_elem_of_fmap. unfold canonicalizeChangeSetIDs in Hx. apply list_elem_of_fmap in Hx as (op & -> & Hop).
    by apply Hreq. }
  pose proof (candidate_start _ _ _ _ (NewStateMap_keyed (state reg)) (ro_claims reg Hok)) as Hs.
  apply (overlay_loop_ok _ _ _ _ _ _ (proj1 (durable_canonical reg Hok)) Hs) in El. split_and!; [done| |].
  - split; [by apply El|]. intros op Hop. destruct (H1 op Hop) as [->|Hno%elem_of_nil]; [|done]. split; [|done].
    destruct (co_ops _ _ _ El op Hop) as [_ Hseen]. apply H2 in Hseen as [Hno|Hin]; [by apply not_elem_of_empty in Hno|by apply Hids].
  - intros id [Ho|Hin]%H3; [by apply (ro_owned reg Hok)|by apply Hids].
Qed.

Lemma ApplyOverlay_ok ctx reg w owner gen changes reg' w' g :
  reg_ok reg → overlay_request_ok changes → ApplyOverlay r compare ctx reg w owner gen changes = (reg', w', inr g) →
  reg_ok reg' ∧ durable reg' = durable reg.
Proof using HL.
  intros Hok Hreq. unfold ApplyOverlay. destruct (CanonicalOverlayOwner owner) as [|ow]; [done|]. destruct (bool_decide _); [done|].
  destruct (bool_decide _); [done|]. destruct (prepare_overlay _ _ _ _) as [|c] eqn:Ep; [done|].
  destruct (prepare_overlay_done _ _ _ _ Hok Hreq Ep) as (Hc & Hs & Hown). destruct (sortWithIndex _ _ _ _) as [r1 s1] eqn:E1.
  apply sortWithIndex_same in E1 as (S1 & O1 & E1). specialize (O1 Hok). destruct s1 as [sorted|]; [|done]. symmetry in E1.
  apply SortWithIndex_perm in E1; [|by apply settled_ops_ok]. assert (settled sorted) as Hss by (by eapply settled_perm).
  destruct (transition _ _ _ _) as [[w1 st] [te|]] eqn:Et; [by destruct (after_failure _ _ _ _ _ _) as [[? ?] ?]|]. intros [= <- <- _].
  apply transition_done in Et; [|by apply ro_ids|by apply Hss]. pose proof (λ d', patched_all r1 sorted st d' O1 Hss Et) as Hd.
  rewrite (sm_state _ _ S1) in Et. pose proof (transitioned_perm _ _ _ _ E1 (proj1 Hss) Et) as Etc.
  pose proof (candidate_reached _ _ _ _ Hc Etc) as Heff. pose proof (co_claims _ _ _ Hc) as Hcl. rewrite <- Heff in Hcl.
  assert (durable r1 = durable reg) as Hdur by (unfold durable; by rewrite (sm_version _ _ S1), (sm_history _ _ S1), (sm_baseline _ _ S1)).
  destruct (rebuild_same (ov r1) (durable reg) (cOwners c) (cShadows c) st (tr_ids _ _ _ Et) Hcl) as (R1 & R2 & R3 & _). cbn in R1, R2, R3. split.
  - split; cbn -[rebuildOverlayIndexes]; [by apply Et|done|done|done|by apply ro_storage|by apply ro_current|by apply ro_recorded|exact (ro_baseline r1 O1)|..].
    + rewrite R1, R2. change (claims_ok (durable r1) (NewStateMap st) (cOwners c) (cShadows c)). by rewrite Hdur.
    + rewrite R1. exact R3.
    + rewrite R1. exact Hown.
  - exact Hdur.
Qed.

(** ** Reachable registries *)

Definition intact {A} (res : reg_error + A) : Prop := match res with inl e => torn e = false | inr _ => True end.

Definition intact_opt (e : option reg_error) : Prop := from_option (λ e, torn e = false) True e.

Inductive reg_step (reg reg' : Reg) : Prop :=
| step_apply ctx w changes expect w' res : request_ok changes → applyLocked r compare digest ctx reg w changes expect = (reg', w', res) → intact res → reg_step reg reg'
| step_version ctx w v w' e : ApplyVersion r compare ctx reg w v = (reg', w', e) → intact_opt e → reg_step reg reg'
| step_load ctx w base target w' e : (∀ x, x ∈ base → id_ok (Canonical (eID x))) → versions (history reg) !! vid target = Some target →
    LoadState r compare ctx reg w base target = (reg', w', e) → intact_opt e → reg_step reg reg'
| step_overlay ctx w owner gen changes w' res : overlay_request_ok changes →
    ApplyOverlay r compare ctx reg w owner gen changes = (reg', w', res) → intact res → reg_step reg reg'.

Inductive reachable : Reg → Prop :=
| reachable_new h : storage_ok h → recorded_ok h → reachable (NewRegistry h)
| reachable_step reg reg' : reachable reg → reg_step reg reg' → reachable reg'.

Lemma NewRegistry_ok h : storage_ok h → recorded_ok h → reg_ok (NewRegistry h).
Proof using.
  intros Hst Hr. pose proof (so_root h Hst) as Hroot. split; cbn; [constructor|done|done|done|done|done|done|by intros e He%elem_of_nil| |..].
  - intros id. rewrite !lookup_empty. split; [done|]. unfold durable, replayChanges. cbn. by rewrite Hroot.
  - intros o e. rewrite !lookup_empty. split; [by intros ?%elem_of_nil|by intros [? _]].
  - intros id [x Hx]. by rewrite lookup_empty in Hx.
Qed.

Lemma step_ok reg reg' : reg_ok reg → reg_step reg reg' → reg_ok reg'.
Proof using HL Hcompare.
  intros Hok [ctx w cs ex w' res Hreq Ha Hi|ctx w v w' e Ha Hi|ctx w base t w' e Hb Ht Ha Hi|ctx w o g cs w' res Hreq Ha Hi].
  - destruct res as [e|v]; [|by eapply applyLocked_ok]. by apply applyLocked_refused in Ha as [_ Hk]; [apply Hk|].
  - destruct e as [e|]; [|by eapply ApplyVersion_ok]. by apply ApplyVersion_refused in Ha as ->.
  - destruct e as [e|]; [by apply LoadState_refused in Ha as ->|].
    apply LoadState_done in Ha; [tauto|by apply ro_ids|intros x; by apply state_canonical|by apply ro_storage|by apply ro_recorded|done|done].
  - destruct res as [e|v]; [|by eapply ApplyOverlay_ok]. by apply ApplyOverlay_refused in Ha as [_ Hk]; [apply Hk|].
Qed.

Lemma reachable_ok reg : reachable reg → reg_ok reg.
Proof using HL Hcompare. induction 1 as [h H1 H2|reg reg' _ IH Hs]; [by apply NewRegistry_ok|by eapply step_ok]. Qed.

(** ** What holds in every reachable registry *)


(** Reading an entry of a reachable registry finds it exactly when the published state
    has an entry under the canonical identifier, and gives that entry; the snapshot is the
    current version with the published state. *)
Theorem reachable_reads reg path :
  reachable reg →
  GetEntry reg path = match NewStateMap (state reg) !! Canonical path with Some e => Ok e | None => Err (EntryNotFoundErr (Canonical path)) end ∧
  Snapshot reg = (Current reg, GetAllEntries reg).
Proof using HL Hcompare.
  intros Hok%reachable_ok. split; [|exact (ro_snapshot reg Hok)]. unfold GetEntry. rewrite (ro_index reg Hok).
  pose proof (ro_ids reg Hok) as Hn. destruct (rebuildIndex (state reg) !! Canonical path) as [i|] eqn:Ei.
  - apply rebuildIndex_lookup in Ei as (e & He & Hid); [|done]. rewrite He.
    rewrite (proj2 (NewStateMap_Some (state reg) (Canonical path) e Hn)); [done|]. split; [by eapply list_elem_of_lookup_2|done].
  - destruct (NewStateMap (state reg) !! Canonical path) as [e|] eqn:Ee; [|done]. apply NewStateMap_Some in Ee as [He Hid]; [|done].
    apply list_elem_of_lookup in He as [i He]. rewrite (proj2 (rebuildIndex_lookup (state reg) (Canonical path) i Hn)) in Ei; [done|]. by exists e.
Qed.

Lemma baseline_canonical reg : reg_ok reg → (λ e, set_id e (Canonical (eID e))) <$> baseline reg = baseline reg.
Proof using.
  intros Hok. pose proof (ro_baseline reg Hok) as Hb. induction (baseline reg) as [|e l IH]; [done|].
  rewrite fmap_cons, IH by (intros x Hx; apply Hb; by right). by rewrite Canonical_ok, set_id_same by (apply Hb; by left).
Qed.


(** C24. An operation that is refused, or that fails and is rolled back, leaves the registry
    as it was: version, history, state, indexes, snapshot, revision and overlays. Only the
    dependency index may have been built and a version number used up. Durable changes,
    with or without a plan, moves between versions, boots and overlays are all so. *)
Theorem refused_unchanged ctx reg w reg' w' e :
  torn e = false →
  (∃ changes expect, applyLocked r compare digest ctx reg w changes expect = (reg', w', inl e)) ∨
  (∃ v, ApplyVersion r compare ctx reg w v = (reg', w', Some e)) ∨
  (∃ base target, LoadState r compare ctx reg w base target = (reg', w', Some e)) ∨
  (∃ owner gen changes, ApplyOverlay r compare ctx reg w owner gen changes = (reg', w', inl e)) →
  same reg reg'.
Proof using.
  intros Ht [(cs & ex & Ha)|[(v & Ha)|[(b & t & Ha)|(o & g & cs & Ha)]]].
  - by apply applyLocked_refused in Ha as [? _].
  - by apply ApplyVersion_refused in Ha as ->.
  - by apply LoadState_refused in Ha as ->.
  - by apply ApplyOverlay_refused in Ha as [? _].
Qed.

(** No other operations have the digest of the plan. *)
Definition collision_free (plan : Plan) : Prop :=
  ∀ all hist, digest all hist = Some (Digest plan) → all = Changes plan ∧ hist = PlanHistory plan.


(** C10. A process-local overlay never reaches the recorded state: applying one leaves the
    history, the version and the baseline alone, and durable changes that target an
    identifier some overlay claims are refused before anything is dispatched. *)
Theorem overlays_stay_local reg :
  reachable reg →
  (∀ ctx w owner gen changes reg' w' g, overlay_request_ok changes →
     ApplyOverlay r compare ctx reg w owner gen changes = (reg', w', inr g) → durable reg' = durable reg ∧ reachable reg') ∧
  (∀ changes r1 all hist op, request_ok changes → prepare_apply r reg changes = (r1, inr (all, hist)) → op ∈ changes →
     overlayOwners (ov reg) !! Canonical (opID op) = None).
Proof using HL Hcompare.
  intros Hr. pose proof (reachable_ok reg Hr) as Hok. split.
  - intros ctx w owner gen changes reg' w' g Hreq Ha. split; [by eapply ApplyOverlay_ok|].
    eapply reachable_step; [done|]. by eapply (step_overlay _ _ ctx w owner gen changes w' (inr g)).
  - intros changes r1 all hist op Hreq Hp Hop. destruct (prepare_apply_ops _ _ _ _ _ Hreq Hp) as (_ & _ & Hu & Hids).
    assert (Canonical (opID op) ∈ opID <$> all) as (x & -> & Hx)%list_elem_of_fmap; [|by apply Hu].
    rewrite Hids. apply list_elem_of_fmap. by exists op.
Qed.

End spec.

(** ** The bus runner as the registry's runner *)

Section bus_runner.
Context {World Ctx : Type}.
Variables (send : Ctx → World → bus_event → World) (wait : Ctx → World → string → World * reply)
          (prepare : Ctx → World → string → option err).
Variables (ctxErr : Ctx → World → option err) (cleanup : Ctx → Ctx).
Variables (HasSubscribers : World → string → bool) (kindHandled : option (string → bool)).
Variables (transactionParticipants : option (World → list string)) (policy : option (gset string)).
Variables (r : resolver) (compare : Entry → Entry → bool).

(** Without effects there is no abort hook; the runner counts its transactions. *)
Definition bus_transition (ctx : Ctx) (w : World * Z) (from : State) (cs : ChangeSet) : World * Z * State * option err :=
  match Transition send wait prepare ctxErr cleanup HasSubscribers kindHandled transactionParticipants policy r compare ctx w.2 w.1 from cs None with
  | Some (s, st, e) => ((world s, (nextTransactionPath w.2).2), stateMapToSlice st, e)
  | None => (w, from, Some (ErrPlain "no transition" None))
  end.

Instance bus_runner : RunnerOps (World * Z) Ctx :=
  {| transition := bus_transition; ctxDone := λ ctx w, bool_decide (is_Some (ctxErr ctx w.1)) |}.

(** The runner keeps what the registry relies on. *)
Instance bus_runner_laws : RunnerLaws (World * Z) Ctx.
Proof.
  split. intros ctx w from cs w' st Hn. cbn. unfold bus_transition.
  destruct (Transition_shape send wait prepare ctxErr cleanup HasSubscribers kindHandled transactionParticipants policy r compare ctx w.2 w.1 from cs None)
    as (s & m & e & -> & He). intros [= _ <- ->]. destruct He as (_ & acc & Hp & Ha).
  pose proof (keyed_apply_all _ _ _ (NewStateMap_keyed from) Ha) as Hk. split; [by apply slice_NoDup|].
  exists acc. by rewrite NewStateMap_slice.
Qed.
End bus_runner.

(** ** Worked examples *)

(** Listeners that accept everything but one entry *)
#[local] Instance demo_runner : RunnerOps (bool * option bus_event * Z) unit :=
  bus_runner demo_send demo_wait (λ _ _ _, None) (λ _ _, None) id (λ _ _, true) None None None NoResolver DeepEqual.
#[local] Instance demo_laws : RunnerLaws (bool * option bus_event * Z) unit :=
  bus_runner_laws demo_send demo_wait (λ _ _ _, None) (λ _ _, None) id (λ _ _, true) None None None NoResolver DeepEqual.

Lemma DeepEqual_eq a b : DeepEqual a b = true → a = b.
Proof. apply bool_decide_eq_true_1. Qed.

#[local] Instance Operation_eq_dec : EqDecision Operation.
Proof. solve_decision. Defined.

Definition planned_ops : ChangeSet := [mkOp None EntryCreate worker].

(** A digest that tells one plan from everything else *)
Definition demo_digest (all hist : ChangeSet) : option string := Some (if decide (all = planned_ops ∧ hist = planned_ops) then "planned" else "other").

Definition demo_world : bool * option bus_event * Z := (false, None, 0).

Definition creates : ChangeSet := [mkOp None EntryCreate svc; mkOp None EntryCreate db_url].
Definition patches : ChangeSet := [mkOp None EntryUpdate svc2].

(** Two entries are recorded, and an overlay then changes one of them. *)
Definition demo_applied := Apply NoResolver DeepEqual demo_digest tt (NewRegistry New) demo_world creates.
Definition demo_overlaid := ApplyOverlay NoResolver DeepEqual tt demo_applied.1.1 demo_world "dev" 0 patches.
Definition demo_reg : Reg := demo_overlaid.1.1.

Lemma demo_requests : request_ok creates ∧ overlay_request_ok patches.
Proof.
  split; [split|].
  - apply (bool_decide_unpack (NoDup _)). vm_compute. exact I.
  - apply Forall_forall, (bool_decide_unpack (Forall _ _)). vm_compute. exact I.
  - unfold overlay_request_ok. apply Forall_forall, (bool_decide_unpack (Forall _ _)). vm_compute. exact I.
Qed.

Lemma triple {A B C} (p : A * B * C) : p = (p.1.1, p.1.2, p.2).
Proof. by destruct p as [[? ?] ?]. Qed.

Lemma New_recorded : recorded_ok New.
Proof. intros i cs op. cbn. rewrite lookup_singleton_Some. by intros [_ <-] Hop%elem_of_nil. Qed.

Lemma registry_reachable : reachable NoResolver DeepEqual demo_digest demo_reg.
Proof.
  destruct demo_requests as [Hc Hp].
  apply (reachable_step _ _ _ demo_applied.1.1); [apply (reachable_step _ _ _ (NewRegistry New))|].
  - apply reachable_new; [apply New_ok|apply New_recorded].
  - apply (step_apply _ _ _ _ _ tt demo_world creates None demo_applied.1.2 demo_applied.2); [done|exact (triple demo_applied)|vm_compute; exact I].
  - apply (step_overlay _ _ _ _ _ tt demo_world "dev" 0 patches demo_overlaid.1.2 demo_overlaid.2); [done|exact (triple demo_overlaid)|vm_compute; exact I].
Qed.


Lemma reachable_reads_witness : GetEntry demo_reg (mkID "" "app:svc" "") = Ok svc2.
Proof.
  destruct (reachable_reads NoResolver DeepEqual demo_digest DeepEqual_eq demo_reg (mkID "" "app:svc" "") registry_reachable) as [-> _].
  vm_compute. reflexivity.
Defined.

Definition demo_booted := LoadState NoResolver DeepEqual tt (NewRegistry (history demo_reg)) demo_world (baseline demo_reg) (currentVersion demo_reg).


Definition demo_refused := Apply NoResolver DeepEqual demo_digest tt demo_reg demo_world [mkOp None EntryCreate broken].

Lemma refused_unchanged_witness :
  ∃ e, demo_refused.2 = inl e ∧ same demo_reg demo_refused.1.1.
Proof.
  destruct demo_refused.2 as [e|v] eqn:E; [|exfalso; vm_compute in E; discriminate E]. exists e. split; [reflexivity|].
  apply (refused_unchanged NoResolver DeepEqual demo_digest tt demo_reg demo_world _ demo_refused.1.2 e).
  - vm_compute in E. injection E as <-. reflexivity.
  - left. exists [mkOp None EntryCreate broken], None. rewrite <- E. exact (triple demo_refused).
Defined.

Definition demo_plan : Plan := mkPlan (currentVersion demo_reg) planned_ops planned_ops planned_ops "planned".

Lemma demo_planned : (MakePlan NoResolver demo_digest demo_reg (Some (currentVersion demo_reg)) planned_ops).2 = inr demo_plan.
Proof. vm_compute. reflexivity. Qed.

Definition demo_plan_applied := ApplyPlan NoResolver DeepEqual demo_digest tt demo_reg demo_world demo_plan.


Lemma overlays_stay_local_witness : durable demo_reg = durable demo_applied.1.1.
Proof.
  destruct demo_overlaid.2 as [e|g] eqn:E; [vm_compute in E; discriminate E|].
  assert (reachable NoResolver DeepEqual demo_digest demo_applied.1.1) as Hr.
  { apply (reachable_step _ _ _ (NewRegistry New)); [apply reachable_new; [apply New_ok|apply New_recorded]|].
    apply (step_apply _ _ _ _ _ tt demo_world creates None demo_applied.1.2 demo_applied.2); [apply demo_requests|exact (triple demo_applied)|vm_compute; exact I]. }
  apply (overlays_stay_local NoResolver DeepEqual demo_digest DeepEqual_eq demo_applied.1.1 Hr) with (ctx := tt) (w := demo_world) (owner := "dev")
    (gen := 0) (changes := patches) (w' := demo_overlaid.1.2) (g := g); [apply demo_requests|].
  rewrite <- E. exact (triple demo_overlaid).
Defined.

(** A changeset that creates and deletes the same identifier is outside [request_ok]. The
    deletion sorts first; the runner defers it past the creation, so the entry is gone, but
    the recorded order leaves it behind, and a boot from the history brings it back. *)
Definition demo_both := Apply NoResolver DeepEqual demo_digest tt (NewRegistry New) demo_world [mkOp None EntryCreate worker; mkOp None EntryDelete worker].

Lemma create_and_delete_diverge :
  demo_both.2 = inr (currentVersion demo_both.1.1) ∧ state demo_both.1.1 = [] ∧ durable demo_both.1.1 !! eID worker = Some worker.
Proof. split_and!; vm_compute; reflexivity. Qed.

End RegistrySpec.
