(* ===== verification/Wildcard.v ===== *)
(** * Wildcard patterns ([internal/wildcard/wildcard.go])

    Dotted patterns for event systems and kinds: [*] stands for one segment, [**] for any
    number of them, and [(a|b)] for one of several segments. [NewWildcard] compiles a
    pattern, with two fast paths, and [Match] compares a string with it. The theorem says
    that the compiled pattern accepts what the pattern means, segment by segment. *)

From S2P Require Import Prelude Bytes GoStrings.

Module Wildcard.

(** ** The code *)

Definition dot : ascii := "."%char.
Definition bar : ascii := "|"%char.
Definition star : list ascii := bytes_of "*".
Definition stars : list ascii := bytes_of "**".
Definition lparen : list ascii := bytes_of "(".
Definition rparen : list ascii := bytes_of ")".

Record Wildcard := mkWildcard { exactMatch : list ascii; segments : list (list ascii); isExact : bool; isStar : bool }.

Definition is_group (seg : list ascii) : bool := HasPrefix seg lparen && HasSuffix seg rparen.

Definition special (seg : list ascii) : bool := bool_decide (seg = star) || bool_decide (seg = stars) || is_group seg.

Definition NewWildcard (pattern : list ascii) : Wildcard :=
  if bool_decide (pattern = []) then mkWildcard [] [] false false else
  if bool_decide (pattern = star) then mkWildcard [] [] false true else
  let segments := Split pattern dot in
  if existsb special segments then mkWildcard [] segments false false
  else mkWildcard pattern segments true false.

(** The options of a group, cut off one after the other at the bars *)
Fixpoint match_options (fuel : nat) (remaining seg : list ascii) : bool :=
  match fuel with
  | O => false
  | S fuel =>
      match IndexByte remaining bar with
      | Some i => bool_decide (take i remaining = seg) || match_options fuel (drop (S i) remaining) seg
      | None => bool_decide (remaining = seg)
      end
  end.

Definition matchSegment (patternSegment strSegment : list ascii) : bool :=
  if is_group patternSegment then
    let remaining := slice patternSegment 1 (length patternSegment - 2) in
    match_options (S (length remaining)) remaining strSegment
  else bool_decide (patternSegment = strSegment).

(** Every way to drop a prefix, the longest rest first *)
Fixpoint suffixes (str : list (list ascii)) : list (list (list ascii)) :=
  str :: match str with [] => [] | _ :: str => suffixes str end.

Fixpoint matchSegments (pattern : list (list ascii)) : list (list ascii) → bool :=
  match pattern with
  | [] => λ str, bool_decide (str = [])
  | seg :: rest => λ str,
      match str with
      | [] => forallb (λ p, bool_decide (p = stars)) (seg :: rest)
      | s :: tl =>
          if bool_decide (seg = stars) then bool_decide (rest = []) || existsb (matchSegments rest) (suffixes (s :: tl))
          else if bool_decide (seg = star) then matchSegments rest tl
          else matchSegment seg s && matchSegments rest tl
      end
  end.

Definition Match (w : Wildcard) (str : list ascii) : bool :=
  if isStar w then negb (bool_decide (str = [])) && negb (ContainsByte str dot)
  else if isExact w then bool_decide (str = exactMatch w)
  else matchSegments (segments w) (Split str dot).

(** ** What patterns mean *)

Definition accepts (seg s : list ascii) : Prop :=
  if is_group seg then s ∈ Split (slice seg 1 (length seg - 2)) bar else seg = s.

Inductive matches : list (list ascii) → list (list ascii) → Prop :=
| matches_nil : matches [] []
| matches_none p s : matches p s → matches (stars :: p) s
| matches_more p x s : matches (stars :: p) s → matches (stars :: p) (x :: s)
| matches_star p x s : matches p s → matches (star :: p) (x :: s)
| matches_seg a p x s : a ≠ stars → a ≠ star → accepts a x → matches p s → matches (a :: p) (x :: s).

(** ** Splitting *)

Lemma Split_cons s c : ∃ p ps, Split s c = p :: ps.
Proof. destruct s as [|a s]; cbn; [by eexists _, _|]. destruct (bool_decide (a = c)); [by eexists _, _|]. destruct (Split s c); by eexists _, _. Qed.

Lemma Split_IndexByte s c :
  Split s c = match IndexByte s c with Some i => take i s :: Split (drop (S i) s) c | None => [s] end.
Proof.
  induction s as [|a s IH]; cbn [Split IndexByte]; [done|]. destruct (bool_decide_reflect (a = c)) as [->|Hne]; [done|].
  rewrite IH. by destruct (IndexByte s c).
Qed.

Fixpoint Join (ps : list (list ascii)) (c : ascii) : list ascii :=
  match ps with [] => [] | p :: ps => p ++ match ps with [] => [] | _ => c :: Join ps c end end.

Lemma Join_Split s c : Join (Split s c) c = s.
Proof.
  induction s as [|a s IH]; [done|]. cbn [Split]. destruct (Split_cons s c) as (p & ps & Hs). rewrite Hs in *.
  destruct (bool_decide_reflect (a = c)) as [->|Hne]; [|cbn; by f_equal]. change (Join ([] :: p :: ps) c) with (c :: Join (p :: ps) c). by rewrite IH.
Qed.

Lemma Split_inj s t c : Split s c = Split t c → s = t.
Proof. intros He. by rewrite <- (Join_Split s c), He, Join_Split. Qed.

Lemma Split_single s c : c ∉ s → Split s c = [s].
Proof. intros Hc. by rewrite Split_IndexByte, IndexByte_None. Qed.

(** ** Matching *)

Lemma match_options_spec fuel remaining seg :
  (length remaining < fuel)%nat → match_options fuel remaining seg = bool_decide (seg ∈ Split remaining bar).
Proof.
  revert remaining. induction fuel as [|fuel IH]; intros remaining Hl; [lia|]. cbn [match_options]. rewrite Split_IndexByte.
  destruct (IndexByte remaining bar) as [i|] eqn:Ei.
  - apply IndexByte_Some in Ei as [He _]. rewrite IH.
    + rewrite <- bool_decide_or. apply bool_decide_ext. rewrite elem_of_cons. naive_solver.
    + apply (f_equal length) in He. rewrite length_app in He. cbn in He. lia.
  - apply bool_decide_ext. rewrite list_elem_of_singleton. naive_solver.
Qed.

Lemma matchSegment_spec a x : matchSegment a x = true ↔ accepts a x.
Proof.
  unfold matchSegment, accepts. destruct (is_group a); [rewrite match_options_spec by lia|]; apply bool_decide_eq_true.
Qed.

Lemma elem_of_suffixes s t : t ∈ suffixes s ↔ ∃ k, s = k ++ t.
Proof.
  induction s as [|x s IH]; cbn [suffixes].
  - rewrite list_elem_of_singleton. split; [intros ->; by exists []|]. intros [k Hk]. by destruct k, t.
  - rewrite elem_of_cons, IH. split.
    + intros [->|[k ->]]; [by exists []|by exists (x :: k)].
    + intros [[|y k] Hk]; [by left|]. injection Hk as -> ->. right. by exists k.
Qed.

Lemma matches_stars p s : matches (stars :: p) s ↔ ∃ k t, s = k ++ t ∧ matches p t.
Proof.
  split.
  - remember (stars :: p) as q eqn:Hq. intros Hm. revert p Hq. induction Hm as [|q s Hm IH|q x s Hm IH|q x s Hm IH|a q x s H1 H2 H3 Hm IH]; intros p Hq.
    + done.
    + injection Hq as ->. by exists [], s.
    + destruct (IH p Hq) as (k & t & -> & Ht). by exists (x :: k), t.
    + done.
    + by injection Hq as -> ->.
  - intros (k & t & -> & Hm). induction k as [|x k IH]; [by constructor|]. by constructor.
Qed.

Lemma matches_end p : matches p [] ↔ Forall (λ a, a = stars) p.
Proof.
  split.
  - remember [] as s eqn:Hs. intros Hm. induction Hm; simplify_eq; constructor; auto.
  - induction 1 as [|a p -> _ IH]; [constructor|by constructor].
Qed.

Lemma matchSegments_end p : forallb (λ a, bool_decide (a = stars)) p = true ↔ matches p [].
Proof.
  rewrite matches_end, Forall_forall, forallb_forall. setoid_rewrite list_elem_of_In. setoid_rewrite bool_decide_eq_true. done.
Qed.
Lemma matchSegments_spec p s : matchSegments p s = true ↔ matches p s.
Proof.
  revert s. induction p as [|a p IH]; intros s; cbn [matchSegments].
  { rewrite bool_decide_eq_true. split; [intros ->; constructor|]. by inversion 1. }
  destruct s as [|x s]; [apply (matchSegments_end (a :: p))|]. destruct (bool_decide_reflect (a = stars)) as [->|Hs].
  - rewrite orb_true_iff, bool_decide_eq_true, matches_stars, existsb_exists. setoid_rewrite <- list_elem_of_In. setoid_rewrite elem_of_suffixes. split.
    + intros [->|(t & [k ->] & Ht%IH)]; [exists (x :: s), []; rewrite app_nil_r; split; [done|constructor]|by exists k, t].
    + intros (k & t & He & Ht). right. exists t. split; [by exists k|by apply IH].
  - destruct (bool_decide_reflect (a = star)) as [->|Hs'].
    + rewrite IH. split; [by constructor|]. by inversion 1.
    + rewrite andb_true_iff, IH, matchSegment_spec. split; [intros [H1 H2]; by constructor|]. by inversion 1.
Qed.

(** A pattern without anything special matches only itself. *)
Lemma matches_plain p s : existsb special p = false → matches p s ↔ p = s.
Proof.
  revert s. induction p as [|a p IH]; intros s Hp; [split; [by inversion 1|intros <-; constructor]|].
  cbn in Hp. apply orb_false_iff in Hp as [Ha Hp]. unfold special in Ha. rewrite !orb_false_iff, !bool_decide_eq_false in Ha. destruct Ha as [[H1 H2] H3].
  split.
  - inversion 1 as [| | | |a' p' x s' _ _ Hx Hm]; subst; try done. unfold accepts in Hx. rewrite H3 in Hx. f_equal; [done|by apply IH].
  - intros <-. constructor; [done|done|unfold accepts; by rewrite H3|by apply IH].
Qed.

(** A compiled pattern accepts exactly the strings that the pattern means. The pattern of
    a single star accepts a string of one segment that is not empty, the empty pattern
    accepts nothing, and any other pattern accepts a string when their segments match:
    two stars stand for any number of segments, one star for one segment, a group for any
    of its options, anything else for itself. *)
Theorem Match_spec pattern str :
  Match (NewWildcard pattern) str = true ↔
  if bool_decide (pattern = star) then str ≠ [] ∧ dot ∉ str
  else pattern ≠ [] ∧ matches (Split pattern dot) (Split str dot).
Proof.
  unfold NewWildcard. destruct (bool_decide_reflect (pattern = [])) as [->|Hne].
  { cbn. destruct (Split_cons str dot) as (p & ps & ->). split; [done|]. by intros [? _]. }
  destruct (bool_decide_reflect (pattern = star)) as [->|Hs].
  { unfold Match, ContainsByte. cbn [isStar]. rewrite andb_true_iff, !negb_true_iff, !bool_decide_eq_false. done. }
  destruct (existsb special (Split pattern dot)) eqn:Ex; unfold Match; cbn [isStar isExact segments exactMatch].
  - rewrite matchSegments_spec. naive_solver.
  - rewrite bool_decide_eq_true, (matches_plain _ _ Ex). split; [by intros ->|]. intros [_ He]. symmetry. by eapply Split_inj.
Qed.

(** The group pattern of the registry's operation events *)
Example operations_pattern :
  Match (NewWildcard (bytes_of "entry.(create|update|delete)")) (bytes_of "entry.update") = true ∧
  Match (NewWildcard (bytes_of "entry.(create|update|delete)")) (bytes_of "entry.accept") = false ∧
  Match (NewWildcard (bytes_of "registry.**")) (bytes_of "registry") = true.
Proof. split_and!; vm_compute; reflexivity. Qed.
End Wildcard.
