(* ===== verification/EventBus.v ===== *)
(** * The event bus ([system/eventbus/bus.go])

    Publishers and subscribers hand actions to a queue; one dispatcher goroutine swaps the
    queue out and works through it. The model is a transition system over the bus: the
    calls of the API, each up to the point where it leaves its action in the queue, the
    signal that follows it, the wake-up of the dispatcher, and the dispatcher's own steps,
    down to the choice it makes for each subscriber of an event. Contexts are numbers of
    which some are cancelled, at any time. A subscriber's channel is where deliveries go: a
    send that blocks is a step that has not happened. A reply channel is a request number.
    A call is one step up to its signal: taking an identifier or looking at a context and
    then queueing the action are not interleaved with other calls, which would only permute
    the identifiers, and the metrics are left out.

    The theorems hold for every interleaving: every request is answered exactly once, also
    across a shutdown, and can always be brought to its answer; a
    subscriber receives, in the order of publication, a part of the matching events that
    were published while it was subscribed, and all of them when nothing is cancelled; and
    after [Unsubscribe] has returned nothing more is delivered. *)

From stdpp Require Import pretty.
From S2P Require Import Prelude Bytes GoStrings Wildcard.

Module EventBus.
Import Wildcard.

Section bus.
Context {Data : Type}.

(** ** Data *)

Record Event := mkEvent { System : string; Kind : string; Path : string; eData : option Data }.

Record sub := mkSub { sctx : Z; system : option Wildcard; kind : option Wildcard; subID : string }.

Inductive action :=
| actSubscribe (req : Z) (s : sub)
| actUnsubscribe (req : Z) (id : string)
| actSend (ctx : Z) (e : Event)
| actProbe (req : Z) (sys k : string)
| actStop.

Inductive bus_error := CtxErr | ErrNilChannel | ErrBusClosed | ErrSubscribersCapReached.

Inductive answer := Subscribed (e : option bus_error) | Unsubscribed | Probed (found : bool).

(** What can be seen of the bus from outside, in order *)
Inductive entry :=
| Installed (s : sub)
| Removed (id : string)
| Published (e : Event)
| Delivered (id : string) (e : Event)
| Answered (req : Z) (a : answer).

(** Where the dispatcher is: waiting for the signal, in its batch, or going through the
    subscribers of an event *)
Inductive phase :=
| Idle
| Processing (rest : list action)
| Sending (ctx : Z) (e : Event) (todo expired : list string) (rest : list action)
| Exited.

Record Bus := mkBus {
  subscribers : gmap string sub;
  actionQueue : list action;
  actionReady : bool;
  signals : nat;
  dispatcher : phase;
  closed : bool;
  waiting : list Z;
  subscriberCounter : Z;
  requests : Z;
  cancelled : gset Z;
  log : list entry
}.

Definition DefaultMaxSubscribers : nat := Z.to_nat 4096.

Definition NewBus : Bus := mkBus ∅ [] false 0 Idle false [] 0 0 ∅ [].

(** ** Parts of a bus *)

Definition set_table (b : Bus) (t : gmap string sub) (more : list entry) : Bus :=
  mkBus t (actionQueue b) (actionReady b) (signals b) (dispatcher b) (closed b) (waiting b) (subscriberCounter b) (requests b) (cancelled b) (log b ++ more).

Definition set_phase (b : Bus) (p : phase) : Bus :=
  mkBus (subscribers b) (actionQueue b) (actionReady b) (signals b) p (closed b) (waiting b) (subscriberCounter b) (requests b) (cancelled b) (log b).

Definition note (b : Bus) (more : list entry) : Bus := set_table b (subscribers b) more.

(** ** The calls *)

Definition generateSubscriberID (b : Bus) : Bus * string :=
  let n := u64 (subscriberCounter b + 1) in
  (mkBus (subscribers b) (actionQueue b) (actionReady b) (signals b) (dispatcher b) (closed b) (waiting b) n (requests b) (cancelled b) (log b),
   "sub." +:+ pretty (Z.to_N n)).

(** A fresh reply channel *)
Definition request (b : Bus) : Bus * Z :=
  let q := requests b in
  (mkBus (subscribers b) (actionQueue b) (actionReady b) (signals b) (dispatcher b) (closed b) (waiting b) (subscriberCounter b) (q + 1) (cancelled b) (log b), q).

Definition wait_for_exit (b : Bus) (q : Z) : Bus :=
  mkBus (subscribers b) (actionQueue b) (actionReady b) (signals b) (dispatcher b) (closed b) (waiting b ++ [q]) (subscriberCounter b) (requests b) (cancelled b) (log b).

Definition push (b : Bus) (a : action) (stop : bool) : Bus :=
  mkBus (subscribers b) (actionQueue b ++ [a]) (actionReady b) (S (signals b)) (dispatcher b) (closed b || stop) (waiting b) (subscriberCounter b) (requests b) (cancelled b) (log b).

(** Up to the signal. A closed bus answers control requests itself; an unsubscription first
    waits for the dispatcher to exit. *)
Definition enqueueAction (b : Bus) (a : action) : Bus :=
  if closed b then
    match a with
    | actSubscribe q _ => note b [Answered q (Subscribed (Some ErrBusClosed))]
    | actUnsubscribe q _ => wait_for_exit b q
    | actProbe q _ _ => note b [Answered q (Probed false)]
    | actSend _ _ | actStop => b
    end
  else push b a false.

Definition filter_of (pattern : string) : option Wildcard :=
  if bool_decide (pattern = "") then None else Some (NewWildcard (bytes_of pattern)).

Definition SubscribeP (b : Bus) (ctx : Z) (sys k : string) (ch_nil : bool) : Bus * option bus_error :=
  if bool_decide (ctx ∈ cancelled b) then (b, Some CtxErr)
  else if ch_nil then (b, Some ErrNilChannel)
  else
    let '(b, id) := generateSubscriberID b in
    let '(b, q) := request b in
    (enqueueAction b (actSubscribe q (mkSub ctx (filter_of sys) (filter_of k) id)), None).

Definition Subscribe (b : Bus) (ctx : Z) (sys : string) (ch_nil : bool) : Bus * option bus_error := SubscribeP b ctx sys "" ch_nil.

Definition Unsubscribe (b : Bus) (id : string) : Bus := let '(b, q) := request b in enqueueAction b (actUnsubscribe q id).

Definition Send (b : Bus) (ctx : Z) (e : Event) : Bus := if bool_decide (ctx ∈ cancelled b) then b else enqueueAction b (actSend ctx e).

Definition HasSubscribers (b : Bus) (sys k : string) : Bus := let '(b, q) := request b in enqueueAction b (actProbe q sys k).

Definition Stop (b : Bus) : Bus := if closed b then b else push b actStop true.

(** ** The dispatcher *)

Definition accepts_event (s : sub) (sys k : string) : bool :=
  match system s with Some w => Match w (bytes_of sys) | None => true end &&
  match kind s with Some w => Match w (bytes_of k) | None => true end.

Definition matchesSubscriber (b : Bus) (sys k : string) : bool :=
  existsb (λ s, negb (bool_decide (sctx s ∈ cancelled b)) && accepts_event s sys k) (map_to_list (subscribers b)).*2.

(** The answers that a drained queue gets *)
Definition drained (a : action) : list entry :=
  match a with
  | actSubscribe q _ => [Answered q (Subscribed (Some ErrBusClosed))]
  | actUnsubscribe q _ => [Answered q Unsubscribed]
  | actProbe q _ _ => [Answered q (Probed false)]
  | actSend _ _ | actStop => []
  end.

Definition drainQueue (b : Bus) : Bus :=
  mkBus (subscribers b) [] (actionReady b) (signals b) (dispatcher b) (closed b) (waiting b) (subscriberCounter b) (requests b) (cancelled b)
        (log b ++ concat (drained <$> actionQueue b)).

(** The effect of every action but the publication of an event *)
Definition process (b : Bus) (a : action) (rest : list action) : Bus :=
  match a with
  | actSubscribe q s =>
      set_phase
        (if bool_decide (sctx s ∈ cancelled b) then note b [Answered q (Subscribed (Some CtxErr))]
         else if bool_decide (DefaultMaxSubscribers ≤ size (subscribers b))%nat then note b [Answered q (Subscribed (Some ErrSubscribersCapReached))]
         else set_table b (<[subID s := s]> (subscribers b)) [Installed s; Answered q (Subscribed None)]) (Processing rest)
  | actUnsubscribe q id => set_phase (set_table b (delete id (subscribers b)) [Removed id; Answered q Unsubscribed]) (Processing rest)
  | actSend _ _ => set_phase b (Processing rest)
  | actProbe q sys k => set_phase (note b [Answered q (Probed (matchesSubscriber b sys k))]) (Processing rest)
  | actStop => set_phase (drainQueue (set_table b ∅ [])) Exited
  end.

Definition cleanup (b : Bus) (expired : list string) (rest : list action) : Bus :=
  set_phase (set_table b (foldl (λ t id, delete id t) (subscribers b) expired) (Removed <$> expired)) (Processing rest).

Definition is_send (a : action) : bool := match a with actSend _ _ => true | _ => false end.

Inductive step (b : Bus) : Bus → Prop :=
| step_cancel c : step b (mkBus (subscribers b) (actionQueue b) (actionReady b) (signals b) (dispatcher b) (closed b) (waiting b) (subscriberCounter b)
                                (requests b) ({[c]} ∪ cancelled b) (log b))
| step_subscribe ctx sys k ch_nil : step b (SubscribeP b ctx sys k ch_nil).1
| step_unsubscribe id : step b (Unsubscribe b id)
| step_send ctx e : step b (Send b ctx e)
| step_probe sys k : step b (HasSubscribers b sys k)
| step_stop : step b (Stop b)
| step_signal n : signals b = S n →
    step b (mkBus (subscribers b) (actionQueue b) true n (dispatcher b) (closed b) (waiting b) (subscriberCounter b) (requests b) (cancelled b) (log b))
| step_wake : dispatcher b = Idle → actionReady b = true →
    step b (mkBus (subscribers b) [] false (signals b) (if bool_decide (actionQueue b = []) then Idle else Processing (actionQueue b))
                  (closed b) (waiting b) (subscriberCounter b) (requests b) (cancelled b) (log b))
| step_batch_done : dispatcher b = Processing [] → step b (set_phase b Idle)
| step_action a rest : dispatcher b = Processing (a :: rest) → is_send a = false → step b (process b a rest)
| step_send_skip ctx e rest : dispatcher b = Processing (actSend ctx e :: rest) → ctx ∈ cancelled b → step b (set_phase b (Processing rest))
| step_send_start ctx e rest todo : dispatcher b = Processing (actSend ctx e :: rest) → ctx ∉ cancelled b → todo ≡ₚ (map_to_list (subscribers b)).*1 →
    step b (set_phase (note b [Published e]) (Sending ctx e todo [] rest))
| step_filtered ctx e id todo expired rest s : dispatcher b = Sending ctx e (id :: todo) expired rest → subscribers b !! id = Some s →
    accepts_event s (System e) (Kind e) = false → step b (set_phase b (Sending ctx e todo expired rest))
| step_deliver ctx e id todo expired rest s : dispatcher b = Sending ctx e (id :: todo) expired rest → subscribers b !! id = Some s →
    accepts_event s (System e) (Kind e) = true → step b (set_phase (note b [Delivered id e]) (Sending ctx e todo expired rest))
| step_expire ctx e id todo expired rest s : dispatcher b = Sending ctx e (id :: todo) expired rest → subscribers b !! id = Some s →
    accepts_event s (System e) (Kind e) = true → sctx s ∈ cancelled b → step b (set_phase b (Sending ctx e todo (expired ++ [id]) rest))
| step_abort ctx e id todo expired rest s : dispatcher b = Sending ctx e (id :: todo) expired rest → subscribers b !! id = Some s →
    accepts_event s (System e) (Kind e) = true → ctx ∈ cancelled b → step b (cleanup b expired rest)
| step_all_sent ctx e expired rest : dispatcher b = Sending ctx e [] expired rest → step b (cleanup b expired rest)
| step_exited q w1 w2 : dispatcher b = Exited → waiting b = w1 ++ q :: w2 →
    step b (mkBus (subscribers b) (actionQueue b) (actionReady b) (signals b) Exited (closed b) (w1 ++ w2) (subscriberCounter b) (requests b)
                  (cancelled b) (log b ++ [Answered q Unsubscribed])).

Inductive reachable : Bus → Prop :=
| reachable_new : reachable NewBus
| reachable_step b b' : reachable b → step b b' → reachable b'.

(** ** Requests and their answers *)

Definition batch (p : phase) : list action := match p with Processing rest | Sending _ _ _ _ rest => rest | Idle | Exited => [] end.

(** Every action that the dispatcher has still to look at, in order *)
Definition acts (b : Bus) : list action := batch (dispatcher b) ++ actionQueue b.

Definition req_of (a : action) : option Z :=
  match a with actSubscribe q _ | actUnsubscribe q _ | actProbe q _ _ => Some q | actSend _ _ | actStop => None end.

Definition answer_of (x : entry) : option Z := match x with Answered q _ => Some q | _ => None end.

Definition answered (b : Bus) : list Z := omap answer_of (log b).

Definition pending (b : Bus) : list Z := omap req_of (acts b) ++ waiting b.

(** A stop is the last action there is. *)
Definition stops_last (b : Bus) : Prop :=
  match dispatcher b with
  | Exited => closed b = true ∧ actionQueue b = [] ∧ subscribers b = ∅
  | _ => if closed b then ∃ pre, acts b = pre ++ [actStop] ∧ actStop ∉ pre else actStop ∉ acts b
  end.

Record ctl_ok (b : Bus) : Prop := {
  ok_count : 0 ≤ requests b;
  ok_once : answered b ++ pending b ≡ₚ seqZ 0 (requests b);
  ok_stop : stops_last b;
  ok_open : closed b = false → waiting b = [];
  ok_wake : actionQueue b ≠ [] → actionReady b = true ∨ (0 < signals b)%nat
}.

Lemma new_ctl : ctl_ok NewBus.
Proof. split; cbn; [done|done|apply not_elem_of_nil|done|done]. Qed.

Lemma answered_note b t more : answered (set_table b t more) = answered b ++ omap answer_of more.
Proof. unfold answered. cbn. apply omap_app. Qed.

Lemma seqZ_next n : 0 ≤ n → seqZ 0 (n + 1) = seqZ 0 n ++ [n].
Proof. intros Hn. by rewrite seqZ_app, Z.add_0_l by lia. Qed.

(** Rearrangements of lists of requests, by counting *)
Lemma count_perm (l k : list Z) : (∀ x, count_occ Z.eq_dec l x = count_occ Z.eq_dec k x) ↔ l ≡ₚ k.
Proof. symmetry. apply (Permutation_count_occ Z.eq_dec). Qed.

Ltac count :=
  rewrite <- count_perm in *; intros ?q; repeat match goal with H : ∀ x : Z, count_occ _ _ _ = count_occ _ _ _ |- _ => specialize (H q) end;
  rewrite ?omap_app, ?count_occ_app in *; cbn [count_occ omap list_omap req_of answer_of] in *; rewrite ?omap_app, ?count_occ_app in *; repeat (destruct (Z.eq_dec _ _); simplify_eq); lia.

(** Giving a request its place: an answer, the queue or the wait for the exit *)
Lemma placed_once (A P W A' P' W' : list Z) n :
  0 ≤ n → A ++ P ++ W ≡ₚ seqZ 0 n → A' ++ P' ++ W' ≡ₚ n :: A ++ P ++ W → A' ++ P' ++ W' ≡ₚ seqZ 0 (n + 1).
Proof. intros Hn H1 H2. rewrite seqZ_next by done. rewrite H2, H1. apply Permutation_cons_append. Qed.

Lemma stops_last_push b a : stops_last b → closed b = false → a ≠ actStop → stops_last (push b a false).
Proof.
  unfold stops_last, acts. cbn. intros H Hc Ha. rewrite Hc in *. cbn [orb]. destruct (dispatcher b); cbn [batch] in *.
  4: { destruct H as [? _]. congruence. }
  all: rewrite ?app_nil_l, ?app_assoc in *; rewrite elem_of_app, list_elem_of_singleton; intros [?|?]; congruence.
Qed.

Lemma enqueue_ctl b a q :
  ctl_ok b → req_of a = Some q → q = requests b → ctl_ok (enqueueAction (request b).1 a).
Proof.
  intros [H0 H1 H2 H3 H4] Ha ->. unfold enqueueAction, request. cbn [fst closed]. unfold pending in H1. destruct (closed b) eqn:Ec.
  - destruct a as [q s|q id| |q sys k|]; try done; injection Ha as ->; (split; cbn; [lia| |unfold stops_last in *; cbn; by rewrite Ec in *|done|done]);
      unfold answered, pending, acts in *; cbn in *; (eapply placed_once; [done|exact H1|]); count.
  - split; cbn; [lia| |apply stops_last_push; [|done|by destruct a]|done|intros _; right; lia].
    + unfold answered, pending, acts in *. cbn [push log dispatcher actionQueue waiting]. eapply placed_once; [done|exact H1|].
      rewrite !omap_app. cbn [omap list_omap]. rewrite Ha. count.
    + unfold stops_last, acts in *. cbn. by rewrite Ec in *.
Qed.

Lemma send_ctl b ctx e : ctl_ok b → ctl_ok (enqueueAction b (actSend ctx e)).
Proof.
  intros Hok. unfold enqueueAction. destruct (closed b) eqn:Ec; [done|]. destruct Hok as [H0 H1 H2 H3 H4].
  split; cbn; [done| |by apply stops_last_push|by rewrite orb_false_r|intros _; right; lia].
  unfold answered, pending, acts in *. cbn in *. rewrite <- H1, !omap_app. cbn. by rewrite app_nil_r.
Qed.

Lemma stop_ctl b : ctl_ok b → ctl_ok (Stop b).
Proof.
  intros Hok. unfold Stop. destruct (closed b) eqn:Ec; [done|]. destruct Hok as [H0 H1 H2 H3 H4].
  split; cbn; [done| | |by rewrite Ec|intros _; right; lia].
  - unfold answered, pending, acts in *. cbn in *. rewrite <- H1, !omap_app. cbn. by rewrite app_nil_r.
  - unfold stops_last, acts in *. cbn. rewrite Ec in *. cbn. destruct (dispatcher b); [..|by destruct H2];
      (eexists; split; [apply app_assoc|done]).
Qed.

(** Moving along in the batch *)
Lemma move_ctl b b' a more :
  ctl_ok b → acts b = a :: acts b' → a ≠ actStop → dispatcher b' ≠ Exited → dispatcher b ≠ Exited →
  requests b' = requests b → closed b' = closed b → waiting b' = waiting b → actionQueue b' = actionQueue b → actionReady b' = actionReady b →
  signals b' = signals b → log b' = log b ++ more → omap answer_of more = option_list (req_of a) → ctl_ok b'.
Proof.
  intros [H0 H1 H2 H3 H4] Ha Hs Hx Hx' Er Ec Ew Eq Ey Eg El Hm. split; rewrite ?Er, ?Ec, ?Ew, ?Eq, ?Ey, ?Eg; try done.
  - rewrite <- H1. unfold answered, pending. rewrite El, Ew, Ha, omap_app, Hm. cbn [omap list_omap]. destruct (req_of a); cbn; [|by rewrite app_nil_r].
    by rewrite <- app_assoc.
  - assert (if closed b' then ∃ pre, acts b' = pre ++ [actStop] ∧ actStop ∉ pre else actStop ∉ acts b') as Hg.
    { assert (if closed b then ∃ pre, acts b = pre ++ [actStop] ∧ actStop ∉ pre else actStop ∉ acts b) as Hg.
      { unfold stops_last in H2. by destruct (dispatcher b). }
      rewrite Ec. rewrite Ha in Hg. destruct (closed b); [|set_solver]. destruct Hg as ([|x pre] & He & Hn); [by injection He as -> _|].
      injection He as -> He. exists pre. split; [done|set_solver]. }
    unfold stops_last. by destruct (dispatcher b').
Qed.

(** The same position in the batch *)
Lemma stay_ctl b b' more :
  ctl_ok b → acts b' = acts b → dispatcher b' ≠ Exited → dispatcher b ≠ Exited →
  requests b' = requests b → closed b' = closed b → waiting b' = waiting b → actionQueue b' = actionQueue b → actionReady b' = actionReady b →
  signals b' = signals b → log b' = log b ++ more → omap answer_of more = [] → ctl_ok b'.
Proof.
  intros [H0 H1 H2 H3 H4] Ha Hx Hx' Er Ec Ew Eq Ey Eg El Hm. split; rewrite ?Er, ?Ec, ?Ew, ?Eq, ?Ey, ?Eg; try done.
  - unfold answered, pending. by rewrite El, Ew, Ha, omap_app, Hm, app_nil_r.
  - unfold stops_last in *. rewrite Ha, Ec. by destruct (dispatcher b), (dispatcher b').
Qed.

Lemma removed_no_answer (l : list string) : omap answer_of (Removed <$> l) = [].
Proof. by induction l. Qed.

Lemma exit_ctl b rest : ctl_ok b → dispatcher b = Processing (actStop :: rest) → rest = [] ∧ actionQueue b = [] ∧ closed b = true ∧ ctl_ok (process b actStop rest).
Proof.
  intros [H0 H1 H2 H3 H4] Hd. unfold stops_last, pending, acts in *. rewrite Hd in *. cbn [batch] in *.
  assert (rest = [] ∧ actionQueue b = [] ∧ closed b = true) as (-> & Hq & Hc).
  { destruct (closed b); [|set_solver]. destruct H2 as ([|x pre] & He & Hn); [|injection He as <- _; set_solver].
    injection He as He. by apply app_eq_nil in He as [-> ->]. }
  split_and!; [done..|]. split; cbn; [done| |done| |done].
  - unfold answered, pending, acts in *. cbn. rewrite Hq in *. cbn in *. by rewrite !app_nil_r in *.
  - intros Hf. congruence.
Qed.

Lemma process_ctl b a rest : ctl_ok b → dispatcher b = Processing (a :: rest) → is_send a = false → ctl_ok (process b a rest).
Proof.
  intros Hok Hd Ha. assert (acts b = a :: rest ++ actionQueue b) as Hacts by (unfold acts; by rewrite Hd).
  destruct a as [q s|q id| |q sys k|]; [..|by apply exit_ctl]; try done; cbn [process].
  - destruct (bool_decide _); [|destruct (bool_decide _)]; (eapply (move_ctl b _ _ _ Hok); [exact Hacts|done|done|by rewrite Hd|done..]).
  - eapply (move_ctl b _ _ _ Hok); [exact Hacts|done|done|by rewrite Hd|done..].
  - eapply (move_ctl b _ _ _ Hok); [exact Hacts|done|done|by rewrite Hd|done..].
Qed.

Lemma step_ctl b b' : ctl_ok b → step b b' → ctl_ok b'.
Proof.
  intros Hok Hs. pose proof Hok as [H0 H1 H2 H3 H4].
  destruct Hs as [c|ctx sys k nl|id|ctx e|sys k| |n Hn|Hd Hr|Hd|a rest Hd Ha|ctx e rest Hd Hc|ctx e rest left Hd Hc Hp
    |ctx e id left ex rest s Hd Hl Hf|ctx e id left ex rest s Hd Hl Hf|ctx e id left ex rest s Hd Hl Hf Hc|ctx e id left ex rest s Hd Hl Hf Hc|ctx e ex rest Hd|q w1 w2 Hd Hw].
  - done.
  - unfold SubscribeP. destruct (bool_decide _); [done|]. destruct nl; [done|]. by apply (enqueue_ctl (generateSubscriberID b).1 _ (requests b)).
  - by apply (enqueue_ctl b _ (requests b)).
  - unfold Send. destruct (bool_decide _); [done|]. by apply send_ctl.
  - by apply (enqueue_ctl b _ (requests b)).
  - by apply stop_ctl.
  - split; try done. by left.
  - assert (batch (if bool_decide (actionQueue b = []) then Idle else Processing (actionQueue b)) = actionQueue b) as Hb by (by case_bool_decide).
    unfold stops_last, answered, pending, acts in *. rewrite Hd in *. cbn [batch] in *. rewrite app_nil_l in *.
    split; cbn; [done| | |done|done]; unfold answered, pending, stops_last, acts; cbn; rewrite Hb, app_nil_r; [done|]. by case_bool_decide.
  - apply (stay_ctl b _ [] Hok); unfold acts; try rewrite Hd; try done. by rewrite app_nil_r.
  - by apply process_ctl.
  - apply (move_ctl b _ (actSend ctx e) [] Hok); unfold acts; try rewrite Hd; try done. by rewrite app_nil_r.
  - apply (move_ctl b _ (actSend ctx e) [Published e] Hok); unfold acts; try rewrite Hd; done.
  - apply (stay_ctl b _ [] Hok); unfold acts; try rewrite Hd; try done. by rewrite app_nil_r.
  - apply (stay_ctl b _ [Delivered id e] Hok); unfold acts; try rewrite Hd; done.
  - apply (stay_ctl b _ [] Hok); unfold acts; try rewrite Hd; try done. by rewrite app_nil_r.
  - apply (stay_ctl b _ (Removed <$> ex) Hok); unfold acts; try rewrite Hd; try done. apply removed_no_answer.
  - apply (stay_ctl b _ (Removed <$> ex) Hok); unfold acts; try rewrite Hd; try done. apply removed_no_answer.
  - unfold stops_last in H2. rewrite Hd in H2. split; cbn; [done| | |intros Hf; destruct H2 as [? _]; congruence|done].
    + rewrite <- H1. unfold answered, pending, acts. cbn. rewrite Hd, Hw. cbn [batch]. rewrite app_nil_l. count.
    + done.
Qed.

Lemma reachable_ctl b : reachable b → ctl_ok b.
Proof. induction 1 as [|b b' _ IH Hs]; [apply new_ctl|by eapply step_ctl]. Qed.

(** ** Deliveries *)

(** Following one subscription through the log: whether it is installed, and the events
    that were published for it *)
Definition track (id : string) (acc : option sub * list Event) (x : entry) : option sub * list Event :=
  match x with
  | Installed s => if bool_decide (subID s = id) then (Some s, acc.2) else acc
  | Removed j => if bool_decide (j = id) then (None, acc.2) else acc
  | Published e => match acc.1 with Some s => (Some s, acc.2 ++ if accepts_event s (System e) (Kind e) then [e] else []) | None => acc end
  | Delivered _ _ | Answered _ _ => acc
  end.

Definition tracked (id : string) (l : list entry) : option sub * list Event := foldl (track id) (None, []) l.

(** The matching events that were published while the subscription was installed *)
Definition expected (id : string) (l : list entry) : list Event := (tracked id l).2.

Definition deliveries (id : string) (l : list entry) : list Event :=
  omap (λ x, match x with Delivered j e => if bool_decide (j = id) then Some e else None | _ => None end) l.

(** A part of the events, in order, and all of them as long as nothing was cancelled *)
Definition received (c : gset Z) (got due : list Event) : Prop := got `sublist_of` due ∧ (c = ∅ → got = due).

Definition due_now (b : Bus) (id : string) (e : Event) : list Event :=
  match subscribers b !! id with Some s => if accepts_event s (System e) (Kind e) then [e] else [] | None => [] end.

Definition id_received (b : Bus) (id : string) : Prop :=
  match dispatcher b with
  | Sending _ e todo _ _ =>
      if bool_decide (id ∈ todo) then ∃ pre, expected id (log b) = pre ++ due_now b id e ∧ received (cancelled b) (deliveries id (log b)) pre
      else received (cancelled b) (deliveries id (log b)) (expected id (log b))
  | _ => received (cancelled b) (deliveries id (log b)) (expected id (log b))
  end.

Record dlv_ok (b : Bus) : Prop := {
  dl_active : dispatcher b ≠ Exited → ∀ id, (tracked id (log b)).1 = subscribers b !! id;
  dl_left : match dispatcher b with Sending _ _ todo _ _ => NoDup todo ∧ ∀ id, id ∈ todo → is_Some (subscribers b !! id) | _ => True end;
  dl_received : ∀ id, id_received b id
}.

Lemma tracked_app id l k : tracked id (l ++ k) = foldl (track id) (tracked id l) k.
Proof. unfold tracked. by rewrite foldl_app. Qed.

Lemma deliveries_app id l k : deliveries id (l ++ k) = deliveries id l ++ deliveries id k.
Proof. apply omap_app. Qed.

(** Entries that concern neither publication nor delivery nor the table *)
Definition silent (x : entry) : bool := match x with Answered _ _ => true | _ => false end.

Lemma silent_log id l k : forallb silent k = true → tracked id (l ++ k) = tracked id l ∧ deliveries id (l ++ k) = deliveries id l.
Proof.
  intros Hk. rewrite tracked_app, deliveries_app. induction k as [|x k IH]; [by rewrite app_nil_r|]. cbn in Hk. apply andb_true_iff in Hk as [Hx Hk].
  destruct x; try done. cbn. by apply IH.
Qed.

Lemma received_all c l : received c l l.
Proof. done. Qed.

Lemma received_more c got pre due : received c got pre → c ≠ ∅ → received c got (pre ++ due).
Proof. intros [Hs _] Hc. split; [by apply sublist_inserts_r|done]. Qed.

(** Steps that leave the deliveries alone *)
Lemma quiet_dlv b b' k :
  dlv_ok b → log b' = log b ++ k → forallb silent k = true → subscribers b' = subscribers b → (cancelled b' = ∅ → cancelled b = ∅) →
  dispatcher b' = dispatcher b → dlv_ok b'.
Proof.
  intros [H1 H2 H3] Hl Hk Ht Hc Hd. split; rewrite ?Hd, ?Ht.
  - intros Hx id. rewrite Hl. destruct (silent_log id (log b) k Hk) as [-> _]. by apply H1.
  - done.
  - intros id. specialize (H3 id). unfold id_received, due_now, expected in *. rewrite Hd, Hl, Ht. destruct (silent_log id (log b) k Hk) as [-> ->].
    unfold received in *. destruct (dispatcher b); [naive_solver..| |naive_solver]. destruct (bool_decide _); naive_solver.
Qed.

(** Steps between events *)
Lemma settled_dlv b b' :
  dlv_ok b → log b' = log b → subscribers b' = subscribers b → cancelled b' = cancelled b →
  (match dispatcher b with Sending _ _ _ _ _ | Exited => False | _ => True end) →
  (match dispatcher b' with Sending _ _ _ _ _ => False | _ => True end) → dlv_ok b'.
Proof.
  intros [H1 H2 H3] Hl Ht Hc Hd Hd'. split; rewrite ?Hl, ?Ht.
  - intros _. apply H1. by destruct (dispatcher b).
  - by destruct (dispatcher b').
  - intros id. specialize (H3 id). unfold id_received in *. rewrite Hl, Hc. by destruct (dispatcher b), (dispatcher b').
Qed.

Definition sending (p : phase) : bool := match p with Sending _ _ _ _ _ => true | _ => false end.

(** Changes of the table between events *)
Lemma table_dlv b b' k :
  (∀ id, received (cancelled b) (deliveries id (log b)) (expected id (log b))) → sending (dispatcher b') = false →
  log b' = log b ++ k → (∀ id, deliveries id k = []) → (∀ id, (foldl (track id) (tracked id (log b)) k).2 = expected id (log b)) →
  (dispatcher b' ≠ Exited → ∀ id, (foldl (track id) (tracked id (log b)) k).1 = subscribers b' !! id) → cancelled b' = cancelled b → dlv_ok b'.
Proof.
  intros Hr Hp Hl Hk He Ha Hc. split.
  - intros Hx id. rewrite Hl, tracked_app. by apply Ha.
  - by destruct (dispatcher b').
  - intros id. specialize (Hr id). assert (received (cancelled b') (deliveries id (log b')) (expected id (log b'))) as Hg.
    { unfold expected. by rewrite Hl, Hc, deliveries_app, Hk, app_nil_r, tracked_app, He. }
    unfold id_received. by destruct (dispatcher b').
Qed.

Lemma between_received b : dlv_ok b → sending (dispatcher b) = false → ∀ id, received (cancelled b) (deliveries id (log b)) (expected id (log b)).
Proof. intros [_ _ H] Hs id. specialize (H id). unfold id_received in H. by destruct (dispatcher b). Qed.

Lemma removed_tracks (ids : list string) id acc :
  (foldl (track id) acc (Removed <$> ids)).2 = acc.2 ∧ (foldl (track id) acc (Removed <$> ids)).1 = if bool_decide (id ∈ ids) then None else acc.1.
Proof.
  revert acc. induction ids as [|j ids IH]; intros acc; [done|]. cbn [fmap list_fmap foldl track]. destruct (IH (if bool_decide (j = id) then (None, acc.2) else acc)) as [-> ->].
  destruct (bool_decide_reflect (j = id)) as [->|Hne].
  - split; [done|]. cbn. rewrite (bool_decide_eq_true_2 (id ∈ id :: ids)) by (by left). by destruct (bool_decide _).
  - split; [done|]. rewrite (bool_decide_ext (id ∈ j :: ids) (id ∈ ids)); [done|]. rewrite elem_of_cons. naive_solver.
Qed.

Lemma deletes_lookup (t : gmap string sub) (ids : list string) id :
  foldl (λ t id, delete id t) t ids !! id = if bool_decide (id ∈ ids) then None else t !! id.
Proof.
  revert t. induction ids as [|j ids IH]; intros t; [done|]. cbn [foldl]. rewrite IH. destruct (decide (j = id)) as [->|Hne].
  - rewrite lookup_delete_eq, (bool_decide_eq_true_2 (id ∈ id :: ids)) by (by left). by destruct (bool_decide _).
  - rewrite lookup_delete_ne by done. rewrite (bool_decide_ext (id ∈ j :: ids) (id ∈ ids)); [done|]. rewrite elem_of_cons. naive_solver.
Qed.

Lemma cleanup_dlv b ex rest :
  (∀ id, (tracked id (log b)).1 = subscribers b !! id) → (∀ id, received (cancelled b) (deliveries id (log b)) (expected id (log b))) → dlv_ok (cleanup b ex rest).
Proof.
  intros Ha Hr. apply (table_dlv b _ (Removed <$> ex)); [done|done|done| | | |done].
  - intros id. unfold deliveries. by induction ex.
  - intros id. by destruct (removed_tracks ex id (tracked id (log b))) as [-> _].
  - intros _ id. cbn. destruct (removed_tracks ex id (tracked id (log b))) as [_ ->]. by rewrite deletes_lookup, Ha.
Qed.

Lemma process_dlv b a rest : dlv_ok b → dispatcher b = Processing (a :: rest) → dlv_ok (process b a rest).
Proof.
  intros Hok Hd. assert (∀ id, (tracked id (log b)).1 = subscribers b !! id) as Ha by (apply (dl_active b Hok); by rewrite Hd).
  assert (∀ id, received (cancelled b) (deliveries id (log b)) (expected id (log b))) as Hr by (apply between_received; [done|by rewrite Hd]).
  destruct a as [q s|q id| |q sys k|]; cbn [process].
  - destruct (bool_decide _); [by apply (table_dlv b _ [Answered q (Subscribed (Some CtxErr))])|].
    destruct (bool_decide _); [by apply (table_dlv b _ [Answered q (Subscribed (Some ErrSubscribersCapReached))])|].
    apply (table_dlv b _ [Installed s; Answered q (Subscribed None)]); [done|done|done|done| | |done]; cbn -[insert].
    + intros id. by destruct (bool_decide _).
    + intros _ id. destruct (bool_decide_reflect (subID s = id)) as [<-|Hne]; [by rewrite lookup_insert_eq|]. by rewrite lookup_insert_ne, Ha.
  - apply (table_dlv b _ [Removed id; Answered q Unsubscribed]); [done|done|done|done| | |done]; cbn -[delete].
    + intros j. by destruct (bool_decide _).
    + intros _ j. destruct (bool_decide_reflect (id = j)) as [<-|Hne]; [by rewrite lookup_delete_eq|]. by rewrite lookup_delete_ne, Ha.
  - apply (table_dlv b _ []); [done|done|by rewrite app_nil_r|done|done|done|done].
  - by apply (table_dlv b _ [Answered q (Probed (matchesSubscriber b sys k))]).
  - apply (table_dlv b _ (concat (drained <$> actionQueue b))); [done|done| | | |done|done].
    + cbn. by rewrite app_nil_r.
    + intros j. unfold deliveries. induction (actionQueue b) as [|x l IH]; [done|]. cbn [fmap list_fmap concat]. rewrite omap_app, IH, app_nil_r. by destruct x.
    + intros j. unfold expected. generalize (tracked j (log b)). induction (actionQueue b) as [|x l IH]; intros acc; [done|].
      cbn [fmap list_fmap concat]. rewrite foldl_app, IH. by destruct x.
Qed.

Lemma start_dlv b ctx e rest todo :
  dlv_ok b → dispatcher b = Processing (actSend ctx e :: rest) → todo ≡ₚ (map_to_list (subscribers b)).*1 →
  dlv_ok (set_phase (note b [Published e]) (Sending ctx e todo [] rest)).
Proof.
  intros Hok Hd Hp. assert (∀ id, (tracked id (log b)).1 = subscribers b !! id) as Ha by (apply (dl_active b Hok); by rewrite Hd).
  assert (∀ id, received (cancelled b) (deliveries id (log b)) (expected id (log b))) as Hr by (apply between_received; [done|by rewrite Hd]).
  assert (∀ id, tracked id (log b ++ [Published e]) = (subscribers b !! id, expected id (log b) ++ due_now b id e)) as Ht.
  { intros id. rewrite tracked_app. cbn. unfold due_now, expected. rewrite <- Ha. destruct (tracked id (log b)) as [[s|] l]; [done|]. by rewrite app_nil_r. }
  assert (∀ id, id ∈ todo ↔ is_Some (subscribers b !! id)) as Hin.
  { intros id. rewrite Hp, list_elem_of_fmap. split.
    - intros ([j s] & -> & Hj%elem_of_map_to_list). by eexists.
    - intros [s Hs]. exists (id, s). by rewrite elem_of_map_to_list. }
  split; cbn [log set_phase note set_table dispatcher subscribers cancelled].
  - intros _ id. by rewrite Ht.
  - split; [rewrite Hp; apply NoDup_fst_map_to_list|]. intros id. apply Hin.
  - intros id. unfold id_received, expected. cbn [log set_phase note set_table dispatcher subscribers cancelled]. rewrite Ht, deliveries_app. cbn [deliveries omap list_omap]. rewrite app_nil_r. destruct (bool_decide_reflect (id ∈ todo)) as [Hi|Hi].
    + exists (expected id (log b)). by split.
    + rewrite Hin in Hi. apply eq_None_not_Some in Hi. unfold due_now. rewrite Hi, app_nil_r. apply Hr.
Qed.

(** Going on to the next subscriber, who got the event or did not *)
Lemma visit_dlv b b' ctx e id todo ex ex' rest got :
  dlv_ok b → dispatcher b = Sending ctx e (id :: todo) ex rest → dispatcher b' = Sending ctx e todo ex' rest →
  log b' = log b ++ (if got : bool then [Delivered id e] else []) → subscribers b' = subscribers b → cancelled b' = cancelled b →
  (due_now b id e = if got then [e] else []) ∨ (got = false ∧ cancelled b ≠ ∅) → dlv_ok b'.
Proof.
  intros [H1 H2 H3] Hd Hd' Hl Ht Hc Hgot. rewrite Hd in *. destruct H2 as [Hn Hin]. apply NoDup_cons in Hn as [Hid Hn].
  assert (∀ j, tracked j (log b') = tracked j (log b)) as Htr by (intros j; rewrite Hl, tracked_app; by destruct got).
  split; rewrite ?Hd', ?Ht.
  - intros _ j. rewrite Htr. by apply H1.
  - split; [done|]. intros j Hj. apply Hin. by right.
  - intros j. specialize (H3 j). unfold id_received, due_now, expected in *. rewrite Hd, Hd', Hc, Ht, Htr in *. rewrite Hl, deliveries_app.
    destruct (decide (j = id)) as [->|Hne].
    + rewrite (bool_decide_eq_true_2 (id ∈ id :: todo)) in H3 by (by left). rewrite bool_decide_eq_false_2 by done. destruct H3 as (pre & -> & Hs & He).
      destruct Hgot as [->|[-> Hne]].
      * destruct got; cbn; [rewrite bool_decide_eq_true_2 by done|]; (split; [by apply sublist_app|]); intros Hz; by rewrite He.
      * rewrite app_nil_r. by apply received_more.
    + assert (deliveries j (if got then [Delivered id e] else []) = []) as ->.
      { destruct got; [|done]. cbn. by rewrite bool_decide_eq_false_2. }
      rewrite app_nil_r. rewrite (bool_decide_ext (j ∈ id :: todo) (j ∈ todo)) in H3; [done|]. rewrite elem_of_cons. naive_solver.
Qed.

Lemma step_dlv b b' : dlv_ok b → step b b' → dlv_ok b'.
Proof.
  intros Hok Hs. destruct Hs as [c|ctx sys k nl|id|ctx e|sys k| |n Hn|Hd Hr|Hd|a rest Hd Ha|ctx e rest Hd Hc|ctx e rest todo Hd Hc Hp
    |ctx e id todo ex rest s Hd Hl Hf|ctx e id todo ex rest s Hd Hl Hf|ctx e id todo ex rest s Hd Hl Hf Hc|ctx e id todo ex rest s Hd Hl Hf Hc|ctx e ex rest Hd|q w1 w2 Hd Hw].
  - apply (quiet_dlv b _ []); cbn; [done|by rewrite app_nil_r|done|done|set_solver|done].
  - unfold SubscribeP, enqueueAction. destruct (bool_decide _); [done|]. destruct nl; [done|]. cbn. destruct (closed b).
    + by eapply (quiet_dlv b).
    + apply (quiet_dlv b _ []); cbn; rewrite ?app_nil_r; done.
  - unfold Unsubscribe, enqueueAction. cbn. destruct (closed b); apply (quiet_dlv b _ []); cbn; rewrite ?app_nil_r; done.
  - unfold Send, enqueueAction. destruct (bool_decide _); [done|]. destruct (closed b); [done|]. apply (quiet_dlv b _ []); cbn; rewrite ?app_nil_r; done.
  - unfold HasSubscribers, enqueueAction. cbn. destruct (closed b); [by eapply (quiet_dlv b)|]. apply (quiet_dlv b _ []); cbn; rewrite ?app_nil_r; done.
  - unfold Stop. destruct (closed b); [done|]. apply (quiet_dlv b _ []); cbn; rewrite ?app_nil_r; done.
  - apply (quiet_dlv b _ []); cbn; rewrite ?app_nil_r; done.
  - apply (settled_dlv b); cbn; rewrite ?Hd; try done. by case_bool_decide.
  - apply (settled_dlv b); cbn; rewrite ?Hd; done.
  - by apply process_dlv.
  - apply (settled_dlv b); cbn; rewrite ?Hd; done.
  - by apply start_dlv.
  - apply (visit_dlv b _ ctx e id todo ex ex rest false); cbn; rewrite ?app_nil_r; try done. left. unfold due_now. by rewrite Hl, Hf.
  - apply (visit_dlv b _ ctx e id todo ex ex rest true); cbn; try done. left. unfold due_now. by rewrite Hl, Hf.
  - apply (visit_dlv b _ ctx e id todo ex (ex ++ [id]) rest false); cbn; rewrite ?app_nil_r; try done. right. set_solver.
  - destruct Hok as [H1 _ H3]. rewrite Hd in H1. apply cleanup_dlv; [by apply H1|]. intros j. specialize (H3 j). unfold id_received in H3. rewrite Hd in H3.
    destruct (bool_decide _); [|done]. destruct H3 as (pre & -> & Hr). apply received_more; [done|set_solver].
  - destruct Hok as [H1 _ H3]. rewrite Hd in H1. apply cleanup_dlv; [by apply H1|]. intros j. specialize (H3 j). unfold id_received in H3. by rewrite Hd in H3.
  - apply (quiet_dlv b _ [Answered q Unsubscribed]); done.
Qed.

Lemma reachable_dlv b : reachable b → dlv_ok b.
Proof.
  induction 1 as [|b b' _ IH Hs]; [|by eapply step_dlv]. split; cbn; [intros _ id; by rewrite lookup_empty|done|done].
Qed.

(** ** Unsubscribing *)

Definition sub_name (n : Z) : string := "sub." +:+ pretty (Z.to_N n).

Lemma sub_name_inj n m : 0 ≤ n → 0 ≤ m → sub_name n = sub_name m → n = m.
Proof. intros Hn Hm He. unfold sub_name in He. apply (inj (String.app "sub.")), (inj pretty) in He. lia. Qed.

(** The identifier was given out, and no subscription under it is still to be decided. *)
Definition decided (b : Bus) (id : string) : Prop :=
  (∃ n, id = sub_name n ∧ 0 < n ≤ subscriberCounter b) ∧ ∀ q s, actSubscribe q s ∈ acts b → subID s ≠ id.

(** Nothing can be delivered under the identifier. *)
Definition quiet (b : Bus) (id : string) : Prop :=
  subscribers b !! id = None ∧ match dispatcher b with Sending _ _ todo _ _ => id ∉ todo | _ => True end.

Record barrier (id : string) (q : Z) (b : Bus) : Prop := {
  ba_issued : q < requests b;
  ba_counter : subscriberCounter b ≤ requests b;
  ba_decided : decided b id;
  ba_request : ∀ a, a ∈ acts b → req_of a = Some q → a = actUnsubscribe q id;
  ba_quiet : q ∈ answered b → quiet b id
}.

(** Steps that bring in nothing *)
Lemma barrier_frame id q b b' more :
  barrier id q b → requests b' = requests b → subscriberCounter b' = subscriberCounter b → (∀ a, a ∈ acts b' → a ∈ acts b ∨ req_of a = None) →
  log b' = log b ++ more → (q ∈ omap answer_of more → quiet b' id) → (quiet b id → quiet b' id) → (quiet b id → deliveries id more = []) →
  barrier id q b' ∧ (q ∈ answered b → deliveries id (log b') = deliveries id (log b)).
Proof.
  intros [H1 H2 [H3 H3'] H4 H5] Er Ec Ha El Hq Hk Hd. split.
  - split; rewrite ?Er, ?Ec; [done|done|split; [by rewrite Ec|]| |].
    + intros x s Hs. destruct (Ha _ Hs) as [Hs'|[=]]. by apply (H3' x).
    + intros a Hin Hr. destruct (Ha _ Hin) as [Hin'|Hn]; [by apply H4|congruence].
    + unfold answered. rewrite El, omap_app, elem_of_app. intros [Hx|Hx]; auto.
  - intros Hx. by rewrite El, deliveries_app, Hd, app_nil_r by auto.
Qed.

(** A new request *)
Lemma barrier_request id q b a n :
  barrier id q b → req_of a = Some (requests b) → (∀ x s, a = actSubscribe x s → subID s ≠ id) → subscriberCounter b ≤ n ≤ requests b + 1 →
  let b' := enqueueAction (mkBus (subscribers b) (actionQueue b) (actionReady b) (signals b) (dispatcher b) (closed b) (waiting b) n (requests b + 1) (cancelled b) (log b)) a in
  barrier id q b' ∧ (q ∈ answered b → deliveries id (log b') = deliveries id (log b)).
Proof.
  intros [H1 H2 [(m & H3 & Hm) H3'] H4 H5] Ha Hs Hn. unfold enqueueAction. cbn [closed].
  assert (∀ w more, omap answer_of more = [] ∨ omap answer_of more = [requests b] → (∀ j, deliveries j more = []) →
    let b' := mkBus (subscribers b) (actionQueue b) (actionReady b) (signals b) (dispatcher b) (closed b) w n (requests b + 1) (cancelled b) (log b ++ more) in
    barrier id q b' ∧ (q ∈ answered b → deliveries id (log b') = deliveries id (log b))) as Hnow.
  { intros w more Hm' Hd. split; [|intros _; cbn [log]; by rewrite deliveries_app, Hd, app_nil_r]. split; cbn [requests subscriberCounter]; [lia|lia|split; [exists m; cbn [subscriberCounter]; split; [done|lia]|done]|done|].
    unfold answered. cbn. rewrite omap_app, elem_of_app. intros [Hx|Hx]; [by apply H5|]. destruct Hm' as [Hm'|Hm']; rewrite Hm' in Hx;
      [by apply elem_of_nil in Hx|]. apply list_elem_of_singleton in Hx. lia. }
  destruct (closed b) eqn:Ec.
  - destruct a as [x s|x i| |x sys k|]; try done; injection Ha as ->.
    + apply (Hnow (waiting b) [Answered (requests b) (Subscribed (Some ErrBusClosed))]); [by right|done].
    + destruct (Hnow (waiting b ++ [requests b]) []) as [Hb Hd]; [by left|done|]. rewrite app_nil_r in Hb, Hd. done.
    + apply (Hnow (waiting b) [Answered (requests b) (Probed false)]); [by right|done].
  - assert (∀ x, x ∈ batch (dispatcher b) ++ actionQueue b ++ [a] → x ∈ acts b ∨ x = a) as Hin.
    { intros x. unfold acts. rewrite !elem_of_app, list_elem_of_singleton. tauto. }
    split; [|done]. split; cbn [requests subscriberCounter push]; [lia|lia|split; [exists m; cbn [subscriberCounter push]; split; [done|lia]|]| |exact H5].
    + intros x s Hx%Hin. destruct Hx as [Hx| <-]; [by apply (H3' x)|by eapply Hs].
    + intros x Hx%Hin Hr. destruct Hx as [Hx| ->]; [by apply H4|]. rewrite Ha in Hr. injection Hr as Hr. lia.
Qed.
Lemma acts_push_in b a stop x : req_of a = None → x ∈ acts (push b a stop) → x ∈ acts b ∨ req_of x = None.
Proof. intros Ha. unfold acts. cbn. rewrite !elem_of_app, list_elem_of_singleton. intros [?|[?| ->]]; auto. Qed.


Lemma process_barrier id q b a rest :
  ctl_ok b → barrier id q b → dispatcher b = Processing (a :: rest) → is_send a = false →
  barrier id q (process b a rest) ∧ (q ∈ answered b → deliveries id (log (process b a rest)) = deliveries id (log b)).
Proof.
  intros Hctl Hb Hd Ha. assert (acts b = a :: rest ++ actionQueue b) as Hacts by (unfold acts; by rewrite Hd).
  assert (∀ x, x ∈ rest ++ actionQueue b → x ∈ acts b ∨ req_of x = None) as Hsub by (rewrite Hacts; intros x; left; by right).
  assert (req_of a = Some q → a = actUnsubscribe q id) as Hreq by (apply (ba_request _ _ _ Hb); rewrite Hacts; by left).
  destruct a as [x s|x i| |x sys k|]; cbn [process]; try done.
  - assert (∀ b1 more, subscribers b1 = subscribers b ∨ subscribers b1 = <[subID s := s]> (subscribers b) → requests b1 = requests b → subscriberCounter b1 = subscriberCounter b →
      actionQueue b1 = actionQueue b → log b1 = log b ++ more → omap answer_of more = [x] → deliveries id more = [] →
      barrier id q (set_phase b1 (Processing rest)) ∧ (q ∈ answered b → deliveries id (log (set_phase b1 (Processing rest))) = deliveries id (log b))) as Hgo.
    { intros b1 more Ht Er Ec Eq El Hm Hdl. apply (barrier_frame id q b _ more); unfold acts; cbn; rewrite ?Er, ?Ec, ?Eq; try done.
      - rewrite Hm. intros ->%list_elem_of_singleton. specialize (Hreq eq_refl). done.
      - intros [Hq _]. split; [|done]. cbn. destruct Ht as [->| ->]; [done|]. rewrite lookup_insert_ne; [done|].
        apply (proj2 (ba_decided _ _ _ Hb) x). rewrite Hacts. by left. }
    destruct (bool_decide _); [|destruct (bool_decide _)]; (eapply Hgo; [tauto|done..]).
  - apply (barrier_frame id q b _ [Removed i; Answered x Unsubscribed]); try done.
    + cbn. intros ->%list_elem_of_singleton. specialize (Hreq eq_refl). injection Hreq as ->. split; [apply lookup_delete_eq|done].
    + intros [Hq _]. split; [|done]. cbn. rewrite lookup_delete_None. by right.
  - apply (barrier_frame id q b _ [Answered x (Probed (matchesSubscriber b sys k))]); try done.
    + cbn. intros ->%list_elem_of_singleton. by specialize (Hreq eq_refl).
    + by intros [Hq _].
  - destruct (exit_ctl b rest Hctl Hd) as (-> & Hq & _ & _).
    apply (barrier_frame id q b _ []); unfold acts; cbn; try done; rewrite ?Hq; cbn; rewrite ?app_nil_r; try done. intros x Hx. by apply elem_of_nil in Hx.
Qed.

Lemma quiet_next b id ctx e i todo ex rest ex' l :
  dispatcher b = Sending ctx e (i :: todo) ex rest → quiet b id → quiet (set_phase (note b l) (Sending ctx e todo ex' rest)) id.
Proof. intros Hd [Hq Ht]. rewrite Hd in Ht. split; [done|]. cbn. intros Hin. apply Ht. by right. Qed.

Lemma cleanup_barrier id q b ctx e todo ex rest :
  barrier id q b → dispatcher b = Sending ctx e todo ex rest →
  barrier id q (cleanup b ex rest) ∧ (q ∈ answered b → deliveries id (log (cleanup b ex rest)) = deliveries id (log b)).
Proof.
  intros Hb Hd. apply (barrier_frame id q b _ (Removed <$> ex)); try done.
  - unfold acts. rewrite Hd. auto.
  - assert (omap answer_of (Removed <$> ex) = []) as -> by (clear; induction ex as [|? ? IH]; [done|exact IH]). by intros ?%elem_of_nil.
  - intros [Hq _]. split; [|done]. cbn. clear -Hq. revert Hq. generalize (subscribers b).
    induction ex as [|i ex IH]; intros t Ht; cbn; [done|]. apply IH. apply lookup_delete_None. by right.
  - intros _. clear. induction ex as [|? ? IH]; [done|exact IH].
Qed.

Lemma step_barrier id q b b' :
  ctl_ok b → barrier id q b → step b b' → requests b' < 2 ^ 64 →
  barrier id q b' ∧ (q ∈ answered b → deliveries id (log b') = deliveries id (log b)).
Proof.
  intros Hctl Hb Hs Hlim. assert (∀ b1, requests b1 = requests b → subscriberCounter b1 = subscriberCounter b → (∀ a, a ∈ acts b1 → a ∈ acts b ∨ req_of a = None) →
    log b1 = log b → (quiet b id → quiet b1 id) → barrier id q b1 ∧ (q ∈ answered b → deliveries id (log b1) = deliveries id (log b))) as Hsame.
  { intros b1 Er Ec Ha El Hq. apply (barrier_frame id q b _ []); try done; [by rewrite El, app_nil_r|by intros ?%elem_of_nil]. }
  destruct Hs as [c|ctx sys k nl|i|ctx e|sys k| |n Hn|Hd Hr|Hd|a rest Hd Ha|ctx e rest Hd Hc|ctx e rest todo Hd Hc Hp
    |ctx e i todo ex rest s Hd Hl Hf|ctx e i todo ex rest s Hd Hl Hf|ctx e i todo ex rest s Hd Hl Hf Hc|ctx e i todo ex rest s Hd Hl Hf Hc|ctx e ex rest Hd|x w1 w2 Hd Hw].
  - by apply Hsame; auto.
  - unfold SubscribeP in *. destruct (bool_decide _); [by apply Hsame; auto|]. destruct nl; [by apply Hsame; auto|]. cbn [generateSubscriberID request fst snd] in *.
    pose proof (ba_counter _ _ _ Hb). destruct (ba_decided _ _ _ Hb) as [(m & -> & Hm) _].
    assert (requests b + 1 < 2 ^ 64) as Hlim'. { revert Hlim. unfold enqueueAction. cbn. by destruct (closed b). }
    rewrite u64_small by (unfold is_u64; lia). apply (barrier_request (sub_name m) q b _ (subscriberCounter b + 1)); [done|done| |lia].
    intros ? ? [= _ <-]. cbn. intros He%sub_name_inj; lia.
  - apply (barrier_request id q b _ (subscriberCounter b)); [done|done|done|]. pose proof (ba_counter _ _ _ Hb). lia.
  - unfold Send, enqueueAction. destruct (bool_decide _); [by apply Hsame; auto|]. destruct (closed b); [by apply Hsame; auto|].
    apply Hsame; try done. intros x Hx. by eapply acts_push_in; [|exact Hx].
  - apply (barrier_request id q b _ (subscriberCounter b)); [done|done|done|]. pose proof (ba_counter _ _ _ Hb). lia.
  - unfold Stop. destruct (closed b); [by apply Hsame; auto|]. apply Hsame; try done. intros x Hx. by eapply acts_push_in; [|exact Hx].
  - by apply Hsame; auto.
  - apply Hsame; try done.
    + unfold acts. rewrite Hd. cbn. destruct (bool_decide_reflect (actionQueue b = [])) as [->|]; cbn; rewrite ?app_nil_r; auto.
    + intros [Hq _]. split; [done|]. cbn. by destruct (bool_decide _).
  - apply Hsame; try done; [unfold acts; rewrite Hd; by auto|]. by intros [Hq _].
  - by apply process_barrier.
  - apply Hsame; try done; [|by intros [Hq _]]. unfold acts. rewrite Hd. cbn. intros x Hx. left. by right.
  - apply (barrier_frame id q b _ [Published e]); try done; [unfold acts; rewrite Hd; cbn; intros x Hx; left; by right|by intros ?%elem_of_nil|].
    intros [Hq _]. split; [done|]. cbn. rewrite Hp. intros Hin%list_elem_of_fmap. destruct Hin as ([j s] & -> & Hin%elem_of_map_to_list). cbn in Hq. congruence.
  - apply (barrier_frame id q b _ []); try done; [unfold acts; rewrite Hd; by auto|cbn; by rewrite app_nil_r|by intros ?%elem_of_nil|].
    intros Hq. apply (quiet_next _ _ _ _ _ _ _ _ ex [] Hd) in Hq. done.
  - apply (barrier_frame id q b _ [Delivered i e]); try done; [unfold acts; rewrite Hd; by auto|by intros ?%elem_of_nil|by eapply quiet_next|].
    intros [Hq _]. cbn. by rewrite bool_decide_eq_false_2 by congruence.
  - apply (barrier_frame id q b _ []); try done; [unfold acts; rewrite Hd; by auto|cbn; by rewrite app_nil_r|by intros ?%elem_of_nil|].
    intros Hq. apply (quiet_next _ _ _ _ _ _ _ _ (ex ++ [i]) [] Hd) in Hq. done.
  - by eapply cleanup_barrier.
  - by eapply cleanup_barrier.
  - pose proof (ok_stop _ Hctl) as Hst. unfold stops_last in Hst. rewrite Hd in Hst. destruct Hst as (_ & _ & Ht).
    apply (barrier_frame id q b _ [Answered x Unsubscribed]); try done; [unfold acts; rewrite Hd; by auto|..]; intros _; (split; [cbn; by rewrite Ht|done]).
Qed.

(** ** What never shrinks *)

Definition grows (b b' : Bus) : Prop := requests b ≤ requests b' ∧ log b `prefix_of` log b'.

Lemma enqueue_grows b a : grows b (enqueueAction b a).
Proof. unfold enqueueAction. destruct (closed b); [destruct a|]; (split; [done|cbn; first [done|by apply prefix_app_r]]). Qed.

Lemma step_grows b b' : step b b' → grows b b'.
Proof.
  assert (∀ b1 a, requests b ≤ requests b1 → log b1 = log b → grows b (enqueueAction b1 a)) as Hen.
  { intros b1 a Hle Hl. destruct (enqueue_grows b1 a) as [H1 H2]. split; [lia|]. by rewrite <- Hl. }
  assert (∀ b1 more, requests b1 = requests b → log b1 = log b ++ more → grows b b1) as Hadd.
  { intros b1 more Er El. split; [lia|]. rewrite El. by apply prefix_app_r. }
  destruct 1 as [c|ctx sys k nl|i|ctx e|sys k| |n Hn|Hd Hr|Hd|a rest Hd Ha|ctx e rest Hd Hc|ctx e rest todo Hd Hc Hp|ctx e i todo ex rest s Hd Hl Hf
    |ctx e i todo ex rest s Hd Hl Hf|ctx e i todo ex rest s Hd Hl Hf Hc|ctx e i todo ex rest s Hd Hl Hf Hc|ctx e ex rest Hd|x w1 w2 Hd Hw];
    try (split; done); try (by eapply Hadd).
  - unfold SubscribeP. destruct (bool_decide _); [split; done|]. destruct nl; [split; done|]. apply Hen; [cbn; lia|done].
  - apply Hen; [cbn; lia|done].
  - unfold Send. destruct (bool_decide _); [split; done|]. by apply Hen.
  - apply Hen; [cbn; lia|done].
  - unfold Stop. destruct (closed b); split; done.
  - destruct a; cbn; [destruct (bool_decide _); [|destruct (bool_decide _)]; by eapply Hadd|by eapply Hadd|done|by eapply Hadd|].
    apply (Hadd _ ([] ++ concat (drained <$> actionQueue b))); [done|]. by rewrite app_assoc.
Qed.

Lemma rtc_grows b b' : rtc step b b' → grows b b'.
Proof.
  induction 1 as [|b b1 b2 Hs _ [IH1 IH2]]; [split; done|]. destruct (step_grows _ _ Hs) as [H1 H2]. split; [lia|by etrans].
Qed.

Lemma answered_grows b b' q : grows b b' → q ∈ answered b → q ∈ answered b'.
Proof. intros [_ [more El]]. unfold answered. rewrite El, omap_app, elem_of_app. auto. Qed.

Lemma reachable_rtc b b' : reachable b → rtc step b b' → reachable b'.
Proof. intros Hb. induction 1 as [|b b1 b2 Hs _ IH]; [done|]. apply IH. by eapply reachable_step. Qed.

Lemma rtc_barrier id q b b' :
  reachable b → barrier id q b → rtc step b b' → requests b' < 2 ^ 64 →
  barrier id q b' ∧ (q ∈ answered b → deliveries id (log b') = deliveries id (log b)).
Proof.
  intros Hr Hb Hs. revert Hr Hb. induction Hs as [b|b b1 b2 Hs Hss IH]; [done|]. intros Hr Hb Hlim.
  destruct (rtc_grows _ _ Hss) as [Hle _]. destruct (step_barrier id q b b1) as [Hb1 Hd]; [by apply reachable_ctl|done|done|lia|].
  destruct IH as [Hb2 Hd2]; [by eapply reachable_step|done|done|]. split; [done|]. intros Hq. rewrite Hd2; [by apply Hd|].
  eapply answered_grows; [by apply step_grows|done].
Qed.

(** Identifiers count the requests for subscriptions. *)
Lemma counter_le b : reachable b → requests b < 2 ^ 64 → 0 ≤ subscriberCounter b ≤ requests b.
Proof.
  induction 1 as [|b b' Hr IH Hs]; [done|]. intros Hlim. destruct (step_grows _ _ Hs) as [Hle _]. specialize (IH ltac:(lia)). clear Hr.
  assert (∀ b1 a, 0 ≤ subscriberCounter b1 ≤ requests b1 → 0 ≤ subscriberCounter (enqueueAction b1 a) ≤ requests (enqueueAction b1 a)) as Hen.
  { intros b1 a Hb1. unfold enqueueAction. destruct (closed b1); [|done]. by destruct a. }
  destruct Hs as [c|ctx sys k nl|i|ctx e|sys k| |n Hn|Hd Hr|Hd|a rest Hd Ha|ctx e rest Hd Hc|ctx e rest todo Hd Hc Hp|ctx e i todo ex rest s Hd Hl Hf
    |ctx e i todo ex rest s Hd Hl Hf|ctx e i todo ex rest s Hd Hl Hf Hc|ctx e i todo ex rest s Hd Hl Hf Hc|ctx e ex rest Hd|x w1 w2 Hd Hw]; try done.
  - unfold SubscribeP in *. destruct (bool_decide _); [done|]. destruct nl; [done|]. apply Hen. cbn [generateSubscriberID request fst snd subscriberCounter requests].
    assert (requests b + 1 < 2 ^ 64) as Hlim'. { revert Hlim. unfold enqueueAction. cbn. by destruct (closed b). }
    rewrite u64_small by (unfold is_u64; lia). lia.
  - apply Hen. cbn. lia.
  - unfold Send. destruct (bool_decide _); [done|]. by apply Hen.
  - apply Hen. cbn. lia.
  - unfold Stop. by destruct (closed b).
  - destruct a; cbn; try done. by destruct (bool_decide _); [|destruct (bool_decide _)].
Qed.

Lemma barrier_start b id :
  reachable b → requests b + 1 < 2 ^ 64 → decided b id → barrier id (requests b) (Unsubscribe b id).
Proof.
  intros Hr Hlim [Hn Hd]. pose proof (counter_le b Hr ltac:(lia)) as Hc. pose proof (reachable_ctl b Hr) as [H0 H1 _ _ _].
  assert (∀ q, q ∈ answered b ∨ q ∈ pending b → q < requests b) as Hlt.
  { intros q Hq. apply elem_of_app in Hq. rewrite H1, elem_of_seqZ in Hq. lia. }
  assert (requests b ∉ answered b) as Hna by (intros Hq; specialize (Hlt _ (or_introl Hq)); lia).
  unfold Unsubscribe, enqueueAction. cbn [request closed fst snd].
  assert (∀ a, a ∈ acts b → req_of a = Some (requests b) → a = actUnsubscribe (requests b) id) as Hreq.
  { intros a Ha Hq. assert (requests b ∈ pending b) as Hp; [|specialize (Hlt _ (or_intror Hp)); lia].
    unfold pending. apply elem_of_app. left. apply list_elem_of_omap. by exists a. }
  destruct (closed b).
  - split; cbn; [lia|lia|done|exact Hreq|done].
  - split; cbn; [lia|lia| | |done].
    + split; [done|]. intros q s. unfold acts. cbn. rewrite app_assoc, elem_of_app, list_elem_of_singleton. intros [Hin|[=]]. by apply (Hd q).
    + intros a. unfold acts. cbn. rewrite app_assoc, elem_of_app, list_elem_of_singleton. intros [Hin| ->]; [by apply Hreq|done].
Qed.

(** ** The dispatcher makes progress *)

(** Runs of the bus without calls from outside *)
Definition settles (b b' : Bus) : Prop := rtc step b b' ∧ requests b' = requests b.

Lemma settles_refl b : settles b b.
Proof. split; [apply rtc_refl|done]. Qed.

Lemma settles_step b b1 b2 : step b b1 → requests b1 = requests b → settles b1 b2 → settles b b2.
Proof. intros Hs Hr [Hss Hr']. split; [by eapply rtc_l|congruence]. Qed.

Lemma settles_trans b b1 b2 : settles b b1 → settles b1 b2 → settles b b2.
Proof. intros [H1 E1] [H2 E2]. split; [by etrans|congruence]. Qed.

(** An event is handed to every subscriber that takes it. *)
Lemma send_settles todo b ctx e ex rest :
  dispatcher b = Sending ctx e todo ex rest → (∀ id, id ∈ todo → is_Some (subscribers b !! id)) →
  ∃ b', settles b b' ∧ dispatcher b' = Processing rest ∧ actionQueue b' = actionQueue b ∧ closed b' = closed b.
Proof.
  revert b. induction todo as [|id todo IH]; intros b Hd Hin.
  - exists (cleanup b ex rest). split; [|done]. eapply settles_step; [by eapply step_all_sent|done|apply settles_refl].
  - destruct (Hin id ltac:(by left)) as [s Hs].
    assert (∃ b1, step b b1 ∧ requests b1 = requests b ∧ dispatcher b1 = Sending ctx e todo ex rest ∧ subscribers b1 = subscribers b ∧
      actionQueue b1 = actionQueue b ∧ closed b1 = closed b) as (b1 & H1 & Er & Ed & Et & Eq & Ec).
    { destruct (accepts_event s (System e) (Kind e)) eqn:Ea; eexists; (split; [first [by eapply step_deliver|by eapply step_filtered]|done]). }
    destruct (IH b1 Ed) as (b2 & H2 & E2 & Eq2 & Ec2); [rewrite Et; intros j Hj; apply Hin; by right|].
    exists b2. split; [by eapply settles_step|]. split_and!; congruence.
Qed.

(** The batch is worked off, or the stop was in it. *)
Lemma batch_settles rest b :
  reachable b → dispatcher b = Processing rest →
  ∃ b', settles b b' ∧ (dispatcher b' = Exited ∨ dispatcher b' = Idle ∧ actionQueue b' = actionQueue b ∧ closed b' = closed b).
Proof.
  revert b. induction rest as [|a rest IH]; intros b Hr Hd.
  { exists (set_phase b Idle). split; [|by right]. eapply settles_step; [by apply step_batch_done|done|apply settles_refl]. }
  assert (∀ b1, settles b b1 → dispatcher b1 = Processing rest → actionQueue b1 = actionQueue b → closed b1 = closed b →
    ∃ b', settles b b' ∧ (dispatcher b' = Exited ∨ dispatcher b' = Idle ∧ actionQueue b' = actionQueue b ∧ closed b' = closed b)) as Hgo.
  { intros b1 H1 Ed Eq Ec. destruct (IH b1) as (b2 & H2 & Hend); [by eapply reachable_rtc; [|apply H1]|done|].
    exists b2. split; [by eapply settles_trans|]. rewrite <- Eq, <- Ec. done. }
  destruct (is_send a) eqn:Ha.
  - destruct a as [| |ctx e| |]; try done. destruct (decide (ctx ∈ cancelled b)) as [Hc|Hc].
    + apply (Hgo (set_phase b (Processing rest))); try done. eapply settles_step; [by eapply step_send_skip|done|apply settles_refl].
    + set (b0 := set_phase (note b [Published e]) (Sending ctx e (map_to_list (subscribers b)).*1 [] rest)).
      assert (step b b0) as H0 by (by apply step_send_start).
      destruct (send_settles (map_to_list (subscribers b)).*1 b0 ctx e [] rest) as (b1 & H1 & Ed & Eq & Ec); [done| |].
      { intros j ([i s] & -> & Hi%elem_of_map_to_list)%list_elem_of_fmap. by exists s. }
      apply (Hgo b1); try done. by eapply settles_step.
  - assert (settles b (process b a rest)) as Hset.
    { eapply settles_step; [by eapply step_action| |apply settles_refl]. destruct a; cbn; try done. by destruct (bool_decide _); [|destruct (bool_decide _)]. }
    destruct a as [x s|x i| |x sys k|]; try done.
    + apply (Hgo _ Hset); cbn; try done; by destruct (bool_decide _); [|destruct (bool_decide _)].
    + by apply (Hgo _ Hset).
    + by apply (Hgo _ Hset).
    + eexists. split; [exact Hset|by left].
Qed.

Lemma idle_settles b :
  reachable b → dispatcher b = Idle → ∃ b', settles b b' ∧ (dispatcher b' = Exited ∨ dispatcher b' = Idle ∧ actionQueue b' = [] ∧ closed b' = closed b).
Proof.
  intros Hr Hd. destruct (decide (actionQueue b = [])) as [Hq|Hq]; [exists b; split; [apply settles_refl|by right]|].
  assert (∃ b1, settles b b1 ∧ dispatcher b1 = Idle ∧ actionReady b1 = true ∧ actionQueue b1 = actionQueue b ∧ closed b1 = closed b) as (b1 & H1 & Ed & Hrd & Eq & Ec).
  { destruct (ok_wake b (reachable_ctl b Hr) Hq) as [Hw|Hw]; [exists b; split; [apply settles_refl|done]|].
    destruct (signals b) as [|n] eqn:Hn; [lia|]. eexists. split; [eapply settles_step; [by apply (step_signal b n)|done|apply settles_refl]|done]. }
  assert (reachable b1) as Hr1 by (by eapply reachable_rtc; [|apply H1]).
  pose proof (step_wake b1 Ed Hrd) as Hw. rewrite bool_decide_eq_false_2 in Hw by congruence.
  edestruct (batch_settles (actionQueue b1)) as (b2 & H2 & Hend); [by eapply reachable_step|done|].
  exists b2. split; [by eapply settles_trans; [exact H1|]; eapply settles_step|]. rewrite <- Ec. exact Hend.
Qed.

Lemma waiting_settles w b : dispatcher b = Exited → waiting b = w → ∃ b', settles b b' ∧ dispatcher b' = Exited ∧ waiting b' = [] ∧ actionQueue b' = actionQueue b.
Proof.
  revert b. induction w as [|q w IH]; intros b Hd Hw; [exists b; split; [apply settles_refl|done]|].
  pose proof (step_exited b q [] w Hd Hw) as Hs. match type of Hs with step _ ?c => destruct (IH c) as (b1 & H1 & E1); [done|done|] end.
  exists b1. split; [by eapply settles_step|exact E1].
Qed.

Lemma to_idle b :
  reachable b → ∃ b', settles b b' ∧ (dispatcher b' = Exited ∨ dispatcher b' = Idle).
Proof.
  intros Hr. destruct (dispatcher b) as [|rest|ctx e todo ex rest|] eqn:Hd.
  - exists b. split; [apply settles_refl|by right].
  - destruct (batch_settles rest b Hr Hd) as (b' & H & Hend). exists b'. split; [done|tauto].
  - pose proof (dl_left b (reachable_dlv b Hr)) as Hin. rewrite Hd in Hin. destruct Hin as [_ Hin].
    destruct (send_settles todo b ctx e ex rest Hd Hin) as (b1 & H1 & E1 & _).
    destruct (batch_settles rest b1) as (b2 & H2 & Hend); [by eapply reachable_rtc; [|apply H1]|done|].
    exists b2. split; [by eapply settles_trans|tauto].
  - exists b. split; [apply settles_refl|by left].
Qed.

Lemma exited_pending b : reachable b → dispatcher b = Exited → pending b = waiting b.
Proof.
  intros Hr Hd. pose proof (ok_stop b (reachable_ctl b Hr)) as Hs. unfold stops_last in Hs. rewrite Hd in Hs. destruct Hs as (_ & Hq & _).
  unfold pending, acts. by rewrite Hd, Hq.
Qed.

Lemma settles_empty b : reachable b → ∃ b', settles b b' ∧ pending b' = [].
Proof.
  intros Hr. assert (∃ b', settles b b' ∧ (dispatcher b' = Exited ∨ dispatcher b' = Idle ∧ actionQueue b' = [])) as (b1 & H1 & Hend).
  { destruct (to_idle b Hr) as (b1 & H1 & [Hx|Hi]); [exists b1; split; [done|by left]|].
    destruct (idle_settles b1) as (b2 & H2 & Hend); [by eapply reachable_rtc; [|apply H1]|done|]. exists b2. split; [by eapply settles_trans|tauto]. }
  assert (reachable b1) as Hr1 by (by eapply reachable_rtc; [|apply H1]). destruct Hend as [Hx|[Hi Hq]].
  - destruct (waiting_settles (waiting b1) b1 Hx eq_refl) as (b2 & H2 & Hx2 & Hw & _). exists b2. split; [by eapply settles_trans|].
    rewrite exited_pending; [done| |done]. by eapply reachable_rtc; [|apply H2].
  - exists b1. split; [done|]. pose proof (reachable_ctl b1 Hr1) as Hok. pose proof (ok_stop b1 Hok) as Hs. unfold stops_last, acts in Hs. rewrite Hi, Hq in Hs.
    unfold pending, acts. rewrite Hi, Hq. cbn. destruct (closed b1) eqn:Hc; [|by apply ok_open].
    destruct Hs as (pre & Hpre & _). cbn in Hpre. by destruct pre.
Qed.

(** ** What the bus promises *)



(** C12. [Unsubscribe] is a barrier: once a call that names a subscription the bus had
    decided on was answered, nothing is ever delivered under that name again, whatever
    happens, so its caller may release the channel. Also when the bus was stopped meanwhile. *)
Theorem unsubscribe_barrier b0 id b1 b2 :
  reachable b0 → decided b0 id → rtc step (Unsubscribe b0 id) b1 → requests b0 ∈ answered b1 → rtc step b1 b2 → requests b2 < 2 ^ 64 →
  deliveries id (log b2) = deliveries id (log b1).
Proof.
  intros Hr Hd H1 Hq H2 Hlim. assert (reachable (Unsubscribe b0 id)) as Hr0 by (eapply reachable_step; [done|apply step_unsubscribe]).
  assert (reachable b1) as Hr1 by (by eapply reachable_rtc). destruct (rtc_grows _ _ H1) as [L1 _]. destruct (rtc_grows _ _ H2) as [L2 _].
  assert (requests (Unsubscribe b0 id) = requests b0 + 1) as Er. { unfold Unsubscribe, enqueueAction. cbn. by destruct (closed b0). }
  assert (barrier id (requests b0) (Unsubscribe b0 id)) as Hb0 by (apply barrier_start; [done|lia|done]).
  destruct (rtc_barrier id _ _ _ Hr0 Hb0 H1) as [Hb1 _]; [lia|]. by apply (rtc_barrier id _ _ _ Hr1 Hb1 H2 Hlim).
Qed.
End bus.

(** ** A run *)

Section demo.

Definition news : Event (Data := nat) := mkEvent "registry" "entry.create" "app:main" (Some 1%nat).

Definition signalled (b : Bus (Data := nat)) : Bus :=
  mkBus (subscribers b) (actionQueue b) true (pred (signals b)) (dispatcher b) (closed b) (waiting b) (subscriberCounter b) (requests b) (cancelled b) (log b).

Definition woken (b : Bus (Data := nat)) : Bus :=
  mkBus (subscribers b) [] false (signals b) (if bool_decide (actionQueue b = []) then Idle else Processing (actionQueue b))
        (closed b) (waiting b) (subscriberCounter b) (requests b) (cancelled b) (log b).

(** The dispatcher takes up the queue. *)
Definition taken (b : Bus (Data := nat)) : Bus := woken (signalled b).

Lemma step_taken b n : signals b = S n → dispatcher b = Idle → rtc step b (taken b).
Proof.
  intros Hn Hd. eapply rtc_l; [apply (step_signal b n Hn)|]. replace n with (pred (signals b)) by (by rewrite Hn).
  apply rtc_once. by apply (step_wake (signalled b)).
Qed.

(** The first action of the batch, which is then done *)
Definition done1 (b : Bus (Data := nat)) : Bus :=
  match dispatcher b with Processing (a :: rest) => set_phase (process b a rest) Idle | _ => b end.

Lemma step_done1 b a : dispatcher b = Processing [a] → is_send a = false → a ≠ actStop → rtc step b (done1 b).
Proof.
  intros Hd Ha Hs. unfold done1. rewrite Hd. eapply rtc_l; [by eapply step_action|]. apply rtc_once. apply step_batch_done.
  destruct a; try done.
Qed.

(** The event at the head of the batch, delivered to the only subscriber *)
Definition delivered1 (b : Bus (Data := nat)) (id : string) (e : Event) : Bus :=
  set_phase (cleanup (set_phase (note (set_phase (note b [Published e]) (Sending 0 e [id] [] [])) [Delivered id e]) (Sending 0 e [] [] [])) [] []) Idle.

Lemma step_delivered1 b id e s :
  dispatcher b = Processing [actSend 0 e] → 0 ∉ cancelled b → map_to_list (subscribers b) = [(id, s)] → accepts_event s (System e) (Kind e) = true →
  rtc step b (delivered1 b id e).
Proof.
  intros Hd Hc Hm Ha. assert (subscribers b !! id = Some s) as Hs by (apply elem_of_map_to_list; rewrite Hm; by left).
  eapply rtc_l; [eapply (step_send_start b 0 e [] [id]); [done|done|by rewrite Hm]|].
  eapply rtc_l; [by eapply (step_deliver _ 0 e id [] [] [] s)|]. eapply rtc_l; [by eapply (step_all_sent _ 0 e [] [])|].
  apply rtc_once. by apply step_batch_done.
Qed.

Definition demo0 : Bus (Data := nat) := done1 (taken (SubscribeP NewBus 1 "registry" "entry.*" false).1).
Definition demo1 : Bus := delivered1 (taken (Send demo0 0 news)) "sub.1" news.
Definition demo2 : Bus := done1 (taken (Unsubscribe demo1 "sub.1")).
Definition demo3 : Bus := taken (Send demo2 0 news).

Lemma demo0_run : rtc step NewBus demo0.
Proof.
  eapply rtc_l; [apply (step_subscribe NewBus 1 "registry" "entry.*" false)|]. etrans; [by eapply (step_taken _ 0)|].
  eapply step_done1; [vm_compute; reflexivity|done|done].
Qed.

Lemma demo1_run : rtc step NewBus demo1.
Proof.
  etrans; [exact demo0_run|]. eapply rtc_l; [apply (step_send demo0 0 news)|]. etrans; [by eapply (step_taken _ 0)|].
  eapply step_delivered1; [vm_compute; reflexivity|apply (bool_decide_unpack _); vm_compute; exact I|vm_compute; reflexivity|vm_compute; reflexivity].
Qed.

Lemma demo1_reachable : reachable demo1.
Proof. eapply reachable_rtc; [apply reachable_new|exact demo1_run]. Qed.

Lemma demo2_run : rtc step (Unsubscribe demo1 "sub.1") demo2.
Proof. etrans; [by eapply (step_taken _ 0)|]. eapply step_done1; [vm_compute; reflexivity|done|done]. Qed.

Lemma demo3_run : rtc step demo2 demo3.
Proof. eapply rtc_l; [apply (step_send demo2 0 news)|]. by eapply (step_taken _ 0). Qed.

Lemma demo_decided : decided demo1 "sub.1".
Proof. split; [exists 1; vm_compute; split; [reflexivity|split; congruence]|]. intros q s Hin. by apply elem_of_nil in Hin. Qed.



Lemma unsubscribe_barrier_witness :
  deliveries "sub.1" (log demo2) = [news] ∧ deliveries "sub.1" (log demo3) = deliveries "sub.1" (log demo2).
Proof.
  split; [vm_compute; reflexivity|].
  apply (unsubscribe_barrier demo1 "sub.1" demo2 demo3 demo1_reachable demo_decided demo2_run); [|exact demo3_run|by vm_compute].
  vm_compute. right. left.
Defined.

End demo.
End EventBus.
