(* ===== verification/Deque.v ===== *)
(** * The work-stealing deque of the scheduler ([system/scheduler/actor/deque.go])

    Every worker owns a Chase-Lev deque: the owner pushes and pops at the bottom, other
    workers steal at the top. The model interleaves one owner with any number of thieves,
    one atomic access to shared memory per step: [top], [bottom], the pointer to the current
    buffer, and the slots of the buffers, of which thieves may still hold old ones. Only the
    owner writes slots, so a read of a slot is merged with the owner's preceding access. Positions
    count the pushes since creation and are not wrapped at 64 bits. [dst] is the length of the
    buffers that are handed to [StealHalfInto].

    The theorem: as long as thieves take one item at a time, every item pushed is taken at
    most once, none is lost, and a quiescent deque holds exactly the items that are left.
    Batches of two or more do not keep this: the owner pops all but the last item without
    touching [top], so a thief's single compare-and-swap can cover positions that the owner
    has popped. Two runs at the end show an item taken twice and an item that is lost. *)

From S2P Require Import Prelude.

Module Deque.

Section deque.
Context {A : Type}.

(** ** Data *)

Record dequeBuffer := mkBuf { items : list (option A); mask : Z }.

Inductive steal := One | Half.

(** Where the owner is in a call *)
Inductive owner :=
| OIdle
| OPush (p : A) (b t : Z) (buf : nat)
| OStore (p : A) (b : Z) (buf : nat)
| OPublish (p : A) (b : Z)
| OPop (b : Z) (buf : nat)
| OPopTop (b : Z) (buf : nat)
| OPopLast (t : Z) (x : option A)
| OFix (v : Z).

(** Where a thief is in a call *)
Inductive thief :=
| TBottom (k : steal) (t : Z)
| TBuffer (t n : Z)
| TLoad (t n : Z) (buf : nat) (got : list (option A)).

Record Deque := mkDeque {
  buffers : list dequeBuffer;
  buffer : nat;
  top : Z;
  bottom : Z;
  own : owner;
  thieves : gmap nat thief;
  pushed : list A;
  taken : list A
}.

Definition len (b : dequeBuffer) : Z := Z.of_nat (length (items b)).

Definition new_buffer (n : Z) : dequeBuffer := mkBuf (replicate (Z.to_nat n) None) (n - 1).

Fixpoint round_up (fuel : nat) (actualCap capacity : Z) : Z :=
  match fuel with
  | O => actualCap
  | S fuel => if bool_decide (actualCap < capacity) then round_up fuel (actualCap * 2) capacity else actualCap
  end.

Definition NewDeque (capacity : Z) : Deque :=
  mkDeque [new_buffer (round_up (Z.to_nat capacity) 1 capacity)] 0 0 0 OIdle ∅ [] [].

(** ** Shared memory *)

Definition slot (b : dequeBuffer) (i : Z) : nat := Z.to_nat (Z.land i (mask b)).

Definition load (b : dequeBuffer) (i : Z) : option A := mjoin (items b !! slot b i).

Definition store (b : dequeBuffer) (i : Z) (x : option A) : dequeBuffer := mkBuf (<[slot b i := x]> (items b)) (mask b).

Definition buffer_at (d : Deque) (a : nat) : dequeBuffer := default (mkBuf [] 0) (buffers d !! a).

Definition with_owner (d : Deque) (o : owner) : Deque := mkDeque (buffers d) (buffer d) (top d) (bottom d) o (thieves d) (pushed d) (taken d).

Definition with_bottom (d : Deque) (b : Z) (o : owner) : Deque := mkDeque (buffers d) (buffer d) (top d) b o (thieves d) (pushed d) (taken d).

Definition take_items (d : Deque) (t : Z) (o : owner) (ts : gmap nat thief) (xs : list (option A)) : Deque :=
  mkDeque (buffers d) (buffer d) t (bottom d) o ts (pushed d) (taken d ++ omap id xs).

Definition with_thieves (d : Deque) (ts : gmap nat thief) : Deque :=
  mkDeque (buffers d) (buffer d) (top d) (bottom d) (own d) ts (pushed d) (taken d).

(** ** The owner *)

Fixpoint copy_items (n : nat) (old new : dequeBuffer) (i : Z) : dequeBuffer :=
  match n with O => new | S n => copy_items n old (store new i (load old i)) (i + 1) end.

(** The new buffer is private until it is stored. *)
Definition grow (d : Deque) (old : nat) (t b : Z) : nat * list dequeBuffer :=
  let o := buffer_at d old in
  (length (buffers d), buffers d ++ [copy_items (Z.to_nat (b - t)) o (new_buffer (len o * 2)) t]).

Definition Push (d : Deque) (p : A) : Deque := with_owner d (OPush p (bottom d) (top d) (buffer d)).

Definition Pop (d : Deque) : Deque := with_owner d (OPop (bottom d - 1) (buffer d)).

Definition owner_step (d : Deque) : option Deque :=
  match own d with
  | OIdle => None
  | OPush p b t buf => Some (
      if bool_decide (len (buffer_at d buf) - 1 ≤ b - t) then
        let '(a, bufs) := grow d buf t b in
        mkDeque bufs a (top d) (bottom d) (OStore p b a) (thieves d) (pushed d) (taken d)
      else with_owner d (OStore p b buf))
  | OStore p b buf => Some (
      mkDeque (<[buf := store (buffer_at d buf) b (Some p)]> (buffers d)) (buffer d) (top d) (bottom d) (OPublish p b) (thieves d) (pushed d) (taken d))
  | OPublish p b => Some (mkDeque (buffers d) (buffer d) (top d) (b + 1) OIdle (thieves d) (pushed d ++ [p]) (taken d))
  | OPop b buf => Some (with_bottom d b (OPopTop b buf))
  | OPopTop b buf => Some (
      if bool_decide (top d < b) then take_items d (top d) OIdle (thieves d) [load (buffer_at d buf) b]
      else if bool_decide (b = top d) then with_owner d (OPopLast b (load (buffer_at d buf) b))
      else with_owner d (OFix (top d)))
  | OPopLast t x => Some (
      if bool_decide (top d = t) then take_items d (t + 1) (OFix (t + 1)) (thieves d) [x] else with_owner d (OFix (t + 1)))
  | OFix v => Some (with_bottom d v OIdle)
  end.

(** ** Thieves *)

(** The length of the buffers handed to [StealHalfInto] *)
Context (dst : Z).

Definition batch_size (k : steal) (size : Z) : Z :=
  match k with
  | One => 1
  | Half => let n := size `div` 2 in let n := if bool_decide (n < 1) then 1 else n in if bool_decide (dst < n) then dst else n
  end.

(** [Steal] and [StealHalfInto] *)
Definition Steal (d : Deque) (i : nat) (k : steal) : Deque := with_thieves d (<[i := TBottom k (top d)]> (thieves d)).

Definition thief_step (d : Deque) (i : nat) : option Deque :=
  match thieves d !! i with
  | None => None
  | Some (TBottom k t) => Some (
      if bool_decide (bottom d - t ≤ 0) then with_thieves d (delete i (thieves d))
      else with_thieves d (<[i := TBuffer t (batch_size k (bottom d - t))]> (thieves d)))
  | Some (TBuffer t n) => Some (with_thieves d (<[i := TLoad t n (buffer d) []]> (thieves d)))
  | Some (TLoad t n buf got) => Some (
      let j := Z.of_nat (length got) in
      if bool_decide (j < n) then with_thieves d (<[i := TLoad t n buf (got ++ [load (buffer_at d buf) (t + j)])]> (thieves d))
      else if bool_decide (top d = t) then take_items d (t + n) (own d) (delete i (thieves d)) got
      else with_thieves d (delete i (thieves d)))
  end.

(** ** Runs *)

Inductive label := LPush (p : A) | LPop | LOwner | LSteal (i : nat) (k : steal) | LThief (i : nat).

Definition idle (d : Deque) : bool := match own d with OIdle => true | _ => false end.

Definition act (d : Deque) (l : label) : option Deque :=
  match l with
  | LPush p => if idle d then Some (Push d p) else None
  | LPop => if idle d then Some (Pop d) else None
  | LOwner => owner_step d
  | LSteal i k => match thieves d !! i with None => Some (Steal d i k) | Some _ => None end
  | LThief i => thief_step d i
  end.

Inductive reachable : Deque → Prop :=
| reachable_new capacity : reachable (NewDeque capacity)
| reachable_act d l d' : reachable d → act d l = Some d' → reachable d'.

(** ** What the deque holds *)

(** The end of the items, while the owner is in a call: an item that is being popped is
    held until it was taken. *)
Definition limit (d : Deque) : Z :=
  match own d with
  | OPopTop b _ => b + 1
  | OPopLast t _ => t + 1
  | OFix v => v
  | _ => bottom d
  end.

Definition contents (d : Deque) : list (option A) := load (buffer_at d (buffer d)) <$> seqZ (top d) (limit d - top d).

(** ** Buffers *)

Definition buf_ok (b : dequeBuffer) : Prop := ∃ k, 0 ≤ k ∧ len b = 2 ^ k ∧ mask b = 2 ^ k - 1.

Lemma slot_mod b i : buf_ok b → slot b i = Z.to_nat (i mod len b).
Proof. intros (k & Hk & Hl & Hm). unfold slot. rewrite Hm, Hl, <- Z.land_ones by done. by rewrite Z.ones_equiv, Z.sub_1_r. Qed.

Lemma buf_len_pos b : buf_ok b → 0 < len b.
Proof. intros (k & Hk & -> & _). lia. Qed.

Lemma slot_lt b i : buf_ok b → (slot b i < length (items b))%nat.
Proof. intros Hb. pose proof (buf_len_pos b Hb). rewrite slot_mod by done. pose proof (Z.mod_pos_bound i (len b)). unfold len in *. lia. Qed.

Lemma store_ok b i x : buf_ok b → buf_ok (store b i x).
Proof. intros (k & Hk & Hl & Hm). exists k. unfold len, store in *. cbn. by rewrite length_insert. Qed.

Lemma store_len b i x : len (store b i x) = len b.
Proof. unfold len, store. cbn. by rewrite length_insert. Qed.

Lemma load_store_eq b i x : buf_ok b → load (store b i x) i = x.
Proof. intros Hb. unfold load, store, slot. cbn. rewrite list_lookup_insert_eq; [done|by apply slot_lt]. Qed.

(** Positions less than a buffer apart have slots of their own. *)
Lemma slot_inj b i j : buf_ok b → Z.abs (i - j) < len b → slot b i = slot b j → i = j.
Proof.
  intros Hb Hd. pose proof (buf_len_pos b Hb). rewrite !slot_mod by done. intros He.
  pose proof (Z.mod_pos_bound i (len b)). pose proof (Z.mod_pos_bound j (len b)).
  assert (i mod len b = j mod len b) as Hm by lia. pose proof (Z.div_mod i (len b)) as Di. pose proof (Z.div_mod j (len b)) as Dj.
  assert (i `div` len b = j `div` len b) as Hq; [|rewrite Hq in Di; lia]. rewrite Hm in Di. nia.
Qed.

Lemma load_store_ne b i j x : buf_ok b → i ≠ j → Z.abs (i - j) < len b → load (store b i x) j = load b j.
Proof.
  intros Hb Hne Hd. unfold load, store. cbn. rewrite list_lookup_insert_ne; [done|]. unfold slot at 2. cbn. fold (slot b j).
  intros He. by apply Hne, (slot_inj b).
Qed.

Lemma new_buffer_ok k : 0 ≤ k → buf_ok (new_buffer (2 ^ k)) ∧ len (new_buffer (2 ^ k)) = 2 ^ k.
Proof. intros Hk. assert (len (new_buffer (2 ^ k)) = 2 ^ k) as Hl by (unfold len, new_buffer; cbn; rewrite length_replicate; pose proof (Z.pow_nonneg 2 k); lia). split; [by exists k|done]. Qed.

Lemma round_up_pow fuel k c : 0 ≤ k → ∃ k', 0 ≤ k' ∧ round_up fuel (2 ^ k) c = 2 ^ k'.
Proof.
  revert k. induction fuel as [|f IH]; intros k Hk; cbn; [by exists k|]. destruct (bool_decide _); [|by exists k].
  replace (2 ^ k * 2) with (2 ^ (k + 1)) by (rewrite Z.pow_add_r by lia; lia). apply IH. lia.
Qed.

Lemma copy_items_load n old new i j :
  buf_ok new → Z.of_nat n ≤ len new → i ≤ j < i + Z.of_nat n → load (copy_items n old new i) j = load old j.
Proof.
  assert (∀ n new i j, buf_ok new → j < i → i + Z.of_nat n - j ≤ len new → load (copy_items n old new i) j = load new j) as Hkeep.
  { clear. induction n as [|n IH]; intros new i j Hb Hj Hl; cbn [copy_items]; [done|].
    rewrite IH by (first [by apply store_ok|rewrite ?store_len; lia]). apply load_store_ne; [done|lia|lia]. }
  revert new i. induction n as [|n IH]; intros new i Hb Hl Hj; [lia|]. cbn [copy_items]. destruct (decide (j = i)) as [->|Hne].
  - rewrite Hkeep by (first [by apply store_ok|rewrite ?store_len; lia]). by apply load_store_eq.
  - apply IH; [by apply store_ok|rewrite store_len; lia|lia].
Qed.

Lemma copy_items_ok n old new i : buf_ok new → buf_ok (copy_items n old new i) ∧ len (copy_items n old new i) = len new.
Proof.
  revert new i. induction n as [|n IH]; intros new i Hb; cbn; [done|]. destruct (IH (store new i (load old i)) (i + 1)) as [H1 H2]; [by apply store_ok|].
  by rewrite store_len in H2.
Qed.

(** ** The invariant *)

Definition current (d : Deque) : dequeBuffer := buffer_at d (buffer d).

Definition owner_ok (d : Deque) : Prop :=
  match own d with
  | OIdle => True
  | OPush _ b t buf => b = bottom d ∧ t ≤ top d ∧ buf = buffer d ∧ b - t ≤ len (current d) - 1
  | OStore _ b buf => b = bottom d ∧ buf = buffer d ∧ b + 1 - top d ≤ len (current d) - 1
  | OPublish p b => b = bottom d ∧ b + 1 - top d ≤ len (current d) - 1 ∧ load (current d) b = Some p
  | OPop b buf => b = bottom d - 1 ∧ buf = buffer d
  | OPopTop b buf => b = bottom d ∧ buf = buffer d
  | OPopLast t x => t = bottom d ∧ t ≤ top d ∧ (top d = t → x = load (current d) t)
  | OFix v => top d = v ∧ bottom d ≤ v
  end.

(** What a thief saw is still so if [top] is still what it read. *)
Definition thief_ok (d : Deque) (th : thief) : Prop :=
  match th with
  | TBottom _ t => t ≤ top d
  | TBuffer t n => (n = 0 ∨ n = 1) ∧ t ≤ top d ∧ (top d = t → t < limit d)
  | TLoad t n buf got =>
      (n = 0 ∨ n = 1) ∧ t ≤ top d ∧ is_Some (buffers d !! buf) ∧ Z.of_nat (length got) ≤ n ∧
      (top d = t → t < limit d ∧ load (buffer_at d buf) t = load (current d) t ∧ (got = [] ∨ got = [load (current d) t]))
  end.

Record deque_ok (d : Deque) : Prop := {
  dq_bufs : ∀ a b, buffers d !! a = Some b → buf_ok b;
  dq_cur : (buffer d < length (buffers d))%nat;
  dq_range : top d ≤ limit d;
  dq_room : limit d - top d ≤ len (current d) - 1;
  dq_owner : owner_ok d;
  dq_full : ∀ i, top d ≤ i < limit d → is_Some (load (current d) i);
  dq_thieves : ∀ i th, thieves d !! i = Some th → thief_ok d th;
  dq_all : pushed d ≡ₚ taken d ++ omap id (contents d)
}.

Lemma current_ok d : deque_ok d → buf_ok (current d).
Proof.
  intros H. unfold current, buffer_at. destruct (lookup_lt_is_Some_2 _ _ (dq_cur d H)) as [b Hb]. rewrite Hb. by apply (dq_bufs d H (buffer d)).
Qed.

Lemma bottom_le d : owner_ok d → bottom d ≤ limit d.
Proof. unfold owner_ok, limit. destruct (own d); cbn; lia. Qed.

Lemma contents_ext d d' :
  top d' = top d → limit d' = limit d → (∀ i, top d ≤ i < limit d → load (current d') i = load (current d) i) → contents d' = contents d.
Proof.
  intros Ht Hl Hi. unfold contents. rewrite Ht, Hl. apply list_fmap_ext. intros j i Hj. apply lookup_seqZ in Hj as [-> Hj]. apply Hi. lia.
Qed.

(** Thieves do not notice what leaves the item at [top] alone. *)
Lemma thief_keep d d' th :
  thief_ok d th → top d ≤ top d' → (∀ a, is_Some (buffers d !! a) → is_Some (buffers d' !! a)) →
  (top d' = top d → top d < limit d →
     top d < limit d' ∧ load (current d') (top d) = load (current d) (top d) ∧
     ∀ a, is_Some (buffers d !! a) → load (buffer_at d' a) (top d) = load (buffer_at d a) (top d)) →
  thief_ok d' th.
Proof.
  intros Hth Ht Hb Hk. destruct th as [k t|t n|t n buf got]; cbn in *.
  - lia.
  - destruct Hth as (Hn & Hle & Hl). split_and!; [done|lia|]. intros <-. assert (top d' = top d) as E by lia. rewrite E in *.
    by apply (Hk eq_refl), Hl.
  - destruct Hth as (Hn & Hle & Hs & Hg & Hl). split_and!; [done|lia|by apply Hb|done|]. intros <-. assert (top d' = top d) as E by lia. rewrite E in *.
    destruct (Hl eq_refl) as (H1 & H2 & H3). destruct (Hk eq_refl H1) as (K1 & K2 & K3). rewrite K2, (K3 buf Hs). done.
Qed.

(** Steps that leave the memory alone: only the owner's or the thieves' places change. *)
Lemma local_ok d d' :
  deque_ok d → buffers d' = buffers d → buffer d' = buffer d → top d' = top d → limit d' = limit d → pushed d' = pushed d → taken d' = taken d →
  owner_ok d' → (∀ i th, thieves d' !! i = Some th → thief_ok d' th) → deque_ok d'.
Proof.
  intros [H1 H2 H3 H4 H5 H6 H7 H8] Eb Ec Et El Ep Ek Ho Hth. assert (∀ a, buffer_at d' a = buffer_at d a) as Ea by (intros a; unfold buffer_at; by rewrite Eb).
  assert (current d' = current d) as Ecur by (unfold current; by rewrite Ec, Ea).
  assert (contents d' = contents d) as Ect by (apply contents_ext; [done|done|]; by rewrite Ecur).
  split; rewrite ?Eb, ?Ec, ?Et, ?El, ?Ecur, ?Ect, ?Ep, ?Ek; try done.
Qed.

Lemma owner_local d o :
  deque_ok d → limit (with_owner d o) = limit d → owner_ok (with_owner d o) → deque_ok (with_owner d o).
Proof.
  intros H Hl Ho. apply (local_ok d); try done. intros i th Hi. apply (thief_keep d); [by apply (dq_thieves d H i)|done|done|]. intros _ Hlt. rewrite Hl. done.
Qed.

Lemma thieves_local d ts :
  deque_ok d → (∀ i th, ts !! i = Some th → thieves d !! i = Some th ∨ thief_ok d th) → deque_ok (with_thieves d ts).
Proof.
  intros H Ht. apply (local_ok d); try done; [exact (dq_owner d H)|]. intros i th Hi.
  destruct (Ht i th Hi) as [Hd|Hd]; [apply (dq_thieves d H) in Hd|]; exact Hd.
Qed.

(** ** The owner keeps the invariant *)

Lemma buffer_at_snoc d bufs b a : is_Some (buffers d !! a) → bufs = buffers d ++ [b] → default (mkBuf [] 0) (bufs !! a) = buffer_at d a.
Proof. intros [x Hx] ->. unfold buffer_at. rewrite lookup_app_l by (by apply lookup_lt_Some in Hx). done. Qed.

Lemma grow_ok d p b t buf a bufs :
  deque_ok d → own d = OPush p b t buf → len (current d) - 1 ≤ b - t → grow d buf t b = (a, bufs) →
  deque_ok (mkDeque bufs a (top d) (bottom d) (OStore p b a) (thieves d) (pushed d) (taken d)).
Proof.
  intros H Hown Hfull Hg. pose proof (current_ok d H) as Hc. destruct H as [H1 H2 H3 H4 H5 H6 H7 H8]. unfold owner_ok in H5. rewrite Hown in H5.
  destruct H5 as (-> & Hle & -> & Hsize). unfold grow in Hg. injection Hg as Ea Eb. fold (current d) in Eb.
  pose proof (buf_len_pos _ Hc) as Hpos. destruct Hc as (k & Hk & Hlen & Hmask).
  destruct (new_buffer_ok (k + 1)) as [Hnew Hnl]; [lia|]. replace (len (current d) * 2) with (2 ^ (k + 1)) in Eb by (rewrite Hlen, Z.pow_add_r; lia).
  set (new := copy_items (Z.to_nat (bottom d - t)) (current d) (new_buffer (2 ^ (k + 1))) t) in *.
  assert (buf_ok new ∧ len new = 2 * len (current d)) as [Hnok Hnlen].
  { destruct (copy_items_ok (Z.to_nat (bottom d - t)) (current d) (new_buffer (2 ^ (k + 1))) t Hnew) as [C1 C2]. split; [done|]. fold new in C2. rewrite C2, Hnl, Hlen, Z.pow_add_r; lia. }
  subst a bufs. assert (limit d = bottom d) as Hlim by (unfold limit; by rewrite Hown).
  set (a := length (buffers d)). set (bufs := buffers d ++ [new]). set (d' := mkDeque bufs a (top d) (bottom d) (OStore p (bottom d) a) (thieves d) (pushed d) (taken d)).
  assert (current d' = new) as Ecur. { unfold current, buffer_at. cbn. unfold bufs. by rewrite list_lookup_middle. }
  assert (∀ i, top d ≤ i < limit d → load (current d') i = load (current d) i) as Hload.
  { intros i Hi. rewrite Ecur. apply copy_items_load; [done| |]; rewrite ?Hnl, ?Z.pow_add_r; lia. }
  assert (∀ x, is_Some (buffers d !! x) → buffer_at d' x = buffer_at d x) as Hat by (intros x Hx; by eapply buffer_at_snoc).
  assert (limit d' = limit d) as Hl' by (by rewrite Hlim). split; rewrite ?Hl'; cbn [top buffer buffers pushed taken]; try change (top d') with (top d).
  - intros x y Hy. change (bufs !! x = Some y) in Hy. apply lookup_app_Some in Hy as [Hx|[_ Hx]]; [by eapply H1|]. apply list_lookup_singleton_Some in Hx as [_ <-]. done.
  - change (a < length bufs)%nat. unfold a, bufs. rewrite length_app. cbn. lia.
  - done.
  - rewrite Ecur, Hnlen. lia.
  - cbn. rewrite Ecur, Hnlen. split_and!; [done|done|lia].
  - intros i Hi. rewrite Hload by done. by apply H6.
  - intros i th Hi. apply (thief_keep d); [by eapply H7|done| |].
    + intros x [y Hy]. exists y. by apply lookup_app_l_Some.
    + intros _ Hlt. rewrite Hl'. split_and!; [done|apply Hload; lia|]. intros x Hx. by rewrite Hat.
  - rewrite (contents_ext d d'); done.
Qed.

Lemma store_step_ok d p b buf :
  deque_ok d → own d = OStore p b buf →
  deque_ok (mkDeque (<[buf := store (buffer_at d buf) b (Some p)]> (buffers d)) (buffer d) (top d) (bottom d) (OPublish p b) (thieves d) (pushed d) (taken d)).
Proof.
  intros H Hown. pose proof (current_ok d H) as Hc. destruct H as [H1 H2 H3 H4 H5 H6 H7 H8]. unfold owner_ok in H5. rewrite Hown in H5.
  destruct H5 as (-> & -> & Hroom). fold (current d). assert (limit d = bottom d) as Hlim by (unfold limit; by rewrite Hown).
  set (bufs := <[buffer d := store (current d) (bottom d) (Some p)]> (buffers d)).
  set (d' := mkDeque bufs (buffer d) (top d) (bottom d) (OPublish p (bottom d)) (thieves d) (pushed d) (taken d)). assert (current d' = store (current d) (bottom d) (Some p)) as Ecur.
  { unfold current at 1, buffer_at. cbn. unfold bufs. by rewrite list_lookup_insert_eq. }
  assert (∀ i, top d ≤ i < limit d → load (current d') i = load (current d) i) as Hload.
  { intros i Hi. rewrite Ecur. apply load_store_ne; [done|lia|lia]. }
  assert (limit d' = limit d) as Hl' by (by rewrite Hlim).
  split; rewrite ?Hl'; cbn [top buffer buffers pushed taken]; try change (top d') with (top d).
  - intros x y Hy. change (bufs !! x = Some y) in Hy. apply list_lookup_insert_Some in Hy as [(_ & <- & _)|[_ Hy]]; [by apply store_ok|by eapply H1].
  - change (buffer d < length bufs)%nat. unfold bufs. by rewrite length_insert.
  - done.
  - rewrite Ecur, store_len. done.
  - cbn. rewrite Ecur, store_len. split_and!; [done|done|by apply load_store_eq].
  - intros i Hi. rewrite Hload by done. by apply H6.
  - intros i th Hi. apply (thief_keep d); [by eapply H7|done| |].
    + intros x Hx. change (is_Some (bufs !! x)). apply lookup_lt_is_Some. unfold bufs. rewrite length_insert. by apply lookup_lt_is_Some.
    + intros _ Hlt. rewrite Hl'. split_and!; [done|apply Hload; lia|]. intros x Hx. destruct (decide (x = buffer d)) as [->|Hne]; [apply Hload; lia|].
      unfold buffer_at. cbn. unfold bufs. by rewrite list_lookup_insert_ne.
  - rewrite (contents_ext d d'); done.
Qed.

Lemma contents_snoc d d' :
  current d' = current d → top d' = top d → limit d' = limit d + 1 → top d ≤ limit d → contents d' = contents d ++ [load (current d) (limit d)].
Proof.
  intros Ec Et El Hle. unfold contents. fold (current d'). fold (current d). rewrite Ec, Et, El.
  replace (limit d + 1 - top d) with ((limit d - top d) + 1) by lia. rewrite seqZ_app, fmap_app by lia.
  replace (top d + (limit d - top d)) with (limit d) by lia. done.
Qed.

Lemma publish_ok d p b :
  deque_ok d → own d = OPublish p b → deque_ok (mkDeque (buffers d) (buffer d) (top d) (b + 1) OIdle (thieves d) (pushed d ++ [p]) (taken d)).
Proof.
  intros [H1 H2 H3 H4 H5 H6 H7 H8] Hown. unfold owner_ok in H5. rewrite Hown in H5. destruct H5 as (-> & Hroom & Hp).
  assert (limit d = bottom d) as Hlim by (unfold limit; by rewrite Hown). set (d' := mkDeque _ _ _ _ _ _ _ _).
  assert (limit d' = limit d + 1) as Hl' by (by rewrite Hlim). change (current d) with (current d') in *. split; rewrite ?Hl'; cbn [top buffer buffers pushed taken]; try change (top d') with (top d); try done.
  - lia.
  - lia.
  - intros i Hi. destruct (decide (i = bottom d)) as [->|Hne]; [by rewrite Hp|apply H6; lia].
  - intros i th Hi. apply (thief_keep d); [by eapply H7|done|done|]. intros _ Hlt. rewrite Hl'. split_and!; [lia|done|done].
  - rewrite (contents_snoc d d'), Hlim by (try done; lia). change (current d) with (current d'). rewrite Hp, omap_app.
    change (pushed d ++ [p] ≡ₚ taken d ++ omap id (contents d) ++ [p]). rewrite H8. by rewrite app_assoc.
Qed.

(** Taking the items at one end *)
Lemma taken_ok d d' x :
  deque_ok d → buffers d' = buffers d → buffer d' = buffer d → pushed d' = pushed d → taken d' = taken d ++ omap id [x] →
  top d ≤ top d' ≤ limit d' → limit d' ≤ limit d → contents d ≡ₚ x :: contents d' → owner_ok d' →
  (∀ i th, thieves d' !! i = Some th → thieves d !! i = Some th) → (top d' = top d → top d < limit d → top d < limit d') → deque_ok d'.
Proof.
  intros [H1 H2 H3 H4 H5 H6 H7 H8] Eb Ec Ep Ek Ht Hl Hx Ho Hth Hlt. assert (∀ a, buffer_at d' a = buffer_at d a) as Ea by (intros a; unfold buffer_at; by rewrite Eb).
  assert (current d' = current d) as Ecur by (unfold current; by rewrite Ec, Ea).
  split; rewrite ?Eb, ?Ec, ?Ecur; try done; try lia.
  - intros i Hi. apply H6. lia.
  - intros i th Hi. apply (thief_keep d); [by eapply H7, Hth|lia|by rewrite Eb|]. intros E Hlim. split_and!; [by apply Hlt|by rewrite Ecur|intros a _; by rewrite Ea].
  - rewrite Ep, Ek, H8, Hx, <- app_assoc. by destruct x.
Qed.

Lemma contents_first d d' :
  current d' = current d → top d' = top d + 1 → limit d' = limit d → top d < limit d → contents d = load (current d) (top d) :: contents d'.
Proof.
  intros Ec Et El Hlt. unfold contents. fold (current d'). fold (current d). rewrite Ec, Et, El.
  rewrite (seqZ_cons (top d)) by lia. cbn. do 3 f_equal; lia.
Qed.

Lemma pop_top_ok d b buf d' : deque_ok d → own d = OPopTop b buf → owner_step d = Some d' → deque_ok d'.
Proof.
  intros H Hown. unfold owner_step. rewrite Hown. intros [= <-]. pose proof (dq_owner d H) as Ho. unfold owner_ok in Ho. rewrite Hown in Ho. destruct Ho as [-> ->].
  assert (limit d = bottom d + 1) as Hlim by (unfold limit; by rewrite Hown). pose proof (dq_range d H) as Hr. rewrite Hlim in Hr. fold (current d).
  destruct (bool_decide_reflect (top d < bottom d)) as [Hlt|Hge].
  - set (d' := take_items _ _ _ _ _). assert (contents d = contents d' ++ [load (current d') (limit d')]) as Hc.
    { apply contents_snoc; try done. change (top d ≤ bottom d). lia. }
    apply (taken_ok d d' (load (current d) (bottom d))); try done.
    + change (top d ≤ top d ≤ bottom d). lia.
    + change (bottom d ≤ limit d). lia.
    + rewrite Hc. by rewrite <- Permutation_cons_append.
  - destruct (bool_decide_reflect (bottom d = top d)) as [He|Hne].
    + apply owner_local; [done|by rewrite Hlim|]. cbn. split_and!; [done|lia|by intros _].
    + apply owner_local; [done|cbn; lia|]. cbn. lia.
Qed.

Lemma pop_last_ok d t x d' : deque_ok d → own d = OPopLast t x → owner_step d = Some d' → deque_ok d'.
Proof.
  intros H Hown. unfold owner_step. rewrite Hown. intros [= <-]. pose proof (dq_owner d H) as Ho. unfold owner_ok in Ho. rewrite Hown in Ho. destruct Ho as (Hb & Hle & Hx).
  assert (limit d = t + 1) as Hlim by (unfold limit; by rewrite Hown). pose proof (dq_range d H) as Hr.
  destruct (bool_decide_reflect (top d = t)) as [He|Hne].
  - specialize (Hx He). apply (taken_ok d _ x); try done.
    + cbn. lia.
    + cbn. lia.
    + rewrite (contents_first d (take_items d (t + 1) (OFix (t + 1)) (thieves d) [x])) by (first [done|cbn; lia]). by rewrite He, Hx.
    + cbn. lia.
    + cbn. lia.
  - apply owner_local; [done|by rewrite Hlim|]. cbn. lia.
Qed.

Lemma owner_step_ok d d' : deque_ok d → owner_step d = Some d' → deque_ok d'.
Proof.
  intros H Hs. pose proof Hs as Hs'. unfold owner_step in Hs'. pose proof (dq_owner d H) as Ho. unfold owner_ok in Ho.
  destruct (own d) as [|p b t buf|p b buf|p b|b buf|b buf|t x|v] eqn:Hown; try done.
  - destruct (bool_decide_reflect (len (buffer_at d buf) - 1 ≤ b - t)) as [Hfull|Hroom].
    + destruct (grow d buf t b) as [a bufs] eqn:Hg. injection Hs' as <-. destruct Ho as (_ & _ & Hbuf & _). rewrite Hbuf in Hfull. by eapply grow_ok.
    + injection Hs' as <-. destruct Ho as (-> & Ht & -> & Hsize). apply owner_local; [done|unfold limit; by rewrite Hown|].
      fold (current d) in Hroom. split_and!; [done|done|]. change (bottom d + 1 - top d ≤ len (current d) - 1). lia.
  - injection Hs' as <-. by apply store_step_ok.
  - injection Hs' as <-. by apply publish_ok.
  - injection Hs' as <-. destruct Ho as [-> ->]. apply (local_ok d); try done; [unfold limit; rewrite Hown; cbn; lia|].
    intros i th Hi. apply (thief_keep d); [by eapply dq_thieves|done|done|]. intros _. unfold limit. rewrite Hown. cbn. intros Hlt. split_and!; [lia|done|done].
  - by eapply pop_top_ok.
  - by eapply pop_last_ok.
  - injection Hs' as <-. destruct Ho as [Ht Hb]. apply (local_ok d); try done; [unfold limit; by rewrite Hown|].
    intros i th Hi. apply (thief_keep d); [by eapply dq_thieves|done|done|]. intros _. unfold limit. rewrite Hown. cbn. intros Hlt. split_and!; [lia|done|done].
Qed.

(** ** Thieves keep it when they take one item at a time *)

Lemma batch_size_one k size : 0 ≤ dst ≤ 1 → 0 ≤ batch_size k size ≤ 1.
Proof. intros Hd. destruct k; cbn; [lia|]. repeat case_bool_decide; lia. Qed.

(** The owner after a thief has taken the item at [top] *)
Lemma owner_robbed d t ts xs : owner_ok d → top d = t → t < limit d → owner_ok (take_items d (t + 1) (own d) ts xs) ∧ limit (take_items d (t + 1) (own d) ts xs) = limit d.
Proof.
  intros Ho E Hlt. split; [|done]. revert Ho Hlt. unfold owner_ok, limit. cbn [own take_items top bottom buffer].
  change (current (take_items d (t + 1) (own d) ts xs)) with (current d).
  destruct (own d); cbn; intros Ho Hlt; try tauto; try (split_and!; first [tauto|lia]).
Qed.

Lemma thief_step_ok d i d' : 0 ≤ dst ≤ 1 → deque_ok d → thief_step d i = Some d' → deque_ok d'.
Proof.
  intros Hdst H. unfold thief_step. destruct (thieves d !! i) as [th|] eqn:Hi; [|done]. pose proof (dq_thieves d H i th Hi) as Hth.
  assert (∀ j x, delete i (thieves d) !! j = Some x → thieves d !! j = Some x) as Hdel by (intros j x [_ Hj]%lookup_delete_Some; done).
  assert (∀ th', thief_ok d th' → deque_ok (with_thieves d (<[i := th']> (thieves d)))) as Hput.
  { intros th' Hok. apply thieves_local; [done|]. intros j x [[<- <-]|[_ Hj]]%lookup_insert_Some; auto. }
  assert (deque_ok (with_thieves d (delete i (thieves d)))) as Hgone by (apply thieves_local; [done|]; auto).
  destruct th as [k t|t n|t n buf got]; intros [= <-].
  - destruct (bool_decide_reflect (bottom d - t ≤ 0)) as [He|Hne]; [done|]. apply Hput. cbn in Hth |- *.
    split_and!; [pose proof (batch_size_one k (bottom d - t) Hdst); lia|done|]. intros _. pose proof (bottom_le d (dq_owner d H)). lia.
  - apply Hput. cbn in Hth |- *. destruct Hth as (Hn & Hle & Hl). split_and!; [done|done| |cbn; lia|].
    + apply lookup_lt_is_Some. apply (dq_cur d H).
    + intros E. split_and!; [by apply Hl|done|by left].
  - destruct Hth as (Hn & Hle & Hs & Hg & Hl). destruct (bool_decide_reflect (Z.of_nat (length got) < n)) as [Hlt|Hge].
    + assert (got = []) as -> by (destruct got; [done|cbn in Hlt; lia]). apply Hput. cbn. split_and!; [done|done|done|lia|].
      intros E. destruct (Hl E) as (L1 & L2 & _). rewrite Z.add_0_r. split_and!; [done|done|right; by rewrite L2].
    + destruct (bool_decide_reflect (top d = t)) as [E|Hne]; [|done]. destruct (Hl E) as (L1 & L2 & L3). destruct (decide (0 < n)) as [Hpos|Hnon].
      * assert (n = 1) as -> by lia. destruct L3 as [->| ->]; [cbn in Hge; lia|].
        destruct (owner_robbed d t (delete i (thieves d)) [load (current d) t] (dq_owner d H) E L1) as [Ho Hlim].
        apply (taken_ok d _ (load (current d) t)); try done; rewrite ?Hlim; cbn [take_items top]; try lia.
        rewrite (contents_first d (take_items d (t + 1) (own d) (delete i (thieves d)) [load (current d) t])) by (first [done|cbn; lia]). by rewrite E.
      * assert (n = 0) as -> by lia. destruct got; [|cbn in Hg; lia]. unfold take_items. cbn. rewrite app_nil_r, Z.add_0_r, <- E. exact Hgone.
Qed.

Lemma act_ok d l d' : 0 ≤ dst ≤ 1 → deque_ok d → act d l = Some d' → deque_ok d'.
Proof.
  intros Hdst H. destruct l as [p| | |i k|i]; cbn [act].
  - unfold idle. destruct (own d) eqn:Hown; try done. intros [= <-]. apply owner_local; [done|unfold limit; by rewrite Hown|].
    pose proof (dq_room d H) as Hr. unfold limit in Hr. rewrite Hown in Hr. split_and!; [done|done|done|exact Hr].
  - unfold idle. destruct (own d) eqn:Hown; try done. intros [= <-]. apply owner_local; [done|unfold limit; by rewrite Hown|]. done.
  - apply owner_step_ok. done.
  - destruct (thieves d !! i); [done|]. intros [= <-]. apply thieves_local; [done|]. intros j x [[<- <-]|[_ Hj]]%lookup_insert_Some; [right; cbn; lia|by left].
  - by apply thief_step_ok.
Qed.

Lemma new_ok capacity : deque_ok (NewDeque capacity).
Proof.
  destruct (round_up_pow (Z.to_nat capacity) 0 capacity) as (k & Hk & He); [done|]. change (2 ^ 0) with 1 in He.
  destruct (new_buffer_ok k Hk) as [Hb Hl]. unfold NewDeque. rewrite He. pose proof (Z.pow_pos_nonneg 2 k). split; cbn [buffers buffer top own bottom thieves pushed taken]; try done.
  - intros a b [_ <-]%list_lookup_singleton_Some. done.
  - cbn. lia.
  - change (0 - 0 ≤ len (new_buffer (2 ^ k)) - 1). lia.
  - cbn. lia.
Qed.

Lemma deque_reachable_ok d : 0 ≤ dst ≤ 1 → reachable d → deque_ok d.
Proof. intros Hdst. induction 1 as [c|d l d' _ IH Ha]; [apply new_ok|by eapply act_ok]. Qed.

(** ** What the deque promises *)

(** C19. When thieves take one item at a time ([Steal], or [StealHalfInto] with room for
    one), nothing is lost and nothing is taken twice, in every interleaving of the owner
    with any number of thieves: the items pushed are those taken and those the deque holds;
    and when the owner is between calls it holds as many as [Len] says. *)
Theorem deque_conserves d :
  0 ≤ dst ≤ 1 → reachable d →
  pushed d ≡ₚ taken d ++ omap id (contents d) ∧
  (own d = OIdle → Z.of_nat (length (omap id (contents d))) = bottom d - top d).
Proof.
  intros Hdst Hr. pose proof (deque_reachable_ok d Hdst Hr) as H. split; [apply (dq_all d H)|]. intros Hown.
  assert (∀ l : list (option A), (∀ x, x ∈ l → is_Some x) → length (omap id l) = length l) as Hlen.
  { clear. induction l as [|x l IH]; intros Hl; [done|]. cbn. destruct (Hl x ltac:(by left)) as [y ->]. cbn. rewrite IH; [done|]. intros z Hz. apply Hl. by right. }
  rewrite Hlen.
  - unfold contents. rewrite length_fmap, length_seqZ. pose proof (dq_range d H) as Hr'. unfold limit in *. rewrite Hown in *. lia.
  - intros x (i & -> & Hi)%list_elem_of_fmap. apply elem_of_seqZ in Hi. apply (dq_full d H). lia.
Qed.

(** Running a list of labels *)
Fixpoint run (d : Deque) (ls : list label) : option Deque :=
  match ls with [] => Some d | l :: ls => match act d l with Some d' => run d' ls | None => None end end.

Lemma run_reachable d ls d' : reachable d → run d ls = Some d' → reachable d'.
Proof.
  revert d. induction ls as [|l ls IH]; intros d Hr; cbn; [by intros [= <-]|]. destruct (act d l) as [d1|] eqn:Ha; [|done]. apply IH. by eapply reachable_act.
Qed.
End deque.

(** ** Runs *)

Section demo.

Definition owner_steps (n : nat) : list (label (A := nat)) := replicate n LOwner.

Definition thief_steps (i n : nat) : list (label (A := nat)) := replicate n (LThief i).

(** Pushing into a deque with room, popping one of several items, and finding none *)
Definition push (p : nat) : list label := LPush p :: owner_steps 3.
Definition pop : list label := LPop :: owner_steps 2.
Definition pop_none : list label := LPop :: owner_steps 3.

Definition final (dst : Z) (ls : list (label (A := nat))) : Deque := default (NewDeque 8) (run dst (NewDeque 8) ls).

(** Two items, one popped and one stolen meanwhile *)
Definition shared_run : list label := push 1 ++ push 2 ++ [LSteal 0 One] ++ thief_steps 0 2 ++ pop ++ thief_steps 0 2.

Lemma final_reachable dst ls : is_Some (run dst (NewDeque 8) ls) → reachable dst (final dst ls).
Proof. intros [d Hd]. unfold final. rewrite Hd. eapply run_reachable; [apply reachable_new|exact Hd]. Qed.

Lemma deque_conserves_witness :
  taken (final 1 shared_run) = [2; 1]%nat ∧ pushed (final 1 shared_run) ≡ₚ taken (final 1 shared_run) ++ omap id (contents (final 1 shared_run)).
Proof.
  split; [vm_compute; reflexivity|]. apply (deque_conserves 1 (final 1 shared_run)); [lia|]. apply final_reachable. vm_compute. eexists. reflexivity.
Defined.

(** The workers steal into a buffer of 32. *)
Definition batchBuf : Z := 32.

(** Four items. A thief has read [top], [bottom] and two items when the owner pops three:
    its compare-and-swap still succeeds, and one item is taken twice. *)
Definition duplicating_run : list label :=
  push 1 ++ push 2 ++ push 3 ++ push 4 ++ [LSteal 0 Half] ++ thief_steps 0 4 ++ pop ++ pop ++ pop ++ thief_steps 0 1.

Lemma half_steal_duplicates :
  reachable batchBuf (final batchBuf duplicating_run) ∧ pushed (final batchBuf duplicating_run) = [1; 2; 3; 4]%nat ∧
  taken (final batchBuf duplicating_run) = [4; 3; 2; 1; 2]%nat.
Proof. split; [apply final_reachable; vm_compute; by eexists|]. vm_compute. done. Qed.

(** After that [top] is past [bottom], and the next item pushed lies below [top]: it is
    neither taken nor in the deque, which is empty. *)
Definition losing_run : list label := duplicating_run ++ push 5 ++ pop_none.

Lemma half_steal_loses :
  let d := final batchBuf losing_run in
  reachable batchBuf d ∧ (5 ∈ pushed d)%nat ∧ (5 ∉ taken d)%nat ∧ own d = OIdle ∧ thieves d = ∅ ∧ bottom d = top d.
Proof.
  split; [apply final_reachable; vm_compute; by eexists|]. split_and!; [vm_compute; set_solver|vm_compute; set_solver|vm_compute; reflexivity..].
Qed.

End demo.
End Deque.
