(* ===== verification/RunQueue.v ===== *)
(** * The queues of the scheduler ([system/scheduler/actor/queue.go], [inject.go])

    [Queue] is the global run queue, a ring buffer under a mutex that doubles when it is
    full. Its length is also kept in an atomic 32-bit counter, which readers consult without
    the lock.

    [Inject] is the queue by which other goroutines return a processor to its worker: a
    linked list with many producers and one consumer. A producer swaps the head for its
    node and links its predecessor to it afterwards, so for a while the list is broken; the
    consumer takes nodes from the tail and gives them back to a pool, from which producers
    draw. The model interleaves them at the atomic accesses: taking and preparing a node,
    the swap, the link, the consumer's step along a link, and the release of the old node.

    The theorems: the ring buffer is a first-in-first-out queue; the processors that the
    consumer of [Inject] gets are, in order, the first of those that were swapped in, none is
    lost or repeated while nodes are reused, and the consumer finds nothing only when
    nothing is there or the next link is still to be made. *)

From S2P Require Import Prelude.

(** ** The global queue *)

Module Queue.

Section queue.
Context {A : Type}.

Definition i32 (z : Z) : Z := let u := z mod 2 ^ 32 in if bool_decide (u < 2 ^ 31) then u else u - 2 ^ 32.

Record Queue := mkQueue { items : list (option A); head : Z; tail : Z; count : Z; atomicLen : Z }.

Definition cap (q : Queue) : Z := Z.of_nat (length (items q)).

Definition NewQueue (capacity : Z) : Queue :=
  let capacity := if bool_decide (capacity < 16) then 16 else capacity in
  mkQueue (replicate (Z.to_nat capacity) None) 0 0 0 0.

Definition at_ (q : Queue) (i : Z) : option A := mjoin (items q !! Z.to_nat i).

Definition grow (q : Queue) : Queue :=
  let newCap := cap q * 2 in
  let kept := (λ i, at_ q ((head q + i) mod cap q)) <$> seqZ 0 (count q) in
  mkQueue (kept ++ replicate (Z.to_nat (newCap - count q)) None) 0 (count q) (count q) (atomicLen q).

Definition Push (q : Queue) (p : A) : Queue :=
  let q := if bool_decide (count q = cap q) then grow q else q in
  mkQueue (<[Z.to_nat (tail q) := Some p]> (items q)) (head q) ((tail q + 1) mod cap q) (count q + 1) (i32 (atomicLen q + 1)).

(** Taking the item at the head *)
Definition shift (q : Queue) : option A * Queue :=
  (at_ q (head q), mkQueue (<[Z.to_nat (head q) := None]> (items q)) ((head q + 1) mod cap q) (tail q) (count q) (atomicLen q)).

Definition taken (q : Queue) (n : Z) : Queue := mkQueue (items q) (head q) (tail q) (count q - n) (i32 (atomicLen q - n)).

Definition Pop (q : Queue) : option A * Queue :=
  if bool_decide (atomicLen q = 0) then (None, q)
  else if bool_decide (count q = 0) then (None, q)
  else let '(p, q) := shift q in (p, taken q 1).

Fixpoint shift_n (n : nat) (q : Queue) : list (option A) * Queue :=
  match n with O => ([], q) | S n => let '(p, q) := shift q in let '(ps, q) := shift_n n q in (p :: ps, q) end.

(** [PopN] with a destination of length [dst] *)
Definition PopN (q : Queue) (dst : Z) : list (option A) * Queue :=
  if bool_decide (atomicLen q = 0) then ([], q)
  else
    let n := if bool_decide (dst < count q) then dst else count q in
    let '(ps, q) := shift_n (Z.to_nat n) q in (ps, taken q n).

Definition Len (q : Queue) : Z := atomicLen q.

Definition IsEmpty (q : Queue) : bool := bool_decide (atomicLen q = 0).

(** *** The ring holds a list *)

Record ring (q : Queue) (l : list A) : Prop := {
  rg_cap : 0 < cap q;
  rg_head : 0 ≤ head q < cap q;
  rg_count : count q = Z.of_nat (length l);
  rg_fits : count q ≤ cap q;
  rg_tail : tail q = (head q + count q) mod cap q;
  rg_items : ∀ i x, l !! i = Some x → at_ q ((head q + Z.of_nat i) mod cap q) = Some x
}.

(** The counter outside the lock agrees as long as it does not overflow. *)
Definition queue_ok (q : Queue) (l : list A) : Prop := ring q l ∧ atomicLen q = i32 (Z.of_nat (length l)).

Lemma i32_small z : 0 ≤ z < 2 ^ 31 → i32 z = z.
Proof. intros Hz. unfold i32. rewrite Z.mod_small by lia. by_bool. Qed.

Lemma i32_shift z w n : z = i32 w → i32 (z + n) = i32 (w + n).
Proof.
  intros ->. unfold i32. assert (∀ a, (if bool_decide (a mod 2 ^ 32 < 2 ^ 31) then a mod 2 ^ 32 else a mod 2 ^ 32 - 2 ^ 32) mod 2 ^ 32 = a mod 2 ^ 32) as Hmod.
  { intros a. case_bool_decide; [by rewrite Z.mod_mod|]. rewrite <- Zminus_mod_idemp_r, Z_mod_same_full, Z.sub_0_r. by rewrite Z.mod_mod. }
  assert (∀ a, (let u := a mod 2 ^ 32 in if bool_decide (u < 2 ^ 31) then u else u - 2 ^ 32) mod 2 ^ 32 = a mod 2 ^ 32) as Hmod' by exact Hmod.
  rewrite <- Zplus_mod_idemp_l, Hmod', Zplus_mod_idemp_l. done.
Qed.

Lemma at_insert q i j x :
  0 ≤ i < cap q → 0 ≤ j < cap q →
  at_ (mkQueue (<[Z.to_nat i := x]> (items q)) (head q) (tail q) (count q) (atomicLen q)) j = if bool_decide (i = j) then x else at_ q j.
Proof.
  intros Hi Hj. unfold at_, cap in *. cbn. case_bool_decide as He.
  - subst. rewrite list_lookup_insert_eq by lia. done.
  - rewrite list_lookup_insert_ne by lia. done.
Qed.

Lemma mod_ne (a i j n : Z) : 0 < n → 0 ≤ i < n → 0 ≤ j < n → (a + i) mod n = (a + j) mod n → i = j.
Proof.
  intros Hn Hi Hj He. assert ((i - j) mod n = 0) as Hz.
  { replace (i - j) with ((a + i) - (a + j)) by lia. rewrite Zminus_mod, He, Z.sub_diag. by rewrite Z.mod_0_l by lia. }
  apply Z.mod_divide in Hz as [k Hk]; [|lia]. assert (k < 1) by nia. assert (-1 < k) by nia. assert (k = 0) as -> by lia. lia.
Qed.

Lemma ring_new capacity : queue_ok (NewQueue capacity) [].
Proof.
  unfold NewQueue. set (c := if bool_decide (capacity < 16) then 16 else capacity). assert (16 ≤ c) as Hc by (unfold c; case_bool_decide; lia).
  assert (cap (mkQueue (replicate (Z.to_nat c) (@None A)) 0 0 0 0) = c) as Hcap by (unfold cap; cbn; rewrite length_replicate; lia).
  split; [|done]. split; rewrite ?Hcap; cbn; [lia|lia|done|lia|by rewrite Z.mod_0_l by lia|done].
Qed.

Lemma ring_grow q l : ring q l → ring (grow q) l ∧ cap (grow q) = 2 * cap q ∧ atomicLen (grow q) = atomicLen q.
Proof.
  intros [H1 H2 H3 H4 H5 H6]. assert (cap (grow q) = 2 * cap q) as Hc.
  { unfold cap at 1, grow. cbn. rewrite length_app, length_fmap, length_seqZ, length_replicate. unfold cap in *. lia. }
  split; [|done]. split; rewrite ?Hc; cbn [grow head tail count]; [lia|lia|done|lia| |].
  - rewrite Z.mod_small by lia. lia.
  - intros i x Hi. pose proof (lookup_lt_Some _ _ _ Hi). rewrite Z.add_0_l, Z.mod_small by lia. unfold at_ at 1. cbn [grow items]. rewrite Nat2Z.id, lookup_app_l by (rewrite length_fmap, length_seqZ; lia).
    rewrite list_lookup_fmap, lookup_seqZ_lt by lia. cbn [fmap option_fmap option_map]. rewrite Z.add_0_l. by apply H6.
Qed.

Lemma ring_push q l p : queue_ok q l → queue_ok (Push q p) (l ++ [p]).
Proof.
  intros [Hr Ha]. unfold Push. set (q0 := if bool_decide (count q = cap q) then grow q else q).
  assert (ring q0 l ∧ count q0 < cap q0 ∧ atomicLen q0 = atomicLen q) as (Hq & Hlt & Ea).
  { unfold q0. case_bool_decide as He.
    - destruct (ring_grow q l Hr) as (R1 & R2 & R3). split_and!; [done|rewrite R2; cbn; destruct Hr; lia|done].
    - split_and!; [done|destruct Hr; lia|done]. }
  clearbody q0. destruct Hq as [H1 H2 H3 H4 H5 H6]. set (q' := mkQueue _ _ _ _ _).
  assert (cap q' = cap q0) as Hc by (unfold cap; cbn; by rewrite length_insert).
  split; [|cbn; rewrite Ea, length_app; cbn; rewrite (i32_shift _ _ 1 Ha); do 2 f_equal; lia].
  split; rewrite ?Hc; cbn; [lia|lia|rewrite length_app; cbn; lia|lia| |].
  - rewrite H5, Zplus_mod_idemp_l. f_equal. lia.
  - intros i x Hi. pose proof (Z.mod_pos_bound (head q0 + Z.of_nat i) (cap q0) H1) as B1. pose proof (Z.mod_pos_bound (head q0 + count q0) (cap q0) H1) as B2.
    change (at_ q' ((head q0 + Z.of_nat i) mod cap q0)) with (at_ (mkQueue (<[Z.to_nat (tail q0) := Some p]> (items q0)) (head q0) (tail q0) (count q0) (atomicLen q0)) ((head q0 + Z.of_nat i) mod cap q0)).
    rewrite at_insert by (rewrite ?H5; lia). rewrite H5. apply lookup_app_Some in Hi as [Hi|[Hge Hi]].
    + pose proof (lookup_lt_Some _ _ _ Hi). rewrite bool_decide_eq_false_2; [by apply H6|]. intros He. apply mod_ne in He; lia.
    + apply list_lookup_singleton_Some in Hi as [Hi <-]. rewrite bool_decide_eq_true_2; [done|]. f_equal. lia.
Qed.

(** Taking the first item, with the count still to be adjusted *)
Lemma ring_shift q x l n :
  ring (mkQueue (items q) (head q) (tail q) n (atomicLen q)) (x :: l) →
  ∃ q', shift q = (Some x, q') ∧ ring (mkQueue (items q') (head q') (tail q') (n - 1) (atomicLen q')) l ∧ count q' = count q ∧ atomicLen q' = atomicLen q.
Proof.
  set (qn := mkQueue (items q) (head q) (tail q) n (atomicLen q)). intros [H1 H2 H3 H4 H5 H6]. change (cap qn) with (cap q) in *. cbn [head count qn] in *.
  eexists. split; [unfold shift; f_equal|]. { specialize (H6 0%nat x eq_refl). rewrite Z.add_0_r, Z.mod_small in H6 by done. exact H6. }
  split; [|done]. cbn [items head tail atomicLen]. set (q' := mkQueue _ _ _ _ _). assert (cap q' = cap q) as Hc by (unfold cap; cbn; by rewrite length_insert).
  pose proof (Z.mod_pos_bound (head q + 1) (cap q) H1) as B0. cbn in H3. split; rewrite ?Hc; cbn; [lia|lia|lia|lia| |].
  - cbn in H5. rewrite H5, Zplus_mod_idemp_l. f_equal. lia.
  - intros i y Hi. pose proof (lookup_lt_Some _ _ _ Hi). rewrite Zplus_mod_idemp_l. pose proof (Z.mod_pos_bound (head q + 1 + Z.of_nat i) (cap q) H1) as B1.
    change (at_ q' ((head q + 1 + Z.of_nat i) mod cap q)) with (at_ (mkQueue (<[Z.to_nat (head q) := None]> (items q)) (head q) (tail q) (count q) (atomicLen q)) ((head q + 1 + Z.of_nat i) mod cap q)).
    rewrite at_insert, bool_decide_eq_false_2; [|intros He|lia|lia].
    + replace (head q + 1 + Z.of_nat i) with (head q + Z.of_nat (S i)) by lia. by apply (H6 (S i)).
    + rewrite <- (Z.mod_small (head q) (cap q)) in He at 1 by done. replace (head q) with (head q + 0) in He at 1 by lia.
      replace (head q + 1 + Z.of_nat i) with (head q + Z.of_nat (S i)) in He by lia. apply mod_ne in He; lia.
Qed.

Lemma ring_shift_n n q l k :
  (n ≤ length l)%nat → ring (mkQueue (items q) (head q) (tail q) k (atomicLen q)) l →
  ∃ q', shift_n n q = (Some <$> take n l, q') ∧ ring (mkQueue (items q') (head q') (tail q') (k - Z.of_nat n) (atomicLen q')) (drop n l) ∧ count q' = count q ∧ atomicLen q' = atomicLen q.
Proof.
  revert q l k. induction n as [|n IH]; intros q l k Hn Hr; cbn [shift_n].
  - exists q. rewrite Z.sub_0_r, drop_0. done.
  - destruct l as [|x l]; [cbn in Hn; lia|]. destruct (ring_shift q x l k Hr) as (q1 & -> & R1 & C1 & A1).
    destruct (IH q1 l (k - 1)) as (q2 & E2 & R2 & C2 & A2); [cbn in Hn; lia|done|]. rewrite E2. exists q2. split_and!; [done| |congruence|congruence].
    replace (k - Z.of_nat (S n)) with (k - 1 - Z.of_nat n) by lia. exact R2.
Qed.

Lemma ring_counter i h t c a b l : ring (mkQueue i h t c a) l → ring (mkQueue i h t c b) l.
Proof. intros [H1 H2 H3 H4 H5 H6]. by split. Qed.

Lemma queue_pop q l : queue_ok q l → Z.of_nat (length l) < 2 ^ 31 → ∃ q', Pop q = (list.head l, q') ∧ queue_ok q' (list.tail l).
Proof.
  intros [Hr Ha] Hlim. rewrite i32_small in Ha by lia. unfold Pop. rewrite Ha. destruct l as [|x l].
  - exists q. split; [done|]. split; [done|]. by rewrite Ha.
  - rewrite bool_decide_eq_false_2 by (cbn; lia). pose proof (rg_count _ _ Hr) as Hc. rewrite bool_decide_eq_false_2 by (rewrite Hc; cbn; lia).
    destruct (ring_shift q x l (count q)) as (q' & -> & R & C & E). { destruct q; exact Hr. }
    eexists. split; [done|]. unfold taken. rewrite C. split; [by eapply ring_counter|]. cbn. rewrite E, Ha. rewrite !i32_small; cbn in *; lia.
Qed.

Lemma queue_popn q l dst : queue_ok q l → Z.of_nat (length l) < 2 ^ 31 → 0 ≤ dst →
  ∃ q', PopN q dst = (Some <$> take (Z.to_nat dst) l, q') ∧ queue_ok q' (drop (Z.to_nat dst) l).
Proof.
  intros [Hr Ha] Hlim Hd. rewrite i32_small in Ha by lia. unfold PopN. rewrite Ha. destruct l as [|x l].
  { exists q. cbn. rewrite take_nil, drop_nil. split; [done|]. split; [done|]. by rewrite Ha. }
  rewrite bool_decide_eq_false_2 by (cbn; lia). pose proof (rg_count _ _ Hr) as Hc. set (n := if bool_decide (dst < count q) then dst else count q).
  assert (0 ≤ n ≤ Z.of_nat (length (x :: l)) ∧ take (Z.to_nat dst) (x :: l) = take (Z.to_nat n) (x :: l) ∧ drop (Z.to_nat dst) (x :: l) = drop (Z.to_nat n) (x :: l)) as (Hn & -> & ->).
  { unfold n. case_bool_decide; [split_and!; [lia|lia|done|done]|]. rewrite Hc, Nat2Z.id. split_and!; [lia|lia| |].
    - rewrite !take_ge by lia. done.
    - rewrite !drop_ge by lia. done. }
  clearbody n. destruct (ring_shift_n (Z.to_nat n) q (x :: l) (count q)) as (q' & -> & R & C & E); [lia|destruct q; exact Hr|].
  eexists. split; [done|]. unfold taken. rewrite C. rewrite Z2Nat.id in R by lia. split; [by eapply ring_counter|]. cbn [atomicLen]. rewrite E, Ha, length_drop.
  rewrite !i32_small by lia. lia.
Qed.

(** *** Sequences of calls *)

Inductive op := OpPush (p : A) | OpPop | OpPopN (dst : Z).

Fixpoint exec (q : Queue) (ops : list op) : list (option A) :=
  match ops with
  | [] => []
  | OpPush p :: ops => exec (Push q p) ops
  | OpPop :: ops => let '(r, q) := Pop q in r :: exec q ops
  | OpPopN n :: ops => let '(rs, q) := PopN q n in rs ++ exec q ops
  end.

(** First in, first out *)
Fixpoint fifo (l : list A) (ops : list op) : list (option A) :=
  match ops with
  | [] => []
  | OpPush p :: ops => fifo (l ++ [p]) ops
  | OpPop :: ops => list.head l :: fifo (list.tail l) ops
  | OpPopN n :: ops => (Some <$> take (Z.to_nat n) l) ++ fifo (drop (Z.to_nat n) l) ops
  end.

Definition room (o : op) : Prop := match o with OpPopN n => 0 ≤ n | _ => True end.

Lemma exec_fifo q l ops :
  queue_ok q l → Forall room ops → Z.of_nat (length l + length ops) < 2 ^ 31 → exec q ops = fifo l ops.
Proof.
  revert q l. induction ops as [|o ops IH]; intros q l Hq Hf Hlim; [done|]. apply Forall_cons in Hf as [Ho Hf]. cbn [length] in Hlim. destruct o as [p| |n]; cbn [exec fifo].
  - apply IH; [by apply ring_push|done|rewrite length_app; cbn; lia].
  - destruct (queue_pop q l Hq) as (q' & -> & Hq'); [lia|]. f_equal. apply IH; [done|done|]. destruct l; cbn in *; lia.
  - destruct (queue_popn q l n Hq) as (q' & -> & Hq'); [lia|done|]. f_equal. apply IH; [done|done|]. rewrite length_drop. lia.
Qed.

(** The global run queue is first in, first out: for every sequence of calls the ring
    buffer, also while it wraps around and grows, answers as the list of its items, as long
    as the 32-bit counter beside it does not overflow. *)
Theorem queue_fifo capacity ops :
  Forall room ops → Z.of_nat (length ops) < 2 ^ 31 → exec (NewQueue capacity) ops = fifo [] ops.
Proof. intros Hf Hlim. apply exec_fifo; [apply ring_new|done|done]. Qed.

End queue.

Lemma queue_fifo_witness : exec (NewQueue 1) [OpPush 1%nat; OpPush 2%nat; OpPop; OpPush 3%nat; OpPopN 5; OpPop] = [Some 1; Some 2; Some 3; None]%nat.
Proof. rewrite (queue_fifo 1); [reflexivity|repeat constructor; cbn; lia|cbn; lia]. Defined.

End Queue.

(** ** The inject queue *)

Module Inject.

Section inject.
Context {A : Type}.

Record injectNode := mkNode { next : option nat; proc : option A }.

(** A producer has prepared its node, or swapped it in and not yet linked its predecessor. *)
Inductive producer := Prepared (node : nat) (p : A) | Swapped (node prev : nat).

(** The consumer is between calls, or has to release the old tail. *)
Inductive consumer := CIdle | CRelease (node : nat).

Record InjectQueue := mkInject {
  nodes : gmap nat injectNode;
  head : nat;
  tail : nat;
  pool : gset nat;
  producers : gmap nat producer;
  cons : consumer;
  swapped : list A;
  popped : list A
}.

(** The address of the stub, which is never released *)
Definition stub : nat := 0.

Definition NewInjectQueue : InjectQueue := mkInject {[stub := mkNode None None]} stub stub ∅ ∅ CIdle [] [].

Definition node (q : InjectQueue) (a : nat) : injectNode := default (mkNode None None) (nodes q !! a).

Definition link (ns : gmap nat injectNode) (a : nat) (n : option nat) : gmap nat injectNode :=
  alter (λ x, mkNode n (proc x)) a ns.

(** [Push]: a node from the pool or a new one, the swap of the head, the link *)
Definition take_node (q : InjectQueue) (i a : nat) (p : A) : InjectQueue :=
  mkInject (<[a := mkNode None (Some p)]> (nodes q)) (head q) (tail q) (pool q ∖ {[a]}) (<[i := Prepared a p]> (producers q)) (cons q) (swapped q) (popped q).

Definition swap_head (q : InjectQueue) (i a : nat) (p : A) : InjectQueue :=
  mkInject (nodes q) a (tail q) (pool q) (<[i := Swapped a (head q)]> (producers q)) (cons q) (swapped q ++ [p]) (popped q).

Definition link_prev (q : InjectQueue) (i a prev : nat) : InjectQueue :=
  mkInject (link (nodes q) prev (Some a)) (head q) (tail q) (pool q) (delete i (producers q)) (cons q) (swapped q) (popped q).

(** [Pop], up to the release of the old tail *)
Definition Pop (q : InjectQueue) : option A * InjectQueue :=
  match next (node q (tail q)) with
  | None => (None, q)
  | Some n =>
      let p := proc (node q n) in
      (p, mkInject (alter (λ x, mkNode (next x) None) n (nodes q)) (head q) n (pool q) (producers q)
                   (if bool_decide (tail q = stub) then CIdle else CRelease (tail q)) (swapped q) (popped q ++ option_list p))
  end.

Definition release (q : InjectQueue) (a : nat) : InjectQueue :=
  mkInject (link (nodes q) a None) (head q) (tail q) ({[a]} ∪ pool q) (producers q) CIdle (swapped q) (popped q).

Inductive step (q : InjectQueue) : InjectQueue → Prop :=
| step_pooled i a p : producers q !! i = None → a ∈ pool q → step q (take_node q i a p)
| step_fresh i a p : producers q !! i = None → nodes q !! a = None → step q (take_node q i a p)
| step_swap i a p : producers q !! i = Some (Prepared a p) → step q (swap_head q i a p)
| step_link i a prev : producers q !! i = Some (Swapped a prev) → step q (link_prev q i a prev)
| step_pop : cons q = CIdle → step q (Pop q).2
| step_release a : cons q = CRelease a → step q (release q a)
| step_collect a : a ∈ pool q → step q (mkInject (nodes q) (head q) (tail q) (pool q ∖ {[a]}) (producers q) (cons q) (swapped q) (popped q)).

Inductive reachable : InjectQueue → Prop :=
| reachable_new : reachable NewInjectQueue
| reachable_step q q' : reachable q → step q q' → reachable q'.

(** *** The list of nodes, in the order of the swaps *)

(** A node is linked to its successor, or the producer of the successor has still to do it. *)
Definition joined (q : InjectQueue) (a b : nat) : Prop :=
  next (node q a) = Some b ∨ next (node q a) = None ∧ ∃ i, producers q !! i = Some (Swapped b a).

Fixpoint chain (q : InjectQueue) (a : nat) (l : list (nat * A)) : Prop :=
  match l with
  | [] => a = head q ∧ next (node q a) = None
  | (b, p) :: l => joined q a b ∧ proc (node q b) = Some p ∧ chain q b l
  end.

(** The nodes of the list, those that producers have prepared, the one to be released and
    those in the pool are different. *)
Record inject_ok (q : InjectQueue) (l : list (nat * A)) : Prop := {
  ij_chain : chain q (tail q) l;
  ij_nodup : NoDup (tail q :: l.*1);
  ij_alloc : ∀ a, a ∈ tail q :: l.*1 → is_Some (nodes q !! a);
  ij_prepared : ∀ i a p, producers q !! i = Some (Prepared a p) →
    nodes q !! a = Some (mkNode None (Some p)) ∧ a ∉ tail q :: l.*1 ∧ a ∉ pool q ∧ cons q ≠ CRelease a ∧
    ∀ j x, producers q !! j = Some (Prepared a x) → j = i;
  ij_swapped : ∀ i b a, producers q !! i = Some (Swapped b a) →
    next (node q a) = None ∧ (∃ l1 l2, tail q :: l.*1 = l1 ++ a :: b :: l2) ∧ ∀ j y, producers q !! j = Some (Swapped y a) → j = i;
  ij_pool : ∀ a, a ∈ pool q → a ∉ tail q :: l.*1 ∧ is_Some (nodes q !! a) ∧ cons q ≠ CRelease a;
  ij_release : ∀ a, cons q = CRelease a → a ∉ tail q :: l.*1 ∧ is_Some (nodes q !! a);
  ij_fifo : swapped q = popped q ++ l.*2
}.

Lemma chain_head q a l : chain q a l → ∃ l', a :: l.*1 = l' ++ [head q].
Proof.
  revert a. induction l as [|[b p] l IH]; intros a; cbn [chain]; [intros [-> _]; by exists []|]. intros (_ & _ & Hc). destruct (IH b Hc) as [l' Hl]. exists (a :: l'). cbn. by rewrite Hl.
Qed.

Lemma chain_last_nil q a l : chain q a l → next (node q (head q)) = None.
Proof. revert a. induction l as [|[b p] l IH]; intros a; cbn; [by intros [-> ?]|]. intros (_ & _ & Hc). by eapply IH. Qed.

(** Chains do not see what happens elsewhere. *)
Lemma chain_frame q q' a l :
  chain q a l → head q' = head q → next (node q' a) = next (node q a) → (∀ x, x ∈ l.*1 → node q' x = node q x) →
  (∀ i b c, producers q !! i = Some (Swapped b c) → producers q' !! i = Some (Swapped b c)) → chain q' a l.
Proof.
  intros Hc Hh. revert a Hc. induction l as [|[b p] l IH]; intros a Hc Ha Hn Hp; cbn [chain] in *.
  - rewrite Hh, Ha. done.
  - destruct Hc as (Hj & Hpr & Hc). assert (node q' b = node q b) as Hb by (apply Hn; by left). split_and!.
    + unfold joined in *. rewrite Ha. destruct Hj as [Hj|[Hj [i Hi]]]; [by left|right]. split; [done|]. exists i. by apply Hp.
    + by rewrite Hb.
    + apply IH; [done|by rewrite Hb|intros x Hx; apply Hn; by right|done].
Qed.

Lemma node_insert_ne q a b n hd tl po pr co sw pp : a ≠ b → node (mkInject (<[a := n]> (nodes q)) hd tl po pr co sw pp) b = node q b.
Proof. intros Hne. unfold node. cbn. by rewrite lookup_insert_ne. Qed.

Lemma node_alter_ne q f a b hd tl po pr co sw pp : a ≠ b → node (mkInject (alter f a (nodes q)) hd tl po pr co sw pp) b = node q b.
Proof. intros Hne. unfold node. cbn. by rewrite lookup_alter_ne. Qed.

Lemma node_alter_eq q f a hd tl po pr co sw pp : is_Some (nodes q !! a) → node (mkInject (alter f a (nodes q)) hd tl po pr co sw pp) a = f (node q a).
Proof. intros [x Hx]. unfold node. cbn. by rewrite lookup_alter_eq, Hx. Qed.

Lemma take_node_ok q l i a p :
  inject_ok q l → producers q !! i = None → a ∉ tail q :: l.*1 → cons q ≠ CRelease a → (∀ j b x, producers q !! j = Some (Prepared b x) → b ≠ a) →
  inject_ok (take_node q i a p) l.
Proof.
  intros [H1 H2 H3 H4 H5 H6 H7 H8] Hi Ha Hc Hpre. assert (∀ x, x ≠ a → node (take_node q i a p) x = node q x) as Hn by (intros x Hx; by apply node_insert_ne).
  assert (∀ j x, producers q !! j = Some x → producers (take_node q i a p) !! j = Some x) as Hk.
  { intros j x Hj. cbn. rewrite lookup_insert_ne; [done|congruence]. }
  split; cbn [take_node tail cons swapped popped]; try done.
  - apply (chain_frame q); [done|done| | |].
    + rewrite Hn; [done|]. intros E. apply Ha. rewrite E. by left.
    + intros x Hx. apply Hn. intros ->. apply Ha. by right.
    + intros j b c. apply Hk.
  - intros x Hx. cbn. destruct (decide (x = a)) as [->|Hne]; [by rewrite lookup_insert_eq|]. rewrite lookup_insert_ne by done. by apply H3.
  - intros j b x Hj. cbn in Hj. apply lookup_insert_Some in Hj as [[-> [= <- <-]]|[Hne Hj]].
    + cbn. rewrite lookup_insert_eq. split_and!; [done|done|set_solver|done|]. intros k y Hy. cbn in Hy. apply lookup_insert_Some in Hy as [[-> _]|[_ Hy]]; [done|].
      exfalso. by apply (Hpre _ _ _ Hy).
    + destruct (H4 j b x Hj) as (P1 & P2 & P3 & P4 & P5). assert (a ≠ b) as Hab by (intros ->; by apply (Hpre _ _ _ Hj)). cbn. rewrite lookup_insert_ne by done.
      split_and!; [done|done|set_solver|done|]. intros k y Hy. cbn in Hy. apply lookup_insert_Some in Hy as [[-> [= -> ->]]|[_ Hy]]; [done|by eapply P5].
  - intros j b c Hj. cbn in Hj. apply lookup_insert_Some in Hj as [[_ [=]]|[Hne Hj]]. destruct (H5 j b c Hj) as (S1 & S2 & S3). split_and!; [|done|].
    + rewrite Hn; [done|]. destruct S2 as (l1 & l2 & El). intros ->. apply Ha. rewrite El. set_solver.
    + intros k y Hy. cbn in Hy. apply lookup_insert_Some in Hy as [[_ [=]]|[_ Hy]]. by eapply S3.
  - intros x Hx. cbn in Hx. destruct (H6 x) as (Q1 & Q2 & Q3); [set_solver|]. split_and!; [done| |done]. cbn. rewrite lookup_insert_is_Some. destruct (decide (a = x)); auto.
  - intros x Hx. destruct (H7 x Hx) as [Q1 Q2]. split; [done|]. cbn. rewrite lookup_insert_is_Some. destruct (decide (a = x)); auto.
Qed.

Lemma chain_snoc q q' a l b p :
  chain q a l → (∀ x, node q' x = node q x) → head q' = b → next (node q b) = None → proc (node q b) = Some p →
  (∃ i, producers q' !! i = Some (Swapped b (head q))) →
  (∀ i x y, producers q !! i = Some (Swapped x y) → producers q' !! i = Some (Swapped x y)) → chain q' a (l ++ [(b, p)]).
Proof.
  intros Hc Hn Hh Hb Hp Hs Hk. revert a Hc. induction l as [|[c r] l IH]; intros a Hc; cbn [chain app] in *.
  - destruct Hc as [-> Ha]. unfold joined. rewrite !Hn. split_and!; [right; split; done|done|by rewrite Hh|done].
  - destruct Hc as (Hj & Hpr & Hc). unfold joined in *. rewrite !Hn. split_and!; [|done|by apply IH].
    destruct Hj as [Hj|[Hj [i Hi]]]; [by left|right]. split; [done|]. exists i. by apply Hk.
Qed.

(** The last node has no successor. *)
Lemma nodup_last (l : list nat) a b l1 l2 l' : NoDup l → l = l1 ++ a :: b :: l2 → l = l' ++ [a] → False.
Proof.
  intros Hn -> He. assert ((l1 ++ a :: b :: l2) !! length l1 = Some a) as H1 by (by apply list_lookup_middle).
  assert ((l' ++ [a]) !! length l' = Some a) as H2 by (by apply list_lookup_middle). rewrite <- He in H2.
  pose proof (NoDup_lookup _ _ _ _ Hn H1 H2) as E. apply (f_equal length) in He. rewrite !length_app in He. cbn in He. lia.
Qed.

Lemma swap_ok q l i a p :
  inject_ok q l → producers q !! i = Some (Prepared a p) → inject_ok (swap_head q i a p) (l ++ [(a, p)]).
Proof.
  intros [H1 H2 H3 H4 H5 H6 H7 H8] Hi. destruct (H4 i a p Hi) as (P1 & P2 & P3 & P4 & P5). assert (node q a = mkNode None (Some p)) as Hna by (unfold node; by rewrite P1).
  destruct (chain_head q _ l H1) as [l' Hl']. assert (tail q :: (l ++ [(a, p)]).*1 = (tail q :: l.*1) ++ [a]) as El by (by rewrite fmap_app).
  assert (∀ j b c, producers q !! j = Some (Swapped b c) → producers (swap_head q i a p) !! j = Some (Swapped b c)) as Hk.
  { intros j b c Hj. cbn. rewrite lookup_insert_ne; [done|congruence]. }
  assert (∀ j b x, producers (swap_head q i a p) !! j = Some (Prepared b x) → producers q !! j = Some (Prepared b x) ∧ j ≠ i) as Hpre.
  { intros j b x Hj. cbn in Hj. apply lookup_insert_Some in Hj as [[_ [=]]|[Hne Hj]]. by split. }
  assert (∀ j b, producers q !! j = Some (Swapped b (head q)) → False) as Hfree.
  { intros j b Hj. destruct (H5 _ _ _ Hj) as (_ & (l1 & l2 & E) & _). by eapply nodup_last. }
  split; cbn [swap_head tail cons swapped popped pool nodes]; rewrite ?El.
  - apply (chain_snoc q); [done|done|done|by rewrite Hna|by rewrite Hna| |done]. exists i. cbn. by rewrite lookup_insert_eq.
  - apply NoDup_app. split_and!; [done| |by apply NoDup_singleton]. intros x Hx ->%list_elem_of_singleton. done.
  - intros x. rewrite elem_of_app, list_elem_of_singleton. intros [Hx| ->]; [by apply H3|by rewrite P1].
  - intros j b x Hj. destruct (Hpre _ _ _ Hj) as [Hj' Hne]. destruct (H4 j b x Hj') as (Q1 & Q2 & Q3 & Q4 & Q5). split_and!; [done| |done|done|].
    + rewrite elem_of_app, list_elem_of_singleton. intros [?| ->]; [done|]. apply Hne. by eapply P5.
    + intros k y Hy. destruct (Hpre _ _ _ Hy) as [Hy' _]. by eapply Q5.
  - intros j b c Hj. cbn in Hj. apply lookup_insert_Some in Hj as [[<- [= <- <-]]|[Hne Hj]].
    + split_and!; [by apply (chain_last_nil q (tail q) l)|exists l', []; by rewrite Hl', <- app_assoc|]. intros k y Hy. cbn in Hy.
      apply lookup_insert_Some in Hy as [[<- _]|[_ Hy]]; [done|]. exfalso. by eapply Hfree.
    + destruct (H5 j b c Hj) as (S1 & (l1 & l2 & E) & S3). split_and!; [done|exists l1, (l2 ++ [a]); by rewrite E, <- app_assoc|]. intros k y Hy. cbn in Hy.
      apply lookup_insert_Some in Hy as [[<- [= <- <-]]|[_ Hy]]; [exfalso; by eapply Hfree|by eapply S3].
  - intros x Hx. destruct (H6 x Hx) as (Q1 & Q2 & Q3). split_and!; [|done|done]. rewrite elem_of_app, list_elem_of_singleton. intros [?| ->]; done.
  - intros x Hx. destruct (H7 x Hx) as [Q1 Q2]. split; [|done]. rewrite elem_of_app, list_elem_of_singleton. intros [?| ->]; [done|]. by apply P4.
  - rewrite fmap_app, H8. cbn. by rewrite app_assoc.
Qed.

Lemma chain_mono q q' a l :
  chain q a l → head q' = head q → next (node q' (head q)) = None → (∀ x, x ∈ l.*1 → proc (node q' x) = proc (node q x)) →
  (∀ x y l1 l2, a :: l.*1 = l1 ++ x :: y :: l2 → joined q x y → joined q' x y) → chain q' a l.
Proof.
  intros Hc Hh Hlast. revert a Hc. induction l as [|[b p] l IH]; intros a Hc Hp Hj; cbn [chain] in *.
  - destruct Hc as [-> _]. by rewrite Hh.
  - destruct Hc as (Hab & Hpr & Hc). split_and!.
    + by apply (Hj a b [] l.*1).
    + rewrite Hp; [done|by left].
    + apply IH; [done|intros x Hx; apply Hp; by right|]. intros x y l1 l2 El. apply (Hj x y (a :: l1) l2). cbn. by rewrite <- El.
Qed.

Lemma nodup_next (l : list nat) a b b' l1 l2 l1' l2' : NoDup l → l = l1 ++ a :: b :: l2 → l = l1' ++ a :: b' :: l2' → b = b'.
Proof.
  intros Hn -> He. assert ((l1 ++ a :: b :: l2) !! length l1 = Some a) as H1 by (by apply list_lookup_middle).
  assert ((l1' ++ a :: b' :: l2') !! length l1' = Some a) as H2 by (by apply list_lookup_middle). rewrite <- He in H2.
  pose proof (NoDup_lookup _ _ _ _ Hn H1 H2) as E. apply app_inj_1 in He as [_ He]; [|done]. by injection He.
Qed.

Lemma link_ok q l i a b : inject_ok q l → producers q !! i = Some (Swapped b a) → inject_ok (link_prev q i b a) l.
Proof.
  intros [H1 H2 H3 H4 H5 H6 H7 H8] Hi. destruct (H5 i b a Hi) as (S1 & (l1 & l2 & E) & S3). assert (a ∈ tail q :: l.*1) as Ha by (rewrite E; set_solver).
  assert (node (link_prev q i b a) a = mkNode (Some b) (proc (node q a))) as Hna by (apply node_alter_eq; by apply H3).
  assert (∀ x, x ≠ a → node (link_prev q i b a) x = node q x) as Hne by (intros x Hx; by apply node_alter_ne).
  assert (∀ x, is_Some (nodes q !! x) → is_Some (nodes (link_prev q i b a) !! x)) as Hsome by (intros x Hx; cbn; unfold link; by rewrite lookup_alter_is_Some).
  assert (a ≠ head q) as Hah. { intros ->. destruct (chain_head q _ l H1) as [l' Hl']. by eapply nodup_last. }
  split; cbn [link_prev tail cons swapped popped pool]; try done.
  - apply (chain_mono q); [done|done|rewrite Hne by done; by eapply chain_last_nil| |].
    + intros x Hx. destruct (decide (x = a)) as [->|Hxa]; [by rewrite Hna|by rewrite Hne].
    + intros x y k1 k2 Ek Hj. unfold joined in *. destruct (decide (x = a)) as [->|Hxa].
      * left. rewrite Hna. cbn. f_equal. by eapply nodup_next.
      * rewrite Hne by done. destruct Hj as [Hj|[Hj [j Hj']]]; [by left|right]. split; [done|]. exists j. cbn. rewrite lookup_delete_ne; [done|]. intros ->. congruence.
  - auto.
  - intros j c x Hj. cbn in Hj. apply lookup_delete_Some in Hj as [Hne' Hj]. destruct (H4 j c x Hj) as (Q1 & Q2 & Q3 & Q4 & Q5). split_and!; [|done|done|done|].
    + cbn. unfold link. rewrite lookup_alter_ne; [done|]. intros ->. done.
    + intros k y Hy. cbn in Hy. apply lookup_delete_Some in Hy as [_ Hy]. by eapply Q5.
  - intros j c x Hj. cbn in Hj. apply lookup_delete_Some in Hj as [Hne' Hj]. destruct (H5 j c x Hj) as (Q1 & Q2 & Q3). split_and!; [|done|].
    + rewrite Hne; [done|]. intros ->. apply Hne'. symmetry. by eapply S3.
    + intros k y Hy. cbn in Hy. apply lookup_delete_Some in Hy as [_ Hy]. by eapply Q3.
  - intros x Hx. destruct (H6 x Hx) as (Q1 & Q2 & Q3). split_and!; auto.
  - intros x Hx. destruct (H7 x Hx) as [Q1 Q2]. split; auto.
Qed.

Lemma pop_ok q l : inject_ok q l → cons q = CIdle → ∃ l', inject_ok (Pop q).2 l' ∧
  match (Pop q).1 with
  | Some p => ∃ a, l = (a, p) :: l'
  | None => l' = l ∧ (l = [] ∨ ∃ i b, producers q !! i = Some (Swapped b (tail q)))
  end.
Proof.
  intros H Hc. pose proof H as [H1 H2 H3 H4 H5 H6 H7 H8]. unfold Pop. destruct (next (node q (tail q))) as [n|] eqn:Hn.
  2: { exists l. split; [done|]. split; [done|]. destruct l as [|[b p] l]; [by left|right]. destruct H1 as ([Hj|[_ [i Hi]]] & _); [congruence|]. eauto. }
  destruct l as [|[b p] l]; cbn [chain] in H1; [destruct H1; congruence|]. destruct H1 as (Hj & Hp & Hch).
  assert (n = b) as ->. { destruct Hj as [Hj|[Hj _]]; congruence. }
  exists l. rewrite Hp. split; [|by exists b]. cbn [fmap list_fmap fst snd] in *. cbn [app fst snd]. apply NoDup_cons in H2 as [Ht H2].
  set (q' := mkInject _ _ _ _ _ _ _ _). assert (node q' b = mkNode (next (node q b)) None) as Hnb by (apply node_alter_eq, H3; set_solver).
  assert (∀ x, x ≠ b → node q' x = node q x) as Hne by (intros x Hx; by apply node_alter_ne).
  assert (∀ x, next (node q' x) = next (node q x)) as Hnx by (intros x; destruct (decide (x = b)) as [->|]; [by rewrite Hnb|by rewrite Hne]).
  assert (∀ x, is_Some (nodes q !! x) → is_Some (nodes q' !! x)) as Hsome by (intros x Hx; cbn; by rewrite lookup_alter_is_Some).
  assert (∀ x, cons q' = CRelease x → x = tail q) as Hrel. { intros x. cbn. case_bool_decide; [done|]. by intros [= <-]. }
  split; cbn [tail swapped popped pool producers q'].
  - apply (chain_mono q); [done|done|rewrite Hnx; by eapply chain_last_nil| |].
    + intros x Hx. rewrite Hne; [done|]. intros ->. apply NoDup_cons in H2 as [? _]. done.
    + intros x y l1 l2 _ Hxy. unfold joined in *. by rewrite Hnx.
  - done.
  - intros x Hx. apply Hsome, H3. by right.
  - intros j c x Hj'. destruct (H4 j c x Hj') as (Q1 & Q2 & Q3 & Q4 & Q5). split_and!; [|set_solver|done| |done].
    + cbn. rewrite lookup_alter_ne; [done|]. intros ->. set_solver.
    + intros E%Hrel. subst c. set_solver.
  - intros j c x Hj'. destruct (H5 j c x Hj') as (Q1 & (l1 & l2 & E) & Q3). split_and!; [by rewrite Hnx| |done].
    destruct l1 as [|z l1]; cbn in E; injection E as <- E; [congruence|]. by exists l1, l2.
  - intros x Hx. destruct (H6 x Hx) as (Q1 & Q2 & Q3). split_and!; [set_solver|auto|]. intros E%Hrel. subst x. set_solver.
  - intros x E%Hrel. subst x. split; [done|]. apply Hsome, H3. by left.
  - rewrite H8. cbn. by rewrite <- app_assoc.
Qed.

Lemma release_ok q l a : inject_ok q l → cons q = CRelease a → inject_ok (release q a) l.
Proof.
  intros [H1 H2 H3 H4 H5 H6 H7 H8] Hc. destruct (H7 a Hc) as [Ha Hs]. assert (∀ x, x ≠ a → node (release q a) x = node q x) as Hne by (intros x Hx; by apply node_alter_ne).
  assert (∀ x, x ∈ tail q :: l.*1 → node (release q a) x = node q x) as Hin by (intros x Hx; apply Hne; intros ->; done).
  assert (∀ x, is_Some (nodes q !! x) → is_Some (nodes (release q a) !! x)) as Hsome by (intros x Hx; cbn; unfold link; by rewrite lookup_alter_is_Some).
  split; cbn [release tail swapped popped producers cons]; try done.
  - apply (chain_frame q); [done|done|rewrite Hin; [done|by left]|intros x Hx; apply Hin; by right|done].
  - auto.
  - intros j c x Hj. destruct (H4 j c x Hj) as (Q1 & Q2 & Q3 & Q4 & Q5). assert (c ≠ a) as Hca by (intros ->; congruence). split_and!; [|done|set_solver|done|done].
    cbn. unfold link. by rewrite lookup_alter_ne.
  - intros j c x Hj. destruct (H5 j c x Hj) as (Q1 & (l1 & l2 & E) & Q3). split_and!; [|eauto|done]. rewrite Hin; [done|]. rewrite E. set_solver.
  - intros x Hx. cbn in Hx. apply elem_of_union in Hx as [->%elem_of_singleton|Hx]; [split_and!; auto|]. destruct (H6 x Hx) as (Q1 & Q2 & Q3). split_and!; auto.
Qed.

Lemma inject_step_ok q q' l : inject_ok q l → step q q' → ∃ l', inject_ok q' l'.
Proof.
  intros H [i a p Hi Ha|i a p Hi Ha|i a p Hi|i a b Hi|Hc|a Hc|a Ha].
  - exists l. destruct (ij_pool q l H a Ha) as (Q1 & Q2 & Q3). apply take_node_ok; try done. intros j b x Hj ->. by apply (ij_prepared q l H) in Hj as (_ & _ & ? & _).
  - exists l. apply take_node_ok; try done.
    + intros Hin. apply (ij_alloc q l H) in Hin as [? ?]. congruence.
    + intros Hc. apply (ij_release q l H) in Hc as [_ [? ?]]. congruence.
    + intros j b x Hj ->. apply (ij_prepared q l H) in Hj as (? & _). congruence.
  - eexists. by apply swap_ok.
  - exists l. by apply link_ok.
  - destruct (pop_ok q l H Hc) as (l' & H' & _). by exists l'.
  - exists l. by apply release_ok.
  - exists l. destruct H as [H1 H2 H3 H4 H5 H6 H7 H8]. split; cbn; try done.
    + apply (chain_frame q); try done.
    + intros i b p Hi. destruct (H4 i b p Hi) as (Q1 & Q2 & Q3 & Q4 & Q5). split_and!; try done. set_solver.
    + intros x Hx. apply H6. set_solver.
Qed.

Lemma reachable_inject_ok q : reachable q → ∃ l, inject_ok q l.
Proof.
  induction 1 as [|q q' _ [l IH] Hs]; [|by eapply inject_step_ok]. exists []. split; cbn; try done.
  - by apply NoDup_singleton.
  - intros a ->%list_elem_of_singleton. by eexists.
Qed.

(** In every interleaving of the producers with the consumer, with nodes reused from
    the pool, the consumer has got the first of the processors swapped in, in their order,
    each once; its next [Pop] gives the next one, and gives nothing only when there is none or its
    producer is still to link it. *)
Theorem inject_fifo q :
  reachable q →
  ∃ rest, swapped q = popped q ++ rest ∧
    (cons q = CIdle → match (Pop q).1 with
                      | Some p => list.head rest = Some p
                      | None => rest = [] ∨ ∃ i b, producers q !! i = Some (Swapped b (tail q))
                      end).
Proof.
  intros Hr. destruct (reachable_inject_ok q Hr) as [l H]. exists l.*2. split; [apply (ij_fifo q l H)|]. intros Hc.
  destruct (pop_ok q l H Hc) as (l' & _ & Hp). destruct (Pop q).1 as [p|]; [by destruct Hp as [a ->]|]. destruct Hp as [_ [->|Hp]]; [by left|by right].
Qed.

(** *** A run *)

Lemma inject_rtc q q' : reachable q → rtc step q q' → reachable q'.
Proof. intros Hq. induction 1 as [|q q1 q2 Hs _ IH]; [done|]. apply IH. by eapply reachable_step. Qed.

End inject.

Section demo.

(** Two producers; the second has swapped but not linked when the consumer has taken the
    first. *)
Definition demo1 : InjectQueue (A := nat) := take_node NewInjectQueue 0 1 10%nat.
Definition demo2 : InjectQueue := swap_head demo1 0 1 10%nat.
Definition demo3 : InjectQueue := link_prev demo2 0 1 0.
Definition demo4 : InjectQueue := take_node demo3 1 2 20%nat.
Definition demo5 : InjectQueue := swap_head demo4 1 2 20%nat.
Definition demo6 : InjectQueue := (Pop demo5).2.

Lemma demo_run : rtc step NewInjectQueue demo6.
Proof.
  eapply rtc_l; [by apply (step_fresh _ 0 1)|]. eapply rtc_l; [by apply (step_swap _ 0 1)|]. eapply rtc_l; [by apply (step_link _ 0 1 0)|].
  eapply rtc_l; [by apply (step_fresh _ 1 2)|]. eapply rtc_l; [by apply (step_swap _ 1 2)|]. by apply rtc_once, step_pop.
Qed.

Lemma inject_fifo_witness :
  swapped demo6 = [10; 20]%nat ∧ popped demo6 = [10]%nat ∧
  ∃ rest, swapped demo6 = popped demo6 ++ rest ∧
    (cons demo6 = CIdle → match (Pop demo6).1 with
                          | Some p => list.head rest = Some p
                          | None => rest = [] ∨ ∃ i b, producers demo6 !! i = Some (Swapped b (tail demo6))
                          end).
Proof.
  split; [reflexivity|]. split; [reflexivity|]. apply (inject_fifo demo6). eapply inject_rtc; [apply reachable_new|exact demo_run].
Defined.

End demo.
End Inject.
