(* ===== verification/Processor.v ===== *)
(** * Waking and running a process ([system/scheduler/actor/processor.go], [worker.go])

    A processor is one process in the scheduler. Workers take it from a run queue and step
    it; handlers of its yields, senders of messages and timers push events into its queue
    and wake it. All of them meet at one atomic word, the state with a wake-up flag, and at
    the event queue, which is under a mutex. The model interleaves any number of workers and
    wakers, one access to the word or to the queue per step. The run queues (the global
    queue, the inject queues and the deques of the workers) are a number of entries; entries
    beyond the one that is due may appear at any time.

    What a process does in a step is arbitrary, except that it goes idle only when no yield
    of it is outstanding, and a handler completes a yield only after it was dispatched, once.
    One incarnation is modelled: from its submission to its completion, without the reuse of
    the object. Statistics, upgrades (which continue or fail) and affinity are left out.

    The theorems: a process is never stepped by two workers at once; a process that is ready
    has an entry in a run queue or a thread that will put it there; no wake-up is lost: when
    nothing is under way, a process that has not completed has no event waiting; and events
    are consumed in the order in which they were pushed. *)

From S2P Require Import Prelude.

Module Processor.

Section processor.
Context {Event : Type}.

(** ** The state word *)

Definition StateReady : Z := 0.
Definition StateRunning : Z := 1.
Definition StateBlocked : Z := 2.
Definition StateIdle : Z := 3.
Definition StateComplete : Z := 4.
Definition stateMask : Z := 0x0F.
Definition wakeupFlag : Z := 0x10.

Definition masked (s : Z) : Z := Z.land s stateMask.

(** The state after a compare-and-swap that succeeds; it fails when the state is another. *)
Definition casState (s old new : Z) : option Z :=
  if bool_decide (masked s = old) then Some (Z.lor (Z.land new stateMask) (Z.land s wakeupFlag)) else None.

Definition setWakeup (s expected : Z) : Z := if bool_decide (masked s = expected) then Z.lor s wakeupFlag else s.

Definition finishDispatch (s : Z) : bool * Z :=
  let hadWakeup := negb (bool_decide (Z.land s wakeupFlag = 0)) in
  (hadWakeup, if hadWakeup then StateReady else StateBlocked).

(** ** The shared state *)

Record shared := mkShared {
  state : Z;
  events : list Event;
  closed : bool;
  cancelled : bool;
  queued : nat;
  outstanding : list Z;
  pushed : list Event;
  consumed : list Event
}.

(** [Submit]: ready, with an entry in the global queue *)
Definition Submit : shared := mkShared StateReady [] false false 1 [] [] [].

Definition with_state (s : shared) (v : Z) : shared :=
  mkShared v (events s) (closed s) (cancelled s) (queued s) (outstanding s) (pushed s) (consumed s).

Definition with_queued (s : shared) (n : nat) : shared :=
  mkShared (state s) (events s) (closed s) (cancelled s) n (outstanding s) (pushed s) (consumed s).

Definition with_outstanding (s : shared) (ys : list Z) : shared :=
  mkShared (state s) (events s) (closed s) (cancelled s) (queued s) ys (pushed s) (consumed s).

(** [EventQueue.Push] and [PushDirect] when the queue is open *)
Definition push (s : shared) (e : Event) : shared :=
  if closed s then s
  else mkShared (state s) (events s ++ [e]) (closed s) (cancelled s) (queued s) (outstanding s) (pushed s ++ [e]) (consumed s).

Definition Drain (s : shared) : shared :=
  mkShared (state s) [] (closed s) (cancelled s) (queued s) (outstanding s) (pushed s) (consumed s ++ events s).

Definition Close (s : shared) : shared :=
  mkShared (state s) [] true (cancelled s) (queued s) (outstanding s) (pushed s) (consumed s).

(** ** Threads *)

Inductive thread :=
| WTake
| WBegin
| WStep
| WDispatch (ys : list Z)
| WCheck (st : Z)
| WRequeue (st : Z)
| WPush
| WClose
| CYield
| CWake
| DIdle
| DBlocked
| KBlocked
| KIdle
| KWake.

(** After a transition that may fail: the thread goes on, or gives up *)
Definition after_cas (s : shared) (old new : Z) (won lost : option thread) : shared * option thread :=
  match casState (state s) old new with Some v => (with_state s v, won) | None => (s, lost) end.

Definition remove_yield (y : Z) (ys : list Z) : list Z := match list_find (eq y) ys with Some (i, _) => delete i ys | None => ys end.

(** A worker takes an entry and executes it ([executeOne]). What the process does in its
    step is open: it ends, yields, goes on, or waits. *)
Inductive execute (s : shared) : option thread → shared * option thread → Prop :=
| s_pop n : queued s = S n → execute s None (with_queued s n, Some WTake)
| s_take : execute s (Some WTake) (after_cas s StateReady StateRunning (Some WBegin) None)
| s_evict : cancelled s = true → execute s (Some WBegin) (after_cas s StateRunning StateComplete (Some WClose) None)
| s_drain : execute s (Some WBegin) (Drain s, Some WStep)
| s_finish : execute s (Some WStep) (after_cas s StateRunning StateComplete (Some WClose) None)
| s_yields ys : ys ≠ [] → execute s (Some WStep) (s, Some (WDispatch ys))
| s_continue : execute s (Some WStep) (after_cas s StateRunning StateReady (Some WPush) None)
| s_block : execute s (Some WStep) (after_cas s StateRunning StateBlocked (Some (WCheck StateBlocked)) None)
| s_idle : outstanding s = [] → execute s (Some WStep) (after_cas s StateRunning StateIdle (Some (WCheck StateIdle)) None)
| s_check st : execute s (Some (WCheck st)) (s, if bool_decide (events s = []) then None else Some (WRequeue st))
| s_requeue st : execute s (Some (WRequeue st)) (after_cas s st StateReady (Some WPush) None)
| s_push : execute s (Some WPush) (with_queued s (S (queued s)), None)
| s_close : execute s (Some WClose) (Close s, None).

(** [dispatchYields]: a yield without a handler, or whose handler fails, is answered at once. *)
Inductive dispatch (s : shared) : option thread → shared * option thread → Prop :=
| s_direct y ys e : dispatch s (Some (WDispatch (y :: ys))) (push s e, Some (WDispatch ys))
| s_handled y ys : dispatch s (Some (WDispatch (y :: ys))) (with_outstanding s (outstanding s ++ [y]), Some (WDispatch ys))
| s_dispatched : dispatch s (Some (WDispatch [])) (with_state s (finishDispatch (state s)).2,
    if (finishDispatch (state s)).1 then Some WPush else Some (WCheck StateBlocked)).

(** [Processor.CompleteYield] *)
Inductive complete_yield (s : shared) : option thread → shared * option thread → Prop :=
| s_complete y e : y ∈ outstanding s →
    complete_yield s None (push (with_outstanding s (remove_yield y (outstanding s))) e, if closed s then None else Some CYield)
| s_complete_cas : complete_yield s (Some CYield) (after_cas s StateBlocked StateReady (Some WPush) (Some CWake))
| s_complete_wake : complete_yield s (Some CWake) (with_state s (setWakeup (state s) StateRunning), None).

(** [deliverToProcError]: a message is accepted, or dropped by the limits of the queue *)
Inductive deliver (s : shared) : option thread → shared * option thread → Prop :=
| s_deliver e : closed s = false → deliver s None (push s e, Some DIdle)
| s_dropped : closed s = false → deliver s None (s, Some DIdle)
| s_deliver_idle : deliver s (Some DIdle) (after_cas s StateIdle StateReady (Some WPush) (Some DBlocked))
| s_deliver_blocked : deliver s (Some DBlocked) (after_cas s StateBlocked StateReady (Some WPush) None).

(** [YieldCompleter.CompleteYield] and the end of the context push an event; [WakeProcessor] *)
Inductive wake (s : shared) : option thread → shared * option thread → Prop :=
| s_wake_yield y e : y ∈ outstanding s →
    wake s None (push (with_outstanding s (remove_yield y (outstanding s))) e, if closed s then None else Some KBlocked)
| s_wake e : wake s None (push s e, if closed s then None else Some KBlocked)
| s_wake_blocked : wake s (Some KBlocked) (after_cas s StateBlocked StateReady (Some WPush) (Some KIdle))
| s_wake_idle : wake s (Some KIdle) (after_cas s StateIdle StateReady (Some WPush) (Some KWake))
| s_wake_flag : wake s (Some KWake) (with_state s (setWakeup (state s) StateRunning), None).

(** One step of a thread; the context may be cancelled and stale entries may appear at any
    time. *)
Inductive tstep (s : shared) : option thread → shared * option thread → Prop :=
| t_execute t o : execute s t o → tstep s t o
| t_dispatch t o : dispatch s t o → tstep s t o
| t_complete t o : complete_yield s t o → tstep s t o
| t_deliver t o : deliver s t o → tstep s t o
| t_wake t o : wake s t o → tstep s t o
| t_terminate : tstep s None (mkShared (state s) (events s) (closed s) true (queued s) (outstanding s) (pushed s) (consumed s), None)
| t_stale : tstep s None (with_queued s (S (queued s)), None).

Record Sched := mkSched { sh : shared; threads : gmap nat thread }.

Definition move (p : Sched) (i : nat) (o : shared * option thread) : Sched := mkSched o.1 (partial_alter (λ _, o.2) i (threads p)).

Inductive step (p : Sched) : Sched → Prop :=
| step_thread i o : tstep (sh p) (threads p !! i) o → step p (move p i o).

Inductive reachable : Sched → Prop :=
| reachable_submit : reachable (mkSched Submit ∅)
| reachable_step p p' : reachable p → step p p' → reachable p'.

(** ** Facts about the word *)

Lemma masked_cas s old new v : casState s old new = Some v → masked s = old ∧ masked v = masked new.
Proof.
  unfold casState. case_bool_decide as Ho; [|done]. intros [= <-]. split; [done|]. unfold masked. rewrite Z.land_lor_distr_l, <- !Z.land_assoc.
  change (Z.land wakeupFlag stateMask) with 0. change (Z.land stateMask stateMask) with stateMask. by rewrite Z.land_0_r, Z.lor_0_r.
Qed.

Lemma cas_fails s old new : casState s old new = None → masked s ≠ old.
Proof. unfold casState. by case_bool_decide. Qed.

Lemma masked_wakeup s e : masked (setWakeup s e) = masked s.
Proof. unfold setWakeup. case_bool_decide; [|done]. unfold masked. rewrite Z.land_lor_distr_l. change (Z.land wakeupFlag stateMask) with 0. by rewrite Z.lor_0_r. Qed.

Lemma masked_states : masked StateReady = StateReady ∧ masked StateBlocked = StateBlocked.
Proof. done. Qed.

(** ** What a step does, seen from the shared state *)

Definition running (t : option thread) : bool := match t with Some (WBegin | WStep | WDispatch _) => true | _ => false end.

(** The thread has the entry of a ready processor. *)
Definition carries (t : option thread) : bool := match t with Some (WTake | WPush) => true | _ => false end.

(** The thread is going to see that the processor waits in the given state. *)
Definition covers (st : Z) (t : option thread) : bool :=
  match t with
  | Some (WCheck s | WRequeue s) => bool_decide (s = st)
  | Some (CYield | DBlocked) => bool_decide (st = StateBlocked)
  | Some (DIdle | KBlocked) => true
  | Some KIdle => bool_decide (st = StateIdle)
  | _ => false
  end.

Definition at_ (s : shared) (st : Z) : Prop := masked (state s) = st.

(** What is true of the shared state and of one thread *)
Definition thread_ok (s : shared) (t : option thread) : Prop :=
  (running t = true → at_ s StateRunning) ∧ (t = Some WClose → at_ s StateComplete) ∧
  match t with Some (WCheck st | WRequeue st) => st = StateBlocked ∨ st = StateIdle | _ => True end.

Definition shared_ok (s : shared) : Prop :=
  (closed s = true → at_ s StateComplete) ∧ (at_ s StateIdle → outstanding s = []) ∧
  consumed s `prefix_of` pushed s ∧ (closed s = false → pushed s = consumed s ++ events s).

(** The outcomes of a compare-and-swap *)
Lemma after_cas_inv s old new won lost s' t' :
  masked new = new → after_cas s old new won lost = (s', t') →
  (∃ v, at_ s old ∧ masked v = new ∧ s' = with_state s v ∧ t' = won) ∨ (¬ at_ s old ∧ s' = s ∧ t' = lost).
Proof.
  intros Hn. unfold after_cas. destruct (casState (state s) old new) as [v|] eqn:E; intros [= <- <-].
  - apply masked_cas in E as [E1 E2]. left. exists v. split_and!; congruence.
  - apply cas_fails in E. by right.
Qed.

Lemma state_push s e : state (push s e) = state s.
Proof. unfold push. by destruct (closed s). Qed.

Lemma push_open s e : closed s = false → push s e = mkShared (state s) (events s ++ [e]) (closed s) (cancelled s) (queued s) (outstanding s) (pushed s ++ [e]) (consumed s).
Proof. unfold push. by intros ->. Qed.

(** Case analysis on a step *)
Ltac step_inversion Hs :=
  inversion Hs; subst; clear Hs;
  try match goal with
  | H : execute _ _ _ |- _ => inversion H; subst; clear H
  | H : dispatch _ _ _ |- _ => inversion H; subst; clear H
  | H : complete_yield _ _ _ |- _ => inversion H; subst; clear H
  | H : deliver _ _ _ |- _ => inversion H; subst; clear H
  | H : wake _ _ _ |- _ => inversion H; subst; clear H
  end.

(** The same with the outcomes of its compare-and-swap *)
Ltac step_cases Hs :=
  step_inversion Hs;
  repeat match goal with
  | H : after_cas _ _ _ _ _ = _ |- _ =>
      apply after_cas_inv in H; [|reflexivity]; destruct H as [(? & ? & ? & -> & ->)|(? & -> & ->)]
  end;
  unfold at_, with_state, with_queued, with_outstanding in *;
  cbn [state events closed cancelled queued outstanding pushed consumed] in *;
  rewrite ?state_push, ?masked_wakeup in *;
  repeat match goal with
  | |- context [if closed ?s then _ else _] => destruct (closed s) eqn:?
  | |- context [if negb ?b then _ else _] => destruct (negb b)
  | |- context [if bool_decide ?P then None else Some _] => destruct (bool_decide_reflect P)
  end;
  cbn [state events closed outstanding pushed consumed queued Drain Close running carries covers] in *;
  rewrite ?(proj1 masked_states), ?(proj2 masked_states) in *.

(** The states are different. *)
Ltac states := unfold StateReady, StateRunning, StateBlocked, StateIdle, StateComplete in *; first [lia|congruence|tauto].

(** Only the worker that steps the processor starts and ends its running. *)
Lemma tstep_running s t s' t' :
  tstep s t (s', t') → thread_ok s t →
  if running t then (running t' = true ∧ at_ s' StateRunning) ∨ (running t' = false ∧ ¬ at_ s' StateRunning)
  else (running t' = false ∧ (at_ s' StateRunning ↔ at_ s StateRunning)) ∨ (¬ at_ s StateRunning ∧ at_ s' StateRunning ∧ running t' = true).
Proof.
  intros Hs (Hr & _ & Hw). unfold at_ in Hr. step_cases Hs; try (specialize (Hr eq_refl)).
  all: first [left; split; [done|states]|right; split; [done|states]|right; split_and!; [states|states|done]].
Qed.

Lemma tstep_thread_ok s t s' t' : tstep s t (s', t') → thread_ok s t → thread_ok s' t'.
Proof.
  intros Hs (Hr & Hc & Hw). unfold thread_ok, at_ in *. step_cases Hs; split_and!; try done; intros; try (specialize (Hr eq_refl)); try (specialize (Hc eq_refl)); try states; auto.
Qed.

(** Completion is final. *)
Lemma tstep_complete s t s' t' : tstep s t (s', t') → thread_ok s t → at_ s StateComplete → at_ s' StateComplete.
Proof. intros Hs (Hr & Hc & Hw) Hd. unfold at_ in *. step_cases Hs; try (specialize (Hr eq_refl)); states. Qed.

Lemma tstep_closed s t s' t' : tstep s t (s', t') → closed s' = closed s ∨ t = Some WClose.
Proof. intros Hs. step_cases Hs; unfold push; cbn [closed]; try (destruct (closed s) eqn:?); cbn [closed]; auto. Qed.

Lemma tstep_idle s t s' t' :
  tstep s t (s', t') → thread_ok s t → (at_ s StateIdle → outstanding s = []) → at_ s' StateIdle → outstanding s' = [].
Proof.
  intros Hs (Hr & Hc & Hw) Hi. unfold at_ in *. step_cases Hs; try (specialize (Hr eq_refl)); try done; try (intros; states).
  all: intros Hm; specialize (Hi Hm); try (by rewrite Hi in *); unfold push in *; cbn in *; try (destruct (closed s)); cbn; try done.
  all: match goal with H : _ ∈ outstanding _ |- _ => rewrite Hi in H; by apply elem_of_nil in H end.
Qed.

Definition log_ok (s : shared) : Prop := consumed s `prefix_of` pushed s ∧ (closed s = false → pushed s = consumed s ++ events s).

Lemma log_push s e : log_ok s → log_ok (push s e).
Proof.
  intros [H1 H2]. unfold push. destruct (closed s) eqn:Hc; [split; [done|by rewrite Hc]|]. split; cbn; [by apply prefix_app_r|]. intros _. by rewrite H2, app_assoc.
Qed.

Lemma log_frame s s' : log_ok s → closed s' = closed s → pushed s' = pushed s → consumed s' = consumed s → events s' = events s → log_ok s'.
Proof. intros [H1 H2] E1 E2 E3 E4. split; rewrite ?E1, ?E2, ?E3, ?E4; done. Qed.

Lemma tstep_log s t s' t' : tstep s t (s', t') → (closed s = true → events s = []) → log_ok s → log_ok s' ∧ (closed s' = true → events s' = []).
Proof.
  intros Hs Hcl Hl. assert (∀ e, closed (push s e) = true → events (push s e) = []) as Hpu. { intros e. unfold push. destruct (closed s) eqn:E; [intros _; by apply Hcl|cbn; congruence]. }
  step_inversion Hs;
  repeat match goal with
  | H : after_cas _ _ _ _ _ = _ |- _ => apply after_cas_inv in H; [|reflexivity]; destruct H as [(? & ? & ? & -> & ->)|(? & -> & ->)]
  end; try (split; [done|done]); try (split; [by eapply log_frame|done]); try (split; [by apply log_push|by apply Hpu]).
  - destruct Hl as [H1 H2]. split; [|done]. split; cbn.
    + destruct (closed s) eqn:E; [by rewrite Hcl, app_nil_r|by rewrite H2].
    + intros E. by rewrite app_nil_r, H2.
  - destruct Hl as [H1 H2]. split; [|done]. by split.
  - split; [apply log_push; by eapply log_frame|]. unfold push. cbn. destruct (closed s) eqn:E; cbn; [by rewrite E|congruence].
  - split; [apply log_push; by eapply log_frame|]. unfold push. cbn. destruct (closed s) eqn:E; cbn; [by rewrite E|congruence].
Qed.

(** A ready processor is carried by a run queue or by a thread. *)
Lemma tstep_ready s t s' t' :
  tstep s t (s', t') → thread_ok s t → at_ s' StateReady →
  carries t' = true ∨ (0 < queued s')%nat ∨ (at_ s StateReady ∧ carries t = false ∧ (queued s ≤ queued s')%nat).
Proof.
  intros Hs (Hr & Hc & Hw). unfold at_ in *. assert (∀ e, queued (push s e) = queued s) as Hq by (intros e; unfold push; by destruct (closed s)).
  step_cases Hs; intros Hm; try (specialize (Hr eq_refl)); rewrite ?Hq; auto; try (right; left; lia); try (right; right; split_and!; [states|done|lia]); try (exfalso; states).
Qed.

(** Events of a waiting processor do not go unnoticed. *)
Lemma tstep_covers st s t s' t' :
  tstep s t (s', t') → thread_ok s t → (at_ s StateIdle → outstanding s = []) → (closed s = true → at_ s StateComplete) →
  st = StateBlocked ∨ st = StateIdle → at_ s' st → events s' ≠ [] →
  covers st t' = true ∨ (at_ s st ∧ events s ≠ [] ∧ covers st t = false).
Proof.
  intros Hs (Hr & Hc & Hw) Hi Hcl Hst. unfold at_ in *.
  assert (∀ e, closed s = true → events (push s e) = events s) as Hpu by (intros e E; unfold push; by rewrite E).
  step_cases Hs; intros Hm Hev; try (specialize (Hr eq_refl)); auto; try (exfalso; states).
  all: repeat case_bool_decide; try (by left); try (right; split_and!; [states|done|done]); try (exfalso; states).
  exfalso. assert (masked (state s) = StateIdle) as E by states. rewrite (Hi E) in *. match goal with H : _ ∈ [] |- _ => by apply elem_of_nil in H end.
Qed.

(** ** The invariant *)

Record sched_ok (p : Sched) : Prop := {
  so_threads : ∀ i, thread_ok (sh p) (threads p !! i);
  so_one : ∀ i j, running (threads p !! i) = true → running (threads p !! j) = true → i = j;
  so_ready : at_ (sh p) StateReady → (0 < queued (sh p))%nat ∨ ∃ i, carries (threads p !! i) = true;
  so_run : at_ (sh p) StateRunning → ∃ i, running (threads p !! i) = true;
  so_waits : ∀ st, st = StateBlocked ∨ st = StateIdle → at_ (sh p) st → events (sh p) ≠ [] → ∃ i, covers st (threads p !! i) = true;
  so_closed : closed (sh p) = true → at_ (sh p) StateComplete ∧ events (sh p) = [];
  so_idle : at_ (sh p) StateIdle → outstanding (sh p) = [];
  so_log : log_ok (sh p);
  so_state : masked (state (sh p)) ∈ [StateReady; StateRunning; StateBlocked; StateIdle; StateComplete]
}.

Lemma tstep_state s t s' t' :
  tstep s t (s', t') → thread_ok s t → masked (state s) ∈ [StateReady; StateRunning; StateBlocked; StateIdle; StateComplete] →
  masked (state s') ∈ [StateReady; StateRunning; StateBlocked; StateIdle; StateComplete].
Proof. intros Hs _ Hm. unfold at_ in *. step_cases Hs; try done; try match goal with H : masked ?x = _ |- masked ?x ∈ _ => rewrite H end; set_solver. Qed.

(** Other threads and this one, after a step *)
Lemma threads_cases (m : gmap nat thread) i t j : partial_alter (λ _, t) i m !! j = if decide (j = i) then t else m !! j.
Proof. destruct (decide (j = i)) as [->|Hne]; [by rewrite lookup_partial_alter_eq|by rewrite lookup_partial_alter_ne]. Qed.

Lemma step_ok_threads p i s t :
  sched_ok p → tstep (sh p) (threads p !! i) (s, t) →
  let p' := move p i (s, t) in
  (∀ j, thread_ok s (threads p' !! j)) ∧ (∀ j k, running (threads p' !! j) = true → running (threads p' !! k) = true → j = k) ∧
  (at_ s StateRunning → ∃ j, running (threads p' !! j) = true).
Proof.
  intros H Hs. pose proof (tstep_running _ _ _ _ Hs (so_threads p H i)) as Hrun. pose proof (so_threads p H) as Hth. pose proof (so_one p H) as Hone. cbn [move threads sh fst snd].
  assert (∀ j, j ≠ i → running (threads p !! j) = true → running (threads p !! i) = false ∧ at_ (sh p) StateRunning) as Hother.
  { intros j Hji Hj. split; [|by apply Hth in Hj]. destruct (running (threads p !! i)) eqn:Hi; [|done]. by destruct (Hji (Hone j i Hj Hi)). }
  split_and!.
  - intros j. rewrite threads_cases. destruct (decide (j = i)) as [->|Hji]; [by eapply tstep_thread_ok|]. destruct (Hth j) as (H1 & H2 & H3). split_and!; [|intros E; eapply tstep_complete; eauto|done].
    intros Hj. destruct (Hother j Hji Hj) as [Hi Har]. rewrite Hi in Hrun. tauto.
  - intros j k. rewrite !threads_cases. destruct (decide (j = i)) as [->|Hji], (decide (k = i)) as [->|Hki]; intros Hj Hk; try done; [| |by apply Hone].
    + destruct (Hother k Hki Hk) as [Hi Har]. rewrite Hi in Hrun. destruct Hrun as [[? _]|[? _]]; [congruence|done].
    + destruct (Hother j Hji Hj) as [Hi Har]. rewrite Hi in Hrun. destruct Hrun as [[? _]|[? _]]; [congruence|done].
  - intros Har. destruct (running (threads p !! i)) eqn:Hi.
    + destruct Hrun as [[Ht _]|[_ ?]]; [|done]. exists i. by rewrite threads_cases, decide_True.
    + destruct Hrun as [[Ht Hiff]|(_ & _ & Ht)]; [|exists i; by rewrite threads_cases, decide_True].
      destruct (so_run p H (proj1 Hiff Har)) as [j Hj]. exists j. rewrite threads_cases, decide_False; [done|]. intros ->. congruence.
Qed.

Lemma sched_step_ok p p' : sched_ok p → step p p' → sched_ok p'.
Proof.
  intros H [i [s t] Hs]. pose proof (so_threads p H i) as Hi. destruct (step_ok_threads p i s t H Hs) as (T1 & T2 & T3).
  destruct (tstep_log _ _ _ _ Hs) as [L1 L2]; [intros E; by apply (so_closed p H)|apply (so_log p H)|].
  split; cbn [move sh threads fst snd]; try done.
  - intros Hrdy. destruct (tstep_ready _ _ _ _ Hs Hi Hrdy) as [Hc|[Hq|(Ha & Hc & Hq)]]; [right; exists i; by rewrite threads_cases, decide_True|by left|].
    destruct (so_ready p H Ha) as [Hq'|[j Hj]]; [left; lia|right]. exists j. rewrite threads_cases, decide_False; [done|]. intros ->. congruence.
  - intros st Hst Ha He. destruct (tstep_covers st _ _ _ _ Hs Hi (so_idle p H)) as [Hc|(Ha' & He' & Hc)]; try done; [intros E; by apply (so_closed p H)|exists i; by rewrite threads_cases, decide_True|].
    destruct (so_waits p H st Hst Ha' He') as [j Hj]. exists j. rewrite threads_cases, decide_False; [done|]. intros ->. congruence.
  - intros Hcl. split; [|by apply L2]. destruct (tstep_closed _ _ _ _ Hs) as [E|E].
    + eapply tstep_complete; [done|done|]. apply (so_closed p H). congruence.
    + eapply tstep_complete; [done|done|]. apply Hi. done.
  - by eapply tstep_idle, (so_idle p H).
  - by eapply tstep_state, (so_state p H).
Qed.

Lemma sched_reachable_ok p : reachable p → sched_ok p.
Proof.
  induction 1 as [|p p' _ IH Hs]; [|by eapply sched_step_ok]. split; cbn [sh threads]; try done.
  - left. cbn. lia.
  - change (StateReady ∈ [StateReady; StateRunning; StateBlocked; StateIdle; StateComplete]). set_solver.
Qed.

(** ** What the scheduler promises *)

(** C36. A processor is never executed by two workers at once, even when run queues hand out
    stale entries: at most one worker is between taking it and giving it up, and one is
    exactly when the state is running. *)
Theorem runs_exclusively p i j :
  reachable p →
  (running (threads p !! i) = true → running (threads p !! j) = true → i = j) ∧
  (masked (state (sh p)) = StateRunning ↔ ∃ k, running (threads p !! k) = true).
Proof.
  intros H%sched_reachable_ok. split; [apply (so_one p H)|]. split; [apply (so_run p H)|]. intros [k Hk]. by apply (so_threads p H k).
Qed.


(** ** Playing a script *)

Definition script := list (nat * (shared → shared * option thread)).

Fixpoint play (p : Sched) (l : script) : Sched := match l with [] => p | (i, f) :: l => play (move p i (f (sh p))) l end.

Fixpoint valid (p : Sched) (l : script) : Prop :=
  match l with [] => True | (i, f) :: l => tstep (sh p) (threads p !! i) (f (sh p)) ∧ valid (move p i (f (sh p))) l end.

Lemma play_reachable p l : reachable p → valid p l → reachable (play p l).
Proof.
  revert p. induction l as [|[i f] l IH]; intros p Hr; cbn; [done|]. intros [Hs Hv]. apply IH; [|done]. eapply reachable_step; [done|by apply step_thread].
Qed.

End processor.

(** ** A run: a yield is completed while the worker is still dispatching it *)

Section demo.

Definition start : Sched (Event := nat) := mkSched Submit ∅.

(** Worker 0 takes the processor and steps it; it yields 7. *)
Definition stepping : script (Event := nat) :=
  [(0%nat, λ s, (with_queued s 0, Some WTake)); (0%nat, λ s, after_cas s StateReady StateRunning (Some WBegin) None); (0%nat, λ s, (Drain s, Some WStep));
   (0%nat, λ s, (s, Some (WDispatch [7]))); (0%nat, λ s, (with_outstanding s (outstanding s ++ [7]), Some (WDispatch [])))].

(** The handler, in thread 1, completes the yield and sets the flag; the worker sees it and
    queues the processor, takes it again, and leaves it idle. *)
Definition waking : script (Event := nat) :=
  [(1%nat, λ s, (push (with_outstanding s (remove_yield 7 (outstanding s))) 42%nat, if closed s then None else Some CYield));
   (1%nat, λ s, after_cas s StateBlocked StateReady (Some WPush) (Some CWake)); (1%nat, λ s, (with_state s (setWakeup (state s) StateRunning), None));
   (0%nat, λ s, (with_state s (finishDispatch (state s)).2, if (finishDispatch (state s)).1 then Some WPush else Some (WCheck StateBlocked)));
   (0%nat, λ s, (with_queued s (S (queued s)), None)); (0%nat, λ s, (with_queued s 0, Some WTake));
   (0%nat, λ s, after_cas s StateReady StateRunning (Some WBegin) None); (0%nat, λ s, (Drain s, Some WStep));
   (0%nat, λ s, after_cas s StateRunning StateIdle (Some (WCheck StateIdle)) None);
   (0%nat, λ s, (s, if bool_decide (events s = []) then None else Some (WRequeue StateIdle)))].

Lemma stepping_valid : valid start stepping.
Proof.
  split; [by apply t_execute, (s_pop _ 0)|]. split; [apply t_execute, s_take|]. split; [apply t_execute, s_drain|]. split; [by apply t_execute, s_yields|]. split; [apply t_dispatch, s_handled|done].
Qed.

Lemma waking_valid : valid (play start stepping) waking.
Proof.
  split; [apply t_complete, s_complete; by left|]. split; [apply t_complete, s_complete_cas|]. split; [apply t_complete, s_complete_wake|]. split; [apply t_dispatch, s_dispatched|]. split; [apply t_execute, s_push|].
  split; [by apply t_execute, (s_pop _ 0)|]. split; [apply t_execute, s_take|]. split; [apply t_execute, s_drain|]. split; [by apply t_execute, s_idle|]. split; [apply t_execute, s_check|done].
Qed.

Definition stepped : Sched := play start stepping.
Definition rested : Sched := play stepped waking.

Lemma stepped_reachable : reachable stepped.
Proof. apply play_reachable; [apply reachable_submit|apply stepping_valid]. Qed.

Lemma rested_reachable : reachable rested.
Proof. apply play_reachable; [apply stepped_reachable|apply waking_valid]. Qed.

Lemma runs_exclusively_witness : masked (state (sh stepped)) = StateRunning ↔ ∃ k, running (threads stepped !! k) = true.
Proof. apply (runs_exclusively stepped 0 0). exact stepped_reachable. Defined.


End demo.
End Processor.
