(* ===== verification/Radix.v ===== *)
(** * The prefix trees of the policy index ([system/security/radix.go])

    A compressed prefix tree over byte strings: [node] finds or creates the node of a
    prefix, cutting a label in two where the new prefix leaves it, and [walk] visits the
    values on the way of a key. The tree is determined by the value [at_] each prefix:
    [node] changes that value alone, and [walk] visits, from the shortest to the longest,
    the prefixes of the key that have a value. *)

From S2P Require Import Prelude Bytes GoStrings.

Module Radix.

Section radix.
Context {T : Type} (zero : T).

(** ** The code *)

(** The children are a Go map by the first byte of their label. *)
Inductive radix : Type := Node (prefix : list ascii) (value : T) (children : list (ascii * radix)).

Definition prefix (r : radix) : list ascii := let 'Node p _ _ := r in p.
Definition value (r : radix) : T := let 'Node _ v _ := r in v.
Definition children (r : radix) : list (ascii * radix) := let 'Node _ _ m := r in m.

Fixpoint child (m : list (ascii * radix)) (c : ascii) : option radix :=
  match m with
  | [] => None
  | (d, r) :: m => if bool_decide (d = c) then Some r else child m c
  end.

Definition set_child (m : list (ascii * radix)) (c : ascii) (r : radix) : list (ascii * radix) :=
  (c, r) :: filter (λ kv, kv.1 ≠ c) m.

(** The length of the common prefix *)
Fixpoint common (a b : list ascii) : nat :=
  match a, b with
  | x :: a, y :: b => if bool_decide (x = y) then S (common a b) else O
  | _, _ => O
  end.

(** A node whose label is cut after [n] bytes *)
Definition split (n : nat) (r : radix) : radix :=
  match drop n (prefix r) with
  | [] => r
  | x :: suffix => Node (take n (prefix r)) zero [(x, Node (x :: suffix) (value r) (children r))]
  end.

(** [node] returns a pointer, through which its callers change the value of the node: here
    the change [f] is applied where the node is found, with a state of the caller. Every turn
    of the loop takes at least one byte off the prefix. *)
Fixpoint node {S : Type} (fuel : nat) (f : T → S → T * S) (p : list ascii) (r : radix) (s : S) : radix * S :=
  match fuel with
  | O => (r, s)
  | Datatypes.S fuel =>
      match p with
      | [] => let '(v, s) := f (value r) s in (Node (prefix r) v (children r), s)
      | c :: _ =>
          match child (children r) c with
          | None =>
              let '(v, s) := f zero s in
              (Node (prefix r) (value r) (set_child (children r) c (Node p v [])), s)
          | Some ch =>
              let n := common p (prefix ch) in
              let '(ch, s) := node fuel f (drop n p) (split n ch) s in
              (Node (prefix r) (value r) (set_child (children r) c ch), s)
          end
      end
  end.

Definition alter_node {S : Type} (f : T → S → T * S) (p : list ascii) (r : radix) (s : S) : radix * S :=
  node (Datatypes.S (length p)) f p r s.

(** The values visited below a node *)
Fixpoint descend (fuel : nat) (r : radix) (key : list ascii) : list T :=
  match fuel with
  | O => []
  | S fuel =>
      match key with
      | [] => []
      | c :: _ =>
          match child (children r) c with
          | None => []
          | Some ch =>
              if HasPrefix key (prefix ch) then value ch :: descend fuel ch (drop (length (prefix ch)) key) else []
          end
      end
  end.

Definition walk (r : radix) (key : list ascii) : list T := value r :: descend (length key) r key.

(** ** Well-formed trees *)

Inductive wf : radix → Prop :=
| wf_node p v m :
    NoDup m.*1 → (∀ c ch, child m c = Some ch → head (prefix ch) = Some c) → (∀ c ch, child m c = Some ch → wf ch) → wf (Node p v m).

Lemma wf_leaf p v : wf (Node p v []).
Proof. constructor; [apply NoDup_nil_2|done..]. Qed.

Lemma wf_child r c ch : wf r → child (children r) c = Some ch → (∃ l, prefix ch = c :: l) ∧ wf ch.
Proof.
  intros [p v m _ Hl Hw] Hc. split; [|by eapply Hw]. specialize (Hl _ _ Hc). destruct (prefix ch) as [|d l]; [done|].
  injection Hl as ->. by exists l.
Qed.

Lemma child_filter_ne m c d : d ≠ c → child (filter (λ kv, kv.1 ≠ c) m) d = child m d.
Proof.
  intros Hne. induction m as [|[x r] m IH]; [done|]. rewrite filter_cons. cbn. case_decide as Hx; cbn.
  - by destruct (bool_decide _).
  - rewrite IH, bool_decide_eq_false_2; [done|]. intros ->. destruct (decide (d = c)); tauto.
Qed.

Lemma child_set_eq m c r : child (set_child m c r) c = Some r.
Proof. cbn. by rewrite bool_decide_eq_true_2. Qed.

Lemma child_set_ne m c d r : d ≠ c → child (set_child m c r) d = child m d.
Proof. intros Hne. cbn. rewrite bool_decide_eq_false_2 by congruence. by apply child_filter_ne. Qed.

Lemma child_elem m c ch : NoDup m.*1 → (c, ch) ∈ m → child m c = Some ch.
Proof.
  induction m as [|[d r] m IH]; cbn; intros Hn; [by intros ?%elem_of_nil|]. apply NoDup_cons in Hn as [Hd Hn].
  intros [[= -> ->]|Hin]%elem_of_cons; [by rewrite bool_decide_eq_true_2|]. rewrite bool_decide_eq_false_2; [by apply IH|].
  intros ->. apply Hd. by apply (list_elem_of_fmap_2 fst) in Hin.
Qed.

Lemma child_in m c ch : child m c = Some ch → (c, ch) ∈ m.
Proof.
  induction m as [|[d r] m IH]; cbn; [done|]. destruct (bool_decide_reflect (d = c)) as [->|]; [intros [= ->]; by left|]. intros H. right. by apply IH.
Qed.

Lemma NoDup_set m c r : NoDup m.*1 → NoDup (set_child m c r).*1.
Proof.
  intros Hn. cbn. apply NoDup_cons. split.
  - intros Hin. apply list_elem_of_fmap in Hin as ([d x] & -> & [Hne _]%list_elem_of_filter). done.
  - clear r. induction m as [|[d x] m IH]; [done|]. cbn in Hn. apply NoDup_cons in Hn as [Hd Hn]. rewrite filter_cons. case_decide; [|by apply IH].
    cbn. apply NoDup_cons. split; [|by apply IH]. intros Hin. apply Hd. apply list_elem_of_fmap in Hin as (y & -> & [_ Hy]%list_elem_of_filter).
    by apply list_elem_of_fmap_2.
Qed.

Lemma wf_keys r : wf r → NoDup (children r).*1.
Proof. by intros []. Qed.

Lemma wf_set r c ch v :
  wf r → wf ch → (∃ l, prefix ch = c :: l) → wf (Node (prefix r) v (set_child (children r) c ch)).
Proof.
  intros Hr Hch [l Hl]. constructor; [by apply NoDup_set, wf_keys|..]; intros d x; (destruct (decide (d = c)) as [->|Hne];
    [rewrite child_set_eq; intros [= <-]|rewrite child_set_ne by done; intros Hx; destruct (wf_child _ _ _ Hr Hx) as [[k Hk] ?]]); try done.
  - by rewrite Hl.
  - by rewrite Hk.
Qed.

Lemma common_spec a b : take (common a b) b = take (common a b) a ∧ (common a b ≤ length b)%nat.
Proof.
  revert b. induction a as [|x a IH]; intros [|y b]; cbn; [split; [done|lia]..|].
  destruct (bool_decide_reflect (x = y)) as [->|Hne]; [|split; [done|lia]]. destruct (IH b) as [H1 H2]. cbn. split; [by f_equal|lia].
Qed.

(** ** The value at a prefix *)

Fixpoint lookup_at (fuel : nat) (r : radix) (q : list ascii) : T :=
  match fuel with
  | O => zero
  | S fuel =>
      match q with
      | [] => value r
      | c :: _ =>
          match child (children r) c with
          | Some ch => if HasPrefix q (prefix ch) then lookup_at fuel ch (drop (length (prefix ch)) q) else zero
          | None => zero
          end
      end
  end.

Definition at_ (r : radix) (q : list ascii) : T := lookup_at (S (length q)) r q.

Lemma lookup_at_fuel f g r q : wf r → (length q < f)%nat → (length q < g)%nat → lookup_at f r q = lookup_at g r q.
Proof.
  revert g r q. induction f as [|f IH]; intros g r q Hw Hf Hg; [lia|]. destruct g as [|g]; [lia|]. destruct q as [|c q]; cbn; [done|].
  destruct (child (children r) c) as [ch|] eqn:Ec; [|done]. destruct (wf_child _ _ _ Hw Ec) as [[l ->] Hch]. destruct (HasPrefix _ _); [|done].
  cbn in *. apply IH; [done|rewrite length_drop; lia..].
Qed.

(** The value at a string below a child that is looked up by its first byte *)
Definition below (ch : radix) (q : list ascii) : T :=
  if HasPrefix q (prefix ch) then at_ ch (drop (length (prefix ch)) q) else zero.

Lemma at_nil r : at_ r [] = value r.
Proof. done. Qed.

Lemma at_cons r c q : wf r → at_ r (c :: q) = match child (children r) c with Some ch => below ch (c :: q) | None => zero end.
Proof.
  intros Hw.
  change (at_ r (c :: q)) with (match child (children r) c with
    | Some ch => if HasPrefix (c :: q) (prefix ch) then lookup_at (S (length q)) ch (drop (length (prefix ch)) (c :: q)) else zero
    | None => zero end).
  destruct (child (children r) c) as [ch|] eqn:Ec; [|done].
  destruct (wf_child _ _ _ Hw Ec) as [[l Hl] Hch]. unfold below. destruct (HasPrefix _ _); [|done].
  apply lookup_at_fuel; [done|rewrite Hl; cbn; rewrite length_drop; lia|lia].
Qed.

Lemma at_leaf p v q : at_ (Node p v []) q = if bool_decide (q = []) then v else zero.
Proof. destruct q as [|c q]; [by rewrite bool_decide_eq_true_2|]. rewrite at_cons by apply wf_leaf. done. Qed.

Lemma below_app ch q : below ch (prefix ch ++ q) = at_ ch q.
Proof. unfold below. by rewrite HasPrefix_app, drop_app_length. Qed.

(** A string either has the label as a prefix or not *)
Lemma HasPrefix_case q l : (∃ t, q = l ++ t) ∨ HasPrefix q l = false.
Proof. destruct (HasPrefix q l) eqn:E; [left; by apply HasPrefix_spec|by right]. Qed.

Lemma below_no ch q : HasPrefix q (prefix ch) = false → below ch q = zero.
Proof. unfold below. by intros ->. Qed.

Lemma HasPrefix_false q l : ¬ (∃ t, q = l ++ t) → HasPrefix q l = false.
Proof. intros Hn. destruct (HasPrefix q l) eqn:E; [|done]. by apply HasPrefix_spec in E. Qed.

Lemma HasPrefix_refl l : HasPrefix l l = true.
Proof. apply HasPrefix_spec. exists []. by rewrite app_nil_r. Qed.

(** ** Cutting a label *)

Lemma split_spec n r :
  (0 < n ≤ length (prefix r))%nat → wf r →
  wf (split n r) ∧ prefix (split n r) = take n (prefix r) ∧ ∀ q, below (split n r) q = below r q.
Proof.
  intros Hn Hw. unfold split. destruct (drop n (prefix r)) as [|x suf] eqn:Ed.
  - split_and!; [done| |done]. rewrite take_ge; [done|]. assert (length (drop n (prefix r)) = 0%nat) as Hl by (by rewrite Ed). rewrite length_drop in Hl. lia.
  - assert (prefix r = take n (prefix r) ++ x :: suf) as Hp by (by rewrite <- Ed, take_drop).
    revert Hp. generalize (take n (prefix r)). intros a Hp. clear Hn Ed.
    set (low := Node (x :: suf) (value r) (children r)).
    assert (wf low) as Hlow. { by destruct Hw; constructor. }
    assert (wf (Node a zero [(x, low)])) as Htop.
    { constructor; cbn; [apply NoDup_singleton|..]; intros c ch; (destruct (bool_decide_reflect (x = c)) as [->|]; [|done]); by intros [= <-]. }
    assert (∀ z, at_ low z = at_ r z) as Hsame. { intros [|c z]; [done|]. by rewrite !at_cons. }
    split_and!; [done|done|]. intros q. destruct (HasPrefix_case q a) as [[t ->]|Hno].
    + etrans; [exact (below_app (Node a zero [(x, low)]) t)|].
      assert (HasPrefix t (x :: suf) = false → below r (a ++ t) = zero) as Hz.
      { intros Hno. apply below_no, HasPrefix_false. rewrite Hp. intros [z Hz]. rewrite <- app_assoc in Hz. apply app_inv_head in Hz. by rewrite Hz, HasPrefix_app in Hno. }
      destruct (HasPrefix_case t (x :: suf)) as [[z ->]|Hno'].
      * rewrite app_assoc, <- Hp, below_app. cbn [app]. rewrite at_cons by done. cbn [children child]. rewrite bool_decide_eq_true_2 by done.
        etrans; [exact (below_app low z)|apply Hsame].
      * rewrite Hz by done. destruct t as [|c t]; [done|]. rewrite at_cons by done. cbn [children child].
        destruct (bool_decide (x = c)); [by apply below_no|done].
    + rewrite !below_no; [done| |done]. apply HasPrefix_false. rewrite Hp. intros [z Hz]. rewrite Hz, <- app_assoc, HasPrefix_app in Hno. done.
Qed.

(** ** The node of a prefix *)

Lemma node_spec {S} fuel (f : T → S → T * S) p r s :
  wf r → (length p < fuel)%nat →
  let '(r', s') := node fuel f p r s in
  wf r' ∧ prefix r' = prefix r ∧ s' = (f (at_ r p) s).2 ∧
  ∀ q, at_ r' q = if bool_decide (q = p) then (f (at_ r p) s).1 else at_ r q.
Proof.
  revert p r s. induction fuel as [|fuel IH]; intros p r s Hw Hf; [lia|]. cbn [node]. destruct p as [|c p].
  - rewrite at_nil. destruct (f (value r) s) as [v s'] eqn:Ef. split_and!; [|done|done|].
    + destruct Hw. by constructor.
    + intros [|d q]; [done|]. rewrite bool_decide_eq_false_2 by done. rewrite at_cons, at_cons; [done|done|]. destruct Hw. by constructor.
  - rewrite at_cons by done. destruct (child (children r) c) as [ch|] eqn:Ec.
    + destruct (wf_child _ _ _ Hw Ec) as [[l Hl] Hch]. set (n := common (c :: p) (prefix ch)).
      destruct (common_spec (c :: p) (prefix ch)) as [Htake Hle]. fold n in Htake, Hle.
      assert (0 < n ≤ length (prefix ch))%nat as Hn.
      { split; [|done]. subst n. rewrite Hl. cbn. rewrite bool_decide_eq_true_2 by done. lia. }
      destruct (split_spec n ch Hn Hch) as (Hws & Hps & Hbs).
      assert (c :: p = prefix (split n ch) ++ drop n (c :: p)) as Hp by (by rewrite Hps, Htake, take_drop).
      assert (length (drop n (c :: p)) < fuel)%nat as Hlen by (rewrite length_drop; cbn in *; lia).
      revert Hp Hlen. generalize (drop n (c :: p)). intros rest Hp Hlen. specialize (IH rest (split n ch) s Hws Hlen).
      assert (below ch (c :: p) = at_ (split n ch) rest) as Hb by (by rewrite <- Hbs, Hp, below_app).
      rewrite <- Hb in IH. destruct (node fuel f _ _ s) as [ch' s']. destruct IH as (Hw' & Hp' & -> & Hat).
      assert (∃ k, prefix ch' = c :: k) as [k Hk]. { rewrite Hp', Hps, Hl. clearbody n. destruct n; [lia|]. by eexists. }
      assert (wf (Node (prefix r) (value r) (set_child (children r) c ch'))) as Hwr by (apply wf_set; eauto).
      split_and!; [done|done|done|]. intros [|d q]; [done|]. rewrite !at_cons by done. cbn [children]. destruct (decide (d = c)) as [->|Hne].
      * rewrite child_set_eq, Ec, <- (Hbs (c :: q)). destruct (HasPrefix_case (c :: q) (prefix ch')) as [[t Ht]|Hno].
        -- rewrite Ht, below_app, Hat. rewrite Hp' in *. rewrite below_app. rewrite Hp. apply (f_equal (λ b : bool, if b then _ else _)).
           apply bool_decide_ext. split; [by intros ->|]. by intros ?%app_inv_head.
        -- rewrite (below_no ch') by done. rewrite (below_no (split n ch)) by (by rewrite <- Hp'). rewrite bool_decide_eq_false_2; [done|]. rewrite Hp, <- Hp'. intros Heq. rewrite Heq, HasPrefix_app in Hno. done.
      * rewrite child_set_ne by done. rewrite bool_decide_eq_false_2 by congruence. done.
    + destruct (f zero s) as [v s'] eqn:Ef. assert (wf (Node (prefix r) (value r) (set_child (children r) c (Node (c :: p) v [])))) as Hwr.
      { apply wf_set; [done|apply wf_leaf|by eexists]. }
      split_and!; [done|done|done|]. intros [|d q]; [done|]. rewrite !at_cons by done. cbn [children]. destruct (decide (d = c)) as [->|Hne].
      * rewrite child_set_eq, Ec. destruct (HasPrefix_case (c :: q) (c :: p)) as [[t Ht]|Hno].
        -- rewrite Ht. etrans; [exact (below_app (Node (c :: p) v []) t)|]. rewrite at_leaf. apply (f_equal (λ b : bool, if b then _ else _)).
           apply bool_decide_ext. split; [intros ->; by rewrite app_nil_r|]. intros He. rewrite <- (app_nil_r (c :: p)) in He at 2. by apply app_inv_head in He.
        -- rewrite below_no by done. rewrite bool_decide_eq_false_2; [done|]. intros He. by rewrite He, HasPrefix_refl in Hno.
      * rewrite child_set_ne by done. by rewrite bool_decide_eq_false_2 by congruence.
Qed.

Lemma alter_node_spec {S} (f : T → S → T * S) p r s :
  wf r →
  wf (alter_node f p r s).1 ∧ (alter_node f p r s).2 = (f (at_ r p) s).2 ∧
  ∀ q, at_ (alter_node f p r s).1 q = if bool_decide (q = p) then (f (at_ r p) s).1 else at_ r q.
Proof.
  intros Hw. pose proof (node_spec (Datatypes.S (length p)) f p r s Hw ltac:(lia)) as Hn. unfold alter_node.
  destruct (node _ f p r s) as [r' s']. cbn. tauto.
Qed.

(** ** The values of a walk *)

(** The prefixes of a key, the shortest first *)
Definition prefixes_of (key : list ascii) : list (list ascii) := (λ n, take n key) <$> seq 0 (S (length key)).

Lemma prefixes_app l k : ∃ short,
  prefixes_of (l ++ k) = short ++ (app l <$> prefixes_of k) ∧ Forall (λ p, length p < length l ∧ ∃ t, l = p ++ t)%nat short ∧ (l ≠ [] → head short = Some []).
Proof.
  exists ((λ n, take n l) <$> seq 0 (length l)). unfold prefixes_of. split_and!.
  - rewrite length_app. replace (S (length l + length k)) with (length l + S (length k))%nat by lia. rewrite seq_app, fmap_app. f_equal.
    + apply list_fmap_ext. intros i n [-> Hi]%lookup_seq. cbn. rewrite take_app_le by lia. done.
    + cbn [plus]. rewrite <- (Nat.add_0_r (length l)) at 1. rewrite <- fmap_add_seq, <- !list_fmap_compose. apply list_fmap_ext. intros i n _. cbn. by rewrite take_app_add.
  - apply Forall_fmap, Forall_seq. intros n Hn. cbn. rewrite length_take. split; [lia|]. exists (drop n l). by rewrite take_drop.
  - by destruct l.
Qed.

Context `{EqDecision T}.

Definition nonzero (l : list T) : list T := filter (λ v, v ≠ zero) l.

Lemma nonzero_app a b : nonzero (a ++ b) = nonzero a ++ nonzero b.
Proof. apply filter_app. Qed.

Lemma nonzero_cons v a b : nonzero a = nonzero b → nonzero (v :: a) = nonzero (v :: b).
Proof. intros He. unfold nonzero in *. rewrite !filter_cons. by rewrite He. Qed.

Lemma nonzero_none l : Forall (λ v, v = zero) l → nonzero l = [].
Proof. induction 1 as [|v l -> _ IH]; [done|]. unfold nonzero. rewrite filter_cons, decide_False; [done|tauto]. Qed.

Lemma descend_spec fuel r key :
  wf r → (length key ≤ fuel)%nat → nonzero (value r :: descend fuel r key) = nonzero (at_ r <$> prefixes_of key).
Proof.
  revert r key. induction fuel as [|fuel IH]; intros r key Hw Hf; [destruct key; [done|cbn in Hf; lia]|].
  destruct key as [|c key]; [done|]. cbn [descend].
  assert (∀ q, (match child (children r) c with Some ch => below ch (c :: q) | None => zero end) = at_ r (c :: q)) as Hat by (intros q; by rewrite at_cons).
  assert (at_ r <$> prefixes_of (c :: key) = value r :: (at_ r ∘ cons c <$> prefixes_of key)) as ->.
  { unfold prefixes_of. cbn [length seq fmap list_fmap take]. f_equal. rewrite <- fmap_S_seq, <- !list_fmap_compose. done. }
  apply nonzero_cons. destruct (child (children r) c) as [ch|] eqn:Ec.
  2:{ symmetry. apply nonzero_none, Forall_fmap, Forall_true. intros q. exact (eq_sym (Hat q)). }
  destruct (wf_child _ _ _ Hw Ec) as [[l Hl] Hch]. destruct (HasPrefix_case (c :: key) (prefix ch)) as [[k Hk]|Hno].
  - rewrite Hk, HasPrefix_app, drop_app_length. rewrite IH; [|done|apply (f_equal length) in Hk; rewrite length_app, Hl in Hk; cbn in Hk, Hf; lia].
    rewrite Hl in Hk. injection Hk as ->. destruct (prefixes_app l k) as (short & -> & Hs & _). rewrite fmap_app, nonzero_app.
    rewrite (nonzero_none (_ <$> short)).
    + rewrite app_nil_l, <- list_fmap_compose. f_equal. apply list_fmap_ext. intros i q _. unfold compose. rewrite <- Hat. change (c :: l ++ q) with ((c :: l) ++ q). rewrite <- Hl. symmetry. apply below_app.
    + apply Forall_fmap. eapply Forall_impl; [exact Hs|]. intros q [Hq _]. unfold compose. rewrite <- Hat. apply below_no, HasPrefix_false. rewrite Hl. intros [t Ht].
      apply (f_equal length) in Ht. cbn in Ht. rewrite length_app in Ht. lia.
  - rewrite Hno. symmetry. apply nonzero_none, Forall_fmap, Forall_fmap, Forall_seq. intros n Hn. unfold compose. rewrite <- Hat. apply below_no, HasPrefix_false. intros [t Ht].
    assert (c :: key = prefix ch ++ t ++ drop n key) as He by (rewrite app_assoc, <- Ht; cbn; by rewrite take_drop). by rewrite He, HasPrefix_app in Hno.
Qed.

Lemma walk_spec r key : wf r → nonzero (walk r key) = nonzero (at_ r <$> prefixes_of key).
Proof. intros Hw. by apply descend_spec. Qed.

End radix.
Arguments radix : clear implicits.

(** ** The tree of resources ([system/security/action_plan.go]) *)

(** The effects as bits of a [uint8] *)
Definition allowBit : Z := 1.
Definition denyBit : Z := 2.

Definition insert (r : radix Z) (p : list ascii) (effects : Z) : radix Z :=
  (alter_node 0 (λ v _, (Z.lor v effects, ())) p r ()).1.

Definition match_ (r : radix Z) (resource : list ascii) : Z := foldl Z.lor 0 (walk r resource).

Definition resourceRadix : radix Z := Node [] 0 [].

Lemma foldl_lor_bit l a i : Z.testbit (foldl Z.lor a l) i = true ↔ Z.testbit a i = true ∨ ∃ v, v ∈ l ∧ Z.testbit v i = true.
Proof.
  revert a. induction l as [|x l IH]; intros a; cbn; [split; [by left|]; intros [H|(v & Hv%elem_of_nil & _)]; done|].
  rewrite IH, Z.lor_spec, orb_true_iff. setoid_rewrite elem_of_cons. naive_solver.
Qed.

Lemma nonzero_in (l : list Z) v : v ≠ 0 → v ∈ l ↔ v ∈ nonzero 0 l.
Proof. intros Hv. unfold nonzero. rewrite list_elem_of_filter. tauto. Qed.

Lemma prefixes_in key p : p ∈ prefixes_of key ↔ ∃ t, key = p ++ t.
Proof.
  unfold prefixes_of. rewrite list_elem_of_fmap. setoid_rewrite elem_of_seq. split.
  - intros (n & -> & _). exists (drop n key). by rewrite take_drop.
  - intros [t ->]. exists (length p). rewrite take_app_length, length_app. split; [done|lia].
Qed.

(** A bit is set for a resource when it is set at one of the prefixes of the resource. *)
Lemma match_bit r resource i :
  wf r → Z.testbit (match_ r resource) i = true ↔ ∃ p t, resource = p ++ t ∧ Z.testbit (at_ 0 r p) i = true.
Proof.
  intros Hw. unfold match_. rewrite foldl_lor_bit, Z.testbit_0_l. split.
  - intros [[=]|(v & Hv & Hi)]. assert (v ≠ 0) as Hne by (intros ->; by rewrite Z.testbit_0_l in Hi).
    rewrite (nonzero_in _ _ Hne), (walk_spec 0) in Hv by done. rewrite <- nonzero_in, list_elem_of_fmap in Hv by done.
    destruct Hv as (p & -> & [t Ht]%prefixes_in). eauto.
  - intros (p & t & -> & Hi). right. exists (at_ 0 r p). split; [|done]. assert (at_ 0 r p ≠ 0) as Hne by (intros He; by rewrite He, Z.testbit_0_l in Hi).
    rewrite (nonzero_in _ _ Hne), (walk_spec 0) by done. rewrite <- nonzero_in by done. apply list_elem_of_fmap_2, prefixes_in. eauto.
Qed.

Lemma insert_spec r p e : wf r → wf (insert r p e) ∧ ∀ q, at_ 0 (insert r p e) q = if bool_decide (q = p) then Z.lor (at_ 0 r p) e else at_ 0 r q.
Proof. intros Hw. destruct (alter_node_spec 0 (λ v (_ : unit), (Z.lor v e, ())) p r () Hw) as (H1 & _ & H3). done. Qed.

End Radix.
