(* ===== verification/Policy.v ===== *)
(** * Security policies ([api/security], [service/security/policy])

    A policy answers a request, an actor with an action on a resource, with [Allow], [Deny]
    or [Undefined]. A policy may describe itself: which actions and resources it is for, and
    whether these alone decide. [DescribedBy] states what a description promises. Policies
    made of patterns, with conditions or an expression, keep this promise, and the counter
    of identities never gives two of them the same one.

    The evaluators of conditions and of expressions are arguments: conditions compare
    numbers and strings with regular expressions, and expressions belong to a library. *)

From S2P Require Import Prelude Bytes GoStrings RegEntry.
Import Entries.

Module Policies.

Inductive Result := Undefined | Allow | Deny.

#[export] Instance Result_eq_dec : EqDecision Result.
Proof. solve_decision. Defined.

(** Go strings that are matched byte by byte *)
Notation str := (list ascii).

Section policies.
Context {V : Type}.

(** ** The interfaces ([api/security/security.go]) *)

Notation Bag := (gmap string V).

Record Actor := mkActor { Meta : Bag; aID : string }.

(** Whether everything is meant, the exact values, and the prefixes *)
Definition Filter : Type := bool * list str * list str.

Record PolicyDescriptor := mkDescriptor {
  PolicyIdentity : Z;
  AppliesToAction : str → bool;
  ActionFilter : Filter;
  ResourceFilter : Filter;
  StaticEffect : Result * bool
}.

(** A policy is used through its interface. [describes] is the description it gives of
    itself when it implements [PolicyDescriptor]. *)
Record Policy := mkPolicy {
  pID : ID;
  Evaluate : Actor → str → str → Bag → Result;
  describes : option PolicyDescriptor
}.

Definition in_filter (f : Filter) (s : str) : bool :=
  let '(any, exact, prefixes) := f in any || bool_decide (s ∈ exact) || existsb (HasPrefix s) prefixes.

(** What the comments of [PolicyDescriptor] promise of a description. *)
Class DescribedBy (p : Policy) (d : PolicyDescriptor) : Prop := {
  applies_filter a : AppliesToAction d a = in_filter (ActionFilter d) a;
  applies_sound actor a r m : AppliesToAction d a = false → Evaluate p actor a r m = Undefined;
  static_effect res actor a r m :
    StaticEffect d = (res, true) → AppliesToAction d a = true →
    Evaluate p actor a r m = if in_filter (ResourceFilter d) r then res else Undefined
}.

(** ** Patterns of actions and resources ([service/security/policy/compiled.go]) *)

(** The value of a configuration: a string, a list of strings, a list of anything, of which
    only the strings count, or something else. *)
Inductive patterns :=
| PString (s : str)
| PStrings (l : list str)
| PList (l : list (option str))
| POther.

Record filter := mkFilter { exact : gset str; prefixes : list str; any : bool }.

Definition star : str := bytes_of "*".
Definition dot_star : str := bytes_of ".*".

Definition add (f : filter) (pattern : str) : filter :=
  if bool_decide (pattern = star) then mkFilter (exact f) (prefixes f) true else
  if bool_decide (2 < length pattern)%nat && HasSuffix pattern dot_star then
    mkFilter (exact f) (prefixes f ++ [take (length pattern - 2) pattern]) (any f)
  else if bool_decide (1 < length pattern)%nat && HasSuffix pattern star then
    mkFilter (exact f) (prefixes f ++ [take (length pattern - 1) pattern]) (any f)
  else mkFilter ({[pattern]} ∪ exact f) (prefixes f) (any f).

Definition listed (v : patterns) : list str :=
  match v with
  | PString s => [s]
  | PStrings l => l
  | PList l => omap id l
  | POther => []
  end.

Definition compileFilter (v : patterns) : filter := foldl add (mkFilter ∅ [] false) (listed v).

Definition matches (f : filter) (v : str) : bool :=
  any f || bool_decide (v ∈ exact f) || existsb (HasPrefix v) (prefixes f).

Definition describe (f : filter) : Filter := (any f, elements (exact f), prefixes f).

(** The identities of policies: a counter that panics, here [None], at its end. *)
Definition nextIdentity (counter : Z) : option Z :=
  if bool_decide (counter = 2 ^ 64 - 1) then None else Some (counter + 1).

(** ** Policies with conditions ([service/security/policy/policy.go]) *)

Record Condition := mkCondition { Field : string; Operator : string; Value : option V; ValueFrom : string }.

Record Config := mkConfig { Actions : patterns; Resources : patterns; Effect : string; Conditions : list Condition }.

Inductive error :=
| ErrEffect (e : string) | ErrActionsStringEmpty | ErrActionsListEmpty | ErrActionsInvalidType
| ErrResourcesStringEmpty | ErrResourcesListEmpty | ErrResourcesInvalidType
| ErrConditionField (i : nat) | ErrConditionOperator (i : nat) | ErrConditionValue (i : nat) | ErrInvalidOperator (i : nat) (op : string)
| ErrInvalidRegex | ErrExpressionEmpty | ErrCompile.

Definition operators : list string :=
  ["eq"; "ne"; "lt"; "gt"; "lte"; "gte"; "in"; "nin"; "exists"; "nexists"; "contains"; "ncontains"; "matches"; "nmatches"].

(** A list of strings, [[]string], is of no type that the validation accepts. *)
Definition validate_patterns (v : patterns) (empty_string empty_list invalid : error) : option error :=
  match v with
  | PString s => if bool_decide (s = []) then Some empty_string else None
  | PList l => if bool_decide (length l = 0%nat) then Some empty_list else None
  | PStrings _ | POther => Some invalid
  end.

Fixpoint validate_conditions (i : nat) (l : list Condition) : option error :=
  match l with
  | [] => None
  | c :: l =>
      if bool_decide (Field c = "") then Some (ErrConditionField i) else
      if bool_decide (Operator c = "") then Some (ErrConditionOperator i) else
      if bool_decide (Value c ≠ None ∨ ValueFrom c ≠ "") then
        if bool_decide (Operator c ∈ operators) then validate_conditions (S i) l else Some (ErrInvalidOperator i (Operator c))
      else Some (ErrConditionValue i)
  end.

Definition Validate (c : Config) : option error :=
  if bool_decide (Effect c ≠ "allow" ∧ Effect c ≠ "deny") then Some (ErrEffect (Effect c)) else
  match validate_patterns (Actions c) ErrActionsStringEmpty ErrActionsListEmpty ErrActionsInvalidType with
  | Some e => Some e
  | None =>
      match validate_patterns (Resources c) ErrResourcesStringEmpty ErrResourcesListEmpty ErrResourcesInvalidType with
      | Some e => Some e
      | None => validate_conditions 0 (Conditions c)
      end
  end.

Definition getResult (effect : string) : Result :=
  if bool_decide (effect = "allow") then Allow else if bool_decide (effect = "deny") then Deny else Undefined.

(** What an evaluator makes of a condition; [None] is an error. *)
Definition Evaluator : Type := Condition → Actor → str → str → Bag → option bool.

(** The loop over the conditions: the first that fails or does not hold ends it. *)
Fixpoint all_match (ev : Evaluator) (l : list Condition) (actor : Actor) (action resource : str) (meta : Bag) : bool :=
  match l with
  | [] => true
  | c :: l => match ev c actor action resource meta with Some true => all_match ev l actor action resource meta | _ => false end
  end.

Definition evaluate_policy (actions resources : filter) (effect : string) (conditions : list Condition) (ev : Evaluator)
    (actor : Actor) (action resource : str) (meta : Bag) : Result :=
  if negb (matches actions action) then Undefined else
  if negb (matches resources resource) then Undefined else
  if bool_decide (length conditions = 0%nat) then getResult effect else
  if all_match ev conditions actor action resource meta then getResult effect else Undefined.

(** A new policy with the identity it took, an error, or a panic *)
Inductive created := Created (p : Policy) (identity : Z) | Failed (e : error) | Panicked.

Definition NewPolicy (evaluator_of : list Condition → option Evaluator) (counter : Z) (id : ID) (config : Config) : created :=
  match Validate config with
  | Some e => Failed e
  | None =>
      match evaluator_of (Conditions config) with
      | None => Failed ErrInvalidRegex
      | Some ev =>
          let actions := compileFilter (Actions config) in
          let resources := compileFilter (Resources config) in
          match nextIdentity counter with
          | None => Panicked
          | Some identity =>
              Created (mkPolicy id (evaluate_policy actions resources (Effect config) (Conditions config) ev)
                (Some (mkDescriptor identity (matches actions) (describe actions) (describe resources)
                  (getResult (Effect config), bool_decide (length (Conditions config) = 0%nat))))) identity
          end
      end
  end.

(** ** Policies with an expression ([service/security/policy/expr_policy.go]) *)

Record ExprConfig := mkExprConfig { eActions : patterns; eResources : patterns; Expression : string; eEffect : string }.

(** A compiled expression; [None] is an error of the evaluation, or a result that is no
    boolean. *)
Definition Program : Type := Actor → str → str → Bag → option bool.

Definition NewExprEvaluator (compile : string → option Program) (expression : string) : result error Program :=
  if bool_decide (expression = "") then Err ErrExpressionEmpty else
  match compile expression with Some p => Ok p | None => Err ErrCompile end.

Definition evaluate_expr (actions resources : filter) (effect : string) (program : Program)
    (actor : Actor) (action resource : str) (meta : Bag) : Result :=
  if negb (matches actions action) then Undefined else
  if negb (matches resources resource) then Undefined else
  match program actor action resource meta with
  | None => Undefined
  | Some false => Undefined
  | Some true => getResult effect
  end.

Definition NewExprPolicy (compile : string → option Program) (counter : Z) (id : ID) (config : ExprConfig) : created :=
  match NewExprEvaluator compile (Expression config) with
  | Err e => Failed e
  | Ok program =>
      let actions := compileFilter (eActions config) in
      let resources := compileFilter (eResources config) in
      match nextIdentity counter with
      | None => Panicked
      | Some identity =>
          Created (mkPolicy id (evaluate_expr actions resources (eEffect config) program)
            (Some (mkDescriptor identity (matches actions) (describe actions) (describe resources) (Undefined, false)))) identity
      end
  end.

(** ** Policies keep the promise of their description *)

Lemma matches_describe f s : in_filter (describe f) s = matches f s.
Proof. unfold in_filter, describe, matches. f_equal. f_equal. apply bool_decide_ext. apply elem_of_elements. Qed.

#[export] Instance policy_described id actions resources effect conditions ev identity d :
  DescribedBy (mkPolicy id (evaluate_policy actions resources effect conditions ev) d)
    (mkDescriptor identity (matches actions) (describe actions) (describe resources) (getResult effect, bool_decide (length conditions = 0%nat))).
Proof.
  split; intros; cbn [AppliesToAction ActionFilter ResourceFilter StaticEffect Evaluate] in *.
  - by rewrite matches_describe.
  - unfold evaluate_policy. by rewrite H.
  - injection H as <- Hc. unfold evaluate_policy. rewrite H0, Hc, matches_describe. cbn. by destruct (matches resources r).
Qed.

#[export] Instance expr_described id actions resources effect program identity d :
  DescribedBy (mkPolicy id (evaluate_expr actions resources effect program) d)
    (mkDescriptor identity (matches actions) (describe actions) (describe resources) (Undefined, false)).
Proof.
  split; intros; cbn [AppliesToAction ActionFilter ResourceFilter StaticEffect Evaluate] in *; [by rewrite matches_describe| |done]. unfold evaluate_expr. by rewrite H.
Qed.

(** ** Which strings a list of patterns is for *)

(** A pattern is for everything, for what begins with the text before its star or dot and
    star, or for itself. *)
Definition pattern_for (s pattern : str) : bool :=
  bool_decide (pattern = star) || bool_decide (s = pattern)
  || bool_decide (2 < length pattern)%nat && HasSuffix pattern dot_star && HasPrefix s (take (length pattern - 2) pattern)
  || bool_decide (1 < length pattern)%nat && HasSuffix pattern star && negb (HasSuffix pattern dot_star && bool_decide (2 < length pattern)%nat)
     && HasPrefix s (take (length pattern - 1) pattern).

Lemma HasPrefix_take s n : HasPrefix s (take n s) = true.
Proof. apply HasPrefix_spec. exists (drop n s). by rewrite take_drop. Qed.

Lemma matches_add f pattern s : matches (add f pattern) s = matches f s || pattern_for s pattern.
Proof.
  unfold add, pattern_for, matches. destruct (bool_decide_reflect (pattern = star)) as [->|Hns]; cbn [any exact prefixes]; [by rewrite orb_true_r|].
  destruct (bool_decide (2 < length pattern)%nat && HasSuffix pattern dot_star) eqn:E1.
  - apply andb_true_iff in E1 as [E1 E2]. rewrite E1, E2. cbn [andb negb any exact prefixes orb]. rewrite existsb_app. cbn [existsb]. rewrite !andb_false_r, !orb_false_r, orb_assoc.
    f_equal. destruct (bool_decide_reflect (s = pattern)) as [->|]; [by rewrite HasPrefix_take|done].
  - rewrite (andb_comm (HasSuffix pattern dot_star)), E1. cbn [andb negb orb]. rewrite orb_false_r, andb_true_r.
    destruct (bool_decide (1 < length pattern)%nat && HasSuffix pattern star) eqn:E2; cbn [any exact prefixes andb orb].
    + rewrite existsb_app. cbn. rewrite orb_false_r, !orb_assoc. destruct (bool_decide_reflect (s = pattern)) as [->|]; [by rewrite HasPrefix_take, !orb_true_r|by rewrite !orb_false_r].
    + rewrite orb_false_r. destruct (any f); [done|]. cbn [orb]. destruct (bool_decide_reflect (s = pattern)) as [->|Hne].
      * rewrite bool_decide_eq_true_2 by set_solver. by rewrite orb_true_r.
      * rewrite orb_false_r. f_equal. apply bool_decide_ext. set_solver.
Qed.

Lemma matches_fold l f s : matches (foldl add f l) s = matches f s || existsb (pattern_for s) l.
Proof.
  revert f. induction l as [|p l IH]; intros f; cbn [foldl existsb]; [by rewrite orb_false_r|]. by rewrite IH, matches_add, orb_assoc.
Qed.

(** A compiled filter, whether of a string or of a list, accepts a value exactly when one
    of its patterns is for it. *)
Theorem compileFilter_spec v s : matches (compileFilter v) s = existsb (pattern_for s) (listed v).
Proof. apply matches_fold. Qed.

(** ** Identities are not given twice *)

Section creation.
Context (evaluator_of : list Condition → option Evaluator) (compile : string → option Program).

Inductive request := RPolicy (id : ID) (c : Config) | RExpr (id : ID) (c : ExprConfig).

Definition create (counter : Z) (r : request) : created :=
  match r with
  | RPolicy id c => NewPolicy evaluator_of counter id c
  | RExpr id c => NewExprPolicy compile counter id c
  end.

(** The policies that a sequence of requests creates; a panic ends it. *)
Fixpoint create_all (counter : Z) (l : list request) : list Policy :=
  match l with
  | [] => []
  | r :: l =>
      match create counter r with
      | Created p identity => p :: create_all identity l
      | Failed _ => create_all counter l
      | Panicked => []
      end
  end.

Definition identity_of (p : Policy) : Z := from_option PolicyIdentity 0 (describes p).

Definition well_described (p : Policy) : Prop := match describes p with Some d => DescribedBy p d | None => True end.

Lemma create_ok counter r p identity :
  0 ≤ counter < 2 ^ 64 → create counter r = Created p identity → identity = counter + 1 ∧ counter < identity < 2 ^ 64 ∧ identity_of p = identity ∧ well_described p.
Proof.
  intros Hc. destruct r as [id c|id c]; cbn; unfold NewPolicy, NewExprPolicy, nextIdentity, identity_of, well_described.
  - destruct (Validate c); [done|]. destruct (evaluator_of _); [|done]. destruct (bool_decide_reflect (counter = 2 ^ 64 - 1)); [done|].
    intros [= <- <-]. split_and!; [lia..|done|cbn [describes]; apply _].
  - destruct (NewExprEvaluator _ _); [|done]. destruct (bool_decide_reflect (counter = 2 ^ 64 - 1)); [done|].
    intros [= <- <-]. split_and!; [lia..|done|cbn [describes]; apply _].
Qed.

Lemma create_all_ok l counter :
  0 ≤ counter < 2 ^ 64 → Forall (λ p, counter < identity_of p < 2 ^ 64 ∧ well_described p) (create_all counter l) ∧ NoDup (identity_of <$> create_all counter l).
Proof.
  revert counter. induction l as [|r l IH]; intros counter Hc; cbn; [split; [done|apply NoDup_nil_2]|].
  destruct (create counter r) as [p i| |] eqn:Er; [|by apply IH|split; [done|apply NoDup_nil_2]].
  destruct (create_ok _ _ _ _ Hc Er) as (-> & Hi & Hp & Hd). destruct (IH (counter + 1) ltac:(lia)) as [H1 H2]. split.
  - constructor; [split; [lia|done]|]. eapply Forall_impl; [exact H1|]. cbn. intros x [Hx ?]. split; [lia|done].
  - cbn. apply NoDup_cons. split; [|done]. rewrite Hp, list_elem_of_fmap. intros (x & He & Hx). rewrite Forall_forall in H1. specialize (H1 x Hx). lia.
Qed.

End creation.
End policies.
End Policies.
