(* ===== verification/Varint.v ===== *)
(** * Variable-length integers ([encoding/binary])

    [AppendUvarint] and [Uvarint], seven bits to a byte, with the overflow of a 64-bit value
    after ten bytes. What was appended is read back, whatever follows. *)

From S2P Require Import Prelude Bytes.

Module Varint.

(** The bytes of a [uint64]: at most ten *)
Fixpoint put (fuel : nat) (x : Z) : list ascii :=
  match fuel with
  | O => [byte_of x]
  | S fuel => if bool_decide (128 ≤ x) then byte_of (Z.lor x 128) :: put fuel (Z.shiftr x 7) else [byte_of x]
  end.

Definition AppendUvarint (buf : list ascii) (x : Z) : list ascii := buf ++ put 9 x.

(** The value and the number of bytes read: 0 when the buffer is too short, negative when
    the value does not fit. *)
Fixpoint get (i s x : Z) (buf : list ascii) : Z * Z :=
  match buf with
  | [] => (0, 0)
  | b :: buf =>
      if bool_decide (i = 10) then (0, - (i + 1)) else
      if bool_decide (byte_val b < 128) then
        if bool_decide (i = 9 ∧ 1 < byte_val b) then (0, - (i + 1)) else (Z.lor x (u64 (Z.shiftl (byte_val b) s)), i + 1)
      else get (i + 1) (s + 7) (Z.lor x (u64 (Z.shiftl (Z.land (byte_val b) 127) s))) buf
  end.

Definition Uvarint (buf : list ascii) : Z * Z := get 0 0 0 buf.

Lemma put_nonempty fuel x : put fuel x ≠ [].
Proof. destruct fuel; cbn; [done|]. by destruct (bool_decide _). Qed.

Lemma lor_shift a y s : 0 ≤ s → 0 ≤ a < 2 ^ s → 0 ≤ y → Z.lor a (Z.shiftl y s) = a + y * 2 ^ s.
Proof.
  intros Hs Ha Hy. rewrite <- Z.shiftl_mul_pow2 by lia. symmetry. apply Z.add_nocarry_lor, Z.bits_inj'. intros n Hn. rewrite Z.land_spec, Z.bits_0.
  destruct (decide (n < s)) as [Hlt|Hge]; [by rewrite Z.shiftl_spec_low, andb_false_r by lia|].
  rewrite <- (Z.mod_small a (2 ^ s)) by done. by rewrite Z.mod_pow2_bits_high by lia.
Qed.

Lemma land_127 z : 0 ≤ z → Z.land (u8 (Z.lor z 128)) 127 = z mod 128.
Proof.
  intros Hz. change 127 with (Z.ones 7). unfold u8. rewrite Z.land_ones by lia. change (2 ^ 7) with 128. change (2 ^ 8) with (128 * 2).
  rewrite <- Znumtheory.Zmod_div_mod; [|lia..|by exists 2]. change 128 with (2 ^ 7) at 2 3. apply Z.bits_inj'. intros n Hn.
  destruct (decide (n < 7)) as [Hlt|Hge]; [|by rewrite !Z.mod_pow2_bits_high by lia].
  rewrite !Z.mod_pow2_bits_low, Z.lor_spec by lia. change 128 with (2 ^ 7). by rewrite Z.pow2_bits_false, orb_false_r by lia.
Qed.

Lemma u8_lor_128 z : 0 ≤ z → 128 ≤ u8 (Z.lor z 128).
Proof.
  intros Hz. assert (Z.testbit (u8 (Z.lor z 128)) 7 = true) as Hb.
  { unfold u8. rewrite Z.mod_pow2_bits_low, Z.lor_spec by lia. by rewrite orb_true_r. }
  pose proof (Z.mod_pos_bound (Z.lor z 128) (2 ^ 8) ltac:(lia)) as Hr. fold (u8 (Z.lor z 128)) in Hr.
  destruct (decide (128 ≤ u8 (Z.lor z 128))) as [|Hlt]; [done|]. rewrite <- (Z.mod_small (u8 (Z.lor z 128)) (2 ^ 7)) in Hb by lia.
  by rewrite Z.mod_pow2_bits_high in Hb by lia.
Qed.

Lemma get_put fuel i a x rest :
  0 ≤ i → i + Z.of_nat fuel = 9 → 0 ≤ a < 2 ^ (7 * i) → 0 ≤ x < 2 ^ (64 - 7 * i) →
  get i (7 * i) a (put fuel x ++ rest) = (a + x * 2 ^ (7 * i), i + Z.of_nat (length (put fuel x))).
Proof.
  revert i a x. induction fuel as [|fuel IH]; intros i a x Hi Hf Ha Hx.
  - assert (i = 9) as -> by lia. cbn [put app get length]. change (2 ^ (64 - 7 * 9)) with 2 in Hx. rewrite byte_val_of, u8_small by lia.
    rewrite (bool_decide_eq_false_2 (9 = 10)), (bool_decide_eq_true_2 (x < 128)), (bool_decide_eq_false_2 (9 = 9 ∧ 1 < x)) by lia. f_equal.
    rewrite u64_small; [by rewrite lor_shift by lia|]. rewrite Z.shiftl_mul_pow2 by lia. split; [|change (2 ^ 64) with (2 * 2 ^ 63)]; nia.
  - cbn [put]. assert (2 ^ (64 - 7 * i) * 2 ^ (7 * i) = 2 ^ 64) as Hp. { rewrite <- Z.pow_add_r by lia. f_equal. lia. }
    pose proof (Z.pow_pos_nonneg 2 (7 * i) ltac:(lia) ltac:(lia)) as Hpos. pose proof (Z.pow_pos_nonneg 2 (64 - 7 * i) ltac:(lia) ltac:(lia)) as Hpos'.
    destruct (bool_decide_reflect (128 ≤ x)) as [Hge|Hlt]; cbn [app get length].
    + rewrite byte_val_of. pose proof (u8_lor_128 x ltac:(lia)). rewrite (bool_decide_eq_false_2 (i = 10)), (bool_decide_eq_false_2 (u8 _ < 128)) by lia.
      rewrite land_127 by lia. pose proof (Z.mod_pos_bound x 128 ltac:(lia)) as Hm. pose proof (Z.div_mod x 128 ltac:(lia)) as Hdm.
      assert (2 ^ (7 * (i + 1)) = 128 * 2 ^ (7 * i)) as Hnext by (replace (7 * (i + 1)) with (7 + 7 * i) by lia; by rewrite Z.pow_add_r by lia).
      assert (u64 (Z.shiftl (x mod 128) (7 * i)) = Z.shiftl (x mod 128) (7 * i)) as ->.
      { apply u64_small. rewrite Z.shiftl_mul_pow2 by lia. split; nia. }
      rewrite lor_shift by lia. replace (7 * i + 7) with (7 * (i + 1)) by lia. rewrite Z.shiftr_div_pow2 by lia. change (2 ^ 7) with 128.
      rewrite IH; [|lia|lia|rewrite Hnext; nia|].
      * f_equal; [rewrite Hnext; nia|lia].
      * split; [apply Z.div_pos; lia|]. apply Z.div_lt_upper_bound; [lia|]. change 128 with (2 ^ 7). rewrite <- Z.pow_add_r by lia.
        replace (7 + (64 - 7 * (i + 1))) with (64 - 7 * i) by lia. lia.
    + rewrite byte_val_of, u8_small by lia. rewrite (bool_decide_eq_false_2 (i = 10)), (bool_decide_eq_true_2 (x < 128)), (bool_decide_eq_false_2 (i = 9 ∧ 1 < x)) by lia.
      f_equal. rewrite u64_small; [by rewrite lor_shift by lia|]. rewrite Z.shiftl_mul_pow2 by lia. split; nia.
Qed.

Lemma Uvarint_put x rest : is_u64 x → Uvarint (put 9 x ++ rest) = (x, Z.of_nat (length (put 9 x))).
Proof. intros Hx. unfold Uvarint. pose proof (get_put 9 0 0 x rest ltac:(lia) ltac:(lia) ltac:(lia) Hx) as Hg.
  change (7 * 0) with 0 in Hg. rewrite Hg. f_equal; lia. Qed.

(** The values of a sequence of encodings, and the loop that reads them *)
Definition encode (l : list Z) : list ascii := foldl AppendUvarint [] l.

Fixpoint decode (fuel : nat) (buf : list ascii) : list Z :=
  match fuel with
  | O => []
  | S fuel =>
      if bool_decide (buf = []) then [] else
      let '(x, n) := Uvarint buf in x :: decode fuel (drop (Z.to_nat n) buf)
  end.

Lemma encode_app l buf : foldl AppendUvarint buf l = buf ++ concat (put 9 <$> l).
Proof. revert buf. induction l as [|x l IH]; intros buf; cbn; [by rewrite app_nil_r|]. rewrite IH. unfold AppendUvarint. by rewrite <- app_assoc. Qed.

Lemma decode_encode l fuel : Forall is_u64 l → (length (encode l) ≤ fuel)%nat → decode fuel (encode l) = l.
Proof.
  unfold encode. rewrite encode_app. cbn [app]. revert fuel. induction l as [|x l IH]; intros fuel Hl Hf; [by destruct fuel|].
  apply Forall_cons in Hl as [Hx Hl]. cbn [fmap list_fmap concat] in *. rewrite length_app in Hf.
  pose proof (put_nonempty 9 x) as Hne. destruct (put 9 x) as [|b bs] eqn:Ep; [done|]. destruct fuel as [|fuel]; [cbn in Hf; lia|].
  cbn [decode app]. rewrite bool_decide_eq_false_2 by done. pose proof (Uvarint_put x (concat (put 9 <$> l)) Hx) as Hu. rewrite Ep in Hu. cbn [app] in Hu.
  rewrite Hu, Nat2Z.id. f_equal. change (b :: bs ++ ?r) with ((b :: bs) ++ r). rewrite drop_app_length. apply IH; [done|]. cbn [length] in Hf. lia.
Qed.

Lemma encode_inj l l' : Forall is_u64 l → Forall is_u64 l' → encode l = encode l' → l = l'.
Proof. intros H1 H2 He. rewrite <- (decode_encode l _ H1 (le_n _)), He. by apply decode_encode. Qed.

End Varint.
