(* ===== verification/PolicyPlan.v ===== *)
(** * Plans of policy evaluation ([system/security/action_plan.go], [system/security/radix.go])

    A segment is a set of policies with an index that is built once, and plans that are made
    when an action is first asked for and kept. An action that a policy names has its own
    plan; every other action belongs to the class of the longest pattern it begins with, and
    the actions of a class share a plan. A plan keeps the effects of the policies that
    depend on the resource alone as bits, by resource and by prefix, and the others as a
    list to evaluate.

    The state of the index and of the plans is part of the model: [plan] and [evaluate]
    return the segment with what they kept. Whatever was asked before, the answer is that of
    evaluating every policy, a denial before a permission. *)

From S2P Require Import Prelude Bytes GoStrings RegEntry Radix Policy Varint.
Import Entries Radix Policies.

Module Plans.

(** ** The code *)

Section plans.
Context {V : Type}.
Notation Policy := (@Policy V).
Notation Actor := (@Actor V).

(** The order in which Go visits the entries of a map *)
Context (shuffle : ∀ A, list A → list A).

Record policyEntry := mkEntry { policy : Policy; descriptor : option PolicyDescriptor; eid : ID; identity : Z }.

Record actionPlan := mkPlan { pPrefixes : radix Z; pExact : gmap str Z; dynamic : list Policy; pAny : Z }.

(** The actions whose longest pattern is the same: their plan, the class of the next shorter
    pattern, and the policies with this pattern *)
Record patternClass := mkClass { slot : option actionPlan; parent : option nat; candidates : list nat }.

Record actionPlans := mkPlans {
  byAction : gmap str (option actionPlan);
  byCandidates : gmap (list ascii) actionPlan;
  patterns : radix (option nat);   (* classes by their number *)
  classes : list patternClass;
  pOpaque : list Policy
}.

Record segment := mkSegment { byID : gmap ID nat; plans : option actionPlans; ordered : list policyEntry; opaque : bool }.

(** *** Classes of patterns *)

Definition addCandidate (i : nat) (c : patternClass) : patternClass := mkClass (slot c) (parent c) (candidates c ++ [i]).

Definition addPattern (p : str) (i : nat) (t : radix (option nat) * list patternClass) : radix (option nat) * list patternClass :=
  alter_node None (λ v cls,
    match v with
    | None => (Some (length cls), cls ++ [mkClass None None [i]])
    | Some c => (Some c, alter (addCandidate i) c cls)
    end) p t.1 t.2.

(** The last value that is not nil *)
Definition matchPattern (r : radix (option nat)) (action : str) : option nat :=
  foldl (λ result v, match v with Some _ => v | None => result end) None (walk r action).

Fixpoint nodes {T} (r : radix T) : nat := let 'Node _ _ m := r in S (list_sum (map (λ kv, nodes kv.2) m)).

Definition setParent (p : option nat) (c : patternClass) : patternClass := mkClass (slot c) p (candidates c).

(** The stack of nodes still to be linked, its top first *)
Fixpoint link_loop (fuel : nat) (pending : list (radix (option nat) * option nat)) (cls : list patternClass) : list patternClass :=
  match fuel with
  | O => cls
  | S fuel =>
      match pending with
      | [] => cls
      | (r, p) :: pending =>
          let below q := reverse ((λ kv, (kv.2, q)) <$> shuffle _ (children r)) in
          match value r with
          | Some c => link_loop fuel (below (Some c) ++ pending) (alter (setParent p) c cls)
          | None => link_loop fuel (below p ++ pending) cls
          end
      end
  end.

(** Every turn takes a node off the stack and puts its children on it. *)
Definition linkPatterns (r : radix (option nat)) (p : option nat) (cls : list patternClass) : list patternClass :=
  link_loop (S (nodes r)) [(r, p)] cls.

(** *** The index *)

Definition name_action (m : gmap str (option actionPlan)) (name : str) : gmap str (option actionPlan) :=
  match m !! name with None => <[name := None]> m | Some _ => m end.

Definition index_entry (index : actionPlans) (ie : nat * policyEntry) : actionPlans :=
  let '(i, entry) := ie in
  match descriptor entry with
  | None => mkPlans (byAction index) (byCandidates index) (patterns index) (classes index) (pOpaque index ++ [policy entry])
  | Some d =>
      let '(anyAction, exact, prefixes) := ActionFilter d in
      let named := foldl name_action (byAction index) exact in
      let t := (patterns index, classes index) in
      let t := if anyAction then addPattern [] i t else t in
      let '(r, cls) := foldl (λ t p, addPattern p i t) t prefixes in
      mkPlans named (byCandidates index) r cls (pOpaque index)
  end.

(** The root has a class when a policy has no description: every action then has one. *)
Definition root_class (index : actionPlans) : actionPlans :=
  if bool_decide (pOpaque index ≠ [] ∧ value (patterns index) = None) then
    let 'Node p _ m := patterns index in
    mkPlans (byAction index) (byCandidates index) (Node p (Some (length (classes index))) m) (classes index ++ [mkClass None None []]) (pOpaque index)
  else index.

Definition new_index (l : list policyEntry) : actionPlans :=
  let index := root_class (foldl index_entry (mkPlans ∅ ∅ (Node [] None []) [] []) (imap pair l)) in
  mkPlans (byAction index) (byCandidates index) (patterns index) (linkPatterns (patterns index) None (classes index)) (pOpaque index).

Definition actionIndex (s : segment) : actionPlans := default (new_index (ordered s)) (plans s).

(** *** Plans *)

Definition addEntry (p : actionPlan) (entry : policyEntry) : actionPlan :=
  match descriptor entry with
  | None => p
  | Some d =>
      let '(res, static) := StaticEffect d in
      if negb static then mkPlan (pPrefixes p) (pExact p) (dynamic p ++ [policy entry]) (pAny p) else
      match (match res with Allow => Some allowBit | Deny => Some denyBit | Undefined => None end) with
      | None => p
      | Some effect =>
          let '(anyResource, exact, prefixes) := ResourceFilter d in
          mkPlan (foldl (λ r q, insert r q effect) (pPrefixes p) prefixes)
                 (foldl (λ m q, <[q := Z.lor (default 0 (m !! q)) effect]> m) (pExact p) exact)
                 (dynamic p) (if anyResource then Z.lor (pAny p) effect else pAny p)
      end
  end.

(** The policies of a class and of the classes of its shorter patterns *)
Fixpoint mark (fuel : nat) (cls : list patternClass) (current : option nat) (seen : list bool) : list bool :=
  match fuel with
  | O => seen
  | S fuel =>
      match current ≫= (cls !!.) with
      | None => seen
      | Some c => mark fuel cls (parent c) (foldl (λ s i, <[i := true]> s) seen (candidates c))
      end
  end.

Definition chosen (index : actionPlans) (l : list policyEntry) (class : option nat) (action : str) (i : nat) (entry : policyEntry) : bool :=
  match class with
  | Some _ => default false (mark (S (length (classes index))) (classes index) class (replicate (length l) false) !! i)
  | None => from_option (λ d, AppliesToAction d action) false (descriptor entry)
  end.

Definition chosen_indices (index : actionPlans) (l : list policyEntry) (class : option nat) (action : str) : list nat :=
  omap (λ ie, if chosen index l class action ie.1 ie.2 then Some ie.1 else None) (imap pair l).

(** The entries are read back from the key, one index after the other. *)
Definition compile_plan (l : list policyEntry) (opaque : list Policy) (key : list ascii) : actionPlan :=
  foldl (λ p i, match l !! Z.to_nat i with Some entry => addEntry p entry | None => p end)
    (mkPlan resourceRadix ∅ opaque 0) (Varint.decode (length key) key).

Definition setSlot (p : actionPlan) (c : patternClass) : patternClass := mkClass (Some p) (parent c) (candidates c).

(** A plan for an action or a class that has none yet: one for the same candidates, if it
    was made before *)
Definition make_plan (index : actionPlans) (l : list policyEntry) (class : option nat) (action : str) : actionPlans * actionPlan :=
  let key := Varint.encode (Z.of_nat <$> chosen_indices index l class action) in
  let '(known, p) :=
    match byCandidates index !! key with
    | Some p => (byCandidates index, p)
    | None => let p := compile_plan l (pOpaque index) key in (<[key := p]> (byCandidates index), p)
    end in
  match class with
  | Some c => (mkPlans (byAction index) known (patterns index) (alter (setSlot p) c (classes index)) (pOpaque index), p)
  | None => (mkPlans (<[action := Some p]> (byAction index)) known (patterns index) (classes index) (pOpaque index), p)
  end.

Definition plan (s : segment) (action : str) : segment * option actionPlan :=
  let index := actionIndex s in
  let keep index := mkSegment (byID s) (Some index) (ordered s) (opaque s) in
  match byAction index !! action with
  | Some (Some p) => (keep index, Some p)
  | Some None => let '(index, p) := make_plan index (ordered s) None action in (keep index, Some p)
  | None =>
      match matchPattern (patterns index) action with
      | None => (keep index, None)
      | Some c =>
          match classes index !! c ≫= slot with
          | Some p => (keep index, Some p)
          | None => let '(index, p) := make_plan index (ordered s) (Some c) action in (keep index, Some p)
          end
      end
  end.

Definition matchResource (p : actionPlan) (resource : str) : Z :=
  Z.lor (Z.lor (pAny p) (default 0 (pExact p !! resource))) (match_ (pPrefixes p) resource).

(** The loop over the policies that are evaluated: [None] is a denial. *)
Fixpoint evaluate_dynamic (l : list Policy) (actor : Actor) (action resource : str) (meta : gmap string V) (effects : Z) : option Z :=
  match l with
  | [] => Some effects
  | p :: l =>
      match Evaluate p actor action resource meta with
      | Deny => None
      | Allow => evaluate_dynamic l actor action resource meta (Z.lor effects allowBit)
      | Undefined => evaluate_dynamic l actor action resource meta effects
      end
  end.

Definition evaluate_plan (p : actionPlan) (actor : Actor) (action resource : str) (meta : gmap string V) : Result :=
  let effects := matchResource p resource in
  if bool_decide (Z.land effects denyBit ≠ 0) then Deny else
  match evaluate_dynamic (dynamic p) actor action resource meta effects with
  | None => Deny
  | Some effects => if bool_decide (Z.land effects allowBit ≠ 0) then Allow else Undefined
  end.

Definition evaluate (s : segment) (actor : Actor) (action resource : str) (meta : gmap string V) : segment * Result :=
  let '(s, p) := plan s action in
  (s, match p with Some p => evaluate_plan p actor action resource meta | None => Undefined end).

(** ** The reference: every policy is asked, and a denial comes before a permission *)

Definition combine (l : list Result) : Result :=
  if bool_decide (Deny ∈ l) then Deny else if bool_decide (Allow ∈ l) then Allow else Undefined.

Definition ask_all (l : list Policy) (actor : Actor) (action resource : str) (meta : gmap string V) : Result :=
  combine ((λ p, Evaluate p actor action resource meta) <$> l).

(** ** The tree of the patterns *)


(** The tree holds the patterns [adds], each with the number of its policy. *)
Record tree_inv (r : radix (option nat)) (cls : list patternClass) (adds : list (str * nat)) : Prop := {
  ti_wf : wf r;
  ti_class p c : at_ None r p = Some c → ∃ cl, cls !! c = Some cl ∧ slot cl = None ∧ ∀ i, i ∈ candidates cl ↔ (p, i) ∈ adds;
  ti_inj p q c : at_ None r p = Some c → at_ None r q = Some c → p = q;
  ti_added p i : (p, i) ∈ adds → is_Some (at_ None r p)
}.

Lemma tree_inv_fresh r cls adds p c : tree_inv r cls adds → at_ None r p = Some c → (c < length cls)%nat.
Proof. intros Ht Hp. destruct (ti_class _ _ _ Ht _ _ Hp) as (cl & Hc & _). by eapply lookup_lt_Some. Qed.

Lemma addPattern_inv p i t adds : tree_inv t.1 t.2 adds → tree_inv (addPattern p i t).1 (addPattern p i t).2 (adds ++ [(p, i)]).
Proof.
  intros Ht. destruct t as [r cls]. unfold addPattern. cbn [fst snd] in *.
  match goal with |- tree_inv (alter_node _ ?f _ _ _).1 _ _ => destruct (alter_node_spec None f p r cls (ti_wf _ _ _ Ht)) as (Hw & Hs & Hat) end.
  rewrite Hs. clear Hs. assert (∀ q j, (q, j) ∈ adds ++ [(p, i)] ↔ (q, j) ∈ adds ∨ q = p ∧ j = i) as Hadds.
  { intros q j. rewrite elem_of_app, list_elem_of_singleton. naive_solver. }
  destruct (at_ None r p) as [c|] eqn:Ep; cbn [fst snd] in *.
  - split; [done|intros q d; rewrite Hat|intros q q' d; rewrite !Hat|intros q j; rewrite Hadds, Hat].
    + destruct (bool_decide_reflect (q = p)) as [->|Hne].
      * intros [= <-]. destruct (ti_class _ _ _ Ht _ _ Ep) as (cl & Hc & Hsl & Hcd). exists (addCandidate i cl).
        rewrite list_lookup_alter_eq, Hc. split_and!; [done|done|]. intros j. cbn. rewrite elem_of_app, list_elem_of_singleton, Hcd, Hadds. naive_solver.
      * intros Hq. destruct (ti_class _ _ _ Ht _ _ Hq) as (cl & Hc & Hsl & Hcd). exists cl. rewrite list_lookup_alter_ne by (intros ->; by apply Hne, (ti_inj _ _ _ Ht _ _ d)).
        split_and!; [done|done|]. intros j. rewrite Hcd, Hadds. naive_solver.
    + repeat case_bool_decide; subst; intros H1 H2; try done; [injection H1 as <-; by apply (ti_inj _ _ _ Ht _ _ c)|injection H2 as <-; by apply (ti_inj _ _ _ Ht _ _ c)|by apply (ti_inj _ _ _ Ht _ _ d)].
    + case_bool_decide; [by eexists|]. intros [Hq|[-> _]]; [by eapply ti_added|done].
  - assert (∀ j, (p, j) ∉ adds) as Hnew. { intros j Hj. destruct (ti_added _ _ _ Ht _ _ Hj) as [? Hx]. congruence. }
    split; [done|intros q d; rewrite Hat|intros q q' d; rewrite !Hat|intros q j; rewrite Hadds, Hat].
    + case_bool_decide; subst.
      * intros [= <-]. eexists. rewrite lookup_app_r, Nat.sub_diag by done. split_and!; [done|done|]. intros j. cbn. rewrite list_elem_of_singleton, Hadds.
        specialize (Hnew j). naive_solver.
      * intros Hq. destruct (ti_class _ _ _ Ht _ _ Hq) as (cl & Hc & Hsl & Hcd). exists cl. rewrite lookup_app_l by (by eapply lookup_lt_Some).
        split_and!; [done|done|]. intros j. rewrite Hcd, Hadds. naive_solver.
    + repeat case_bool_decide; subst; intros H1 H2; try done; [injection H1 as <-; apply (tree_inv_fresh _ _ _ _ _ Ht) in H2; lia
        |injection H2 as <-; apply (tree_inv_fresh _ _ _ _ _ Ht) in H1; lia|by apply (ti_inj _ _ _ Ht _ _ d)].
    + case_bool_decide; [by eexists|]. intros [Hq|[-> _]]; [by eapply ti_added|done].
Qed.

(** The patterns of a policy, and the actions it names *)
Definition pats (e : policyEntry) : list str :=
  match descriptor e with Some d => let '(any, _, prefixes) := ActionFilter d in (if any then [[]] else []) ++ prefixes | None => [] end.

Definition names (e : policyEntry) : list str :=
  match descriptor e with Some d => let '(_, exact, _) := ActionFilter d in exact | None => [] end.

Definition added (ies : list (nat * policyEntry)) : list (str * nat) := ies ≫= λ ie, (λ p, (p, ie.1)) <$> pats ie.2.

Lemma addPatterns_inv ps i t adds :
  tree_inv t.1 t.2 adds →
  let t' := foldl (λ t p, addPattern p i t) t ps in tree_inv t'.1 t'.2 (adds ++ ((λ p, (p, i)) <$> ps)).
Proof.
  revert t adds. induction ps as [|p ps IH]; intros t adds Ht; cbn; [by rewrite app_nil_r|].
  change ((p, i) :: ?k) with ([(p, i)] ++ k). rewrite app_assoc. by apply IH, addPattern_inv.
Qed.

Lemma name_actions m ex : (∀ n, is_Some (foldl name_action m ex !! n) ↔ is_Some (m !! n) ∨ n ∈ ex) ∧
  ((∀ n v, m !! n = Some v → v = None) → ∀ n v, foldl name_action m ex !! n = Some v → v = None).
Proof.
  revert m. induction ex as [|x ex IH]; intros m; cbn.
  { split; [|by auto]. intros n. rewrite elem_of_nil. naive_solver. }
  destruct (IH (name_action m x)) as [H1 H2]. unfold name_action in *. destruct (m !! x) eqn:Ex.
  - split; [|done]. intros n. rewrite H1, elem_of_cons. split; [naive_solver|]. intros [?|[->|?]]; eauto.
  - split.
    + intros n. rewrite H1, lookup_insert_is_Some, elem_of_cons. destruct (decide (x = n)); naive_solver.
    + intros Hm n v. apply H2. intros n' v' [[<- <-]|[_ Hn]]%lookup_insert_Some; [done|by eapply Hm].
Qed.

(** What an index has before any plan was made, with or without links *)
Record fresh_index (l : list (nat * policyEntry)) (index : actionPlans) : Prop := {
  fi_tree : tree_inv (patterns index) (classes index) (added l);
  fi_opaque : pOpaque index = omap (λ ie, if descriptor ie.2 then None else Some (policy ie.2)) l;
  fi_named n : is_Some (byAction index !! n) ↔ ∃ ie, ie ∈ l ∧ n ∈ names ie.2;
  fi_noplan n v : byAction index !! n = Some v → v = None;
  fi_known : byCandidates index = ∅
}.

Lemma index_entry_inv done_ ie index : fresh_index done_ index → fresh_index (done_ ++ [ie]) (index_entry index ie).
Proof.
  intros [H1 H2 H3 H4 H5]. destruct ie as [i e]. unfold index_entry.
  assert (added (done_ ++ [(i, e)]) = added done_ ++ ((λ p, (p, i)) <$> pats e)) as Hadd.
  { unfold added. rewrite bind_app. cbn. by rewrite app_nil_r. }
  assert (∀ n, (∃ ie, ie ∈ done_ ++ [(i, e)] ∧ n ∈ names ie.2) ↔ (∃ ie, ie ∈ done_ ∧ n ∈ names ie.2) ∨ n ∈ names e) as Hnam.
  { intros n. setoid_rewrite elem_of_app. setoid_rewrite list_elem_of_singleton. naive_solver. }
  unfold pats in Hadd. unfold names in Hnam at 3. destruct (descriptor e) as [d|] eqn:Ed.
  - destruct (ActionFilter d) as [[any ex] pre] eqn:Ea. set (t := if any then addPattern [] i (patterns index, classes index) else (patterns index, classes index)).
    assert (tree_inv t.1 t.2 (added done_ ++ ((λ p, (p, i)) <$> (if any then [[]] else [])))) as Ht.
    { subst t. destruct any; [by apply (addPattern_inv [] i (patterns index, classes index))|cbn; by rewrite app_nil_r]. }
    pose proof (addPatterns_inv pre i t _ Ht) as Hf. cbn zeta in Hf. destruct (foldl _ t pre) as [r cls]. cbn [fst snd] in Hf.
    rewrite <- app_assoc, <- fmap_app, <- Hadd in Hf. destruct (name_actions (byAction index) ex) as [Hn1 Hn2].
    split; cbn [patterns classes byAction byCandidates pOpaque]; [done| | |by apply Hn2|done].
    + rewrite omap_app, <- H2. cbn. rewrite Ed. by rewrite app_nil_r.
    + intros n. rewrite Hn1, H3, Hnam. done.
  - cbn in Hadd. rewrite app_nil_r in Hadd. split; cbn [patterns classes byAction byCandidates pOpaque]; [by rewrite Hadd| | |done|done].
    + rewrite omap_app, <- H2. cbn. by rewrite Ed.
    + intros n. rewrite H3, Hnam, elem_of_nil. naive_solver.
Qed.

Lemma index_entries_inv ies : fresh_index ies (foldl index_entry (mkPlans ∅ ∅ (Node [] None []) [] []) ies).
Proof.
  rewrite <- (reverse_involutive ies). induction (reverse ies) as [|ie k IH].
  - rewrite reverse_nil. cbn. split; cbn.
    + split; [apply wf_leaf|..]; intros p; [|intros q|]; intros c; rewrite ?at_leaf; try (by case_bool_decide). by intros ?%elem_of_nil.
    + done.
    + intros n. rewrite lookup_empty. split; [by intros [? [=]]|]. by intros (? & ?%elem_of_nil & _).
    + intros n v. by rewrite lookup_empty.
    + done.
  - rewrite reverse_cons, foldl_app. by apply index_entry_inv.
Qed.

Lemma root_class_inv ies index : fresh_index ies index → fresh_index ies (root_class index) ∧ (pOpaque index ≠ [] → is_Some (at_ None (patterns (root_class index)) [])).
Proof.
  intros Hf. unfold root_class. case_bool_decide as Hc.
  - destruct Hc as [Ho Hv]. destruct Hf as [H1 H2 H3 H4 H5]. destruct (patterns index) as [p v m] eqn:Ep. cbn in Hv. subst v.
    set (k := length (classes index)). assert (wf (Node p (Some k) m)) as Hw. { pose proof (ti_wf _ _ _ H1) as Hw. inversion Hw; subst. by constructor. }
    assert (∀ q, q ≠ [] → at_ None (Node p (Some k) m) q = at_ None (Node p None m) q) as Hsame.
    { intros [|c q] Hq; [done|]. rewrite !at_cons; [done|apply (ti_wf _ _ _ H1)|done]. }
    split; [|intros _; by eexists]. split; cbn [patterns classes byAction byCandidates pOpaque]; try done. split; [done|..].
    + intros q c Hq. destruct (decide (q = [])) as [->|Hne].
      * injection Hq as <-. eexists. subst k. rewrite lookup_app_r, Nat.sub_diag by done. split_and!; [done|done|]. intros i. cbn. split; [by intros ?%elem_of_nil|].
        intros Hin. destruct (ti_added _ _ _ H1 _ _ Hin) as [? [=]].
      * rewrite Hsame in Hq by done. destruct (ti_class _ _ _ H1 _ _ Hq) as (cl & Hc & Hr). exists cl. split; [|done]. rewrite lookup_app_l; [done|by eapply lookup_lt_Some].
    + intros q q' c Hq Hq'. destruct (decide (q = [])) as [->|Hne], (decide (q' = [])) as [->|Hne']; [done|..].
      * injection Hq as <-. rewrite Hsame in Hq' by done. apply (tree_inv_fresh _ _ _ _ _ H1) in Hq'. lia.
      * injection Hq' as <-. rewrite Hsame in Hq by done. apply (tree_inv_fresh _ _ _ _ _ H1) in Hq. lia.
      * rewrite Hsame in Hq, Hq' by done. by apply (ti_inj _ _ _ H1 _ _ c).
    + intros q i Hin. destruct (decide (q = [])) as [->|Hne]; [by eexists|]. rewrite Hsame by done. by eapply ti_added.
  - split; [done|]. intros Ho. rewrite at_nil. destruct (value (patterns index)) eqn:Ev; [by eexists|]. exfalso. by apply Hc.
Qed.

(** ** Links between the classes *)

Definition strict (p : str) : list str := (λ n, take n p) <$> seq 0 (length p).

Lemma prefixes_strict p : prefixes_of p = strict p ++ [p].
Proof. unfold prefixes_of, strict. rewrite seq_S, fmap_app. cbn. by rewrite firstn_all. Qed.

Lemma strict_app p q : strict (p ++ q) = strict p ++ (app p <$> strict q).
Proof.
  unfold strict. rewrite length_app, seq_app, fmap_app. f_equal.
  - apply list_fmap_ext. intros i n [-> Hi]%lookup_seq. cbn. by rewrite take_app_le by lia.
  - cbn [plus]. rewrite <- (Nat.add_0_r (length p)) at 1. rewrite <- fmap_add_seq, <- !list_fmap_compose. apply list_fmap_ext. intros i n _. cbn. by rewrite take_app_add.
Qed.

(** The class of the longest pattern that is shorter *)
Definition above (root : radix (option nat)) (p : str) : option nat := last (omap (at_ None root) (strict p)).

(** The nodes of a tree by their way, with the class above them *)
Inductive reach (root : radix (option nat)) : str → option nat → radix (option nat) → Prop :=
| reach_root : reach root [] None root
| reach_child w p r c ch :
    reach root w p r → child (children r) c = Some ch → reach root (w ++ prefix ch) (match value r with Some k => Some k | None => p end) ch.

Lemma last_app_cases {A} (a b : list A) : last (a ++ b) = match last b with Some x => Some x | None => last a end.
Proof. apply last_app. Qed.

Lemma strict_label (r : radix (option nat)) c ch :
  wf r → child (children r) c = Some ch → omap (at_ None r) (strict (prefix ch)) = match value r with Some k => [k] | None => [] end.
Proof.
  intros Hw Hc. destruct (wf_child _ _ _ Hw Hc) as [[lb Hl] _]. unfold strict. rewrite Hl. cbn [length seq fmap list_fmap take omap list_omap]. rewrite at_nil.
  assert (omap (at_ None r) ((λ n, take n (c :: lb)) <$> seq 1 (length lb)) = []) as ->; [|by destruct (value r)].
  assert (∀ ns, Forall (λ n, 1 ≤ n ≤ length lb)%nat ns → omap (at_ None r) ((λ n, take n (c :: lb)) <$> ns) = []) as Hz.
  { induction 1 as [|n ns Hn _ IH]; [done|]. cbn [fmap list_fmap omap list_omap]. destruct n as [|n]; [lia|]. cbn [take]. rewrite at_cons, Hc by done.
    rewrite below_no; [exact IH|]. apply HasPrefix_false. rewrite Hl. intros [t Ht]. apply (f_equal length) in Ht. cbn in Ht. rewrite length_app, length_take in Ht. lia. }
  apply Hz, Forall_forall. intros n Hn%elem_of_seq. lia.
Qed.

Lemma reach_spec root w p r : wf root → reach root w p r → wf r ∧ (∀ q, at_ None root (w ++ q) = at_ None r q) ∧ p = above root w.
Proof.
  intros Hw. induction 1 as [|w p r c ch Hr (IH1 & IH2 & IH3) Hc]; [done|]. destruct (wf_child _ _ _ IH1 Hc) as [[lb Hl] Hch].
  split_and!; [done| |].
  - intros q. rewrite <- app_assoc, IH2, Hl. cbn [app]. rewrite at_cons, Hc by done. change (c :: lb ++ q) with ((c :: lb) ++ q). rewrite <- Hl. apply below_app.
  - unfold above. rewrite strict_app, omap_app, last_app_cases. assert (omap (at_ None root) (app w <$> strict (prefix ch)) = omap (at_ None r) (strict (prefix ch))) as ->.
    { generalize (strict (prefix ch)). intros s. induction s as [|q s IHs]; [done|]. cbn [fmap list_fmap omap list_omap]. rewrite IH2. by destruct (at_ None r q); rewrite IHs. }
    rewrite (strict_label r c ch) by done. destruct (value r); [done|]. cbn. by rewrite IH3.
Qed.

(** Classes of the same policies, whose plans and links may differ *)
Definition same_class (a b : patternClass) : Prop := slot a = slot b ∧ candidates a = candidates b.

#[local] Instance same_class_equiv : Equivalence same_class.
Proof. split; [by intros a|intros a b []; split; congruence|intros a b c [] []; split; congruence]. Qed.

Lemma same_alter_parent cls c p : Forall2 same_class cls (alter (setParent p) c cls).
Proof. revert c. induction cls as [|x cls IH]; intros [|c]; cbn; constructor; done. Qed.

Hypothesis shuffle_perm : ∀ A (k : list A), shuffle A k ≡ₚ k.

Definition weight (pending : list (radix (option nat) * option nat)) : nat := sum_list_with (λ rp, nodes rp.1) pending.

Lemma weight_children p v m q : (weight (reverse ((λ kv, (kv.2, q)) <$> shuffle _ m)) + 1 = nodes (Node p v m))%nat.
Proof.
  unfold weight. rewrite sum_list_with_reverse. assert (∀ k : list (ascii * radix (option nat)),
    sum_list_with (λ rp : radix (option nat) * option nat, nodes rp.1) ((λ kv, (kv.2, q)) <$> k) = sum_list_with (λ kv, nodes kv.2) k) as Hk.
  { induction k as [|kv k IH]; [done|]. cbn. f_equal. exact IH. }
  rewrite Hk, shuffle_perm. cbn. assert (∀ k : list (ascii * radix (option nat)), sum_list_with (λ kv, nodes kv.2) k = list_sum (map (λ kv, nodes kv.2) k)) as Hs.
  { induction k as [|kv k IH]; [done|]. cbn. by rewrite IH. }
  rewrite Hs. lia.
Qed.

Record linking (root : radix (option nat)) (pending : list (radix (option nat) * option nat)) (cls : list patternClass) : Prop := {
  li_pending r p : (r, p) ∈ pending → ∃ w, reach root w p r;
  li_range w c : at_ None root w = Some c → (c < length cls)%nat;
  li_done w c : at_ None root w = Some c →
    (∃ cl, cls !! c = Some cl ∧ parent cl = above root w) ∨ ∃ r p u q, (r, p) ∈ pending ∧ reach root u p r ∧ w = u ++ q
}.

(** A string that has a value below a node is at the node, or below one of its children. *)
Lemma below_child (r : radix (option nat)) q c : wf r → at_ None r q = Some c → q = [] ∧ value r = Some c ∨ ∃ d ch t, child (children r) d = Some ch ∧ q = prefix ch ++ t.
Proof.
  intros Hw Hq. destruct q as [|d q]; [by left|]. right. rewrite at_cons in Hq by done. destruct (child (children r) d) as [ch|] eqn:Ec; [|done].
  exists d, ch. destruct (HasPrefix_case (d :: q) (prefix ch)) as [[t Ht]|Hno]; [by exists t|]. by rewrite below_no in Hq.
Qed.

Lemma linking_step root r p pending cls :
  wf root → (∀ w w' c, at_ None root w = Some c → at_ None root w' = Some c → w = w') → linking root ((r, p) :: pending) cls →
  let up := match value r with Some k => Some k | None => p end in
  linking root (reverse ((λ kv, (kv.2, up)) <$> shuffle _ (children r)) ++ pending) (match value r with Some c => alter (setParent p) c cls | None => cls end).
Proof.
  intros Hw Hinj [H1 H2 H3] up. destruct (H1 r p ltac:(by left)) as [u Hu]. destruct (reach_spec _ _ _ _ Hw Hu) as (Hwr & Hat & Hp).
  assert (∀ ch x, (ch, x) ∈ reverse ((λ kv, (kv.2, up)) <$> shuffle _ (children r)) ↔ x = up ∧ ∃ d, child (children r) d = Some ch) as Hkids.
  { intros ch x. rewrite elem_of_reverse, list_elem_of_fmap. setoid_rewrite (shuffle_perm _ (children r)). split.
    - intros ([d ch'] & [= -> ->] & Hin). split; [done|]. exists d. by apply child_elem; [apply wf_keys|].
    - intros [-> [d Hd]]. exists (d, ch). split; [done|]. by apply child_in. }
  assert (∀ c cl, cls !! c = Some cl → (value r = Some c ∨ value r ≠ Some c ∧ match value r with Some c => alter (setParent p) c cls | None => cls end !! c = Some cl)) as Hlook.
  { intros c cl Hc. destruct (value r) as [k|]; [|by right]. destruct (decide (k = c)) as [->|Hne]; [by left|]. right. split; [congruence|]. by rewrite list_lookup_alter_ne. }
  split.
  - intros ch x. rewrite elem_of_app, Hkids. intros [[-> [d Hd]]|Hin]; [|apply H1; by right]. eexists. by eapply reach_child.
  - intros w c Hc. specialize (H2 w c Hc). destruct (value r); [by rewrite length_alter|done].
  - intros w c Hc. destruct (H3 w c Hc) as [(cl & Hcl & Hpar)|(r' & p' & u' & q & Hin & Hr' & ->)].
    + destruct (Hlook c cl Hcl) as [Hv|[_ Hv]]; [|left; by exists cl]. left. rewrite Hv, list_lookup_alter_eq, Hcl. eexists. split; [done|]. cbn.
      assert (w = u) as -> by (apply (Hinj _ _ c); [done|]; rewrite <- (app_nil_r u), Hat, at_nil; done). done.
    + apply elem_of_cons in Hin as [[= -> ->]|Hin]; [|right; exists r', p', u', q; split; [apply elem_of_app; by right|done]].
      destruct (reach_spec _ _ _ _ Hw Hr') as (_ & Hat' & Hp'). rewrite Hat' in Hc. destruct (below_child _ _ _ Hwr Hc) as [[-> Hv]|(d & ch & t & Hd & ->)].
      * left. rewrite Hv, list_lookup_alter_eq. assert (c < length cls)%nat as Hlt by (apply (H2 (u' ++ [])); by rewrite Hat'). apply lookup_lt_is_Some_2 in Hlt as [cl ->].
        eexists. split; [done|]. cbn. by rewrite app_nil_r.
      * right. exists ch, up, (u' ++ prefix ch), t. split_and!; [apply elem_of_app; left; apply Hkids; eauto|by eapply reach_child|by rewrite app_assoc].
Qed.

Lemma link_loop_spec root fuel pending cls :
  wf root → (∀ w w' c, at_ None root w = Some c → at_ None root w' = Some c → w = w') → linking root pending cls → (weight pending < fuel)%nat →
  linking root [] (link_loop fuel pending cls) ∧ Forall2 same_class cls (link_loop fuel pending cls).
Proof.
  intros Hw Hinj. revert pending cls. induction fuel as [|fuel IH]; intros pending cls Hl Hf; [lia|]. destruct pending as [|[r p] pending]; cbn [link_loop].
  - done.
  - pose proof (linking_step _ _ _ _ _ Hw Hinj Hl) as Hs. cbn zeta in Hs. destruct r as [lb v m]. cbn [value children] in *.
    unfold weight in Hf. cbn [sum_list_with] in Hf. fold (weight pending) in Hf. cbn [fst] in Hf.
    assert (∀ q, (weight (reverse ((λ kv, (kv.2, q)) <$> shuffle _ m) ++ pending) < fuel)%nat) as Hfuel.
    { intros q. unfold weight. rewrite sum_list_with_app. fold (weight pending). pose proof (weight_children lb v m q) as Hwt. unfold weight in Hwt at 1. lia. }
    destruct v as [c|].
    + destruct (IH _ _ Hs (Hfuel _)) as [Ha Hb]. split; [done|]. pose proof (same_alter_parent cls c p) as Hsp.
      by etrans.
    + by apply IH.
Qed.

(** ** The index *)

Record built_index (l : list policyEntry) (index : actionPlans) : Prop := {
  bi_fresh : fresh_index (imap pair l) index;
  bi_link w c : at_ None (patterns index) w = Some c → ∃ cl, classes index !! c = Some cl ∧ parent cl = above (patterns index) w;
  bi_root : pOpaque index ≠ [] → is_Some (at_ None (patterns index) [])
}.

Lemma tree_inv_same r cls cls' adds : Forall2 same_class cls cls' → tree_inv r cls adds → tree_inv r cls' adds.
Proof.
  intros Hs [H1 H2 H3 H4]. split; try done. intros p c Hp. destruct (H2 p c Hp) as (cl & Hc & Hsl & Hcd).
  destruct (Forall2_lookup_l _ _ _ _ _ Hs Hc) as (cl' & Hc' & [He1 He2]). exists cl'. by rewrite <- He1, <- He2.
Qed.

Lemma new_index_ok l : built_index l (new_index l).
Proof.
  destruct (root_class_inv _ _ (index_entries_inv (imap pair l))) as [Hf Hr]. unfold new_index.
  assert (pOpaque (root_class (foldl index_entry (mkPlans ∅ ∅ (Node [] None []) [] []) (imap pair l))) =
          pOpaque (foldl index_entry (mkPlans ∅ ∅ (Node [] None []) [] []) (imap pair l))) as Ho.
  { unfold root_class. destruct (bool_decide _); [|done]. destruct (patterns (foldl _ _ _)) as [? ? ?]. done. }
  rewrite <- Ho in Hr. clear Ho. revert Hf Hr. generalize (root_class (foldl index_entry (mkPlans ∅ ∅ (Node [] None []) [] []) (imap pair l))).
  intros index [H1 H2 H3 H4 H5] Hr. unfold linkPatterns.
  destruct (link_loop_spec (patterns index) (S (nodes (patterns index))) [(patterns index, None)] (classes index)) as [Hl Hs].
  - apply (ti_wf _ _ _ H1).
  - intros w w' c. apply (ti_inj _ _ _ H1).
  - split.
    + intros r p Hin%list_elem_of_singleton. injection Hin as -> ->. exists []. constructor.
    + intros w c. by apply (tree_inv_fresh _ _ _ _ _ H1).
    + intros w c _. right. eexists _, _, [], w. split_and!; [by left|constructor|done].
  - unfold weight. cbn. lia.
  - split; cbn [patterns classes byAction byCandidates pOpaque]; [split; try done; by eapply tree_inv_same| |done].
    intros w c Hw. destruct (li_done _ _ _ Hl w c Hw) as [?|(? & ? & ? & ? & ?%elem_of_nil & _)]; done.
Qed.

(** *** The classes on the way of an action *)

Definition way (r : radix (option nat)) (a : str) : list nat := omap (at_ None r) (prefixes_of a).

Lemma omap_split {A B} (f : A → option B) xs l1 c l2 :
  omap f xs = l1 ++ c :: l2 → ∃ xs1 x xs2, xs = xs1 ++ x :: xs2 ∧ f x = Some c ∧ omap f xs1 = l1.
Proof.
  revert l1. induction xs as [|x xs IH]; intros l1; [by destruct l1|]. cbn. destruct (f x) as [b|] eqn:Ef.
  - destruct l1 as [|b' l1]; cbn; intros [= -> He]; [by exists [], x, xs|]. destruct (IH _ He) as (xs1 & y & xs2 & -> & Hy & <-).
    exists (x :: xs1), y, xs2. cbn. by rewrite Ef.
  - intros He. destruct (IH _ He) as (xs1 & y & xs2 & -> & Hy & <-). exists (x :: xs1), y, xs2. cbn. by rewrite Ef.
Qed.

Lemma NoDup_omap_inj {A B} (f : A → option B) xs : (∀ x y c, f x = Some c → f y = Some c → x = y) → NoDup xs → NoDup (omap f xs).
Proof.
  intros Hf. induction 1 as [|x xs Hx _ IH]; cbn; [apply NoDup_nil_2|]. destruct (f x) as [b|] eqn:Eb; [|done]. apply NoDup_cons. split; [|done].
  rewrite list_elem_of_omap. intros (y & Hy & Hb). apply Hx. by rewrite (Hf x y b).
Qed.

Lemma way_split r a l1 c l2 : way r a = l1 ++ c :: l2 → ∃ w t, a = w ++ t ∧ at_ None r w = Some c ∧ l1 = omap (at_ None r) (strict w).
Proof.
  intros (xs1 & x & xs2 & Hxs & Hx & <-)%omap_split. unfold prefixes_of in Hxs. pose proof (length_seq (S (length a)) 0) as Hlen.
  assert (length xs1 ≤ length a)%nat as Hle. { apply (f_equal length) in Hxs. rewrite length_fmap, length_seq, length_app in Hxs. cbn in Hxs. lia. }
  assert (take (length xs1) a = x) as Hw.
  { assert ((xs1 ++ x :: xs2) !! length xs1 = Some x) as He by (by rewrite lookup_app_r, Nat.sub_diag by done). rewrite <- Hxs, list_lookup_fmap in He.
    rewrite lookup_seq_lt in He by lia. by injection He. }
  exists x, (drop (length xs1) a). split_and!; [by rewrite <- Hw, take_drop|done|]. f_equal. rewrite <- Hw. unfold strict. rewrite length_take_le by done.
  assert (xs1 = take (length xs1) (xs1 ++ x :: xs2)) as He by (by rewrite take_app_length). rewrite He at 1. rewrite <- Hxs, <- fmap_take.
  replace (S (length a)) with (length xs1 + (S (length a) - length xs1))%nat by lia. rewrite seq_app, take_app_length' by (by rewrite length_seq).
  apply list_fmap_ext. intros i n [-> Hi]%lookup_seq. cbn. rewrite take_take. f_equal. lia.
Qed.

Lemma way_in r a c : c ∈ way r a ↔ ∃ w t, a = w ++ t ∧ at_ None r w = Some c.
Proof. unfold way. rewrite list_elem_of_omap. setoid_rewrite prefixes_in. naive_solver. Qed.

Lemma NoDup_prefixes a : NoDup (prefixes_of a).
Proof.
  unfold prefixes_of. apply NoDup_fmap_2_strong; [|apply NoDup_seq]. intros n m Hn%elem_of_seq Hm%elem_of_seq He.
  apply (f_equal length) in He. rewrite !length_take in He. lia.
Qed.

Lemma way_length l index a : built_index l index → (length (way (patterns index) a) ≤ length (classes index))%nat.
Proof.
  intros [[H1 _ _ _ _] _ _]. assert (way (patterns index) a ⊆+ seq 0 (length (classes index))) as Hs.
  { apply NoDup_submseteq; [apply NoDup_omap_inj; [intros x y c; apply (ti_inj _ _ _ H1)|apply NoDup_prefixes]|].
    intros c (w & t & _ & Hw)%way_in. apply elem_of_seq. apply (tree_inv_fresh _ _ _ _ _ H1) in Hw. lia. }
  apply submseteq_length in Hs. by rewrite length_seq in Hs.
Qed.

Lemma matchPattern_way r a : wf r → matchPattern r a = last (way r a).
Proof.
  intros Hw. unfold matchPattern. assert (∀ ws init, foldl (λ res v : option nat, match v with Some _ => v | None => res end) init ws =
    match last (omap id ws) with Some c => Some c | None => init end) as Hf.
  { induction ws as [|v ws IH]; intros init; [done|]. cbn [foldl]. rewrite IH. cbn. destruct v as [v|]; cbn; [|done]. rewrite last_cons. by destruct (last _). }
  rewrite Hf. assert (∀ ws : list (option nat), omap id (nonzero None ws) = omap id ws) as Hn.
  { induction ws as [|v ws IH]; [done|]. unfold nonzero in *. rewrite filter_cons. destruct v as [v|]; [rewrite decide_True by done; cbn; by rewrite IH|rewrite decide_False by tauto; exact IH]. }
  rewrite <- Hn, (walk_spec None), Hn by done. unfold way. assert (omap id (at_ None r <$> prefixes_of a) = omap (at_ None r) (prefixes_of a)) as ->; [|by destruct (last _)].
  generalize (prefixes_of a). intros ps. induction ps as [|p ps IH]; [done|]. cbn. by rewrite IH.
Qed.

(** *** The policies marked for a class *)

Lemma mark_list seen (cands : list nat) i :
  length (foldl (λ s i, <[i := true]> s) seen cands) = length seen ∧
  (foldl (λ s i, <[i := true]> s) seen cands !! i = Some true ↔ (i < length seen)%nat ∧ (seen !! i = Some true ∨ i ∈ cands)).
Proof.
  revert seen. induction cands as [|c cands IH]; intros seen; cbn [foldl].
  { split; [done|]. rewrite elem_of_nil. split; [|tauto]. intros Hs. split; [by eapply lookup_lt_Some|tauto]. }
  destruct (IH (<[c := true]> seen)) as [H1 H2]. rewrite length_insert in *. split; [done|]. rewrite H2, elem_of_cons.
  destruct (decide (c = i)) as [->|Hne].
  - split; [tauto|]. intros [Hi _]. split; [done|]. left. by apply list_lookup_insert_eq.
  - rewrite list_lookup_insert_ne by done. split; intros [? [?|?]]; (split; [done|]); try tauto. destruct H0 as [->|?]; tauto.
Qed.

Lemma mark_spec cls fuel vs seen i :
  (∀ l1 c l2, vs = l1 ++ c :: l2 → ∃ cl, cls !! c = Some cl ∧ parent cl = last l1) → (length vs ≤ fuel)%nat →
  mark fuel cls (last vs) seen !! i = Some true ↔
  (i < length seen)%nat ∧ (seen !! i = Some true ∨ ∃ c cl, c ∈ vs ∧ cls !! c = Some cl ∧ i ∈ candidates cl).
Proof.
  revert fuel seen. induction vs as [|c vs IH] using rev_ind; intros fuel seen Hlink Hf.
  - assert (mark fuel cls (last []) seen = seen) as -> by (by destruct fuel). split.
    + intros Hs. split; [by eapply lookup_lt_Some|by left].
    + intros [_ [Hs|(c & cl & Hc%elem_of_nil & _)]]; done.
  - rewrite length_app in Hf. cbn in Hf. destruct fuel as [|fuel]; [lia|]. rewrite last_snoc. cbn [mark mbind option_bind].
    destruct (Hlink vs c [] eq_refl) as (cl & Hc & Hp). rewrite Hc, Hp. destruct (mark_list seen (candidates cl) i) as [Hlen Hin].
    rewrite IH; [|intros l1 d l2 ->; apply (Hlink l1 d (l2 ++ [c])); by rewrite <- app_assoc|lia]. rewrite Hlen, Hin.
    setoid_rewrite elem_of_app. setoid_rewrite list_elem_of_singleton. split; [naive_solver|]. intros [Hi [Hs|(d & cl' & [Hd| ->] & Hcl & Hm)]]; [tauto| |].
    + split; [done|]. right. eauto.
    + replace cl with cl' in * by congruence. tauto.
Qed.

(** Classes with the same policies and links; their plans may differ *)
Definition same_shape (a b : patternClass) : Prop := parent a = parent b ∧ candidates a = candidates b.

Lemma mark_shape cls cls' fuel c seen : Forall2 same_shape cls cls' → mark fuel cls c seen = mark fuel cls' c seen.
Proof.
  intros Hs. revert c seen. induction fuel as [|fuel IH]; intros c seen; [done|]. cbn [mark]. destruct c as [c|]; [|done]. cbn [mbind option_bind].
  destruct (cls !! c) as [cl|] eqn:Ec.
  - destruct (Forall2_lookup_l _ _ _ _ _ Hs Ec) as (cl' & -> & [<- <-]). apply IH.
  - destruct (cls' !! c) as [cl'|] eqn:Ec'; [|done]. destruct (Forall2_lookup_r _ _ _ _ _ Hs Ec') as (cl & He & _). congruence.
Qed.

Definition applies (e : policyEntry) (a : str) : bool := from_option (λ d, AppliesToAction d a) false (descriptor e).

Definition entry_ok (e : policyEntry) : Prop := match descriptor e with Some d => DescribedBy (policy e) d | None => True end.

Lemma applies_spec e a : entry_ok e → applies e a = true ↔ a ∈ names e ∨ ∃ w t, w ∈ pats e ∧ a = w ++ t.
Proof.
  unfold entry_ok, applies, names, pats. destruct (descriptor e) as [d|]; cbn.
  - intros Hd. rewrite applies_filter. unfold in_filter. destruct (ActionFilter d) as [[any ex] pre]. rewrite !orb_true_iff, bool_decide_eq_true, existsb_exists.
    setoid_rewrite <- list_elem_of_In. setoid_rewrite elem_of_app. split.
    + intros [[->|Hin]|Hp]; [right; exists [], a; split; [left; by left|done]|by left|]. right. destruct Hp as (w & Hw & [t ->]%HasPrefix_spec). eauto.
    + intros [Hin|(w & t & [Hw|Hw] & ->)]; [tauto| |].
      * destruct any; [|by apply elem_of_nil in Hw]. tauto.
      * right. exists w. split; [done|]. apply HasPrefix_app.
  - intros _. setoid_rewrite elem_of_nil. naive_solver.
Qed.

Lemma added_in l w i : (w, i) ∈ added (imap pair l) ↔ ∃ e, l !! i = Some e ∧ w ∈ pats e.
Proof.
  unfold added. rewrite list_elem_of_bind. setoid_rewrite list_elem_of_fmap. split.
  - intros ([j e] & (w' & [= -> ->] & Hw) & (k & e' & [= -> ->] & He)%elem_of_lookup_imap). eauto.
  - intros (e & He & Hw). exists (i, e). split; [eauto|]. apply elem_of_lookup_imap. eauto.
Qed.

Lemma omap_none {A B} (f : A → option B) (k : list A) : Forall (λ x, f x = None) k → omap f k = [].
Proof. induction 1 as [|x k Hx _ IH]; [done|]. cbn. by rewrite Hx. Qed.

Lemma lookup_alter_cases {A} (f : A → A) (k : list A) i j x :
  alter f i k !! j = Some x → (∃ z, i = j ∧ k !! j = Some z ∧ x = f z) ∨ (i ≠ j ∧ k !! j = Some x).
Proof.
  destruct (decide (i = j)) as [->|Hne]; [|rewrite list_lookup_alter_ne by done; by right].
  rewrite list_lookup_alter_eq. intros (z & Hz & ->)%fmap_Some. left. eauto.
Qed.

(** The class of an action that no policy names marks the policies that apply to it. *)
Lemma chosen_class l index a c i e :
  built_index l index → Forall entry_ok l → byAction index !! a = None → matchPattern (patterns index) a = Some c → l !! i = Some e →
  chosen index l (Some c) a i e = applies e a.
Proof.
  intros Hb Hok Hn Hm Hi. pose proof (bi_fresh _ _ Hb) as [Ht _ Hnam _ _]. rewrite matchPattern_way in Hm by apply (ti_wf _ _ _ Ht).
  unfold chosen. apply eq_true_iff_eq. rewrite <- Hm.
  assert (∀ o : option bool, default false o = true ↔ o = Some true) as Ho by (intros [[]|]; done). rewrite Ho, mark_spec; [| |pose proof (way_length l index a Hb); lia].
  2:{ intros l1 d l2 (w & t & -> & Hw & ->)%way_split. by destruct (bi_link _ _ Hb w d Hw) as (cl & ? & ?); eauto. }
  rewrite applies_spec by (by eapply Forall_lookup_1). assert (a ∉ names e) as Hna.
  { intros Hin. destruct (proj2 (Hnam a)) as [? Hs]; [|congruence]. exists (i, e). split; [apply elem_of_lookup_imap; eauto|done]. }
  rewrite length_replicate. split.
  - intros [_ [Hr|(d & cl & (w & t & -> & Hw)%way_in & Hcl & Hin)]]; [apply lookup_replicate in Hr as [[=] _]|]. right. exists w, t. split; [|done].
    destruct (ti_class _ _ _ Ht w d Hw) as (cl' & Hcl' & _ & Hcd). replace cl' with cl in * by congruence. apply Hcd, added_in in Hin as (e' & He' & Hw'). congruence.
  - intros [?|(w & t & Hw & ->)]; [done|]. split; [by eapply lookup_lt_Some|]. right.
    assert ((w, i) ∈ added (imap pair l)) as Hadd by (apply added_in; eauto). destruct (ti_added _ _ _ Ht _ _ Hadd) as [d Hd].
    destruct (ti_class _ _ _ Ht w d Hd) as (cl & Hcl & _ & Hcd). exists d, cl. split_and!; [apply way_in; eauto|done|by apply Hcd].
Qed.

Lemma no_class l index a i e :
  built_index l index → Forall entry_ok l → byAction index !! a = None → matchPattern (patterns index) a = None → l !! i = Some e → applies e a = false.
Proof.
  intros Hb Hok Hn Hm Hi. pose proof (bi_fresh _ _ Hb) as [Ht _ Hnam _ _]. rewrite matchPattern_way in Hm by apply (ti_wf _ _ _ Ht).
  apply not_true_is_false. rewrite applies_spec by (by eapply Forall_lookup_1). intros [Hin|(w & t & Hw & ->)].
  - destruct (proj2 (Hnam a)) as [? Hs]; [|congruence]. exists (i, e). split; [apply elem_of_lookup_imap; eauto|done].
  - destruct (ti_added _ _ _ Ht w i) as [d Hd]; [apply added_in; eauto|]. assert (d ∈ way (patterns index) (w ++ t)) as Hin by (apply way_in; eauto).
    destruct (way (patterns index) (w ++ t)) as [|x k] using rev_ind; [by apply elem_of_nil in Hin|by rewrite last_snoc in Hm].
Qed.

(** *** What is kept between two evaluations *)

(** The policies that apply to an action *)
Definition applicable (l : list policyEntry) (a : str) : list nat := omap (λ ie, if applies ie.2 a then Some ie.1 else None) (imap pair l).

Definition plan_at (l : list policyEntry) (js : list nat) : actionPlan := compile_plan l (pOpaque (new_index l)) (Varint.encode (Z.of_nat <$> js)).

Record index_inv (l : list policyEntry) (index : actionPlans) : Prop := {
  ii_patterns : patterns index = patterns (new_index l);
  ii_opaque : pOpaque index = pOpaque (new_index l);
  ii_shape : Forall2 same_shape (classes index) (classes (new_index l));
  ii_named a : is_Some (byAction index !! a) ↔ is_Some (byAction (new_index l) !! a);
  ii_action a p : byAction index !! a = Some (Some p) → p = plan_at l (applicable l a);
  ii_class w c cl p : at_ None (patterns (new_index l)) w = Some c → classes index !! c = Some cl → slot cl = Some p → p = plan_at l (chosen_indices (new_index l) l (Some c) []);
  ii_known key p : byCandidates index !! key = Some p → p = compile_plan l (pOpaque (new_index l)) key
}.

Lemma new_index_inv l : index_inv l (new_index l).
Proof.
  pose proof (bi_fresh _ _ (new_index_ok l)) as [Ht _ _ Hnp Hk]. split; try done.
  - apply Forall2_same_length_lookup_2; [done|]. intros i x y -> [= ->]. done.
  - intros a p Hp. by apply Hnp in Hp.
  - intros w c cl p Hw Hc Hs. destruct (ti_class _ _ _ Ht w c Hw) as (cl' & ? & ? & _). congruence.
  - intros key p. by rewrite Hk, lookup_empty.
Qed.

Lemma chosen_shape l index c a b : index_inv l index → chosen_indices index l (Some c) a = chosen_indices (new_index l) l (Some c) b.
Proof.
  intros Hi. unfold chosen_indices. apply list_omap_ext, Forall2_same_length_lookup_2; [done|]. intros i x y -> [= ->]. unfold chosen.
  pose proof (ii_shape _ _ Hi) as Hs. by rewrite (mark_shape _ _ _ _ _ Hs), (Forall2_length _ _ _ Hs).
Qed.

Lemma chosen_action l index a : chosen_indices index l None a = applicable l a.
Proof. done. Qed.

(** For an action that no policy names, the policies of its class are those that apply. *)
Lemma class_applicable l a c :
  Forall entry_ok l → byAction (new_index l) !! a = None → matchPattern (patterns (new_index l)) a = Some c →
  chosen_indices (new_index l) l (Some c) [] = applicable l a.
Proof.
  intros Hok Hn Hm. unfold chosen_indices, applicable. apply list_omap_ext, Forall2_same_length_lookup_2; [done|].
  intros i x y Hx Hy. replace y with x by congruence. clear y Hy. rewrite list_lookup_imap in Hx. destruct (l !! i) as [e|] eqn:Ei; [|done]. injection Hx as <-. cbn [fst snd].
  by rewrite <- (chosen_class l (new_index l) a c i e) by (try done; apply new_index_ok).
Qed.

Lemma make_plan_ok l index class a :
  index_inv l index → match class with Some c => ∃ w, at_ None (patterns (new_index l)) w = Some c | None => is_Some (byAction index !! a) end →
  index_inv l (make_plan index l class a).1 ∧
  (make_plan index l class a).2 = plan_at l (match class with Some c => chosen_indices (new_index l) l class [] | None => applicable l a end).
Proof.
  intros Hi Hclass. unfold make_plan. assert (chosen_indices index l class a = match class with Some c => chosen_indices (new_index l) l class [] | None => applicable l a end) as ->.
  { destruct class as [c|]; [by apply chosen_shape|done]. }
  set (js := match class with Some c => chosen_indices (new_index l) l class [] | None => applicable l a end). rewrite (ii_opaque _ _ Hi). fold (plan_at l js).
  assert (∀ known p, p = plan_at l js → (∀ key q, known !! key = Some q → q = compile_plan l (pOpaque (new_index l)) key) →
    index_inv l (match class with
      | Some c => (mkPlans (byAction index) known (patterns index) (alter (setSlot p) c (classes index)) (pOpaque (new_index l)), p)
      | None => (mkPlans (<[a := Some p]> (byAction index)) known (patterns index) (classes index) (pOpaque (new_index l)), p) end).1 ∧
    (match class with
      | Some c => (mkPlans (byAction index) known (patterns index) (alter (setSlot p) c (classes index)) (pOpaque (new_index l)), p)
      | None => (mkPlans (<[a := Some p]> (byAction index)) known (patterns index) (classes index) (pOpaque (new_index l)), p) end).2 = plan_at l js) as Hgo.
  { intros known p -> Hk. destruct Hi as [H1 H2 H3 H4 H5 H6 H7]. destruct class as [c|]; (split; [|done]); cbn [fst]; split; cbn [patterns pOpaque classes byAction byCandidates]; try done.
    - apply Forall2_same_length_lookup_2; [rewrite length_alter; by eapply Forall2_length|]. intros i x y Hx Hy. apply lookup_alter_cases in Hx.
      destruct Hx as [(z & -> & Hz & ->)|[_ Hx]]; [by destruct (Forall2_lookup_lr _ _ _ _ _ _ H3 Hz Hy)|by apply (Forall2_lookup_lr _ _ _ _ _ _ H3 Hx Hy)].
    - intros w d cl q Hw Hc Hs. apply lookup_alter_cases in Hc. destruct Hc as [(z & -> & Hz & ->)|[Hne Hc]]; [|by eapply H6]. cbn in Hs. by injection Hs as <-.
    - intros b. rewrite lookup_insert_is_Some, H4. destruct (decide (a = b)) as [->|Hne]; [|tauto]. split; [|tauto]. intros _. by apply H4.
    - intros b q. rewrite lookup_insert_Some. intros [[<- [= <-]]|[_ Hb]]; [done|by apply H5]. }
  destruct (byCandidates index !! _) as [p|] eqn:Ek.
  - apply Hgo; [by apply (ii_known _ _ Hi) in Ek|]. apply (ii_known _ _ Hi).
  - apply Hgo; [done|]. intros key q. rewrite lookup_insert_Some. intros [[<- <-]|[_ Hq]]; [done|by eapply ii_known].
Qed.

(** A segment whose index and plans are right *)
Definition segment_inv (s : segment) : Prop := match plans s with None => True | Some index => index_inv (ordered s) index end.

Lemma actionIndex_inv s : segment_inv s → index_inv (ordered s) (actionIndex s).
Proof. unfold segment_inv, actionIndex. destruct (plans s); [done|]. intros _. apply new_index_inv. Qed.

Lemma plan_ok s a :
  segment_inv s → Forall entry_ok (ordered s) →
  let '(s', p) := plan s a in
  segment_inv s' ∧ ordered s' = ordered s ∧ byID s' = byID s ∧
  match p with
  | Some p => p = plan_at (ordered s) (applicable (ordered s) a)
  | None => applicable (ordered s) a = [] ∧ pOpaque (new_index (ordered s)) = []
  end.
Proof.
  intros Hs%actionIndex_inv Hok. unfold plan. set (l := ordered s) in *. revert Hs. generalize (actionIndex s). intros index Hi.
  pose proof (ii_patterns _ _ Hi) as Hpat. pose proof (new_index_ok l) as Hb. destruct (byAction index !! a) as [[p|]|] eqn:Ea.
  - split_and!; [done..|]. by apply (ii_action _ _ Hi).
  - pose proof (make_plan_ok l index None a Hi ltac:(by eexists)) as [H1 H2]. destruct (make_plan _ _ _ _). by split_and!.
  - assert (byAction (new_index l) !! a = None) as Hn. { apply eq_None_not_Some. rewrite <- (ii_named _ _ Hi). by rewrite Ea; intros [? [=]]. }
    rewrite Hpat. destruct (matchPattern (patterns (new_index l)) a) as [c|] eqn:Em.
    + assert (∃ w, at_ None (patterns (new_index l)) w = Some c) as [w Hw].
      { rewrite matchPattern_way in Em by apply (ti_wf _ _ _ (fi_tree _ _ (bi_fresh _ _ Hb))). apply last_Some_elem_of in Em. apply way_in in Em as (w & t & _ & Hw). eauto. }
      destruct (classes index !! c ≫= slot) as [p|] eqn:Es.
      * split_and!; [done..|]. apply bind_Some in Es as (cl & Hc & Hs). rewrite <- (class_applicable l a c) by done. by eapply ii_class.
      * pose proof (make_plan_ok l index (Some c) a Hi ltac:(by eexists)) as [H1 H2]. destruct (make_plan _ _ _ _) as [i' p]. cbn [fst snd] in *. split_and!; [done..|].
        by rewrite H2, (class_applicable l a c).
    + split_and!; [done..| |].
      * unfold applicable. apply omap_none, Forall_forall. intros [i e] (j & e' & [= -> ->] & He)%elem_of_lookup_imap. cbn.
        by rewrite (no_class l (new_index l) a j e').
      * destruct (decide (pOpaque (new_index l) = [])) as [|Hne]; [done|]. destruct (bi_root _ _ Hb Hne) as [d Hd]. exfalso.
        rewrite matchPattern_way in Em by apply (ti_wf _ _ _ (fi_tree _ _ (bi_fresh _ _ Hb))).
        assert (d ∈ way (patterns (new_index l)) a) as Hin by (apply way_in; exists [], a; done). apply last_None in Em. rewrite Em in Hin. by apply elem_of_nil in Hin.
Qed.

(** ** The answer of a plan *)

Definition bit (res : Result) : Z := match res with Deny => 1 | _ => 0 end.

Definition effect_of (res : Result) : Z := match res with Deny => denyBit | _ => allowBit end.

Lemma land_bit x (k : Z) : 0 ≤ k → Z.land x (2 ^ k) ≠ 0 ↔ Z.testbit x k = true.
Proof.
  intros Hk. destruct (Z.testbit x k) eqn:Eb; split; try done.
  - intros _ Hz. apply (f_equal (λ z, Z.testbit z k)) in Hz. by rewrite Z.land_spec, Eb, Z.pow2_bits_true, Z.bits_0 in Hz by done.
  - intros Hne. exfalso. apply Hne, Z.bits_inj'. intros n Hn. rewrite Z.land_spec, Z.bits_0. destruct (decide (k = n)) as [<-|Hd]; [by rewrite Eb|].
    by rewrite Z.pow2_bits_false, andb_false_r.
Qed.

Lemma effect_bit r1 r2 : r1 ≠ Undefined → r2 ≠ Undefined → Z.testbit (effect_of r1) (bit r2) = bool_decide (r1 = r2).
Proof. by destruct r1, r2. Qed.

Lemma exact_fold (ex : list str) (m : gmap str Z) e r b :
  Z.testbit (default 0 (foldl (λ m q, <[q := Z.lor (default 0 (m !! q)) e]> m) m ex !! r)) b = true ↔
  Z.testbit (default 0 (m !! r)) b = true ∨ (r ∈ ex ∧ Z.testbit e b = true).
Proof.
  revert m. induction ex as [|x ex IH]; intros m; cbn [foldl]; [rewrite elem_of_nil; tauto|]. rewrite IH, elem_of_cons. destruct (decide (x = r)) as [->|Hne].
  - rewrite lookup_insert_eq. cbn. rewrite Z.lor_spec, orb_true_iff. tauto.
  - rewrite lookup_insert_ne by done. split; [tauto|]. intros [?|[[->|?] ?]]; tauto.
Qed.

Lemma prefix_fold pre t e r b :
  wf t → wf (foldl (λ t q, insert t q e) t pre) ∧
  (Z.testbit (match_ (foldl (λ t q, insert t q e) t pre) r) b = true ↔
   Z.testbit (match_ t r) b = true ∨ (existsb (HasPrefix r) pre = true ∧ Z.testbit e b = true)).
Proof.
  revert t. induction pre as [|p pre IH]; intros t Hw; cbn [foldl existsb]; [naive_solver|].
  destruct (insert_spec t p e Hw) as [Hw' Hat]. destruct (IH _ Hw') as [H1 H2]. split; [done|]. rewrite H2, orb_true_iff, HasPrefix_spec.
  rewrite !match_bit by done. setoid_rewrite Hat. split.
  - intros [(q & u & -> & Hq)|?]; [|tauto]. case_bool_decide; [subst|eauto]. rewrite Z.lor_spec, orb_true_iff in Hq. destruct Hq; eauto.
  - intros [(q & u & -> & Hq)|[[[u ->]|?] He]]; [left; exists q, u|left; exists p, u|tauto]; (split; [done|]); case_bool_decide; subst; try done.
    + by rewrite Z.lor_spec, Hq.
    + by rewrite Z.lor_spec, He, orb_true_r.
Qed.

(** A policy whose effect on the resource does not depend on the actor *)
Definition static_match (res : Result) (r : str) (e : policyEntry) : Prop :=
  ∃ d, descriptor e = Some d ∧ StaticEffect d = (res, true) ∧ in_filter (ResourceFilter d) r = true.

Definition is_dynamic (e : policyEntry) : bool := match descriptor e with Some d => negb (StaticEffect d).2 | None => false end.

Record plan_spec (op : list Policy) (es : list policyEntry) (p : actionPlan) : Prop := {
  ps_wf : wf (pPrefixes p);
  ps_bits res r : res ≠ Undefined → Z.testbit (matchResource p r) (bit res) = true ↔ ∃ e, e ∈ es ∧ static_match res r e;
  ps_dynamic : dynamic p = op ++ (policy <$> base.filter (λ e, is_dynamic e = true) es)
}.

Lemma addEntry_spec op es p e : descriptor e ≠ None → plan_spec op es p → plan_spec op (es ++ [e]) (addEntry p e).
Proof.
  intros Hd [Hw Hbits Hdyn]. unfold addEntry. assert (∀ res r, (∃ x, x ∈ es ++ [e] ∧ static_match res r x) ↔ (∃ x, x ∈ es ∧ static_match res r x) ∨ static_match res r e) as Hsnoc.
  { intros res r. setoid_rewrite elem_of_app. setoid_rewrite list_elem_of_singleton. naive_solver. }
  assert (policy <$> base.filter (λ e, is_dynamic e = true) (es ++ [e]) =
    (policy <$> base.filter (λ e, is_dynamic e = true) es) ++ (if is_dynamic e then [policy e] else [])) as Hfil.
  { rewrite filter_app, fmap_app. f_equal. unfold base.filter. cbn. by destruct (is_dynamic e). }
  destruct (descriptor e) as [d|] eqn:Ed; [|done]. assert (is_dynamic e = negb (StaticEffect d).2) as Hdy by (unfold is_dynamic; by rewrite Ed).
  rewrite Hdy in Hfil. clear Hdy. destruct (StaticEffect d) as [eff static] eqn:Es. cbn [snd] in Hfil. destruct static; cbn [negb] in *.
  - rewrite app_nil_r in Hfil. assert (∀ res r, res ≠ eff → ¬ static_match res r e) as Hother.
    { intros res r Hne (d' & Hd' & Hs & _). congruence. }
    destruct (ResourceFilter d) as [[any ex] pre] eqn:Er. assert (∀ r, static_match eff r e ↔ any || bool_decide (r ∈ ex) || existsb (HasPrefix r) pre = true) as Hsm.
    { intros r. split; [intros (d' & Hd' & _ & Hin); replace d' with d in * by congruence; by rewrite Er in Hin|]. intros Hin. exists d. split_and!; [done|done|]. by rewrite Er. }
    assert (eff ≠ Undefined → plan_spec op (es ++ [e]) (mkPlan (foldl (λ t q, insert t q (effect_of eff)) (pPrefixes p) pre)
      (foldl (λ m q, <[q := Z.lor (default 0 (m !! q)) (effect_of eff)]> m) (pExact p) ex) (dynamic p) (if any then Z.lor (pAny p) (effect_of eff) else pAny p))) as Hgo.
    { intros Hne. split; cbn [pPrefixes pExact dynamic pAny]; [apply (prefix_fold pre (pPrefixes p) (effect_of eff) [] 0 Hw)| |by rewrite Hfil].
      intros res r Hres. rewrite Hsnoc, <- Hbits by done. unfold matchResource. cbn [pPrefixes pExact dynamic pAny]. rewrite !Z.lor_spec, !orb_true_iff, exact_fold.
      destruct (prefix_fold pre (pPrefixes p) (effect_of eff) r (bit res) Hw) as [_ ->]. rewrite effect_bit by done.
      assert (Z.testbit (if any then Z.lor (pAny p) (effect_of eff) else pAny p) (bit res) = true ↔ Z.testbit (pAny p) (bit res) = true ∨ (any = true ∧ eff = res)) as ->.
      { destruct any; [|naive_solver]. rewrite Z.lor_spec, orb_true_iff, effect_bit, bool_decide_eq_true by done. tauto. }
      rewrite bool_decide_eq_true. destruct (decide (eff = res)) as [->|Hd']; [|specialize (Hother res r ltac:(congruence)); tauto].
      rewrite Hsm, !orb_true_iff, bool_decide_eq_true. tauto. }
    destruct eff; [|by apply Hgo..]. split; [done| |by rewrite Hfil].
    intros res r Hres. rewrite Hsnoc, <- Hbits by done. specialize (Hother res r Hres). tauto.
  - split; cbn [pPrefixes pExact dynamic pAny]; [done| |by rewrite Hdyn, Hfil, app_assoc].
    intros res r Hres. rewrite Hsnoc, <- Hbits by done. assert (¬ static_match res r e) by (intros (d' & Hd' & Hs & _); congruence).
    unfold matchResource. cbn. tauto.
Qed.

Lemma addEntries_spec op es : Forall (λ e, descriptor e ≠ None) es → plan_spec op es (foldl addEntry (mkPlan resourceRadix ∅ op 0) es).
Proof.
  rewrite <- (reverse_involutive es). induction (reverse es) as [|e k IH]; intros Hes.
  - rewrite reverse_nil. cbn. split; [apply wf_leaf| |by rewrite app_nil_r]. intros res r _. unfold matchResource. cbn. rewrite lookup_empty. cbn.
    split; [|intros (e & He & _); by apply elem_of_nil in He]. intros Hb. exfalso. revert Hb. change (Z.testbit (match_ resourceRadix r) (bit res) = true → False).
    rewrite match_bit by apply wf_leaf. intros (q & t & _ & Hq). unfold resourceRadix in Hq. rewrite at_leaf in Hq. case_bool_decide; by rewrite Z.testbit_0_l in Hq.
  - rewrite reverse_cons, foldl_app in *. apply Forall_app in Hes as [Hk He]. apply addEntry_spec; [by inversion He|by apply IH].
Qed.

Lemma compile_spec l op js :
  (Z.of_nat (length l) < 2 ^ 64) → Forall (λ j, ∃ e, l !! j = Some e ∧ descriptor e ≠ None) js →
  plan_spec op (omap (l !!.) js) (compile_plan l op (Varint.encode (Z.of_nat <$> js))).
Proof.
  intros Hlen Hjs. unfold compile_plan. rewrite Varint.decode_encode; [| |done].
  - assert (∀ p, foldl (λ p i, match l !! Z.to_nat i with Some e => addEntry p e | None => p end) p (Z.of_nat <$> js) = foldl addEntry p (omap (l !!.) js)) as ->.
    { induction js as [|j js IH]; intros p; [done|]. apply Forall_cons in Hjs as [(e & He & _) Hjs]. cbn. rewrite Nat2Z.id, He. by apply IH. }
    apply addEntries_spec, Forall_forall. intros e (j & Hj & He)%list_elem_of_omap. rewrite Forall_forall in Hjs. destruct (Hjs j Hj) as (e' & ? & ?). congruence.
  - apply Forall_fmap. eapply Forall_impl; [exact Hjs|]. cbn. intros j (e & He%lookup_lt_Some & _). unfold is_u64. lia.
Qed.

Lemma dynamic_spec ps actor a r m eff :
  match evaluate_dynamic ps actor a r m eff with
  | None => ∃ p, p ∈ ps ∧ Evaluate p actor a r m = Deny
  | Some eff' => (∀ p, p ∈ ps → Evaluate p actor a r m ≠ Deny) ∧ (Z.testbit eff' 0 = true ↔ Z.testbit eff 0 = true ∨ ∃ p, p ∈ ps ∧ Evaluate p actor a r m = Allow)
  end.
Proof.
  revert eff. induction ps as [|p ps IH]; intros eff; cbn [evaluate_dynamic].
  { split; [by intros p Hp%elem_of_nil|]. split; [by left|]. intros [?|(p & Hp%elem_of_nil & _)]; done. }
  assert (∀ e, (match evaluate_dynamic ps actor a r m e with
    | None => ∃ q, q ∈ p :: ps ∧ Evaluate q actor a r m = Deny
    | Some e' => Evaluate p actor a r m ≠ Deny → (∀ q, q ∈ p :: ps → Evaluate q actor a r m ≠ Deny) ∧
        (Z.testbit e' 0 = true ↔ Z.testbit e 0 = true ∨ ∃ q, q ∈ ps ∧ Evaluate q actor a r m = Allow) end)) as Hps.
  { intros e. specialize (IH e). destruct (evaluate_dynamic ps actor a r m e).
    - intros Hp. destruct IH as [H1 H2]. split; [|done]. intros q [->|Hq]%elem_of_cons; [done|by apply H1].
    - destruct IH as (q & Hq & He). exists q. split; [by right|done]. }
  destruct (Evaluate p actor a r m) eqn:Ep; [specialize (Hps eff)|specialize (Hps (Z.lor eff allowBit))|exists p; split; [by left|done]].
  - destruct (evaluate_dynamic ps actor a r m eff); [|done]. destruct (Hps ltac:(done)) as [H1 H2]. split; [done|]. rewrite H2. setoid_rewrite elem_of_cons. naive_solver congruence.
  - destruct (evaluate_dynamic ps actor a r m _); [|done]. destruct (Hps ltac:(done)) as [H1 H2]. split; [done|]. rewrite H2, Z.lor_spec, orb_true_iff. setoid_rewrite elem_of_cons.
    split; [intros _; right; exists p; tauto|]. intros _. left. by right.
Qed.

(** A policy whose entry does not apply, or does and has its effect in the bits *)
Lemma applicable_in l a e i : l !! i = Some e → applies e a = true → i ∈ applicable l a.
Proof. intros Hi Ha. unfold applicable. apply list_elem_of_omap. exists (i, e). split; [apply elem_of_lookup_imap; eauto|]. cbn. by rewrite Ha. Qed.

Lemma applicable_inv l a i : i ∈ applicable l a → ∃ e, l !! i = Some e ∧ applies e a = true.
Proof.
  intros ([j e] & (k & x & [= -> ->] & Hx)%elem_of_lookup_imap & He)%list_elem_of_omap. cbn in He. destruct (applies x a) eqn:Ea; [|done]. injection He as ->. eauto.
Qed.

Lemma applies_described e a : applies e a = true → descriptor e ≠ None.
Proof. unfold applies. by destruct (descriptor e). Qed.

(** A decision of a policy of the segment: by the bits, or by the list *)
Lemma decided_by l a r actor m res :
  Forall entry_ok l → res ≠ Undefined →
  (∃ p, p ∈ policy <$> l ∧ Evaluate p actor a r m = res) ↔
  (∃ e, e ∈ omap (l !!.) (applicable l a) ∧ static_match res r e) ∨
  ∃ p, p ∈ pOpaque (new_index l) ++ (policy <$> base.filter (λ e, is_dynamic e = true) (omap (l !!.) (applicable l a))) ∧ Evaluate p actor a r m = res.
Proof.
  intros Hok Hres. pose proof (fi_opaque _ _ (bi_fresh _ _ (new_index_ok l))) as Hop. rewrite Forall_forall in Hok.
  assert (∀ e, e ∈ omap (l !!.) (applicable l a) ↔ e ∈ l ∧ applies e a = true) as Happ.
  { intros e. rewrite list_elem_of_omap. split.
    - intros (i & (e' & He' & Ha)%applicable_inv & He). replace e' with e in * by congruence. split; [by eapply list_elem_of_lookup_2|done].
    - intros [[i Hi]%list_elem_of_lookup Ha]. exists i. split; [by eapply applicable_in|done]. }
  assert (∀ p, p ∈ pOpaque (new_index l) ↔ ∃ e, e ∈ l ∧ descriptor e = None ∧ p = policy e) as Hopq.
  { intros p. rewrite Hop, list_elem_of_omap. split.
    - intros ([j e] & (k & x & [= -> ->] & Hx)%elem_of_lookup_imap & He). cbn in He. destruct (descriptor x) eqn:Ed; [done|]. injection He as <-. exists x. split; [by eapply list_elem_of_lookup_2|done].
    - intros (e & [i Hi]%list_elem_of_lookup & Hd & ->). exists (i, e). split; [apply elem_of_lookup_imap; eauto|]. cbn. by rewrite Hd. }
  split.
  - intros (p & (e & -> & He)%list_elem_of_fmap & Hev). specialize (Hok e He). unfold entry_ok in Hok. destruct (descriptor e) as [d|] eqn:Ed.
    + destruct (AppliesToAction d a) eqn:Ea; [|rewrite applies_sound in Hev by done; congruence].
      assert (applies e a = true) as Happlies by (unfold applies; by rewrite Ed). destruct (StaticEffect d) as [eff static] eqn:Es. destruct static.
      * left. exists e. split; [by apply Happ|]. rewrite (static_effect eff) in Hev by done. exists d. destruct (in_filter (ResourceFilter d) r) eqn:Ef; [|congruence]. by subst.
      * right. exists (policy e). split; [|done]. apply elem_of_app. right. apply list_elem_of_fmap_2, list_elem_of_filter. split; [unfold is_dynamic; by rewrite Ed, Es|by apply Happ].
    + right. exists (policy e). split; [|done]. apply elem_of_app. left. apply Hopq. eauto.
  - intros [(e & [He Ha]%Happ & d & Ed & Es & Ef)|(p & Hp & Hev)].
    + exists (policy e). split; [by apply list_elem_of_fmap_2|]. specialize (Hok e He). unfold entry_ok in Hok. rewrite Ed in Hok. unfold applies in Ha. rewrite Ed in Ha.
      by rewrite (static_effect res), Ef by done.
    + exists p. split; [|done]. apply elem_of_app in Hp as [(e & He & _ & ->)%Hopq|Hp]; [by apply list_elem_of_fmap_2|].
      apply list_elem_of_fmap in Hp as (e & -> & [_ [He _]%Happ]%list_elem_of_filter). by apply list_elem_of_fmap_2.
Qed.

Lemma evaluate_plan_spec l op es p actor a r m :
  plan_spec op es p → (∀ res, res ≠ Undefined → (∃ q, q ∈ policy <$> l ∧ Evaluate q actor a r m = res) ↔
    (∃ e, e ∈ es ∧ static_match res r e) ∨ ∃ q, q ∈ op ++ (policy <$> base.filter (λ e, is_dynamic e = true) es) ∧ Evaluate q actor a r m = res) →
  evaluate_plan p actor a r m = ask_all (policy <$> l) actor a r m.
Proof.
  intros [Hw Hbits Hdyn] Hall. unfold evaluate_plan, ask_all, combine.
  assert (∀ res, res ∈ ((λ p, Evaluate p actor a r m) <$> (policy <$> l)) ↔ ∃ q, q ∈ policy <$> l ∧ Evaluate q actor a r m = res) as Hin.
  { intros res. rewrite list_elem_of_fmap. naive_solver. }
  pose proof (Hbits Deny r ltac:(done)) as Hbd. pose proof (Hbits Allow r ltac:(done)) as Hba.
  change denyBit with (2 ^ 1). change allowBit with (2 ^ 0). rewrite (bool_decide_ext _ _ (land_bit _ 1 ltac:(lia))). pose proof (dynamic_spec (dynamic p) actor a r m (matchResource p r)) as Hd. rewrite Hdyn in *.
  case_bool_decide as Hb.
  { rewrite bool_decide_eq_true_2; [done|]. apply Hin, Hall; [done|]. left. by apply Hbd. }
  destruct (evaluate_dynamic _ actor a r m _) as [eff|].
  - destruct Hd as [Hnd Hal]. rewrite (bool_decide_eq_false_2 (Deny ∈ _)).
    + rewrite (bool_decide_ext _ _ (land_bit eff 0 ltac:(lia))). rewrite (bool_decide_ext (Z.testbit eff 0 = true) (Allow ∈ (λ p, Evaluate p actor a r m) <$> (policy <$> l))); [done|].
      rewrite Hal, Hin, Hall by done. change 0 with (bit Allow). rewrite Hba. tauto.
    + rewrite Hin, Hall by done. intros [Hx|(q & Hq & He)]; [by apply Hb, Hbd|by apply (Hnd q)].
  - rewrite bool_decide_eq_true_2; [done|]. apply Hin, Hall; [done|]. by right.
Qed.

(** The answer of a segment is that of asking all its policies, whatever plans it keeps. *)
Lemma evaluate_ok s actor a r m :
  segment_inv s → Forall entry_ok (ordered s) → Z.of_nat (length (ordered s)) < 2 ^ 64 →
  let '(s', res) := evaluate s actor a r m in
  segment_inv s' ∧ ordered s' = ordered s ∧ byID s' = byID s ∧ res = ask_all (policy <$> ordered s) actor a r m.
Proof.
  intros Hs Hok Hlen. unfold evaluate. pose proof (plan_ok s a Hs Hok) as Hp. destruct (plan s a) as [s' [p|]].
  - destruct Hp as (H1 & H2 & H3 & ->). split_and!; [done..|]. eapply evaluate_plan_spec; [apply compile_spec; [done|]|intros res Hres; by apply decided_by].
    apply Forall_forall. intros j (e & He & Ha)%applicable_inv. exists e. split; [done|]. by eapply applies_described.
  - destruct Hp as (H1 & H2 & H3 & H4 & H5). split_and!; [done..|]. symmetry. unfold ask_all, combine.
    assert (∀ res, res ≠ Undefined → res ∉ ((λ p, Evaluate p actor a r m) <$> (policy <$> ordered s))) as Hno.
    { intros res Hres Hin. apply list_elem_of_fmap in Hin as (q & -> & Hq). assert (∃ p, p ∈ policy <$> ordered s ∧ Evaluate p actor a r m = Evaluate q actor a r m) as Hex by eauto.
      apply (decided_by _ _ _ _ _ _ Hok Hres) in Hex. rewrite H4, H5 in Hex. destruct Hex as [(e & He%elem_of_nil & _)|(p & Hp%elem_of_nil & _)]; done. }
    rewrite !bool_decide_eq_false_2 by (by apply Hno). done.
Qed.

End plans.
End Plans.
