(* ===== verification/PolicyScope.v ===== *)
(** * Scopes ([system/security/scope.go], [system/security/segment.go])

    A scope is an immutable collection of policies, made of at most eight segments that
    scopes share. Segments of policies with an identity are interned: a table of bounded
    size, by a hash of the identities, finds a segment with the same policies again, with
    the plans it has kept. A list of policies becomes a segment with one policy for each
    identifier, the last one, found through a hash table on the stack.

    The store of segments and the tables are part of the model, so that what one scope keeps
    is seen by the others. A scope behaves as a finite map from identifiers to policies. *)

From S2P Require Import Prelude Bytes GoStrings RegEntry Radix Policy Varint PolicyPlan.
Import Entries Radix Policies Plans.

Module Scopes.

Definition maxScopeSegments : nat := 8.
Definition maxLargeSegments : nat := maxScopeSegments - 1.
Definition largeSegmentPolicies : nat := 64.
Definition segmentShards : Z := 64.
Definition segmentsPerShard : nat := 32.

Section scopes.
Context {V : Type}.
Notation Policy := (@Policy V).
Notation Actor := (@Actor V).
Notation segment := (@segment V).
Notation policyEntry := (@policyEntry V).

(** The order in which Go visits the entries of a map, and the hash of a string, which
    depends on a seed of the process. *)
Context (shuffle : ∀ A, list A → list A) (hash : string → Z).

(** ** Segments ([segment.go]) *)

Definition describePolicy (p : Policy) : policyEntry :=
  match describes p with
  | Some d => if bool_decide (PolicyIdentity d ≠ 0) then mkEntry p (Some d) (pID p) (PolicyIdentity d) else mkEntry p None (pID p) 0
  | None => mkEntry p None (pID p) 0
  end.

Definition buildSegment (entries : list policyEntry) : segment :=
  mkSegment (foldl (λ m ie, <[eid ie.2 := ie.1]> m) ∅ (imap pair entries)) None entries
    (existsb (λ e, bool_decide (identity e = 0)) entries).

(** Segments are shared by their place in the store. *)
Record segmentTable := mkTable { slots : list (option (Z * nat)); next : nat }.

Record store := mkStore { heap : list segment; shards : gmap Z segmentTable }.

(** A pointer in use always is in the store. *)
Definition seg_at (st : store) (ptr : nat) : segment := default (buildSegment []) (heap st !! ptr).

Definition alloc (st : store) (s : segment) : store * nat := (mkStore (heap st ++ [s]) (shards st), length (heap st)).

Definition idHash (id : ID) : Z := Z.lxor (hash (NS id)) (u64 (hash (Name id) * 0x9e3779b97f4a7c15)).

Definition identityHash (idHash identity : Z) : Z :=
  let h := Z.lxor idHash (u64 (identity + 0x9e3779b97f4a7c15)) in
  let h := u64 (Z.lxor h (Z.shiftr h 30) * 0xbf58476d1ce4e5b9) in
  let h := u64 (Z.lxor h (Z.shiftr h 27) * 0x94d049bb133111eb) in
  Z.lxor h (Z.shiftr h 31).

Definition policyIdentity : Type := ID * Z.

Definition sameIdentities (s : segment) (identities : list policyIdentity) : bool :=
  if bool_decide (length (ordered s) ≠ length identities) then false else
  forallb (λ it, match byID s !! it.1 with
                 | Some i => match ordered s !! i with Some e => bool_decide (identity e = it.2) | None => false end
                 | None => false
                 end) identities.

Definition findSegment (st : store) (table : option segmentTable) (key : Z) (identities : list policyIdentity) : option nat :=
  match table with
  | None => None
  | Some t => snd <$> List.find (λ kp, bool_decide (kp.1 = key) && sameIdentities (seg_at st kp.2) identities) (omap id (slots t))
  end.

Definition intern (st : store) (key : Z) (identities : list policyIdentity) (policies : list Policy) : store * nat :=
  let shard := key mod segmentShards in
  let previous := shards st !! shard in
  match findSegment st previous key identities with
  | Some ptr => (st, ptr)
  | None =>
      let entries := zip_with (λ it p, mkEntry p (describes p) it.1 it.2) identities policies in
      let '(st, ptr) := alloc st (buildSegment entries) in
      let t := default (mkTable (replicate segmentsPerShard None) 0) previous in
      (mkStore (heap st) (<[shard := mkTable (<[next t := Some (key, ptr)]> (slots t)) ((next t + 1) mod segmentsPerShard)]> (shards st)), ptr)
  end.

Definition fromEntry (st : store) (e : policyEntry) : store * nat :=
  if bool_decide (identity e = 0) then alloc st (buildSegment [e])
  else intern st (identityHash (idHash (eid e)) (identity e)) [(eid e, identity e)] [policy e].

Definition entryFromIdentity (it : policyIdentity) (p : Policy) : policyEntry :=
  mkEntry p (if bool_decide (it.2 ≠ 0) then describes p else None) it.1 it.2.

(** The hash table on the stack: a slot is 0, or one more than the place of its identity. *)
Fixpoint probe (fuel : nat) (table : list nat) (identities : list policyIdentity) (slot : nat) (id : ID) : nat :=
  match fuel with
  | O => slot
  | S fuel =>
      match table !! slot with
      | Some (S j) =>
          match identities !! j with
          | Some it => if bool_decide (it.1 = id) then slot else probe fuel table identities ((slot + 1) mod length table) id
          | None => slot
          end
      | _ => slot
      end
  end.

Record normalizing := mkNormalizing {
  identities : list policyIdentity; objects : list Policy; table : list nat; nOpaque : Z; nKey : Z; overflow : option (gmap ID policyEntry)
}.

Definition normalize_step (capacity : nat) (n : normalizing) (p : Policy) : normalizing :=
  let entry := describePolicy p in
  match overflow n with
  | Some m => mkNormalizing (identities n) (objects n) (table n) (nOpaque n) (nKey n) (Some (<[eid entry := entry]> m))
  | None =>
      let h := idHash (eid entry) in
      let slot := probe (length (table n)) (table n) (identities n) (Z.to_nat (h mod Z.of_nat (length (table n)))) (eid entry) in
      let opaque_more := if bool_decide (identity entry = 0) then 1 else 0 in
      match default 0%nat (table n !! slot) with
      | O =>
          if bool_decide (length (identities n) = capacity) then
            let m := foldl (λ m e, <[eid e := e]> m) ∅ (zip_with entryFromIdentity (identities n) (objects n)) in
            mkNormalizing (identities n) (objects n) (table n) (nOpaque n) (nKey n) (Some (<[eid entry := entry]> m))
          else
            mkNormalizing (identities n ++ [(eid entry, identity entry)]) (objects n ++ [p]) (<[slot := S (length (identities n))]> (table n))
              (nOpaque n + opaque_more) (u64 (nKey n + identityHash h (identity entry))) None
      | S index =>
          let old := from_option snd 0 (identities n !! index) in
          mkNormalizing (<[index := (eid entry, identity entry)]> (identities n)) (<[index := p]> (objects n)) (table n)
            (nOpaque n - (if bool_decide (old = 0) then 1 else 0) + opaque_more)
            (u64 (u64 (nKey n - identityHash h old) + identityHash h (identity entry))) None
      end
  end.

Definition normalizeList (st : store) (capacity : nat) (policies : list Policy) : store * nat :=
  let n := foldl (normalize_step capacity) (mkNormalizing [] [] (replicate (2 * capacity) 0%nat) 0 0 None) policies in
  match overflow n with
  | Some m => alloc st (buildSegment (shuffle _ (map_to_list m).*2))
  | None =>
      if bool_decide (nOpaque n = 0) then intern st (nKey n) (identities n) (objects n)
      else alloc st (buildSegment (zip_with entryFromIdentity (identities n) (objects n)))
  end.

Definition capacity_for (n : nat) : nat :=
  if bool_decide (n ≤ 8)%nat then 8 else if bool_decide (n ≤ 32)%nat then 32 else
  if bool_decide (n ≤ 128)%nat then 128 else if bool_decide (n ≤ 512)%nat then 512 else 1024.

Definition fromList (st : store) (policies : list Policy) : store * nat :=
  match policies with
  | [p] => fromEntry st (describePolicy p)
  | _ => normalizeList st (capacity_for (length policies)) policies
  end.

(** ** Scopes ([scope.go]) *)

(** The segments of a scope, by their place *)
Notation scope := (list nat).

Definition makeScope (st : store) (policies : list Policy) : store * scope :=
  let '(st, ptr) := fromList st policies in (st, [ptr]).

Definition NewScope (st : store) (policies : list Policy) : store * scope := makeScope st policies.

Fixpoint entry (st : store) (s : scope) (id : ID) : option policyEntry :=
  match s with
  | [] => None
  | ptr :: s =>
      match byID (seg_at st ptr) !! id with
      | Some i => ordered (seg_at st ptr) !! i
      | None => entry st s id
      end
  end.

Definition Contains (st : store) (s : scope) (id : ID) : bool := bool_decide (is_Some (entry st s id)).

Definition entries (st : store) (s : scope) : list policyEntry := s ≫= λ ptr, ordered (seg_at st ptr).

Definition Policies (st : store) (s : scope) : list Policy := policy <$> entries st s.

Definition empty (st : store) (s : scope) : bool := forallb (λ ptr, bool_decide (length (ordered (seg_at st ptr)) = 0%nat)) s.

Definition is_large (st : store) (ptr : nat) : bool := bool_decide (largeSegmentPolicies ≤ length (ordered (seg_at st ptr)))%nat.

Definition compact (st : store) (s : scope) : store * scope :=
  let large := base.filter (λ ptr, is_large st ptr = true) s in
  let small := base.filter (λ ptr, is_large st ptr = false) s in
  if bool_decide (maxLargeSegments < length large)%nat then makeScope st (Policies st s) else
  let policies := Policies st small in
  if bool_decide (0 < length policies)%nat then let '(st, ptr) := fromList st policies in (st, large ++ [ptr])
  else (st, large).

Definition appendSegments (st : store) (s added : scope) : store * scope :=
  match added with
  | [] => (st, s)
  | a :: rest =>
      if bool_decide (length s = 1%nat ∧ length (ordered (seg_at st (default 0%nat (head s)))) = 0%nat ∧ rest = []) then (st, [a]) else
      let parts := s ++ added in
      if bool_decide (maxScopeSegments < length parts)%nat then compact st parts else (st, parts)
  end.

Definition With (st : store) (s : scope) (p : Policy) : store * scope :=
  let e := describePolicy p in
  match entry st s (eid e) with
  | Some existing =>
      if bool_decide (identity e ≠ 0 ∧ identity e = identity existing) then (st, s)
      else NewScope st (Policies st s ++ [p])
  | None => let '(st, ptr) := fromEntry st e in appendSegments st s [ptr]
  end.

(** The segments of the added scope one after the other: [None] when a policy replaces
    another one. *)
Fixpoint merge_parts (st : store) (s added : scope) (segments : scope) : store * option scope :=
  match added with
  | [] => (st, Some segments)
  | part :: added =>
      let ordered := ordered (seg_at st part) in
      let known e := entry st s (eid e) in
      if existsb (λ e, match known e with Some x => bool_decide (identity e = 0 ∨ identity e ≠ identity x) | None => false end) ordered then (st, None) else
      let fresh := base.filter (λ e, known e = None) ordered in
      if bool_decide (length fresh = 0%nat) then merge_parts st s added segments else
      if bool_decide (length fresh = length ordered) then merge_parts st s added (segments ++ [part]) else
      let '(st, more) := makeScope st (policy <$> fresh) in
      merge_parts st s added (segments ++ more)
  end.

Definition merge (st : store) (s added : scope) : store * scope :=
  match merge_parts st s added [] with
  | (st, Some segments) => appendSegments st s segments
  | (st, None) => makeScope st (Policies st s ++ Policies st added)
  end.

(** The segment with the identifier, and what is before and after it *)
Fixpoint split_at (st : store) (before s : scope) (id : ID) : option (scope * nat * scope) :=
  match s with
  | [] => None
  | part :: rest =>
      match byID (seg_at st part) !! id with
      | Some _ => Some (before, part, rest)
      | None => split_at st (before ++ [part]) rest id
      end
  end.

Definition Without (st : store) (s : scope) (id : ID) : store * scope :=
  match split_at st [] s id with
  | None => (st, s)
  | Some (before, part, after) =>
      let list := policy <$> base.filter (λ e, eid e ≠ id) (ordered (seg_at st part)) in
      if bool_decide (length s = 1%nat) then NewScope st list else
      if bool_decide (0 < length list)%nat then
        let '(st, more) := makeScope st list in (st, before ++ more ++ after)
      else (st, before ++ after)
  end.

Fixpoint Evaluate_loop (st : store) (s : scope) (actor : Actor) (action resource : str) (meta : gmap string V) (res : Result) : store * Result :=
  match s with
  | [] => (st, res)
  | ptr :: s =>
      let '(seg, r) := evaluate shuffle (seg_at st ptr) actor action resource meta in
      let st := mkStore (<[ptr := seg]> (heap st)) (shards st) in
      match r with
      | Deny => (st, Deny)
      | Allow => Evaluate_loop st s actor action resource meta Allow
      | Undefined => Evaluate_loop st s actor action resource meta res
      end
  end.

Definition EvaluateScope (st : store) (s : scope) (actor : Actor) (action resource : str) (meta : gmap string V) : store * Result :=
  Evaluate_loop st s actor action resource meta Undefined.

(** ** Policies that can be told apart *)

(** What the comments of [PolicyIdentity] promise of the policies in use: an identity other
    than zero belongs to one policy, which is described as the comments say. *)
Class Described (U : list Policy) : Prop := {
  U_identity p q : p ∈ U → q ∈ U → identity_of p = identity_of q → identity_of p ≠ 0 → p = q;
  U_described p : p ∈ U → well_described p;
  U_size : Z.of_nat (length U) < 2 ^ 64
}.

Context (U : list Policy) `{!Described U}.
Hypothesis shuffle_perm : ∀ A (k : list A), shuffle A k ≡ₚ k.

Lemma describePolicy_spec p : policy (describePolicy p) = p ∧ eid (describePolicy p) = pID p ∧ identity (describePolicy p) = identity_of p.
Proof.
  unfold describePolicy, identity_of. destruct (describes p) as [d|]; [|done]. case_bool_decide as Hd; [done|]. cbn.
  destruct (decide (PolicyIdentity d = 0)) as [->|]; [done|]. by exfalso.
Qed.

Lemma describe_policy p : policy (describePolicy p) = p.
Proof. apply describePolicy_spec. Qed.
Lemma describe_eid p : eid (describePolicy p) = pID p.
Proof. apply describePolicy_spec. Qed.
Lemma describe_identity p : identity (describePolicy p) = identity_of p.
Proof. apply describePolicy_spec. Qed.

(** An entry describes a policy in use. *)
Definition good (e : policyEntry) : Prop := e = describePolicy (policy e) ∧ policy e ∈ U.

Lemma describe_good p : p ∈ U → good (describePolicy p).
Proof. intros Hp. split; by rewrite describe_policy. Qed.

Lemma good_eid e : good e → eid e = pID (policy e).
Proof. intros [He _]. rewrite He at 1. apply describe_eid. Qed.

Lemma good_identity e : good e → identity e = identity_of (policy e).
Proof. intros [He _]. rewrite He at 1. apply describe_identity. Qed.

Lemma good_ok e : good e → entry_ok e.
Proof.
  intros [He Hp]. rewrite He. set (p := policy e) in *. clearbody p. clear He. pose proof (U_described p Hp) as Hd. unfold entry_ok, describePolicy. unfold well_described in Hd.
  destruct (describes p) as [d|] eqn:Ed; [|done]. by case_bool_decide.
Qed.

Lemma good_inj e e' : good e → good e' → policy e = policy e' → e = e'.
Proof. intros [H1 _] [H2 _] He. rewrite H1, H2. by f_equal. Qed.

(** ** Segments and stores *)

Record seg_ok (s : segment) : Prop := {
  so_plans : segment_inv shuffle s;
  so_good : Forall good (ordered s);
  so_nodup : NoDup (eid <$> ordered s);
  so_index id i : byID s !! id = Some i ↔ ∃ e, ordered s !! i = Some e ∧ eid e = id
}.

Lemma byID_lookup (es : list policyEntry) id i :
  NoDup (eid <$> es) → foldl (λ m ie, <[eid ie.2 := ie.1]> m) (∅ : gmap ID nat) (imap pair es) !! id = Some i ↔ ∃ e, es !! i = Some e ∧ eid e = id.
Proof.
  rewrite <- (reverse_involutive es). induction (reverse es) as [|e k IH]; intros Hn.
  { rewrite reverse_nil. cbn. rewrite lookup_empty. split; [done|]. by intros (e & He & _). }
  rewrite reverse_cons in *. rewrite imap_app, foldl_app. cbn. rewrite fmap_app in Hn. apply NoDup_app in Hn as (Hn & Hdis & _). rewrite Nat.add_0_r.
  assert ((reverse k ++ [e]) !! length (reverse k) = Some e) as Hlast by (by rewrite lookup_app_r, Nat.sub_diag by done).
  destruct (decide (id = eid e)) as [->|Hne].
  - rewrite lookup_insert_eq. split; [intros [= <-]; eauto|]. intros (x & Hx & Hid). f_equal. apply lookup_app_Some in Hx as [Hx|[Hle Hx]].
    + exfalso. apply (Hdis (eid x)); [apply list_elem_of_fmap_2; by eapply list_elem_of_lookup_2|]. rewrite Hid. by left.
    + destruct (i - length (reverse k))%nat as [|j] eqn:Ej; [lia|done].
  - rewrite lookup_insert_ne, (IH Hn) by done. split; intros (x & Hx & Hid); exists x; (split; [|done]).
    + apply lookup_app_Some. by left.
    + apply lookup_app_Some in Hx as [Hx|[Hle Hx]]; [done|]. destruct (i - length (reverse k))%nat as [|j]; [|done]. injection Hx as ->. done.
Qed.

Lemma buildSegment_ok es : Forall good es → NoDup (eid <$> es) → seg_ok (buildSegment es).
Proof. intros Hg Hn. split; [done|done|done|]. intros id i. by apply byID_lookup. Qed.

Record store_ok (st : store) : Prop := {
  st_segments : Forall seg_ok (heap st);
  st_tables sh t : shards st !! sh = Some t → length (slots t) = segmentsPerShard ∧ (next t < segmentsPerShard)%nat ∧
    ∀ key ptr, Some (key, ptr) ∈ slots t → (ptr < length (heap st))%nat
}.

(** A later store: segments are added, and those there keep their policies. *)
Definition ext (st st' : store) : Prop :=
  ∀ ptr s, heap st !! ptr = Some s → ∃ s', heap st' !! ptr = Some s' ∧ ordered s' = ordered s ∧ byID s' = byID s.

#[export] Instance ext_preorder : PreOrder ext.
Proof.
  split; [intros st ptr s Hs; eauto|]. intros a b c Hab Hbc ptr s Hs. destruct (Hab ptr s Hs) as (s' & Hs' & E1 & E2). destruct (Hbc ptr s' Hs') as (s'' & ? & ? & ?).
  exists s''. split_and!; [done|congruence..].
Qed.

Definition valid (st : store) (ptr : nat) : Prop := is_Some (heap st !! ptr).

Lemma ext_valid st st' ptr : ext st st' → valid st ptr → valid st' ptr.
Proof. intros He [s Hs]. destruct (He ptr s Hs) as (s' & ? & _). by eexists. Qed.

Lemma ext_seg st st' ptr : ext st st' → valid st ptr → ordered (seg_at st' ptr) = ordered (seg_at st ptr) ∧ byID (seg_at st' ptr) = byID (seg_at st ptr).
Proof. intros He [s Hs]. destruct (He ptr s Hs) as (s' & Hs' & ? & ?). unfold seg_at. by rewrite Hs, Hs'. Qed.

Lemma seg_at_ok st ptr : store_ok st → valid st ptr → seg_ok (seg_at st ptr).
Proof. intros Hst [s Hs]. unfold seg_at. rewrite Hs. by eapply Forall_lookup_1; [apply st_segments|]. Qed.

(** The policies of a list of entries by their identifier *)
Definition map_of (es : list policyEntry) : gmap ID Policy := list_to_map ((λ e, (eid e, policy e)) <$> es).

Lemma map_of_keys es : ((λ e : policyEntry, (eid e, policy e)) <$> es).*1 = eid <$> es.
Proof. by rewrite <- list_fmap_compose. Qed.

Lemma map_of_lookup es id p : NoDup (eid <$> es) → map_of es !! id = Some p ↔ ∃ e, e ∈ es ∧ eid e = id ∧ policy e = p.
Proof.
  intros Hn. unfold map_of. rewrite <- elem_of_list_to_map by (by rewrite map_of_keys). rewrite list_elem_of_fmap. naive_solver.
Qed.

Lemma map_of_perm es es' : NoDup (eid <$> es) → es ≡ₚ es' → map_of es = map_of es'.
Proof. intros Hn Hp. apply list_to_map_proper; [by rewrite map_of_keys|]. by rewrite Hp. Qed.

(** The last policy for each identifier *)
Definition policies_map (ps : list Policy) : gmap ID Policy := foldl (λ m p, <[pID p := p]> m) ∅ ps.

Lemma policies_map_app ps qs : policies_map (ps ++ qs) = foldl (λ m p, <[pID p := p]> m) (policies_map ps) qs.
Proof. apply foldl_app. Qed.

Lemma policies_map_distinct ps : NoDup (pID <$> ps) → policies_map ps = map_of (describePolicy <$> ps).
Proof.
  intros Hn. unfold policies_map. assert (∀ m : gmap ID Policy, foldl (λ m p, <[pID p := p]> m) m ps = map_of (describePolicy <$> ps) ∪ m) as ->.
  - induction ps as [|p ps IH]; intros m; cbn; [by rewrite map_empty_union|]. apply NoDup_cons in Hn as [Hp Hn]. rewrite (IH Hn).
    rewrite describe_policy, describe_eid. change (list_to_map ((λ e, (eid e, policy e)) <$> (describePolicy <$> ps))) with (map_of (describePolicy <$> ps)).
    rewrite <- insert_union_l. symmetry. rewrite insert_union_r; [done|]. apply eq_None_not_Some. intros [q Hq]. apply Hp.
    apply map_of_lookup in Hq as (e & (x & -> & Hx)%list_elem_of_fmap & He & _).
    + rewrite describe_eid in He. rewrite <- He. by apply list_elem_of_fmap_2.
    + rewrite <- list_fmap_compose. erewrite list_fmap_ext; [exact Hn|]. intros i x _. apply describe_eid.
  - by rewrite map_union_empty.
Qed.

Lemma eid_describe (ps : list Policy) : eid <$> (describePolicy <$> ps) = pID <$> ps.
Proof. rewrite <- list_fmap_compose. apply list_fmap_ext. intros i x _. apply describe_eid. Qed.

(** A new segment for a list of policies *)
Definition made (st : store) (ps : list Policy) (r : store * nat) : Prop :=
  store_ok r.1 ∧ ext st r.1 ∧ valid r.1 r.2 ∧ map_of (ordered (seg_at r.1 r.2)) = policies_map ps.

Lemma alloc_made st ps es :
  store_ok st → Forall good es → NoDup (eid <$> es) → map_of es = policies_map ps → made st ps (alloc st (buildSegment es)).
Proof.
  intros [H1 H2] Hg Hn Hm. unfold made, alloc. cbn [fst snd]. assert ((heap st ++ [buildSegment es]) !! length (heap st) = Some (buildSegment es)) as Hl by (by rewrite lookup_app_r, Nat.sub_diag by done).
  split_and!.
  - split; cbn; [apply Forall_app; split; [done|]; apply Forall_singleton; by apply buildSegment_ok|]. intros sh t Ht. destruct (H2 sh t Ht) as (? & ? & H4). split_and!; [done..|].
    intros key ptr Hin. rewrite length_app. specialize (H4 key ptr Hin). lia.
  - intros ptr s Hs. exists s. cbn. by rewrite lookup_app_l by (by eapply lookup_lt_Some).
  - eexists. exact Hl.
  - unfold seg_at. cbn. by rewrite Hl.
Qed.

Definition idt (p : Policy) : policyIdentity := (pID p, identity_of p).

Lemma sameIdentities_perm s ps :
  seg_ok s → Forall (λ p, p ∈ U ∧ identity_of p ≠ 0) ps → NoDup (pID <$> ps) → sameIdentities s (idt <$> ps) = true → ordered s ≡ₚ describePolicy <$> ps.
Proof.
  intros Hs Hps Hn. unfold sameIdentities. case_bool_decide as Hlen; [done|]. rewrite length_fmap in Hlen. rewrite forallb_forall. setoid_rewrite <- list_elem_of_In. intros Hall.
  symmetry. apply submseteq_length_Permutation; [|rewrite length_fmap; lia]. apply NoDup_submseteq.
  - apply (NoDup_fmap_1 eid). by rewrite eid_describe.
  - intros e (p & -> & Hp)%list_elem_of_fmap. rewrite Forall_forall in Hps. destruct (Hps p Hp) as [HpU Hid]. specialize (Hall (idt p) ltac:(by apply list_elem_of_fmap_2)). cbn in Hall.
    destruct (byID s !! pID p) as [i|]; [|done]. destruct (ordered s !! i) as [e|] eqn:Ei; [|done]. apply bool_decide_eq_true in Hall.
    pose proof (Forall_lookup_1 _ _ _ _ (so_good _ Hs) Ei) as Hg. rewrite (good_identity e Hg) in Hall.
    assert (policy e = p) as Hep by (apply U_identity; [apply Hg|done|done|congruence]). replace (describePolicy p) with e; [by eapply list_elem_of_lookup_2|]. destruct Hg as [-> _]. by rewrite Hep.
Qed.

Lemma in_insert {A} (k : list A) i x y : x ∈ <[i := y]> k → x = y ∨ x ∈ k.
Proof.
  intros (j & Hj)%list_elem_of_lookup. destruct (decide (i = j)) as [->|Hne].
  - apply list_lookup_insert_Some in Hj as [(_ & -> & _)|(? & _)]; [by left|done].
  - rewrite list_lookup_insert_ne in Hj by done. right. by eapply list_elem_of_lookup_2.
Qed.

Lemma intern_made st key ps :
  store_ok st → Forall (λ p, p ∈ U ∧ identity_of p ≠ 0) ps → NoDup (pID <$> ps) → made st ps (intern st key (idt <$> ps) ps).
Proof.
  intros Hst Hps Hn. unfold intern. set (sh := key mod segmentShards). destruct (findSegment st (shards st !! sh) key (idt <$> ps)) as [ptr|] eqn:Ef.
  - unfold findSegment in Ef. destruct (shards st !! sh) as [t|] eqn:Et; [|done]. apply fmap_Some in Ef as ([k ptr'] & Hfind & ->). apply find_some in Hfind as [Hin Hok].
    rewrite <- list_elem_of_In, list_elem_of_omap in Hin. destruct Hin as (o & Ho & Hid). cbn in Hid, Hok. subst o. apply andb_true_iff in Hok as [_ Hsame].
    destruct (st_tables _ Hst sh t Et) as (_ & _ & Hptr). specialize (Hptr k ptr' Ho). apply lookup_lt_is_Some_2 in Hptr.
    pose proof (seg_at_ok _ _ Hst Hptr) as Hs. split_and!; [done|done|done|]. cbn. rewrite (policies_map_distinct ps Hn). apply map_of_perm; [apply Hs|]. by apply sameIdentities_perm.
  - set (es := zip_with (λ it p, mkEntry p (describes p) it.1 it.2) (idt <$> ps) ps). assert (es = describePolicy <$> ps) as Hes.
    { subst es. clear -Hps. induction Hps as [|p ps [_ Hp] _ IH]; [done|]. cbn. f_equal; [|exact IH]. unfold describePolicy, identity_of in *. destruct (describes p) as [d|] eqn:Ed; [|done].
      cbn in *. by rewrite bool_decide_eq_true_2. }
    rewrite Hes. assert (made st ps (alloc st (buildSegment (describePolicy <$> ps)))) as Hm.
    { apply alloc_made; [done| |by rewrite eid_describe|by rewrite policies_map_distinct]. apply Forall_fmap. eapply Forall_impl; [exact Hps|]. intros p [Hp _]. by apply describe_good. }
    unfold alloc in *. destruct Hm as (H1 & H2 & H3 & H4). cbn [fst snd] in *. split_and!; [|done..]. split; cbn [fst snd heap shards]; [apply H1|].
    intros sh' t. rewrite lookup_insert_Some. intros [[<- <-]|[_ Ht]]; [|by apply (st_tables _ H1 sh' t)]. cbn [slots next heap].
    assert (length (slots (default (mkTable (replicate segmentsPerShard None) 0) (shards st !! sh))) = segmentsPerShard) as Hlen.
    { destruct (shards st !! sh) as [t|] eqn:Et; [by apply (st_tables _ Hst sh t)|done]. }
    split_and!; [by rewrite length_insert|by apply Nat.mod_upper_bound|]. intros k ptr [Hin|Hin]%in_insert.
    + injection Hin as -> ->. rewrite length_app. cbn. lia.
    + destruct (shards st !! sh) as [t|] eqn:Et; [|by apply elem_of_replicate in Hin as [[=] _]]. destruct (st_tables _ Hst sh t Et) as (_ & _ & Hp). rewrite length_app. specialize (Hp k ptr Hin). lia.
Qed.

(** ** The hash table on the stack *)

(** Whether probing stops at a slot *)
Definition stops (t : list nat) (its : list policyIdentity) (id : ID) (slot : nat) : bool :=
  match t !! slot with
  | Some (S j) => match its !! j with Some it => bool_decide (it.1 = id) | None => true end
  | _ => true
  end.

Lemma probe_spec fuel t its slot id :
  (slot < length t)%nat → (∃ k, k < fuel ∧ stops t its id ((slot + k) mod length t) = true)%nat →
  ∃ k, (k < fuel)%nat ∧ probe fuel t its slot id = ((slot + k) mod length t)%nat ∧ stops t its id ((slot + k) mod length t) = true ∧
    ∀ k', (k' < k)%nat → stops t its id ((slot + k') mod length t) = false.
Proof.
  revert slot. induction fuel as [|fuel IH]; intros slot Hs (k & Hk & Hstop); [lia|].
  assert ((slot + 0) mod length t = slot)%nat as H0 by (rewrite Nat.add_0_r; by apply Nat.mod_small).
  assert (probe (S fuel) t its slot id = if stops t its id slot then slot else probe fuel t its ((slot + 1) mod length t) id) as ->.
  { cbn. unfold stops. destruct (t !! slot) as [[|j]|]; [done| |done]. destruct (its !! j); [|done]. by case_bool_decide. }
  destruct (stops t its id slot) eqn:Es.
  - exists 0%nat. rewrite H0. split_and!; [lia|done|done|]. intros k' Hk'. lia.
  - assert (∀ x, ((slot + 1) mod length t + x) mod length t = (slot + S x) mod length t)%nat as Hnext.
    { intros x. rewrite Nat.Div0.add_mod_idemp_l. f_equal. lia. }
    destruct (IH ((slot + 1) mod length t)%nat) as (k1 & Hk1 & Hp & Hst & Hmin).
    + apply Nat.mod_upper_bound. lia.
    + destruct k as [|k]; [rewrite H0 in Hstop; congruence|]. exists k. rewrite Hnext. split; [lia|done].
    + exists (S k1). rewrite <- (Hnext k1). split_and!; [lia|done|done|]. intros [|k'] Hk'; [by rewrite H0|]. rewrite <- (Hnext k'). apply Hmin. lia.
Qed.

Definition home (n : nat) (p : Policy) : nat := Z.to_nat (idHash (pID p) mod Z.of_nat n).

Lemma home_lt n p : (0 < n)%nat → (home n p < n)%nat.
Proof. intros Hn. unfold home. pose proof (Z.mod_pos_bound (idHash (pID p)) (Z.of_nat n) ltac:(lia)). lia. Qed.

(** Every policy is found from the home of its identifier without an empty slot before. *)
Record table_inv (t : list nat) (objs : list Policy) : Prop := {
  tv_range s j : t !! s = Some (S j) → (j < length objs)%nat;
  tv_found j p : objs !! j = Some p → ∃ k, (k < length t)%nat ∧ t !! ((home (length t) p + k) mod length t)%nat = Some (S j) ∧
    ∀ k', (k' < k)%nat → t !! ((home (length t) p + k') mod length t)%nat ≠ Some 0%nat;
  tv_used : length (base.filter (λ x, x ≠ 0%nat) t) = length objs
}.

Lemma reach_slot n a s : (a < n → s < n → ∃ k, k < n ∧ (a + k) mod n = s)%nat.
Proof.
  intros Ha Hs. destruct (decide (a ≤ s)%nat) as [Hle|Hgt].
  - exists (s - a)%nat. split; [lia|]. replace (a + (s - a))%nat with s by lia. by apply Nat.mod_small.
  - exists (n + s - a)%nat. split; [lia|]. replace (a + (n + s - a))%nat with (s + 1 * n)%nat by lia. rewrite Nat.Div0.mod_add. by apply Nat.mod_small.
Qed.

Lemma free_slot t objs : table_inv t objs → (length objs < length t)%nat → ∃ s, t !! s = Some 0%nat.
Proof.
  intros Ht Hlt. rewrite <- (tv_used _ _ Ht) in Hlt. clear Ht objs. induction t as [|x t IH]; [cbn in Hlt; lia|]. rewrite filter_cons in Hlt.
  case_decide as Hx; [|exists 0%nat; cbn; f_equal; lia]. cbn in Hlt. destruct IH as [s Hs]; [lia|]. by exists (S s).
Qed.

Lemma filter_insert_used (t : list nat) s v : t !! s = Some 0%nat → v ≠ 0%nat → length (base.filter (λ x, x ≠ 0%nat) (<[s := v]> t)) = S (length (base.filter (λ x, x ≠ 0%nat) t)).
Proof.
  revert s. induction t as [|x t IH]; intros [|s] Hs Hv; try done; cbn in Hs.
  - injection Hs as ->. change (<[0%nat := v]> (0%nat :: t)) with (v :: t). rewrite !filter_cons, decide_True, decide_False by (try tauto; done). done.
  - change (<[S s := v]> (x :: t)) with (x :: <[s := v]> t). rewrite !filter_cons. destruct (decide (x ≠ 0%nat)); cbn [length]; by rewrite IH.
Qed.

(** Where the loop ends: at the policy with the identifier, or at an empty slot when there
    is none. *)
Lemma probe_ends t objs p :
  table_inv t objs → NoDup (pID <$> objs) → (length objs < length t)%nat →
  ∃ k, (k < length t)%nat ∧ (∀ k', (k' < k)%nat → t !! ((home (length t) p + k') mod length t)%nat ≠ Some 0%nat) ∧
  let s := ((home (length t) p + k) mod length t)%nat in
  probe (length t) t (idt <$> objs) (home (length t) p) (pID p) = s ∧
  match t !! s with
  | Some (S j) => ∃ q, objs !! j = Some q ∧ pID q = pID p
  | Some O => pID p ∉ pID <$> objs
  | None => False
  end.
Proof.
  intros Ht Hn Hlt. pose proof (home_lt (length t) p ltac:(lia)) as Hh. destruct (free_slot t objs Ht Hlt) as [s Hs].
  destruct (reach_slot (length t) (home (length t) p) s Hh (lookup_lt_Some _ _ _ Hs)) as (k & Hk & Hks).
  destruct (probe_spec (length t) t (idt <$> objs) (home (length t) p) (pID p) Hh) as (k1 & Hk1 & Hp & Hst & Hmin).
  { exists k. split; [done|]. rewrite Hks. unfold stops. by rewrite Hs. }
  exists k1. split; [done|]. cbn zeta. split; [|split; [done|]].
  - intros k' Hk' He. specialize (Hmin k' Hk'). unfold stops in Hmin. by rewrite He in Hmin.
  - assert ((home (length t) p + k1) mod length t < length t)%nat as Hlen by (apply Nat.mod_upper_bound; lia). apply lookup_lt_is_Some_2 in Hlen as [v Hv].
    unfold stops in Hst. rewrite Hv in *. destruct v as [|j].
    + intros (q & Hq & [j Hj]%list_elem_of_lookup)%list_elem_of_fmap. destruct (tv_found _ _ Ht j q Hj) as (k2 & Hk2 & Hf & Hne). assert (home (length t) q = home (length t) p) as Hhome by (unfold home; by rewrite Hq).
      rewrite Hhome in *. destruct (decide (k1 < k2)%nat) as [Hlt2|Hge]; [by apply (Hne k1 Hlt2)|]. destruct (decide (k1 = k2)) as [->|Hneq]; [congruence|].
      specialize (Hmin k2 ltac:(lia)). unfold stops in Hmin. rewrite Hf, list_lookup_fmap, Hj in Hmin. cbn in Hmin. by rewrite bool_decide_eq_true_2 in Hmin.
    + assert (j < length objs)%nat as Hj by (by eapply tv_range). apply lookup_lt_is_Some_2 in Hj as [q Hq]. exists q. split; [done|].
      rewrite list_lookup_fmap, Hq in Hst. cbn in Hst. by apply bool_decide_eq_true in Hst.
Qed.

Lemma table_replace t objs j q p :
  table_inv t objs → objs !! j = Some q → pID q = pID p → table_inv t (<[j := p]> objs).
Proof.
  intros [H1 H2 H3] Hj Hid. split; rewrite ?length_insert; [done| |done]. intros i x Hx. apply list_lookup_insert_Some in Hx as [(-> & <- & _)|[_ Hx]]; [|by apply H2].
  destruct (H2 i q Hj) as (k & Hk & Hf). exists k. assert (home (length t) p = home (length t) q) as -> by (unfold home; by rewrite Hid). done.
Qed.

Lemma table_append t objs p k :
  let s := ((home (length t) p + k) mod length t)%nat in
  table_inv t objs → (k < length t)%nat → t !! s = Some 0%nat → (∀ k', (k' < k)%nat → t !! ((home (length t) p + k') mod length t)%nat ≠ Some 0%nat) →
  table_inv (<[s := S (length objs)]> t) (objs ++ [p]).
Proof.
  intros s [H1 H2 H3] Hk Hs Hk'. assert (s < length t)%nat as Hlt by (by eapply lookup_lt_Some). split; rewrite ?length_insert, ?length_app; cbn.
  - intros s' j Hj. apply list_lookup_insert_Some in Hj as [(_ & [= ->] & _)|[_ Hj]]; [lia|]. specialize (H1 s' j Hj). lia.
  - assert (∀ s', t !! s' ≠ Some 0%nat → <[s := S (length objs)]> t !! s' ≠ Some 0%nat) as Hkeep.
    { intros s' Hne. destruct (decide (s = s')) as [<-|Hd]; [by rewrite list_lookup_insert_eq|by rewrite list_lookup_insert_ne]. }
    intros j q Hj. apply lookup_app_Some in Hj as [Hj|[Hge Hj]].
    + destruct (H2 j q Hj) as (k2 & Hk2 & Hf & Hne). exists k2. split_and!; [done| |intros x Hx; by apply Hkeep, Hne].
      rewrite list_lookup_insert_ne; [done|]. intros He. rewrite <- He in Hf. congruence.
    + destruct (j - length objs)%nat as [|d] eqn:Ed; [|done]. injection Hj as <-. replace j with (length objs) in * by lia. exists k. split_and!; [done| |intros x Hx; by apply Hkeep, Hk'].
      by apply list_lookup_insert_eq.
  - rewrite filter_insert_used by done. rewrite H3. lia.
Qed.

(** ** One policy for each identifier *)

Definition opaques (objs : list Policy) : Z := zsum (λ p, if bool_decide (identity_of p = 0) then 1 else 0) objs.

Lemma opaques_zero objs : opaques objs = 0 → Forall (λ p, identity_of p ≠ 0) objs.
Proof.
  unfold opaques. set (f := λ p : Policy, if bool_decide (identity_of p = 0) then 1 else 0). induction objs as [|p objs IH]; [done|].
  change (zsum f (p :: objs)) with (f p + zsum f objs). intros Hz.
  assert (∀ q, 0 ≤ f q) as Hf. { intros q. subst f. cbn beta. destruct (bool_decide _); done. }
  pose proof (zsum_nonneg f objs Hf) as Hnn. pose proof (Hf p) as Hp. constructor; [|apply IH; lia].
  intros Hid. assert (f p = 1) as H1 by (subst f; cbn beta; by rewrite bool_decide_eq_true_2). lia.
Qed.

Record norm_inv (capacity : nat) (done_ : list Policy) (n : normalizing) : Prop := {
  nv_overflow m : overflow n = Some m → m = describePolicy <$> policies_map done_;
  nv_table : overflow n = None → table_inv (table n) (objects n);
  nv_size : overflow n = None → length (table n) = (2 * capacity)%nat ∧ (length (objects n) ≤ capacity)%nat;
  nv_identities : overflow n = None → identities n = idt <$> objects n;
  nv_nodup : overflow n = None → NoDup (pID <$> objects n);
  nv_use : overflow n = None → Forall (λ p, p ∈ U) (objects n);
  nv_map : overflow n = None → policies_map (objects n) = policies_map done_;
  nv_opaque : overflow n = None → nOpaque n = opaques (objects n)
}.

Lemma entries_of_identities (objs : list Policy) : zip_with entryFromIdentity (idt <$> objs) objs = describePolicy <$> objs.
Proof.
  induction objs as [|p objs IH]; [done|]. cbn. f_equal; [|exact IH]. unfold entryFromIdentity, describePolicy, idt, identity_of. cbn. destruct (describes p) as [d|]; cbn; [|done].
  by destruct (bool_decide_reflect (PolicyIdentity d = 0)) as [->|]; [|rewrite bool_decide_eq_true_2 by done].
Qed.

Lemma entries_map objs : foldl (λ m e, <[eid e := e]> m) (∅ : gmap ID policyEntry) (describePolicy <$> objs) = describePolicy <$> policies_map objs.
Proof.
  unfold policies_map. rewrite <- (fmap_empty (M := gmap ID) describePolicy). generalize (∅ : gmap ID Policy). induction objs as [|p objs IH]; intros m; [done|]. cbn. by rewrite <- IH, fmap_insert, describe_eid.
Qed.

Lemma policies_map_insert objs j q p : NoDup (pID <$> objs) → objs !! j = Some q → pID q = pID p → policies_map (<[j := p]> objs) = <[pID p := p]> (policies_map objs).
Proof.
  intros Hn Hj Hid. assert (pID <$> <[j := p]> objs = pID <$> objs) as Hids by (rewrite list_fmap_insert, list_insert_id; [done|]; rewrite list_lookup_fmap, Hj; cbn; by f_equal).
  rewrite !policies_map_distinct by (by rewrite ?Hids). apply map_eq. intros id. apply option_eq. intros x.
  rewrite map_of_lookup by (by rewrite eid_describe, Hids). rewrite lookup_insert_Some, map_of_lookup by (by rewrite eid_describe).
  setoid_rewrite list_elem_of_fmap. split.
  - intros (e & (y & -> & Hy) & He & Hx). rewrite describe_eid in He. rewrite describe_policy in Hx. subst. apply list_elem_of_lookup in Hy as [i Hi].
    apply list_lookup_insert_Some in Hi as [(-> & <- & _)|[Hne Hi]]; [by left|]. right. split.
    + intros He. apply Hne. apply (NoDup_lookup (pID <$> objs) j i (pID p)); [done|rewrite list_lookup_fmap, Hj; cbn; by f_equal|rewrite list_lookup_fmap, Hi; cbn; by f_equal].
    + exists (describePolicy x). rewrite describe_eid, describe_policy. split_and!; [|done|done]. exists x. split; [done|]. by eapply list_elem_of_lookup_2.
  - intros [[<- <-]|[Hne (e & (y & -> & Hy) & He & Hx)]].
    + exists (describePolicy p). rewrite describe_eid, describe_policy. split_and!; [|done|done]. exists p. split; [done|]. apply (list_elem_of_lookup_2 _ j).
      apply list_lookup_insert_eq. by eapply lookup_lt_Some.
    + rewrite describe_eid in He. rewrite describe_policy in Hx. subst. exists (describePolicy x). rewrite describe_eid, describe_policy. split_and!; [|done|done]. exists x. split; [done|].
      apply list_elem_of_lookup in Hy as [i Hi]. apply (list_elem_of_lookup_2 _ i). rewrite list_lookup_insert_ne; [done|]. intros ->. congruence.
Qed.

Lemma policies_map_snoc ps p : policies_map (ps ++ [p]) = <[pID p := p]> (policies_map ps).
Proof. by rewrite policies_map_app. Qed.

Lemma norm_overflow capacity done_ n m p :
  overflow n = Some m → m = describePolicy <$> policies_map (done_ ++ [p]) → norm_inv capacity (done_ ++ [p]) n.
Proof. intros Ho Hm. split; rewrite Ho; try done. by intros m' [= <-]. Qed.

Lemma normalize_step_inv capacity done_ n p : (0 < capacity)%nat → p ∈ U → norm_inv capacity done_ n → norm_inv capacity (done_ ++ [p]) (normalize_step capacity n p).
Proof.
  intros Hcap Hp [H1 H2 H3 H4 H5 H6 H7 H8]. unfold normalize_step. rewrite describe_eid, describe_identity. destruct (overflow n) as [m|] eqn:Eo.
  { eapply norm_overflow; [done|]. by rewrite (H1 m eq_refl), policies_map_snoc, fmap_insert. }
  specialize (H2 eq_refl). destruct (H3 eq_refl) as [Hlen Hsize]. rewrite (H4 eq_refl). specialize (H5 eq_refl). specialize (H6 eq_refl). specialize (H7 eq_refl). specialize (H8 eq_refl).
  destruct (probe_ends (table n) (objects n) p H2 H5 ltac:(lia)) as (k & Hk & Hbefore & Hends). cbn zeta in Hends. destruct Hends as [Hprobe Hends].
  fold (home (length (table n)) p). rewrite Hprobe. set (s := ((home (length (table n)) p + k) mod length (table n))%nat) in *. destruct (table n !! s) as [[|j]|] eqn:Es; [| |done]; cbn [default from_option id].
  - rewrite length_fmap. case_bool_decide as Hfull.
    + eapply norm_overflow; [done|]. by rewrite entries_of_identities, entries_map, H7, policies_map_snoc, fmap_insert.
    + split; cbn [overflow table objects identities nOpaque]; intros; try done.
      * by apply (table_append (table n) (objects n) p k).
      * rewrite length_insert, length_app. cbn. lia.
      * by rewrite fmap_app.
      * rewrite fmap_app. apply NoDup_app. split_and!; [done| |apply NoDup_singleton]. intros x Hx ->%list_elem_of_singleton. done.
      * apply Forall_app. split; [done|by apply Forall_singleton].
      * by rewrite !policies_map_snoc, H7.
      * unfold opaques. rewrite zsum_app, H8. unfold opaques. cbn. lia.
  - destruct Hends as (q & Hq & Hid). rewrite list_lookup_fmap, Hq. cbn [fmap option_fmap option_map from_option snd idt].
    split; cbn [overflow table objects identities nOpaque]; intros; try done.
    + by eapply table_replace.
    + by rewrite length_insert.
    + by rewrite list_fmap_insert.
    + rewrite list_fmap_insert, list_insert_id; [done|]. rewrite list_lookup_fmap, Hq. cbn. by f_equal.
    + by apply Forall_insert.
    + by rewrite (policies_map_insert _ j q), H7, policies_map_snoc.
    + unfold opaques. rewrite (zsum_insert _ _ _ q) by done. rewrite H8. done.
Qed.

Lemma normalize_inv capacity ps :
  (0 < capacity)%nat → Forall (λ p, p ∈ U) ps →
  norm_inv capacity ps (foldl (normalize_step capacity) (mkNormalizing [] [] (replicate (2 * capacity) 0%nat) 0 0 None) ps).
Proof.
  intros Hcap. rewrite <- (reverse_involutive ps). induction (reverse ps) as [|p k IH]; intros Hps.
  - rewrite reverse_nil. split; cbn [overflow table objects identities nOpaque foldl]; intros; try done; [| |apply NoDup_nil_2].
    + split; [intros s j Hs; by apply lookup_replicate in Hs as [[=] _]|done|]. cbn. generalize (capacity + (capacity + 0))%nat. intros x. induction x; [done|]. cbn. done.
    + rewrite length_replicate. cbn. lia.
  - rewrite reverse_cons, foldl_app in *. apply Forall_app in Hps as [Hk Hp]. apply normalize_step_inv; [done|by inversion Hp|by apply IH].
Qed.

Lemma normalizeList_made st capacity ps : store_ok st → (0 < capacity)%nat → Forall (λ p, p ∈ U) ps → made st ps (normalizeList st capacity ps).
Proof.
  intros Hst Hcap Hps. unfold normalizeList. pose proof (normalize_inv capacity ps Hcap Hps) as [H1 H2 H3 H4 H5 H6 H7 H8]. revert H1 H2 H3 H4 H5 H6 H7 H8.
  generalize (foldl (normalize_step capacity) (mkNormalizing [] [] (replicate (2 * capacity) 0%nat) 0 0 None) ps). intros n H1 H2 H3 H4 H5 H6 H7 H8.
  destruct (overflow n) as [m|] eqn:Eo.
  - specialize (H1 m eq_refl). subst m. assert (∀ e id, (id, e) ∈ map_to_list (describePolicy <$> policies_map ps) → good e ∧ eid e = id ∧ policies_map ps !! id = Some (policy e)) as Hin.
    { intros e id He%elem_of_map_to_list. rewrite lookup_fmap in He. apply fmap_Some in He as (p & Hp & ->). rewrite describe_policy, describe_eid.
      assert (p ∈ ps ∧ pID p = id) as [Hpin Hpid].
      { clear -Hp. unfold policies_map in Hp. revert Hp. rewrite <- (reverse_involutive ps). induction (reverse ps) as [|x k IH]; [by rewrite reverse_nil; cbn; rewrite lookup_empty|].
        rewrite reverse_cons, foldl_app. cbn. rewrite lookup_insert_Some. intros [[<- <-]|[_ Hp]]; [set_solver|]. destruct (IH Hp). set_solver. }
      rewrite Forall_forall in Hps. split_and!; [by apply describe_good, Hps|done|done]. }
    set (es := shuffle _ (map_to_list (describePolicy <$> policies_map ps)).*2). assert (es ≡ₚ (map_to_list (describePolicy <$> policies_map ps)).*2) as Hperm by apply shuffle_perm.
    assert (eid <$> (map_to_list (describePolicy <$> policies_map ps)).*2 = (map_to_list (describePolicy <$> policies_map ps)).*1) as Hids.
    { rewrite <- list_fmap_compose. apply list_fmap_ext. intros i [id e] He%list_elem_of_lookup_2. by apply Hin in He as (_ & ? & _). }
    assert (NoDup (eid <$> es)) as Hn by (rewrite Hperm, Hids; apply NoDup_fst_map_to_list).
    apply alloc_made; [done| |done|].
    + rewrite Hperm. apply Forall_fmap, Forall_forall. intros [id e] He. apply (Hin _ _ He).
    + rewrite (map_of_perm es _ Hn Hperm). apply map_eq. intros id. apply option_eq. intros p. rewrite map_of_lookup by (by rewrite <- Hperm). split.
      * intros (e & ([id' e'] & -> & He)%list_elem_of_fmap & <- & <-). by apply Hin in He as (_ & <- & ?).
      * intros Hp. exists (describePolicy p). assert ((id, describePolicy p) ∈ map_to_list (describePolicy <$> policies_map ps)) as He by (apply elem_of_map_to_list; by rewrite lookup_fmap, Hp).
        split_and!; [by apply (list_elem_of_fmap_2 snd) in He|by apply Hin in He as (_ & ? & _)|apply describe_policy].
  - specialize (H4 eq_refl). specialize (H5 eq_refl). specialize (H6 eq_refl). specialize (H7 eq_refl). specialize (H8 eq_refl). rewrite H4.
    assert (∀ r, made st (objects n) r → made st ps r) as Hmade by (unfold made; by rewrite H7). case_bool_decide as Hz; apply Hmade.
    + rewrite H8 in Hz. apply opaques_zero in Hz. apply intern_made; [done| |done]. apply Forall_forall. intros p Hp. rewrite Forall_forall in H6, Hz. auto.
    + rewrite entries_of_identities. apply alloc_made; [done| |by rewrite eid_describe|by rewrite policies_map_distinct]. apply Forall_fmap. eapply Forall_impl; [exact H6|]. intros p Hp. by apply describe_good.
Qed.

Lemma fromEntry_made st p : store_ok st → p ∈ U → made st [p] (fromEntry st (describePolicy p)).
Proof.
  intros Hst Hp. unfold fromEntry. rewrite describe_identity, describe_eid, describe_policy. case_bool_decide as Hz.
  - apply alloc_made; [done|apply Forall_singleton; by apply describe_good|apply NoDup_singleton|]. cbn. by rewrite describe_eid, describe_policy.
  - apply (intern_made st _ [p]); [done|by apply Forall_singleton|apply NoDup_singleton].
Qed.

Lemma fromList_made st ps : store_ok st → Forall (λ p, p ∈ U) ps → made st ps (fromList st ps).
Proof.
  intros Hst Hps. assert (made st ps (normalizeList st (capacity_for (length ps)) ps)) as Hn.
  { apply normalizeList_made; [done| |done]. unfold capacity_for. repeat case_bool_decide; lia. }
  destruct ps as [|p [|q ps]]; [done| |done]. apply fromEntry_made; [done|]. by inversion Hps.
Qed.

(** ** Scopes as maps *)

Record scope_ok (st : store) (s : scope) : Prop := {
  sc_valid : Forall (valid st) s;
  sc_nodup : NoDup (eid <$> entries st s);
  sc_length : (length s ≤ maxScopeSegments)%nat
}.

Definition abs (st : store) (s : scope) : gmap ID Policy := map_of (entries st s).

Lemma entries_app st a b : entries st (a ++ b) = entries st a ++ entries st b.
Proof. apply bind_app. Qed.

Lemma entries_single st ptr : entries st [ptr] = ordered (seg_at st ptr).
Proof. cbn. by rewrite app_nil_r. Qed.

Lemma entries_ext st st' s : ext st st' → Forall (valid st) s → entries st' s = entries st s.
Proof. intros He. induction 1 as [|ptr s Hp _ IH]; [done|]. cbn. destruct (ext_seg _ _ _ He Hp) as [-> _]. by f_equal. Qed.

Lemma valid_ext st st' s : ext st st' → Forall (valid st) s → Forall (valid st') s.
Proof. intros He Hv. eapply Forall_impl; [exact Hv|]. intros ptr. by apply ext_valid. Qed.

Lemma scope_ext st st' s : ext st st' → scope_ok st s → scope_ok st' s ∧ abs st' s = abs st s.
Proof.
  intros He [H1 H2 H3]. unfold abs. rewrite (entries_ext st st') by done. split; [|done]. split; [by eapply valid_ext|by rewrite (entries_ext st)|done].
Qed.

Lemma entry_ext st st' s id : ext st st' → Forall (valid st) s → entry st' s id = entry st s id.
Proof. intros He. induction 1 as [|ptr s Hp _ IH]; [done|]. cbn. destruct (ext_seg _ _ _ He Hp) as [-> ->]. by rewrite IH. Qed.

Lemma entries_good st s : store_ok st → Forall (valid st) s → Forall good (entries st s).
Proof.
  intros Hst. induction 1 as [|ptr s Hp _ IH]; [done|]. cbn. apply Forall_app. split; [|done]. by apply so_good, seg_at_ok.
Qed.

Lemma entry_spec st s id : store_ok st → Forall (valid st) s →
  match entry st s id with Some e => e ∈ entries st s ∧ eid e = id | None => id ∉ eid <$> entries st s end.
Proof.
  intros Hst. induction 1 as [|ptr s Hp _ IH]; [by intros ?%elem_of_nil|]. cbn. pose proof (so_index _ (seg_at_ok _ _ Hst Hp) id) as Hix.
  destruct (byID (seg_at st ptr) !! id) as [i|].
  - destruct (proj1 (Hix i) eq_refl) as (e & He & Hid). rewrite He. split; [|done]. apply elem_of_app. left. by eapply list_elem_of_lookup_2.
  - destruct (entry st s id) as [e|]; [destruct IH; split; [apply elem_of_app; by right|done]|]. rewrite fmap_app, elem_of_app. intros [Hin|Hin]; [|done].
    apply list_elem_of_fmap in Hin as (e & -> & [i Hi]%list_elem_of_lookup). assert (None = Some i) as [=] by (apply Hix; eauto).
Qed.

Lemma abs_lookup st s id : store_ok st → scope_ok st s → abs st s !! id = policy <$> entry st s id.
Proof.
  intros Hst [H1 H2 _]. pose proof (entry_spec st s id Hst H1) as He. destruct (entry st s id) as [e|].
  - apply map_of_lookup; [done|]. destruct He. eauto.
  - apply eq_None_not_Some. intros [p Hp]. apply map_of_lookup in Hp as (e & Hin & <- & _); [|done]. apply He. by apply list_elem_of_fmap_2.
Qed.

Lemma Contains_spec st s id : store_ok st → scope_ok st s → Contains st s id = bool_decide (is_Some (abs st s !! id)).
Proof. intros Hst Hs. unfold Contains. apply bool_decide_ext. rewrite (abs_lookup st s id Hst Hs). by rewrite fmap_is_Some. Qed.

Lemma map_of_app a b : map_of (a ++ b) = map_of a ∪ map_of b.
Proof. unfold map_of. by rewrite fmap_app, list_to_map_app. Qed.

(** Entries with the same map in the place of others *)
Lemma map_of_keys_in (b : list policyEntry) id : NoDup (eid <$> b) → id ∈ eid <$> b ↔ is_Some (map_of b !! id).
Proof.
  intros Hn. rewrite list_elem_of_fmap. split.
  - intros (e & -> & He). exists (policy e). apply map_of_lookup; eauto.
  - intros [p Hp]. apply map_of_lookup in Hp as (e & He & <- & _); eauto.
Qed.

Lemma map_of_replace (a b b' c : list policyEntry) :
  NoDup (eid <$> a ++ b ++ c) → NoDup (eid <$> b') → map_of b' = map_of b → NoDup (eid <$> a ++ b' ++ c) ∧ map_of (a ++ b' ++ c) = map_of (a ++ b ++ c).
Proof.
  intros Hn Hb' Hm. split; [|by rewrite !map_of_app, Hm]. rewrite !fmap_app in *. rewrite !NoDup_app in *. setoid_rewrite elem_of_app in Hn. setoid_rewrite elem_of_app.
  destruct Hn as (Ha & Hab & Hb & Hbc & Hc). assert (∀ id, id ∈ eid <$> b' ↔ id ∈ eid <$> b) as Hsame by (intros id; by rewrite !map_of_keys_in, Hm by done).
  split_and!; [done| |done| |done]; intros id; rewrite Hsame; [apply Hab|apply Hbc].
Qed.

(** The outcome of an operation on scopes *)
Definition yields (st : store) (m : gmap ID Policy) (r : store * scope) : Prop :=
  store_ok r.1 ∧ ext st r.1 ∧ scope_ok r.1 r.2 ∧ abs r.1 r.2 = m.

Lemma made_scope st ps r : made st ps r → yields st (policies_map ps) (r.1, [r.2]).
Proof.
  intros (H1 & H2 & H3 & H4). split_and!; [done|done| |]; cbn [fst snd].
  - split; [by apply Forall_singleton|rewrite entries_single; by apply so_nodup, seg_at_ok|unfold maxScopeSegments; cbn; lia].
  - unfold abs. by rewrite entries_single.
Qed.

Lemma makeScope_yields st ps : store_ok st → Forall (λ p, p ∈ U) ps → yields st (policies_map ps) (makeScope st ps).
Proof. intros Hst Hps. pose proof (made_scope _ _ _ (fromList_made st ps Hst Hps)) as Hm. unfold makeScope. by destruct (fromList st ps). Qed.

Lemma Policies_use st s : store_ok st → Forall (valid st) s → Forall (λ p, p ∈ U) (Policies st s).
Proof. intros Hst Hv. apply Forall_fmap. eapply Forall_impl; [by apply entries_good|]. by intros e []. Qed.

Lemma policies_of_good es : Forall good es → describePolicy <$> (policy <$> es) = es.
Proof. induction 1 as [|e es [He _] _ IH]; [done|]. cbn. by rewrite <- He, IH. Qed.

Lemma pID_policies es : Forall good es → pID <$> (policy <$> es) = eid <$> es.
Proof. induction 1 as [|e es He _ IH]; [done|]. cbn. by rewrite (good_eid e He), IH. Qed.

Lemma policies_map_entries es : Forall good es → NoDup (eid <$> es) → policies_map (policy <$> es) = map_of es.
Proof. intros Hg Hn. by rewrite policies_map_distinct, policies_of_good by (by rewrite ?pID_policies). Qed.

Lemma yields_trans st st' m r : ext st st' → yields st' m r → yields st m r.
Proof. intros He (H1 & H2 & H3 & H4). split_and!; [done|by etrans|done..]. Qed.

Lemma yields_same st s : store_ok st → scope_ok st s → yields st (abs st s) (st, s).
Proof. intros Hst Hs. by split_and!. Qed.

Lemma compact_yields st s : store_ok st → Forall (valid st) s → NoDup (eid <$> entries st s) → yields st (abs st s) (compact st s).
Proof.
  intros Hst Hv Hn. unfold compact. pose proof (entries_good st s Hst Hv) as Hg. case_bool_decide as Hl.
  { unfold abs. rewrite <- policies_map_entries by done. apply makeScope_yields; [done|by apply Policies_use]. }
  match goal with |- context [bool_decide (0 < length (Policies st ?x))%nat] => set (small := x) end.
  match type of Hl with context [length ?x] => set (large := x) in * end.
  assert (entries st s ≡ₚ entries st large ++ entries st small) as Hperm.
  { subst large small. clear. induction s as [|ptr s IH]; [done|]. rewrite !filter_cons. cbn [entries mbind list_bind]. change (list_bind _ _ _ s) with (entries st s).
    destruct (is_large st ptr) eqn:E; [rewrite decide_True, decide_False by done|rewrite decide_False, decide_True by done]; rewrite IH; cbn; [by rewrite <- app_assoc|].
    change (s0 ← ?x; ?f) with (entries st x). by rewrite Permutation_app_swap_app. }
  assert (Forall (valid st) large ∧ Forall (valid st) small) as [Hvl Hvs] by (rewrite Forall_forall in Hv; split; apply Forall_forall; intros ptr [_ Hin]%list_elem_of_filter; auto).
  assert (NoDup (eid <$> entries st large ++ entries st small)) as Hn' by (by rewrite <- Hperm).
  assert (abs st s = map_of (entries st large ++ entries st small)) as Habs by (by apply map_of_perm). rewrite Habs.
  assert (NoDup (eid <$> entries st small)) as Hns by (rewrite fmap_app in Hn'; by apply NoDup_app in Hn' as (_ & _ & ?)).
  case_bool_decide as Hp.
  - pose proof (fromList_made st (Policies st small) Hst (Policies_use st small Hst Hvs)) as Hm. destruct (fromList st (Policies st small)) as [st' ptr]. destruct Hm as (H1 & H2 & H3 & H4). cbn [fst snd] in *.
    unfold Policies in H4. rewrite policies_map_entries in H4 by (try done; by apply entries_good).
    destruct (map_of_replace (entries st large) (entries st small) (ordered (seg_at st' ptr)) []) as [Ha Hb]; [by rewrite app_nil_r|by apply so_nodup, seg_at_ok|done|]. rewrite !app_nil_r in *.
    assert (entries st' (large ++ [ptr]) = entries st large ++ ordered (seg_at st' ptr)) as He by (by rewrite entries_app, entries_single, (entries_ext st st')).
    split_and!; [done|done| |unfold abs; cbn [fst snd]; by rewrite He]. split; cbn [fst snd]; [apply Forall_app; split; [by eapply valid_ext|by apply Forall_singleton]|by rewrite He|].
    rewrite length_app. unfold maxLargeSegments, maxScopeSegments in *. cbn. lia.
  - assert (entries st small = []) as He. { unfold Policies in Hp. rewrite length_fmap in Hp. destruct (entries st small); [done|cbn in Hp; lia]. }
    rewrite He, app_nil_r in *. split_and!; [done|done| |done]. split; cbn [fst snd]; [done|done|]. unfold maxLargeSegments, maxScopeSegments in *. lia.
Qed.

Lemma appendSegments_yields st s added :
  store_ok st → scope_ok st s → Forall (valid st) added → NoDup (eid <$> entries st s ++ entries st added) → yields st (abs st s ∪ abs st added) (appendSegments st s added).
Proof.
  intros Hst Hs Hv Hn. unfold appendSegments. assert (abs st s ∪ abs st added = abs st (s ++ added)) as Habs by (unfold abs; by rewrite entries_app, map_of_app).
  destruct added as [|a rest]; [rewrite app_nil_r in Habs; rewrite Habs; by apply yields_same|]. case_bool_decide as Hsp.
  - destruct Hsp as (Hl & Ho & ->). destruct s as [|x [|y s]]; try done. cbn [head default from_option id] in Ho. apply nil_length_inv in Ho.
    assert (entries st [x] = []) as He by (by rewrite entries_single). rewrite He in Hn. rewrite Habs. cbn [app]. split_and!; [done|done| |unfold abs; cbn [fst snd]; by rewrite (entries_app st [x] [a] : entries st [x; a] = _), He].
    split; [done|done|unfold maxScopeSegments; cbn; lia].
  - rewrite Habs. rewrite <- entries_app in Hn. assert (Forall (valid st) (s ++ a :: rest)) as Hv' by (apply Forall_app; split; [apply Hs|done]).
    case_bool_decide; [by apply compact_yields|]. apply yields_same; [done|]. split; [done|done|]. lia.
Qed.

Lemma With_yields st s p : store_ok st → scope_ok st s → p ∈ U → yields st (<[pID p := p]> (abs st s)) (With st s p).
Proof.
  intros Hst Hs Hp. unfold With. rewrite describe_eid, describe_identity. pose proof (entry_spec st s (pID p) Hst (sc_valid _ _ Hs)) as He. pose proof (entries_good st s Hst (sc_valid _ _ Hs)) as Hg.
  pose proof (abs_lookup st s (pID p) Hst Hs) as Hl. destruct (entry st s (pID p)) as [x|].
  - case_bool_decide as Hid.
    + destruct He as [Hx Hxid], Hid as [Hid1 Hid2]. rewrite Forall_forall in Hg. specialize (Hg x Hx). rewrite (good_identity x Hg) in Hid2.
      assert (policy x = p) as Hxp by (symmetry; apply U_identity; [done|apply Hg|done|done]). rewrite insert_id; [by apply yields_same|]. rewrite Hl. cbn. by rewrite Hxp.
    + assert (<[pID p := p]> (abs st s) = policies_map (Policies st s ++ [p])) as ->.
      { rewrite policies_map_snoc. unfold Policies, abs. by rewrite policies_map_entries by (try done; apply Hs). }
      apply makeScope_yields; [done|]. apply Forall_app. split; [by apply Policies_use, sc_valid|by apply Forall_singleton].
  - pose proof (fromEntry_made st p Hst Hp) as Hm. destruct (fromEntry st (describePolicy p)) as [st' ptr]. destruct Hm as (H1 & H2 & H3 & H4). cbn [fst snd] in *.
    destruct (scope_ext st st' s H2 Hs) as [Hs' Habs]. assert (map_of (ordered (seg_at st' ptr)) = {[pID p := p]}) as Hsing by (by rewrite H4).
    assert (yields st' (abs st' s ∪ abs st' [ptr]) (appendSegments st' s [ptr])) as Hy.
    { apply appendSegments_yields; [done|done|by apply Forall_singleton|]. rewrite entries_single, fmap_app, (entries_ext st st') by (try done; apply Hs). apply NoDup_app. split_and!; [apply Hs| |by apply so_nodup, seg_at_ok].
      intros id Hin Hid. apply map_of_keys_in in Hid; [|by apply so_nodup, seg_at_ok]. rewrite Hsing in Hid. apply lookup_singleton_is_Some in Hid as <-. done. }
    eapply yields_trans; [done|]. replace (<[pID p := p]> (abs st s)) with (abs st' s ∪ abs st' [ptr]); [done|]. unfold abs at 2. rewrite entries_single, Hsing, Habs.
    symmetry. by apply insert_union_singleton_r.
Qed.

(** *** Merging scopes *)

Lemma filter_nodup (P : policyEntry → Prop) `{∀ x, Decision (P x)} (es : list policyEntry) : NoDup (eid <$> es) → NoDup (eid <$> base.filter P es).
Proof.
  intros Hn. induction es as [|e o IH]; [done|]. cbn in Hn. apply NoDup_cons in Hn as [He Hn]. rewrite filter_cons. case_decide; [|by apply IH].
  cbn. apply NoDup_cons. split; [|by apply IH]. intros (x & Hx & [_ Hin]%list_elem_of_filter)%list_elem_of_fmap. apply He. rewrite Hx. by apply list_elem_of_fmap_2.
Qed.

(** The policies of the added scope that the first one does not have *)
Definition lacks (st : store) (s : scope) (e : policyEntry) : Prop := entry st s (eid e) = None.

#[local] Instance lacks_dec st s e : Decision (lacks st s e).
Proof. unfold lacks. apply _. Defined.

Lemma merge_parts_spec st s added segments done_ :
  store_ok st → scope_ok st s → Forall (valid st) added → Forall (valid st) segments →
  NoDup (eid <$> entries st s ++ entries st segments) → NoDup (eid <$> done_ ++ entries st added) →
  map_of (entries st segments) = map_of (base.filter (lacks st s) done_) →
  (∀ e x, e ∈ done_ → entry st s (eid e) = Some x → identity e ≠ 0 ∧ identity e = identity x) →
  let '(st', r) := merge_parts st s added segments in
  store_ok st' ∧ ext st st' ∧
  match r with
  | None => True
  | Some segs => Forall (valid st') segs ∧ NoDup (eid <$> entries st' s ++ entries st' segs) ∧
      map_of (entries st' segs) = map_of (base.filter (lacks st s) (done_ ++ entries st added)) ∧
      (∀ e x, e ∈ done_ ++ entries st added → entry st s (eid e) = Some x → identity e ≠ 0 ∧ identity e = identity x)
  end.
Proof.
  intros Hst Hs. revert st segments done_ Hst Hs. induction added as [|part added IH]; intros st segments done_ Hst Hs Hva Hvs Hn1 Hn2 Hm Hc; cbn [merge_parts].
  { rewrite app_nil_r. done. }
  apply Forall_cons in Hva as [Hvp Hva]. set (o := ordered (seg_at st part)). set (conf := existsb _ o). destruct conf eqn:Econf; [done|].
  change (entries st (part :: added)) with (o ++ entries st added) in *. rewrite app_assoc in *.
  assert (∀ e x, e ∈ done_ ++ o → entry st s (eid e) = Some x → identity e ≠ 0 ∧ identity e = identity x) as Hc'.
  { intros e x [Hin|Hin]%elem_of_app Hx; [by eapply Hc|]. subst conf. apply not_true_iff_false in Econf. rewrite existsb_exists in Econf.
    destruct (decide (identity e = 0 ∨ identity e ≠ identity x)) as [Hd|Hd]; [|split; [tauto|]; destruct (decide (identity e = identity x)); tauto].
    exfalso. apply Econf. exists e. split; [by apply list_elem_of_In|]. rewrite Hx. by apply bool_decide_eq_true_2. }
  set (fresh := base.filter (λ e, entry st s (eid e) = None) o). assert (fresh = base.filter (lacks st s) o) as Hfr by (apply list_filter_iff; done).
  assert (base.filter (lacks st s) (done_ ++ o) = base.filter (lacks st s) done_ ++ fresh) as Hfil by (by rewrite filter_app, Hfr).
  assert (Forall good o) as Hgo by (by apply so_good, seg_at_ok). assert (Forall good fresh) as Hgf by (rewrite Forall_forall in *; intros e [_ He]%list_elem_of_filter; auto).
  assert (NoDup (eid <$> fresh)) as Hnf.
  { by apply filter_nodup, so_nodup, seg_at_ok. }
  (* the segments with the fresh policies of the part *)
  assert (∀ st' more, store_ok st' → ext st st' → Forall (valid st') more → NoDup (eid <$> entries st' more) → map_of (entries st' more) = map_of fresh →
    let '(st'', r) := merge_parts st' s added (segments ++ more) in
    store_ok st'' ∧ ext st st'' ∧ match r with
    | None => True
    | Some segs => Forall (valid st'') segs ∧ NoDup (eid <$> entries st'' s ++ entries st'' segs) ∧
        map_of (entries st'' segs) = map_of (base.filter (lacks st s) ((done_ ++ o) ++ entries st added)) ∧
        (∀ e x, e ∈ (done_ ++ o) ++ entries st added → entry st s (eid e) = Some x → identity e ≠ 0 ∧ identity e = identity x) end) as Hgo2.
  { intros st' more Hst' He Hvm Hnm Hmm. destruct (scope_ext st st' s He Hs) as [Hs' _]. assert (∀ id, entry st' s id = entry st s id) as Hen by (intros id; apply entry_ext; [done|apply Hs]).
    assert (entries st' added = entries st added) as Hea by (by apply entries_ext). assert (entries st' segments = entries st segments) as Hes by (by apply entries_ext).
    assert (entries st' s = entries st s) as Hess by (apply entries_ext; [done|apply Hs]).
    assert (∀ es, base.filter (lacks st' s) es = base.filter (lacks st s) es) as Hlk by (intros es; apply list_filter_iff; intros e; unfold lacks; by rewrite Hen).
    specialize (IH st' (segments ++ more) (done_ ++ o) Hst' Hs'). destruct (merge_parts st' s added (segments ++ more)) as [st'' r]. destruct IH as (I1 & I2 & I3).
    - by eapply valid_ext.
    - apply Forall_app. split; [by eapply valid_ext|done].
    - rewrite entries_app, Hes, Hess, app_assoc, fmap_app. apply NoDup_app. split_and!; [done| |done]. intros id Hin Hid.
      rewrite map_of_keys_in, Hmm, <- map_of_keys_in in Hid by done. apply list_elem_of_fmap in Hid as (e & -> & He2). pose proof He2 as [Hnone Heo]%list_elem_of_filter.
      rewrite fmap_app, elem_of_app in Hin. destruct Hin as [Hin|Hin].
      + pose proof (entry_spec st s (eid e) Hst (sc_valid _ _ Hs)) as Hsp. rewrite Hnone in Hsp. done.
      + rewrite map_of_keys_in, Hm in Hin by (rewrite fmap_app in Hn1; by apply NoDup_app in Hn1 as (_ & _ & ?)). destruct Hin as [q Hq].
        assert (NoDup (eid <$> done_ ++ o)) as Hdo by (rewrite fmap_app in Hn2; by apply NoDup_app in Hn2 as (? & _ & _)).
        rewrite fmap_app in Hdo. apply NoDup_app in Hdo as (Hd & Hdis & _). apply (Hdis (eid e)); [|by apply list_elem_of_fmap_2].
        assert ((eid e, q) ∈ (λ e, (eid e, policy e)) <$> base.filter (lacks st s) done_) as Hin by (by apply elem_of_list_to_map_2). apply list_elem_of_fmap in Hin as (y & [= Hy _] & [_ Hyd]%list_elem_of_filter).
        rewrite Hy. by apply list_elem_of_fmap_2.
    - by rewrite Hea.
    - rewrite entries_app, Hes, map_of_app, Hm, Hmm, <- map_of_app, <- Hfil. f_equal. symmetry. apply list_filter_iff. intros e. unfold lacks. by rewrite Hen.
    - intros e x. rewrite Hen. apply Hc'.
    - split_and!; [done|by etrans|]. destruct r as [segs|]; [|done]. rewrite Hea, Hlk in I3. destruct I3 as (I3 & I4 & I5 & I6). split_and!; [done..|]. intros e x. rewrite <- Hen. apply I6. }
  assert (∀ st', ext st st' → Forall (valid st') ([] : scope)) as Hnil by done. case_bool_decide as Hz.
  { apply nil_length_inv in Hz. specialize (Hgo2 st [] Hst ltac:(done) ltac:(done)). rewrite app_nil_r in Hgo2. apply Hgo2; [apply NoDup_nil_2|]. fold fresh in Hz. by rewrite Hz. }
  case_bool_decide as Hall.
  { apply Hgo2; [done|done|by apply Forall_singleton|rewrite entries_single; by apply so_nodup, seg_at_ok|]. rewrite entries_single. fold o. f_equal. symmetry. subst fresh. fold o in Hall. clear -Hall.
    induction o as [|e o IH]; [done|]. rewrite filter_cons in *. case_decide; cbn [length] in Hall; [f_equal; apply IH; lia|].
    match type of Hall with length (@base.filter _ _ _ ?P ?D o) = _ => pose proof (@length_filter _ P D o) end. lia. }
  pose proof (makeScope_yields st (policy <$> fresh) Hst) as Hmk. fold fresh. destruct (makeScope st (policy <$> fresh)) as [st' more].
  destruct Hmk as (M1 & M2 & [M3 M4 M5] & M6); [apply Forall_fmap; eapply Forall_impl; [exact Hgf|by intros e []]|]. cbn [fst snd] in *. apply Hgo2; [done..|]. unfold abs in M6. by rewrite M6, policies_map_entries.
Qed.

Lemma policies_map_union ps (es : list policyEntry) : Forall good es → NoDup (eid <$> es) → policies_map (ps ++ (policy <$> es)) = map_of es ∪ policies_map ps.
Proof.
  intros Hg Hn. rewrite policies_map_app. generalize (policies_map ps). clear ps. induction es as [|e es IH]; intros m; cbn; [by rewrite map_empty_union|].
  apply Forall_cons in Hg as [He Hg]. cbn in Hn. apply NoDup_cons in Hn as [Hne Hn]. rewrite (IH Hg Hn), (good_eid e He) in *. change (list_to_map ((λ e, (eid e, policy e)) <$> es)) with (map_of es).
  rewrite <- insert_union_l. symmetry. rewrite insert_union_r; [done|]. apply eq_None_not_Some. intros Hq. apply Hne. by apply map_of_keys_in.
Qed.

Lemma merge_yields st s added : store_ok st → scope_ok st s → scope_ok st added → yields st (abs st added ∪ abs st s) (merge st s added).
Proof.
  intros Hst Hs Ha. unfold merge. pose proof (merge_parts_spec st s added [] [] Hst Hs (sc_valid _ _ Ha) ltac:(done)) as Hp. cbn [app] in Hp. rewrite app_nil_r in Hp. specialize (Hp (sc_nodup _ _ Hs) (sc_nodup _ _ Ha) eq_refl).
  destruct (merge_parts st s added []) as [st' r]. destruct Hp as (H1 & H2 & H3); [by intros e x ?%elem_of_nil|]. destruct (scope_ext _ _ _ H2 Hs) as [Hs' Hbs], (scope_ext _ _ _ H2 Ha) as [Ha' Hba]. apply (yields_trans st st'); [done|]. rewrite <- Hbs, <- Hba.
  destruct r as [segs|].
  - destruct H3 as (H3 & H4 & H5 & H6). replace (abs st' added ∪ abs st' s) with (abs st' s ∪ abs st' segs); [by apply appendSegments_yields|].
    unfold abs at 2. rewrite H5, Hbs, Hba. pose proof (entries_good st s Hst (sc_valid _ _ Hs)) as Hg1. pose proof (entries_good st added Hst (sc_valid _ _ Ha)) as Hg2. rewrite Forall_forall in Hg1, Hg2.
    apply map_eq. intros id. apply option_eq. intros p. rewrite !lookup_union_Some_raw.
    assert (abs st s !! id = policy <$> entry st s id) as -> by (by apply abs_lookup). pose proof (entry_spec st s id Hst (sc_valid _ _ Hs)) as Hen.
    assert (∀ q, map_of (base.filter (lacks st s) (entries st added)) !! id = Some q ↔ entry st s id = None ∧ abs st added !! id = Some q) as Hfl.
    { intros q. unfold abs. rewrite !map_of_lookup; [|apply Ha|]; [setoid_rewrite list_elem_of_filter; unfold lacks; naive_solver|].
      apply filter_nodup, Ha. }
    destruct (entry st s id) as [x|] eqn:Ex.
    + cbn. assert (∀ q, abs st added !! id = Some q → q = policy x) as Hsame.
      { intros q Hq. apply map_of_lookup in Hq as (e & He & Hid & <-); [|apply Ha]. subst id. destruct (H6 e x He Ex) as [Hz Hid]. rewrite (good_identity e (Hg2 e He)), (good_identity x (Hg1 x (proj1 Hen))) in *.
        apply U_identity; [apply Hg2|apply Hg1|done|done]; [done|apply Hen]. }
      split.
      * intros [[= <-]|[[=] _]]. destruct (abs st added !! id) as [q|] eqn:Eq; [left; f_equal; by apply Hsame|by right].
      * intros [Hq|[_ [= <-]]]; [left; f_equal; symmetry; by apply Hsame|by left].
    + cbn. rewrite Hfl. destruct (abs st added !! id); naive_solver.
  - replace (abs st' added ∪ abs st' s) with (policies_map (Policies st' s ++ Policies st' added)).
    + apply makeScope_yields; [done|]. apply Forall_app. split; apply Policies_use; try done; [apply Hs'|apply Ha'].
    + unfold Policies, abs. rewrite policies_map_union by (try (apply Ha'); by apply entries_good, sc_valid). by rewrite policies_map_entries by (try (apply Hs'); by apply entries_good, sc_valid).
Qed.

(** *** Taking a policy away *)

Lemma split_at_spec st before s id :
  match split_at st before s id with
  | None => ∀ ptr, ptr ∈ s → byID (seg_at st ptr) !! id = None
  | Some (b, part, after) => before ++ s = b ++ part :: after ∧ is_Some (byID (seg_at st part) !! id)
  end.
Proof.
  revert before. induction s as [|ptr s IH]; intros before; cbn; [by intros ptr ?%elem_of_nil|]. destruct (byID (seg_at st ptr) !! id) eqn:Eb; [by rewrite Eb; eauto|].
  specialize (IH (before ++ [ptr])). rewrite <- app_assoc in IH. destruct (split_at st (before ++ [ptr]) s id) as [[[b part] after]|]; [done|]. intros x [->|Hx]%elem_of_cons; auto.
Qed.

Lemma filter_delete (es : list policyEntry) id : map_of (base.filter (λ e, eid e ≠ id) es) = delete id (map_of es).
Proof.
  induction es as [|e es IH]; [cbn; by rewrite delete_empty|]. rewrite filter_cons. cbn. change (list_to_map ((λ e, (eid e, policy e)) <$> es)) with (map_of es). case_decide as Hd.
  - cbn. rewrite delete_insert_ne by done. f_equal. exact IH.
  - destruct (decide (eid e = id)) as [->|]; [|tauto]. by rewrite delete_insert_eq.
Qed.

Lemma Without_yields st s id : store_ok st → scope_ok st s → yields st (delete id (abs st s)) (Without st s id).
Proof.
  intros Hst Hs. unfold Without. pose proof (split_at_spec st [] s id) as Hsp. destruct (split_at st [] s id) as [[[before part] after]|].
  - cbn [app] in Hsp. destruct Hsp as [-> Hpart]. set (kept := base.filter (λ e, eid e ≠ id) (ordered (seg_at st part))).
    destruct Hs as [Hv Hn Hlen]. pose proof Hv as [Hvb [Hvp Hva]%Forall_cons]%Forall_app. assert (Forall good kept) as Hgk.
    { apply Forall_forall. intros e [_ He]%list_elem_of_filter. pose proof (so_good _ (seg_at_ok _ _ Hst Hvp)) as Hg. rewrite Forall_forall in Hg. auto. }
    assert (NoDup (eid <$> kept)) as Hnk by (by apply filter_nodup, so_nodup, seg_at_ok).
    rewrite entries_app in Hn. change (entries st (part :: after)) with (ordered (seg_at st part) ++ entries st after) in Hn.
    (* without the policy, before and after have nothing to lose *)
    assert (map_of (entries st before ++ kept ++ entries st after) = delete id (abs st (before ++ part :: after)) ∧ NoDup (eid <$> entries st before ++ kept ++ entries st after)) as [Hmap Hnd].
    { unfold abs. rewrite entries_app. change (entries st (part :: after)) with (ordered (seg_at st part) ++ entries st after). rewrite <- filter_delete, !filter_app. fold kept.
      assert (id ∈ eid <$> ordered (seg_at st part)) as Hin.
      { destruct Hpart as [i Hi]. apply (so_index _ (seg_at_ok _ _ Hst Hvp)) in Hi as (e & He & <-). apply list_elem_of_fmap_2. by eapply list_elem_of_lookup_2. }
      assert (∀ es : list policyEntry, id ∉ eid <$> es → base.filter (λ e, eid e ≠ id) es = es) as Hkeep.
      { intros es Hno. induction es as [|e es IH]; [done|]. cbn in Hno. apply not_elem_of_cons in Hno as [Hne Hno]. rewrite filter_cons, decide_True by congruence. f_equal. by apply IH. }
      rewrite !fmap_app in Hn. apply NoDup_app in Hn as (Hb & Hdis & (Hp & Hdis2 & Ha)%NoDup_app).
      rewrite (Hkeep (entries st before)) by (intros Hx; apply (Hdis id Hx); apply elem_of_app; by left). rewrite (Hkeep (entries st after)) by (intros Hx; by apply (Hdis2 id Hin)).
      split; [done|]. assert (∀ x, x ∈ eid <$> kept → x ∈ eid <$> ordered (seg_at st part)) as Hsub by (intros x (e & -> & [_ He]%list_elem_of_filter)%list_elem_of_fmap; by apply list_elem_of_fmap_2).
      rewrite !fmap_app. apply NoDup_app. split_and!; [done| |].
      - intros x Hx. rewrite elem_of_app. intros [Hk|Hk]; apply (Hdis x Hx); apply elem_of_app; [left; by apply Hsub|by right].
      - apply NoDup_app. split_and!; [done| |done]. intros x Hx. by apply Hdis2, Hsub. }
    rewrite <- Hmap. assert (Forall (λ p, p ∈ U) (policy <$> kept)) as Huse by (apply Forall_fmap; eapply Forall_impl; [exact Hgk|by intros e []]).
    case_bool_decide as Hone.
    + destruct before as [|? [|? ?]]; destruct after as [|? ?]; try (cbn in Hone; rewrite ?length_app in Hone; cbn in Hone; lia). cbn [entries mbind list_bind app]. rewrite app_nil_r, <- policies_map_entries by done. by apply makeScope_yields.
    + rewrite length_app in Hlen. cbn in Hlen. case_bool_decide as Hpos.
      * pose proof (fromList_made st (policy <$> kept) Hst Huse) as Hm. unfold makeScope. destruct (fromList st (policy <$> kept)) as [st' ptr]. destruct Hm as (H1 & H2 & H3 & H4). cbn [fst snd] in *.
        rewrite policies_map_entries in H4 by done. destruct (map_of_replace (entries st before) kept (ordered (seg_at st' ptr)) (entries st after) Hnd) as [Ha Hb]; [by apply so_nodup, seg_at_ok|done|].
        assert (entries st' (before ++ [ptr] ++ after) = entries st before ++ ordered (seg_at st' ptr) ++ entries st after) as He by (by rewrite !entries_app, entries_single, !(entries_ext st st')).
        split_and!; [done|done| |unfold abs; cbn [fst snd]; by rewrite He]. split; cbn [fst snd]; [|by rewrite He|rewrite !length_app; cbn; lia].
        apply Forall_app. split; [by eapply valid_ext|]. apply Forall_app. split; [by apply Forall_singleton|by eapply valid_ext].
      * rewrite length_fmap in Hpos. assert (kept = []) as Hk by (destruct kept; [done|cbn in Hpos; lia]). rewrite Hk in *. cbn [app] in *. rewrite <- entries_app in *.
        split_and!; [done|done| |done]. split; cbn [fst snd]; [by apply Forall_app|done|rewrite length_app; lia].
  - rewrite delete_id; [by apply yields_same|]. rewrite (abs_lookup st s id Hst Hs). assert (∀ l, (∀ ptr, ptr ∈ l → byID (seg_at st ptr) !! id = None) → entry st l id = None) as Hno.
    { induction l as [|ptr l IH]; intros Hl; [done|]. cbn. rewrite Hl by (by left). apply IH. intros x Hx. apply Hl. by right. }
    by rewrite Hno.
Qed.

(** *** Asking a scope *)

(** Every policy of a map is asked, and a denial comes before a permission. *)
Definition ask_map (m : gmap ID Policy) (actor : Actor) (action resource : str) (meta : gmap string V) : Result :=
  ask_all (map_to_list m).*2 actor action resource meta.

Lemma segment_size s : seg_ok s → Z.of_nat (length (ordered s)) < 2 ^ 64.
Proof.
  intros Hs. pose proof U_size as Hu. assert (policy <$> ordered s ⊆+ U) as Hsub.
  { apply NoDup_submseteq.
    - apply (NoDup_fmap_1 pID). rewrite pID_policies by apply Hs. apply Hs.
    - intros p (e & -> & He)%list_elem_of_fmap. pose proof (so_good _ Hs) as Hg. rewrite Forall_forall in Hg. by apply Hg. }
  apply submseteq_length in Hsub. rewrite length_fmap in Hsub. lia.
Qed.

Lemma combine_app a b : combine (a ++ b) = match combine a with Deny => Deny | Allow => match combine b with Deny => Deny | _ => Allow end | Undefined => combine b end.
Proof.
  unfold combine. rewrite !(bool_decide_ext _ _ (elem_of_app a b _)), !bool_decide_or. by destruct (bool_decide (Deny ∈ a)), (bool_decide (Deny ∈ b)), (bool_decide (Allow ∈ a)), (bool_decide (Allow ∈ b)).
Qed.

Lemma combine_perm a b : a ≡ₚ b → combine a = combine b.
Proof. intros Hp. unfold combine. by rewrite !(bool_decide_ext _ _ (elem_of_Permutation_proper _ _ _ Hp)). Qed.

(** The store after a segment kept its plans *)
Lemma kept_ok st ptr seg : store_ok st → valid st ptr → seg_ok seg → ordered seg = ordered (seg_at st ptr) → byID seg = byID (seg_at st ptr) →
  let st' := mkStore (<[ptr := seg]> (heap st)) (shards st) in store_ok st' ∧ ext st st'.
Proof.
  intros [H1 H2] [s Hs] Hseg Ho Hb. unfold seg_at in Ho, Hb. rewrite Hs in Ho, Hb. cbn in Ho, Hb. split.
  - split; cbn; [by apply Forall_insert|]. intros sh t Ht. rewrite length_insert. by apply (H2 sh).
  - intros q x Hx. cbn. destruct (decide (ptr = q)) as [->|Hne].
    + rewrite list_lookup_insert_eq by (by eapply lookup_lt_Some). exists seg. replace x with s by congruence. done.
    + rewrite list_lookup_insert_ne by done. eauto.
Qed.

Lemma Evaluate_loop_spec st s actor a r m acc :
  store_ok st → Forall (valid st) s → acc ≠ Deny →
  let '(st', res) := Evaluate_loop st s actor a r m acc in
  store_ok st' ∧ ext st st' ∧ res = match ask_all (Policies st s) actor a r m with Undefined => acc | x => x end.
Proof.
  revert st acc. induction s as [|ptr s IH]; intros st acc Hst Hv Hacc; cbn [Evaluate_loop]; [done|]. apply Forall_cons in Hv as [Hp Hv].
  pose proof (seg_at_ok _ _ Hst Hp) as Hseg. pose proof (evaluate_ok shuffle shuffle_perm (seg_at st ptr) actor a r m (so_plans _ Hseg)) as He.
  destruct (evaluate shuffle (seg_at st ptr) actor a r m) as [seg res]. destruct He as (E1 & E2 & E3 & E4); [eapply Forall_impl; [apply (so_good _ Hseg)|apply good_ok]|by apply segment_size|].
  assert (seg_ok seg) as Hok. { destruct Hseg as [S1 S2 S3 S4]. split; [done|by rewrite E2..|]. intros id i. by rewrite E3, E2. }
  destruct (kept_ok st ptr seg Hst Hp Hok E2 E3) as [K1 K2]. set (st1 := mkStore (<[ptr := seg]> (heap st)) (shards st)) in *.
  assert (ask_all (Policies st (ptr :: s)) actor a r m = match res with Deny => Deny | Allow => match ask_all (Policies st1 s) actor a r m with Deny => Deny | _ => Allow end | Undefined => ask_all (Policies st1 s) actor a r m end) as Hall.
  { unfold ask_all, Policies. rewrite (entries_ext st st1) by done. change (entries st (ptr :: s)) with (ordered (seg_at st ptr) ++ entries st s). rewrite !fmap_app, combine_app. by rewrite E4. }
  rewrite Hall. assert (Forall (valid st1) s) as Hv1 by (by eapply valid_ext). destruct res.
  - specialize (IH st1 acc K1 Hv1 Hacc). destruct (Evaluate_loop st1 s actor a r m acc) as [st2 res]. destruct IH as (I1 & I2 & ->). split_and!; [done|by etrans|done].
  - specialize (IH st1 Allow K1 Hv1 ltac:(done)). destruct (Evaluate_loop st1 s actor a r m Allow) as [st2 res]. destruct IH as (I1 & I2 & ->). split_and!; [done|by etrans|]. clear. generalize (ask_all (Policies st1 s) actor a r m). by intros [].
  - done.
Qed.

Lemma Policies_perm st s : store_ok st → scope_ok st s → Policies st s ≡ₚ (map_to_list (abs st s)).*2.
Proof.
  intros Hst [_ Hn _]. unfold abs, map_of. rewrite map_to_list_to_map by (by rewrite map_of_keys). rewrite <- list_fmap_compose. done.
Qed.

Lemma EvaluateScope_spec st s actor a r m :
  store_ok st → scope_ok st s →
  let '(st', res) := EvaluateScope st s actor a r m in store_ok st' ∧ ext st st' ∧ res = ask_map (abs st s) actor a r m.
Proof.
  intros Hst Hs. pose proof (Evaluate_loop_spec st s actor a r m Undefined Hst (sc_valid _ _ Hs) ltac:(done)) as He. unfold EvaluateScope. destruct (Evaluate_loop _ _ _ _ _ _ _) as [st' res].
  destruct He as (H1 & H2 & ->). split_and!; [done|done|]. assert (ask_all (Policies st s) actor a r m = ask_map (abs st s) actor a r m) as ->; [|by destruct (ask_map _ _ _ _ _)].
  unfold ask_map, ask_all. apply combine_perm. by rewrite Policies_perm.
Qed.

(** ** What a client sees *)

(** A client makes scopes, from policies and from each other, and asks them. *)
Inductive op :=
| ONew (ps : list Policy)
| OWith (i : nat) (p : Policy)
| OWithout (i : nat) (id : ID)
| OMerge (i j : nat)
| OContains (i : nat) (id : ID)
| OEvaluate (i : nat) (actor : Actor) (action resource : str) (meta : gmap string V).

Inductive answer := AScope | AContains (b : bool) | AResult (r : Result) | ANone.

Definition world : Type := store * list (list nat).

Definition push (w : world) (r : store * list nat) : world * answer := ((r.1, w.2 ++ [r.2]), AScope).

Definition run_op (w : world) (o : op) : world * answer :=
  let st := w.1 in
  match o with
  | ONew ps => push w (NewScope st ps)
  | OWith i p => match w.2 !! i with Some s => push w (With st s p) | None => (w, ANone) end
  | OWithout i id => match w.2 !! i with Some s => push w (Without st s id) | None => (w, ANone) end
  | OMerge i j => match w.2 !! i, w.2 !! j with Some s, Some t => push w (merge st s t) | _, _ => (w, ANone) end
  | OContains i id => match w.2 !! i with Some s => (w, AContains (Contains st s id)) | None => (w, ANone) end
  | OEvaluate i actor a r m =>
      match w.2 !! i with
      | Some s => let '(st, res) := EvaluateScope st s actor a r m in ((st, w.2), AResult res)
      | None => (w, ANone)
      end
  end.

Fixpoint run (w : world) (ops : list op) : world * list answer :=
  match ops with
  | [] => (w, [])
  | o :: ops => let '(w, x) := run_op w o in let '(w, xs) := run w ops in (w, x :: xs)
  end.

(** The same with maps from identifiers to policies *)
Definition spec_op (w : list (gmap ID Policy)) (o : op) : list (gmap ID Policy) * answer :=
  match o with
  | ONew ps => (w ++ [policies_map ps], AScope)
  | OWith i p => match w !! i with Some m => (w ++ [<[pID p := p]> m], AScope) | None => (w, ANone) end
  | OWithout i id => match w !! i with Some m => (w ++ [delete id m], AScope) | None => (w, ANone) end
  | OMerge i j => match w !! i, w !! j with Some m, Some n => (w ++ [n ∪ m], AScope) | _, _ => (w, ANone) end
  | OContains i id => match w !! i with Some m => (w, AContains (bool_decide (is_Some (m !! id)))) | None => (w, ANone) end
  | OEvaluate i actor a r m => match w !! i with Some n => (w, AResult (ask_map n actor a r m)) | None => (w, ANone) end
  end.

Fixpoint spec_run (w : list (gmap ID Policy)) (ops : list op) : list (gmap ID Policy) * list answer :=
  match ops with
  | [] => (w, [])
  | o :: ops => let '(w, x) := spec_op w o in let '(w, xs) := spec_run w ops in (w, x :: xs)
  end.

Definition uses (o : op) : Prop :=
  match o with ONew ps => Forall (λ p, p ∈ U) ps | OWith _ p => p ∈ U | _ => True end.

Definition simulates (w : world) (v : list (gmap ID Policy)) : Prop :=
  store_ok w.1 ∧ Forall2 (λ s m, scope_ok w.1 s ∧ abs w.1 s = m) w.2 v.

Lemma simulates_ext st st' ss v : ext st st' → store_ok st' → Forall2 (λ s m, scope_ok st s ∧ abs st s = m) ss v → Forall2 (λ s m, scope_ok st' s ∧ abs st' s = m) ss v.
Proof. intros He Hst Hf. eapply Forall2_impl; [exact Hf|]. cbn. intros s m [Hs <-]. by apply scope_ext. Qed.

Lemma push_simulates w v m r : simulates w v → yields w.1 m r → simulates (push w r).1 (v ++ [m]).
Proof.
  intros [Hst Hf] (H1 & H2 & H3 & H4). split; [done|]. cbn. apply Forall2_app; [by eapply simulates_ext|]. by constructor.
Qed.

Lemma run_op_simulates w v o : simulates w v → uses o → simulates (run_op w o).1 (spec_op v o).1 ∧ (run_op w o).2 = (spec_op v o).2.
Proof.
  intros Hsim Hu. pose proof Hsim as [Hst Hf]. assert (∀ i, match w.2 !! i with Some s => scope_ok w.1 s ∧ v !! i = Some (abs w.1 s) | None => v !! i = None end) as Hlook.
  { intros i. destruct (w.2 !! i) as [s|] eqn:Es.
    - destruct (Forall2_lookup_l _ _ _ _ _ Hf Es) as (m & Hm & Hs & <-). done.
    - destruct (v !! i) as [m|] eqn:Em; [|done]. destruct (Forall2_lookup_r _ _ _ _ _ Hf Em) as (s & Hs & _). congruence. }
  destruct o as [ps|i p|i id|i j|i id|i actor a r m]; cbn [run_op spec_op uses] in *.
  - split; [|done]. by apply push_simulates, makeScope_yields.
  - specialize (Hlook i). destruct (w.2 !! i) as [s|]; [destruct Hlook as [Hs ->]|by rewrite Hlook]. split; [|done]. by apply push_simulates, With_yields.
  - specialize (Hlook i). destruct (w.2 !! i) as [s|]; [destruct Hlook as [Hs ->]|by rewrite Hlook]. split; [|done]. by apply push_simulates, Without_yields.
  - pose proof (Hlook i) as Hi. pose proof (Hlook j) as Hj. destruct (w.2 !! i) as [s|]; [destruct Hi as [Hs ->]|by rewrite Hi]. destruct (w.2 !! j) as [t|]; [destruct Hj as [Ht ->]|by rewrite Hj].
    split; [|done]. by apply push_simulates, merge_yields.
  - specialize (Hlook i). destruct (w.2 !! i) as [s|]; [destruct Hlook as [Hs ->]|by rewrite Hlook]. split; [done|]. cbn. by rewrite Contains_spec.
  - specialize (Hlook i). destruct (w.2 !! i) as [s|]; [destruct Hlook as [Hs ->]|by rewrite Hlook]. pose proof (EvaluateScope_spec w.1 s actor a r m Hst Hs) as He.
    destruct (EvaluateScope w.1 s actor a r m) as [st' res]. destruct He as (H1 & H2 & ->). split; [|done]. split; [done|]. cbn. by eapply simulates_ext.
Qed.

Lemma run_simulates ops w v : simulates w v → Forall uses ops → simulates (run w ops).1 (spec_run v ops).1 ∧ (run w ops).2 = (spec_run v ops).2.
Proof.
  revert w v. induction ops as [|o ops IH]; intros w v Hsim Hu; [done|]. apply Forall_cons in Hu as [Ho Hu]. cbn [run spec_run].
  destruct (run_op_simulates w v o Hsim Ho) as [Hs Ha]. destruct (run_op w o) as [w' x], (spec_op v o) as [v' y]. cbn [fst snd] in *. subst y.
  destruct (IH w' v' Hs Hu) as [H1 H2]. destruct (run w' ops) as [w'' xs], (spec_run v' ops) as [v'' ys]. cbn [fst snd] in *. by subst ys.
Qed.

Definition new_store : store := mkStore [] ∅.


(** C40. Every scope is made of at most eight segments, however it was made, and lists each of
    its policies once. *)
Theorem scopes_bounded ops s m i :
  Forall uses ops → (run (new_store, []) ops).1.2 !! i = Some s → (spec_run [] ops).1 !! i = Some m →
  (length s ≤ maxScopeSegments)%nat ∧ Policies (run (new_store, []) ops).1.1 s ≡ₚ (map_to_list m).*2.
Proof.
  intros Hu Hs Hm. destruct (run_simulates ops (new_store, []) []) as [[H1 H2] _]; [|done|].
  - split; [|done]. split; [done|]. intros sh t. cbn. by rewrite lookup_empty.
  - destruct (Forall2_lookup_lr _ _ _ _ _ _ H2 Hs Hm) as [H3 <-]. split; [apply H3|by apply Policies_perm].
Qed.

End scopes.

(** ** Policies made by their constructors can be told apart *)

#[export] Instance created_described {V} (evaluator_of : list (@Condition V) → option Evaluator) (compile : string → option Program) reqs :
  TCEq (bool_decide (Z.of_nat (length reqs) < 2 ^ 64)) true → Described (create_all evaluator_of compile 0 reqs).
Proof.
  intros Hl. apply TCEq_eq, bool_decide_eq_true in Hl. destruct (create_all_ok evaluator_of compile reqs 0 ltac:(lia)) as [H1 H2]. rewrite Forall_forall in H1. split.
  - intros p q [i Hi]%list_elem_of_lookup [j Hj]%list_elem_of_lookup He _. assert (i = j) as ->; [|congruence].
    eapply (NoDup_lookup _ i j); [exact H2|rewrite list_lookup_fmap, Hi; done|rewrite list_lookup_fmap, Hj; cbn; by rewrite He].
  - intros p Hp. by apply H1.
  - assert (length (create_all evaluator_of compile 0 reqs) ≤ length reqs)%nat as Hle; [|lia]. generalize 0 as c. clear. induction reqs as [|r reqs IH]; intros c; [done|]. cbn.
    destruct (create evaluator_of compile c r) as [p i|e|]; cbn; [specialize (IH i)|specialize (IH c)|]; lia.
Qed.

(** *** An example *)

(** Conditions that hold when the actor has an identifier *)
Definition example_evaluator : list (@Condition unit) → option (@Evaluator unit) := λ _, Some (λ _ actor _ _ _, Some (bool_decide (aID actor ≠ ""))).

Definition example_requests : list (@request unit) :=
  let everything := PString (bytes_of "*") in
  [RPolicy (mkID "app" "read" "") (mkConfig (PString (bytes_of "doc.read.*")) everything "allow" []);
   RPolicy (mkID "app" "secret" "") (mkConfig everything (PString (bytes_of "secret:*")) "deny" []);
   RPolicy (mkID "app" "known" "") (mkConfig (PList [Some (bytes_of "doc.write")]) everything "allow" [mkCondition "actor.id" "ne" None "x"])].

Definition example_policies : list (@Policy unit) := create_all example_evaluator (λ _, None) 0 example_requests.

Definition example_ops : list (@op unit) :=
  match example_policies with
  | [p; q; r] =>
      let ask i who a x := OEvaluate i (mkActor ∅ who) (bytes_of a) (bytes_of x) ∅ in
      [ONew [p]; OWith 0 q; OWith 1 r; OMerge 0 2; OWithout 3 (mkID "app" "secret" "");
       ask 2%nat "ann" "doc.read" "secret:x"; ask 2%nat "ann" "doc.reader" "open"; ask 2%nat "ann" "doc.write" "open"; ask 2%nat "" "doc.write" "open";
       ask 3%nat "ann" "doc.read" "secret:x"; ask 4%nat "ann" "doc.read" "secret:x"; OContains 4 (mkID "app" "secret" "")]
  | _ => []
  end.

Lemma example_uses : Forall (uses example_policies) example_ops.
Proof.
  unfold example_ops. destruct example_policies as [|p [|q [|r [|x k]]]]; try apply Forall_nil_2.
  repeat (apply Forall_cons; split); cbn [uses]; try done; set_solver.
Qed.


Notation example_world := (run (λ A l, l) (λ s, Z.of_nat (String.length s)) (new_store, []) example_ops).1.

Lemma example_fourth : ∃ s m, example_world.2 !! 3%nat = Some s ∧ (spec_run [] example_ops).1 !! 3%nat = Some m.
Proof.
  assert (from_option (λ _, true) false (example_world.2 !! 3%nat) = true) as Hs by (vm_compute; reflexivity).
  assert (from_option (λ _, true) false ((spec_run [] example_ops).1 !! 3%nat) = true) as Hm by (vm_compute; reflexivity).
  revert Hs Hm. generalize (example_world.2 !! 3%nat), ((spec_run [] example_ops).1 !! 3%nat). intros [s|] [m|]; try discriminate. by exists s, m.
Qed.

Lemma scopes_bounded_witness :
  ∃ s m, (example_world.2 !! 3%nat = Some s ∧ (spec_run [] example_ops).1 !! 3%nat = Some m) ∧
         (length s ≤ maxScopeSegments)%nat ∧ Policies example_world.1 s ≡ₚ (map_to_list m).*2.
Proof.
  destruct example_fourth as (s & m & Hs & Hm). exists s, m. split; [exact (conj Hs Hm)|].
  exact (scopes_bounded (λ A l, l) (λ s, Z.of_nat (String.length s)) example_policies (λ A l, reflexivity l) example_ops s m 3%nat example_uses Hs Hm).
Defined.

End Scopes.
