(* ===== verification/PolicyReg.v ===== *)
(** * The registry of policies and the decision ([system/security], [api/security/context.go])

    The registry keeps the policies that are in force and the groups they belong to. It
    changes by events, one after the other, and answers who applied them. A configuration
    names groups and policies; it is resolved as a whole or not at all, and joined with the
    scope that is inherited. [IsAllowed] is the decision that the rest of the runtime asks
    for. *)

From S2P Require Import Prelude Bytes GoStrings RegEntry Radix Policy Varint PolicyPlan PolicyScope.
Import Entries Radix Policies Plans Scopes.

Module Access.

Section access.
Context {V : Type}.
Notation Policy := (@Policy V).
Notation Actor := (@Actor V).
Notation store := (@store V).

Context (shuffle : ∀ A, list A → list A) (hash : string → Z).

(** ** The registry ([registry.go]) *)

Record PolicyEntry := mkPolicyEntry { ePolicy : Policy; Groups : list ID }.

(** The payload of an event: the channel that waits for the answer, a policy or nil, and
    groups; [None] is nil or a value of another type. *)
Record payload := mkPayload { Applied : option nat; dPolicy : option Policy; dGroups : list ID }.

Record event := mkEvent { Kind : string; Path : string; Data : option payload }.

Inductive error := ErrRegistryStopped | ErrCanceled | ErrInvalidPolicyPayload | ErrPolicyNotFound | ErrGroupNotFound | ErrUnknownKind
| ErrNoPolicies (g : ID) | ErrNoRegistry | ErrEmptyConfig | ErrUnresolved (l : list (ID * error)).

(** Contexts are numbers; an application has that of its caller and that of the registry
    when it was admitted. *)
Record PolicyRegistry := mkRegistry {
  policies : gmap ID PolicyEntry; groups : gmap ID (list ID); applications : gmap nat (nat * nat); ctx : nat; started : bool
}.

Definition with_tables (r : PolicyRegistry) (p : gmap ID PolicyEntry) (g : gmap ID (list ID)) : PolicyRegistry :=
  mkRegistry p g (applications r) (ctx r) (started r).

Definition addPolicyToGroup (id : ID) (gs : gmap ID (list ID)) (g : ID) : gmap ID (list ID) :=
  let l := default [] (gs !! g) in
  if bool_decide (id ∈ l) then gs else <[g := l ++ [id]]> gs.

Definition removePolicyFromGroup (id : ID) (gs : gmap ID (list ID)) (g : ID) : gmap ID (list ID) :=
  match gs !! g with
  | None => gs
  | Some l =>
      let l := base.filter (λ x, x ≠ id) l in
      if bool_decide (0 < length l)%nat then <[g := l]> gs else delete g gs
  end.

Definition registerPolicy (r : PolicyRegistry) (e : event) : result error PolicyRegistry :=
  match Data e with
  | Some (mkPayload _ (Some p) gs) =>
      Ok (with_tables r (<[pID p := mkPolicyEntry p gs]> (policies r)) (foldl (addPolicyToGroup (pID p)) (groups r) gs))
  | _ => Err ErrInvalidPolicyPayload
  end.

Definition updatePolicy (r : PolicyRegistry) (e : event) : result error PolicyRegistry :=
  match Data e with
  | Some (mkPayload _ (Some p) gs) =>
      match policies r !! pID p with
      | None => Err ErrPolicyNotFound
      | Some existing =>
          let left := foldl (removePolicyFromGroup (pID p)) (groups r) (base.filter (λ g, g ∉ gs) (Groups existing)) in
          let joined := foldl (addPolicyToGroup (pID p)) left (base.filter (λ g, g ∉ Groups existing) gs) in
          Ok (with_tables r (<[pID p := mkPolicyEntry p gs]> (policies r)) joined)
      end
  | _ => Err ErrInvalidPolicyPayload
  end.

Definition deletePolicy (r : PolicyRegistry) (e : event) : result error PolicyRegistry :=
  let id := ParseID (Path e) in
  match policies r !! id with
  | None => Err ErrPolicyNotFound
  | Some existing => Ok (with_tables r (delete id (policies r)) (foldl (removePolicyFromGroup id) (groups r) (Groups existing)))
  end.

Definition apply_event (r : PolicyRegistry) (e : event) : result error PolicyRegistry :=
  if bool_decide (Kind e = "policy.register") then registerPolicy r e else
  if bool_decide (Kind e = "policy.update") then updatePolicy r e else
  if bool_decide (Kind e = "policy.delete") then deletePolicy r e else Err ErrUnknownKind.

(** The registry after an event, and what is sent to the channel that waits: [Some None] is
    success. [cancelled] are the contexts that are done. *)
Definition handleEvent (cancelled : nat → bool) (r : PolicyRegistry) (e : event) : PolicyRegistry * option (option error) :=
  let run := match apply_event r e with Ok r => (r, None) | Err x => (r, Some x) end in
  match Data e ≫= Applied with
  | None => (run.1, None)
  | Some waiter =>
      match applications r !! waiter with
      | None => (r, None)
      | Some (caller, owner) =>
          if bool_decide (owner ≠ ctx r) || cancelled owner then (r, Some (Some ErrRegistryStopped)) else
          if cancelled caller then (r, Some (Some ErrCanceled)) else (run.1, Some run.2)
      end
  end.

(** The part of [ApplyPolicy] before it waits: the checks, and the event that is sent *)
Definition ApplyPolicy (cancelled : nat → bool) (r : PolicyRegistry) (caller waiter : nat) (id : ID) (kind : string) (entry : option payload) : result error (PolicyRegistry * event) :=
  if cancelled caller then Err ErrCanceled else
  match entry with
  | None => Err ErrInvalidPolicyPayload
  | Some d =>
      let valid :=
        if bool_decide (kind = "policy.register" ∨ kind = "policy.update") then
          match dPolicy d with Some p => bool_decide (pID p = id) | None => false end
        else bool_decide (kind = "policy.delete") in
      if negb valid then Err ErrInvalidPolicyPayload else
      if negb (started r) || cancelled (ctx r) then Err ErrRegistryStopped else
      Ok (mkRegistry (policies r) (groups r) (<[waiter := (caller, ctx r)]> (applications r)) (ctx r) (started r),
          mkEvent kind (idString id) (Some (mkPayload (Some waiter) (dPolicy d) (dGroups d))))
  end.

Definition GetPolicy (r : PolicyRegistry) (id : ID) : result error Policy :=
  match policies r !! id with Some e => Ok (ePolicy e) | None => Err ErrPolicyNotFound end.

(** The policies of a list of identifiers; the first that is missing ends it. *)
Fixpoint get_all (r : PolicyRegistry) (ids : list ID) : result error (list Policy) :=
  match ids with
  | [] => Ok []
  | id :: ids => result_bind (GetPolicy r id) (λ p, result_bind (get_all r ids) (λ ps, Ok (p :: ps)))
  end.

Definition GetPolicyGroup (st : store) (r : PolicyRegistry) (g : ID) : store * result error (list nat) :=
  match groups r !! g with
  | None => (st, Err ErrGroupNotFound)
  | Some ids =>
      match get_all r ids with
      | Err e => (st, Err e)
      | Ok ps => let '(st, s) := NewScope shuffle hash st ps in (st, Ok s)
      end
  end.

(** ** Configurations ([pairs.go]) *)

Record Config := mkSecurity { cActor : Actor; PolicyGroups : list ID; cPolicies : list ID }.

(** The loop over the groups: the policies found, and the errors *)
Fixpoint resolve_groups (st : store) (r : PolicyRegistry) (gs : list ID) : store * list Policy * list (ID * error) :=
  match gs with
  | [] => (st, [], [])
  | g :: gs =>
      let '(st, found) := GetPolicyGroup st r g in
      let '(ps, errs) :=
        match found with
        | Err e => ([], [(g, e)])
        | Ok s => let ps := Scopes.Policies st s in if bool_decide (length ps = 0%nat) then ([], [(g, ErrNoPolicies g)]) else (ps, [])
        end in
      let '(st, ps', errs') := resolve_groups st r gs in (st, ps ++ ps', errs ++ errs')
  end.

Definition resolve_ids (r : PolicyRegistry) (ids : list ID) : list Policy * list (ID * error) :=
  (omap (λ id, match GetPolicy r id with Ok p => Some p | Err _ => None end) ids,
   omap (λ id, match GetPolicy r id with Ok _ => None | Err e => Some (id, e) end) ids).

Definition resolveScope (st : store) (r : PolicyRegistry) (gs ids : list ID) : store * result error (list nat) :=
  let '(st, ps, errs) := resolve_groups st r gs in
  let '(ps', errs') := resolve_ids r ids in
  if bool_decide (errs ++ errs' = []) then let '(st, s) := makeScope shuffle hash st (ps ++ ps') in (st, Ok s)
  else (st, Err (ErrUnresolved (errs ++ errs'))).

(** The values of a frame that security uses *)
Record Frame := mkFrame { fActor : option Actor; fScope : option (list nat); fRegistry : option PolicyRegistry }.

Definition actorConfigured (a : Actor) : bool := bool_decide (aID a ≠ "") || bool_decide (0 < size (Meta a))%nat.

(** The actor and the scope to install; nothing without a configuration *)
Definition ResolveConfigPairs (st : store) (f : Frame) (config : option Config) : store * result error (option (Actor * option (list nat))) :=
  match config with
  | None => (st, Ok None)
  | Some c =>
      let actor := if actorConfigured (cActor c) then cActor c else default (cActor c) (fActor f) in
      if bool_decide (length (PolicyGroups c) = 0 ∧ length (cPolicies c) = 0)%nat then (st, Ok (Some (actor, fScope f))) else
      match fRegistry f with
      | None => (st, Err ErrNoRegistry)
      | Some r =>
          match resolveScope st r (PolicyGroups c) (cPolicies c) with
          | (st, Err e) => (st, Err e)
          | (st, Ok declared) =>
              if empty st declared then (st, Err ErrEmptyConfig) else
              match fScope f with
              | None => (st, Ok (Some (actor, Some declared)))
              | Some s => let '(st, s) := merge shuffle hash st s declared in (st, Ok (Some (actor, Some s)))
              end
          end
      end
  end.

(** The frame with the values of a configuration: it is left alone when there are none. *)
Definition WithSecurityConfigE (st : store) (f : Frame) (config : option Config) : store * Frame * option error :=
  match ResolveConfigPairs st f config with
  | (st, Err e) => (st, f, Some e)
  | (st, Ok None) => (st, f, None)
  | (st, Ok (Some (a, s))) => (st, mkFrame (Some a) (match s with Some s => Some s | None => fScope f end) (fRegistry f), None)
  end.

Definition IsAllowed (st : store) (f : Frame) (action resource : str) (meta : gmap string V) : store * bool :=
  match fActor f, fScope f with
  | Some a, Some s => let '(st, r) := EvaluateScope shuffle st s a action resource meta in (st, bool_decide (r = Allow))
  | _, _ => (st, false)
  end.

(** ** Groups follow the policies *)

Record group_inv (r : PolicyRegistry) : Prop := {
  gi_member g id : id ∈ default [] (groups r !! g) ↔ ∃ e, policies r !! id = Some e ∧ g ∈ Groups e;
  gi_nonempty g l : groups r !! g = Some l → l ≠ [];
  gi_keyed id e : policies r !! id = Some e → pID (ePolicy e) = id
}.

Definition nonempty_groups (gs : gmap ID (list ID)) : Prop := ∀ g l, gs !! g = Some l → l ≠ [].

Lemma add_fold id l gs :
  (∀ g x, x ∈ default [] (foldl (addPolicyToGroup id) gs l !! g) ↔ x ∈ default [] (gs !! g) ∨ x = id ∧ g ∈ l) ∧
  (nonempty_groups gs → nonempty_groups (foldl (addPolicyToGroup id) gs l)).
Proof.
  revert gs. induction l as [|h l IH]; intros gs; cbn [foldl]; [split; [intros g x; rewrite elem_of_nil; tauto|done]|].
  destruct (IH (addPolicyToGroup id gs h)) as [H1 H2]. unfold addPolicyToGroup in *. destruct (bool_decide_reflect (id ∈ default [] (gs !! h))) as [Hin|Hno].
  - split; [|done]. intros g x. rewrite H1, elem_of_cons. split; [tauto|]. intros [?|[-> [->|?]]]; tauto.
  - split.
    + intros g x. rewrite H1, elem_of_cons. destruct (decide (g = h)) as [->|Hne].
      * rewrite lookup_insert_eq. cbn. rewrite elem_of_app, list_elem_of_singleton. tauto.
      * rewrite lookup_insert_ne by done. tauto.
    + intros Hgs. apply H2. intros g k [[<- <-]|[_ Hk]]%lookup_insert_Some; [by destruct (default _ _)|by eapply Hgs].
Qed.

Lemma remove_fold id l gs :
  (∀ g x, x ∈ default [] (foldl (removePolicyFromGroup id) gs l !! g) ↔ x ∈ default [] (gs !! g) ∧ ¬ (x = id ∧ g ∈ l)) ∧
  (nonempty_groups gs → nonempty_groups (foldl (removePolicyFromGroup id) gs l)).
Proof.
  revert gs. induction l as [|h l IH]; intros gs; cbn [foldl]; [split; [intros g x; rewrite elem_of_nil; tauto|done]|].
  destruct (IH (removePolicyFromGroup id gs h)) as [H1 H2].
  assert (∀ g x, x ∈ default [] (removePolicyFromGroup id gs h !! g) ↔ x ∈ default [] (gs !! g) ∧ ¬ (x = id ∧ g = h)) as Hone.
  { intros g x. unfold removePolicyFromGroup. destruct (gs !! h) as [k|] eqn:Eh.
    - assert (∀ y, y ∈ base.filter (λ z, z ≠ id) k ↔ y ∈ k ∧ y ≠ id) as Hf by (intros y; rewrite list_elem_of_filter; tauto).
      destruct (decide (g = h)) as [->|Hne].
      + rewrite Eh. cbn. case_bool_decide as Hl.
        * rewrite lookup_insert_eq. cbn. rewrite Hf. tauto.
        * rewrite lookup_delete_eq. cbn. rewrite elem_of_nil. split; [done|]. intros [Hx Hne]. assert (x ∈ base.filter (λ z, z ≠ id) k) as Hin by (apply Hf; tauto).
          destruct (base.filter _ k); [by apply elem_of_nil in Hin|cbn in Hl; lia].
      + case_bool_decide; [rewrite lookup_insert_ne by done|rewrite lookup_delete_ne by done]; tauto.
    - destruct (decide (g = h)) as [->|Hne]; [|tauto]. rewrite Eh. cbn. rewrite elem_of_nil. tauto. }
  split; [intros g x; rewrite H1, Hone, elem_of_cons; tauto|]. intros Hgs. apply H2. unfold removePolicyFromGroup. destruct (gs !! h) as [k|]; [|done]. case_bool_decide as Hl.
  - intros g x [[<- <-]|[_ Hx]]%lookup_insert_Some; [by destruct (base.filter _ k); [cbn in Hl; lia|]|by eapply Hgs].
  - intros g x [_ Hx]%lookup_delete_Some. by eapply Hgs.
Qed.

Lemma registerPolicy_inv r e r' :
  group_inv r → (∀ d p, Data e = Some d → dPolicy d = Some p → policies r !! pID p = None) → registerPolicy r e = Ok r' → group_inv r'.
Proof.
  intros [H1 H2 H3] Hfresh. unfold registerPolicy. destruct (Data e) as [[w [p|] gs]|] eqn:Ed; [|done|done]. intros [= <-]. specialize (Hfresh _ p eq_refl eq_refl).
  destruct (add_fold (pID p) gs (groups r)) as [Ha Hb]. split; cbn [policies groups with_tables].
  - intros g id. rewrite Ha, H1. destruct (decide (id = pID p)) as [->|Hne].
    + rewrite lookup_insert_eq, Hfresh. split; [intros [(e' & [=] & _)|[_ Hg]]; eauto|]. intros (e' & [= <-] & Hg). by right.
    + rewrite lookup_insert_ne by done. naive_solver.
  - by apply Hb.
  - intros id e' [[<- <-]|[_ He]]%lookup_insert_Some; [done|by apply H3].
Qed.

Lemma updatePolicy_inv r e r' : group_inv r → updatePolicy r e = Ok r' → group_inv r'.
Proof.
  intros [H1 H2 H3]. unfold updatePolicy. destruct (Data e) as [[w [p|] gs]|]; [|done|done]. destruct (policies r !! pID p) as [old|] eqn:Eo; [|done]. intros [= <-].
  set (out := base.filter (λ g, g ∉ gs) (Groups old)). set (inn := base.filter (λ g, g ∉ Groups old) gs).
  destruct (remove_fold (pID p) out (groups r)) as [Hr Hr']. destruct (add_fold (pID p) inn (foldl (removePolicyFromGroup (pID p)) (groups r) out)) as [Ha Hb]. split; cbn [policies groups with_tables].
  - intros g id. rewrite Ha, Hr, H1. subst out inn. rewrite !list_elem_of_filter. destruct (decide (id = pID p)) as [->|Hne].
    + rewrite lookup_insert_eq, Eo. destruct (decide (g ∈ gs)), (decide (g ∈ Groups old)); naive_solver.
    + rewrite lookup_insert_ne by done. naive_solver.
  - by apply Hb, Hr'.
  - intros id e' [[<- <-]|[_ He]]%lookup_insert_Some; [done|by apply H3].
Qed.

Lemma deletePolicy_inv r e r' : group_inv r → deletePolicy r e = Ok r' → group_inv r'.
Proof.
  intros [H1 H2 H3]. unfold deletePolicy. destruct (policies r !! ParseID (Path e)) as [old|] eqn:Eo; [|done]. intros [= <-]. set (id := ParseID (Path e)) in *.
  destruct (remove_fold id (Groups old) (groups r)) as [Hr Hr']. split; cbn [policies groups with_tables].
  - intros g x. rewrite Hr, H1. destruct (decide (x = id)) as [->|Hne]; [rewrite lookup_delete_eq, Eo; naive_solver|rewrite lookup_delete_ne by done; naive_solver].
  - by apply Hr'.
  - intros x e' [_ He]%lookup_delete_Some. by apply H3.
Qed.

(** An event registers no policy that is there already. *)
Definition registers_new (r : PolicyRegistry) (e : event) : Prop :=
  Kind e = "policy.register" → ∀ d p, Data e = Some d → dPolicy d = Some p → policies r !! pID p = None.

Inductive step (r : PolicyRegistry) : PolicyRegistry → Prop :=
| step_event cancelled e : registers_new r e → step r (handleEvent cancelled r e).1
| step_apply cancelled caller waiter id kind d r' e : ApplyPolicy cancelled r caller waiter id kind d = Ok (r', e) → step r r'
| step_return waiter : step r (mkRegistry (policies r) (groups r) (delete waiter (applications r)) (ctx r) (started r))
| step_lifecycle c b : step r (mkRegistry (policies r) (groups r) (applications r) c b).

Definition NewPolicyRegistry : PolicyRegistry := mkRegistry ∅ ∅ ∅ 0 false.

Lemma same_tables r r' : policies r' = policies r → groups r' = groups r → group_inv r → group_inv r'.
Proof. intros Hp Hg [H1 H2 H3]. split; rewrite ?Hp, ?Hg; done. Qed.

Lemma apply_event_inv r e r' : group_inv r → registers_new r e → apply_event r e = Ok r' → group_inv r'.
Proof.
  intros Hi Hn. unfold apply_event. case_bool_decide as Hk; [intros Ho; eapply registerPolicy_inv; [exact Hi|by apply Hn|done]|].
  case_bool_decide; [by apply updatePolicy_inv|]. case_bool_decide; [by apply deletePolicy_inv|done].
Qed.

Lemma step_inv r r' : group_inv r → step r r' → group_inv r'.
Proof.
  intros Hi. destruct 1 as [cancelled e Hn|cancelled caller waiter id kind d r' e Ha|waiter|c b].
  - unfold handleEvent. assert (group_inv (match apply_event r e with Ok r => (r, None) | Err x => (r, Some x) end).1) as Hrun.
    { destruct (apply_event r e) as [r'|] eqn:Ee; [by eapply apply_event_inv|done]. }
    destruct (Data e ≫= Applied) as [w|]; [|done]. destruct (applications r !! w) as [[caller owner]|]; [|done]. destruct (_ || _); [done|]. by destruct (cancelled caller).
  - unfold ApplyPolicy in Ha. destruct (cancelled caller); [done|]. destruct d as [d|]; [|done]. destruct (negb _); [done|]. destruct (_ || _); [done|]. injection Ha as <- _. by apply (same_tables r).
  - by apply (same_tables r).
  - by apply (same_tables r).
Qed.

Lemma steps_inv r r' : rtc step r r' → group_inv r → group_inv r'.
Proof. induction 1 as [|r r1 r2 Hs _ IH]; [done|]. intros Hi. by eapply IH, step_inv. Qed.

Lemma new_registry_inv : group_inv NewPolicyRegistry.
Proof.
  split; cbn; [intros g id|intros g l|intros id e]; rewrite ?lookup_empty; [|done|done]. cbn. rewrite elem_of_nil. split; [done|]. by intros (e & [=] & _).
Qed.

(** C37. After any sequence of events in which no policy is registered twice, whoever waits for
    them, a policy is in a group exactly when its entry names the group, and no group is
    empty. *)
Theorem groups_follow_policies r g id :
  rtc step NewPolicyRegistry r →
  (id ∈ default [] (groups r !! g) ↔ ∃ e, policies r !! id = Some e ∧ g ∈ Groups e) ∧ groups r !! g ≠ Some [].
Proof.
  intros Hr. destruct (steps_inv _ _ Hr new_registry_inv) as [H1 H2 _]. split; [done|]. intros Hg. by apply (H2 _ _ Hg).
Qed.

(** A policy that is registered again without its group stays in it, and after it was deleted
    the group cannot be resolved. *)
Lemma registered_twice p g st :
  id_ok (pID p) →
  let send kind gs r := match apply_event r (mkEvent kind (idString (pID p)) (Some (mkPayload None (Some p) gs))) with Ok r => r | Err _ => r end in
  let r := send "policy.delete" [] (send "policy.register" [] (send "policy.register" [g] NewPolicyRegistry)) in
  policies r = ∅ ∧ groups r !! g = Some [pID p] ∧ (GetPolicyGroup st r g).2 = Err ErrPolicyNotFound.
Proof.
  intros Hid. cbn zeta. unfold apply_event. cbn [Kind]. rewrite !(bool_decide_eq_true_2 ("policy.register" = "policy.register")) by done.
  rewrite !(bool_decide_eq_false_2 ("policy.delete" = _)), !(bool_decide_eq_true_2 ("policy.delete" = "policy.delete")) by done.
  unfold registerPolicy, deletePolicy. cbn [Data policies groups with_tables Path NewPolicyRegistry applications ctx started foldl]. rewrite ParseID_String by done.
  rewrite lookup_insert_eq. cbn [Groups foldl with_tables policies groups]. rewrite insert_insert_eq, delete_insert_id by apply lookup_empty.
  unfold addPolicyToGroup. rewrite lookup_empty. cbn [default from_option id]. rewrite bool_decide_eq_false_2 by apply not_elem_of_nil. cbn [app].
  split_and!; [done|by rewrite lookup_insert_eq|]. unfold GetPolicyGroup. cbn [groups with_tables]. rewrite lookup_insert_eq. cbn [get_all]. unfold GetPolicy. cbn [policies with_tables]. by rewrite lookup_empty.
Qed.

(** ** Resolving a configuration *)

Context (U : list Policy) `{!Described U}.
Hypothesis shuffle_perm : ∀ A (k : list A), shuffle A k ≡ₚ k.

(** The policies of a registry that are named, or that name one of the groups *)
Definition named (gs ids : list ID) (ie : ID * PolicyEntry) : Prop := ie.1 ∈ ids ∨ Exists (λ g, g ∈ Groups ie.2) gs.

#[local] Instance named_dec gs ids ie : Decision (named gs ids ie).
Proof. unfold named. apply _. Defined.

Definition declared (r : PolicyRegistry) (gs ids : list ID) : gmap ID Policy := ePolicy <$> base.filter (named gs ids) (policies r).

Lemma declared_lookup r gs ids id p :
  declared r gs ids !! id = Some p ↔ ∃ e, policies r !! id = Some e ∧ ePolicy e = p ∧ named gs ids (id, e).
Proof.
  unfold declared. rewrite lookup_fmap, fmap_Some. setoid_rewrite map_lookup_filter_Some. naive_solver.
Qed.

Record in_use (r : PolicyRegistry) : Prop := {
  iu_groups : group_inv r;
  iu_policies id e : policies r !! id = Some e → ePolicy e ∈ U
}.

Lemma get_all_spec r ids :
  (∀ id, id ∈ ids → is_Some (policies r !! id)) → get_all r ids = Ok (omap (λ id, ePolicy <$> policies r !! id) ids).
Proof.
  induction ids as [|id ids IH]; intros Hids; [done|]. cbn. unfold GetPolicy. destruct (Hids id ltac:(by left)) as [e ->]. cbn. rewrite IH by (intros x Hx; apply Hids; by right). done.
Qed.

(** The policies of a list form a map by their identifiers. *)
Lemma policies_map_lookup (ps : list Policy) m :
  (∀ p, p ∈ ps → m !! pID p = Some p) → (∀ id p, m !! id = Some p → p ∈ ps ∧ pID p = id) → policies_map ps = m.
Proof.
  intros H1 H2. apply map_eq. intros id. apply option_eq. intros p. unfold policies_map.
  assert (∀ m0 : gmap ID Policy, foldl (λ m p, <[pID p := p]> m) m0 ps !! id = Some p ↔ (p ∈ ps ∧ pID p = id) ∨ (m0 !! id = Some p ∧ ∀ q, q ∈ ps → pID q ≠ id)) as Hf.
  { clear H2. revert H1. rewrite <- (reverse_involutive ps). induction (reverse ps) as [|x k IH]; intros H1 m0; [rewrite reverse_nil; cbn; setoid_rewrite elem_of_nil; naive_solver|].
    rewrite reverse_cons in *. rewrite foldl_app. cbn. assert (∀ q, q ∈ reverse k ++ [x] ↔ q ∈ reverse k ∨ q = x) as Hin by (intros q; rewrite elem_of_app, list_elem_of_singleton; done).
    setoid_rewrite Hin. rewrite lookup_insert_Some, IH by (intros q Hq; apply H1, Hin; by left). split.
    - intros [[<- <-]|[Hne [[Hp <-]|[Hm Hno]]]]; [left; tauto|left; tauto|]. right. split; [done|]. intros q [Hq| ->]; [by apply Hno|done].
    - intros [[[Hp| ->] Hid]|[Hm Hno]].
      + destruct (decide (pID x = id)) as [Hx|Hx]; [|tauto]. left. split; [done|]. assert (m !! pID x = Some x) as E1 by (apply H1, Hin; tauto). assert (m !! pID p = Some p) as E2 by (apply H1, Hin; tauto). congruence.
      + left. done.
      + right. split; [apply Hno; tauto|]. right. split; [done|]. intros q Hq. apply Hno. tauto. }
  rewrite Hf. split.
  - intros [[Hp <-]|[Hm _]]; [by apply H1|by rewrite lookup_empty in Hm].
  - intros Hm. left. by apply H2.
Qed.

Lemma GetPolicyGroup_spec st r g :
  store_ok shuffle U st → in_use r →
  let '(st', res) := GetPolicyGroup st r g in
  store_ok shuffle U st' ∧ ext st st' ∧
  match res with
  | Ok s => scope_ok st' s ∧ Scopes.Policies st' s ≡ₚ (map_to_list (declared r [g] [])).*2 ∧ Scopes.Policies st' s ≠ []
  | Err _ => ∀ id e, policies r !! id = Some e → g ∉ Groups e
  end.
Proof.
  intros Hst [[H1 H2 H3] Hu]. unfold GetPolicyGroup. specialize (H1 g). destruct (groups r !! g) as [ids|] eqn:Eg; cbn [default from_option id] in H1.
  - assert (∀ id, id ∈ ids → is_Some (policies r !! id)) as Hall by (intros id (e & He & _)%H1; by eexists). rewrite get_all_spec by done.
    set (ps := omap (λ id, ePolicy <$> policies r !! id) ids). assert (∀ p, p ∈ ps ↔ ∃ id e, policies r !! id = Some e ∧ g ∈ Groups e ∧ ePolicy e = p) as Hps.
    { intros p. subst ps. rewrite list_elem_of_omap. split.
      - intros (id & (e & He & Hg)%H1 & (e' & He' & ->)%fmap_Some). exists id, e'. rewrite He in He'. injection He' as <-. done.
      - intros (id & e & He & Hg & <-). exists id. rewrite He. split; [apply H1; eauto|done]. }
    assert (policies_map ps = declared r [g] []) as Hm.
    { apply policies_map_lookup.
      - intros p (id & e & He & Hg & <-)%Hps. rewrite (H3 id e He). apply declared_lookup. exists e. split_and!; [done..|]. right. apply Exists_cons. by left.
      - intros id p (e & He & <- & [Hn%elem_of_nil|Hx])%declared_lookup; [done|]. apply Exists_cons in Hx as [Hg|Hx%Exists_nil]; [|done]. split; [apply Hps; eauto|by apply H3]. }
    pose proof (makeScope_yields shuffle hash U shuffle_perm st ps Hst) as Hy. unfold NewScope. destruct (makeScope shuffle hash st ps) as [st' s].
    destruct Hy as (Y1 & Y2 & Y3 & Y4); [apply Forall_forall; intros p (id & e & He & _ & <-)%Hps; by eapply Hu|]. cbn [fst snd] in *. rewrite Hm in Y4. split_and!; [done..| |].
    + rewrite (Policies_perm shuffle U) by done. by rewrite Y4.
    + intros Hnil. assert (declared r [g] [] = ∅) as Hemp. { rewrite <- Y4. unfold abs, Scopes.Policies in *. apply fmap_nil_inv in Hnil. by rewrite Hnil. }
      destruct ids as [|id ids]; [by apply (H2 g [])|]. destruct (proj1 (H1 id) ltac:(by left)) as (e & He & Hg).
      assert (declared r [g] [] !! id = Some (ePolicy e)) as Hd by (apply declared_lookup; exists e; split_and!; [done..|]; right; apply Exists_cons; by left).
      by rewrite Hemp, lookup_empty in Hd.
  - split_and!; [done..|]. intros id e He Hg. assert (id ∈ @nil ID) as Hnil by (apply H1; eauto). by apply elem_of_nil in Hnil.
Qed.

Definition has_policies (r : PolicyRegistry) (g : ID) : Prop := ∃ id e, policies r !! id = Some e ∧ g ∈ Groups e.

(** Every group that is named has a policy, and every policy that is named is registered. *)
Definition resolvable (r : PolicyRegistry) (gs ids : list ID) : Prop :=
  (∀ g, g ∈ gs → has_policies r g) ∧ ∀ id, id ∈ ids → is_Some (policies r !! id).

Lemma resolve_groups_spec st r gs :
  store_ok shuffle U st → in_use r →
  let '(st', ps, errs) := resolve_groups st r gs in
  store_ok shuffle U st' ∧ ext st st' ∧ (errs = [] ↔ ∀ g, g ∈ gs → has_policies r g) ∧
  ∀ p, p ∈ ps ↔ ∃ id e, policies r !! id = Some e ∧ ePolicy e = p ∧ Exists (λ g, g ∈ Groups e) gs.
Proof.
  intros Hst Hu. revert st Hst. induction gs as [|g gs IH]; intros st Hst; cbn [resolve_groups].
  { split_and!; [done|done|split; [by intros _ g Hg%elem_of_nil|done]|]. intros p. rewrite elem_of_nil. split; [done|]. intros (id & e & _ & _ & Hx). by apply Exists_nil in Hx. }
  pose proof (GetPolicyGroup_spec st r g Hst Hu) as Hg. destruct (GetPolicyGroup st r g) as [st1 found]. destruct Hg as (G1 & G2 & G3). specialize (IH st1 G1).
  assert (∀ p, (∃ id e, policies r !! id = Some e ∧ ePolicy e = p ∧ Exists (λ x, x ∈ Groups e) (g :: gs)) ↔
    (∃ id e, policies r !! id = Some e ∧ ePolicy e = p ∧ g ∈ Groups e) ∨ ∃ id e, policies r !! id = Some e ∧ ePolicy e = p ∧ Exists (λ x, x ∈ Groups e) gs) as Hcons.
  { intros p. setoid_rewrite Exists_cons. naive_solver. }
  assert (∀ ps errs, (errs = [] ↔ has_policies r g) → (∀ p, p ∈ ps ↔ ∃ id e, policies r !! id = Some e ∧ ePolicy e = p ∧ g ∈ Groups e) →
    let '(st', ps, errs) := let '(st, ps', errs') := resolve_groups st1 r gs in (st, ps ++ ps', errs ++ errs') in
    store_ok shuffle U st' ∧ ext st st' ∧ (errs = [] ↔ ∀ x, x ∈ g :: gs → has_policies r x) ∧
    ∀ p, p ∈ ps ↔ ∃ id e, policies r !! id = Some e ∧ ePolicy e = p ∧ Exists (λ x, x ∈ Groups e) (g :: gs)) as Hgo.
  { intros ps errs He Hps. destruct (resolve_groups st1 r gs) as [[st2 ps'] errs']. destruct IH as (I1 & I2 & I3 & I4). split_and!; [done|by etrans| |].
    - rewrite app_nil, He, I3. setoid_rewrite elem_of_cons. naive_solver.
    - intros p. by rewrite elem_of_app, Hps, I4, Hcons. }
  destruct found as [s|e].
  - destruct G3 as (S1 & S2 & S3). rewrite bool_decide_eq_false_2 by (intros Hl; by apply nil_length_inv in Hl). apply Hgo.
    + split; [intros _|done]. destruct (Scopes.Policies st1 s) as [|p ps]; [done|]. assert (p ∈ (map_to_list (declared r [g] [])).*2) as Hin by (rewrite <- S2; by left).
      apply list_elem_of_fmap in Hin as ([id q] & _ & Hq%elem_of_map_to_list). apply declared_lookup in Hq as (e & He & _ & [Hn%elem_of_nil|Hx]); [done|]. apply Exists_cons in Hx as [Hx|Hx%Exists_nil]; [|done]. by exists id, e.
    + intros p. rewrite S2, list_elem_of_fmap. split.
      * intros ([id q] & -> & Hq%elem_of_map_to_list). apply declared_lookup in Hq as (e & He & Hp & [Hn%elem_of_nil|Hx]); [done|]. apply Exists_cons in Hx as [Hx|Hx%Exists_nil]; [|done]. by exists id, e.
      * intros (id & e & He & <- & Hg). exists (id, ePolicy e). split; [done|]. apply elem_of_map_to_list, declared_lookup. exists e. split_and!; [done..|]. right. apply Exists_cons. by left.
  - apply Hgo; [split; [done|]; intros (id & x & Hx & Hg); by destruct (G3 id x Hx)|]. intros p. rewrite elem_of_nil. split; [done|]. intros (id & x & Hx & _ & Hg). by destruct (G3 id x Hx).
Qed.

Lemma resolve_ids_spec r ids :
  (∀ p, p ∈ (resolve_ids r ids).1 ↔ ∃ id e, policies r !! id = Some e ∧ ePolicy e = p ∧ id ∈ ids) ∧ ((resolve_ids r ids).2 = [] ↔ ∀ id, id ∈ ids → is_Some (policies r !! id)).
Proof.
  unfold resolve_ids, GetPolicy. cbn [fst snd]. split.
  - intros p. rewrite list_elem_of_omap. split.
    + intros (id & Hin & He). destruct (policies r !! id) as [e|] eqn:Ee; [|done]. injection He as <-. eauto.
    + intros (id & e & He & <- & Hin). exists id. by rewrite He.
  - split.
    + intros Hnil id Hin. destruct (policies r !! id) as [e|] eqn:Ee; [by eexists|]. exfalso.
      assert ((id, ErrPolicyNotFound) ∈ omap (λ id, match match policies r !! id with Some e => Ok (ePolicy e) | None => Err ErrPolicyNotFound end with Ok _ => None | Err e => Some (id, e) end) ids) as Hx.
      { apply list_elem_of_omap. exists id. by rewrite Ee. }
      rewrite Hnil in Hx. by apply elem_of_nil in Hx.
    + intros Hall. apply omap_none, Forall_forall. intros id Hin. by destruct (Hall id Hin) as [e ->].
Qed.

Lemma resolveScope_spec st r gs ids :
  store_ok shuffle U st → in_use r →
  let '(st', res) := resolveScope st r gs ids in
  store_ok shuffle U st' ∧ ext st st' ∧
  match res with Ok s => scope_ok st' s ∧ abs st' s = declared r gs ids ∧ resolvable r gs ids | Err _ => ¬ resolvable r gs ids end.
Proof.
  intros Hst Hu. unfold resolveScope. pose proof (resolve_groups_spec st r gs Hst Hu) as Hg. destruct (resolve_groups st r gs) as [[st1 ps] errs]. destruct Hg as (G1 & G2 & G3 & G4).
  destruct (resolve_ids_spec r ids) as [I1 I2]. destruct (resolve_ids r ids) as [ps' errs']. cbn [fst snd] in *. case_bool_decide as Hnil.
  - apply app_nil in Hnil as [He He']. destruct Hu as [[_ _ H3] Hu].
    assert (∀ p, p ∈ ps ++ ps' ↔ ∃ id, declared r gs ids !! id = Some p) as Hps.
    { intros p. rewrite elem_of_app, G4, I1. setoid_rewrite declared_lookup. unfold named. cbn [fst snd]. naive_solver. }
    pose proof (makeScope_yields shuffle hash U shuffle_perm st1 (ps ++ ps') G1) as Hy. destruct (makeScope shuffle hash st1 (ps ++ ps')) as [st2 s].
    destruct Hy as (Y1 & Y2 & Y3 & Y4); [apply Forall_forall; intros p (id & (e & He2 & <- & _)%declared_lookup)%Hps; by eapply Hu|]. cbn [fst snd] in *. split_and!; [done|by etrans|done| |by split; [apply G3|apply I2]].
    rewrite Y4. apply policies_map_lookup.
    + intros p [id Hp]%Hps. pose proof Hp as (e & He2 & <- & _)%declared_lookup. by rewrite (H3 id e He2).
    + intros id p Hp. split; [apply Hps; eauto|]. apply declared_lookup in Hp as (e & He2 & <- & _). by apply H3.
  - split_and!; [done|done|]. intros [Ha Hb]. apply Hnil, app_nil. split; [by apply G3|by apply I2].
Qed.

(** ** The decision *)

(** The policies in force permit a request: one of them, and none denies it. *)
Definition permitted (m : gmap ID Policy) (a : Actor) (action resource : str) (meta : gmap string V) : Prop :=
  (∃ id p, m !! id = Some p ∧ Evaluate p a action resource meta = Allow) ∧ ∀ id p, m !! id = Some p → Evaluate p a action resource meta ≠ Deny.

Lemma ask_map_allow m a action resource meta : ask_map m a action resource meta = Allow ↔ permitted m a action resource meta.
Proof.
  unfold ask_map, ask_all, combine, permitted. assert (∀ res, res ∈ (λ p, Evaluate p a action resource meta) <$> (map_to_list m).*2 ↔ ∃ id p, m !! id = Some p ∧ Evaluate p a action resource meta = res) as Hin.
  { intros res. rewrite list_elem_of_fmap. split.
    - intros (p & -> & ([id q] & -> & Hq%elem_of_map_to_list)%list_elem_of_fmap). eauto.
    - intros (id & p & Hp & <-). exists p. split; [done|]. apply list_elem_of_fmap. exists (id, p). by rewrite elem_of_map_to_list. }
  case_bool_decide as Hd; rewrite Hin in Hd.
  - split; [done|]. intros [_ Hno]. destruct Hd as (id & p & Hp & He). by destruct (Hno id p Hp).
  - case_bool_decide as Ha; rewrite Hin in Ha; (split; [try done|by intros [? _]]). intros _. split; [done|]. intros id p Hp He. apply Hd. eauto.
Qed.

Lemma IsAllowed_spec st a s reg action resource meta :
  store_ok shuffle U st → scope_ok st s →
  (IsAllowed st (mkFrame (Some a) (Some s) reg) action resource meta).2 = true ↔ permitted (abs st s) a action resource meta.
Proof.
  intros Hst Hs. unfold IsAllowed. cbn [fActor fScope]. pose proof (EvaluateScope_spec shuffle U shuffle_perm st s a action resource meta Hst Hs) as He.
  destruct (EvaluateScope shuffle st s a action resource meta) as [st' res]. destruct He as (_ & _ & ->). cbn. by rewrite bool_decide_eq_true, ask_map_allow.
Qed.

Lemma empty_spec (st : store) s : scope_ok st s → empty st s = bool_decide (abs st s = ∅).
Proof.
  intros [_ Hn _]. unfold empty. apply eq_true_iff_eq. rewrite bool_decide_eq_true, forallb_forall. setoid_rewrite <- list_elem_of_In. setoid_rewrite bool_decide_eq_true. split.
  - intros Hall. assert (entries st s = []) as He; [|unfold abs; by rewrite He]. clear Hn. induction s as [|ptr s IH]; [done|]. change (entries st (ptr :: s)) with (ordered (seg_at st ptr) ++ entries st s).
    rewrite IH, app_nil_r by (intros x Hx; apply Hall; by right). apply nil_length_inv, Hall. by left.
  - intros Hm ptr Hin. destruct (ordered (seg_at st ptr)) as [|e es] eqn:Eo; [done|]. exfalso. assert (abs st s !! eid e = Some (policy e)) as Hl.
    { apply map_of_lookup; [done|]. exists e. split; [|done]. unfold entries. apply list_elem_of_bind. exists ptr. rewrite Eo. split; [by left|done]. }
    by rewrite Hm, lookup_empty in Hl.
Qed.

(** What a frame has before: a scope that was made, and a registry *)
Definition frame_ok (st : store) (f : Frame) : Prop :=
  (∀ s, fScope f = Some s → scope_ok st s) ∧ ∀ r, fRegistry f = Some r → in_use r.

Definition inherited (st : store) (f : Frame) : gmap ID Policy := from_option (abs st) ∅ (fScope f).

Definition acting (f : Frame) (c : Config) : Actor := if actorConfigured (cActor c) then cActor c else default (cActor c) (fActor f).


Lemma new_store_ok : store_ok shuffle U new_store.
Proof. split; [done|]. intros sh t. cbn. by rewrite lookup_empty. Qed.

End access.

(** *** An example: a policy in a group, and a configuration that names the group *)

Definition example_event (p : @Policy unit) : event := mkEvent "policy.register" "app:read" (Some (mkPayload None (Some p) [mkID "app" "readers" ""])).

Definition example_registry (p : @Policy unit) : PolicyRegistry := (handleEvent (λ _, false) NewPolicyRegistry (example_event p)).1.

Lemma example_step p : rtc step NewPolicyRegistry (example_registry p).
Proof. apply rtc_once, step_event. intros _ d q _ _. cbn. apply lookup_empty. Qed.

Lemma example_entry p : policies (example_registry p) = {[pID p := mkPolicyEntry p [mkID "app" "readers" ""]]}.
Proof. reflexivity. Qed.

Lemma groups_follow_policies_witness :
  ∃ p, p ∈ example_policies ∧ rtc step NewPolicyRegistry (example_registry p) ∧ pID p ∈ default [] (groups (example_registry p) !! mkID "app" "readers" "").
Proof.
  assert (∃ p, p ∈ example_policies) as [p Hp] by (exists (default (mkPolicy (mkID "" "" "") (λ _ _ _ _, Undefined) None) (head example_policies)); by left).
  exists p. split; [exact Hp|]. split; [apply example_step|]. apply (groups_follow_policies (example_registry p) (mkID "app" "readers" "") (pID p) (example_step p)).
  exists (mkPolicyEntry p [mkID "app" "readers" ""]). split; [rewrite example_entry; apply lookup_singleton_eq|by left].
Defined.

Definition example_frame (p : @Policy unit) : Frame := mkFrame None None (Some (example_registry p)).

Definition example_config : @Config unit := mkSecurity (mkActor ∅ "ann") [mkID "app" "readers" ""] [].

Lemma example_in_use p : p ∈ example_policies → in_use example_policies (example_registry p).
Proof.
  intros Hp. split; [eapply steps_inv; [apply example_step|apply new_registry_inv]|]. intros id e. rewrite example_entry. intros [_ <-]%lookup_singleton_Some. exact Hp.
Qed.


End Access.
