(* ===== verification/Topology.v ===== *)
(** * Process topology ([system/topology/topology.go])

    Which processes watch and which are linked to each other. A process may monitor another
    one, and is told when it exits; a link goes both ways, and tells either side when the
    other one fails. Processes of other nodes take part through requests that are sent to
    their node.

    The processes are spread over shards, each with a lock. What a call does while it holds
    its locks is one step here; a call that releases its locks in between, to send a package
    or to go on with another shard, is kept as a [task] and continues in later steps, which
    interleave with those of every other call. Memory that the code identifies by its
    address ([monitorAttempt], [callerLifetime]) is a number from a counter.

    The theorems: when no call is under way, links are symmetric, watchers and watched
    agree, and nothing refers to a process that is gone; a process that monitors another
    one is told when that exits, and when the node of that is lost. *)

From S2P Require Import Prelude Bytes GoStrings Pid.
Import Pid.

Module Topo.

(** ** Data *)

Record watchedProcess := mkWatched { attempt : option nat; wPID : PID }.

Record processState := mkState {
  remoteLifetime : option nat;
  watchers : gmap string PID;
  links : gmap string PID;
  watching : gmap string watchedProcess;
  pid : PID
}.

Definition numShards : nat := 32.

Record Topology := mkTopology { shards : list (gmap string processState); nodeIndex : gmap string (list string); allocated : nat }.

(** What processes return, and their errors *)
Inductive error {X : Type} :=
| ErrPIDAlreadyRegistered | ErrPIDNotRegistered (pid operation role : string) | ErrAlreadyMonitoring
| ErrSend | ErrPeerTarget (operation : string) (target caller : PID) | ErrProcess (x : X).
#[global] Arguments error : clear implicits.

Record Result {V X : Type} := mkResult { Value : option V; Error : option (error X) }.
#[global] Arguments Result : clear implicits.
#[global] Arguments mkResult {_ _}.

Inductive Kind := Exit | LinkDown | MonitorDown.

Inductive body {V X : Type} :=
| ExitEvent (kind : Kind) (from : PID) (result : Result V X)
| MonitorRequest (caller target : PID) | MonitorRelease (caller target : PID)
| LinkRequest (from to : PID) | UnlinkRequest (from to : PID).
#[global] Arguments body : clear implicits.

Record Package {V X : Type} := mkPackage { Source : PID; Target : PID; Body : body V X }.
#[global] Arguments Package : clear implicits.
#[global] Arguments mkPackage {_ _}.

Section topology.
Context {V X : Type}.
Notation error := (error X).
Notation Result := (Result V X).
Notation Package := (Package V X).

(** The address of the topology itself and the node it runs on *)
Context (SystemPID : PID) (localNodeID : string).

(** The order in which Go visits the entries of a map *)
Context (shuffle : ∀ A, list A → list A).

Definition NewTopology : Topology := mkTopology (replicate numShards ∅) ∅ 0.

Definition isRemote (p : PID) : bool := negb (bool_decide (Node p = "")) && negb (bool_decide (Node p = localNodeID)).

(** *** Shards *)

Fixpoint fnv (h : Z) (key : list ascii) : Z :=
  match key with
  | [] => h
  | c :: key => fnv (u32 (Z.lxor h (Z.of_nat (nat_of_ascii c)) * 16777619)) key
  end.

Definition shardIndex (key : string) : nat := Z.to_nat (Z.land (fnv 2166136261 (bytes_of key)) (Z.of_nat numShards - 1)).

Definition process (t : Topology) (key : string) : option processState := shards t !! shardIndex key ≫= λ sh, sh !! key.

Definition update (t : Topology) (key : string) (f : option processState → option processState) : Topology :=
  mkTopology (alter (partial_alter f key) (shardIndex key) (shards t)) (nodeIndex t) (allocated t).

Definition set_watchers (s : processState) (m : gmap string PID) : processState := mkState (remoteLifetime s) m (links s) (watching s) (pid s).
Definition set_links (s : processState) (m : gmap string PID) : processState := mkState (remoteLifetime s) (watchers s) m (watching s) (pid s).
Definition set_watching (s : processState) (m : gmap string watchedProcess) : processState := mkState (remoteLifetime s) (watchers s) (links s) m (pid s).
Definition set_lifetime (s : processState) (l : option nat) : processState := mkState l (watchers s) (links s) (watching s) (pid s).

Definition modify (t : Topology) (key : string) (f : processState → processState) : Topology := update t key (fmap f).

(** [new] of a type that is only compared by address *)
Definition allocate (t : Topology) : Topology * nat := (mkTopology (shards t) (nodeIndex t) (S (allocated t)), allocated t).

(** *** The index of nodes *)

Definition set_index (t : Topology) (m : gmap string (list string)) : Topology := mkTopology (shards t) m (allocated t).

Definition addToNodeIndex (t : Topology) (node key : string) : Topology :=
  set_index t (<[node := default [] (nodeIndex t !! node) ++ [key]]> (nodeIndex t)).

Fixpoint remove_first (key : string) (l : list string) : list string :=
  match l with
  | [] => []
  | k :: l => if bool_decide (k = key) then l else k :: remove_first key l
  end.

Definition removeFromNodeIndex (t : Topology) (node key : string) : Topology :=
  match nodeIndex t !! node with
  | None => t
  | Some keys =>
      let keys := remove_first key keys in
      set_index t (if bool_decide (keys = []) then delete node (nodeIndex t) else <[node := keys]> (nodeIndex t))
  end.

Definition detachNodeIndex (t : Topology) (node : string) : Topology * list string :=
  (set_index t (delete node (nodeIndex t)), default [] (nodeIndex t !! node)).

(** ** Calls *)

(** A reference that the end of a process leaves in another one *)
Inductive reference := InLinks (key : string) | InWatching (key : string) | InWatchers (key : string).

(** Where a call that has released its locks goes on *)
Inductive task :=
| MonitorSend (caller target : PID) (lifetime : nat)
| MonitorAdd (caller target : PID) (lifetime : nat)
| DemonitorSend (caller target : PID) (observed : option nat)
| DemonitorDelete (caller target : PID) (observed : option nat)
| LinkSend (from to : PID)
| LinkAdd (from to : PID)
| UnlinkSend (from to : PID)
| UnlinkDelete (from to : PID)
| Reply (p : Package)
| Cleaning (p : PID) (todo : list reference) (packages : list Package)
| Sending (packages : list Package)
| Sweeping (node : string) (dead : list string) (shard : nat) (toNotify : list (PID * PID * Kind)) (exitErr : error).

Inductive call := Returned (e : option error) | Running (k : task).

Definition done (t : Topology) : Topology * call := (t, Returned None).
Definition fail (t : Topology) (e : error) : Topology * call := (t, Returned (Some e)).

Definition Register (t : Topology) (p : PID) : Topology * call :=
  let key := toString p in
  match process t key with
  | Some _ => fail t ErrPIDAlreadyRegistered
  | None =>
      let t := update t key (λ _, Some (mkState None ∅ ∅ ∅ p)) in
      done (if bool_decide (Node p = "") then t else addToNodeIndex t (Node p) key)
  end.

(** *** Monitors *)

Definition monitorFromPeer (t : Topology) (caller target : PID) : Topology * call :=
  let key := toString target in
  match process t key with
  | Some _ => done (modify t key (λ s, set_watchers s (<[toString caller := caller]> (watchers s))))
  | None => (t, Running (Reply (mkPackage target caller (ExitEvent Exit target (mkResult None (Some (ErrPeerTarget "monitor" target caller)))))))
  end.

Definition demonitorFromPeer (t : Topology) (caller target : PID) : Topology * call :=
  done (modify t (toString target) (λ s, set_watchers s (delete (toString caller) (watchers s)))).

(** Both shards are locked: [monitorSameShard] and [monitorDifferentShards]. *)
Definition monitorLocal (t : Topology) (caller target : PID) : Topology * call :=
  let callerKey := toString caller in
  let targetKey := toString target in
  match process t targetKey with
  | None => fail t (ErrPIDNotRegistered targetKey "monitor" "")
  | Some targetState =>
      match watchers targetState !! callerKey with
      | Some _ => fail t ErrAlreadyMonitoring
      | None =>
          let t := modify t targetKey (λ s, set_watchers s (<[callerKey := caller]> (watchers s))) in
          done (modify t callerKey (λ s, set_watching s (<[targetKey := mkWatched None target]> (watching s))))
      end
  end.

Definition Monitor (t : Topology) (caller target : PID) : Topology * call :=
  let callerKey := toString caller in
  if isRemote target then
    match process t callerKey with
    | None => fail t (ErrPIDNotRegistered callerKey "monitor" "caller")
    | Some callerState =>
        match remoteLifetime callerState with
        | Some lifetime => (t, Running (MonitorSend caller target lifetime))
        | None =>
            let '(t, lifetime) := allocate t in
            (modify t callerKey (λ s, set_lifetime s (Some lifetime)), Running (MonitorSend caller target lifetime))
        end
    end
  else if isRemote caller then monitorFromPeer t caller target
  else monitorLocal t caller target.

Definition demonitorLocal (t : Topology) (caller target : PID) : Topology * call :=
  let t := modify t (toString target) (λ s, set_watchers s (delete (toString caller) (watchers s))) in
  done (modify t (toString caller) (λ s, set_watching s (delete (toString target) (watching s)))).

Definition Demonitor (t : Topology) (caller target : PID) : Topology * call :=
  if isRemote target then
    let observed := process t (toString caller) ≫= λ s, watching s !! toString target ≫= attempt in
    (t, Running (DemonitorSend caller target observed))
  else if isRemote caller then demonitorFromPeer t caller target
  else demonitorLocal t caller target.

(** *** Links *)

Definition linkFromPeer (t : Topology) (from to : PID) : Topology * call :=
  let key := toString to in
  match process t key with
  | Some _ => done (modify t key (λ s, set_links s (<[toString from := from]> (links s))))
  | None => (t, Running (Reply (mkPackage SystemPID from (ExitEvent LinkDown to (mkResult None (Some (ErrPeerTarget "link" to from)))))))
  end.

Definition unlinkFromPeer (t : Topology) (from to : PID) : Topology * call :=
  done (modify t (toString to) (λ s, set_links s (delete (toString from) (links s)))).

(** [linkSameShard] and [linkDifferentShards] *)
Definition linkLocal (t : Topology) (from to : PID) : Topology * call :=
  let fromKey := toString from in
  let toKey := toString to in
  match process t fromKey with
  | None => fail t (ErrPIDNotRegistered fromKey "link" "from")
  | Some fromState =>
      match process t toKey with
      | None => fail t (ErrPIDNotRegistered toKey "link" "to")
      | Some _ =>
          match links fromState !! toKey with
          | Some _ => done t
          | None =>
              let t := modify t fromKey (λ s, set_links s (<[toKey := to]> (links s))) in
              done (modify t toKey (λ s, set_links s (<[fromKey := from]> (links s))))
          end
      end
  end.

Definition Link (t : Topology) (from to : PID) : Topology * call :=
  let fromKey := toString from in
  if isRemote to then
    match process t fromKey with
    | None => fail t (ErrPIDNotRegistered fromKey "link" "from")
    | Some fromState =>
        match links fromState !! toString to with
        | Some _ => done t
        | None => (t, Running (LinkSend from to))
        end
    end
  else if isRemote from then linkFromPeer t from to
  else linkLocal t from to.

Definition unlinkLocal (t : Topology) (from to : PID) : Topology * call :=
  let t := modify t (toString from) (λ s, set_links s (delete (toString to) (links s))) in
  done (modify t (toString to) (λ s, set_links s (delete (toString from) (links s)))).

Definition Unlink (t : Topology) (from to : PID) : Topology * call :=
  if isRemote to then (t, Running (UnlinkSend from to))
  else if isRemote from then unlinkFromPeer t from to
  else unlinkLocal t from to.

Definition GetLinks (t : Topology) (p : PID) : list PID :=
  match process t (toString p) with
  | None => []
  | Some s => (map_to_list (links s)).*2
  end.

(** *** The end of a process *)

(** The references to remove, in the order of [cleanupReferences] *)
Definition references (s : processState) : list reference :=
  (InLinks <$> shuffle _ (map_to_list (links s)).*1) ++
  (InWatching <$> shuffle _ (map_to_list (watchers s)).*1) ++
  (InWatchers <$> shuffle _ (map_to_list (watching s)).*1).

Definition drop_reference (t : Topology) (key : string) (r : reference) : Topology :=
  match r with
  | InLinks k => modify t k (λ s, set_links s (delete key (links s)))
  | InWatching k => modify t k (λ s, set_watching s (delete key (watching s)))
  | InWatchers k => modify t k (λ s, set_watchers s (delete key (watchers s)))
  end.

(** What the watchers, the linked processes and the remote targets are told *)
Definition notifications (p : PID) (s : processState) (result : Result) : list Package :=
  ((λ w, mkPackage p w (ExitEvent Exit p result)) <$> shuffle _ (map_to_list (watchers s)).*2) ++
  (match Error result with
   | None => []
   | Some _ => (λ l, mkPackage SystemPID l (ExitEvent LinkDown p result)) <$> shuffle _ (map_to_list (links s)).*2
   end) ++
  ((λ w, mkPackage p (wPID w) (MonitorRelease p (wPID w))) <$> base.filter (λ w, isRemote (wPID w) = true) (shuffle _ (map_to_list (watching s)).*2)).

Definition finish (t : Topology) (p : PID) (packages : processState → list Package) : Topology * call :=
  let key := toString p in
  match process t key with
  | None => done t
  | Some s => (update t key (λ _, None), Running (Cleaning p (references s) (packages s)))
  end.

Definition Complete (t : Topology) (p : PID) (result : Result) : Topology * call := finish t p (λ s, notifications p s result).

Definition Remove (t : Topology) (p : PID) : Topology * call := finish t p (λ _, []).

(** *** The loss of a node *)

Definition on_node (node : string) (p : PID) : bool := bool_decide (Node p = node).

Definition notices (node : string) (s : processState) : list (PID * PID * Kind) :=
  ((λ w, (pid s, wPID w, MonitorDown)) <$> base.filter (λ w, on_node node (wPID w) = true) (shuffle _ (map_to_list (watching s)).*2)) ++
  ((λ l, (pid s, l, LinkDown)) <$> base.filter (λ l, on_node node l = true) (shuffle _ (map_to_list (links s)).*2)).

Definition forget_node (node : string) (s : processState) : processState :=
  mkState (remoteLifetime s)
    (base.filter (λ kv, on_node node kv.2 = false) (watchers s))
    (base.filter (λ kv, on_node node kv.2 = false) (links s))
    (base.filter (λ kv, on_node node (wPID kv.2) = false) (watching s)) (pid s).

Definition sweep (node : string) (dead : list string) (sh : gmap string processState) : gmap string processState :=
  map_imap (λ key s, if bool_decide (key ∈ dead) then None else Some (forget_node node s)) sh.

Definition HandleNodeExit (t : Topology) (node : string) (exitErr : error) : Topology * call :=
  let '(t, dead) := detachNodeIndex t node in (t, Running (Sweeping node dead 0 [] exitErr)).

Definition down_package (exitErr : error) (n : PID * PID * Kind) : Package :=
  let '(caller, target, kind) := n in mkPackage SystemPID caller (ExitEvent kind target (mkResult None (Some exitErr))).

(** *** The next step of a call: [ok] says whether a package is accepted by the router. *)
Definition resume (t : Topology) (k : task) (ok : bool) : Topology * list Package * call :=
  match k with
  | MonitorSend caller target lifetime =>
      (t, [mkPackage caller target (MonitorRequest caller target)], if ok then Running (MonitorAdd caller target lifetime) else Returned (Some ErrSend))
  | MonitorAdd caller target lifetime =>
      let gone := (t, [], Returned (Some (ErrPIDNotRegistered (toString caller) "monitor" "caller"))) in
      match process t (toString caller) with
      | None => gone
      | Some s =>
          if bool_decide (remoteLifetime s = Some lifetime) then
            let '(t, a) := allocate t in
            (modify t (toString caller) (λ s, set_watching s (<[toString target := mkWatched (Some a) target]> (watching s))), [], Returned None)
          else gone
      end
  | DemonitorSend caller target observed =>
      (t, [mkPackage caller target (MonitorRelease caller target)], if ok then Running (DemonitorDelete caller target observed) else Returned (Some ErrSend))
  | DemonitorDelete caller target observed =>
      (modify t (toString caller) (λ s,
         if bool_decide (observed ≠ None ∧ (watching s !! toString target ≫= attempt) = observed) then set_watching s (delete (toString target) (watching s)) else s),
       [], Returned None)
  | LinkSend from to =>
      (t, [mkPackage from to (LinkRequest from to)], if ok then Running (LinkAdd from to) else Returned (Some ErrSend))
  | LinkAdd from to =>
      (modify t (toString from) (λ s, if bool_decide (pid s = from) then set_links s (<[toString to := to]> (links s)) else s), [], Returned None)
  | UnlinkSend from to =>
      (t, [mkPackage from to (UnlinkRequest from to)], if ok then Running (UnlinkDelete from to) else Returned (Some ErrSend))
  | UnlinkDelete from to =>
      (modify t (toString from) (λ s, set_links s (delete (toString to) (links s))), [], Returned None)
  | Reply p => (t, [p], Returned (if ok then None else Some ErrSend))
  | Cleaning p (r :: todo) packages => (drop_reference t (toString p) r, [], Running (Cleaning p todo packages))
  | Cleaning p [] packages =>
      (if bool_decide (Node p = "") then t else removeFromNodeIndex t (Node p) (toString p), [], Running (Sending packages))
  | Sending (p :: packages) => (t, [p], Running (Sending packages))
  | Sending [] => (t, [], Returned None)
  | Sweeping node dead i toNotify exitErr =>
      match shards t !! i with
      | Some sh =>
          (mkTopology (<[i := sweep node dead sh]> (shards t)) (nodeIndex t) (allocated t), [],
           Running (Sweeping node dead (S i) (toNotify ++ (shuffle _ (map_to_list sh).*2 ≫= notices node)) exitErr))
      | None => (t, [], Running (Sending (down_package exitErr <$> toNotify)))
      end
  end.

(** ** Runs *)

Record system := mkSystem { topo : Topology; calls : list call; sent : list Package }.

Inductive label :=
| LRegister (p : PID) | LMonitor (caller target : PID) | LDemonitor (caller target : PID)
| LLink (from to : PID) | LUnlink (from to : PID) | LComplete (p : PID) (result : Result) | LRemove (p : PID)
| LNodeExit (node : string) (exitErr : error)
| LNext (i : nat) (ok : bool).

Definition enter (s : system) (r : Topology * call) : option system := Some (mkSystem r.1 (calls s ++ [r.2]) (sent s)).

Definition step (s : system) (l : label) : option system :=
  match l with
  | LRegister p => enter s (Register (topo s) p)
  | LMonitor c t => enter s (Monitor (topo s) c t)
  | LDemonitor c t => enter s (Demonitor (topo s) c t)
  | LLink a b => enter s (Link (topo s) a b)
  | LUnlink a b => enter s (Unlink (topo s) a b)
  | LComplete p r => enter s (Complete (topo s) p r)
  | LRemove p => enter s (Remove (topo s) p)
  | LNodeExit n e => enter s (HandleNodeExit (topo s) n e)
  | LNext i ok =>
      match calls s !! i with
      | Some (Running k) => let '(t, out, c) := resume (topo s) k ok in Some (mkSystem t (<[i := c]> (calls s)) (sent s ++ out))
      | _ => None
      end
  end.

Definition new_system : system := mkSystem NewTopology [] [].

Definition registered (s : system) (p : PID) : Prop := is_Some (process (topo s) (toString p)).

(** The end of the process is under way: it is no longer registered, but others still refer
    to it. *)
Definition ending (s : system) (key : string) : Prop :=
  ∃ i p todo packages, calls s !! i = Some (Running (Cleaning p todo packages)) ∧ toString p = key.

(** Processes that monitor without being registered *)
Context (service : PID → Prop).

(** How the runtime calls the topology: identifiers have an unambiguous text, one is not
    used again while its process is ending, and only registered processes, services and
    other nodes monitor. *)
Definition admissible (s : system) (l : label) : Prop :=
  match l with
  | LRegister p => pid_ok p ∧ ¬ ending s (toString p) ∧ ¬ service p
  | LMonitor c t => pid_ok c ∧ pid_ok t ∧ (registered s c ∨ service c ∨ isRemote c = true)
  | LDemonitor a b | LLink a b | LUnlink a b => pid_ok a ∧ pid_ok b
  | LComplete p _ | LRemove p => pid_ok p
  | LNodeExit n _ => n ≠ "" ∧ n ≠ localNodeID
  | LNext _ _ => True
  end.

Inductive run (s : system) : list label → system → Prop :=
| run_nil : run s [] s
| run_cons l ls s1 s2 : admissible s l → step s l = Some s1 → run s1 ls s2 → run s (l :: ls) s2.

Definition reachable (s : system) : Prop := ∃ ls, run new_system ls s.

(** No call is under way. *)
Definition at_rest (s : system) : Prop := Forall (λ c, ∃ e, c = Returned e) (calls s).

(** ** The shards as one table *)

Lemma shardIndex_lt key : (shardIndex key < numShards)%nat.
Proof.
  unfold shardIndex. change (Z.of_nat numShards - 1) with (Z.ones 5). rewrite Z.land_ones by lia.
  pose proof (Z.mod_pos_bound (fnv 2166136261 (bytes_of key)) (2 ^ 5) ltac:(lia)). change (2 ^ 5) with 32 in *. unfold numShards. lia.
Qed.

Definition sharded (t : Topology) : Prop := length (shards t) = numShards.

Lemma process_update t key f k : sharded t →
  process (update t key f) k = if decide (k = key) then f (process t key) else process t k.
Proof.
  intros Ht. unfold process, update. cbn [shards].
  assert (∃ sh, shards t !! shardIndex key = Some sh) as [sh Hsh] by (apply lookup_lt_is_Some; rewrite Ht; apply shardIndex_lt).
  destruct (decide (k = key)) as [->|Hne].
  - rewrite list_lookup_alter_eq, Hsh. cbn. apply lookup_partial_alter_eq.
  - destruct (decide (shardIndex key = shardIndex k)) as [He|Hs].
    + rewrite <- He, list_lookup_alter_eq, Hsh. cbn. by apply lookup_partial_alter_ne.
    + by rewrite list_lookup_alter_ne.
Qed.

Lemma sharded_update t key f : sharded t → sharded (update t key f).
Proof. unfold sharded, update. cbn. by rewrite length_alter. Qed.

Lemma process_modify t key f k : sharded t →
  process (modify t key f) k = if decide (k = key) then f <$> process t key else process t k.
Proof. intros. unfold modify. by rewrite process_update. Qed.

Hypothesis shuffle_perm : ∀ A l, shuffle A l ≡ₚ l.

(** ** Relations between processes of this node *)

Inductive column := Links | Watchers | Watching.

#[local] Instance column_eq_dec : EqDecision column.
Proof. solve_decision. Defined.

Definition entries (c : column) (s : processState) : gmap string PID :=
  match c with Links => links s | Watchers => watchers s | Watching => wPID <$> watching s end.

Definition mirror (c : column) : column := match c with Links => Links | Watchers => Watching | Watching => Watchers end.

Definition ref (c : column) (key : string) : reference :=
  match c with Links => InLinks key | Watchers => InWatchers key | Watching => InWatching key end.

Definition entry_at (t : Topology) (c : column) (x y : string) : option PID := process t x ≫= λ s, entries c s !! y.

Definition edge (t : Topology) (c : column) (x y : string) : Prop := ∃ p, entry_at t c x y = Some p ∧ isRemote p = false.

Lemma mirror_mirror c : mirror (mirror c) = c.
Proof. by destruct c. Qed.

(** A change of one column of a process *)
Definition acts (f : processState → processState) (c : column) (g : gmap string PID → gmap string PID) : Prop :=
  ∀ s, pid (f s) = pid s ∧ entries c (f s) = g (entries c s) ∧ ∀ c', c' ≠ c → entries c' (f s) = entries c' s.

Lemma acts_watchers g : acts (λ s, set_watchers s (g (watchers s))) Watchers g.
Proof. intros s. split_and!; [done..|]. by intros []. Qed.

Lemma acts_links g : acts (λ s, set_links s (g (links s))) Links g.
Proof. intros s. split_and!; [done..|]. by intros []. Qed.

Lemma acts_watch k w : acts (λ s, set_watching s (<[k := w]> (watching s))) Watching (<[k := wPID w]>).
Proof. intros s. split_and!; [done|apply fmap_insert|]. by intros []. Qed.

Lemma acts_unwatch k : acts (λ s, set_watching s (delete k (watching s))) Watching (delete k).
Proof. intros s. split_and!; [done|apply fmap_delete|]. by intros []. Qed.

Lemma entry_modify t key f c g c' x y : sharded t → acts f c g →
  entry_at (modify t key f) c' x y = if decide (x = key ∧ c' = c) then process t key ≫= λ s, g (entries c s) !! y else entry_at t c' x y.
Proof.
  intros Ht Hf. unfold entry_at. rewrite process_modify by done. destruct (decide (x = key)) as [->|Hx]; [|by rewrite decide_False by tauto].
  destruct (process t key) as [s|]; cbn; [|by case_decide]. destruct (Hf s) as (_ & H1 & H2). case_decide as Hd.
  - destruct Hd as [_ ->]. by rewrite H1.
  - by rewrite H2 by tauto.
Qed.

(** ** Well-formed tables *)

Record state_ok (key : string) (s : processState) : Prop := {
  so_key : toString (pid s) = key;
  so_pid : pid_ok (pid s);
  so_entries c k p : entries c s !! k = Some p → toString p = k ∧ pid_ok p
}.

Definition lives_on (node key : string) : Prop := ∃ p, pid_ok p ∧ toString p = key ∧ Node p = node.

Definition is_local (key : string) : Prop := ∃ p, pid_ok p ∧ toString p = key ∧ isRemote p = false.

Record tables_ok (t : Topology) : Prop := {
  tb_sharded : sharded t;
  tb_states k s : process t k = Some s → state_ok k s;
  tb_index n keys k : nodeIndex t !! n = Some keys → k ∈ keys → lives_on n k;
  tb_local c x y : edge t c x y → is_local x
}.

Lemma entry_ok t c x y p : tables_ok t → entry_at t c x y = Some p → toString p = y ∧ pid_ok p.
Proof. intros Ht (s & Hs & He)%bind_Some. by eapply so_entries, He; apply Ht. Qed.

(** An entry for a process of another node is not an edge. *)
Lemma edge_remote t c x p : tables_ok t → pid_ok p → isRemote p = true → ¬ edge t c x (toString p).
Proof. intros Ht Hp Hr (q & [Hq Hok]%entry_ok & Hl); [|done]. apply toString_inj in Hq; [congruence|done..]. Qed.

(** The effect of one change on the edges *)
Lemma edge_modify t key f c g c' x y : sharded t → acts f c g →
  edge (modify t key f) c' x y ↔ (if decide (x = key ∧ c' = c) then ∃ s p, process t key = Some s ∧ g (entries c s) !! y = Some p ∧ isRemote p = false else edge t c' x y).
Proof.
  intros Ht Hf. unfold edge at 1. setoid_rewrite (entry_modify t key f c g c' x y Ht Hf). case_decide as Hd; [|done]. split.
  - intros (p & (s & Hs & Hp)%bind_Some & Hr). eauto.
  - intros (s & p & Hs & Hp & Hr). exists p. by rewrite Hs.
Qed.

Lemma edge_insert t key f c k p c' x y : tables_ok t → acts f c (<[k := p]>) → toString p = k → pid_ok p →
  edge (modify t key f) c' x y ↔ edge t c' x y ∨ c' = c ∧ x = key ∧ y = k ∧ is_Some (process t key) ∧ isRemote p = false.
Proof.
  intros Ht Hf Hk Hp. rewrite edge_modify by (done || apply Ht). case_decide as Hd; [destruct Hd as [-> ->]|naive_solver]. split.
  - intros (s & q & Hs & [[<- <-]|[Hne Hq]]%lookup_insert_Some & Hl); [right; eauto 6|]. left. exists q. unfold entry_at. by rewrite Hs.
  - intros [(q & (s & Hs & Hq)%bind_Some & Hl)|(_ & _ & -> & [s Hs] & Hl)].
    + destruct (decide (y = k)) as [->|Hy].
      * exists s, p. rewrite lookup_insert_eq. split_and!; [done..|]. destruct (so_entries key s (tb_states t Ht key s Hs) c k q Hq) as [E Hok].
        rewrite <- Hk in E. apply toString_inj in E; [by subst|done..].
      * exists s, q. by rewrite lookup_insert_ne.
    + exists s, p. by rewrite lookup_insert_eq.
Qed.

Lemma edge_delete t key f c k c' x y : tables_ok t → acts f c (delete k) →
  edge (modify t key f) c' x y ↔ edge t c' x y ∧ ¬ (c' = c ∧ x = key ∧ y = k).
Proof.
  intros Ht Hf. rewrite edge_modify by (done || apply Ht). case_decide as Hd; [destruct Hd as [-> ->]|naive_solver]. split.
  - intros (s & q & Hs & [Hne Hq]%lookup_delete_Some & Hl). split; [|naive_solver]. exists q. unfold entry_at. by rewrite Hs.
  - intros [(q & (s & Hs & Hq)%bind_Some & Hl) Hne]. exists s, q. rewrite lookup_delete_ne by naive_solver. done.
Qed.

(** *** What the changes keep *)

Lemma modify_ok t key f c g : tables_ok t → acts f c g →
  (∀ s k p, process t key = Some s → g (entries c s) !! k = Some p → toString p = k ∧ pid_ok p) →
  (∀ c x y, edge (modify t key f) c x y → is_local x) → tables_ok (modify t key f).
Proof.
  intros Ht Hf Hg Hl. split; [apply sharded_update, Ht| |apply Ht|done]. intros k s. rewrite process_modify by apply Ht.
  case_decide as Hd; [subst k|apply Ht]. destruct (process t key) as [s0|] eqn:E; [|done]. cbn. intros [= <-].
  destruct (tb_states t Ht key s0 E) as [S1 S2 S3]. destruct (Hf s0) as (F1 & F2 & F3). split; [by rewrite F1..|].
  intros c' k p. destruct (decide (c' = c)) as [->|Hc]; [rewrite F2; by apply Hg|rewrite F3 by done; by apply S3].
Qed.

Lemma insert_ok t key f c k p : tables_ok t → acts f c (<[k := p]>) → toString p = k → pid_ok p →
  (isRemote p = false → is_local key) → tables_ok (modify t key f).
Proof.
  intros Ht Hf Hk Hp Hl. eapply modify_ok; [done..| |].
  - intros s k' q Hs [[<- <-]|[_ Hq]]%lookup_insert_Some; [done|]. by eapply so_entries, Hq; apply Ht.
  - intros c' x y. rewrite edge_insert by done. intros [He|(_ & -> & _ & _ & ?)]; [by eapply tb_local|by apply Hl].
Qed.

Lemma delete_ok t key f c k : tables_ok t → acts f c (delete k) → tables_ok (modify t key f).
Proof.
  intros Ht Hf. eapply modify_ok; [done..| |].
  - intros s k' q Hs [_ Hq]%lookup_delete_Some. by eapply so_entries, Hq; apply Ht.
  - intros c' x y. rewrite edge_delete by done. intros [He _]. by eapply tb_local.
Qed.

(** ** The invariant *)

Definition cleaning (cs : list call) (y : string) (r : reference) : Prop :=
  ∃ i p todo packages, cs !! i = Some (Running (Cleaning p todo packages)) ∧ toString p = y ∧ r ∈ todo.

(** Every entry for a process of this node has its counterpart, or is about to be removed. *)
Definition mirrored (t : Topology) (cs : list call) : Prop := ∀ c x y, edge t c x y →
  (c = Watchers ∧ ∃ p, pid_ok p ∧ service p ∧ toString p = y) ∨ edge t (mirror c) y x ∨ cleaning cs y (ref c x).

Definition task_ok (k : task) : Prop :=
  match k with
  | MonitorSend a b _ | MonitorAdd a b _ | DemonitorSend a b _ | DemonitorDelete a b _
  | LinkSend a b | LinkAdd a b | UnlinkSend a b | UnlinkDelete a b => pid_ok a ∧ pid_ok b ∧ isRemote b = true
  | Cleaning p _ _ => pid_ok p
  | Sweeping n dead _ _ _ => n ≠ "" ∧ n ≠ localNodeID ∧ ∀ k, k ∈ dead → lives_on n k
  | Reply _ | Sending _ => True
  end.

Definition call_ok (c : call) : Prop := match c with Running k => task_ok k | Returned _ => True end.

Definition is_cleaning (c : call) : bool := match c with Running (Cleaning _ _ _) => true | _ => false end.

Record inv (s : system) : Prop := {
  in_tables : tables_ok (topo s);
  in_calls : Forall call_ok (calls s);
  in_gone key : ending s key → process (topo s) key = None;
  in_mirror : mirrored (topo s) (calls s)
}.

Lemma mirrored_same t t' cs cs' : (∀ c x y, edge t' c x y ↔ edge t c x y) → (∀ y r, cleaning cs y r → cleaning cs' y r) →
  mirrored t cs → mirrored t' cs'.
Proof. intros He Hc Hm c x y Hx%He. rewrite He. destruct (Hm c x y Hx) as [?|[?|?]]; eauto. Qed.

Lemma mirrored_pair t t' cs c a b : mirrored t cs →
  (∀ c' x y, edge t' c' x y ↔ edge t c' x y ∨ c' = c ∧ x = a ∧ y = b ∨ c' = mirror c ∧ x = b ∧ y = a) → mirrored t' cs.
Proof.
  intros Hm He c' x y [Hx|[(-> & -> & ->)|(-> & -> & ->)]]%He.
  - destruct (Hm c' x y Hx) as [?|[?|?]]; [tauto| |tauto]. right. left. apply He. by left.
  - right. left. apply He. tauto.
  - right. left. apply He. rewrite mirror_mirror. tauto.
Qed.

Lemma mirrored_unpair t t' cs c a b : mirrored t cs →
  (∀ c' x y, edge t' c' x y ↔ edge t c' x y ∧ ¬ (c' = c ∧ x = a ∧ y = b) ∧ ¬ (c' = mirror c ∧ x = b ∧ y = a)) → mirrored t' cs.
Proof.
  intros Hm He c' x y (Hx & H1 & H2)%He. destruct (Hm c' x y Hx) as [?|[Hy|?]]; [tauto| |tauto]. right. left. apply He. split; [done|]. split.
  - intros (Hc & -> & ->). apply H2. rewrite <- Hc, mirror_mirror. tauto.
  - intros (Hc & -> & ->). apply H1. split_and!; [|done..]. by destruct c, c'.
Qed.

Lemma cleaning_app cs c y r : cleaning cs y r → cleaning (cs ++ [c]) y r.
Proof. intros (i & p & todo & pk & Hi & H). exists i, p, todo, pk. split; [by apply lookup_app_l_Some|done]. Qed.

Lemma enter_inv s t c : inv s → tables_ok t → call_ok c → is_cleaning c = false → (∀ key, ending s key → process t key = None) →
  mirrored t (calls s) → inv (mkSystem t (calls s ++ [c]) (sent s)).
Proof.
  intros Hs Ht Hc Hn Hg Hm. split; cbn; [done|by apply Forall_app; split; [apply Hs|constructor]| |].
  - intros key (i & p & todo & pk & Hi & Hk). apply Hg. exists i, p, todo, pk. split; [|done]. cbn in Hi.
    apply lookup_app_Some in Hi as [Hi|[_ Hi]]; [done|]. apply list_lookup_singleton_Some in Hi as [_ ->]. done.
  - eapply mirrored_same, Hm; [done|]. intros y r. apply cleaning_app.
Qed.

Lemma next_inv s t i k c out : inv s → calls s !! i = Some (Running k) → is_cleaning (Running k) = false → is_cleaning c = false →
  tables_ok t → call_ok c → (∀ key, process (topo s) key = None → process t key = None) →
  (∀ c x y, edge t c x y ↔ edge (topo s) c x y) → inv (mkSystem t (<[i := c]> (calls s)) (sent s ++ out)).
Proof.
  intros Hs Hi Hk Hc Ht Ho Hg He. split; cbn; [done|by apply Forall_insert; [apply Hs|]| |].
  - intros key (j & p & todo & pk & Hj & Hy). apply Hg, (in_gone s Hs). exists j, p, todo, pk. split; [|done]. cbn in Hj.
    apply list_lookup_insert_Some in Hj as [(-> & -> & _)|[_ Hj]]; [done|done].
  - eapply mirrored_same, (in_mirror s Hs); [done|]. intros y r (j & p & todo & pk & Hj & H). exists j, p, todo, pk. split; [|done].
    rewrite list_lookup_insert_ne; [done|]. intros ->. rewrite Hi in Hj. injection Hj as ->. done.
Qed.

Lemma modify_none t key f k : sharded t → process t k = None → process (modify t key f) k = None.
Proof. intros Ht Hk. rewrite process_modify by done. case_decide; [by subst; rewrite Hk|done]. Qed.

Lemma modify_some t key f k : sharded t → is_Some (process (modify t key f) k) ↔ is_Some (process t k).
Proof. intros Ht. rewrite process_modify by done. case_decide; [subst|done]. by rewrite fmap_is_Some. Qed.

(** *** Calls on one node *)

Lemma local_key p : pid_ok p → isRemote p = false → is_local (toString p).
Proof. intros. by exists p. Qed.

Lemma monitorLocal_inv s a b : inv s → pid_ok a → pid_ok b → isRemote a = false → isRemote b = false → registered s a ∨ service a →
  inv (mkSystem (monitorLocal (topo s) a b).1 (calls s ++ [(monitorLocal (topo s) a b).2]) (sent s)).
Proof.
  intros Hs Ha Hb Hra Hrb Hreg. unfold monitorLocal. pose proof (in_tables s Hs) as Ht. destruct (process (topo s) (toString b)) as [sb|] eqn:Eb; [|by apply enter_inv; try apply Hs].
  destruct (watchers sb !! toString a); [by apply enter_inv; try apply Hs|]. unfold done. cbn [fst snd].
  set (t1 := modify (topo s) (toString b) _). pose proof (acts_watchers (<[toString a := a]>)) as A1. pose proof (acts_watch (toString b) (mkWatched None b)) as A2.
  assert (tables_ok t1) as Ht1 by (eapply (insert_ok _ _ _ Watchers); [done..|]; intros _; by apply local_key).
  set (t2 := modify t1 _ _). assert (tables_ok t2) as Ht2 by (eapply (insert_ok _ _ _ Watching); [done..|]; intros _; by apply local_key).
  assert (∀ c x y, edge t2 c x y ↔ edge (topo s) c x y ∨ c = Watchers ∧ x = toString b ∧ y = toString a ∨ c = Watching ∧ x = toString a ∧ y = toString b ∧ registered s a) as He.
  { intros c x y. unfold t2. rewrite (edge_insert t1 (toString a) _ Watching (toString b) b c x y Ht1 A2) by done. unfold t1. rewrite modify_some by apply Ht.
    rewrite (edge_insert (topo s) (toString b) _ Watchers (toString a) a c x y Ht A1) by done. rewrite Eb. unfold registered. naive_solver. }
  apply enter_inv; [done..| |].
  - intros key Hk%(in_gone s Hs). do 2 (apply modify_none; [apply Ht || apply Ht1|]). done.
  - destruct (decide (is_Some (process (topo s) (toString a)))) as [Hr|Hr].
    + apply (mirrored_pair (topo s) t2 (calls s) Watchers (toString b) (toString a)); [apply Hs|]. intros c x y. rewrite He. unfold registered. naive_solver.
    + assert (service a) as Hsv by (destruct Hreg; [done|done]). intros c x y [Hx|[(-> & -> & ->)|(_ & _ & _ & ?)]]%He; [|left; eauto|done].
      destruct (in_mirror s Hs c x y Hx) as [?|[?|?]]; [tauto| |tauto]. right. left. apply He. by left.
Qed.

Lemma demonitorLocal_inv s a b : inv s → inv (mkSystem (demonitorLocal (topo s) a b).1 (calls s ++ [(demonitorLocal (topo s) a b).2]) (sent s)).
Proof.
  intros Hs. unfold demonitorLocal, done. cbn [fst snd]. pose proof (in_tables s Hs) as Ht. set (t1 := modify (topo s) (toString b) _).
  pose proof (acts_watchers (delete (toString a))) as A1. pose proof (acts_unwatch (toString b)) as A2.
  assert (tables_ok t1) as Ht1 by by eapply (delete_ok _ _ _ Watchers).
  apply enter_inv; [done|by eapply (delete_ok _ _ _ Watching)|done..| |].
  - intros key Hk%(in_gone s Hs). do 2 (apply modify_none; [apply Ht || apply Ht1|]). done.
  - apply (mirrored_unpair (topo s) _ (calls s) Watchers (toString b) (toString a)); [apply Hs|]. intros c x y.
    rewrite (edge_delete t1 (toString a) _ Watching (toString b) c x y Ht1 A2). unfold t1. rewrite (edge_delete (topo s) (toString b) _ Watchers (toString a) c x y Ht A1). cbn [mirror]. tauto.
Qed.

Lemma linkLocal_inv s a b : inv s → pid_ok a → pid_ok b → isRemote a = false → isRemote b = false →
  inv (mkSystem (linkLocal (topo s) a b).1 (calls s ++ [(linkLocal (topo s) a b).2]) (sent s)).
Proof.
  intros Hs Ha Hb Hra Hrb. unfold linkLocal. pose proof (in_tables s Hs) as Ht. destruct (process (topo s) (toString a)) as [sa|] eqn:Ea; [|by apply enter_inv; try apply Hs].
  destruct (process (topo s) (toString b)) as [sb|] eqn:Eb; [|by apply enter_inv; try apply Hs]. destruct (links sa !! toString b); [by apply enter_inv; try apply Hs|].
  unfold done. cbn [fst snd]. set (t1 := modify (topo s) (toString a) _). pose proof (acts_links (<[toString b := b]>)) as A1. pose proof (acts_links (<[toString a := a]>)) as A2.
  assert (tables_ok t1) as Ht1 by (eapply (insert_ok _ _ _ Links); [done..|]; intros _; by apply local_key).
  apply enter_inv; [done|eapply (insert_ok _ _ _ Links); [done..|]; intros _; by apply local_key|done..| |].
  - intros key Hk%(in_gone s Hs). do 2 (apply modify_none; [apply Ht || apply Ht1|]). done.
  - apply (mirrored_pair (topo s) _ (calls s) Links (toString a) (toString b)); [apply Hs|]. intros c x y.
    rewrite (edge_insert t1 (toString b) _ Links (toString a) a c x y Ht1 A2) by done. unfold t1. rewrite modify_some by apply Ht.
    rewrite (edge_insert (topo s) (toString a) _ Links (toString b) b c x y Ht A1) by done. rewrite Ea, Eb. cbn [mirror]. naive_solver.
Qed.

Lemma unlinkLocal_inv s a b : inv s → inv (mkSystem (unlinkLocal (topo s) a b).1 (calls s ++ [(unlinkLocal (topo s) a b).2]) (sent s)).
Proof.
  intros Hs. unfold unlinkLocal, done. cbn [fst snd]. pose proof (in_tables s Hs) as Ht. set (t1 := modify (topo s) (toString a) _).
  pose proof (acts_links (delete (toString b))) as A1. pose proof (acts_links (delete (toString a))) as A2.
  assert (tables_ok t1) as Ht1 by by eapply (delete_ok _ _ _ Links).
  apply enter_inv; [done|by eapply (delete_ok _ _ _ Links)|done..| |].
  - intros key Hk%(in_gone s Hs). do 2 (apply modify_none; [apply Ht || apply Ht1|]). done.
  - apply (mirrored_unpair (topo s) _ (calls s) Links (toString a) (toString b)); [apply Hs|]. intros c x y.
    rewrite (edge_delete t1 (toString b) _ Links (toString a) c x y Ht1 A2). unfold t1. rewrite (edge_delete (topo s) (toString a) _ Links (toString b) c x y Ht A1). cbn [mirror]. tauto.
Qed.

(** *** Entries for processes of other nodes *)

(** A change that leaves every relation of this node as it is *)
Definition neutral (t t' : Topology) : Prop :=
  tables_ok t' ∧ (∀ k, process t k = None → process t' k = None) ∧ ∀ c x y, edge t' c x y ↔ edge t c x y.

Lemma neutral_refl t : tables_ok t → neutral t t.
Proof. done. Qed.

Lemma neutral_insert t key f c p : tables_ok t → acts f c (<[toString p := p]>) → pid_ok p → isRemote p = true → neutral t (modify t key f).
Proof.
  intros Ht Hf Hp Hr. split_and!; [eapply insert_ok; [done..|congruence]|intros k; apply modify_none, Ht|].
  intros c' x y. rewrite edge_insert by done. split; [|tauto]. intros [?|(_ & _ & _ & _ & ?)]; [done|congruence].
Qed.

Lemma neutral_delete t key f c p : tables_ok t → acts f c (delete (toString p)) → pid_ok p → isRemote p = true → neutral t (modify t key f).
Proof.
  intros Ht Hf Hp Hr. split_and!; [by eapply delete_ok|intros k; apply modify_none, Ht|].
  intros c' x y. rewrite edge_delete by done. split; [tauto|]. intros He. split; [done|]. intros (_ & _ & ->). by eapply edge_remote.
Qed.

Lemma modify_ext t key f g : (∀ s, process t key = Some s → f s = g s) → modify t key f = modify t key g.
Proof.
  intros H. unfold modify, update. f_equal. unfold process in H. apply list_eq. intros i. destruct (decide (i = shardIndex key)) as [->|Hi].
  - rewrite !list_lookup_alter_eq. destruct (shards t !! shardIndex key) as [sh|]; [|done]. cbn in *. f_equal. apply partial_alter_ext.
    intros [s|] Hs; [|done]. cbn. by rewrite H.
  - by rewrite !list_lookup_alter_ne.
Qed.

Lemma modify_id t key : modify t key (λ s, s) = t.
Proof.
  unfold modify, update. destruct t as [sh n a]. cbn. f_equal. apply list_eq. intros i. destruct (decide (i = shardIndex key)) as [->|Hi].
  - rewrite list_lookup_alter_eq. destruct (sh !! shardIndex key) as [m|]; [|done]. cbn. f_equal. apply map_eq. intros k. destruct (decide (k = key)) as [->|Hk]; [rewrite lookup_partial_alter_eq; by destruct (m !! key)|by rewrite lookup_partial_alter_ne].
  - by rewrite list_lookup_alter_ne.
Qed.

(** A change that only deletes when a condition holds *)
Lemma neutral_when t key f c p (cond : processState → bool) : tables_ok t → acts f c (delete (toString p)) → pid_ok p → isRemote p = true →
  neutral t (modify t key (λ s, if cond s then f s else s)).
Proof.
  intros Ht Hf Hp Hr. destruct (process t key) as [s|] eqn:E; [destruct (cond s) eqn:Ec|].
  - erewrite modify_ext; [by eapply neutral_delete|]. intros s' Hs'. rewrite E in Hs'. injection Hs' as <-. by rewrite Ec.
  - erewrite modify_ext; [rewrite modify_id; by apply neutral_refl|]. intros s' Hs'. rewrite E in Hs'. injection Hs' as <-. by rewrite Ec.
  - erewrite modify_ext; [rewrite modify_id; by apply neutral_refl|]. by rewrite E.
Qed.

Lemma neutral_insert_when t key f c p (cond : processState → bool) : tables_ok t → acts f c (<[toString p := p]>) → pid_ok p → isRemote p = true →
  neutral t (modify t key (λ s, if cond s then f s else s)).
Proof.
  intros Ht Hf Hp Hr. destruct (process t key) as [s|] eqn:E; [destruct (cond s) eqn:Ec|].
  - erewrite modify_ext; [by eapply neutral_insert|]. intros s' Hs'. rewrite E in Hs'. injection Hs' as <-. by rewrite Ec.
  - erewrite modify_ext; [rewrite modify_id; by apply neutral_refl|]. intros s' Hs'. rewrite E in Hs'. injection Hs' as <-. by rewrite Ec.
  - erewrite modify_ext; [rewrite modify_id; by apply neutral_refl|]. by rewrite E.
Qed.

Lemma neutral_lifetime t key l : tables_ok t → neutral t (modify t key (λ s, set_lifetime s l)).
Proof.
  intros Ht. assert (acts (λ s, set_lifetime s l) Links (λ m, m)) as Hf by (intros s; split_and!; [done..|by intros []]).
  assert (∀ c x y, edge (modify t key (λ s, set_lifetime s l)) c x y ↔ edge t c x y) as He.
  { intros c x y. rewrite (edge_modify t key _ Links (λ m, m)) by (done || apply Ht). case_decide as Hd; [destruct Hd as [-> ->]|done].
    unfold edge, entry_at. split; [intros (s & p & Hs & Hp & Hr)|intros (p & (s & Hs & Hp)%bind_Some & Hr)]; [|eauto]. exists p. by rewrite Hs. }
  split_and!; [|intros k; apply modify_none, Ht|done]. eapply modify_ok; [done..| |].
  - intros s k p Hs Hk. by eapply so_entries, Hk; apply Ht.
  - intros c x y Hx%He. by eapply tb_local.
Qed.

Lemma neutral_allocate t : tables_ok t → neutral t (allocate t).1.
Proof. intros [H1 H2 H3 H4]. by split_and!. Qed.

Lemma neutral_trans t1 t2 t3 : neutral t1 t2 → neutral t2 t3 → neutral t1 t3.
Proof. intros (A1 & A2 & A3) (B1 & B2 & B3). split_and!; [done|auto|]. intros c x y. by rewrite B3. Qed.

Lemma enter_neutral s t c : inv s → neutral (topo s) t → call_ok c → is_cleaning c = false → inv (mkSystem t (calls s ++ [c]) (sent s)).
Proof.
  intros Hs (H1 & H2 & H3) Hc Hn. apply enter_inv; [done..| |].
  - intros key Hk. apply H2. by apply (in_gone s Hs).
  - eapply mirrored_same, (in_mirror s Hs); done.
Qed.

Lemma next_neutral s t i k c out : inv s → calls s !! i = Some (Running k) → is_cleaning (Running k) = false → is_cleaning c = false →
  neutral (topo s) t → call_ok c → inv (mkSystem t (<[i := c]> (calls s)) (sent s ++ out)).
Proof. intros Hs Hi Hk Hc (H1 & H2 & H3) Ho. by eapply next_inv. Qed.

(** *** The beginning and the end of a process *)

Lemma index_add_ok t n key : tables_ok t → lives_on n key → tables_ok (addToNodeIndex t n key).
Proof.
  intros [H1 H2 H3 H4] Hk. split; [done..| |done]. intros n' keys k. unfold addToNodeIndex. cbn. intros [[<- <-]|[_ Hn]]%lookup_insert_Some; [|by apply H3].
  intros [Hin|Hin%list_elem_of_singleton]%elem_of_app; [|by subst]. destruct (nodeIndex t !! n) eqn:E; [by eapply H3|by apply elem_of_nil in Hin].
Qed.

Lemma remove_first_in key l k : k ∈ remove_first key l → k ∈ l.
Proof. induction l as [|h l IH]; cbn; [done|]. case_bool_decide; rewrite ?elem_of_cons; tauto. Qed.

Lemma index_remove_ok t n key : tables_ok t → tables_ok (removeFromNodeIndex t n key).
Proof.
  intros [H1 H2 H3 H4]. unfold removeFromNodeIndex. destruct (nodeIndex t !! n) as [keys|] eqn:E; [|done]. split; [done..| |done]. intros n' keys' k. cbn.
  case_bool_decide; [intros [_ Hn]%lookup_delete_Some; by apply H3|]. intros [[<- <-]|[_ Hn]]%lookup_insert_Some; [|by apply H3].
  intros Hk%remove_first_in. by eapply H3.
Qed.

Lemma Register_inv s p : inv s → pid_ok p → ¬ ending s (toString p) → inv (mkSystem (Register (topo s) p).1 (calls s ++ [(Register (topo s) p).2]) (sent s)).
Proof.
  intros Hs Hp Hn. unfold Register. pose proof (in_tables s Hs) as Ht. destruct (process (topo s) (toString p)) as [st|] eqn:E; [by apply enter_inv; try apply Hs|].
  set (t1 := update _ _ _). assert (∀ k, process t1 k = if decide (k = toString p) then Some (mkState None ∅ ∅ ∅ p) else process (topo s) k) as Hp1 by (intros k; by apply process_update, Ht).
  assert (∀ c x y, edge t1 c x y ↔ edge (topo s) c x y) as He.
  { intros c x y. unfold edge, entry_at. rewrite Hp1. case_decide as Hd; [subst x|done]. rewrite E. cbn. destruct c; cbn; rewrite ?fmap_empty, ?lookup_empty; naive_solver. }
  assert (tables_ok t1) as Ht1.
  { split; [apply sharded_update, Ht| |apply Ht|intros c x y Hx%He; by eapply tb_local]. intros k st. rewrite Hp1. case_decide; [|apply Ht]. intros [= <-]. subst k.
    split; [done..|]. intros [] k q; cbn; by rewrite ?fmap_empty, ?lookup_empty. }
  apply enter_inv; [done| |done..| |]; cbn [fst].
  - case_bool_decide; [done|]. apply index_add_ok; [done|by exists p].
  - intros key Hk. transitivity (process t1 key); [by case_bool_decide|]. rewrite Hp1. rewrite decide_False by naive_solver. by apply (in_gone s Hs).
  - eapply mirrored_same, (in_mirror s Hs); [|done]. intros c x y. rewrite <- He. by case_bool_decide.
Qed.

Lemma in_references c st k p : entries (mirror c) st !! k = Some p → ref c k ∈ references st.
Proof.
  intros Hk. unfold references. rewrite !elem_of_app. destruct c; cbn in Hk.
  - left. apply list_elem_of_fmap_2. rewrite shuffle_perm. apply list_elem_of_fmap. exists (k, p). by rewrite elem_of_map_to_list.
  - right. right. apply lookup_fmap_Some in Hk as (w & _ & Hk). apply list_elem_of_fmap_2. rewrite shuffle_perm. apply list_elem_of_fmap. exists (k, w). by rewrite elem_of_map_to_list.
  - right. left. apply list_elem_of_fmap_2. rewrite shuffle_perm. apply list_elem_of_fmap. exists (k, p). by rewrite elem_of_map_to_list.
Qed.

Lemma finish_inv s p pk : inv s → pid_ok p → inv (mkSystem (finish (topo s) p pk).1 (calls s ++ [(finish (topo s) p pk).2]) (sent s)).
Proof.
  intros Hs Hp. unfold finish. pose proof (in_tables s Hs) as Ht. destruct (process (topo s) (toString p)) as [st|] eqn:E; [|by apply enter_inv; try apply Hs]. cbn [fst snd].
  set (t1 := update _ _ _). assert (∀ k, process t1 k = if decide (k = toString p) then None else process (topo s) k) as Hp1 by (intros k; by apply process_update, Ht).
  assert (∀ c x y, edge t1 c x y ↔ edge (topo s) c x y ∧ x ≠ toString p) as He.
  { intros c x y. unfold edge, entry_at. rewrite Hp1. case_decide; naive_solver. }
  split; cbn.
  - split; [apply sharded_update, Ht| |apply Ht|intros c x y [Hx _]%He; by eapply tb_local]. intros k s0. rewrite Hp1. case_decide; [done|apply Ht].
  - apply Forall_app. split; [apply Hs|by constructor].
  - intros key (i & q & todo & pks & Hi & Hk). rewrite Hp1. case_decide as Hd; [done|]. apply (in_gone s Hs). exists i, q, todo, pks. split; [|done]. cbn in Hi.
    apply lookup_app_Some in Hi as [Hi|[_ Hi]]; [done|]. apply list_lookup_singleton_Some in Hi as [_ [= -> _ _]]. naive_solver.
  - intros c x y [Hx Hne]%He. destruct (in_mirror s Hs c x y Hx) as [?|[Hy|Hc]]; [tauto| |by right; right; apply cleaning_app]. right.
    destruct (decide (y = toString p)) as [->|Hyp]; [right|left; by apply He]. destruct Hy as (q & (s0 & Hs0 & Hq)%bind_Some & Hl). rewrite E in Hs0. injection Hs0 as <-.
    exists (length (calls s)), p, (references st), (pk st). split_and!; [by rewrite lookup_app_r, Nat.sub_diag by done|done|]. by eapply in_references.
Qed.

Lemma drop_edges t key r : tables_ok t → ∃ c x, r = ref c x ∧ tables_ok (drop_reference t key r) ∧
  (∀ k, process t k = None → process (drop_reference t key r) k = None) ∧
  ∀ c' a b, edge (drop_reference t key r) c' a b ↔ edge t c' a b ∧ ¬ (c' = c ∧ a = x ∧ b = key).
Proof.
  intros Ht. destruct r as [x|x|x]; cbn [drop_reference].
  - exists Links, x. split_and!; [done|by eapply (delete_ok _ _ _ Links), acts_links|intros k; apply modify_none, Ht|]. intros. apply edge_delete; [done|apply acts_links].
  - exists Watching, x. split_and!; [done|by eapply (delete_ok _ _ _ Watching), acts_unwatch|intros k; apply modify_none, Ht|]. intros. apply edge_delete; [done|apply acts_unwatch].
  - exists Watchers, x. split_and!; [done|by eapply (delete_ok _ _ _ Watchers), acts_watchers|intros k; apply modify_none, Ht|]. intros. apply edge_delete; [done|apply acts_watchers].
Qed.

Lemma ref_inj c c' x y : ref c x = ref c' y → c = c' ∧ x = y.
Proof. destruct c, c'; naive_solver. Qed.

Lemma cleaning_inv s i p r todo pk out : inv s → calls s !! i = Some (Running (Cleaning p (r :: todo) pk)) →
  inv (mkSystem (drop_reference (topo s) (toString p) r) (<[i := Running (Cleaning p todo pk)]> (calls s)) (sent s ++ out)).
Proof.
  intros Hs Hi. destruct (drop_edges (topo s) (toString p) r (in_tables s Hs)) as (c & x & -> & H1 & H2 & H3).
  assert (process (topo s) (toString p) = None) as Hgone by (apply (in_gone s Hs); by exists i, p, (ref c x :: todo), pk).
  assert (∀ j q td pks, <[i := Running (Cleaning p todo pk)]> (calls s) !! j = Some (Running (Cleaning q td pks)) →
    ∃ td', calls s !! j = Some (Running (Cleaning q td' pks))) as Hcs.
  { intros j q td pks [(-> & [= -> -> ->] & _)|[_ Hj]]%list_lookup_insert_Some; eauto. }
  split; cbn; [done| | |].
  - apply Forall_insert; [apply Hs|]. by apply (proj1 (Forall_lookup _ _) (in_calls s Hs) i _ Hi).
  - intros key (j & q & td & pks & Hj & Hk). apply H2, (in_gone s Hs). destruct (Hcs j q td pks Hj) as [td' Hj']. by exists j, q, td', pks.
  - intros c' a b [Hx Hne]%H3. destruct (in_mirror s Hs c' a b Hx) as [?|[Hy|(j & q & td & pks & Hj & Hq & Hin)]]; [tauto| |].
    + right. left. apply H3. split; [done|]. intros (_ & _ & ->). destruct Hx as (e & (s0 & Hs0 & _)%bind_Some & _). congruence.
    + right. right. destruct (decide (j = i)) as [->|Hji].
      * rewrite Hi in Hj. injection Hj as <- <- <-. apply elem_of_cons in Hin as [[-> ->]%ref_inj|Hin]; [naive_solver|].
        exists i, p, todo, pk. split_and!; [apply list_lookup_insert_eq; by eapply lookup_lt_Some|done..].
      * exists j, q, td, pks. by rewrite list_lookup_insert_ne.
Qed.

(** *** The loss of a node *)

Lemma remote_node p : isRemote p = false → Node p = "" ∨ Node p = localNodeID.
Proof. unfold isRemote. repeat case_bool_decide; naive_solver. Qed.

Definition swept (t : Topology) (node : string) (dead : list string) (i : nat) (sh : gmap string processState) : Topology :=
  mkTopology (<[i := sweep node dead sh]> (shards t)) (nodeIndex t) (allocated t).

Lemma process_swept t node dead i sh k : shards t !! i = Some sh →
  process (swept t node dead i sh) k = if decide (shardIndex k = i) then (if decide (k ∈ dead) then None else forget_node node <$> process t k) else process t k.
Proof.
  intros Hi. unfold process, swept. cbn [shards]. case_decide as Hk.
  - rewrite Hk, list_lookup_insert_eq by (by eapply lookup_lt_Some). rewrite Hi. cbn. unfold sweep. rewrite map_lookup_imap.
    destruct (sh !! k); cbn; [|by case_decide]. case_bool_decide; case_decide; naive_solver.
  - by rewrite list_lookup_insert_ne.
Qed.

Lemma entries_forget node c s k p : entries c (forget_node node s) !! k = Some p ↔ entries c s !! k = Some p ∧ Node p ≠ node.
Proof.
  assert (∀ q, on_node node q = false ↔ Node q ≠ node) as Hn by (intros q; unfold on_node; by rewrite bool_decide_eq_false).
  destruct c; cbn [entries forget_node links watchers watching]; rewrite ?lookup_fmap_Some.
  1,2: rewrite map_lookup_filter_Some; cbn; by rewrite Hn.
  setoid_rewrite map_lookup_filter_Some. cbn. setoid_rewrite Hn. split; [intros (w & <- & Hw & Hne)|intros [(w & <- & Hw) Hne]]; eauto.
Qed.

Lemma neutral_sweep t node dead i sh : tables_ok t → node ≠ "" → node ≠ localNodeID → (∀ k, k ∈ dead → lives_on node k) →
  shards t !! i = Some sh → neutral t (swept t node dead i sh).
Proof.
  intros Ht N1 N2 Hd Hi.
  assert (∀ p, isRemote p = false → Node p ≠ node) as Hr by (intros p [?|?]%remote_node; congruence).
  assert (∀ c x y, edge (swept t node dead i sh) c x y ↔ edge t c x y) as He.
  { intros c x y. split.
    - intros (p & (s & Hs & Hp)%bind_Some & Hl). rewrite process_swept in Hs by done. exists p. split; [|done]. unfold entry_at. case_decide; [|by rewrite Hs]. case_decide; [done|].
      apply fmap_Some in Hs as (s0 & Hs0 & ->). apply entries_forget in Hp as [Hp _]. by rewrite Hs0.
    - intros Hx. pose proof (tb_local t Ht c x y Hx) as (q & Hq & <- & Hql). destruct Hx as (p & (s & Hs & Hp)%bind_Some & Hl). exists p. split; [|done].
      unfold entry_at. rewrite process_swept by done. case_decide; [|by rewrite Hs]. rewrite decide_False.
      + rewrite Hs. cbn. apply entries_forget. auto.
      + intros (q' & Hq' & E & Hn)%Hd. apply toString_inj in E; [|done..]. subst q'. by apply (Hr q). }
  split_and!; [|intros k Hk; rewrite process_swept by done; repeat case_decide; [done|by rewrite Hk|done]|done].
  split; [unfold sharded; cbn; rewrite length_insert; apply Ht| |apply Ht|intros c x y Hx%He; by eapply tb_local].
  intros k s. rewrite process_swept by done. case_decide; [|apply Ht]. case_decide; [done|]. intros (s0 & Hs0 & ->)%fmap_Some. destruct (tb_states t Ht k s0 Hs0) as [S1 S2 S3].
  split; [done..|]. intros c y p [Hp _]%entries_forget. by eapply S3.
Qed.

Lemma detach_neutral t node : tables_ok t → neutral t (detachNodeIndex t node).1 ∧ ∀ k, k ∈ (detachNodeIndex t node).2 → lives_on node k.
Proof.
  intros Ht. split.
  - split_and!; [|done..]. destruct Ht as [H1 H2 H3 H4]. split; [done..| |done]. intros n keys k. cbn. intros [_ Hn]%lookup_delete_Some. by eapply H3.
  - cbn. intros k Hk. destruct (nodeIndex t !! node) as [keys|] eqn:E; [by eapply tb_index|by apply elem_of_nil in Hk].
Qed.

(** *** Every step *)

Lemma Monitor_inv s a b : inv s → pid_ok a → pid_ok b → registered s a ∨ service a ∨ isRemote a = true →
  inv (mkSystem (Monitor (topo s) a b).1 (calls s ++ [(Monitor (topo s) a b).2]) (sent s)).
Proof.
  intros Hs Ha Hb Hr. pose proof (in_tables s Hs) as Ht. unfold Monitor. destruct (isRemote b) eqn:Eb.
  - destruct (process (topo s) (toString a)) as [st|]; [|by apply enter_neutral]. destruct (remoteLifetime st); [by apply enter_neutral|].
    apply enter_neutral; [done| |done..]. eapply neutral_trans; [by apply neutral_allocate|]. apply neutral_lifetime. by apply neutral_allocate.
  - destruct (isRemote a) eqn:Ea; [|apply monitorLocal_inv; naive_solver]. unfold monitorFromPeer. destruct (process (topo s) (toString b)); [|by apply enter_neutral].
    apply enter_neutral; [done| |done..]. by apply (neutral_insert _ _ _ Watchers a); [|apply acts_watchers|..].
Qed.

Lemma Demonitor_inv s a b : inv s → pid_ok a → pid_ok b → inv (mkSystem (Demonitor (topo s) a b).1 (calls s ++ [(Demonitor (topo s) a b).2]) (sent s)).
Proof.
  intros Hs Ha Hb. pose proof (in_tables s Hs) as Ht. unfold Demonitor. destruct (isRemote b) eqn:Eb; [by apply enter_neutral|].
  destruct (isRemote a) eqn:Ea; [|by apply demonitorLocal_inv]. apply enter_neutral; [done| |done..]. by apply (neutral_delete _ _ _ Watchers a); [|apply acts_watchers|..].
Qed.

Lemma Link_inv s a b : inv s → pid_ok a → pid_ok b → inv (mkSystem (Link (topo s) a b).1 (calls s ++ [(Link (topo s) a b).2]) (sent s)).
Proof.
  intros Hs Ha Hb. pose proof (in_tables s Hs) as Ht. unfold Link. destruct (isRemote b) eqn:Eb.
  - destruct (process (topo s) (toString a)) as [st|]; [|by apply enter_neutral]. destruct (links st !! toString b); by apply enter_neutral.
  - destruct (isRemote a) eqn:Ea; [|by apply linkLocal_inv]. unfold linkFromPeer. destruct (process (topo s) (toString b)); [|by apply enter_neutral].
    apply enter_neutral; [done| |done..]. by apply (neutral_insert _ _ _ Links a); [|apply acts_links|..].
Qed.

Lemma Unlink_inv s a b : inv s → pid_ok a → pid_ok b → inv (mkSystem (Unlink (topo s) a b).1 (calls s ++ [(Unlink (topo s) a b).2]) (sent s)).
Proof.
  intros Hs Ha Hb. pose proof (in_tables s Hs) as Ht. unfold Unlink. destruct (isRemote b) eqn:Eb; [by apply enter_neutral|].
  destruct (isRemote a) eqn:Ea; [|by apply unlinkLocal_inv]. apply enter_neutral; [done| |done..]. by apply (neutral_delete _ _ _ Links a); [|apply acts_links|..].
Qed.

Lemma resume_inv s i k ok : inv s → calls s !! i = Some (Running k) →
  let '(t, out, c) := resume (topo s) k ok in inv (mkSystem t (<[i := c]> (calls s)) (sent s ++ out)).
Proof.
  intros Hs Hi. pose proof (in_tables s Hs) as Ht. pose proof (proj1 (Forall_lookup _ _) (in_calls s Hs) i _ Hi) as Hk. cbn in Hk.
  destruct k as [a b l|a b l|a b o|a b o|a b|a b|a b|a b|p|p [|r todo] pk|[|p pk]|n dead j notes e]; cbn [resume]; try (by destruct ok; eapply next_neutral).
  - destruct Hk as (Ha & Hb & Hr). destruct (process (topo s) (toString a)) as [st|]; [|by eapply next_neutral]. case_bool_decide; [|by eapply next_neutral].
    cbn [allocate]. eapply next_neutral; [done..| |done]. eapply neutral_trans; [by apply neutral_allocate|].
    apply (neutral_insert _ _ _ Watching b); [by apply neutral_allocate|apply (acts_watch (toString b) (mkWatched _ b))|done..].
  - destruct Hk as (Ha & Hb & Hr). eapply next_neutral; [done..| |done]. by apply (neutral_when _ _ _ Watching b (λ s, bool_decide (o ≠ None ∧ (watching s !! toString b ≫= attempt) = o))), Hr; [|apply acts_unwatch|].
  - destruct Hk as (Ha & Hb & Hr). eapply next_neutral; [done..| |done]. by apply (neutral_insert_when _ _ _ Links b (λ s, bool_decide (pid s = a))), Hr; [|apply acts_links|].
  - destruct Hk as (Ha & Hb & Hr). eapply next_neutral; [done..| |done]. by apply (neutral_delete _ _ _ Links b); [|apply acts_links|..].
  - assert (∀ y r', cleaning (calls s) y r' → cleaning (<[i := Running (Sending pk)]> (calls s)) y r') as Hc.
    { intros y r' (j & q & td & pks & Hj & Hq & Hin). destruct (decide (j = i)) as [->|Hne]; [rewrite Hi in Hj; injection Hj as <- <- <-; by apply elem_of_nil in Hin|].
      exists j, q, td, pks. by rewrite list_lookup_insert_ne. }
    split; cbn.
    + case_bool_decide; [done|by apply index_remove_ok].
    + by apply Forall_insert; [apply Hs|].
    + intros key (j & q & td & pks & Hj & Hq). transitivity (process (topo s) key); [by case_bool_decide; [|unfold removeFromNodeIndex; destruct (nodeIndex _ !! _)]|].
      apply (in_gone s Hs). exists j, q, td, pks. split; [|done]. cbn in Hj. by apply list_lookup_insert_Some in Hj as [(_ & ? & _)|[_ Hj]].
    + eapply mirrored_same, (in_mirror s Hs); [|done]. intros c x y. by case_bool_decide; [|unfold removeFromNodeIndex; destruct (nodeIndex _ !! _)].
  - by apply cleaning_inv.
  - destruct Hk as (N1 & N2 & Hd). destruct (shards (topo s) !! j) as [sh|] eqn:Ej; [|by eapply next_neutral]. eapply next_neutral; [done..| |done]. by apply neutral_sweep.
Qed.

Lemma step_keeps_inv s l s' : inv s → admissible s l → step s l = Some s' → inv s'.
Proof.
  intros Hs Ha. destruct l as [p|a b|a b|a b|a b|p r|p|n e|i ok]; cbn [step enter] in *.
  1-8: intros [= <-].
  - by apply Register_inv; naive_solver.
  - by apply Monitor_inv; naive_solver.
  - by apply Demonitor_inv; naive_solver.
  - by apply Link_inv; naive_solver.
  - by apply Unlink_inv; naive_solver.
  - by apply finish_inv.
  - by apply finish_inv.
  - unfold HandleNodeExit. destruct (detach_neutral (topo s) n (in_tables s Hs)) as [H1 H2]. destruct Ha. by apply enter_neutral.
  - destruct (calls s !! i) as [[e|k]|] eqn:Hi; [done| |done]. pose proof (resume_inv s i k ok Hs Hi). destruct (resume (topo s) k ok) as [[t out] c]. by intros [= <-].
Qed.

Lemma new_inv : inv new_system.
Proof.
  assert (∀ k, process NewTopology k = None) as Hn.
  { intros k. unfold process, NewTopology. cbn [shards]. destruct (replicate numShards ∅ !! shardIndex k) as [sh|] eqn:E; [|done]. apply lookup_replicate in E as [-> _]. done. }
  split; cbn; [|done|intros key _; apply Hn|].
  - split; [done|by intros k s; rewrite Hn|by intros n keys k; cbn; rewrite lookup_empty|]. intros c x y (p & (s & Hs & _)%bind_Some & _). by rewrite Hn in Hs.
  - intros c x y (p & (s & Hs & _)%bind_Some & _). by rewrite Hn in Hs.
Qed.

Lemma run_inv s ls s' : run s ls s' → inv s → inv s'.
Proof. induction 1; [done|]. intros Hs. by eapply IHrun, step_keeps_inv. Qed.

Lemma reachable_inv s : reachable s → inv s.
Proof. intros [ls Hr]. eapply run_inv; [done|apply new_inv]. Qed.

(** ** Theorems *)

Definition linked (t : Topology) (a b : PID) : Prop := ∃ s, process t (toString a) = Some s ∧ links s !! toString b = Some b.
Definition watches (t : Topology) (a b : PID) : Prop := ∃ s w, process t (toString a) = Some s ∧ watching s !! toString b = Some w ∧ wPID w = b.
Definition watched_by (t : Topology) (b a : PID) : Prop := ∃ s, process t (toString b) = Some s ∧ watchers s !! toString a = Some a.

Lemma edge_related t c a b : tables_ok t → pid_ok a → pid_ok b → isRemote b = false →
  edge t c (toString a) (toString b) ↔ match c with Links => linked t a b | Watchers => watched_by t a b | Watching => watches t a b end.
Proof.
  intros Ht Ha Hb Hr. unfold edge. split.
  - intros (p & Hp & Hl). pose proof (entry_ok t c _ _ p Ht Hp) as [E Hok]. apply toString_inj in E; [subst p|done..].
    apply bind_Some in Hp as (s & Hs & Hp). destruct c; cbn in Hp; [by exists s..|]. apply lookup_fmap_Some in Hp as (w & Hw & Hp). by exists s, w.
  - intros H. exists b. split; [|done]. unfold entry_at. destruct c; [destruct H as (s & -> & H)|destruct H as (s & -> & H)|destruct H as (s & w & -> & H & Hw)]; cbn [mbind option_bind entries]; [done..|].
    apply lookup_fmap_Some. eauto.
Qed.

Lemma rest_cleaning s y r : at_rest s → ¬ cleaning (calls s) y r.
Proof. intros Hr (i & p & todo & pk & Hi & _). apply (proj1 (Forall_lookup _ _) Hr) in Hi as [e ?]. done. Qed.


(** *** What ends an entry *)

Definition keeps (t t' : Topology) (c : column) (x : string) (p : PID) : Prop :=
  entry_at t c x (toString p) = Some p → entry_at t' c x (toString p) = Some p.

Lemma keeps_insert t key f c' q c x p : sharded t → acts f c' (<[toString q := q]>) → pid_ok q → pid_ok p → keeps t (modify t key f) c x p.
Proof.
  intros Ht Hf Hq Hp Hk. rewrite (entry_modify _ _ _ _ _ _ _ _ Ht Hf). case_decide as Hd; [|done]. destruct Hd as [-> ->].
  apply bind_Some in Hk as (s & Hs & Hk). rewrite Hs. cbn [mbind option_bind]. destruct (decide (toString q = toString p)) as [E|E].
  - rewrite E, lookup_insert_eq. f_equal. by apply toString_inj.
  - by rewrite lookup_insert_ne.
Qed.

Lemma keeps_delete t key f c' k c x p : sharded t → acts f c' (delete k) → ¬ (c = c' ∧ x = key ∧ toString p = k) → keeps t (modify t key f) c x p.
Proof.
  intros Ht Hf Hne Hk. rewrite (entry_modify _ _ _ _ _ _ _ _ Ht Hf). case_decide as Hd; [|done]. destruct Hd as [-> ->].
  apply bind_Some in Hk as (s & Hs & Hk). rewrite Hs. cbn [mbind option_bind]. by rewrite lookup_delete_ne by naive_solver.
Qed.

Lemma keeps_lifetime t key l c x p : sharded t → keeps t (modify t key (λ s, set_lifetime s l)) c x p.
Proof. intros Ht Hk. unfold entry_at in *. rewrite process_modify by done. case_decide; [|done]. subst. destruct (process t key); [|done]. by destruct c. Qed.

Lemma keeps_when t key f c x p (cond : processState → bool) : sharded t → keeps t (modify t key f) c x p →
  keeps t (modify t key (λ s, if cond s then f s else s)) c x p.
Proof.
  intros Ht Hf Hk. specialize (Hf Hk). unfold entry_at in *. rewrite process_modify in * by done. case_decide; [|done]. subst. destruct (process t key) as [s|]; [|done]. cbn in *. by destruct (cond s).
Qed.

(** The steps that may take the entry away *)
Definition cuts (s : system) (l : label) (c : column) (x : string) (p : PID) : Prop :=
  match l with
  | LDemonitor a b => c = Watchers ∧ x = toString b ∧ toString p = toString a ∨ c = Watching ∧ x = toString a ∧ toString p = toString b
  | LUnlink a b => c = Links ∧ (x = toString a ∧ toString p = toString b ∨ x = toString b ∧ toString p = toString a)
  | LComplete q _ | LRemove q => x = toString q
  | LNext i _ =>
      match calls s !! i with
      | Some (Running (DemonitorDelete a b _)) => c = Watching ∧ x = toString a ∧ toString p = toString b
      | Some (Running (UnlinkDelete a b)) => c = Links ∧ x = toString a ∧ toString p = toString b
      | Some (Running (Cleaning q (r :: _) _)) => r = ref c x ∧ toString p = toString q
      | Some (Running (Sweeping n dead j _ _)) => shardIndex x = j ∧ (x ∈ dead ∨ Node p = n)
      | _ => False
      end
  | _ => False
  end.

Lemma drop_keeps t key r c x p : sharded t → ¬ (r = ref c x ∧ toString p = key) → keeps t (drop_reference t key r) c x p.
Proof.
  intros Ht Hne. destruct r as [k|k|k]; cbn [drop_reference].
  - eapply (keeps_delete _ _ _ Links); [done|apply acts_links|]. intros (-> & -> & E). by apply Hne.
  - eapply (keeps_delete _ _ _ Watching); [done|apply acts_unwatch|]. intros (-> & -> & E). by apply Hne.
  - eapply (keeps_delete _ _ _ Watchers); [done|apply acts_watchers|]. intros (-> & -> & E). by apply Hne.
Qed.

Lemma sweep_keeps t node dead i sh c x p : shards t !! i = Some sh → ¬ (shardIndex x = i ∧ (x ∈ dead ∨ Node p = node)) → keeps t (swept t node dead i sh) c x p.
Proof.
  intros Hi Hne Hk. unfold entry_at in *. rewrite process_swept by done. case_decide; [|done]. rewrite decide_False by tauto.
  apply bind_Some in Hk as (s & -> & Hk). cbn. apply entries_forget. tauto.
Qed.

Lemma index_keeps t n key c x p : keeps t (if bool_decide (n = "") then t else removeFromNodeIndex t n key) c x p.
Proof. intros Hk. case_bool_decide; [done|]. unfold removeFromNodeIndex. by destruct (nodeIndex t !! n). Qed.

Lemma resume_keeps s i k ok c x p : inv s → calls s !! i = Some (Running k) → pid_ok p → ¬ cuts s (LNext i ok) c x p →
  keeps (topo s) (resume (topo s) k ok).1.1 c x p.
Proof.
  intros Hs Hi Hp Hcut. pose proof (tb_sharded _ (in_tables s Hs)) as Ht. cbn in Hcut. rewrite Hi in Hcut.
  pose proof (proj1 (Forall_lookup _ _) (in_calls s Hs) i _ Hi) as Hk. cbn in Hk.
  destruct k as [a b l|a b l|a b o|a b o|a b|a b|a b|a b|q|q [|r todo] pk|[|q pk]|n dead j notes e]; cbn [resume fst]; try by intros Hx.
  - destruct (process (topo s) (toString a)) as [st|] eqn:E; [|by intros Hx]. case_bool_decide; [|by intros Hx]. cbn [allocate fst].
    intros Hx. refine (keeps_insert (allocate (topo s)).1 _ _ Watching b _ _ _ Ht (acts_watch (toString b) (mkWatched _ b)) _ Hp Hx). naive_solver.
  - apply (keeps_when _ _ _ _ _ _ (λ s, bool_decide (o ≠ None ∧ (watching s !! toString b ≫= attempt) = o))); [done|]. by eapply keeps_delete; [|apply acts_unwatch|].
  - apply (keeps_when _ _ _ _ _ _ (λ s, bool_decide (pid s = a))); [done|]. eapply (keeps_insert _ _ _ Links b); [done|apply acts_links|naive_solver..].
  - by eapply keeps_delete; [|apply acts_links|].
  - apply index_keeps.
  - by apply drop_keeps.
  - destruct (shards (topo s) !! j) as [sh|] eqn:Ej; [|by intros Hx]. by apply sweep_keeps.
Qed.

Lemma Register_keeps t q c x p : sharded t → keeps t (Register t q).1 c x p.
Proof.
  intros Ht Hk. unfold Register. destruct (process t (toString q)) as [st|] eqn:E; [done|]. cbn [done fst].
  transitivity (entry_at (update t (toString q) (λ _, Some (mkState None ∅ ∅ ∅ q))) c x (toString p)); [by case_bool_decide|].
  unfold entry_at in *. rewrite process_update by done. case_decide; [|done]. subst. by rewrite E in Hk.
Qed.

Lemma finish_keeps t q pk c x p : sharded t → x ≠ toString q → keeps t (finish t q pk).1 c x p.
Proof.
  intros Ht Hne Hk. unfold finish. destruct (process t (toString q)) as [st|] eqn:E; [|done]. cbn [fst]. unfold entry_at. rewrite process_update by done. by rewrite decide_False.
Qed.

Lemma Monitor_keeps t a b c x p : sharded t → pid_ok a → pid_ok b → pid_ok p → keeps t (Monitor t a b).1 c x p.
Proof.
  intros Ht Ha Hb Hp Hk. unfold Monitor. destruct (isRemote b).
  - destruct (process t (toString a)) as [st|]; [|done]. destruct (remoteLifetime st); [done|]. cbn [allocate fst]. by refine (keeps_lifetime (allocate t).1 _ _ _ _ _ Ht Hk).
  - destruct (isRemote a).
    + unfold monitorFromPeer. destruct (process t (toString b)); [|done]. by eapply (keeps_insert _ _ _ Watchers a), Hk; [|apply acts_watchers|..].
    + unfold monitorLocal. destruct (process t (toString b)) as [st|]; [|done]. destruct (watchers st !! toString a); [done|]. cbn [done fst].
      eapply (keeps_insert _ _ _ Watching b); [by apply sharded_update|apply (acts_watch (toString b) (mkWatched _ b))|done..|]. by eapply (keeps_insert _ _ _ Watchers a); [|apply acts_watchers|..].
Qed.

Lemma Link_keeps t a b c x p : sharded t → pid_ok a → pid_ok b → pid_ok p → keeps t (Link t a b).1 c x p.
Proof.
  intros Ht Ha Hb Hp Hk. unfold Link. destruct (isRemote b).
  - destruct (process t (toString a)) as [st|]; [|done]. by destruct (links st !! toString b).
  - destruct (isRemote a).
    + unfold linkFromPeer. destruct (process t (toString b)); [|done]. by eapply (keeps_insert _ _ _ Links a), Hk; [|apply acts_links|..].
    + unfold linkLocal. destruct (process t (toString a)) as [st|]; [|done]. destruct (process t (toString b)); [|done]. destruct (links st !! toString b); [done|]. cbn [done fst].
      eapply (keeps_insert _ _ _ Links a); [by apply sharded_update|apply acts_links|done..|]. by eapply (keeps_insert _ _ _ Links b); [|apply acts_links|..].
Qed.

Lemma Demonitor_keeps t a b c x p : sharded t → ¬ (c = Watchers ∧ x = toString b ∧ toString p = toString a ∨ c = Watching ∧ x = toString a ∧ toString p = toString b) →
  keeps t (Demonitor t a b).1 c x p.
Proof.
  intros Ht Hc Hk. unfold Demonitor. destruct (isRemote b); [done|]. destruct (isRemote a).
  - cbn. by eapply (keeps_delete _ _ _ Watchers), Hk; [|apply acts_watchers|tauto].
  - cbn [demonitorLocal done fst]. eapply (keeps_delete _ _ _ Watching); [by apply sharded_update|apply acts_unwatch|tauto|]. by eapply (keeps_delete _ _ _ Watchers); [|apply acts_watchers|tauto|].
Qed.

Lemma Unlink_keeps t a b c x p : sharded t → ¬ (c = Links ∧ (x = toString a ∧ toString p = toString b ∨ x = toString b ∧ toString p = toString a)) →
  keeps t (Unlink t a b).1 c x p.
Proof.
  intros Ht Hc Hk. unfold Unlink. destruct (isRemote b); [done|]. destruct (isRemote a).
  - cbn. by eapply (keeps_delete _ _ _ Links), Hk; [|apply acts_links|tauto].
  - cbn [unlinkLocal done fst]. eapply (keeps_delete _ _ _ Links); [by apply sharded_update|apply acts_links|tauto|]. by eapply (keeps_delete _ _ _ Links); [|apply acts_links|tauto|].
Qed.

Lemma step_keeps s l s' c x p : inv s → admissible s l → step s l = Some s' → pid_ok p → ¬ cuts s l c x p → keeps (topo s) (topo s') c x p.
Proof.
  intros Hs Ha Hl Hp Hc. pose proof (tb_sharded _ (in_tables s Hs)) as Ht. destruct l as [q|a b|a b|a b|a b|q r|q|n e|i ok]; cbn [step enter] in Hl.
  1-8: injection Hl as <-; cbn [topo].
  - by apply Register_keeps.
  - apply Monitor_keeps; naive_solver.
  - by apply Demonitor_keeps.
  - apply Link_keeps; naive_solver.
  - by apply Unlink_keeps.
  - by apply finish_keeps.
  - by apply finish_keeps.
  - by intros Hx.
  - destruct (calls s !! i) as [[e|k]|] eqn:Hi; [done| |done]. pose proof (resume_keeps s i k ok c x p Hs Hi Hp Hc). destruct (resume (topo s) k ok) as [[t out] c']. by injection Hl as <-.
Qed.

(** *** Packages on their way *)

Definition packages_of (k : task) : list Package :=
  match k with
  | Cleaning _ _ packages | Sending packages => packages
  | Sweeping _ _ _ toNotify exitErr => down_package exitErr <$> toNotify
  | _ => []
  end.

Lemma resume_packages t k ok pkg : pkg ∈ packages_of k →
  let '(_, out, c) := resume t k ok in pkg ∈ out ∨ ∃ k', c = Running k' ∧ pkg ∈ packages_of k'.
Proof.
  destruct k as [a b l|a b l|a b o|a b o|a b|a b|a b|a b|p|p [|r todo] pk|[|p pk]|n dead j notes e]; cbn [packages_of resume]; try by intros ?%elem_of_nil.
  - eauto.
  - eauto.
  - intros [->|Hin]%elem_of_cons; [left; by apply list_elem_of_singleton|eauto].
  - intros Hin. destruct (shards t !! j) as [sh|]; right; [|eauto]. eexists. split; [done|]. cbn. rewrite fmap_app. set_solver.
Qed.

(** The package was sent after the first [n], or a call that is under way will send it. *)
Definition issued (n : nat) (s : system) (pkg : Package) : Prop :=
  pkg ∈ drop n (sent s) ∨ ∃ i k, calls s !! i = Some (Running k) ∧ pkg ∈ packages_of k.

Lemma step_sent s l s' : step s l = Some s' → ∃ out, sent s' = sent s ++ out.
Proof.
  destruct l as [q|a b|a b|a b|a b|q r|q|m e|i ok]; cbn [step enter]; [intros [= <-]; exists []; by rewrite app_nil_r..|].
  destruct (calls s !! i) as [[?|k]|]; [done| |done]. destruct (resume (topo s) k ok) as [[t out] c]. intros [= <-]. by exists out.
Qed.

Lemma step_calls s l s' i c : step s l = Some s' → calls s !! i = Some c → calls s' !! i = Some c ∨ ∃ ok, l = LNext i ok.
Proof.
  intros Hl Hi. destruct l as [q|a b|a b|a b|a b|q r|q|m e|j ok]; cbn [step enter] in Hl; [injection Hl as <-; left; by apply lookup_app_l_Some..|].
  destruct (calls s !! j) as [[?|k]|] eqn:Hj; [done| |done]. destruct (resume (topo s) k ok) as [[t out] c']. injection Hl as <-. cbn.
  destruct (decide (j = i)) as [->|Hne]; [right; eauto|left; by rewrite list_lookup_insert_ne].
Qed.

Lemma issued_step n s l s' pkg : (n ≤ length (sent s))%nat → step s l = Some s' → issued n s pkg → issued n s' pkg.
Proof.
  intros Hn Hl Hi. destruct (step_sent s l s' Hl) as [out Hout]. destruct Hi as [Hin|(i & k & Hi & Hk)].
  - left. rewrite Hout, drop_app_le by done. set_solver.
  - destruct (step_calls s l s' i _ Hl Hi) as [Hi'|[ok ->]]; [right; eauto|]. cbn [step] in Hl. rewrite Hi in Hl.
    pose proof (resume_packages (topo s) k ok pkg Hk) as Hr. destruct (resume (topo s) k ok) as [[t o] c]. injection Hl as <-. cbn in *. destruct Hr as [Hr|(k' & -> & Hk')].
    + left. cbn. rewrite drop_app_le by done. set_solver.
    + right. exists i, k'. cbn. split; [apply list_lookup_insert_eq; by eapply lookup_lt_Some|done].
Qed.

Lemma issued_rest n s pkg : at_rest s → issued n s pkg → pkg ∈ drop n (sent s).
Proof. intros Hr [?|(i & k & Hi & _)]; [done|]. apply (proj1 (Forall_lookup _ _) Hr) in Hi as [e ?]. done. Qed.

(** The end of a process begins with a call to [Complete] or [Remove]. *)
Definition ends (l : label) (p : PID) : Prop := match l with LComplete q _ | LRemove q => q = p | _ => False end.

Lemma begins_cleaning s l s' i p todo pk : step s l = Some s' → calls s' !! i = Some (Running (Cleaning p todo pk)) →
  ends l p ∨ ∃ todo', calls s !! i = Some (Running (Cleaning p todo' pk)).
Proof.
  intros Hl Hi. destruct l as [q|a b|a b|a b|a b|q r|q|m e|j ok]; cbn [step enter] in Hl.
  1-8: injection Hl as <-; cbn [calls] in Hi; apply lookup_app_Some in Hi as [Hi|[_ Hi]]; [eauto|]; apply list_lookup_singleton_Some in Hi as [_ Hi].
  - unfold Register in Hi. by destruct (process (topo s) (toString q)).
  - unfold Monitor, monitorFromPeer, monitorLocal in Hi. repeat (case_match; try done).
  - unfold Demonitor in Hi. repeat (case_match; try done).
  - unfold Link, linkFromPeer, linkLocal in Hi. repeat (case_match; try done).
  - unfold Unlink in Hi. repeat (case_match; try done).
  - left. unfold Complete, finish in Hi. case_match; naive_solver.
  - left. unfold Remove, finish in Hi. case_match; naive_solver.
  - done.
  - right. destruct (calls s !! j) as [[?|k]|] eqn:Hj; [done| |done]. destruct (resume (topo s) k ok) as [[t out] c] eqn:Er. injection Hl as <-. cbn in Hi.
    apply list_lookup_insert_Some in Hi as [(-> & -> & _)|[_ Hi]]; [|eauto].
    destruct k as [a b l|a b l|a b o|a b o|a b|a b|a b|a b|q|q [|r td] pk'|[|q pk']|n dead j notes e]; cbn [resume] in Er; repeat (case_match; try done); simplify_eq; eauto.
Qed.

Lemma ending_step s l s' p : inv s → admissible s l → step s l = Some s' → pid_ok p → ¬ ends l p → ¬ ending s (toString p) → ¬ ending s' (toString p).
Proof.
  intros Hs Ha Hl Hp He Hn (i & q & todo & pk & Hi & Hq). assert (pid_ok q) as Hqok.
  { pose proof (step_keeps_inv s l s' Hs Ha Hl) as Hs'. by apply (proj1 (Forall_lookup _ _) (in_calls s' Hs') i _ Hi). }
  apply toString_inj in Hq; [subst q|done..]. destruct (begins_cleaning s l s' i p todo pk Hl Hi) as [?|[todo' Hi']]; [done|]. apply Hn. by exists i, p, todo', pk.
Qed.

(** *** A monitored process of this node *)

Definition exit_to (a b : PID) (r : Result) : Package := mkPackage b a (ExitEvent Exit b r).

Lemma watched_entry t a b : watched_by t b a ↔ entry_at t Watchers (toString b) (toString a) = Some a.
Proof. unfold entry_at. rewrite bind_Some. done. Qed.

Lemma exit_notified a b st r : watchers st !! toString a = Some a → exit_to a b r ∈ notifications b st r.
Proof.
  intros Ha. apply elem_of_app. left. apply list_elem_of_fmap. exists a. split; [done|]. rewrite shuffle_perm. apply list_elem_of_fmap. exists (toString a, a). by rewrite elem_of_map_to_list.
Qed.

(** Other steps than the end of [a] leave it a local process that no sweep removes. *)
Lemma local_unswept s i n dead j notes e p : inv s → calls s !! i = Some (Running (Sweeping n dead j notes e)) → pid_ok p → isRemote p = false →
  toString p ∉ dead ∧ Node p ≠ n.
Proof.
  intros Hs Hi Hp Hr. destruct (proj1 (Forall_lookup _ _) (in_calls s Hs) i _ Hi) as (N1 & N2 & Hd). assert (Node p ≠ n) as Hn by (apply remote_node in Hr as [?|?]; congruence).
  split; [|done]. intros (q & Hq & E & Hqn)%Hd. apply toString_inj in E; [by subst|done..].
Qed.

Lemma watched_step s l s' a b n : inv s → admissible s l → step s l = Some s' → pid_ok a → pid_ok b → isRemote a = false → isRemote b = false →
  ¬ ending s (toString a) → l ≠ LDemonitor a b → l ≠ LRemove b →
  watched_by (topo s) b a → watched_by (topo s') b a ∨ ∃ r, l = LComplete b r ∧ issued n s' (exit_to a b r).
Proof.
  intros Hs Had Hl Ha Hb Hra Hrb He Hd Hr Hw.
  assert (cuts s l Watchers (toString b) a → ∃ r, l = LComplete b r) as Hcut.
  { destruct l as [q|x y|x y|x y|x y|q r|q|m e|i ok]; cbn in Had |- *; try done.
    - intros [(_ & E1 & E2)|(? & _)]; [|done]. apply toString_inj in E1, E2; naive_solver.
    - by intros [? _].
    - intros E. apply toString_inj in E; [subst; eauto|done..].
    - intros E. apply toString_inj in E; naive_solver.
    - destruct (calls s !! i) as [[?|k]|] eqn:Hi; try done. destruct k as [| | |x y o| | | |x y| |q [|r todo] pk| |m dead j notes e]; try done.
      + by intros [? _].
      + by intros [? _].
      + intros [_ E]. destruct He. by exists i, q, (r :: todo), pk.
      + intros [_ [Hin|Hm]]; [by destruct (local_unswept s i m dead j notes e b Hs Hi Hb Hrb)|by destruct (local_unswept s i m dead j notes e a Hs Hi Ha Hra)]. }
  assert ((∃ r, l = LComplete b r) ∨ ¬ ∃ r, l = LComplete b r) as [[r ->]|Hno].
  { destruct l as [| | | | |q r| | |]; try (right; by intros [? ?]). destruct (decide (q = b)) as [->|]; [left; eauto|right; naive_solver]. }
  - right. exists r. split; [done|]. right. destruct Hw as (st & Hst & Hw). cbn [step enter] in Hl. injection Hl as <-. unfold Complete, finish. rewrite Hst. cbn [calls fst snd].
    exists (length (calls s)), (Cleaning b (references st) (notifications b st r)). split; [by rewrite lookup_app_r, Nat.sub_diag by done|by apply exit_notified].
  - left. rewrite watched_entry in *. eapply step_keeps; [done..| |done]. naive_solver.
Qed.


(** *** Relations with processes of a lost node *)

(** The relation whose end is reported by the kind of event *)
Definition tied (t : Topology) (k : Kind) (a b : PID) : Prop :=
  match k with MonitorDown => watches t a b | LinkDown => linked t a b | Exit => False end.

Definition column_of (k : Kind) : column := match k with MonitorDown => Watching | _ => Links end.

Definition down_to (k : Kind) (a b : PID) (e : error) : Package := down_package e (a, b, k).

(** A call that gives the relation up *)
Definition releases (l : label) (a b : PID) : Prop :=
  match l with LDemonitor x y => x = a ∧ y = b | LUnlink x y => x = a ∧ y = b ∨ x = b ∧ y = a | _ => False end.

Definition releasing (s : system) (a b : PID) : Prop :=
  ∃ i k, calls s !! i = Some (Running k) ∧
    match k with DemonitorSend x y _ | DemonitorDelete x y _ | UnlinkSend x y | UnlinkDelete x y => x = a ∧ y = b | _ => False end.

Lemma tied_entry t k a b : k ≠ Exit → tied t k a b ↔ entry_at t (column_of k) (toString a) (toString b) = Some b.
Proof.
  intros Hk. unfold entry_at. rewrite bind_Some. destruct k; [done|done|]. cbn. unfold watches. setoid_rewrite lookup_fmap_Some. naive_solver.
Qed.

Lemma in_notices k a b st : k ≠ Exit → pid st = a → entries (column_of k) st !! toString b = Some b → (a, b, k) ∈ notices (Node b) st.
Proof.
  intros Hk Hp He. unfold notices. rewrite elem_of_app, !list_elem_of_fmap. assert (on_node (Node b) b = true) as Hn by by apply bool_decide_eq_true.
  destruct k; [done| |]; cbn in He.
  - right. exists b. rewrite list_elem_of_filter, shuffle_perm, list_elem_of_fmap. split_and!; [by rewrite Hp|done|]. exists (toString b, b). by rewrite elem_of_map_to_list.
  - left. apply lookup_fmap_Some in He as (w & Hw & He). exists w. rewrite list_elem_of_filter, shuffle_perm, list_elem_of_fmap. split_and!; [by rewrite Hp, Hw|by rewrite Hw|].
    exists (toString b, w). by rewrite elem_of_map_to_list.
Qed.

Lemma releasing_step s l s' a b : step s l = Some s' → ¬ releases l a b → ¬ releasing s a b → ¬ releasing s' a b.
Proof.
  intros Hl Hr Hn (i & k & Hi & Hk). destruct l as [q|x y|x y|x y|x y|q r|q|m e|j ok]; cbn [step enter] in Hl.
  1-8: injection Hl as <-; cbn [calls] in Hi; apply lookup_app_Some in Hi as [Hi|[_ Hi]]; [by apply Hn; exists i, k|]; apply list_lookup_singleton_Some in Hi as [_ Hi].
  - unfold Register in Hi. by destruct (process (topo s) (toString q)).
  - unfold Monitor, monitorFromPeer, monitorLocal in Hi. repeat (case_match; try done); naive_solver.
  - unfold Demonitor in Hi. cbn in Hr. repeat (case_match; try done); naive_solver.
  - unfold Link, linkFromPeer, linkLocal in Hi. repeat (case_match; try done); naive_solver.
  - unfold Unlink in Hi. cbn in Hr. repeat (case_match; try done); naive_solver.
  - unfold Complete, finish in Hi. destruct (process (topo s) (toString q)); by simplify_eq/=.
  - unfold Remove, finish in Hi. destruct (process (topo s) (toString q)); by simplify_eq/=.
  - unfold HandleNodeExit in Hi. by simplify_eq/=.
  - destruct (calls s !! j) as [[?|k0]|] eqn:Hj; [done| |done]. destruct (resume (topo s) k0 ok) as [[t out] c] eqn:Er. injection Hl as <-. cbn in Hi.
    apply list_lookup_insert_Some in Hi as [(-> & -> & _)|[_ Hi]]; [|by apply Hn; exists i, k]. apply Hn. exists i, k0. split; [done|].
    destruct k0 as [? ? l|? ? l|? ? o|? ? o|? ?|? ?|? ?|? ?|q|q [|r td] pk'|[|q pk']|n dead j notes e]; cbn [resume] in Er; repeat (case_match; try done); by simplify_eq.
Qed.

(** The relation still stands before a sweep that will come to it, or the end of it is
    reported. *)
Definition loss_pending (n : nat) (s : system) (k : Kind) (a b : PID) : Prop :=
  tied (topo s) k a b ∧ (∃ i dead j notes e, calls s !! i = Some (Running (Sweeping (Node b) dead j notes e)) ∧ (j ≤ shardIndex (toString a))%nat) ∨
  ∃ e, issued n s (down_to k a b e).

Lemma swept_entry s s' i ok dead j notes e k a b n : inv s → k ≠ Exit → pid_ok a → tied (topo s) k a b →
  calls s !! i = Some (Running (Sweeping (Node b) dead j notes e)) → shardIndex (toString a) = j → step s (LNext i ok) = Some s' → issued n s' (down_to k a b e).
Proof.
  intros Hs Hk Ha Ht%tied_entry Hi Hj Hl; [|done]. cbn [step] in Hl. rewrite Hi in Hl. cbn [resume] in Hl.
  apply bind_Some in Ht as (st & Hst & Ht). pose proof Hst as Hst'. unfold process in Hst'. rewrite Hj in Hst'. apply bind_Some in Hst' as (sh & Hsh & Hin). rewrite Hsh in Hl. injection Hl as <-.
  right. exists i. eexists. split; [apply list_lookup_insert_eq; by eapply lookup_lt_Some|]. cbn [packages_of]. unfold down_to. apply list_elem_of_fmap_2, elem_of_app. right. apply list_elem_of_bind. exists st. split.
  - apply in_notices; [done| |done]. destruct (tb_states _ (in_tables s Hs) _ _ Hst) as [S1 S2 _]. by apply toString_inj.
  - rewrite shuffle_perm. apply list_elem_of_fmap. exists (toString a, st). by rewrite elem_of_map_to_list.
Qed.

Lemma loss_step s l s' n k a b : inv s → admissible s l → step s l = Some s' → k ≠ Exit → pid_ok a → pid_ok b → isRemote a = false →
  (n ≤ length (sent s))%nat → ¬ ending s (toString b) → ¬ ends l a → ¬ releases l a b → ¬ releasing s a b →
  loss_pending n s k a b → loss_pending n s' k a b.
Proof.
  intros Hs Had Hl Hk Ha Hb Hra Hn Heb Hel Hrl Hrs [[Ht (i & dead & j & notes & e & Hi & Hj)]|[e He]]; [|right; exists e; by eapply issued_step].
  assert (Hcase : (∃ i' ok dead' notes' e', l = LNext i' ok ∧ calls s !! i' = Some (Running (Sweeping (Node b) dead' (shardIndex (toString a)) notes' e')))
    ∨ (¬ cuts s l (column_of k) (toString a) b ∧ ∀ ok, l = LNext i ok → j ≠ shardIndex (toString a))).
  { destruct l as [q|x y|x y|x y|x y|q r|q|m e0|i' ok]; cbn in Had, Hel, Hrl; cbn [cuts]; try (right; split; [|done]).
    1,2,4,8: done.
    - intros [(E & _)|(E & E1 & E2)]; [by destruct k|]. apply toString_inj in E1, E2; naive_solver.
    - intros [E [[E1 E2]|[E1 E2]]]; apply toString_inj in E1, E2; naive_solver.
    - intros E. apply toString_inj in E; naive_solver.
    - intros E. apply toString_inj in E; naive_solver.
    - destruct (calls s !! i') as [[?|k']|] eqn:Hi'; [right; split; [done|naive_solver]| |right; split; [done|naive_solver]].
      pose proof (proj1 (Forall_lookup _ _) (in_calls s Hs) i' _ Hi') as Hok.
      destruct k' as [| | |x y o| | | |x y| |q [|r todo] pk| |m dead' j' notes' e']; try (right; split; [done|naive_solver]).
      + right. split; [|naive_solver]. intros (_ & E1 & E2). destruct Hok as (? & ? & _). apply toString_inj in E1, E2; [subst|done..]. apply Hrs. by eexists i', _.
      + right. split; [|naive_solver]. intros (_ & E1 & E2). destruct Hok as (? & ? & _). apply toString_inj in E1, E2; [subst|done..]. apply Hrs. by eexists i', _.
      + right. split; [|naive_solver]. intros (_ & E). apply Heb. by exists i', q, (r :: todo), pk.
      + destruct (decide (m = Node b ∧ j' = shardIndex (toString a))) as [[-> ->]|Hne]; [left; eauto 10|right].
        destruct (local_unswept s i' m dead' j' notes' e' a Hs Hi' Ha Hra) as [Hd _]. split; [naive_solver|]. intros ok' [= ->]. naive_solver. }
  destruct Hcase as [(i' & ok & dead' & notes' & e' & -> & Hi')|[Hcut Hij]].
  - right. exists e'. by eapply swept_entry.
  - left. split.
    + apply tied_entry; [done|]. eapply step_keeps; [done..|]. by apply tied_entry.
    + destruct (step_calls s l s' i _ Hl Hi) as [Hi'|[ok ->]]; [by exists i, dead, j, notes, e|]. specialize (Hij ok eq_refl). cbn [step] in Hl. rewrite Hi in Hl. cbn [resume] in Hl.
      destruct (shards (topo s) !! j) as [sh|] eqn:Ej.
      * injection Hl as <-. eexists i, dead, (S j), _, e. split; [apply list_lookup_insert_eq; by eapply lookup_lt_Some|lia].
      * apply lookup_ge_None in Ej. pose proof (shardIndex_lt (toString a)). rewrite (tb_sharded _ (in_tables s Hs)) in Ej. lia.
Qed.

(** C34. When a node is lost, every process of this node that monitors or is linked to a
    process of that node is told so, unless it ends or gives the relation up meanwhile:
    whatever other calls interleave with the sweep of the shards, the event is sent by the
    time all calls have returned. *)
Theorem node_loss_reported s a b k e ls s' : reachable s → tied (topo s) k a b → pid_ok a → pid_ok b → isRemote a = false →
  ¬ ending s (toString b) → ¬ releasing s a b →
  run s (LNodeExit (Node b) e :: ls) s' → Forall (λ l, ¬ ends l a ∧ ¬ ends l b ∧ ¬ releases l a b) ls → at_rest s' →
  ∃ e', down_to k a b e' ∈ drop (length (sent s)) (sent s').
Proof.
  intros Hs%reachable_inv Ht Ha Hb Hra Heb Hrs Hrun Hls Hrest. assert (k ≠ Exit) as Hk by by destruct k.
  inversion Hrun as [|l0 ls0 s1 s2 Hadm Hl Hrun']; subst. pose proof (step_keeps_inv _ _ _ Hs Hadm Hl) as Hs1. cbn [step enter] in Hl. injection Hl as E1.
  assert (loss_pending (length (sent s)) s1 k a b) as Hp.
  { left. subst s1. split; [done|]. eexists (length (calls s)), _, 0%nat, [], e. split; [cbn; by rewrite lookup_app_r, Nat.sub_diag by done|lia]. }
  assert (length (sent s) ≤ length (sent s1))%nat as Hn by by subst s1.
  assert (¬ ending s1 (toString b)) as Heb1.
  { subst s1. intros (i & q & todo & pk & Hi & Hq). apply Heb. cbn in Hi. apply lookup_app_Some in Hi as [Hi|[_ Hi]]; [by exists i, q, todo, pk|]. by apply list_lookup_singleton_Some in Hi as [_ ?]. }
  assert (¬ releasing s1 a b) as Hrs1.
  { subst s1. intros (i & k' & Hi & Hk'). apply Hrs. cbn in Hi. apply lookup_app_Some in Hi as [Hi|[_ Hi]]; [by exists i, k'|]. apply list_lookup_singleton_Some in Hi as [_ Hi]. by simplify_eq. }
  clear E1 Hadm Ht Heb Hrs Hrun Hs. assert (loss_pending (length (sent s)) s' k a b) as Hp'.
  { generalize dependent (length (sent s)). intros n Hp Hn. induction Hrun' as [s1|s1 l ls s2 s3 Hadm Hl Hrun' IH]; [done|]. apply Forall_cons in Hls as [(L1 & L2 & L3) Hls].
    destruct (step_sent s1 l s2 Hl) as [out Hout]. apply IH; first [done|by eapply step_keeps_inv|by eapply loss_step|by eapply ending_step|by eapply releasing_step|rewrite Hout, length_app; lia]. }
  destruct Hp' as [[_ (i & dead & j & notes & e0 & Hi & _)]|[e0 He]]; [apply (proj1 (Forall_lookup _ _) Hrest) in Hi as [? ?]; done|]. exists e0. by apply issued_rest.
Qed.

(** A process that ends normally tells its watchers, and the targets it watched on other
    nodes, but nobody it was only linked to, not even on another node: the link stays there. *)
Lemma normal_exit_tells_no_link p st r pkg : Error r = None → pkg ∈ notifications p st r →
  Target pkg ∈ (map_to_list (watchers st)).*2 ∨ Target pkg ∈ wPID <$> (map_to_list (watching st)).*2.
Proof.
  intros Hr. unfold notifications. rewrite Hr, app_nil_l.
  intros [(w & -> & Hw)%list_elem_of_fmap|(w & -> & Hw)%list_elem_of_fmap]%elem_of_app; cbn [Target].
  - left. by rewrite shuffle_perm in Hw.
  - right. rewrite list_elem_of_filter, shuffle_perm in Hw. apply list_elem_of_fmap. exists w. tauto.
Qed.

(** ** Executable runs *)

Fixpoint exec (s : system) (ls : list label) : option system :=
  match ls with [] => Some s | l :: ls => step s l ≫= λ s, exec s ls end.

End topology.

(** Services are addressed by their host alone. *)
Definition is_service (p : PID) : Prop := UniqID p = "".

Section examples.
Notation system := (@system unit unit).
Notation label := (@label unit unit).
Notation step := (step (mkPID "" "sys" "") "n1" (λ _ l, l)).
Notation exec := (exec (mkPID "" "sys" "") "n1" (λ _ l, l)).
Notation run := (run (mkPID "" "sys" "") "n1" (λ _ l, l) is_service).
Notation reachable := (reachable (mkPID "" "sys" "") "n1" (λ _ l, l) is_service).
Notation admissible := (admissible "n1" is_service).

Definition admissibleb (s : system) (l : label) : bool :=
  match l with
  | LRegister p => bool_decide (pid_ok p) && forallb (λ c, negb (is_cleaning c)) (calls s) && negb (bool_decide (is_service p))
  | LMonitor c t => bool_decide (pid_ok c) && bool_decide (pid_ok t) &&
      (bool_decide (is_Some (process (topo s) (toString c))) || bool_decide (is_service c) || isRemote "n1" c)
  | LDemonitor a b | LLink a b | LUnlink a b => bool_decide (pid_ok a) && bool_decide (pid_ok b)
  | LComplete p _ | LRemove p => bool_decide (pid_ok p)
  | LNodeExit n _ => bool_decide (n ≠ "") && bool_decide (n ≠ "n1")
  | LNext _ _ => true
  end.

Fixpoint checked (s : system) (ls : list label) : bool :=
  match ls with
  | [] => true
  | l :: ls => admissibleb s l && match step s l with Some s => checked s ls | None => false end
  end.

Lemma idle_not_ending (s : system) key : forallb (λ c, negb (is_cleaning c)) (calls s) = true → ¬ ending s key.
Proof.
  intros H (i & p & todo & pk & Hi & _). rewrite forallb_forall in H. specialize (H (Running (Cleaning p todo pk))).
  discriminate H. apply list_elem_of_In. by eapply list_elem_of_lookup_2.
Qed.

Lemma admissibleb_ok s l : admissibleb s l = true → admissible s l.
Proof.
  destruct l; cbn; rewrite ?andb_true_iff, ?orb_true_iff, ?negb_true_iff, ?bool_decide_eq_true, ?bool_decide_eq_false; try tauto.
  intros [[H1 H2] H3]. split_and!; [done|by apply idle_not_ending|done].
Qed.

Lemma checked_run ls s : checked s ls = true → ∃ s', exec s ls = Some s' ∧ run s ls s'.
Proof.
  revert s. induction ls as [|l ls IH]; intros s; cbn; [intros _; exists s; split; [done|constructor]|].
  rewrite andb_true_iff. intros [Ha Hc]. destruct (step s l) as [s1|] eqn:E; [|done]. destruct (IH s1 Hc) as (s' & He & Hr). exists s'. split; [done|].
  econstructor; [by apply admissibleb_ok|done..].
Qed.

Definition restedb (s : system) : bool := forallb (λ c, match c with Returned _ => true | _ => false end) (calls s).

Lemma restedb_ok s : restedb s = true → at_rest s.
Proof.
  unfold restedb, at_rest. rewrite forallb_forall, Forall_forall. intros H c Hc%list_elem_of_In. specialize (H c Hc). destruct c; [eauto|done].
Qed.

Definition ann : PID := mkPID "n1" "host" "ann".
Definition bob : PID := mkPID "n1" "host" "bob".
Definition eve : PID := mkPID "n2" "host" "eve".

(** The two processes of this node know each other, and one watches and is linked to a
    process of another node. *)
Definition opening : list label :=
  [LRegister ann; LRegister bob; LMonitor ann bob; LLink bob ann; LMonitor ann eve; LNext 4 true; LNext 4 true; LLink eve ann].

Definition final (ls : list label) : system := default new_system (exec new_system ls).

Lemma checked_reachable ls : checked new_system ls = true → reachable (final ls).
Proof. intros (s' & He & Hr)%checked_run. exists ls. unfold final. by rewrite He. Qed.

Lemma final_run ls ls' : checked (final ls) ls' = true → ∃ s', exec (final ls) ls' = Some s' ∧ run (final ls) ls' s'.
Proof. apply checked_run. Qed.


Ltac decided := apply (bool_decide_unpack _); vm_compute; exact I.
Ltac computed := vm_compute; reflexivity.
Ltac not_listed := let H := fresh in intros H; repeat (apply elem_of_cons in H as [H|H]; [discriminate H|]); by apply elem_of_nil in H.

Definition bob_exits : list label := LComplete bob (mkResult None None) :: replicate 5 (LNext 6 true).


Definition n2_is_lost : list label := replicate 36 (LNext 6 true).

Lemma node_loss_reported_witness : ∃ s' e', exec (final opening) (LNodeExit "n2" (ErrProcess tt) :: n2_is_lost) = Some s' ∧
  down_to (V := unit) (mkPID "" "sys" "") MonitorDown ann eve e' ∈ drop (length (sent (final opening))) (sent s').
Proof.
  destruct (final_run opening (LNodeExit "n2" (ErrProcess tt) :: n2_is_lost) ltac:(computed)) as (s' & He & Hr). exists s'.
  destruct (node_loss_reported (mkPID "" "sys" "") "n1" (λ _ l, l) is_service (λ _ l, Permutation_refl l) (final opening) ann eve MonitorDown (ErrProcess tt) n2_is_lost s') as [e' Hin].
  - apply checked_reachable. computed.
  - eexists _, _. split; [computed|]. split; [computed|]. reflexivity.
  - decided.
  - decided.
  - computed.
  - apply idle_not_ending. computed.
  - intros (i & k & Hi & Hk). assert (at_rest (final opening)) as Hrest by (apply restedb_ok; computed). apply (proj1 (Forall_lookup _ _) Hrest) in Hi as [? ?]. done.
  - exact Hr.
  - repeat constructor; intros H; exact H.
  - apply restedb_ok. transitivity (match exec (final opening) (LNodeExit "n2" (ErrProcess tt) :: n2_is_lost) with Some s => restedb s | None => false end); [by rewrite He|computed].
  - exists e'. split; [exact He|exact Hin].
Defined.

End examples.

End Topo.
