(* ===== verification/PgState.v ===== *)
(** * Membership of process groups ([service/pg/state.go])

    A process may join a group several times, and is then listed as often. The state keeps
    the groups that each process of this node has joined, the members that each other node
    has announced, and per group the list of all members and of those of this node.

    The theorem of this file is the invariant that every operation keeps: the list of a
    group is, up to order, what the processes of this node joined and what the other nodes
    announced, counted with multiplicity, and a group without members is not listed. *)

From S2P Require Import Prelude Bytes GoStrings Pid.
Import Pid.

Module PgState.

(** ** The code *)

Record localProcess := mkLocal { lpid : PID; lgroups : list string }.

(** Group to members, for one node *)
Notation announced := (gmap string (list PID)).

Record groupState := mkGroup { all : list PID; here : list PID }.

Record state := mkState {
  local : gmap string localProcess;
  remote : gmap string announced;
  groups : gmap string groupState;
  dirty : gset string
}.

Definition newState : state := mkState ∅ ∅ ∅ ∅.

Definition set_local (s : state) (m : gmap string localProcess) : state := mkState m (remote s) (groups s) (dirty s).
Definition set_remote (s : state) (m : gmap string announced) : state := mkState (local s) m (groups s) (dirty s).
Definition set_group (s : state) (g : string) (gs : groupState) : state := mkState (local s) (remote s) (<[g := gs]> (groups s)) ({[g]} ∪ dirty s).

Section state.

(** The order in which Go visits the entries of a map *)
Context (shuffle : ∀ A, list A → list A).

(** The list without the first occurrence *)
Fixpoint remove_one {A} `{EqDecision A} (x : A) (l : list A) : list A :=
  match l with
  | [] => []
  | y :: l => if bool_decide (y = x) then l else y :: remove_one x l
  end.

Definition group_of (s : state) (g : string) : groupState := default (mkGroup [] []) (groups s !! g).

Definition snapshotGroup (s : state) (g : string) : option (list PID * list PID) :=
  match groups s !! g with
  | None => None
  | Some gs => if bool_decide (all gs = []) then None else Some (all gs, here gs)
  end.

Definition removePIDFromGroup (s : state) (g : string) (p : PID) (isLocal : bool) : state :=
  match groups s !! g with
  | None => s
  | Some gs =>
      let gs := mkGroup (remove_one p (all gs)) (if isLocal then remove_one p (here gs) else here gs) in
      mkState (local s) (remote s) (if bool_decide (all gs = []) then delete g (groups s) else <[g := gs]> (groups s)) ({[g]} ∪ dirty s)
  end.

Definition joinLocal (s : state) (g : string) (p : PID) : state :=
  let key := toString p in
  let lp := default (mkLocal p []) (local s !! key) in
  let s := set_local s (<[key := mkLocal (lpid lp) (lgroups lp ++ [g])]> (local s)) in
  let gs := group_of s g in
  set_group s g (mkGroup (all gs ++ [p]) (here gs ++ [p])).

Definition leaveLocal (s : state) (g : string) (p : PID) : state * bool :=
  let key := toString p in
  match local s !! key with
  | None => (s, false)
  | Some lp =>
      if bool_decide (g ∈ lgroups lp) then
        let rest := remove_one g (lgroups lp) in
        let s := set_local s (if bool_decide (rest = []) then delete key (local s) else <[key := mkLocal (lpid lp) rest]> (local s)) in
        (removePIDFromGroup s g p true, true)
      else (s, false)
  end.

(** The groups are left one join at a time; Go goes through a map of counts, so that the
    order of the groups is not determined, and does not matter. *)
Definition leaveAllLocal (s : state) (p : PID) : state * list string :=
  let key := toString p in
  match local s !! key with
  | None => (s, [])
  | Some lp =>
      let s := foldl (λ s g, removePIDFromGroup s g p true) s (lgroups lp) in
      (set_local s (delete key (local s)), lgroups lp)
  end.

Definition joinRemote (s : state) (node g : string) (pids : list PID) : state :=
  let rn := default ∅ (remote s !! node) in
  let s := set_remote s (<[node := <[g := default [] (rn !! g) ++ pids]> rn]> (remote s)) in
  let gs := group_of s g in
  set_group s g (mkGroup (all gs ++ pids) (here gs)).

Fixpoint remove_key (key : string) (l : list PID) : list PID :=
  match l with
  | [] => []
  | q :: l => if bool_decide (toString q = key) then l else q :: remove_key key l
  end.

(** One process of one group; the last component says whether it was there. *)
Definition leave_one (s : state) (rn : announced) (g : string) (p : PID) : state * announced * bool :=
  match rn !! g with
  | None => (s, rn, false)
  | Some pids =>
      let found := existsb (λ q, bool_decide (toString q = toString p)) pids in
      let rest := remove_key (toString p) pids in
      (if found then removePIDFromGroup s g p false else s, if bool_decide (rest = []) then delete g rn else <[g := rest]> rn, found)
  end.

Definition note_removed (removed : announced) (g : string) (p : PID) : announced := <[g := default [] (removed !! g) ++ [p]]> removed.

Fixpoint leave_pids (s : state) (rn removed : announced) (g : string) (pids : list PID) : state * announced * announced :=
  match pids with
  | [] => (s, rn, removed)
  | p :: pids =>
      let '(s, rn, found) := leave_one s rn g p in
      leave_pids s rn (if found then note_removed removed g p else removed) g pids
  end.

Fixpoint leave_groups (s : state) (rn removed : announced) (gs : list string) (pids : list PID) : state * announced * announced :=
  match gs with
  | [] => (s, rn, removed)
  | g :: gs => let '(s, rn, removed) := leave_pids s rn removed g pids in leave_groups s rn removed gs pids
  end.

(** The second result is what was removed, by group. *)
Definition leaveRemote (s : state) (node : string) (pids : list PID) (gs : list string) : state * announced :=
  match remote s !! node with
  | None => (s, ∅)
  | Some rn =>
      let '(s, rn, removed) := leave_groups s rn ∅ gs pids in
      (set_remote s (if bool_decide (rn = ∅) then delete node (remote s) else <[node := rn]> (remote s)), removed)
  end.

Definition drop_pids (s : state) (gp : string * list PID) : state := foldl (λ s p, removePIDFromGroup s gp.1 p false) s gp.2.

Definition removeNode (s : state) (node : string) : state :=
  match remote s !! node with
  | None => s
  | Some rn => let s := foldl drop_pids s (shuffle _ (map_to_list rn)) in set_remote s (delete node (remote s))
  end.

Definition know (s : state) (node : string) : state :=
  match remote s !! node with Some _ => s | None => set_remote s (<[node := ∅]> (remote s)) end.

Definition syncRemote (s : state) (node : string) (gs : announced) : state :=
  know (foldl (λ s gp, joinRemote s node gp.1 gp.2) (removeNode s node) (shuffle _ (map_to_list gs))) node.

Definition getMembers (s : state) (g : string) : list PID := all (group_of s g).
Definition getLocalMembers (s : state) (g : string) : list PID := here (group_of s g).
Definition whichGroups (s : state) : list string := (base.filter (λ kv, all kv.2 ≠ []) (shuffle _ (map_to_list (groups s)))).*1.
Definition whichLocalGroups (s : state) : list string := (base.filter (λ kv, here kv.2 ≠ []) (shuffle _ (map_to_list (groups s)))).*1.

Definition add_local (m : announced) (lp : localProcess) : announced :=
  foldl (λ m g, <[g := default [] (m !! g) ++ [lpid lp]]> m) m (lgroups lp).

Definition allLocalPids (s : state) : announced := foldl add_local ∅ (shuffle _ (map_to_list (local s))).*2.

Definition allGroupMembers (s : state) : announced := omap (λ gs, if bool_decide (all gs = []) then None else Some (all gs)) (groups s).

(** ** Changes are marked *)

Definition marks (s s' : state) : Prop := dirty s ⊆ dirty s' ∧ ∀ g, g ∉ dirty s' → groups s' !! g = groups s !! g.

#[global] Instance marks_preorder : PreOrder marks.
Proof. split; [by intros s|]. intros a b c [H1 H2] [H3 H4]. split; [set_solver|]. intros g Hg. rewrite H4 by done. apply H2. set_solver. Qed.

Lemma marks_set_group s g gs : marks s (set_group s g gs).
Proof. split; cbn; [set_solver|]. intros h Hh. apply lookup_insert_ne. set_solver. Qed.

Lemma marks_removePID s g p b : marks s (removePIDFromGroup s g p b).
Proof.
  unfold removePIDFromGroup. destruct (groups s !! g) as [gs|]; [|done]. split; cbn; [set_solver|]. intros h Hh.
  case_bool_decide; [apply lookup_delete_ne|apply lookup_insert_ne]; set_solver.
Qed.

Lemma marks_foldl {A} (f : state → A → state) l s : (∀ s a, marks s (f s a)) → marks s (foldl f s l).
Proof. intros H. revert s. induction l as [|a l IH]; intros s; cbn; [done|]. etrans; [apply H|apply IH]. Qed.

Lemma marks_joinLocal s g p : marks s (joinLocal s g p).
Proof. unfold joinLocal. etrans; [|apply marks_set_group]. by split. Qed.

Lemma marks_leaveLocal s g p : marks s (leaveLocal s g p).1.
Proof. unfold leaveLocal. destruct (local s !! toString p); [|done]. case_bool_decide; [|done]. cbn [fst]. etrans; [|apply marks_removePID]. by split. Qed.

Lemma marks_leaveAllLocal s p : marks s (leaveAllLocal s p).1.
Proof.
  unfold leaveAllLocal. destruct (local s !! toString p) as [lp|]; [|done]. cbn [fst].
  transitivity (foldl (λ s g, removePIDFromGroup s g p true) s (lgroups lp)); [apply marks_foldl; intros; apply marks_removePID|]. by split.
Qed.

Lemma marks_joinRemote s node g pids : marks s (joinRemote s node g pids).
Proof. unfold joinRemote. etrans; [|apply marks_set_group]. by split. Qed.

Lemma marks_leaveRemote s node pids gs : marks s (leaveRemote s node pids gs).1.
Proof.
  assert (∀ pids s rn rm g, marks s (leave_pids s rn rm g pids).1.1) as H1.
  { induction pids0 as [|p pids0 IH]; intros s0 rn rm g; cbn [leave_pids]; [done|]. destruct (leave_one s0 rn g p) as [[s1 rn1] b] eqn:E. etrans; [|apply IH].
    unfold leave_one in E. destruct (rn !! g); [|by simplify_eq]. injection E as <- _ _. destruct (existsb _ _); [apply marks_removePID|done]. }
  assert (∀ gs s rn rm, marks s (leave_groups s rn rm gs pids).1.1) as H2.
  { induction gs0 as [|g gs0 IH]; intros s0 rn rm; cbn [leave_groups]; [done|]. specialize (H1 pids s0 rn rm g). destruct (leave_pids s0 rn rm g pids) as [[s1 rn1] rm1]. by etrans; [|apply IH]. }
  unfold leaveRemote. destruct (remote s !! node) as [rn|]; [|done]. specialize (H2 gs s rn ∅). destruct (leave_groups s rn ∅ gs pids) as [[s1 rn1] rm]. cbn [fst] in *. etrans; [exact H2|]. by split.
Qed.

Lemma marks_removeNode s node : marks s (removeNode s node).
Proof.
  unfold removeNode. destruct (remote s !! node) as [rn|]; [|done]. transitivity (foldl drop_pids s (shuffle _ (map_to_list rn))); [|by split].
  apply marks_foldl. intros s0 gp. apply marks_foldl. intros. apply marks_removePID.
Qed.

Lemma marks_know s node : marks s (know s node).
Proof. unfold know. destruct (remote s !! node); [done|by split]. Qed.

Lemma marks_syncRemote s node gs : marks s (syncRemote s node gs).
Proof. unfold syncRemote. etrans; [|apply marks_know]. etrans; [apply marks_removeNode|]. apply marks_foldl. intros. apply marks_joinRemote. Qed.

(** ** Counting members *)

Lemma remove_one_perm {A} `{EqDecision A} (x : A) l : x ∈ l → l ≡ₚ x :: remove_one x l.
Proof.
  induction l as [|y l IH]; intros H; [by apply elem_of_nil in H|]. cbn. case_bool_decide as E; [by subst|].
  apply elem_of_cons in H as [->|H]; [done|]. rewrite (IH H) at 1. apply Permutation_swap.
Qed.

Lemma remove_one_none {A} `{EqDecision A} (x : A) l : x ∉ l → remove_one x l = l.
Proof. induction l as [|y l IH]; [done|]. rewrite not_elem_of_cons. intros [H1 H2]. cbn. rewrite bool_decide_eq_false_2 by done. by rewrite IH. Qed.

(** What the entries of a map contribute *)
Definition gather {A B} (f : A → list B) (m : gmap string A) : list B := map_to_list m ≫= λ kv, f kv.2.

Lemma gather_delete {A B} (f : A → list B) m k x : m !! k = Some x → gather f m ≡ₚ f x ++ gather f (delete k m).
Proof. intros H. unfold gather. rewrite <- (map_to_list_delete m k x H). done. Qed.

Lemma gather_insert {A B} (f : A → list B) m k x : gather f (<[k := x]> m) ≡ₚ f x ++ gather f (delete k m).
Proof. rewrite (gather_delete f (<[k := x]> m) k x) by apply lookup_insert_eq. by rewrite delete_insert_eq. Qed.

Lemma gather_missing {A B} (f : A → list B) m k : m !! k = None → gather f (delete k m) = gather f m.
Proof. intros H. by rewrite delete_id. Qed.

Definition contribution (g : string) (lp : localProcess) : list PID := (λ _, lpid lp) <$> base.filter (λ h, h = g) (lgroups lp).

(** The members of this node, and those the other nodes announced *)
Definition local_members (s : state) (g : string) : list PID := gather (contribution g) (local s).
Definition view (s : state) (node g : string) : list PID := default [] (remote s !! node ≫= λ rn, rn !! g).
Definition remote_members (s : state) (g : string) : list PID := gather (λ rn : announced, default [] (rn !! g)) (remote s).

(** ** The lists of the groups *)

Record groups_hold (s : state) (L R : string → list PID) : Prop := {
  gh_here g : here (group_of s g) ≡ₚ L g;
  gh_all g : all (group_of s g) ≡ₚ L g ++ R g;
  gh_listed g gs : groups s !! g = Some gs → all gs ≠ []
}.

Lemma hold_ext s s' L L' R R' : groups_hold s L R → groups s' = groups s → (∀ g, L g ≡ₚ L' g) → (∀ g, R g ≡ₚ R' g) → groups_hold s' L' R'.
Proof.
  intros [H1 H2 H3] E HL HR. split; unfold group_of in *; rewrite ?E; [intros g; by rewrite H1|intros g; by rewrite H2, HL, HR|done].
Qed.

Lemma hold_set s L R g gs L' R' : groups_hold s L R → all gs ≠ [] → here gs ≡ₚ L' g → all gs ≡ₚ L' g ++ R' g →
  (∀ h, h ≠ g → L' h ≡ₚ L h) → (∀ h, h ≠ g → R' h ≡ₚ R h) → groups_hold (set_group s g gs) L' R'.
Proof.
  intros [H1 H2 H3] Hne Hh Ha HL HR. split; unfold group_of, set_group in *; cbn.
  - intros h. destruct (decide (h = g)) as [->|Hd]; [by rewrite lookup_insert_eq|]. by rewrite lookup_insert_ne, H1, HL.
  - intros h. destruct (decide (h = g)) as [->|Hd]; [by rewrite lookup_insert_eq|]. by rewrite lookup_insert_ne, H2, HL, HR.
  - intros h gs' [[<- <-]|[_ Hg]]%lookup_insert_Some; [done|by eapply H3].
Qed.

(** Removing a member that is counted *)
Lemma hold_remove s L R g p (isLocal : bool) L' R' : groups_hold s L R →
  (if isLocal then L g ≡ₚ p :: L' g ∧ R' g ≡ₚ R g else L' g ≡ₚ L g ∧ R g ≡ₚ p :: R' g) →
  (∀ h, h ≠ g → L' h ≡ₚ L h) → (∀ h, h ≠ g → R' h ≡ₚ R h) → groups_hold (removePIDFromGroup s g p isLocal) L' R'.
Proof.
  intros [H1 H2 H3] Hg HL HR. unfold removePIDFromGroup, group_of in *. specialize (H1 g) as Hh. specialize (H2 g) as Ha.
  destruct (groups s !! g) as [gs|] eqn:E; cbn in Hh, Ha.
  2: { exfalso. apply Permutation_nil in Ha as [Hl Hr]%app_eq_nil. destruct isLocal; destruct Hg as [G1 G2].
       - rewrite Hl in G1. by apply Permutation_nil_cons in G1.
       - rewrite Hr in G2. by apply Permutation_nil_cons in G2. }
  set (gs' := mkGroup _ _). assert (p ∈ all gs) as Hp by (rewrite Ha; destruct isLocal; destruct Hg as [G1 G2]; [rewrite G1|rewrite G2]; set_solver).
  assert (all gs' ≡ₚ L' g ++ R' g) as Ha'.
  { cbn. apply (Permutation_cons_inv (a := p)). rewrite <- (remove_one_perm p (all gs) Hp), Ha. destruct isLocal; destruct Hg as [G1 G2]; [by rewrite G1, G2|by rewrite G1, G2, Permutation_middle]. }
  assert (here gs' ≡ₚ L' g) as Hh'.
  { cbn. destruct isLocal; destruct Hg as [G1 G2]; [|by rewrite Hh, G1]. apply (Permutation_cons_inv (a := p)). rewrite <- (remove_one_perm p (here gs)), Hh; [done|]. rewrite Hh, G1. set_solver. }
  split; unfold group_of in *; cbn.
  - intros h. destruct (decide (h = g)) as [->|Hd].
    + case_bool_decide as Hn; [|by rewrite lookup_insert_eq]. rewrite lookup_delete_eq. cbn. change (all gs' = []) in Hn. rewrite Hn in Ha'. apply Permutation_nil in Ha' as [-> _]%app_eq_nil. done.
    + rewrite HL, <- H1 by done. case_bool_decide; [by rewrite lookup_delete_ne|by rewrite lookup_insert_ne].
  - intros h. destruct (decide (h = g)) as [->|Hd].
    + case_bool_decide as Hn; [|by rewrite lookup_insert_eq]. rewrite lookup_delete_eq. cbn. change (all gs' = []) in Hn. by rewrite Hn in Ha'.
    + rewrite HL, HR, <- H2 by done. case_bool_decide; [by rewrite lookup_delete_ne|by rewrite lookup_insert_ne].
  - intros h x. case_bool_decide as Hn; [intros [_ Hx]%lookup_delete_Some; by eapply H3|]. intros [[<- <-]|[_ Hx]]%lookup_insert_Some; [done|by eapply H3].
Qed.

Lemma removePID_local s g p b : local (removePIDFromGroup s g p b) = local s.
Proof. unfold removePIDFromGroup. by destruct (groups s !! g). Qed.

Lemma removePID_remote s g p b : remote (removePIDFromGroup s g p b) = remote s.
Proof. unfold removePIDFromGroup. by destruct (groups s !! g). Qed.

(** ** The invariant *)

Definition announced_ok (rn : announced) : Prop := ∀ g ps, rn !! g = Some ps → ps ≠ [] ∧ Forall pid_ok ps.

Record state_ok (s : state) : Prop := {
  so_local k lp : local s !! k = Some lp → toString (lpid lp) = k ∧ pid_ok (lpid lp) ∧ lgroups lp ≠ [];
  so_remote n rn : remote s !! n = Some rn → announced_ok rn;
  so_groups : groups_hold s (local_members s) (remote_members s)
}.

Definition once (P : Prop) `{Decision P} (l : list PID) : list PID := if decide P then l else [].

Lemma contribution_app h lp g : contribution h (mkLocal (lpid lp) (lgroups lp ++ [g])) = contribution h lp ++ once (h = g) [lpid lp].
Proof.
  unfold contribution, once. cbn [lpid lgroups]. rewrite filter_app, fmap_app, filter_cons, filter_nil. f_equal. repeat case_decide; first [reflexivity|congruence].
Qed.

Lemma contribution_remove h lp g : g ∈ lgroups lp → contribution h lp ≡ₚ once (h = g) [lpid lp] ++ contribution h (mkLocal (lpid lp) (remove_one g (lgroups lp))).
Proof.
  intros Hg. unfold contribution, once. cbn [lpid lgroups]. rewrite (remove_one_perm g (lgroups lp) Hg) at 1. rewrite filter_cons. repeat case_decide; first [reflexivity|congruence].
Qed.

Lemma joinLocal_ok s g p : state_ok s → pid_ok p → state_ok (joinLocal s g p) ∧ remote (joinLocal s g p) = remote s ∧
  ∀ h, local_members (joinLocal s g p) h ≡ₚ once (h = g) [p] ++ local_members s h.
Proof.
  intros [H1 H2 H3] Hp. set (lp := default (mkLocal p []) (local s !! toString p)).
  assert (lpid lp = p) as Elp. { unfold lp. destruct (local s !! toString p) as [x|] eqn:E; [|done]. destruct (H1 _ _ E) as (? & ? & _). by apply toString_inj. }
  assert (∀ h, local_members (joinLocal s g p) h ≡ₚ once (h = g) [p] ++ local_members s h) as HL.
  { intros h. unfold local_members, joinLocal, set_group, set_local. cbn [local]. fold lp. rewrite gather_insert, contribution_app, Elp. rewrite (Permutation_app_comm (contribution h lp)), <- app_assoc. f_equiv.
    unfold lp. destruct (local s !! toString p) as [x|] eqn:E; cbn; [by rewrite (gather_delete _ _ _ x E)|]. by rewrite gather_missing. }
  split_and!; [|done|done]. split.
  - unfold joinLocal, set_group, set_local. cbn [local]. fold lp. intros k x [[<- <-]|[_ Hx]]%lookup_insert_Some; [|by apply H1]. cbn. rewrite Elp. split_and!; [done..|]. by destruct (lgroups lp).
  - done.
  - apply (hold_set _ (local_members s) (remote_members s)); [by eapply hold_ext|..]; cbn [all here].
    + by destruct (all _).
    + rewrite HL. unfold once. rewrite decide_True by done. rewrite (gh_here _ _ _ H3 g), Permutation_app_comm. done.
    + rewrite HL. unfold once. rewrite decide_True by done. rewrite (gh_all _ _ _ H3 g), Permutation_app_comm. done.
    + intros h Hh. rewrite HL. unfold once. by rewrite decide_False.
    + done.
Qed.

Lemma leaveLocal_ok s g p : state_ok s → pid_ok p →
  let '(s', b) := leaveLocal s g p in state_ok s' ∧ remote s' = remote s ∧
  if b then ∀ h, local_members s h ≡ₚ once (h = g) [p] ++ local_members s' h else s' = s.
Proof.
  intros Hs Hp. pose proof Hs as [H1 H2 H3]. unfold leaveLocal. destruct (local s !! toString p) as [lp|] eqn:E; [|done]. case_bool_decide as Hg; [|done].
  destruct (H1 _ _ E) as (Ek & Hok & _). apply toString_inj in Ek; [|done..]. set (rest := remove_one g (lgroups lp)).
  set (m := if bool_decide (rest = []) then _ else _). set (s1 := set_local s m).
  assert (∀ h, local_members s h ≡ₚ once (h = g) [p] ++ gather (contribution h) m) as HL.
  { intros h. unfold local_members. rewrite (gather_delete _ _ _ lp E), (contribution_remove h lp g Hg), Ek, <- app_assoc. f_equiv. unfold m. case_bool_decide as Hr.
    - unfold contribution. cbn. fold rest. by rewrite Hr.
    - by rewrite gather_insert, Ek. }
  split_and!; [|by rewrite removePID_remote|intros h; rewrite HL; unfold local_members; by rewrite removePID_local].
  split; rewrite ?removePID_local, ?removePID_remote; cbn.
  - intros k x. unfold m. case_bool_decide as Hr; [intros [_ Hx]%lookup_delete_Some; by apply H1|]. intros [[<- <-]|[_ Hx]]%lookup_insert_Some; [by rewrite Ek|by apply H1].
  - done.
  - apply (hold_remove s1 (local_members s) (remote_members s)); unfold local_members, remote_members; rewrite ?removePID_local, ?removePID_remote; cbn.
    + by eapply hold_ext.
    + split; [|done]. fold (local_members s g). rewrite HL. unfold once. by rewrite decide_True.
    + intros h Hh. fold (local_members s h). rewrite HL. unfold once. by rewrite decide_False.
    + done.
Qed.

(** *** Several at once *)

Definition times (h : string) (gs : list string) (p : PID) : list PID := (λ _, p) <$> base.filter (λ g, g = h) gs.

Lemma times_cons h g gs p : times h (g :: gs) p = once (h = g) [p] ++ times h gs p.
Proof. unfold times, once. rewrite filter_cons. repeat case_decide; first [reflexivity|congruence]. Qed.

Lemma hold_leave_all gs s L R L' p : groups_hold s L R → (∀ h, L h ≡ₚ times h gs p ++ L' h) →
  let s' := foldl (λ s g, removePIDFromGroup s g p true) s gs in groups_hold s' L' R ∧ local s' = local s ∧ remote s' = remote s.
Proof.
  revert s L. induction gs as [|g gs IH]; intros s L Hs HL; cbn [foldl].
  - split_and!; [|done..]. by eapply hold_ext.
  - destruct (IH (removePIDFromGroup s g p true) (λ h, times h gs p ++ L' h)) as (A & B & C).
    + eapply hold_remove; [done|split; [|done]| |done].
      * rewrite (HL g), times_cons. unfold once. by rewrite decide_True.
      * intros h Hh. rewrite (HL h), times_cons. unfold once. by rewrite decide_False.
    + done.
    + rewrite removePID_local in B. rewrite removePID_remote in C. done.
Qed.

Lemma leaveAllLocal_ok s p : state_ok s → pid_ok p →
  let '(s', gs) := leaveAllLocal s p in state_ok s' ∧ remote s' = remote s ∧ local s' !! toString p = None ∧
  ∀ h, local_members s h ≡ₚ times h gs p ++ local_members s' h.
Proof.
  intros Hs Hp. pose proof Hs as [H1 H2 H3]. unfold leaveAllLocal. destruct (local s !! toString p) as [lp|] eqn:E; [|done].
  destruct (H1 _ _ E) as (Ek & Hok & _). apply toString_inj in Ek; [|done..].
  assert (∀ h, local_members s h ≡ₚ times h (lgroups lp) p ++ gather (contribution h) (delete (toString p) (local s))) as HL.
  { intros h. unfold local_members. rewrite (gather_delete _ _ _ lp E). f_equiv. unfold contribution, times. by rewrite Ek. }
  destruct (hold_leave_all (lgroups lp) s _ _ _ p H3 HL) as (A & B & C). set (s1 := foldl _ s _) in *.
  split_and!; cbn; rewrite ?B, ?C; [|done|apply lookup_delete_eq|done]. split; cbn; rewrite ?B, ?C; [|done|].
  - intros k x [_ Hx]%lookup_delete_Some. by apply H1.
  - eapply hold_ext; [exact A|done|..]; unfold local_members, remote_members; cbn; by rewrite ?B, ?C.
Qed.

(** *** Members of other nodes *)

Lemma view_members s node g : remote_members s g ≡ₚ view s node g ++ gather (λ rn : announced, default [] (rn !! g)) (delete node (remote s)).
Proof.
  unfold remote_members, view. destruct (remote s !! node) as [rn|] eqn:E; cbn; [by rewrite (gather_delete _ _ _ rn E)|]. by rewrite gather_missing.
Qed.

Definition elsewhere (s : state) (node h : string) : list PID := gather (λ rn : announced, default [] (rn !! h)) (delete node (remote s)).

(** The state with the members of one node kept apart *)
Lemma apart s node rn s' : groups_hold s (local_members s) (λ h, default [] (rn !! h) ++ elsewhere s node h) →
  local s' = local s → groups s' = groups s → remote s' = <[node := rn]> (remote s) ∨ rn = ∅ ∧ remote s' = delete node (remote s) →
  groups_hold s' (local_members s') (remote_members s').
Proof.
  intros H El Eg Er. eapply hold_ext; [exact H|done|intros h; unfold local_members; by rewrite El|]. intros h. unfold remote_members, elsewhere.
  destruct Er as [->|[-> ->]]; [by rewrite gather_insert|]. done.
Qed.

Lemma joinRemote_ok s node g pids : state_ok s → pids ≠ [] → Forall pid_ok pids →
  let s' := joinRemote s node g pids in state_ok s' ∧ local s' = local s ∧
  ∀ n h, view s' n h = view s n h ++ once (n = node ∧ h = g) pids.
Proof.
  intros [H1 H2 H3] Hne Hok. set (rn := default ∅ (remote s !! node)). cbn.
  assert (∀ n h, view (joinRemote s node g pids) n h = view s n h ++ once (n = node ∧ h = g) pids) as HV.
  { intros n h. unfold view, joinRemote, set_remote, set_group, once. cbn [remote]. fold rn. destruct (decide (n = node)) as [->|Hn].
    - rewrite lookup_insert_eq. cbn. destruct (decide (h = g)) as [->|Hh].
      + rewrite lookup_insert_eq, decide_True by done. cbn. f_equal. unfold rn. by destruct (remote s !! node).
      + rewrite lookup_insert_ne, decide_False, app_nil_r by naive_solver. unfold rn. by destruct (remote s !! node).
    - by rewrite lookup_insert_ne, decide_False, app_nil_r by naive_solver. }
  split_and!; [|done|done]. split.
  - done.
  - intros n x. unfold joinRemote, set_remote, set_group. cbn [remote]. fold rn. intros [[<- <-]|[_ Hx]]%lookup_insert_Some; [|by eapply H2]. intros h ps [[<- <-]|[_ Hp]]%lookup_insert_Some.
    + split; [by destruct (default [] (rn !! g)); destruct pids|]. apply Forall_app. split; [|done]. unfold rn. destruct (remote s !! node) as [m|] eqn:E; cbn; [|by rewrite lookup_empty].
      destruct (m !! g) as [l|] eqn:El; [|done]. by apply (H2 node m E g l El).
    + unfold rn in Hp. destruct (remote s !! node) as [m|] eqn:E; cbn in Hp; [by eapply (H2 node m E)|by rewrite lookup_empty in Hp].
  - assert (∀ h, remote_members (joinRemote s node g pids) h ≡ₚ remote_members s h ++ once (h = g) pids) as HR.
    { intros h. rewrite (view_members (joinRemote s node g pids) node h), HV, (view_members s node h). unfold joinRemote, set_remote, set_group. cbn [remote]. rewrite delete_insert_eq.
      rewrite <- !app_assoc. f_equiv. rewrite Permutation_app_comm. f_equiv. unfold once. repeat case_decide; naive_solver. }
    apply (hold_set _ (local_members s) (remote_members s)); [by eapply hold_ext|..]; cbn [all here].
    + by destruct (all _); destruct pids.
    + apply (gh_here _ _ _ H3).
    + rewrite HR. unfold once. rewrite decide_True by done. change (all (group_of s g) ++ pids ≡ₚ local_members s g ++ remote_members s g ++ pids). by rewrite (gh_all _ _ _ H3 g), app_assoc.
    + done.
    + intros h Hh. rewrite HR. unfold once. by rewrite decide_False, app_nil_r.
Qed.

Lemma remove_key_one p l : pid_ok p → Forall pid_ok l → remove_key (toString p) l = remove_one p l.
Proof.
  intros Hp. induction 1 as [|q l Hq Hl IH]; cbn [remove_key remove_one]; [done|]. rewrite IH. rewrite (bool_decide_ext (toString q = toString p) (q = p)); [done|].
  split; [by apply toString_inj|by intros ->].
Qed.

Lemma found_in p l : pid_ok p → Forall pid_ok l → existsb (λ q, bool_decide (toString q = toString p)) l = bool_decide (p ∈ l).
Proof.
  intros Hp. induction 1 as [|q l Hq Hl IH]; cbn [existsb]; [by rewrite bool_decide_eq_false_2 by apply not_elem_of_nil|]. rewrite IH.
  rewrite (bool_decide_ext (toString q = toString p) (p = q)) by (split; [intros E; symmetry; by apply toString_inj|by intros ->]).
  rewrite (bool_decide_ext (p ∈ q :: l) (p = q ∨ p ∈ l)) by apply elem_of_cons. by rewrite bool_decide_or.
Qed.

Lemma remove_one_ok p l : Forall pid_ok l → Forall pid_ok (remove_one p l).
Proof. induction 1 as [|q l Hq Hl IH]; cbn; [constructor|]. case_bool_decide; [done|by constructor]. Qed.

(** While a node's members are taken out, [rn] is what is left of them. *)
Definition leaving (s : state) (L Q : string → list PID) (rn : announced) : Prop :=
  groups_hold s L (λ h, default [] (rn !! h) ++ Q h) ∧ announced_ok rn.

Lemma leave_one_ok s L Q rn g p : leaving s L Q rn → pid_ok p →
  let '(s', rn', found) := leave_one s rn g p in leaving s' L Q rn' ∧ local s' = local s ∧ remote s' = remote s ∧
  found = bool_decide (p ∈ default [] (rn !! g)) ∧
  ∀ h, default [] (rn' !! h) = if decide (h = g) then remove_one p (default [] (rn !! h)) else default [] (rn !! h).
Proof.
  intros [Hs Hrn] Hp. unfold leave_one. destruct (rn !! g) as [ps|] eqn:E; cbn [from_option id].
  2: { split_and!; [done..| |]; [by rewrite bool_decide_eq_false_2 by apply not_elem_of_nil|]. intros h. case_decide; [subst; by rewrite E|done]. }
  destruct (Hrn g ps E) as [Hne Hok]. rewrite found_in, remove_key_one by done. set (rn' := if bool_decide (remove_one p ps = []) then _ else _).
  assert (∀ h, default [] (rn' !! h) = if decide (h = g) then remove_one p (default [] (rn !! h)) else default [] (rn !! h)) as HV.
  { intros h. unfold rn'. case_bool_decide as Hr; case_decide as Hh; subst; rewrite ?lookup_delete_eq, ?lookup_insert_eq, ?lookup_delete_ne, ?lookup_insert_ne by done; rewrite ?E; done. }
  assert (announced_ok rn') as Hrn'.
  { intros h l. unfold rn'. case_bool_decide as Hr; [intros [_ Hl]%lookup_delete_Some; exact (Hrn h l Hl)|]. intros [[<- <-]|[_ Hl]]%lookup_insert_Some; [|exact (Hrn h l Hl)]. split; [done|by apply remove_one_ok]. }
  case_bool_decide as Hin.
  - rewrite removePID_local, removePID_remote. split_and!; [|done..]. split; [|done]. eapply hold_remove; [done|split; [done|]|done|].
    + rewrite HV, decide_True by done. rewrite E. cbn. by rewrite (remove_one_perm p ps Hin) at 1.
    + intros h Hh. by rewrite HV, decide_False.
  - split_and!; [|done..]. split; [|done]. eapply hold_ext; [done..|]. intros h. rewrite HV. case_decide as Hh; [|done]. subst. rewrite E. cbn. by rewrite remove_one_none.
Qed.

Definition subtract (l pids : list PID) : list PID := foldl (λ l p, remove_one p l) l pids.

Lemma leave_pids_ok pids s L Q rn removed g : leaving s L Q rn → Forall pid_ok pids →
  let '(s', rn', removed') := leave_pids s rn removed g pids in leaving s' L Q rn' ∧ local s' = local s ∧ remote s' = remote s ∧
  (∀ h, default [] (rn' !! h) = if decide (h = g) then subtract (default [] (rn !! h)) pids else default [] (rn !! h)) ∧
  (∀ h, default [] (removed !! h) ++ default [] (rn !! h) ≡ₚ default [] (removed' !! h) ++ default [] (rn' !! h)).
Proof.
  intros Hs Hpids. revert s rn removed Hs. induction Hpids as [|p pids Hp Hps IH]; intros s rn removed Hs; cbn [leave_pids].
  - split_and!; [done..| |done]. intros h. by case_decide.
  - pose proof (leave_one_ok s L Q rn g p Hs Hp) as H1. destruct (leave_one s rn g p) as [[s1 rn1] found]. destruct H1 as (A1 & A2 & A3 & A4 & A5).
    specialize (IH s1 rn1 (if found then note_removed removed g p else removed) A1). destruct (leave_pids s1 rn1 _ g pids) as [[s2 rn2] removed']. destruct IH as (B1 & B2 & B3 & B4 & B5).
    split_and!; [done|congruence|congruence| |].
    + intros h. rewrite B4, A5. by destruct (decide (h = g)).
    + intros h. rewrite <- B5, A5, A4. destruct (decide (h = g)) as [->|Hh].
      * case_bool_decide as Hin; [|by rewrite remove_one_none]. unfold note_removed. rewrite lookup_insert_eq. cbn. rewrite <- app_assoc. f_equiv. by apply remove_one_perm.
      * case_bool_decide; [|done]. unfold note_removed. by rewrite lookup_insert_ne.
Qed.

Lemma leave_groups_ok gs s L Q rn removed pids : leaving s L Q rn → Forall pid_ok pids →
  let '(s', rn', removed') := leave_groups s rn removed gs pids in leaving s' L Q rn' ∧ local s' = local s ∧ remote s' = remote s ∧
  (∀ h, default [] (rn' !! h) = foldl (λ l g, if decide (h = g) then subtract l pids else l) (default [] (rn !! h)) gs) ∧
  (∀ h, default [] (removed !! h) ++ default [] (rn !! h) ≡ₚ default [] (removed' !! h) ++ default [] (rn' !! h)).
Proof.
  intros Hs Hpids. revert s rn removed Hs. induction gs as [|g gs IH]; intros s rn removed Hs; cbn [leave_groups]; [done|].
  pose proof (leave_pids_ok pids s L Q rn removed g Hs Hpids) as H1. destruct (leave_pids s rn removed g pids) as [[s1 rn1] removed1]. destruct H1 as (A1 & A2 & A3 & A4 & A5).
  specialize (IH s1 rn1 removed1 A1). destruct (leave_groups s1 rn1 removed1 gs pids) as [[s2 rn2] removed2]. destruct IH as (B1 & B2 & B3 & B4 & B5).
  split_and!; [done|congruence|congruence| |].
  - intros h. rewrite B4, A4. done.
  - intros h. by rewrite A5.
Qed.

Lemma leaveRemote_ok s node pids gs : state_ok s → Forall pid_ok pids →
  let '(s', removed) := leaveRemote s node pids gs in state_ok s' ∧ local s' = local s ∧
  (∀ n h, view s' n h = if decide (n = node) then foldl (λ l g, if decide (h = g) then subtract l pids else l) (view s n h) gs else view s n h) ∧
  (∀ h, view s node h ≡ₚ default [] (removed !! h) ++ view s' node h).
Proof.
  intros Hs Hpids. pose proof Hs as [H1 H2 H3]. unfold leaveRemote. destruct (remote s !! node) as [rn|] eqn:E.
  2: { assert (∀ h, view s node h = []) as Hv by (intros h; unfold view; by rewrite E). split_and!; [done..| |].
       - intros n h. case_decide; [subst|done]. rewrite Hv. induction gs as [|g gs IH]; cbn; [done|]. case_decide; [|done]. unfold subtract. assert (foldl (λ l p, remove_one p l) [] pids = []) as ->; [|done]. clear. induction pids; done.
       - intros h. by rewrite Hv, lookup_empty. }
  assert (∀ h, view s node h = default [] (rn !! h)) as Hv by (intros h; unfold view; by rewrite E).
  assert (leaving s (local_members s) (elsewhere s node) rn) as Hl.
  { split; [|by eapply H2]. eapply hold_ext; [exact H3|done..|]. intros h. by rewrite (view_members s node h), Hv. }
  pose proof (leave_groups_ok gs s _ _ rn ∅ pids Hl Hpids) as Hg. destruct (leave_groups s rn ∅ gs pids) as [[s1 rn1] removed]. destruct Hg as ([A1 A1'] & A2 & A3 & A4 & A5).
  set (m := if bool_decide (rn1 = ∅) then _ else _). assert (∀ n h, view (set_remote s1 m) n h = if decide (n = node) then default [] (rn1 !! h) else view s n h) as HV.
  { intros n h. unfold view, set_remote. cbn [remote]. unfold m. rewrite A3. case_bool_decide as Hn; case_decide as Hd; subst; rewrite ?lookup_delete_eq, ?lookup_insert_eq, ?lookup_delete_ne, ?lookup_insert_ne by done; done. }
  split_and!.
  - split; cbn.
    + by rewrite A2.
    + intros n x. unfold m. rewrite A3. case_bool_decide; [intros [_ Hx]%lookup_delete_Some; by eapply H2|]. intros [[<- <-]|[_ Hx]]%lookup_insert_Some; [done|by eapply H2].
    + apply (apart s1 node rn1); [|done..|].
      * eapply hold_ext; [exact A1|done|intros h; unfold local_members; by rewrite A2|intros h; unfold elsewhere; by rewrite A3].
      * cbn. unfold m. case_bool_decide; tauto.
  - done.
  - intros n h. rewrite HV. case_decide; [|done]. subst. by rewrite A4, Hv.
  - intros h. rewrite HV, decide_True, Hv by done. rewrite <- A5. by rewrite lookup_empty.
Qed.

(** The members of a group in a list of announcements *)
Definition listed (h : string) (l : list (string * list PID)) : list PID := l ≫= λ gp, once (h = gp.1) gp.2.

Lemma bind_none {A B} (f : A → list B) l : Forall (λ x, f x = []) l → l ≫= f = [].
Proof. induction 1 as [|x l Hx Hl IH]; cbn; [done|]. by rewrite Hx, IH. Qed.

Lemma listed_map (m : announced) h : listed h (map_to_list m) ≡ₚ default [] (m !! h).
Proof.
  unfold listed. destruct (m !! h) as [l|] eqn:E; cbn.
  - rewrite <- (map_to_list_delete m h l E). cbn. unfold once at 1. rewrite decide_True by done. assert ((map_to_list (delete h m) ≫= λ gp, once (h = gp.1) gp.2) = []) as ->; [|by rewrite app_nil_r].
    apply bind_none. apply Forall_forall. intros [k x] Hk%elem_of_map_to_list. unfold once. rewrite decide_False; [done|]. cbn. intros <-. by rewrite lookup_delete_eq in Hk.
  - assert ((map_to_list m ≫= λ gp, once (h = gp.1) gp.2) = []) as ->; [|done]. apply bind_none. apply Forall_forall. intros [k x] Hk%elem_of_map_to_list. unfold once. rewrite decide_False; [done|]. cbn. intros <-. by rewrite E in Hk.
Qed.

Lemma hold_drop_pids pids s L R R' g : groups_hold s L R → (∀ h, R h ≡ₚ once (h = g) pids ++ R' h) →
  let s' := foldl (λ s p, removePIDFromGroup s g p false) s pids in groups_hold s' L R' ∧ local s' = local s ∧ remote s' = remote s.
Proof.
  revert s R. induction pids as [|p pids IH]; intros s R Hs HR; cbn [foldl].
  - split_and!; [|done..]. eapply hold_ext; [done..|]. intros h. rewrite HR. unfold once. by case_decide.
  - destruct (IH (removePIDFromGroup s g p false) (λ h, once (h = g) pids ++ R' h)) as (A & B & C).
    + eapply hold_remove; [done|split; [done|]|done|].
      * rewrite HR. unfold once. by rewrite !decide_True.
      * intros h Hh. rewrite HR. unfold once. by rewrite !decide_False.
    + done.
    + rewrite removePID_local in B. rewrite removePID_remote in C. done.
Qed.

Lemma hold_drop_all l s L R R' : groups_hold s L R → (∀ h, R h ≡ₚ listed h l ++ R' h) →
  let s' := foldl drop_pids s l in groups_hold s' L R' ∧ local s' = local s ∧ remote s' = remote s.
Proof.
  revert s R. induction l as [|[g pids] l IH]; intros s R Hs HR; cbn [foldl].
  - split_and!; [|done..]. by eapply hold_ext.
  - destruct (hold_drop_pids pids s L R (λ h, listed h l ++ R' h) g Hs) as (A1 & A2 & A3).
    + intros h. rewrite HR. cbn. by rewrite <- app_assoc.
    + unfold drop_pids at 2 4 6. cbn [fst snd]. destruct (IH _ _ A1) as (B1 & B2 & B3); [done|]. split_and!; [done|congruence|congruence].
Qed.

Hypothesis shuffle_perm : ∀ A l, shuffle A l ≡ₚ l.

Lemma removeNode_ok s node : state_ok s →
  let s' := removeNode s node in state_ok s' ∧ local s' = local s ∧ remote s' = delete node (remote s).
Proof.
  intros Hs. pose proof Hs as [H1 H2 H3]. unfold removeNode. destruct (remote s !! node) as [rn|] eqn:E; [|by rewrite delete_id].
  destruct (hold_drop_all (shuffle _ (map_to_list rn)) s _ _ (elsewhere s node) H3) as (A & B & C).
  { intros h. rewrite (view_members s node h). fold (elsewhere s node h). f_equiv. unfold view. rewrite E. cbn. rewrite <- listed_map. unfold listed. by rewrite shuffle_perm. }
  set (s1 := foldl _ s _) in *. cbn. rewrite B, C. split_and!; [|done..]. split; cbn; rewrite ?B, ?C; [done| |].
  - intros n x [_ Hx]%lookup_delete_Some. by eapply H2.
  - eapply hold_ext; [exact A|done|intros h; unfold local_members; cbn; by rewrite ?B|]. intros h. unfold remote_members, elsewhere. cbn. by rewrite ?C.
Qed.

Lemma view_deleted s s' node n h : remote s' = delete node (remote s) → view s' n h = if decide (n = node) then [] else view s n h.
Proof. intros E. unfold view. rewrite E. case_decide; [subst; by rewrite lookup_delete_eq|by rewrite lookup_delete_ne]. Qed.

Lemma know_ok s node : state_ok s → state_ok (know s node) ∧ local (know s node) = local s ∧ (∀ n h, view (know s node) n h = view s n h) ∧ is_Some (remote (know s node) !! node).
Proof.
  intros Hs. pose proof Hs as [H1 H2 H3]. unfold know. destruct (remote s !! node) as [rn|] eqn:E; [by rewrite E|]. cbn. rewrite lookup_insert_eq. split_and!; [|done| |done].
  - split; cbn; [done| |].
    + intros n x [[<- <-]|[_ Hx]]%lookup_insert_Some; [intros g ps; by rewrite lookup_empty|by eapply H2].
    + eapply hold_ext; [exact H3|done..|]. intros h. unfold remote_members. cbn. rewrite gather_insert, lookup_empty. by rewrite gather_missing.
  - intros n h. unfold view. cbn. destruct (decide (n = node)) as [->|Hn]; [by rewrite lookup_insert_eq, E; cbn; rewrite lookup_empty|by rewrite lookup_insert_ne].
Qed.

Lemma joins_ok l s node : state_ok s → Forall (λ gp, gp.2 ≠ [] ∧ Forall pid_ok gp.2) l →
  let s' := foldl (λ s gp, joinRemote s node gp.1 gp.2) s l in state_ok s' ∧ local s' = local s ∧
  ∀ n h, view s' n h = view s n h ++ once (n = node) (listed h l).
Proof.
  intros Hs Hl. revert s Hs. induction Hl as [|[g pids] l [Hne Hok] Hl IH]; intros s Hs; cbn [foldl].
  - split_and!; [done..|]. intros n h. unfold once. case_decide; by rewrite app_nil_r.
  - destruct (joinRemote_ok s node g pids Hs Hne Hok) as (A1 & A2 & A3). destruct (IH _ A1) as (B1 & B2 & B3). cbn [fst snd] in *. split_and!; [done|congruence|].
    intros n h. rewrite B3, A3. unfold listed. cbn. unfold once. repeat case_decide; rewrite <- ?app_assoc; naive_solver.
Qed.

Lemma syncRemote_ok s node gs : state_ok s → announced_ok gs →
  let s' := syncRemote s node gs in state_ok s' ∧ local s' = local s ∧
  (∀ n h, view s' n h ≡ₚ if decide (n = node) then default [] (gs !! h) else view s n h) ∧ is_Some (remote s' !! node).
Proof.
  intros Hs Hgs. destruct (removeNode_ok s node Hs) as (A1 & A2 & A3). destruct (joins_ok (shuffle _ (map_to_list gs)) (removeNode s node) node A1) as (B1 & B2 & B3).
  { rewrite shuffle_perm. apply Forall_forall. intros [g ps] Hin%elem_of_map_to_list. exact (Hgs g ps Hin). }
  destruct (know_ok (foldl (λ s gp, joinRemote s node gp.1 gp.2) (removeNode s node) (shuffle _ (map_to_list gs))) node B1) as (C1 & C2 & C3 & C4). unfold syncRemote. split_and!; [done|congruence| |done].
  intros n h. rewrite C3, B3, (view_deleted s _ node n h A3). unfold once. case_decide; [|by rewrite app_nil_r]. cbn. rewrite <- listed_map. unfold listed. by rewrite shuffle_perm.
Qed.

(** *** What is announced to other nodes *)

Lemma add_local_spec lp m h : default [] (add_local m lp !! h) = default [] (m !! h) ++ contribution h lp.
Proof.
  unfold add_local, contribution. induction (lgroups lp) as [|g gs IH] in m |- *; cbn [foldl]; [by rewrite app_nil_r|]. rewrite IH, filter_cons. case_decide as E.
  - subst. rewrite lookup_insert_eq. cbn. by rewrite <- app_assoc.
  - by rewrite lookup_insert_ne.
Qed.

Lemma allLocalPids_spec s h : default [] (allLocalPids s !! h) ≡ₚ local_members s h.
Proof.
  assert (∀ l m, default [] (foldl add_local m l !! h) = default [] (m !! h) ++ (l ≫= contribution h)) as H.
  { induction l as [|lp l IH]; intros m; cbn; [by rewrite app_nil_r|]. by rewrite IH, add_local_spec, app_assoc. }
  unfold allLocalPids, local_members, gather. rewrite H, lookup_empty. cbn. rewrite shuffle_perm. clear. induction (map_to_list (local s)) as [|kv l IH]; cbn; [done|]. by rewrite IH.
Qed.

Lemma add_local_ok m lp : announced_ok m → pid_ok (lpid lp) → announced_ok (add_local m lp).
Proof.
  intros Hm Hp. unfold add_local. induction (lgroups lp) as [|g gs IH] in m, Hm |- *; cbn [foldl]; [done|]. apply IH. intros h ps [[<- <-]|[_ Hl]]%lookup_insert_Some; [|exact (Hm h ps Hl)].
  split; [by destruct (default [] _)|]. apply Forall_app. split; [|by constructor]. destruct (m !! g) as [l|] eqn:E; [|done]. by apply (Hm g l E).
Qed.

Lemma allLocalPids_ok s : state_ok s → announced_ok (allLocalPids s).
Proof.
  intros [H1 _ _]. unfold allLocalPids. assert (Forall (λ lp, pid_ok (lpid lp)) (shuffle _ (map_to_list (local s))).*2) as Hl.
  { rewrite shuffle_perm. apply Forall_forall. intros lp ([k x] & -> & Hin%elem_of_map_to_list)%list_elem_of_fmap. by apply (H1 k x Hin). }
  assert (announced_ok ∅) as H0 by (intros g ps; by rewrite lookup_empty). revert H0. generalize (∅ : announced). induction Hl as [|lp l Hp Hl IH]; intros m Hm; cbn; [done|]. apply IH. by apply add_local_ok.
Qed.

Lemma newState_ok : state_ok newState.
Proof.
  split; cbn; [intros k lp; by rewrite lookup_empty|intros n rn; by rewrite lookup_empty|]. split; cbn; [done..|]. intros g gs. by rewrite lookup_empty.
Qed.

End state.

End PgState.
