(* ===== verification/PgRetry.v ===== *)
(** * Circuit breakers and retries of process groups ([service/pg/circuit_breaker.go], [retry.go])

    A breaker counts the failures of sending to one node, refuses to send after too many of
    them, and lets a test through when some time has passed. Announcements that could not
    be sent are kept in a queue, a heap by the time of the next attempt, with exponential
    back-off. Times and delays are in nanoseconds; the clock is an argument.

    The lemmas: an open breaker refuses exactly until its time is over, and a breaker opens
    after the configured number of failures in a row; both tables are bounded; a heap keeps
    its entries; no entry is tried more often than configured, and delays stay between the
    two bounds although the product overflows. *)

From S2P Require Import Prelude Bytes GoStrings Pid.
Import Pid.

Module PgRetry.

(** ** Circuit breakers *)

Inductive CircuitState := CircuitClosed | CircuitOpen | CircuitHalfOpen.

#[export] Instance CircuitState_eq_dec : EqDecision CircuitState.
Proof. solve_decision. Defined.

Record circuitBreaker := mkBreaker {
  lastFailure : Z;
  openTime : Z;
  cstate : CircuitState;
  failures : Z;
  maxFailures : Z;
  resetTimeout : Z
}.

Definition newCircuitBreaker (maxFailures resetTimeout : Z) : circuitBreaker :=
  mkBreaker 0 0 CircuitClosed 0 (if bool_decide (maxFailures ≤ 0) then 3 else maxFailures)
    (if bool_decide (resetTimeout ≤ 0) then 10000000000 else resetTimeout).

Definition Allow (now : Z) (cb : circuitBreaker) : circuitBreaker * bool :=
  match cstate cb with
  | CircuitClosed | CircuitHalfOpen => (cb, true)
  | CircuitOpen =>
      if bool_decide (resetTimeout cb ≤ now - openTime cb) then
        (mkBreaker (lastFailure cb) (openTime cb) CircuitHalfOpen 0 (maxFailures cb) (resetTimeout cb), true)
      else (cb, false)
  end.

Definition RecordSuccess (cb : circuitBreaker) : circuitBreaker :=
  match cstate cb with
  | CircuitOpen => cb
  | _ => mkBreaker (lastFailure cb) (openTime cb) CircuitClosed 0 (maxFailures cb) (resetTimeout cb)
  end.

Definition Reset (cb : circuitBreaker) : circuitBreaker :=
  mkBreaker (lastFailure cb) (openTime cb) CircuitClosed 0 (maxFailures cb) (resetTimeout cb).

Definition RecordFailure (now : Z) (cb : circuitBreaker) : circuitBreaker :=
  let n := failures cb + 1 in
  let opened := mkBreaker now now CircuitOpen n (maxFailures cb) (resetTimeout cb) in
  match cstate cb with
  | CircuitHalfOpen => opened
  | CircuitClosed => if bool_decide (maxFailures cb ≤ n) then opened else mkBreaker now (openTime cb) CircuitClosed n (maxFailures cb) (resetTimeout cb)
  | CircuitOpen => mkBreaker now (openTime cb) CircuitOpen n (maxFailures cb) (resetTimeout cb)
  end.

Record circuitBreakerManager := mkManager { breakers : gmap string circuitBreaker; mMaxFailures : Z; maxBreakers : nat; mResetTimeout : Z }.

Definition defaultBreakerMapCap : nat := 1024.

Definition newCircuitBreakerManager (maxFailures resetTimeout : Z) : circuitBreakerManager := mkManager ∅ maxFailures defaultBreakerMapCap resetTimeout.

(** The breaker of a node; [victim] is the key that the iteration over the table meets first. *)
Definition GetCircuitBreaker (victim : gmap string circuitBreaker → string) (m : circuitBreakerManager) (node : string) : circuitBreakerManager * circuitBreaker :=
  match breakers m !! node with
  | Some cb => (m, cb)
  | None =>
      let t := if bool_decide (maxBreakers m ≤ size (breakers m))%nat then delete (victim (breakers m)) (breakers m) else breakers m in
      let cb := newCircuitBreaker (mMaxFailures m) (mResetTimeout m) in
      (mkManager (<[node := cb]> t) (mMaxFailures m) (maxBreakers m) (mResetTimeout m), cb)
  end.

Definition set_breaker (m : circuitBreakerManager) (node : string) (cb : circuitBreaker) : circuitBreakerManager :=
  mkManager (<[node := cb]> (breakers m)) (mMaxFailures m) (maxBreakers m) (mResetTimeout m).

Definition RemoveCircuitBreaker (m : circuitBreakerManager) (node : string) : circuitBreakerManager :=
  mkManager (delete node (breakers m)) (mMaxFailures m) (maxBreakers m) (mResetTimeout m).

(** ** Binary heaps ([container/heap]) *)

Section heap.
Context {A : Type} (less : A → A → bool).

Definition less_at (l : list A) (i j : nat) : bool :=
  match l !! i, l !! j with Some x, Some y => less x y | _, _ => false end.

Definition swap (l : list A) (i j : nat) : list A :=
  match l !! i, l !! j with Some x, Some y => <[i := y]> (<[j := x]> l) | _, _ => l end.

Fixpoint up (fuel : nat) (l : list A) (j : nat) : list A :=
  match fuel with
  | O => l
  | S fuel =>
      let i := ((j - 1) / 2)%nat in
      if bool_decide (j = 0%nat) || negb (less_at l j i) then l else up fuel (swap l i j) i
  end.

Fixpoint down (fuel : nat) (l : list A) (i n : nat) : list A :=
  match fuel with
  | O => l
  | S fuel =>
      let j1 := (2 * i + 1)%nat in
      if bool_decide (n ≤ j1)%nat then l else
      let j := if bool_decide (j1 + 1 < n)%nat && less_at l (j1 + 1) j1 then (j1 + 1)%nat else j1 in
      if negb (less_at l j i) then l else down fuel (swap l i j) j n
  end.

Definition heap_push (l : list A) (x : A) : list A := up (S (length l)) (l ++ [x]) (length l).

Definition heap_pop (l : list A) : option (A * list A) :=
  let n := (length l - 1)%nat in
  let l := down (S n) (swap l 0 n) 0 n in
  match last l with Some x => Some (x, take n l) | None => None end.

Lemma swap_perm l i j : swap l i j ≡ₚ l.
Proof.
  unfold swap. destruct (l !! i) as [x|] eqn:Ei; [|done]. destruct (l !! j) as [y|] eqn:Ej; [|done]. destruct (decide (i = j)) as [->|Hne].
  - rewrite list_insert_insert_eq. rewrite Ei in Ej. injection Ej as ->. by rewrite list_insert_id.
  - by apply Permutation_insert_swap.
Qed.

Lemma up_perm fuel l j : up fuel l j ≡ₚ l.
Proof. revert l j. induction fuel as [|fuel IH]; intros l j; cbn; [done|]. case_match; [done|]. by rewrite IH, swap_perm. Qed.

Lemma down_perm fuel l i n : down fuel l i n ≡ₚ l.
Proof. revert l i. induction fuel as [|fuel IH]; intros l i; cbn; [done|]. repeat (case_match; try done); by rewrite IH, swap_perm. Qed.

Lemma heap_push_perm l x : heap_push l x ≡ₚ x :: l.
Proof. unfold heap_push. by rewrite up_perm, Permutation_app_comm. Qed.

Lemma heap_pop_perm l x l' : heap_pop l = Some (x, l') → l ≡ₚ x :: l'.
Proof.
  unfold heap_pop. set (n := (length l - 1)%nat). set (k := down _ _ _ _). assert (k ≡ₚ l) as Hk by (unfold k; by rewrite down_perm, swap_perm).
  destruct (last k) as [y|] eqn:E; [|done]. intros [= <- <-]. apply last_Some in E as [k' E]. rewrite <- Hk, E. assert (n = length k') as ->.
  { unfold n. rewrite <- Hk, E, length_app. cbn. lia. }
  by rewrite take_app_length, Permutation_app_comm.
Qed.

Lemma heap_pop_some l : l ≠ [] → ∃ x l', heap_pop l = Some (x, l').
Proof.
  intros Hl. unfold heap_pop. set (k := down _ _ _ _). assert (k ≡ₚ l) as Hk by (unfold k; by rewrite down_perm, swap_perm).
  destruct (last k) eqn:E; [eauto|]. apply last_None in E. rewrite E in Hk. by apply Permutation_nil in Hk.
Qed.

End heap.

(** ** The queue of retries *)

Inductive topic := TopicDiscover | TopicSync | TopicJoin | TopicLeave.

Record retryEntry := mkRetry { nextTry : Z; targetNode : string; rgroups : list string; rtopic : topic; rpids : list PID; rid : Z; attempts : Z }.

Record retryQueue := mkQueue { entries : list retryEntry; sequenceID : Z; maxRetries : Z; qcap : nat; baseDelay : Z; maxDelay : Z; stopped : bool }.

Definition defaultRetryQueueCap : nat := 2048.

Definition newRetryQueue (maxRetries baseDelay maxDelay : Z) : retryQueue :=
  mkQueue [] 0 (if bool_decide (maxRetries ≤ 0) then 3 else maxRetries) defaultRetryQueueCap
    (if bool_decide (baseDelay ≤ 0) then 100000000 else baseDelay) (if bool_decide (maxDelay ≤ 0) then 1000000000 else maxDelay) false.

Definition sooner (a b : retryEntry) : bool := bool_decide (nextTry a < nextTry b).

Definition set_entries (q : retryQueue) (l : list retryEntry) : retryQueue :=
  mkQueue l (sequenceID q) (maxRetries q) (qcap q) (baseDelay q) (maxDelay q) (stopped q).

(** Room for one more entry: the one that is due first is dropped. *)
Definition make_room (q : retryQueue) : list retryEntry :=
  if bool_decide (qcap q ≤ length (entries q))%nat then match heap_pop sooner (entries q) with Some (_, l) => l | None => entries q end else entries q.

Definition Add (now : Z) (q : retryQueue) (node : string) (t : topic) (gs : list string) (pids : list PID) : retryQueue :=
  if stopped q then q else
  let id := u64 (sequenceID q + 1) in
  mkQueue (heap_push sooner (make_room q) (mkRetry (now + baseDelay q) node gs t pids id 0)) id (maxRetries q) (qcap q) (baseDelay q) (maxDelay q) (stopped q).

Definition backoff (q : retryQueue) (attempts : Z) : Z :=
  let delay := i64 (baseDelay q * i64 (2 ^ attempts)) in
  if bool_decide (maxDelay q < delay) || bool_decide (delay ≤ 0) then maxDelay q else delay.

Definition requeue (now : Z) (q : retryQueue) (e : retryEntry) : retryQueue :=
  let n := attempts e + 1 in
  if bool_decide (maxRetries q ≤ n) then q else
  set_entries q (heap_push sooner (make_room q) (mkRetry (now + backoff q n) (targetNode e) (rgroups e) (rtopic e) (rpids e) (rid e) n)).

(** The entries that are due, taken off the heap *)
Fixpoint take_ready (fuel : nat) (now : Z) (l : list retryEntry) : list retryEntry * list retryEntry :=
  match fuel with
  | O => ([], l)
  | S fuel =>
      match l with
      | [] => ([], l)
      | e :: _ =>
          if bool_decide (nextTry e ≤ now) then
            match heap_pop sooner l with
            | Some (x, l) => let '(ready, l) := take_ready fuel now l in (x :: ready, l)
            | None => ([], l)
            end
          else ([], l)
      end
  end.

Definition ready (now : Z) (q : retryQueue) : list retryEntry * retryQueue :=
  let '(r, l) := take_ready (length (entries q)) now (entries q) in (r, set_entries q l).

(** ** What holds of them *)

(** An open breaker refuses until its time is over, and no other one refuses. *)
Lemma Allow_spec now cb : (Allow now cb).2 = negb (bool_decide (cstate cb = CircuitOpen ∧ now - openTime cb < resetTimeout cb)).
Proof. unfold Allow. destruct (cstate cb); cbn; [by rewrite bool_decide_eq_false_2 by naive_solver| |by rewrite bool_decide_eq_false_2 by naive_solver]. repeat case_bool_decide; cbn; naive_solver lia. Qed.

(** Failures in a row open a closed breaker, and not earlier. *)
Lemma failures_open now cb n : cstate cb = CircuitClosed → 0 ≤ failures cb < maxFailures cb →
  let x := Nat.iter n (RecordFailure now) cb in
  maxFailures x = maxFailures cb ∧ failures x = failures cb + Z.of_nat n ∧
  cstate x = if bool_decide (maxFailures cb ≤ failures cb + Z.of_nat n) then CircuitOpen else CircuitClosed.
Proof.
  intros Hc Hf. induction n as [|n IH]; cbn zeta.
  - cbn [Nat.iter nat_rect]. rewrite Hc, bool_decide_eq_false_2 by lia. split_and!; [done|lia|done].
  - rewrite Nat.iter_succ. cbn zeta in IH. destruct IH as (E1 & E2 & E3). revert E1 E2 E3. generalize (Nat.iter n (RecordFailure now) cb). intros x E1 E2 E3.
    unfold RecordFailure. rewrite E3. repeat case_bool_decide; cbn [cstate failures maxFailures]; split_and!; first [done|lia|congruence].
Qed.

(** The table of breakers is bounded when the first key it meets is one of it. *)
Lemma breakers_bounded victim m node : (∀ t : gmap string circuitBreaker, t ≠ ∅ → is_Some (t !! victim t)) → (0 < maxBreakers m)%nat →
  (size (breakers m) ≤ maxBreakers m → size (breakers (GetCircuitBreaker victim m node).1) ≤ maxBreakers m)%nat.
Proof.
  intros Hv Hpos Hsz. unfold GetCircuitBreaker. destruct (breakers m !! node) eqn:E; [done|]. cbn. case_bool_decide as Hc.
  - assert (breakers m ≠ ∅) as Hne by (intros H0; rewrite H0, map_size_empty in Hc; lia). destruct (Hv _ Hne) as [cb Hcb].
    rewrite map_size_insert_None by (apply lookup_delete_None; tauto). rewrite map_size_delete_Some by done. lia.
  - rewrite map_size_insert_None by done. lia.
Qed.

Lemma make_room_length q : (0 < qcap q)%nat → (length (entries q) ≤ qcap q → length (make_room q) < qcap q)%nat.
Proof.
  intros Hpos Hl. unfold make_room. case_bool_decide as Hc; [|lia]. destruct (heap_pop_some sooner (entries q)) as (x & l & E); [intros H0; rewrite H0 in Hc; cbn in Hc; lia|].
  rewrite E. apply heap_pop_perm in E. rewrite E in Hl. cbn in Hl. lia.
Qed.

(** The queue never holds more entries than its capacity. *)
Lemma retries_bounded now q node t gs pids e : (0 < qcap q)%nat → (length (entries q) ≤ qcap q)%nat →
  (length (entries (Add now q node t gs pids)) ≤ qcap q)%nat ∧ (length (entries (requeue now q e)) ≤ qcap q)%nat.
Proof.
  intros Hpos Hl. pose proof (make_room_length q Hpos Hl) as Hr. split.
  - unfold Add. destruct (stopped q); [done|]. cbn [entries]. rewrite heap_push_perm. cbn [length]. lia.
  - unfold requeue. case_bool_decide; [done|]. cbn [entries set_entries]. rewrite heap_push_perm. cbn [length]. lia.
Qed.

(** The delay is positive and at most the configured one, also when the product overflows. *)
Lemma backoff_bounds q n : 0 < maxDelay q → 0 < backoff q n ≤ maxDelay q.
Proof. intros H. unfold backoff. repeat case_bool_decide; cbn; lia. Qed.

(** An entry that is put back has been tried less often than configured. *)
Lemma requeue_limit now q e x : x ∈ entries (requeue now q e) → x ∈ entries q ∨ attempts x = attempts e + 1 ∧ attempts x < maxRetries q.
Proof.
  unfold requeue. case_bool_decide as Hm; [tauto|]. cbn [entries set_entries]. rewrite heap_push_perm, elem_of_cons. intros [->|Hin]; [right; cbn; lia|left].
  unfold make_room in Hin. case_bool_decide; [|done]. destruct (heap_pop sooner (entries q)) as [[y l]|] eqn:E; [|done]. apply heap_pop_perm in E. rewrite E. by right.
Qed.

Lemma take_ready_perm fuel now l : let '(r, l') := take_ready fuel now l in l ≡ₚ r ++ l'.
Proof.
  revert l. induction fuel as [|fuel IH]; intros l; cbn; [done|]. destruct l as [|e l]; [done|]. case_bool_decide; [|done].
  destruct (heap_pop sooner (e :: l)) as [[x k]|] eqn:E; [|done]. apply heap_pop_perm in E. specialize (IH k). destruct (take_ready fuel now k) as [r l']. rewrite E. cbn. by rewrite IH.
Qed.

End PgRetry.
