(* ===== verification/PgService.v ===== *)
(** * The service of process groups ([service/pg])

    A node keeps the groups of its processes and what the other nodes announced
    ([PgState]). All changes go through one queue of actions, which a single goroutine
    works off: calls of processes, packages of other nodes, exits of processes, and nodes
    that come and go. Changes of this node's processes are announced to the other nodes,
    and changes of a group to the processes that subscribed to it. Readers use a snapshot
    of the group, which every action that changes the group publishes again.

    A send is an attempt: the circuit breaker of the target may refuse it, or the router
    may. What the router answers, the clock and the membership of the cluster are the
    environment of an action ([env]); every attempt is recorded in the log with its outcome.

    The theorems: readers see the members that the processes of this node joined and the
    others announced; a subscriber that starts from the members it is given and follows its
    events has the current members. *)

From S2P Require Import Prelude Bytes GoStrings Pid PgState PgRetry.
Import Pid PgState PgRetry.

Module PgService.

(** ** Data *)

(** What a payload holds after transport *)
Inductive value := VStr (s : string) | VList (l : list value) | VMap (m : list (string * value)) | VOther.

Notation payload_map := (list (string * value)).

Inductive pdata := PMap (m : payload_map) | PExit (from : PID) | POther.

Inductive message_topic := Pg (t : topic) | TopicEvents | OtherTopic.

Record Message := mkMessage { Topic : message_topic; Payloads : list pdata }.

Inductive event_kind := MemberJoined | MemberLeft.

Record monitorEntry := mkEntry { epid : PID; etopic : string; eid : Z }.

#[export] Instance monitorEntry_eq_dec : EqDecision monitorEntry.
Proof. solve_decision. Defined.

(** What the service sends: to the service of another node, to a subscriber, and to a
    member of a group. The package for a subscriber has the process and the topic of the
    subscription. *)
Inductive packet :=
| Protocol (node : string) (t : topic) (data : payload_map)
| Notify (to : monitorEntry) (kind : event_kind) (group : string) (pids : list PID)
| Deliver (from to : PID) (topic : string).

Inductive send_error := ErrNodeNotManaged | ErrQueueFull | ErrOther.

(** [Blocked] by the circuit breaker, or what the router returned *)
Inductive outcome := Blocked | Tried (err : option send_error).

Notation accepted := (Tried None).

(** What the service did: sending, and monitoring a process in the topology *)
Inductive effect := Attempt (p : packet) (o : outcome) | Watch (p : PID) | Unwatch (p : PID).

Record env := mkEnv {
  clock : list effect → Z;
  answer : list effect → packet → option send_error;
  nodes : list string;
  expired : list effect → bool
}.

Record net := mkNet { cbManager : circuitBreakerManager; retries : retryQueue; log : list effect }.

Inductive action :=
| DoJoin (g : string) (p : PID) | DoJoinGroups (gs : list string) (p : PID)
| DoLeave (g : string) (p : PID) | DoLeaveGroups (gs : list string) (p : PID)
| DoMonitor (g : string) (p : PID) (topic : string) | DoEvents (p : PID) (topic : string) | DoUnsubscribe (g : string) (id : Z) (p : PID)
| DoMembers (g : string) | DoLocalMembers (g : string)
| DoDiscover (from : string) | DoSync (from : string) (gs : announced) | DoRemoteJoin (from : string) (joins : announced) | DoRemoteLeave (from : string) (leaves : announced)
| DoExit (p : PID) | DoNodeJoined (node : string) | DoNodeLeft (node : string) | DoReconcile | DoSendDiscover (node : string).

Record Service := mkService {
  st : state;
  groupSnaps : gmap string (list PID * list PID);
  monitors : gmap string (list monitorEntry);
  monitorPIDCounts : gmap string Z;
  monitorIDSeq : Z;
  antiEntropyCursor : nat;
  nt : net;
  retrying : list retryEntry;
  actions : list action;
  running : bool
}.

Record config := mkConfig {
  hostID : string; localNodeID : string; maxGroups : Z; maxMembersPerGroup : Z; actionQueueMaxSize : nat;
  MaxRetries : Z; RetryBaseDelay : Z; RetryMaxDelay : Z; CircuitBreakerFailures : Z; CircuitBreakerResetTime : Z
}.

Inductive error := ErrMaxGroupsReached | ErrMaxMembersReached | ErrNotJoined | ErrServiceStopped | ErrBackpressure.

(** What an action hands back to its caller *)
Inductive reply := Done (err : option error) | Subscribed (members : list PID) (id : Z) | SubscribedAll (groups : announced) (id : Z) | Members (l : list PID) | Nothing.

Definition set_st (s : Service) (x : state) : Service := mkService x (groupSnaps s) (monitors s) (monitorPIDCounts s) (monitorIDSeq s) (antiEntropyCursor s) (nt s) (retrying s) (actions s) (running s).
Definition set_nt (s : Service) (n : net) : Service := mkService (st s) (groupSnaps s) (monitors s) (monitorPIDCounts s) (monitorIDSeq s) (antiEntropyCursor s) n (retrying s) (actions s) (running s).
Definition set_snaps (s : Service) (m : gmap string (list PID * list PID)) : Service := mkService (st s) m (monitors s) (monitorPIDCounts s) (monitorIDSeq s) (antiEntropyCursor s) (nt s) (retrying s) (actions s) (running s).
Definition set_monitors (s : Service) (m : gmap string (list monitorEntry)) (counts : gmap string Z) : Service := mkService (st s) (groupSnaps s) m counts (monitorIDSeq s) (antiEntropyCursor s) (nt s) (retrying s) (actions s) (running s).
Definition set_seq (s : Service) (n : Z) : Service := mkService (st s) (groupSnaps s) (monitors s) (monitorPIDCounts s) n (antiEntropyCursor s) (nt s) (retrying s) (actions s) (running s).
Definition set_cursor (s : Service) (n : nat) : Service := mkService (st s) (groupSnaps s) (monitors s) (monitorPIDCounts s) (monitorIDSeq s) n (nt s) (retrying s) (actions s) (running s).
Definition set_retrying (s : Service) (l : list retryEntry) : Service := mkService (st s) (groupSnaps s) (monitors s) (monitorPIDCounts s) (monitorIDSeq s) (antiEntropyCursor s) (nt s) l (actions s) (running s).
Definition set_actions (s : Service) (l : list action) : Service := mkService (st s) (groupSnaps s) (monitors s) (monitorPIDCounts s) (monitorIDSeq s) (antiEntropyCursor s) (nt s) (retrying s) l (running s).
Definition set_running (s : Service) (b : bool) : Service := mkService (st s) (groupSnaps s) (monitors s) (monitorPIDCounts s) (monitorIDSeq s) (antiEntropyCursor s) (nt s) (retrying s) (actions s) b.

(** ** The wire *)

Definition field (data : payload_map) (k : string) : option value := snd <$> find (λ kv, bool_decide (kv.1 = k)) data.

Definition as_string (v : option value) : string := match v with Some (VStr s) => s | _ => "" end.

Definition decode_pid (v : value) : option PID :=
  match v with VStr s => match ParsePID s with Ok p => Some p | Err _ => None end | _ => None end.

Definition decodePidList (v : option value) : list PID := match v with Some (VList l) => omap decode_pid l | _ => [] end.

Definition decode_group (gv : string * value) (m : announced) : announced :=
  let pids := decodePidList (Some gv.2) in if bool_decide (pids = []) then m else <[gv.1 := pids]> m.

Definition decodeGroupPidsMap (v : option value) : announced := match v with Some (VMap m) => foldr decode_group ∅ m | _ => ∅ end.

Definition encode_pids (pids : list PID) : value := VList ((λ p, VStr (toString p)) <$> pids).

(** ** Handling packages *)

Definition handleDiscoverPackage (m : Message) : list action :=
  match Payloads m with
  | PMap data :: _ => let from := as_string (field data "from") in if bool_decide (from = "") then [] else [DoDiscover from]
  | _ => []
  end.

Definition handleSyncPackage (m : Message) : list action :=
  match Payloads m with
  | PMap data :: _ => let from := as_string (field data "from") in if bool_decide (from = "") then [] else [DoSync from (decodeGroupPidsMap (field data "groups"))]
  | _ => []
  end.

(** The format of older senders: one group *)
Definition single_join (data : payload_map) : announced :=
  let g := as_string (field data "group") in
  let pids := decodePidList (field data "pids") in
  if bool_decide (g = "") || bool_decide (pids = []) then ∅ else {[g := pids]}.

Definition handleJoinPackage (m : Message) : list action :=
  match Payloads m with
  | PMap data :: _ =>
      let from := as_string (field data "from") in
      if bool_decide (from = "") then [] else
      let joins := decodeGroupPidsMap (field data "joins") in
      let joins := if bool_decide (joins = ∅) then single_join data else joins in
      if bool_decide (joins = ∅) then [] else [DoRemoteJoin from joins]
  | _ => []
  end.

(** The format of older senders: every process leaves every group. *)
Definition flat_leaves (data : payload_map) : announced :=
  let pids := decodePidList (field data "pids") in
  let gs := match field data "groups" with Some (VList l) => l | _ => [] end in
  if bool_decide (pids = []) then ∅ else
  foldl (λ m raw, match raw with
    | VStr g => if bool_decide (g = "") then m else <[g := default [] (m !! g) ++ pids]> m
    | _ => m
    end) ∅ gs.

Definition handleLeavePackage (m : Message) : list action :=
  match Payloads m with
  | PMap data :: _ =>
      let from := as_string (field data "from") in
      if bool_decide (from = "") then [] else
      let leaves := decodeGroupPidsMap (field data "leaves") in
      let leaves := if bool_decide (leaves = ∅) then flat_leaves data else leaves in
      if bool_decide (leaves = ∅) then [] else [DoRemoteLeave from leaves]
  | _ => []
  end.

Definition handleExitPackage (m : Message) : list action :=
  omap (λ d, match d with PExit p => Some (DoExit p) | _ => None end) (Payloads m).

Definition dispatch (m : Message) : list action :=
  match Topic m with
  | Pg TopicDiscover => handleDiscoverPackage m
  | Pg TopicSync => handleSyncPackage m
  | Pg TopicJoin => handleJoinPackage m
  | Pg TopicLeave => handleLeavePackage m
  | TopicEvents => handleExitPackage m
  | OtherTopic => []
  end.

Section service.

(** The order in which Go visits the entries of a map, and the first key it meets *)
Context (shuffle : ∀ A, list A → list A) (victim : gmap string circuitBreaker → string) (c : config).

Definition encodeJoinsPayload (joins : announced) : value := VMap ((λ gp, (gp.1, encode_pids gp.2)) <$> shuffle _ (map_to_list joins)).

(** [submit]: the queue is bounded, and an action that does not fit is dropped. *)
Definition submit (s : Service) (a : action) : Service * bool :=
  if bool_decide (length (actions s) < actionQueueMaxSize c)%nat then (set_actions s (actions s ++ [a]), true) else (s, false).

Definition submitError (s : Service) : error := if running s then ErrBackpressure else ErrServiceStopped.

(** Events of the cluster's membership *)
Definition handleNodeJoinedEvent (s : Service) (node : string) : Service := if bool_decide (node = localNodeID c) then s else (submit s (DoNodeJoined node)).1.
Definition handleNodeLeftEvent (s : Service) (node : string) : Service := if bool_decide (node = localNodeID c) then s else (submit s (DoNodeLeft node)).1.

(** [Send] of the service, for a package of another node or of the topology *)
Definition Send (s : Service) (ms : list Message) : Service := foldl (λ s a, (submit s a).1) s (ms ≫= dispatch).

(** ** Sending *)

Definition record (n : net) (e : effect) : net := mkNet (cbManager n) (retries n) (log n ++ [e]).

Definition penalty (now : Z) (counts_full : bool) (err : option send_error) (cb : circuitBreaker) : circuitBreaker :=
  match err with
  | None => RecordSuccess cb
  | Some ErrNodeNotManaged => cb
  | Some ErrQueueFull => if counts_full then RecordFailure now cb else cb
  | Some ErrOther => RecordFailure now cb
  end.

(** One attempt: the breaker is asked, the package is handed to the router, and the breaker
    is told how it went. *)
Definition send (e : env) (counts_full : bool) (node : string) (p : packet) (n : net) : net * outcome :=
  let now := clock e (log n) in
  let '(m, cb) := GetCircuitBreaker victim (cbManager n) node in
  let '(cb, ok) := Allow now cb in
  if negb ok then (mkNet (set_breaker m node cb) (retries n) (log n ++ [Attempt p Blocked]), Blocked) else
  let err := answer e (log n) p in
  (mkNet (set_breaker m node (penalty now counts_full err cb)) (retries n) (log n ++ [Attempt p (Tried err)]), Tried err).

Definition failed (o : outcome) : bool := match o with Tried (Some ErrQueueFull) | Tried (Some ErrOther) => true | _ => false end.

Definition retry (e : env) (node : string) (t : topic) (gs : list string) (pids : list PID) (n : net) : net :=
  mkNet (cbManager n) (Add (clock e (log n)) (retries n) node t gs pids) (log n).

Definition discover_data : payload_map := [("from", VStr (localNodeID c))].
Definition sync_data (s : state) : payload_map := [("from", VStr (localNodeID c)); ("groups", encodeJoinsPayload (allLocalPids shuffle s))].
Definition join_data (joins : announced) : payload_map := [("from", VStr (localNodeID c)); ("joins", encodeJoinsPayload joins)].
Definition leave_data (leaves : announced) : payload_map := [("from", VStr (localNodeID c)); ("leaves", encodeJoinsPayload leaves)].

Definition sendDiscover (e : env) (node : string) (n : net) : net :=
  let '(n, o) := send e true node (Protocol node TopicDiscover discover_data) n in
  if failed o && bool_decide (0 < MaxRetries c) then retry e node TopicDiscover [] [] n else n.

Definition sendSync (e : env) (s : state) (node : string) (n : net) : net := (send e true node (Protocol node TopicSync (sync_data s)) n).1.

Definition retryJoinsPerGroup (e : env) (node : string) (t : topic) (joins : announced) (n : net) : net :=
  foldl (λ n gp, retry e node t [gp.1] gp.2 n) n (shuffle _ (map_to_list joins)).

Definition membershipAlivePeers (e : env) : list string := base.filter (λ n, n ≠ localNodeID c) (nodes e).

Definition add_target (l : list string) (n : string) : list string := if bool_decide (n = localNodeID c) || bool_decide (n ∈ l) then l else l ++ [n].

Definition broadcastTargets (e : env) (s : state) : list string :=
  foldl add_target [] (membershipAlivePeers e ++ (shuffle _ (map_to_list (remote s))).*1).

(** The announcement of a change to one node *)
Definition announce (e : env) (t : topic) (data : payload_map) (changes : announced) (n : net) (node : string) : net :=
  let '(n, o) := send e true node (Protocol node t data) n in
  match o with
  | Blocked => retryJoinsPerGroup e node t changes n
  | _ => if failed o then retryJoinsPerGroup e node t changes n else n
  end.

Definition broadcastJoin (e : env) (s : state) (joins : announced) (n : net) : net :=
  if bool_decide (joins = ∅) then n else foldl (announce e TopicJoin (join_data joins) joins) n (broadcastTargets e s).

Definition broadcastLeave (e : env) (s : state) (leaves : announced) (n : net) : net :=
  let leaves := base.filter (λ gp, gp.2 ≠ []) leaves in
  if bool_decide (leaves = ∅) then n else foldl (announce e TopicLeave (leave_data leaves) leaves) n (broadcastTargets e s).

(** *** Subscribers *)

Definition notify (e : env) (kind : event_kind) (g : string) (pids : list PID) (n : net) (m : monitorEntry) : net :=
  (send e true (Node (epid m)) (Notify m kind g pids) n).1.

Definition deliverMonitorEventWithCircuitBreaker (e : env) (mons : gmap string (list monitorEntry)) (kind : event_kind) (g : string) (pids : list PID) (n : net) : net :=
  let n := foldl (notify e kind g pids) n (default [] (mons !! g)) in
  foldl (notify e kind g pids) n (default [] (mons !! "")).

Notation emit := deliverMonitorEventWithCircuitBreaker.

(** *** Members: the second result is the number of packages that were accepted. *)
Fixpoint sendToMembers (e : env) (from : PID) (topic : string) (members : list PID) (n : net) : net * nat :=
  match members with
  | [] => (n, 0%nat)
  | target :: members =>
      let '(m, cb) := GetCircuitBreaker victim (cbManager n) (Node target) in
      if bool_decide ((Allow (clock e (log n)) cb).2 = true) && expired e (log n) then
        (mkNet (set_breaker m (Node target) (Allow (clock e (log n)) cb).1) (retries n) (log n), 0%nat)
      else
        let '(n, o) := send e false (Node target) (Deliver from target topic) n in
        let '(n, k) := sendToMembers e from topic members n in
        (n, match o with Tried None => S k | _ => k end)
  end.

(** ** Actions *)

Definition publish_group (x : state) (m : gmap string (list PID * list PID)) (g : string) : gmap string (list PID * list PID) :=
  match snapshotGroup x g with Some snap => <[g := snap]> m | None => delete g m end.

Definition publishDirty (s : Service) : Service :=
  let x := st s in
  set_st (set_snaps s (foldl (publish_group x) (groupSnaps s) (shuffle _ (elements (dirty x))))) (PgState.mkState (local x) (remote x) (groups x) ∅).

Definition monitorProcess (p : PID) (n : net) : net := record n (Watch p).
Definition demonitorProcess (p : PID) (n : net) : net := record n (Unwatch p).

Definition hasGroupMemberships (s : Service) (p : PID) : bool := bool_decide (is_Some (local (st s) !! toString p)).
Definition hasMonitorSubscriptions (s : Service) (p : PID) : bool := bool_decide (0 < default 0 (monitorPIDCounts s !! toString p)).

Definition Join (e : env) (s : Service) (g : string) (p : PID) : Service * reply :=
  let gs := groups (st s) in
  if bool_decide (0 < maxGroups c) && bool_decide (gs !! g = None) && bool_decide (maxGroups c ≤ Z.of_nat (size gs)) then (s, Done (Some ErrMaxGroupsReached)) else
  if bool_decide (0 < maxMembersPerGroup c) && match gs !! g with Some x => bool_decide (maxMembersPerGroup c ≤ Z.of_nat (length (all x))) | None => false end then (s, Done (Some ErrMaxMembersReached)) else
  let x := joinLocal (st s) g p in
  let n := if hasGroupMemberships s p then nt s else monitorProcess p (nt s) in
  let n := broadcastJoin e x {[g := [p]]} n in
  let n := emit e (monitors s) MemberJoined g [p] n in
  (publishDirty (set_nt (set_st s x) n), Done None).

(** The number of members each group would have, counted up as the groups are joined *)
Fixpoint exceeds_members (x : state) (projected : gmap string Z) (gs : list string) : bool :=
  match gs with
  | [] => false
  | g :: gs =>
      let k := default (Z.of_nat (length (all (group_of x g)))) (projected !! g) + 1 in
      if bool_decide (maxMembersPerGroup c < k) then true else exceeds_members x (<[g := k]> projected) gs
  end.

Definition new_groups (x : state) (gs : list string) : gset string := list_to_set (base.filter (λ g, groups x !! g = None) gs).

Definition join_each (e : env) (mons : gmap string (list monitorEntry)) (p : PID) (a : state * announced * net) (g : string) : state * announced * net :=
  let '(x, joins, n) := a in (joinLocal x g p, note_removed joins g p, emit e mons MemberJoined g [p] n).

Definition JoinGroups (e : env) (s : Service) (gs : list string) (p : PID) : Service * reply :=
  if bool_decide (0 < maxMembersPerGroup c) && exceeds_members (st s) ∅ gs then (s, Done (Some ErrMaxMembersReached)) else
  if bool_decide (0 < maxGroups c) && bool_decide (maxGroups c < Z.of_nat (size (groups (st s))) + Z.of_nat (size (new_groups (st s) gs))) then (s, Done (Some ErrMaxGroupsReached)) else
  let '(x, joins, n) := foldl (join_each e (monitors s) p) (st s, ∅, nt s) gs in
  let n := broadcastJoin e x joins n in
  let n := if hasGroupMemberships s p then n else monitorProcess p n in
  (publishDirty (set_nt (set_st s x) n), Done None).

(** The process is no longer watched when it is in no group. *)
Definition stop_watching (x : state) (p : PID) (n : net) : net :=
  match local x !! toString p with None => demonitorProcess p n | Some _ => n end.

Definition Leave (e : env) (s : Service) (g : string) (p : PID) : Service * reply :=
  let '(x, ok) := leaveLocal (st s) g p in
  if negb ok then (s, Done (Some ErrNotJoined)) else
  let n := stop_watching x p (nt s) in
  let n := broadcastLeave e x {[g := [p]]} n in
  let n := emit e (monitors s) MemberLeft g [p] n in
  (publishDirty (set_nt (set_st s x) n), Done None).

Definition leave_each (e : env) (mons : gmap string (list monitorEntry)) (p : PID) (a : state * announced * net) (g : string) : state * announced * net :=
  let '(x, leaves, n) := a in
  let '(x, ok) := leaveLocal x g p in
  if ok then (x, note_removed leaves g p, emit e mons MemberLeft g [p] n) else (x, leaves, n).

Definition LeaveGroups (e : env) (s : Service) (gs : list string) (p : PID) : Service * reply :=
  let '(x, leaves, n) := foldl (leave_each e (monitors s) p) (st s, ∅, nt s) gs in
  if bool_decide (leaves = ∅) then (s, Done (Some ErrNotJoined)) else
  let n := broadcastLeave e x leaves n in
  let n := stop_watching x p n in
  (publishDirty (set_nt (set_st s x) n), Done None).

(** *** Subscriptions *)

Definition subscribe (s : Service) (key : string) (p : PID) (topic : string) : Service * Z :=
  let id := u64 (monitorIDSeq s + 1) in
  let s := set_seq s id in
  let s := set_monitors s (<[key := default [] (monitors s !! key) ++ [mkEntry p topic id]]> (monitors s))
    (<[toString p := default 0 (monitorPIDCounts s !! toString p) + 1]> (monitorPIDCounts s)) in
  (set_nt s (monitorProcess p (nt s)), id).

Definition Monitor (s : Service) (g : string) (p : PID) (topic : string) : Service * reply :=
  let '(s, id) := subscribe s g p topic in (s, Subscribed (getMembers (st s) g) id).

Definition Events (s : Service) (p : PID) (topic : string) : Service * reply :=
  let '(s, id) := subscribe s "" p topic in (s, SubscribedAll (allGroupMembers (st s)) id).

Definition decrement (counts : gmap string Z) (key : string) : gmap string Z :=
  let k := default 0 (counts !! key) in
  if bool_decide (0 < k) then (if bool_decide (k - 1 = 0) then delete key counts else <[key := k - 1]> counts) else counts.

Fixpoint remove_id (id : Z) (l : list monitorEntry) : list monitorEntry :=
  match l with
  | [] => []
  | m :: l => if bool_decide (eid m = id) then l else m :: remove_id id l
  end.

Definition removeMonitor (s : Service) (g : string) (id : Z) (p : PID) : Service :=
  let entries := default [] (monitors s !! g) in
  let rest := remove_id id entries in
  set_monitors s (if bool_decide (rest = []) then delete g (monitors s) else <[g := rest]> (monitors s))
    (if bool_decide (id ∈ eid <$> entries) then decrement (monitorPIDCounts s) (toString p) else monitorPIDCounts s).

Definition Unsubscribe (s : Service) (g : string) (id : Z) (p : PID) : Service :=
  let s := removeMonitor s g id p in
  if negb (hasMonitorSubscriptions s p) && negb (hasGroupMemberships s p) then set_nt s (demonitorProcess p (nt s)) else s.

(** The subscriptions that satisfy a condition; no group is left without one. *)
Definition keep_monitors (P : monitorEntry → bool) (mons : gmap string (list monitorEntry)) : gmap string (list monitorEntry) :=
  omap (λ l, let rest := base.filter (λ m, P m = true) l in if bool_decide (rest = []) then None else Some rest) mons.

Definition removeMonitorsByPID (s : Service) (p : PID) : Service :=
  set_monitors s (keep_monitors (λ m, negb (bool_decide (toString (epid m) = toString p))) (monitors s)) (delete (toString p) (monitorPIDCounts s)).

Definition removeMonitorsByNode (s : Service) (node : string) : Service :=
  if bool_decide (node = "") then s else
  let gone := base.filter (λ m, Node (epid m) = node) (shuffle _ (map_to_list (monitors s)) ≫= snd) in
  set_monitors s (keep_monitors (λ m, negb (bool_decide (Node (epid m) = node))) (monitors s)) (foldl (λ k m, decrement k (toString (epid m))) (monitorPIDCounts s) gone).

(** *** Other nodes *)

Definition handleDiscover (e : env) (s : Service) (from : string) : Service :=
  if bool_decide (from = localNodeID c) then s else
  let n := sendSync e (st s) from (nt s) in
  match remote (st s) !! from with
  | Some _ => set_nt s n
  | None => set_nt (set_st s (know (st s) from)) (sendDiscover e from n)
  end.

Fixpoint diff_from (counts : gmap string nat) (l : list PID) : list PID :=
  match l with
  | [] => []
  | p :: l =>
      match counts !! toString p with
      | Some (S k) => diff_from (<[toString p := k]> counts) l
      | _ => p :: diff_from counts l
      end
  end.

Definition count_keys (l : list PID) : gmap string nat := foldl (λ m p, <[toString p := S (default 0%nat (m !! toString p))]> m) ∅ l.

Definition diffPIDs (a b : list PID) : list PID := diff_from (count_keys b) a.

(** The differences between two announcements, by the groups of the first *)
Definition emit_diff (e : env) (mons : gmap string (list monitorEntry)) (kind : event_kind) (old new : announced) (n : net) : net :=
  foldl (λ n gp, let d := diffPIDs gp.2 (default [] (new !! gp.1)) in if bool_decide (d = []) then n else emit e mons kind gp.1 d n) n (shuffle _ (map_to_list old)).

Definition handleSync (e : env) (s : Service) (from : string) (gs : announced) : Service :=
  let old := default ∅ (remote (st s) !! from) in
  let n := emit_diff e (monitors s) MemberLeft old gs (nt s) in
  let n := emit_diff e (monitors s) MemberJoined gs old n in
  set_nt (set_st s (syncRemote shuffle (st s) from gs)) n.

Definition handleRemoteJoin (e : env) (from : string) (s : Service) (gp : string * list PID) : Service :=
  set_nt (set_st s (joinRemote (st s) from gp.1 gp.2)) (emit e (monitors s) MemberJoined gp.1 gp.2 (nt s)).

Definition emit_all (e : env) (mons : gmap string (list monitorEntry)) (kind : event_kind) (l : list (string * list PID)) (n : net) : net :=
  foldl (λ n gp, emit e mons kind gp.1 gp.2 n) n l.

Definition handleRemoteLeave (e : env) (from : string) (s : Service) (gp : string * list PID) : Service :=
  let '(x, removed) := leaveRemote (st s) from gp.2 [gp.1] in
  set_nt (set_st s x) (emit_all e (monitors s) MemberLeft (shuffle _ (map_to_list removed)) (nt s)).

Definition handleProcessExit (e : env) (s : Service) (p : PID) : Service :=
  let '(x, gs) := leaveAllLocal (st s) p in
  let n :=
    if bool_decide (gs = []) then nt s else
    let n := broadcastLeave e x (foldl (λ m g, note_removed m g p) ∅ gs) (nt s) in
    let counts : gmap string nat := foldl (λ m g, <[g := S (default 0%nat (m !! g))]> m) ∅ gs in
    emit_all e (monitors s) MemberLeft ((λ gk, (gk.1, replicate gk.2 p)) <$> shuffle _ (map_to_list counts)) n in
  removeMonitorsByPID (set_nt (set_st s x) n) p.

Definition handleNodeLeft (e : env) (s : Service) (node : string) : Service :=
  let events := base.filter (λ gp, gp.2 ≠ []) (shuffle _ (map_to_list (default ∅ (remote (st s) !! node)))) in
  let s := set_st s (removeNode shuffle (st s) node) in
  let s := set_nt s (mkNet (RemoveCircuitBreaker (cbManager (nt s)) node) (retries (nt s)) (log (nt s))) in
  let s := removeMonitorsByNode s node in
  set_nt s (emit_all e (monitors s) MemberLeft events (nt s)).

Definition handleNodeJoined (e : env) (s : Service) (node : string) : Service :=
  let '(m, cb) := GetCircuitBreaker victim (cbManager (nt s)) node in
  set_nt s (sendDiscover e node (mkNet (set_breaker m node (Reset cb)) (retries (nt s)) (log (nt s)))).

Definition reconcileOnce (e : env) (s : Service) : Service :=
  let peers := membershipAlivePeers e in
  let i := if bool_decide (length peers ≤ antiEntropyCursor s)%nat then 0%nat else antiEntropyCursor s in
  match peers !! i with
  | None => s
  | Some target =>
      let x := know (st s) target in
      set_nt (set_st (set_cursor s (S i)) x) (sendSync e x target (nt s))
  end.

(** *** The event loop *)

Definition perform (e : env) (s : Service) (a : action) : Service * reply :=
  match a with
  | DoJoin g p => Join e s g p
  | DoJoinGroups gs p => JoinGroups e s gs p
  | DoLeave g p => Leave e s g p
  | DoLeaveGroups gs p => LeaveGroups e s gs p
  | DoMonitor g p t => Monitor s g p t
  | DoEvents p t => Events s p t
  | DoUnsubscribe g id p => (Unsubscribe s g id p, Nothing)
  | DoMembers g => (s, Members (getMembers (st s) g))
  | DoLocalMembers g => (s, Members (getLocalMembers (st s) g))
  | DoDiscover from => (publishDirty (handleDiscover e s from), Nothing)
  | DoSync from gs => (publishDirty (handleSync e s from gs), Nothing)
  | DoRemoteJoin from joins => (publishDirty (foldl (handleRemoteJoin e from) s (shuffle _ (map_to_list joins))), Nothing)
  | DoRemoteLeave from leaves => (publishDirty (foldl (handleRemoteLeave e from) s (shuffle _ (map_to_list leaves))), Nothing)
  | DoExit p => (publishDirty (handleProcessExit e s p), Nothing)
  | DoNodeJoined node => (handleNodeJoined e s node, Nothing)
  | DoNodeLeft node => (publishDirty (handleNodeLeft e s node), Nothing)
  | DoReconcile => (reconcileOnce e s, Nothing)
  | DoSendDiscover node => (set_nt s (sendDiscover e node (nt s)), Nothing)
  end.

(** *** Retries, which run beside the event loop *)

Definition processRetries (e : env) (s : Service) : Service :=
  let '(r, q) := ready (clock e (log (nt s))) (retries (nt s)) in
  set_retrying (set_nt s (mkNet (cbManager (nt s)) q (log (nt s)))) (retrying s ++ r).

Definition put_back (e : env) (r : retryEntry) (n : net) : net := mkNet (cbManager n) (requeue (clock e (log n)) (retries n) r) (log n).

Definition resend (e : env) (r : retryEntry) (data : payload_map) (n : net) : net :=
  let '(n, o) := send e true (targetNode r) (Protocol (targetNode r) (rtopic r) data) n in
  match o with
  | Blocked => put_back e r n
  | _ => if failed o then put_back e r n else n
  end.

(** Only the breaker is asked: for entries that are sent otherwise or dropped. *)
Definition ask (e : env) (node : string) (n : net) : net * bool :=
  let '(m, cb) := GetCircuitBreaker victim (cbManager n) node in
  let '(cb, ok) := Allow (clock e (log n)) cb in
  (mkNet (set_breaker m node cb) (retries n) (log n), ok).

Definition leave_map (gs : list string) (pids : list PID) : announced :=
  foldl (λ m g, if bool_decide (pids = []) then m else <[g := default [] (m !! g) ++ pids]> m) ∅ gs.

Definition attemptRetry (e : env) (r : retryEntry) (n : net) : net :=
  match rtopic r with
  | TopicJoin => resend e r (join_data {[default "" (head (rgroups r)) := rpids r]}) n
  | TopicLeave => resend e r (leave_data (leave_map (rgroups r) (rpids r))) n
  | TopicDiscover => let '(n, ok) := ask e (targetNode r) n in if ok then sendDiscover e (targetNode r) n else put_back e r n
  | TopicSync => let '(n, ok) := ask e (targetNode r) n in if ok then n else put_back e r n
  end.

(** *** Start and stop *)

Definition NewService : Service :=
  mkService newState ∅ ∅ ∅ 0 0 (mkNet (newCircuitBreakerManager (CircuitBreakerFailures c) (CircuitBreakerResetTime c)) (newRetryQueue (MaxRetries c) (RetryBaseDelay c) (RetryMaxDelay c)) []) [] [] false.

Definition initialDiscoverFanOut : nat := 4.

(** The first [k] positions of a partial shuffle; [rand i n] is a number below [n]. *)
Fixpoint partial_shuffle (rand : nat → nat → nat) (i k : nat) (idx : list string) : list string :=
  match k with
  | O => idx
  | S k => partial_shuffle rand (S i) k (swap idx i (i + rand i (length idx - i))%nat)
  end.

Definition pickInitialDiscoverTargets (rand : nat → nat → nat) (peers : list string) (cap : nat) : list string :=
  if bool_decide (length peers ≤ cap)%nat then peers else take cap (partial_shuffle rand 0 cap peers).

Definition set_stopped (n : net) (b : bool) : net :=
  let q := retries n in
  mkNet (cbManager n) (mkQueue (entries q) (sequenceID q) (maxRetries q) (qcap q) (baseDelay q) (maxDelay q) b) (log n).

(** [subscribed] says whether the subscriptions to the event bus succeeded. The membership
    service has the same name for this node as the configuration. *)
Definition Start (e : env) (rand : nat → nat → nat) (subscribed : bool) (s : Service) : Service :=
  if negb subscribed then set_running s false else
  let s := set_nt (set_running s true) (set_stopped (nt s) false) in
  foldl (λ s n, (submit s (DoSendDiscover n)).1) s (pickInitialDiscoverTargets rand (membershipAlivePeers e) initialDiscoverFanOut).

Definition Stop (s : Service) : Service := set_snaps (set_running (set_nt s (set_stopped (nt s) true)) false) ∅.

(** *** Readers *)

Definition GetMembers (s : Service) (g : string) : list PID := match groupSnaps s !! g with Some snap => snap.1 | None => [] end.
Definition GetLocalMembers (s : Service) (g : string) : list PID := match groupSnaps s !! g with Some snap => snap.2 | None => [] end.
Definition WhichGroups (s : Service) : list string := (shuffle _ (map_to_list (groupSnaps s))).*1.
Definition WhichLocalGroups (s : Service) : list string := (base.filter (λ kv, kv.2.2 ≠ []) (shuffle _ (map_to_list (groupSnaps s)))).*1.

(** ** Runs *)

(** [LWork] takes an action off the queue; the retries and the fan-out of a broadcast run
    beside it, each send as one step. *)
Inductive label :=
| LStart (e : env) (rand : nat → nat → nat) (subscribed : bool)
| LSubmit (a : action) | LReceive (ms : list Message) | LNodeJoined (node : string) | LNodeLeft (node : string) | LWork (e : env)
| LTakeRetries (e : env) | LRetry (e : env)
| LFanout (e : env) (from : PID) (topic : string) (members : list PID).

Definition step (s : Service) (l : label) : Service * reply :=
  match l with
  | LStart e rand subscribed => (Start e rand subscribed s, Nothing)
  | LSubmit a => let '(s', ok) := submit s a in (s', if ok then Nothing else Done (Some (submitError s)))
  | LReceive ms => (Send s ms, Nothing)
  | LNodeJoined node => (handleNodeJoinedEvent s node, Nothing)
  | LNodeLeft node => (handleNodeLeftEvent s node, Nothing)
  | LWork e =>
      match actions s with
      | a :: rest => if running s then perform e (set_actions s rest) a else (s, Nothing)
      | [] => (s, Nothing)
      end
  | LTakeRetries e => if running s then (processRetries e s, Nothing) else (s, Nothing)
  | LRetry e =>
      match retrying s with
      | r :: rest => (set_nt (set_retrying s rest) (attemptRetry e r (nt s)), Nothing)
      | [] => (s, Nothing)
      end
  | LFanout e from topic members => (set_nt s (sendToMembers e from topic members (nt s)).1, Nothing)
  end.

End service.

End PgService.
