(* ===== verification/PgMembers.v ===== *)
(** * What operations do to the members of a group ([service/pg/state.go])

    For each operation of [PgState] the difference it makes to the list of all members of
    a group, with multiplicity, and the difference between two announcements of a node
    ([diffPIDs] in [protocol.go]). *)

From S2P Require Import Prelude Bytes GoStrings Pid PgState PgRetry PgService.
Import Pid PgState PgService.

Module PgMembers.

Lemma remove_one_proper {A} `{EqDecision A} (x : A) l l' : l ≡ₚ l' → remove_one x l ≡ₚ remove_one x l'.
Proof.
  intros H. destruct (decide (x ∈ l)) as [Hx|Hx].
  - apply (Permutation_cons_inv (a := x)). rewrite <- (remove_one_perm x l Hx), <- (remove_one_perm x l') by (by rewrite <- H). done.
  - rewrite !remove_one_none by (rewrite <- ?H; done). done.
Qed.

Lemma subtract_proper pids l l' : l ≡ₚ l' → subtract l pids ≡ₚ subtract l' pids.
Proof. unfold subtract. revert l l'. induction pids as [|p pids IH]; intros l l' H; cbn; [done|]. by apply IH, remove_one_proper. Qed.

#[export] Instance subtract_perm : Proper ((≡ₚ) ==> (=) ==> (≡ₚ)) subtract.
Proof. intros l l' H ? pids ->. by apply subtract_proper. Qed.

Lemma subtract_app l pids : subtract (pids ++ l) pids = l.
Proof. unfold subtract. induction pids as [|p pids IH]; cbn [app foldl]; [done|]. cbn [remove_one]. by rewrite bool_decide_eq_true_2. Qed.

(** ** Two announcements of one node *)

Lemma count_keys_spec l k : default 0%nat (count_keys l !! k) = length (base.filter (λ p, toString p = k) l).
Proof.
  unfold count_keys. assert (∀ m : gmap string nat, default 0%nat (foldl (λ m p, <[toString p := S (default 0%nat (m !! toString p))]> m) m l !! k) =
    (default 0 (m !! k) + length (base.filter (λ p, toString p = k) l))%nat) as H; [|by rewrite H, lookup_empty].
  induction l as [|p l IH]; intros m; cbn [foldl]; [rewrite filter_nil; cbn; lia|]. rewrite IH, filter_cons. case_decide as E.
  - subst. rewrite lookup_insert_eq. cbn. lia.
  - by rewrite lookup_insert_ne.
Qed.

Lemma diff_from_count l counts k : length (base.filter (λ p, toString p = k) (diff_from counts l)) =
  (length (base.filter (λ p, toString p = k) l) - default 0 (counts !! k))%nat.
Proof.
  revert counts. induction l as [|p l IH]; intros counts; cbn [diff_from]; [done|]. rewrite (filter_cons _ p l).
  destruct (counts !! toString p) as [[|n]|] eqn:E; [rewrite filter_cons|rewrite IH|rewrite filter_cons]; case_decide as Ek; cbn [length]; rewrite ?IH; subst; rewrite ?E; cbn [default].
  - cbn. lia.
  - done.
  - rewrite lookup_insert_eq. cbn. lia.
  - by rewrite lookup_insert_ne.
  - cbn. lia.
  - done.
Qed.

Lemma diff_from_ok l counts : Forall pid_ok l → Forall pid_ok (diff_from counts l).
Proof. intros H. revert counts. induction H as [|p l Hp Hl IH]; intros counts; cbn [diff_from]; [done|]. destruct (counts !! toString p) as [[|n]|]; [constructor; auto|auto|constructor; auto]. Qed.

Lemma key_filter p l : pid_ok p → Forall pid_ok l → base.filter (λ q, toString q = toString p) l = base.filter (λ q, q = p) l.
Proof.
  intros Hp. induction 1 as [|q l Hq Hl IH]; [done|]. rewrite !filter_cons, IH. destruct (decide (q = p)) as [->|Hn]; [by rewrite !decide_True|].
  rewrite decide_False; [done|]. intros E. by apply Hn, toString_inj.
Qed.

(** Lists of identifiers with unambiguous texts that have every text equally often *)
Lemma same_counts l l' : Forall pid_ok l → Forall pid_ok l' →
  (∀ k, length (base.filter (λ p, toString p = k) l) = length (base.filter (λ p, toString p = k) l')) → l ≡ₚ l'.
Proof.
  intros Hl. revert l'. induction Hl as [|p l Hp Hl IH]; intros l' Hl' H.
  - destruct l' as [|q l']; [done|]. specialize (H (toString q)). by rewrite filter_cons, decide_True in H.
  - assert (p ∈ l') as Hin.
    { specialize (H (toString p)). rewrite filter_cons, decide_True in H by done. rewrite (key_filter p l') in H by done. destruct (base.filter (λ q, q = p) l') as [|q r] eqn:E; [done|].
      assert (q ∈ base.filter (λ q, q = p) l') as [-> Hq]%list_elem_of_filter by (rewrite E; set_solver). done. }
    pose proof (remove_one_perm p l' Hin) as HP. rewrite HP. f_equiv. apply IH; [by apply remove_one_ok|]. intros k. specialize (H k).
    assert (length (base.filter (λ q, toString q = k) l') = length (base.filter (λ q, toString q = k) (p :: remove_one p l'))) as E by (by rewrite <- HP).
    rewrite E in H. rewrite !filter_cons in H. destruct (decide (toString p = k)); cbn [length] in H; lia.
Qed.

Lemma diffPIDs_spec a b : Forall pid_ok a → Forall pid_ok b → a ++ diffPIDs b a ≡ₚ b ++ diffPIDs a b.
Proof.
  intros Ha Hb. apply same_counts.
  - apply Forall_app. split; [done|by apply diff_from_ok].
  - apply Forall_app. split; [done|by apply diff_from_ok].
  - intros k. rewrite !filter_app, !length_app. unfold diffPIDs. rewrite !diff_from_count, !count_keys_spec. lia.
Qed.

Lemma diffPIDs_sub a b : Forall pid_ok a → Forall pid_ok b → ∃ common, a ≡ₚ diffPIDs a b ++ common.
Proof.
  intros Ha Hb. enough (diffPIDs a b ⊆+ a) as [l Hl]%submseteq_Permutation by eauto. unfold diffPIDs. generalize (count_keys b). clear Hb. induction Ha as [|p l Hp Hl IH]; intros m; cbn [diff_from]; [done|].
  destruct (m !! toString p) as [[|n]|]; [by apply submseteq_skip|by apply submseteq_cons|by apply submseteq_skip].
Qed.

(** ** Members by their nodes *)

Lemma gather_over {A B} (f : A → list B) (D : list string) (m : gmap string A) : NoDup D → (∀ k, is_Some (m !! k) → k ∈ D) →
  gather f m ≡ₚ D ≫= λ k, match m !! k with Some x => f x | None => [] end.
Proof.
  intros HD. revert m. induction HD as [|k D Hk HD IH]; intros m Hm.
  - assert (m = ∅) as ->; [|done]. apply map_empty. intros k. destruct (m !! k) eqn:E; [|done]. exfalso. eapply not_elem_of_nil, Hm. by rewrite E.
  - assert (gather f (delete k m) ≡ₚ D ≫= λ i, match m !! i with Some x => f x | None => [] end) as HR.
    { rewrite (IH (delete k m)).
      - apply reflexive_eq. clear -Hk. induction D as [|i D IH]; [done|]. cbn. rewrite not_elem_of_cons in Hk. rewrite lookup_delete_ne by tauto. f_equal. apply IH. tauto.
      - intros i [x [Hi Hx]%lookup_delete_Some]. assert (i ∈ k :: D) as [->|?]%elem_of_cons by (apply Hm; by rewrite Hx); done. }
    cbn. destruct (m !! k) as [x|] eqn:E; [by rewrite (gather_delete f m k x E), HR|]. by rewrite <- HR, gather_missing.
Qed.

Lemma remote_by_views s D h : NoDup D → (∀ n, is_Some (remote s !! n) → n ∈ D) → remote_members s h ≡ₚ D ≫= λ n, view s n h.
Proof.
  intros HD Hs. unfold remote_members. rewrite (gather_over _ D) by done. apply reflexive_eq. clear. induction D as [|n D IH]; [done|]. cbn. rewrite IH. f_equal. unfold view. by destruct (remote s !! n).
Qed.

(** Nodes outside of the list have announced nothing. *)
Lemma remote_by_views_of s D h : NoDup D → (∀ n, n ∉ D → view s n h = []) → remote_members s h ≡ₚ D ≫= λ n, view s n h.
Proof.
  intros HD Hn. set (R := base.filter (λ n, n ∉ D) (elements (dom (remote s)))). assert (NoDup (D ++ R)) as HDR.
  { apply NoDup_app. split_and!; [done| |apply NoDup_filter, NoDup_elements]. intros x Hx [Hy _]%list_elem_of_filter. done. }
  rewrite (remote_by_views s (D ++ R)); [|done|].
  2: { intros n Hs%elem_of_dom. apply elem_of_app. destruct (decide (n ∈ D)); [by left|right]. apply list_elem_of_filter. split; [done|by apply elem_of_elements]. }
  rewrite bind_app, (bind_none (λ n, view s n h) R); [by rewrite app_nil_r|]. apply Forall_forall. intros n [Hx _]%list_elem_of_filter. by apply Hn.
Qed.

Lemma bind_perm_ext {A B} (f g : A → list B) l : (∀ x, x ∈ l → f x ≡ₚ g x) → l ≫= f ≡ₚ l ≫= g.
Proof. induction l as [|x l IH]; intros H; cbn; [done|]. rewrite (H x) by set_solver. f_equiv. apply IH. set_solver. Qed.

Lemma remote_change s s' node h A B : (∀ n, n ≠ node → view s' n h ≡ₚ view s n h) → view s node h ++ A ≡ₚ view s' node h ++ B →
  remote_members s h ++ A ≡ₚ remote_members s' h ++ B.
Proof.
  intros Hn Hv. set (D := elements ({[node]} ∪ dom (remote s) ∪ dom (remote s'))). assert (NoDup D) as HD by apply NoDup_elements.
  rewrite (remote_by_views s D), (remote_by_views s' D); [|done| |done|]; [|intros n Hx; apply elem_of_elements; apply elem_of_dom in Hx; set_solver..].
  assert (node ∈ D) as [D1 [D2 E]]%list_elem_of_split by (apply elem_of_elements; set_solver). rewrite E in HD |- *.
  assert ((D1 ++ D2) ≫= (λ n, view s' n h) ≡ₚ (D1 ++ D2) ≫= (λ n, view s n h)) as HE.
  { apply bind_perm_ext. intros n Hin. apply Hn. intros ->. rewrite <- Permutation_middle in HD. by apply NoDup_cons in HD as [HD _]. }
  rewrite <- !Permutation_middle. cbn [mbind list_bind]. change (list_bind ?f ?l) with (l ≫= f). rewrite HE. set (X := _ ≫= _).
  rewrite <- !app_assoc, (Permutation_app_comm X A), (Permutation_app_comm X B), !app_assoc, Hv. done.
Qed.

Lemma members_split s h : state_ok s → getMembers s h ≡ₚ local_members s h ++ remote_members s h.
Proof. intros [_ _ H]. apply (gh_all _ _ _ H). Qed.

Lemma members_remote s s' node h A B : state_ok s → state_ok s' → local s' = local s → (∀ n, n ≠ node → view s' n h ≡ₚ view s n h) →
  view s node h ++ A ≡ₚ view s' node h ++ B → getMembers s h ++ A ≡ₚ getMembers s' h ++ B.
Proof.
  intros Hs Hs' El Hn Hv. rewrite !members_split by done. rewrite <- !app_assoc, (remote_change s s' node h A B Hn Hv). unfold local_members. by rewrite El.
Qed.

Lemma members_local s s' h A B : state_ok s → state_ok s' → remote s' = remote s → local_members s h ++ A ≡ₚ local_members s' h ++ B →
  getMembers s h ++ A ≡ₚ getMembers s' h ++ B.
Proof.
  intros Hs Hs' Er HL. rewrite !members_split by done. assert (remote_members s' h = remote_members s h) as -> by (unfold remote_members; by rewrite Er). set (X := remote_members s h).
  rewrite <- !app_assoc, (Permutation_app_comm X A), (Permutation_app_comm X B), !app_assoc, HL. done.
Qed.

End PgMembers.
