(* ===== verification/PgEvents.v ===== *)
(** * Readers and subscribers of process groups ([service/pg])

    The invariant of a service under every sequence of actions, packages and retries, and
    what it means for those who use it: the published snapshot of a group has the members
    that the processes of this node joined and the other nodes announced; and the events a
    subscriber is sent, one after the other, turn the members it was given when it
    subscribed into the current ones. *)

From S2P Require Import Prelude Bytes GoStrings Pid PgState PgRetry PgService PgMembers.
Import Pid PgState PgRetry PgService PgMembers.

Module PgEvents.

(** ** Following events *)

Definition follow (l : list PID) (ev : event_kind * list PID) : list PID :=
  match ev.1 with MemberJoined => l ++ ev.2 | MemberLeft => subtract l ev.2 end.

Definition follows (l : list PID) (evs : list (event_kind * list PID)) (l' : list PID) : Prop := foldl follow l evs ≡ₚ l'.

Lemma foldl_follow_perm evs l l' : l ≡ₚ l' → foldl follow l evs ≡ₚ foldl follow l' evs.
Proof. revert l l'. induction evs as [|[[] pids] evs IH]; intros l l' H; cbn; [done|..]; apply IH; unfold follow; cbn; by rewrite H. Qed.

#[export] Instance follows_perm : Proper ((≡ₚ) ==> (=) ==> (≡ₚ) ==> iff) follows.
Proof. intros l l' Hl ? evs -> k k' Hk. unfold follows. by rewrite (foldl_follow_perm evs l l' Hl), Hk. Qed.

Lemma follows_app l e1 m e2 k : follows l e1 m → follows m e2 k → follows l (e1 ++ e2) k.
Proof. unfold follows. intros H1 H2. by rewrite foldl_app, (foldl_follow_perm e2 _ m H1). Qed.

Lemma follows_join l pids l' : l ++ pids ≡ₚ l' → follows l [(MemberJoined, pids)] l'.
Proof. done. Qed.

Lemma follows_leave l pids l' : l ≡ₚ l' ++ pids → follows l [(MemberLeft, pids)] l'.
Proof. intros H. unfold follows. cbn. unfold follow. cbn. rewrite H, Permutation_app_comm. by rewrite subtract_app. Qed.

(** ** The log *)

(** What a subscription is sent about a group, and what it receives *)
Definition notice (m : monitorEntry) (h : string) (x : effect) : option (event_kind * list PID) :=
  match x with Attempt (Notify m' k g pids) _ => if bool_decide (m' = m ∧ g = h) then Some (k, pids) else None | _ => None end.

Definition delivered (x : effect) : bool := match x with Attempt _ (Tried None) => true | _ => false end.

Definition received (m : monitorEntry) (h : string) (l : list effect) : list (event_kind * list PID) :=
  omap (notice m h) (base.filter (λ x, delivered x = true) l).

(** What the service of a node is sent *)
Definition told_item (b : string) (x : effect) : option (topic * payload_map) :=
  match x with Attempt (Protocol n t data) _ => if bool_decide (n = b) then Some (t, data) else None | _ => None end.

Definition adds {X} (f : effect → option X) (n n' : net) (xs : list X) : Prop := ∃ out, log n' = log n ++ out ∧ omap f out = xs.

Lemma adds_nil {X} (f : effect → option X) n n' : log n' = log n → adds f n n' [].
Proof. intros E. exists []. by rewrite E, app_nil_r. Qed.

Lemma adds_trans {X} (f : effect → option X) n n1 n2 xs ys : adds f n n1 xs → adds f n1 n2 ys → adds f n n2 (xs ++ ys).
Proof. intros (o1 & E1 & H1) (o2 & E2 & H2). exists (o1 ++ o2). rewrite E2, E1, <- app_assoc, omap_app. by rewrite H1, H2. Qed.

Definition olist {X} (o : option X) : list X := match o with Some x => [x] | None => [] end.

Lemma adds_one {X} (f : effect → option X) n n' x : log n' = log n ++ [x] → adds f n n' (olist (f x)).
Proof. intros E. exists [x]. split; [done|]. cbn. by destruct (f x). Qed.

(** One item per target, whatever the outcome *)
Lemma adds_foldl {A X} (f : effect → option X) (F : net → A → net) (G : A → list X) l n :
  (∀ n a, a ∈ l → adds f n (F n a) (G a)) → adds f n (foldl F n l) (l ≫= G).
Proof.
  revert n. induction l as [|a l IH]; intros n H; cbn; [by apply adds_nil|]. eapply adds_trans; [apply H; set_solver|]. apply IH. intros n' x Hx. apply H. set_solver.
Qed.

Definition entries_of (mons : gmap string (list monitorEntry)) (g : string) : list monitorEntry := default [] (mons !! g).

(** The subscription is served exactly once for an event of the group. *)
Definition served (mons : gmap string (list monitorEntry)) (h : string) (m : monitorEntry) : Prop :=
  base.filter (λ x, x = m) (entries_of mons h ++ entries_of mons "") = [m].

(** The value of a key, picked from a list of the map's entries *)
Lemma pick {A B} (F : A → option B) (m : gmap string A) h l : l ≡ₚ map_to_list m →
  omap (λ kv, if bool_decide (kv.1 = h) then F kv.2 else None) l = olist (m !! h ≫= F).
Proof.
  set (G := λ kv : string * A, if bool_decide (kv.1 = h) then F kv.2 else None). intros H. assert (omap G l ≡ₚ omap G (map_to_list m)) as HP by (by rewrite H).
  assert (omap G (map_to_list m) ≡ₚ olist (m !! h ≫= F)) as HM.
  { destruct (m !! h) as [x|] eqn:E; cbn.
    - rewrite <- (map_to_list_delete m h x E). cbn. unfold G at 1. cbn. rewrite bool_decide_eq_true_2 by done. assert (omap G (map_to_list (delete h m)) = []) as HN.
      { apply elem_of_nil_inv. intros y (kv & Hkv & Hy)%list_elem_of_omap. destruct kv as [k z]. apply elem_of_map_to_list in Hkv. unfold G in Hy. cbn in Hy. case_bool_decide; [|done]. subst. by rewrite lookup_delete_eq in Hkv. }
      destruct (F x); cbn; by rewrite HN.
    - apply reflexive_eq, elem_of_nil_inv. intros y (kv & Hkv & Hy)%list_elem_of_omap. destruct kv as [k z]. apply elem_of_map_to_list in Hkv. unfold G in Hy. cbn in Hy. case_bool_decide; [|done]. subst. by rewrite E in Hkv. }
  rewrite HM in HP. destruct (m !! h ≫= F) as [y|]; cbn in HP |- *; [by apply Permutation_singleton_r in HP|by apply Permutation_nil_r in HP].
Qed.

Lemma bind_olist {A B} (f : A → option B) l : l ≫= (λ x, olist (f x)) = omap f l.
Proof. induction l as [|x l IH]; cbn; [done|]. rewrite IH. by destruct (f x). Qed.

Lemma filter_one {A} `{EqDecision A} (x : A) l : NoDup l → x ∈ l → base.filter (λ y, y = x) l = [x].
Proof.
  induction 1 as [|y l Hy Hl IH]; intros Hx; [by apply elem_of_nil in Hx|]. rewrite filter_cons. case_decide as E.
  - subst. f_equal. apply elem_of_nil_inv. intros z [-> Hz]%list_elem_of_filter. done.
  - apply IH. set_solver.
Qed.

Lemma filter_zero {A} `{EqDecision A} (x : A) l : x ∉ l → base.filter (λ y, y = x) l = [].
Proof. intros Hx. apply elem_of_nil_inv. by intros z [-> Hz]%list_elem_of_filter. Qed.

Lemma filter_sublist {A} (P : A → Prop) `{∀ x, Decision (P x)} l k : sublist l k → sublist (base.filter P l) (base.filter P k).
Proof. induction 1 as [|x l k Hs IH|x l k Hs IH]; [done|rewrite !filter_cons; case_decide; [by apply sublist_skip|done]|rewrite filter_cons; case_decide; [by apply sublist_cons|done]]. Qed.

Section service.
Context (shuffle : ∀ A, list A → list A) (victim : gmap string circuitBreaker → string) (c : config).

Notation send := (send victim).
Notation emit := (deliverMonitorEventWithCircuitBreaker victim).
Notation broadcastJoin := (broadcastJoin shuffle victim c).
Notation broadcastLeave := (broadcastLeave shuffle victim c).

Lemma send_log e b node p n : ∃ o, log (send e b node p n).1 = log n ++ [Attempt p o].
Proof. unfold PgService.send. destruct (GetCircuitBreaker _ _ _) as [m cb]. destruct (Allow _ cb) as [cb' []]; cbn; eauto. Qed.

Lemma retries_log e node t joins n : log (retryJoinsPerGroup shuffle e node t joins n) = log n.
Proof. unfold retryJoinsPerGroup. generalize (shuffle _ (map_to_list joins)). intros l. revert n. induction l as [|gp l IH]; intros n; cbn; [done|]. by rewrite IH. Qed.

Lemma announce_log e t data ch n node : ∃ o, log (announce shuffle victim e t data ch n node) = log n ++ [Attempt (Protocol node t data) o].
Proof.
  destruct (send_log e true node (Protocol node t data) n) as [o Ho]. exists o. unfold announce. destruct (send _ _ _ _ _) as [n' [|err]]; cbn [fst] in Ho; [by rewrite retries_log|].
  destruct (failed _); [by rewrite retries_log|done].
Qed.

Lemma sendDiscover_log e node n : ∃ o, log (sendDiscover victim c e node n) = log n ++ [Attempt (Protocol node TopicDiscover (discover_data c)) o].
Proof.
  destruct (send_log e true node (Protocol node TopicDiscover (discover_data c)) n) as [o Ho]. exists o. unfold sendDiscover. destruct (send _ _ _ _ _) as [n' o']. cbn [fst] in Ho. by destruct (failed _ && _).
Qed.

Lemma notify_adds e k g pids m h n x : adds (notice m h) n (notify victim e k g pids n x) (if bool_decide (x = m ∧ g = h) then [(k, pids)] else []).
Proof. destruct (send_log e true (Node (epid x)) (Notify x k g pids) n) as [o Ho]. pose proof (adds_one (notice m h) _ _ _ Ho) as H. cbn in H. by case_bool_decide. Qed.

(** An emitted event reaches a served subscription once. *)
Lemma emit_adds e mons k g pids m h n : served mons h m → adds (notice m h) n (emit e mons k g pids n) (if bool_decide (g = h) then [(k, pids)] else []).
Proof.
  intros Hm. unfold deliverMonitorEventWithCircuitBreaker. rewrite <- foldl_app. fold (entries_of mons g) (entries_of mons ""). set (l := _ ++ _).
  assert (l ≫= (λ x, if bool_decide (x = m ∧ g = h) then [(k, pids)] else []) = if bool_decide (g = h) then [(k, pids)] else []) as <-; [|apply adds_foldl; intros; apply notify_adds].
  case_bool_decide as Hg.
  - subst h. unfold served in Hm. fold l in Hm. trans ((λ _ : monitorEntry, (k, pids)) <$> base.filter (λ x, x = m) l); [|by rewrite Hm].
    clear. induction l as [|x l IH]; [done|]. rewrite filter_cons. cbn. rewrite IH. destruct (decide (x = m)) as [->|Hx]; [by rewrite bool_decide_eq_true_2|]. rewrite bool_decide_eq_false_2; [done|]. by intros [? _].
  - apply bind_none, Forall_forall. intros x _. by rewrite bool_decide_eq_false_2 by naive_solver.
Qed.

Lemma emit_told e mons k g pids b n : adds (told_item b) n (emit e mons k g pids n) [].
Proof.
  unfold deliverMonitorEventWithCircuitBreaker. rewrite <- foldl_app. set (l := _ ++ _). assert (l ≫= (λ _, []) = ([] : list (topic * payload_map))) as <- by (by apply bind_none, Forall_forall).
  apply adds_foldl. intros n' x _. destruct (send_log e true (Node (epid x)) (Notify x k g pids) n') as [o Ho]. apply (adds_one (told_item b) _ _ _ Ho).
Qed.

Lemma announce_fold_quiet e t data ch m h l n : adds (notice m h) n (foldl (announce shuffle victim e t data ch) n l) [].
Proof.
  assert (l ≫= (λ _, []) = ([] : list (event_kind * list PID))) as <- by (by apply bind_none, Forall_forall).
  apply adds_foldl. intros n' x _. destruct (announce_log e t data ch n' x) as [o Ho]. apply (adds_one (notice m h) _ _ _ Ho).
Qed.

Lemma broadcast_quiet e x js m h n : adds (notice m h) n (broadcastJoin e x js n) [] ∧ adds (notice m h) n (broadcastLeave e x js n) [].
Proof. unfold PgService.broadcastJoin, PgService.broadcastLeave. split; case_bool_decide; first [by apply adds_nil|apply announce_fold_quiet]. Qed.

Lemma emit_all_adds e mons k l m h n : served mons h m → adds (notice m h) n (emit_all victim e mons k l n) (omap (λ gp, if bool_decide (gp.1 = h) then Some (k, gp.2) else None) l).
Proof.
  intros Hm. unfold emit_all. rewrite <- bind_olist. apply adds_foldl. intros n' gp _. pose proof (emit_adds e mons k gp.1 gp.2 m h n' Hm) as H. by destruct (bool_decide (gp.1 = h)).
Qed.

Lemma emit_diff_adds e mons k old new m h n : served mons h m → (∀ A l, shuffle A l ≡ₚ l) →
  let d := diffPIDs (default [] (old !! h)) (default [] (new !! h)) in
  adds (notice m h) n (emit_diff shuffle victim e mons k old new n) (if bool_decide (d = []) then [] else [(k, d)]).
Proof.
  intros Hm Hsh d. unfold emit_diff. set (F := λ pids, let d := diffPIDs pids (default [] (new !! h)) in if bool_decide (d = []) then None else Some (k, d)).
  assert ((if bool_decide (d = []) then [] else [(k, d)]) = shuffle _ (map_to_list old) ≫= λ gp, olist (if bool_decide (gp.1 = h) then F gp.2 else None)) as ->.
  { rewrite bind_olist, (pick F old h) by apply Hsh. unfold d. destruct (old !! h) as [ps|]; cbn [default mbind option_bind]; [unfold F, id; cbn zeta; by destruct (bool_decide (diffPIDs ps _ = []))|]. done. }
  apply adds_foldl. intros n' gp _. pose proof (λ p, emit_adds e mons k gp.1 p m h n' Hm) as H. unfold F. cbn zeta. destruct (bool_decide_reflect (gp.1 = h)) as [E|E].
  - subst h. destruct (bool_decide (diffPIDs _ _ = [])); cbn; [by apply adds_nil|apply H].
  - destruct (bool_decide (diffPIDs _ _ = [])); [by apply adds_nil|apply H].
Qed.

(** ** The invariant *)

Hypothesis shuffle_perm : ∀ A l, shuffle A l ≡ₚ l.

Record mons_ok (mons : gmap string (list monitorEntry)) (seq : Z) : Prop := {
  mo_nodup g : NoDup (entries_of mons g);
  mo_unique g g' m m' : m ∈ entries_of mons g → m' ∈ entries_of mons g' → eid m = eid m' → g = g' ∧ m = m';
  mo_bound g m : m ∈ entries_of mons g → eid m ≤ seq
}.

Definition action_ok (a : action) : Prop :=
  match a with
  | DoJoin _ p | DoJoinGroups _ p | DoLeave _ p | DoLeaveGroups _ p | DoExit p => pid_ok p
  | DoSync _ gs | DoRemoteJoin _ gs | DoRemoteLeave _ gs => announced_ok gs
  | _ => True
  end.

Record service_ok (s : Service) : Prop := {
  sv_state : state_ok (st s);
  sv_clean : dirty (st s) = ∅;
  sv_snaps g : groupSnaps s !! g = snapshotGroup (st s) g;
  sv_actions : Forall action_ok (actions s);
  sv_mons : mons_ok (monitors s) (monitorIDSeq s);
  sv_seq : 0 ≤ monitorIDSeq s
}.

Lemma served_ok mons seq h m : mons_ok mons seq → h ≠ "" → m ∈ entries_of mons h ∨ m ∈ entries_of mons "" → served mons h m.
Proof.
  intros [H1 H2 H3] Hh [Hm|Hm]; unfold served; rewrite filter_app.
  - rewrite filter_one, filter_zero; [done| |done|done]. intros Hn. by destruct (H2 h "" m m Hm Hn eq_refl).
  - rewrite filter_zero, filter_one; [done|done|done|]. intros Hn. by destruct (H2 h "" m m Hn Hm eq_refl).
Qed.

(** Fewer subscriptions *)
Definition mons_sub (mons mons' : gmap string (list monitorEntry)) : Prop := ∀ g, sublist (entries_of mons' g) (entries_of mons g).

Lemma mons_sub_ok mons mons' seq : mons_sub mons mons' → mons_ok mons seq → mons_ok mons' seq.
Proof.
  intros Hs [H1 H2 H3]. assert (∀ g m, m ∈ entries_of mons' g → m ∈ entries_of mons g) as Hin by (intros g m Hx; by eapply elem_of_sublist, Hs). split; eauto. intros g. eapply sublist_NoDup; [apply H1|apply Hs].
Qed.

Lemma remove_id_sub id l : sublist (remove_id id l) l.
Proof. induction l as [|m l IH]; cbn; [done|]. case_bool_decide; [by apply sublist_cons|by apply sublist_skip]. Qed.

Lemma keep_monitors_sub P mons : mons_sub mons (keep_monitors P mons).
Proof.
  intros g. unfold entries_of, keep_monitors. rewrite lookup_omap. destruct (mons !! g) as [l|]; cbn; [|done]. case_bool_decide as E; cbn; [apply sublist_nil_l|]. apply sublist_filter.
Qed.

(** ** What actions do besides membership *)

(** The parts that only some actions touch *)
Record moves (s s' : Service) : Prop := {
  mv_snaps : groupSnaps s' = groupSnaps s;
  mv_actions : actions s' = actions s;
  mv_retrying : retrying s' = retrying s;
  mv_running : running s' = running s;
  mv_seq : monitorIDSeq s' = monitorIDSeq s;
  mv_mons : mons_sub (monitors s) (monitors s');
  mv_marks : marks (st s) (st s');
  mv_ok : state_ok (st s) → state_ok (st s')
}.

#[local] Instance moves_preorder : PreOrder moves.
Proof.
  split; [intros s; split; try done; by intros g|]. intros a b d [] []. split; try congruence; [|by etrans|auto]. intros g. etrans; [apply mv_mons1|apply mv_mons0].
Qed.

Lemma moves_nt s n : moves s (set_nt s n).
Proof. split; try done; by intros g. Qed.

Lemma moves_st s x n : marks (st s) x → (state_ok (st s) → state_ok x) → moves s (set_nt (set_st s x) n).
Proof. intros H1 H2. split; try done; by intros g. Qed.

Lemma moves_foldl {A} (F : Service → A → Service) l s : (∀ s a, a ∈ l → moves s (F s a)) → moves s (foldl F s l).
Proof. revert s. induction l as [|a l IH]; intros s H; cbn; [done|]. transitivity (F s a); [apply H; set_solver|]. apply IH. intros s' x Hx. apply H. set_solver. Qed.

Lemma publish_spec x snaps l g : NoDup l → foldl (publish_group x) snaps l !! g = if decide (g ∈ l) then snapshotGroup x g else snaps !! g.
Proof.
  intros Hl. revert snaps. induction Hl as [|k l Hk Hl IH]; intros snaps; cbn [foldl]; [by rewrite decide_False by apply not_elem_of_nil|]. rewrite IH. unfold publish_group.
  destruct (decide (g = k)) as [->|Hn].
  - rewrite decide_False, decide_True by set_solver. destruct (snapshotGroup x k); [by rewrite lookup_insert_eq|by rewrite lookup_delete_eq].
  - destruct (decide (g ∈ l)); [by rewrite decide_True by set_solver|]. rewrite decide_False by set_solver. destruct (snapshotGroup x k); [by rewrite lookup_insert_ne|by rewrite lookup_delete_ne].
Qed.

Lemma snapshot_ext x y g : groups y !! g = groups x !! g → snapshotGroup y g = snapshotGroup x g.
Proof. unfold snapshotGroup. by intros ->. Qed.

Lemma clean_ok x d : state_ok x → state_ok (PgState.mkState (local x) (remote x) (groups x) d).
Proof. intros [H1 H2 H3]. split; cbn; [done..|]. by eapply hold_ext. Qed.

Lemma publishDirty_ok s s' : service_ok s → moves s s' → service_ok (publishDirty shuffle s').
Proof.
  intros [H1 H2 H3 H4 H5 H6] [M1 M2 M3 M4 M5 M6 [M7 M7'] M8]. split; cbn; [by apply clean_ok, M8|done| |by rewrite M2|rewrite M5; by eapply mons_sub_ok|by rewrite M5].
  intros g. rewrite publish_spec by (rewrite shuffle_perm; apply NoDup_elements). change (snapshotGroup (PgState.mkState _ _ _ ∅) g) with (snapshotGroup (st s') g). case_decide as Hd; [done|].
  rewrite M1, H3. symmetry. apply snapshot_ext, M7'. rewrite shuffle_perm in Hd. by rewrite elem_of_elements in Hd.
Qed.

(** An action that leaves the membership alone *)
Lemma quiet_ok s s' : service_ok s → moves s s' → groups (st s') = groups (st s) → dirty (st s') = dirty (st s) → service_ok s'.
Proof.
  intros [H1 H2 H3 H4 H5 H6] [M1 M2 M3 M4 M5 M6 M7 M8] Eg Ed. split; [by apply M8|by rewrite Ed| |by rewrite M2|rewrite M5; by eapply mons_sub_ok|by rewrite M5].
  intros g. rewrite M1, H3. symmetry. apply snapshot_ext. by rewrite Eg.
Qed.

(** ** Handlers *)

Lemma note_removed_spec m g p h : default [] (note_removed m g p !! h) = default [] (m !! h) ++ once (h = g) [p].
Proof. unfold note_removed, once. case_decide as E; [subst; by rewrite lookup_insert_eq|]. by rewrite lookup_insert_ne, app_nil_r. Qed.

Lemma note_removed_ok m g p : announced_ok m → pid_ok p → announced_ok (note_removed m g p).
Proof.
  intros Hm Hp h ps. unfold note_removed. intros [[<- <-]|[_ Hl]]%lookup_insert_Some; [|exact (Hm h ps Hl)]. split; [by destruct (default [] _)|]. apply Forall_app. split; [|by constructor].
  destruct (m !! g) as [l|] eqn:E; [|done]. by apply (Hm g l E).
Qed.

(** The events a subscription is sent lead from one list of members to the other. *)
Definition tracked (m : monitorEntry) (h : string) (x : state) (n : net) (x' : state) (n' : net) : Prop :=
  ∃ evs, adds (notice m h) n n' evs ∧ follows (getMembers x h) evs (getMembers x' h).

Lemma tracked_trans m h x n x1 n1 x2 n2 : tracked m h x n x1 n1 → tracked m h x1 n1 x2 n2 → tracked m h x n x2 n2.
Proof. intros (e1 & A1 & F1) (e2 & A2 & F2). exists (e1 ++ e2). split; [by eapply adds_trans|by eapply follows_app]. Qed.

Lemma tracked_quiet m h x n x' n' : adds (notice m h) n n' [] → getMembers x' h ≡ₚ getMembers x h → tracked m h x n x' n'.
Proof. intros H E. exists []. split; [done|]. unfold follows. cbn. by rewrite E. Qed.

Lemma once_app_nil (P : Prop) `{Decision P} l : ¬ P → once P l = [].
Proof. intros HP. unfold once. by rewrite decide_False. Qed.

Lemma tracked_emit e mons k g pids m h x n x' : served mons h m →
  (match k with MemberJoined => getMembers x h ++ once (h = g) pids ≡ₚ getMembers x' h | MemberLeft => getMembers x h ≡ₚ getMembers x' h ++ once (h = g) pids end) →
  tracked m h x n x' (emit e mons k g pids n).
Proof.
  intros Hm H. eexists. split; [by apply emit_adds|]. case_bool_decide as E.
  - subst. unfold once in H. rewrite decide_True in H by done. destruct k; [by apply follows_join|by apply follows_leave].
  - rewrite once_app_nil in H by congruence. rewrite !app_nil_r in H. unfold follows. cbn. by destruct k.
Qed.

Lemma joinLocal_members x g p h : state_ok x → pid_ok p → getMembers x h ++ once (h = g) [p] ≡ₚ getMembers (joinLocal x g p) h.
Proof.
  intros Hx Hp. destruct (joinLocal_ok x g p Hx Hp) as (A & B & C). rewrite <- (app_nil_r (getMembers (joinLocal x g p) h)). apply members_local; [done..|]. rewrite C, app_nil_r. apply Permutation_app_comm.
Qed.

Lemma leaveLocal_members x g p x' h : state_ok x → pid_ok p → leaveLocal x g p = (x', true) → getMembers x h ≡ₚ getMembers x' h ++ once (h = g) [p].
Proof.
  intros Hx Hp E. pose proof (leaveLocal_ok x g p Hx Hp) as H. rewrite E in H. destruct H as (A & B & C). rewrite <- (app_nil_r (getMembers x h)). apply members_local; [done..|]. rewrite C, app_nil_r. apply Permutation_app_comm.
Qed.

(** Joining several groups *)
Record joined (mons : gmap string (list monitorEntry)) (p : PID) (gs : list string) (x : state) (joins : announced) (n : net) (x' : state) (joins' : announced) (n' : net) : Prop := {
  jd_ok : state_ok x';
  jd_marks : marks x x';
  jd_remote : remote x' = remote x;
  jd_local h : local_members x' h ≡ₚ local_members x h ++ times h gs p;
  jd_joins h : default [] (joins' !! h) = default [] (joins !! h) ++ times h gs p;
  jd_valid : announced_ok joins → announced_ok joins';
  jd_tracked m h : served mons h m → tracked m h x n x' n';
  jd_told b : adds (told_item b) n n' []
}.

Lemma joined_all e mons p gs x joins n : state_ok x → pid_ok p →
  let '(x', joins', n') := foldl (join_each victim e mons p) (x, joins, n) gs in joined mons p gs x joins n x' joins' n'.
Proof.
  intros Hx Hp. revert x joins n Hx. induction gs as [|g gs IH]; intros x joins n Hx; cbn [foldl].
  - split; [done..| | |done| |]; try (intros h; by rewrite app_nil_r); [intros m h Hm; by apply tracked_quiet; [apply adds_nil|]|intros b; by apply adds_nil].
  - cbn [join_each]. destruct (joinLocal_ok x g p Hx Hp) as (A & B & C). specialize (IH (joinLocal x g p) (note_removed joins g p) (emit e mons MemberJoined g [p] n) A).
    destruct (foldl _ _ gs) as [[x' joins'] n']. destruct IH as [I1 I2 I3 I4 I5 I6 I7 I8]. split.
    + done.
    + etrans; [apply marks_joinLocal|done].
    + by rewrite I3.
    + intros h. rewrite I4, C, times_cons. by rewrite (Permutation_app_comm (once _ _)), <- app_assoc.
    + intros h. rewrite I5, note_removed_spec, times_cons. by rewrite <- app_assoc.
    + intros Hj. by apply I6, note_removed_ok.
    + intros m h Hm. eapply tracked_trans; [|by apply I7]. apply tracked_emit; [done|by apply joinLocal_members].
    + intros b. eapply (adds_trans _ _ _ _ [] []); [apply emit_told|apply I8].
Qed.

(** Leaving those of several groups that the process is in *)
Record left (mons : gmap string (list monitorEntry)) (p : PID) (gs : list string) (x : state) (leaves : announced) (n : net) (x' : state) (leaves' : announced) (n' : net) : Prop := {
  lf_ok : state_ok x';
  lf_marks : marks x x';
  lf_remote : remote x' = remote x;
  lf_local h : local_members x h ≡ₚ local_members x' h ++ times h gs p;
  lf_leaves h : default [] (leaves' !! h) = default [] (leaves !! h) ++ times h gs p;
  lf_valid : announced_ok leaves → announced_ok leaves';
  lf_tracked m h : served mons h m → tracked m h x n x' n';
  lf_told b : adds (told_item b) n n' []
}.

Lemma left_all e mons p gs x leaves n : state_ok x → pid_ok p →
  let '(x', leaves', n') := foldl (leave_each victim e mons p) (x, leaves, n) gs in
  ∃ gs', left mons p gs' x leaves n x' leaves' n' ∧ (gs' = [] → x' = x ∧ n' = n ∧ leaves' = leaves).
Proof.
  intros Hx Hp. revert x leaves n Hx. induction gs as [|g gs IH]; intros x leaves n Hx; cbn [foldl].
  - exists []. split; [|done]. split; [done..| | |done| |]; try (intros h; by rewrite app_nil_r); [intros m h Hm; by apply tracked_quiet; [apply adds_nil|]|intros b; by apply adds_nil].
  - cbn [leave_each]. pose proof (leaveLocal_ok x g p Hx Hp) as Hok. pose proof (marks_leaveLocal x g p) as Hmk. destruct (leaveLocal x g p) as [x1 []] eqn:E; destruct Hok as (A & B & C).
    2: { subst x1. by apply IH. }
    specialize (IH x1 (note_removed leaves g p) (emit e mons MemberLeft g [p] n) A). destruct (foldl _ _ gs) as [[x' leaves'] n']. destruct IH as (gs' & [I1 I2 I3 I4 I5 I6 I7 I8] & _).
    exists (g :: gs'). split; [|done]. split.
    + done.
    + by etrans.
    + by rewrite I3.
    + intros h. rewrite C, I4, times_cons. by rewrite (Permutation_app_comm (once _ _)), <- app_assoc, (Permutation_app_comm (times _ _ _)).
    + intros h. rewrite I5, note_removed_spec, times_cons. by rewrite <- app_assoc.
    + intros Hj. by apply I6, note_removed_ok.
    + intros m h Hm. eapply tracked_trans; [|by apply I7]. apply tracked_emit; [done|by eapply leaveLocal_members].
    + intros b. eapply (adds_trans _ _ _ _ [] []); [apply emit_told|apply I8].
Qed.

Record handled (s s' : Service) : Prop := {
  hd_moves : moves s s';
  hd_tracked m h : served (monitors s) h m → served (monitors s') h m → tracked m h (st s) (nt s) (st s') (nt s')
}.

Lemma served_between mons mons1 mons2 h m : mons_sub mons mons1 → mons_sub mons1 mons2 → served mons h m → served mons2 h m → served mons1 h m.
Proof.
  intros H1 H2 S1 S2. unfold served in *. apply (anti_symm sublist).
  - rewrite <- S1. by apply filter_sublist, sublist_app.
  - rewrite <- S2 at 1. by apply filter_sublist, sublist_app.
Qed.

#[local] Instance handled_trans : Transitive handled.
Proof.
  intros a b d [M1 T1] [M2 T2]. split; [by etrans|]. intros m h S1 S2. assert (served (monitors b) h m) as S by (eapply served_between; [apply M1|apply M2|done|done]).
  eapply tracked_trans; [by apply T1|by apply T2].
Qed.

Lemma handled_st s x n : marks (st s) x → (state_ok (st s) → state_ok x) → (∀ m h, served (monitors s) h m → tracked m h (st s) (nt s) x n) → handled s (set_nt (set_st s x) n).
Proof. intros H1 H2 H3. split; [by apply moves_st|]. intros m h Hm _. by apply H3. Qed.

Lemma handled_nt s n : (∀ m h, adds (notice m h) (nt s) n []) → handled s (set_nt s n).
Proof. intros H. split; [apply moves_nt|]. intros m h _ _. by apply tracked_quiet. Qed.

Lemma handled_refl s : handled s s.
Proof. split; [done|]. intros m h _ _. apply tracked_quiet; [by apply adds_nil|done]. Qed.

Lemma handled_foldl {A} (F : Service → A → Service) l s : state_ok (st s) → (∀ s a, state_ok (st s) → a ∈ l → handled s (F s a)) → handled s (foldl F s l).
Proof.
  revert s. induction l as [|a l IH]; intros s Hs H; cbn; [apply handled_refl|]. assert (handled s (F s a)) as Ha by (apply H; set_solver). etrans; [exact Ha|].
  apply IH; [by apply (mv_ok _ _ (hd_moves _ _ Ha))|]. intros s' x Hs' Hx. apply H; [done|set_solver].
Qed.

Lemma single_add {X} (f : effect → option X) n n' x : log n' = log n ++ [x] → f x = None → adds f n n' [].
Proof. intros E H. pose proof (adds_one f n n' x E) as HA. by rewrite H in HA. Qed.

Lemma watch_adds {X} (f : effect → option X) n p : (∀ q, f (Watch q) = None) → (∀ q, f (Unwatch q) = None) → adds f n (monitorProcess p n) [] ∧ adds f n (demonitorProcess p n) [].
Proof. intros H1 H2. split; by eapply single_add. Qed.

Lemma stop_watching_adds {X} (f : effect → option X) x p n : (∀ q, f (Watch q) = None) → (∀ q, f (Unwatch q) = None) → adds f n (stop_watching x p n) [].
Proof. intros H1 H2. unfold stop_watching. destruct (local x !! toString p); [by apply adds_nil|by apply watch_adds]. Qed.

Lemma know_members x node h : getMembers (know x node) h = getMembers x h.
Proof. unfold know. by destruct (remote x !! node). Qed.

Lemma handleDiscover_handled e s from : handled s (handleDiscover shuffle victim c e s from).
Proof.
  unfold handleDiscover. case_bool_decide; [apply handled_refl|]. unfold sendSync. destruct (send_log e true from (Protocol from TopicSync (sync_data shuffle c (st s))) (nt s)) as [o Ho]. set (n := (send _ _ _ _ _).1) in *.
  assert (∀ m h, adds (notice m h) (nt s) n []) as Hq by (intros m h; by eapply single_add). destruct (remote (st s) !! from); [by apply handled_nt|].
  apply handled_st; [apply marks_know|intros Hs; by apply know_ok|]. intros m h _. apply tracked_quiet; [|by rewrite know_members].
  destruct (sendDiscover_log e from n) as [o' Ho']. eapply (adds_trans _ _ _ _ [] []); [apply Hq|by eapply single_add].
Qed.

Lemma view_ok x node h : state_ok x → Forall pid_ok (view x node h).
Proof.
  intros [_ H _]. unfold view. destruct (remote x !! node) as [rn|] eqn:E; cbn; [|done]. destruct (rn !! h) as [l|] eqn:El; cbn; [|done]. by apply (H node rn E h l El).
Qed.

Lemma view_default x node h : view x node h = default [] (default ∅ (remote x !! node) !! h).
Proof. unfold view. destruct (remote x !! node); cbn; [done|by rewrite lookup_empty]. Qed.

Lemma announced_pids gs h : announced_ok gs → Forall pid_ok (default [] (gs !! h)).
Proof. intros H. destruct (gs !! h) as [l|] eqn:E; [|done]. by apply (H h l E). Qed.

Lemma syncRemote_members x node gs h : state_ok x → announced_ok gs → getMembers x h ++ default [] (gs !! h) ≡ₚ getMembers (syncRemote shuffle x node gs) h ++ view x node h.
Proof.
  intros Hx Hgs. destruct (syncRemote_ok shuffle shuffle_perm x node gs Hx Hgs) as (A & B & C & D). apply (members_remote _ _ node); [done..| |].
  - intros n Hn. by rewrite C, decide_False.
  - rewrite C, decide_True by done. apply Permutation_app_comm.
Qed.

Lemma diff_common a b : Forall pid_ok a → Forall pid_ok b → ∃ common, a ≡ₚ common ++ diffPIDs a b ∧ b ≡ₚ common ++ diffPIDs b a.
Proof.
  intros Ha Hb. destruct (diffPIDs_sub a b Ha Hb) as [common Hc]. pose proof (diffPIDs_spec a b Ha Hb) as Hd. set (d1 := diffPIDs a b) in *. set (d2 := diffPIDs b a) in *.
  exists common. split; [by rewrite Hc, Permutation_app_comm|]. apply (Permutation_app_inv_r d1). rewrite <- Hd, Hc, <- !app_assoc, (Permutation_app_comm d1). by rewrite <- app_assoc.
Qed.

Lemma handleSync_handled e s from gs : state_ok (st s) → announced_ok gs → handled s (handleSync shuffle victim e s from gs).
Proof.
  intros Hs Hgs. unfold handleSync. set (old := default ∅ _). apply handled_st; [apply marks_syncRemote|intros _; by apply syncRemote_ok|]. intros m h Hm.
  set (a := default [] (old !! h)). set (b := default [] (gs !! h)).
  assert (Forall pid_ok a) as Ha by (unfold a, old; rewrite <- view_default; by apply view_ok). assert (Forall pid_ok b) as Hb by (by apply announced_pids).
  destruct (diff_common a b Ha Hb) as (common & Hc & Hc'). pose proof (syncRemote_members (st s) from gs h Hs Hgs) as HS. rewrite view_default in HS. fold old a b in HS.
  assert (∀ k d l l', (match k with MemberJoined => l ++ d ≡ₚ l' | MemberLeft => l ≡ₚ l' ++ d end) → follows l (if bool_decide (d = []) then [] else [(k, d)]) l') as HF.
  { intros k d l l' H. case_bool_decide as E; [subst; rewrite !app_nil_r in H; by destruct k|]. destruct k; [by apply follows_join|by apply follows_leave]. }
  pose proof (syncRemote_ok shuffle shuffle_perm (st s) from gs Hs Hgs) as (A & B & C & _). set (x' := syncRemote _ _ _ _) in *.
  (* the members without those of the node *)
  assert (∃ rest, getMembers (st s) h ≡ₚ rest ++ a ∧ getMembers x' h ≡ₚ rest ++ b) as (rest & R1 & R2).
  { exists (local_members (st s) h ++ elsewhere (st s) from h). assert (getMembers (st s) h ≡ₚ (local_members (st s) h ++ elsewhere (st s) from h) ++ a) as R.
    { rewrite members_split, (view_members _ from) by done. fold (elsewhere (st s) from h). rewrite view_default. fold old a. rewrite <- app_assoc. f_equiv. apply Permutation_app_comm. }
    split; [exact R|]. rewrite R in HS. apply (Permutation_app_inv_r a). rewrite <- HS. rewrite <- !app_assoc. f_equiv. f_equiv. apply Permutation_app_comm. }
  eexists. split; [eapply adds_trans; by apply emit_diff_adds|]. fold a b. set (d1 := diffPIDs a b) in *. set (d2 := diffPIDs b a) in *. apply (follows_app _ _ (rest ++ common)); apply HF.
  - by rewrite R1, Hc, <- app_assoc.
  - by rewrite R2, Hc', <- app_assoc.
Qed.

Lemma handleRemoteJoin_handled e from s gp : state_ok (st s) → gp.2 ≠ [] → Forall pid_ok gp.2 → handled s (handleRemoteJoin victim e from s gp).
Proof.
  intros Hs Hne Hok. destruct (joinRemote_ok (st s) from gp.1 gp.2 Hs Hne Hok) as (A & B & C). apply handled_st; [apply marks_joinRemote|done|]. intros m h Hm. apply tracked_emit; [done|].
  rewrite <- (app_nil_r (getMembers (joinRemote _ _ _ _) h)). apply (members_remote _ _ from); [done..| |].
  - intros n Hn. by rewrite C, once_app_nil, app_nil_r by naive_solver.
  - rewrite C, app_nil_r. unfold once. repeat case_decide; naive_solver.
Qed.

(** The members that leave in a list of departures, as the subscriptions are told *)
Lemma follows_departures (d : option (list PID)) l l' : l ≡ₚ default [] d ++ l' → follows l (olist ((λ ps, (MemberLeft, ps)) <$> d)) l'.
Proof. intros H. destruct d as [ps|]; cbn in H |- *; [apply follows_leave; by rewrite H, Permutation_app_comm|done]. Qed.

Lemma emit_map_adds e mons (d : announced) m h n : served mons h m →
  adds (notice m h) n (emit_all victim e mons MemberLeft (shuffle _ (map_to_list d)) n) (olist ((λ ps, (MemberLeft, ps)) <$> d !! h)).
Proof.
  intros Hm. pose proof (emit_all_adds e mons MemberLeft (shuffle _ (map_to_list d)) m h n Hm) as H. rewrite (pick (λ ps, Some (MemberLeft, ps)) d h) in H by apply shuffle_perm. by destruct (d !! h).
Qed.

Lemma handleRemoteLeave_handled e from s gp : state_ok (st s) → Forall pid_ok gp.2 → handled s (handleRemoteLeave shuffle victim e from s gp).
Proof.
  intros Hs Hok. unfold handleRemoteLeave. pose proof (leaveRemote_ok (st s) from gp.2 [gp.1] Hs Hok) as H. pose proof (marks_leaveRemote (st s) from gp.2 [gp.1]) as HM.
  destruct (leaveRemote _ _ _ _) as [x removed]. destruct H as (A & B & C & D). apply handled_st; [done..|]. intros m h Hm. eexists. split; [by apply emit_map_adds|]. apply follows_departures.
  rewrite (Permutation_app_comm (default [] _)), <- (app_nil_r (getMembers (st s) h)). apply (members_remote _ _ from); [done..| |].
  - intros n Hn. by rewrite C, decide_False.
  - rewrite app_nil_r, D. apply Permutation_app_comm.
Qed.

Lemma times_counts gs p h : ∃ k, times h gs p = replicate k p ∧ (λ k, replicate k p) <$> (foldl (λ (m : gmap string nat) g, <[g := S (default 0%nat (m !! g))]> m) ∅ gs !! h) = if decide (k = 0%nat) then None else Some (replicate k p).
Proof.
  set (F := λ (m : gmap string nat) g, <[g := S (default 0%nat (m !! g))]> m). assert (∀ m, foldl F m gs !! h = if decide (times h gs p = []) then m !! h else Some (default 0 (m !! h) + length (times h gs p))%nat) as H.
  { induction gs as [|g gs IH]; intros m; cbn [foldl]; [done|]. rewrite IH, times_cons. unfold F, once. destruct (decide (h = g)) as [->|Hn]; cbn [app].
    - rewrite lookup_insert_eq. rewrite (decide_False (P := _ :: _ = [])) by done. cbn [default from_option id length]. case_decide as E; [rewrite E; cbn; f_equal; lia|]. cbn. f_equal. unfold id. lia.
    - by rewrite lookup_insert_ne. }
  exists (length (times h gs p)). assert (times h gs p = replicate (length (times h gs p)) p) as Hr by (unfold times; generalize (base.filter (λ g, g = h) gs); intros l; induction l as [|x l IH]; cbn; [done|by rewrite IH at 1]).
  split; [done|]. rewrite H, lookup_empty. destruct (times h gs p); cbn; [done|]. done.
Qed.

Lemma omap_fmap_pick {A} (d : gmap string A) (R : A → list PID) h :
  omap (λ gp, if bool_decide (gp.1 = h) then Some (MemberLeft, gp.2) else None) ((λ gk, (gk.1, R gk.2)) <$> shuffle _ (map_to_list d)) = olist ((λ a, (MemberLeft, R a)) <$> d !! h).
Proof.
  trans (omap (λ gk, if bool_decide (gk.1 = h) then Some (MemberLeft, R gk.2) else None) (shuffle _ (map_to_list d))).
  - generalize (shuffle _ (map_to_list d)). intros l. induction l as [|x l IH]; [done|]. cbn. by rewrite IH.
  - rewrite (pick (λ a, Some (MemberLeft, R a)) d h) by apply shuffle_perm. by destruct (d !! h).
Qed.

Lemma handleProcessExit_handled e s p : state_ok (st s) → pid_ok p → handled s (handleProcessExit shuffle victim c e s p).
Proof.
  intros Hs Hp. unfold handleProcessExit. pose proof (leaveAllLocal_ok (st s) p Hs Hp) as H. pose proof (marks_leaveAllLocal (st s) p) as HM. destruct (leaveAllLocal (st s) p) as [x gs]. destruct H as (A & B & _ & D).
  set (n := if bool_decide _ then _ else _). assert (handled s (set_nt (set_st s x) n)) as [M T].
  { apply handled_st; [done..|]. intros m h Hm. assert (getMembers (st s) h ≡ₚ times h gs p ++ getMembers x h) as HE.
    { rewrite (Permutation_app_comm (times _ _ _)), <- (app_nil_r (getMembers (st s) h)). apply members_local; [done..|]. rewrite app_nil_r, D. apply Permutation_app_comm. }
    unfold n. case_bool_decide as Eg; [subst gs; apply tracked_quiet; [by apply adds_nil|by rewrite HE]|]. eexists. split.
    - eapply adds_trans; [apply broadcast_quiet|by apply emit_all_adds].
    - rewrite app_nil_l, (omap_fmap_pick _ (λ k, replicate k p)). destruct (times_counts gs p h) as (k & Ek & Hk).
      assert (∀ o : option nat, olist ((λ a, (MemberLeft, replicate a p)) <$> o) = olist ((λ ps, (MemberLeft, ps)) <$> ((λ k, replicate k p) <$> o))) as -> by (by intros []).
      rewrite Hk. apply follows_departures. rewrite HE, Ek. case_decide; [by subst|done]. }
  split.
  - destruct M. split; try done. unfold removeMonitorsByPID. cbn. apply keep_monitors_sub.
  - intros m h S1 S2. by apply T.
Qed.

Lemma handleNodeLeft_handled e s node : state_ok (st s) → handled s (handleNodeLeft shuffle victim e s node).
Proof.
  intros Hs. destruct (removeNode_ok shuffle shuffle_perm (st s) node Hs) as (A & B & C). unfold handleNodeLeft. set (events := base.filter _ _). set (n0 := mkNet _ _ _). set (s1 := removeMonitorsByNode _ _ _).
  assert (st s1 = removeNode shuffle (st s) node ∧ nt s1 = n0 ∧ mons_sub (monitors s) (monitors s1) ∧ groupSnaps s1 = groupSnaps s ∧ actions s1 = actions s ∧ retrying s1 = retrying s ∧ running s1 = running s ∧ monitorIDSeq s1 = monitorIDSeq s) as (E1 & E2 & E3 & E4).
  { unfold s1, removeMonitorsByNode. case_bool_decide; cbn; (split_and!; try done); [by intros g|apply keep_monitors_sub]. }
  split.
  - split; cbn; [by apply E4..|done| |]; rewrite E1; [apply marks_removeNode|done].
  - cbn. intros m h S1 S2. rewrite E1, E2. eexists. split.
    + eapply (adds_trans _ _ n0 _ []); [by apply adds_nil|by apply emit_all_adds].
    + rewrite app_nil_l. assert (omap (λ gp, if bool_decide (gp.1 = h) then Some (MemberLeft, gp.2) else None) events = olist ((default ∅ (remote (st s) !! node) !! h) ≫= λ ps, if bool_decide (ps = []) then None else Some (MemberLeft, ps))) as ->.
      { rewrite <- (pick (λ ps, if bool_decide (ps = []) then None else Some (MemberLeft, ps)) _ h (shuffle _ (map_to_list (default ∅ (remote (st s) !! node))))) by apply shuffle_perm. unfold events. generalize (shuffle _ (map_to_list (default ∅ (remote (st s) !! node)))).
        intros l. induction l as [|[g ps] l IH]; [done|]. rewrite filter_cons. cbn. rewrite <- IH. destruct ps as [|q ps]; [rewrite decide_False by naive_solver; cbn; by destruct (bool_decide (g = h))|]. rewrite decide_True by done. cbn. by destruct (bool_decide (g = h)). }
      assert (getMembers (st s) h ≡ₚ view (st s) node h ++ getMembers (removeNode shuffle (st s) node) h) as HE.
      { rewrite (Permutation_app_comm (view _ _ _)), <- (app_nil_r (getMembers (st s) h)). apply (members_remote _ _ node); [done..| |].
        - intros n Hn. rewrite (view_deleted _ _ node n h C). by rewrite decide_False.
        - rewrite (view_deleted _ _ node node h C), decide_True by done. by rewrite app_nil_r. }
      rewrite view_default in HE. destruct (default ∅ (remote (st s) !! node) !! h) as [[|q ps]|]; cbn in HE |- *; [done| |done]. apply follows_leave. rewrite HE. by rewrite app_comm_cons, Permutation_app_comm.
Qed.

(** ** What an action leaves behind *)

Record advances (s s' : Service) : Prop := {
  ad_ok : service_ok s';
  ad_actions : actions s' = actions s;
  ad_retrying : retrying s' = retrying s;
  ad_running : running s' = running s;
  ad_seq : monitorIDSeq s ≤ monitorIDSeq s';
  ad_old g m : m ∈ entries_of (monitors s') g → m ∈ entries_of (monitors s) g ∨ monitorIDSeq s < eid m;
  ad_tracked m h : served (monitors s) h m → served (monitors s') h m → tracked m h (st s) (nt s) (st s') (nt s')
}.

Lemma moves_old s s' g m : moves s s' → m ∈ entries_of (monitors s') g → m ∈ entries_of (monitors s) g ∨ monitorIDSeq s < eid m.
Proof. intros [_ _ _ _ _ M _ _] H. left. eapply elem_of_sublist; [done|apply M]. Qed.

Lemma published s s' : service_ok s → handled s s' → advances s (publishDirty shuffle s').
Proof.
  intros Hs [M T]. split; cbn; [by eapply publishDirty_ok|apply M..| | |exact T].
  - by rewrite (mv_seq _ _ M).
  - intros g m. by apply moves_old.
Qed.

Lemma unpublished s s' : service_ok s → handled s s' → groups (st s') = groups (st s) → dirty (st s') = dirty (st s) → advances s s'.
Proof.
  intros Hs [M T] Eg Ed. split; [by eapply quiet_ok|apply M..| | |exact T].
  - by rewrite (mv_seq _ _ M).
  - intros g m. by apply moves_old.
Qed.

Lemma advances_refl s : service_ok s → advances s s.
Proof. intros Hs. apply unpublished; [done|apply handled_refl|done..]. Qed.

(** An early return that changes nothing *)
Ltac refused := match goal with |- context [if ?b then (_, Done (Some _)) else _] => destruct b; [by apply advances_refl|] end.

Lemma Join_advances e s g p : service_ok s → pid_ok p → advances s (Join shuffle victim c e s g p).1.
Proof.
  intros Hs Hp. unfold Join. cbn zeta. do 2 refused. pose proof (sv_state s Hs) as Hx. cbn [fst]. apply published; [done|].
  apply handled_st; [apply marks_joinLocal|intros _; by apply joinLocal_ok|]. intros m h Hm.
  eapply tracked_trans; [|apply tracked_emit; [done|by apply joinLocal_members]]. apply tracked_quiet; [|done]. eapply (adds_trans _ _ _ _ [] []); [|apply broadcast_quiet].
  destruct (hasGroupMemberships s p); [by apply adds_nil|by apply watch_adds].
Qed.

Lemma JoinGroups_advances e s gs p : service_ok s → pid_ok p → advances s (JoinGroups shuffle victim c e s gs p).1.
Proof.
  intros Hs Hp. unfold JoinGroups. do 2 refused. pose proof (joined_all e (monitors s) p gs (st s) ∅ (nt s) (sv_state s Hs) Hp) as HJ.
  destruct (foldl _ _ gs) as [[x joins] n]. destruct HJ. cbn [fst]. apply published; [done|]. apply handled_st; [done..|]. intros m h Hm. eapply tracked_trans; [by apply jd_tracked0|].
  apply tracked_quiet; [|done]. eapply (adds_trans _ _ _ _ [] []); [apply (proj1 (broadcast_quiet e x joins m h n))|]. destruct (hasGroupMemberships s p); [by apply adds_nil|by apply watch_adds].
Qed.

Lemma Leave_advances e s g p : service_ok s → pid_ok p → advances s (Leave shuffle victim c e s g p).1.
Proof.
  intros Hs Hp. unfold Leave. pose proof (leaveLocal_ok (st s) g p (sv_state s Hs) Hp) as H. pose proof (marks_leaveLocal (st s) g p) as HM. destruct (leaveLocal (st s) g p) as [x []] eqn:E; cbn [negb fst]; [|by apply advances_refl].
  destruct H as (A & B & _). apply published; [done|]. apply handled_st; [done..|]. intros m h Hm. eapply tracked_trans; [|apply tracked_emit; [done|by eapply leaveLocal_members; [apply Hs|..]]].
  apply tracked_quiet; [|done]. eapply (adds_trans _ _ _ _ [] []); [by apply stop_watching_adds|apply broadcast_quiet].
Qed.

Lemma LeaveGroups_advances e s gs p : service_ok s → pid_ok p → advances s (LeaveGroups shuffle victim c e s gs p).1.
Proof.
  intros Hs Hp. unfold LeaveGroups. pose proof (left_all e (monitors s) p gs (st s) ∅ (nt s) (sv_state s Hs) Hp) as HL. destruct (foldl _ _ gs) as [[x leaves] n]. destruct HL as (gs' & [] & _).
  case_bool_decide; cbn [fst]; [by apply advances_refl|]. apply published; [done|]. apply handled_st; [done..|]. intros m h Hm. eapply tracked_trans; [by apply lf_tracked0|].
  apply tracked_quiet; [|done]. eapply (adds_trans _ _ _ _ [] []); [apply (proj2 (broadcast_quiet e x leaves m h n))|by apply stop_watching_adds].
Qed.

Lemma entries_insert mons g l h : entries_of (<[g := l]> mons) h = if decide (h = g) then l else entries_of mons h.
Proof. unfold entries_of. case_decide; [subst; by rewrite lookup_insert_eq|by rewrite lookup_insert_ne]. Qed.

(** A subscription gets a number that no other one has. *)
Lemma subscribe_advances s key p topic : service_ok s → monitorIDSeq s < 2^64 - 1 →
  let s' := (subscribe s key p topic).1 in advances s s' ∧ (subscribe s key p topic).2 = monitorIDSeq s' ∧ mkEntry p topic (monitorIDSeq s') ∈ entries_of (monitors s') key ∧ st s' = st s ∧ monitorIDSeq s' = monitorIDSeq s + 1.
Proof.
  intros [H1 H2 H3 H4 H5 H6] Hb. assert (u64 (monitorIDSeq s + 1) = monitorIDSeq s + 1) as Eu by (unfold u64; rewrite Z.mod_small; lia). unfold subscribe. cbn. rewrite Eu. set (m0 := mkEntry p topic _).
  assert (∀ g m, m ∈ entries_of (<[key := default [] (monitors s !! key) ++ [m0]]> (monitors s)) g → m ∈ entries_of (monitors s) g ∨ m = m0 ∧ g = key) as Hin.
  { intros g m. rewrite entries_insert. case_decide; [|tauto]. subst g. rewrite elem_of_app, list_elem_of_singleton. unfold entries_of. tauto. }
  destruct H5 as [N1 N2 N3]. assert (∀ g m, m ∈ entries_of (monitors s) g → eid m ≠ eid m0) as Hfresh by (intros g m Hm; specialize (N3 g m Hm); cbn; lia).
  split_and!; [|done| |done|done].
  - split; cbn; try done; [|lia| |intros m h _ _; apply tracked_quiet; [by eapply single_add|done]].
    + split; cbn; try done; [|lia]. split.
      * intros g. rewrite entries_insert. case_decide as E; [|done]. apply NoDup_app. split_and!; [apply (N1 key)| |apply NoDup_singleton]. intros m Hm ->%list_elem_of_singleton. by apply (Hfresh key m0 Hm).
      * intros g g' m m' [Hm|[-> ->]]%Hin [Hm'|[-> ->]]%Hin E; [by eapply N2|by apply Hfresh in Hm|symmetry in E; by apply Hfresh in Hm'|done].
      * intros g m [Hm|[-> ->]]%Hin; [specialize (N3 g m Hm); lia|done].
    + intros g m [Hm|[-> ->]]%Hin; [by left|right; cbn; lia].
  - rewrite entries_insert, decide_True by done. set_solver.
Qed.

Lemma Unsubscribe_advances s g id p : service_ok s → advances s (Unsubscribe s g id p).
Proof.
  intros Hs. unfold Unsubscribe. set (s1 := removeMonitor s g id p).
  assert (handled s s1) as H1.
  { split; [|intros m h _ _; by apply tracked_quiet; [apply adds_nil|]]. split; try done. unfold s1, removeMonitor. cbn. fold (entries_of (monitors s) g). intros h. case_bool_decide as E.
    - unfold entries_of at 1. destruct (decide (h = g)) as [->|Hn]; [rewrite lookup_delete_eq; apply sublist_nil_l|by rewrite lookup_delete_ne].
    - rewrite entries_insert. case_decide; [subst; apply remove_id_sub|done]. }
  apply unpublished; [done| |by destruct (_ && _)..]. destruct (_ && _); [|done]. etrans; [exact H1|]. apply handled_nt. intros m h. by apply watch_adds.
Qed.

Lemma reconcileOnce_advances e s : service_ok s → advances s (reconcileOnce shuffle victim c e s).
Proof.
  intros Hs. unfold reconcileOnce. set (i := if bool_decide _ then _ else _). destruct (membershipAlivePeers c e !! i) as [target|]; [|by apply advances_refl]. cbn zeta.
  assert (∀ x n, handled s (set_nt (set_st s x) n) → handled s (set_nt (set_st (set_cursor s (S i)) x) n)) as HC by (intros x n [M T]; split; [by destruct M; split|exact T]).
  apply unpublished; [done| |cbn; unfold know; by destruct (remote (st s) !! target)..]. apply HC, handled_st; [apply marks_know|intros Hx; by apply know_ok|]. intros m h _. apply tracked_quiet; [|by rewrite know_members].
  destruct (send_log e true target (Protocol target TopicSync (sync_data shuffle c (know (st s) target))) (nt s)) as [o Ho]. by eapply single_add.
Qed.

Lemma sendDiscover_handled e s node n : log n = log (nt s) → handled s (set_nt s (sendDiscover victim c e node n)).
Proof. intros E. apply handled_nt. intros m h. destruct (sendDiscover_log e node n) as [o Ho]. rewrite E in Ho. by eapply single_add. Qed.

Definition subscribes (a : action) : bool := match a with DoMonitor _ _ _ | DoEvents _ _ => true | _ => false end.

Lemma perform_advances e s a : service_ok s → action_ok a → (subscribes a = true → monitorIDSeq s < 2^64 - 1) → advances s (perform shuffle victim c e s a).1.
Proof.
  intros Hs Ha Hb. pose proof (sv_state s Hs) as Hx. assert (∀ (l : announced) gp, announced_ok l → gp ∈ shuffle _ (map_to_list l) → gp.2 ≠ [] ∧ Forall pid_ok gp.2) as Hgp.
  { intros l [g ps] Hl Hin. rewrite shuffle_perm in Hin. apply elem_of_map_to_list in Hin. exact (Hl g ps Hin). }
  destruct a; cbn [perform fst action_ok subscribes] in *.
  - by apply Join_advances.
  - by apply JoinGroups_advances.
  - by apply Leave_advances.
  - by apply LeaveGroups_advances.
  - pose proof (subscribe_advances s g p topic0 Hs (Hb eq_refl)) as [H _]. unfold Monitor. by destruct (subscribe s g p topic0).
  - pose proof (subscribe_advances s "" p topic0 Hs (Hb eq_refl)) as [H _]. unfold Events. by destruct (subscribe s "" p topic0).
  - by apply Unsubscribe_advances.
  - by apply advances_refl.
  - by apply advances_refl.
  - by apply published, handleDiscover_handled.
  - by apply published, handleSync_handled.
  - apply published, handled_foldl; [done..|]. intros s' gp Hs' Hin. by apply handleRemoteJoin_handled; [|apply (Hgp joins)..].
  - apply published, handled_foldl; [done..|]. intros s' gp Hs' Hin. by apply handleRemoteLeave_handled; [|apply (Hgp leaves)].
  - by apply published, handleProcessExit_handled.
  - unfold handleNodeJoined. destruct (GetCircuitBreaker _ _ _) as [m cb]. by apply unpublished; [|apply sendDiscover_handled|..].
  - by apply published, handleNodeLeft_handled.
  - by apply reconcileOnce_advances.
  - by apply unpublished; [|apply sendDiscover_handled|..].
Qed.

(** ** Runs *)

(** Actions of processes and timers; the others come with packages and cluster events. *)
Definition client (a : action) : bool :=
  match a with
  | DoJoin _ _ | DoJoinGroups _ _ | DoLeave _ _ | DoLeaveGroups _ _ | DoMonitor _ _ _ | DoEvents _ _ | DoUnsubscribe _ _ _ | DoMembers _ | DoLocalMembers _ | DoReconcile => true
  | _ => false
  end.

(** Identifiers of processes have an unambiguous text, also those in packages, and there are
    fewer than 2^64 subscriptions. *)
Definition admissible (s : Service) (l : label) : Prop :=
  match l with
  | LSubmit a => client a = true ∧ action_ok a
  | LReceive ms => Forall action_ok (ms ≫= dispatch)
  | LWork _ => match actions s with a :: _ => subscribes a = true → monitorIDSeq s < 2^64 - 1 | [] => True end
  | _ => True
  end.

Notation step := (step shuffle victim c).

Fixpoint run (s : Service) (ls : list label) : Service := match ls with [] => s | l :: ls => run (step s l).1 ls end.

Fixpoint admissible_run (s : Service) (ls : list label) : Prop := match ls with [] => True | l :: ls => admissible s l ∧ admissible_run (step s l).1 ls end.

Definition reachable (s : Service) : Prop := ∃ ls, admissible_run (NewService c) ls ∧ run (NewService c) ls = s.

(** As [advances], for any step *)
Record grows (s s' : Service) : Prop := {
  gr_ok : service_ok s';
  gr_seq : monitorIDSeq s ≤ monitorIDSeq s';
  gr_old g m : m ∈ entries_of (monitors s') g → m ∈ entries_of (monitors s) g ∨ monitorIDSeq s < eid m;
  gr_tracked m h : served (monitors s) h m → served (monitors s') h m → tracked m h (st s) (nt s) (st s') (nt s')
}.

(** Parts that the invariant does not mention *)
Lemma grows_same s s' : service_ok s → st s' = st s → groupSnaps s' = groupSnaps s → Forall action_ok (actions s') → monitors s' = monitors s → monitorIDSeq s' = monitorIDSeq s →
  (∀ m h, adds (notice m h) (nt s) (nt s') []) → grows s s'.
Proof.
  intros [H1 H2 H3 H4 H5 H6] E1 E2 E3 E4 E5 HA. split; [split; rewrite ?E1, ?E2, ?E4, ?E5; done|by rewrite E5|intros g m; rewrite E4; tauto|]. intros m h _ _. apply tracked_quiet; [done|by rewrite E1].
Qed.

Lemma submits_frame l s : Forall action_ok l → Forall action_ok (actions s) → let s' := foldl (λ s a, (submit c s a).1) s l in
  st s' = st s ∧ groupSnaps s' = groupSnaps s ∧ Forall action_ok (actions s') ∧ monitors s' = monitors s ∧ monitorIDSeq s' = monitorIDSeq s ∧ nt s' = nt s.
Proof.
  intros Hl. revert s. induction Hl as [|a l Ha Hl IH]; intros s Hs; cbn [foldl]; [done|]. destruct (IH (submit c s a).1) as (E1 & E2 & E3 & E4 & E5 & E6).
  { unfold submit. case_bool_decide; cbn; [|done]. apply Forall_app. split; [done|by constructor]. }
  assert (∃ q, (submit c s a).1 = set_actions s q) as [q Eq] by (exists (actions (submit c s a).1); unfold submit; case_bool_decide; [done|by destruct s]). rewrite Eq in *. split_and!; done.
Qed.

Lemma submits_grows l s : service_ok s → Forall action_ok l → grows s (foldl (λ s a, (submit c s a).1) s l).
Proof. intros Hs Hl. destruct (submits_frame l s Hl) as (E1 & E2 & E3 & E4 & E5 & E6); [apply Hs|]. apply grows_same; try done. intros m h. apply adds_nil. by rewrite E6. Qed.

Lemma resend_quiet e r data n m h : adds (notice m h) n (resend victim e r data n) [].
Proof.
  unfold resend. destruct (send_log e true (targetNode r) (Protocol (targetNode r) (rtopic r) data) n) as [o Ho]. destruct (send _ _ _ _ _) as [n' o']. cbn [fst] in Ho.
  destruct o'; [by eapply single_add|]. destruct (failed _); by eapply single_add.
Qed.

Lemma ask_log e node n : log (ask victim e node n).1 = log n.
Proof. unfold ask. destruct (GetCircuitBreaker _ _ _) as [m cb]. by destruct (Allow _ cb). Qed.

Lemma attemptRetry_quiet e r n m h : adds (notice m h) n (attemptRetry shuffle victim c e r n) [].
Proof.
  unfold attemptRetry. pose proof (ask_log e (targetNode r) n) as Hq. destruct (rtopic r); [..|apply resend_quiet|apply resend_quiet]; destruct (ask _ _ _ _) as [n' []]; cbn [fst] in Hq; try (by apply adds_nil).
  destruct (sendDiscover_log e (targetNode r) n') as [o Ho]. rewrite Hq in Ho. by eapply single_add.
Qed.

Lemma sendToMembers_quiet e from topic members n m h : adds (notice m h) n (sendToMembers victim e from topic members n).1 [].
Proof.
  revert n. induction members as [|p members IH]; intros n; cbn [sendToMembers]; [by apply adds_nil|]. destruct (GetCircuitBreaker _ _ _) as [t cb]. destruct (_ && _); [by apply adds_nil|].
  destruct (send_log e false (Node p) (Deliver from p topic) n) as [o Ho]. destruct (send _ _ _ _ _) as [n1 o1]. specialize (IH n1). destruct (sendToMembers _ _ _ _ _ _) as [n2 k]. cbn [fst] in *.
  eapply (adds_trans _ _ _ _ [] []); [by eapply single_add|done].
Qed.

Lemma step_grows_service s l : service_ok s → admissible s l → grows s (step s l).1.
Proof.
  intros Hs Ha. pose proof (sv_actions s Hs) as Hact. destruct l as [e rand []|a|ms|node|node|e|e|e|e from topic members]; cbn [PgService.step] in *.
  - unfold Start. cbn [negb fst]. set (s1 := set_nt _ _). set (targets := pickInitialDiscoverTargets _ _ _).
    assert (foldl (λ s n, (submit c s (DoSendDiscover n)).1) s1 targets = foldl (λ s a, (submit c s a).1) s1 (DoSendDiscover <$> targets)) as -> by (clear; generalize s1 targets; clear; intros s l; revert s; induction l as [|x l IH]; intros s; cbn; [done|apply IH]).
    destruct (submits_frame (DoSendDiscover <$> targets) s1) as (E1 & E2 & E3 & E4 & E5 & E6); [by apply Forall_fmap, Forall_forall|done|]. apply grows_same; try done. intros m h. apply adds_nil. by rewrite E6.
  - apply grows_same; try done. intros. by apply adds_nil.
  - destruct (submit c s a) as [s' b] eqn:E. pose proof (submits_grows [a] s Hs) as H. cbn in H. rewrite E in H. apply H. constructor; [apply Ha|done].
  - by apply submits_grows.
  - unfold handleNodeJoinedEvent. case_bool_decide; [apply (submits_grows [] s Hs); constructor|]. apply (submits_grows [_] s Hs). by repeat constructor.
  - unfold handleNodeLeftEvent. case_bool_decide; [apply (submits_grows [] s Hs); constructor|]. apply (submits_grows [_] s Hs). by repeat constructor.
  - destruct (actions s) as [|a rest] eqn:E; [apply (submits_grows [] s Hs); constructor|]. destruct (running s); [|apply (submits_grows [] s Hs); constructor]. apply Forall_cons in Hact as [Ha1 Ha2].
    assert (service_ok (set_actions s rest)) as Hs' by (destruct Hs; by split). cbn [admissible] in Ha. rewrite E in Ha. destruct (perform_advances e _ a Hs' Ha1 Ha) as [A1 A2 A3 A4 A5 A6 A7]. by split.
  - destruct (running s); [|apply (submits_grows [] s Hs); constructor]. unfold processRetries. destruct (ready _ _) as [r q]. apply grows_same; try done. intros. by apply adds_nil.
  - destruct (retrying s) as [|r rest]; [apply (submits_grows [] s Hs); constructor|]. apply grows_same; try done. intros. apply attemptRetry_quiet.
  - apply grows_same; try done. intros. apply sendToMembers_quiet.
Qed.

Lemma new_service_ok : service_ok (NewService c).
Proof.
  split; cbn; [apply newState_ok|done|done|done| |done]. assert (∀ g, entries_of ∅ g = []) as E by done. split.
  - intros g. rewrite E. constructor.
  - intros g g' m m'. rewrite E. by intros ?%elem_of_nil.
  - intros g m. rewrite E. by intros ?%elem_of_nil.
Qed.

Lemma run_ok s ls : service_ok s → admissible_run s ls → service_ok (run s ls).
Proof. revert s. induction ls as [|l ls IH]; intros s Hs; cbn; [done|]. intros [Ha Hl]. apply IH; [|done]. by apply step_grows_service. Qed.

Lemma reachable_service_ok s : reachable s → service_ok s.
Proof. intros (ls & Ha & <-). apply run_ok; [apply new_service_ok|done]. Qed.

(** C0. What readers see is what was joined and announced: in every reachable state of a
    service, the published members of a group are, with multiplicity, those that processes
    of this node joined and those that the other nodes announced, the published local
    members are the former, and a group is listed exactly when it has members. *)
Theorem members_published s g : reachable s →
  GetMembers s g ≡ₚ local_members (st s) g ++ remote_members (st s) g ∧ GetLocalMembers s g ≡ₚ local_members (st s) g ∧ (g ∈ WhichGroups shuffle s ↔ GetMembers s g ≠ []).
Proof.
  intros [Hst _ Hsn _ _ _]%reachable_service_ok. pose proof Hst as [_ _ [G1 G2 G3]]. unfold GetMembers, GetLocalMembers. specialize (G1 g). specialize (G2 g). specialize (G3 g).
  assert (g ∈ WhichGroups shuffle s ↔ is_Some (groupSnaps s !! g)) as Hw.
  { unfold WhichGroups. rewrite list_elem_of_fmap. setoid_rewrite shuffle_perm. split; [intros ([k x] & -> & Hin%elem_of_map_to_list); eauto|]. intros [x Hx]. exists (g, x). split; [done|by apply elem_of_map_to_list]. }
  rewrite Hw, Hsn. unfold snapshotGroup, group_of in *. destruct (groups (st s) !! g) as [gs|]; cbn in *.
  - specialize (G3 gs eq_refl). rewrite bool_decide_eq_false_2 by done. cbn. split_and!; [done..|]. split; eauto.
  - split_and!; [done..|]. split; [by intros []|done].
Qed.

(** *** Subscribers *)

Lemma run_old s ls g m : service_ok s → admissible_run s ls → eid m ≤ monitorIDSeq s → m ∈ entries_of (monitors (run s ls)) g → m ∈ entries_of (monitors s) g.
Proof.
  revert s. induction ls as [|l ls IH]; intros s Hs; cbn; [done|]. intros [Ha Hl] Hid Hm. destruct (step_grows_service s l Hs Ha) as [G1 G2 G3 _]. apply IH in Hm; [|done|done|lia]. destruct (G3 g m Hm); [done|lia].
Qed.

Lemma run_tracked s ls g m h : service_ok s → admissible_run s ls → h ≠ "" → g = h ∨ g = "" → m ∈ entries_of (monitors s) g → m ∈ entries_of (monitors (run s ls)) g →
  tracked m h (st s) (nt s) (st (run s ls)) (nt (run s ls)).
Proof.
  intros Hs. revert s Hs. induction ls as [|l ls IH]; intros s Hs Ha Hh Hg Hm Hend; [by apply tracked_quiet; [apply adds_nil|]|]. cbn in *. destruct Ha as [Ha Hl]. destruct (step_grows_service s l Hs Ha) as [G1 G2 G3 G4].
  assert (m ∈ entries_of (monitors (step s l).1) g) as Hm1 by (eapply run_old; try done; pose proof (mo_bound _ _ (sv_mons s Hs) g m Hm); lia).
  assert (∀ s', service_ok s' → m ∈ entries_of (monitors s') g → served (monitors s') h m) as HS.
  { intros s' Hs' Hx. eapply served_ok; [apply Hs'|done|]. destruct Hg as [->| ->]; tauto. }
  eapply tracked_trans; [by apply G4; apply HS|by apply IH].
Qed.

(** The key, the process and the topic with which an action subscribes to a group *)
Definition subscription (a : action) (g : string) : option (string * PID * string) :=
  match a with
  | DoMonitor g' p topic => if bool_decide (g' = g) then Some (g, p, topic) else None
  | DoEvents p topic => Some ("", p, topic)
  | _ => None
  end.

(** The members of a group in the answer, and the number of the subscription *)
Definition starts_from (r : reply) (g : string) : option (list PID * Z) :=
  match r with
  | Subscribed members id => Some (members, id)
  | SubscribedAll groups id => Some (default [] (groups !! g), id)
  | _ => None
  end.

Lemma published_members s g : service_ok s → GetMembers s g = getMembers (st s) g.
Proof.
  intros [_ _ H _ _ _]. unfold GetMembers, getMembers. rewrite H. unfold snapshotGroup, group_of. destruct (groups (st s) !! g) as [gs|]; cbn; [|done]. case_bool_decide as E; cbn; [by rewrite E|done].
Qed.

Lemma allGroupMembers_spec x h : default [] (allGroupMembers x !! h) = getMembers x h.
Proof. unfold allGroupMembers, getMembers, group_of. rewrite lookup_omap. destruct (groups x !! h) as [gs|]; cbn; [|done]. case_bool_decide as E; cbn; [by rewrite E|done]. Qed.

Lemma received_offered m h l : (∀ x, x ∈ l → notice m h x ≠ None → delivered x = true) → received m h l = omap (notice m h) l.
Proof.
  unfold received. induction l as [|x l IH]; intros H; [done|]. rewrite filter_cons. assert (∀ y, y ∈ l → notice m h y ≠ None → delivered y = true) as Hl by (intros y Hy; apply H; set_solver).
  case_decide as E; cbn; [by rewrite IH|]. rewrite IH by done. destruct (notice m h x) eqn:En; [|done]. exfalso. apply E, (H x); [set_solver|by rewrite En].
Qed.

Lemma subscribed_at s e a rest g key p topic : service_ok s → running s = true → actions s = a :: rest → subscription a g = Some (key, p, topic) → monitorIDSeq s < 2^64 - 1 →
  let '(s1, r) := step s (LWork e) in
  service_ok s1 ∧ starts_from r g = Some (getMembers (st s1) g, monitorIDSeq s1) ∧ mkEntry p topic (monitorIDSeq s1) ∈ entries_of (monitors s1) key ∧ (key = g ∨ key = "").
Proof.
  intros Hs Hr Ea Hk Hb. cbn [PgService.step]. rewrite Ea, Hr. assert (service_ok (set_actions s rest)) as Hs'.
  { pose proof (sv_actions s Hs) as HA. rewrite Ea in HA. apply Forall_cons in HA as [_ HA]. destruct Hs. by split. }
  destruct a; try done; cbn [subscription perform] in Hk |- *.
  - case_bool_decide; [|done]. subst g0. injection Hk as <- <- <-. unfold Monitor. destruct (subscribe_advances _ g p0 topic0 Hs' Hb) as (A & B & C & D & _). destruct (subscribe _ g p0 topic0) as [s1 id]. cbn [fst snd] in *. subst id. split_and!; [apply A|done|done|by left].
  - injection Hk as <- <- <-. unfold Events. destruct (subscribe_advances _ "" p0 topic0 Hs' Hb) as (A & B & C & D & _). destruct (subscribe _ "" p0 topic0) as [s1 id]. cbn [fst snd] in *. subst id. split_and!; [apply A| |done|by right]. cbn. by rewrite allGroupMembers_spec.
Qed.

(** C0. A subscriber that follows its events has the current members: a process subscribes
    to a group, or to all groups, when the action reaches the event loop; whatever happens
    afterwards, as long as the subscription is in place and the packages to it were
    accepted, the members it was given, changed by the events it received in their order,
    are the members that readers see, with multiplicity. *)
Theorem subscribers_follow s e a rest g key p topic ls : reachable s → running s = true → actions s = a :: rest → subscription a g = Some (key, p, topic) → monitorIDSeq s < 2^64 - 1 → g ≠ "" →
  let '(s1, r) := step s (LWork e) in
  let s2 := run s1 ls in
  admissible_run s1 ls → ∃ members id, starts_from r g = Some (members, id) ∧
  let m := mkEntry p topic id in
  let sent := drop (length (log (nt s1))) (log (nt s2)) in
  (m ∈ entries_of (monitors s2) key → (∀ x, x ∈ sent → notice m g x ≠ None → delivered x = true) → foldl follow members (received m g sent) ≡ₚ GetMembers s2 g).
Proof.
  intros Hs Hr Ea Hk Hb Hg. apply reachable_service_ok in Hs. pose proof (subscribed_at s e a rest g key p topic Hs Hr Ea Hk Hb) as H. destruct (step s (LWork e)) as [s1 r]. destruct H as (H1 & H2 & H3 & H4). cbn zeta. intros Ha.
  eexists _, _. split; [exact H2|]. intros Hm Hall. rewrite (published_members _ g) by (by apply run_ok). rewrite received_offered by exact Hall.
  destruct (run_tracked s1 ls key (mkEntry p topic (monitorIDSeq s1)) g H1 Ha Hg H4 H3 Hm) as (evs & (out & E & <-) & HF). rewrite E, drop_app_length. exact HF.
Qed.

(** *** Limits *)

Lemma exceeds_members_spec x gs projected p : exceeds_members c x projected gs = false → ∀ g, g ∈ gs →
  default (Z.of_nat (length (all (group_of x g)))) (projected !! g) + Z.of_nat (length (times g gs p)) ≤ maxMembersPerGroup c.
Proof.
  revert projected. induction gs as [|k gs IH]; intros projected; cbn [exceeds_members]; [by intros _ g ?%elem_of_nil|]. case_bool_decide as Hk; [done|]. intros He g Hg. specialize (IH _ He g). rewrite times_cons, length_app. unfold once.
  destruct (decide (g = k)) as [->|Hn]; [|rewrite lookup_insert_ne in IH by done; cbn [length]; apply IH; set_solver]. rewrite lookup_insert_eq in IH. change (default ?d (Some ?v)) with v in IH. change (length [p]) with 1%nat. destruct (decide (k ∈ gs)) as [Hin|Hin]; [specialize (IH Hin); lia|].
  assert (times k gs p = []) as ->; [|cbn; lia]. unfold times. by rewrite filter_zero.
Qed.

Lemma join_each_groups e mons p gs x js n : dom (groups (foldl (join_each victim e mons p) (x, js, n) gs).1.1) = list_to_set gs ∪ dom (groups x).
Proof.
  revert x js n. induction gs as [|g gs IH]; intros x js n; cbn [foldl list_to_set]; [set_solver|]. cbn [join_each]. rewrite IH. unfold joinLocal, set_group, set_local. cbn [groups]. rewrite dom_insert_L. set_solver.
Qed.

Lemma new_groups_size x gs : (size (list_to_set gs ∪ dom (groups x) : gset string) = size (new_groups x gs) + size (groups x))%nat.
Proof.
  assert (list_to_set gs ∪ dom (groups x) = new_groups x gs ∪ dom (groups x)) as ->.
  { apply set_eq. intros g. unfold new_groups. rewrite !elem_of_union, !elem_of_list_to_set, list_elem_of_filter. split; [|tauto]. intros [Hg|Hg]; [|tauto]. destruct (groups x !! g) eqn:E; [right; apply elem_of_dom; by rewrite E|tauto]. }
  rewrite size_union, size_dom; [done|]. intros g Hg Hd. unfold new_groups in Hg. rewrite elem_of_list_to_set, list_elem_of_filter in Hg. apply elem_of_dom in Hd as [y Hy]. destruct Hg as [Hg _]. congruence.
Qed.

Lemma within_members mons x gs p joins n x' joins' n' g : state_ok x → joined mons p gs x joins n x' joins' n' → exceeds_members c x ∅ gs = false → g ∈ gs →
  Z.of_nat (length (getMembers x' g)) ≤ maxMembersPerGroup c.
Proof.
  intros Hx HJ He Hg. pose proof (exceeds_members_spec x gs ∅ p He g Hg) as HX. rewrite lookup_empty in HX. change (default ?d None) with d in HX. etrans; [|exact HX]. rewrite <- Nat2Z.inj_add, <- length_app. apply Z.eq_le_incl. f_equal. apply Permutation_length.
  rewrite <- (app_nil_r (getMembers x' g)). symmetry. apply members_local; [done|apply HJ|apply HJ|]. by rewrite (jd_local _ _ _ _ _ _ _ _ _ HJ), app_nil_r.
Qed.

(** C0. Joining several groups is all or nothing: when a limit would be exceeded, counting
    every group as often as it is named, the call is refused and nothing changes; otherwise
    the process joins each group as often as it is named, and no limit is exceeded. *)
Theorem JoinGroups_limits e s gs p : reachable s → pid_ok p →
  let '(s', r) := JoinGroups shuffle victim c e s gs p in
  match r with
  | Done None =>
      (∀ h, local_members (st s') h ≡ₚ local_members (st s) h ++ times h gs p) ∧
      (0 < maxMembersPerGroup c → ∀ g, g ∈ gs → Z.of_nat (length (GetMembers s' g)) ≤ maxMembersPerGroup c) ∧
      (0 < maxGroups c → Z.of_nat (size (groups (st s'))) ≤ maxGroups c)
  | _ => s' = s
  end.
Proof.
  intros Hs%reachable_service_ok Hp. pose proof (sv_state s Hs) as Hx. pose proof (ad_ok _ _ (JoinGroups_advances e s gs p Hs Hp)) as Hs'. unfold JoinGroups in *.
  destruct (bool_decide (0 < maxMembersPerGroup c) && _) eqn:Em; [done|]. destruct (bool_decide (0 < maxGroups c) && _) eqn:Eg; [done|]. apply andb_false_iff in Em, Eg.
  pose proof (joined_all e (monitors s) p gs (st s) ∅ (nt s) Hx Hp) as HJ. pose proof (join_each_groups e (monitors s) p gs (st s) ∅ (nt s)) as HD. destruct (foldl _ _ gs) as [[x joins] n]. cbn [fst] in Hs', HD. split_and!.
  - exact (jd_local _ _ _ _ _ _ _ _ _ HJ).
  - intros Hm g Hg. destruct Em as [Em|Em]; [by apply bool_decide_eq_false in Em|]. rewrite (published_members _ g Hs'). change (getMembers (st (publishDirty _ _)) g) with (getMembers x g). by eapply within_members.
  - intros Hm. destruct Eg as [Eg|Eg%bool_decide_eq_false]; [by apply bool_decide_eq_false in Eg|]. change (groups (st (publishDirty _ _))) with (groups x). rewrite <- size_dom, HD, new_groups_size. lia.
Qed.

End service.

(** ** Examples *)

Definition in_order {A} (l : list A) : list A := l.
Definition first_key (m : gmap string circuitBreaker) : string := default "" (head (map_to_list m).*1).
Definition example_config : config := mkConfig "pg" "n1" 0 0 8 3 100 1000 3 1000.
Definition calm : env := mkEnv (λ _, 0) (λ _ _, None) ["n1"; "n2"] (λ _, false).

Definition ann : PID := mkPID "n1" "h" "ann".
Definition bob : PID := mkPID "n1" "h" "bob".
Definition eve : PID := mkPID "n2" "h" "eve".

Definition from_n2 (t : topic) (key : string) (m : announced) : list Message :=
  [mkMessage (Pg t) [PMap [("from", VStr "n2"); (key, VMap ((λ gp, (gp.1, encode_pids gp.2)) <$> map_to_list m))]]].

Definition before : list label := [LStart calm (λ _ _, 0%nat) true; LWork calm; LSubmit (DoJoin "g" ann); LWork calm; LSubmit (DoMonitor "g" bob "t")].
Definition after : list label :=
  [LReceive (from_n2 TopicSync "groups" {["g" := [eve; eve]]}); LWork calm; LSubmit (DoJoinGroups ["g"; "k"; "g"] ann); LWork calm;
   LReceive (from_n2 TopicLeave "leaves" {["g" := [eve]]}); LWork calm; LSubmit (DoLeave "g" ann); LWork calm].

(** The side conditions of runs are decidable. *)
#[export] Instance announced_ok_dec rn : Decision (announced_ok rn).
Proof. refine (cast_if (decide (map_Forall (λ (_ : string) (ps : list PID), ps ≠ [] ∧ Forall pid_ok ps) rn))); abstract (by unfold announced_ok, map_Forall in *). Defined.

#[export] Instance action_ok_dec a : Decision (action_ok a).
Proof. destruct a; cbn; apply _. Defined.

#[export] Instance admissible_dec s l : Decision (admissible s l).
Proof. destruct l; cbn; try apply _. destruct (actions s); apply _. Defined.

#[export] Instance admissible_run_dec shuffle victim c s ls : Decision (admissible_run shuffle victim c s ls).
Proof. revert s. induction ls as [|l ls IH]; intros s; cbn; apply _. Defined.

Notation example_run := (run (@in_order) first_key example_config).
Notation example_step := (step (@in_order) first_key example_config).

Definition subscribed_state : Service := example_run (NewService example_config) before.

Lemma in_order_perm A (l : list A) : in_order l ≡ₚ l.
Proof. done. Qed.

Lemma subscribed_reachable : reachable (@in_order) first_key example_config subscribed_state.
Proof. exists before. split; [|unfold subscribed_state; reflexivity]. apply (bool_decide_unpack _). vm_compute. exact I. Qed.

Lemma members_published_witness :
  let s := example_run (example_step subscribed_state (LWork calm)).1 after in GetMembers s "g" = [eve; ann; ann] ∧ local_members (st s) "g" ++ remote_members (st s) "g" ≡ₚ [ann; ann; eve].
Proof.
  intros s. assert (GetMembers s "g" = [eve; ann; ann]) as E by (vm_compute; reflexivity). split; [exact E|].
  destruct (members_published (@in_order) first_key example_config in_order_perm s "g") as [H _].
  - exists (before ++ LWork calm :: after). split; [apply (bool_decide_unpack _); vm_compute; exact I|vm_compute; reflexivity].
  - rewrite <- H, E. apply (Permutation_app_comm [eve] [ann; ann]).
Defined.

Lemma subscribers_follow_witness :
  let s1 := (example_step subscribed_state (LWork calm)).1 in
  let s2 := example_run s1 after in
  let m := mkEntry bob "t" 1 in
  foldl follow [ann] (received m "g" (drop (length (log (nt s1))) (log (nt s2)))) ≡ₚ GetMembers s2 "g".
Proof.
  intros s1 s2 m. pose proof (subscribers_follow (@in_order) first_key example_config in_order_perm subscribed_state calm (DoMonitor "g" bob "t") [] "g" "g" bob "t" after subscribed_reachable) as H.
  specialize (H ltac:(vm_compute; reflexivity) ltac:(vm_compute; reflexivity) ltac:(vm_compute; reflexivity) ltac:(vm_compute; reflexivity) ltac:(done)).
  assert (example_step subscribed_state (LWork calm) = (s1, Subscribed [ann] 1)) as E by (vm_compute; reflexivity). rewrite E in H. destruct H as (members & id & Er & H); [apply (bool_decide_unpack _); vm_compute; exact I|].
  injection Er as <- <-. apply H; [apply (bool_decide_unpack _); vm_compute; exact I|]. intros x Hx _. revert x Hx. apply Forall_forall. apply (bool_decide_unpack _). vm_compute. exact I.
Defined.

Definition tight_config : config := mkConfig "pg" "n1" 2 2 8 3 100 1000 3 1000.

Lemma JoinGroups_limits_witness :
  let s' := (JoinGroups (@in_order) first_key tight_config calm (NewService tight_config) ["g"; "k"; "g"] ann).1 in Z.of_nat (length (GetMembers s' "g")) ≤ 2 ∧ Z.of_nat (size (groups (st s'))) ≤ 2.
Proof.
  intros s'. pose proof (JoinGroups_limits (@in_order) first_key tight_config in_order_perm calm (NewService tight_config) ["g"; "k"; "g"] ann) as H.
  specialize (H (ex_intro _ [] (conj I eq_refl)) ltac:(apply (bool_decide_unpack _); vm_compute; exact I)). assert (JoinGroups (@in_order) first_key tight_config calm (NewService tight_config) ["g"; "k"; "g"] ann = (s', Done None)) as E by (vm_compute; reflexivity).
  rewrite E in H. destruct H as (_ & H1 & H2). split; [apply (H1 ltac:(done) "g"); by left|by apply H2].
Defined.

(** ** Observations *)

(** A service that is stopped and started again keeps its members, but readers do not see
    them until the group changes. *)
Lemma restart_hides_members :
  let s := Start example_config calm (λ _ _, 0%nat) true (Stop subscribed_state) in GetMembers subscribed_state "g" = [ann] ∧ local_members (st s) "g" = [ann] ∧ GetMembers s "g" = [].
Proof. vm_compute. done. Qed.

(** What was last asked of the topology about a process *)
Definition watched (p : PID) (l : list effect) : option bool :=
  last (omap (λ x, match x with Watch q => if bool_decide (q = p) then Some true else None | Unwatch q => if bool_decide (q = p) then Some false else None | _ => None end) l).

(** A process that leaves its last group is no longer watched, though it has a subscription
    that is only removed when it is seen to exit. *)
Lemma subscriber_unwatched :
  let s := example_run subscribed_state [LWork calm; LSubmit (DoJoin "k" bob); LWork calm; LSubmit (DoLeave "k" bob); LWork calm] in
  entries_of (monitors s) "g" = [mkEntry bob "t" 1] ∧ watched bob (log (nt s)) = Some false.
Proof. vm_compute. done. Qed.

(** The group without a name has the key of the subscriptions to all groups, which are told
    twice of its changes. *)
Lemma unnamed_group_told_twice :
  let s := example_run (NewService example_config) [LStart calm (λ _ _, 0%nat) true; LWork calm; LSubmit (DoEvents bob "t"); LWork calm; LSubmit (DoJoin "" ann); LWork calm] in
  received (mkEntry bob "t" 1) "" (log (nt s)) = [(MemberJoined, [ann]); (MemberJoined, [ann])] ∧ GetMembers s "" = [ann].
Proof. vm_compute. done. Qed.

(** An action that is submitted while the service is stopped stays in the queue. *)
Lemma submitted_while_stopped : let '(s, ok) := submit example_config (Stop subscribed_state) (DoJoin "k" bob) in ok = true ∧ last (actions s) = Some (DoJoin "k" bob).
Proof. vm_compute. done. Qed.

End PgEvents.
