(* ===== verification/PgWire.v ===== *)
(** * What nodes tell each other about process groups ([service/pg/protocol.go], [dispatch.go])

    The two sides of the protocol between the services of two nodes. On one side, what a
    service sends to another node in an action is, applied to what that node had, what its
    own processes have joined after the action. On the other side, what an action does to
    the members of a node in the state of another one is what the packages say. Packages
    that are encoded on one side are decoded to the same groups and processes. *)

From S2P Require Import Prelude Bytes GoStrings Pid PgState PgRetry PgService PgMembers PgEvents.
Import Pid PgState PgRetry PgService PgMembers PgEvents.

Module PgWire.

(** ** Packages *)

Definition as_message (p : topic * payload_map) : Message := mkMessage (Pg p.1) [PMap p.2].

Definition understood (p : topic * payload_map) : list action := dispatch (as_message p).

(** The node an action of the protocol comes from *)
Definition sender (a : action) : option string :=
  match a with DoDiscover n | DoSync n _ | DoRemoteJoin n _ | DoRemoteLeave n _ => Some n | _ => None end.

Lemma ParsePID_print p : pid_ok p → ParsePID (toString p) = Ok p.
Proof. intros Hp. unfold ParsePID, toString. rewrite bytes_of_string_of. by apply parse_print. Qed.

Lemma decode_encode_pids ps : Forall pid_ok ps → decodePidList (Some (encode_pids ps)) = ps.
Proof.
  change (Forall pid_ok ps → omap decode_pid ((λ p, VStr (toString p)) <$> ps) = ps). induction 1 as [|p ps Hp Hps IH]; [done|]. assert (decode_pid (VStr (toString p)) = Some p) as E by (unfold decode_pid; by rewrite ParsePID_print).
  change (match decode_pid (VStr (toString p)) with Some q => q :: omap decode_pid ((λ p, VStr (toString p)) <$> ps) | None => omap decode_pid ((λ p, VStr (toString p)) <$> ps) end = p :: ps). by rewrite E, IH.
Qed.

(** Whatever arrives, decoded groups are not empty. *)
Lemma decoded_nonempty v g ps : decodeGroupPidsMap v !! g = Some ps → ps ≠ [].
Proof.
  destruct v as [[| |m|]|]; cbn; try by rewrite lookup_empty. induction m as [|[k x] m IH]; cbn; [by rewrite lookup_empty|]. unfold decode_group at 1. cbn. case_bool_decide as E; [done|].
  intros [[<- <-]|[_ H]]%lookup_insert_Some; [done|by apply IH].
Qed.

(** What a node has of another one, changed by what it is told *)
Definition absorb1 (v : string → list PID) (a : action) : string → list PID :=
  match a with
  | DoSync _ gs => λ h, default [] (gs !! h)
  | DoRemoteJoin _ joins => λ h, v h ++ default [] (joins !! h)
  | DoRemoteLeave _ leaves => λ h, subtract (v h) (default [] (leaves !! h))
  | _ => v
  end.

Definition absorb (v : string → list PID) (l : list action) : string → list PID := foldl absorb1 v l.

Definition same (v v' : string → list PID) : Prop := ∀ h, v h ≡ₚ v' h.

#[export] Instance same_equiv : Equivalence same.
Proof. split; [by intros v h|by intros v w H h|]. intros u v w H1 H2 h. by rewrite (H1 h). Qed.

Lemma absorb_same l v v' : same v v' → same (absorb v l) (absorb v' l).
Proof.
  revert v v'. induction l as [|a l IH]; intros v v' H; cbn; [done|]. apply IH. destruct a; cbn; try done; intros h; by rewrite (H h).
Qed.

(** A call that is refused changes nothing. *)
Ltac early_return := match goal with |- context [if ?x then (_, Done (Some _)) else _] => destruct x; [done|] end.

Section wire.
Context (shuffle : ∀ A, list A → list A) (victim : gmap string circuitBreaker → string) (c : config).
Hypothesis shuffle_perm : ∀ A l, shuffle A l ≡ₚ l.
Hypothesis node_named : localNodeID c ≠ "".

Lemma announced_roundtrip m : announced_ok m → decodeGroupPidsMap (Some (encodeJoinsPayload shuffle m)) = m.
Proof.
  intros Hm. unfold encodeJoinsPayload. cbn. trans (list_to_map (shuffle _ (map_to_list m)) : announced).
  - assert (Forall (λ gp : string * list PID, gp.2 ≠ [] ∧ Forall pid_ok gp.2) (shuffle _ (map_to_list m))) as HF by (rewrite shuffle_perm; apply Forall_forall; intros [g ps] Hin%elem_of_map_to_list; exact (Hm g ps Hin)).
    induction HF as [|[g ps] l [Hne Hok] HF IH]; [done|]. cbn [fmap list_fmap foldr]. change (foldr decode_group ∅ (list_fmap _ _ ?f l)) with (foldr decode_group ∅ (f <$> l)). rewrite IH. unfold decode_group. cbn [fst snd]. rewrite decode_encode_pids by done. by rewrite bool_decide_eq_false_2.
  - rewrite (list_to_map_proper _ (map_to_list m)), list_to_map_to_list; [done| |apply shuffle_perm]. rewrite shuffle_perm. apply NoDup_fst_map_to_list.
Qed.

Lemma understood_discover : understood (TopicDiscover, discover_data c) = [DoDiscover (localNodeID c)].
Proof. unfold understood, dispatch, as_message. cbn. by rewrite bool_decide_eq_false_2. Qed.

Lemma understood_sync x : state_ok x → understood (TopicSync, sync_data shuffle c x) = [DoSync (localNodeID c) (allLocalPids shuffle x)].
Proof.
  intros Hx. unfold understood, dispatch, as_message. cbn [fst snd Topic handleSyncPackage Payloads]. change (field (sync_data shuffle c x) "from") with (Some (VStr (localNodeID c))). cbn [as_string].
  rewrite bool_decide_eq_false_2 by done. change (field (sync_data shuffle c x) "groups") with (Some (encodeJoinsPayload shuffle (allLocalPids shuffle x))). rewrite announced_roundtrip; [done|]. by apply allLocalPids_ok.
Qed.

Lemma understood_join joins : announced_ok joins → joins ≠ ∅ → understood (TopicJoin, join_data shuffle c joins) = [DoRemoteJoin (localNodeID c) joins].
Proof.
  intros Hj Hne. unfold understood, dispatch, as_message. cbn [fst snd Topic handleJoinPackage Payloads]. change (field (join_data shuffle c joins) "from") with (Some (VStr (localNodeID c))). cbn [as_string].
  rewrite bool_decide_eq_false_2 by done. change (field (join_data shuffle c joins) "joins") with (Some (encodeJoinsPayload shuffle joins)). rewrite announced_roundtrip by done. cbn zeta. by rewrite !(bool_decide_eq_false_2 (joins = ∅)) by done.
Qed.

Lemma understood_leave leaves : announced_ok leaves → leaves ≠ ∅ → understood (TopicLeave, leave_data shuffle c leaves) = [DoRemoteLeave (localNodeID c) leaves].
Proof.
  intros Hj Hne. unfold understood, dispatch, as_message. cbn [fst snd Topic handleLeavePackage Payloads]. change (field (leave_data shuffle c leaves) "from") with (Some (VStr (localNodeID c))). cbn [as_string].
  rewrite bool_decide_eq_false_2 by done. change (field (leave_data shuffle c leaves) "leaves") with (Some (encodeJoinsPayload shuffle leaves)). rewrite announced_roundtrip by done. cbn zeta. by rewrite !(bool_decide_eq_false_2 (leaves = ∅)) by done.
Qed.

(** ** The sending side *)

(** What a node is told in a step of this one brings it from the members of this node
    before the step to those after it; a full announcement does so from anything. *)
Definition announces (b : string) (x : state) (n : net) (x' : state) (n' : net) : Prop :=
  ∃ ps, adds (told_item b) n n' ps ∧ same (absorb (local_members x) (ps ≫= understood)) (local_members x') ∧
  ((∃ data, (TopicSync, data) ∈ ps) → ∀ v, same (absorb v (ps ≫= understood)) (local_members x')).

Lemma announces_quiet b x n x' n' : adds (told_item b) n n' [] → (∀ h, local_members x' h ≡ₚ local_members x h) → announces b x n x' n'.
Proof. intros H E. exists []. split_and!; [done|intros h; by rewrite E|]. intros [data Hd]. by apply elem_of_nil in Hd. Qed.

Lemma announces_quiet_l b x n n1 x' n' : adds (told_item b) n n1 [] → announces b x n1 x' n' → announces b x n x' n'.
Proof. intros H (ps & A & B & C). exists ps. split_and!; [by eapply (adds_trans _ _ _ _ [] ps)|done..]. Qed.

Lemma announces_quiet_r b x n x' n1 n' : announces b x n x' n1 → adds (told_item b) n1 n' [] → announces b x n x' n'.
Proof. intros (ps & A & B & C) H. exists ps. split_and!; [|done..]. rewrite <- (app_nil_r ps). by eapply adds_trans. Qed.

Lemma announces_one b x n x' n' p : adds (told_item b) n n' [p] → p.1 ≠ TopicSync → same (absorb (local_members x) (understood p)) (local_members x') → announces b x n x' n'.
Proof. intros H Hp E. exists [p]. cbn. rewrite app_nil_r. split_and!; [done..|]. intros [data Hd%list_elem_of_singleton]. by subst p. Qed.

Lemma targets_spec e x b : NoDup (broadcastTargets shuffle c e x) ∧ (b ∈ nodes e → b ≠ localNodeID c → b ∈ broadcastTargets shuffle c e x).
Proof.
  unfold broadcastTargets. assert (∀ l acc, NoDup acc → NoDup (foldl (add_target c) acc l) ∧ (b ∈ acc ∨ b ∈ l ∧ b ≠ localNodeID c → b ∈ foldl (add_target c) acc l)) as H.
  { induction l as [|n l IH]; intros acc Hacc; cbn [foldl]; [split; [done|]; intros [?|[?%elem_of_nil _]]; done|]. destruct (IH (add_target c acc n)) as [I1 I2].
    { unfold add_target. repeat case_bool_decide; cbn; try done. apply NoDup_app. split_and!; [done|set_solver|apply NoDup_singleton]. }
    split; [done|]. intros Hb. apply I2. unfold add_target. destruct Hb as [Hb|[[->|Hb]%elem_of_cons Hl]].
    - left. repeat case_bool_decide; cbn; set_solver.
    - left. rewrite (bool_decide_eq_false_2 (n = _)) by done. cbn. case_bool_decide; set_solver.
    - by right. }
  destruct (H (membershipAlivePeers c e ++ (shuffle _ (map_to_list (remote x))).*1) []) as [H1 H2]; [constructor|]. split; [done|]. intros Hb Hl. apply H2. right. split; [|done].
  apply elem_of_app. left. unfold membershipAlivePeers. by apply list_elem_of_filter.
Qed.

Lemma announce_told e t data ch l n b : NoDup l → b ∈ l → adds (told_item b) n (foldl (announce shuffle victim e t data ch) n l) [(t, data)].
Proof.
  intros Hl Hb. assert (l ≫= (λ x, if bool_decide (x = b) then [(t, data)] else []) = [(t, data)]) as E.
  { trans ((λ _, (t, data)) <$> base.filter (λ x, x = b) l); [|by rewrite filter_one]. clear. induction l as [|x l IH]; [done|]. rewrite filter_cons. cbn. rewrite IH. destruct (decide (x = b)); [by rewrite bool_decide_eq_true_2|by rewrite bool_decide_eq_false_2]. }
  rewrite <- E. apply adds_foldl. intros n' x _. destruct (announce_log shuffle victim e t data ch n' x) as [o Ho]. pose proof (adds_one (told_item b) _ _ _ Ho) as H. cbn in H. by destruct (bool_decide (x = b)).
Qed.

Lemma fold_st {A} (F : Service → A → Service) (f : state → A → state) l s : (∀ s a, st (F s a) = f (st s) a) → st (foldl F s l) = foldl f (st s) l.
Proof. intros H. revert s. induction l as [|a l IH]; intros s; cbn; [done|]. by rewrite IH, H. Qed.

Lemma fold_quiet {A X} (f : effect → option X) (F : Service → A → Service) l s : (∀ s a, adds f (nt s) (nt (F s a)) []) → adds f (nt s) (nt (foldl F s l)) [].
Proof. intros H. revert s. induction l as [|a l IH]; intros s; cbn; [by apply adds_nil|]. by eapply (adds_trans _ _ _ _ [] []). Qed.

(** Joins and leaves that another node announced *)
Lemma remote_joins_ok x from joins : state_ok x → announced_ok joins → let x' := foldl (λ x gp, joinRemote x from gp.1 gp.2) x (shuffle _ (map_to_list joins)) in
  local x' = local x ∧ ∀ n h, view x' n h ≡ₚ view x n h ++ once (n = from) (default [] (joins !! h)).
Proof.
  intros Hx Hj. destruct (joins_ok (shuffle _ (map_to_list joins)) x from Hx) as (A & B & C); [rewrite shuffle_perm; apply Forall_forall; intros [g ps] Hin%elem_of_map_to_list; exact (Hj g ps Hin)|].
  cbn zeta. split; [done|]. intros n h. rewrite C. f_equiv. unfold once. case_decide; [|done]. rewrite <- listed_map. unfold listed. by rewrite shuffle_perm.
Qed.

Lemma leaves_ok l x from : state_ok x → Forall (λ gp, Forall pid_ok gp.2) l → let x' := foldl (λ x gp, (leaveRemote x from gp.2 [gp.1]).1) x l in
  local x' = local x ∧ ∀ n h, view x' n h = if decide (n = from) then foldl subtract (view x n h) (omap (λ gp, if bool_decide (gp.1 = h) then Some gp.2 else None) l) else view x n h.
Proof.
  intros Hx Hl. revert x Hx. induction Hl as [|gp l Hgp Hl IH]; intros x Hx; cbn [foldl]; [split; [done|]; intros n h; by case_decide|].
  pose proof (leaveRemote_ok x from gp.2 [gp.1] Hx Hgp) as H. destruct (leaveRemote x from gp.2 [gp.1]) as [x1 removed]. destruct H as (A & B & C & _). cbn [fst]. destruct (IH x1 A) as [I1 I2]. cbn zeta. split; [congruence|].
  intros n h. rewrite I2, C. case_decide; [|done]. cbn. destruct (decide (h = gp.1)); [by rewrite bool_decide_eq_true_2|by rewrite bool_decide_eq_false_2].
Qed.

Lemma remote_leaves_ok x from leaves : state_ok x → announced_ok leaves → let x' := foldl (λ x gp, (leaveRemote x from gp.2 [gp.1]).1) x (shuffle _ (map_to_list leaves)) in
  local x' = local x ∧ ∀ n h, view x' n h = if decide (n = from) then subtract (view x n h) (default [] (leaves !! h)) else view x n h.
Proof.
  intros Hx Hj. destruct (leaves_ok (shuffle _ (map_to_list leaves)) x from Hx) as [A B]; [rewrite shuffle_perm; apply Forall_forall; intros [g ps] Hin%elem_of_map_to_list; apply (Hj g ps Hin)|].
  cbn zeta. split; [done|]. intros n h. rewrite B. case_decide; [|done]. rewrite (pick Some leaves h) by apply shuffle_perm. by destruct (leaves !! h).
Qed.

Lemma handleRemoteLeave_st e from s gp : st (handleRemoteLeave shuffle victim e from s gp) = (leaveRemote (st s) from gp.2 [gp.1]).1.
Proof. unfold handleRemoteLeave. by destruct (leaveRemote _ _ _ _). Qed.

Section told.
Context (e : env) (b : string).
Hypothesis b_known : b ∈ nodes e.
Hypothesis b_other : b ≠ localNodeID c.

Lemma broadcastJoin_told x js n : adds (told_item b) n (broadcastJoin shuffle victim c e x js n) (if bool_decide (js = ∅) then [] else [(TopicJoin, join_data shuffle c js)]).
Proof. unfold broadcastJoin. case_bool_decide; [by apply adds_nil|]. destruct (targets_spec e x b) as [H1 H2]. by apply announce_told; [|apply H2]. Qed.

Lemma keep_nonempty (leaves : announced) : announced_ok leaves → base.filter (λ gp, gp.2 ≠ []) leaves = leaves.
Proof. intros H. apply map_filter_id. intros g ps Hg. by apply (H g ps Hg). Qed.

Lemma broadcastLeave_told x leaves n : announced_ok leaves → adds (told_item b) n (broadcastLeave shuffle victim c e x leaves n) (if bool_decide (leaves = ∅) then [] else [(TopicLeave, leave_data shuffle c leaves)]).
Proof.
  intros Hl. unfold broadcastLeave. rewrite keep_nonempty by done. case_bool_decide; [by apply adds_nil|]. destruct (targets_spec e x b) as [H1 H2]. by apply announce_told; [|apply H2].
Qed.

(** A broadcast tells of a change of this node's processes. *)
Lemma join_announced x x' js n : announced_ok js → (∀ h, local_members x' h ≡ₚ local_members x h ++ default [] (js !! h)) → announces b x n x' (broadcastJoin shuffle victim c e x' js n).
Proof.
  intros Hj HL. pose proof (broadcastJoin_told x' js n) as H. case_bool_decide as E; [subst; apply announces_quiet; [done|]; intros h; by rewrite HL, lookup_empty, app_nil_r|].
  eapply announces_one; [exact H|done|]. rewrite understood_join by done. intros h. cbn. by rewrite HL.
Qed.

Lemma leave_announced x x' ls n : announced_ok ls → (∀ h, local_members x h ≡ₚ local_members x' h ++ default [] (ls !! h)) → announces b x n x' (broadcastLeave shuffle victim c e x' ls n).
Proof.
  intros Hj HL. pose proof (broadcastLeave_told x' ls n Hj) as H. case_bool_decide as E; [subst; apply announces_quiet; [done|]; intros h; by rewrite HL, lookup_empty, app_nil_r|].
  eapply announces_one; [exact H|done|]. rewrite understood_leave by done. intros h. cbn. by rewrite HL, Permutation_app_comm, subtract_app.
Qed.

Lemma sync_announced x x' node n : state_ok x → local x' = local x → announces b x n x' (sendSync shuffle victim c e x node n).
Proof.
  intros Hx El. destruct (send_log victim e true node (Protocol node TopicSync (sync_data shuffle c x)) n) as [o Ho]. pose proof (adds_one (told_item b) _ _ _ Ho) as H. cbn in H.
  assert (∀ h, local_members x' h = local_members x h) as EL by (intros h; unfold local_members; by rewrite El). case_bool_decide; [|apply announces_quiet; [done|]; intros h; by rewrite EL].
  exists [(TopicSync, sync_data shuffle c x)]. cbn [mbind list_bind]. rewrite app_nil_r, understood_sync by done. assert (∀ v, same (absorb v [DoSync (localNodeID c) (allLocalPids shuffle x)]) (local_members x')) as HS.
  { intros v h. cbn. rewrite EL. by apply allLocalPids_spec. }
  split_and!; [done|apply HS|]. intros _. apply HS.
Qed.

Lemma discover_announced x x' node n n' : announces b x n x' n' → announces b x n x' (sendDiscover victim c e node n').
Proof.
  intros (ps & A & B & C). destruct (sendDiscover_log victim c e node n') as [o Ho]. pose proof (adds_one (told_item b) _ _ _ Ho) as H. cbn in H. case_bool_decide; [|by eapply announces_quiet_r; [exists ps|]].
  exists (ps ++ [(TopicDiscover, discover_data c)]). split_and!; [by eapply adds_trans|..].
  - rewrite bind_app. cbn [mbind list_bind]. unfold absorb. rewrite foldl_app, app_nil_r, understood_discover. exact B.
  - intros [data [Hd|Hd%list_elem_of_singleton]%elem_of_app]; [|done]. intros v. rewrite bind_app. cbn [mbind list_bind]. unfold absorb. rewrite foldl_app, app_nil_r, understood_discover. apply C. by exists data.
Qed.

Lemma announces_ext x n x' x2 n' : local x2 = local x' → announces b x n x' n' → announces b x n x2 n'.
Proof.
  intros E (ps & A & B & C). assert (∀ h, local_members x2 h = local_members x' h) as EL by (intros h; unfold local_members; by rewrite E).
  exists ps. split_and!; [done|intros h; by rewrite EL|]. intros Hd v h. rewrite EL. by apply C.
Qed.

Lemma watch_told p n : adds (told_item b) n (monitorProcess p n) [] ∧ adds (told_item b) n (demonitorProcess p n) [].
Proof. by apply watch_adds. Qed.

Lemma same_state s : announces b (st s) (nt s) (st s) (nt s).
Proof. apply announces_quiet; [by apply adds_nil|done]. Qed.

Ltac not_done := match goal with |- context [if ?x then (_, Done (Some _)) else _] => destruct x; [apply same_state|] end.

Lemma Join_announces s g p : service_ok s → pid_ok p → announces b (st s) (nt s) (st (Join shuffle victim c e s g p).1) (nt (Join shuffle victim c e s g p).1).
Proof.
  intros Hs Hp. unfold Join. cbn zeta. do 2 not_done. cbn [fst]. apply (announces_ext _ _ (joinLocal (st s) g p)); [done|]. eapply announces_quiet_r; [|apply emit_told]. eapply announces_quiet_l.
  2: apply join_announced.
  - destruct (hasGroupMemberships s p); [by apply adds_nil|apply watch_told].
  - intros h ps [<- <-]%lookup_singleton_Some. split; [done|by constructor].
  - intros h. destruct (joinLocal_ok (st s) g p (sv_state s Hs) Hp) as (_ & _ & ->). rewrite Permutation_app_comm. f_equiv. unfold once. case_decide; [subst; by rewrite lookup_singleton_eq|by rewrite lookup_singleton_ne].
Qed.

Lemma JoinGroups_announces s gs p : service_ok s → pid_ok p → announces b (st s) (nt s) (st (JoinGroups shuffle victim c e s gs p).1) (nt (JoinGroups shuffle victim c e s gs p).1).
Proof.
  intros Hs Hp. unfold JoinGroups. do 2 not_done. pose proof (joined_all victim e (monitors s) p gs (st s) ∅ (nt s) (sv_state s Hs) Hp) as HJ. destruct (foldl _ _ gs) as [[x joins] n]. destruct HJ. cbn [fst].
  apply (announces_ext _ _ x); [done|]. eapply announces_quiet_r; [|instantiate (1 := broadcastJoin shuffle victim c e x joins n); destruct (hasGroupMemberships s p); [by apply adds_nil|apply watch_told]].
  eapply announces_quiet_l; [apply jd_told0|]. apply join_announced; [apply jd_valid0; intros h ps; by rewrite lookup_empty|]. intros h. by rewrite jd_local0, jd_joins0, lookup_empty.
Qed.

Lemma Leave_announces s g p : service_ok s → pid_ok p → announces b (st s) (nt s) (st (Leave shuffle victim c e s g p).1) (nt (Leave shuffle victim c e s g p).1).
Proof.
  intros Hs Hp. unfold Leave. pose proof (leaveLocal_ok (st s) g p (sv_state s Hs) Hp) as H. destruct (leaveLocal (st s) g p) as [x []] eqn:E; cbn [negb fst]; [|apply same_state]. destruct H as (A & B & D).
  apply (announces_ext _ _ x); [done|]. eapply announces_quiet_r; [|apply emit_told]. eapply announces_quiet_l.
  2: apply leave_announced.
  - by apply stop_watching_adds.
  - intros h ps [<- <-]%lookup_singleton_Some. split; [done|by constructor].
  - intros h. rewrite D, Permutation_app_comm. f_equiv. unfold once. case_decide; [subst; by rewrite lookup_singleton_eq|by rewrite lookup_singleton_ne].
Qed.

Lemma LeaveGroups_announces s gs p : service_ok s → pid_ok p → announces b (st s) (nt s) (st (LeaveGroups shuffle victim c e s gs p).1) (nt (LeaveGroups shuffle victim c e s gs p).1).
Proof.
  intros Hs Hp. unfold LeaveGroups. pose proof (left_all victim e (monitors s) p gs (st s) ∅ (nt s) (sv_state s Hs) Hp) as HL. destruct (foldl _ _ gs) as [[x leaves] n]. destruct HL as (gs' & [] & _).
  case_bool_decide; cbn [fst]; [apply same_state|]. apply (announces_ext _ _ x); [done|]. eapply announces_quiet_r; [|by apply stop_watching_adds]. eapply announces_quiet_l; [apply lf_told0|].
  apply leave_announced; [apply lf_valid0; intros h ps; by rewrite lookup_empty|]. intros h. by rewrite lf_local0, lf_leaves0, lookup_empty.
Qed.

Lemma emit_all_told mons k l n : adds (told_item b) n (emit_all victim e mons k l n) [].
Proof.
  unfold emit_all. assert (l ≫= (λ _, []) = ([] : list (topic * payload_map))) as <- by (by apply bind_none, Forall_forall). apply adds_foldl. intros n' gp _. apply emit_told.
Qed.

Lemma noted_leaves gs p h : default [] (foldl (λ m g, note_removed m g p) ∅ gs !! h) = times h gs p.
Proof.
  assert (∀ m, default [] (foldl (λ m g, note_removed m g p) m gs !! h) = default [] (m !! h) ++ times h gs p) as H; [|by rewrite H, lookup_empty].
  induction gs as [|g gs IH]; intros m; cbn [foldl]; [by rewrite app_nil_r|]. by rewrite IH, note_removed_spec, times_cons, <- app_assoc.
Qed.

Lemma noted_leaves_ok gs p : pid_ok p → announced_ok (foldl (λ m g, note_removed m g p) ∅ gs).
Proof.
  intros Hp. assert (announced_ok ∅) as H0 by (intros g ps; by rewrite lookup_empty). revert H0. generalize (∅ : announced). induction gs as [|g gs IH]; intros m Hm; cbn; [done|]. by apply IH, note_removed_ok.
Qed.

Lemma exit_announces s p : service_ok s → pid_ok p → announces b (st s) (nt s) (st (handleProcessExit shuffle victim c e s p)) (nt (handleProcessExit shuffle victim c e s p)).
Proof.
  intros Hs Hp. unfold handleProcessExit. pose proof (leaveAllLocal_ok (st s) p (sv_state s Hs) Hp) as H. destruct (leaveAllLocal (st s) p) as [x gs]. destruct H as (A & B & _ & D). cbn.
  case_bool_decide as E; [subst; apply announces_quiet; [by apply adds_nil|]; intros h; by rewrite (D h)|]. eapply announces_quiet_r; [|apply emit_all_told]. apply leave_announced; [by apply noted_leaves_ok|].
  intros h. rewrite noted_leaves, D. apply Permutation_app_comm.
Qed.

Lemma emit_diff_told mons k old new n : adds (told_item b) n (emit_diff shuffle victim e mons k old new n) [].
Proof.
  unfold emit_diff. set (l := shuffle _ _). assert (l ≫= (λ _, []) = ([] : list (topic * payload_map))) as <- by (by apply bind_none, Forall_forall). apply adds_foldl. intros n' gp _. cbn zeta. case_bool_decide; [by apply adds_nil|apply emit_told].
Qed.

Lemma keeps_local x n x' n' : local x' = local x → adds (told_item b) n n' [] → announces b x n x' n'.
Proof. intros E H. apply announces_quiet; [done|]. intros h. unfold local_members. by rewrite E. Qed.

Lemma handleDiscover_announces s from : service_ok s → announces b (st s) (nt s) (st (handleDiscover shuffle victim c e s from)) (nt (handleDiscover shuffle victim c e s from)).
Proof.
  intros Hs. unfold handleDiscover. case_bool_decide; [apply same_state|]. destruct (remote (st s) !! from); cbn; [by apply sync_announced; [apply Hs|]|].
  apply (announces_ext _ _ (st s)); [unfold know; by destruct (remote (st s) !! from)|]. by apply discover_announced, sync_announced; [apply Hs|].
Qed.

Lemma handleNodeLeft_announces s node : service_ok s → announces b (st s) (nt s) (st (handleNodeLeft shuffle victim e s node)) (nt (handleNodeLeft shuffle victim e s node)).
Proof.
  intros Hs. destruct (removeNode_ok shuffle shuffle_perm (st s) node (sv_state s Hs)) as (_ & E & _). unfold handleNodeLeft. cbn. apply keeps_local.
  - unfold removeMonitorsByNode. by case_bool_decide.
  - eapply (adds_trans _ _ (mkNet (RemoveCircuitBreaker (cbManager (nt s)) node) (retries (nt s)) (log (nt s))) _ [] []); [by apply adds_nil|]. unfold removeMonitorsByNode. case_bool_decide; apply emit_all_told.
Qed.

(** The sending side: whatever the action, another node of the cluster is told of every
    change of this node's processes. *)
Lemma perform_announces s a : service_ok s → action_ok a → announces b (st s) (nt s) (st (perform shuffle victim c e s a).1) (nt (perform shuffle victim c e s a).1).
Proof.
  intros Hs Ha. pose proof (sv_state s Hs) as Hx. destruct a; cbn [perform fst action_ok] in *.
  - by apply Join_announces.
  - by apply JoinGroups_announces.
  - by apply Leave_announces.
  - by apply LeaveGroups_announces.
  - apply keeps_local; [done|apply watch_told].
  - apply keeps_local; [done|apply watch_told].
  - unfold Unsubscribe. destruct (_ && _); [|apply keeps_local; [done|by apply adds_nil]]. apply keeps_local; [done|apply watch_told].
  - apply same_state.
  - apply same_state.
  - eapply announces_ext; [|by apply handleDiscover_announces]. done.
  - apply keeps_local; [by apply (syncRemote_ok shuffle shuffle_perm)|]. eapply (adds_trans _ _ _ _ [] []); apply emit_diff_told.
  - apply keeps_local; [|apply fold_quiet; intros s' gp; apply emit_told]. cbn. rewrite (fold_st _ (λ x gp, joinRemote x from gp.1 gp.2)) by done. by apply remote_joins_ok.
  - apply keeps_local; [|apply fold_quiet; intros s' gp; unfold handleRemoteLeave; destruct (leaveRemote _ _ _ _); apply emit_all_told]. cbn.
    rewrite (fold_st _ (λ x gp, (leaveRemote x from gp.2 [gp.1]).1)) by (intros; apply handleRemoteLeave_st). by apply remote_leaves_ok.
  - eapply announces_ext; [|by apply exit_announces]. done.
  - unfold handleNodeJoined. destruct (GetCircuitBreaker _ _ _) as [m cb]. cbn. apply discover_announced. apply keeps_local; [done|by apply adds_nil].
  - eapply announces_ext; [|by apply handleNodeLeft_announces]. done.
  - unfold reconcileOnce. destruct (_ !! _) as [target|]; [|apply same_state]. cbn. assert (local (know (st s) target) = local (st s)) as E by (unfold know; by destruct (remote (st s) !! target)).
    destruct (know_ok (st s) target Hx) as (K1 & _). destruct (sync_announced (know (st s) target) (know (st s) target) target (nt s) K1 eq_refl) as (ps & A & B & C). exists ps. split_and!; [done| |done].
    etrans; [|exact B]. apply absorb_same. intros h. unfold local_members. by rewrite E.
  - cbn. apply discover_announced, same_state.
Qed.

End told.

(** ** The receiving side *)

(** What an action does to the members of a node *)
Definition heard (a : string) (v : string → list PID) (act : action) : string → list PID :=
  if bool_decide (sender act = Some a) then absorb1 v act
  else match act with DoNodeLeft n => if bool_decide (n = a) then λ _, [] else v | _ => v end.

Lemma view_same x x' : remote x' = remote x → ∀ n h, view x' n h = view x n h.
Proof. intros E n h. unfold view. by rewrite E. Qed.

Lemma handleDiscover_view e s from n h : state_ok (st s) → view (st (handleDiscover shuffle victim c e s from)) n h = view (st s) n h.
Proof. intros Hx. unfold handleDiscover. case_bool_decide; [done|]. destruct (remote (st s) !! from) eqn:E; [done|]. cbn. by apply know_ok. Qed.

Lemma perform_view e s a act : service_ok s → action_ok act → same (view (st (perform shuffle victim c e s act).1) a) (heard a (view (st s) a) act).
Proof.
  intros Hs Ha h. pose proof (sv_state s Hs) as Hx. unfold heard. destruct act; cbn [perform fst action_ok sender] in *; rewrite ?(bool_decide_eq_false_2 (None = Some a)) by done; cbn [absorb1].
  - unfold Join. cbn zeta. do 2 early_return. cbn. by rewrite (view_same (st s)).
  - unfold JoinGroups. do 2 early_return. pose proof (joined_all victim e (monitors s) p gs (st s) ∅ (nt s) Hx Ha) as HJ.
    destruct (foldl _ _ gs) as [[x joins] n]. destruct HJ. cbn. by rewrite (view_same (st s)).
  - unfold Leave. pose proof (leaveLocal_ok (st s) g p Hx Ha) as H. destruct (leaveLocal (st s) g p) as [x []]; cbn; [|done]. destruct H as (_ & E & _). by rewrite (view_same (st s)).
  - unfold LeaveGroups. pose proof (left_all victim e (monitors s) p gs (st s) ∅ (nt s) Hx Ha) as HL. destruct (foldl _ _ gs) as [[x leaves] n]. destruct HL as (gs' & [] & _). case_bool_decide; cbn; [done|]. by rewrite (view_same (st s)).
  - done.
  - done.
  - unfold Unsubscribe. by destruct (_ && _).
  - done.
  - done.
  - change (view (st (handleDiscover shuffle victim c e s from)) a h ≡ₚ (if bool_decide (Some from = Some a) then view (st s) a else view (st s) a) h). rewrite handleDiscover_view by done. by destruct (bool_decide (Some from = Some a)).
  - cbn. destruct (syncRemote_ok shuffle shuffle_perm (st s) from gs Hx Ha) as (_ & _ & V & _). change (view (syncRemote shuffle (st s) from gs) a h ≡ₚ (if bool_decide (Some from = Some a) then λ h, default [] (gs !! h) else view (st s) a) h). rewrite V.
    case_decide; [subst; by rewrite bool_decide_eq_true_2|]. by rewrite bool_decide_eq_false_2 by congruence.
  - cbn [publishDirty set_st st]. change (view (st (foldl (handleRemoteJoin victim e from) s (shuffle _ (map_to_list joins)))) a h ≡ₚ (if bool_decide (Some from = Some a) then λ h, view (st s) a h ++ default [] (joins !! h) else view (st s) a) h).
    rewrite (fold_st _ (λ x gp, joinRemote x from gp.1 gp.2)) by done. destruct (remote_joins_ok (st s) from joins Hx Ha) as [_ V]. rewrite V. unfold once.
    case_decide; [subst; by rewrite bool_decide_eq_true_2|]. by rewrite bool_decide_eq_false_2, app_nil_r by congruence.
  - change (view (st (foldl (handleRemoteLeave shuffle victim e from) s (shuffle _ (map_to_list leaves)))) a h ≡ₚ (if bool_decide (Some from = Some a) then λ h, subtract (view (st s) a h) (default [] (leaves !! h)) else view (st s) a) h).
    rewrite (fold_st _ (λ x gp, (leaveRemote x from gp.2 [gp.1]).1)) by (intros; apply handleRemoteLeave_st). destruct (remote_leaves_ok (st s) from leaves Hx Ha) as [_ V]. rewrite V.
    case_decide; [subst; by rewrite bool_decide_eq_true_2|]. by rewrite bool_decide_eq_false_2 by congruence.
  - unfold handleProcessExit. pose proof (leaveAllLocal_ok (st s) p Hx Ha) as H. destruct (leaveAllLocal (st s) p) as [x gs]. destruct H as (_ & E & _). cbn. by rewrite (view_same (st s)).
  - unfold handleNodeJoined. by destruct (GetCircuitBreaker _ _ _).
  - destruct (removeNode_ok shuffle shuffle_perm (st s) node Hx) as (_ & _ & E). assert (remote (st (publishDirty shuffle (handleNodeLeft shuffle victim e s node))) = delete node (remote (st s))) as ER.
    { cbn. unfold handleNodeLeft, removeMonitorsByNode. by case_bool_decide. }
    rewrite (view_deleted _ _ node a h ER). case_decide; [subst; by rewrite bool_decide_eq_true_2|]. by rewrite bool_decide_eq_false_2.
  - unfold reconcileOnce. destruct (_ !! _) as [target|]; [|done]. cbn. destruct (know_ok (st s) target Hx) as (_ & _ & K & _). by rewrite K.
  - done.
Qed.

(** ** What is sent is well formed *)

Definition from_here (a : action) : Prop := sender a = Some (localNodeID c) ∧ action_ok a.

Definition packet_ok (x : effect) : Prop := match x with Attempt (Protocol node t data) _ => node ≠ localNodeID c ∧ Forall from_here (understood (t, data)) | _ => True end.

Definition entry_ok (r : retryEntry) : Prop := targetNode r ≠ localNodeID c ∧ Forall pid_ok (rpids r).

(** Nodes that an action is to discover are other ones. *)
Definition aims (a : action) : Prop := match a with DoNodeJoined n | DoSendDiscover n => n ≠ localNodeID c | _ => True end.

Definition good (n : net) : Prop := Forall packet_ok (log n) ∧ Forall entry_ok (entries (retries n)).

Definition pids_ok (m : announced) : Prop := ∀ g ps, m !! g = Some ps → Forall pid_ok ps.

Lemma announced_pids_ok m : announced_ok m → pids_ok m.
Proof. intros H g ps Hg. by apply (H g ps Hg). Qed.

Lemma decode_valid m : pids_ok m → announced_ok (decodeGroupPidsMap (Some (encodeJoinsPayload shuffle m))).
Proof.
  intros Hm g ps Hg. split; [by eapply decoded_nonempty|]. revert Hg. unfold encodeJoinsPayload. cbn.
  assert (Forall (λ gp : string * list PID, Forall pid_ok gp.2) (shuffle _ (map_to_list m))) as HF by (rewrite shuffle_perm; apply Forall_forall; intros [k l] Hin%elem_of_map_to_list; exact (Hm k l Hin)).
  induction HF as [|[k l] r Hok HF IH]; [cbn; by rewrite lookup_empty|]. cbn [fmap list_fmap foldr]. change (foldr decode_group ∅ (list_fmap _ _ ?f r)) with (foldr decode_group ∅ (f <$> r)). unfold decode_group at 1. cbn [fst snd].
  rewrite decode_encode_pids by done. case_bool_decide; [done|]. intros [[<- <-]|[_ Hr]]%lookup_insert_Some; [done|by apply IH].
Qed.

Lemma join_data_ok m : pids_ok m → Forall from_here (understood (TopicJoin, join_data shuffle c m)).
Proof.
  intros Hm. apply decode_valid in Hm. unfold understood, dispatch, as_message. cbn [fst snd Topic handleJoinPackage Payloads]. change (field (join_data shuffle c m) "from") with (Some (VStr (localNodeID c))). cbn [as_string].
  rewrite bool_decide_eq_false_2 by done. change (field (join_data shuffle c m) "joins") with (Some (encodeJoinsPayload shuffle m)). set (js := decodeGroupPidsMap _) in *. change (single_join (join_data shuffle c m)) with (∅ : announced).
  cbn zeta. destruct (bool_decide_reflect (js = ∅)) as [E|E]; [by rewrite bool_decide_eq_true_2|]. rewrite bool_decide_eq_false_2 by done. apply Forall_singleton. split; [done|exact Hm].
Qed.

Lemma leave_data_ok m : pids_ok m → Forall from_here (understood (TopicLeave, leave_data shuffle c m)).
Proof.
  intros Hm. apply decode_valid in Hm. unfold understood, dispatch, as_message. cbn [fst snd Topic handleLeavePackage Payloads]. change (field (leave_data shuffle c m) "from") with (Some (VStr (localNodeID c))). cbn [as_string].
  rewrite bool_decide_eq_false_2 by done. change (field (leave_data shuffle c m) "leaves") with (Some (encodeJoinsPayload shuffle m)). set (ls := decodeGroupPidsMap _) in *. change (flat_leaves (leave_data shuffle c m)) with (∅ : announced).
  cbn zeta. destruct (bool_decide_reflect (ls = ∅)) as [E|E]; [by rewrite bool_decide_eq_true_2|]. rewrite bool_decide_eq_false_2 by done. apply Forall_singleton. split; [done|exact Hm].
Qed.

Lemma good_log n n' x : good n → log n' = log n ++ [x] → retries n' = retries n → packet_ok x → good n'.
Proof. intros [H1 H2] E1 E2 Hx. unfold good. rewrite E1, E2. split; [|done]. apply Forall_app. split; [done|by constructor]. Qed.

Lemma send_retries e b node p n : retries (send victim e b node p n).1 = retries n.
Proof. unfold send. destruct (GetCircuitBreaker _ _ _) as [m cb]. by destruct (Allow _ cb) as [cb' []]. Qed.

Lemma send_good e b node p n : good n → (∀ o, packet_ok (Attempt p o)) → good (send victim e b node p n).1.
Proof. intros Hn Hp. destruct (send_log victim e b node p n) as [o Ho]. eapply good_log; [done|done|apply send_retries|apply Hp]. Qed.

Lemma make_room_ok q : Forall entry_ok (entries q) → Forall entry_ok (make_room q).
Proof.
  intros H. unfold make_room. case_bool_decide; [|done]. destruct (heap_pop sooner (entries q)) as [[x l]|] eqn:E; [|done]. apply heap_pop_perm in E. rewrite E in H. by apply Forall_cons in H as [_ H].
Qed.

Lemma retry_good e node t gs pids n : good n → node ≠ localNodeID c → Forall pid_ok pids → good (retry e node t gs pids n).
Proof.
  intros [H1 H2] Hnd Hp. split; [done|]. unfold retry, Add. cbn [retries]. destruct (stopped (retries n)); [done|]. cbn [entries]. rewrite heap_push_perm. constructor; [done|by apply make_room_ok].
Qed.

Lemma retries_good e node t m n : good n → node ≠ localNodeID c → pids_ok m → good (retryJoinsPerGroup shuffle e node t m n).
Proof.
  intros Hn Hnd Hm. unfold retryJoinsPerGroup. assert (Forall (λ gp : string * list PID, Forall pid_ok gp.2) (shuffle _ (map_to_list m))) as HF by (rewrite shuffle_perm; apply Forall_forall; intros [k l] Hin%elem_of_map_to_list; exact (Hm k l Hin)).
  revert n Hn. induction HF as [|gp l Hgp HF IH]; intros n Hn; cbn; [done|]. by apply IH, retry_good.
Qed.

Lemma announce_good e t data m n node : good n → node ≠ localNodeID c → Forall from_here (understood (t, data)) → pids_ok m → good (announce shuffle victim e t data m n node).
Proof.
  intros Hn Hnd Hd Hm. unfold announce. pose proof (send_good e true node (Protocol node t data) n Hn (λ _, conj Hnd Hd)) as H. destruct (send _ _ _ _ _ _) as [n' [|err]]; cbn [fst] in H; [by apply retries_good|]. destruct (failed _); [by apply retries_good|done].
Qed.

Lemma good_foldl {A} (F : net → A → net) l n : good n → (∀ n a, good n → a ∈ l → good (F n a)) → good (foldl F n l).
Proof. revert n. induction l as [|a l IH]; intros n Hn H; cbn; [done|]. apply IH; [apply H; [done|by left]|]. intros n' x Hn' Hx. apply H; [done|by right]. Qed.

Lemma targets_other e x b : b ∈ broadcastTargets shuffle c e x → b ≠ localNodeID c.
Proof.
  unfold broadcastTargets. assert (∀ l acc, (b ∈ acc → b ≠ localNodeID c) → b ∈ foldl (add_target c) acc l → b ≠ localNodeID c) as H; [|apply H; by intros ?%elem_of_nil].
  induction l as [|n l IH]; intros acc Hacc; cbn [foldl]; [done|]. apply IH. unfold add_target. destruct (bool_decide_reflect (n = localNodeID c)); [done|]. case_bool_decide; [done|]. cbn. intros [Hb| ->%list_elem_of_singleton]%elem_of_app; [by apply Hacc|done].
Qed.

Lemma broadcastJoin_good e x m n : good n → pids_ok m → good (broadcastJoin shuffle victim c e x m n).
Proof. intros Hn Hm. unfold broadcastJoin. case_bool_decide; [done|]. apply good_foldl; [done|]. intros n' b Hn' Hb. apply announce_good; [done|by eapply targets_other|by apply join_data_ok|done]. Qed.

Lemma broadcastLeave_good e x m n : good n → pids_ok m → good (broadcastLeave shuffle victim c e x m n).
Proof.
  intros Hn Hm. assert (pids_ok (base.filter (λ gp, gp.2 ≠ []) m)) as Hf by (intros g ps [Hg _]%map_lookup_filter_Some; exact (Hm g ps Hg)). unfold broadcastLeave. case_bool_decide; [done|].
  apply good_foldl; [done|]. intros n' b Hn' Hb. apply announce_good; [done|by eapply targets_other|by apply leave_data_ok|done].
Qed.

Lemma emit_good e mons k g pids n : good n → good (deliverMonitorEventWithCircuitBreaker victim e mons k g pids n).
Proof. intros Hn. unfold deliverMonitorEventWithCircuitBreaker. rewrite <- foldl_app. apply good_foldl; [done|]. intros n' m Hn' _. by apply send_good. Qed.

Lemma emit_all_good e mons k l n : good n → good (emit_all victim e mons k l n).
Proof. intros Hn. apply good_foldl; [done|]. intros n' gp Hn' _. by apply emit_good. Qed.

Lemma emit_diff_good e mons k old new n : good n → good (emit_diff shuffle victim e mons k old new n).
Proof. intros Hn. apply good_foldl; [done|]. intros n' gp Hn' _. cbn zeta. case_bool_decide; [done|by apply emit_good]. Qed.

Lemma sendDiscover_good e node n : good n → node ≠ localNodeID c → good (sendDiscover victim c e node n).
Proof.
  intros Hn Hnd. unfold sendDiscover. assert (good (send victim e true node (Protocol node TopicDiscover (discover_data c)) n).1) as H by (apply send_good; [done|]; intros o; unfold packet_ok; rewrite understood_discover; split; [done|by apply Forall_singleton]).
  destruct (send _ _ _ _ _ _) as [n' o]. destruct (failed o && _); [by apply retry_good|done].
Qed.

Lemma sendSync_good e x node n : state_ok x → node ≠ localNodeID c → good n → good (sendSync shuffle victim c e x node n).
Proof. intros Hx Hnd Hn. apply send_good; [done|]. intros o. unfold packet_ok. rewrite understood_sync by done. split; [done|]. apply Forall_singleton. split; [done|by apply allLocalPids_ok]. Qed.

Lemma record_good n x : good n → (∀ p o, x ≠ Attempt p o) → good (record n x).
Proof. intros Hn Hx. eapply good_log; [done..|]. destruct x; [by destruct (Hx p o)|done..]. Qed.

Lemma join_each_good e mons p gs x js n : good n → good (foldl (join_each victim e mons p) (x, js, n) gs).2.
Proof. revert x js n. induction gs as [|g gs IH]; intros x js n Hn; cbn [foldl]; [done|]. by apply IH, emit_good. Qed.

Lemma leave_each_good e mons p gs x ls n : good n → good (foldl (leave_each victim e mons p) (x, ls, n) gs).2.
Proof. revert x ls n. induction gs as [|g gs IH]; intros x ls n Hn; cbn [foldl]; [done|]. cbn [leave_each]. destruct (leaveLocal x g p) as [x' []]; apply IH; [by apply emit_good|done]. Qed.

Lemma stop_watching_good x p n : good n → good (stop_watching x p n).
Proof. intros Hn. unfold stop_watching. destruct (local x !! toString p); [done|by apply record_good]. Qed.

Lemma monitor_good p n : good n → good (monitorProcess p n) ∧ good (demonitorProcess p n).
Proof. intros Hn. split; by apply record_good. Qed.

Lemma single_pids g p : pid_ok p → pids_ok {[g := [p]]}.
Proof. intros Hp h ps [<- <-]%lookup_singleton_Some. by constructor. Qed.

Lemma empty_ok : announced_ok ∅.
Proof. intros g ps. by rewrite lookup_empty. Qed.

Lemma fold_good {A} (F : Service → A → Service) l s : good (nt s) → (∀ s a, good (nt s) → good (nt (F s a))) → good (nt (foldl F s l)).
Proof. intros Hs H. revert s Hs. induction l as [|a l IH]; intros s Hs; cbn; [done|]. by apply IH, H. Qed.

Lemma perform_good e s a : service_ok s → action_ok a → aims a → good (nt s) → good (nt (perform shuffle victim c e s a).1).
Proof.
  intros Hs Ha Hm Hn. pose proof (sv_state s Hs) as Hx. destruct a; cbn [perform fst action_ok aims] in *.
  - unfold Join. cbn zeta. do 2 early_return. cbn. apply emit_good, broadcastJoin_good; [|by apply single_pids]. destruct (hasGroupMemberships s p); [done|by apply monitor_good].
  - unfold JoinGroups. do 2 early_return. pose proof (joined_all victim e (monitors s) p gs (st s) ∅ (nt s) Hx Ha) as HJ.
    pose proof (join_each_good e (monitors s) p gs (st s) ∅ (nt s) Hn) as HG. destruct (foldl _ _ gs) as [[x joins] n]. destruct HJ. cbn in HG |- *. assert (good (broadcastJoin shuffle victim c e x joins n)) by (apply broadcastJoin_good; [done|by apply announced_pids_ok, jd_valid0, empty_ok]).
    destruct (hasGroupMemberships s p); [done|by apply monitor_good].
  - unfold Leave. destruct (leaveLocal (st s) g p) as [x []]; cbn; [|done]. by apply emit_good, broadcastLeave_good; [apply stop_watching_good|apply single_pids].
  - unfold LeaveGroups. pose proof (left_all victim e (monitors s) p gs (st s) ∅ (nt s) Hx Ha) as HL. pose proof (leave_each_good e (monitors s) p gs (st s) ∅ (nt s) Hn) as HG. destruct (foldl _ _ gs) as [[x leaves] n].
    destruct HL as (gs' & [] & _). case_bool_decide; cbn in HG |- *; [done|]. apply stop_watching_good, broadcastLeave_good; [done|by apply announced_pids_ok, lf_valid0, empty_ok].
  - cbn. by apply monitor_good.
  - cbn. by apply monitor_good.
  - unfold Unsubscribe. destruct (_ && _); [by apply monitor_good|done].
  - done.
  - done.
  - cbn. unfold handleDiscover. case_bool_decide; [done|]. destruct (remote (st s) !! from); cbn; [by apply sendSync_good|]. by apply sendDiscover_good; [apply sendSync_good|].
  - cbn. by apply emit_diff_good, emit_diff_good.
  - cbn. apply fold_good; [done|]. intros s' gp Hg. by apply emit_good.
  - cbn. apply fold_good; [done|]. intros s' gp Hg. unfold handleRemoteLeave. destruct (leaveRemote _ _ _ _). by apply emit_all_good.
  - cbn. unfold handleProcessExit. destruct (leaveAllLocal (st s) p) as [x gs]. cbn. case_bool_decide; [done|]. by apply emit_all_good, broadcastLeave_good; [|apply announced_pids_ok, noted_leaves_ok].
  - unfold handleNodeJoined. destruct (GetCircuitBreaker _ _ _) as [m cb]. cbn. by apply sendDiscover_good.
  - cbn. unfold handleNodeLeft. cbn. apply emit_all_good. unfold removeMonitorsByNode. by case_bool_decide.
  - unfold reconcileOnce. destruct (_ !! _) as [target|] eqn:E; [|done]. cbn. apply sendSync_good; [by apply know_ok| |done]. apply list_elem_of_lookup_2 in E. by apply list_elem_of_filter in E as [E _].
  - cbn. by apply sendDiscover_good.
Qed.

(** Retries *)
Definition sound (s : Service) : Prop := service_ok s ∧ good (nt s) ∧ Forall entry_ok (retrying s) ∧ Forall aims (actions s).

Lemma put_back_good e r n : good n → entry_ok r → good (put_back e r n).
Proof.
  intros [H1 H2] Hr. split; [done|]. unfold put_back, requeue. cbn [retries]. case_bool_decide; [done|]. cbn [entries set_entries]. rewrite heap_push_perm. constructor; [done|by apply make_room_ok].
Qed.

Lemma resend_good e r data n : good n → entry_ok r → Forall from_here (understood (rtopic r, data)) → good (resend victim e r data n).
Proof.
  intros Hn Hr Hd. unfold resend. pose proof (send_good e true (targetNode r) (Protocol (targetNode r) (rtopic r) data) n Hn (λ _, conj (proj1 Hr) Hd)) as H. destruct (send _ _ _ _ _ _) as [n' [|err]]; cbn [fst] in H; [by apply put_back_good|].
  destruct (failed _); [by apply put_back_good|done].
Qed.

Lemma ask_good e node n : good n → good (ask victim e node n).1.
Proof. intros Hn. unfold ask. destruct (GetCircuitBreaker _ _ _) as [m cb]. by destruct (Allow _ cb). Qed.

Lemma leave_map_ok gs pids : Forall pid_ok pids → pids_ok (leave_map gs pids).
Proof.
  intros Hp. unfold leave_map. assert (pids_ok ∅) as H0 by (apply announced_pids_ok, empty_ok). revert H0. generalize (∅ : announced). induction gs as [|g gs IH]; intros m Hm; cbn; [done|]. apply IH. case_bool_decide; [done|].
  intros h ps [[<- <-]|[_ Hl]]%lookup_insert_Some; [|exact (Hm h ps Hl)]. apply Forall_app. split; [|done]. destruct (m !! g) as [l|] eqn:E; [exact (Hm g l E)|constructor].
Qed.

Lemma attemptRetry_good e r n : good n → entry_ok r → good (attemptRetry shuffle victim c e r n).
Proof.
  intros Hn Hr. unfold attemptRetry. pose proof (ask_good e (targetNode r) n Hn) as Hq. destruct (rtopic r) eqn:E.
  - destruct (ask _ _ _ _) as [n' []]; cbn [fst] in Hq; [apply sendDiscover_good; [done|apply Hr]|by apply put_back_good].
  - destruct (ask _ _ _ _) as [n' []]; cbn [fst] in Hq; [done|by apply put_back_good].
  - apply resend_good; [done..|]. rewrite E. apply join_data_ok. intros g ps [<- <-]%lookup_singleton_Some. apply Hr.
  - apply resend_good; [done..|]. rewrite E. apply leave_data_ok, leave_map_ok, Hr.
Qed.

End wire.

End PgWire.
