(* ===== verification/PgCluster.v ===== *)
(** * Process groups across a cluster ([service/pg])

    The services of several nodes, with a first-in, first-out connection from each to each
    of the others that may lose packages. The theorem: when a node has sent its full state
    to another one, and from then on nothing between the two is lost, refused or repeated,
    then, as soon as everything has arrived, the other node lists exactly the members that
    the processes of the first one have joined; and when this holds for every two nodes,
    readers see the same members everywhere. *)

From S2P Require Import Prelude Bytes GoStrings Pid PgState PgRetry PgService PgMembers PgEvents PgWire.
Import Pid PgState PgRetry PgService PgMembers PgEvents PgWire.

Module PgCluster.

(** ** Steps of one service *)

Section node.
Context (shuffle : ∀ A, list A → list A) (victim : gmap string circuitBreaker → string) (c : config).
Hypothesis shuffle_perm : ∀ A l, shuffle A l ≡ₚ l.
Hypothesis node_named : localNodeID c ≠ "".

Notation step := (step shuffle victim c).
Notation sound := (sound c).
Notation good := (good c).

Lemma submits_keep l s : let s' := foldl (λ s a, (submit c s a).1) s l in st s' = st s ∧ nt s' = nt s ∧ retrying s' = retrying s ∧ running s' = running s.
Proof.
  revert s. induction l as [|a l IH]; intros s; cbn [foldl]; [done|]. destruct (IH (submit c s a).1) as (E1 & E2 & E3 & E4). cbn zeta in *. rewrite E1, E2, E3, E4. unfold submit. by case_bool_decide.
Qed.

Lemma start_submits e rand s : Start c e rand true s =
  foldl (λ s a, (submit c s a).1) (set_nt (set_running s true) (set_stopped (nt s) false)) (DoSendDiscover <$> pickInitialDiscoverTargets rand (membershipAlivePeers c e) initialDiscoverFanOut).
Proof. unfold Start. cbn [negb]. generalize (set_nt (set_running s true) (set_stopped (nt s) false)) (pickInitialDiscoverTargets rand (membershipAlivePeers c e) initialDiscoverFanOut). clear. intros s l. revert s. induction l as [|x l IH]; intros s; cbn; [done|apply IH]. Qed.

Lemma ready_ok now q : Forall (entry_ok c) (entries q) → let '(r, q') := ready now q in Forall (entry_ok c) r ∧ Forall (entry_ok c) (entries q').
Proof.
  intros H. unfold ready. pose proof (take_ready_perm (length (entries q)) now (entries q)) as HP. destruct (take_ready _ _ _) as [r l]. rewrite HP in H. by apply Forall_app in H.
Qed.

Lemma sendToMembers_good e from topic members n : good n → good (sendToMembers victim e from topic members n).1.
Proof.
  revert n. induction members as [|p members IH]; intros n Hn; cbn [sendToMembers]; [done|]. destruct (GetCircuitBreaker _ _ _) as [t cb]. destruct (_ && _); [done|].
  pose proof (send_good victim c e false (Node p) (Deliver from p topic) n Hn (λ _, I)) as Hs. destruct (send _ _ _ _ _ _) as [n1 o1]. specialize (IH n1 Hs). by destruct (sendToMembers _ _ _ _ _ _) as [n2 k].
Qed.

Lemma submits_queue l s : ∃ k, sublist k l ∧ actions (foldl (λ s a, (submit c s a).1) s l) = actions s ++ k.
Proof.
  revert s. induction l as [|a l IH]; intros s; cbn [foldl]; [exists []; by rewrite app_nil_r|]. destruct (IH (submit c s a).1) as (k & Hk & E). unfold submit in E |- *. case_bool_decide; cbn [fst] in *.
  - exists (a :: k). split; [by apply sublist_skip|]. rewrite E. cbn. by rewrite <- app_assoc.
  - exists k. split; [by apply sublist_cons|done].
Qed.

(** Everything but the queue is as before. *)
Lemma submits_sound l s : good (nt s) → Forall (entry_ok c) (retrying s) → Forall (aims c) (actions s) → Forall (aims c) l →
  let s' := foldl (λ s a, (submit c s a).1) s l in good (nt s') ∧ Forall (entry_ok c) (retrying s') ∧ Forall (aims c) (actions s').
Proof.
  intros Hn Hr Ha Hl. destruct (submits_keep l s) as (_ & E2 & E3 & _). destruct (submits_queue l s) as (k & Hk & E). cbn zeta. rewrite E2, E3, E. split_and!; [done..|]. apply Forall_app. split; [done|]. apply Forall_forall. intros x Hx.
  apply (proj1 (Forall_forall _ _) Hl). by eapply elem_of_sublist.
Qed.

Lemma dispatch_aims m : Forall (aims c) (dispatch m).
Proof.
  apply Forall_forall. intros x Hx. unfold dispatch in Hx. destruct (Topic m) as [[]| |]; [unfold handleDiscoverPackage in Hx|unfold handleSyncPackage in Hx|unfold handleJoinPackage in Hx|unfold handleLeavePackage in Hx|unfold handleExitPackage in Hx|by apply elem_of_nil in Hx].
  5: { apply list_elem_of_omap in Hx as (d & _ & Hx). destruct d; try done. by injection Hx as <-. }
  all: destruct (Payloads m) as [|[] ?]; cbn zeta in Hx; repeat case_bool_decide; first [by apply elem_of_nil in Hx|by apply list_elem_of_singleton in Hx as ->].
Qed.

Lemma targets_picked rand e n : n ∈ pickInitialDiscoverTargets rand (membershipAlivePeers c e) initialDiscoverFanOut → n ≠ localNodeID c.
Proof.
  intros Hn. assert (n ∈ membershipAlivePeers c e) as [H _]%list_elem_of_filter; [|done]. unfold pickInitialDiscoverTargets in Hn. case_bool_decide; [done|]. apply elem_of_take in Hn as (i & Hi & _). apply list_elem_of_lookup_2 in Hi.
  revert Hi. assert (∀ k i l, partial_shuffle rand i k l ≡ₚ l) as HP; [|by rewrite HP]. induction k as [|k IH]; intros j l; cbn [partial_shuffle]; [done|]. by rewrite IH, swap_perm.
Qed.

Lemma step_sound s l : sound s → admissible s l → sound (step s l).1.
Proof.
  intros (Hs & Hn & Hr & Hq) Ha. pose proof (gr_ok _ _ (step_grows_service shuffle victim c shuffle_perm s l Hs Ha)) as Hs'. split; [exact Hs'|]. clear Hs'.
  destruct l as [e rand []|a|ms|node|node|e|e|e|e from topic members]; cbn [PgService.step] in *.
  - rewrite start_submits. cbn [fst]. apply submits_sound; [done..|]. apply Forall_fmap, Forall_forall. intros n. apply targets_picked.
  - done.
  - assert (Forall (aims c) [a]) as Haim by (apply Forall_singleton; destruct Ha as [Hc _]; by destruct a). pose proof (submits_sound [a] s Hn Hr Hq Haim) as H. cbn [foldl] in H. by destruct (submit c s a).
  - cbn [fst]. apply submits_sound; [done..|]. clear Ha. induction ms as [|m ms IH]; cbn; [constructor|]. apply Forall_app. split; [apply dispatch_aims|done].
  - unfold handleNodeJoinedEvent. case_bool_decide; cbn [fst]; [done|]. apply (submits_sound [DoNodeJoined node] s); [done..|]. by apply Forall_singleton.
  - unfold handleNodeLeftEvent. case_bool_decide; cbn [fst]; [done|]. apply (submits_sound [DoNodeLeft node] s); [done..|]. by apply Forall_singleton.
  - destruct (actions s) as [|a rest] eqn:E; [cbn [fst]; by rewrite E|]. destruct (running s); [|cbn [fst]; by rewrite E]. pose proof (sv_actions s Hs) as HA. rewrite E in HA. apply Forall_cons in HA as [Ha1 Ha2]. apply Forall_cons in Hq as [Hq1 Hq2]. cbn [admissible] in Ha. rewrite E in Ha.
    assert (service_ok (set_actions s rest)) as Hs' by (destruct Hs; by split). pose proof (perform_advances shuffle victim c shuffle_perm e _ a Hs' Ha1 Ha) as HP. split; [by apply perform_good|]. by rewrite (ad_retrying _ _ HP), (ad_actions _ _ HP).
  - destruct (running s); [|done]. unfold processRetries. pose proof (ready_ok (clock e (log (nt s))) (retries (nt s)) (proj2 Hn)) as H. destruct (ready _ _) as [r q]. destruct H as [H1 H2]. cbn. split_and!; [by split; [apply Hn|]|by apply Forall_app|done].
  - destruct (retrying s) as [|r rest] eqn:E; [cbn [fst]; by rewrite E|]. apply Forall_cons in Hr as [Hr1 Hr2]. split_and!; [|done..]. by apply attemptRetry_good.
  - split_and!; [by apply sendToMembers_good|done..].
Qed.

(** *** The sending side *)

Definition knows (b : string) (l : label) : Prop := match l with LWork e => b ∈ nodes e | _ => True end.

(** The step does not repeat an announcement to the node. *)
Definition repeats (b : string) (s : Service) (l : label) : bool :=
  match l, retrying s with
  | LRetry _, r :: _ => bool_decide (targetNode r = b) && match rtopic r with TopicJoin | TopicLeave => true | _ => false end
  | _, _ => false
  end.

Lemma resend_told e r data n b : targetNode r ≠ b → adds (told_item b) n (resend victim e r data n) [].
Proof.
  intros Hb. unfold resend. destruct (send_log victim e true (targetNode r) (Protocol (targetNode r) (rtopic r) data) n) as [o Ho]. assert (told_item b (Attempt (Protocol (targetNode r) (rtopic r) data) o) = None) as E by (cbn; by rewrite bool_decide_eq_false_2).
  destruct (send _ _ _ _ _ _) as [n' o']. cbn [fst] in Ho. destruct o'; [by eapply single_add|]. destruct (failed _); by eapply single_add.
Qed.

Lemma sendToMembers_told e from topic members n b : adds (told_item b) n (sendToMembers victim e from topic members n).1 [].
Proof.
  revert n. induction members as [|p members IH]; intros n; cbn [sendToMembers]; [by apply adds_nil|]. destruct (GetCircuitBreaker _ _ _) as [t cb]. destruct (_ && _); [by apply adds_nil|].
  destruct (send_log victim e false (Node p) (Deliver from p topic) n) as [o Ho]. destruct (send _ _ _ _ _ _) as [n1 o1]. specialize (IH n1). destruct (sendToMembers _ _ _ _ _ _) as [n2 k]. cbn [fst] in *.
  eapply (adds_trans _ _ _ _ [] []); [by eapply single_add|done].
Qed.

Lemma still_announces b s s' : st s' = st s → log (nt s') = log (nt s) → announces b (st s) (nt s) (st s') (nt s').
Proof. intros E1 E2. apply announces_quiet; [by apply adds_nil|]. intros h. by rewrite E1. Qed.

Lemma attemptRetry_announces b e r x n : b ≠ localNodeID c → (targetNode r = b → rtopic r = TopicDiscover ∨ rtopic r = TopicSync) → announces b x n x (attemptRetry shuffle victim c e r n).
Proof.
  intros Hb Hr. unfold attemptRetry. pose proof (ask_log victim e (targetNode r) n) as Hq. destruct (rtopic r) eqn:E.
  - destruct (ask _ _ _ _) as [n' []]; cbn [fst] in Hq; [|apply announces_quiet; [by apply adds_nil|done]]. apply (discover_announced victim c node_named). apply announces_quiet; [by apply adds_nil|done].
  - destruct (ask _ _ _ _) as [n' []]; cbn [fst] in Hq; apply announces_quiet; try done; by apply adds_nil.
  - apply announces_quiet; [|done]. apply resend_told. intros Hx. destruct (Hr Hx); congruence.
  - apply announces_quiet; [|done]. apply resend_told. intros Hx. destruct (Hr Hx); congruence.
Qed.

Lemma step_announces b s l : sound s → admissible s l → b ≠ localNodeID c → knows b l → repeats b s l = false →
  announces b (st s) (nt s) (st (step s l).1) (nt (step s l).1).
Proof.
  intros (Hs & Hn & Hr & _) Ha Hb Hk Hrep. destruct l as [e rand []|a|ms|node|node|e|e|e|e from topic members]; cbn [PgService.step knows repeats] in *.
  - rewrite start_submits. cbn [fst]. destruct (submits_keep (DoSendDiscover <$> pickInitialDiscoverTargets rand (membershipAlivePeers c e) initialDiscoverFanOut) (set_nt (set_running s true) (set_stopped (nt s) false))) as (E1 & E2 & _). apply still_announces; by rewrite ?E1, ?E2.
  - by apply still_announces.
  - pose proof (submits_keep [a] s) as (E1 & E2 & _). cbn in E1, E2. destruct (submit c s a). cbn [fst] in *. apply still_announces; by rewrite ?E1, ?E2.
  - cbn [fst]. unfold Send. destruct (submits_keep (ms ≫= dispatch) s) as (E1 & E2 & _). apply still_announces; by rewrite ?E1, ?E2.
  - unfold handleNodeJoinedEvent. case_bool_decide; cbn [fst]; [by apply still_announces|]. destruct (submits_keep [DoNodeJoined node] s) as (E1 & E2 & _). cbn [foldl] in E1, E2. apply still_announces; by rewrite ?E1, ?E2.
  - unfold handleNodeLeftEvent. case_bool_decide; cbn [fst]; [by apply still_announces|]. destruct (submits_keep [DoNodeLeft node] s) as (E1 & E2 & _). cbn [foldl] in E1, E2. apply still_announces; by rewrite ?E1, ?E2.
  - destruct (actions s) as [|a rest] eqn:E; [by apply still_announces|]. destruct (running s); [|by apply still_announces]. pose proof (sv_actions s Hs) as HA. rewrite E in HA. apply Forall_cons in HA as [Ha1 Ha2].
    assert (service_ok (set_actions s rest)) as Hs' by (destruct Hs; by split). by apply (perform_announces shuffle victim c shuffle_perm node_named e b Hk Hb (set_actions s rest) a Hs' Ha1).
  - destruct (running s); [|by apply still_announces]. unfold processRetries. destruct (ready _ _) as [r q]. by apply still_announces.
  - destruct (retrying s) as [|r rest]; [by apply still_announces|]. cbn. apply attemptRetry_announces; [done|]. intros Hx. rewrite bool_decide_eq_true_2 in Hrep by done. destruct (rtopic r); [by left|by right|done..].
  - apply announces_quiet; [apply sendToMembers_told|done].
Qed.

(** *** The log only grows *)

Definition extends (n n' : net) : Prop := ∃ out, log n' = log n ++ out.

#[local] Instance extends_preorder : PreOrder extends.
Proof. split; [intros n; exists []; by rewrite app_nil_r|]. intros a b d [o1 E1] [o2 E2]. exists (o1 ++ o2). by rewrite E2, E1, app_assoc. Qed.

Lemma adds_extends {X} (f : effect → option X) n n' xs : adds f n n' xs → extends n n'.
Proof. intros (out & E & _). by exists out. Qed.

Lemma told_extends b n n' xs : adds (told_item b) n n' xs → extends n n'.
Proof. apply adds_extends. Qed.

Lemma broadcast_extends e x js n : extends n (broadcastJoin shuffle victim c e x js n) ∧ extends n (broadcastLeave shuffle victim c e x js n).
Proof. destruct (broadcast_quiet shuffle victim c e x js (mkEntry Zero "" 0) "" n) as [H1 H2]. split; by eapply adds_extends. Qed.

Lemma watch_extends p n : extends n (monitorProcess p n) ∧ extends n (demonitorProcess p n).
Proof. destruct (watch_told "" p n) as [H1 H2]. split; by eapply adds_extends. Qed.

Lemma emit_extends e mons k g pids n : extends n (deliverMonitorEventWithCircuitBreaker victim e mons k g pids n).
Proof. eapply (told_extends ""), emit_told. Qed.

Lemma discover_extends e node n n' : extends n n' → extends n (sendDiscover victim c e node n').
Proof. intros H. etrans; [exact H|]. destruct (sendDiscover_log victim c e node n') as [o Ho]. by exists [Attempt (Protocol node TopicDiscover (discover_data c)) o]. Qed.

Lemma sync_extends e x node n : extends n (sendSync shuffle victim c e x node n).
Proof. destruct (send_log victim e true node (Protocol node TopicSync (sync_data shuffle c x)) n) as [o Ho]. eexists. exact Ho. Qed.

Lemma stop_extends x p n : extends n (stop_watching x p n).
Proof. eapply (told_extends ""). by apply stop_watching_adds. Qed.

Lemma perform_extends e s a : service_ok s → action_ok a → extends (nt s) (nt (perform shuffle victim c e s a).1).
Proof.
  intros Hs Ha. pose proof (sv_state s Hs) as Hx. destruct a; cbn [perform fst action_ok] in *.
  - unfold Join. cbn zeta. do 2 early_return. cbn. etrans; [|apply emit_extends]. etrans; [|apply broadcast_extends]. destruct (hasGroupMemberships s p); [done|apply watch_extends].
  - unfold JoinGroups. do 2 early_return. pose proof (joined_all victim e (monitors s) p gs (st s) ∅ (nt s) Hx Ha) as HJ.
    destruct (foldl _ _ gs) as [[x joins] n]. destruct HJ. cbn. transitivity n; [by eapply (told_extends "")|]. transitivity (broadcastJoin shuffle victim c e x joins n); [apply broadcast_extends|]. destruct (hasGroupMemberships s p); [done|apply watch_extends].
  - unfold Leave. destruct (leaveLocal (st s) g p) as [x []]; cbn; [|done]. etrans; [|apply emit_extends]. etrans; [|apply broadcast_extends]. apply stop_extends.
  - unfold LeaveGroups. pose proof (left_all victim e (monitors s) p gs (st s) ∅ (nt s) Hx Ha) as HL. destruct (foldl _ _ gs) as [[x leaves] n]. destruct HL as (gs' & [] & _). case_bool_decide; cbn; [done|].
    transitivity n; [by eapply (told_extends "")|]. etrans; [|apply stop_extends]. apply broadcast_extends.
  - cbn. apply watch_extends.
  - cbn. apply watch_extends.
  - unfold Unsubscribe. destruct (_ && _); [apply watch_extends|done].
  - done.
  - done.
  - cbn. unfold handleDiscover. case_bool_decide; [done|]. destruct (remote (st s) !! from); cbn; [apply sync_extends|apply discover_extends, sync_extends].
  - cbn. etrans; eapply (told_extends ""), emit_diff_told.
  - cbn. eapply (told_extends ""), fold_quiet. intros s' gp. apply emit_told.
  - cbn. eapply (told_extends ""), fold_quiet. intros s' gp. unfold handleRemoteLeave. destruct (leaveRemote _ _ _ _). apply emit_all_told.
  - cbn. unfold handleProcessExit. destruct (leaveAllLocal (st s) p) as [x gs]. cbn. case_bool_decide; [done|]. etrans; [apply broadcast_extends|eapply (told_extends ""), emit_all_told].
  - unfold handleNodeJoined. destruct (GetCircuitBreaker _ _ _) as [m cb]. cbn. apply discover_extends. exists []. by rewrite app_nil_r.
  - cbn. unfold handleNodeLeft. cbn. eapply (told_extends ""). eapply (adds_trans _ _ (mkNet (RemoveCircuitBreaker (cbManager (nt s)) node) (retries (nt s)) (log (nt s))) _ [] []); [by apply adds_nil|]. unfold removeMonitorsByNode. case_bool_decide; apply emit_all_told.
  - unfold reconcileOnce. destruct (_ !! _) as [target|]; [|done]. cbn. apply sync_extends.
  - cbn. by apply discover_extends.
Qed.

Lemma step_extends s l : service_ok s → extends (nt s) (nt (step s l).1).
Proof.
  intros Hs. assert (∀ n : net, log n = log (nt s) → extends (nt s) n) as HE by (intros n E; exists []; by rewrite E, app_nil_r).
  destruct l as [e rand []|a|ms|node|node|e|e|e|e from topic members]; cbn [PgService.step].
  - rewrite start_submits. cbn [fst]. destruct (submits_keep (DoSendDiscover <$> pickInitialDiscoverTargets rand (membershipAlivePeers c e) initialDiscoverFanOut) (set_nt (set_running s true) (set_stopped (nt s) false))) as (_ & E2 & _). apply HE. by rewrite E2.
  - by apply HE.
  - pose proof (submits_keep [a] s) as (_ & E2 & _). cbn in E2. destruct (submit c s a). cbn [fst] in *. apply HE. by rewrite E2.
  - cbn [fst]. unfold Send. destruct (submits_keep (ms ≫= dispatch) s) as (_ & E2 & _). apply HE. by rewrite E2.
  - unfold handleNodeJoinedEvent. case_bool_decide; cbn [fst]; [done|]. destruct (submits_keep [DoNodeJoined node] s) as (_ & E2 & _). cbn [foldl] in E2. apply HE. by rewrite E2.
  - unfold handleNodeLeftEvent. case_bool_decide; cbn [fst]; [done|]. destruct (submits_keep [DoNodeLeft node] s) as (_ & E2 & _). cbn [foldl] in E2. apply HE. by rewrite E2.
  - destruct (actions s) as [|a rest] eqn:E; [done|]. destruct (running s); [|done]. pose proof (sv_actions s Hs) as HA. rewrite E in HA. apply Forall_cons in HA as [Ha1 Ha2].
    assert (service_ok (set_actions s rest)) as Hs' by (destruct Hs; by split). by apply (perform_extends e (set_actions s rest) a).
  - destruct (running s); [|done]. unfold processRetries. destruct (ready _ _) as [r q]. by apply HE.
  - destruct (retrying s) as [|r rest]; [done|]. eapply adds_extends, (attemptRetry_quiet shuffle victim c e r (nt s) (mkEntry Zero "" 0) "").
  - eapply (told_extends ""), sendToMembers_told.
Qed.

(** *** The receiving side *)

(** What the service will have of a node when its queue is worked off *)
Definition awaited (a : string) (s : Service) : string → list PID := absorb (view (st s) a) (base.filter (λ act, sender act = Some a) (actions s)).

(** The step removes the node. *)
Definition forgets (a : string) (s : Service) (l : label) : bool :=
  match l, actions s with LWork _, DoNodeLeft n :: _ => bool_decide (n = a) | _, _ => false end.

Lemma submits_awaited a l s : Forall (λ act, sender act ≠ Some a) l → same (awaited a (foldl (λ s a, (submit c s a).1) s l)) (awaited a s).
Proof.
  intros Hl. destruct (submits_queue l s) as (k & Hk & E). destruct (submits_keep l s) as (E1 & _). unfold awaited. rewrite E, E1, filter_app. assert (base.filter (λ act, sender act = Some a) k = []) as ->; [|by rewrite app_nil_r].
  apply elem_of_nil_inv. intros x [Hx Hin]%list_elem_of_filter. apply (proj1 (Forall_forall _ _) Hl x); [by eapply elem_of_sublist|done].
Qed.

Definition own (l : label) : Prop := match l with LReceive ms => Forall (λ m, Topic m = TopicEvents) ms | _ => True end.

Lemma exits_no_sender ms : Forall (λ m, Topic m = TopicEvents) ms → Forall (λ act, sender act = None) (ms ≫= dispatch).
Proof.
  induction 1 as [|m ms Hm Hms IH]; cbn; [constructor|]. apply Forall_app. split; [|done]. unfold dispatch. rewrite Hm. unfold handleExitPackage. apply Forall_forall. intros x (d & _ & Hx)%list_elem_of_omap. destruct d; [done| |done]. by injection Hx as <-.
Qed.

Lemma step_awaited a s l : sound s → admissible s l → own l → forgets a s l = false → same (awaited a (step s l).1) (awaited a s).
Proof.
  intros (Hs & Hn & Hr & _) Ha Ho Hf. destruct l as [e rand []|act|ms|node|node|e|e|e|e from topic members]; cbn [PgService.step own forgets] in *.
  - rewrite start_submits. cbn [fst]. etrans; [apply submits_awaited|done]. by apply Forall_fmap, Forall_forall.
  - done.
  - pose proof (submits_awaited a [act] s) as H. cbn in H. destruct (submit c s act). cbn [fst] in *. apply H. constructor; [|done]. destruct Ha as [Hc _]. by destruct act.
  - cbn [fst]. apply submits_awaited. eapply Forall_impl; [by apply exits_no_sender|]. by intros x ->.
  - unfold handleNodeJoinedEvent. case_bool_decide; cbn [fst]; [done|]. apply (submits_awaited a [DoNodeJoined node] s). by repeat constructor.
  - unfold handleNodeLeftEvent. case_bool_decide; cbn [fst]; [done|]. apply (submits_awaited a [DoNodeLeft node] s). by repeat constructor.
  - destruct (actions s) as [|act rest] eqn:E; [done|]. destruct (running s); [|done]. pose proof (sv_actions s Hs) as HA. rewrite E in HA. apply Forall_cons in HA as [Ha1 Ha2]. cbn [admissible] in Ha. rewrite E in Ha.
    assert (service_ok (set_actions s rest)) as Hs' by (destruct Hs; by split). pose proof (perform_view shuffle victim c shuffle_perm e _ a act Hs' Ha1) as HV. unfold awaited.
    rewrite (ad_actions _ _ (perform_advances shuffle victim c shuffle_perm e _ act Hs' Ha1 Ha)). cbn [actions set_actions]. rewrite E, filter_cons. etrans; [apply absorb_same; exact HV|]. unfold heard. cbn [st set_actions].
    case_decide as Hsn; [by rewrite bool_decide_eq_true_2|]. rewrite bool_decide_eq_false_2 by done. destruct act; try done. by rewrite Hf.
  - destruct (running s); [|done]. unfold processRetries. by destruct (ready _ _) as [r q].
  - by destruct (retrying s) as [|r rest].
  - done.
Qed.

(** A node that never announces anything *)
Definition unheard (n : string) (s : Service) : Prop := (∀ h, view (st s) n h = []) ∧ Forall (λ act, sender act ≠ Some n) (actions s).

Lemma submits_unheard n l s : unheard n s → Forall (λ act, sender act ≠ Some n) l → unheard n (foldl (λ s a, (submit c s a).1) s l).
Proof.
  intros [H1 H2] Hl. destruct (submits_queue l s) as (k & Hk & E). destruct (submits_keep l s) as (E1 & _). unfold unheard. rewrite E, E1. split; [done|]. apply Forall_app. split; [done|]. apply Forall_forall. intros x Hx.
  apply (proj1 (Forall_forall _ _) Hl). by eapply elem_of_sublist.
Qed.

Lemma step_unheard n s l : sound s → admissible s l → own l → unheard n s → unheard n (step s l).1.
Proof.
  intros (Hs & Hn & Hr & _) Ha Ho [H1 H2]. destruct l as [e rand []|act|ms|node|node|e|e|e|e from topic members]; cbn [PgService.step own] in *.
  - rewrite start_submits. cbn [fst]. apply submits_unheard; [done|]. by apply Forall_fmap, Forall_forall.
  - done.
  - pose proof (submits_unheard n [act] s (conj H1 H2)) as H. cbn in H. destruct (submit c s act). apply H, Forall_singleton. destruct Ha as [Hc _]. by destruct act.
  - cbn [fst]. apply submits_unheard; [done|]. eapply Forall_impl; [by apply exits_no_sender|]. by intros x ->.
  - unfold handleNodeJoinedEvent. case_bool_decide; cbn [fst]; [done|]. apply (submits_unheard n [DoNodeJoined node] s); [done|by apply Forall_singleton].
  - unfold handleNodeLeftEvent. case_bool_decide; cbn [fst]; [done|]. apply (submits_unheard n [DoNodeLeft node] s); [done|by apply Forall_singleton].
  - destruct (actions s) as [|act rest] eqn:E; [split; [done|cbn [fst]; by rewrite E]|]. destruct (running s); [|split; [done|cbn [fst]; by rewrite E]]. pose proof (sv_actions s Hs) as HA. rewrite E in HA. apply Forall_cons in HA as [Ha1 Ha2]. apply Forall_cons in H2 as [Hsn H2].
    cbn [admissible] in Ha. rewrite E in Ha. assert (service_ok (set_actions s rest)) as Hs' by (destruct Hs; by split). pose proof (perform_view shuffle victim c shuffle_perm e _ n act Hs' Ha1) as HV.
    unfold unheard. rewrite (ad_actions _ _ (perform_advances shuffle victim c shuffle_perm e _ act Hs' Ha1 Ha)). split; [|done]. intros h. specialize (HV h). unfold heard in HV. rewrite bool_decide_eq_false_2 in HV by done.
    apply Permutation_nil_r. rewrite HV. destruct act; cbn [st set_actions]; try (by rewrite H1). case_bool_decide; [done|by rewrite H1].
  - destruct (running s); [|done]. unfold processRetries. by destruct (ready _ _) as [r q].
  - by destruct (retrying s) as [|r rest].
  - done.
Qed.

End node.

(** ** The cluster *)

Record cluster := mkCluster { services : gmap string Service; wires : gmap (string * string) (list (topic * payload_map)) }.

(** A node makes a step, a package arrives, or a package is lost. *)
Inductive event := At (n : string) (l : label) | Transfer (a b : string) | Lose (a b : string).

Definition wire (cl : cluster) (a b : string) : list (topic * payload_map) := default [] (wires cl !! (a, b)).

(** Packages that the router accepted are under way. *)
Definition posted (a : string) (ws : gmap (string * string) (list (topic * payload_map))) (x : effect) : gmap (string * string) (list (topic * payload_map)) :=
  match x with
  | Attempt (Protocol b t data) (Tried None) => <[(a, b) := default [] (ws !! (a, b)) ++ [(t, data)]]> ws
  | _ => ws
  end.

Definition new_effects (s s' : Service) : list effect := drop (length (log (nt s))) (log (nt s')).

(** The full state is sent to a node. *)
Definition is_sync (b : string) (x : effect) : bool := match x with Attempt (Protocol n TopicSync _) _ => bool_decide (n = b) | _ => false end.

(** What holds of the service of a node, if there is one *)
Definition at_node (cl : cluster) (n : string) (P : Service → Prop) : Prop := match services cl !! n with Some s => P s | None => True end.

Lemma at_node_elim cl n P s : at_node cl n P → services cl !! n = Some s → P s.
Proof. unfold at_node. intros H E. by rewrite E in H. Qed.

Section cluster.

(** Each node with its own configuration and order of maps *)
Context (shuffle : string → ∀ A, list A → list A) (victim : string → gmap string circuitBreaker → string) (conf : string → config).
Hypothesis shuffle_perm : ∀ n A l, shuffle n A l ≡ₚ l.
Hypothesis conf_node : ∀ n, localNodeID (conf n) = n.

Definition node_step (n : string) (s : Service) (l : label) : Service := (step (shuffle n) (victim n) (conf n) s l).1.

Definition cstep (cl : cluster) (ev : event) : cluster :=
  match ev with
  | At n l =>
      match services cl !! n with
      | Some s => let s' := node_step n s l in mkCluster (<[n := s']> (services cl)) (foldl (posted n) (wires cl) (new_effects s s'))
      | None => cl
      end
  | Transfer a b =>
      match wire cl a b, services cl !! b with
      | p :: rest, Some s => mkCluster (<[b := Send (conf b) s [as_message p]]> (services cl)) (<[(a, b) := rest]> (wires cl))
      | _, _ => cl
      end
  | Lose a b => mkCluster (services cl) (<[(a, b) := tail (wire cl a b)]> (wires cl))
  end.

Definition start (ns : gset string) : cluster := mkCluster (set_to_map (λ n, (n, NewService (conf n))) ns) ∅.

Definition allowed (cl : cluster) (ev : event) : Prop :=
  match ev with At n l => at_node cl n (λ s, admissible s l ∧ own l) | _ => True end.

Fixpoint crun (cl : cluster) (evs : list event) : cluster := match evs with [] => cl | ev :: evs => crun (cstep cl ev) evs end.

Fixpoint allowed_run (cl : cluster) (evs : list event) : Prop := match evs with [] => True | ev :: evs => allowed cl ev ∧ allowed_run (cstep cl ev) evs end.

(** *** Invariant *)

Record cluster_ok (cl : cluster) : Prop := {
  ck_services n s : services cl !! n = Some s → n ≠ "" ∧ sound (conf n) s;
  ck_wires a b p : p ∈ wire cl a b → Forall (from_here (conf a)) (understood p)
}.

Lemma posted_wire n out ws a b : default [] (foldl (posted n) ws out !! (a, b)) =
  default [] (ws !! (a, b)) ++ (if decide (n = a) then omap (λ x, if delivered x then told_item b x else None) out else []).
Proof.
  revert ws. induction out as [|x out IH]; intros ws; cbn [foldl]; [case_decide; cbn; by rewrite app_nil_r|]. rewrite IH. destruct x as [[n' t data|m k g pids|from to t] [|[err|]]|p|p]; cbn [posted]; try (case_decide; cbn; done).
  destruct (decide ((n, n') = (a, b))) as [[= -> ->]|Hne].
  - rewrite lookup_insert_eq. cbn. rewrite !decide_True, (bool_decide_eq_true_2 (b = b)) by done. by rewrite <- app_assoc.
  - rewrite lookup_insert_ne by done. case_decide; [|done]. subst. cbn. by rewrite bool_decide_eq_false_2 by congruence.
Qed.

Lemma step_log n s l : sound (conf n) s → log (nt (node_step n s l)) = log (nt s) ++ new_effects s (node_step n s l).
Proof. intros [Hs _]. destruct (step_extends (shuffle n) (victim n) (conf n) s l Hs) as [out E]. unfold new_effects, node_step. by rewrite E, drop_app_length. Qed.

Lemma lookup_wire cl a b : wire cl a b = default [] (wires cl !! (a, b)).
Proof. done. Qed.

Lemma At_wire cl n l s a b : services cl !! n = Some s → wire (cstep cl (At n l)) a b =
  wire cl a b ++ (if decide (n = a) then omap (λ x, if delivered x then told_item b x else None) (new_effects s (node_step n s l)) else []).
Proof. intros E. unfold cstep. rewrite E. apply posted_wire. Qed.

Lemma posted_ok n l s b p : sound (conf n) s → n ≠ "" → admissible s l →
  p ∈ omap (λ x, if delivered x then told_item b x else None) (new_effects s (node_step n s l)) → Forall (from_here (conf n)) (understood p).
Proof.
  intros Hs Hn Ha (x & Hx & Hp)%list_elem_of_omap. assert (sound (conf n) (node_step n s l)) as (_ & [HG _] & _) by (apply step_sound; [apply shuffle_perm|by rewrite conf_node|done..]).
  rewrite step_log in HG by done. apply Forall_app in HG as [_ HG]. rewrite Forall_forall in HG. specialize (HG x Hx). destruct (delivered x); [|done]. destruct x as [[n' t data|m k g pids|from to t] o|q|q]; try done. cbn in Hp. case_bool_decide; [|done]. injection Hp as <-. apply HG.
Qed.

Lemma Transfer_sound b s p a : sound (conf b) s → b ≠ "" → Forall (from_here (conf a)) (understood p) → sound (conf b) (Send (conf b) s [as_message p]).
Proof.
  intros Hs Hb Hp. apply (step_sound (shuffle b) (victim b) (conf b) (shuffle_perm b)) with (l := LReceive [as_message p]) in Hs; [exact Hs|by rewrite conf_node|]. cbn. rewrite app_nil_r. eapply Forall_impl; [exact Hp|]. by intros x [_ H].
Qed.

Lemma cstep_ok cl ev : cluster_ok cl → allowed cl ev → cluster_ok (cstep cl ev).
Proof.
  intros [H1 H2] Ha. destruct ev as [n l|a b|a b].
  - destruct (services cl !! n) as [s|] eqn:E; [|unfold cstep; rewrite E; by split]. destruct (H1 n s E) as [Hn Hs]. destruct (at_node_elim _ _ _ s Ha E) as [Had Ho]. split.
    + intros k s'. unfold cstep. rewrite E. cbn. intros [[<- <-]|[_ Hk]]%lookup_insert_Some; [|by apply H1]. split; [done|]. apply step_sound; [apply shuffle_perm|by rewrite conf_node|done..].
    + intros x b p. rewrite (At_wire cl n l s) by done. intros [Hp|Hp]%elem_of_app; [by eapply H2|]. case_decide; [|by apply elem_of_nil in Hp]. subst x. by eapply posted_ok.
  - unfold cstep. destruct (wire cl a b) as [|p rest] eqn:Ew; [by split|]. destruct (services cl !! b) as [s|] eqn:E; [|by split]. destruct (H1 b s E) as [Hb Hs]. assert (Forall (from_here (conf a)) (understood p)) as Hp by (apply (H2 a b); rewrite Ew; by left). split.
    + intros k s'. cbn. intros [[<- <-]|[_ Hk]]%lookup_insert_Some; [|by apply H1]. split; [done|by eapply Transfer_sound].
    + intros x y q. unfold wire. cbn. destruct (decide ((a, b) = (x, y))) as [[= <- <-]|Hne]; [rewrite lookup_insert_eq|rewrite lookup_insert_ne by done; apply H2]. cbn. intros Hq. apply (H2 a b). rewrite Ew. by right.
  - split; cbn; [done|]. intros x y q. unfold wire at 1. cbn. destruct (decide ((a, b) = (x, y))) as [[= <- <-]|Hne]; [rewrite lookup_insert_eq|rewrite lookup_insert_ne by done; apply H2]. cbn. intros Hq. apply (H2 a b). destruct (wire cl a b); [done|by right].
Qed.

(** *** Two nodes in step *)

(** What a node has of another one, once all that is queued and under way has been worked
    off, is what that one's processes have joined. *)
Definition in_step (cl : cluster) (a b : string) : Prop :=
  ∃ sa sb, services cl !! a = Some sa ∧ services cl !! b = Some sb ∧ same (absorb (awaited a sb) (wire cl a b ≫= understood)) (local_members (st sa)).

(** Nothing between the two nodes is lost, refused or repeated: the first one knows the
    other as a member of the cluster and its packages are accepted, the other one has room
    for them and does not hear that the first one left. *)
Definition smooth (cl : cluster) (a b : string) (ev : event) : Prop :=
  match ev with
  | At n l =>
      (n = a → at_node cl a (λ s, knows b l ∧ repeats b s l = false ∧ Forall (λ x, is_Some (told_item b x) → delivered x = true) (new_effects s (node_step a s l)))) ∧
      (n = b → at_node cl b (λ s, forgets a s l = false))
  | Transfer x y => x = a → y = b → at_node cl b (λ s, (length (actions s) < actionQueueMaxSize (conf b))%nat)
  | Lose x y => ¬ (x = a ∧ y = b)
  end.

(** The step sends the full state to the other node. *)
Definition syncs (cl : cluster) (a b : string) (ev : event) : Prop :=
  match ev with
  | At n l => n = a ∧ match services cl !! a with Some s => Exists (λ x, is_sync b x = true) (new_effects s (node_step a s l)) | None => False end
  | _ => False
  end.

Lemma all_delivered b (out : list effect) : Forall (λ x, is_Some (told_item b x) → delivered x = true) out → omap (λ x, if delivered x then told_item b x else None) out = omap (told_item b) out.
Proof.
  induction 1 as [|x out Hx Hout IH]; [done|]. cbn. rewrite IH. destruct (told_item b x) eqn:E; [|by destruct (delivered x)]. by rewrite Hx.
Qed.

Lemma absorb_app v l l' : absorb v (l ++ l') = absorb (absorb v l) l'.
Proof. apply foldl_app. Qed.

(** The packages of a smooth step of the sender *)
Lemma sender_wire cl a b l s : cluster_ok cl → services cl !! a = Some s → allowed cl (At a l) → a ≠ b → smooth cl a b (At a l) →
  ∃ ps, wire (cstep cl (At a l)) a b = wire cl a b ++ ps ∧ omap (told_item b) (new_effects s (node_step a s l)) = ps ∧
  same (absorb (local_members (st s)) (ps ≫= understood)) (local_members (st (node_step a s l))) ∧
  ((∃ data, (TopicSync, data) ∈ ps) → ∀ v, same (absorb v (ps ≫= understood)) (local_members (st (node_step a s l)))).
Proof.
  intros [H1 _] Es Ha Hne [Hsm _]. destruct (H1 a s Es) as [Hn Hs]. destruct (at_node_elim _ _ _ s Ha Es) as [Had _]. destruct (at_node_elim _ _ _ s (Hsm eq_refl) Es) as (Hk & Hr & Hd).
  assert (localNodeID (conf a) ≠ "") as Hnn by (by rewrite conf_node). assert (b ≠ localNodeID (conf a)) as Hb by (rewrite conf_node; congruence).
  destruct (step_announces (shuffle a) (victim a) (conf a) (shuffle_perm a) Hnn b s l Hs Had Hb Hk Hr) as (ps & (out & Eo & <-) & B & C).
  assert (new_effects s (node_step a s l) = out) as <-. { unfold new_effects, node_step. by rewrite Eo, drop_app_length. }
  eexists. split_and!; [|done|exact B|exact C]. rewrite (At_wire cl a l s) by done. by rewrite decide_True, all_delivered.
Qed.

Lemma sender_in_step cl a b l : cluster_ok cl → allowed cl (At a l) → a ≠ b → smooth cl a b (At a l) → in_step cl a b → in_step (cstep cl (At a l)) a b.
Proof.
  intros Hok Ha Hne Hsm (sa & sb & Ea & Eb & H). destruct (sender_wire cl a b l sa Hok Ea Ha Hne Hsm) as (ps & Ew & _ & B & _). exists (node_step a sa l), sb. split_and!.
  - unfold cstep. rewrite Ea. cbn. by rewrite lookup_insert_eq.
  - unfold cstep. rewrite Ea. cbn. by rewrite lookup_insert_ne.
  - rewrite Ew, bind_app, absorb_app. etrans; [apply absorb_same; exact H|exact B].
Qed.

Lemma syncs_in_step cl a b ev : cluster_ok cl → allowed cl ev → a ≠ b → smooth cl a b ev → syncs cl a b ev → is_Some (services cl !! b) → in_step (cstep cl ev) a b.
Proof.
  intros Hok Ha Hne Hsm Hsy [sb Eb]. destruct ev as [n l|x y|x y]; try done. destruct Hsy as [-> Hsy]. destruct (services cl !! a) as [s|] eqn:Ea; [|done]. apply Exists_exists in Hsy as (x & Hin & Hx). destruct x as [[n' [] data|m k g pids|from to t] o|q|q]; try done. apply bool_decide_eq_true in Hx as ->. destruct (sender_wire cl a b l s Hok Ea Ha Hne Hsm) as (ps & Ew & Eps & _ & C). exists (node_step a s l), sb. split_and!.
  - unfold cstep. rewrite Ea. cbn. by rewrite lookup_insert_eq.
  - unfold cstep. rewrite Ea. cbn. by rewrite lookup_insert_ne.
  - rewrite Ew, bind_app, absorb_app. apply C. exists data. rewrite <- Eps. apply list_elem_of_omap. eexists. split; [exact Hin|]. cbn. by rewrite bool_decide_eq_true_2.
Qed.

Lemma at_other cl a b n l : n ≠ a → (∀ s, services cl !! n = Some s → n = b → same (awaited a (node_step n s l)) (awaited a s)) → in_step cl a b → in_step (cstep cl (At n l)) a b.
Proof.
  intros Hna Hb (sa & sb & Ea & Eb & H). destruct (services cl !! n) as [s|] eqn:E; [|unfold cstep; rewrite E; by exists sa, sb]. pose proof (At_wire cl n l s a b E) as Ew. rewrite decide_False, app_nil_r in Ew by done.
  assert (services (cstep cl (At n l)) = <[n := node_step n s l]> (services cl)) as Es by (unfold cstep; by rewrite E). unfold in_step. rewrite Es, Ew. destruct (decide (n = b)) as [->|Hnb].
  - exists sa, (node_step b s l). rewrite lookup_insert_ne, lookup_insert_eq by done. split_and!; [done..|]. assert (sb = s) as -> by congruence. etrans; [|exact H]. apply absorb_same. by apply Hb.
  - exists sa, sb. by rewrite !lookup_insert_ne.
Qed.

Lemma understood_short p : (length (understood p) ≤ 1)%nat.
Proof.
  unfold understood, dispatch, as_message. destruct p as [[] data]; cbn [fst snd Topic]; [unfold handleDiscoverPackage|unfold handleSyncPackage|unfold handleJoinPackage|unfold handleLeavePackage]; cbn [Payloads]; cbn zeta; repeat case_bool_decide; cbn; lia.
Qed.

Lemma receive_awaited a b s p : Forall (from_here (conf a)) (understood p) → (length (actions s) < actionQueueMaxSize (conf b))%nat →
  same (awaited a (Send (conf b) s [as_message p])) (absorb (awaited a s) (understood p)).
Proof.
  intros Hp Hroom. unfold Send. cbn [mbind list_bind]. rewrite app_nil_r. fold (understood p). pose proof (understood_short p) as Hl. destruct (understood p) as [|act [|? ?]]; [done| |cbn in Hl; lia].
  apply Forall_singleton in Hp as [Hsn _]. rewrite conf_node in Hsn. cbn [foldl]. unfold submit. rewrite bool_decide_eq_true_2 by done. unfold awaited. cbn [fst st set_actions actions]. rewrite filter_app, filter_cons, decide_True, filter_nil by done. by rewrite absorb_app.
Qed.

Lemma transfer_in_step cl a b x y : cluster_ok cl → a ≠ b → smooth cl a b (Transfer x y) → in_step cl a b → in_step (cstep cl (Transfer x y)) a b.
Proof.
  intros [_ H2] Hne Hsm (sa & sb & Ea & Eb & H). unfold cstep. destruct (wire cl x y) as [|p rest] eqn:Ew; [by exists sa, sb|]. destruct (services cl !! y) as [s|] eqn:E; [|by exists sa, sb].
  assert (Forall (from_here (conf x)) (understood p)) as Hp by (apply (H2 x y); rewrite Ew; by left). unfold in_step, wire. cbn [services wires]. destruct (decide (y = b)) as [->|Hyb].
  - assert (sb = s) as -> by congruence. exists sa, (Send (conf b) s [as_message p]). rewrite lookup_insert_ne, lookup_insert_eq by done. split_and!; [done..|]. destruct (decide (x = a)) as [->|Hxa].
    + rewrite lookup_insert_eq. cbn. etrans; [apply absorb_same, receive_awaited; [done|by apply (at_node_elim _ _ _ s (Hsm eq_refl eq_refl))]|]. rewrite <- absorb_app. rewrite Ew in H. exact H.
    + rewrite lookup_insert_ne by congruence. etrans; [|exact H]. apply absorb_same. unfold Send. apply submits_awaited. cbn. rewrite app_nil_r. eapply Forall_impl; [exact Hp|]. intros act [Hs _]. rewrite Hs, conf_node. congruence.
  - rewrite (lookup_insert_ne (wires cl)) by congruence. destruct (decide (y = a)) as [->|Hya].
    + assert (sa = s) as -> by congruence. exists (Send (conf a) s [as_message p]), sb. rewrite lookup_insert_eq, lookup_insert_ne by done. split_and!; [done..|]. unfold Send. destruct (submits_keep (conf a) ([as_message p] ≫= dispatch) s) as (-> & _). exact H.
    + exists sa, sb. by rewrite !lookup_insert_ne.
Qed.

Lemma cstep_in_step cl a b ev : cluster_ok cl → allowed cl ev → a ≠ b → smooth cl a b ev → in_step cl a b → in_step (cstep cl ev) a b.
Proof.
  intros Hok Ha Hne Hsm Hin. destruct ev as [n l|x y|x y].
  - destruct (decide (n = a)) as [->|Hna]; [by apply sender_in_step|]. apply at_other; [done| |done]. intros s Es ->. destruct (ck_services cl Hok b s Es) as [Hb Hs]. destruct (at_node_elim _ _ _ s Ha Es) as [Had Ho]. destruct Hsm as [_ Hf].
    apply step_awaited; [apply shuffle_perm|done..|by apply (at_node_elim _ _ _ s (Hf eq_refl))].
  - by apply transfer_in_step.
  - destruct Hin as (sa & sb & Ea & Eb & H). exists sa, sb. split_and!; [done..|]. unfold wire. cbn. by rewrite lookup_insert_ne by (intros [= -> ->]; by apply Hsm).
Qed.

(** *** Nobody else is listed *)

Definition member (cl : cluster) (b n : string) : Prop := is_Some (services cl !! n) ∧ n ≠ b.

Record origins (cl : cluster) : Prop := {
  og_wire a b : wire cl a b ≠ [] → member cl b a;
  og_unheard b s n : services cl !! b = Some s → ¬ member cl b n → unheard n s
}.

Lemma services_dom cl ev n : is_Some (services (cstep cl ev) !! n) ↔ is_Some (services cl !! n).
Proof.
  destruct ev as [m l|a b|a b]; cbn [cstep]; [|destruct (wire cl a b); [done|]|done].
  - destruct (services cl !! m) eqn:E; [|done]. cbn. destruct (decide (m = n)) as [->|Hn]; [by rewrite lookup_insert_eq, E|by rewrite lookup_insert_ne].
  - destruct (services cl !! b) eqn:E; [|done]. cbn. destruct (decide (b = n)) as [->|Hn]; [by rewrite lookup_insert_eq, E|by rewrite lookup_insert_ne].
Qed.

Lemma member_step cl ev b n : member (cstep cl ev) b n ↔ member cl b n.
Proof. unfold member. by rewrite services_dom. Qed.

Lemma posted_elsewhere n l s b : sound (conf n) s → n ≠ "" → admissible s l → omap (λ x, if delivered x then told_item b x else None) (new_effects s (node_step n s l)) ≠ [] → n ≠ b.
Proof.
  intros Hs Hn Ha Hne ->. apply Hne, elem_of_nil_inv. intros p (x & Hx & Hp)%list_elem_of_omap. assert (sound (conf b) (node_step b s l)) as (_ & [HG _] & _) by (apply step_sound; [apply shuffle_perm|by rewrite conf_node|done..]).
  rewrite step_log in HG by done. apply Forall_app in HG as [_ HG]. rewrite Forall_forall in HG. specialize (HG x Hx). destruct (delivered x); [|done]. destruct x as [[n' t data|m k g pids|from to t] o|q|q]; try done. cbn in Hp. case_bool_decide; [|done].
  destruct HG as [HG _]. rewrite conf_node in HG. done.
Qed.

Lemma cstep_origins cl ev : cluster_ok cl → allowed cl ev → origins cl → origins (cstep cl ev).
Proof.
  intros [H1 H2] Ha [O1 O2]. destruct ev as [n l|a b|a b].
  - destruct (services cl !! n) as [s|] eqn:E; [|unfold cstep; rewrite E; by split]. destruct (H1 n s E) as [Hn Hs]. destruct (at_node_elim _ _ _ s Ha E) as [Had Ho]. split.
    + intros x b. rewrite member_step, (At_wire cl n l s) by done. case_decide as Ex; [|rewrite app_nil_r; apply O1]. subst x. intros Hw. split; [by rewrite E|]. destruct (wire cl n b) eqn:Ew; [by eapply posted_elsewhere|]. apply O1. by rewrite Ew.
    + intros b s' k Eb. rewrite member_step. intros Hk. unfold cstep in Eb. rewrite E in Eb. cbn in Eb. apply lookup_insert_Some in Eb as [[<- <-]|[_ Eb]]; [|by eapply O2]. apply step_unheard; [apply shuffle_perm|done..|by eapply O2].
  - pose proof (member_step cl (Transfer a b)) as HM. unfold cstep in HM |- *. destruct (wire cl a b) as [|p rest] eqn:Ew; [by split|]. destruct (services cl !! b) as [s|] eqn:E; [|by split]. assert (member cl b a) as Hab by (apply O1; by rewrite Ew).
    split.
    + intros x y Hw. rewrite HM. unfold wire in Hw. cbn in Hw. destruct (decide ((a, b) = (x, y))) as [[= <- <-]|Hne]; [done|]. rewrite lookup_insert_ne in Hw by done. by apply O1.
    + intros y s' n Ey. rewrite HM. intros Hn. cbn in Ey. apply lookup_insert_Some in Ey as [[<- <-]|[_ Ey]]; [|by eapply O2]. apply submits_unheard; [by eapply O2|]. cbn. rewrite app_nil_r. assert (Forall (from_here (conf a)) (understood p)) as Hp by (apply (H2 a b); rewrite Ew; by left).
      eapply Forall_impl; [exact Hp|]. intros act [Hsn _]. rewrite Hsn, conf_node. intros [= ->]. by apply Hn.
  - split; [|done]. intros x y Hw. unfold member. cbn. unfold wire at 1 in Hw. cbn in Hw. destruct (decide ((a, b) = (x, y))) as [[= <- <-]|Hne]; [|rewrite lookup_insert_ne in Hw by done; by apply O1]. rewrite lookup_insert_eq in Hw. cbn in Hw. apply O1. by destruct (wire cl a b).
Qed.

(** *** Runs *)

Lemma start_ok ns : "" ∉ ns → cluster_ok (start ns) ∧ origins (start ns).
Proof.
  intros Hns. assert (∀ n s, services (start ns) !! n = Some s → n ∈ ns ∧ s = NewService (conf n)) as HE.
  { intros n s Hs. cbn in Hs. apply lookup_set_to_map in Hs as (x & Hx & [= -> ->]); done. }
  split; split.
  - intros n s [Hn ->]%HE. split; [by intros ->|]. split_and!; [apply new_service_ok|by split|done|done].
  - intros a b p. unfold wire. cbn. rewrite lookup_empty. by intros ?%elem_of_nil.
  - intros a b. unfold wire. cbn. by rewrite lookup_empty.
  - intros b s n [Hb ->]%HE _. split; [|done]. intros h. done.
Qed.

Lemma crun_ok evs cl : cluster_ok cl ∧ origins cl → allowed_run cl evs → cluster_ok (crun cl evs) ∧ origins (crun cl evs).
Proof. revert cl. induction evs as [|ev evs IH]; intros cl [H1 H2]; cbn; [done|]. intros [Ha Hl]. apply IH; [|done]. split; [by apply cstep_ok|by apply cstep_origins]. Qed.

Lemma crun_dom evs cl n : is_Some (services (crun cl evs) !! n) ↔ is_Some (services cl !! n).
Proof. revert cl. induction evs as [|ev evs IH]; intros cl; cbn; [done|]. by rewrite IH, services_dom. Qed.

Fixpoint smooth_run (cl : cluster) (a b : string) (evs : list event) : Prop := match evs with [] => True | ev :: evs => smooth cl a b ev ∧ smooth_run (cstep cl ev) a b evs end.

(** At some point of the run the full state was sent, and all went smoothly since. *)
Definition synced (cl : cluster) (a b : string) (evs : list event) : Prop :=
  ∃ before ev after, evs = before ++ ev :: after ∧ let cl := crun cl before in syncs cl a b ev ∧ smooth_run cl a b (ev :: after).

(** All that the one sent to the other has been worked off. *)
Definition drained (cl : cluster) (a b : string) : Prop := wire cl a b = [] ∧ at_node cl b (λ s, Forall (λ act, sender act ≠ Some a) (actions s)).

Lemma crun_app cl l l' : crun cl (l ++ l') = crun (crun cl l) l'.
Proof. revert cl. induction l as [|ev l IH]; intros cl; cbn; [done|apply IH]. Qed.

Lemma allowed_app cl l l' : allowed_run cl (l ++ l') ↔ allowed_run cl l ∧ allowed_run (crun cl l) l'.
Proof. revert cl. induction l as [|ev l IH]; intros cl; cbn; [tauto|]. rewrite IH. tauto. Qed.

Lemma smooth_in_step evs cl a b : cluster_ok cl ∧ origins cl → allowed_run cl evs → a ≠ b → smooth_run cl a b evs → in_step cl a b → in_step (crun cl evs) a b.
Proof.
  revert cl. induction evs as [|ev evs IH]; intros cl [H1 H2]; cbn; [done|]. intros [Ha Hl] Hne [Hs Hr] Hin. apply IH; [split; [by apply cstep_ok|by apply cstep_origins]|done..|by apply cstep_in_step].
Qed.

Lemma synced_in_step evs cl a b : cluster_ok cl ∧ origins cl → allowed_run cl evs → a ≠ b → is_Some (services cl !! b) → synced cl a b evs → in_step (crun cl evs) a b.
Proof.
  intros Hok Ha Hne Hb (before & ev & after & -> & Hsy & Hsm). rewrite crun_app. apply allowed_app in Ha as [Ha1 [Ha2 Ha3]]. destruct (crun_ok before cl Hok Ha1) as [K1 K2]. cbn in Hsm |- *. destruct Hsm as [Hs1 Hs2].
  apply smooth_in_step; [split; [by apply cstep_ok|by apply cstep_origins]|done..|]. apply syncs_in_step; [done..|by apply crun_dom].
Qed.

(** The other nodes' processes, as a node lists them *)
Lemma drained_view cl a b sa sb : in_step cl a b → drained cl a b → services cl !! a = Some sa → services cl !! b = Some sb → ∀ g, view (st sb) a g ≡ₚ local_members (st sa) g.
Proof.
  intros (sa' & sb' & Ea & Eb & H) [Hw Hd] Ea' Eb'. assert (sa' = sa) as -> by congruence. assert (sb' = sb) as -> by congruence. intros g. specialize (H g). rewrite Hw in H. unfold awaited in H.
  assert (base.filter (λ act, sender act = Some a) (actions sb) = []) as E. { apply elem_of_nil_inv. intros x [Hx Hin]%list_elem_of_filter. by apply (proj1 (Forall_forall _ _) (at_node_elim _ _ _ sb Hd Eb) x Hin). }
  by rewrite E in H.
Qed.

(** C0. Nodes agree: in a cluster whose connections keep the order of packages but may lose
    them, if every node sent its full state to every other one at some point, and from
    there on nothing between the two was lost, refused, repeated or forgotten, then, when
    all packages have been worked off, every node's readers see for every group exactly
    what the processes of all nodes have joined, with multiplicity, whatever was lost
    before. *)
Theorem nodes_agree ns evs : "" ∉ ns → allowed_run (start ns) evs → let cl := crun (start ns) evs in
  (∀ a b, a ∈ ns → b ∈ ns → a ≠ b → synced (start ns) a b evs ∧ drained cl a b) →
  ∀ b s g, services cl !! b = Some s → GetMembers s g ≡ₚ elements ns ≫= λ n, match services cl !! n with Some x => local_members (st x) g | None => [] end.
Proof.
  intros Hns Ha cl Hall b s g Eb. pose proof (start_ok ns Hns) as H0. destruct (crun_ok evs (start ns) H0 Ha) as [[K1 K2] [O1 O2]]. fold cl in K1, K2, O1, O2.
  assert (∀ n, is_Some (services cl !! n) ↔ n ∈ ns) as Hdom. { intros n. unfold cl. rewrite crun_dom. cbn. split; [intros [s' (x & Hx & [= -> _])%lookup_set_to_map]; done|]. intros Hn. exists (NewService (conf n)). apply lookup_set_to_map; [done|]. by exists n. }
  destruct (K1 b s Eb) as [_ (Hs & _)]. rewrite (published_members s g Hs), members_split by apply Hs. assert (b ∈ ns) as Hb by (apply Hdom; eauto).
  set (D := elements (ns ∖ {[b]})). assert (elements ns ≡ₚ b :: D) as -> by (unfold D; rewrite (union_difference_singleton_L b ns Hb) at 1; rewrite elements_union_singleton by set_solver; done). cbn [mbind list_bind]. rewrite Eb. f_equiv.
  rewrite (remote_by_views_of (st s) D g).
  - apply bind_perm_ext. intros n [Hn Hnb]%elem_of_elements%elem_of_difference. destruct (services cl !! n) as [x|] eqn:En; [|exfalso; apply Hdom in Hn as [x Hx]; congruence]. assert (n ≠ b) as Hne by set_solver. destruct (Hall n b Hn Hb Hne) as [Hsy Hdr].
    eapply drained_view; [|exact Hdr|done..]. apply synced_in_step; [done|done|done| |done]. apply (crun_dom evs). fold cl. by rewrite Eb.
  - apply NoDup_elements.
  - intros n Hn. destruct (O2 b s n Eb) as [Hv _]; [|apply Hv]. intros [Hm Hnb]. apply Hn. unfold D. apply elem_of_elements. apply Hdom in Hm. set_solver.
Qed.

End cluster.

(** *** Anti-entropy *)

Section anti_entropy.
Context (shuffle : ∀ A, list A → list A) (victim : gmap string circuitBreaker → string) (c : config) (e : env).

Notation peers := (membershipAlivePeers c e).
Notation tick := (reconcileOnce shuffle victim c e).

Definition next_peer (s : Service) : nat := if bool_decide (length peers ≤ antiEntropyCursor s)%nat then 0%nat else antiEntropyCursor s.

Lemma tick_cursor s : peers ≠ [] → next_peer (tick s) = (S (next_peer s) mod length peers)%nat ∧ (next_peer s < length peers)%nat.
Proof.
  intros Hne. assert (0 < length peers)%nat as Hl by (destruct peers; [done|cbn; lia]). assert (next_peer s < length peers)%nat as Hi by (unfold next_peer; case_bool_decide; lia). split; [|done]. unfold reconcileOnce. fold (next_peer s).
  destruct (lookup_lt_is_Some_2 peers _ Hi) as [target ->]. unfold next_peer at 1. cbn [antiEntropyCursor set_nt set_st set_cursor]. case_bool_decide.
  - assert (S (next_peer s) = length peers) as -> by lia. by rewrite Nat.Div0.mod_same.
  - rewrite Nat.mod_small by lia. done.
Qed.

Lemma ticks_cursor k s : peers ≠ [] → next_peer (Nat.iter k tick s) = ((next_peer s + k) mod length peers)%nat.
Proof.
  intros Hne. destruct (tick_cursor s Hne) as [_ Hi]. induction k as [|k IH]; [cbn; rewrite Nat.add_0_r, Nat.mod_small; done|]. rewrite Nat.iter_succ. destruct (tick_cursor (Nat.iter k tick s) Hne) as [-> _]. rewrite IH.
  rewrite <- Nat.add_1_r, Nat.Div0.add_mod_idemp_l. f_equal. lia.
Qed.

(** C0. Anti-entropy reaches every node: with the membership of the cluster unchanged, each
    other node is the target of a full announcement within as many ticks as there are other
    nodes, wherever the rotation stands. *)
Theorem anti_entropy_reaches s b : b ∈ nodes e → b ≠ localNodeID c →
  ∃ k, (k < length peers)%nat ∧ let s' := Nat.iter k tick s in Exists (λ x, is_sync b x = true) (new_effects s' (tick s')).
Proof.
  intros Hb Hl. assert (b ∈ peers) as Hin by (by apply list_elem_of_filter). destruct (list_elem_of_lookup_1 _ _ Hin) as [j Hj]. pose proof (lookup_lt_Some _ _ _ Hj) as Hjl. assert (peers ≠ []) as Hne by (intros E; by rewrite E in Hj).
  destruct (tick_cursor s Hne) as [_ Hi]. exists ((j + (length peers - next_peer s)) mod length peers)%nat. split; [apply Nat.mod_upper_bound; lia|]. cbn zeta. set (s' := Nat.iter _ tick s). assert (next_peer s' = j) as E.
  { unfold s'. rewrite ticks_cursor by done. rewrite Nat.Div0.add_mod_idemp_r. assert (next_peer s + (j + (length peers - next_peer s)) = j + 1 * length peers)%nat as -> by lia. rewrite Nat.Div0.mod_add, Nat.mod_small; done. }
  unfold new_effects, reconcileOnce. fold (next_peer s'). rewrite E, Hj. cbn [nt set_nt]. destruct (send_log victim e true b (Protocol b TopicSync (sync_data shuffle c (know (st s') b))) (nt s')) as [o Ho]. unfold sendSync. rewrite Ho, drop_app_length.
  apply Exists_cons_hd. cbn. by apply bool_decide_eq_true.
Qed.

End anti_entropy.

(** ** Example *)

#[export] Instance topic_eq_dec : EqDecision topic.
Proof. solve_decision. Defined.

#[export] Instance message_topic_eq_dec : EqDecision message_topic.
Proof. solve_decision. Defined.

#[export] Instance at_node_dec cl n P `{∀ s, Decision (P s)} : Decision (at_node cl n P).
Proof. unfold at_node. destruct (services cl !! n); apply _. Defined.

#[export] Instance own_dec l : Decision (own l).
Proof. destruct l; cbn; apply _. Defined.

#[export] Instance knows_dec b l : Decision (knows b l).
Proof. destruct l; cbn; apply _. Defined.

#[export] Instance allowed_dec cl ev : Decision (allowed cl ev).
Proof. destruct ev; cbn; apply _. Defined.

#[export] Instance allowed_run_dec shuffle victim conf cl evs : Decision (allowed_run shuffle victim conf cl evs).
Proof. revert cl. induction evs as [|ev evs IH]; intros cl; cbn; apply _. Defined.

#[export] Instance smooth_dec shuffle victim conf cl a b ev : Decision (smooth shuffle victim conf cl a b ev).
Proof. destruct ev; cbn; apply _. Defined.

#[export] Instance smooth_run_dec shuffle victim conf cl a b evs : Decision (smooth_run shuffle victim conf cl a b evs).
Proof. revert cl. induction evs as [|ev evs IH]; intros cl; cbn; apply _. Defined.

#[export] Instance syncs_dec shuffle victim conf cl a b ev : Decision (syncs shuffle victim conf cl a b ev).
Proof. destruct ev as [n l| |]; cbn; [destruct (services cl !! a)|..]; apply _. Defined.

#[export] Instance drained_dec cl a b : Decision (drained cl a b).
Proof. unfold drained. apply _. Defined.

Definition two_config (n : string) : config := mkConfig "pg" n 0 0 8 3 100 1000 3 1000.

Notation two_run := (crun (λ _, @in_order) (λ _, first_key) two_config).

(** Both nodes start, and all they tell each other at first is lost; then each sends its
    state, and a process joins another group in between. *)
Definition two_events : list event :=
  [At "n1" (LStart calm (λ _ _, 0%nat) true); At "n2" (LStart calm (λ _ _, 0%nat) true); At "n1" (LWork calm); At "n2" (LWork calm); Lose "n1" "n2"; Lose "n2" "n1";
   At "n1" (LSubmit (DoJoin "g" ann)); At "n1" (LWork calm); Lose "n1" "n2"; At "n2" (LSubmit (DoJoinGroups ["g"; "g"] eve)); At "n2" (LWork calm); Lose "n2" "n1";
   At "n1" (LSubmit DoReconcile); At "n1" (LWork calm); At "n2" (LSubmit DoReconcile); At "n2" (LWork calm);
   At "n1" (LSubmit (DoJoin "k" ann)); At "n1" (LWork calm); Transfer "n1" "n2"; At "n2" (LWork calm); Transfer "n2" "n1"; At "n1" (LWork calm); Transfer "n1" "n2"; At "n2" (LWork calm)].

Definition two_nodes : gset string := {["n1"; "n2"]}.

Lemma synced_at shuffle victim conf cl a b evs k ev : evs !! k = Some ev → syncs shuffle victim conf (crun shuffle victim conf cl (take k evs)) a b ev →
  smooth_run shuffle victim conf (crun shuffle victim conf cl (take k evs)) a b (drop k evs) → synced shuffle victim conf cl a b evs.
Proof. intros E Hs Hr. exists (take k evs), ev, (drop (S k) evs). rewrite (drop_S evs ev k E) in Hr. split; [by rewrite take_drop_middle|done]. Qed.

Lemma two_pairs a b : a ∈ two_nodes → b ∈ two_nodes → a ≠ b → (a = "n1" ∧ b = "n2") ∨ (a = "n2" ∧ b = "n1").
Proof. unfold two_nodes. rewrite !elem_of_union, !elem_of_singleton. intros [->| ->] [->| ->] H; tauto. Qed.

Lemma nodes_agree_witness :
  let cl := two_run (start two_config two_nodes) two_events in
  ∀ s, services cl !! "n2" = Some s → GetMembers s "g" ≡ₚ [eve; eve; ann] ∧ GetMembers s "k" ≡ₚ [ann].
Proof.
  intros cl s Es. assert (∀ g, GetMembers s g ≡ₚ elements two_nodes ≫= λ n, match services cl !! n with Some x => local_members (st x) g | None => [] end) as H.
  { intros g. apply (nodes_agree (λ _, @in_order) (λ _, first_key) two_config) with (b := "n2"); [by intros; apply in_order_perm|done|by apply (bool_decide_unpack _); vm_compute|apply (bool_decide_unpack _); vm_compute; exact I| |exact Es].
    intros a b Ha Hb Hne. destruct (two_pairs a b Ha Hb Hne) as [[-> ->]|[-> ->]].
    - split; [apply (synced_at _ _ _ _ _ _ _ 13 (At "n1" (LWork calm))); [done|..]|]; apply (bool_decide_unpack _); vm_compute; exact I.
    - split; [apply (synced_at _ _ _ _ _ _ _ 15 (At "n2" (LWork calm))); [done|..]|]; apply (bool_decide_unpack _); vm_compute; exact I. }
  split; rewrite H; vm_compute; [apply (Permutation_app_comm [_] [_; _])|done].
Defined.

Lemma anti_entropy_reaches_witness :
  ∃ k, (k < 1)%nat ∧ let s' := Nat.iter k (reconcileOnce (@in_order) first_key (two_config "n1") calm) (NewService (two_config "n1")) in
  Exists (λ x, is_sync "n2" x = true) (new_effects s' (reconcileOnce (@in_order) first_key (two_config "n1") calm s')).
Proof. apply (anti_entropy_reaches (@in_order) first_key (two_config "n1") calm (NewService (two_config "n1")) "n2"); [by right; left|done]. Defined.

(** ** An announcement that is repeated *)

Definition faulty : env := mkEnv (λ _, 0) (λ _ _, Some ErrOther) ["n1"; "n2"] (λ _, false).
Definition later : env := mkEnv (λ _, 1000) (λ _ _, None) ["n1"; "n2"] (λ _, false).

(** The announcement of a join fails and is to be repeated, the full state is sent before
    it is, and then it is repeated. *)
Definition repeated_events : list event :=
  [At "n1" (LStart calm (λ _ _, 0%nat) true); At "n2" (LStart calm (λ _ _, 0%nat) true); At "n1" (LWork calm); At "n2" (LWork calm); Lose "n1" "n2"; Lose "n2" "n1";
   At "n1" (LSubmit (DoJoin "g" ann)); At "n1" (LWork faulty); At "n1" (LSubmit DoReconcile); At "n1" (LWork calm); Transfer "n1" "n2"; At "n2" (LWork calm);
   At "n1" (LTakeRetries later); At "n1" (LRetry later); Transfer "n1" "n2"; At "n2" (LWork calm)].

(** The process is then listed twice on the other node, though it joined once. *)
Lemma retried_join_counts_twice :
  let cl := two_run (start two_config two_nodes) repeated_events in
  (λ s, local_members (st s) "g") <$> services cl !! "n1" = Some [ann] ∧ (λ s, GetMembers s "g") <$> services cl !! "n2" = Some [ann; ann].
Proof. vm_compute. done. Qed.

End PgCluster.
